(* ===== verification/_CoqProject ===== *)
-Q . S2P
Prelude.v
Double.v
Utils.v
Statistics.v
Storage.v
Coding.v
Wire.v
PlainWire.v
SearchStore.v
Codec.v
DocList.v
Heap.v
MergeOperator.v
Iterators.v
VirtualDB.v
WriteDB.v
MergeSchedule.v
VirtualDBMock.v
Query.v
Document.v
WireStore.v
Utf8.v
Utf8Convert.v
Darts.v
DartsBuild.v
IniParser.v
Corpus.v
Synonyms.v
Tagger.v
MMThunk.v
Segmenter.v
SegmentCorrect.v
Tokenizer.v
CorpusText.v
DocumentWriter.v
IndexWriter.v
Sequences.v
Maintenance.v
Scan.v
TermDiff.v
IndexConsistency.v
IndexCorrect.v
Library.v
Filter.v
Sorter.v
Collector.v
TopN.v
Searcher.v
SearchCorrect.v
RocksDB.v
RocksCorrect.v
IndexWrapper.v
BoundedQueue.v
LockFreeQueue.v
MergingIterator.v
