(* ===== verification/Prelude.v ===== *)
(** * wwsearch: a verification library

    wwsearch is an inverted-index search engine on top of a key-value store.
    Documents of a table are written through an index writer, which keeps,
    per field and term, a list of the ids of the documents that have the term;
    queries are answered by intersecting and joining such lists, filtering and
    ranking the documents found.  This library models the engine (everything
    below names files of [src/wwsearch]; [include/] and [src/] of it are not
    spelled out) and proves that what is stored and what is found agree.

    ** How the parts interact

    A write: [IndexWriter::UpdateDocuments] reads the stored documents
    ([VirtualDB::MultiGet]), decides per document, and calls
    [DocumentWriter::UpdateDocuments], which tokenizes, computes the difference
    of the terms and puts stored fields, doc values and document lists into a
    [WriteBuffer]; [VirtualDB::FlushBuffer] applies it, merging document lists
    with the merge operator.  A search: [Searcher::DoQuery] turns a [Query]
    into a weight, the weight into a scorer, the scorer into an iterator over
    document lists, and feeds its ids to a [Collector], which reads doc values,
    filters and keeps the best documents in a priority queue.

    ** Files

    Foundations
    - [Prelude]: octets and machine integers ([u8] to [u64] wrap as the
      unsigned types do), lists sorted by a comparison ([om_insert],
      [om_erase], [om_merge]), sorted enumerations, lexicographic order,
      [fold] and monad lemmas, the tactics and the hint databases.
    - [Double]: IEEE floating point; [Utils]: the string utilities,
      [utils.h/.cpp].
    - [Storage]: [search_status.h], [storage_type.h], [index_config.h].
    - [Coding]: [coding.h/.cpp], [search_slice.h/.cpp].
    - [Wire]: the protobuf wire format, from the headers under
      [deps/protobuf]: streams over an array, tags, the loop that generated
      parsers share, over a class of the functions that only the library's
      binary has ([CodedLib]) with their documented behaviour
      ([CodedLibLaws]).  [PlainWire]: a small such library.
    - [SearchStore]: the generated messages, [search_store.pb.h/.cc].
    - [Heap]: the array heap, of [virtual_db_rocks.cpp] and of the standard
      library's [push_heap]/[pop_heap].
    - [Utf8]: decoding, encoding and validation of the UTF-8 library,
      [utf8_suffixbuilder.cpp]; [Utf8Convert]: its navigation backwards, its
      conversions, iterators and unchecked interface.

    The index
    - [Codec]: the keys, [codec_impl.cpp].
    - [DocList]: the values, [codec_doclist_impl], [doclist_compression].
    - [MergeOperator]: [DocListMergeOperator] and [OptimizeMerger] of
      [virtual_db_rocks.cpp].
    - [Iterators]: [doc_iterator.h], [merge_iterator.cpp], [or_iterator.cpp].
    - [Query]: queries, weights and scorers.

    The store
    - [VirtualDB], [WriteDB]: what readers and writers rely on, as type
      classes ([VirtualDB], [WriteBuffer], [WriteDB]) with their laws
      ([VirtualDBLaws], [WriteLaws]).
    - [VirtualDBMock]: [virtual_db_mock.cpp] and [write_buffer_mock.cpp], an
      instance of those laws.
    - [MergeSchedule]: proofs, that it does not matter when RocksDB merges
      what: every schedule of partial and full merges ([collapse]) leads to the
      same value.
    - [RocksDB]: the binding, [virtual_db_rocks], [write_buffer_rocks], over a
      class of RocksDB's operations ([RocksDB]) with the laws of its
      documentation ([RocksLaws]).  Those do not say that a failure comes with
      a message; without one the binding reads a null pointer ([silent]).  The
      binding with such calls answered instead ([calm_write_db]) is a second
      instance of the laws of the store ([rocks_db_laws], [rocks_write_laws]),
      and the binding itself is the same up to the first such call.
      [RocksCorrect]: the engine on it.
    - [MergingIterator]: [iterator_wrapper_rocks.h],
      [merger_iterator_rocks.cpp], the iterators of [search_iterator.h].

    Writing
    - [Document]: [index_field.cpp], [document.cpp]; [WireStore]: the
      serializers it and [VirtualDBMock] rely on, made of the messages;
      [Tokenizer]:
      [tokenizer_impl.cpp], [tokenizer_mmseg.cpp], the second over the
      segmenter.
    - [DocumentWriter], [IndexWriter]: the files of the same names.
    - [TermDiff], [IndexConsistency], [IndexCorrect]: proofs only, from the
      flags of one updater to the whole batch.
    - [Library]: the engine as its users see it, an abstract library of
      documents that batches, searches and compactions act on ([spec_step]),
      and the proof that the writer and the scorers over any store refine it.
    - [Sequences], [Maintenance]: the sequences of a table and the removal of
      a table ([DropTable], [DeleteTableData]).

    The segmenter ([deps/tokenizer])
    - [Darts]: the double array of [darts.h] and the dictionaries on it,
      [UnigramDict.cpp], [SynonymsDict.cpp], as they are loaded and asked;
      [DartsBuild]: the construction of an array.
    - [Corpus]: [UnigramCorpusReader.cpp] and the way of a corpus into a file;
      [Synonyms]: the same for synonyms.  The file a tool saves is the one that
      [SegmenterManager::init] loads; a directory is a function from names to
      octets.
    - [IniParser]: the configuration, [iniparser.c] and [dictionary.c].
    - [CorpusText]: proofs, that a dictionary made of a corpus of text serves
      every text, up to the tokenizer over it.
    - [Tagger]: the decoder of [Utf8_16.cpp] and the classes of characters of
      [SegmentPkg.cpp].
    - [MMThunk]: [mmthunk.h/.cpp], the rules that choose among phrases.
    - [Segmenter]: [segmenter.cpp], [SegmenterManager.cpp],
      [mmseg_wrapper.cpp]; [SegmentCorrect]: proofs about it.

    Putting it together
    - [IndexWrapper]: [index_wrapper], [index_config], the opening of the
      index writer and the directory of the dictionary.

    Searching
    - [Filter]: [filter.h]; [Sorter]: [sorter.h]; [Collector]:
      [collector_top.cpp], [post_scorer.cpp].
    - [TopN]: proofs, what the priority queues of the collector keep.
    - [Searcher]: [searcher.cpp]; [Scan]: its scans of a table.
    - [SearchCorrect]: proofs, a query from the index to its page.

    Concurrency
    - [BoundedQueue]: [FixLenLockFreeQueue] of [lockfree_queue.h];
      [LockFreeQueue]: the unbounded queue of the same file.

    Statistics
    - [Statistics]: [stat_collector], [staticstic], [tracer.h].

    ** Reading the definitions

    A definition carries the name of the function it models, prefixed by the
    class where two classes share a name; members keep their names, the
    trailing underscore included.  State is passed explicitly: an operation of
    a class takes and returns the record of the class.  [option] is the effect
    of the code that can stop: [None] is a failed [assert], a null dereference,
    an access outside of a buffer, or exhausted fuel, as each file says.
    Errors the code reports are values of [SearchStatus] and not [None].
    Pointers into buffers are the rest of the buffer; database iterators are
    the list of the entries they still yield, except in [MergingIterator].

    ** Fuel

    Loops that are not structural run on fuel that is computed from their
    input and proved sufficient, so no theorem rests on a fuel the caller has
    to choose.  The merge of document lists gets one step per entry left in its
    cursors; a generated parser one step per octet plus one; the iterators one
    step per id left ([remaining]) plus one; the binary search of a reader the
    number of its entries; the UTF-8 loops one step per octet; the tokenizers
    and the segmenter one per octet, the matching of a chunk one per offset; the
    construction of a double array one per depth of its keys, its search for a
    place one per position up to the end of what is taken, and 513 more; the
    loading of a configuration one per octet, the comparison of two words 129,
    after which its index is negative.  Each of the theorems states that the operation returns.
    [GetScorer n] takes the depth of the query
    tree it is to answer, and the theorems hold of any [n] that is large
    enough.  The queues are step relations and have no fuel.

    ** What the theorems show

    - The engine ([Library], [IndexWrapper]): what the wrapper opens, with
      either store and codec, and with the segmenter over a dictionary made of a
      corpus or with the blank tokenizer, answers every sequence of batches,
      searches and compactions as the abstract library of documents does.  A
      request has to be admissible where it comes: a batch as [write_input] asks
      for, a query of known kinds within the limits of prefixes.  The library may
      refuse a batch, and then nothing has changed; when a batch is accepted the
      theorem says what it did.  On RocksDB that holds up to the first write or
      compaction that is refused without a message, where the process stops, or
      that leaves a key with as many operands as 32 bits count.
    - [write_input]: no id occurs twice in the batch; no field has the flag
      [kNotStoreInvertTermFieldFlag] ([ifield_in]), because the terms of the old
      document are read from where such a field does not store them; ids, field
      ids and flags fit their widths and the tokenizer accepts the fields; the
      lists have room below the limit of the store; and an addition without
      reading is of new ids.  The examples [twice_in_a_batch] and
      [unstored_terms_stay] show what becomes of the index without the first
      two.  Messages are parsed back as they were written ([StoreProtoLaws]);
      protobuf does so below 64 MB, and the process stops on a larger one.
    - End to end ([IndexCorrect], [SearchCorrect]): writing a batch keeps the
      invariant [consistent], which says that the list under an index key holds
      exactly the stored documents that are indexed under it; what an accepted
      batch stores per mode; a query over a consistent index returns exactly
      the documents that match; hence a search after a write finds a written
      document iff it matches; and [DoQuery] returns the right page of them.
      They hold for every store, tokenizer and serialization with the stated
      laws; the witnesses instantiate them with the mock store and run them.
      On RocksDB compactions between a write and a search are invisible
      ([RocksCorrect]).
    - Components: the merge operator refines the overlay of its lists and
      merging in steps changes nothing, in any schedule; a flush to RocksDB that
      returns does what the buffer says, a compaction changes no answer, a buffer
      survives as bytes; the conjunction, the disjunction and
      the merging iterator refine intersection, union and sorted union of
      their parts, over any implementation of the iterator interface; flushing
      applies the pending operation of every key, and a range that holds a key
      is undefined behaviour in the mock store; the collector's order is a
      strict weak one; filters combine as documented.
    - Data: document lists, documents, keys, integers and UTF-8 round trip; the
      order of the encoded keys is the order of what they encode.  A stored
      document goes through the wire format and comes back; parsing ends on
      every input and only gives well-formed messages ([WireStore]).  The
      conversions between the Unicode encodings are inverse to each other.
      A histogram is a summary of exactly the values it was given; its least
      value starts from the last bucket limit.
    - Dictionaries ([Darts], [DartsBuild], [Corpus], [Synonyms], [IniParser]):
      from the text of a corpus through import, saving and loading comes an
      array that holds the words of the corpus and no others, which the prefix
      search finds; the same for synonyms and their replacements, provided that
      there are enough words for the first allocation ([fits]); a configuration
      is read as its assignments say.
    - Segmenting ([MMThunk], [SegmentCorrect], [Tokenizer]): a chunk is cut into
      first words of longest phrases; the segmenter ends on every string it
      accepts ([accepts]), its tokens are the text cut into pieces, and of well-formed text every piece
      is whole characters, under whose lower-cased forms the field is indexed.
      What is asked of a dictionary is [dict_ok], which [dict_check] decides
      for a text, and which a dictionary has for every text when its corpus is
      of words of plain characters of at most 15 octets whose frequencies do
      not vanish modulo 2^16 ([text_corpus]).  A tokenizer tells which fields it accepts ([accepted]): the
      segmenting one those of less than 2^16 - 4 octets, without synonyms, and
      without joint characters unless the text is well-formed.
    - Scans and maintenance: a page of a scan delivers the next entries; what a
      drop covers and what survives it; what a step of a deletion removes;
      allocated sequences are fresh.
    - Concurrency: under every interleaving of any number of threads the
      bounded queue stays within its capacity and delivers in order, each value
      once, and the unbounded one is a linearizable stack; a thread running
      alone finishes.
    - Bounds: machine arithmetic wraps in the definitions; where a theorem needs
      that a counter does not wrap, the bound is a hypothesis of it (document
      lists below 2^32 entries, fewer than 2^62 values pushed into the queue).
      A store keeps lists whole up to a limit of its own ([doc_limit]); for
      RocksDB it is the maximum of the merge operator, at most 10^8, which keeps
      encoded lists below the 2^31 octets the operator asserts, and partial
      merges are taken to carry at most the ten million deletions after which
      the operator gives up ([moderate]).

    ** What is not modelled

    - RocksDB itself: a parameter with laws.  A small library that keeps the
      laws ([RocksDB.Model]) shows that they can be kept and runs the examples.
      The tuning of its options, the block cache and its statistics are left
      out; the write queue is an interface without implementation.
    - Snapshots: a database value is its own snapshot.
    - Logging ([logger]) and the printing of reports.  The engine calls the
      statistics and the tracer of [Statistics] in many places; those calls
      change nothing else and are left out of its definitions.
    - Command lines, benchmarks and tests; what the destructor of the wrapper
      frees.
    - Memory: ownership, allocation and freeing, except in the queues,
      where a slot is either raw or holds a value and a node is moved out of
      once.  Memory there is sequentially consistent.
    - Third-party code under [deps]: RocksDB, and of protobuf what is not in
      its headers ([CodedLib]).  Documents and buffers see a serializer with a
      round trip ([StoreProto], [MockProto]), which the generated messages
      implement for messages below the 64 MB the library reads.
      Descriptors, reflection and streams of several chunks are left out.
    - Of the segmenter the thesaurus, the readers and writers of UTF-16 files and
      the lower-case tables, which nobody calls.  A file is read as a whole.  The
      logarithm of the C library is a parameter with two laws ([LogLaws]). *)
From stdpp Require Export base list option numbers tactics sorting sets.
From Stdlib Require Export ZArith Lia.

Global Open Scope Z_scope.

(** ** Bytes and machine integers *)

(** A byte string ([std::string], [Slice] contents): every element is an
    [unsigned char], i.e. an integer in [0,256). *)
Abbreviation bytes := (list Z) (only parsing).

Definition is_byte (b : Z) : Prop := 0 <= b < 256.
Abbreviation wf_bytes := (Forall is_byte) (only parsing).

(** Conversions to the unsigned types of the code (C++ unsigned arithmetic
    wraps modulo 2^w). *)
Definition u8 (z : Z) : Z := z mod 2 ^ 8.
Definition u16 (z : Z) : Z := z mod 2 ^ 16.
Definition u32 (z : Z) : Z := z mod 2 ^ 32.
Definition u64 (z : Z) : Z := z mod 2 ^ 64.

Definition UINT8_MAX : Z := 2 ^ 8 - 1.
Definition UINT64_MAX : Z := 2 ^ 64 - 1.

Definition is_u64 (z : Z) : Prop := 0 <= z < 2 ^ 64.
Definition is_u32 (z : Z) : Prop := 0 <= z < 2 ^ 32.

(** The object representation of an unsigned integer of [n] bytes on the
    little-endian targets the program supports. *)
Fixpoint le_bytes (n : nat) (z : Z) : bytes :=
  match n with
  | O => []
  | S n' => z mod 256 :: le_bytes n' (z / 256)
  end.

Fixpoint le_val (l : bytes) : Z :=
  match l with
  | [] => 0
  | b :: l' => b + 256 * le_val l'
  end.

(** Big-endian representation: what the keys of the store are made of. *)
Definition be_bytes (n : nat) (z : Z) : bytes := rev (le_bytes n z).

(** [memcmp]-style comparison of byte strings, the order of [std::string] and
    of the keys in the store. *)
Fixpoint bytes_cmp (a b : bytes) : comparison :=
  match a, b with
  | [], [] => Eq
  | [], _ :: _ => Lt
  | _ :: _, [] => Gt
  | x :: a', y :: b' =>
      match Z.compare x y with
      | Eq => bytes_cmp a' b'
      | c => c
      end
  end.

(** [memcmp(key.data(), prefix.data(), prefix.size()) == 0] with the size
    guard the code writes before it. *)
Fixpoint starts_with (p k : bytes) : bool :=
  match p, k with
  | [], _ => true
  | _ :: _, [] => false
  | x :: p', y :: k' => (x =? y) && starts_with p' k'
  end.

(** [std::string::find(pat) != npos]. *)
Fixpoint str_contains (pat s : bytes) : bool :=
  starts_with pat s ||
  match s with
  | [] => false
  | _ :: s' => str_contains pat s'
  end.

(** Descending order on document ids: [std::greater<DocumentID>]. *)
Definition Zcmp_desc (a b : Z) : comparison := Z.compare b a.

(** ** Ordered containers

    [std::map] and [std::set] are kept as strictly sorted association lists,
    since the code iterates over them and relies on their order. *)
Class TotalCmp {K : Type} (cmp : K -> K -> comparison) : Prop := {
  cmp_eq : forall a b, cmp a b = Eq <-> a = b;
  cmp_opp : forall a b, cmp b a = CompOpp (cmp a b);
  cmp_lt_trans : forall a b c, cmp a b = Lt -> cmp b c = Lt -> cmp a c = Lt
}.

Arguments cmp_eq {K} cmp {_} a b.
Arguments cmp_opp {K} cmp {_} a b.
Arguments cmp_lt_trans {K} cmp {_} a b c.

Section OrdMapDefs.
Context {K : Type} (cmp : K -> K -> comparison) {V : Type}.

Fixpoint om_find (k : K) (m : list (K * V)) : option V :=
  match m with
  | [] => None
  | (k', v) :: m' =>
      match cmp k k' with
      | Lt => None
      | Eq => Some v
      | Gt => om_find k m'
      end
  end.

(** [m[k] = v]. *)
Fixpoint om_insert (k : K) (v : V) (m : list (K * V)) : list (K * V) :=
  match m with
  | [] => [(k, v)]
  | (k', v') :: m' =>
      match cmp k k' with
      | Lt => (k, v) :: (k', v') :: m'
      | Eq => (k, v) :: m'
      | Gt => (k', v') :: om_insert k v m'
      end
  end.

(** [m.emplace(k, v)]: does nothing when the key is present. *)
Definition om_emplace (k : K) (v : V) (m : list (K * V)) : list (K * V) :=
  match om_find k m with
  | Some _ => m
  | None => om_insert k v m
  end.

(** [m.erase(k)]. *)
Fixpoint om_erase (k : K) (m : list (K * V)) : list (K * V) :=
  match m with
  | [] => []
  | (k', v') :: m' =>
      match cmp k k' with
      | Lt => m
      | Eq => m'
      | Gt => (k', v') :: om_erase k m'
      end
  end.

(** The suffix of the map that [lower_bound(k)] points at. *)
Fixpoint om_lower_bound (k : K) (m : list (K * V)) : list (K * V) :=
  match m with
  | [] => []
  | (k', v') :: m' =>
      match cmp k k' with
      | Gt => om_lower_bound k m'
      | _ => m
      end
  end.

(** [set.insert(k)] *)
Fixpoint os_insert (k : K) (s : list K) : list K :=
  match s with
  | [] => [k]
  | k' :: s' =>
      match cmp k k' with
      | Lt => k :: s
      | Eq => s
      | Gt => k' :: os_insert k s'
      end
  end.

Definition om_lt (a b : K * V) : Prop := cmp a.1 b.1 = Lt.
Definition om_sorted (m : list (K * V)) : Prop := StronglySorted om_lt m.
Definition os_lt (a b : K) : Prop := cmp a b = Lt.
Definition os_sorted (s : list K) : Prop := StronglySorted os_lt s.
End OrdMapDefs.

(** ** Automation of the library *)

Create HintDb wws discriminated.

(** Case analysis on the scrutinee of a match in the goal or in a
    hypothesis. *)
Ltac case_goal :=
  match goal with
  | |- context [match ?x with _ => _ end] => destruct x eqn:?
  end.

Ltac case_hyp :=
  match goal with
  | H : context [match ?x with _ => _ end] |- _ => destruct x eqn:?
  end.

(** Turns the boolean tests of the code into propositions. *)
Ltac bool_simp :=
  repeat match goal with
  | H : (_ <? _) = true |- _ => apply Z.ltb_lt in H
  | H : (_ <? _) = false |- _ => apply Z.ltb_ge in H
  | H : (_ <=? _) = true |- _ => apply Z.leb_le in H
  | H : (_ <=? _) = false |- _ => apply Z.leb_gt in H
  | H : (_ =? _) = true |- _ => apply Z.eqb_eq in H
  | H : (_ =? _) = false |- _ => apply Z.eqb_neq in H
  | H : (_ && _)%bool = true |- _ => apply andb_true_iff in H as [? ?]
  | H : (_ || _)%bool = false |- _ => apply orb_false_iff in H as [? ?]
  | H : negb _ = true |- _ => apply negb_true_iff in H
  | H : negb _ = false |- _ => apply negb_false_iff in H
  end.

(** [lia] with division and remainder by constants. *)
Ltac zlia := Z.to_euclidean_division_equations; lia.

(** ** Machine integers and their representation *)

Lemma u8_id z : 0 <= z < 256 -> u8 z = z.
Proof. intros. unfold u8. apply Z.mod_small. lia. Qed.

Lemma u32_id z : is_u32 z -> u32 z = z.
Proof. intros. unfold u32. apply Z.mod_small. done. Qed.

Lemma u64_id z : is_u64 z -> u64 z = z.
Proof. intros. unfold u64. apply Z.mod_small. done. Qed.

Lemma u8_range z : 0 <= u8 z < 256.
Proof. unfold u8. change (2 ^ 8) with 256. apply Z.mod_pos_bound. lia. Qed.

Lemma u32_range z : is_u32 (u32 z).
Proof. apply Z.mod_pos_bound. lia. Qed.

Lemma u64_range z : is_u64 (u64 z).
Proof. apply Z.mod_pos_bound. lia. Qed.

#[export] Hint Resolve u8_range u32_range u64_range : wws.

Lemma length_le_bytes n z : length (le_bytes n z) = n.
Proof. revert z. induction n as [|n IH]; intros z; simpl; [done|]. by rewrite IH. Qed.

Lemma length_be_bytes n z : length (be_bytes n z) = n.
Proof. unfold be_bytes. by rewrite length_rev, length_le_bytes. Qed.

Lemma wf_le_bytes n z : wf_bytes (le_bytes n z).
Proof.
  revert z. induction n as [|n IH]; intros z; simpl; constructor; [|done].
  apply Z.mod_pos_bound. lia.
Qed.

Lemma wf_be_bytes n z : wf_bytes (be_bytes n z).
Proof. apply Forall_rev, wf_le_bytes. Qed.

#[export] Hint Resolve wf_le_bytes wf_be_bytes : wws.

Lemma le_val_le_bytes n z : 0 <= z -> le_val (le_bytes n z) = z mod 256 ^ Z.of_nat n.
Proof.
  revert z. induction n as [|n IH]; intros z Hz; simpl le_bytes; simpl le_val.
  - by rewrite Z.mod_1_r.
  - rewrite IH by (apply Z.div_pos; lia).
    rewrite Nat2Z.inj_succ, Z.pow_succ_r by lia.
    rewrite (Z.rem_mul_r z 256) by lia. done.
Qed.

Lemma le_val_le_bytes_small n z :
  0 <= z < 256 ^ Z.of_nat n -> le_val (le_bytes n z) = z.
Proof. intros. rewrite le_val_le_bytes by lia. by apply Z.mod_small. Qed.

Lemma le_val_bound l : wf_bytes l -> 0 <= le_val l < 256 ^ Z.of_nat (length l).
Proof.
  induction 1 as [|b l Hb Hl IH]; [simpl; lia|]. simpl le_val. simpl length.
  rewrite Nat2Z.inj_succ, Z.pow_succ_r by lia. unfold is_byte in Hb. nia.
Qed.

Lemma le_bytes_le_val l : wf_bytes l -> le_bytes (length l) (le_val l) = l.
Proof.
  induction 1 as [|b l Hb Hl IH]; [done|]. simpl. unfold is_byte in Hb.
  replace (b + 256 * le_val l) with (b + le_val l * 256) by lia.
  rewrite Z_mod_plus_full, Z_div_plus_full by lia.
  rewrite Z.mod_small, Z.div_small by lia. rewrite Z.add_0_l. by rewrite IH.
Qed.

Lemma le_val_app a b : le_val (a ++ b) = le_val a + 256 ^ Z.of_nat (length a) * le_val b.
Proof.
  induction a as [|x a IH]; [cbn [app le_val length]; lia|].
  cbn [app le_val length]. rewrite IH.
  rewrite Nat2Z.inj_succ, Z.pow_succ_r by lia. ring.
Qed.

Lemma be_bytes_S n z : be_bytes (S n) z = be_bytes n (z / 256) ++ [z mod 256].
Proof. done. Qed.

(** ** Byte strings and their order *)

Lemma bytes_cmp_refl a : bytes_cmp a a = Eq.
Proof. induction a; simpl; [done|]. by rewrite Z.compare_refl. Qed.

Lemma bytes_cmp_eq a b : bytes_cmp a b = Eq <-> a = b.
Proof.
  split; [|intros ->; apply bytes_cmp_refl].
  revert b. induction a as [|x a IH]; intros [|y b]; simpl; try done.
  destruct (Z.compare_spec x y); try done. intros. subst. f_equal. by apply IH.
Qed.

Lemma bytes_cmp_opp a b : bytes_cmp b a = CompOpp (bytes_cmp a b).
Proof.
  revert b. induction a as [|x a IH]; intros [|y b]; simpl; try done.
  rewrite (Z.compare_antisym x y). destruct (Z.compare x y); simpl; done.
Qed.

Lemma bytes_cmp_lt_trans a b c :
  bytes_cmp a b = Lt -> bytes_cmp b c = Lt -> bytes_cmp a c = Lt.
Proof.
  revert b c. induction a as [|x a IH]; intros [|y b] [|z c]; simpl; try done.
  destruct (Z.compare_spec x y), (Z.compare_spec y z), (Z.compare_spec x z);
    try done; try lia; subst; eauto; lia.
Qed.

#[export] Instance bytes_cmp_total : TotalCmp bytes_cmp.
Proof. split; [apply bytes_cmp_eq|apply bytes_cmp_opp|apply bytes_cmp_lt_trans]. Qed.

#[export] Instance Zcompare_total : TotalCmp Z.compare.
Proof.
  split; intros.
  - apply Z.compare_eq_iff.
  - apply Z.compare_antisym.
  - rewrite Z.compare_lt_iff in *. lia.
Qed.

#[export] Instance Zcmp_desc_total : TotalCmp Zcmp_desc.
Proof.
  unfold Zcmp_desc. split; intros.
  - rewrite Z.compare_eq_iff. naive_solver.
  - apply Z.compare_antisym.
  - rewrite Z.compare_lt_iff in *. lia.
Qed.

Lemma bytes_cmp_app a b c d :
  length a = length b ->
  bytes_cmp (a ++ c) (b ++ d) =
  match bytes_cmp a b with Eq => bytes_cmp c d | r => r end.
Proof.
  revert b. induction a as [|x a IH]; intros [|y b]; simpl; try done.
  intros H. injection H as H. rewrite IH by done. by destruct (Z.compare x y).
Qed.

Lemma bytes_cmp_app_same p a b : bytes_cmp (p ++ a) (p ++ b) = bytes_cmp a b.
Proof. rewrite bytes_cmp_app by done. by rewrite bytes_cmp_refl. Qed.

(** Big-endian encoding is order preserving: this is what makes range scans of
    the store follow the numeric order. *)
Lemma bytes_cmp_be n a b :
  0 <= a < 256 ^ Z.of_nat n -> 0 <= b < 256 ^ Z.of_nat n ->
  bytes_cmp (be_bytes n a) (be_bytes n b) = Z.compare a b.
Proof.
  revert a b. induction n as [|n IH]; intros a b Ha Hb.
  - simpl in *. replace a with 0 by lia. replace b with 0 by lia. done.
  - rewrite Nat2Z.inj_succ, Z.pow_succ_r in Ha, Hb by lia.
    rewrite !be_bytes_S, bytes_cmp_app by (by rewrite !length_be_bytes).
    pose proof (Z.div_mod a 256 ltac:(lia)). pose proof (Z.div_mod b 256 ltac:(lia)).
    pose proof (Z.mod_pos_bound a 256 ltac:(lia)).
    pose proof (Z.mod_pos_bound b 256 ltac:(lia)).
    rewrite IH by (split; [apply Z.div_pos; lia|apply Z.div_lt_upper_bound; lia]).
    simpl. destruct (Z.compare_spec (a / 256) (b / 256));
      [destruct (Z.compare_spec (a mod 256) (b mod 256))| |];
      destruct (Z.compare_spec a b); try done; lia.
Qed.

Lemma be_bytes_inj n a b :
  0 <= a < 256 ^ Z.of_nat n -> 0 <= b < 256 ^ Z.of_nat n ->
  be_bytes n a = be_bytes n b -> a = b.
Proof.
  intros Ha Hb H. apply bytes_cmp_eq in H. rewrite bytes_cmp_be in H by done.
  by apply Z.compare_eq_iff.
Qed.

Lemma starts_with_spec p k : starts_with p k = true <-> exists s, k = p ++ s.
Proof.
  revert k. induction p as [|x p IH]; intros [|y k]; simpl.
  - split; [by exists []|done].
  - split; [by exists (y :: k)|done].
  - split; [done|]. intros [s H]. done.
  - rewrite andb_true_iff, Z.eqb_eq, IH. split.
    + intros [-> [s ->]]. by exists s.
    + intros [s H]. injection H as -> ->. eauto.
Qed.

Lemma starts_with_app p a b : starts_with (p ++ a) (p ++ b) = starts_with a b.
Proof. induction p; simpl; [done|]. by rewrite Z.eqb_refl. Qed.

Lemma str_contains_spec pat s :
  str_contains pat s = true <-> exists a b, s = a ++ pat ++ b.
Proof.
  induction s as [|x s IH]; simpl; rewrite orb_true_iff, starts_with_spec.
  - split; [intros [[b Hb]|]; [by exists [], b|done]|].
    intros (a & b & H). left. exists []. destruct a; [|done].
    destruct pat; [|done]. done.
  - rewrite IH. split.
    + intros [[b Hb]|(a & b & ->)]; [by exists [], b|by exists (x :: a), b].
    + intros ([|y a] & b & H); [left; by exists b|right].
      injection H as -> ->. by exists a, b.
Qed.

(** A key with the prefix is not below the prefix, and keys between two keys
    with the prefix have it: the keys with a prefix are one contiguous run. *)
Lemma starts_with_ge p k : starts_with p k = true -> bytes_cmp k p <> Lt.
Proof.
  rewrite starts_with_spec. intros [s ->].
  rewrite <- (app_nil_r p) at 2. rewrite bytes_cmp_app_same. by destruct s.
Qed.

Lemma starts_with_between p k k' :
  starts_with p k' = true -> bytes_cmp k p <> Lt -> bytes_cmp k k' <> Gt ->
  starts_with p k = true.
Proof.
  revert k k'. induction p as [|x p IH]; intros [|y k] [|z k']; simpl; try done.
  rewrite !andb_true_iff, !Z.eqb_eq. intros [-> Hp].
  destruct (Z.compare_spec y z); try done; subst; intros H1 H2; split; try done; eauto.
Qed.

(** ** Ordered containers *)
Section OrdMap.
Context {K : Type} (cmp : K -> K -> comparison) `{!TotalCmp cmp} {V : Type}.
Implicit Types (m : list (K * V)) (s : list K).

Lemma cmp_refl a : cmp a a = Eq.
Proof. by apply (cmp_eq cmp). Qed.

Lemma cmp_gt_lt a b : cmp a b = Gt <-> cmp b a = Lt.
Proof. rewrite (cmp_opp cmp a b). destruct (cmp a b); naive_solver. Qed.

Lemma cmp_lt_irrefl a : cmp a a <> Lt.
Proof. by rewrite cmp_refl. Qed.

Lemma om_sorted_cons_inv k v m :
  om_sorted cmp ((k, v) :: m) ->
  om_sorted cmp m /\ forall k' v', (k', v') ∈ m -> cmp k k' = Lt.
Proof.
  intros H. apply StronglySorted_inv in H as [H1 H2]. split; [done|].
  intros k' v' Hin. rewrite Forall_forall in H2. by apply (H2 (k', v')).
Qed.

Lemma om_find_below k m :
  om_sorted cmp m -> (forall k' v', (k', v') ∈ m -> cmp k k' = Lt) -> om_find cmp k m = None.
Proof.
  destruct m as [|[k' v'] m]; simpl; [done|]. intros _ H.
  by rewrite (H k' v') by set_solver.
Qed.

Lemma om_find_in k v m : om_find cmp k m = Some v -> (k, v) ∈ m.
Proof.
  induction m as [|[k' v'] m IH]; simpl; [done|].
  destruct (cmp k k') eqn:E; try done.
  - apply (cmp_eq cmp) in E as ->. intros [= ->]. left.
  - intros. right. by apply IH.
Qed.

Lemma om_in_find k v m : om_sorted cmp m -> (k, v) ∈ m -> om_find cmp k m = Some v.
Proof.
  induction m as [|[k' v'] m IH]; intros Hs Hin; [by apply not_elem_of_nil in Hin|].
  apply om_sorted_cons_inv in Hs as [Hs Hlt]. simpl.
  apply elem_of_cons in Hin as [[= -> ->]|Hin]; [by rewrite cmp_refl|].
  specialize (Hlt _ _ Hin). apply cmp_gt_lt in Hlt. rewrite Hlt. by apply IH.
Qed.

Lemma om_find_spec k v m : om_sorted cmp m -> om_find cmp k m = Some v <-> (k, v) ∈ m.
Proof. split; [apply om_find_in|by apply om_in_find]. Qed.

Lemma om_insert_in k v m k' v' :
  (k', v') ∈ om_insert cmp k v m -> (k', v') = (k, v) \/ (k', v') ∈ m.
Proof.
  induction m as [|[k1 v1] m IH]; simpl; [set_solver|].
  destruct (cmp k k1) eqn:E; rewrite !elem_of_cons; naive_solver.
Qed.

Lemma om_insert_sorted k v m : om_sorted cmp m -> om_sorted cmp (om_insert cmp k v m).
Proof.
  induction m as [|[k1 v1] m IH]; simpl; intros Hs.
  - repeat constructor.
  - destruct (om_sorted_cons_inv _ _ _ Hs) as [Hs' Hlt].
    destruct (cmp k k1) eqn:E.
    + apply (cmp_eq cmp) in E as ->. constructor; [done|].
      apply Forall_forall. intros [k2 v2] H2. by eapply Hlt.
    + constructor; [done|]. apply Forall_forall. intros [k2 v2] H2.
      unfold om_lt; simpl. apply elem_of_cons in H2 as [[= -> ->]|H2]; [done|].
      eapply (cmp_lt_trans cmp); [done|by eapply Hlt].
    + constructor; [by apply IH|]. apply Forall_forall. intros [k2 v2] H2.
      apply om_insert_in in H2 as [[= -> ->]|H2]; unfold om_lt; simpl.
      * by apply cmp_gt_lt.
      * by eapply Hlt.
Qed.

Lemma om_find_insert k v m k' :
  om_sorted cmp m ->
  om_find cmp k' (om_insert cmp k v m) =
  match cmp k' k with Eq => Some v | _ => om_find cmp k' m end.
Proof.
  intros Hs. induction m as [|[k1 v1] m IH]; simpl.
  - by destruct (cmp k' k).
  - destruct (om_sorted_cons_inv _ _ _ Hs) as [Hs' Hlt].
    destruct (cmp k k1) eqn:E; simpl.
    + apply (cmp_eq cmp) in E as ->. by destruct (cmp k' k1).
    + destruct (cmp k' k) eqn:E'; try done.
      by rewrite (cmp_lt_trans cmp _ _ _ E' E).
    + rewrite IH by done. destruct (cmp k' k) eqn:E'; try done.
      apply (cmp_eq cmp) in E' as ->. by rewrite E.
Qed.

Lemma om_find_insert_eq k v m :
  om_sorted cmp m -> om_find cmp k (om_insert cmp k v m) = Some v.
Proof. intros. by rewrite om_find_insert, cmp_refl. Qed.

Lemma om_find_insert_ne k v m k' :
  om_sorted cmp m -> k <> k' -> om_find cmp k' (om_insert cmp k v m) = om_find cmp k' m.
Proof.
  intros. rewrite om_find_insert by done. destruct (cmp k' k) eqn:E; try done.
  apply (cmp_eq cmp) in E. congruence.
Qed.

Lemma om_emplace_sorted k v m : om_sorted cmp m -> om_sorted cmp (om_emplace cmp k v m).
Proof. unfold om_emplace. destruct (om_find cmp k m); [done|apply om_insert_sorted]. Qed.

Lemma om_find_emplace k v m k' :
  om_sorted cmp m ->
  om_find cmp k' (om_emplace cmp k v m) =
  match om_find cmp k' m with
  | Some v' => Some v'
  | None => match cmp k' k with Eq => Some v | _ => None end
  end.
Proof.
  intros Hs. unfold om_emplace. destruct (om_find cmp k m) eqn:E.
  - destruct (om_find cmp k' m) eqn:E'; [done|].
    destruct (cmp k' k) eqn:C; try done. apply (cmp_eq cmp) in C as ->. congruence.
  - rewrite om_find_insert by done. destruct (cmp k' k) eqn:C; try by destruct (om_find cmp k' m).
    apply (cmp_eq cmp) in C as ->. by rewrite E.
Qed.

Lemma om_erase_in k m k' v' : (k', v') ∈ om_erase cmp k m -> (k', v') ∈ m.
Proof.
  induction m as [|[k1 v1] m IH]; simpl; [done|].
  destruct (cmp k k1); rewrite ?elem_of_cons; naive_solver.
Qed.

Lemma om_erase_sorted k m : om_sorted cmp m -> om_sorted cmp (om_erase cmp k m).
Proof.
  induction m as [|[k1 v1] m IH]; simpl; intros Hs; [done|].
  destruct (om_sorted_cons_inv _ _ _ Hs) as [Hs' Hlt].
  destruct (cmp k k1); try done. constructor; [by apply IH|].
  apply Forall_forall. intros [k2 v2] H2. apply om_erase_in in H2. by eapply Hlt.
Qed.

Lemma om_find_erase k m k' :
  om_sorted cmp m ->
  om_find cmp k' (om_erase cmp k m) =
  match cmp k' k with Eq => None | _ => om_find cmp k' m end.
Proof.
  intros Hs. induction m as [|[k1 v1] m IH]; simpl.
  - by destruct (cmp k' k).
  - destruct (om_sorted_cons_inv _ _ _ Hs) as [Hs' Hlt].
    destruct (cmp k k1) eqn:E; simpl.
    + apply (cmp_eq cmp) in E as ->. destruct (cmp k' k1) eqn:E'; try done.
      * apply (cmp_eq cmp) in E' as ->. by apply om_find_below.
      * apply om_find_below; [done|]. intros. eapply (cmp_lt_trans cmp); eauto.
    + destruct (cmp k' k) eqn:E'; try done.
      apply (cmp_eq cmp) in E' as ->. by rewrite E.
    + rewrite IH by done. destruct (cmp k' k) eqn:E'; try done.
      apply (cmp_eq cmp) in E' as ->. by rewrite E.
Qed.

(** Sorted maps are extensional. *)
Lemma om_ext m1 m2 :
  om_sorted cmp m1 -> om_sorted cmp m2 ->
  (forall k, om_find cmp k m1 = om_find cmp k m2) -> m1 = m2.
Proof.
  revert m2. induction m1 as [|[k1 v1] m1 IH]; intros [|[k2 v2] m2] H1 H2 Heq.
  - done.
  - specialize (Heq k2). simpl in Heq. by rewrite cmp_refl in Heq.
  - specialize (Heq k1). simpl in Heq. by rewrite cmp_refl in Heq.
  - destruct (om_sorted_cons_inv _ _ _ H1) as [H1' L1].
    destruct (om_sorted_cons_inv _ _ _ H2) as [H2' L2].
    assert (k1 = k2 /\ v1 = v2) as [-> ->].
    { pose proof (Heq k1) as E1. pose proof (Heq k2) as E2. simpl in *.
      rewrite cmp_refl in E1, E2. destruct (cmp k1 k2) eqn:C.
      - apply (cmp_eq cmp) in C. split; congruence.
      - done.
      - apply cmp_gt_lt in C. by rewrite C in E2. }
    f_equal. apply IH; try done. intros k. specialize (Heq k). simpl in Heq.
    destruct (cmp k k2) eqn:C; try done.
    + apply (cmp_eq cmp) in C as ->. by rewrite !om_find_below.
    + rewrite !om_find_below; try done; intros; eapply (cmp_lt_trans cmp); eauto.
Qed.

Lemma om_lower_bound_spec k m k' v' :
  om_sorted cmp m ->
  (k', v') ∈ om_lower_bound cmp k m <-> (k', v') ∈ m /\ cmp k' k <> Lt.
Proof.
  induction m as [|[k1 v1] m IH]; intros Hs; simpl; [set_solver|].
  destruct (om_sorted_cons_inv _ _ _ Hs) as [Hs' Hlt].
  destruct (cmp k k1) eqn:E.
  - apply (cmp_eq cmp) in E as ->. split; [|naive_solver]. intros H. split; [done|].
    apply elem_of_cons in H as [[= -> ->]|H]; [by rewrite cmp_refl|].
    specialize (Hlt _ _ H). apply cmp_gt_lt in Hlt. by rewrite Hlt.
  - split; [|naive_solver]. intros H. split; [done|]. intros C.
    apply elem_of_cons in H as [[= -> ->]|H].
    + apply cmp_gt_lt in C. congruence.
    + specialize (Hlt _ _ H). pose proof (cmp_lt_trans cmp _ _ _ E Hlt) as C2.
      apply cmp_gt_lt in C. congruence.
  - rewrite IH, elem_of_cons by done. split; [naive_solver|].
    intros [[[= -> ->]|H] C]; [|done]. apply cmp_gt_lt in E. congruence.
Qed.

Lemma om_lower_bound_sorted k m : om_sorted cmp m -> om_sorted cmp (om_lower_bound cmp k m).
Proof.
  induction m as [|[k1 v1] m IH]; simpl; [done|]. intros Hs.
  destruct (om_sorted_cons_inv _ _ _ Hs). destruct (cmp k k1); naive_solver.
Qed.

Lemma elem_of_os_insert k s k' : k' ∈ os_insert cmp k s <-> k' = k \/ k' ∈ s.
Proof.
  induction s as [|k1 s IH]; simpl; [set_solver|].
  destruct (cmp k k1) eqn:E; rewrite ?elem_of_cons, ?IH; try set_solver.
  apply (cmp_eq cmp) in E as ->. set_solver.
Qed.

Lemma os_insert_sorted k s : os_sorted cmp s -> os_sorted cmp (os_insert cmp k s).
Proof.
  induction s as [|k1 s IH]; simpl; intros Hs; [repeat constructor|].
  destruct (cmp k k1) eqn:E; try done.
  - constructor; [done|]. apply StronglySorted_inv in Hs as [_ Hs].
    constructor; [done|]. eapply Forall_impl; [done|]. intros x Hx.
    by eapply (cmp_lt_trans cmp).
  - apply StronglySorted_inv in Hs as [Hs Hf]. constructor; [by apply IH|].
    apply Forall_forall. intros x Hx. apply elem_of_os_insert in Hx as [->|Hx].
    + by apply cmp_gt_lt.
    + rewrite Forall_forall in Hf. by apply Hf.
Qed.

(** A sorted list of distinct keys is determined by its elements. *)
Lemma os_ext s1 s2 :
  os_sorted cmp s1 -> os_sorted cmp s2 -> (forall k, k ∈ s1 <-> k ∈ s2) -> s1 = s2.
Proof.
  revert s2. induction s1 as [|a s1 IH]; intros [|b s2] H1 H2 Heq.
  - done.
  - specialize (Heq b). set_solver.
  - specialize (Heq a). set_solver.
  - apply StronglySorted_inv in H1 as [H1 F1], H2 as [H2 F2].
    rewrite Forall_forall in F1, F2. unfold os_lt in *.
    assert (a = b) as ->.
    { assert (a ∈ b :: s2) as Ha by (apply Heq; left).
      assert (b ∈ a :: s1) as Hb by (apply Heq; left).
      apply elem_of_cons in Ha as [|Ha], Hb as [|Hb]; try done.
      exfalso. apply (cmp_lt_irrefl a). eapply (cmp_lt_trans cmp); [by apply F1|by apply F2]. }
    f_equal. apply IH; try done. intros k. split; intros Hk.
    + assert (k ∈ b :: s2) as Hk' by (apply Heq; by right).
      apply elem_of_cons in Hk' as [->|]; [|done]. exfalso. eapply cmp_lt_irrefl, F1, Hk.
    + assert (k ∈ b :: s1) as Hk' by (apply Heq; by right).
      apply elem_of_cons in Hk' as [->|]; [|done]. exfalso. eapply cmp_lt_irrefl, F2, Hk.
Qed.
End OrdMap.

#[export] Hint Resolve om_insert_sorted om_emplace_sorted om_erase_sorted
  os_insert_sorted om_lower_bound_sorted : wws.

(** ** Sublists *)
Lemma Forall_sublist {A} (P : A -> Prop) l l' : sublist l' l -> Forall P l -> Forall P l'.
Proof.
  rewrite !Forall_forall. intros Hs HP x Hx. apply HP. by eapply elem_of_sublist.
Qed.

Lemma StronglySorted_sublist {A} (R : A -> A -> Prop) l l' :
  sublist l' l -> StronglySorted R l -> StronglySorted R l'.
Proof.
  induction 1 as [|e l1 l2 Hsub IH|e l1 l2 Hsub IH]; [done| |].
  - intros [Hs Hf]%StronglySorted_inv. constructor; [by apply IH|]. by eapply Forall_sublist.
  - intros [Hs _]%StronglySorted_inv. by apply IH.
Qed.

Lemma sublist_list_filter {A} (f : A -> bool) l : sublist (List.filter f l) l.
Proof. induction l as [|e l IH]; simpl; [constructor|]. destruct (f e); by constructor. Qed.

Lemma list_filter_none {A} (f : A -> bool) l :
  Forall (fun x => f x = false) l -> List.filter f l = [].
Proof. induction 1 as [|x l Hx _ IH]; simpl; [done|]. by rewrite Hx. Qed.

(** ** Filling a set *)
Definition os_inserts {K} (cmp : K -> K -> comparison) (l s : list K) : list K :=
  fold_left (fun s x => os_insert cmp x s) l s.

Lemma elem_of_os_inserts {K} (cmp : K -> K -> comparison) `{!TotalCmp cmp} l s k :
  k ∈ os_inserts cmp l s <-> k ∈ l \/ k ∈ s.
Proof.
  revert s. induction l as [|x l IH]; intros s; [simpl; set_solver|].
  change (os_inserts cmp (x :: l) s) with (os_inserts cmp l (os_insert cmp x s)).
  rewrite IH, elem_of_os_insert by done. set_solver.
Qed.

Lemma os_inserts_sorted {K} (cmp : K -> K -> comparison) `{!TotalCmp cmp} l s :
  os_sorted cmp s -> os_sorted cmp (os_inserts cmp l s).
Proof. revert s. induction l as [|x l IH]; intros s Hs; simpl; [done|]. by apply IH, os_insert_sorted. Qed.

Lemma os_inserts_id {K} (cmp : K -> K -> comparison) `{!TotalCmp cmp} l :
  os_sorted cmp l -> os_inserts cmp l [] = l.
Proof.
  intros Hs. assert (Hn : os_sorted cmp (@nil K)) by constructor.
  apply (os_ext cmp); [by apply (os_inserts_sorted cmp)|done|].
  intros k. rewrite (elem_of_os_inserts cmp l [] k). set_solver.
Qed.

(** ** Maps of maps, the outer one keyed by numbers *)
(** [m[column]] of a [std::map] of maps: an absent column is an empty map. *)
Definition cf_get {V} (m : list (Z * list V)) (column : Z) : list V := default [] (om_find Z.compare column m).
Definition cf_set {V} (m : list (Z * list V)) (column : Z) (kvs : list V) : list (Z * list V) :=
  om_insert Z.compare column kvs m.

Definition cf_wf {V} (m : list (Z * list (bytes * V))) : Prop :=
  om_sorted Z.compare m /\ Forall (fun c => om_sorted bytes_cmp c.2) m.

Definition cf_find {V} (m : list (Z * list (bytes * V))) (col : Z) (k : bytes) : option V :=
  om_find bytes_cmp k (cf_get m col).

Lemma cf_get_set {V} (m : list (Z * list V)) col kvs col' :
  om_sorted Z.compare m -> cf_get (cf_set m col kvs) col' = if decide (col' = col) then kvs else cf_get m col'.
Proof.
  intros Hs. unfold cf_get, cf_set. destruct (decide (col' = col)) as [->|Hne].
  - by rewrite om_find_insert_eq by (done || typeclasses eauto).
  - by rewrite om_find_insert_ne by (done || typeclasses eauto).
Qed.

Lemma cf_get_sorted {V} (m : list (Z * list (bytes * V))) col :
  cf_wf m -> om_sorted bytes_cmp (cf_get m col).
Proof.
  intros [_ Hf]. unfold cf_get. destruct (om_find Z.compare col m) as [kvs|] eqn:E; [|constructor].
  apply om_find_in in E; [|typeclasses eauto]. rewrite Forall_forall in Hf. by apply (Hf (col, kvs)).
Qed.

Lemma cf_set_wf {V} (m : list (Z * list (bytes * V))) col kvs :
  cf_wf m -> om_sorted bytes_cmp kvs -> cf_wf (cf_set m col kvs).
Proof.
  intros [Hs Hf] Hk. split; [by apply (om_insert_sorted Z.compare)|].
  apply Forall_forall. intros [c' k'] Hin. apply (om_insert_in Z.compare) in Hin as [[= -> ->]|Hin]; [done|].
  rewrite Forall_forall in Hf. by apply (Hf (c', k')).
Qed.

Lemma cf_find_set {V} (m : list (Z * list (bytes * V))) col kvs col' k :
  cf_wf m -> cf_find (cf_set m col kvs) col' k =
  if decide (col' = col) then om_find bytes_cmp k kvs else cf_find m col' k.
Proof. intros [Hs _]. unfold cf_find. rewrite cf_get_set by done. by destruct (decide (col' = col)). Qed.

Lemma cf_wf_nil {V} : cf_wf (V := V) [].
Proof. split; constructor. Qed.

Lemma cf_find_elem {V} (m : list (Z * list (bytes * V))) col k e :
  cf_wf m -> cf_find m col k = Some e <-> exists kvs, (col, kvs) ∈ m /\ (k, e) ∈ kvs.
Proof.
  intros [Hs Hf]. unfold cf_find, cf_get. split.
  - destruct (om_find Z.compare col m) as [kvs|] eqn:E; [|done].
    apply (om_find_in Z.compare) in E. simpl. intros Hk%(om_find_in bytes_cmp). by exists kvs.
  - intros (kvs & Hm & Hk). apply (om_in_find Z.compare) in Hm as Hm'; [|done]. rewrite Hm'. simpl.
    rewrite Forall_forall in Hf. apply (om_in_find bytes_cmp); [apply (Hf _ Hm)|done].
Qed.

Lemma om_sorted_NoDup {K V} (cmp : K -> K -> comparison) `{!TotalCmp cmp} (m : list (K * V)) :
  om_sorted cmp m -> NoDup (map fst m).
Proof.
  induction 1 as [|[k v] m _ IH Hlt]; [constructor|]. cbn [map fst]. constructor; [|done].
  intros ([k' v'] & Hk & Hin)%list_elem_of_fmap. cbn in Hk. subst k'. rewrite Forall_forall in Hlt.
  specialize (Hlt _ Hin). unfold om_lt in Hlt. cbn in Hlt. by apply (cmp_lt_irrefl cmp) in Hlt.
Qed.
