(* ===== verification/Double.v ===== *)
(** The floating point numbers of the program: IEEE 754 doubles and floats with
    round to nearest, ties to even ([SpecFloat]), and their conversions from
    and to integers. *)
From Stdlib Require Export SpecFloat.
From S2P Require Import Prelude.

Abbreviation double := spec_float (only parsing).

Definition double_of_Z (z : Z) : double := binary_normalize 53 1024 z 0 false.
Definition double_add : double -> double -> double := SFadd 53 1024.
Definition double_sub : double -> double -> double := SFsub 53 1024.
Definition double_mul : double -> double -> double := SFmul 53 1024.
Definition double_div : double -> double -> double := SFdiv 53 1024.
Definition double_sqrt : double -> double := SFsqrt 53 1024.

(** The integer part; there is none for an infinity or for no number. *)
Definition trunc (x : spec_float) : option Z :=
  match x with
  | S754_zero _ => Some 0
  | S754_finite s m e =>
      let v := if 0 <=? e then Z.pos m * 2 ^ e else Z.pos m / 2 ^ (- e) in
      Some (if s then - v else v)
  | _ => None
  end.

(** [static_cast<uint64_t>]; out of range is undefined behaviour. *)
Definition to_u64 (x : spec_float) : option Z :=
  v ← trunc x; if (0 <=? v) && (v <? 2 ^ 64) then Some v else None.

Lemma SFltb_irrefl x : SFltb x x = false.
Proof.
  unfold SFltb, SFcompare. destruct x as [s|s| |s m e]; try done; try by destruct s.
  change (Pos.compare_cont Eq m m) with (Pos.compare m m). rewrite Z.compare_refl, Pos.compare_refl. by destruct s.
Qed.

(** ** Single precision *)
Definition float_of_Z (z : Z) : spec_float := binary_normalize 24 128 z 0 false.
Definition float_add : spec_float -> spec_float -> spec_float := SFadd 24 128.
Definition float_sub : spec_float -> spec_float -> spec_float := SFsub 24 128.
Definition float_mul : spec_float -> spec_float -> spec_float := SFmul 24 128.
Definition float_div : spec_float -> spec_float -> spec_float := SFdiv 24 128.

(** A positive float, of an exponent that a float has; and one that is not
    below zero. *)
Definition is_pos (x : spec_float) : Prop :=
  match x with S754_finite false _ e => -149 <= e | S754_infinity false => True | _ => False end.
Definition is_nonneg (x : spec_float) : Prop := x = S754_zero false \/ is_pos x.

Lemma iter_pos_iter {A} (f : A -> A) p x : SpecFloat.iter_pos f p x = Nat.iter (Pos.to_nat p) f x.
Proof.
  revert x. induction p as [p IH|p IH|]; intros x; cbn [SpecFloat.iter_pos]; [| |done].
  - rewrite !IH, Pos2Nat.inj_xI, <- Nat.iter_add, <- Nat.iter_succ_r. f_equal. lia.
  - rewrite !IH, Pos2Nat.inj_xO, <- Nat.iter_add. f_equal. lia.
Qed.

Lemma shr_1_m r : 0 <= shr_m r -> shr_m (shr_1 r) = shr_m r / 2.
Proof. destruct r as [[|[p|p|]|p] r s]; cbn [shr_m shr_1]; intros H; try done; try lia; zlia. Qed.

Lemma shr_m_iter n r : 0 <= shr_m r -> shr_m (Nat.iter n shr_1 r) = shr_m r / 2 ^ Z.of_nat n.
Proof.
  intros H. induction n as [|n IH]; cbn [Nat.iter]; [by rewrite Z.div_1_r|].
  change (shr_m (shr_1 (Nat.iter n shr_1 r)) = shr_m r / 2 ^ Z.of_nat (S n)).
  rewrite shr_1_m by (rewrite IH; apply Z.div_pos; lia). rewrite IH, Z.div_div by lia.
  f_equal. rewrite Nat2Z.inj_succ, Z.pow_succ_r by lia. lia.
Qed.

Lemma digits2_pos_le m : 2 ^ (Zpos (digits2_pos m) - 1) <= Zpos m.
Proof.
  induction m as [m IH|m IH|]; cbn [digits2_pos]; [| |done]; rewrite Pos2Z.inj_succ;
    replace (Z.succ (Zpos (digits2_pos m)) - 1) with (Z.succ (Zpos (digits2_pos m) - 1)) by lia;
    rewrite Z.pow_succ_r by lia; lia.
Qed.

(** Rounding keeps a positive number positive. *)
Lemma shr_fexp_pos m e l :
  1 <= m -> -149 <= e -> let '(mrs, e') := shr_fexp 24 128 m e l in 1 <= shr_m mrs /\ -149 <= e'.
Proof.
  intros Hm He. destruct m as [|m|m]; try lia. unfold shr_fexp, shr, fexp, emin. cbn [Zdigits2].
  set (d := Zpos (digits2_pos m)). pose proof (digits2_pos_le m) as Hd. fold d in Hd.
  assert (Hl : shr_m (shr_record_of_loc (Zpos m) l) = Zpos m) by by destruct l as [|[]].
  destruct (Z.max (d + e - 24) (3 - 128 - 24) - e) as [|p|p] eqn:En; [by rewrite Hl| |by rewrite Hl].
  rewrite iter_pos_iter, shr_m_iter, Hl, positive_nat_Z by (rewrite Hl; lia). split; [|lia].
  assert (Zpos p = d - 24) as -> by lia. apply Z.div_le_lower_bound; [lia|]. rewrite Z.mul_1_r.
  etransitivity; [|exact Hd]. apply Z.pow_le_mono_r; lia.
Qed.

Lemma round_pos m e : 1 <= m -> -149 <= e -> is_pos (binary_round_aux 24 128 false m e loc_Exact).
Proof.
  intros Hm He. unfold binary_round_aux. pose proof (shr_fexp_pos m e loc_Exact Hm He) as H.
  destruct (shr_fexp 24 128 m e loc_Exact) as [mrs e1]. destruct H as [H1 He1].
  set (m2 := round_nearest_even _ _).
  assert (Hm2 : 1 <= m2) by (unfold m2, round_nearest_even; destruct (loc_of_shr_record mrs) as [|[]]; try destruct (Z.even _); lia).
  pose proof (shr_fexp_pos m2 e1 loc_Exact Hm2 He1) as H2.
  destruct (shr_fexp 24 128 m2 e1 loc_Exact) as [mrs2 e2]. destruct H2 as [H2 He2].
  destruct (shr_m mrs2) as [|p|p]; try lia. by destruct (_ <=? _).
Qed.

Lemma float_add_pos x y : is_nonneg x -> is_nonneg y -> is_pos x \/ is_pos y -> is_pos (float_add x y).
Proof.
  intros [->|Hx] [->|Hy] H.
  - by destruct H.
  - by destruct y as [| | |[]].
  - by destruct x as [| | |[]].
  - destruct x as [|[]| |[] mx ex], y as [|[]| |[] my ey]; try done. cbn in Hx, Hy. unfold float_add, SFadd. cbn [cond_Zopp].
    set (ez := Z.min ex ey). set (a := fst (shl_align mx ex ez)). set (b := fst (shl_align my ey ez)).
    change (Zpos a + Zpos b) with (Zpos (a + b)). cbn [binary_normalize]. unfold binary_round.
    set (f := fexp _ _ _). assert (Hf : -149 <= f) by (unfold f, fexp, emin; lia).
    unfold shl_align. destruct (f - ez) as [|p|p]; apply round_pos; lia.
Qed.

Lemma float_add_nonneg x y : is_nonneg x -> is_nonneg y -> is_nonneg (float_add x y).
Proof.
  intros Hx Hy. destruct (Hx) as [->|Hx']; [destruct (Hy) as [->|Hy']; [by left|]|];
    right; (apply float_add_pos; [done|done|by (left + right)]).
Qed.

Lemma float_mul_pos m e m' e' :
  -149 <= e + e' -> is_pos (float_mul (S754_finite false m e) (S754_finite false m' e')).
Proof. intros H. unfold float_mul, SFmul. cbn [xorb]. apply round_pos; lia. Qed.

Lemma is_pos_spec x : is_nonneg x -> is_pos x <-> SFltb (S754_zero false) x = true.
Proof. intros [->|Hx]; [by split|]. split; [|done]. by destruct x as [|[]| |[]]. Qed.

(** Rounding to nearest keeps a number above a power of two there. *)
Definition above (k : Z) (x : spec_float) : Prop :=
  match x with S754_finite false m e => k <= Z.log2 (Zpos m) + e | S754_infinity false => True | _ => False end.

Lemma shr_fexp_above k m e l :
  1 <= m -> -149 <= e -> k <= Z.log2 m + e ->
  let '(mrs, e') := shr_fexp 24 128 m e l in k <= Z.log2 (shr_m mrs) + e'.
Proof.
  intros Hm He Hk. destruct m as [|m|m]; try lia. unfold shr_fexp, shr.
  assert (Hl : shr_m (shr_record_of_loc (Zpos m) l) = Zpos m) by by destruct l as [|[]].
  destruct (fexp _ _ _ - e) as [|p|p]; [by rewrite Hl| |by rewrite Hl].
  rewrite iter_pos_iter, shr_m_iter, Hl, positive_nat_Z by (rewrite Hl; lia).
  rewrite <- Z.shiftr_div_pow2, Z.log2_shiftr by lia. lia.
Qed.

Lemma round_above k m e : 1 <= m -> -149 <= e -> k <= Z.log2 m + e -> above k (binary_round_aux 24 128 false m e loc_Exact).
Proof.
  intros Hm He Hk. unfold binary_round_aux.
  pose proof (shr_fexp_pos m e loc_Exact Hm He) as H. pose proof (shr_fexp_above k m e loc_Exact Hm He Hk) as Hk1.
  destruct (shr_fexp 24 128 m e loc_Exact) as [mrs e1]. destruct H as [H1 He1].
  set (m2 := round_nearest_even _ _).
  assert (Hm2 : shr_m mrs <= m2) by (unfold m2, round_nearest_even; destruct (loc_of_shr_record mrs) as [|[]]; try destruct (Z.even _); lia).
  apply Z.log2_le_mono in Hm2 as Hlog. pose proof (shr_fexp_pos m2 e1 loc_Exact ltac:(lia) He1) as H2.
  pose proof (shr_fexp_above k m2 e1 loc_Exact ltac:(lia) He1 ltac:(lia)) as Hk2.
  destruct (shr_fexp 24 128 m2 e1 loc_Exact) as [mrs2 e2]. destruct H2 as [H2 He2].
  destruct (shr_m mrs2) as [|p|p]; try lia. by destruct (_ <=? _).
Qed.

Lemma shl_align_fst m e e' : e' <= e -> Zpos (fst (shl_align m e e')) = Zpos m * 2 ^ (e - e').
Proof.
  intros H. unfold shl_align. destruct (e' - e) as [|p|p] eqn:E; [|lia|]; cbn [fst].
  - replace (e - e') with 0 by lia. lia.
  - replace (e - e') with (Zpos p) by lia. clear. induction p as [|p IH] using Pos.peano_ind.
    + cbn. lia.
    + rewrite Pos.iter_succ, Pos2Z.inj_succ, Z.pow_succ_r by lia. lia.
Qed.

Lemma binary_round_above k m e : -149 <= e -> k <= Z.log2 (Zpos m) + e -> above k (binary_round 24 128 false m e).
Proof.
  intros He Hk. unfold binary_round. set (f := fexp _ _ _). assert (Hf : -149 <= f) by (unfold f, fexp, emin; lia). clearbody f.
  destruct (Z.le_gt_cases f e) as [H|H].
  - pose proof (shl_align_fst m e f H) as Hm.
    assert (Hz : snd (shl_align m e f) = f) by (unfold shl_align; destruct (f - e) eqn:E; cbn [snd]; [lia|lia|done]).
    destruct (shl_align m e f) as [mz ez]. cbn [fst snd] in Hm, Hz. subst ez.
    apply round_above; [lia|done|]. rewrite Hm, Z.log2_mul_pow2 by lia. lia.
  - unfold shl_align. destruct (f - e) eqn:E; try lia. apply round_above; lia.
Qed.

(** Adding one to a positive integer does not give one. *)
Lemma float_of_pos_above n : 1 <= n -> above 0 (float_of_Z n).
Proof.
  intros Hn. destruct n as [|n|n]; try lia. apply binary_round_above; [lia|]. pose proof (Z.log2_nonneg (Zpos n)). lia.
Qed.

Lemma float_succ_above n : 1 <= n -> above 1 (float_add (float_of_Z n) (float_of_Z 1)).
Proof.
  intros Hn. pose proof (float_of_pos_above n Hn) as Hx. assert (Hp : is_pos (float_of_Z n)).
  { destruct n as [|n|n]; try lia. unfold float_of_Z. cbn [binary_normalize]. unfold binary_round, shl_align.
    set (f := fexp _ _ _). assert (Hf : -149 <= f) by (unfold f, fexp, emin; lia).
    destruct (f - 0); apply round_pos; lia. }
  change (float_of_Z 1) with (S754_finite false 8388608 (-23)).
  destruct (float_of_Z n) as [|[]| |[] mx ex]; try done. unfold above in Hx. unfold is_pos in Hp. unfold float_add, SFadd. cbn [cond_Zopp].
  set (ez := Z.min ex (-23)). pose proof (shl_align_fst mx ex ez ltac:(lia)) as Ha.
  pose proof (shl_align_fst 8388608 (-23) ez ltac:(lia)) as Hb.
  set (a := fst (shl_align mx ex ez)) in *. set (b := fst (shl_align 8388608 (-23) ez)) in *.
  change (Zpos a + Zpos b) with (Zpos (a + b)). cbn [binary_normalize]. apply binary_round_above; [lia|].
  assert (2 ^ (- ez) <= Zpos a).
  { pose proof (Z.log2_spec (Zpos mx) ltac:(lia)) as [Hlo _]. rewrite Ha.
    replace (- ez) with ((- ex) + (ex - ez)) by lia. destruct (Z.le_gt_cases 0 (- ex)) as [H|H].
    - rewrite Z.pow_add_r by lia. apply Z.mul_le_mono_nonneg_r; [lia|]. etransitivity; [|exact Hlo]. apply Z.pow_le_mono_r; lia.
    - transitivity (1 * 2 ^ (ex - ez)); [rewrite Z.mul_1_l; apply Z.pow_le_mono_r; lia|].
      apply Z.mul_le_mono_nonneg_r; lia. }
  assert (2 ^ (- ez) <= Zpos b).
  { rewrite Hb. change 8388608 with (2 ^ 23). rewrite <- Z.pow_add_r by lia. apply Z.pow_le_mono_r; lia. }
  assert (2 ^ (1 - ez) <= Zpos (a + b)).
  { replace (1 - ez) with (Z.succ (- ez)) by lia. rewrite Z.pow_succ_r by lia. lia. }
  assert (1 - ez <= Z.log2 (Zpos (a + b))); [|lia]. rewrite <- (Z.log2_pow2 (1 - ez)) by lia. by apply Z.log2_le_mono.
Qed.

(** ** Bounds of rounded doubles *)
Lemma digits2_log2 m : Zpos (digits2_pos m) = Z.log2 (Zpos m) + 1.
Proof.
  induction m as [m IH|m IH|]; cbn [digits2_pos]; [| |done]; rewrite Pos2Z.inj_succ, IH.
  - rewrite Pos2Z.inj_xI, Z.log2_succ_double by lia. lia.
  - rewrite Pos2Z.inj_xO, Z.log2_double by lia. lia.
Qed.

(** The shift that leaves 53 digits. *)
Lemma shr_fexp_53 m e l :
  2 ^ 52 <= m -> -1000 <= e ->
  exists mrs, shr_fexp 53 1024 m e l = (mrs, e + (Z.log2 m - 52)) /\ shr_m mrs = m / 2 ^ (Z.log2 m - 52).
Proof.
  intros Hm He. assert (H52 : 52 <= Z.log2 m) by (change 52 with (Z.log2 (2 ^ 52)); by apply Z.log2_le_mono).
  destruct m as [|m|m]; try lia. unfold shr_fexp, shr, fexp, emin. cbn [Zdigits2]. rewrite digits2_log2.
  assert (Hl : shr_m (shr_record_of_loc (Zpos m) l) = Zpos m) by by destruct l as [|[]].
  replace (Z.max (Z.log2 (Zpos m) + 1 + e - 53) (3 - 1024 - 53) - e) with (Z.log2 (Zpos m) - 52) by lia.
  destruct (Z.log2 (Zpos m) - 52) as [|p|p] eqn:En; [|..|lia].
  - eexists. split; [by rewrite Z.add_0_r|]. rewrite Hl. cbn [Z.pow]. by rewrite Z.div_1_r.
  - eexists. split; [reflexivity|]. rewrite iter_pos_iter, shr_m_iter, Hl, positive_nat_Z by (rewrite Hl; lia). done.
Qed.

Lemma log2_shifted m s : 0 <= s -> 0 < m -> s <= Z.log2 m -> Z.log2 (m / 2 ^ s) = Z.log2 m - s.
Proof. intros Hs Hm Hl. rewrite <- Z.shiftr_div_pow2, Z.log2_shiftr by lia. lia. Qed.

Lemma log2_range m k : 0 <= k -> 0 < m -> Z.log2 m = k -> 2 ^ k <= m < 2 ^ (k + 1).
Proof. intros Hk Hm <-. pose proof (Z.log2_spec m Hm). by rewrite <- Z.add_1_r in *. Qed.

(** Rounding cuts to 53 digits, or to one more than that. *)
Lemma round_53 m e l :
  2 ^ 52 <= m -> -1000 <= e -> e + Z.log2 m <= 200 ->
  let s := Z.log2 m - 52 in
  exists m' e', binary_round_aux 53 1024 false m e l = S754_finite false m' e' /\
    2 ^ 52 <= Zpos m' < 2 ^ 53 /\ e + s <= e' <= e + s + 1 /\
    m / 2 ^ s <= Zpos m' * 2 ^ (e' - (e + s)) <= m / 2 ^ s + 1.
Proof.
  intros Hm He Hup s. assert (H52 : 52 <= Z.log2 m) by (change 52 with (Z.log2 (2 ^ 52)); by apply Z.log2_le_mono).
  unfold binary_round_aux. destruct (shr_fexp_53 m e l Hm He) as (mrs & -> & Em). fold s in Em |- *.
  assert (Hq : 2 ^ 52 <= m / 2 ^ s < 2 ^ 53).
  { apply (log2_range _ 52); [lia| |].
    - apply Z.div_str_pos. pose proof (Z.log2_spec m ltac:(lia)). split; [lia|]. transitivity (2 ^ Z.log2 m); [|lia].
      apply Z.pow_le_mono_r; lia.
    - rewrite log2_shifted by lia. lia. }
  rewrite Em. set (q := m / 2 ^ s) in *. set (m1 := round_nearest_even q _).
  assert (H1 : q <= m1 <= q + 1) by (unfold m1, round_nearest_even; destruct (loc_of_shr_record mrs) as [|[]]; try destruct (Z.even _); lia).
  destruct (shr_fexp_53 m1 (e + s) loc_Exact) as (mrs2 & -> & Em2); [lia|lia|]. rewrite Em2. clearbody m1. clear Em Em2 mrs mrs2.
  destruct (Z.eq_dec m1 (2 ^ 53)) as [Hc|Hc].
  - rewrite Hc. change (Z.log2 (2 ^ 53)) with 53. change (2 ^ 53 / 2 ^ (53 - 52)) with (Zpos 4503599627370496). cbv beta iota.
    destruct (Z.leb_spec (e + s + (53 - 52)) (1024 - 53)); [|lia]. eexists _, _. split; [reflexivity|].
    split; [lia|]. split; [lia|]. replace (e + s + (53 - 52) - (e + s)) with 1 by lia. lia.
  - assert (Z.log2 m1 = 52) as -> by (apply Z.log2_unique; lia). change (52 - 52) with 0. rewrite Z.pow_0_r, Z.div_1_r.
    destruct m1 as [|r|r]; try lia. destruct (Z.leb_spec (e + s + 0) (1024 - 53)); [|lia].
    eexists _, _. split; [reflexivity|]. split; [lia|]. split; [lia|]. replace (e + s + 0 - (e + s)) with 0 by lia. lia.
Qed.

(** A positive double of 53 digits that is at most [2 ^ 52]. *)
Definition normal (x : double) (m e : Z) : Prop :=
  exists p, x = S754_finite false p e /\ m = Zpos p /\ 2 ^ 52 <= m < 2 ^ 53 /\ -52 <= e <= 0.

Lemma double_of_Z_normal n : 1 <= n < 2 ^ 52 -> exists e, normal (double_of_Z n) (n * 2 ^ (- e)) e.
Proof.
  intros Hn. destruct n as [|n|n]; try lia. unfold double_of_Z. cbn [binary_normalize]. unfold binary_round.
  assert (Hl : 0 <= Z.log2 (Zpos n) < 52) by (split; [apply Z.log2_nonneg|apply Z.log2_lt_pow2; lia]).
  set (f := fexp 53 1024 (Zpos (digits2_pos n) + 0)).
  assert (Ef : f = Z.log2 (Zpos n) - 52) by (unfold f, fexp, emin; rewrite digits2_log2; lia).
  pose proof (shl_align_fst n 0 f ltac:(lia)) as Hm.
  assert (Hz : snd (shl_align n 0 f) = f) by (unfold shl_align; destruct (f - 0) eqn:E; cbn [snd]; [lia|lia|done]).
  destruct (shl_align n 0 f) as [mz ez]. cbn [fst snd] in Hm, Hz. subst ez. rewrite Z.sub_0_l in Hm.
  assert (Hlog : Z.log2 (Zpos mz) = 52) by (rewrite Hm, Z.log2_mul_pow2 by lia; lia).
  pose proof (log2_range (Zpos mz) 52 ltac:(lia) ltac:(lia) Hlog) as Hr.
  unfold binary_round_aux. destruct (shr_fexp_53 (Zpos mz) f loc_Exact) as (mrs & E1 & Em); [lia|lia|].
  rewrite Hlog in E1, Em. change (52 - 52) with 0 in *. rewrite Z.pow_0_r, Z.div_1_r in Em.
  assert (Er : shr_fexp 53 1024 (Zpos mz) f loc_Exact = (shr_record_of_loc (Zpos mz) loc_Exact, f)).
  { unfold shr_fexp, shr, fexp, emin. cbn [Zdigits2]. rewrite digits2_log2, Hlog.
    by replace (Z.max (52 + 1 + f - 53) (3 - 1024 - 53) - f) with 0 by lia. }
  rewrite Er. cbn [shr_record_of_loc shr_m loc_of_shr_record round_nearest_even]. rewrite Er. cbn [shr_record_of_loc shr_m].
  destruct (Z.leb_spec f (1024 - 53)); [|lia]. exists f. exists mz. rewrite Hm. split; [done|]. split; [done|]. lia.
Qed.

(** A product below [2 ^ 52] loses less than one. *)
Lemma mul_normal x y a b e f :
  normal x a e -> normal y b f -> a * b < 2 ^ (52 - (e + f)) ->
  exists m g, double_mul x y = S754_finite false m g /\ 2 ^ 52 <= Zpos m < 2 ^ 53 /\ g <= 0 /\
    e + f + 52 <= g <= e + f + 54 /\
    a * b / 2 ^ (- (e + f)) <= Zpos m / 2 ^ (- g) <= a * b / 2 ^ (- (e + f)) + 1 /\
    Zpos m * 2 ^ (g - (e + f)) <= 2 * (a * b).
Proof.
  intros (p & -> & -> & Hp & He) (q & -> & -> & Hq & Hf) Hlt. unfold double_mul, SFmul. cbn [xorb].
  assert (HP : 2 ^ 52 * 2 ^ 52 <= Zpos (p * q) < 2 ^ 53 * 2 ^ 53).
  { rewrite Pos2Z.inj_mul. split; [apply Z.mul_le_mono_nonneg; lia|apply Z.mul_lt_mono_nonneg; lia]. }
  assert (Hlog : 104 <= Z.log2 (Zpos (p * q)) < 106).
  { split; [change 104 with (Z.log2 (2 ^ 52 * 2 ^ 52)); apply Z.log2_le_mono; lia|apply Z.log2_lt_pow2; lia]. }
  assert (Hlog2 : Z.log2 (Zpos (p * q)) < 52 - (e + f)) by (apply Z.log2_lt_pow2; lia).
  destruct (round_53 (Zpos (p * q)) (e + f) loc_Exact) as (m & g & E & Hm & Hg & Hv); [lia|lia|lia|]. cbv zeta in Hg, Hv.
  rewrite E. set (s := Z.log2 (Zpos (p * q)) - 52) in *. set (t := e + f + s) in *. rewrite <- Pos2Z.inj_mul.
  set (P := Zpos (p * q)) in *. exists m, g. split; [done|]. split; [done|]. split; [lia|]. split; [lia|].
  assert (Ediv : P / 2 ^ (- (e + f)) = P / 2 ^ s / 2 ^ (- t)).
  { rewrite Z.div_div by lia. rewrite <- Z.pow_add_r by lia. do 2 f_equal. lia. }
  assert (Em : Zpos m / 2 ^ (- g) = Zpos m * 2 ^ (g - t) / 2 ^ (- t)).
  { replace (- t) with (- g + (g - t)) by lia. rewrite Z.pow_add_r by lia. rewrite Z.div_mul_cancel_r by lia. done. }
  split.
  - rewrite Ediv, Em. split; [apply Z.div_le_mono; lia|]. transitivity ((P / 2 ^ s + 1 * 2 ^ (- t)) / 2 ^ (- t)).
    + apply Z.div_le_mono; [lia|]. assert (0 < 2 ^ (- t)) by lia. lia.
    + rewrite Z.div_add by lia. lia.
  - replace (g - (e + f)) with ((g - t) + s) by lia. rewrite Z.pow_add_r, Z.mul_assoc by lia.
    assert (1 <= P / 2 ^ s) by (apply Z.div_le_lower_bound; [lia|]; rewrite Z.mul_1_r; transitivity (2 ^ Z.log2 P);
      [apply Z.pow_le_mono_r; lia|apply Z.log2_spec; lia]).
    pose proof (Z.mul_div_le P (2 ^ s) ltac:(lia)). assert (0 < 2 ^ s) by lia. nia.
Qed.

(** A quotient by a number that is at least one is at most twice the number. *)
Lemma div_normal x y a b e f c :
  normal x a e -> normal y b f -> e <= -20 -> 2 ^ (- f) <= b -> a <= c * 2 ^ (- e) ->
  exists m g, double_div x y = S754_finite false m g /\ 2 ^ 52 <= Zpos m < 2 ^ 53 /\ g <= -18 /\ Zpos m <= 2 * c * 2 ^ (- g).
Proof.
  intros (p & -> & -> & Hp & He) (q & -> & -> & Hq & Hf) He20 Hb Ha. unfold double_div, SFdiv, SFdiv_core_binary. cbn [Zdigits2 xorb].
  assert (Hl : forall r, 2 ^ 52 <= Zpos r < 2 ^ 53 -> Zpos (digits2_pos r) = 53).
  { intros r Hr. rewrite digits2_log2. assert (Z.log2 (Zpos r) = 52) as -> by (apply Z.log2_unique; lia). done. }
  rewrite (Hl p Hp), (Hl q Hq). assert (Z.min (fexp 53 1024 (53 + e - (53 + f))) (e - f) = e - f - 53) as -> by (unfold fexp, emin; lia).
  replace (e - f - (e - f - 53)) with 53 by lia. cbv iota. rewrite Z.shiftl_mul_pow2 by lia.
  destruct (Z.div_eucl (Zpos p * 2 ^ 53) (Zpos q)) as [d r] eqn:Ed.
  assert (Hd : d = Zpos p * 2 ^ 53 / Zpos q) by (unfold Z.div; by rewrite Ed).
  assert (Hd1 : 2 ^ 52 <= d < 2 ^ 54) by (rewrite Hd; split; [apply Z.div_le_lower_bound; lia|apply Z.div_lt_upper_bound; lia]).
  assert (Hlog : 52 <= Z.log2 d < 54).
  { split; [change 52 with (Z.log2 (2 ^ 52)); apply Z.log2_le_mono; lia|apply Z.log2_lt_pow2; lia]. }
  destruct (round_53 d (e - f - 53) (new_location (Zpos q) r)) as (m & g & E & Hm & Hg & Hv); [lia|lia|lia|]. cbv zeta in Hg, Hv.
  rewrite E. exists m, g. split; [done|]. split; [done|]. set (s := Z.log2 d - 52) in *. set (e' := e - f - 53) in *.
  assert (Hc : 0 < c) by nia.
  assert (Hdc : d <= c * 2 ^ (- e')).
  { rewrite Hd. apply Z.div_le_upper_bound; [lia|]. transitivity (2 ^ (- f) * (c * 2 ^ (- e'))).
    - replace (- e') with ((53 + f) + - e) by lia. rewrite Z.pow_add_r by lia.
      replace (2 ^ (- f) * (c * (2 ^ (53 + f) * 2 ^ (- e)))) with (c * 2 ^ (- e) * (2 ^ (- f) * 2 ^ (53 + f))) by lia.
      rewrite <- Z.pow_add_r by lia. replace (- f + (53 + f)) with 53 by lia. apply Z.mul_le_mono_nonneg_r; lia.
    - apply Z.mul_le_mono_nonneg_r; [apply Z.mul_nonneg_nonneg; lia|done]. }
  split; [lia|].
  assert (H1 : 1 <= d / 2 ^ s) by (apply Z.div_le_lower_bound; [lia|]; rewrite Z.mul_1_r; transitivity (2 ^ Z.log2 d);
    [apply Z.pow_le_mono_r; lia|apply Z.log2_spec; lia]).
  pose proof (Z.mul_div_le d (2 ^ s) ltac:(lia)) as H2.
  assert (H3 : Zpos m * 2 ^ (g - e') <= 2 * d).
  { replace (g - e') with ((g - (e' + s)) + s) by lia. rewrite Z.pow_add_r, Z.mul_assoc by lia. assert (0 < 2 ^ s) by lia. nia. }
  replace (- e') with (- g + (g - e')) in Hdc by lia. rewrite Z.pow_add_r in Hdc by lia.
  assert (0 < 2 ^ (g - e')) by lia. nia.
Qed.
