(* ===== verification/Utils.v ===== *)
(** The string utilities ([utils.h], [utils.cpp]) that the debug output uses.

    Positions of a string that are [npos] are [None]; the outer [None] of a
    result is exhausted fuel, the inner one an operation that is undefined. *)
From S2P Require Import Prelude.

(** ** Searching *)
Definition in_set (cs : bytes) (c : Z) : bool := existsb (Z.eqb c) cs.

Fixpoint find_first_not_of (cs s : bytes) : option nat :=
  match s with
  | [] => None
  | c :: s => if in_set cs c then option_map S (find_first_not_of cs s) else Some 0%nat
  end.

Fixpoint find_last_not_of (cs s : bytes) : option nat :=
  match s with
  | [] => None
  | c :: s =>
      match find_last_not_of cs s with
      | Some i => Some (S i)
      | None => if in_set cs c then None else Some 0%nat
      end
  end.

(** The first place of [delim] in [s]. *)
Fixpoint find_in (delim s : bytes) : option nat :=
  if starts_with delim s then Some 0%nat
  else match s with [] => None | _ :: s => option_map S (find_in delim s) end.

Definition find (s delim : bytes) (pos : nat) : option nat :=
  if (length s <? pos)%nat then None else option_map (Nat.add pos) (find_in delim (drop pos s)).

(** ** The functions *)
Fixpoint split_loop (fuel : nat) (full delim : bytes) (pos_begin : option nat) (result : list bytes) : option (list bytes) :=
  match pos_begin with
  | None => Some result
  | Some pos =>
      match fuel with
      | O => None
      | S fuel =>
          let '(tmp, pos_begin) :=
            match find full delim pos with
            | Some comma_pos => (take (comma_pos - pos) (drop pos full), Some (comma_pos + length delim)%nat)
            | None => (drop pos full, None)
            end in
          split_loop fuel full delim pos_begin (match tmp with [] => result | _ => result ++ [tmp] end)
      end
  end.

Definition SplitString (full delim : bytes) : option (list bytes) :=
  match full with
  | [] => Some []
  | _ => split_loop (S (length full)) full delim (find_first_not_of delim full) []
  end.

Definition TrimString (str trim : bytes) : bytes :=
  match find_first_not_of trim str with
  | None => str
  | Some pos =>
      match find_last_not_of trim str with
      | Some pos2 => take (pos2 - pos + 1) (drop pos str)
      | None => drop pos str
      end
  end.

(** Every element is followed by the joiner; then the last octet goes, which
    is undefined if there is none. *)
Definition JoinContainerToString {A} (print : A -> bytes) (c : list A) (joiner : bytes) : option bytes :=
  match c with
  | [] => Some []
  | _ => match flat_map (fun x => print x ++ joiner) c with [] => None | result => Some (removelast result) end
  end.

(** ** What they do *)
Fixpoint pieces (fuel : nat) (delim s : bytes) : list bytes :=
  match fuel with
  | O => []
  | S fuel =>
      match find_in delim s with
      | Some i => take i s :: pieces fuel delim (drop (i + length delim) s)
      | None => [s]
      end
  end.

Definition nonempty (s : bytes) : bool := match s with [] => false | _ => true end.

Lemma find_in_bound delim s i : find_in delim s = Some i -> (i + length delim <= length s)%nat /\ take (length delim) (drop i s) = delim.
Proof.
  revert i. induction s as [|c s IH]; intros i; cbn [find_in].
  - destruct (starts_with delim []) eqn:E; [|done]. intros [= <-]. apply starts_with_spec in E as [t E].
    destruct delim; [|done]. done.
  - destruct (starts_with delim (c :: s)) eqn:E.
    + intros [= <-]. apply starts_with_spec in E as [t ->]. rewrite length_app. split; [lia|]. by rewrite drop_0, take_app_length.
    + destruct (find_in delim s) as [j|] eqn:Ej; [|done]. intros [= <-]. destruct (IH j eq_refl) as [H1 H2]. cbn [length drop]. split; [lia|done].
Qed.

(** The loop cuts at every delimiter and drops the empty pieces; it ends when
    the delimiter is not empty. *)
Lemma split_loop_pieces fuel full delim pos result :
  delim <> [] -> (pos <= length full)%nat -> (length full - pos < fuel)%nat ->
  split_loop fuel full delim (Some pos) result = Some (result ++ List.filter nonempty (pieces fuel delim (drop pos full))).
Proof.
  intros Hd. assert (Hl : (0 < length delim)%nat) by (destruct delim; [done|cbn; lia]).
  revert pos result. induction fuel as [|fuel IH]; intros pos result Hp Hf; [lia|]. cbn [split_loop pieces].
  unfold find. destruct (Nat.ltb_spec (length full) pos); [lia|].
  destruct (find_in delim (drop pos full)) as [i|] eqn:E; cbn [option_map].
  - pose proof (find_in_bound _ _ _ E) as [Hb _]. rewrite length_drop in Hb. replace (pos + i - pos)%nat with i by lia.
    rewrite IH by lia. rewrite drop_drop. replace (pos + (i + length delim))%nat with (pos + i + length delim)%nat by lia.
    cbn [List.filter]. destruct (take i (drop pos full)); cbn [nonempty]; [done|]. by rewrite <- app_assoc.
  - cbn [List.filter]. destruct (drop pos full); destruct fuel; cbn; rewrite ?app_nil_r; done.
Qed.

(** What [SplitString] returns, after leading octets of the delimiter. *)
Theorem SplitString_pieces full delim :
  delim <> [] ->
  SplitString full delim = Some match find_first_not_of delim full with
    | Some pos => List.filter nonempty (pieces (S (length full)) delim (drop pos full))
    | None => [] end.
Proof.
  intros Hd. unfold SplitString. destruct full as [|c full]; [done|]. destruct (find_first_not_of delim (c :: full)) as [pos|] eqn:E; [|done].
  assert (Hp : forall s p, find_first_not_of delim s = Some p -> (p < length s)%nat).
  { induction s as [|x s IH]; intros p; cbn [find_first_not_of]; [done|]. destruct (in_set delim x).
    - destruct (find_first_not_of delim s) as [p'|] eqn:E'; [|done]. intros [= <-]. specialize (IH p' eq_refl). cbn. lia.
    - intros [= <-]. cbn. lia. }
  specialize (Hp _ _ E). by rewrite split_loop_pieces by (done || lia).
Qed.

(** With an empty delimiter the loop never moves. *)
Theorem SplitString_empty_delim c full fuel result :
  split_loop fuel (c :: full) [] (Some 0%nat) result = None.
Proof. revert result. induction fuel as [|fuel IH]; intros result; [done|]. cbn [split_loop]. unfold find. cbn. apply IH. Qed.

Example SplitString_sample : SplitString [44; 97; 44; 44; 98] [44] = Some [[97]; [98]].
Proof. reflexivity. Qed.

(** A string of trim characters only comes back as it is. *)
Example TrimString_sample : TrimString [32; 97; 32] [32] = [97] /\ TrimString [32; 32] [32] = [32; 32].
Proof. split; reflexivity. Qed.

(** Only one octet of the last joiner is taken away. *)
Example JoinContainerToString_sample : JoinContainerToString (fun x => [x]) [97; 98] [44; 32] = Some [97; 44; 32; 98; 44].
Proof. reflexivity. Qed.
