(* ===== verification/Statistics.v ===== *)
(** Statistics: the histogram ([stat_collector.h], [stat_collector.cpp]), the
    counters by name and their log files ([staticstic.h], [staticstic.cpp]) and
    the tracer ([tracer.h]).

    A thread at a time: [HistogramStat::Add] loads and stores and may lose
    updates of other threads, as its comment says.  Clocks are arguments; the
    text of reports is left out.  [None] is a failed assertion or a conversion
    that is undefined. *)
From Stdlib Require String.
From S2P Require Import Prelude Double.

(** ** Counters and time *)
Definition s64 (z : Z) : Z := if u64 z <? 2 ^ 63 then u64 z else u64 z - 2 ^ 64.

(** The value before, and the counter. *)
Definition Counter_Add (c v : Z) : Z * Z := (c, s64 (c + v)).
Definition Counter_Sub (c v : Z) : Z * Z := (c, s64 (c - v)).
Definition Counter_Inc (c : Z) : Z * Z := Counter_Add c 1.
Definition Counter_Dec (c : Z) : Z * Z := Counter_Sub c 1.

Record timeval := mkTime { tv_sec : Z; tv_usec : Z }.

Definition CalculateConsumeTimeUs (begin_ end_ : timeval) : option Z :=
  if tv_sec end_ <? tv_sec begin_ then None
  else Some (u64 ((tv_sec end_ - tv_sec begin_) * 1000000 + (tv_usec end_ - tv_usec begin_))).

(** ** The buckets *)
Record HistogramBucketMapper := mkMapper {
  bucketValues_ : list Z; maxBucketValue_ : Z; minBucketValue_ : Z; valueIndexMap_ : list (Z * Z) }.

(** Two significant digits; twenty rounds are more than 64 bits have digits. *)
Fixpoint two_digits (fuel : nat) (v pow_of_ten : Z) : option Z :=
  match fuel with
  | O => None
  | S fuel => if 10 <? v / 10 then two_digits fuel (v / 10) (pow_of_ten * 10) else Some (v * pow_of_ten)
  end.

(** The loop of the constructor. *)
Fixpoint more_buckets (fuel : nat) (bucket_val : double) (values : list Z) (index : list (Z * Z)) : option (list Z * list (Z * Z)) :=
  match fuel with
  | O => None
  | S fuel =>
      let bucket_val := double_mul (double_div (double_of_Z 3) (double_of_Z 2)) bucket_val in
      if SFleb bucket_val (double_of_Z UINT64_MAX) then
        v ← to_u64 bucket_val; v ← two_digits 20 v 1;
        let values := values ++ [v] in
        more_buckets fuel bucket_val values (om_insert Z.compare v (Z.of_nat (length values) - 1) index)
      else Some (values, index)
  end.

Definition new_mapper : option HistogramBucketMapper :=
  '(values, index) ← more_buckets 200 (double_of_Z 2) [1; 2] [(1, 0); (2, 1)];
  Some (mkMapper values (List.last values 0) (hd 0 values) index).

Definition bucketMapper : HistogramBucketMapper :=
  match new_mapper with Some m => m | None => mkMapper [] 0 0 [] end.

Definition BucketCount (m : HistogramBucketMapper) : nat := length (bucketValues_ m).
Definition LastValue (m : HistogramBucketMapper) : Z := maxBucketValue_ m.
Definition FirstValue (m : HistogramBucketMapper) : Z := minBucketValue_ m.
Definition BucketLimit (m : HistogramBucketMapper) (b : nat) : option Z := bucketValues_ m !! b.

Definition IndexForValue (m : HistogramBucketMapper) (value : Z) : nat :=
  if maxBucketValue_ m <=? value then BucketCount m - 1
  else if minBucketValue_ m <=? value then
    match om_lower_bound Z.compare value (valueIndexMap_ m) with
    | (_, i) :: _ => Z.to_nat i
    | [] => 0%nat
    end
  else 0%nat.

(** ** The histogram *)
Record HistogramStat := mkStat {
  min_ : Z; max_ : Z; num_ : Z; sum_ : Z; sum_squares_ : Z; buckets_ : list Z }.

(** The size the array is declared with, which the constructor asserts. *)
Definition kBuckets : nat := 109.

Definition Stat_Clear : HistogramStat := mkStat (LastValue bucketMapper) 0 0 0 0 (replicate kBuckets 0).

Definition new_HistogramStat : option HistogramStat :=
  if (BucketCount bucketMapper =? kBuckets)%nat then Some Stat_Clear else None.

Definition Stat_Empty (h : HistogramStat) : bool := num_ h =? 0.

Definition Stat_Add (h : HistogramStat) (value : Z) : option HistogramStat :=
  let index := IndexForValue bucketMapper value in
  n ← buckets_ h !! index;
  Some (mkStat (if value <? min_ h then value else min_ h) (if max_ h <? value then value else max_ h)
          (u64 (num_ h + 1)) (u64 (sum_ h + value)) (u64 (sum_squares_ h + u64 (value * value)))
          (<[index := u64 (n + 1)]> (buckets_ h))).

Definition Stat_Merge (h other : HistogramStat) : HistogramStat :=
  mkStat (if min_ other <? min_ h then min_ other else min_ h) (if max_ h <? max_ other then max_ other else max_ h)
    (u64 (num_ h + num_ other)) (u64 (sum_ h + sum_ other)) (u64 (sum_squares_ h + sum_squares_ other))
    (zip_with (fun a b => u64 (a + b)) (buckets_ h) (buckets_ other)).

(** Within a bucket the values are taken to be spread evenly. *)
Definition bucket_point (h : HistogramStat) (threshold : double) (b : nat) (bucket_value cumulative_sum : Z) : option double :=
  left_point ← match b with O => Some 0 | S b => BucketLimit bucketMapper b end;
  right_point ← BucketLimit bucketMapper b;
  let left_sum := u64 (cumulative_sum - bucket_value) in
  let right_left_diff := u64 (cumulative_sum - left_sum) in
  let pos :=
    if negb (right_left_diff =? 0) then double_div (double_sub threshold (double_of_Z left_sum)) (double_of_Z right_left_diff)
    else double_of_Z 0 in
  let r := double_add (double_of_Z left_point) (double_mul (double_of_Z (u64 (right_point - left_point))) pos) in
  let r := if SFltb r (double_of_Z (min_ h)) then double_of_Z (min_ h) else r in
  Some (if SFltb (double_of_Z (max_ h)) r then double_of_Z (max_ h) else r).

Fixpoint percentile_loop (h : HistogramStat) (threshold : double) (b : nat) (buckets : list Z) (cumulative_sum : Z) : option double :=
  match buckets with
  | [] => Some (double_of_Z (max_ h))
  | bucket_value :: buckets =>
      let cumulative_sum := u64 (cumulative_sum + bucket_value) in
      if SFleb threshold (double_of_Z cumulative_sum) then bucket_point h threshold b bucket_value cumulative_sum
      else percentile_loop h threshold (S b) buckets cumulative_sum
  end.

Definition Percentile (h : HistogramStat) (p : double) : option double :=
  percentile_loop h (double_mul (double_of_Z (num_ h)) (double_div p (double_of_Z 100))) 0 (buckets_ h) 0.

Definition Median (h : HistogramStat) : option double := Percentile h (double_of_Z 50).

Definition Average (h : HistogramStat) : double :=
  if num_ h =? 0 then double_of_Z 0 else double_div (double_of_Z (sum_ h)) (double_of_Z (num_ h)).

Definition StandardDeviation (h : HistogramStat) : double :=
  if num_ h =? 0 then double_of_Z 0
  else double_sqrt (double_div (double_of_Z (u64 (u64 (sum_squares_ h * num_ h) - u64 (sum_ h * sum_ h))))
                               (double_of_Z (u64 (num_ h * num_ h)))).

Record HistogramData := mkData {
  median : double; percentile95 : double; percentile99 : double; average : double; standard_deviation : double;
  data_max : double; data_count : Z; data_sum : Z }.

Definition Stat_Data (h : HistogramStat) : option HistogramData :=
  median ← Median h; p95 ← Percentile h (double_of_Z 95); p99 ← Percentile h (double_of_Z 99);
  Some (mkData median p95 p99 (Average h) (StandardDeviation h) (double_of_Z (max_ h)) (num_ h) (sum_ h)).

(** ** One counter with its times *)
Record StatEntity := mkEntity { count_ : Z; consume_us_ : HistogramStat }.

Definition StatEntity_Add (e : StatEntity) (count consume_us : Z) : option StatEntity :=
  h ← Stat_Add (consume_us_ e) consume_us; Some (mkEntity (snd (Counter_Add (count_ e) count)) h).

(** The constructor takes the time as [uint32_t]. *)
Definition new_StatEntity (count consume_us : Z) : option StatEntity :=
  h ← new_HistogramStat; StatEntity_Add (mkEntity 0 h) count (u32 consume_us).

(** Copies, and moves, are merged into a new entity. *)
Definition StatEntity_copy (e : StatEntity) : option StatEntity :=
  h ← new_HistogramStat;
  Some (mkEntity (snd (Counter_Add 0 (count_ e))) (Stat_Merge h (consume_us_ e))).

Definition InvokeCount (e : StatEntity) : Z := num_ (consume_us_ e).
Definition AvgConsumeUs (e : StatEntity) : option Z := to_u64 (Average (consume_us_ e)).

(** Fifty, eighty and ninety percent, the comment says. *)
Definition ConsumeUs (e : StatEntity) : option (Z * Z * Z) :=
  a ← Percentile (consume_us_ e) (double_div (double_of_Z 5) (double_of_Z 10));
  b ← Percentile (consume_us_ e) (double_div (double_of_Z 8) (double_of_Z 10));
  c ← Percentile (consume_us_ e) (double_div (double_of_Z 9) (double_of_Z 10));
  a ← to_u64 a; b ← to_u64 b; c ← to_u64 c; Some (a, b, c).

(** ** Counters by name and result *)
Abbreviation ResultEntity := (list (Z * StatEntity)) (only parsing).
Abbreviation StatNameEntityList := (list (bytes * list (Z * StatEntity))) (only parsing).

Definition AddStat (l : StatNameEntityList) (stat_name : bytes) (result count consume_us : Z) : option StatNameEntityList :=
  match om_find bytes_cmp stat_name l with
  | None =>
      e ← new_StatEntity count consume_us; e ← StatEntity_copy e;
      Some (om_emplace bytes_cmp stat_name [(result, e)] l)
  | Some result_entity =>
      match om_find Z.compare result result_entity with
      | None =>
          e ← new_StatEntity count consume_us; e ← StatEntity_copy e;
          Some (om_insert bytes_cmp stat_name (om_emplace Z.compare result e result_entity) l)
      | Some e =>
          e ← StatEntity_Add e count consume_us;
          Some (om_insert bytes_cmp stat_name (om_insert Z.compare result e result_entity) l)
      end
  end.

Definition AddStat_between (l : StatNameEntityList) (stat_name : bytes) (result count : Z) (begin_ : timeval) (end_ : option timeval)
    (now : timeval) : option StatNameEntityList :=
  us ← CalculateConsumeTimeUs begin_ (match end_ with Some t => t | None => now end);
  AddStat l stat_name result count us.

(** ** Log files *)

(** [log_file_base_].log, and the older ones by number. *)
Inductive log_file := Current | Numbered (n : Z).

#[export] Instance log_file_eq_dec : EqDecision log_file.
Proof. solve_decision. Defined.

(** What the operating system is asked for and may refuse. *)
Inductive file_request := Open | Size | Remove (f : log_file) | Rename (f g : log_file).

(** The directory: the contents of the files there are.  [fd_] is the file the
    descriptor writes to, as the contents are moved with their file. *)
Record Log := mkLog { files : log_file -> option bytes; fd_ : bool; log_max_num_ : Z; log_max_size_ : Z }.

Definition set_file (l : Log) (f : log_file) (c : option bytes) : Log :=
  mkLog (fun g => if decide (g = f) then c else files l g) (fd_ l) (log_max_num_ l) (log_max_size_ l).
Definition set_fd (l : Log) (fd : bool) : Log := mkLog (files l) fd (log_max_num_ l) (log_max_size_ l).

Section Files.
Context (allows : file_request -> bool).

(** Opening for appending makes the file. *)
Definition Reopen (l : Log) : Log * Z :=
  let l :=
    if fd_ l then l
    else if allows Open then set_fd (match files l Current with None => set_file l Current (Some []) | Some _ => l end) true
    else l in
  if negb (fd_ l) then (l, -1)
  else match files l Current with
       | Some c => if allows Size then (l, Z.of_nat (length c)) else (set_fd l false, -1)
       | None => (set_fd l false, -1)
       end.

(** The loop over the numbers from [i] down to 0; [false] is a return with -1. *)
Fixpoint shift_files (n : nat) (l : Log) : Log * bool :=
  match n with
  | O => (l, true)
  | S i =>
      let log_file_name := match i with O => Current | _ => Numbered (Z.of_nat i) end in
      match files l log_file_name with
      | Some c =>
          let new_log_file_name := Numbered (Z.of_nat i + 1) in
          if allows (Rename log_file_name new_log_file_name) then
            shift_files i (set_file (set_file l log_file_name None) new_log_file_name (Some c))
          else (l, false)
      | None => shift_files i l
      end
  end.

Definition SwitchFile (l : Log) : Log * Z :=
  let '(l, log_size) := Reopen l in
  if log_size <? 0 then (l, -2)
  else if log_size <? log_max_size_ l then (l, 0)
  else
    let oldest := Numbered (log_max_num_ l - 1) in
    let removed :=
      match files l oldest with
      | Some _ => if allows (Remove oldest) then Some (set_file l oldest None) else None
      | None => Some l
      end in
    match removed with
    | None => (l, -1)
    | Some l =>
        let '(l, ok) := shift_files (Z.to_nat (log_max_num_ l - 1)) l in
        if ok then
          let '(l, log_size) := Reopen (set_fd l false) in
          (l, if log_size <? 0 then -2 else 0)
        else (l, -1)
    end.
End Files.

(** ** Reports *)
Record Staticstic := mkStatic { stat_name_entity_list_ : StatNameEntityList; log : Log; stat_total_time_us_ : Z; last_stat_time_us_ : Z }.

(** [Report]: the counters start again; [text] is what is printed of them. *)
Definition Report (allows : file_request -> bool) (text : Z -> StatNameEntityList -> bytes) (s : Staticstic) (now_us : Z) : Staticstic :=
  let total := s64 (now_us - last_stat_time_us_ s) in
  let total := if u32 total <? 2 ^ 31 then u32 total else u32 total - 2 ^ 32 in
  let '(l, r) := SwitchFile allows (log s) in
  if negb (r =? 0) || negb (fd_ l) then mkStatic [] l total now_us
  else mkStatic [] (set_file l Current (option_map (fun c => c ++ text total (stat_name_entity_list_ s)) (files l Current))) total now_us.

(** ** The tracer *)
Inductive TracerType :=
| kIndexWriterGetCount | kIndexWriterGetKvCount | kIndexWriterGetKvSizeBytes | kIndexWriterGetConsumeTimeUs
| kDocumentWriterPutCount | kDocumentWriterPutKvCount | kDocumentWriterPutKvSizeBytes | kDocumentWriterPutConsumeTimeUs
| kDocumentCount | kRealInsertKeys | kGetInvertedTableSubQueryCount | kGetInvertedTableSubQueryConsumeUs
| kGetDocvalueCountInCollector | kGetDocvalueConsumeUsInCollector | kFilterHitCountInCollector | kFilterConsumeUsInCollector
| kExceedInnerPurgeDocsTotalLimitCount | kGetStoredocCountInCollector | kGetStoredocConsumeUsInCollector
| kPostScorerConsumeUsInCollector | kPostScorerDocCountInCollector.

#[export] Instance TracerType_eq_dec : EqDecision TracerType.
Proof. solve_decision. Defined.

(** A map that gives 0 for what it does not have. *)
Definition SearchTracer : Type := TracerType -> option Z.
Definition Tracer_Set (t : SearchTracer) (ty : TracerType) (cnt : Z) : SearchTracer :=
  fun ty' => if decide (ty' = ty) then Some cnt else t ty'.
Definition Tracer_Add (t : SearchTracer) (ty : TracerType) (cnt : Z) : SearchTracer :=
  match t ty with
  | None => Tracer_Set t ty cnt
  | Some n => Tracer_Set t ty (u64 (n + cnt))
  end.
Definition Tracer_Get (t : SearchTracer) (ty : TracerType) : SearchTracer * Z :=
  match t ty with Some n => (t, n) | None => (Tracer_Set t ty 0, 0) end.
Definition Tracer_Clear : SearchTracer := fun _ => None.

(** The time cost of the stretches between start and stop. *)
Record TimeCostCounter := mkTimer { start_ : Z; end_ : Z; total_ : Z }.
Definition new_timer : TimeCostCounter := mkTimer 0 0 0.
Definition Start (t : TimeCostCounter) (now : Z) : TimeCostCounter :=
  mkTimer now now (u64 (total_ t + u64 (end_ t - start_ t))).
Definition Stop (t : TimeCostCounter) (now : Z) : TimeCostCounter := mkTimer (start_ t) now (total_ t).
Definition CostNanos (t : TimeCostCounter) (now : Z) : TimeCostCounter * Z :=
  let t := Stop t now in (t, u64 (total_ t + u64 (end_ t - start_ t))).
Definition CostUs (t : TimeCostCounter) (now : Z) : TimeCostCounter * Z :=
  let '(t, n) := CostNanos t now in (t, n / 1000).

(** ** The buckets of the mapper *)
Section Mapper.

Definition increasing (l : list Z) : bool :=
  (fix go (x : Z) (l : list Z) : bool := match l with [] => true | y :: l => (x <? y) && go y l end) 0 l.

(** What the constructor computes: as many buckets as the histogram has. *)
Lemma mapper_count : BucketCount bucketMapper = kBuckets.
Proof. vm_compute. reflexivity. Qed.

Lemma mapper_increasing : increasing (bucketValues_ bucketMapper) = true.
Proof. vm_compute. reflexivity. Qed.

Lemma mapper_index : valueIndexMap_ bucketMapper = zip (bucketValues_ bucketMapper) (map Z.of_nat (seq 0 (length (bucketValues_ bucketMapper)))).
Proof. vm_compute. reflexivity. Qed.

Lemma mapper_ends :
  bucketValues_ bucketMapper !! 0%nat = Some 1 /\ minBucketValue_ bucketMapper = 1 /\
  bucketValues_ bucketMapper !! 108%nat = Some (maxBucketValue_ bucketMapper) /\ 0 < maxBucketValue_ bucketMapper < 2 ^ 64.
Proof. vm_compute. done. Qed.

Lemma increasing_lookup l : increasing l = true -> forall i j x y, (i < j)%nat -> l !! i = Some x -> l !! j = Some y -> x < y.
Proof.
  unfold increasing. generalize 0. induction l as [|z l IH]; intros x0 H i j x y Hij Hi Hj; [done|].
  apply andb_true_iff in H as [_ H]. destruct j as [|j]; [lia|]. cbn [lookup list_lookup] in Hj. destruct i as [|i].
  - injection Hi as ->. clear IH. revert j x H y Hij Hj. induction l as [|w l IH]; intros j x H y _ Hj; [done|].
    apply andb_true_iff in H as [Hw%Z.ltb_lt H]. destruct j as [|j]; [by injection Hj as ->|].
    specialize (IH j w H y ltac:(lia) Hj). lia.
  - apply (IH _ H i j x y); [lia|done|done].
Qed.

Lemma lower_bound_index v l k :
  (exists x, x ∈ l /\ v <= x) ->
  exists j x r, om_lower_bound Z.compare v (zip l (map Z.of_nat (seq k (length l)))) = (x, Z.of_nat (k + j)) :: r /\
    l !! j = Some x /\ v <= x /\ forall j' y, (j' < j)%nat -> l !! j' = Some y -> y < v.
Proof.
  revert k. induction l as [|z l IH]; intros k (x & Hx & Hv); [by apply elem_of_nil in Hx|].
  cbn [length seq map]. change (zip (z :: l) (Z.of_nat k :: map Z.of_nat (seq (S k) (length l))))
    with ((z, Z.of_nat k) :: zip l (map Z.of_nat (seq (S k) (length l)))). cbn [om_lower_bound].
  destruct (Z.compare_spec v z) as [E|E|E].
  - exists 0%nat, z. rewrite Nat.add_0_r. eexists. split; [reflexivity|]. split; [done|]. split; [lia|]. intros j' y Hj'. lia.
  - exists 0%nat, z. rewrite Nat.add_0_r. eexists. split; [reflexivity|]. split; [done|]. split; [lia|]. intros j' y Hj'. lia.
  - destruct (IH (S k)) as (j & y & r & E1 & E2 & E3 & E4).
    { apply elem_of_cons in Hx as [->|Hx]; [lia|]. by exists x. }
    exists (S j), y, r. rewrite E1. split; [by rewrite <- plus_n_Sm|]. split; [done|]. split; [done|].
    intros [|j'] w Hj' Hw; [injection Hw as <-; lia|]. apply (E4 j'); [lia|done].
Qed.

(** A value falls into the first bucket whose limit it does not exceed, or into
    the last one. *)
Lemma IndexForValue_spec v :
  0 <= v ->
  let i := IndexForValue bucketMapper v in
  (i < kBuckets)%nat /\
  (exists l, BucketLimit bucketMapper i = Some l /\ (v <= l \/ i = 108%nat)) /\
  (forall j l, (j < i)%nat -> BucketLimit bucketMapper j = Some l -> l < v).
Proof.
  intros Hv i. subst i. destruct mapper_ends as (H0 & Hmin & Hlast & Hmax). unfold IndexForValue, BucketLimit.
  rewrite mapper_count, Hmin. change (kBuckets - 1)%nat with 108%nat.
  destruct (Z.leb_spec (maxBucketValue_ bucketMapper) v) as [Hge|Hlt].
  - split; [unfold kBuckets; lia|]. split; [eexists; split; [exact Hlast|by right]|].
    intros j l Hj Hl. pose proof (increasing_lookup _ mapper_increasing j 108 _ _ Hj Hl Hlast). lia.
  - destruct (Z.leb_spec 1 v).
    + rewrite mapper_index. destruct (lower_bound_index v (bucketValues_ bucketMapper) 0) as (j & x & r & E1 & E2 & E3 & E4).
      { exists (maxBucketValue_ bucketMapper). split; [by apply (list_elem_of_lookup_2 _ 108)|lia]. }
      rewrite E1. cbn [Nat.add]. rewrite Nat2Z.id. split.
      * apply lookup_lt_Some in E2. pose proof mapper_count as Hc. unfold BucketCount in Hc. lia.
      * split; [exists x; split; [done|by left]|]. intros j' l. apply E4.
    + split; [unfold kBuckets; lia|]. split; [exists 1; split; [done|left; lia]|]. intros j l Hj. lia.
Qed.
End Mapper.

#[global] Opaque bucketMapper.

(** ** What a histogram says *)
Section Summary.

Definition count_in (b : nat) (vs : list Z) : Z := Z.of_nat (length (filter (fun v => IndexForValue bucketMapper v = b) vs)).
Definition total (f : Z -> Z) (vs : list Z) : Z := foldr (fun v t => f v + t) 0 vs.

(** The histogram of the values [vs]. *)
Definition summary (vs : list Z) : HistogramStat :=
  mkStat (fold_left Z.min vs (LastValue bucketMapper)) (fold_left Z.max vs 0)
    (u64 (Z.of_nat (length vs))) (u64 (total (fun v => v) vs)) (u64 (total (fun v => v * v) vs))
    (map (fun b => u64 (count_in b vs)) (seq 0 kBuckets)).

Fixpoint adds (h : HistogramStat) (vs : list Z) : option HistogramStat :=
  match vs with [] => Some h | v :: vs => h ← Stat_Add h v; adds h vs end.

Lemma count_in_app b vs ws : count_in b (vs ++ ws) = count_in b vs + count_in b ws.
Proof. unfold count_in. rewrite filter_app, length_app. lia. Qed.

Lemma count_in_one b v : count_in b [v] = if decide (IndexForValue bucketMapper v = b) then 1 else 0.
Proof. unfold count_in. rewrite filter_cons. by case_decide. Qed.

Lemma total_app f vs ws : total f (vs ++ ws) = total f vs + total f ws.
Proof. induction vs as [|v vs IH]; [done|]. cbn [total app foldr] in *. unfold total in *. rewrite IH. lia. Qed.

Lemma total_one f v : total f [v] = f v.
Proof. unfold total. cbn. lia. Qed.

Lemma u64_add a b : u64 (u64 a + b) = u64 (a + b).
Proof. apply Zplus_mod_idemp_l. Qed.
Lemma u64_add_r a b : u64 (a + u64 b) = u64 (a + b).
Proof. apply Zplus_mod_idemp_r. Qed.

Lemma summary_nil : summary [] = Stat_Clear.
Proof. unfold summary, Stat_Clear. f_equal. Qed.

Lemma Stat_Add_summary vs v : 0 <= v -> Stat_Add (summary vs) v = Some (summary (vs ++ [v])).
Proof.
  intros Hv. destruct (IndexForValue_spec v Hv) as (Hi & _). cbv zeta in Hi. unfold Stat_Add.
  set (i := IndexForValue bucketMapper v) in *.
  assert (Hl : forall vs, buckets_ (summary vs) !! i = Some (u64 (count_in i vs))).
  { intros vs'. unfold summary. cbn [buckets_]. rewrite list_lookup_fmap, lookup_seq_lt by done. done. }
  rewrite Hl. cbn [mbind option_bind]. f_equal. unfold summary. cbn [min_ max_ num_ sum_ sum_squares_ buckets_]. f_equal.
  - rewrite fold_left_app. cbn [fold_left]. destruct (Z.ltb_spec v (fold_left Z.min vs (LastValue bucketMapper))); lia.
  - rewrite fold_left_app. cbn [fold_left]. destruct (Z.ltb_spec (fold_left Z.max vs 0) v); lia.
  - rewrite u64_add, length_app. f_equal. cbn [length]. lia.
  - by rewrite u64_add, total_app, total_one.
  - by rewrite u64_add, u64_add_r, total_app, total_one.
  - apply list_eq. intros j. destruct (decide (j = i)) as [->|Hne].
    + rewrite list_lookup_insert_eq by (rewrite length_map, length_seq; done). rewrite list_lookup_fmap, lookup_seq_lt by done.
      cbn [fmap option_fmap option_map]. rewrite u64_add, count_in_app, count_in_one. by rewrite decide_True.
    + rewrite list_lookup_insert_ne by done. rewrite !list_lookup_fmap. destruct (seq 0 kBuckets !! j) as [b|] eqn:E; [|done].
      cbn [fmap option_fmap option_map]. apply lookup_seq in E as [-> _]. rewrite count_in_app, count_in_one.
      rewrite decide_False by (fold i; cbn [Nat.add]; congruence). do 2 f_equal. lia.
Qed.

Lemma fold_min_le l m : fold_left Z.min l m <= m.
Proof. revert m. induction l as [|x l IH]; intros m; cbn [fold_left]; [lia|]. specialize (IH (Z.min m x)). lia. Qed.

Lemma fold_min l m L : m <= L -> fold_left Z.min l m = Z.min m (fold_left Z.min l L).
Proof.
  revert m L. induction l as [|x l IH]; intros m L H; cbn [fold_left]; [lia|]. rewrite (IH (Z.min m x) (Z.min L x)) by lia.
  pose proof (fold_min_le l (Z.min L x)). lia.
Qed.

Lemma fold_max_ge l m : m <= fold_left Z.max l m.
Proof. revert m. induction l as [|x l IH]; intros m; cbn [fold_left]; [lia|]. specialize (IH (Z.max m x)). lia. Qed.

Lemma fold_max l m L : L <= m -> fold_left Z.max l m = Z.max m (fold_left Z.max l L).
Proof.
  revert m L. induction l as [|x l IH]; intros m L H; cbn [fold_left]; [lia|]. rewrite (IH (Z.max m x) (Z.max L x)) by lia.
  pose proof (fold_max_ge l (Z.max L x)). lia.
Qed.

Lemma Stat_Merge_summary vs ws : Stat_Merge (summary vs) (summary ws) = summary (vs ++ ws).
Proof.
  unfold Stat_Merge, summary. cbn [min_ max_ num_ sum_ sum_squares_ buckets_].
  pose proof (fold_min_le vs (LastValue bucketMapper)). pose proof (fold_max_ge vs 0). f_equal.
  - rewrite fold_left_app, (fold_min ws (fold_left Z.min vs (LastValue bucketMapper)) (LastValue bucketMapper)) by done.
    destruct (Z.ltb_spec (fold_left Z.min ws (LastValue bucketMapper)) (fold_left Z.min vs (LastValue bucketMapper))); lia.
  - rewrite fold_left_app, (fold_max ws (fold_left Z.max vs 0) 0) by done. destruct (Z.ltb_spec (fold_left Z.max vs 0) (fold_left Z.max ws 0)); lia.
  - rewrite u64_add, u64_add_r, length_app. f_equal. lia.
  - by rewrite u64_add, u64_add_r, total_app.
  - by rewrite u64_add, u64_add_r, total_app.
  - apply list_eq. intros j. rewrite lookup_zip_with, !list_lookup_fmap. destruct (seq 0 kBuckets !! j) as [b|]; [|done].
    cbn [fmap option_fmap option_map mbind option_bind]. by rewrite u64_add, u64_add_r, count_in_app.
Qed.

Lemma adds_summary vs ws : Forall (Z.le 0) ws -> adds (summary vs) ws = Some (summary (vs ++ ws)).
Proof.
  intros Hws. revert vs. induction Hws as [|w ws Hw _ IH]; intros vs; cbn [adds]; [by rewrite app_nil_r|].
  rewrite Stat_Add_summary by done. cbn [mbind option_bind]. by rewrite IH, <- app_assoc.
Qed.

(** A percentile never exceeds the maximum. *)
Lemma Percentile_max h p r : Percentile h p = Some r -> SFltb (double_of_Z (max_ h)) r = false.
Proof.
  unfold Percentile. generalize (double_mul (double_of_Z (num_ h)) (double_div p (double_of_Z 100))). intros threshold.
  generalize 0%nat, 0. induction (buckets_ h) as [|n l IH]; intros b c; cbn [percentile_loop].
  - intros [= <-]. apply SFltb_irrefl.
  - cbv zeta. destruct (SFleb _ _); [|apply IH]. unfold bucket_point. intros H.
    destruct (match b with O => Some 0 | S b => BucketLimit bucketMapper b end); [|done]. cbn [mbind option_bind] in H.
    destruct (BucketLimit bucketMapper b); [|done]. cbn [mbind option_bind] in H. cbv zeta in H. injection H as <-.
    match goal with |- context [SFltb (double_of_Z (max_ h)) (if SFltb _ ?r then _ else _)] => destruct (SFltb (double_of_Z (max_ h)) r) eqn:E end.
    + apply SFltb_irrefl.
    + exact E.
Qed.
End Summary.

(** ** Counters *)
Section Counters.

Definition entity (e : StatEntity) (counts times : list Z) : Prop :=
  count_ e = s64 (total (fun v => v) counts) /\ consume_us_ e = summary times.

(** What a further sample makes of a counter, or of none. *)
Definition bump (o : option StatEntity) (count consume_us : Z) : option StatEntity :=
  match o with
  | None => e ← new_StatEntity count consume_us; StatEntity_copy e
  | Some e => StatEntity_Add e count consume_us
  end.

Definition counter (l : StatNameEntityList) (stat_name : bytes) (result : Z) : option StatEntity :=
  r ← om_find bytes_cmp stat_name l; om_find Z.compare result r.

Definition counters_ok (l : StatNameEntityList) : Prop :=
  om_sorted bytes_cmp l /\ forall n r, (n, r) ∈ l -> om_sorted Z.compare r.

Lemma s64_eq a b : u64 a = u64 b -> s64 a = s64 b.
Proof. unfold s64. by intros ->. Qed.

Lemma s64_s64 a b : s64 (s64 a + b) = s64 (a + b).
Proof.
  apply s64_eq. rewrite <- (u64_add a b). unfold s64, u64. case_match; [done|].
  replace (a mod 2 ^ 64 - 2 ^ 64 + b) with (a mod 2 ^ 64 + b + (-1) * 2 ^ 64) by lia. by rewrite Z_mod_plus_full.
Qed.

Lemma new_stat : new_HistogramStat = Some Stat_Clear.
Proof. unfold new_HistogramStat. by rewrite mapper_count. Qed.

Lemma StatEntity_Add_entity e counts times count us :
  entity e counts times -> 0 <= us ->
  exists e', StatEntity_Add e count us = Some e' /\ entity e' (counts ++ [count]) (times ++ [us]).
Proof.
  intros [Hc Ht] Hu. unfold StatEntity_Add. rewrite Ht, Stat_Add_summary by done. eexists. split; [reflexivity|].
  split; cbn [count_ consume_us_ Counter_Add snd]; [|done]. by rewrite Hc, s64_s64, total_app, total_one.
Qed.

Lemma StatEntity_copy_entity e counts times :
  entity e counts times -> exists e', StatEntity_copy e = Some e' /\ entity e' counts times.
Proof.
  intros [Hc Ht]. unfold StatEntity_copy. rewrite new_stat. cbn [mbind option_bind]. eexists. split; [reflexivity|].
  split; cbn [count_ consume_us_ Counter_Add snd].
  - rewrite Hc, Z.add_comm, s64_s64. f_equal. lia.
  - rewrite Ht, <- summary_nil. by rewrite Stat_Merge_summary.
Qed.

(** The first time of a counter is cut to 32 bits. *)
Lemma bump_new count us : exists e, bump None count us = Some e /\ entity e [count] [u32 us].
Proof.
  unfold bump, new_StatEntity. rewrite new_stat. cbn [mbind option_bind].
  destruct (StatEntity_Add_entity (mkEntity 0 Stat_Clear) [] [] count (u32 us)) as (e & -> & He); [by rewrite <- summary_nil| |].
  - pose proof (u32_range us) as Hr. unfold is_u32 in Hr. lia.
  - cbn [mbind option_bind]. by apply (StatEntity_copy_entity e).
Qed.

Lemma bump_old e counts times count us :
  entity e counts times -> 0 <= us -> exists e', bump (Some e) count us = Some e' /\ entity e' (counts ++ [count]) (times ++ [us]).
Proof. apply StatEntity_Add_entity. Qed.

Lemma compare_decide {A} (a b : Z) (x y : A) :
  match a ?= b with Eq => x | _ => y end = if decide (a = b) then x else y.
Proof. destruct (Z.compare_spec a b); [by rewrite decide_True|rewrite decide_False by lia; done..]. Qed.

(** [AddStat] changes one counter. *)
Lemma AddStat_spec l n r count us e :
  counters_ok l -> bump (counter l n r) count us = Some e ->
  exists l', AddStat l n r count us = Some l' /\ counters_ok l' /\
    forall n' r', counter l' n' r' = if decide (n' = n /\ r' = r) then Some e else counter l n' r'.
Proof.
  intros [Hs Hr] Hb. unfold AddStat, counter in *.
  assert (Hset : forall re, om_sorted Z.compare re ->
    (forall r', om_find Z.compare r' re =
       if decide (r' = r) then Some e else (x ← om_find bytes_cmp n l; om_find Z.compare r' x)) ->
    counters_ok (om_insert bytes_cmp n re l) /\
    forall n' r', (x ← om_find bytes_cmp n' (om_insert bytes_cmp n re l); om_find Z.compare r' x) =
      if decide (n' = n /\ r' = r) then Some e else (x ← om_find bytes_cmp n' l; om_find Z.compare r' x)).
  { intros re Hre Hf. split; [split|].
    - by apply (om_insert_sorted bytes_cmp).
    - intros n1 r1 Hin. apply (om_insert_in bytes_cmp) in Hin as [[= -> ->]|Hin]; [done|by apply (Hr n1)].
    - intros n' r'. rewrite (om_find_insert bytes_cmp) by done. destruct (bytes_cmp n' n) eqn:E.
      + apply (cmp_eq bytes_cmp) in E as ->. cbn [mbind option_bind]. rewrite Hf.
        destruct (decide (r' = r)); [rewrite decide_True by done|rewrite decide_False by naive_solver]; done.
      + rewrite decide_False; [done|]. intros [-> _]. by rewrite bytes_cmp_refl in E.
      + rewrite decide_False; [done|]. intros [-> _]. by rewrite bytes_cmp_refl in E. }
  destruct (om_find bytes_cmp n l) as [re|] eqn:En; cbn [mbind option_bind] in *.
  - assert (Hre : om_sorted Z.compare re) by (apply (Hr n); by apply (om_find_in bytes_cmp)).
    destruct (om_find Z.compare r re) as [e0|] eqn:Er; cbn [bump] in Hb.
    + rewrite Hb. cbn [mbind option_bind]. eexists. split; [reflexivity|]. apply Hset; [by apply (om_insert_sorted Z.compare)|].
      intros r'. rewrite (om_find_insert Z.compare) by done. apply compare_decide.
    + destruct (new_StatEntity count us) as [e1|]; [|done]. cbn [mbind option_bind] in *. rewrite Hb. cbn [mbind option_bind].
      eexists. split; [reflexivity|]. apply Hset; [by apply (om_emplace_sorted Z.compare)|].
      intros r'. unfold om_emplace. rewrite Er, (om_find_insert Z.compare) by done. apply compare_decide.
  - cbn [bump] in Hb. destruct (new_StatEntity count us) as [e1|]; [|done]. cbn [mbind option_bind] in *. rewrite Hb. cbn [mbind option_bind].
    eexists. split; [reflexivity|]. unfold om_emplace. rewrite En. apply Hset.
    + repeat constructor.
    + intros r'. cbn [om_find]. rewrite <- compare_decide. by destruct (r' ?= r).
Qed.
End Counters.

(** ** Log rotation *)
Section Rotation.
Context (allows : file_request -> bool) (Hallows : forall r, allows r = true).

Definition numbered (i : nat) : log_file := match i with O => Current | S _ => Numbered (Z.of_nat i) end.

Lemma files_set l f c g : files (set_file l f c) g = if decide (g = f) then c else files l g.
Proof. done. Qed.

Lemma numbered_inj i j : numbered i = numbered j -> i = j.
Proof. destruct i, j; cbn; intros [=]; lia. Qed.

(** Every file of the sequence gets the next number; the topmost place is free. *)
Lemma shift_files_spec n l :
  (n = 0%nat \/ files l (numbered n) = None) ->
  exists l', shift_files allows n l = (l', true) /\ fd_ l' = fd_ l /\ log_max_size_ l' = log_max_size_ l /\
    log_max_num_ l' = log_max_num_ l /\
    (forall i, (i < n)%nat -> files l' (numbered (S i)) = files l (numbered i)) /\
    ((0 < n)%nat -> files l' Current = None) /\
    (forall f, (forall i, (i <= n)%nat -> f <> numbered i) -> files l' f = files l f) /\
    (n = 0%nat -> l' = l).
Proof.
  revert l. induction n as [|i IH]; intros l Hfree; [exists l; repeat split; (done || (intros; lia))|].
  destruct Hfree as [|Hfree]; [done|]. cbn [shift_files]. fold (numbered i).
  assert (Etop : Numbered (Z.of_nat i + 1) = numbered (S i)) by (cbn; f_equal; lia). rewrite Etop.
  destruct (files l (numbered i)) as [c|] eqn:Ei.
  - rewrite Hallows. set (l1 := set_file (set_file l (numbered i) None) (numbered (S i)) (Some c)).
    assert (H1 : forall g, g <> numbered i -> g <> numbered (S i) -> files l1 g = files l g).
    { intros g Hg1 Hg2. unfold l1. rewrite !files_set. by rewrite !decide_False. }
    assert (Hi : files l1 (numbered i) = None).
    { unfold l1. rewrite !files_set. rewrite decide_False by (intros E%numbered_inj; lia). by rewrite decide_True. }
    assert (Ht : files l1 (numbered (S i)) = Some c) by (unfold l1; rewrite files_set; by rewrite decide_True).
    destruct (IH l1) as (l' & -> & Hfd & Hsz & Hnum & Hsh & Hcur & Hoth & H0); [by right|]. exists l'.
    split; [done|]. split; [done|]. split; [done|]. split; [done|]. split; [|split; [|split; [|done]]].
    + intros j Hj. destruct (decide (j = i)) as [->|Hne].
      * rewrite Hoth, Ht, Ei; [done|]. intros k Hk E%numbered_inj. lia.
      * rewrite Hsh by lia. apply H1; intros E%numbered_inj; lia.
    + intros _. destruct i as [|i]; [by rewrite H0|]. apply Hcur. lia.
    + intros f Hf. rewrite Hoth by (intros k Hk; apply Hf; lia). apply H1; apply Hf; lia.
  - destruct (IH l) as (l' & -> & Hfd & Hsz & Hnum & Hsh & Hcur & Hoth & H0); [by right|]. exists l'.
    split; [done|]. split; [done|]. split; [done|]. split; [done|]. split; [|split; [|split; [|done]]].
    + intros j Hj. destruct (decide (j = i)) as [->|Hne].
      * rewrite Hoth, Hfree, Ei; [done|]. intros k Hk E%numbered_inj. lia.
      * apply Hsh. lia.
    + intros _. destruct i as [|i]; [by rewrite H0|]. apply Hcur. lia.
    + intros f Hf. apply Hoth. intros k Hk. apply Hf. lia.
Qed.

Lemma Reopen_open l c : files l Current = Some c -> Reopen allows l = (set_fd l true, Z.of_nat (length c)).
Proof.
  intros Hc. unfold Reopen. rewrite !Hallows, Hc. destruct l as [fs fd n m]. cbn [files] in Hc.
  destruct fd; cbn [negb fd_ files set_fd]; rewrite Hc; done.
Qed.

(** A log that is full is put away under the next number and the oldest one is
    dropped; nothing else changes, and an empty log is open. *)
Theorem SwitchFile_rotates l c :
  2 <= log_max_num_ l -> files l Current = Some c -> log_max_size_ l <= Z.of_nat (length c) ->
  exists l', SwitchFile allows l = (l', 0) /\ fd_ l' = true /\ files l' Current = Some [] /\
    (forall i, 0 <= Z.of_nat i < log_max_num_ l - 1 -> files l' (numbered (S i)) = files l (numbered i)) /\
    (forall n, n <= 0 \/ log_max_num_ l <= n -> files l' (Numbered n) = files l (Numbered n)).
Proof.
  intros Hn Hc Hsz. unfold SwitchFile. rewrite (Reopen_open l c Hc).
  destruct (Z.ltb_spec (Z.of_nat (length c)) 0); [lia|]. cbn [log_max_size_ set_fd log_max_num_].
  destruct (Z.ltb_spec (Z.of_nat (length c)) (log_max_size_ l)); [lia|]. rewrite Hallows.
  set (top := Z.to_nat (log_max_num_ l - 1)).
  assert (Etop : Numbered (log_max_num_ l - 1) = numbered top).
  { unfold top. destruct (Z.to_nat (log_max_num_ l - 1)) eqn:E; [lia|]. cbn. f_equal. lia. }
  set (l0 := set_fd l true). assert (Hf0 : files l0 = files l) by done.
  assert (H1 : exists l1, match files l0 (Numbered (log_max_num_ l - 1)) with
      | Some _ => Some (set_file l0 (Numbered (log_max_num_ l - 1)) None) | None => Some l0 end = Some l1 /\
    log_max_num_ l1 = log_max_num_ l /\ files l1 (numbered top) = None /\ forall g, g <> numbered top -> files l1 g = files l g).
  { rewrite Etop. destruct (files l0 (numbered top)) as [x|] eqn:Ex; eexists; (split; [reflexivity|]); (split; [done|]).
    - split; [by rewrite files_set, decide_True|]. intros g Hg. by rewrite files_set, decide_False.
    - split; [done|]. done. }
  destruct H1 as (l1 & -> & Hm1 & Htop & Hg1). rewrite Hm1. fold top.
  destruct (shift_files_spec top l1) as (l2 & -> & _ & _ & _ & Hsh & Hcur & Hoth & _); [by right|].
  assert (Hc2 : files l2 Current = None) by (apply Hcur; lia).
  unfold Reopen. rewrite !Hallows. cbn [fd_ set_fd files]. rewrite Hc2. cbn [negb fd_ set_fd set_file files].
  rewrite decide_True by done. cbn [length Z.ltb Z.of_nat Z.compare]. eexists. split; [reflexivity|]. split; [done|].
  cbn [files set_fd set_file]. split; [by rewrite decide_True|]. split.
  - intros i Hi. rewrite decide_False by done. rewrite Hsh by lia. apply Hg1. intros E%numbered_inj. lia.
  - intros n Hor. rewrite decide_False by done. rewrite Hoth.
    + apply Hg1. rewrite <- Etop. intros [=]. lia.
    + intros i Hi E. destruct i as [|i]; cbn in E; [done|]. injection E as ->. lia.
Qed.
End Rotation.

(** ** Theorems *)

(** C40: the histogram says what was added to it.  A value goes to the first
    bucket whose limit it does not exceed; after adding [vs] the counts of the
    buckets, the number, the sum, the squares, the least and the greatest value
    are those of [vs]; merging two histograms gives the one of both; no
    percentile exceeds the maximum. *)
Theorem histogram_correct vs ws :
  Forall (Z.le 0) vs -> Forall (Z.le 0) ws ->
  adds Stat_Clear vs = Some (summary vs) /\
  Stat_Merge (summary vs) (summary ws) = summary (vs ++ ws) /\
  (forall p r, Percentile (summary vs) p = Some r -> SFltb (double_of_Z (max_ (summary vs))) r = false) /\
  (forall v i, v ∈ vs -> IndexForValue bucketMapper v = i ->
     exists l, BucketLimit bucketMapper i = Some l /\ (v <= l \/ i = 108%nat) /\
       forall j l', (j < i)%nat -> BucketLimit bucketMapper j = Some l' -> l' < v).
Proof.
  intros Hvs Hws. split; [rewrite <- summary_nil; by apply adds_summary|]. split; [apply Stat_Merge_summary|].
  split; [apply Percentile_max|]. intros v i Hv <-.
  destruct (IndexForValue_spec v) as (_ & (l & Hl & Hle) & Hlt); [rewrite Forall_forall in Hvs; by apply Hvs|]. exists l. split; [exact Hl|]. split; [exact Hle|exact Hlt].
Qed.

Lemma histogram_correct_witness :
  adds Stat_Clear [3; 1; 170] = Some (summary [3; 1; 170]) /\ num_ (summary [3; 1; 170]) = 3 /\ sum_ (summary [3; 1; 170]) = 174.
Proof.
  destruct (histogram_correct [3; 1; 170] []) as (H & _).
  - repeat (apply Forall_cons; split; [lia|]). apply Forall_nil_2.
  - apply Forall_nil_2.
  - split; [exact H|]. split; vm_compute; reflexivity.
Defined.

(** The percentiles of an entity are those of half a percent and less. *)
Definition hundred : option StatEntity :=
  fold_left (fun e v => e ≫= fun e => StatEntity_Add e 1 (Z.of_nat v)) (seq 2 99) (new_StatEntity 1 1).

Lemma ConsumeUs_not_percent :
  (e ← hundred; ConsumeUs e) = Some (1, 1, 1) /\ (e ← hundred; m ← Median (consume_us_ e); to_u64 m) = Some 50.
Proof. split; vm_compute; reflexivity. Qed.
