(* ===== verification/Storage.v ===== *)
(** Basic types shared by the components: status codes ([search_status.h]),
    table identifiers and columns ([storage_type.h]), and the limits of the
    index configuration ([index_config.h]). *)
From Stdlib Require String.
From S2P Require Import Prelude.
Export (notations) String.
Abbreviation string := String.string (only parsing).

(** ** Status codes *)
Definition kOK : Z := 0.
Definition kDocumentExistStatus : Z := 18526.
Definition kDocumentNotExistStatus : Z := 18527.
Definition kSerializeErrorStatus : Z := -18528.
Definition kRocksDBErrorStatus : Z := -18529.
Definition kDocumentIDCanNotZero : Z := 18530.
Definition kDataErrorStatus : Z := -18531.
Definition kTokenizerErrorStatus : Z := -18532.
Definition kOtherDocumentErrorStatus : Z := 18533.
Definition kScorerErrorStatus : Z := -18536.
Definition kDocumentTooLargeStatus : Z := 18537.
Definition kReachMaxDocListSizeLimit : Z := 18538.

Record SearchStatus := mkStatus { status_code_ : Z; status_msg_ : string }.

(** The default constructor. *)
Definition status_ok : SearchStatus := mkStatus 0 String.EmptyString.

(** [SetStatus] overwrites both fields. *)
Definition SetStatus (code : Z) (msg : string) : SearchStatus := mkStatus code msg.

Definition GetCode (s : SearchStatus) : Z := status_code_ s.
Definition GetState (s : SearchStatus) : string := status_msg_ s.
Definition OK (s : SearchStatus) : bool := status_code_ s =? 0.
Definition DocumentExist (s : SearchStatus) : bool := status_code_ s =? kDocumentExistStatus.
Definition DocumentNotExist (s : SearchStatus) : bool := status_code_ s =? kDocumentNotExistStatus.
Definition ReachMaxDocListSizeLimit (s : SearchStatus) : bool :=
  status_code_ s =? kReachMaxDocListSizeLimit.

(** ** Storage types *)
Record TableID := mkTable { business_type : Z; partition_set : Z }.

Definition wf_table (t : TableID) : Prop :=
  is_byte (business_type t) /\ is_u64 (partition_set t).

Inductive StorageColumnType :=
| kStoredFieldColumn | kInvertedIndexColumn | kDocValueColumn | kMetaColumn
| kDictionaryColumn | kPaxosLogColumn | kPaxosDataMetaColumn | kPaxosLogMetaColumn.

(** The numeric value of the enumerators. *)
Definition column_num (c : StorageColumnType) : Z :=
  match c with
  | kStoredFieldColumn => 0
  | kInvertedIndexColumn => 1
  | kDocValueColumn => 2
  | kMetaColumn => 3
  | kDictionaryColumn => 4
  | kPaxosLogColumn => 5
  | kPaxosDataMetaColumn => 6
  | kPaxosLogMetaColumn => 7
  end.

(** [static_cast<StorageColumnType>]. *)
Definition column_of_num (n : Z) : option StorageColumnType :=
  match n with
  | 0 => Some kStoredFieldColumn
  | 1 => Some kInvertedIndexColumn
  | 2 => Some kDocValueColumn
  | 3 => Some kMetaColumn
  | 4 => Some kDictionaryColumn
  | 5 => Some kPaxosLogColumn
  | 6 => Some kPaxosDataMetaColumn
  | 7 => Some kPaxosLogMetaColumn
  | _ => None
  end.

#[export] Instance StorageColumnType_eq_dec : EqDecision StorageColumnType.
Proof. solve_decision. Defined.

(** [kIndexFieldType]; a decoded field may hold any other number. *)
Definition kIndexFieldUnknowType : Z := 0.
Definition kUint32IndexField : Z := 1.
Definition kUint64IndexField : Z := 2.
Definition kStringIndexField : Z := 3.

(** [DocIdSetIterator::NO_MORE_DOCS] and [MAX_DOCID]. *)
Definition NO_MORE_DOCS : Z := 0.
Definition MAX_DOCID : Z := UINT64_MAX.

(** [DocumentState]. *)
Definition kDocumentStateOK : Z := 0.
Definition kDocumentStateDelete : Z := 1.

(** ** Index configuration: the limits read by the other components *)
Record IndexConfig := mkConfig {
  min_suffix_build_len_ : Z;
  max_suffix_term_size_ : Z;
  max_write_batch_size_ : Z;
  max_inner_purge_batch_docs_count_ : Z;
  max_inner_purge_docs_total_limit_ : Z
}.

Definition default_config : IndexConfig := mkConfig 5 64 19922944 10000 50000.

Lemma column_of_num_num c : column_of_num (column_num c) = Some c.
Proof. by destruct c. Qed.

Lemma column_num_inj c c' : column_num c = column_num c' -> c = c'.
Proof. by destruct c, c'. Qed.

Lemma OK_spec s : OK s = true <-> status_code_ s = 0.
Proof. apply Z.eqb_eq. Qed.
