(* ===== verification/Coding.v ===== *)
(** Slices and the integer encodings of [coding.h]/[coding.cpp].

    [Slice] models [search_slice.h]: a slice is identified with the bytes it
    points at.  [internal] and the top level model the fixed-width encoders and
    decoders (host order and network order), then the variable-length
    encodings.  [None] stands for a failed [assert], i.e. an aborted process,
    in the functions that return an option because of it, and for [false] or
    [nullptr] in the varint readers. *)
From S2P Require Import Prelude.

Module Slice.

(** [char] is signed on the supported targets. *)
Definition schar (c : Z) : Z := if c <? 128 then c else c - 256.

Definition empty (s : bytes) : bool := match s with [] => true | _ => false end.

Definition get (s : bytes) (n : nat) : option Z := s !! n.

Definition remove_prefix (n : nat) (s : bytes) : option bytes :=
  if bool_decide (n <= length s)%nat then Some (drop n s) else None.

Definition remove_suffix (n : nat) (s : bytes) : option bytes :=
  if bool_decide (n <= length s)%nat then Some (take (length s - n) s) else None.

Definition slice_starts_with (s x : bytes) : bool :=
  bool_decide (length x <= length s)%nat && bool_decide (take (length x) s = x).

Definition ends_with (s x : bytes) : bool :=
  bool_decide (length x <= length s)%nat &&
  bool_decide (drop (length s - length x) s = x).

Definition toHex (v : Z) : Z :=
  if v <=? 9 then 48 + v else 65 + v - 10.

Definition fromHex (c0 : Z) : Z :=
  let c := schar c0 in
  let c := if (97 <=? c) && (c <=? 102) then c - 32 else c in
  if (c <? 48) || ((57 <? c) && ((c <? 65) || (70 <? c))) then -1
  else if c <=? 57 then c - 48
  else c - 65 + 10.

Fixpoint ToString_hex (s : bytes) : bytes :=
  match s with
  | [] => []
  | c :: s' => toHex (Z.shiftr c 4) :: toHex (Z.land c 15) :: ToString_hex s'
  end.

Definition ToString (hex : bool) (s : bytes) : bytes :=
  if hex then ToString_hex s else s.

(** The loop of [DecodeHex], over a slice of even size. *)
Fixpoint DecodeHex_loop (s : bytes) (result : bytes) : option bytes :=
  match s with
  | c1 :: c2 :: s' =>
      let h1 := fromHex c1 in
      if h1 <? 0 then None
      else
        let h2 := fromHex c2 in
        if h2 <? 0 then None
        else DecodeHex_loop s' (result ++ [u8 (Z.lor (Z.shiftl h1 4) h2)])
  | _ => Some result
  end.

Definition DecodeHex (s : bytes) : option bytes :=
  if negb (Nat.even (length s)) then None else DecodeHex_loop s [].

End Slice.

Module internal.

Definition AppendFixed8 (key : bytes) (i : Z) : bytes := key ++ [u8 i].

(** Host byte order: no [htonll] here. *)
Definition AppendFixed64 (key : bytes) (i : Z) : bytes := key ++ le_bytes 8 i.

Definition AppendBuffer (key buffer : bytes) : bytes := key ++ buffer.

Definition RemoveFixed8 (key : bytes) : option (Z * bytes) :=
  match key with
  | i :: _ => key' ← Slice.remove_prefix 1 key; Some (i, key')
  | [] => None
  end.

(** The value argument is not assigned: it is returned as it was. *)
Definition RemoveFixed64 (key : bytes) (i : Z) : option (Z * bytes) :=
  key' ← Slice.remove_prefix 8 key; Some (i, key').

Definition RemoveBuffer (key : bytes) (size : nat) : option (bytes * bytes) :=
  key' ← Slice.remove_prefix size key; Some (take size key, key').

End internal.

(** [htons], [htonl] and their inverses on a little-endian host. *)
Definition htons (i : Z) : Z := le_val (rev (le_bytes 2 i)).
Definition ntohs (i : Z) : Z := le_val (rev (le_bytes 2 i)).
Definition htonl (i : Z) : Z := le_val (rev (le_bytes 4 i)).
Definition ntohl (i : Z) : Z := le_val (rev (le_bytes 4 i)).

Definition ntohll (i : Z) : Z :=
  Z.lor (u64 (Z.shiftl (ntohl (u32 i)) 32)) (ntohl (u32 (Z.shiftr i 32))).

Definition htonll (i : Z) : Z :=
  Z.lor (u64 (Z.shiftl (htonl (u32 i)) 32)) (htonl (u32 (Z.shiftr i 32))).

Definition AppendFixed8 (key : bytes) (i : Z) : bytes := key ++ [u8 i].

Definition AppendFixed16 (key : bytes) (i : Z) : bytes :=
  let i := htons i in key ++ le_bytes 2 i.

Definition AppendFixed32 (key : bytes) (i : Z) : bytes :=
  let i := htonl i in key ++ le_bytes 4 i.

Definition AppendFixed64 (key : bytes) (i : Z) : bytes :=
  let i := htonll i in key ++ le_bytes 8 i.

Definition AppendBuffer (key buffer : bytes) : bytes := key ++ buffer.

Definition RemoveFixed8 (key : bytes) : option (Z * bytes) :=
  match key with
  | i :: _ => key' ← Slice.remove_prefix 1 key; Some (i, key')
  | [] => None
  end.

Definition RemoveFixed16 (key : bytes) : option (Z * bytes) :=
  key' ← Slice.remove_prefix 2 key; Some (ntohs (le_val (take 2 key)), key').

Definition RemoveFixed32 (key : bytes) : option (Z * bytes) :=
  key' ← Slice.remove_prefix 4 key; Some (ntohl (le_val (take 4 key)), key').

Definition RemoveFixed64 (key : bytes) : option (Z * bytes) :=
  key' ← Slice.remove_prefix 8 key; Some (ntohll (le_val (take 8 key)), key').

Definition RemoveBuffer (key : bytes) (size : nat) : option (bytes * bytes) :=
  key' ← Slice.remove_prefix size key; Some (take size key, key').

(** ** Variable-length integers *)

Definition EncodeVarint32 (v : Z) : bytes :=
  if v <? Z.shiftl 1 7 then [u8 v]
  else if v <? Z.shiftl 1 14 then
    [u8 (Z.lor v 128); u8 (Z.shiftr v 7)]
  else if v <? Z.shiftl 1 21 then
    [u8 (Z.lor v 128); u8 (Z.lor (Z.shiftr v 7) 128); u8 (Z.shiftr v 14)]
  else if v <? Z.shiftl 1 28 then
    [u8 (Z.lor v 128); u8 (Z.lor (Z.shiftr v 7) 128);
     u8 (Z.lor (Z.shiftr v 14) 128); u8 (Z.shiftr v 21)]
  else
    [u8 (Z.lor v 128); u8 (Z.lor (Z.shiftr v 7) 128);
     u8 (Z.lor (Z.shiftr v 14) 128); u8 (Z.lor (Z.shiftr v 21) 128);
     u8 (Z.shiftr v 28)].

(** The [while (v >= B)] loop of [EncodeVarint64] over a buffer of [room]
    bytes; [None] is a write past its end. *)
Fixpoint EncodeVarint64 (room : nat) (v : Z) : option bytes :=
  match room with
  | O => None
  | S room' =>
      if 128 <=? v then
        rest ← EncodeVarint64 room' (Z.shiftr v 7);
        Some (u8 (Z.lor (Z.land v 127) 128) :: rest)
      else Some [u8 v]
  end.

Definition MAXVARINT64LENGTH : nat := 10.

Definition PutVarint32 (dst : bytes) (v : Z) : bytes := dst ++ EncodeVarint32 v.

Definition PutVarint32Varint32 (dst : bytes) (v1 v2 : Z) : bytes :=
  dst ++ EncodeVarint32 v1 ++ EncodeVarint32 v2.

Definition PutVarint32Varint32Varint32 (dst : bytes) (v1 v2 v3 : Z) : bytes :=
  dst ++ EncodeVarint32 v1 ++ EncodeVarint32 v2 ++ EncodeVarint32 v3.

Definition PutVarint64 (dst : bytes) (v : Z) : option bytes :=
  buf ← EncodeVarint64 MAXVARINT64LENGTH v; Some (dst ++ buf).

Definition PutVarint64Varint64 (dst : bytes) (v1 v2 : Z) : option bytes :=
  b1 ← EncodeVarint64 20 v1;
  b2 ← EncodeVarint64 (20 - length b1) v2;
  Some (dst ++ b1 ++ b2).

Definition PutVarint32Varint64 (dst : bytes) (v1 v2 : Z) : option bytes :=
  let b1 := EncodeVarint32 v1 in
  b2 ← EncodeVarint64 (15 - length b1) v2;
  Some (dst ++ b1 ++ b2).

Definition PutVarint32Varint32Varint64 (dst : bytes) (v1 v2 v3 : Z) : option bytes :=
  let b1 := EncodeVarint32 v1 in
  let b2 := EncodeVarint32 v2 in
  b3 ← EncodeVarint64 (20 - (length b1 + length b2)) v3;
  Some (dst ++ b1 ++ b2 ++ b3).

(** [GetVarint64Ptr]: the loop reads from [p] up to [limit]; the result is the
    value and the bytes after it, [None] is [nullptr]. *)
Fixpoint GetVarint64Ptr_loop (p : bytes) (shift result : Z) : option (Z * bytes) :=
  if shift <=? 63 then
    match p with
    | [] => None
    | byte :: p' =>
        if negb (Z.land byte 128 =? 0) then
          GetVarint64Ptr_loop p' (shift + 7)
            (Z.lor result (u64 (Z.shiftl (Z.land byte 127) shift)))
        else Some (Z.lor result (u64 (Z.shiftl byte shift)), p')
    end
  else None.

Definition GetVarint64Ptr (p : bytes) : option (Z * bytes) :=
  GetVarint64Ptr_loop p 0 0.

Fixpoint GetVarint32Ptr_loop (p : bytes) (shift result : Z) : option (Z * bytes) :=
  if shift <=? 28 then
    match p with
    | [] => None
    | byte :: p' =>
        if negb (Z.land byte 128 =? 0) then
          GetVarint32Ptr_loop p' (shift + 7)
            (Z.lor result (u32 (Z.shiftl (Z.land byte 127) shift)))
        else Some (Z.lor result (u32 (Z.shiftl byte shift)), p')
    end
  else None.

Definition GetVarint32PtrFallback (p : bytes) : option (Z * bytes) :=
  GetVarint32Ptr_loop p 0 0.

Definition GetVarint32Ptr (p : bytes) : option (Z * bytes) :=
  match p with
  | result :: p' =>
      if Z.land result 128 =? 0 then Some (result, p')
      else GetVarint32PtrFallback p
  | [] => GetVarint32PtrFallback p
  end.

Definition GetVarint32 (input : bytes) : option (Z * bytes) :=
  match GetVarint32Ptr input with
  | None => None
  | Some (value, q) => Some (value, q)
  end.

Definition GetVarint64 (input : bytes) : option (Z * bytes) :=
  match GetVarint64Ptr input with
  | None => None
  | Some (value, q) => Some (value, q)
  end.

(** ** Fixed-width integers *)

Lemma remove_prefix_app a b : Slice.remove_prefix (length a) (a ++ b) = Some b.
Proof.
  unfold Slice.remove_prefix. rewrite bool_decide_true by (rewrite length_app; lia).
  by rewrite drop_app_length.
Qed.

Lemma remove_prefix_app' n a b : length a = n -> Slice.remove_prefix n (a ++ b) = Some b.
Proof. intros <-. apply remove_prefix_app. Qed.

Lemma lor_shiftl_add r x s :
  0 <= s -> 0 <= r < 2 ^ s -> Z.lor r (Z.shiftl x s) = r + x * 2 ^ s.
Proof.
  intros Hs Hr.
  assert (Z.land r (Z.shiftl x s) = 0) as Hl.
  { apply Z.bits_inj'. intros n Hn. rewrite Z.land_spec, Z.bits_0.
    destruct (decide (n < s)).
    - rewrite (Z.shiftl_spec_low x) by lia. by rewrite andb_false_r.
    - rewrite <- (Z.mod_small r (2 ^ s)) by lia.
      by rewrite Z.mod_pow2_bits_high by lia. }
  rewrite <- Z.lxor_lor by done. rewrite <- Z.add_nocarry_lxor by done.
  by rewrite Z.shiftl_mul_pow2.
Qed.

Lemma lor_add_shiftl r x s :
  0 <= s -> 0 <= r < 2 ^ s -> Z.lor (Z.shiftl x s) r = x * 2 ^ s + r.
Proof. intros. rewrite Z.lor_comm, lor_shiftl_add by done. lia. Qed.

Lemma le_bytes_app_split n m z :
  le_bytes (n + m) z = le_bytes n z ++ le_bytes m (z / 256 ^ Z.of_nat n).
Proof.
  revert z. induction n as [|n IH]; intros z; cbn [Nat.add le_bytes app].
  - by rewrite Z.div_1_r.
  - rewrite IH. do 3 f_equal. rewrite Z.div_div by lia.
    by rewrite Nat2Z.inj_succ, Z.pow_succ_r by lia.
Qed.

Lemma htonl_le_bytes z : le_bytes 4 (htonl z) = be_bytes 4 z.
Proof.
  unfold htonl, be_bytes.
  rewrite <- (le_bytes_le_val (rev (le_bytes 4 z))) at 2 by apply wf_be_bytes.
  by rewrite length_rev, length_le_bytes.
Qed.

Lemma htons_le_bytes z : le_bytes 2 (htons z) = be_bytes 2 z.
Proof.
  unfold htons, be_bytes.
  rewrite <- (le_bytes_le_val (rev (le_bytes 2 z))) at 2 by apply wf_be_bytes.
  by rewrite length_rev, length_le_bytes.
Qed.

Lemma htonl_range z : 0 <= htonl z < 2 ^ 32.
Proof.
  unfold htonl. pose proof (le_val_bound _ (wf_be_bytes 4 z)) as H.
  unfold be_bytes in H. rewrite length_rev, length_le_bytes in H. done.
Qed.

Lemma le_bytes_mod n z : le_bytes n (z mod 256 ^ Z.of_nat n) = le_bytes n z.
Proof.
  revert z. induction n as [|n IH]; intros z; cbn [le_bytes]; [done|].
  rewrite Nat2Z.inj_succ, Z.pow_succ_r by lia.
  rewrite Z.rem_mul_r, (Z.mul_comm 256 (_ mod _)) by lia. f_equal.
  - by rewrite Z_mod_plus_full, Z.mod_mod by lia.
  - rewrite Z.div_add by lia.
    rewrite (Z.div_small (z mod 256)) by (apply Z.mod_pos_bound; lia).
    rewrite Z.add_0_l. apply IH.
Qed.

(** [htonll] really reverses the eight bytes. *)
Lemma htonll_le_bytes z : 0 <= z < 2 ^ 64 -> le_bytes 8 (htonll z) = be_bytes 8 z.
Proof.
  intros Hz. unfold htonll.
  pose proof (htonl_range (u32 z)) as H1.
  pose proof (htonl_range (u32 (Z.shiftr z 32))) as H2.
  assert (u64 (Z.shiftl (htonl (u32 z)) 32) = Z.shiftl (htonl (u32 z)) 32) as ->.
  { apply u64_id. unfold is_u64. rewrite Z.shiftl_mul_pow2 by lia. lia. }
  rewrite lor_add_shiftl by lia.
  change 8%nat with (4 + 4)%nat. rewrite le_bytes_app_split.
  change (256 ^ Z.of_nat 4) with (2 ^ 32).
  replace (le_bytes 4 (htonl (u32 z) * 2 ^ 32 + htonl (u32 (Z.shiftr z 32))))
    with (le_bytes 4 (htonl (u32 (Z.shiftr z 32)))).
  2:{ rewrite <- (le_bytes_mod 4 (_ + _)). f_equal. change (256 ^ Z.of_nat 4) with (2 ^ 32).
      rewrite Z.add_comm, Z_mod_plus_full, Z.mod_small by lia. done. }
  rewrite Z.div_add_l, (Z.div_small (htonl (u32 (Z.shiftr z 32)))), Z.add_0_r by lia.
  rewrite !htonl_le_bytes. unfold be_bytes at 3. rewrite le_bytes_app_split, rev_app_distr.
  unfold be_bytes, u32. change (2 ^ 32) with (256 ^ Z.of_nat 4).
  rewrite !le_bytes_mod, Z.shiftr_div_pow2 by lia. done.
Qed.

Lemma ntohll_htonll z : ntohll z = htonll z.
Proof. done. Qed.

Lemma htonll_range z : is_u64 z -> is_u64 (htonll z).
Proof.
  intros Hz. unfold htonll.
  pose proof (htonl_range (u32 z)). pose proof (htonl_range (u32 (Z.shiftr z 32))).
  unfold is_u64. rewrite u64_id by (unfold is_u64; rewrite Z.shiftl_mul_pow2; lia).
  rewrite lor_add_shiftl by lia. lia.
Qed.

Lemma htonll_be z : is_u64 z -> htonll z = le_val (be_bytes 8 z).
Proof.
  intros Hz. rewrite <- htonll_le_bytes by done. symmetry.
  apply le_val_le_bytes_small. pose proof (htonll_range z Hz). done.
Qed.

Lemma htonll_involutive z : is_u64 z -> htonll (htonll z) = z.
Proof.
  intros Hz. rewrite htonll_be by (by apply htonll_range). unfold be_bytes.
  rewrite htonll_le_bytes by done. unfold be_bytes. rewrite rev_involutive.
  by apply le_val_le_bytes_small.
Qed.

Lemma AppendFixed8_spec key i : 0 <= i < 256 -> AppendFixed8 key i = key ++ [i].
Proof. intros. unfold AppendFixed8. by rewrite u8_id. Qed.

Lemma AppendFixed32_spec key i : AppendFixed32 key i = key ++ be_bytes 4 i.
Proof. unfold AppendFixed32. by rewrite htonl_le_bytes. Qed.

Lemma AppendFixed64_spec key i : is_u64 i -> AppendFixed64 key i = key ++ be_bytes 8 i.
Proof. intros. unfold AppendFixed64. by rewrite htonll_le_bytes. Qed.

Lemma RemoveFixed8_cons i s : RemoveFixed8 (i :: s) = Some (i, s).
Proof.
  unfold RemoveFixed8. change (i :: s) with ([i] ++ s).
  by rewrite (remove_prefix_app' 1).
Qed.

Lemma RemoveFixed64_be i s : is_u64 i -> RemoveFixed64 (be_bytes 8 i ++ s) = Some (i, s).
Proof.
  intros Hi. unfold RemoveFixed64. rewrite remove_prefix_app' by apply length_be_bytes.
  cbn [mbind option_bind]. rewrite take_app_length' by (by rewrite length_be_bytes).
  rewrite <- htonll_be by done. by rewrite ntohll_htonll, htonll_involutive.
Qed.

(** Reading back what was appended: the value and what follows it. *)
Lemma Fixed64_roundtrip key i s :
  is_u64 i ->
  exists key', Slice.remove_prefix (length key) (AppendFixed64 key i ++ s) = Some key' /\
    RemoveFixed64 key' = Some (i, s).
Proof.
  intros Hi. exists (be_bytes 8 i ++ s). rewrite AppendFixed64_spec by done.
  rewrite <- app_assoc, remove_prefix_app. split; [done|]. by apply RemoveFixed64_be.
Qed.

(** ** Variable-length integers *)

(** The encoding written with arithmetic, as a specification: groups of seven
    bits, least significant first, the high bit set on all but the last. *)
Fixpoint varint (n : nat) (v : Z) : bytes :=
  match n with
  | O => [v]
  | S n' => if v <? 128 then [v] else v mod 128 + 128 :: varint n' (v / 128)
  end.

Lemma land_127 v : Z.land v 127 = v mod 128.
Proof. exact (Z.land_ones v 7 ltac:(lia)). Qed.

Lemma lor_128 x : 0 <= x < 128 -> Z.lor x 128 = x + 128.
Proof. intros. exact (lor_shiftl_add x 1 7 ltac:(lia) ltac:(lia)). Qed.

Lemma u8_lor_128 v : 0 <= v -> u8 (Z.lor v 128) = v mod 128 + 128.
Proof.
  intros Hv. pose proof (Z.mod_pos_bound v 128 ltac:(lia)).
  rewrite <- (lor_128 (v mod 128)) by lia.
  unfold u8. rewrite <- !Z.land_ones by lia.
  rewrite Z.land_lor_distr_l. change (Z.land 128 (Z.ones 8)) with 128.
  apply Z.bits_inj'. intros n Hn. rewrite !Z.lor_spec.
  change 128 with (2 ^ 7). rewrite !Z.pow2_bits_eqb by lia.
  destruct (decide (n = 7)) as [->|]; [by rewrite !orb_true_r|].
  rewrite Z.land_spec. destruct (decide (n < 7)).
  - rewrite Z.mod_pow2_bits_low by lia.
    rewrite Z.ones_spec_low by lia. by rewrite andb_true_r.
  - rewrite Z.ones_spec_high by lia.
    rewrite Z.mod_pow2_bits_high by lia. by rewrite andb_false_r.
Qed.

Lemma EncodeVarint64_varint room v :
  0 <= v < 128 ^ Z.of_nat (S room) -> EncodeVarint64 (S room) v = Some (varint room v).
Proof.
  revert v. induction room as [|n IH]; intros v Hv.
  - change (128 ^ Z.of_nat 1) with 128 in Hv. simpl.
    destruct (Z.leb_spec 128 v); [lia|]. by rewrite u8_id by lia.
  - rewrite Nat2Z.inj_succ, Z.pow_succ_r in Hv by lia.
    remember (S n) as m eqn:Em. simpl. rewrite Z.shiftr_div_pow2 by lia.
    change (2 ^ 7) with 128. destruct (Z.leb_spec 128 v).
    + rewrite IH by (split; [apply Z.div_pos; lia|apply Z.div_lt_upper_bound; lia]).
      subst m. simpl. destruct (Z.ltb_spec v 128); [lia|].
      rewrite land_127. pose proof (Z.mod_pos_bound v 128 ltac:(lia)).
      rewrite lor_128 by lia. by rewrite u8_id by lia.
    + subst m. simpl. destruct (Z.ltb_spec v 128); [|lia]. by rewrite u8_id by lia.
Qed.

Lemma EncodeVarint64_total v : is_u64 v -> EncodeVarint64 10 v = Some (varint 9 v).
Proof. intros [? ?]. apply EncodeVarint64_varint. change (128 ^ Z.of_nat 10) with (2 ^ 70). lia. Qed.

Lemma length_varint n v : (1 <= length (varint n v) <= S n)%nat.
Proof.
  revert v. induction n as [|n IH]; intros v; simpl; [lia|].
  destruct (v <? 128); simpl; [lia|]. specialize (IH (v / 128)). lia.
Qed.

Lemma PutVarint64_total dst v : is_u64 v -> PutVarint64 dst v = Some (dst ++ varint 9 v).
Proof. intros. unfold PutVarint64, MAXVARINT64LENGTH. by rewrite EncodeVarint64_total. Qed.

(** The unrolled 32-bit encoder computes the same encoding. *)
Lemma EncodeVarint32_varint v : is_u32 v -> EncodeVarint32 v = varint 4 v.
Proof.
  intros [H0 H1]. unfold EncodeVarint32.
  rewrite !Z.shiftl_mul_pow2, !Z.shiftr_div_pow2 by lia. rewrite !Z.mul_1_l.
  change (2 ^ 7) with 128. change (2 ^ 14) with (128 * 128).
  change (2 ^ 21) with (128 * 128 * 128). change (2 ^ 28) with (128 * 128 * 128 * 128).
  assert (0 <= v / 128) by (apply Z.div_pos; lia).
  assert (0 <= v / 128 / 128) by (apply Z.div_pos; lia).
  assert (0 <= v / 128 / 128 / 128) by (apply Z.div_pos; lia).
  rewrite <- !Z.div_div by lia. cbn [varint].
  assert (Hlt : forall a b, 0 < b -> (a / 128 <? b) = (a <? 128 * b)).
  { intros a b Hb. destruct (Z.ltb_spec a (128 * b)) as [L|L].
    - apply Z.ltb_lt. by apply Z.div_lt_upper_bound.
    - apply Z.ltb_ge. by apply Z.div_le_lower_bound. }
  rewrite !Hlt by lia. rewrite !Z.mul_assoc.
  repeat match goal with |- context [v <? ?k] => destruct (Z.ltb_spec v k); try lia end;
    rewrite ?u8_lor_128 by lia; repeat f_equal; try (apply u8_id); try done; zlia.
Qed.

(** Decoding, from any accumulated state of the reader's loop. *)
Lemma land_128 b : 0 <= b < 128 -> Z.land b 128 = 0 /\ Z.land (b + 128) 128 = 128.
Proof.
  intros Hb. rewrite <- lor_128 by done. rewrite Z.land_lor_distr_l.
  assert (Z.land b 128 = 0) as ->; [|done].
  rewrite <- (Z.mod_small b 128), <- land_127, <- Z.land_assoc by done. by rewrite Z.land_0_r.
Qed.

Lemma land_127_add b : 0 <= b < 128 -> Z.land (b + 128) 127 = b.
Proof. intros. rewrite land_127. zlia. Qed.

Lemma GetVarint64_loop_varint n v s shift result :
  0 <= v < 128 ^ Z.of_nat (S n) ->
  0 <= shift -> shift + 7 * Z.of_nat n <= 63 -> 0 <= result < 2 ^ shift ->
  result + v * 2 ^ shift < 2 ^ 64 ->
  GetVarint64Ptr_loop (varint n v ++ s) shift result = Some (result + v * 2 ^ shift, s).
Proof.
  revert v shift result. induction n as [|n IH]; intros v shift result Hv Hs Hn Hr Hb.
  - change (128 ^ Z.of_nat 1) with 128 in Hv. cbn [varint app GetVarint64Ptr_loop].
    destruct (Z.leb_spec shift 63); [|lia].
    destruct (land_128 v Hv) as [-> _]. rewrite Z.eqb_refl. cbn [negb].
    rewrite u64_id by (unfold is_u64; rewrite Z.shiftl_mul_pow2 by lia; nia).
    by rewrite lor_shiftl_add by lia.
  - rewrite Nat2Z.inj_succ, Z.pow_succ_r in Hv by lia. cbn [varint].
    destruct (Z.ltb_spec v 128) as [Hlt|Hge].
    + cbn [app GetVarint64Ptr_loop]. destruct (Z.leb_spec shift 63); [|lia].
      destruct (land_128 v ltac:(lia)) as [-> _]. rewrite Z.eqb_refl. cbn [negb].
      rewrite u64_id by (unfold is_u64; rewrite Z.shiftl_mul_pow2 by lia; nia).
      by rewrite lor_shiftl_add by lia.
    + pose proof (Z.mod_pos_bound v 128 ltac:(lia)) as Hm.
      pose proof (Z.div_mod v 128 ltac:(lia)) as Hdm.
      cbn [app GetVarint64Ptr_loop]. destruct (Z.leb_spec shift 63); [|lia].
      destruct (land_128 (v mod 128) Hm) as [_ ->]. cbn [Z.eqb negb].
      rewrite land_127_add by done.
      assert (2 ^ (shift + 7) = 2 ^ shift * 128) as Hp by (by rewrite Z.pow_add_r by lia).
      rewrite u64_id by (unfold is_u64; rewrite Z.shiftl_mul_pow2 by lia; nia).
      rewrite lor_shiftl_add by lia.
      rewrite IH.
      * do 2 f_equal. rewrite Hp. nia.
      * split; [apply Z.div_pos; lia|apply Z.div_lt_upper_bound; lia].
      * lia.
      * lia.
      * rewrite Hp. nia.
      * rewrite Hp. nia.
Qed.

Lemma GetVarint64_varint v s : is_u64 v -> GetVarint64 (varint 9 v ++ s) = Some (v, s).
Proof.
  intros [? ?]. unfold GetVarint64, GetVarint64Ptr.
  rewrite GetVarint64_loop_varint; [do 2 f_equal; lia| |lia..].
  change (128 ^ Z.of_nat 10) with (2 ^ 70). lia.
Qed.

Lemma GetVarint64_nil : GetVarint64 [] = None.
Proof. done. Qed.

Lemma GetVarint32_loop_varint n v s shift result :
  0 <= v < 128 ^ Z.of_nat (S n) ->
  0 <= shift -> shift + 7 * Z.of_nat n <= 28 -> 0 <= result < 2 ^ shift ->
  result + v * 2 ^ shift < 2 ^ 32 ->
  GetVarint32Ptr_loop (varint n v ++ s) shift result = Some (result + v * 2 ^ shift, s).
Proof.
  revert v shift result. induction n as [|n IH]; intros v shift result Hv Hs Hn Hr Hb.
  - change (128 ^ Z.of_nat 1) with 128 in Hv. cbn [varint app GetVarint32Ptr_loop].
    destruct (Z.leb_spec shift 28); [|lia].
    destruct (land_128 v Hv) as [-> _]. rewrite Z.eqb_refl. cbn [negb].
    rewrite u32_id by (unfold is_u32; rewrite Z.shiftl_mul_pow2 by lia; nia).
    by rewrite lor_shiftl_add by lia.
  - rewrite Nat2Z.inj_succ, Z.pow_succ_r in Hv by lia. cbn [varint].
    destruct (Z.ltb_spec v 128) as [Hlt|Hge].
    + cbn [app GetVarint32Ptr_loop]. destruct (Z.leb_spec shift 28); [|lia].
      destruct (land_128 v ltac:(lia)) as [-> _]. rewrite Z.eqb_refl. cbn [negb].
      rewrite u32_id by (unfold is_u32; rewrite Z.shiftl_mul_pow2 by lia; nia).
      by rewrite lor_shiftl_add by lia.
    + pose proof (Z.mod_pos_bound v 128 ltac:(lia)) as Hm.
      pose proof (Z.div_mod v 128 ltac:(lia)) as Hdm.
      cbn [app GetVarint32Ptr_loop]. destruct (Z.leb_spec shift 28); [|lia].
      destruct (land_128 (v mod 128) Hm) as [_ ->]. cbn [Z.eqb negb].
      rewrite land_127_add by done.
      assert (2 ^ (shift + 7) = 2 ^ shift * 128) as Hp by (by rewrite Z.pow_add_r by lia).
      rewrite u32_id by (unfold is_u32; rewrite Z.shiftl_mul_pow2 by lia; nia).
      rewrite lor_shiftl_add by lia.
      rewrite IH.
      * do 2 f_equal. rewrite Hp. nia.
      * split; [apply Z.div_pos; lia|apply Z.div_lt_upper_bound; lia].
      * lia.
      * lia.
      * rewrite Hp. nia.
      * rewrite Hp. nia.
Qed.

Lemma GetVarint32_varint v s : is_u32 v -> GetVarint32 (varint 4 v ++ s) = Some (v, s).
Proof.
  intros [? ?]. unfold GetVarint32, GetVarint32Ptr.
  assert (GetVarint32PtrFallback (varint 4 v ++ s) = Some (v, s)) as Hf.
  { unfold GetVarint32PtrFallback. rewrite GetVarint32_loop_varint; [do 2 f_equal; lia| |lia..].
    change (128 ^ Z.of_nat 5) with (2 ^ 35). lia. }
  destruct (varint 4 v ++ s) as [|b p] eqn:E; [by rewrite Hf|].
  destruct (Z.land b 128 =? 0) eqn:Eb; [|by rewrite Hf].
  unfold GetVarint32PtrFallback in Hf. cbn [GetVarint32Ptr_loop Z.leb] in Hf.
  revert Hf. destruct (Z.leb_spec 0 28); [|lia]. rewrite Eb. cbn [negb].
  rewrite Z.lor_0_l, Z.shiftl_0_r. intros Hf.
  assert (u32 b = v /\ p = s) as [Hv ->] by (split; congruence).
  assert (0 <= b < 256) as Hb; [|rewrite u32_id in Hv by (unfold is_u32; lia); congruence].
  cbn [varint app] in E.
  destruct (Z.ltb_spec v 128); simpl in E; injection E; intros; zlia.
Qed.

Lemma PutVarint32_varint dst v : is_u32 v -> PutVarint32 dst v = dst ++ varint 4 v.
Proof. intros. unfold PutVarint32. by rewrite EncodeVarint32_varint. Qed.

(** The encodings do not depend on how much room is left above them. *)
Lemma varint_room n m v :
  0 <= v < 128 ^ Z.of_nat (S n) -> (n <= m)%nat -> varint m v = varint n v.
Proof.
  revert m v. induction n as [|n IH]; intros m v Hv Hm.
  - change (128 ^ Z.of_nat 1) with 128 in Hv. destruct m; [done|]. cbn [varint].
    by destruct (Z.ltb_spec v 128); [|lia].
  - destruct m as [|m]; [lia|]. cbn [varint]. destruct (v <? 128); [done|]. f_equal.
    apply IH; [|lia]. rewrite (Nat2Z.inj_succ (S n)), Z.pow_succ_r in Hv by lia.
    split; [apply Z.div_pos; lia|apply Z.div_lt_upper_bound; lia].
Qed.

(** An unsigned 64-bit integer is encoded in one to ten octets and decoded
    again from the front of any buffer, the rest of which is left over. *)
Theorem varint64_roundtrip dst v :
  is_u64 v ->
  exists b, PutVarint64 dst v = Some (dst ++ b) /\ (1 <= length b <= 10)%nat /\
            forall s, GetVarint64 (b ++ s) = Some (v, s).
Proof.
  intros Hv. exists (varint 9 v). split; [by apply PutVarint64_total|].
  split; [apply length_varint|]. intros s. by apply GetVarint64_varint.
Qed.

Lemma varint64_roundtrip_witness :
  exists b, PutVarint64 [7] UINT64_MAX = Some ([7] ++ b) /\ (1 <= length b <= 10)%nat /\
            forall s, GetVarint64 (b ++ s) = Some (UINT64_MAX, s).
Proof. apply (varint64_roundtrip [7] UINT64_MAX). split; vm_compute; [discriminate|reflexivity]. Defined.

(** The unrolled 32-bit encoder writes one to five octets, the same ones the
    64-bit encoder writes, and both readers (the 32-bit one with its fast path)
    give the value back. *)
Theorem varint32_roundtrip dst v :
  is_u32 v ->
  exists b, PutVarint32 dst v = dst ++ b /\ PutVarint64 dst v = Some (dst ++ b) /\
            (1 <= length b <= 5)%nat /\
            (forall s, GetVarint32 (b ++ s) = Some (v, s)) /\
            (forall s, GetVarint64 (b ++ s) = Some (v, s)).
Proof.
  intros Hv. assert (is_u64 v) as Hv64 by (destruct Hv; unfold is_u64; lia).
  assert (varint 9 v = varint 4 v) as E.
  { apply (varint_room 4 9); [|lia]. destruct Hv. change (128 ^ Z.of_nat 5) with (2 ^ 35). lia. }
  exists (varint 4 v). split_and!.
  - by apply PutVarint32_varint.
  - rewrite <- E. by apply PutVarint64_total.
  - apply length_varint.
  - apply length_varint.
  - intros s. by apply GetVarint32_varint.
  - intros s. rewrite <- E. by apply GetVarint64_varint.
Qed.

Lemma varint32_roundtrip_witness :
  exists b, PutVarint32 [] 300 = [] ++ b /\ PutVarint64 [] 300 = Some ([] ++ b) /\
            (1 <= length b <= 5)%nat /\
            (forall s, GetVarint32 (b ++ s) = Some (300, s)) /\
            (forall s, GetVarint64 (b ++ s) = Some (300, s)).
Proof. apply (varint32_roundtrip [] 300). split; lia. Defined.

(** *** Hexadecimal *)
Lemma fromHex_toHex v : 0 <= v < 16 -> Slice.fromHex (Slice.toHex v) = v.
Proof.
  intros Hv. assert (v ∈ seqZ 0 16) as Hin by (apply elem_of_seqZ; lia). clear Hv. revert v Hin.
  apply Forall_forall. cbv [seqZ]. simpl. repeat (apply Forall_cons_2; [reflexivity|]). apply Forall_nil_2.
Qed.

Lemma hex_digits c :
  0 <= c < 256 ->
  (0 <= Z.shiftr c 4 < 16 /\ 0 <= Z.land c 15 < 16) /\
  u8 (Z.lor (Z.shiftl (Z.shiftr c 4) 4) (Z.land c 15)) = c.
Proof.
  intros Hc. change 15 with (Z.ones 4).
  assert (0 <= Z.land c (Z.ones 4) < 2 ^ 4) by (rewrite Z.land_ones by lia; apply Z.mod_pos_bound; lia).
  rewrite (Z.lor_comm _ (Z.land _ _)), lor_shiftl_add by lia.
  rewrite Z.shiftr_div_pow2, Z.land_ones in * by lia. change (2 ^ 4) with 16 in *. unfold u8. split; zlia.
Qed.

Lemma DecodeHex_loop_hex s acc :
  wf_bytes s -> Slice.DecodeHex_loop (Slice.ToString_hex s) acc = Some (acc ++ s).
Proof.
  intros Hs. revert acc. induction Hs as [|c s Hc Hs IH]; intros acc; [by rewrite app_nil_r|].
  destruct (hex_digits c Hc) as [[H1 H2] H3]. cbn [Slice.ToString_hex Slice.DecodeHex_loop].
  rewrite !fromHex_toHex by done.
  destruct (Z.ltb_spec (Z.shiftr c 4) 0); [lia|]. destruct (Z.ltb_spec (Z.land c 15) 0); [lia|].
  rewrite H3, IH, <- app_assoc. done.
Qed.

Lemma length_ToString_hex s : length (Slice.ToString_hex s) = (2 * length s)%nat.
Proof. induction s as [|c s IH]; [done|]. cbn [Slice.ToString_hex length]. rewrite IH. lia. Qed.

(** Decoding the hexadecimal rendering of a slice gives the slice back, and
    a string of odd length is refused. *)
Theorem hex_roundtrip s :
  wf_bytes s ->
  Slice.DecodeHex (Slice.ToString true s) = Some s /\
  forall t, Nat.odd (length t) = true -> Slice.DecodeHex t = None.
Proof.
  intros Hs. split.
  - unfold Slice.DecodeHex, Slice.ToString. rewrite length_ToString_hex, Nat.even_mul. cbn [Nat.even orb negb].
    by apply DecodeHex_loop_hex.
  - intros t Ht. unfold Slice.DecodeHex. rewrite <- Nat.negb_odd, Ht. done.
Qed.

Lemma hex_roundtrip_witness :
  Slice.DecodeHex (Slice.ToString true [0; 171; 255]) = Some [0; 171; 255] /\
  forall t, Nat.odd (length t) = true -> Slice.DecodeHex t = None.
Proof. apply (hex_roundtrip [0; 171; 255]). repeat (apply Forall_cons_2; [split; lia|]). apply Forall_nil_2. Defined.

(** The fixed-width key integers are read back as written, and the key
    bytes compare as the integers do. *)
Theorem Fixed64_key_order key a b :
  is_u64 a -> is_u64 b ->
  bytes_cmp (AppendFixed64 key a) (AppendFixed64 key b) = Z.compare a b /\
  forall s, RemoveFixed64 (drop (length key) (AppendFixed64 key a) ++ s) = Some (a, s).
Proof.
  intros Ha Hb. rewrite !AppendFixed64_spec by done. split.
  - rewrite bytes_cmp_app_same. by apply (bytes_cmp_be 8).
  - intros s. rewrite drop_app_length. by apply RemoveFixed64_be.
Qed.

Lemma Fixed64_key_order_witness :
  bytes_cmp (AppendFixed64 [9] 255) (AppendFixed64 [9] 256) = Z.compare 255 256 /\
  forall s, RemoveFixed64 (drop (length [9]) (AppendFixed64 [9] 255) ++ s) = Some (255, s).
Proof. apply (Fixed64_key_order [9] 255 256); split; lia. Defined.
