(* ===== verification/Wire.v ===== *)
(** The protobuf wire format ([coded_stream.h], [wire_format_lite.h],
    [wire_format_lite_inl.h]): reading and writing tags, varints, byte strings
    and embedded messages, and the loop the generated parsers share.

    The inline functions of the headers are definitions.  The functions that
    live in the library's binary are the parameters [CodedLib], their documented
    behaviour [CodedLibLaws].  A stream reads from a flat array, the only way
    the generated code is used here.  [None] is [false], after which a stream
    is broken. *)
From S2P Require Import Prelude Coding.

(** ** Tags *)
Definition WIRETYPE_VARINT : Z := 0.
Definition WIRETYPE_LENGTH_DELIMITED : Z := 2.
Definition WIRETYPE_END_GROUP : Z := 4.
Definition kTagTypeBits : Z := 3.
Definition kTagTypeMask : Z := Z.shiftl 1 kTagTypeBits - 1.

Definition MakeTag (field_number type : Z) : Z := u32 (Z.lor (Z.shiftl field_number kTagTypeBits) type).
Definition GetTagWireType (tag : Z) : Z := Z.land tag kTagTypeMask.
Definition GetTagFieldNumber (tag : Z) : Z := Z.shiftr tag kTagTypeBits.

(** ** Streams *)

(** [buffer_] holds the bytes up to [buffer_end_], [after_limit_] the
    [buffer_size_after_limit_] bytes behind it. *)
Record CodedInputStream := mkStream {
  buffer_ : bytes;
  after_limit_ : bytes;
  total_bytes_read_ : Z;
  last_tag_ : Z;
  legitimate_message_end_ : bool;
  recursion_depth_ : Z }.

Definition kDefaultTotalBytesLimit : Z := Z.shiftl 64 20.
Definition kDefaultRecursionLimit : Z := 64.

(** The constructor that reads from an array. *)
Definition array_stream (data : bytes) : CodedInputStream :=
  mkStream data [] (Z.of_nat (length data)) 0 false 0.

Definition set_buffer (s : CodedInputStream) (b : bytes) : CodedInputStream :=
  mkStream b (after_limit_ s) (total_bytes_read_ s) (last_tag_ s) (legitimate_message_end_ s) (recursion_depth_ s).
Definition set_last_tag (s : CodedInputStream) (tag : Z) : CodedInputStream :=
  mkStream (buffer_ s) (after_limit_ s) (total_bytes_read_ s) tag (legitimate_message_end_ s) (recursion_depth_ s).
Definition set_message_end (s : CodedInputStream) : CodedInputStream :=
  mkStream (buffer_ s) (after_limit_ s) (total_bytes_read_ s) (last_tag_ s) true (recursion_depth_ s).
Definition set_depth (s : CodedInputStream) (d : Z) : CodedInputStream :=
  mkStream (buffer_ s) (after_limit_ s) (total_bytes_read_ s) (last_tag_ s) (legitimate_message_end_ s) d.

Definition Advance (s : CodedInputStream) (amount : nat) : CodedInputStream := set_buffer s (drop amount (buffer_ s)).
Definition BufferSize (s : CodedInputStream) : Z := Z.of_nat (length (buffer_ s)).

Definition IncrementRecursionDepth (s : CodedInputStream) : bool * CodedInputStream :=
  let s := set_depth s (recursion_depth_ s + 1) in (recursion_depth_ s <=? kDefaultRecursionLimit, s).
Definition DecrementRecursionDepth (s : CodedInputStream) : CodedInputStream :=
  if 0 <? recursion_depth_ s then set_depth s (recursion_depth_ s - 1) else s.

Definition LastTagWas (s : CodedInputStream) (expected : Z) : bool := last_tag_ s =? expected.
Definition ConsumedEntireMessage (s : CodedInputStream) : bool := legitimate_message_end_ s.

(** The flag and the stream after it; the two-byte form compares both bytes. *)
Definition ExpectTag (s : CodedInputStream) (expected : Z) : bool * CodedInputStream :=
  if expected <? Z.shiftl 1 7 then
    match buffer_ s with
    | b :: _ => if b =? expected then (true, Advance s 1) else (false, s)
    | [] => (false, s)
    end
  else if expected <? Z.shiftl 1 14 then
    match buffer_ s with
    | b0 :: b1 :: _ =>
        if (b0 =? u8 (Z.lor expected 128)) && (b1 =? u8 (Z.shiftr expected 7)) then (true, Advance s 2) else (false, s)
    | _ => (false, s)
    end
  else (false, s).

Definition ExpectAtEnd (s : CodedInputStream) : bool * CodedInputStream :=
  match buffer_ s, after_limit_ s with
  | [], _ :: _ => (true, set_message_end (set_last_tag s 0))
  | _, _ => (false, s)
  end.

(** ** Unknown fields *)
Inductive UnknownField :=
| TYPE_VARINT (number varint_ : Z)
| TYPE_FIXED32 (number fixed32_ : Z)
| TYPE_FIXED64 (number fixed64_ : Z)
| TYPE_LENGTH_DELIMITED (number : Z) (length_delimited_ : bytes)
| TYPE_GROUP (number : Z) (group_ : list UnknownField).

Definition UnknownFieldSet := list UnknownField.

Definition unknown_empty (u : UnknownFieldSet) : bool := match u with [] => true | _ => false end.

(** ** Messages *)

(** The virtual functions of [MessageLite].  A message writes itself at a
    pointer by giving the bytes it writes, to a stream by extending what the
    stream holds; [ByteSize] caches sizes inside the message. *)
Class MessageLite (M : Type) := {
  New : M;
  Clear : M -> M;
  IsInitialized : M -> bool;
  MergePartialFromCodedStream : M -> CodedInputStream -> option (M * CodedInputStream);
  ByteSize : M -> Z * M;
  GetCachedSize : M -> Z;
  SerializeWithCachedSizes : M -> bytes -> bytes;
  SerializeWithCachedSizesToArray : M -> bytes
}.

(** ** The library's binary *)
Class CodedLib := {
  ReadVarint32Fallback : CodedInputStream -> option (Z * CodedInputStream);
  ReadVarint64Fallback : CodedInputStream -> option (Z * CodedInputStream);
  ReadTagFallback : CodedInputStream -> Z * CodedInputStream;
  ReadBytes : CodedInputStream -> option (bytes * CodedInputStream);
  PushLimit : CodedInputStream -> Z -> Z * CodedInputStream;
  PopLimit : CodedInputStream -> Z -> CodedInputStream;
  SkipField : CodedInputStream -> Z -> UnknownFieldSet -> option (CodedInputStream * UnknownFieldSet);
  WriteVarint32FallbackToArray : Z -> bytes;
  WriteVarint64ToArray : Z -> bytes;
  WriteRawToArray : bytes -> bytes;
  VarintSize32Fallback : Z -> Z;
  VarintSize64 : Z -> Z;
  WriteUInt32 : Z -> Z -> bytes -> bytes;
  WriteUInt64 : Z -> Z -> bytes -> bytes;
  WriteEnum : Z -> Z -> bytes -> bytes;
  WriteBytes : Z -> bytes -> bytes -> bytes;
  WriteMessageMaybeToArray {M} : MessageLite M -> Z -> M -> bytes -> bytes;
  AddVarint : UnknownFieldSet -> Z -> Z -> UnknownFieldSet;
  UnknownFieldSet_MergeFrom : UnknownFieldSet -> UnknownFieldSet -> UnknownFieldSet;
  SerializeUnknownFields : UnknownFieldSet -> bytes -> bytes;
  SerializeUnknownFieldsToArray : UnknownFieldSet -> bytes;
  ComputeUnknownFieldsSize : UnknownFieldSet -> Z;
  ParseFromArray {M} : MessageLite M -> bytes -> M -> option M;
  ParseFromString {M} : MessageLite M -> bytes -> M -> option M;
  SerializeToString {M} : MessageLite M -> M -> option bytes
}.

Section Wire.
Context `{CodedLib}.

(** ** Reading *)
Definition ReadVarint32 (s : CodedInputStream) : option (Z * CodedInputStream) :=
  match buffer_ s with
  | b :: _ => if b <? 128 then Some (b, Advance s 1) else ReadVarint32Fallback s
  | [] => ReadVarint32Fallback s
  end.

Definition ReadVarint64 (s : CodedInputStream) : option (Z * CodedInputStream) :=
  match buffer_ s with
  | b :: _ => if b <? 128 then Some (b, Advance s 1) else ReadVarint64Fallback s
  | [] => ReadVarint64Fallback s
  end.

Definition ReadTag (s : CodedInputStream) : Z * CodedInputStream :=
  match buffer_ s with
  | b :: _ => if b <? 128 then (b, Advance (set_last_tag s b) 1)
              else let '(tag, s) := ReadTagFallback s in (tag, set_last_tag s tag)
  | [] => let '(tag, s) := ReadTagFallback s in (tag, set_last_tag s tag)
  end.

Definition ReadPrimitive_UINT32 : CodedInputStream -> option (Z * CodedInputStream) := ReadVarint32.
Definition ReadPrimitive_UINT64 : CodedInputStream -> option (Z * CodedInputStream) := ReadVarint64.

Definition s32 (z : Z) : Z := if z <? 2 ^ 31 then z else z - 2 ^ 32.

Definition ReadPrimitive_ENUM (s : CodedInputStream) : option (Z * CodedInputStream) :=
  '(temp, s) ← ReadVarint32 s; Some (s32 temp, s).

Definition ReadMessageNoVirtual {M} `{MessageLite M} (s : CodedInputStream) (value : M) :
    option (M * CodedInputStream) :=
  '(length, s) ← ReadVarint32 s;
  let '(b, s) := IncrementRecursionDepth s in
  if b then
    let '(limit, s) := PushLimit s (s32 length) in
    '(value, s) ← MergePartialFromCodedStream value s;
    if ConsumedEntireMessage s then Some (value, DecrementRecursionDepth (PopLimit s limit)) else None
  else None.

(** ** Writing *)
Definition WriteVarint32ToArray (value : Z) : bytes :=
  if value <? 128 then [value] else WriteVarint32FallbackToArray value.

Definition WriteVarint32SignExtendedToArray (value : Z) : bytes :=
  if value <? 0 then WriteVarint64ToArray (u64 value) else WriteVarint32ToArray (u32 value).

Definition WriteTagToArray_value (value : Z) : bytes :=
  if value <? Z.shiftl 1 7 then [u8 value]
  else if value <? Z.shiftl 1 14 then [u8 (Z.lor value 128); u8 (Z.shiftr value 7)]
  else WriteVarint32FallbackToArray value.

Definition WriteTagToArray (field_number type : Z) : bytes := WriteTagToArray_value (MakeTag field_number type).

Definition WriteUInt32ToArray (field_number value : Z) : bytes :=
  WriteTagToArray field_number WIRETYPE_VARINT ++ WriteVarint32ToArray value.
Definition WriteUInt64ToArray (field_number value : Z) : bytes :=
  WriteTagToArray field_number WIRETYPE_VARINT ++ WriteVarint64ToArray value.
Definition WriteEnumToArray (field_number value : Z) : bytes :=
  WriteTagToArray field_number WIRETYPE_VARINT ++ WriteVarint32SignExtendedToArray value.
Definition WriteBytesToArray (field_number : Z) (value : bytes) : bytes :=
  WriteTagToArray field_number WIRETYPE_LENGTH_DELIMITED ++
  WriteVarint32ToArray (u32 (Z.of_nat (length value))) ++ WriteRawToArray value.
Definition WriteMessageNoVirtualToArray {M} `{MessageLite M} (field_number : Z) (value : M) : bytes :=
  WriteTagToArray field_number WIRETYPE_LENGTH_DELIMITED ++
  WriteVarint32ToArray (u32 (GetCachedSize value)) ++ SerializeWithCachedSizesToArray value.

(** ** Sizes *)
Definition VarintSize32 (value : Z) : Z := if value <? Z.shiftl 1 7 then 1 else VarintSize32Fallback value.
Definition VarintSize32SignExtended (value : Z) : Z := if value <? 0 then 10 else VarintSize32 (u32 value).

Definition UInt32Size : Z -> Z := VarintSize32.
Definition UInt64Size : Z -> Z := VarintSize64.
Definition EnumSize : Z -> Z := VarintSize32SignExtended.
Definition BytesSize (value : bytes) : Z :=
  VarintSize32 (u32 (Z.of_nat (length value))) + Z.of_nat (length value).
Definition MessageSizeNoVirtual {M} `{MessageLite M} (value : M) : Z * M :=
  let '(size, value) := ByteSize value in (VarintSize32 (u32 size) + size, value).

(** ** The loop of a generated parser *)

(** Where the parser is: at the head of the loop, at the label of a field whose
    tag has been read, or returning [true]. *)
Inductive point := NextTag | Label (field_number : Z) | Return.

Inductive parse_result (M : Type) := OutOfFuel | Failed | Parsed (m : M) (s : CodedInputStream).
#[global] Arguments OutOfFuel {M}.
#[global] Arguments Failed {M}.
#[global] Arguments Parsed {M} m s.

(** What follows a field: the tags it expects, each with a jump to a label,
    then, for the last field, the test for the end. *)
Fixpoint expect (tags : list (Z * Z)) (at_end : bool) (s : CodedInputStream) : point * CodedInputStream :=
  match tags with
  | (tag, l) :: tags =>
      let '(b, s) := ExpectTag s tag in if b then (Label l, s) else expect tags at_end s
  | [] => if at_end then let '(b, s) := ExpectAtEnd s in (if b then Return else NextTag, s) else (NextTag, s)
  end.

(** The end of the code at a label. *)
Definition after_field {M} (tags : list (Z * Z)) (at_end : bool) (m : M) (s : CodedInputStream) :
    option (point * M * CodedInputStream) :=
  let '(p, s) := expect tags at_end s in Some (p, m, s).

Section Loop.
Context {M : Type}.
(** The wire type each [case] tests for; the code at a label. *)
Context (cases : Z -> option Z) (label : Z -> M -> CodedInputStream -> option (point * M * CodedInputStream)).
Context (unknown_fields : M -> UnknownFieldSet) (set_unknown_fields : M -> UnknownFieldSet -> M).

Definition handle_uninterpreted (tag : Z) (m : M) (s : CodedInputStream) : option (point * M * CodedInputStream) :=
  if GetTagWireType tag =? WIRETYPE_END_GROUP then Some (Return, m, s)
  else '(s, u) ← SkipField s tag (unknown_fields m); Some (NextTag, set_unknown_fields m u, s).

Definition next_tag (m : M) (s : CodedInputStream) : option (point * M * CodedInputStream) :=
  let '(tag, s) := ReadTag s in
  if tag =? 0 then Some (Return, m, s)
  else
    match cases (GetTagFieldNumber tag) with
    | Some type => if GetTagWireType tag =? type then Some (Label (GetTagFieldNumber tag), m, s)
                   else handle_uninterpreted tag m s
    | None => handle_uninterpreted tag m s
    end.

Definition parse_step (p : point) (m : M) (s : CodedInputStream) : option (point * M * CodedInputStream) :=
  match p with
  | NextTag => next_tag m s
  | Label n => label n m s
  | Return => Some (Return, m, s)
  end.

Fixpoint parse (fuel : nat) (p : point) (m : M) (s : CodedInputStream) : parse_result M :=
  match p with
  | Return => Parsed m s
  | _ =>
      match fuel with
      | O => OutOfFuel
      | S fuel =>
          match parse_step p m s with
          | None => Failed
          | Some (p, m, s) => parse fuel p m s
          end
      end
  end.

(** Every step reads a byte, so one more step than there are bytes is enough. *)
Definition merge_loop (m : M) (s : CodedInputStream) : option (M * CodedInputStream) :=
  match parse (S (length (buffer_ s))) NextTag m s with
  | Parsed m s => Some (m, s)
  | _ => None
  end.
End Loop.
End Wire.

(** ** Documented behaviour of the binary *)

(** Same limits, same depth, and the bytes of [s] after a prefix. *)
Definition advances (s s' : CodedInputStream) : Prop :=
  (exists p, buffer_ s = p ++ buffer_ s') /\ after_limit_ s' = after_limit_ s /\
  total_bytes_read_ s' = total_bytes_read_ s /\ recursion_depth_ s' = recursion_depth_ s.

(** At least one byte is gone. *)
Definition reads (s s' : CodedInputStream) : Prop :=
  advances s s' /\ (length (buffer_ s') < length (buffer_ s))%nat.

(** From the comments of the headers: varints are read as they are written, a
    tag read at the end of the readable bytes is zero and ends the message
    legitimately, below the 64 MB a stream accepts; a limit hides what is behind
    it until it is popped; a failed or partial read leaves the stream somewhere
    ahead; the functions that write to a stream write what their [ToArray]
    versions write; sizes are the numbers of bytes written; parsing a string
    clears the message, merges the string, and checks that the message is
    initialized and was consumed entirely. *)
Class CodedLibLaws `{CodedLib} : Prop := {
  ReadVarint32Fallback_spec s v r :
    is_u32 v -> buffer_ s = varint 4 v ++ r -> ReadVarint32Fallback s = Some (v, set_buffer s r);
  ReadVarint32Fallback_reads s v s' : ReadVarint32Fallback s = Some (v, s') -> is_u32 v /\ reads s s';
  ReadVarint64Fallback_spec s v r :
    is_u64 v -> buffer_ s = varint 9 v ++ r -> ReadVarint64Fallback s = Some (v, set_buffer s r);
  ReadVarint64Fallback_reads s v s' : ReadVarint64Fallback s = Some (v, s') -> is_u64 v /\ reads s s';
  ReadTagFallback_end s :
    buffer_ s = [] -> total_bytes_read_ s < kDefaultTotalBytesLimit -> ReadTagFallback s = (0, set_message_end s);
  ReadTagFallback_advances s tag s' :
    ReadTagFallback s = (tag, s') -> advances s s' /\ (tag <> 0 -> reads s s');
  ReadBytes_spec s b r :
    Z.of_nat (length b) < 2 ^ 31 -> buffer_ s = varint 4 (Z.of_nat (length b)) ++ b ++ r ->
    ReadBytes s = Some (b, set_buffer s r);
  ReadBytes_reads s b s' : ReadBytes s = Some (b, s') -> reads s s' /\ sublist b (buffer_ s);
  PushLimit_spec s n limit s' :
    PushLimit s n = (limit, s') ->
    exists k, buffer_ s' = take k (buffer_ s) /\ after_limit_ s' = drop k (buffer_ s) ++ after_limit_ s /\
      total_bytes_read_ s' = total_bytes_read_ s /\ recursion_depth_ s' = recursion_depth_ s /\
      (0 <= n -> k = Z.to_nat n);
  PopLimit_spec s n limit s1 s2 :
    PushLimit s n = (limit, s1) -> advances s1 s2 ->
    PopLimit s2 limit = mkStream (buffer_ s2 ++ drop (length (buffer_ s1)) (buffer_ s)) (after_limit_ s)
      (total_bytes_read_ s) (last_tag_ s2) false (recursion_depth_ s2);
  SkipField_advances s tag u s' u' : SkipField s tag u = Some (s', u') -> advances s s';
  WriteVarint32FallbackToArray_spec v : is_u32 v -> WriteVarint32FallbackToArray v = varint 4 v;
  WriteVarint64ToArray_spec v : is_u64 v -> WriteVarint64ToArray v = varint 9 v;
  WriteRawToArray_spec b : WriteRawToArray b = b;
  VarintSize32Fallback_spec v : is_u32 v -> VarintSize32Fallback v = Z.of_nat (length (varint 4 v));
  VarintSize64_spec v : is_u64 v -> VarintSize64 v = Z.of_nat (length (varint 9 v));
  WriteUInt32_spec n v out : WriteUInt32 n v out = out ++ WriteUInt32ToArray n v;
  WriteUInt64_spec n v out : WriteUInt64 n v out = out ++ WriteUInt64ToArray n v;
  WriteEnum_spec n v out : WriteEnum n v out = out ++ WriteEnumToArray n v;
  WriteBytes_spec n v out : WriteBytes n v out = out ++ WriteBytesToArray n v;
  WriteMessageMaybeToArray_spec {M} (ml : MessageLite M) n m out :
    (forall out, SerializeWithCachedSizes m out = out ++ SerializeWithCachedSizesToArray m) ->
    WriteMessageMaybeToArray ml n m out = out ++ WriteMessageNoVirtualToArray n m;
  AddVarint_spec u n v : AddVarint u n v = u ++ [TYPE_VARINT n v];
  UnknownFieldSet_MergeFrom_spec u v : UnknownFieldSet_MergeFrom u v = u ++ v;
  SerializeUnknownFields_spec u out : SerializeUnknownFields u out = out ++ SerializeUnknownFieldsToArray u;
  ComputeUnknownFieldsSize_spec u : ComputeUnknownFieldsSize u = Z.of_nat (length (SerializeUnknownFieldsToArray u));
  ParseFromArray_spec {M} (ml : MessageLite M) data m :
    ParseFromArray ml data m =
      ('(m, s) ← MergePartialFromCodedStream (Clear m) (array_stream data);
       if IsInitialized m && ConsumedEntireMessage s then Some m else None);
  ParseFromString_spec {M} (ml : MessageLite M) data m : ParseFromString ml data m = ParseFromArray ml data m;
  SerializeToString_spec {M} (ml : MessageLite M) m :
    IsInitialized m = true -> fst (ByteSize m) < 2 ^ 31 ->
    SerializeToString ml m = Some (SerializeWithCachedSizesToArray (snd (ByteSize m)))
}.

(** ** Moving through a stream *)
Lemma advances_refl s : advances s s.
Proof. split; [by exists []|done]. Qed.

Lemma advances_trans s1 s2 s3 : advances s1 s2 -> advances s2 s3 -> advances s1 s3.
Proof.
  intros ([p Hp] & H1 & H2 & H3) ([q Hq] & H4 & H5 & H6). split; [|by split_and!; etrans].
  exists (p ++ q). by rewrite Hp, Hq, app_assoc.
Qed.

Lemma advances_length s s' : advances s s' -> (length (buffer_ s') <= length (buffer_ s))%nat.
Proof. intros ([p ->] & _). rewrite length_app. lia. Qed.

Lemma reads_advances s s' : reads s s' -> advances s s'.
Proof. by intros []. Qed.

Lemma reads_advances_trans s1 s2 s3 : reads s1 s2 -> advances s2 s3 -> reads s1 s3.
Proof.
  intros [H1 Hl] H2. split; [by eapply advances_trans|]. apply advances_length in H2. lia.
Qed.

Lemma advances_reads_trans s1 s2 s3 : advances s1 s2 -> reads s2 s3 -> reads s1 s3.
Proof.
  intros H1 [H2 Hl]. split; [by eapply advances_trans|]. apply advances_length in H1. lia.
Qed.

Lemma set_buffer_reads s p r : buffer_ s = p ++ r -> p <> [] -> reads s (set_buffer s r).
Proof.
  intros Hb Hp. split; [split; [by exists p|done]|]. cbn. rewrite Hb, length_app.
  destruct p; [done|cbn; lia].
Qed.

Lemma Advance_reads s : buffer_ s <> [] -> reads s (Advance s 1).
Proof.
  intros Hb. destruct (buffer_ s) as [|b r] eqn:E; [done|]. unfold Advance. rewrite E.
  by apply (set_buffer_reads s [b]).
Qed.

#[export] Hint Resolve advances_refl reads_advances : wire.

Lemma ExpectTag_spec s tag b s' :
  0 <= tag < 128 -> ExpectTag s tag = (b, s') ->
  if b then buffer_ s = tag :: buffer_ s' /\ reads s s' else s' = s.
Proof.
  intros Ht. unfold ExpectTag. change (Z.shiftl 1 7) with 128. destruct (Z.ltb_spec tag 128); [|lia].
  destruct (buffer_ s) as [|b0 r] eqn:E; [by intros [= <- <-]|].
  destruct (Z.eqb_spec b0 tag) as [->|]; intros [= <- <-]; [|done].
  split; [cbn; by rewrite E|]. apply Advance_reads. by rewrite E.
Qed.

Lemma ExpectAtEnd_spec s b s' :
  ExpectAtEnd s = (b, s') ->
  advances s s' /\ if b then buffer_ s = [] /\ buffer_ s' = [] /\ legitimate_message_end_ s' = true else s' = s.
Proof.
  unfold ExpectAtEnd. destruct (buffer_ s) as [|b0 r] eqn:E; [destruct (after_limit_ s) eqn:Ea|];
    intros [= <- <-]; try (split; [apply advances_refl|done]).
  cbn. split; [split; [exists []; cbn; by rewrite E|by cbn]|done].
Qed.

(** ** Reading what was written *)

(** A field number that fits a one-byte tag. *)
Definition small_field (n : Z) : Prop := 1 <= n < 16.

Lemma MakeTag_small n type : small_field n -> 0 <= type < 8 -> MakeTag n type = 8 * n + type.
Proof.
  intros Hn Ht. unfold small_field in Hn. unfold MakeTag, kTagTypeBits.
  rewrite Z.lor_comm, lor_shiftl_add by lia. rewrite u32_id; [lia|]. unfold is_u32. lia.
Qed.

Lemma MakeTag_range n type : small_field n -> 0 <= type < 8 -> 0 < MakeTag n type < 128.
Proof. intros Hn Ht. rewrite MakeTag_small by done. unfold small_field in Hn. lia. Qed.

Lemma GetTagWireType_MakeTag n type : small_field n -> 0 <= type < 8 -> GetTagWireType (MakeTag n type) = type.
Proof.
  intros Hn Ht. rewrite MakeTag_small by done. unfold GetTagWireType.
  change kTagTypeMask with (Z.ones 3). rewrite Z.land_ones by lia. change (2 ^ 3) with 8. zlia.
Qed.

Lemma GetTagFieldNumber_MakeTag n type : small_field n -> 0 <= type < 8 -> GetTagFieldNumber (MakeTag n type) = n.
Proof.
  intros Hn Ht. rewrite MakeTag_small by done. unfold GetTagFieldNumber, kTagTypeBits.
  rewrite Z.shiftr_div_pow2 by lia. change (2 ^ 3) with 8. zlia.
Qed.

Section Reading.
Context `{CodedLibLaws}.

Lemma varint_small n v : 0 <= v < 128 -> varint n v = [v].
Proof. intros Hv. destruct n; [done|]. cbn. by destruct (Z.ltb_spec v 128); [|lia]. Qed.

(** The first byte of a longer encoding announces another. *)
Lemma varint_first n v : (0 < n)%nat -> 128 <= v -> exists b r, varint n v = b :: r /\ 128 <= b.
Proof.
  intros Hn Hv. destruct n; [lia|]. cbn. destruct (Z.ltb_spec v 128); [lia|]. eexists _, _. split; [done|].
  pose proof (Z.mod_pos_bound v 128 ltac:(lia)). lia.
Qed.

Lemma ReadVarint32_varint s v r :
  is_u32 v -> buffer_ s = varint 4 v ++ r -> ReadVarint32 s = Some (v, set_buffer s r).
Proof.
  intros Hv Hb. unfold ReadVarint32. destruct (Z.ltb_spec v 128) as [L|L].
  - rewrite varint_small in Hb by (unfold is_u32 in Hv; lia). cbn [app] in Hb. rewrite Hb.
    destruct (Z.ltb_spec v 128); [|lia]. unfold Advance. by rewrite Hb.
  - pose proof Hb as Hb'. destruct (varint_first 4 v ltac:(lia) L) as (b & t & E & Hge). rewrite E in Hb'. cbn [app] in Hb'. rewrite Hb'.
    destruct (Z.ltb_spec b 128); [lia|]. by apply ReadVarint32Fallback_spec.
Qed.

Lemma ReadVarint64_varint s v r :
  is_u64 v -> buffer_ s = varint 9 v ++ r -> ReadVarint64 s = Some (v, set_buffer s r).
Proof.
  intros Hv Hb. unfold ReadVarint64. destruct (Z.ltb_spec v 128) as [L|L].
  - rewrite varint_small in Hb by (unfold is_u64 in Hv; lia). cbn [app] in Hb. rewrite Hb.
    destruct (Z.ltb_spec v 128); [|lia]. unfold Advance. by rewrite Hb.
  - pose proof Hb as Hb'. destruct (varint_first 9 v ltac:(lia) L) as (b & t & E & Hge). rewrite E in Hb'. cbn [app] in Hb'. rewrite Hb'.
    destruct (Z.ltb_spec b 128); [lia|]. by apply ReadVarint64Fallback_spec.
Qed.

Lemma ReadVarint32_reads s v s' : ReadVarint32 s = Some (v, s') -> reads s s'.
Proof.
  unfold ReadVarint32. destruct (buffer_ s) as [|b r] eqn:E; [by intros [_ ?]%ReadVarint32Fallback_reads|].
  destruct (b <? 128); [|by intros [_ ?]%ReadVarint32Fallback_reads]. intros [= <- <-]. apply Advance_reads.
  by rewrite E.
Qed.

Lemma ReadVarint64_reads s v s' : ReadVarint64 s = Some (v, s') -> reads s s'.
Proof.
  unfold ReadVarint64. destruct (buffer_ s) as [|b r] eqn:E; [by intros [_ ?]%ReadVarint64Fallback_reads|].
  destruct (b <? 128); [|by intros [_ ?]%ReadVarint64Fallback_reads]. intros [= <- <-]. apply Advance_reads.
  by rewrite E.
Qed.

(** A stream of bytes gives values of the width asked for. *)
Lemma ReadVarint32_range s v s' : wf_bytes (buffer_ s) -> ReadVarint32 s = Some (v, s') -> is_u32 v.
Proof.
  intros Hw. unfold ReadVarint32. destruct (buffer_ s) as [|b r] eqn:E; [by intros [? _]%ReadVarint32Fallback_reads|].
  destruct (Z.ltb_spec b 128); [|by intros [? _]%ReadVarint32Fallback_reads]. intros [= <- <-].
  apply Forall_cons in Hw as [[] _]. unfold is_u32. lia.
Qed.

Lemma ReadVarint64_range s v s' : wf_bytes (buffer_ s) -> ReadVarint64 s = Some (v, s') -> is_u64 v.
Proof.
  intros Hw. unfold ReadVarint64. destruct (buffer_ s) as [|b r] eqn:E; [by intros [? _]%ReadVarint64Fallback_reads|].
  destruct (Z.ltb_spec b 128); [|by intros [? _]%ReadVarint64Fallback_reads]. intros [= <- <-].
  apply Forall_cons in Hw as [[] _]. unfold is_u64. lia.
Qed.

Lemma advances_wf s s' : advances s s' -> wf_bytes (buffer_ s) -> wf_bytes (buffer_ s').
Proof. by intros ([p ->] & _) [_ ?]%Forall_app. Qed.

Lemma ReadTag_advances s tag s' : ReadTag s = (tag, s') -> advances s s' /\ (tag <> 0 -> reads s s').
Proof.
  assert (Hf : (let '(tag, s) := ReadTagFallback s in (tag, set_last_tag s tag)) = (tag, s') ->
    advances s s' /\ (tag <> 0 -> reads s s')).
  { destruct (ReadTagFallback s) as [t s1] eqn:E. intros [= <- <-].
    destruct (ReadTagFallback_advances _ _ _ E) as [H1 H2]. split; [exact H1|]. intros Ht. exact (H2 Ht). }
  unfold ReadTag. destruct (buffer_ s) as [|b r] eqn:E; [exact Hf|].
  destruct (b <? 128); [|exact Hf]. intros [= <- <-].
  assert (reads s (Advance (set_last_tag s b) 1)) as Hr.
  { split; [split; [exists [b]; cbn; by rewrite E|done]|]. cbn. rewrite E. cbn. rewrite drop_0. lia. }
  by split; [apply Hr|].
Qed.

Lemma ReadTag_small s tag r :
  0 < tag < 128 -> buffer_ s = tag :: r ->
  exists s', ReadTag s = (tag, s') /\ buffer_ s' = r /\ reads s s' /\
    legitimate_message_end_ s' = legitimate_message_end_ s.
Proof.
  intros Ht Hb. unfold ReadTag. rewrite Hb. destruct (Z.ltb_spec tag 128); [|lia]. eexists. split; [done|].
  cbn. rewrite Hb. cbn. rewrite drop_0. split; [done|]. split; [|done].
  split; [split; [exists [tag]; cbn; by rewrite Hb|done]|]. cbn. rewrite Hb. cbn. rewrite drop_0. lia.
Qed.

Lemma ReadTag_end s :
  buffer_ s = [] -> total_bytes_read_ s < kDefaultTotalBytesLimit ->
  ReadTag s = (0, set_last_tag (set_message_end s) 0).
Proof. intros Hb Ht. unfold ReadTag. rewrite Hb. by rewrite ReadTagFallback_end. Qed.
End Reading.

(** ** Embedded messages *)
Lemma take_drop_length {A} k (l : list A) : take k l ++ drop (length (take k l)) l = l.
Proof.
  rewrite length_take. destruct (decide (k <= length l)%nat).
  - rewrite Nat.min_l by done. apply take_drop.
  - rewrite Nat.min_r, take_ge, drop_all, app_nil_r by lia. done.
Qed.

Section Embedded.
Context `{CodedLibLaws} {M : Type} `{MessageLite M}.

Lemma Decrement_depth s s' :
  0 <= recursion_depth_ s -> recursion_depth_ s' = recursion_depth_ s + 1 ->
  DecrementRecursionDepth s' = set_depth s' (recursion_depth_ s).
Proof.
  intros H0' H1'. unfold DecrementRecursionDepth. destruct (Z.ltb_spec 0 (recursion_depth_ s')); [|lia].
  f_equal. lia.
Qed.

Lemma ReadMessage_reads s m m' s' :
  (forall m s m' s', 0 <= recursion_depth_ s -> MergePartialFromCodedStream m s = Some (m', s') -> advances s s') ->
  0 <= recursion_depth_ s -> ReadMessageNoVirtual s m = Some (m', s') -> reads s s'.
Proof.
  intros Hadv Hd. unfold ReadMessageNoVirtual. destruct (ReadVarint32 s) as [[v s1]|] eqn:Ev; [|done].
  cbn [mbind option_bind]. pose proof (ReadVarint32_reads _ _ _ Ev) as Hr. cbn [IncrementRecursionDepth].
  destruct (_ <=? _); [|done]. set (s2 := set_depth s1 _).
  destruct (PushLimit s2 (s32 v)) as [limit s3] eqn:Ep.
  destruct (MergePartialFromCodedStream m s3) as [[m1 s4]|] eqn:Em; [|done]. cbn [mbind option_bind].
  destruct (ConsumedEntireMessage s4); [|done]. intros [= <- <-].
  destruct (PushLimit_spec _ _ _ _ Ep) as (k & Hb & Ha & Ht & Hdp & _).
  apply Hadv in Em; [|rewrite Hdp; cbn; destruct Hr as [(_ & _ & _ & ->) _]; lia].
  rewrite (PopLimit_spec _ _ _ _ _ Ep Em).
  destruct Em as ([p Hp] & _ & _ & Hdp4).
  rewrite (Decrement_depth s1); [|destruct Hr as [(_ & _ & _ & ->) _]; done|cbn; rewrite Hdp4, Hdp; done].
  assert (Hs1 : advances s1 (set_depth (mkStream (buffer_ s4 ++ drop (length (buffer_ s3)) (buffer_ s2)) (after_limit_ s2)
     (total_bytes_read_ s2) (last_tag_ s4) false (recursion_depth_ s4)) (recursion_depth_ s1))).
  { split; [|done]. exists p. cbn. rewrite app_assoc, <- Hp, Hb. change (buffer_ s2) with (buffer_ s1).
    by rewrite take_drop_length. }
  by eapply reads_advances_trans.
Qed.

(** The value of an embedded message comes from its parser. *)
Lemma ReadMessage_inv s m m' s' :
  0 <= recursion_depth_ s -> wf_bytes (buffer_ s) -> ReadMessageNoVirtual s m = Some (m', s') ->
  exists s1 s2, 0 <= recursion_depth_ s1 /\ wf_bytes (buffer_ s1) /\ MergePartialFromCodedStream m s1 = Some (m', s2).
Proof.
  intros Hd Hw. unfold ReadMessageNoVirtual. destruct (ReadVarint32 s) as [[v s1]|] eqn:Ev; [|done].
  cbn [mbind option_bind]. pose proof (ReadVarint32_reads _ _ _ Ev) as [Ha _]. cbn [IncrementRecursionDepth].
  destruct (_ <=? _); [|done]. set (s2 := set_depth s1 _).
  destruct (PushLimit s2 (s32 v)) as [limit s3] eqn:Ep.
  destruct (MergePartialFromCodedStream m s3) as [[m1 s4]|] eqn:Em; [|done]. cbn [mbind option_bind].
  destruct (ConsumedEntireMessage s4); [|done]. intros [= <- _]. exists s3, s4.
  destruct (PushLimit_spec _ _ _ _ Ep) as (k & Hb & _ & _ & Hdp & _).
  pose proof (advances_wf _ _ Ha Hw) as Hw1. destruct Ha as (_ & _ & _ & Hd1).
  split; [rewrite Hdp; cbn; lia|]. split; [|done]. rewrite Hb. by apply Forall_take.
Qed.

(** An embedded message that parses to the end of its bytes. *)
Lemma ReadMessage_spec s m m' data r :
  0 <= recursion_depth_ s < kDefaultRecursionLimit -> Z.of_nat (length data) < 2 ^ 31 ->
  buffer_ s = varint 4 (Z.of_nat (length data)) ++ data ++ r ->
  (forall s1, buffer_ s1 = data -> total_bytes_read_ s1 = total_bytes_read_ s ->
     recursion_depth_ s1 = recursion_depth_ s + 1 ->
     exists s2, MergePartialFromCodedStream m s1 = Some (m', s2) /\ advances s1 s2 /\ buffer_ s2 = [] /\
       legitimate_message_end_ s2 = true) ->
  exists s', ReadMessageNoVirtual s m = Some (m', s') /\ reads s s' /\ buffer_ s' = r.
Proof.
  intros Hd Hl Hb Hm. unfold ReadMessageNoVirtual.
  assert (Hu : is_u32 (Z.of_nat (length data))) by (unfold is_u32; lia).
  rewrite (ReadVarint32_varint s _ _ Hu Hb). cbn [mbind option_bind IncrementRecursionDepth].
  set (s0 := set_buffer s (data ++ r)). set (s1 := set_depth s0 _).
  assert (Hr0 : reads s s0).
  { apply (set_buffer_reads s _ _ Hb). pose proof (length_varint 4 (Z.of_nat (length data))).
    destruct (varint 4 _); [cbn in *; lia|done]. }
  destruct (Z.leb_spec (recursion_depth_ s1) kDefaultRecursionLimit) as [_|L]; [|cbn in L; lia].
  assert (s32 (Z.of_nat (length data)) = Z.of_nat (length data)) as ->.
  { unfold s32. by destruct (Z.ltb_spec (Z.of_nat (length data)) (2 ^ 31)); [|lia]. }
  destruct (PushLimit s1 _) as [limit s2] eqn:Ep.
  destruct (PushLimit_spec _ _ _ _ Ep) as (k & Hb2 & Ha2 & Ht2 & Hd2 & Hk).
  rewrite Hk, Nat2Z.id in Hb2, Ha2 by lia. change (buffer_ s1) with (data ++ r) in Hb2. rewrite take_app_length in Hb2.
  destruct (Hm s2 Hb2 Ht2 Hd2) as (s3 & Em & Hadv & Hb3 & He). rewrite Em. cbn [mbind option_bind].
  unfold ConsumedEntireMessage. rewrite He. eexists. split; [done|].
  rewrite (PopLimit_spec _ _ _ _ _ Ep Hadv), Hb3, Hb2.
  change (buffer_ s1) with (data ++ r). rewrite drop_app_length. cbn [app].
  destruct Hadv as (_ & _ & _ & Hd3).
  rewrite (Decrement_depth s); [|lia|cbn; rewrite Hd3, Hd2; done].
  split; [|done]. eapply reads_advances_trans; [exact Hr0|]. split; [by exists data|done].
Qed.
End Embedded.

(** ** The loop *)
#[export] Instance point_eq_dec : EqDecision point.
Proof. solve_decision. Defined.

(** Room for [levels] nested messages, and for the bytes. *)
Definition stream_ok (levels : Z) (s : CodedInputStream) : Prop :=
  0 <= recursion_depth_ s /\ recursion_depth_ s + levels <= kDefaultRecursionLimit /\
  total_bytes_read_ s < kDefaultTotalBytesLimit.

Lemma advances_ok levels s s' : advances s s' -> stream_ok levels s -> stream_ok levels s'.
Proof. intros (_ & _ & Ht & Hd). unfold stream_ok. by rewrite Ht, Hd. Qed.

Section LoopFacts.
Context `{CodedLibLaws} {M : Type}.
Context (cases : Z -> option Z) (label : Z -> M -> CodedInputStream -> option (point * M * CodedInputStream)).
Context (unknown_fields : M -> UnknownFieldSet) (set_unknown_fields : M -> UnknownFieldSet -> M).
Context (Hlabel : forall n m s p m' s', 0 <= recursion_depth_ s -> label n m s = Some (p, m', s') -> reads s s').

Local Abbreviation parse_step' := (parse_step cases label unknown_fields set_unknown_fields).
Local Abbreviation parse' := (parse cases label unknown_fields set_unknown_fields).
Local Abbreviation merge_loop' := (merge_loop cases label unknown_fields set_unknown_fields).

Lemma next_tag_advances m s p m' s' :
  parse_step' NextTag m s = Some (p, m', s') -> advances s s' /\ (p <> Return -> reads s s').
Proof.
  cbn [parse_step]. unfold next_tag. destruct (ReadTag s) as [tag s1] eqn:E.
  destruct (ReadTag_advances _ _ _ E) as [Ha Hr].
  destruct (Z.eqb_spec tag 0) as [->|Hne]; [by intros [= <- <- <-]|].
  assert (Hu : handle_uninterpreted unknown_fields set_unknown_fields tag m s1 = Some (p, m', s') ->
    advances s s' /\ (p <> Return -> reads s s')).
  { unfold handle_uninterpreted. destruct (_ =? _); [by intros [= <- <- <-]|].
    destruct (SkipField s1 tag _) as [[s2 u]|] eqn:Es; [|done]. cbn [mbind option_bind]. intros [= <- <- <-].
    apply SkipField_advances in Es. split; [by eapply advances_trans|]. intros _.
    by eapply reads_advances_trans; [apply Hr|]. }
  destruct (cases _) as [type|]; [|exact Hu]. destruct (_ =? type); [|exact Hu]. intros [= <- <- <-]. auto.
Qed.

Lemma parse_step_advances p m s p' m' s' :
  0 <= recursion_depth_ s -> parse_step' p m s = Some (p', m', s') ->
  advances s s' /\ (p <> Return -> p' <> Return -> reads s s').
Proof.
  intros Hd. destruct p as [|n|].
  - intros [? ?]%next_tag_advances. auto.
  - intros Hr%Hlabel; [|done]. split; [apply Hr|done].
  - intros [= <- <- <-]. split; [apply advances_refl|done].
Qed.

(** The loop ends: each turn reads a byte. *)
Lemma parse_ends fuel p m s :
  0 <= recursion_depth_ s -> (length (buffer_ s) < fuel)%nat -> parse' fuel p m s <> OutOfFuel.
Proof.
  revert p m s. induction fuel as [|fuel IH]; intros p m s Hd Hl; [lia|].
  cbn [parse]. destruct p as [|n|]; [| |done].
  all: destruct (parse_step' _ m s) as [[[p' m'] s']|] eqn:E; [|done].
  all: destruct (parse_step_advances _ _ _ _ _ _ Hd E) as [Ha Hr].
  all: destruct (decide (p' = Return)) as [->|Hne]; [by destruct fuel|].
  all: apply IH; [by destruct Ha as (_ & _ & _ & ->)|]; destruct (Hr ltac:(done) Hne); lia.
Qed.

Lemma parse_more fuel k p m s : parse' fuel p m s <> OutOfFuel -> parse' (fuel + k) p m s = parse' fuel p m s.
Proof.
  revert p m s. induction fuel as [|fuel IH]; intros p m s Hf.
  - destruct p; cbn [parse] in Hf; [done|done|]. by destruct k.
  - cbn [parse Nat.add] in *. destruct p as [|n|]; [| |done].
    all: destruct (parse_step' _ m s) as [[[p' m'] s']|]; [|done]; by apply IH.
Qed.

Lemma parse_advances fuel p m s m' s' :
  0 <= recursion_depth_ s -> parse' fuel p m s = Parsed m' s' -> advances s s'.
Proof.
  revert p m s. induction fuel as [|fuel IH]; intros p m s Hd; cbn [parse].
  - destruct p; [done|done|]. intros [= <- <-]. apply advances_refl.
  - destruct p as [|n|]; [| |intros [= <- <-]; apply advances_refl].
    all: destruct (parse_step' _ m s) as [[[p' m1] s1]|] eqn:E; [|done]; intros Hp.
    all: apply parse_step_advances in E as [Ha _]; [|done]; eapply advances_trans; [exact Ha|].
    all: eapply IH; [|exact Hp]; by destruct Ha as (_ & _ & _ & ->).
Qed.

Lemma merge_loop_advances m s m' s' :
  0 <= recursion_depth_ s -> merge_loop' m s = Some (m', s') -> advances s s'.
Proof.
  intros Hd. unfold merge_loop. destruct (parse' _ _ m s) as [| |m1 s1] eqn:E; try done.
  intros [= <- <-]. by eapply parse_advances.
Qed.

(** What the code at the labels keeps, the loop keeps. *)
Lemma merge_loop_inv (P : M -> Prop) m s m' s' :
  (forall n m s p m' s', 0 <= recursion_depth_ s -> P m -> wf_bytes (buffer_ s) -> label n m s = Some (p, m', s') -> P m') ->
  (forall m u, P m -> P (set_unknown_fields m u)) ->
  0 <= recursion_depth_ s -> wf_bytes (buffer_ s) -> P m -> merge_loop' m s = Some (m', s') -> P m'.
Proof.
  intros HPl HPu Hd Hw HP. unfold merge_loop. generalize (S (length (buffer_ s))) as fuel. intros fuel.
  destruct (parse' fuel NextTag m s) as [| |m1 s1] eqn:E; try done. intros [= <- <-].
  revert E. generalize NextTag as p. revert m s Hd Hw HP.
  induction fuel as [|fuel IH]; intros m s Hd Hw HP p; cbn [parse].
  - destruct p; [done|done|]. by intros [= <- <-].
  - destruct p as [|n|]; [| |by intros [= <- <-]].
    all: destruct (parse_step' _ m s) as [[[p' m2] s2]|] eqn:E; [|done]; intros Hp.
    all: destruct (parse_step_advances _ _ _ _ _ _ Hd E) as [Ha _].
    all: refine (IH m2 s2 _ (advances_wf _ _ Ha Hw) _ p' Hp); [by destruct Ha as (_ & _ & _ & ->)|].
    + cbn [parse_step] in E. unfold next_tag in E. destruct (ReadTag s) as [tag s3].
      destruct (tag =? 0); [by injection E as <- <- <-|].
      assert (Hu : handle_uninterpreted unknown_fields set_unknown_fields tag m s3 = Some (p', m2, s2) -> P m2).
      { unfold handle_uninterpreted. destruct (_ =? _); [by intros [= <- <- <-]|].
        destruct (SkipField s3 tag _) as [[s4 u]|]; [|done]. cbn [mbind option_bind]. intros [= <- <- <-]. by apply HPu. }
      destruct (cases _) as [type|]; [|by apply Hu]. destruct (_ =? type); [by injection E as <- <- <-|by apply Hu].
    + by eapply HPl.
Qed.

(** From one point of the loop to another. *)
Definition reaches (p : point) (m : M) (s : CodedInputStream) (p' : point) (m' : M) (s' : CodedInputStream) : Prop :=
  exists n, forall k, parse' (n + k) p m s = parse' k p' m' s'.

Lemma reaches_refl p m s : reaches p m s p m s.
Proof. by exists 0%nat. Qed.

Lemma reaches_trans p1 m1 s1 p2 m2 s2 p3 m3 s3 :
  reaches p1 m1 s1 p2 m2 s2 -> reaches p2 m2 s2 p3 m3 s3 -> reaches p1 m1 s1 p3 m3 s3.
Proof.
  intros [n1 H1'] [n2 H2']. exists (n1 + n2)%nat. intros k. by rewrite <- Nat.add_assoc, H1', H2'.
Qed.

Lemma reaches_step p m s p' m' s' : p <> Return -> parse_step' p m s = Some (p', m', s') -> reaches p m s p' m' s'.
Proof. intros Hp E. exists 1%nat. intros k. cbn [Nat.add parse]. by destruct p; rewrite ?E. Qed.

(** The bytes [b] are ahead of the parser, the tag a jump has taken included. *)
Definition at_bytes (b : bytes) (p : point) (s : CodedInputStream) : Prop :=
  match p with
  | NextTag => buffer_ s = b
  | Label n => exists type, cases n = Some type /\ small_field n /\ 0 <= type < 8 /\ b = MakeTag n type :: buffer_ s
  | Return => b = [] /\ buffer_ s = [] /\ legitimate_message_end_ s = true
  end.

(** Parsing the bytes [b], with messages nested up to [levels] deep, changes
    the message by [f], whatever follows. *)
Definition consumes (levels : Z) (b : bytes) (f : M -> M) : Prop :=
  forall r p m s, stream_ok levels s -> at_bytes (b ++ r) p s ->
    exists p' s', reaches p m s p' (f m) s' /\ at_bytes r p' s' /\ advances s s'.

Lemma consumes_nil levels : consumes levels [] (fun m => m).
Proof. intros r p m s _ Hb. exists p, s. split; [apply reaches_refl|]. split; [done|apply advances_refl]. Qed.

Lemma consumes_app levels b c f g :
  consumes levels b f -> consumes levels c g -> consumes levels (b ++ c) (fun m => g (f m)).
Proof.
  intros Hf Hg r p m s Hd Hb. rewrite <- app_assoc in Hb. destruct (Hf _ _ m _ Hd Hb) as (p1 & s1 & R1 & B1 & A1).
  pose proof (advances_ok _ _ _ A1 Hd) as Hd1.
  destruct (Hg _ _ (f m) _ Hd1 B1) as (p2 & s2 & R2 & B2 & A2). exists p2, s2.
  split; [by eapply reaches_trans|]. split; [done|by eapply advances_trans].
Qed.

Lemma consumes_if levels (has : bool) b f :
  (has = true -> consumes levels b f) -> consumes levels (if has then b else []) (fun m => if has then f m else m).
Proof. destruct has; [auto|]. intros _. apply consumes_nil. Qed.

Lemma consumes_list levels {A} (w : A -> bytes) (f : A -> M -> M) l :
  (forall x, x ∈ l -> consumes levels (w x) (f x)) -> consumes levels (concat (map w l)) (fun m => fold_left (fun m x => f x m) l m).
Proof.
  induction l as [|x l IH]; intros Hl; [apply consumes_nil|]. cbn [map concat fold_left].
  refine (consumes_app _ _ _ (f x) _ _ _); [by apply Hl; left|]. apply IH. intros y Hy. apply Hl. by right.
Qed.

Lemma arrive n type b p m s :
  cases n = Some type -> small_field n -> 0 <= type < 8 -> at_bytes (MakeTag n type :: b) p s ->
  exists s', reaches p m s (Label n) m s' /\ buffer_ s' = b /\ advances s s'.
Proof.
  intros Hc Hn Ht Hb. pose proof (MakeTag_range n type Hn Ht) as Hr.
  destruct p as [|n'|]; cbn [at_bytes] in Hb; [| |by destruct Hb].
  - destruct (ReadTag_small s _ b Hr Hb) as (s' & E & Hb' & Hrd & _). exists s'. split; [|split; [done|apply Hrd]].
    apply reaches_step; [done|]. cbn [parse_step]. unfold next_tag. rewrite E.
    destruct (Z.eqb_spec (MakeTag n type) 0); [lia|].
    rewrite GetTagFieldNumber_MakeTag, GetTagWireType_MakeTag, Hc by done. by rewrite Z.eqb_refl.
  - destruct Hb as (type' & Hc' & Hn' & Ht' & [= E ->]). exists s. split; [|split; [done|apply advances_refl]].
    assert (n' = n) as ->; [|apply reaches_refl].
    rewrite !MakeTag_small in E by done. lia.
Qed.

Definition tags_ok (tags : list (Z * Z)) : Prop :=
  Forall (fun t : Z * Z => exists type, cases t.2 = Some type /\ small_field t.2 /\ 0 <= type < 8 /\
            t.1 = MakeTag t.2 type) tags.

Lemma expect_spec tags at_end s p s' :
  tags_ok tags -> expect tags at_end s = (p, s') -> at_bytes (buffer_ s) p s' /\ advances s s'.
Proof.
  intros Ht. induction Ht as [|[tag l] tags (type & Hc & Hl & Hty & Heq) _ IH]; cbn [expect].
  - destruct at_end; [|intros [= <- <-]; split; [done|apply advances_refl]].
    destruct (ExpectAtEnd s) as [b s1] eqn:E. destruct (ExpectAtEnd_spec _ _ _ E) as [Ha Hb]. intros [= <- <-].
    split; [|done]. destruct b; [|by subst]. cbn [at_bytes]. tauto.
  - cbn [fst snd] in *. destruct (ExpectTag s tag) as [b s1] eqn:E.
    pose proof (MakeTag_range l type Hl Hty) as Hr.
    assert (Ht' : 0 <= tag < 128) by (rewrite Heq; lia). pose proof (ExpectTag_spec _ _ _ _ Ht' E) as Hb. destruct b.
    + intros [= <- <-]. destruct Hb as [Hb Ha]. split; [|apply Ha]. cbn [at_bytes]. exists type. by rewrite Hb, Heq.
    + by subst s1.
Qed.

(** One field: its tag, then bytes that the code at its label reads. *)
Lemma consumes_field levels n type payload f tags at_end :
  cases n = Some type -> small_field n -> 0 <= type < 8 -> tags_ok tags ->
  (forall r m s, stream_ok levels s -> buffer_ s = payload ++ r ->
     exists s', label n m s = after_field tags at_end (f m) s' /\ buffer_ s' = r /\ advances s s') ->
  consumes levels (WriteTagToArray n type ++ payload) f.
Proof.
  intros Hc Hn Ht Htags Hl r p m s Hd Hb. pose proof (MakeTag_range n type Hn Ht) as Hr.
  unfold WriteTagToArray, WriteTagToArray_value in Hb. change (Z.shiftl 1 7) with 128 in Hb.
  destruct (Z.ltb_spec (MakeTag n type) 128); [|lia]. rewrite u8_id in Hb by lia. cbn [app] in Hb.
  destruct (arrive n type _ p m s Hc Hn Ht Hb) as (s1 & R1 & B1 & A1).
  pose proof (advances_ok _ _ _ A1 Hd) as Hd1.
  destruct (Hl r m s1 Hd1 B1) as (s2 & E & B2 & A2). unfold after_field in E.
  destruct (expect tags at_end s2) as [p' s3] eqn:Ee. destruct (expect_spec _ _ _ _ _ Htags Ee) as [B3 A3].
  exists p', s3. split; [|split; [by rewrite <- B2|by eapply advances_trans; [|eapply advances_trans]]].
  eapply reaches_trans; [exact R1|]. by apply reaches_step.
Qed.

(** A message whose bytes fill the readable part of the stream. *)
Lemma wire_loop_spec levels b f m s :
  consumes levels b f -> stream_ok levels s -> buffer_ s = b ->
  exists s', merge_loop' m s = Some (f m, s') /\ advances s s' /\ buffer_ s' = [] /\ legitimate_message_end_ s' = true.
Proof.
  intros Hc Hd Hb. destruct (Hc [] NextTag m s Hd) as (p1 & s1 & R1 & B1 & A1); [by cbn; rewrite app_nil_r|].
  assert (Hend : exists s2, reaches p1 (f m) s1 Return (f m) s2 /\ advances s1 s2 /\ buffer_ s2 = [] /\
    legitimate_message_end_ s2 = true).
  { destruct p1 as [|n|]; cbn [at_bytes] in B1; [|by destruct B1 as (? & _ & _ & _ & ?)|].
    - eexists. split; [apply reaches_step; [done|]|].
      + cbn [parse_step]. unfold next_tag. rewrite ReadTag_end by (done || apply (advances_ok _ _ _ A1 Hd)).
        done.
      + cbn. split; [|by split]. split; [by exists []; cbn; rewrite B1|done].
    - exists s1. split; [apply reaches_refl|]. split; [apply advances_refl|tauto]. }
  destruct Hend as (s2 & R2 & A2 & B2 & L2). exists s2. split; [|split; [by eapply advances_trans|done]].
  destruct (reaches_trans _ _ _ _ _ _ _ _ _ R1 R2) as [n Hn]. unfold merge_loop.
  pose proof (parse_ends (S (length (buffer_ s))) NextTag m s (proj1 Hd) ltac:(lia)) as Hf.
  pose proof (parse_more _ n _ _ _ Hf) as Hm. rewrite Nat.add_comm, Hn in Hm.
  by rewrite <- Hm.
Qed.
End LoopFacts.

(** ** The kinds of fields *)
Section Kinds.
Context `{CodedLibLaws}.

Lemma WriteVarint32ToArray_varint v : is_u32 v -> WriteVarint32ToArray v = varint 4 v.
Proof.
  intros Hv. unfold WriteVarint32ToArray. destruct (Z.ltb_spec v 128).
  - rewrite varint_small; [done|]. unfold is_u32 in Hv. lia.
  - by apply WriteVarint32FallbackToArray_spec.
Qed.

Lemma VarintSize32_varint v : is_u32 v -> VarintSize32 v = Z.of_nat (length (varint 4 v)).
Proof.
  intros Hv. unfold VarintSize32. change (Z.shiftl 1 7) with 128. destruct (Z.ltb_spec v 128).
  - rewrite varint_small; [done|]. unfold is_u32 in Hv. lia.
  - by apply VarintSize32Fallback_spec.
Qed.

Lemma set_varint_reads s n v r : buffer_ s = varint n v ++ r -> reads s (set_buffer s r).
Proof.
  intros Hb. apply (set_buffer_reads s _ _ Hb). pose proof (length_varint n v). destruct (varint n v); [cbn in *; lia|done].
Qed.

Lemma length_tag n type : small_field n -> 0 <= type < 8 -> length (WriteTagToArray n type) = 1%nat.
Proof.
  intros Hn Ht. pose proof (MakeTag_range n type Hn Ht). unfold WriteTagToArray, WriteTagToArray_value.
  change (Z.shiftl 1 7) with 128. by destruct (Z.ltb_spec (MakeTag n type) 128); [|lia].
Qed.

(** The sizes the messages add up are the lengths of what they write. *)
Lemma length_UInt32 n v : small_field n -> is_u32 v -> Z.of_nat (length (WriteUInt32ToArray n v)) = 1 + UInt32Size v.
Proof.
  intros Hn Hv. unfold WriteUInt32ToArray, UInt32Size. rewrite length_app, length_tag by (done || unfold WIRETYPE_VARINT; lia).
  rewrite WriteVarint32ToArray_varint, VarintSize32_varint by done. lia.
Qed.

Lemma length_UInt64 n v : small_field n -> is_u64 v -> Z.of_nat (length (WriteUInt64ToArray n v)) = 1 + UInt64Size v.
Proof.
  intros Hn Hv. unfold WriteUInt64ToArray, UInt64Size. rewrite length_app, length_tag by (done || unfold WIRETYPE_VARINT; lia).
  rewrite WriteVarint64ToArray_spec, VarintSize64_spec by done. lia.
Qed.

Lemma length_Enum n v : small_field n -> 0 <= v < 2 ^ 31 -> Z.of_nat (length (WriteEnumToArray n v)) = 1 + EnumSize v.
Proof.
  intros Hn Hv. assert (Hu : is_u32 v) by (unfold is_u32; lia).
  unfold WriteEnumToArray, EnumSize, WriteVarint32SignExtendedToArray, VarintSize32SignExtended.
  destruct (Z.ltb_spec v 0); [lia|]. rewrite length_app, length_tag by (done || unfold WIRETYPE_VARINT; lia).
  rewrite u32_id, WriteVarint32ToArray_varint, VarintSize32_varint by done. lia.
Qed.

Lemma length_Bytes n b :
  small_field n -> Z.of_nat (length b) < 2 ^ 31 -> Z.of_nat (length (WriteBytesToArray n b)) = 1 + BytesSize b.
Proof.
  intros Hn Hl. assert (Hu : is_u32 (Z.of_nat (length b))) by (unfold is_u32; lia).
  unfold WriteBytesToArray, BytesSize.
  rewrite u32_id, !length_app, length_tag, WriteRawToArray_spec by (done || unfold WIRETYPE_LENGTH_DELIMITED; lia).
  rewrite WriteVarint32ToArray_varint, VarintSize32_varint by done. lia.
Qed.

(** A message whose cached size is right. *)
Lemma length_Message {M} `{MessageLite M} n (m : M) :
  small_field n -> GetCachedSize m = Z.of_nat (length (SerializeWithCachedSizesToArray m)) -> GetCachedSize m < 2 ^ 31 ->
  Z.of_nat (length (WriteMessageNoVirtualToArray n m)) = 1 + (VarintSize32 (u32 (GetCachedSize m)) + GetCachedSize m).
Proof.
  intros Hn Hg Hl. assert (Hu : is_u32 (GetCachedSize m)) by (unfold is_u32; lia).
  unfold WriteMessageNoVirtualToArray. rewrite u32_id by done.
  rewrite !length_app, length_tag by (done || unfold WIRETYPE_LENGTH_DELIMITED; lia).
  rewrite WriteVarint32ToArray_varint, VarintSize32_varint by done. lia.
Qed.

Context {M : Type}.
Context (cases : Z -> option Z) (label : Z -> M -> CodedInputStream -> option (point * M * CodedInputStream)).
Context (unknown_fields : M -> UnknownFieldSet) (set_unknown_fields : M -> UnknownFieldSet -> M).
Context (levels n : Z) (tags : list (Z * Z)) (at_end : bool) (Hn : small_field n) (Htags : tags_ok cases tags).

Local Abbreviation consumes' := (consumes cases label unknown_fields set_unknown_fields levels).

Lemma consumes_UInt32 v (set : M -> Z -> M) :
  cases n = Some WIRETYPE_VARINT -> is_u32 v ->
  (forall m s, label n m s = '(v, s) ← ReadPrimitive_UINT32 s; after_field tags at_end (set m v) s) ->
  consumes' (WriteUInt32ToArray n v) (fun m => set m v).
Proof.
  intros Hc Hv Hl. refine (consumes_field _ _ _ _ levels n WIRETYPE_VARINT _ _ tags at_end Hc Hn _ Htags _).
  { unfold WIRETYPE_VARINT. lia. }
  intros r m s _ Hb. rewrite WriteVarint32ToArray_varint in Hb by done. exists (set_buffer s r).
  rewrite Hl. unfold ReadPrimitive_UINT32. rewrite (ReadVarint32_varint _ _ _ Hv Hb).
  split; [done|]. split; [done|]. apply reads_advances. by eapply set_varint_reads.
Qed.

Lemma consumes_UInt64 v (set : M -> Z -> M) :
  cases n = Some WIRETYPE_VARINT -> is_u64 v ->
  (forall m s, label n m s = '(v, s) ← ReadPrimitive_UINT64 s; after_field tags at_end (set m v) s) ->
  consumes' (WriteUInt64ToArray n v) (fun m => set m v).
Proof.
  intros Hc Hv Hl. refine (consumes_field _ _ _ _ levels n WIRETYPE_VARINT _ _ tags at_end Hc Hn _ Htags _).
  { unfold WIRETYPE_VARINT. lia. }
  intros r m s _ Hb. rewrite WriteVarint64ToArray_spec in Hb by done. exists (set_buffer s r).
  rewrite Hl. unfold ReadPrimitive_UINT64. rewrite (ReadVarint64_varint _ _ _ Hv Hb).
  split; [done|]. split; [done|]. apply reads_advances. by eapply set_varint_reads.
Qed.

Lemma consumes_Enum v (set : M -> M) :
  cases n = Some WIRETYPE_VARINT -> 0 <= v < 2 ^ 31 ->
  (forall m s s', ReadPrimitive_ENUM s = Some (v, s') -> label n m s = after_field tags at_end (set m) s') ->
  consumes' (WriteEnumToArray n v) set.
Proof.
  intros Hc Hv Hl. refine (consumes_field _ _ _ _ levels n WIRETYPE_VARINT _ _ tags at_end Hc Hn _ Htags _).
  { unfold WIRETYPE_VARINT. lia. }
  assert (Hu : is_u32 v) by (unfold is_u32; lia).
  intros r m s _ Hb. unfold WriteVarint32SignExtendedToArray in Hb. destruct (Z.ltb_spec v 0); [lia|].
  rewrite u32_id, WriteVarint32ToArray_varint in Hb by done. exists (set_buffer s r). split; [|split; [done|]].
  - apply Hl. unfold ReadPrimitive_ENUM. rewrite (ReadVarint32_varint _ _ _ Hu Hb). cbn [mbind option_bind].
    unfold s32. by destruct (Z.ltb_spec v (2 ^ 31)); [|lia].
  - apply reads_advances. by eapply set_varint_reads.
Qed.

Lemma consumes_Bytes b (set : M -> bytes -> M) :
  cases n = Some WIRETYPE_LENGTH_DELIMITED -> Z.of_nat (length b) < 2 ^ 31 ->
  (forall m s, label n m s = '(v, s) ← ReadBytes s; after_field tags at_end (set m v) s) ->
  consumes' (WriteBytesToArray n b) (fun m => set m b).
Proof.
  intros Hc Hb Hl. refine (consumes_field _ _ _ _ levels n WIRETYPE_LENGTH_DELIMITED _ _ tags at_end Hc Hn _ Htags _).
  { unfold WIRETYPE_LENGTH_DELIMITED. lia. }
  assert (Hu : is_u32 (Z.of_nat (length b))) by (unfold is_u32; lia).
  intros r m s _ E. rewrite u32_id, WriteVarint32ToArray_varint, WriteRawToArray_spec, <- app_assoc in E by done.
  exists (set_buffer s r). rewrite Hl, (ReadBytes_spec _ _ _ Hb E). split; [done|]. split; [done|].
  apply reads_advances. rewrite app_assoc in E. apply (set_buffer_reads s _ _ E).
  pose proof (length_varint 4 (Z.of_nat (length b))). destruct (varint 4 _); [cbn in *; lia|done].
Qed.

(** An embedded message that parses into [v]. *)
Lemma consumes_Message {N} (ml : MessageLite N) (x v : N) (set : M -> N -> M) :
  cases n = Some WIRETYPE_LENGTH_DELIMITED ->
  GetCachedSize x = Z.of_nat (length (SerializeWithCachedSizesToArray x)) -> GetCachedSize x < 2 ^ 31 ->
  1 <= levels ->
  (forall s, buffer_ s = SerializeWithCachedSizesToArray x -> stream_ok (levels - 1) s ->
     exists s', MergePartialFromCodedStream New s = Some (v, s') /\ advances s s' /\ buffer_ s' = [] /\
       legitimate_message_end_ s' = true) ->
  (forall m s, label n m s = '(v, s) ← ReadMessageNoVirtual s New; after_field tags at_end (set m v) s) ->
  consumes' (WriteMessageNoVirtualToArray n x) (fun m => set m v).
Proof.
  intros Hc Hg Hs Hlv Hm Hl. refine (consumes_field _ _ _ _ levels n WIRETYPE_LENGTH_DELIMITED _ _ tags at_end Hc Hn _ Htags _).
  { unfold WIRETYPE_LENGTH_DELIMITED. lia. }
  assert (Hu : is_u32 (GetCachedSize x)) by (unfold is_u32; lia).
  intros r m s Hd E. rewrite u32_id, WriteVarint32ToArray_varint, <- app_assoc, Hg in E by done.
  destruct Hd as (Hd & Hd' & Ht). destruct (ReadMessage_spec s New v (SerializeWithCachedSizesToArray x) r) as (s' & Er & Hr & Hb).
  - lia.
  - lia.
  - exact E.
  - intros s1 Hb Ht1 Hd1. apply Hm; [done|]. unfold stream_ok. lia.
  - exists s'. rewrite Hl, Er. split; [done|]. split; [done|by apply reads_advances].
Qed.
End Kinds.

(** ** Presence bits *)
Definition has_bit (bits mask : Z) : bool := negb (Z.land bits mask =? 0).

Lemma has_bit_lor_other h a b : Z.land a b = 0 -> has_bit (Z.lor h a) b = has_bit h b.
Proof. intros E. unfold has_bit. by rewrite Z.land_lor_distr_l, E, Z.lor_0_r. Qed.

Lemma has_bit_lor_same h b : 0 < b -> has_bit (Z.lor h b) b = true.
Proof.
  intros Hb. unfold has_bit. rewrite Z.land_lor_distr_l, Z.land_diag.
  destruct (Z.eqb_spec (Z.lor (Z.land h b) b) 0) as [E|]; [|done]. apply Z.lor_eq_0_iff in E. lia.
Qed.

Lemma lor_range h a n : 0 <= h < 2 ^ n -> 0 <= a < 2 ^ n -> 0 <= n -> 0 <= Z.lor h a < 2 ^ n.
Proof.
  intros Hh Ha Hn. split; [apply Z.lor_nonneg; lia|].
  assert (Z.lor h a = Z.lor h a mod 2 ^ n) as ->; [|apply Z.mod_pos_bound; lia].
  rewrite <- Z.land_ones, Z.land_lor_distr_l, !Z.land_ones, !Z.mod_small by lia. done.
Qed.

(** The test the generated code makes before it looks at single bits. *)
Lemma no_bits h mask b : has_bit h mask = false -> Z.land mask b = b -> has_bit h b = false.
Proof.
  unfold has_bit. intros E Hb. apply negb_false_iff, Z.eqb_eq in E. apply negb_false_iff, Z.eqb_eq.
  by rewrite <- Hb, Z.land_assoc, E, Z.land_0_l.
Qed.

(** Every mask at hand is a constant. *)
Ltac bits :=
  repeat match goal with
  | |- context [has_bit (Z.lor ?h ?a) ?b] =>
      first [rewrite (has_bit_lor_other h a b) by reflexivity | rewrite (has_bit_lor_same h b) by reflexivity]
  | |- context [has_bit 0 ?b] => change (has_bit 0 b) with false
  end.

(** What a jump reads, and what the code at a label does. *)
Lemma ExpectTag_advances s tag b s' : ExpectTag s tag = (b, s') -> advances s s'.
Proof.
  assert (Hd : forall k, advances s (Advance s k)).
  { intros k. split; [|done]. exists (take k (buffer_ s)). cbn. by rewrite take_drop. }
  unfold ExpectTag. repeat case_match; intros [= <- <-]; apply Hd || apply advances_refl.
Qed.

Lemma expect_advances tags at_end s p s' : expect tags at_end s = (p, s') -> advances s s'.
Proof.
  revert s. induction tags as [|[tag l] tags IH]; intros s; cbn [expect].
  - destruct at_end; [|intros [= <- <-]; apply advances_refl]. destruct (ExpectAtEnd s) as [b s1] eqn:E.
    intros [= <- <-]. apply (ExpectAtEnd_spec _ _ _ E).
  - destruct (ExpectTag s tag) as [b s1] eqn:E. apply ExpectTag_advances in E.
    destruct b; [by intros [= <- <-]|]. intros Hx%IH. by eapply advances_trans.
Qed.

Lemma field_inv {A M} (r : option (A * CodedInputStream)) (f : A -> M) tags at_end p m s' :
  ('(v, s) ← r; after_field tags at_end (f v) s) = Some (p, m, s') ->
  exists v s, r = Some (v, s) /\ m = f v /\ advances s s'.
Proof.
  destruct r as [[v s]|]; [|done]. cbn [mbind option_bind]. unfold after_field.
  destruct (expect tags at_end s) as [p1 s1] eqn:E. intros [= <- <- <-]. exists v, s.
  split_and!; [done..|]. by apply expect_advances in E.
Qed.

Lemma consumes_ext `{CodedLib} {M} cases label uf suf levels b (f g : M -> M) :
  (forall m, f m = g m) -> consumes cases label uf suf levels b f -> consumes cases label uf suf levels b g.
Proof.
  intros He Hf r p m s Hs Hb. destruct (Hf r p m s Hs Hb) as (p' & s' & ?). exists p', s'. by rewrite <- He.
Qed.
