(* ===== verification/PlainWire.v ===== *)
(** A small protobuf library that behaves as documented: a concrete [CodedLib]
    that satisfies [CodedLibLaws], for the examples.  It skips unknown varints
    and byte strings and rejects other unknown fields. *)
From S2P Require Import Prelude Coding Wire.

(** ** Varints *)
Fixpoint plain_varint (n : nat) (b : bytes) : option (Z * bytes) :=
  match b with
  | [] => None
  | x :: r =>
      if x <? 128 then Some (x, r)
      else match n with
           | O => None
           | S n => '(v, r) ← plain_varint n r; Some (x - 128 + 128 * v, r)
           end
  end.

Lemma plain_varint_spec n v r :
  0 <= v < 128 ^ Z.of_nat (S n) -> plain_varint n (varint n v ++ r) = Some (v, r).
Proof.
  revert v. induction n as [|n IH]; intros v Hv.
  - change (128 ^ Z.of_nat 1) with 128 in Hv. cbn. by destruct (Z.ltb_spec v 128); [|lia].
  - rewrite Nat2Z.inj_succ, Z.pow_succ_r in Hv by lia. cbn [varint].
    destruct (Z.ltb_spec v 128) as [L|L]; cbn [app plain_varint]; [by destruct (Z.ltb_spec v 128); [|lia]|].
    pose proof (Z.mod_pos_bound v 128 ltac:(lia)). destruct (Z.ltb_spec (v mod 128 + 128) 128); [lia|].
    rewrite IH by (split; [apply Z.div_pos; lia|apply Z.div_lt_upper_bound; lia]). cbn [mbind option_bind].
    do 2 f_equal. pose proof (Z.div_mod v 128 ltac:(lia)). lia.
Qed.

Lemma plain_varint_prefix n b v r : plain_varint n b = Some (v, r) -> exists p, b = p ++ r /\ p <> [].
Proof.
  revert b v. induction n as [|n IH]; intros [|x b] v; cbn [plain_varint]; try done;
    destruct (x <? 128); try done; try (intros [= <- <-]; by exists [x]).
  destruct (plain_varint n b) as [[v' r']|] eqn:E; [|done]. cbn [mbind option_bind]. intros [= <- <-].
  destruct (IH _ _ E) as (p & -> & _). by exists (x :: p).
Qed.

Lemma plain_varint_reads n s v r : plain_varint n (buffer_ s) = Some (v, r) -> reads s (set_buffer s r).
Proof. intros (p & E & Hp)%plain_varint_prefix. by eapply set_buffer_reads. Qed.

(** ** The functions *)
Definition plain_read (n : nat) (wrap : Z -> Z) (s : CodedInputStream) : option (Z * CodedInputStream) :=
  '(v, r) ← plain_varint n (buffer_ s); Some (wrap v, set_buffer s r).

Definition plain_read_tag (s : CodedInputStream) : Z * CodedInputStream :=
  match buffer_ s with
  | [] => (0, if total_bytes_read_ s <? kDefaultTotalBytesLimit then set_message_end s else s)
  | _ => default (0, s) (plain_read 4 u32 s)
  end.

Definition plain_read_bytes (s : CodedInputStream) : option (bytes * CodedInputStream) :=
  '(v, r) ← plain_varint 4 (buffer_ s);
  let n := Z.to_nat v in
  if bool_decide (n <= length r)%nat then Some (take n r, set_buffer s (drop n r)) else None.

Definition plain_push (s : CodedInputStream) (n : Z) : Z * CodedInputStream :=
  let k := if n <? 0 then length (buffer_ s) else Z.to_nat n in
  (Z.of_nat (length (drop k (buffer_ s))),
   mkStream (take k (buffer_ s)) (drop k (buffer_ s) ++ after_limit_ s) (total_bytes_read_ s) (last_tag_ s)
     (legitimate_message_end_ s) (recursion_depth_ s)).

Definition plain_pop (s : CodedInputStream) (limit : Z) : CodedInputStream :=
  mkStream (buffer_ s ++ take (Z.to_nat limit) (after_limit_ s)) (drop (Z.to_nat limit) (after_limit_ s))
    (total_bytes_read_ s) (last_tag_ s) false (recursion_depth_ s).

Definition plain_skip (s : CodedInputStream) (tag : Z) (u : UnknownFieldSet) :
    option (CodedInputStream * UnknownFieldSet) :=
  if GetTagWireType tag =? WIRETYPE_VARINT then
    '(v, s) ← plain_read 9 u64 s; Some (s, u ++ [TYPE_VARINT (GetTagFieldNumber tag) v])
  else if GetTagWireType tag =? WIRETYPE_LENGTH_DELIMITED then
    '(b, s) ← plain_read_bytes s; Some (s, u ++ [TYPE_LENGTH_DELIMITED (GetTagFieldNumber tag) b])
  else None.

Definition plain_unknown (f : UnknownField) : bytes :=
  match f with
  | TYPE_VARINT n v => varint 4 (MakeTag n WIRETYPE_VARINT) ++ varint 9 v
  | TYPE_LENGTH_DELIMITED n b =>
      varint 4 (MakeTag n WIRETYPE_LENGTH_DELIMITED) ++ varint 4 (u32 (Z.of_nat (length b))) ++ b
  | _ => []
  end.

Definition plain_unknowns (u : UnknownFieldSet) : bytes := concat (map plain_unknown u).

Definition plain_parse {M} (ml : MessageLite M) (data : bytes) (m : M) : option M :=
  '(m, s) ← MergePartialFromCodedStream (Clear m) (array_stream data);
  if IsInitialized m && ConsumedEntireMessage s then Some m else None.

Definition plain_serialize {M} (ml : MessageLite M) (m : M) : option bytes :=
  if IsInitialized m && (fst (ByteSize m) <? 2 ^ 31) then Some (SerializeWithCachedSizesToArray (snd (ByteSize m)))
  else None.

(** The library without the functions that write to a stream, which are made
    from it. *)
Definition plain_base : CodedLib := {|
  ReadVarint32Fallback := plain_read 4 u32;
  ReadVarint64Fallback := plain_read 9 u64;
  ReadTagFallback := plain_read_tag;
  ReadBytes := plain_read_bytes;
  PushLimit := plain_push;
  PopLimit := plain_pop;
  SkipField := plain_skip;
  WriteVarint32FallbackToArray := varint 4;
  WriteVarint64ToArray := varint 9;
  WriteRawToArray b := b;
  VarintSize32Fallback v := Z.of_nat (length (varint 4 v));
  VarintSize64 v := Z.of_nat (length (varint 9 v));
  WriteUInt32 _ _ out := out;
  WriteUInt64 _ _ out := out;
  WriteEnum _ _ out := out;
  WriteBytes _ _ out := out;
  WriteMessageMaybeToArray M ml _ _ out := out;
  AddVarint u n v := u ++ [TYPE_VARINT n v];
  UnknownFieldSet_MergeFrom u v := u ++ v;
  SerializeUnknownFields u out := out ++ plain_unknowns u;
  SerializeUnknownFieldsToArray := plain_unknowns;
  ComputeUnknownFieldsSize u := Z.of_nat (length (plain_unknowns u));
  ParseFromArray M := plain_parse;
  ParseFromString M := plain_parse;
  SerializeToString M := plain_serialize |}.

Definition plain_lib : CodedLib := {|
  ReadVarint32Fallback := plain_read 4 u32;
  ReadVarint64Fallback := plain_read 9 u64;
  ReadTagFallback := plain_read_tag;
  ReadBytes := plain_read_bytes;
  PushLimit := plain_push;
  PopLimit := plain_pop;
  SkipField := plain_skip;
  WriteVarint32FallbackToArray := varint 4;
  WriteVarint64ToArray := varint 9;
  WriteRawToArray b := b;
  VarintSize32Fallback v := Z.of_nat (length (varint 4 v));
  VarintSize64 v := Z.of_nat (length (varint 9 v));
  WriteUInt32 n v out := out ++ @WriteUInt32ToArray plain_base n v;
  WriteUInt64 n v out := out ++ @WriteUInt64ToArray plain_base n v;
  WriteEnum n v out := out ++ @WriteEnumToArray plain_base n v;
  WriteBytes n v out := out ++ @WriteBytesToArray plain_base n v;
  WriteMessageMaybeToArray M ml n m out := out ++ @WriteMessageNoVirtualToArray plain_base M ml n m;
  AddVarint u n v := u ++ [TYPE_VARINT n v];
  UnknownFieldSet_MergeFrom u v := u ++ v;
  SerializeUnknownFields u out := out ++ plain_unknowns u;
  SerializeUnknownFieldsToArray := plain_unknowns;
  ComputeUnknownFieldsSize u := Z.of_nat (length (plain_unknowns u));
  ParseFromArray M := plain_parse;
  ParseFromString M := plain_parse;
  SerializeToString M := plain_serialize |}.

(** ** The laws *)
Lemma plain_read_spec n wrap s v r :
  0 <= v < 128 ^ Z.of_nat (S n) -> wrap v = v -> buffer_ s = varint n v ++ r ->
  plain_read n wrap s = Some (v, set_buffer s r).
Proof. intros Hv Hw Hb. unfold plain_read. rewrite Hb, plain_varint_spec by done. cbn. by rewrite Hw. Qed.

Lemma plain_read_reads n wrap s v s' :
  plain_read n wrap s = Some (v, s') -> reads s s' /\ exists w, v = wrap w.
Proof.
  unfold plain_read. destruct (plain_varint n (buffer_ s)) as [[w r]|] eqn:E; [|done]. cbn. intros [= <- <-].
  split; [by eapply plain_varint_reads|by eexists].
Qed.

Lemma plain_read_bytes_reads s b s' : plain_read_bytes s = Some (b, s') -> reads s s' /\ sublist b (buffer_ s).
Proof.
  unfold plain_read_bytes. destruct (plain_varint 4 (buffer_ s)) as [[v r]|] eqn:E; [|done]. cbn [mbind option_bind].
  case_bool_decide; [|done]. intros [= <- <-]. destruct (plain_varint_prefix _ _ _ _ E) as (p & Hb & Hp). split.
  - apply (set_buffer_reads s (p ++ take (Z.to_nat v) r)); [by rewrite <- app_assoc, take_drop|].
    by intros [? ?]%app_nil.
  - rewrite Hb. apply sublist_inserts_l, sublist_take.
Qed.

Lemma plain_push_spec s n limit s' :
  plain_push s n = (limit, s') ->
  exists k, buffer_ s' = take k (buffer_ s) /\ after_limit_ s' = drop k (buffer_ s) ++ after_limit_ s /\
    total_bytes_read_ s' = total_bytes_read_ s /\ recursion_depth_ s' = recursion_depth_ s /\
    (0 <= n -> k = Z.to_nat n).
Proof. intros [= <- <-]. eexists. split_and!; [done..|]. by destruct (Z.ltb_spec n 0); [lia|]. Qed.

Lemma plain_pop_spec s n limit s1 s2 :
  plain_push s n = (limit, s1) -> advances s1 s2 ->
  plain_pop s2 limit = mkStream (buffer_ s2 ++ drop (length (buffer_ s1)) (buffer_ s)) (after_limit_ s)
    (total_bytes_read_ s) (last_tag_ s2) false (recursion_depth_ s2).
Proof.
  intros [= <- <-] (_ & Ha & Ht & _). cbn [after_limit_ total_bytes_read_ buffer_] in *. unfold plain_pop.
  rewrite Ha, Ht, Nat2Z.id, take_app_length, drop_app_length. f_equal. f_equal. rewrite length_take.
  generalize (if n <? 0 then length (buffer_ s) else Z.to_nat n) as k. intros k.
  destruct (decide (k <= length (buffer_ s))%nat); [by rewrite Nat.min_l|].
  rewrite Nat.min_r, drop_all, drop_ge by lia. done.
Qed.

Lemma plain_skip_advances s tag u s' u' : plain_skip s tag u = Some (s', u') -> advances s s'.
Proof.
  unfold plain_skip. destruct (_ =? _); [|destruct (_ =? _); [|done]].
  - destruct (plain_read 9 u64 s) as [[v s1]|] eqn:E; [|done]. cbn. intros [= <- <-].
    by apply plain_read_reads in E as [[? _] _].
  - destruct (plain_read_bytes s) as [[v s1]|] eqn:E; [|done]. cbn. intros [= <- <-].
    by apply plain_read_bytes_reads in E as [[? _] _].
Qed.

Lemma plain_lib_laws : @CodedLibLaws plain_lib.
Proof.
  split; try done; cbn [ReadVarint32Fallback ReadVarint64Fallback ReadTagFallback ReadBytes PushLimit PopLimit SkipField plain_lib].
  - intros s v r Hv Hb. apply plain_read_spec; [|by apply u32_id|done]. unfold is_u32 in Hv.
    change (128 ^ Z.of_nat 5) with (2 ^ 35). lia.
  - intros s v s' [Hr [w ->]]%plain_read_reads. split; [apply u32_range|done].
  - intros s v r Hv Hb. apply plain_read_spec; [|by apply u64_id|done]. unfold is_u64 in Hv.
    change (128 ^ Z.of_nat 10) with (2 ^ 70). lia.
  - intros s v s' [Hr [w ->]]%plain_read_reads. split; [apply u64_range|done].
  - intros s Hb Ht. unfold plain_read_tag. rewrite Hb.
    by destruct (Z.ltb_spec (total_bytes_read_ s) kDefaultTotalBytesLimit); [|lia].
  - intros s tag s'. unfold plain_read_tag. destruct (buffer_ s) eqn:Eb.
    + intros [= <- <-]. split; [|done]. split; [exists []; by destruct (_ <? _)|by destruct (_ <? _)].
    + destruct (plain_read 4 u32 s) as [[v s1]|] eqn:E; cbn.
      * intros [= <- <-]. apply plain_read_reads in E as [Hr _]. by split; [apply Hr|].
      * intros [= <- <-]. split; [apply advances_refl|done].
  - intros s b r Hl Hb. unfold plain_read_bytes. rewrite Hb, plain_varint_spec.
    + cbn [mbind option_bind]. rewrite Nat2Z.id, bool_decide_true by (rewrite length_app; lia).
      by rewrite take_app_length, drop_app_length.
    + change (128 ^ Z.of_nat 5) with (2 ^ 35). lia.
  - apply plain_read_bytes_reads.
  - apply plain_push_spec.
  - apply plain_pop_spec.
  - apply plain_skip_advances.
  - intros M ml m Hi Hs. cbn. unfold plain_serialize. rewrite Hi. by destruct (Z.ltb_spec (fst (ByteSize m)) (2 ^ 31)); [|lia].
Qed.
