(* ===== verification/SearchStore.v ===== *)
(** The generated protobuf messages ([search_store.pb.h], [search_store.pb.cc]):
    one module per message, with its presence bits, its parser, its two
    serializers, its sizes and its merge.

    A message is ok when its values have their widths and the fields it does
    not have hold their defaults.  [int] sizes are not wrapped: a message of
    2 GB or more is outside what the library supports. *)
From S2P Require Import Prelude Coding Wire.

(** Facts about adding up optional parts. *)
Definition opt_size (has : bool) (size : Z) : Z := if has then size else 0.

Definition sum_sizes {A} (f : A -> Z) (l : list A) : Z := fold_left (fun total x => total + f x) l 0.

Lemma fold_sizes {A} (f : A -> Z) l total : fold_left (fun total x => total + f x) l total = total + sum_sizes f l.
Proof.
  unfold sum_sizes. revert total. induction l as [|x l IH]; intros total; cbn [fold_left]; [lia|].
  rewrite IH, (IH (0 + f x)). lia.
Qed.

Lemma sum_sizes_cons {A} (f : A -> Z) x l : sum_sizes f (x :: l) = f x + sum_sizes f l.
Proof. unfold sum_sizes at 1. cbn [fold_left]. rewrite fold_sizes. lia. Qed.

Lemma sum_sizes_nonneg {A} (f : A -> Z) l : (forall x, x ∈ l -> 0 <= f x) -> 0 <= sum_sizes f l.
Proof.
  induction l as [|x l IH]; intros Hf; [done|]. rewrite sum_sizes_cons. pose proof (Hf x ltac:(by left)).
  enough (0 <= sum_sizes f l) by lia. apply IH. intros y Hy. apply Hf. by right.
Qed.

Lemma sum_sizes_elem {A} (f : A -> Z) l x : (forall x, x ∈ l -> 0 <= f x) -> x ∈ l -> f x <= sum_sizes f l.
Proof.
  induction l as [|y l IH]; intros Hf; [by intros ?%elem_of_nil|]. rewrite sum_sizes_cons.
  pose proof (Hf y ltac:(by left)). assert (Hl : forall x, x ∈ l -> 0 <= f x) by (intros z Hz; apply Hf; by right).
  pose proof (sum_sizes_nonneg f l Hl). intros [->|Hx]%elem_of_cons; [lia|]. specialize (IH Hl Hx). lia.
Qed.

Lemma sum_sizes_concat {A} (f : A -> Z) (w : A -> bytes) l :
  (forall x, x ∈ l -> Z.of_nat (length (w x)) = f x) -> Z.of_nat (length (concat (map w l))) = sum_sizes f l.
Proof.
  induction l as [|x l IH]; intros Hl; [done|]. rewrite sum_sizes_cons. cbn [map concat]. rewrite length_app.
  rewrite <- (Hl x) by (by left). rewrite Nat2Z.inj_add, IH; [done|]. intros y Hy. apply Hl. by right.
Qed.

Lemma sum_sizes_plus_one {A} (f : A -> Z) l : sum_sizes (fun x => 1 + f x) l = 1 * Z.of_nat (length l) + sum_sizes f l.
Proof. induction l as [|x l IH]; [done|]. rewrite !sum_sizes_cons, IH. cbn [length]. lia. Qed.

Lemma length_opt (has : bool) (b : bytes) size :
  (has = true -> Z.of_nat (length b) = size) -> Z.of_nat (length (if has then b else [])) = opt_size has size.
Proof. destruct has; [intros Hb; by apply Hb|done]. Qed.

Lemma opt_size_nonneg has size : 0 <= size -> 0 <= opt_size has size.
Proof. by destruct has. Qed.

Lemma VarintSize32_pos `{CodedLibLaws} v : is_u32 v -> 1 <= VarintSize32 v.
Proof. intros Hv. rewrite VarintSize32_varint by done. pose proof (length_varint 4 v). lia. Qed.

Lemma VarintSize64_pos `{CodedLibLaws} v : is_u64 v -> 1 <= VarintSize64 v.
Proof. intros Hv. rewrite VarintSize64_spec by done. pose proof (length_varint 9 v). lia. Qed.

Lemma BytesSize_bound `{CodedLibLaws} b : Z.of_nat (length b) < BytesSize b.
Proof. unfold BytesSize. pose proof (VarintSize32_pos _ (u32_range (Z.of_nat (length b)))). lia. Qed.

Lemma BytesSizes_elem `{CodedLibLaws} l v : v ∈ l -> 1 + BytesSize v <= sum_sizes (fun v => 1 + BytesSize v) l.
Proof. apply (sum_sizes_elem (fun v => 1 + BytesSize v)). intros x _. pose proof (BytesSize_bound x). lia. Qed.

Lemma opt_UInt32 `{CodedLibLaws} has n v :
  small_field n -> is_u32 v ->
  Z.of_nat (length (if has : bool then WriteUInt32ToArray n v else [])) = opt_size has (1 + UInt32Size v).
Proof. intros. apply length_opt. intros _. by apply length_UInt32. Qed.

Lemma opt_UInt64 `{CodedLibLaws} has n v :
  small_field n -> is_u64 v ->
  Z.of_nat (length (if has : bool then WriteUInt64ToArray n v else [])) = opt_size has (1 + UInt64Size v).
Proof. intros. apply length_opt. intros _. by apply length_UInt64. Qed.

Lemma opt_Bytes `{CodedLibLaws} has n v :
  small_field n -> (has = true -> Z.of_nat (length v) < 2 ^ 31) ->
  Z.of_nat (length (if has : bool then WriteBytesToArray n v else [])) = opt_size has (1 + BytesSize v).
Proof. intros Hn Hv. apply length_opt. intros E. apply length_Bytes; auto. Qed.

Lemma opt_unknown `{CodedLibLaws} (has : bool) u :
  Z.of_nat (length (if has then SerializeUnknownFieldsToArray u else [])) = opt_size has (ComputeUnknownFieldsSize u).
Proof. apply length_opt. intros _. by rewrite ComputeUnknownFieldsSize_spec. Qed.

Lemma fold_write {A} (w : A -> bytes -> bytes) (a : A -> bytes) l out :
  (forall x out, w x out = out ++ a x) -> fold_left (fun out x => w x out) l out = out ++ concat (map a l).
Proof.
  intros Hw. revert out. induction l as [|x l IH]; intros out; cbn [fold_left map concat]; [by rewrite app_nil_r|].
  by rewrite IH, Hw, app_assoc.
Qed.

(** Seven presence bits are their sum. *)
Lemma has_bits_sum h :
  0 <= h < 2 ^ 7 ->
  h = (if has_bit h 0x01 then 0x01 else 0) + (if has_bit h 0x02 then 0x02 else 0) + (if has_bit h 0x04 then 0x04 else 0) +
      (if has_bit h 0x08 then 0x08 else 0) + (if has_bit h 0x10 then 0x10 else 0) + (if has_bit h 0x20 then 0x20 else 0) +
      (if has_bit h 0x40 then 0x40 else 0).
Proof.
  intros Hh.
  assert (Hall : forallb (fun h => h =? (if has_bit h 0x01 then 0x01 else 0) + (if has_bit h 0x02 then 0x02 else 0) +
    (if has_bit h 0x04 then 0x04 else 0) + (if has_bit h 0x08 then 0x08 else 0) + (if has_bit h 0x10 then 0x10 else 0) +
    (if has_bit h 0x20 then 0x20 else 0) + (if has_bit h 0x40 then 0x40 else 0)) (seqZ 0 128) = true) by (vm_compute; done).
  rewrite forallb_forall in Hall. apply Z.eqb_eq, Hall, list_elem_of_In, elem_of_seqZ. lia.
Qed.

(** ** Repeated messages *)

(** The loop of [ByteSize] over embedded messages, which caches their sizes. *)
Fixpoint add_message_sizes `{CodedLib} {M} `{MessageLite M} (total_size : Z) (l : list M) : Z * list M :=
  match l with
  | [] => (total_size, [])
  | x :: l =>
      let '(size, x) := MessageSizeNoVirtual x in
      let '(total_size, l) := add_message_sizes (total_size + size) l in (total_size, x :: l)
  end.

(** What an embedded message promises: [MergeFrom], a notion of valid message its parser
    keeps, and for the messages without unknown fields, their size, the message
    with that size cached, and the copy its parser makes of it. *)
Class Embedded `{CodedLib} (M : Type) `{MessageLite M} := {
  merge_from : M -> M -> M;
  valid : M -> Prop;
  plain : M -> Prop;
  size_of : M -> Z;
  sized : M -> M;
  fresh : M -> M
}.

Class EmbeddedLaws `{CodedLib} (M : Type) `{Embedded M} : Prop := {
  valid_New : valid New;
  Merge_valid m s m' s' :
    0 <= recursion_depth_ s -> wf_bytes (buffer_ s) -> valid m -> MergePartialFromCodedStream m s = Some (m', s') -> valid m';
  embedded_advances m s m' s' :
    0 <= recursion_depth_ s -> MergePartialFromCodedStream m s = Some (m', s') -> advances s s';
  ByteSize_sized m : ByteSize m = (size_of m, sized m);
  GetCachedSize_sized m : GetCachedSize (sized m) = size_of m;
  size_of_nonneg m : valid m -> 0 <= size_of m;
  array_sized m :
    valid m -> size_of m < 2 ^ 31 -> Z.of_nat (length (SerializeWithCachedSizesToArray (sized m))) = size_of m;
  stream_array m out : SerializeWithCachedSizes m out = out ++ SerializeWithCachedSizesToArray m;
  Merge_fresh m s :
    plain m -> size_of m < 2 ^ 31 -> stream_ok 0 s -> buffer_ s = SerializeWithCachedSizesToArray (sized m) ->
    exists s', MergePartialFromCodedStream New s = Some (fresh m, s') /\ advances s s' /\ buffer_ s' = [] /\
      legitimate_message_end_ s' = true;
  plain_valid m : plain m -> valid m;
  merge_valid m from : valid m -> valid from -> valid (merge_from m from);
  merge_New m : plain m -> merge_from New m = fresh m
}.

Section Repeated.
Context `{CodedLibLaws} {M : Type} `{!MessageLite M, !Embedded M, !EmbeddedLaws M}.

Definition message_size (x : M) : Z := 1 + (VarintSize32 (u32 (size_of x)) + size_of x).

Lemma message_size_bound x : valid x -> size_of x < message_size x /\ 0 <= message_size x.
Proof.
  intros Hx. unfold message_size. pose proof (VarintSize32_pos _ (u32_range (size_of x))).
  pose proof (size_of_nonneg x Hx). lia.
Qed.

Lemma add_message_sizes_spec total l :
  add_message_sizes total l = (total + sum_sizes message_size l - Z.of_nat (length l), map sized l).
Proof.
  revert total. induction l as [|x l IH]; intros total; cbn [add_message_sizes map length]; [f_equal; cbn; lia|].
  unfold MessageSizeNoVirtual. rewrite ByteSize_sized, IH, sum_sizes_cons. f_equal. unfold message_size. lia.
Qed.

Lemma sum_messages_nonneg l : Forall valid l -> 0 <= sum_sizes message_size l.
Proof. intros Hl. rewrite Forall_forall in Hl. apply sum_sizes_nonneg. intros x Hx. by apply message_size_bound, Hl. Qed.

Lemma message_small l x : Forall valid l -> x ∈ l -> sum_sizes message_size l < 2 ^ 31 -> size_of x < 2 ^ 31.
Proof.
  intros Hl Hx Hs. rewrite Forall_forall in Hl. destruct (message_size_bound x (Hl x Hx)) as [Hb _].
  pose proof (sum_sizes_elem message_size l x (fun y Hy => proj2 (message_size_bound y (Hl y Hy))) Hx). lia.
Qed.

Lemma length_messages n l :
  small_field n -> Forall valid l -> sum_sizes message_size l < 2 ^ 31 ->
  Z.of_nat (length (concat (map (WriteMessageNoVirtualToArray n) (map sized l)))) = sum_sizes message_size l.
Proof.
  intros Hn Hl Hs. rewrite map_map. apply sum_sizes_concat. intros x Hx.
  pose proof (message_small l x Hl Hx Hs). rewrite Forall_forall in Hl.
  unfold message_size. rewrite <- !GetCachedSize_sized. apply length_Message; rewrite ?GetCachedSize_sized; auto.
  symmetry. apply array_sized; auto.
Qed.

Lemma stream_messages n l out :
  fold_left (fun out x => WriteMessageMaybeToArray _ n x out) l out =
  out ++ concat (map (WriteMessageNoVirtualToArray n) l).
Proof. apply fold_write. intros x out'. apply WriteMessageMaybeToArray_spec. apply stream_array. Qed.

Lemma merge_news l : Forall plain l -> map (merge_from New) l = map fresh l.
Proof. induction 1 as [|x l Hx _ IH]; [done|]. cbn [map]. by rewrite IH, merge_New. Qed.

Lemma merge_valids l : Forall valid l -> Forall valid (map (merge_from New) l).
Proof. intros Hl. apply Forall_map. eapply Forall_impl; [exact Hl|]. intros x. apply merge_valid, valid_New. Qed.

Lemma read_valid s m' s' :
  0 <= recursion_depth_ s -> wf_bytes (buffer_ s) -> ReadMessageNoVirtual s New = Some (m', s') -> valid m'.
Proof.
  intros Hd Hw E. destruct (ReadMessage_inv _ _ _ _ Hd Hw E) as (s1 & s2 & Hd1 & Hw1 & Em).
  by apply (Merge_valid _ _ _ _ Hd1 Hw1 valid_New Em).
Qed.

(** A repeated field of messages is read back message by message. *)
Lemma consumes_messages {N} cases label uf suf n tags at_end (add : N -> M -> N) l :
  small_field n -> tags_ok cases tags -> cases n = Some WIRETYPE_LENGTH_DELIMITED ->
  (forall m s, label n m s = '(v, s) ← ReadMessageNoVirtual s New; after_field tags at_end (add m v) s) ->
  Forall plain l -> sum_sizes message_size l < 2 ^ 31 ->
  consumes cases label uf suf 1 (concat (map (WriteMessageNoVirtualToArray n) (map sized l)))
    (fun m => fold_left (fun m x => add m (fresh x)) l m).
Proof.
  intros Hn Ht Hc Hlab Hl Hs. rewrite map_map.
  apply (consumes_list _ _ _ _ 1 (fun x => WriteMessageNoVirtualToArray n (sized x)) (fun x m => add m (fresh x))).
  intros x Hx. assert (Hv : Forall valid l) by (eapply Forall_impl; [exact Hl|apply plain_valid]).
  pose proof (message_small l x Hv Hx Hs) as Hx31. rewrite Forall_forall in Hl, Hv.
  unshelve eapply (consumes_Message _ _ _ _ 1 n tags at_end _ _ _ _ (fresh x) add); auto.
  - rewrite GetCachedSize_sized. symmetry. apply array_sized; auto.
  - by rewrite GetCachedSize_sized.
  - lia.
  - intros s Hb Hok. apply Merge_fresh; auto.
Qed.
End Repeated.

(** Messages and their presence bits. *)
Create HintDb msg discriminated.
Create HintDb msg_ok discriminated.

Ltac setter_ok :=
  let Hm := fresh in
  intros Hm; intros; destruct Hm; split; autounfold with msg in *; cbn in *; bits; try assumption; try (apply lor_range; lia);
  try match goal with H : _ /\ _ |- _ /\ _ => destruct H; split; [try apply lor_range; lia|] end; try done.

Lemma ReadPrimitive_ENUM_reads `{CodedLibLaws} s v s' : ReadPrimitive_ENUM s = Some (v, s') -> reads s s'.
Proof.
  unfold ReadPrimitive_ENUM. destruct (ReadVarint32 s) as [[w s1]|] eqn:E; [|done]. cbn [mbind option_bind].
  intros [= <- <-]. by apply ReadVarint32_reads in E.
Qed.

Lemma opt_Enum `{CodedLibLaws} has n v :
  small_field n -> 0 <= v < 2 ^ 31 ->
  Z.of_nat (length (if has : bool then WriteEnumToArray n v else [])) = opt_size has (1 + EnumSize v).
Proof. intros. apply length_opt. intros _. by apply length_Enum. Qed.

Lemma EnumSize_pos `{CodedLibLaws} v : 0 <= v < 2 ^ 31 -> 1 <= EnumSize v.
Proof.
  intros Hv. unfold EnumSize, VarintSize32SignExtended. destruct (Z.ltb_spec v 0); [lia|].
  apply VarintSize32_pos, u32_range.
Qed.

(** A bit above the range of the bits. *)
Lemma high_bit h n b : 0 <= h < 2 ^ n -> 0 <= n -> Z.land (Z.ones n) b = 0 -> has_bit h b = false.
Proof.
  intros Hh Hn Hb. unfold has_bit. apply negb_false_iff, Z.eqb_eq.
  rewrite <- (Z.mod_small h (2 ^ n)), <- Z.land_ones, <- Z.land_assoc, Hb by lia. apply Z.land_0_r.
Qed.

(** The labels of a parser, one by one. *)
Ltac label_cases :=
  repeat match goal with
  | |- match ?n with Z0 => _ | Zpos _ => _ | Zneg _ => _ end = _ -> _ => destruct n; try done
  | |- match ?p with xI _ => _ | xO _ => _ | xH => _ end = _ -> _ => destruct p; try done
  end;
  let v := fresh "v" in let s := fresh "s" in
  intros (v & s & ? & -> & ?)%field_inv.

Ltac field_reads :=
  match goal with
  | H : ReadPrimitive_UINT32 _ = _ |- _ => exact (ReadVarint32_reads _ _ _ H)
  | H : ReadPrimitive_UINT64 _ = _ |- _ => exact (ReadVarint64_reads _ _ _ H)
  | H : ReadPrimitive_ENUM _ = _ |- _ => exact (ReadPrimitive_ENUM_reads _ _ _ H)
  | H : ReadBytes _ = _ |- _ => exact (proj1 (ReadBytes_reads _ _ _ H))
  end.

Ltac field_range :=
  match goal with
  | Hw : Forall is_byte (buffer_ ?s), H : ReadPrimitive_UINT32 ?s = _ |- _ => pose proof (ReadVarint32_range _ _ _ Hw H)
  | Hw : Forall is_byte (buffer_ ?s), H : ReadPrimitive_UINT64 ?s = _ |- _ => pose proof (ReadVarint64_range _ _ _ Hw H)
  | Hw : Forall is_byte (buffer_ ?s), H : ReadBytes ?s = _ |- _ =>
      pose proof (Forall_sublist _ _ _ (proj2 (ReadBytes_reads _ _ _ H)) Hw)
  end.

(** A field number, its wire type, its tags and its width. *)
Ltac field_side :=
  first [ reflexivity | assumption | solve [unfold small_field; lia]
        | solve [repeat first [apply Forall_nil_2 | apply Forall_cons_2];
                 (eexists; split; [reflexivity|split; [unfold small_field; cbn; lia|split; [cbv; split; congruence|reflexivity]]])] ].

(** No bit of the mask is set, so the single tests fail. *)
Ltac no_has_bits :=
  let E := fresh in
  intros E; autounfold with msg in *;
  repeat match goal with
  | H : has_bit ?h ?b = false -> _ |- _ => specialize (H (no_bits h 255 b E eq_refl))
  end.

(** ** [StoreIndexField] *)
Module StoreIndexField.

Record t := mk {
  field_id_ : Z; field_flag_ : Z; field_type_ : Z; numeric_value_ : Z; string_value_ : bytes;
  terms_ : list bytes; suffix_len_ : Z; has_bits_ : Z; unknown_fields_ : UnknownFieldSet; cached_size_ : Z }.

(** The constructor ([SharedCtor]). *)
Definition New : t := mk 0 0 0 0 [] [] 0 0 [] 0.

Definition has_field_id (m : t) : bool := has_bit (has_bits_ m) 0x01.
Definition has_field_flag (m : t) : bool := has_bit (has_bits_ m) 0x02.
Definition has_field_type (m : t) : bool := has_bit (has_bits_ m) 0x04.
Definition has_numeric_value (m : t) : bool := has_bit (has_bits_ m) 0x08.
Definition has_string_value (m : t) : bool := has_bit (has_bits_ m) 0x10.
Definition has_suffix_len (m : t) : bool := has_bit (has_bits_ m) 0x40.

Definition set_field_id (m : t) (v : Z) : t :=
  mk v (field_flag_ m) (field_type_ m) (numeric_value_ m) (string_value_ m) (terms_ m) (suffix_len_ m)
    (Z.lor (has_bits_ m) 0x01) (unknown_fields_ m) (cached_size_ m).
Definition set_field_flag (m : t) (v : Z) : t :=
  mk (field_id_ m) v (field_type_ m) (numeric_value_ m) (string_value_ m) (terms_ m) (suffix_len_ m)
    (Z.lor (has_bits_ m) 0x02) (unknown_fields_ m) (cached_size_ m).
Definition set_field_type (m : t) (v : Z) : t :=
  mk (field_id_ m) (field_flag_ m) v (numeric_value_ m) (string_value_ m) (terms_ m) (suffix_len_ m)
    (Z.lor (has_bits_ m) 0x04) (unknown_fields_ m) (cached_size_ m).
Definition set_numeric_value (m : t) (v : Z) : t :=
  mk (field_id_ m) (field_flag_ m) (field_type_ m) v (string_value_ m) (terms_ m) (suffix_len_ m)
    (Z.lor (has_bits_ m) 0x08) (unknown_fields_ m) (cached_size_ m).
Definition set_string_value (m : t) (v : bytes) : t :=
  mk (field_id_ m) (field_flag_ m) (field_type_ m) (numeric_value_ m) v (terms_ m) (suffix_len_ m)
    (Z.lor (has_bits_ m) 0x10) (unknown_fields_ m) (cached_size_ m).
Definition add_terms (m : t) (v : bytes) : t :=
  mk (field_id_ m) (field_flag_ m) (field_type_ m) (numeric_value_ m) (string_value_ m) (terms_ m ++ [v])
    (suffix_len_ m) (has_bits_ m) (unknown_fields_ m) (cached_size_ m).
Definition set_suffix_len (m : t) (v : Z) : t :=
  mk (field_id_ m) (field_flag_ m) (field_type_ m) (numeric_value_ m) (string_value_ m) (terms_ m) v
    (Z.lor (has_bits_ m) 0x40) (unknown_fields_ m) (cached_size_ m).
Definition set_unknown_fields (m : t) (u : UnknownFieldSet) : t :=
  mk (field_id_ m) (field_flag_ m) (field_type_ m) (numeric_value_ m) (string_value_ m) (terms_ m) (suffix_len_ m)
    (has_bits_ m) u (cached_size_ m).
Definition set_cached_size (m : t) (size : Z) : t :=
  mk (field_id_ m) (field_flag_ m) (field_type_ m) (numeric_value_ m) (string_value_ m) (terms_ m) (suffix_len_ m)
    (has_bits_ m) (unknown_fields_ m) size.

Definition Clear (m : t) : t :=
  let m :=
    if has_bit (has_bits_ m) 0xff then
      mk 0 0 0 0 (if has_string_value m then [] else string_value_ m) (terms_ m) 0 (has_bits_ m) (unknown_fields_ m)
        (cached_size_ m)
    else m in
  mk (field_id_ m) (field_flag_ m) (field_type_ m) (numeric_value_ m) (string_value_ m) [] (suffix_len_ m) 0 []
    (cached_size_ m).

Definition IsInitialized (m : t) : bool := Z.land (has_bits_ m) 0x07 =? 0x07.

Definition Swap (m other : t) : t * t := (other, m).

Section Operations.
Context `{CodedLib}.

Definition MergeFrom (m from : t) : t :=
  let m := mk (field_id_ m) (field_flag_ m) (field_type_ m) (numeric_value_ m) (string_value_ m)
             (terms_ m ++ terms_ from) (suffix_len_ m) (has_bits_ m) (unknown_fields_ m) (cached_size_ m) in
  let m :=
    if has_bit (has_bits_ from) 0xff then
      let m := if has_field_id from then set_field_id m (field_id_ from) else m in
      let m := if has_field_flag from then set_field_flag m (field_flag_ from) else m in
      let m := if has_field_type from then set_field_type m (field_type_ from) else m in
      let m := if has_numeric_value from then set_numeric_value m (numeric_value_ from) else m in
      let m := if has_string_value from then set_string_value m (string_value_ from) else m in
      if has_suffix_len from then set_suffix_len m (suffix_len_ from) else m
    else m in
  set_unknown_fields m (UnknownFieldSet_MergeFrom (unknown_fields_ m) (unknown_fields_ from)).

(** Of a message other than itself. *)
Definition CopyFrom (m from : t) : t := MergeFrom (Clear m) from.

(** The wire type of each [case], and the code at its label. *)
Definition cases (n : Z) : option Z :=
  match n with
  | 1 | 2 | 3 | 4 | 10 => Some WIRETYPE_VARINT
  | 5 | 6 => Some WIRETYPE_LENGTH_DELIMITED
  | _ => None
  end.

Definition label (n : Z) (m : t) (s : CodedInputStream) : option (point * t * CodedInputStream) :=
  match n with
  | 1 => '(v, s) ← ReadPrimitive_UINT32 s; after_field [(16, 2)] false (set_field_id m v) s
  | 2 => '(v, s) ← ReadPrimitive_UINT32 s; after_field [(24, 3)] false (set_field_flag m v) s
  | 3 => '(v, s) ← ReadPrimitive_UINT32 s; after_field [(32, 4)] false (set_field_type m v) s
  | 4 => '(v, s) ← ReadPrimitive_UINT64 s; after_field [(42, 5)] false (set_numeric_value m v) s
  | 5 => '(v, s) ← ReadBytes s; after_field [(50, 6)] false (set_string_value m v) s
  | 6 => '(v, s) ← ReadBytes s; after_field [(50, 6); (80, 10)] false (add_terms m v) s
  | 10 => '(v, s) ← ReadPrimitive_UINT32 s; after_field [] true (set_suffix_len m v) s
  | _ => None
  end.

Definition MergePartialFromCodedStream (m : t) (s : CodedInputStream) : option (t * CodedInputStream) :=
  merge_loop cases label unknown_fields_ set_unknown_fields m s.

Definition SerializeWithCachedSizes (m : t) (out : bytes) : bytes :=
  let out := if has_field_id m then WriteUInt32 1 (field_id_ m) out else out in
  let out := if has_field_flag m then WriteUInt32 2 (field_flag_ m) out else out in
  let out := if has_field_type m then WriteUInt32 3 (field_type_ m) out else out in
  let out := if has_numeric_value m then WriteUInt64 4 (numeric_value_ m) out else out in
  let out := if has_string_value m then WriteBytes 5 (string_value_ m) out else out in
  let out := fold_left (fun out v => WriteBytes 6 v out) (terms_ m) out in
  let out := if has_suffix_len m then WriteUInt32 10 (suffix_len_ m) out else out in
  if negb (unknown_empty (unknown_fields_ m)) then SerializeUnknownFields (unknown_fields_ m) out else out.

Definition SerializeWithCachedSizesToArray (m : t) : bytes :=
  (if has_field_id m then WriteUInt32ToArray 1 (field_id_ m) else []) ++
  (if has_field_flag m then WriteUInt32ToArray 2 (field_flag_ m) else []) ++
  (if has_field_type m then WriteUInt32ToArray 3 (field_type_ m) else []) ++
  (if has_numeric_value m then WriteUInt64ToArray 4 (numeric_value_ m) else []) ++
  (if has_string_value m then WriteBytesToArray 5 (string_value_ m) else []) ++
  concat (map (WriteBytesToArray 6) (terms_ m)) ++
  (if has_suffix_len m then WriteUInt32ToArray 10 (suffix_len_ m) else []) ++
  (if negb (unknown_empty (unknown_fields_ m)) then SerializeUnknownFieldsToArray (unknown_fields_ m) else []).

(** The size, cached in the message. *)
Definition ByteSize (m : t) : Z * t :=
  let total_size := 0 in
  let total_size :=
    if has_bit (has_bits_ m) 0xff then
      let total_size := if has_field_id m then total_size + (1 + UInt32Size (field_id_ m)) else total_size in
      let total_size := if has_field_flag m then total_size + (1 + UInt32Size (field_flag_ m)) else total_size in
      let total_size := if has_field_type m then total_size + (1 + UInt32Size (field_type_ m)) else total_size in
      let total_size := if has_numeric_value m then total_size + (1 + UInt64Size (numeric_value_ m)) else total_size in
      let total_size := if has_string_value m then total_size + (1 + BytesSize (string_value_ m)) else total_size in
      if has_suffix_len m then total_size + (1 + UInt32Size (suffix_len_ m)) else total_size
    else total_size in
  let total_size := total_size + 1 * Z.of_nat (length (terms_ m)) in
  let total_size := fold_left (fun total_size v => total_size + BytesSize v) (terms_ m) total_size in
  let total_size :=
    if negb (unknown_empty (unknown_fields_ m)) then total_size + ComputeUnknownFieldsSize (unknown_fields_ m)
    else total_size in
  (total_size, set_cached_size m total_size).

#[global] Instance message : MessageLite t := {|
  Wire.New := New; Wire.Clear := Clear; Wire.IsInitialized := IsInitialized;
  Wire.MergePartialFromCodedStream := MergePartialFromCodedStream; Wire.ByteSize := ByteSize;
  Wire.GetCachedSize := cached_size_; Wire.SerializeWithCachedSizes := SerializeWithCachedSizes;
  Wire.SerializeWithCachedSizesToArray := SerializeWithCachedSizesToArray |}.
End Operations.

(** ** Well-formed messages *)
Record ok (m : t) : Prop := {
  ok_field_id : is_u32 (field_id_ m);
  ok_field_flag : is_u32 (field_flag_ m);
  ok_field_type : is_u32 (field_type_ m);
  ok_numeric_value : is_u64 (numeric_value_ m);
  ok_string_value : wf_bytes (string_value_ m);
  ok_terms : Forall (Forall is_byte) (terms_ m);
  ok_suffix_len : is_u32 (suffix_len_ m);
  ok_has_bits : 0 <= has_bits_ m < 2 ^ 7 /\ has_bit (has_bits_ m) 0x20 = false;
  ok_no_field_id : has_field_id m = false -> field_id_ m = 0;
  ok_no_field_flag : has_field_flag m = false -> field_flag_ m = 0;
  ok_no_field_type : has_field_type m = false -> field_type_ m = 0;
  ok_no_numeric_value : has_numeric_value m = false -> numeric_value_ m = 0;
  ok_no_string_value : has_string_value m = false -> string_value_ m = [];
  ok_no_suffix_len : has_suffix_len m = false -> suffix_len_ m = 0 }.

#[local] Hint Unfold has_field_id has_field_flag has_field_type has_numeric_value has_string_value has_suffix_len
  set_field_id set_field_flag set_field_type set_numeric_value set_string_value set_suffix_len add_terms
  set_unknown_fields set_cached_size : msg.

Lemma field_ok_New : ok New.
Proof. by split. Qed.

(** Every operation keeps messages ok. *)
Lemma field_ok_set_field_id m v : ok m -> is_u32 v -> ok (set_field_id m v).
Proof. setter_ok. Qed.
Lemma field_ok_set_field_flag m v : ok m -> is_u32 v -> ok (set_field_flag m v).
Proof. setter_ok. Qed.
Lemma field_ok_set_field_type m v : ok m -> is_u32 v -> ok (set_field_type m v).
Proof. setter_ok. Qed.
Lemma field_ok_set_numeric_value m v : ok m -> is_u64 v -> ok (set_numeric_value m v).
Proof. setter_ok. Qed.
Lemma field_ok_set_string_value m v : ok m -> wf_bytes v -> ok (set_string_value m v).
Proof. setter_ok. Qed.
Lemma field_ok_add_terms m v : ok m -> wf_bytes v -> ok (add_terms m v).
Proof. setter_ok. apply Forall_app. by split; [|apply Forall_singleton]. Qed.
Lemma field_ok_set_suffix_len m v : ok m -> is_u32 v -> ok (set_suffix_len m v).
Proof. setter_ok. Qed.
Lemma field_ok_set_unknown_fields m u : ok m -> ok (set_unknown_fields m u).
Proof. setter_ok. Qed.
Lemma field_ok_set_cached_size m size : ok m -> ok (set_cached_size m size).
Proof. setter_ok. Qed.
#[local] Hint Resolve field_ok_set_field_id field_ok_set_field_flag field_ok_set_field_type field_ok_set_numeric_value field_ok_set_string_value
  field_ok_set_suffix_len field_ok_set_unknown_fields : msg_ok.

Lemma field_Clear_New m : ok m -> Clear m = set_cached_size New (cached_size_ m).
Proof.
  intros Hok. unfold Clear. destruct (has_bit (has_bits_ m) 255) eqn:E.
  - unfold set_cached_size, New. cbn. f_equal. destruct (has_string_value m) eqn:Es; [done|]. by apply ok_no_string_value.
  - unfold set_cached_size, New. cbn. destruct Hok. revert E. no_has_bits. intros. f_equal; auto.
Qed.

Section Facts.
Context `{CodedLibLaws}.

Lemma field_ok_MergeFrom m from : ok m -> ok from -> ok (MergeFrom m from).
Proof.
  intros Hm Hf. unfold MergeFrom. set (m1 := mk _ _ _ _ _ _ _ _ _ _).
  assert (H1 : ok m1).
  { subst m1. destruct Hm, Hf. split; autounfold with msg in *; cbn; try done. by apply Forall_app. }
  clearbody m1. clear Hm. apply field_ok_set_unknown_fields. destruct Hf.
  destruct (has_bit (has_bits_ from) 255); [|done]. repeat case_match; auto 10 with msg_ok.
Qed.

Lemma field_label_reads n m s p m' s' : 0 <= recursion_depth_ s -> label n m s = Some (p, m', s') -> reads s s'.
Proof.
  intros _. unfold label. label_cases;
    (eapply reads_advances_trans; [|eassumption]); field_reads.
Qed.

Lemma field_label_ok n m s p m' s' :
  0 <= recursion_depth_ s -> ok m -> wf_bytes (buffer_ s) -> label n m s = Some (p, m', s') -> ok m'.
Proof.
  intros _ Hm Hw. unfold label. label_cases; field_range; auto using field_ok_add_terms with msg_ok.
Qed.

Lemma field_Merge_advances m s m' s' :
  0 <= recursion_depth_ s -> MergePartialFromCodedStream m s = Some (m', s') -> advances s s'.
Proof. apply merge_loop_advances, field_label_reads. Qed.

(** A parser given any bytes keeps the message ok. *)
Lemma field_Merge_ok m s m' s' :
  0 <= recursion_depth_ s -> wf_bytes (buffer_ s) -> ok m -> MergePartialFromCodedStream m s = Some (m', s') -> ok m'.
Proof.
  apply (merge_loop_inv _ _ _ _ field_label_reads ok); [apply field_label_ok|]. intros. by apply field_ok_set_unknown_fields.
Qed.

(** The loop of the parser never runs out of fuel. *)
Lemma field_Merge_ends m s :
  0 <= recursion_depth_ s ->
  parse cases label unknown_fields_ set_unknown_fields (S (length (buffer_ s))) NextTag m s <> OutOfFuel.
Proof. intros Hd. apply parse_ends; [apply field_label_reads|done|lia]. Qed.

(** ** Sizes *)
Definition field_sizes (m : t) : Z :=
  opt_size (has_field_id m) (1 + UInt32Size (field_id_ m)) +
  opt_size (has_field_flag m) (1 + UInt32Size (field_flag_ m)) +
  opt_size (has_field_type m) (1 + UInt32Size (field_type_ m)) +
  opt_size (has_numeric_value m) (1 + UInt64Size (numeric_value_ m)) +
  opt_size (has_string_value m) (1 + BytesSize (string_value_ m)) +
  opt_size (has_suffix_len m) (1 + UInt32Size (suffix_len_ m)) +
  sum_sizes (fun v => 1 + BytesSize v) (terms_ m) +
  opt_size (negb (unknown_empty (unknown_fields_ m))) (ComputeUnknownFieldsSize (unknown_fields_ m)).

Lemma field_ByteSize_sum m : ByteSize m = (field_sizes m, set_cached_size m (field_sizes m)).
Proof.
  unfold ByteSize. cbv zeta.
  match goal with |- (?a, _) = _ => assert (a = field_sizes m) as -> end; [|done].
  unfold field_sizes. rewrite fold_sizes.
  rewrite (sum_sizes_plus_one BytesSize). unfold has_field_id, has_field_flag, has_field_type, has_numeric_value,
    has_string_value, has_suffix_len. destruct (has_bit (has_bits_ m) 255) eqn:E.
  - unfold opt_size. repeat case_match; lia.
  - rewrite !(no_bits _ 255 _ E) by reflexivity. unfold opt_size. repeat case_match; lia.
Qed.

Lemma field_field_sizes_nonneg m : ok m ->
  0 <= opt_size (has_field_id m) (1 + UInt32Size (field_id_ m)) /\
  0 <= opt_size (has_field_flag m) (1 + UInt32Size (field_flag_ m)) /\
  0 <= opt_size (has_field_type m) (1 + UInt32Size (field_type_ m)) /\
  0 <= opt_size (has_numeric_value m) (1 + UInt64Size (numeric_value_ m)) /\
  0 <= opt_size (has_string_value m) (1 + BytesSize (string_value_ m)) /\
  0 <= opt_size (has_suffix_len m) (1 + UInt32Size (suffix_len_ m)) /\
  0 <= sum_sizes (fun v => 1 + BytesSize v) (terms_ m) /\
  0 <= opt_size (negb (unknown_empty (unknown_fields_ m))) (ComputeUnknownFieldsSize (unknown_fields_ m)).
Proof.
  intros []. split_and!; try apply opt_size_nonneg; try apply sum_sizes_nonneg; intros; unfold UInt32Size, UInt64Size;
    try match goal with |- context [VarintSize32 ?v] => pose proof (VarintSize32_pos v ltac:(done)) end;
    try match goal with |- context [VarintSize64 ?v] => pose proof (VarintSize64_pos v ltac:(done)) end;
    try match goal with |- context [BytesSize ?v] => pose proof (BytesSize_bound v) end;
    rewrite ?ComputeUnknownFieldsSize_spec; lia.
Qed.

(** What a message of less than 2 GB is made of. *)
Lemma field_small_parts m :
  ok m -> field_sizes m < 2 ^ 31 ->
  (has_string_value m = true -> Z.of_nat (length (string_value_ m)) < 2 ^ 31) /\
  (forall v, v ∈ terms_ m -> Z.of_nat (length v) < 2 ^ 31).
Proof.
  intros Hok Hs. pose proof (field_field_sizes_nonneg m Hok) as (? & ? & ? & ? & ? & ? & ? & ?).
  unfold field_sizes in Hs. split.
  - intros E. rewrite E in *. cbn [opt_size] in *. pose proof (BytesSize_bound (string_value_ m)). lia.
  - intros v Hv. pose proof (BytesSize_bound v). pose proof (BytesSizes_elem (terms_ m) v Hv). lia.
Qed.

Lemma field_length_array m :
  ok m -> field_sizes m < 2 ^ 31 -> Z.of_nat (length (SerializeWithCachedSizesToArray m)) = field_sizes m.
Proof.
  intros Hok Hs. destruct (field_small_parts m Hok Hs) as [Hstr Hterms]. destruct Hok.
  unfold SerializeWithCachedSizesToArray, field_sizes. rewrite !length_app, !Nat2Z.inj_add.
  rewrite !opt_UInt32, opt_UInt64, opt_Bytes, opt_unknown by (done || unfold small_field; lia).
  rewrite (sum_sizes_concat (fun v => 1 + BytesSize v))
    by (intros v Hv; apply length_Bytes; [unfold small_field; lia|by apply Hterms]).
  lia.
Qed.

(** ** Round trip *)

(** The two serializers write the same bytes. *)
Lemma field_Serialize_array m out : SerializeWithCachedSizes m out = out ++ SerializeWithCachedSizesToArray m.
Proof.
  unfold SerializeWithCachedSizes, SerializeWithCachedSizesToArray. cbv zeta.
  rewrite !WriteUInt32_spec, WriteUInt64_spec, WriteBytes_spec, SerializeUnknownFields_spec.
  rewrite (fold_write (WriteBytes 6) (WriteBytesToArray 6)) by (intros; apply WriteBytes_spec).
  repeat case_match; rewrite ?app_nil_r, <- ?app_assoc; reflexivity.
Qed.

Lemma field_fold_add_terms l m :
  fold_left (fun m v => add_terms m v) l m =
  mk (field_id_ m) (field_flag_ m) (field_type_ m) (numeric_value_ m) (string_value_ m) (terms_ m ++ l)
    (suffix_len_ m) (has_bits_ m) (unknown_fields_ m) (cached_size_ m).
Proof.
  revert m. induction l as [|v l IH]; intros m; cbn [fold_left]; [rewrite app_nil_r; by destruct m|].
  rewrite IH. unfold add_terms. cbn. by rewrite <- app_assoc.
Qed.

(** Parsing what a message writes merges the message. *)
Lemma field_consumes_array m :
  ok m -> unknown_fields_ m = [] -> field_sizes m < 2 ^ 31 ->
  consumes cases label unknown_fields_ set_unknown_fields 0 (SerializeWithCachedSizesToArray m) (fun m0 => MergeFrom m0 m).
Proof.
  intros Hok Hu Hs. destruct (field_small_parts m Hok Hs) as [Hstr Hterms]. destruct Hok.
  unfold SerializeWithCachedSizesToArray. rewrite Hu. cbn [unknown_empty negb]. rewrite app_nil_r.
  eapply consumes_ext; cycle 1.
  - eapply consumes_app; [apply consumes_if; intros _; unshelve eapply (consumes_UInt32 _ _ _ _ 0 1 [(16, 2)] false _ _ _ set_field_id); field_side|].
    eapply consumes_app; [apply consumes_if; intros _; unshelve eapply (consumes_UInt32 _ _ _ _ 0 2 [(24, 3)] false _ _ _ set_field_flag); field_side|].
    eapply consumes_app; [apply consumes_if; intros _; unshelve eapply (consumes_UInt32 _ _ _ _ 0 3 [(32, 4)] false _ _ _ set_field_type); field_side|].
    eapply consumes_app; [apply consumes_if; intros _; unshelve eapply (consumes_UInt64 _ _ _ _ 0 4 [(42, 5)] false _ _ _ set_numeric_value); field_side|].
    eapply consumes_app; [apply consumes_if; intros E; unshelve eapply (consumes_Bytes _ _ _ _ 0 5 [(50, 6)] false _ _ _ set_string_value); [field_side..|by apply Hstr|done]|].
    eapply consumes_app.
    + apply (consumes_list _ _ _ _ 0 (WriteBytesToArray 6) (fun v m => add_terms m v)).
      intros v Hv. unshelve eapply (consumes_Bytes _ _ _ _ 0 6 [(50, 6); (80, 10)] false _ _ _ add_terms); [field_side..|by apply Hterms|done].
    + apply consumes_if; intros _. unshelve eapply (consumes_UInt32 _ _ _ _ 0 10 [] true _ _ _ set_suffix_len); field_side.
  - intros m0. cbn beta. rewrite field_fold_add_terms. unfold MergeFrom. cbv zeta. rewrite Hu, UnknownFieldSet_MergeFrom_spec, app_nil_r.
    unfold has_field_id, has_field_flag, has_field_type, has_numeric_value, has_string_value, has_suffix_len.
    destruct (has_bit (has_bits_ m) 255) eqn:E.
    + repeat case_match; by destruct m0.
    + rewrite !(no_bits _ 255 _ E) by reflexivity. by destruct m0.
Qed.

(** A message read back into a fresh one is the message. *)
Lemma field_MergeFrom_New m :
  ok m -> unknown_fields_ m = [] -> MergeFrom New m = set_cached_size m 0.
Proof.
  intros Hok Hu. pose proof (has_bits_sum (has_bits_ m) (proj1 (ok_has_bits m Hok))) as Hb.
  destruct Hok as [? ? ? ? ? ? ? [_ Hb5] Hi Hf Ht Hn Hs Hl].
  unfold MergeFrom. cbv zeta. rewrite Hu, UnknownFieldSet_MergeFrom_spec, app_nil_r.
  unfold has_field_id, has_field_flag, has_field_type, has_numeric_value, has_string_value, has_suffix_len in *.
  rewrite Hb5 in Hb.
  destruct (has_bit (has_bits_ m) 255) eqn:E.
  - destruct m as [f1 f2 f3 f4 f5 f6 f7 hb u c]. cbn in *. subst u. unfold set_cached_size. cbn.
    repeat case_match; cbn in *; subst hb; rewrite ?Hi, ?Hf, ?Ht, ?Hn, ?Hs, ?Hl by done; reflexivity.
  - rewrite !(no_bits _ 255 _ E) in * by reflexivity. destruct m as [f1 f2 f3 f4 f5 f6 f7 hb u c]. cbn in *.
    subst u hb. unfold set_cached_size. cbn. by rewrite Hi, Hf, Ht, Hn, Hs, Hl.
Qed.

(** ** As an embedded message *)
#[global] Instance embedded : Embedded t := {|
  merge_from := MergeFrom; valid := ok; plain m := ok m /\ unknown_fields_ m = []; size_of := field_sizes;
  sized m := set_cached_size m (field_sizes m); fresh m := set_cached_size m 0 |}.

#[global] Instance embedded_laws : EmbeddedLaws t.
Proof.
  split; cbn [merge_from valid plain size_of sized fresh embedded Wire.MergePartialFromCodedStream Wire.ByteSize Wire.GetCachedSize
              Wire.SerializeWithCachedSizes Wire.SerializeWithCachedSizesToArray Wire.New message].
  - apply field_ok_New.
  - apply field_Merge_ok.
  - apply field_Merge_advances.
  - apply field_ByteSize_sum.
  - done.
  - intros m Hok. pose proof (field_field_sizes_nonneg m Hok). unfold field_sizes. lia.
  - intros m Hok Hs. exact (field_length_array m Hok Hs).
  - apply field_Serialize_array.
  - intros m s [Hok Hu] Hs Hst Hb. change (buffer_ s = SerializeWithCachedSizesToArray m) in Hb.
    rewrite <- field_MergeFrom_New by done.
    by apply (wire_loop_spec _ _ _ _ field_label_reads 0 _ (fun m0 => MergeFrom m0 m) New s (field_consumes_array m Hok Hu Hs)).
  - by intros m [].
  - apply field_ok_MergeFrom.
  - intros m []. by apply field_MergeFrom_New.
Qed.
End Facts.
End StoreIndexField.

(** ** [StoreDocument] *)
Module StoreDocument.

Record t := mk {
  document_id_ : Z; fields_ : list StoreIndexField.t; has_bits_ : Z; unknown_fields_ : UnknownFieldSet;
  cached_size_ : Z }.

Definition New : t := mk 0 [] 0 [] 0.

Definition has_document_id (m : t) : bool := has_bit (has_bits_ m) 0x01.

Definition set_document_id (m : t) (v : Z) : t :=
  mk v (fields_ m) (Z.lor (has_bits_ m) 0x01) (unknown_fields_ m) (cached_size_ m).
Definition add_fields (m : t) (v : StoreIndexField.t) : t :=
  mk (document_id_ m) (fields_ m ++ [v]) (has_bits_ m) (unknown_fields_ m) (cached_size_ m).
Definition set_unknown_fields (m : t) (u : UnknownFieldSet) : t :=
  mk (document_id_ m) (fields_ m) (has_bits_ m) u (cached_size_ m).
Definition set_cached_sizes (m : t) (fields : list StoreIndexField.t) (size : Z) : t :=
  mk (document_id_ m) fields (has_bits_ m) (unknown_fields_ m) size.

Definition Clear (m : t) : t :=
  let m :=
    if has_bit (has_bits_ m) 0xff then mk 0 (fields_ m) (has_bits_ m) (unknown_fields_ m) (cached_size_ m) else m in
  mk (document_id_ m) [] 0 [] (cached_size_ m).

Definition IsInitialized (m : t) : bool :=
  if negb (Z.land (has_bits_ m) 0x01 =? 0x01) then false else forallb StoreIndexField.IsInitialized (fields_ m).

Definition Swap (m other : t) : t * t := (other, m).

Section Operations.
Context `{CodedLib}.

(** [RepeatedPtrField::MergeFrom] merges every element into a new one. *)
Definition MergeFrom (m from : t) : t :=
  let m := mk (document_id_ m) (fields_ m ++ map (merge_from Wire.New) (fields_ from))
             (has_bits_ m) (unknown_fields_ m) (cached_size_ m) in
  let m :=
    if has_bit (has_bits_ from) 0xff then
      if has_document_id from then set_document_id m (document_id_ from) else m
    else m in
  set_unknown_fields m (UnknownFieldSet_MergeFrom (unknown_fields_ m) (unknown_fields_ from)).

Definition CopyFrom (m from : t) : t := MergeFrom (Clear m) from.

Definition cases (n : Z) : option Z :=
  match n with
  | 1 => Some WIRETYPE_VARINT
  | 2 => Some WIRETYPE_LENGTH_DELIMITED
  | _ => None
  end.

Definition label (n : Z) (m : t) (s : CodedInputStream) : option (point * t * CodedInputStream) :=
  match n with
  | 1 => '(v, s) ← ReadPrimitive_UINT64 s; after_field [(18, 2)] false (set_document_id m v) s
  | 2 => '(v, s) ← ReadMessageNoVirtual s Wire.New; after_field [(18, 2)] true (add_fields m v) s
  | _ => None
  end.

Definition MergePartialFromCodedStream (m : t) (s : CodedInputStream) : option (t * CodedInputStream) :=
  merge_loop cases label unknown_fields_ set_unknown_fields m s.

Definition SerializeWithCachedSizes (m : t) (out : bytes) : bytes :=
  let out := if has_document_id m then WriteUInt64 1 (document_id_ m) out else out in
  let out := fold_left (fun out v => WriteMessageMaybeToArray _ 2 v out) (fields_ m) out in
  if negb (unknown_empty (unknown_fields_ m)) then SerializeUnknownFields (unknown_fields_ m) out else out.

Definition SerializeWithCachedSizesToArray (m : t) : bytes :=
  (if has_document_id m then WriteUInt64ToArray 1 (document_id_ m) else []) ++
  concat (map (WriteMessageNoVirtualToArray 2) (fields_ m)) ++
  (if negb (unknown_empty (unknown_fields_ m)) then SerializeUnknownFieldsToArray (unknown_fields_ m) else []).

Definition ByteSize (m : t) : Z * t :=
  let total_size := 0 in
  let total_size :=
    if has_bit (has_bits_ m) 0xff then
      if has_document_id m then total_size + (1 + UInt64Size (document_id_ m)) else total_size
    else total_size in
  let total_size := total_size + 1 * Z.of_nat (length (fields_ m)) in
  let '(total_size, fields) := add_message_sizes total_size (fields_ m) in
  let total_size :=
    if negb (unknown_empty (unknown_fields_ m)) then total_size + ComputeUnknownFieldsSize (unknown_fields_ m)
    else total_size in
  (total_size, set_cached_sizes m fields total_size).

#[global] Instance message : MessageLite t := {|
  Wire.New := New; Wire.Clear := Clear; Wire.IsInitialized := IsInitialized;
  Wire.MergePartialFromCodedStream := MergePartialFromCodedStream; Wire.ByteSize := ByteSize;
  Wire.GetCachedSize := cached_size_; Wire.SerializeWithCachedSizes := SerializeWithCachedSizes;
  Wire.SerializeWithCachedSizesToArray := SerializeWithCachedSizesToArray |}.
End Operations.

Record ok (m : t) : Prop := {
  ok_document_id : is_u64 (document_id_ m);
  ok_fields : Forall StoreIndexField.ok (fields_ m);
  ok_has_bits : 0 <= has_bits_ m < 2 ^ 1;
  ok_no_document_id : has_document_id m = false -> document_id_ m = 0 }.

#[local] Hint Unfold has_document_id set_document_id add_fields set_unknown_fields set_cached_sizes : msg.

Lemma document_ok_New : ok New.
Proof. by split. Qed.
Lemma document_ok_set_document_id m v : ok m -> is_u64 v -> ok (set_document_id m v).
Proof. setter_ok. Qed.
Lemma document_ok_add_fields m v : ok m -> StoreIndexField.ok v -> ok (add_fields m v).
Proof. setter_ok. apply Forall_app. by split; [|apply Forall_singleton]. Qed.
Lemma document_ok_set_unknown_fields m u : ok m -> ok (set_unknown_fields m u).
Proof. setter_ok. Qed.

Section Facts.
Context `{CodedLibLaws}.

Lemma document_ok_MergeFrom m from : ok m -> ok from -> ok (MergeFrom m from).
Proof.
  intros Hm [? Hf ? ?]. unfold MergeFrom. set (m1 := mk _ _ _ _ _).
  assert (H1 : ok m1).
  { subst m1. destruct Hm. split; try done. cbn. apply Forall_app. split; [done|].
    exact (merge_valids (M := StoreIndexField.t) _ Hf). }
  clearbody m1. clear Hm. apply document_ok_set_unknown_fields. repeat case_match; auto using document_ok_set_document_id.
Qed.

Lemma document_label_reads n m s p m' s' : 0 <= recursion_depth_ s -> label n m s = Some (p, m', s') -> reads s s'.
Proof.
  intros Hd. unfold label. label_cases; (eapply reads_advances_trans; [|eassumption]); try field_reads.
  by eapply (ReadMessage_reads _ _ _ _ embedded_advances Hd).
Qed.

Lemma document_label_ok n m s p m' s' :
  0 <= recursion_depth_ s -> ok m -> wf_bytes (buffer_ s) -> label n m s = Some (p, m', s') -> ok m'.
Proof.
  intros Hd Hm Hw. unfold label. label_cases; try field_range; auto using document_ok_set_document_id.
  apply document_ok_add_fields; [done|]. apply (read_valid (M := StoreIndexField.t) _ _ _ Hd Hw ltac:(eassumption)).
Qed.

Lemma document_Merge_advances m s m' s' :
  0 <= recursion_depth_ s -> MergePartialFromCodedStream m s = Some (m', s') -> advances s s'.
Proof. apply merge_loop_advances, document_label_reads. Qed.

Lemma document_Merge_ok m s m' s' :
  0 <= recursion_depth_ s -> wf_bytes (buffer_ s) -> ok m -> MergePartialFromCodedStream m s = Some (m', s') -> ok m'.
Proof.
  apply (merge_loop_inv _ _ _ _ document_label_reads ok); [apply document_label_ok|]. intros. by apply document_ok_set_unknown_fields.
Qed.

Lemma document_Merge_ends m s :
  0 <= recursion_depth_ s ->
  parse cases label unknown_fields_ set_unknown_fields (S (length (buffer_ s))) NextTag m s <> OutOfFuel.
Proof. intros Hd. apply parse_ends; [apply document_label_reads|done|lia]. Qed.

(** ** Sizes *)
Definition size (m : t) : Z :=
  opt_size (has_document_id m) (1 + UInt64Size (document_id_ m)) + sum_sizes message_size (fields_ m) +
  opt_size (negb (unknown_empty (unknown_fields_ m))) (ComputeUnknownFieldsSize (unknown_fields_ m)).

Definition with_sizes (m : t) : t := set_cached_sizes m (map sized (fields_ m)) (size m).

Lemma document_ByteSize_sum m : ByteSize m = (size m, with_sizes m).
Proof.
  unfold ByteSize. cbv zeta. rewrite add_message_sizes_spec.
  match goal with |- (?a, _) = _ => assert (a = size m) as -> end; [|done].
  unfold size, has_document_id. destruct (has_bit (has_bits_ m) 255) eqn:E.
  - unfold opt_size. repeat case_match; lia.
  - rewrite !(no_bits _ 255 _ E) by reflexivity. unfold opt_size. repeat case_match; lia.
Qed.

Lemma document_size_parts m : ok m ->
  0 <= opt_size (has_document_id m) (1 + UInt64Size (document_id_ m)) /\ 0 <= sum_sizes message_size (fields_ m) /\
  0 <= opt_size (negb (unknown_empty (unknown_fields_ m))) (ComputeUnknownFieldsSize (unknown_fields_ m)).
Proof.
  intros []. split_and!; [apply opt_size_nonneg|by apply sum_messages_nonneg|apply opt_size_nonneg].
  - unfold UInt64Size. pose proof (VarintSize64_pos (document_id_ m) ltac:(done)). lia.
  - rewrite ComputeUnknownFieldsSize_spec. lia.
Qed.

Lemma document_length_array m :
  ok m -> size m < 2 ^ 31 -> Z.of_nat (length (SerializeWithCachedSizesToArray (with_sizes m))) = size m.
Proof.
  intros Hok Hs. pose proof (document_size_parts m Hok) as (? & ? & ?). destruct Hok. unfold size in Hs.
  unfold SerializeWithCachedSizesToArray, size, with_sizes. cbn [fields_ unknown_fields_ document_id_ set_cached_sizes].
  rewrite !length_app, !Nat2Z.inj_add. unfold has_document_id in *. cbn [has_bits_ set_cached_sizes].
  rewrite opt_UInt64, opt_unknown, length_messages by (done || unfold small_field; lia). lia.
Qed.

(** ** Round trip *)
Lemma document_Serialize_array m out : SerializeWithCachedSizes m out = out ++ SerializeWithCachedSizesToArray m.
Proof.
  unfold SerializeWithCachedSizes, SerializeWithCachedSizesToArray. cbv zeta.
  rewrite !WriteUInt64_spec, stream_messages, SerializeUnknownFields_spec.
  repeat case_match; rewrite ?app_nil_r, <- ?app_assoc; reflexivity.
Qed.

Lemma document_fold_add_fields l m :
  fold_left (fun m v => add_fields m (fresh v)) l m =
  mk (document_id_ m) (fields_ m ++ map fresh l) (has_bits_ m) (unknown_fields_ m) (cached_size_ m).
Proof.
  revert m. induction l as [|v l IH]; intros m; cbn [fold_left map]; [rewrite app_nil_r; by destruct m|].
  rewrite IH. unfold add_fields. cbn. by rewrite <- app_assoc.
Qed.

Definition no_unknown (m : t) : Prop :=
  unknown_fields_ m = [] /\ Forall (fun f => StoreIndexField.unknown_fields_ f = []) (fields_ m).

Lemma document_plain_fields m : ok m -> no_unknown m -> Forall plain (fields_ m).
Proof. intros [] [_ Hu]. by apply Forall_and. Qed.

Lemma document_consumes_array m :
  ok m -> no_unknown m -> size m < 2 ^ 31 ->
  consumes cases label unknown_fields_ set_unknown_fields 1 (SerializeWithCachedSizesToArray (with_sizes m))
    (fun m0 => MergeFrom m0 m).
Proof.
  intros Hok Hu Hs. pose proof (document_size_parts m Hok) as (? & ? & ?). pose proof (document_plain_fields m Hok Hu) as Hp.
  destruct Hok, Hu as [Hu _]. unfold size in Hs.
  unfold SerializeWithCachedSizesToArray, with_sizes. cbn [fields_ unknown_fields_ document_id_ set_cached_sizes].
  rewrite Hu. cbn [unknown_empty negb]. rewrite app_nil_r.
  eapply consumes_ext; cycle 1.
  - eapply consumes_app.
    + apply consumes_if; intros _. unshelve eapply (consumes_UInt64 _ _ _ _ 1 1 [(18, 2)] false _ _ _ set_document_id); field_side.
    + eapply (consumes_messages _ _ _ _ 2 [(18, 2)] true add_fields); first [lia | field_side].
  - intros m0. cbn beta. rewrite document_fold_add_fields. unfold MergeFrom. cbv zeta.
    rewrite Hu, UnknownFieldSet_MergeFrom_spec, app_nil_r, (merge_news (fields_ m)) by done.
    unfold has_document_id. cbn [has_bits_ set_cached_sizes]. destruct (has_bit (has_bits_ m) 255) eqn:E.
    + repeat case_match; by destruct m0.
    + rewrite !(no_bits _ 255 _ E) by reflexivity. by destruct m0.
Qed.

(** The message with its sizes forgotten. *)
Definition without_sizes (m : t) : t := set_cached_sizes m (map fresh (fields_ m)) 0.

Lemma document_MergeFrom_New m : ok m -> no_unknown m -> MergeFrom New m = without_sizes m.
Proof.
  intros Hok Hu. pose proof (document_plain_fields m Hok Hu) as Hp. destruct Hok as [_ _ Hr Hi], Hu as [Hu _].
  unfold MergeFrom. cbv zeta. rewrite Hu, UnknownFieldSet_MergeFrom_spec, app_nil_r, (merge_news (fields_ m)) by done.
  pose proof (has_bits_sum (has_bits_ m) ltac:(lia)) as Hb.
  unfold without_sizes, set_cached_sizes, set_unknown_fields, has_document_id in *. cbn [app fields_ New]. rewrite Hu.
  assert (Hh : has_bits_ m = 0 \/ has_bits_ m = 1) by lia.
  destruct Hh as [Hh|Hh]; rewrite Hh in *; [cbn; by rewrite Hi|done].
Qed.

Lemma document_Merge_array m m0 s :
  ok m -> no_unknown m -> size m < 2 ^ 31 -> stream_ok 1 s -> buffer_ s = SerializeWithCachedSizesToArray (with_sizes m) ->
  exists s', MergePartialFromCodedStream m0 s = Some (MergeFrom m0 m, s') /\ advances s s' /\ buffer_ s' = [] /\
    legitimate_message_end_ s' = true.
Proof.
  intros Hok Hu Hs Hst Hb.
  by apply (wire_loop_spec _ _ _ _ document_label_reads 1 _ (fun m0 => MergeFrom m0 m) m0 s (document_consumes_array m Hok Hu Hs)).
Qed.
End Facts.
End StoreDocument.

(** ** Messages with one repeated field

    [StoreDocValue] and [MockDataList] are generated from the same shape: the
    operations are written once, for any embedded message. *)
Module ListMessage.

Record t (E : Type) := mk {
  list_ : list E; has_bits_ : Z; unknown_fields_ : UnknownFieldSet; cached_size_ : Z }.

#[global] Arguments mk {E}.
#[global] Arguments list_ {E}.
#[global] Arguments has_bits_ {E}.
#[global] Arguments unknown_fields_ {E}.
#[global] Arguments cached_size_ {E}.

Section Operations.
Context `{CodedLib} {E : Type} `{!MessageLite E, !Embedded E}.

Definition New : t E := mk [] 0 [] 0.

Definition add_list (m : t E) (v : E) : t E :=
  mk (list_ m ++ [v]) (has_bits_ m) (unknown_fields_ m) (cached_size_ m).
Definition set_unknown_fields (m : t E) (u : UnknownFieldSet) : t E :=
  mk (list_ m) (has_bits_ m) u (cached_size_ m).
Definition set_cached_sizes (m : t E) (l : list E) (size : Z) : t E :=
  mk l (has_bits_ m) (unknown_fields_ m) size.

Definition Clear (m : t E) : t E := mk [] 0 [] (cached_size_ m).

Definition IsInitialized (m : t E) : bool := forallb Wire.IsInitialized (list_ m).

Definition Swap (m other : t E) : t E * t E := (other, m).

Definition MergeFrom (m from : t E) : t E :=
  let m := mk (list_ m ++ map (merge_from Wire.New) (list_ from))
             (has_bits_ m) (unknown_fields_ m) (cached_size_ m) in
  set_unknown_fields m (UnknownFieldSet_MergeFrom (unknown_fields_ m) (unknown_fields_ from)).

Definition CopyFrom (m from : t E) : t E := MergeFrom (Clear m) from.

Definition cases (n : Z) : option Z := match n with 1 => Some WIRETYPE_LENGTH_DELIMITED | _ => None end.

Definition label (n : Z) (m : t E) (s : CodedInputStream) : option (point * t E * CodedInputStream) :=
  match n with
  | 1 => '(v, s) ← ReadMessageNoVirtual s Wire.New; after_field [(10, 1)] true (add_list m v) s
  | _ => None
  end.

Definition MergePartialFromCodedStream (m : t E) (s : CodedInputStream) : option (t E * CodedInputStream) :=
  merge_loop cases label unknown_fields_ set_unknown_fields m s.

Definition SerializeWithCachedSizes (m : t E) (out : bytes) : bytes :=
  let out := fold_left (fun out v => WriteMessageMaybeToArray _ 1 v out) (list_ m) out in
  if negb (unknown_empty (unknown_fields_ m)) then SerializeUnknownFields (unknown_fields_ m) out else out.

Definition SerializeWithCachedSizesToArray (m : t E) : bytes :=
  concat (map (WriteMessageNoVirtualToArray 1) (list_ m)) ++
  (if negb (unknown_empty (unknown_fields_ m)) then SerializeUnknownFieldsToArray (unknown_fields_ m) else []).

Definition ByteSize (m : t E) : Z * t E :=
  let total_size := 0 in
  let total_size := total_size + 1 * Z.of_nat (length (list_ m)) in
  let '(total_size, l) := add_message_sizes total_size (list_ m) in
  let total_size :=
    if negb (unknown_empty (unknown_fields_ m)) then total_size + ComputeUnknownFieldsSize (unknown_fields_ m)
    else total_size in
  (total_size, set_cached_sizes m l total_size).

#[global] Instance message : MessageLite (t E) := {|
  Wire.New := New; Wire.Clear := Clear; Wire.IsInitialized := IsInitialized;
  Wire.MergePartialFromCodedStream := MergePartialFromCodedStream; Wire.ByteSize := ByteSize;
  Wire.GetCachedSize := cached_size_; Wire.SerializeWithCachedSizes := SerializeWithCachedSizes;
  Wire.SerializeWithCachedSizesToArray := SerializeWithCachedSizesToArray |}.
(** The message has no presence bits. *)
Definition ok (m : t E) : Prop := Forall valid (list_ m) /\ has_bits_ m = 0.

Lemma list_ok_New : ok New.
Proof. by split. Qed.
Lemma list_ok_add_list m v : ok m -> valid v -> ok (add_list m v).
Proof. intros [] Hv. split; [apply Forall_app; by split; [|apply Forall_singleton]|done]. Qed.

End Operations.

Section Facts.
Context `{CodedLibLaws} {E : Type} `{!MessageLite E, !Embedded E, !EmbeddedLaws E}.
Implicit Types m : t E.

Lemma list_ok_MergeFrom m from : ok m -> ok from -> ok (MergeFrom m from).
Proof.
  intros [] [Hf ?]. split; [|done]. apply Forall_app. split; [done|]. by apply merge_valids.
Qed.

Lemma list_label_reads n m s p m' s' : 0 <= recursion_depth_ s -> label n m s = Some (p, m', s') -> reads s s'.
Proof.
  intros Hd. unfold label. label_cases; (eapply reads_advances_trans; [|eassumption]).
  by eapply (ReadMessage_reads _ _ _ _ embedded_advances Hd).
Qed.

Lemma list_label_ok n m s p m' s' :
  0 <= recursion_depth_ s -> ok m -> wf_bytes (buffer_ s) -> label n m s = Some (p, m', s') -> ok m'.
Proof.
  intros Hd Hm Hw. unfold label. label_cases.
  apply list_ok_add_list; [done|]. apply (read_valid _ _ _ Hd Hw ltac:(eassumption)).
Qed.

Lemma list_Merge_ok m s m' s' :
  0 <= recursion_depth_ s -> wf_bytes (buffer_ s) -> ok m -> MergePartialFromCodedStream m s = Some (m', s') -> ok m'.
Proof. apply (merge_loop_inv _ _ _ _ list_label_reads ok); [apply list_label_ok|]. by intros ? ? []. Qed.

Lemma list_Merge_ends m s :
  0 <= recursion_depth_ s ->
  parse cases label unknown_fields_ set_unknown_fields (S (length (buffer_ s))) NextTag m s <> OutOfFuel.
Proof. intros Hd. apply parse_ends; [apply list_label_reads|done|lia]. Qed.

Definition size (m : t E) : Z :=
  sum_sizes message_size (list_ m) +
  opt_size (negb (unknown_empty (unknown_fields_ m))) (ComputeUnknownFieldsSize (unknown_fields_ m)).

Definition with_sizes (m : t E) : t E := set_cached_sizes m (map sized (list_ m)) (size m).

Lemma list_ByteSize_sum m : ByteSize m = (size m, with_sizes m).
Proof.
  unfold ByteSize. cbv zeta. rewrite add_message_sizes_spec.
  match goal with |- (?a, _) = _ => assert (a = size m) as -> end; [|done].
  unfold size, opt_size. case_match; lia.
Qed.

Lemma list_size_parts m : ok m ->
  0 <= sum_sizes message_size (list_ m) /\
  0 <= opt_size (negb (unknown_empty (unknown_fields_ m))) (ComputeUnknownFieldsSize (unknown_fields_ m)).
Proof.
  intros []. split; [by apply sum_messages_nonneg|apply opt_size_nonneg]. rewrite ComputeUnknownFieldsSize_spec. lia.
Qed.

Lemma list_length_array m :
  ok m -> size m < 2 ^ 31 -> Z.of_nat (length (SerializeWithCachedSizesToArray (with_sizes m))) = size m.
Proof.
  intros Hok Hs. pose proof (list_size_parts m Hok) as (? & ?). destruct Hok. unfold size in Hs.
  unfold SerializeWithCachedSizesToArray, size, with_sizes. cbn [list_ unknown_fields_ set_cached_sizes].
  rewrite !length_app, !Nat2Z.inj_add.
  rewrite opt_unknown, length_messages by (done || unfold small_field; lia). lia.
Qed.

Lemma list_Serialize_array m out : SerializeWithCachedSizes m out = out ++ SerializeWithCachedSizesToArray m.
Proof.
  unfold SerializeWithCachedSizes, SerializeWithCachedSizesToArray. cbv zeta.
  rewrite stream_messages, SerializeUnknownFields_spec.
  repeat case_match; rewrite ?app_nil_r, <- ?app_assoc; reflexivity.
Qed.

Lemma list_fold_add_list l m :
  fold_left (fun m v => add_list m (fresh v)) l m =
  mk (list_ m ++ map fresh l) (has_bits_ m) (unknown_fields_ m) (cached_size_ m).
Proof.
  revert m. induction l as [|v l IH]; intros m; cbn [fold_left map]; [rewrite app_nil_r; by destruct m|].
  rewrite IH. unfold add_list. cbn. by rewrite <- app_assoc.
Qed.

Definition no_unknown (m : t E) : Prop :=
  unknown_fields_ m = [] /\ Forall plain (list_ m).

Lemma list_consumes_array m :
  ok m -> no_unknown m -> size m < 2 ^ 31 ->
  consumes cases label unknown_fields_ set_unknown_fields 1 (SerializeWithCachedSizesToArray (with_sizes m))
    (fun m0 => MergeFrom m0 m).
Proof.
  intros Hok Hu Hs. pose proof (list_size_parts m Hok) as (? & ?). destruct Hok, Hu as [Hu Hp]. unfold size in Hs.
  unfold SerializeWithCachedSizesToArray, with_sizes. cbn [list_ unknown_fields_ set_cached_sizes].
  rewrite Hu. cbn [unknown_empty negb]. rewrite app_nil_r.
  eapply consumes_ext; cycle 1.
  - eapply (consumes_messages _ _ _ _ 1 [(10, 1)] true add_list); first [lia | field_side].
  - intros m0. cbn beta. rewrite list_fold_add_list. unfold MergeFrom. cbv zeta.
    rewrite Hu, UnknownFieldSet_MergeFrom_spec, app_nil_r, (merge_news (list_ m)) by done. by destruct m0.
Qed.

(** The message with its sizes forgotten. *)
Definition without_sizes (m : t E) : t E := set_cached_sizes m (map fresh (list_ m)) 0.

Lemma list_MergeFrom_New m : ok m -> no_unknown m -> MergeFrom New m = without_sizes m.
Proof.
  intros Hok Hu. destruct Hok as [_ Hb], Hu as [Hu Hp].
  unfold MergeFrom. cbv zeta. rewrite Hu, UnknownFieldSet_MergeFrom_spec, app_nil_r, (merge_news (list_ m)) by done.
  unfold without_sizes, set_cached_sizes, set_unknown_fields. by rewrite Hu, Hb.
Qed.

Lemma list_Merge_array m m0 s :
  ok m -> no_unknown m -> size m < 2 ^ 31 -> stream_ok 1 s -> buffer_ s = SerializeWithCachedSizesToArray (with_sizes m) ->
  exists s', MergePartialFromCodedStream m0 s = Some (MergeFrom m0 m, s') /\ advances s s' /\ buffer_ s' = [] /\
    legitimate_message_end_ s' = true.
Proof.
  intros Hok Hu Hs Hst Hb.
  by apply (wire_loop_spec _ _ _ _ list_label_reads 1 _ (fun m0 => MergeFrom m0 m) m0 s (list_consumes_array m Hok Hu Hs)).
Qed.
End Facts.
End ListMessage.

(** ** [StoreMeta] *)
Module StoreMeta.

Record t := mk {
  total_documents_ : Z; delete_documents_ : Z; increase_seq_ : Z; terms_count_ : Z; has_bits_ : Z;
  unknown_fields_ : UnknownFieldSet; cached_size_ : Z }.

Definition New : t := mk 0 0 0 0 0 [] 0.

Definition has_total_documents (m : t) : bool := has_bit (has_bits_ m) 0x01.
Definition has_delete_documents (m : t) : bool := has_bit (has_bits_ m) 0x02.
Definition has_increase_seq (m : t) : bool := has_bit (has_bits_ m) 0x04.
Definition has_terms_count (m : t) : bool := has_bit (has_bits_ m) 0x08.

Definition set_total_documents (m : t) (v : Z) : t :=
  mk v (delete_documents_ m) (increase_seq_ m) (terms_count_ m) (Z.lor (has_bits_ m) 0x01) (unknown_fields_ m) (cached_size_ m).
Definition set_delete_documents (m : t) (v : Z) : t :=
  mk (total_documents_ m) v (increase_seq_ m) (terms_count_ m) (Z.lor (has_bits_ m) 0x02) (unknown_fields_ m) (cached_size_ m).
Definition set_increase_seq (m : t) (v : Z) : t :=
  mk (total_documents_ m) (delete_documents_ m) v (terms_count_ m) (Z.lor (has_bits_ m) 0x04) (unknown_fields_ m) (cached_size_ m).
Definition set_terms_count (m : t) (v : Z) : t :=
  mk (total_documents_ m) (delete_documents_ m) (increase_seq_ m) v (Z.lor (has_bits_ m) 0x08) (unknown_fields_ m) (cached_size_ m).
Definition set_unknown_fields (m : t) (u : UnknownFieldSet) : t :=
  mk (total_documents_ m) (delete_documents_ m) (increase_seq_ m) (terms_count_ m) (has_bits_ m) u (cached_size_ m).
Definition set_cached_size (m : t) (size : Z) : t :=
  mk (total_documents_ m) (delete_documents_ m) (increase_seq_ m) (terms_count_ m) (has_bits_ m) (unknown_fields_ m) size.

Definition Clear (m : t) : t :=
  let m :=
    if has_bit (has_bits_ m) 0xff then
      mk 0 0 0 0 (has_bits_ m) (unknown_fields_ m) (cached_size_ m)
    else m in
  mk (total_documents_ m) (delete_documents_ m) (increase_seq_ m) (terms_count_ m) 0 [] (cached_size_ m).

Definition IsInitialized (m : t) : bool := true.

Definition Swap (m other : t) : t * t := (other, m).

Section Operations.
Context `{CodedLib}.

Definition MergeFrom (m from : t) : t :=
  let m :=
    if has_bit (has_bits_ from) 0xff then
      let m := if has_total_documents from then set_total_documents m (total_documents_ from) else m in
      let m := if has_delete_documents from then set_delete_documents m (delete_documents_ from) else m in
      let m := if has_increase_seq from then set_increase_seq m (increase_seq_ from) else m in
      if has_terms_count from then set_terms_count m (terms_count_ from) else m
    else m in
  set_unknown_fields m (UnknownFieldSet_MergeFrom (unknown_fields_ m) (unknown_fields_ from)).

Definition CopyFrom (m from : t) : t := MergeFrom (Clear m) from.

Definition cases (n : Z) : option Z :=
  match n with
  | 1 | 2 | 3 | 4 => Some WIRETYPE_VARINT
  | _ => None
  end.

Definition label (n : Z) (m : t) (s : CodedInputStream) : option (point * t * CodedInputStream) :=
  match n with
  | 1 => '(v, s) ← ReadPrimitive_UINT64 s; after_field [(16, 2)] false (set_total_documents m v) s
  | 2 => '(v, s) ← ReadPrimitive_UINT64 s; after_field [(24, 3)] false (set_delete_documents m v) s
  | 3 => '(v, s) ← ReadPrimitive_UINT64 s; after_field [(32, 4)] false (set_increase_seq m v) s
  | 4 => '(v, s) ← ReadPrimitive_UINT64 s; after_field [] true (set_terms_count m v) s
  | _ => None
  end.

Definition MergePartialFromCodedStream (m : t) (s : CodedInputStream) : option (t * CodedInputStream) :=
  merge_loop cases label unknown_fields_ set_unknown_fields m s.

Definition SerializeWithCachedSizes (m : t) (out : bytes) : bytes :=
  let out := if has_total_documents m then WriteUInt64 1 (total_documents_ m) out else out in
  let out := if has_delete_documents m then WriteUInt64 2 (delete_documents_ m) out else out in
  let out := if has_increase_seq m then WriteUInt64 3 (increase_seq_ m) out else out in
  let out := if has_terms_count m then WriteUInt64 4 (terms_count_ m) out else out in
  if negb (unknown_empty (unknown_fields_ m)) then SerializeUnknownFields (unknown_fields_ m) out else out.

Definition SerializeWithCachedSizesToArray (m : t) : bytes :=
  (if has_total_documents m then WriteUInt64ToArray 1 (total_documents_ m) else []) ++
  (if has_delete_documents m then WriteUInt64ToArray 2 (delete_documents_ m) else []) ++
  (if has_increase_seq m then WriteUInt64ToArray 3 (increase_seq_ m) else []) ++
  (if has_terms_count m then WriteUInt64ToArray 4 (terms_count_ m) else []) ++
  (if negb (unknown_empty (unknown_fields_ m)) then SerializeUnknownFieldsToArray (unknown_fields_ m) else []).

Definition ByteSize (m : t) : Z * t :=
  let total_size := 0 in
  let total_size :=
    if has_bit (has_bits_ m) 0xff then
      let total_size := if has_total_documents m then total_size + (1 + UInt64Size (total_documents_ m)) else total_size in
      let total_size := if has_delete_documents m then total_size + (1 + UInt64Size (delete_documents_ m)) else total_size in
      let total_size := if has_increase_seq m then total_size + (1 + UInt64Size (increase_seq_ m)) else total_size in
      if has_terms_count m then total_size + (1 + UInt64Size (terms_count_ m)) else total_size
    else total_size in
  let total_size :=
    if negb (unknown_empty (unknown_fields_ m)) then total_size + ComputeUnknownFieldsSize (unknown_fields_ m)
    else total_size in
  (total_size, set_cached_size m total_size).

#[global] Instance message : MessageLite t := {|
  Wire.New := New; Wire.Clear := Clear; Wire.IsInitialized := IsInitialized;
  Wire.MergePartialFromCodedStream := MergePartialFromCodedStream; Wire.ByteSize := ByteSize;
  Wire.GetCachedSize := cached_size_; Wire.SerializeWithCachedSizes := SerializeWithCachedSizes;
  Wire.SerializeWithCachedSizesToArray := SerializeWithCachedSizesToArray |}.
End Operations.

Record ok (m : t) : Prop := {
  ok_total_documents : is_u64 (total_documents_ m);
  ok_delete_documents : is_u64 (delete_documents_ m);
  ok_increase_seq : is_u64 (increase_seq_ m);
  ok_terms_count : is_u64 (terms_count_ m);
  ok_has_bits : 0 <= has_bits_ m < 2 ^ 4;
  ok_no_total_documents : has_total_documents m = false -> total_documents_ m = 0;
  ok_no_delete_documents : has_delete_documents m = false -> delete_documents_ m = 0;
  ok_no_increase_seq : has_increase_seq m = false -> increase_seq_ m = 0;
  ok_no_terms_count : has_terms_count m = false -> terms_count_ m = 0 }.

#[local] Hint Unfold has_total_documents has_delete_documents has_increase_seq has_terms_count set_total_documents set_delete_documents set_increase_seq set_terms_count
  set_unknown_fields set_cached_size : msg.

Lemma meta_ok_New : ok New.
Proof. by split. Qed.
Lemma meta_ok_set_total_documents m v : ok m -> is_u64 v -> ok (set_total_documents m v).
Proof. setter_ok. Qed.
Lemma meta_ok_set_delete_documents m v : ok m -> is_u64 v -> ok (set_delete_documents m v).
Proof. setter_ok. Qed.
Lemma meta_ok_set_increase_seq m v : ok m -> is_u64 v -> ok (set_increase_seq m v).
Proof. setter_ok. Qed.
Lemma meta_ok_set_terms_count m v : ok m -> is_u64 v -> ok (set_terms_count m v).
Proof. setter_ok. Qed.
Lemma meta_ok_set_unknown_fields m u : ok m -> ok (set_unknown_fields m u).
Proof. setter_ok. Qed.
#[local] Hint Resolve meta_ok_set_total_documents meta_ok_set_delete_documents meta_ok_set_increase_seq meta_ok_set_terms_count meta_ok_set_unknown_fields : msg_ok.

Section Facts.
Context `{CodedLibLaws}.

Lemma meta_ok_MergeFrom m from : ok m -> ok from -> ok (MergeFrom m from).
Proof.
  intros Hm []. unfold MergeFrom. apply meta_ok_set_unknown_fields.
  destruct (has_bit (has_bits_ from) 255); [|done]. repeat case_match; auto 10 with msg_ok.
Qed.

Lemma meta_label_reads n m s p m' s' : 0 <= recursion_depth_ s -> label n m s = Some (p, m', s') -> reads s s'.
Proof.
  intros _. unfold label. label_cases;
    (eapply reads_advances_trans; [|eassumption]); field_reads.
Qed.

Lemma meta_label_ok n m s p m' s' :
  0 <= recursion_depth_ s -> ok m -> wf_bytes (buffer_ s) -> label n m s = Some (p, m', s') -> ok m'.
Proof.
  intros _ Hm Hw. unfold label. label_cases; try field_range; auto with msg_ok.
Qed.

Lemma meta_Merge_advances m s m' s' :
  0 <= recursion_depth_ s -> MergePartialFromCodedStream m s = Some (m', s') -> advances s s'.
Proof. apply merge_loop_advances, meta_label_reads. Qed.

Lemma meta_Merge_ok m s m' s' :
  0 <= recursion_depth_ s -> wf_bytes (buffer_ s) -> ok m -> MergePartialFromCodedStream m s = Some (m', s') -> ok m'.
Proof.
  apply (merge_loop_inv _ _ _ _ meta_label_reads ok); [apply meta_label_ok|]. intros. by apply meta_ok_set_unknown_fields.
Qed.

Lemma meta_Merge_ends m s :
  0 <= recursion_depth_ s ->
  parse cases label unknown_fields_ set_unknown_fields (S (length (buffer_ s))) NextTag m s <> OutOfFuel.
Proof. intros Hd. apply parse_ends; [apply meta_label_reads|done|lia]. Qed.

Definition size (m : t) : Z :=
  opt_size (has_total_documents m) (1 + UInt64Size (total_documents_ m)) +
  opt_size (has_delete_documents m) (1 + UInt64Size (delete_documents_ m)) +
  opt_size (has_increase_seq m) (1 + UInt64Size (increase_seq_ m)) +
  opt_size (has_terms_count m) (1 + UInt64Size (terms_count_ m)) +
  opt_size (negb (unknown_empty (unknown_fields_ m))) (ComputeUnknownFieldsSize (unknown_fields_ m)).

Lemma meta_ByteSize_sum m : ByteSize m = (size m, set_cached_size m (size m)).
Proof.
  unfold ByteSize. cbv zeta. match goal with |- (?a, _) = _ => assert (a = size m) as -> end; [|done].
  unfold size, has_total_documents, has_delete_documents, has_increase_seq, has_terms_count. destruct (has_bit (has_bits_ m) 255) eqn:E.
  - unfold opt_size. repeat case_match; lia.
  - rewrite !(no_bits _ 255 _ E) by reflexivity. unfold opt_size. repeat case_match; lia.
Qed.

Lemma meta_size_parts m : ok m ->
  0 <= opt_size (has_total_documents m) (1 + UInt64Size (total_documents_ m)) /\
  0 <= opt_size (has_delete_documents m) (1 + UInt64Size (delete_documents_ m)) /\
  0 <= opt_size (has_increase_seq m) (1 + UInt64Size (increase_seq_ m)) /\
  0 <= opt_size (has_terms_count m) (1 + UInt64Size (terms_count_ m)) /\
  0 <= opt_size (negb (unknown_empty (unknown_fields_ m))) (ComputeUnknownFieldsSize (unknown_fields_ m)).
Proof.
  intros []. split_and!; apply opt_size_nonneg; unfold UInt32Size, UInt64Size;
    try match goal with |- context [VarintSize32 ?v] => pose proof (VarintSize32_pos v ltac:(done)) end;
    try match goal with |- context [VarintSize64 ?v] => pose proof (VarintSize64_pos v ltac:(done)) end;
    try match goal with |- context [BytesSize ?v] => pose proof (BytesSize_bound v) end;
    try match goal with |- context [EnumSize ?v] => pose proof (EnumSize_pos v ltac:(lia)) end;
    rewrite ?ComputeUnknownFieldsSize_spec; lia.
Qed.

Lemma meta_length_array m : ok m -> size m < 2 ^ 31 -> Z.of_nat (length (SerializeWithCachedSizesToArray m)) = size m.
Proof.
  intros Hok Hs. destruct Hok.
  unfold SerializeWithCachedSizesToArray, size. rewrite !length_app, !Nat2Z.inj_add.
  rewrite !opt_UInt64, opt_unknown by (done || unfold small_field; lia). lia.
Qed.

Lemma meta_Serialize_array m out : SerializeWithCachedSizes m out = out ++ SerializeWithCachedSizesToArray m.
Proof.
  unfold SerializeWithCachedSizes, SerializeWithCachedSizesToArray. cbv zeta.
  rewrite !WriteUInt64_spec, SerializeUnknownFields_spec.
  repeat case_match; rewrite ?app_nil_r, <- ?app_assoc; reflexivity.
Qed.

Lemma meta_consumes_array m :
  ok m -> unknown_fields_ m = [] -> size m < 2 ^ 31 ->
  consumes cases label unknown_fields_ set_unknown_fields 0 (SerializeWithCachedSizesToArray m) (fun m0 => MergeFrom m0 m).
Proof.
  intros Hok Hu Hs. destruct Hok.
  unfold SerializeWithCachedSizesToArray. rewrite Hu. cbn [unknown_empty negb]. rewrite app_nil_r.
  eapply consumes_ext; cycle 1.
  - eapply consumes_app; [apply consumes_if; intros _; unshelve eapply (consumes_UInt64 _ _ _ _ 0 1 [(16, 2)] false _ _ _ set_total_documents); field_side|].
    eapply consumes_app; [apply consumes_if; intros _; unshelve eapply (consumes_UInt64 _ _ _ _ 0 2 [(24, 3)] false _ _ _ set_delete_documents); field_side|].
    eapply consumes_app; [apply consumes_if; intros _; unshelve eapply (consumes_UInt64 _ _ _ _ 0 3 [(32, 4)] false _ _ _ set_increase_seq); field_side|].
    apply consumes_if; intros _; unshelve eapply (consumes_UInt64 _ _ _ _ 0 4 [] true _ _ _ set_terms_count); field_side.
  - intros m0. cbn beta. unfold MergeFrom. cbv zeta. rewrite Hu, UnknownFieldSet_MergeFrom_spec, app_nil_r.
    unfold has_total_documents, has_delete_documents, has_increase_seq, has_terms_count.
    destruct (has_bit (has_bits_ m) 255) eqn:E.
    + repeat case_match; by destruct m0.
    + rewrite !(no_bits _ 255 _ E) by reflexivity. by destruct m0.
Qed.

Lemma meta_MergeFrom_New m : ok m -> unknown_fields_ m = [] -> MergeFrom New m = set_cached_size m 0.
Proof.
  intros Hok Hu. pose proof (has_bits_sum (has_bits_ m) ltac:(destruct Hok; lia)) as Hb.
  rewrite ?(high_bit (has_bits_ m) 4 0x10), ?(high_bit (has_bits_ m) 4 0x20), ?(high_bit (has_bits_ m) 4 0x40) in Hb
    by (first [apply (ok_has_bits m Hok) | lia | reflexivity]).
  destruct Hok as [? ? ? ? ? Ntotal_documents Ndelete_documents Nincrease_seq Nterms_count].
  unfold MergeFrom. cbv zeta. rewrite Hu, UnknownFieldSet_MergeFrom_spec, app_nil_r.
  unfold has_total_documents, has_delete_documents, has_increase_seq, has_terms_count in *.
  destruct (has_bit (has_bits_ m) 255) eqn:E.
  - destruct m as [f_total_documents f_delete_documents f_increase_seq f_terms_count hb u c]. cbn in *. subst u. unfold set_cached_size. cbn.
    repeat case_match; cbn in *; subst hb; rewrite ?Ntotal_documents, ?Ndelete_documents, ?Nincrease_seq, ?Nterms_count by done; reflexivity.
  - rewrite !(no_bits _ 255 _ E) in * by reflexivity. destruct m as [f_total_documents f_delete_documents f_increase_seq f_terms_count hb u c]. cbn in *.
    subst u hb. unfold set_cached_size. cbn. by rewrite Ntotal_documents, Ndelete_documents, Nincrease_seq, Nterms_count.
Qed.

#[global] Instance embedded : Embedded t := {|
  merge_from := MergeFrom; valid := ok; plain m := ok m /\ unknown_fields_ m = []; size_of := size;
  sized m := set_cached_size m (size m); fresh m := set_cached_size m 0 |}.

#[global] Instance embedded_laws : EmbeddedLaws t.
Proof.
  split; cbn [merge_from valid plain size_of sized fresh embedded Wire.MergePartialFromCodedStream Wire.ByteSize Wire.GetCachedSize
              Wire.SerializeWithCachedSizes Wire.SerializeWithCachedSizesToArray Wire.New message].
  - apply meta_ok_New.
  - apply meta_Merge_ok.
  - apply meta_Merge_advances.
  - apply meta_ByteSize_sum.
  - done.
  - intros m Hok. pose proof (meta_size_parts m Hok). unfold size. lia.
  - intros m Hok Hs. exact (meta_length_array m Hok Hs).
  - apply meta_Serialize_array.
  - intros m s [Hok Hu] Hs Hst Hb. change (buffer_ s = SerializeWithCachedSizesToArray m) in Hb.
    rewrite <- meta_MergeFrom_New by done.
    by apply (wire_loop_spec _ _ _ _ meta_label_reads 0 _ (fun m0 => MergeFrom m0 m) New s (meta_consumes_array m Hok Hu Hs)).
  - by intros m [].
  - apply meta_ok_MergeFrom.
  - intros m []. by apply meta_MergeFrom_New.
Qed.
End Facts.
End StoreMeta.

(** ** [MockData] *)
Definition MockData_Type_IsValid (value : Z) : bool :=
  match value with 0 | 1 | 2 | 3 | 4 => true | _ => false end.

Lemma MockData_Type_range value : MockData_Type_IsValid value = true <-> 0 <= value <= 4.
Proof.
  split.
  - unfold MockData_Type_IsValid. intros E. repeat case_match; (done || lia).
  - intros Hv. assert (Hc : value = 0 \/ value = 1 \/ value = 2 \/ value = 3 \/ value = 4) by lia.
    by destruct Hc as [-> | [-> | [-> | [-> | ->]]]].
Qed.

Module MockData.

Record t := mk {
  column_type_ : Z; key_ : bytes; value_ : bytes; type_ : Z; end_key_ : bytes; has_bits_ : Z;
  unknown_fields_ : UnknownFieldSet; cached_size_ : Z }.

Definition New : t := mk 0 [] [] 0 [] 0 [] 0.

Definition has_column_type (m : t) : bool := has_bit (has_bits_ m) 0x01.
Definition has_key (m : t) : bool := has_bit (has_bits_ m) 0x02.
Definition has_value (m : t) : bool := has_bit (has_bits_ m) 0x04.
Definition has_type (m : t) : bool := has_bit (has_bits_ m) 0x08.
Definition has_end_key (m : t) : bool := has_bit (has_bits_ m) 0x10.

Definition set_column_type (m : t) (v : Z) : t :=
  mk v (key_ m) (value_ m) (type_ m) (end_key_ m) (Z.lor (has_bits_ m) 0x01) (unknown_fields_ m) (cached_size_ m).
Definition set_key (m : t) (v : bytes) : t :=
  mk (column_type_ m) v (value_ m) (type_ m) (end_key_ m) (Z.lor (has_bits_ m) 0x02) (unknown_fields_ m) (cached_size_ m).
Definition set_value (m : t) (v : bytes) : t :=
  mk (column_type_ m) (key_ m) v (type_ m) (end_key_ m) (Z.lor (has_bits_ m) 0x04) (unknown_fields_ m) (cached_size_ m).
Definition set_type (m : t) (v : Z) : t :=
  mk (column_type_ m) (key_ m) (value_ m) v (end_key_ m) (Z.lor (has_bits_ m) 0x08) (unknown_fields_ m) (cached_size_ m).
Definition set_end_key (m : t) (v : bytes) : t :=
  mk (column_type_ m) (key_ m) (value_ m) (type_ m) v (Z.lor (has_bits_ m) 0x10) (unknown_fields_ m) (cached_size_ m).
Definition set_unknown_fields (m : t) (u : UnknownFieldSet) : t :=
  mk (column_type_ m) (key_ m) (value_ m) (type_ m) (end_key_ m) (has_bits_ m) u (cached_size_ m).
Definition set_cached_size (m : t) (size : Z) : t :=
  mk (column_type_ m) (key_ m) (value_ m) (type_ m) (end_key_ m) (has_bits_ m) (unknown_fields_ m) size.

Definition Clear (m : t) : t :=
  let m :=
    if has_bit (has_bits_ m) 0xff then
      mk 0 (if has_key m then [] else key_ m) (if has_value m then [] else value_ m) 0 (if has_end_key m then [] else end_key_ m) (has_bits_ m) (unknown_fields_ m) (cached_size_ m)
    else m in
  mk (column_type_ m) (key_ m) (value_ m) (type_ m) (end_key_ m) 0 [] (cached_size_ m).

Definition IsInitialized (m : t) : bool := Z.land (has_bits_ m) 0xf =? 0xf.

Definition Swap (m other : t) : t * t := (other, m).

Section Operations.
Context `{CodedLib}.

Definition MergeFrom (m from : t) : t :=
  let m :=
    if has_bit (has_bits_ from) 0xff then
      let m := if has_column_type from then set_column_type m (column_type_ from) else m in
      let m := if has_key from then set_key m (key_ from) else m in
      let m := if has_value from then set_value m (value_ from) else m in
      let m := if has_type from then set_type m (type_ from) else m in
      if has_end_key from then set_end_key m (end_key_ from) else m
    else m in
  set_unknown_fields m (UnknownFieldSet_MergeFrom (unknown_fields_ m) (unknown_fields_ from)).

Definition CopyFrom (m from : t) : t := MergeFrom (Clear m) from.

Definition cases (n : Z) : option Z :=
  match n with
  | 1 | 4 => Some WIRETYPE_VARINT
  | 2 | 3 | 5 => Some WIRETYPE_LENGTH_DELIMITED
  | _ => None
  end.

Definition label (n : Z) (m : t) (s : CodedInputStream) : option (point * t * CodedInputStream) :=
  match n with
  | 1 => '(v, s) ← ReadPrimitive_UINT32 s; after_field [(18, 2)] false (set_column_type m v) s
  | 2 => '(v, s) ← ReadBytes s; after_field [(26, 3)] false (set_key m v) s
  | 3 => '(v, s) ← ReadBytes s; after_field [(32, 4)] false (set_value m v) s
  | 4 =>
      '(v, s) ← ReadPrimitive_ENUM s;
      after_field [(42, 5)] false
        (if MockData_Type_IsValid v then set_type m v
         else set_unknown_fields m (AddVarint (unknown_fields_ m) 4 (u64 v))) s
  | 5 => '(v, s) ← ReadBytes s; after_field [] true (set_end_key m v) s
  | _ => None
  end.

Definition MergePartialFromCodedStream (m : t) (s : CodedInputStream) : option (t * CodedInputStream) :=
  merge_loop cases label unknown_fields_ set_unknown_fields m s.

Definition SerializeWithCachedSizes (m : t) (out : bytes) : bytes :=
  let out := if has_column_type m then WriteUInt32 1 (column_type_ m) out else out in
  let out := if has_key m then WriteBytes 2 (key_ m) out else out in
  let out := if has_value m then WriteBytes 3 (value_ m) out else out in
  let out := if has_type m then WriteEnum 4 (type_ m) out else out in
  let out := if has_end_key m then WriteBytes 5 (end_key_ m) out else out in
  if negb (unknown_empty (unknown_fields_ m)) then SerializeUnknownFields (unknown_fields_ m) out else out.

Definition SerializeWithCachedSizesToArray (m : t) : bytes :=
  (if has_column_type m then WriteUInt32ToArray 1 (column_type_ m) else []) ++
  (if has_key m then WriteBytesToArray 2 (key_ m) else []) ++
  (if has_value m then WriteBytesToArray 3 (value_ m) else []) ++
  (if has_type m then WriteEnumToArray 4 (type_ m) else []) ++
  (if has_end_key m then WriteBytesToArray 5 (end_key_ m) else []) ++
  (if negb (unknown_empty (unknown_fields_ m)) then SerializeUnknownFieldsToArray (unknown_fields_ m) else []).

Definition ByteSize (m : t) : Z * t :=
  let total_size := 0 in
  let total_size :=
    if has_bit (has_bits_ m) 0xff then
      let total_size := if has_column_type m then total_size + (1 + UInt32Size (column_type_ m)) else total_size in
      let total_size := if has_key m then total_size + (1 + BytesSize (key_ m)) else total_size in
      let total_size := if has_value m then total_size + (1 + BytesSize (value_ m)) else total_size in
      let total_size := if has_type m then total_size + (1 + EnumSize (type_ m)) else total_size in
      if has_end_key m then total_size + (1 + BytesSize (end_key_ m)) else total_size
    else total_size in
  let total_size :=
    if negb (unknown_empty (unknown_fields_ m)) then total_size + ComputeUnknownFieldsSize (unknown_fields_ m)
    else total_size in
  (total_size, set_cached_size m total_size).

#[global] Instance message : MessageLite t := {|
  Wire.New := New; Wire.Clear := Clear; Wire.IsInitialized := IsInitialized;
  Wire.MergePartialFromCodedStream := MergePartialFromCodedStream; Wire.ByteSize := ByteSize;
  Wire.GetCachedSize := cached_size_; Wire.SerializeWithCachedSizes := SerializeWithCachedSizes;
  Wire.SerializeWithCachedSizesToArray := SerializeWithCachedSizesToArray |}.
End Operations.

Record ok (m : t) : Prop := {
  ok_column_type : is_u32 (column_type_ m);
  ok_key : wf_bytes (key_ m);
  ok_value : wf_bytes (value_ m);
  ok_type : 0 <= type_ m <= 4;
  ok_end_key : wf_bytes (end_key_ m);
  ok_has_bits : 0 <= has_bits_ m < 2 ^ 5;
  ok_no_column_type : has_column_type m = false -> column_type_ m = 0;
  ok_no_key : has_key m = false -> key_ m = [];
  ok_no_value : has_value m = false -> value_ m = [];
  ok_no_type : has_type m = false -> type_ m = 0;
  ok_no_end_key : has_end_key m = false -> end_key_ m = [] }.

#[local] Hint Unfold has_column_type has_key has_value has_type has_end_key set_column_type set_key set_value set_type set_end_key
  set_unknown_fields set_cached_size : msg.

Lemma mock_ok_New : ok New.
Proof. by split. Qed.
Lemma mock_ok_set_column_type m v : ok m -> is_u32 v -> ok (set_column_type m v).
Proof. setter_ok. Qed.
Lemma mock_ok_set_key m v : ok m -> wf_bytes v -> ok (set_key m v).
Proof. setter_ok. Qed.
Lemma mock_ok_set_value m v : ok m -> wf_bytes v -> ok (set_value m v).
Proof. setter_ok. Qed.
Lemma mock_ok_set_type m v : ok m -> 0 <= v <= 4 -> ok (set_type m v).
Proof. setter_ok. Qed.
Lemma mock_ok_set_end_key m v : ok m -> wf_bytes v -> ok (set_end_key m v).
Proof. setter_ok. Qed.
Lemma mock_ok_set_unknown_fields m u : ok m -> ok (set_unknown_fields m u).
Proof. setter_ok. Qed.
#[local] Hint Resolve mock_ok_set_column_type mock_ok_set_key mock_ok_set_value mock_ok_set_type mock_ok_set_end_key mock_ok_set_unknown_fields : msg_ok.

Section Facts.
Context `{CodedLibLaws}.

Lemma mock_ok_MergeFrom m from : ok m -> ok from -> ok (MergeFrom m from).
Proof.
  intros Hm []. unfold MergeFrom. apply mock_ok_set_unknown_fields.
  destruct (has_bit (has_bits_ from) 255); [|done]. repeat case_match; auto 10 with msg_ok.
Qed.

Lemma mock_label_reads n m s p m' s' : 0 <= recursion_depth_ s -> label n m s = Some (p, m', s') -> reads s s'.
Proof.
  intros _. unfold label. label_cases;
    (eapply reads_advances_trans; [|eassumption]); field_reads.
Qed.

Lemma mock_label_ok n m s p m' s' :
  0 <= recursion_depth_ s -> ok m -> wf_bytes (buffer_ s) -> label n m s = Some (p, m', s') -> ok m'.
Proof.
  intros _ Hm Hw. unfold label. label_cases; try field_range; auto with msg_ok.
  destruct (MockData_Type_IsValid _) eqn:E; [|auto with msg_ok]. apply MockData_Type_range in E. auto with msg_ok.
Qed.

Lemma mock_Merge_advances m s m' s' :
  0 <= recursion_depth_ s -> MergePartialFromCodedStream m s = Some (m', s') -> advances s s'.
Proof. apply merge_loop_advances, mock_label_reads. Qed.

Lemma mock_Merge_ok m s m' s' :
  0 <= recursion_depth_ s -> wf_bytes (buffer_ s) -> ok m -> MergePartialFromCodedStream m s = Some (m', s') -> ok m'.
Proof.
  apply (merge_loop_inv _ _ _ _ mock_label_reads ok); [apply mock_label_ok|]. intros. by apply mock_ok_set_unknown_fields.
Qed.

Lemma mock_Merge_ends m s :
  0 <= recursion_depth_ s ->
  parse cases label unknown_fields_ set_unknown_fields (S (length (buffer_ s))) NextTag m s <> OutOfFuel.
Proof. intros Hd. apply parse_ends; [apply mock_label_reads|done|lia]. Qed.

Definition size (m : t) : Z :=
  opt_size (has_column_type m) (1 + UInt32Size (column_type_ m)) +
  opt_size (has_key m) (1 + BytesSize (key_ m)) +
  opt_size (has_value m) (1 + BytesSize (value_ m)) +
  opt_size (has_type m) (1 + EnumSize (type_ m)) +
  opt_size (has_end_key m) (1 + BytesSize (end_key_ m)) +
  opt_size (negb (unknown_empty (unknown_fields_ m))) (ComputeUnknownFieldsSize (unknown_fields_ m)).

Lemma mock_ByteSize_sum m : ByteSize m = (size m, set_cached_size m (size m)).
Proof.
  unfold ByteSize. cbv zeta. match goal with |- (?a, _) = _ => assert (a = size m) as -> end; [|done].
  unfold size, has_column_type, has_key, has_value, has_type, has_end_key. destruct (has_bit (has_bits_ m) 255) eqn:E.
  - unfold opt_size. repeat case_match; lia.
  - rewrite !(no_bits _ 255 _ E) by reflexivity. unfold opt_size. repeat case_match; lia.
Qed.

Lemma mock_size_parts m : ok m ->
  0 <= opt_size (has_column_type m) (1 + UInt32Size (column_type_ m)) /\
  0 <= opt_size (has_key m) (1 + BytesSize (key_ m)) /\
  0 <= opt_size (has_value m) (1 + BytesSize (value_ m)) /\
  0 <= opt_size (has_type m) (1 + EnumSize (type_ m)) /\
  0 <= opt_size (has_end_key m) (1 + BytesSize (end_key_ m)) /\
  0 <= opt_size (negb (unknown_empty (unknown_fields_ m))) (ComputeUnknownFieldsSize (unknown_fields_ m)).
Proof.
  intros []. split_and!; apply opt_size_nonneg; unfold UInt32Size, UInt64Size;
    try match goal with |- context [VarintSize32 ?v] => pose proof (VarintSize32_pos v ltac:(done)) end;
    try match goal with |- context [VarintSize64 ?v] => pose proof (VarintSize64_pos v ltac:(done)) end;
    try match goal with |- context [BytesSize ?v] => pose proof (BytesSize_bound v) end;
    try match goal with |- context [EnumSize ?v] => pose proof (EnumSize_pos v ltac:(lia)) end;
    rewrite ?ComputeUnknownFieldsSize_spec; lia.
Qed.

Lemma mock_small_parts m : ok m -> size m < 2 ^ 31 ->
  (has_key m = true -> Z.of_nat (length (key_ m)) < 2 ^ 31) /\
  (has_value m = true -> Z.of_nat (length (value_ m)) < 2 ^ 31) /\
  (has_end_key m = true -> Z.of_nat (length (end_key_ m)) < 2 ^ 31).
Proof.
  intros Hok Hs. pose proof (mock_size_parts m Hok) as (? & ? & ? & ? & ? & ?). unfold size in Hs.
  split_and!; intros E; rewrite E in *; cbn [opt_size] in *;
    match goal with |- context [length ?b] => pose proof (BytesSize_bound b) end; lia.
Qed.

Lemma mock_length_array m : ok m -> size m < 2 ^ 31 -> Z.of_nat (length (SerializeWithCachedSizesToArray m)) = size m.
Proof.
  intros Hok Hs. destruct (mock_small_parts m Hok Hs) as (Hkey & Hvalue & Hend_key). destruct Hok.
  unfold SerializeWithCachedSizesToArray, size. rewrite !length_app, !Nat2Z.inj_add.
  rewrite !opt_UInt32, !opt_Bytes, !opt_Enum, opt_unknown by (done || unfold small_field; lia). lia.
Qed.

Lemma mock_Serialize_array m out : SerializeWithCachedSizes m out = out ++ SerializeWithCachedSizesToArray m.
Proof.
  unfold SerializeWithCachedSizes, SerializeWithCachedSizesToArray. cbv zeta.
  rewrite !WriteUInt32_spec, !WriteBytes_spec, !WriteEnum_spec, SerializeUnknownFields_spec.
  repeat case_match; rewrite ?app_nil_r, <- ?app_assoc; reflexivity.
Qed.

Lemma mock_type_label m m' s s' :
  0 <= type_ m <= 4 -> ReadPrimitive_ENUM s = Some (type_ m, s') ->
  label 4 m' s = after_field [(42, 5)] false (set_type m' (type_ m)) s'.
Proof. intros Ht E. cbn [label]. rewrite E. cbn [mbind option_bind]. by rewrite (proj2 (MockData_Type_range _) Ht). Qed.

Lemma mock_consumes_array m :
  ok m -> unknown_fields_ m = [] -> size m < 2 ^ 31 ->
  consumes cases label unknown_fields_ set_unknown_fields 0 (SerializeWithCachedSizesToArray m) (fun m0 => MergeFrom m0 m).
Proof.
  intros Hok Hu Hs. destruct (mock_small_parts m Hok Hs) as (Hkey & Hvalue & Hend_key). destruct Hok.
  unfold SerializeWithCachedSizesToArray. rewrite Hu. cbn [unknown_empty negb]. rewrite app_nil_r.
  eapply consumes_ext; cycle 1.
  - eapply consumes_app; [apply consumes_if; intros _; unshelve eapply (consumes_UInt32 _ _ _ _ 0 1 [(18, 2)] false _ _ _ set_column_type); field_side|].
    eapply consumes_app; [apply consumes_if; intros E; unshelve eapply (consumes_Bytes _ _ _ _ 0 2 [(26, 3)] false _ _ _ set_key); [field_side..|by apply Hkey|done]|].
    eapply consumes_app; [apply consumes_if; intros E; unshelve eapply (consumes_Bytes _ _ _ _ 0 3 [(32, 4)] false _ _ _ set_value); [field_side..|by apply Hvalue|done]|].
    eapply consumes_app; [apply consumes_if; intros E; unshelve eapply (consumes_Enum _ _ _ _ 0 4 [(42, 5)] false _ _ _ (fun m' => set_type m' (type_ m))); [field_side..|lia|intros; by apply mock_type_label]|].
    apply consumes_if; intros E; unshelve eapply (consumes_Bytes _ _ _ _ 0 5 [] true _ _ _ set_end_key); [field_side..|by apply Hend_key|done].
  - intros m0. cbn beta. unfold MergeFrom. cbv zeta. rewrite Hu, UnknownFieldSet_MergeFrom_spec, app_nil_r.
    unfold has_column_type, has_key, has_value, has_type, has_end_key.
    destruct (has_bit (has_bits_ m) 255) eqn:E.
    + repeat case_match; by destruct m0.
    + rewrite !(no_bits _ 255 _ E) by reflexivity. by destruct m0.
Qed.

Lemma mock_MergeFrom_New m : ok m -> unknown_fields_ m = [] -> MergeFrom New m = set_cached_size m 0.
Proof.
  intros Hok Hu. pose proof (has_bits_sum (has_bits_ m) ltac:(destruct Hok; lia)) as Hb.
  rewrite ?(high_bit (has_bits_ m) 5 0x10), ?(high_bit (has_bits_ m) 5 0x20), ?(high_bit (has_bits_ m) 5 0x40) in Hb
    by (first [apply (ok_has_bits m Hok) | lia | reflexivity]).
  destruct Hok as [? ? ? ? ? ? Ncolumn_type Nkey Nvalue Ntype Nend_key].
  unfold MergeFrom. cbv zeta. rewrite Hu, UnknownFieldSet_MergeFrom_spec, app_nil_r.
  unfold has_column_type, has_key, has_value, has_type, has_end_key in *.
  destruct (has_bit (has_bits_ m) 255) eqn:E.
  - destruct m as [f_column_type f_key f_value f_type f_end_key hb u c]. cbn in *. subst u. unfold set_cached_size. cbn.
    repeat case_match; cbn in *; subst hb; rewrite ?Ncolumn_type, ?Nkey, ?Nvalue, ?Ntype, ?Nend_key by done; reflexivity.
  - rewrite !(no_bits _ 255 _ E) in * by reflexivity. destruct m as [f_column_type f_key f_value f_type f_end_key hb u c]. cbn in *.
    subst u hb. unfold set_cached_size. cbn. by rewrite Ncolumn_type, Nkey, Nvalue, Ntype, Nend_key.
Qed.

#[global] Instance embedded : Embedded t := {|
  merge_from := MergeFrom; valid := ok; plain m := ok m /\ unknown_fields_ m = []; size_of := size;
  sized m := set_cached_size m (size m); fresh m := set_cached_size m 0 |}.

#[global] Instance embedded_laws : EmbeddedLaws t.
Proof.
  split; cbn [merge_from valid plain size_of sized fresh embedded Wire.MergePartialFromCodedStream Wire.ByteSize Wire.GetCachedSize
              Wire.SerializeWithCachedSizes Wire.SerializeWithCachedSizesToArray Wire.New message].
  - apply mock_ok_New.
  - apply mock_Merge_ok.
  - apply mock_Merge_advances.
  - apply mock_ByteSize_sum.
  - done.
  - intros m Hok. pose proof (mock_size_parts m Hok). unfold size. lia.
  - intros m Hok Hs. exact (mock_length_array m Hok Hs).
  - apply mock_Serialize_array.
  - intros m s [Hok Hu] Hs Hst Hb. change (buffer_ s = SerializeWithCachedSizesToArray m) in Hb.
    rewrite <- mock_MergeFrom_New by done.
    by apply (wire_loop_spec _ _ _ _ mock_label_reads 0 _ (fun m0 => MergeFrom m0 m) New s (mock_consumes_array m Hok Hu Hs)).
  - by intros m [].
  - apply mock_ok_MergeFrom.
  - intros m []. by apply mock_MergeFrom_New.
Qed.
End Facts.
End MockData.

(** ** [StoreDocValue] *)
Module StoreDocValue.
Definition t : Type := ListMessage.t StoreIndexField.t.

Definition fields (m : t) : list StoreIndexField.t := ListMessage.list_ m.

Section Operations.
Context `{CodedLib}.

Definition New : t := ListMessage.New.
Definition add_fields (m : t) (v : StoreIndexField.t) : t := ListMessage.add_list m v.
Definition Clear (m : t) : t := ListMessage.Clear m.
Definition IsInitialized (m : t) : bool := ListMessage.IsInitialized m.
Definition MergeFrom (m from : t) : t := ListMessage.MergeFrom m from.
Definition CopyFrom (m from : t) : t := ListMessage.CopyFrom m from.
Definition Swap (m other : t) : t * t := ListMessage.Swap m other.
Definition MergePartialFromCodedStream (m : t) (s : CodedInputStream) : option (t * CodedInputStream) :=
  ListMessage.MergePartialFromCodedStream m s.
Definition SerializeWithCachedSizes (m : t) (out : bytes) : bytes := ListMessage.SerializeWithCachedSizes m out.
Definition SerializeWithCachedSizesToArray (m : t) : bytes := ListMessage.SerializeWithCachedSizesToArray m.
Definition ByteSize (m : t) : Z * t := ListMessage.ByteSize m.

#[global] Instance message : MessageLite t := {|
  Wire.New := New; Wire.Clear := Clear; Wire.IsInitialized := IsInitialized;
  Wire.MergePartialFromCodedStream := MergePartialFromCodedStream; Wire.ByteSize := ByteSize;
  Wire.GetCachedSize := ListMessage.cached_size_; Wire.SerializeWithCachedSizes := SerializeWithCachedSizes;
  Wire.SerializeWithCachedSizesToArray := SerializeWithCachedSizesToArray |}.
End Operations.
End StoreDocValue.

(** ** [MockDataList] *)
Module MockDataList.
Definition t : Type := ListMessage.t MockData.t.

Definition mock_data_list (m : t) : list MockData.t := ListMessage.list_ m.

Section Operations.
Context `{CodedLib}.

Definition New : t := ListMessage.New.
Definition add_mock_data_list (m : t) (v : MockData.t) : t := ListMessage.add_list m v.
Definition Clear (m : t) : t := ListMessage.Clear m.
Definition IsInitialized (m : t) : bool := ListMessage.IsInitialized m.
Definition MergeFrom (m from : t) : t := ListMessage.MergeFrom m from.
Definition CopyFrom (m from : t) : t := ListMessage.CopyFrom m from.
Definition Swap (m other : t) : t * t := ListMessage.Swap m other.
Definition MergePartialFromCodedStream (m : t) (s : CodedInputStream) : option (t * CodedInputStream) :=
  ListMessage.MergePartialFromCodedStream m s.
Definition SerializeWithCachedSizes (m : t) (out : bytes) : bytes := ListMessage.SerializeWithCachedSizes m out.
Definition SerializeWithCachedSizesToArray (m : t) : bytes := ListMessage.SerializeWithCachedSizesToArray m.
Definition ByteSize (m : t) : Z * t := ListMessage.ByteSize m.

#[global] Instance message : MessageLite t := {|
  Wire.New := New; Wire.Clear := Clear; Wire.IsInitialized := IsInitialized;
  Wire.MergePartialFromCodedStream := MergePartialFromCodedStream; Wire.ByteSize := ByteSize;
  Wire.GetCachedSize := ListMessage.cached_size_; Wire.SerializeWithCachedSizes := SerializeWithCachedSizes;
  Wire.SerializeWithCachedSizesToArray := SerializeWithCachedSizesToArray |}.
End Operations.
End MockDataList.
