(* ===== verification/Codec.v ===== *)
(** Keys of the store: [CodecImpl::Encode...Key] and [DecodeInvertedKey]
    ([codec_impl.cpp]).

    The store keeps the columns sorted by key; the theorems say that a key
    determines the table, field, term or document it was built from, that keys
    of one table are contiguous, and that the order of the keys of one table is
    the order of the document ids, respectively of the terms. *)
From S2P Require Import Prelude Storage Coding.

Definition EncodeStoredFieldKey (table : TableID) (document_id : Z) (document_key : bytes) : bytes :=
  let document_key := AppendFixed8 document_key (business_type table) in
  let document_key := AppendFixed64 document_key (partition_set table) in
  AppendFixed64 document_key document_id.

Definition EncodeMetaKey (table : TableID) (meta_key : bytes) : bytes :=
  let meta_key := AppendFixed8 meta_key (business_type table) in
  AppendFixed64 meta_key (partition_set table).

Definition EncodeInvertedKey (table : TableID) (field_id : Z) (term key : bytes) : bytes :=
  let key := AppendFixed8 key (business_type table) in
  let key := AppendFixed64 key (partition_set table) in
  let key := AppendFixed8 key field_id in
  AppendBuffer key term.

(** The decoded (business type, partition set, field id, term), or [None] for
    [false]. *)
Definition DecodeInvertedKey (inverted_key : bytes) : option (Z * Z * Z * bytes) :=
  if bool_decide (length inverted_key < 10)%nat then None
  else
    '(business_type, key) ← RemoveFixed8 inverted_key;
    '(partition_set, key) ← RemoveFixed64 key;
    '(field_id, key) ← RemoveFixed8 key;
    Some (business_type, partition_set, field_id, Slice.ToString false key).

(** The parse of [DebugStoredFieldKey] (the printed text is not modelled);
    [None] is the failed [assert(slice.empty())]. *)
Definition DebugStoredFieldKey (key : bytes) : option (Z * Z * Z) :=
  '(business_type, slice) ← RemoveFixed8 key;
  '(partition_set, slice) ← RemoveFixed64 slice;
  '(document_id, slice) ← RemoveFixed64 slice;
  if Slice.empty slice then Some (business_type, partition_set, document_id) else None.

Definition DebugMetaKey (key : bytes) : option (Z * Z) :=
  '(business_type, slice) ← RemoveFixed8 key;
  '(partition_set, slice) ← RemoveFixed64 slice;
  if Slice.empty slice then Some (business_type, partition_set) else None.

Definition EncodeSequenceMetaKey (table : TableID) (key : bytes) : bytes :=
  let key := AppendFixed8 key (business_type table) in
  let key := AppendFixed64 key (partition_set table) in
  AppendFixed8 key 0.

Definition EncodeSequenceMappingKey (table : TableID) (user_id key : bytes) : bytes :=
  let key := AppendFixed8 key (business_type table) in
  let key := AppendFixed64 key (partition_set table) in
  let key := AppendFixed8 key 1 in
  key ++ user_id.

(** ** The shape of the keys *)

Definition table_prefix (t : TableID) : bytes :=
  business_type t :: be_bytes 8 (partition_set t).

Lemma length_table_prefix t : length (table_prefix t) = 9%nat.
Proof. done. Qed.

Lemma table_prefix_inj t1 t2 :
  wf_table t1 -> wf_table t2 -> table_prefix t1 = table_prefix t2 -> t1 = t2.
Proof.
  intros [_ Hp1] [_ Hp2] H. destruct t1 as [b1 p1], t2 as [b2 p2].
  unfold table_prefix in H; cbn [business_type partition_set] in *.
  assert (b1 = b2) as -> by congruence. f_equal.
  apply (be_bytes_inj 8); [done..|]. congruence.
Qed.

Lemma EncodeMetaKey_spec t : wf_table t -> EncodeMetaKey t [] = table_prefix t.
Proof.
  intros [Hb Hp]. unfold EncodeMetaKey. rewrite AppendFixed8_spec by done.
  by rewrite AppendFixed64_spec by done.
Qed.

Lemma EncodeStoredFieldKey_spec t d :
  wf_table t -> is_u64 d -> EncodeStoredFieldKey t d [] = table_prefix t ++ be_bytes 8 d.
Proof.
  intros [Hb Hp] Hd. unfold EncodeStoredFieldKey. rewrite AppendFixed8_spec by done.
  by rewrite !AppendFixed64_spec by done.
Qed.

Lemma EncodeInvertedKey_spec t f term :
  wf_table t -> is_byte f -> EncodeInvertedKey t f term [] = table_prefix t ++ f :: term.
Proof.
  intros [Hb Hp] Hf. unfold EncodeInvertedKey, AppendBuffer.
  rewrite AppendFixed8_spec by done. rewrite AppendFixed64_spec by done.
  rewrite AppendFixed8_spec by done. by rewrite <- app_assoc.
Qed.

Lemma EncodeSequenceMetaKey_spec t :
  wf_table t -> EncodeSequenceMetaKey t [] = table_prefix t ++ [0].
Proof.
  intros [Hb Hp]. unfold EncodeSequenceMetaKey. rewrite AppendFixed8_spec by done.
  rewrite AppendFixed64_spec by done. by rewrite AppendFixed8_spec by done.
Qed.

Lemma EncodeSequenceMappingKey_spec t u :
  wf_table t -> EncodeSequenceMappingKey t u [] = table_prefix t ++ 1 :: u.
Proof.
  intros [Hb Hp]. unfold EncodeSequenceMappingKey. rewrite AppendFixed8_spec by done.
  rewrite AppendFixed64_spec by done. rewrite AppendFixed8_spec by done.
  by rewrite <- app_assoc.
Qed.

#[export] Hint Rewrite EncodeMetaKey_spec EncodeStoredFieldKey_spec EncodeInvertedKey_spec
  EncodeSequenceMetaKey_spec EncodeSequenceMappingKey_spec using done : wws_keys.

Lemma prefix_app_inj t1 t2 (a b : bytes) :
  wf_table t1 -> wf_table t2 ->
  table_prefix t1 ++ a = table_prefix t2 ++ b -> t1 = t2 /\ a = b.
Proof.
  intros H1 H2 H. apply app_inj_1 in H as [H ->]; [|done].
  split; [|done]. by apply table_prefix_inj.
Qed.

Lemma EncodeStoredFieldKey_inj t1 t2 d1 d2 :
  wf_table t1 -> wf_table t2 -> is_u64 d1 -> is_u64 d2 ->
  EncodeStoredFieldKey t1 d1 [] = EncodeStoredFieldKey t2 d2 [] -> t1 = t2 /\ d1 = d2.
Proof.
  intros Ht1 Ht2 Hd1 Hd2. autorewrite with wws_keys.
  intros [-> H]%prefix_app_inj; try done. split; [done|]. by apply (be_bytes_inj 8) in H.
Qed.

Lemma EncodeInvertedKey_inj t1 t2 f1 f2 a b :
  wf_table t1 -> wf_table t2 -> is_byte f1 -> is_byte f2 ->
  EncodeInvertedKey t1 f1 a [] = EncodeInvertedKey t2 f2 b [] -> t1 = t2 /\ f1 = f2 /\ a = b.
Proof.
  intros Ht1 Ht2 Hf1 Hf2. autorewrite with wws_keys.
  intros [-> H]%prefix_app_inj; try done. split; [done|]. by injection H.
Qed.

(** A prefix query scans exactly the keys of its table and field whose term
    starts with the queried prefix. *)
Lemma EncodeInvertedKey_prefix t1 t2 f1 f2 p term :
  wf_table t1 -> wf_table t2 -> is_byte f1 -> is_byte f2 ->
  starts_with (EncodeInvertedKey t1 f1 p []) (EncodeInvertedKey t2 f2 term []) = true
  <-> t1 = t2 /\ f1 = f2 /\ starts_with p term = true.
Proof.
  intros Ht1 Ht2 Hf1 Hf2. autorewrite with wws_keys. split.
  - intros [s H]%starts_with_spec. rewrite <- app_assoc in H.
    apply prefix_app_inj in H as [-> H]; try done. injection H as -> ->.
    split; [done|]. split; [done|]. apply starts_with_spec. by exists s.
  - intros (-> & -> & H). rewrite starts_with_app. simpl. by rewrite Z.eqb_refl.
Qed.

Lemma RemoveFixed8_prefix t s :
  RemoveFixed8 (table_prefix t ++ s) = Some (business_type t, be_bytes 8 (partition_set t) ++ s).
Proof. apply RemoveFixed8_cons. Qed.

(** The decoder of inverted keys inverts the encoder. *)
Theorem DecodeInvertedKey_roundtrip t f term :
  wf_table t -> is_byte f ->
  DecodeInvertedKey (EncodeInvertedKey t f term []) =
  Some (business_type t, partition_set t, f, term).
Proof.
  intros Ht Hf. autorewrite with wws_keys. unfold DecodeInvertedKey.
  rewrite bool_decide_false by (rewrite length_app, length_table_prefix; simpl; lia).
  rewrite RemoveFixed8_prefix. cbn [mbind option_bind].
  rewrite RemoveFixed64_be by (by destruct Ht). cbn [mbind option_bind].
  by rewrite RemoveFixed8_cons.
Qed.

Lemma DecodeInvertedKey_roundtrip_witness :
  DecodeInvertedKey (EncodeInvertedKey (mkTable 3 258) 7 [104; 105] []) = Some (3, 258, 7, [104; 105]).
Proof.
  apply (DecodeInvertedKey_roundtrip (mkTable 3 258) 7 [104; 105]);
    unfold wf_table, is_byte, is_u64; simpl; lia.
Defined.

(** The keys of the stored and doc-value columns follow the order of the
    document ids within a table, and no two (table, document) pairs share a
    key. *)
Theorem EncodeStoredFieldKey_order t1 t2 d1 d2 :
  wf_table t1 -> wf_table t2 -> is_u64 d1 -> is_u64 d2 ->
  (t1 = t2 ->
   bytes_cmp (EncodeStoredFieldKey t1 d1 []) (EncodeStoredFieldKey t2 d2 []) = Z.compare d1 d2) /\
  (EncodeStoredFieldKey t1 d1 [] = EncodeStoredFieldKey t2 d2 [] -> t1 = t2 /\ d1 = d2) /\
  DebugStoredFieldKey (EncodeStoredFieldKey t1 d1 []) =
    Some (business_type t1, partition_set t1, d1).
Proof.
  intros Ht1 Ht2 Hd1 Hd2. split; [|split; [by apply EncodeStoredFieldKey_inj|]].
  - intros <-. autorewrite with wws_keys. rewrite bytes_cmp_app_same.
    by apply (bytes_cmp_be 8).
  - autorewrite with wws_keys. unfold DebugStoredFieldKey. rewrite RemoveFixed8_prefix.
    cbn [mbind option_bind]. rewrite RemoveFixed64_be by (by destruct Ht1).
    cbn [mbind option_bind]. rewrite <- (app_nil_r (be_bytes 8 d1)).
    by rewrite RemoveFixed64_be by done.
Qed.

Lemma EncodeStoredFieldKey_order_witness :
  bytes_cmp (EncodeStoredFieldKey (mkTable 1 2) 255 []) (EncodeStoredFieldKey (mkTable 1 2) 256 []) = Lt.
Proof.
  apply (EncodeStoredFieldKey_order (mkTable 1 2) (mkTable 1 2) 255 256);
    unfold wf_table, is_byte, is_u64; simpl; try lia. done.
Defined.
