(* ===== verification/DocList.v ===== *)
(** Document lists: the values of the inverted index.

    - [codec_doclist.h]: the one-byte header;
    - [doclist_compression.h/.cpp]: delta + varint encoding with a block of
      deleted positions ([DocListDelDeltaBuffer], [DocListDeltaBuffer],
      [DocListCompressionEncoder], [DocListCompressionDecoder]);
    - [codec_doclist_impl.h/.cpp]: the two writers and the reader with its
      binary search [Advance];
    - [codec_impl.cpp]: the choice of the writer and [DecodeDocListToFixBytes].

    An entry of a list is a pair (document id, state).  [None] is a failed
    [assert] for the writers and the reader, and [false] for the decoder. *)
From S2P Require Import Prelude Storage Coding.

(** ** Header *)
Record DocListHeader := mkHeader { version : Z; flag : Z; extend : Z }.

(** The bit fields of the packed one-byte struct: version:4, flag:3, extend:1. *)
Definition header_byte (h : DocListHeader) : Z :=
  Z.land (version h) 15 + 16 * Z.land (flag h) 7 + 128 * Z.land (extend h) 1.

Definition header_of_byte (b : Z) : DocListHeader :=
  mkHeader (Z.land b 15) (Z.land (Z.shiftr b 4) 7) (Z.land (Z.shiftr b 7) 1).

Definition sizeof_DocListHeader : nat := 1.

Inductive DocListCompressionType :=
| DocListCompressionFixType
| DocListCompressionVarLenBlockType.

Definition compression_num (t : DocListCompressionType) : Z :=
  match t with
  | DocListCompressionFixType => 0
  | DocListCompressionVarLenBlockType => 1
  end.

(** ** Compression *)
Record DocListDelDeltaBuffer := mkDelDelta {
  del_num_ : Z; last_pos_ : Z; del_position_ : list Z }.

Definition AddDeletePos (b : DocListDelDeltaBuffer) (pos : Z) : option DocListDelDeltaBuffer :=
  if negb (match del_position_ b with [] => true | _ => false end) && (pos <=? last_pos_ b)
  then None
  else Some (mkDelDelta (u32 (del_num_ b + 1)) (u32 pos) (del_position_ b ++ [u32 pos])).

Fixpoint put_del_deltas (buffer : bytes) (prev_pos : Z) (l : list Z) : bytes :=
  match l with
  | [] => buffer
  | pos :: l' => put_del_deltas (PutVarint32 buffer (u32 (pos - prev_pos))) pos l'
  end.

Definition DelDelta_SerializeToString (b : DocListDelDeltaBuffer) (buffer : bytes) : option bytes :=
  if negb (del_num_ b =? 0) then
    let buffer := PutVarint32 buffer (del_num_ b) in
    if del_num_ b =? Z.of_nat (length (del_position_ b))
    then Some (put_del_deltas buffer 0 (del_position_ b))
    else None
  else Some buffer.

Record DocListDeltaBuffer := mkDelta { last_docid_ : Z; doc_list_ : list Z }.

Definition Delta_AddDoc (b : DocListDeltaBuffer) (doc_id : Z) : option DocListDeltaBuffer :=
  if negb (match doc_list_ b with [] => true | _ => false end) && (last_docid_ b <=? doc_id)
  then None
  else Some (mkDelta doc_id (doc_list_ b ++ [doc_id])).

Fixpoint put_doc_deltas (buffer : bytes) (prev_doc_id : Z) (l : list Z) : option bytes :=
  match l with
  | [] => Some buffer
  | doc_id :: l' =>
      buffer ← (if prev_doc_id =? 0 then PutVarint64 buffer doc_id
                else PutVarint64 buffer (u64 (prev_doc_id - doc_id)));
      put_doc_deltas buffer doc_id l'
  end.

Definition Delta_SerializeToString (b : DocListDeltaBuffer) (buffer : bytes) : option bytes :=
  put_doc_deltas buffer 0 (doc_list_ b).

Record DocListCompressionEncoder := mkEncoder {
  header : DocListHeader;
  del_buffer : DocListDelDeltaBuffer;
  delta_buffer : DocListDeltaBuffer;
  pos_ : Z;
  has_del_ : bool }.

Definition new_encoder : DocListCompressionEncoder :=
  mkEncoder (mkHeader (compression_num DocListCompressionVarLenBlockType) 0 0)
    (mkDelDelta 0 0 []) (mkDelta 0 []) 0 false.

Definition Encoder_AddDoc (e : DocListCompressionEncoder) (doc_id : Z) (is_del : bool) :
    option DocListCompressionEncoder :=
  delta ← Delta_AddDoc (delta_buffer e) doc_id;
  '(del, has_del) ← (if is_del then
                       del ← AddDeletePos (del_buffer e) (pos_ e); Some (del, true)
                     else Some (del_buffer e, has_del_ e));
  Some (mkEncoder (header e) del delta (pos_ e + 1) has_del).

Definition Encoder_SerializeToString (e : DocListCompressionEncoder) : option bytes :=
  let h := if has_del_ e then mkHeader (version (header e)) 1 (extend (header e)) else header e in
  let buffer := [header_byte h] in
  buffer ← (if has_del_ e then DelDelta_SerializeToString (del_buffer e) buffer else Some buffer);
  Delta_SerializeToString (delta_buffer e) buffer.

(** [for (i = 0; i < del_num; i++)] of the decoder. *)
Fixpoint get_del_positions (n : nat) (slice : bytes) (prev_pos : Z) (acc : list Z) :
    option (list Z * bytes) :=
  match n with
  | O => Some (acc, slice)
  | S n' =>
      '(pos, slice) ← GetVarint32 slice;
      get_del_positions n' slice (u32 (prev_pos + pos)) (acc ++ [u32 (prev_pos + pos)])
  end.

(** The state recorded for position [doc_num] and the deleted positions still to
    be met; [None] is the [assert(false)]. *)
Definition del_state (del_position : list Z) (doc_num : Z) : option (Z * list Z) :=
  match del_position with
  | p :: rest =>
      if p =? doc_num then Some (1, rest)
      else if p <? doc_num then None
      else Some (0, del_position)
  | [] => Some (0, [])
  end.

(** The [for (;;)] loop: it stops when no further varint can be read. *)
Fixpoint get_docs (fuel : nat) (slice : bytes) (prev_doc_id doc_num : Z)
    (del_position : list Z) (fix_doclist : bytes) : option bytes :=
  match fuel with
  | O => None
  | S fuel' =>
      match GetVarint64 slice with
      | None => Some fix_doclist
      | Some (delta, slice) =>
          let doc_id := if negb (prev_doc_id =? 0) then u64 (prev_doc_id - delta) else delta in
          '(state, rest) ← del_state del_position doc_num;
          get_docs fuel' slice doc_id (doc_num + 1) rest
            (fix_doclist ++ le_bytes 8 doc_id ++ [state])
      end
  end.

(** [Decode]: appends the fixed-size list to [fix_doclist]. *)
Definition Decode (data : bytes) (fix_doclist : bytes) : option bytes :=
  match data with
  | [] => None
  | b :: slice =>
      let h := header_of_byte b in
      if negb (version h =? compression_num DocListCompressionVarLenBlockType) then None
      else
        let fix_doclist := fix_doclist ++ [b] in
        '(del_position, slice) ←
          (if negb (flag h =? 0) then
             '(del_num, slice) ← GetVarint32 slice;
             get_del_positions (Z.to_nat del_num) slice 0 []
           else Some ([], slice));
        get_docs (S (length slice)) slice 0 0 del_position fix_doclist
  end.

(** ** Writers *)
Inductive DocListWriterCodec :=
| DocListOrderWriter (data_ : bytes)
| CompressionWriter (encoder_ : DocListCompressionEncoder).

Definition new_order_writer : DocListWriterCodec :=
  DocListOrderWriter (AppendBuffer [] [header_byte (mkHeader 0 0 0)]).

(** [CodecImpl::NewOrderDocListWriterCodec]. *)
Definition NewOrderDocListWriterCodec (compression_type_ : DocListCompressionType) : DocListWriterCodec :=
  match compression_type_ with
  | DocListCompressionFixType => new_order_writer
  | DocListCompressionVarLenBlockType => CompressionWriter new_encoder
  end.

Definition AddDocID (w : DocListWriterCodec) (doc_id state : Z) : option DocListWriterCodec :=
  match w with
  | DocListOrderWriter data =>
      let data := internal.AppendFixed64 data doc_id in
      let data := internal.AppendFixed8 data state in
      Some (DocListOrderWriter data)
  | CompressionWriter encoder =>
      encoder ← Encoder_AddDoc encoder doc_id (negb (state =? 0));
      Some (CompressionWriter encoder)
  end.

Definition SerializeToBytes (w : DocListWriterCodec) : option bytes :=
  match w with
  | DocListOrderWriter data => Some data
  | CompressionWriter encoder => Encoder_SerializeToString encoder
  end.

(** A list of entries pushed one after the other, the way every caller of the
    writers does. *)
Fixpoint add_all (w : DocListWriterCodec) (l : list (Z * Z)) : option DocListWriterCodec :=
  match l with
  | [] => Some w
  | (d, s) :: l' => w ← AddDocID w d s; add_all w l'
  end.

Definition write_doclist (c : DocListCompressionType) (l : list (Z * Z)) : option bytes :=
  w ← add_all (NewOrderDocListWriterCodec c) l; SerializeToBytes w.

(** [CodecImpl::DecodeDocListToFixBytes]: the fixed-size form including the
    header byte, which is the data itself when it is not compressed. *)
Definition DecodeDocListToFixBytes (data : bytes) : option bytes :=
  match data with
  | [] => None
  | b :: _ =>
      let h := header_of_byte b in
      if version h =? compression_num DocListCompressionFixType then Some data
      else if version h =? compression_num DocListCompressionVarLenBlockType then Decode data []
      else None
  end.

(** ** Reader *)
Record DocListReaderCodec := mkReader { slice_ : bytes; rpos_ : nat; field_id_ : Z }.

Definition DOC_ID_GAP : nat := 9.

(** The constructor. *)
Definition NewDocListReaderCodec (data : bytes) (field_id : Z) : option DocListReaderCodec :=
  match data with
  | [] => Some (mkReader [] 0 field_id)
  | b :: rest =>
      let h := header_of_byte b in
      if version h =? compression_num DocListCompressionFixType then
        Some (mkReader rest 0 field_id)
      else if version h =? compression_num DocListCompressionVarLenBlockType then
        buffer ← Decode data [];
        Some (mkReader (drop sizeof_DocListHeader buffer) 0 field_id)
      else None
  end.

(** [*(uint64_t* )(data + off)]. *)
Definition doc_at (data : bytes) (off : nat) : Z := le_val (take 8 (drop off data)).

Definition Reader_DocID (r : DocListReaderCodec) : Z :=
  if bool_decide (length (slice_ r) <= rpos_ r)%nat then NO_MORE_DOCS
  else doc_at (slice_ r) (rpos_ r).

Definition Reader_NextDoc (r : DocListReaderCodec) : DocListReaderCodec :=
  if negb (NO_MORE_DOCS =? Reader_DocID r)
  then mkReader (slice_ r) (rpos_ r + DOC_ID_GAP) (field_id_ r)
  else r.

(** The [while (min <= max)] loop: the final value of [curr]. *)
Fixpoint Advance_loop (fuel : nat) (ptr : bytes) (target : Z) (min max curr : nat) : option nat :=
  match fuel with
  | O => None
  | S fuel' =>
      let CURR_DOC idx := doc_at ptr (DOC_ID_GAP * idx) in
      if bool_decide (min <= max)%nat then
        let curr_doc_id := CURR_DOC curr in
        if curr_doc_id =? target then Some curr
        else
          let '(min, max) :=
            if target <? curr_doc_id then (curr, max) else (min, curr) in
          if bool_decide (max = min) then Some curr
          else if bool_decide (min + 1 = max)%nat then
            if target <? CURR_DOC min then Some max
            else if CURR_DOC min <? target then Some min
            else Some min
          else Advance_loop fuel' ptr target min max ((min + max) / 2)%nat
      else Some curr
  end.

Definition Reader_Advance (r : DocListReaderCodec) (target : Z) : option DocListReaderCodec :=
  if bool_decide (length (slice_ r) = 0%nat) then Some r
  else if target =? MAX_DOCID then Some (mkReader (slice_ r) 0 (field_id_ r))
  else
    let max_idx := (length (slice_ r) / DOC_ID_GAP)%nat in
    let min := 0%nat in
    let max := (max_idx - 1)%nat in
    curr ← Advance_loop (S max_idx) (slice_ r) target min max ((min + max) / 2)%nat;
    let r := mkReader (slice_ r) (curr * DOC_ID_GAP) (field_id_ r) in
    if target <? Reader_DocID r
    then Some (mkReader (slice_ r) (length (slice_ r)) (field_id_ r))
    else Some r.

Definition Reader_State (r : DocListReaderCodec) : option Z :=
  if bool_decide (length (slice_ r) <= rpos_ r)%nat then None
  else slice_ r !! (rpos_ r + 8)%nat.

Definition Reader_FieldId (r : DocListReaderCodec) : Z := field_id_ r.

(** [while (reader->DocID() != NO_MORE_DOCS) { ...; reader->NextDoc(); }], the
    loop of every client that reads a whole list. *)
Fixpoint Reader_entries (fuel : nat) (r : DocListReaderCodec) : option (list (Z * Z)) :=
  if Reader_DocID r =? NO_MORE_DOCS then Some []
  else
    match fuel with
    | O => None
    | S fuel' =>
        s ← Reader_State r;
        rest ← Reader_entries fuel' (Reader_NextDoc r);
        Some ((Reader_DocID r, s) :: rest)
    end.

Definition read_doclist (data : bytes) : option (list (Z * Z)) :=
  r ← NewDocListReaderCodec data (-1);
  Reader_entries (length (slice_ r)) r.

(** ** Entries and their fixed-size representation *)

Definition entry_ok (e : Z * Z) : Prop := is_u64 e.1 /\ (e.2 = 0 \/ e.2 = 1).
Definition entry_gt (a b : Z * Z) : Prop := b.1 < a.1.

(** What a list stored in the index satisfies: strictly decreasing 64-bit ids,
    the state of each is [kDocumentStateOK] or [kDocumentStateDelete]. *)
Definition wf_entries (l : list (Z * Z)) : Prop :=
  StronglySorted entry_gt l /\ Forall entry_ok l.

Definition enc_entry (e : Z * Z) : bytes := le_bytes 8 e.1 ++ [e.2].
Definition enc_entries (l : list (Z * Z)) : bytes := flat_map enc_entry l.

Lemma length_enc_entries l : length (enc_entries l) = (9 * length l)%nat.
Proof.
  induction l as [|e l IH]; [done|]. cbn [enc_entries flat_map].
  rewrite length_app. unfold enc_entries in IH. rewrite IH. simpl. lia.
Qed.

Lemma enc_entries_app a b : enc_entries (a ++ b) = enc_entries a ++ enc_entries b.
Proof. apply flat_map_app. Qed.

Lemma drop_enc_entries n l : drop (9 * n) (enc_entries l) = enc_entries (drop n l).
Proof.
  destruct (decide (n <= length l)%nat).
  - rewrite <- (take_drop n l) at 1. rewrite enc_entries_app, drop_app_length'; [done|].
    rewrite length_enc_entries, length_take. lia.
  - rewrite !drop_ge; [done|lia|rewrite length_enc_entries; lia].
Qed.

Lemma doc_at_enc l n d s :
  Forall entry_ok l -> l !! n = Some (d, s) -> doc_at (enc_entries l) (9 * n) = d.
Proof.
  intros Hf Hn. unfold doc_at. rewrite drop_enc_entries.
  rewrite (drop_S l (d, s) n) by done. cbn [enc_entries flat_map enc_entry fst snd].
  unfold enc_entry. rewrite <- app_assoc, take_app_length' by (by rewrite length_le_bytes).
  apply le_val_le_bytes_small. rewrite Forall_forall in Hf.
  by apply (Hf (d, s)), list_elem_of_lookup_2 with n.
Qed.

Lemma state_at_enc l n d s :
  l !! n = Some (d, s) -> enc_entries l !! (9 * n + 8)%nat = Some s.
Proof.
  intros Hn. rewrite <- lookup_drop, drop_enc_entries.
  by rewrite (drop_S l (d, s) n) by done.
Qed.

Lemma wf_entries_cons_inv e l :
  wf_entries (e :: l) -> wf_entries l /\ entry_ok e /\ Forall (entry_gt e) l.
Proof.
  intros [H1 H2]. apply StronglySorted_inv in H1 as [H1 H3].
  apply Forall_cons in H2 as [? ?]. done.
Qed.

Lemma wf_entries_drop n l : wf_entries l -> wf_entries (drop n l).
Proof.
  revert l. induction n as [|n IH]; intros [|e l] H; try done.
  apply wf_entries_cons_inv in H as (H & _). by apply IH.
Qed.

Lemma wf_entries_lookup_gt l i j a b :
  wf_entries l -> l !! i = Some a -> l !! j = Some b -> (i < j)%nat -> b.1 < a.1.
Proof.
  revert i j. induction l as [|e l IH]; intros i j H Hi Hj Hij; [done|].
  apply wf_entries_cons_inv in H as (H & _ & Hf). destruct j as [|j]; [lia|].
  destruct i as [|i]; simpl in *.
  - injection Hi as ->. rewrite Forall_forall in Hf.
    by apply Hf, list_elem_of_lookup_2 with j.
  - by apply (IH i j); [done..|lia].
Qed.

#[export] Hint Resolve wf_entries_drop : wws.

(** ** The writers *)

Lemma add_all_fix l data :
  Forall entry_ok l ->
  add_all (DocListOrderWriter data) l = Some (DocListOrderWriter (data ++ enc_entries l)).
Proof.
  revert data. induction l as [|[d s] l IH]; intros data Hf; simpl.
  - by rewrite app_nil_r.
  - apply Forall_cons in Hf as [[Hd Hs] Hf]. rewrite IH by done.
    unfold internal.AppendFixed64, internal.AppendFixed8. cbn [enc_entries flat_map enc_entry fst snd].
    rewrite u8_id by (simpl in *; lia). unfold enc_entry.
    by rewrite <- !app_assoc.
Qed.

Fixpoint del_positions (n : Z) (l : list (Z * Z)) : list Z :=
  match l with
  | [] => []
  | (_, s) :: l' => if s =? 0 then del_positions (n + 1) l' else n :: del_positions (n + 1) l'
  end.

Fixpoint delta_bytes (prev : Z) (l : list Z) : bytes :=
  match l with
  | [] => []
  | d :: l' => varint 9 (if prev =? 0 then d else u64 (prev - d)) ++ delta_bytes d l'
  end.

Lemma put_doc_deltas_spec l buffer prev :
  Forall is_u64 l -> put_doc_deltas buffer prev l = Some (buffer ++ delta_bytes prev l).
Proof.
  revert buffer prev. induction l as [|d l IH]; intros buffer prev Hf; simpl.
  - by rewrite app_nil_r.
  - apply Forall_cons in Hf as [Hd Hf]. destruct (prev =? 0).
    + rewrite PutVarint64_total by done. cbn [mbind option_bind]. rewrite IH by done.
      by rewrite <- app_assoc.
    + rewrite PutVarint64_total by auto with wws. cbn [mbind option_bind]. rewrite IH by done.
      by rewrite <- app_assoc.
Qed.

Fixpoint pos_bytes (prev : Z) (l : list Z) : bytes :=
  match l with
  | [] => []
  | p :: l' => varint 4 (u32 (p - prev)) ++ pos_bytes p l'
  end.

Lemma put_del_deltas_spec l buffer prev :
  put_del_deltas buffer prev l = buffer ++ pos_bytes prev l.
Proof.
  revert buffer prev. induction l as [|p l IH]; intros buffer prev; simpl.
  - by rewrite app_nil_r.
  - rewrite IH. unfold PutVarint32. rewrite EncodeVarint32_varint by auto with wws.
    by rewrite <- app_assoc.
Qed.

Lemma get_del_positions_spec l prev s acc :
  Forall is_u32 l -> is_u32 prev ->
  get_del_positions (length l) (pos_bytes prev l ++ s) prev acc = Some (acc ++ l, s).
Proof.
  revert prev acc. induction l as [|p l IH]; intros prev acc Hf Hp; cbn [length get_del_positions pos_bytes].
  - by rewrite app_nil_r.
  - apply Forall_cons in Hf as [Hp' Hf]. rewrite <- app_assoc.
    rewrite GetVarint32_varint by auto with wws. cbn [mbind option_bind].
    replace (u32 (prev + u32 (p - prev))) with p.
    + rewrite IH by done. by rewrite <- app_assoc.
    + unfold u32. rewrite Z.add_mod_idemp_r by lia.
      replace (prev + (p - prev)) with p by lia. symmetry. by apply u32_id.
Qed.

Lemma get_docs_spec l prev n acc fuel :
  Forall entry_ok l -> is_u64 prev ->
  (length (delta_bytes prev (map fst l)) < fuel)%nat ->
  get_docs fuel (delta_bytes prev (map fst l)) prev n (del_positions n l) acc =
  Some (acc ++ enc_entries l).
Proof.
  revert prev n acc fuel. induction l as [|[d s] l IH]; intros prev n acc fuel Hf Hp Hfuel.
  - destruct fuel; [simpl in Hfuel; lia|]. simpl. by rewrite app_nil_r.
  - apply Forall_cons in Hf as [[Hd Hs] Hf]. cbn [fst snd] in *.
    destruct fuel as [|fuel]; [lia|]. cbn [map delta_bytes fst get_docs] in *.
    rewrite GetVarint64_varint by (destruct (prev =? 0); auto with wws).
    rewrite length_app in Hfuel.
    pose proof (length_varint 9 (if prev =? 0 then d else u64 (prev - d))) as Hl.
    assert ((if negb (prev =? 0) then u64 (prev - (if prev =? 0 then d else u64 (prev - d)))
             else if prev =? 0 then d else u64 (prev - d)) = d) as ->.
    { destruct (prev =? 0); simpl; [done|]. unfold u64.
      rewrite Zminus_mod_idemp_r. replace (prev - (prev - d)) with d by lia.
      by apply u64_id. }
    assert (del_state (del_positions n ((d, s) :: l)) n = Some (s, del_positions (n + 1) l)) as ->.
    { cbn [del_positions]. destruct Hs as [->| ->]; cbn [Z.eqb].
      - destruct (del_positions (n + 1) l) as [|p rest] eqn:E; [done|]. cbn [del_state].
        assert (n < p) as Hlt.
        { clear -E. revert n E. induction l as [|[d s] l IH]; intros n E; [done|].
          cbn [del_positions] in E. destruct (s =? 0); [|injection E as E _; lia].
          specialize (IH _ E). lia. }
        destruct (Z.eqb_spec p n); [lia|]. destruct (Z.ltb_spec p n); [lia|]. done.
      - cbn [del_state]. by rewrite Z.eqb_refl. }
    cbn [mbind option_bind]. rewrite IH by (try done; lia).
    unfold enc_entries. cbn [flat_map enc_entry fst snd]. unfold enc_entry.
    by rewrite <- !app_assoc.
Qed.

Lemma del_positions_app n a b :
  del_positions n (a ++ b) = del_positions n a ++ del_positions (n + Z.of_nat (length a)) b.
Proof.
  revert n. induction a as [|[d s] a IH]; intros n; cbn [app del_positions length].
  - by rewrite Z.add_0_r.
  - rewrite IH, Nat2Z.inj_succ. replace (n + Z.succ (Z.of_nat (length a))) with (n + 1 + Z.of_nat (length a)) by lia.
    by destruct (s =? 0).
Qed.

Lemma del_positions_bound n l :
  Forall (fun p => n <= p < n + Z.of_nat (length l)) (del_positions n l).
Proof.
  revert n. induction l as [|[d s] l IH]; intros n; cbn [del_positions length]; [done|].
  rewrite Nat2Z.inj_succ. specialize (IH (n + 1)).
  assert (Forall (fun p => n <= p < n + Z.succ (Z.of_nat (length l))) (del_positions (n + 1) l)).
  { eapply Forall_impl; [exact IH|]. simpl. lia. }
  destruct (s =? 0); [done|]. constructor; [lia|done].
Qed.

Lemma length_del_positions n l : (length (del_positions n l) <= length l)%nat.
Proof.
  revert n. induction l as [|[d s] l IH]; intros n; cbn [del_positions length]; [done|].
  specialize (IH (n + 1)). destruct (s =? 0); simpl; lia.
Qed.

(** The encoder after the entries [l] were added. *)
Definition encoder_of (l : list (Z * Z)) : DocListCompressionEncoder :=
  let dels := del_positions 0 l in
  mkEncoder (mkHeader 1 0 0)
    (mkDelDelta (Z.of_nat (length dels)) (default 0 (last dels)) dels)
    (mkDelta (default 0 (last (map fst l))) (map fst l))
    (Z.of_nat (length l)) (match dels with [] => false | _ => true end).

Lemma Encoder_AddDoc_spec l d s :
  wf_entries (l ++ [(d, s)]) -> Z.of_nat (length l) < 2 ^ 32 - 1 ->
  Encoder_AddDoc (encoder_of l) d (negb (s =? 0)) = Some (encoder_of (l ++ [(d, s)])).
Proof.
  intros Hwf Hlen.
  assert (Delta_AddDoc (delta_buffer (encoder_of l)) d =
          Some (delta_buffer (encoder_of (l ++ [(d, s)])))) as E1.
  { unfold encoder_of, Delta_AddDoc; cbn [delta_buffer doc_list_ last_docid_].
    rewrite map_app. cbn [map fst]. rewrite last_snoc. cbn [from_option id]. destruct (last (map fst l)) as [d'|] eqn:El.
    - cbn [from_option id]. destruct (d' <=? d) eqn:Ele; [|by rewrite andb_false_r].
      exfalso. bool_simp.
      rewrite last_lookup in El. apply list_lookup_fmap_Some in El as ([d1 s1] & -> & Hi).
      rewrite length_map in Hi.
      assert (d < d1); [|simpl in *; lia].
      eapply (wf_entries_lookup_gt _ (pred (length l)) (length l) (d1, s1) (d, s)); [done| | |].
      + apply lookup_app_l_Some, Hi.
      + by rewrite lookup_app_r, Nat.sub_diag by lia.
      + apply lookup_lt_Some in Hi. lia.
    - apply last_None in El. by rewrite El. }
  unfold Encoder_AddDoc. rewrite E1. cbn [mbind option_bind].
  unfold encoder_of at 1 2 3 4 5 6; cbn [header del_buffer pos_ has_del_].
  unfold encoder_of. rewrite del_positions_app, length_app, Z.add_0_l. cbn [del_positions length].
  pose proof (del_positions_bound 0 l) as Hb. pose proof (length_del_positions 0 l) as Hl.
  destruct (s =? 0) eqn:Es; cbn [negb mbind option_bind].
  - rewrite app_nil_r. cbn [delta_buffer]. rewrite !length_app. cbn [length].
    rewrite Nat.add_0_r. do 2 f_equal. lia.
  - unfold AddDeletePos; cbn [del_position_ last_pos_ del_num_].
    assert (default 0 (last (del_positions 0 l)) < Z.of_nat (length l) \/ del_positions 0 l = []) as Hlast.
    { destruct (last (del_positions 0 l)) as [p|] eqn:El; [left|by right; apply last_None].
      rewrite last_lookup in El. rewrite Forall_forall in Hb.
      specialize (Hb p (list_elem_of_lookup_2 _ _ _ El)). simpl in *. lia. }
    assert (negb (match del_positions 0 l with [] => true | _ => false end) &&
            (Z.of_nat (length l) <=? default 0 (last (del_positions 0 l))) = false) as ->.
    { destruct Hlast as [Hlast| ->]; [|done]. apply andb_false_iff. right. apply Z.leb_gt. lia. }
    cbn [mbind option_bind delta_buffer].
    rewrite last_snoc, !length_app. cbn [from_option id length].
    rewrite !u32_id by (unfold is_u32; lia).
    do 2 f_equal; [f_equal; lia|lia|by destruct (del_positions 0 l)].
Qed.

Lemma add_all_compressed l pre :
  wf_entries (pre ++ l) -> Z.of_nat (length (pre ++ l)) < 2 ^ 32 ->
  add_all (CompressionWriter (encoder_of pre)) l = Some (CompressionWriter (encoder_of (pre ++ l))).
Proof.
  revert pre. induction l as [|[d s] l IH]; intros pre Hwf Hlen; cbn [add_all].
  - by rewrite app_nil_r.
  - cbn [AddDocID]. rewrite (cons_middle (d, s) pre l), app_assoc in Hwf.
    rewrite length_app in Hlen. cbn [length] in Hlen.
    assert (wf_entries (pre ++ [(d, s)])).
    { destruct Hwf as [H1 H2]. apply StronglySorted_app_1_l in H1.
      apply Forall_app in H2 as [? ?]. done. }
    rewrite Encoder_AddDoc_spec by (done || lia). cbn [mbind option_bind].
    rewrite IH.
    + by rewrite <- app_assoc.
    + done.
    + rewrite !length_app. cbn [length]. lia.
Qed.

Lemma write_doclist_fix l :
  Forall entry_ok l -> write_doclist DocListCompressionFixType l = Some (0 :: enc_entries l).
Proof.
  intros. unfold write_doclist. cbn [NewOrderDocListWriterCodec]. unfold new_order_writer.
  by rewrite add_all_fix by done.
Qed.

Lemma Forall_entry_docs l : Forall entry_ok l -> Forall is_u64 (map fst l).
Proof. induction 1 as [|e l [? ?] ? ?]; simpl; constructor; done. Qed.

Definition compressed_bytes (l : list (Z * Z)) : bytes :=
  let dels := del_positions 0 l in
  (if bool_decide (dels = []) then [1]
   else 17 :: varint 4 (Z.of_nat (length dels)) ++ pos_bytes 0 dels) ++
  delta_bytes 0 (map fst l).

Lemma write_doclist_compressed l :
  wf_entries l -> Z.of_nat (length l) < 2 ^ 32 ->
  write_doclist DocListCompressionVarLenBlockType l = Some (compressed_bytes l).
Proof.
  intros Hwf Hlen. unfold write_doclist. cbn [NewOrderDocListWriterCodec].
  change new_encoder with (encoder_of []). rewrite add_all_compressed by done.
  cbn [mbind option_bind SerializeToBytes app]. pose proof (length_del_positions 0 l) as Hl.
  unfold Encoder_SerializeToString, encoder_of, compressed_bytes;
    cbn [has_del_ header version extend del_buffer delta_buffer].
  destruct (del_positions 0 l) as [|p rest] eqn:Ed; cbn [mbind option_bind].
  - unfold Delta_SerializeToString; cbn [doc_list_].
    rewrite put_doc_deltas_spec by (by apply Forall_entry_docs; destruct Hwf). done.
  - rewrite bool_decide_false by done. unfold DelDelta_SerializeToString; cbn [del_num_ del_position_].
    assert (length (del_positions 0 l) <> 0%nat) as Hne by (by rewrite Ed).
    rewrite <- Ed in Hl |- *.
    destruct (Z.eqb_spec (Z.of_nat (length (del_positions 0 l))) 0) as [E0|_]; [lia|].
    cbn [negb]. rewrite Z.eqb_refl. cbn [mbind option_bind].
    unfold Delta_SerializeToString; cbn [doc_list_].
    rewrite put_doc_deltas_spec by (by apply Forall_entry_docs; destruct Hwf).
    rewrite put_del_deltas_spec. unfold PutVarint32.
    rewrite EncodeVarint32_varint by (unfold is_u32; lia).
    f_equal.
Qed.

Lemma Decode_compressed l pre :
  wf_entries l -> Z.of_nat (length l) < 2 ^ 32 ->
  exists b, Decode (compressed_bytes l) pre = Some (pre ++ b :: enc_entries l).
Proof.
  intros [Hs Hf] Hlen. pose proof (length_del_positions 0 l) as Hl.
  pose proof (del_positions_bound 0 l) as Hb.
  unfold compressed_bytes. destruct (bool_decide_reflect (del_positions 0 l = [])) as [E|E].
  - exists 1. cbn [app Decode]. cbn [header_of_byte version flag].
    pose proof (get_docs_spec l 0 0 (pre ++ [1])
      (S (length (delta_bytes 0 (map fst l)))) Hf ltac:(unfold is_u64; lia) ltac:(lia)) as Hg.
    rewrite E in Hg. rewrite <- app_assoc in Hg. exact Hg.
  - exists 17. cbn [app Decode]. cbn [header_of_byte version flag].
    change (version (header_of_byte 17)) with 1. change (Z.land 17 15) with 1.
    change (Z.land (Z.shiftr 17 4) 7) with 1. cbn [compression_num Z.eqb negb Pos.eqb].
    rewrite <- !app_assoc, GetVarint32_varint by (unfold is_u32; lia). cbn [mbind option_bind].
    rewrite Nat2Z.id, get_del_positions_spec.
    + cbn [mbind option_bind app].
      rewrite get_docs_spec; [by rewrite <- app_assoc|done|unfold is_u64; lia|lia].
    + eapply Forall_impl; [exact Hb|]. unfold is_u32. simpl. lia.
    + unfold is_u32. lia.
Qed.

(** ** The reader *)

(** A list the index can hold: additionally no id is [NO_MORE_DOCS]. *)
Definition wf_docs (l : list (Z * Z)) : Prop :=
  wf_entries l /\ Forall (fun e => e.1 <> NO_MORE_DOCS) l.

(** A sublist of a well-formed list is well formed. *)
Lemma wf_docs_sublist l' l : sublist l' l -> wf_docs l -> wf_docs l'.
Proof.
  intros Hsub [[Hs Hf] Hn]. split; [split|].
  - by eapply StronglySorted_sublist.
  - by eapply Forall_sublist.
  - by eapply Forall_sublist.
Qed.

(** The reader positioned on the [n]-th entry of [l]. *)
Definition reader_of (l : list (Z * Z)) (n : nat) (field_id : Z) : DocListReaderCodec :=
  mkReader (enc_entries l) (9 * n) field_id.

(** Position of the first entry whose id is at most [t]. *)
Fixpoint first_le (t : Z) (l : list (Z * Z)) : nat :=
  match l with
  | [] => 0
  | e :: l' => if e.1 <=? t then 0 else S (first_le t l')
  end.

Lemma NewDocListReaderCodec_spec c l field_id :
  wf_entries l -> Z.of_nat (length l) < 2 ^ 32 ->
  exists data, write_doclist c l = Some data /\
    NewDocListReaderCodec data field_id = Some (reader_of l 0 field_id).
Proof.
  intros Hwf Hlen. destruct c.
  - eexists. rewrite write_doclist_fix by (by destruct Hwf). split; [done|]. done.
  - eexists. rewrite write_doclist_compressed by done. split; [done|].
    destruct (Decode_compressed l [] Hwf Hlen) as [b Hd].
    assert (exists b0 rest, compressed_bytes l = b0 :: rest /\ version (header_of_byte b0) = 1)
      as (b0 & rest & E & Hv).
    { unfold compressed_bytes. destruct (bool_decide _); eexists _, _; split; reflexivity. }
    unfold NewDocListReaderCodec. rewrite E in Hd |- *. rewrite Hv.
    cbn [compression_num Z.eqb Pos.eqb]. rewrite Hd. done.
Qed.

Lemma DecodeDocListToFixBytes_spec c l :
  wf_entries l -> Z.of_nat (length l) < 2 ^ 32 ->
  exists data b, write_doclist c l = Some data /\
    DecodeDocListToFixBytes data = Some (b :: enc_entries l).
Proof.
  intros Hwf Hlen. destruct c.
  - eexists _, _. rewrite write_doclist_fix by (by destruct Hwf). split; [done|]. done.
  - destruct (Decode_compressed l [] Hwf Hlen) as [b Hd].
    eexists _, b. rewrite write_doclist_compressed by done. split; [done|].
    assert (exists b0 rest, compressed_bytes l = b0 :: rest /\ version (header_of_byte b0) = 1)
      as (b0 & rest & E & Hv).
    { unfold compressed_bytes. destruct (bool_decide _); eexists _, _; split; reflexivity. }
    unfold DecodeDocListToFixBytes. rewrite E in Hd |- *. rewrite Hv.
    cbn [compression_num Z.eqb Pos.eqb]. exact Hd.
Qed.

Lemma Reader_DocID_spec l n f :
  wf_entries l ->
  Reader_DocID (reader_of l n f) = match l !! n with Some e => e.1 | None => NO_MORE_DOCS end.
Proof.
  intros [_ Hf]. unfold Reader_DocID, reader_of; cbn [slice_ rpos_].
  rewrite length_enc_entries. destruct (l !! n) as [[d s]|] eqn:E.
  - pose proof (lookup_lt_Some _ _ _ E). rewrite bool_decide_false by lia.
    by eapply doc_at_enc.
  - apply lookup_ge_None in E. by rewrite bool_decide_true by lia.
Qed.

Lemma Reader_State_spec l n f e :
  l !! n = Some e -> Reader_State (reader_of l n f) = Some e.2.
Proof.
  intros E. unfold Reader_State, reader_of; cbn [slice_ rpos_].
  pose proof (lookup_lt_Some _ _ _ E). rewrite length_enc_entries.
  rewrite bool_decide_false by lia. destruct e. by eapply state_at_enc.
Qed.

Lemma Reader_NextDoc_spec l n f :
  wf_docs l -> (n < length l)%nat ->
  Reader_NextDoc (reader_of l n f) = reader_of l (S n) f.
Proof.
  intros [Hwf Hnz] Hn. unfold Reader_NextDoc. rewrite Reader_DocID_spec by done.
  destruct (lookup_lt_is_Some_2 _ _ Hn) as [e E]. rewrite E.
  rewrite Forall_forall in Hnz. specialize (Hnz e (list_elem_of_lookup_2 _ _ _ E)).
  destruct (Z.eqb_spec NO_MORE_DOCS e.1); [congruence|]. simpl.
  unfold reader_of, DOC_ID_GAP; cbn [slice_ rpos_ field_id_]. f_equal. lia.
Qed.

Lemma Reader_NextDoc_end l n f :
  wf_docs l -> (length l <= n)%nat -> Reader_NextDoc (reader_of l n f) = reader_of l n f.
Proof.
  intros [Hwf Hnz] Hn. unfold Reader_NextDoc. rewrite Reader_DocID_spec by done.
  by rewrite lookup_ge_None_2 by done.
Qed.

Lemma first_le_char t l k :
  wf_entries l -> (k < length l)%nat ->
  (forall i e, (i < k)%nat -> l !! i = Some e -> t < e.1) ->
  (forall e, l !! k = Some e -> e.1 <= t) -> first_le t l = k.
Proof.
  revert k. induction l as [|e l IH]; intros k Hwf Hk Hlt Hle; [simpl in Hk; lia|].
  apply wf_entries_cons_inv in Hwf as (Hwf & _ & _). simpl. destruct k as [|k].
  - specialize (Hle e eq_refl). by destruct (Z.leb_spec e.1 t); [|lia].
  - specialize (Hlt 0%nat e ltac:(lia) eq_refl) as H0.
    destruct (Z.leb_spec e.1 t); [lia|]. f_equal. apply IH; [done|simpl in Hk; lia| |exact Hle].
    intros i e' Hi. apply (Hlt (S i)). lia.
Qed.

Lemma first_le_all t l :
  (forall i e, l !! i = Some e -> t < e.1) -> first_le t l = length l.
Proof.
  induction l as [|e l IH]; intros Hlt; simpl; [done|].
  specialize (Hlt 0%nat e eq_refl) as H0. destruct (Z.leb_spec e.1 t); [lia|].
  f_equal. apply IH. intros i e'. apply (Hlt (S i)).
Qed.

Section Advance.
Context (l : list (Z * Z)) (Hwf : wf_entries l) (t : Z).
Let D (i : nat) : Z := doc_at (enc_entries l) (DOC_ID_GAP * i).

Lemma D_lookup i : (i < length l)%nat -> exists e, l !! i = Some e /\ D i = e.1.
Proof.
  intros Hi. destruct (lookup_lt_is_Some_2 _ _ Hi) as [[d s] E]. exists (d, s).
  split; [done|]. destruct Hwf. by eapply doc_at_enc.
Qed.

Lemma D_decr i j : (i < j)%nat -> (j < length l)%nat -> D j < D i.
Proof.
  intros Hij Hj. destruct (D_lookup i ltac:(lia)) as (a & Ha & ->).
  destruct (D_lookup j Hj) as (b & Hb & ->). by eapply wf_entries_lookup_gt.
Qed.

(** What the loop guarantees on exit: everything before the position is above
    the target, and the position itself is not, unless it is the last one. *)
Definition Advance_post (c : nat) : Prop :=
  (c < length l)%nat /\ (forall i, (i < c)%nat -> t < D i) /\
  (D c <= t \/ c = (length l - 1)%nat).

Lemma Advance_loop_spec fuel min max :
  (min <= max < length l)%nat -> (max - min < fuel)%nat ->
  (min + 1 < max \/ (min = 0 /\ max = length l - 1))%nat ->
  (min = 0%nat \/ t < D min) -> (max = (length l - 1)%nat \/ D max < t) ->
  exists c, Advance_loop fuel (enc_entries l) t min max ((min + max) / 2) = Some c /\
    Advance_post c.
Proof.
  revert min max. induction fuel as [|fuel IH]; intros min max Hmm Hfuel Hgap Hmin Hmax; [lia|].
  cbn [Advance_loop]. rewrite bool_decide_true by lia. fold (D ((min + max) / 2)).
  set (curr := ((min + max) / 2)%nat).
  assert (2 * curr <= min + max < 2 * curr + 2)%nat as Hc.
  { subst curr. pose proof (Nat.div_mod_eq (min + max) 2).
    pose proof (Nat.mod_upper_bound (min + max) 2). lia. }
  clearbody curr.
  assert (Hup : forall c, t < D c -> (c < length l)%nat -> forall i, (i < S c)%nat -> t < D i).
  { intros c Hgt Hl i Hi. destruct (decide (i = c)) as [->|]; [done|].
    pose proof (D_decr i c ltac:(lia) Hl). lia. }
  destruct (Z.eqb_spec (D curr) t) as [E|NE].
  { exists curr. split; [done|]. split; [lia|]. split; [|left; lia].
    intros i Hi. pose proof (D_decr i curr Hi ltac:(lia)). lia. }
  destruct (Z.ltb_spec t (D curr)) as [Hgt|Hlt].
  - destruct (bool_decide_reflect (max = curr)) as [Em|Em].
    { exists curr. split; [done|]. split; [lia|]. split; [|right; lia].
      intros i Hi. apply (Hup curr); lia. }
    destruct (bool_decide_reflect (curr + 1 = max)%nat) as [E1|E1].
    { fold (D curr). destruct (Z.ltb_spec t (D curr)); [|lia].
      exists max. split; [done|]. split; [lia|]. split.
      - intros i Hi. apply (Hup curr); lia.
      - destruct Hmax; [by right|left; lia]. }
    apply IH; [lia|lia|lia|by right|done].
  - destruct (bool_decide_reflect (curr = min)) as [Em|Em].
    { exists curr. split; [done|]. split; [lia|]. split; [|left; lia].
      intros i Hi. destruct Hmin as [->|Hmin]; [lia|]. rewrite Em in *. lia. }
    destruct (bool_decide_reflect (min + 1 = curr)%nat) as [E1|E1].
    { fold (D min). destruct (Z.ltb_spec t (D min)) as [Hm|Hm].
      - exists curr. split; [done|]. split; [lia|]. split; [|left; lia].
        intros i Hi. apply (Hup min); lia.
      - assert ((if D min <? t then Some min else Some min) = Some min) as -> by (by destruct (_ <? _)).
        exists min. split; [done|]. split; [lia|]. split; [|left; lia].
        intros i Hi. pose proof (D_decr i min Hi ltac:(lia)). destruct Hmin; lia. }
    apply IH; [lia|lia|lia|done|right; lia].
Qed.
End Advance.

Lemma Reader_Advance_spec l n f t :
  wf_entries l -> t <= MAX_DOCID ->
  Reader_Advance (reader_of l n f) t =
  Some (reader_of l (match l with [] => n | _ => first_le t l end) f).
Proof.
  intros Hwf Ht. unfold Reader_Advance. change (slice_ (reader_of l n f)) with (enc_entries l).
  change (field_id_ (reader_of l n f)) with f.
  rewrite length_enc_entries. destruct (decide (l = [])) as [->|Hne]; [done|].
  assert (0 < length l)%nat by (destruct l; [done|simpl; lia]).
  rewrite bool_decide_false by lia.
  replace (match l with [] => n | _ => first_le t l end) with (first_le t l) by (by destruct l).
  destruct (Z.eqb_spec t MAX_DOCID) as [->|Hm].
  { do 2 f_equal. destruct l as [|e l]; [done|]. simpl.
    destruct Hwf as [_ Hf]. apply Forall_cons in Hf as [[[_ He] _] _].
    destruct (Z.leb_spec e.1 MAX_DOCID); [done|]. unfold MAX_DOCID, UINT64_MAX in *. lia. }
  replace (9 * length l / DOC_ID_GAP)%nat with (length l)
    by (unfold DOC_ID_GAP; by rewrite Nat.mul_comm, Nat.div_mul).
  destruct (Advance_loop_spec l Hwf t (S (length l)) 0 (length l - 1)) as (c & Hc & Hlt & Hbef & Hat);
    [lia|lia|by right|by left|by left|].
  rewrite Hc. cbn [mbind option_bind].
  replace (mkReader (enc_entries l) (c * DOC_ID_GAP) f) with (reader_of l c f)
    by (unfold reader_of, DOC_ID_GAP; f_equal; lia).
  rewrite Reader_DocID_spec by done.
  destruct (D_lookup l Hwf c Hlt) as (e & He & De). rewrite He.
  assert (forall i e, (i < c)%nat -> l !! i = Some e -> t < e.1) as Hb'.
  { intros i e' Hi Hl. specialize (Hbef i Hi).
    destruct (D_lookup l Hwf i ltac:(lia)) as (e2 & He2 & De2).
    rewrite He2 in Hl. injection Hl as <-. rewrite De2 in Hbef. done. }
  destruct (Z.ltb_spec t e.1) as [Hgt|Hle].
  - assert (c = (length l - 1)%nat) as -> by (destruct Hat; [lia|done]).
    unfold reader_of. do 2 f_equal. cbn [slice_]. rewrite length_enc_entries. cut (first_le t l = length l); [lia|].
    apply first_le_all. intros i e' Hi. pose proof (lookup_lt_Some _ _ _ Hi).
    destruct (decide (i = (length l - 1)%nat)) as [->|].
    + congruence.
    + apply (Hb' i); [lia|done].
  - do 2 f_equal. symmetry. apply first_le_char; try done.
    intros e' He'. congruence.
Qed.

Lemma Reader_entries_spec l n f fuel :
  wf_docs l -> (length l - n <= fuel)%nat ->
  Reader_entries fuel (reader_of l n f) = Some (drop n l).
Proof.
  intros Hwf. revert n. induction fuel as [|fuel IH]; intros n Hfuel; cbn [Reader_entries];
    rewrite Reader_DocID_spec by apply Hwf.
  - rewrite lookup_ge_None_2, drop_ge by lia. done.
  - destruct (l !! n) as [e|] eqn:E.
    + destruct Hwf as [Hwf Hnz]. pose proof Hnz as Hnz'. rewrite Forall_forall in Hnz'.
      specialize (Hnz' e (list_elem_of_lookup_2 _ _ _ E)).
      destruct (Z.eqb_spec e.1 NO_MORE_DOCS); [done|].
      rewrite (Reader_State_spec _ _ _ e) by done. cbn [mbind option_bind].
      pose proof (lookup_lt_Some _ _ _ E).
      rewrite Reader_NextDoc_spec by done. rewrite IH by lia. cbn [mbind option_bind].
      rewrite (drop_S l e n) by done. by destruct e.
    + apply lookup_ge_None in E. by rewrite drop_ge.
Qed.

Lemma read_doclist_spec c l :
  wf_docs l -> Z.of_nat (length l) < 2 ^ 32 ->
  exists data, write_doclist c l = Some data /\ read_doclist data = Some l.
Proof.
  intros Hwf Hlen. destruct (NewDocListReaderCodec_spec c l (-1)) as (data & Hw & Hr);
    [by destruct Hwf|done|].
  exists data. split; [done|]. unfold read_doclist. rewrite Hr. cbn [mbind option_bind].
  rewrite Reader_entries_spec; [by rewrite drop_0|done|].
  unfold reader_of; cbn [slice_]. rewrite length_enc_entries. lia.
Qed.

(** ** Theorems *)

Definition sample_docs : list (Z * Z) := [(1000, 0); (999, 1); (70000 - 69900, 0); (3, 1)].

Lemma sample_docs_wf : wf_docs sample_docs.
Proof.
  unfold wf_docs, wf_entries, sample_docs, entry_gt, NO_MORE_DOCS.
  repeat split; repeat constructor; simpl; try lia; unfold is_u64; simpl; lia.
Qed.

(** C34: a list of documents written with either codec, fixed size or compressed,
    is read back entry by entry, states included. *)
Theorem doclist_roundtrip c l :
  wf_docs l -> Z.of_nat (length l) < 2 ^ 32 ->
  exists data, write_doclist c l = Some data /\ read_doclist data = Some l.
Proof. apply read_doclist_spec. Qed.

Lemma doclist_roundtrip_witness :
  exists data, write_doclist DocListCompressionVarLenBlockType sample_docs = Some data /\
    read_doclist data = Some sample_docs.
Proof. apply (doclist_roundtrip _ sample_docs sample_docs_wf). simpl; lia. Defined.

(** The compressed and the fixed-size encodings of a list decode to the same
    entries in the packed nine-byte form the merge operator works on. *)
Theorem doclist_codecs_agree l :
  wf_entries l -> Z.of_nat (length l) < 2 ^ 32 ->
  exists d1 d2 f1 f2,
    write_doclist DocListCompressionFixType l = Some d1 /\
    write_doclist DocListCompressionVarLenBlockType l = Some d2 /\
    DecodeDocListToFixBytes d1 = Some f1 /\ DecodeDocListToFixBytes d2 = Some f2 /\
    drop 1 f1 = drop 1 f2 /\ drop 1 f1 = enc_entries l.
Proof.
  intros Hwf Hlen.
  destruct (DecodeDocListToFixBytes_spec DocListCompressionFixType l Hwf Hlen) as (d1 & b1 & ? & ?).
  destruct (DecodeDocListToFixBytes_spec DocListCompressionVarLenBlockType l Hwf Hlen)
    as (d2 & b2 & ? & ?).
  exists d1, d2, (b1 :: enc_entries l), (b2 :: enc_entries l). done.
Qed.

Lemma doclist_codecs_agree_witness :
  exists d1 d2 f1 f2,
    write_doclist DocListCompressionFixType sample_docs = Some d1 /\
    write_doclist DocListCompressionVarLenBlockType sample_docs = Some d2 /\
    DecodeDocListToFixBytes d1 = Some f1 /\ DecodeDocListToFixBytes d2 = Some f2 /\
    drop 1 f1 = drop 1 f2 /\ drop 1 f1 = enc_entries sample_docs.
Proof. apply (doclist_codecs_agree sample_docs); [apply sample_docs_wf|simpl; lia]. Defined.

(** C35: the binary search of [Advance] terminates and moves the reader to the
    first document, in the decreasing order of the list, whose id is at most the
    target; when there is none the reader is exhausted.  The comment in the code
    says the same; that of the interface ([doc_iterator.h]) speaks of the next
    id greater than the target, which no implementation looks for. *)
Theorem Reader_Advance_correct l n f t :
  wf_entries l -> l <> [] -> t <= MAX_DOCID ->
  exists r, Reader_Advance (reader_of l n f) t = Some r /\
    Reader_DocID r =
      match list_find (fun e : Z * Z => e.1 <= t) l with
      | Some (_, e) => e.1
      | None => NO_MORE_DOCS
      end.
Proof.
  intros Hwf Hne Ht. eexists. split; [by apply Reader_Advance_spec|].
  replace (match l with [] => n | _ => first_le t l end) with (first_le t l) by (by destruct l).
  rewrite Reader_DocID_spec by done. clear Hwf Hne Ht n f.
  induction l as [|e l IH]; [done|]. simpl.
  destruct (Z.leb_spec e.1 t); case_decide; try lia; [done|]. simpl. rewrite IH.
  by destruct (list_find _ l) as [[? ?]|].
Qed.

Lemma Reader_Advance_correct_witness :
  exists r, Reader_Advance (reader_of sample_docs 0 7) 500 = Some r /\ Reader_DocID r = 100.
Proof.
  apply (Reader_Advance_correct sample_docs 0 7 500); [apply sample_docs_wf|discriminate|].
  unfold MAX_DOCID, UINT64_MAX; lia.
Defined.

(** C36: the compressed writer refuses (fails its assertion on) an id that is not
    strictly below the previous one, and accepts every strictly smaller one. *)
Theorem compressed_writer_order l d' s' d s :
  wf_entries (l ++ [(d', s')]) -> Z.of_nat (length l) < 2 ^ 32 - 2 -> is_u64 d -> s = 0 \/ s = 1 ->
  exists w, add_all (NewOrderDocListWriterCodec DocListCompressionVarLenBlockType)
              (l ++ [(d', s')]) = Some w /\
    (AddDocID w d s = None <-> d' <= d).
Proof.
  intros Hwf Hlen Hd Hs. eexists. cbn [NewOrderDocListWriterCodec].
  change new_encoder with (encoder_of []).
  split; [apply add_all_compressed; [done|simpl; rewrite length_app; simpl; lia]|].
  cbn [AddDocID app]. destruct (Z.leb_spec d' d) as [Hle|Hlt].
  - split; [done|intros _]. unfold Encoder_AddDoc, Delta_AddDoc, encoder_of;
      cbn [delta_buffer doc_list_ last_docid_].
    rewrite map_app. cbn [map fst]. rewrite last_snoc. cbn [from_option id].
    destruct (Z.leb_spec d' d); [|lia]. by destruct (map fst l).
  - split; [|lia]. intros H. rewrite Encoder_AddDoc_spec in H; [done| |rewrite length_app; simpl; lia].
    destruct Hwf as [H1 H2]. split.
    + apply StronglySorted_app_2; [|done|repeat constructor].
      intros x y Hx Hy. apply list_elem_of_singleton in Hy as ->.
      apply elem_of_app in Hx as [Hx|Hx].
      * pose proof (StronglySorted_app_1_elem_of _ _ _ x (d', s') H1 Hx ltac:(by left)) as Hg.
        unfold entry_gt in *; simpl in *; lia.
      * apply list_elem_of_singleton in Hx as ->. unfold entry_gt. simpl. lia.
    + apply Forall_app. split; [done|]. apply Forall_singleton. done.
Qed.

Lemma compressed_writer_order_witness :
  exists w, add_all (NewOrderDocListWriterCodec DocListCompressionVarLenBlockType)
              ([(9, 0)] ++ [(5, 1)]) = Some w /\ (AddDocID w 5 0 = None <-> 5 <= 5).
Proof.
  apply (compressed_writer_order [(9, 0)] 5 1 5 0); [|simpl; lia|unfold is_u64; lia|by left].
  unfold wf_entries, entry_gt.
  split; repeat constructor; simpl; try lia; unfold is_u64; simpl; lia.
Defined.
