(* ===== verification/Heap.v ===== *)
(** The array heap of the merge operator ([HeapShiftUp], [HeapShiftDown] of
    [merge::OptimizeMerger], [virtual_db_rocks.cpp]), over any item type with
    a comparison.

    The array is a list; [None] is an access out of its range or exhausted
    fuel.  The theorems: each operation returns, keeps the multiset of items,
    and restores the heap property, so the first cell holds a greatest item. *)
From S2P Require Import Prelude.

Definition parent (i : nat) : nat := (i - 1) / 2.

Section HeapDefs.
Context {A : Type} (greater : A -> A -> bool).

(** [items[i].Swap(items[j])]. *)
Definition swap (items : list A) (i j : nat) : option (list A) :=
  a ← items !! i; b ← items !! j; Some (<[j := a]> (<[i := b]> items)).

Fixpoint HeapShiftUp (fuel : nat) (items : list A) (pos : nat) : option (list A) :=
  match fuel with
  | O => None
  | S fuel' =>
      if bool_decide (pos = 0%nat) then Some items
      else
        let parent := parent pos in
        a ← items !! pos; b ← items !! parent;
        if greater a b then
          items ← swap items pos parent;
          HeapShiftUp fuel' items parent
        else Some items
  end.

Fixpoint HeapShiftDown (fuel : nat) (items : list A) (size pos : nat) : option (list A) :=
  match fuel with
  | O => None
  | S fuel' =>
      let left := (pos * 2 + 1)%nat in
      let right := (pos * 2 + 2)%nat in
      if bool_decide (right < size)%nat then
        l ← items !! left; r ← items !! right; p ← items !! pos;
        if greater l r then
          if greater l p then
            items ← swap items left pos; HeapShiftDown fuel' items size left
          else Some items
        else if greater r p then
          items ← swap items right pos; HeapShiftDown fuel' items size right
        else Some items
      else if bool_decide (left < size)%nat then
        l ← items !! left; p ← items !! pos;
        if greater l p then
          items ← swap items left pos; HeapShiftDown fuel' items size left
        else Some items
      else Some items
  end.

(** [for (j = 0; j < queue_size; j++) HeapShiftUp(items, queue_size, j)]. *)
Fixpoint build_heap (n : nat) (j : nat) (items : list A) : option (list A) :=
  match n with
  | O => Some items
  | S n' => items ← HeapShiftUp (S j) items j; build_heap n' (S j) items
  end.

(** [std::make_heap], [std::push_heap] and [std::pop_heap] on a whole vector.
    Which of several equal greatest items comes first is up to the library;
    nothing below depends on it. *)
Definition make_heap (items : list A) : option (list A) := build_heap (length items) 0 items.

Definition push_heap (items : list A) : option (list A) :=
  HeapShiftUp (length items) items (length items - 1).

Definition pop_heap (items : list A) : option (list A) :=
  match items with
  | [] => None
  | top :: rest =>
      match last rest with
      | None => Some items
      | Some z =>
          let init := z :: removelast rest in
          init ← HeapShiftDown (S (length init)) init (length init) 0;
          Some (init ++ [top])
      end
  end.
End HeapDefs.

(** ** Correctness *)
Section Heap.
Context {A : Type} (greater : A -> A -> bool).
Let le (a b : A) : Prop := greater a b = false.
Context (le_trans : forall a b c, le a b -> le b c -> le a c).
Context (le_total : forall a b, greater a b = true -> le b a).

Definition heap_ok (n : nat) (items : list A) : Prop :=
  forall (i : nat) (a b : A), (0 < i < n)%nat -> items !! i = Some a -> items !! parent i = Some b -> le a b.

Lemma parent_lt i : (0 < i)%nat -> (parent i < i)%nat.
Proof.
  intros. unfold parent. pose proof (Nat.div_mod_eq (i - 1) 2).
  pose proof (Nat.mod_upper_bound (i - 1) 2). lia.
Qed.

Lemma parent_child k i : (0 < i)%nat -> parent i = k <-> i = (k * 2 + 1)%nat \/ i = (k * 2 + 2)%nat.
Proof.
  intros. unfold parent. pose proof (Nat.div_mod_eq (i - 1) 2).
  pose proof (Nat.mod_upper_bound (i - 1) 2). lia.
Qed.

Lemma swap_spec (items : list A) i j a b :
  items !! i = Some a -> items !! j = Some b -> i <> j ->
  exists items', swap items i j = Some items' /\ items' ≡ₚ items /\
    length items' = length items /\
    items' !! i = Some b /\ items' !! j = Some a /\
    (forall k, k <> i -> k <> j -> items' !! k = items !! k).
Proof.
  intros Hi Hj Hij. unfold swap. rewrite Hi, Hj. cbn [mbind option_bind].
  pose proof (lookup_lt_Some _ _ _ Hi). pose proof (lookup_lt_Some _ _ _ Hj).
  eexists. split; [done|].
  split; [|split; [by rewrite !length_insert|split; [|split]]].
  - by apply Permutation_insert_swap.
  - rewrite list_lookup_insert_ne by done. by apply list_lookup_insert_eq.
  - apply list_lookup_insert_eq. by rewrite length_insert.
  - intros k Hki Hkj. by rewrite !list_lookup_insert_ne by done.
Qed.

(** The heap property on the first [n] cells except between [pos] and its
    parent. *)
Definition up_ok (n pos : nat) (items : list A) : Prop :=
  (forall (i : nat) (a b : A), (0 < i < n)%nat -> i <> pos ->
     items !! i = Some a -> items !! parent i = Some b -> le a b) /\
  (forall (c : nat) (a b : A), (0 < c < n)%nat -> parent c = pos -> (0 < pos)%nat ->
     items !! c = Some a -> items !! parent pos = Some b -> le a b).

Lemma HeapShiftUp_spec n fuel items pos :
  (pos < n <= length items)%nat -> (pos < fuel)%nat -> up_ok n pos items ->
  exists items', HeapShiftUp greater fuel items pos = Some items' /\
    items' ≡ₚ items /\ heap_ok n items' /\
    (forall k, (pos < k)%nat -> items' !! k = items !! k).
Proof.
  revert items pos. induction fuel as [|fuel IH]; intros items pos Hpos Hfuel [Hup Hch]; [lia|].
  cbn [HeapShiftUp]. destruct (bool_decide_reflect (pos = 0%nat)) as [->|Hp].
  { exists items. split; [done|]. split; [done|]. split; [|done].
    intros i a b Hi. apply Hup; lia. }
  pose proof (parent_lt pos ltac:(lia)) as Hpl.
  destruct (lookup_lt_is_Some_2 items pos ltac:(lia)) as [a Ha].
  destruct (lookup_lt_is_Some_2 items (parent pos) ltac:(lia)) as [b Hb].
  rewrite Ha, Hb. cbn [mbind option_bind]. destruct (greater a b) eqn:E.
  - destruct (swap_spec items pos (parent pos) a b Ha Hb ltac:(lia))
      as (it & -> & HP & Hlen & Hi1 & Hi2 & Hi3). cbn [mbind option_bind].
    destruct (IH it (parent pos)) as (res & -> & HPr & Hok & Hkeep); [lia|lia| |].
    + split.
      * intros i x y Hi Hne Hx Hy. destruct (decide (i = pos)) as [->|Hip].
        { rewrite Hi1 in Hx. rewrite Hi2 in Hy. simplify_eq. by apply le_total. }
        pose proof (parent_lt i ltac:(lia)). rewrite Hi3 in Hx by done.
        destruct (decide (parent i = pos)) as [Epi|].
        { rewrite Epi, Hi1 in Hy. simplify_eq. eapply (Hch i); try done; lia. }
        destruct (decide (parent i = parent pos)) as [Epi|].
        { rewrite Epi, Hi2 in Hy. simplify_eq. apply (le_trans _ b); [|by apply le_total].
          apply (Hup i); try done. by rewrite Epi. }
        rewrite Hi3 in Hy by done. by apply (Hup i).
      * intros c x y Hc Hpc H0 Hx Hy. pose proof (parent_lt (parent pos) H0).
        rewrite Hi3 in Hy by lia.
        assert (le b y) as Hby by (apply (Hup (parent pos)); [lia|lia|done|done]).
        destruct (decide (c = pos)) as [->|Hcp]; [rewrite Hi1 in Hx; by simplify_eq|].
        pose proof (parent_lt c ltac:(lia)).
        rewrite Hi3 in Hx by lia. apply (le_trans _ b); [|done].
        apply (Hup c); try done. by rewrite Hpc.
    + exists res. split; [done|]. split; [by rewrite HPr|]. split; [done|].
      intros k Hk. rewrite Hkeep by lia. apply Hi3; lia.
  - exists items. split; [done|]. split; [done|]. split; [|done].
    intros i x y Hi Hx Hy. destruct (decide (i = pos)) as [->|]; [|by apply (Hup i)].
    by simplify_eq.
Qed.

Lemma build_heap_spec n j items :
  (n + j = length items)%nat -> heap_ok j items ->
  exists items', build_heap greater n j items = Some items' /\
    items' ≡ₚ items /\ heap_ok (length items) items'.
Proof.
  revert j items. induction n as [|n IH]; intros j items Hlen Hok; cbn [build_heap].
  - simpl in Hlen. subst j. by exists items.
  - destruct (HeapShiftUp_spec (S j) (S j) items j) as (it & -> & HP & Hok' & _); [lia|lia| |].
    + split; [|intros; pose proof (parent_lt c ltac:(lia)); lia].
      intros i a b Hi Hne. apply Hok. lia.
    + pose proof (Permutation_length HP) as Hl. cbn [mbind option_bind].
      destruct (IH (S j) it) as (res & -> & HPr & Hokr); [lia|done|].
      exists res. rewrite Hl in Hokr. split; [done|]. split; [by rewrite HPr|done].
Qed.

(** The heap property except between [pos] and its children. *)
Definition down_ok (n pos : nat) (items : list A) : Prop :=
  (forall (i : nat) (a b : A), (0 < i < n)%nat -> parent i <> pos ->
     items !! i = Some a -> items !! parent i = Some b -> le a b) /\
  (forall (c : nat) (a b : A), (0 < c < n)%nat -> parent c = pos -> (0 < pos)%nat ->
     items !! c = Some a -> items !! parent pos = Some b -> le a b).

(** One exchange with the greatest child [k]. *)
Lemma down_step n pos k items x y :
  (k < n)%nat -> (0 < k)%nat -> parent k = pos -> down_ok n pos items ->
  items !! k = Some x -> items !! pos = Some y -> greater x y = true ->
  (forall c z, (0 < c < n)%nat -> parent c = pos -> items !! c = Some z -> le z x) ->
  exists items', swap items k pos = Some items' /\ items' ≡ₚ items /\
    length items' = length items /\ down_ok n k items'.
Proof.
  intros Hkn Hk Hpk [H1 H2] Hx Hy Hg Hmax. pose proof (parent_lt k Hk).
  destruct (swap_spec items k pos x y Hx Hy ltac:(lia)) as (it & Hs & HP & Hlen & Hi1 & Hi2 & Hi3).
  exists it. split; [done|]. split; [done|]. split; [done|]. split.
  - intros i a b Hi Hne Ha Hb. destruct (decide (i = k)) as [->|Hik].
    { rewrite Hi1 in Ha. rewrite Hpk, Hi2 in Hb. simplify_eq. by apply le_total. }
    destruct (decide (parent i = pos)) as [Epi|Hpi].
    { pose proof (parent_lt i ltac:(lia)). rewrite Hi3 in Ha by lia.
      rewrite Epi, Hi2 in Hb. simplify_eq. by apply (Hmax i). }
    destruct (decide (i = pos)) as [->|Hip].
    { pose proof (parent_lt pos ltac:(lia)). rewrite Hi2 in Ha. rewrite Hi3 in Hb by lia.
      simplify_eq. apply (H2 k); try done; lia. }
    rewrite Hi3 in Ha by done. rewrite Hi3 in Hb by done. by apply (H1 i).
  - intros c a b Hc Hpc H0 Ha Hb. pose proof (parent_lt c ltac:(lia)).
    rewrite Hpk, Hi2 in Hb. simplify_eq. rewrite Hi3 in Ha by lia.
    apply (H1 c); rewrite ?Hpc; (done || lia).
Qed.

Lemma down_done n pos items y :
  down_ok n pos items -> items !! pos = Some y ->
  (forall c z, (0 < c < n)%nat -> parent c = pos -> items !! c = Some z -> le z y) -> heap_ok n items.
Proof.
  intros [H1 _] Hy Hc i a b Hi Ha Hb. destruct (decide (parent i = pos)) as [E|].
  - rewrite E, Hy in Hb. simplify_eq. by apply (Hc i).
  - by apply (H1 i).
Qed.

Lemma HeapShiftDown_spec fuel items pos :
  (pos < length items)%nat -> (length items - pos < fuel)%nat -> down_ok (length items) pos items ->
  exists items', HeapShiftDown greater fuel items (length items) pos = Some items' /\
    items' ≡ₚ items /\ heap_ok (length items) items'.
Proof.
  revert items pos. induction fuel as [|fuel IH]; intros items pos Hpos Hfuel Hd; [lia|].
  destruct (lookup_lt_is_Some_2 items pos ltac:(lia)) as [y Hy].
  assert (Hstep : forall k x, (k < length items)%nat -> (0 < k)%nat -> parent k = pos ->
    items !! k = Some x -> greater x y = true ->
    (forall c z, (0 < c < length items)%nat -> parent c = pos -> items !! c = Some z -> le z x) ->
    exists items', (items ← swap items k pos; HeapShiftDown greater fuel items (length items) k)
        = Some items' /\ items' ≡ₚ items /\ heap_ok (length items) items').
  { intros k x Hk H0 Hpk Hx Hg Hmax. pose proof (parent_lt k H0).
    destruct (down_step (length items) pos k items x y) as (it & -> & HP & Hl & Hd'); try done.
    cbn [mbind option_bind]. rewrite <- Hl in Hd'.
    destruct (IH it k ltac:(lia) ltac:(lia) Hd') as (res & Hr & HPr & Hok).
    rewrite Hl in Hok. exists res. split; [done|]. split; [by rewrite HPr|done]. }
  assert (Hstep' : forall k x, (k < length items)%nat -> (0 < k)%nat -> parent k = pos ->
    items !! k = Some x -> greater x y = true ->
    (forall c z, (0 < c < length items)%nat -> parent c = pos -> items !! c = Some z -> le z x) ->
    exists items', (it ← swap items k pos; HeapShiftDown greater fuel it (length items) k)
        = Some items' /\ items' ≡ₚ items /\ heap_ok (length items) items').
  { intros k x Hk H0 Hpk Hx Hg Hmax. destruct (Hstep k x) as (res & Hr & ?); try done.
    exists res. split; [|done]. rewrite <- Hr.
    destruct (swap_spec items k pos x y) as (it & -> & _ & Hl & _); try done.
    { pose proof (parent_lt k H0). lia. }
    cbn [mbind option_bind]. by rewrite Hl. }
  clear Hstep IH. cbn [HeapShiftDown].
  assert (Hl : forall c, (0 < c)%nat -> parent c = pos <-> c = (pos * 2 + 1)%nat \/ c = (pos * 2 + 2)%nat)
    by (intros; by apply parent_child).
  destruct (bool_decide_reflect (pos * 2 + 2 < length items)%nat) as [Hr|Hr].
  - destruct (lookup_lt_is_Some_2 items (pos * 2 + 1)%nat ltac:(lia)) as [l El].
    destruct (lookup_lt_is_Some_2 items (pos * 2 + 2)%nat ltac:(lia)) as [r Er].
    rewrite El, Er, Hy. cbn [mbind option_bind].
    assert (le_refl : forall a, le a a).
    { intros a. destruct (greater a a) eqn:E; [by apply le_total|done]. }
    destruct (greater l r) eqn:Elr; [destruct (greater l y) eqn:Ely|destruct (greater r y) eqn:Ery].
    + apply Hstep' with l; try done; try lia; [apply Hl; lia|].
      intros c z Hc [->| ->]%Hl Hz; try lia; simplify_eq; [apply le_refl|by apply le_total].
    + exists items. split; [done|]. split; [done|]. apply (down_done _ pos _ y); try done.
      intros c z Hc [->| ->]%Hl Hz; try lia; simplify_eq; [done|].
      apply (le_trans _ l); [by apply le_total|done].
    + apply Hstep' with r; try done; try lia; [apply Hl; lia|].
      intros c z Hc [->| ->]%Hl Hz; try lia; simplify_eq; [done|apply le_refl].
    + exists items. split; [done|]. split; [done|]. apply (down_done _ pos _ y); try done.
      intros c z Hc [->| ->]%Hl Hz; try lia; simplify_eq; [|done].
      by apply (le_trans _ r).
  - destruct (bool_decide_reflect (pos * 2 + 1 < length items)%nat) as [Hlt|Hge].
    + destruct (lookup_lt_is_Some_2 items (pos * 2 + 1)%nat ltac:(lia)) as [l El].
      rewrite El, Hy. cbn [mbind option_bind]. destruct (greater l y) eqn:Ely.
      * apply Hstep' with l; try done; try lia; [apply Hl; lia|].
        intros c z Hc [->| ->]%Hl Hz; try lia. simplify_eq.
        destruct (greater l l) eqn:E; [by apply le_total|done].
      * exists items. split; [done|]. split; [done|]. apply (down_done _ pos _ y); try done.
        intros c z Hc [->| ->]%Hl Hz; try lia. by simplify_eq.
    + exists items. split; [done|]. split; [done|]. apply (down_done _ pos _ y); try done.
      intros c z Hc [->| ->]%Hl Hz; lia.
Qed.

(** The first cell of a heap holds a greatest item. *)
Lemma heap_root n items (r a : A) (i : nat) :
  heap_ok n items -> (i < n)%nat -> n = length items ->
  items !! 0%nat = Some r -> items !! i = Some a -> le a r.
Proof.
  intros Hok Hi -> Hr. revert a. induction i as [i IH] using lt_wf_ind. intros a Ha.
  destruct (decide (i = 0%nat)) as [->|Hne].
  - simplify_eq. destruct (greater r r) eqn:E; [by apply le_total|done].
  - pose proof (parent_lt i ltac:(lia)).
    destruct (lookup_lt_is_Some_2 items (parent i) ltac:(lia)) as [p Hp].
    apply (le_trans _ p).
    + apply (Hok i); try done. lia.
    + apply (IH (parent i)); [lia|lia|done].
Qed.

(** Replacing the first item leaves only its own cell to be repaired. *)
Lemma heap_replace_root (items : list A) (a : A) :
  heap_ok (length items) items -> down_ok (length items) 0 (<[0%nat := a]> items).
Proof.
  intros Hok. split; [|lia]. intros i x y Hi Hp Hx Hy.
  rewrite list_lookup_insert_ne in Hx, Hy by lia. by apply (Hok i).
Qed.

Lemma make_heap_spec items :
  exists items', make_heap greater items = Some items' /\ items' ≡ₚ items /\ heap_ok (length items') items'.
Proof.
  destruct (build_heap_spec (length items) 0 items) as (items' & Hb & HP & Hok); [lia|intros i; lia|].
  exists items'. split; [done|]. split; [done|]. by rewrite (Permutation_length HP).
Qed.

Lemma push_heap_spec items x :
  heap_ok (length items) items ->
  exists items', push_heap greater (items ++ [x]) = Some items' /\ items' ≡ₚ x :: items /\
    heap_ok (length items') items'.
Proof.
  intros Hok. unfold push_heap. rewrite length_app. simpl. replace (length items + 1 - 1)%nat with (length items) by lia.
  destruct (HeapShiftUp_spec (length items + 1) (length items + 1) (items ++ [x]) (length items))
    as (items' & Hs & HP & Hok' & _); [rewrite length_app; simpl; lia|lia| |].
  - split.
    + intros i a b Hi Hne Ha Hb. pose proof (parent_lt i ltac:(lia)).
      rewrite lookup_app_l in Ha, Hb by lia. apply (Hok i); try done. lia.
    + intros c a b Hc Hp. pose proof (parent_lt c ltac:(lia)). lia.
  - exists items'. split; [done|].
    rewrite (Permutation_length HP), length_app. split; [|done]. rewrite HP. by rewrite Permutation_app_comm.
Qed.

Lemma pop_heap_spec top rest :
  heap_ok (length (top :: rest)) (top :: rest) ->
  exists init, pop_heap greater (top :: rest) = Some (init ++ [top]) /\ init ≡ₚ rest /\
    heap_ok (length init) init.
Proof.
  intros Hok. unfold pop_heap. destruct (last rest) as [z|] eqn:E.
  - apply last_Some in E as [init ->]. rewrite removelast_last.
    destruct (HeapShiftDown_spec (S (length (z :: init))) (z :: init) 0) as (it & -> & HP & Hok').
    { simpl. lia. }
    { lia. }
    { split; [|lia]. intros i a b Hi Hp Ha Hb. pose proof (parent_lt i ltac:(lia)).
      destruct i as [|i]; [lia|]. destruct (parent (S i)) as [|p] eqn:Ep; [done|].
      simpl in Ha, Hb, Hi. apply (Hok (S i)); [simpl; rewrite length_app; simpl; lia| |].
      - simpl. by apply lookup_app_l_Some.
      - rewrite Ep. simpl. by apply lookup_app_l_Some. }
    exists it. split; [done|]. rewrite (Permutation_length HP). split; [|done].
    rewrite HP. by rewrite Permutation_app_comm.
  - apply last_None in E as ->. exists []. split; [done|]. split; [done|]. intros i. simpl. lia.
Qed.
End Heap.
