(* ===== verification/MergeOperator.v ===== *)
(** The merge operator of the document lists ([virtual_db_rocks.cpp],
    [DocListMergeOperator] and [merge::OptimizeMerger]).

    A key of the inverted table holds a document list; every index write adds
    an operand, a list again.  Merging runs a heap with one cursor per list;
    the later list wins on an id that several lists hold, and a full merge
    drops the deleted ids.  [None] is a failed [assert], a read outside a
    buffer or exhausted fuel.  A decoded list is a value here; the code points
    into strings of a growing vector, which is sound as long as moving a string
    leaves its characters where they are.

    The abstract side is [overlay]: the finite map (decreasing ids) obtained
    by writing the lists one after the other. *)
From S2P Require Import Prelude Storage Coding DocList Heap.

(** ** The heap items *)
Record HeapItem := mkItem { ptr_ : bytes; left_size_ : Z; priority_ : Z }.

(** [HeapItem::Set]: step over the header byte. *)
Definition HeapItem_Set (ptr : bytes) (size : Z) (priority : Z) : HeapItem :=
  mkItem (drop sizeof_DocListHeader ptr)
    (u64 (size - Z.of_nat sizeof_DocListHeader)) (u32 priority).

(** [HeapItem::Swap]: the pointers through a temporary, the integers by three
    exclusive ors. *)
Definition HeapItem_Swap (this o : HeapItem) : HeapItem * HeapItem :=
  let t2 := ptr_ o in
  let l := Z.lxor (left_size_ this) (left_size_ o) in
  let ol := Z.lxor (left_size_ o) l in
  let l := Z.lxor l ol in
  let p := Z.lxor (priority_ this) (priority_ o) in
  let op := Z.lxor (priority_ o) p in
  let p := Z.lxor p op in
  (mkItem t2 l p, mkItem (ptr_ this) ol op).

(** The [DOCID] macro. *)
Definition DOCID (a : HeapItem) : Z := if left_size_ a =? 0 then 0 else le_val (take 8 (ptr_ a)).

(** [ptr_->doc_state_]. *)
Definition item_state (a : HeapItem) : option Z := ptr_ a !! 8%nat.

Definition HeapItemGreater (a b : HeapItem) : bool :=
  (DOCID b <? DOCID a) || ((DOCID a =? DOCID b) && (priority_ b <? priority_ a)).

Definition ONE_DOCID_SIZE : nat := 9.

(** [items[0].ptr_++; items[0].left_size_ -= ONE_DOCID_SIZE]. *)
Definition item_next (a : HeapItem) : HeapItem :=
  mkItem (drop ONE_DOCID_SIZE (ptr_ a)) (u64 (left_size_ a - Z.of_nat ONE_DOCID_SIZE)) (priority_ a).

(** ** The merge loop *)

(** The [do ... while (DOCID(items[0]) == doc_id)] loop. *)
Fixpoint skip_same (fuel : nat) (items : list HeapItem) (doc_id : Z) : option (list HeapItem) :=
  match fuel with
  | O => None
  | S fuel' =>
      top ← items !! 0%nat;
      items ← HeapShiftDown HeapItemGreater (S (length items)) (<[0%nat := item_next top]> items)
                (length items) 0;
      top ← items !! 0%nat;
      if DOCID top =? doc_id then skip_same fuel' items doc_id else Some items
  end.

(** The bytes all cursors still have to read: a bound for both loops. *)
Definition heap_fuel (items : list HeapItem) : nat :=
  S (sum_list_with (fun i => length (ptr_ i)) items).

Record MergeState := mkMerge {
  writer : DocListWriterCodec; match_doc_count : Z; match_delete_doc_count : Z }.

(** What one round does with the entry on top; [true] is a [break]. *)
Definition merge_visit (max_doc_list_num_ : Z) (purge_deletedoc : bool)
    (doc_id doc_state : Z) (m : MergeState) : option (MergeState * bool) :=
  if purge_deletedoc then
    if negb (doc_state =? kDocumentStateDelete) then
      w ← AddDocID (writer m) doc_id doc_state;
      let n := u64 (match_doc_count m + 1) in
      Some (mkMerge w n (match_delete_doc_count m), max_doc_list_num_ <=? n)
    else Some (m, false)
  else if negb (doc_state =? kDocumentStateDelete) then
    if match_doc_count m <? max_doc_list_num_ then
      w ← AddDocID (writer m) doc_id doc_state;
      Some (mkMerge w (u64 (match_doc_count m + 1)) (match_delete_doc_count m), false)
    else Some (m, false)
  else
    w ← AddDocID (writer m) doc_id doc_state;
    let n := u64 (match_delete_doc_count m + 1) in
    Some (mkMerge w (match_doc_count m) n, 10000000 <? n).

(** [while (DOCID(items[0]) != 0)]. *)
Fixpoint merge_loop (fuel : nat) (max_doc_list_num_ : Z) (purge_deletedoc : bool)
    (items : list HeapItem) (m : MergeState) : option MergeState :=
  match fuel with
  | O => None
  | S fuel' =>
      top ← items !! 0%nat;
      if DOCID top =? 0 then Some m
      else
        state ← item_state top;
        '(m, stop) ← merge_visit max_doc_list_num_ purge_deletedoc (DOCID top) state m;
        if (stop : bool) then Some m
        else
          items ← skip_same (heap_fuel items) items (DOCID top);
          merge_loop fuel' max_doc_list_num_ purge_deletedoc items m
  end.

Definition OptimizeDocListMerge (max_doc_list_num_ : Z) (c : DocListCompressionType)
    (items : list HeapItem) (purge_deletedoc : bool) : option bytes :=
  items ← build_heap HeapItemGreater (length items) 0 items;
  m ← merge_loop (heap_fuel items) max_doc_list_num_ purge_deletedoc items
        (mkMerge (NewOrderDocListWriterCodec c) 0 0);
  SerializeToBytes (writer m).

(** ** The operator *)

(** [DocListMergeOperator::DecodeDocList]. *)
Definition DecodeDocList (data : bytes) : option bytes :=
  if Z.of_nat (length data) <? 2 ^ 31 then DecodeDocListToFixBytes data else None.

Fixpoint decode_all (l : list bytes) : option (list bytes) :=
  match l with
  | [] => Some []
  | d :: l' => x ← DecodeDocList d; r ← decode_all l'; Some (x :: r)
  end.

(** [DocListMergeOperator::DoMerge]: one item per list, its position as the
    priority.  The preallocated and the freshly allocated heap are used the
    same way. *)
Definition heap_items (doc_lists : list bytes) : list HeapItem :=
  imap (fun i d => HeapItem_Set d (Z.of_nat (length d)) (Z.of_nat i)) doc_lists.

Definition DoMerge (max_doc_list_num_ : Z) (c : DocListCompressionType)
    (doc_lists : list bytes) (full_merge : bool) : option bytes :=
  OptimizeDocListMerge max_doc_list_num_ c (heap_items doc_lists) full_merge.

Definition FullMergeV2 (max_doc_list_num_ : Z) (c : DocListCompressionType)
    (existing_value : option bytes) (operand_list : list bytes) : option bytes :=
  doc_lists ← decode_all (match existing_value with
                          | Some v => v :: operand_list
                          | None => operand_list
                          end);
  DoMerge max_doc_list_num_ c doc_lists true.

Definition PartialMergeMulti (max_doc_list_num_ : Z) (c : DocListCompressionType)
    (operand_list : list bytes) : option bytes :=
  doc_lists ← decode_all operand_list;
  DoMerge max_doc_list_num_ c doc_lists false.

(** The benchmark-only merge: plain concatenation, cut to ten megabytes. *)
Definition FastMerge (existing_value : option bytes) (operand_list : list bytes) : bytes :=
  take (Z.to_nat 10000000) (default [] existing_value ++ concat operand_list).

(** [ConcatMergeOperator], the test-only operator. *)
Definition Concat_FullMergeV2 (existing_value : option bytes) (operand_list : list bytes) : bytes :=
  fold_left app operand_list (default [] existing_value).

(** Its partial merge returns from inside the loop; with no operand control
    reaches the end of the function without a value ([None]). *)
Definition Concat_PartialMergeMulti (operand_list : list bytes) (new_value : bytes) : option bytes :=
  match operand_list with
  | [] => None
  | item :: _ => Some (new_value ++ item)
  end.

(** ** Abstract specification *)

(** Writing the lists one after the other, as a map sorted by decreasing id. *)
Definition write_list (m : list (Z * Z)) (l : list (Z * Z)) : list (Z * Z) :=
  fold_left (fun m e => om_insert Zcmp_desc e.1 e.2 m) l m.

Definition overlay (lists : list (list (Z * Z))) : list (Z * Z) := fold_left write_list lists [].

Definition live (e : Z * Z) : bool := negb (e.2 =? kDocumentStateDelete).

(** What a full merge keeps, and a partial one. *)
Definition full_keep (max : nat) (l : list (Z * Z)) : list (Z * Z) :=
  take max (List.filter live l).

Fixpoint partial_keep (max : nat) (l : list (Z * Z)) : list (Z * Z) :=
  match l with
  | [] => []
  | e :: l' =>
      if live e then
        match max with O => partial_keep O l' | S max' => e :: partial_keep max' l' end
      else e :: partial_keep max l'
  end.

(** ** The items as cursors over entry lists *)

Lemma HeapItem_Swap_exchange a b : HeapItem_Swap a b = (b, a).
Proof.
  assert (X : forall x y, Z.lxor y (Z.lxor x y) = x).
  { intros x y. rewrite (Z.lxor_comm x y), <- Z.lxor_assoc, Z.lxor_nilpotent. apply Z.lxor_0_l. }
  destruct a as [p l q], b as [p' l' q']. unfold HeapItem_Swap; cbn [ptr_ left_size_ priority_].
  by rewrite !X.
Qed.

Lemma HeapItemGreater_false a b :
  HeapItemGreater a b = false <-> DOCID a < DOCID b \/ (DOCID a = DOCID b /\ priority_ a <= priority_ b).
Proof. unfold HeapItemGreater. bool_simp. lia. Qed.

Lemma HeapItemGreater_trans a b c :
  HeapItemGreater a b = false -> HeapItemGreater b c = false -> HeapItemGreater a c = false.
Proof. rewrite !HeapItemGreater_false. lia. Qed.

Lemma HeapItemGreater_total a b : HeapItemGreater a b = true -> HeapItemGreater b a = false.
Proof. rewrite HeapItemGreater_false. unfold HeapItemGreater. bool_simp. lia. Qed.

(** A cursor: the entries left and the priority. *)
Notation cursor := (list (Z * Z) * Z)%type.

Definition item_of (x : cursor) : HeapItem :=
  mkItem (enc_entries x.1) (9 * Z.of_nat (length x.1)) x.2.

Definition head_id (l : list (Z * Z)) : Z := match l with e :: _ => e.1 | [] => 0 end.

Definition cursor_ok (x : cursor) : Prop := wf_docs x.1 /\ Z.of_nat (length x.1) < 2 ^ 32.

Lemma DOCID_item_of x : cursor_ok x -> DOCID (item_of x) = head_id x.1.
Proof.
  destruct x as [[|e l] p]; [done|]. intros [[[_ Hf] _] _]. unfold DOCID, item_of; cbn [left_size_ ptr_ fst].
  destruct (Z.eqb_spec (9 * Z.of_nat (length (e :: l))) 0) as [E|_]; [simpl in E; lia|].
  destruct e as [d s]. by apply (doc_at_enc ((d, s) :: l) 0 d s).
Qed.

Lemma item_next_item_of e l p :
  cursor_ok (e :: l, p) -> item_next (item_of (e :: l, p)) = item_of (l, p).
Proof.
  intros [_ Hlen]. unfold item_next, item_of; cbn [ptr_ left_size_ priority_ fst snd] in *.
  f_equal. cbn [length] in *. rewrite Nat2Z.inj_succ in *.
  unfold u64. rewrite Z.mod_small; unfold ONE_DOCID_SIZE; lia.
Qed.

Lemma cursor_ok_tail e l p : cursor_ok (e :: l, p) -> cursor_ok (l, p).
Proof.
  intros [[Hwf Hf] Hlen]; cbn [fst] in *. apply wf_entries_cons_inv in Hwf as (? & _).
  apply Forall_cons in Hf as [_ ?]. repeat split; try done; try apply H. cbn [fst length] in *. lia.
Qed.

Lemma head_id_pos e l : wf_docs (e :: l) -> 0 < e.1.
Proof.
  intros [Hwf Hf]. apply wf_entries_cons_inv in Hwf as (_ & [Hu _] & _).
  apply Forall_cons in Hf as [Hn _]. unfold NO_MORE_DOCS in Hn. unfold is_u64 in Hu. lia.
Qed.

Lemma wf_docs_le_head l d s : wf_docs l -> (d, s) ∈ l -> d <= head_id l.
Proof.
  destruct l as [|e l]; [by intros _ ?%elem_of_nil|]. intros [Hwf _] [<- |Hin]%elem_of_cons; [done|].
  apply wf_entries_cons_inv in Hwf as (_ & _ & Hf). rewrite Forall_forall in Hf.
  specialize (Hf _ Hin). unfold entry_gt in Hf. simpl in *. lia.
Qed.

(** ** Who wins an id *)
Definition Winner (st : list cursor) (d s : Z) : Prop :=
  exists l p, (l, p) ∈ st /\ (d, s) ∈ l /\
    forall l' p' s', (l', p') ∈ st -> (d, s') ∈ l' -> p' <= p.

Lemma Winner_perm st st' d s : st ≡ₚ st' -> Winner st d s <-> Winner st' d s.
Proof.
  intros HP. unfold Winner. setoid_rewrite HP. done.
Qed.

Lemma Winner_tail e l p st d s :
  d <> e.1 -> Winner ((e :: l, p) :: st) d s <-> Winner ((l, p) :: st) d s.
Proof.
  intros Hd. assert (Hin : forall s', (d, s') ∈ e :: l <-> (d, s') ∈ l).
  { intros s'. rewrite elem_of_cons. split; [intros [<- |]; done|by right]. }
  unfold Winner. split; intros (l1 & p1 & H1 & H2 & H3).
  - apply elem_of_cons in H1 as [[= -> ->]|H1].
    + exists l, p. split; [by left|]. split; [by apply Hin|].
      intros l' p' s' [[= -> ->]|H']%elem_of_cons Hs; [done|]. apply (H3 l' p' s'); [by right|done].
    + exists l1, p1. split; [by right|]. split; [done|].
      intros l' p' s' [[= -> ->]|H']%elem_of_cons Hs.
      * apply (H3 (e :: l) p s'); [by left|by apply Hin].
      * apply (H3 l' p' s'); [by right|done].
  - apply elem_of_cons in H1 as [[= -> ->]|H1].
    + exists (e :: l), p. split; [by left|]. split; [by apply Hin|].
      intros l' p' s' [[= -> ->]|H']%elem_of_cons Hs; [done|]. apply (H3 l' p' s'); [by right|done].
    + exists l1, p1. split; [by right|]. split; [done|].
      intros l' p' s' [[= -> ->]|H']%elem_of_cons Hs.
      * apply (H3 l p s'); [by left|by apply Hin].
      * apply (H3 l' p' s'); [by right|done].
Qed.

Lemma Winner_bound st d s b :
  Forall cursor_ok st -> Forall (fun x => head_id x.1 <= b) st -> Winner st d s -> d <= b.
Proof.
  intros Hok Hb (l & p & Hin & Hd & _). rewrite Forall_forall in Hok, Hb.
  destruct (Hok _ Hin) as [Hwf _]. specialize (Hb _ Hin). simpl in *.
  pose proof (wf_docs_le_head _ _ _ Hwf Hd). lia.
Qed.

(** ** The heap of cursors *)
Definition rep (items : list HeapItem) (st : list cursor) : Prop :=
  items ≡ₚ map item_of st /\ heap_ok HeapItemGreater (length items) items /\
  Forall cursor_ok st /\ NoDup st.*2 /\ st <> [].

(** The cursor on top: a greatest head, and of those the highest priority. *)
Lemma rep_top items st :
  rep items st ->
  exists l p st' rest, st ≡ₚ (l, p) :: st' /\ items = item_of (l, p) :: rest /\
    rest ≡ₚ map item_of st' /\
    Forall (fun x => head_id x.1 < head_id l \/ (head_id x.1 = head_id l /\ x.2 < p)) st'.
Proof.
  intros (HP & Hheap & Hok & Hnd & Hne).
  destruct items as [|top rest]; [apply Permutation_nil_l in HP; by destruct st|].
  assert (Hin : top ∈ map item_of st) by (rewrite <- HP; by left).
  apply list_elem_of_fmap in Hin as ([l p] & -> & Hin).
  apply elem_of_Permutation in Hin as [st' HP'].
  assert (Hrest : rest ≡ₚ map item_of st').
  { rewrite HP' in HP. simpl in HP. by apply Permutation_cons_inv in HP. }
  exists l, p, st', rest. split; [done|]. split; [done|]. split; [done|].
  apply Forall_forall. intros [l1 p1] Hin1; simpl.
  assert (Hi1 : item_of (l1, p1) ∈ rest) by (rewrite Hrest; by apply list_elem_of_fmap_2).
  apply list_elem_of_lookup in Hi1 as [i Hi].
  pose proof (lookup_lt_Some _ _ _ Hi) as Hlt.
  assert (Hle : HeapItemGreater (item_of (l1, p1)) (item_of (l, p)) = false).
  { eapply (heap_root HeapItemGreater HeapItemGreater_trans HeapItemGreater_total _ _ _ _ (S i) Hheap);
      [simpl; lia|done|done|done]. }
  rewrite HP' in Hok, Hnd. apply Forall_cons in Hok as [Ho Hok].
  rewrite Forall_forall in Hok. rewrite HeapItemGreater_false, !DOCID_item_of in Hle by eauto.
  simpl in Hle. apply NoDup_cons in Hnd as [Hn _].
  assert (p1 <> p). { intros ->. apply Hn. by apply (list_elem_of_fmap_2 snd st' (l1, p)). }
  lia.
Qed.

(** Stepping the cursor on top restores the representation. *)
Lemma rep_step items e l p st rest :
  rep items st -> st ≡ₚ (e :: l, p) :: rest -> items !! 0%nat = Some (item_of (e :: l, p)) ->
  drop 1 items ≡ₚ map item_of rest ->
  exists items', HeapShiftDown HeapItemGreater (S (length items))
      (<[0%nat := item_next (item_of (e :: l, p))]> items) (length items) 0 = Some items' /\
    rep items' ((l, p) :: rest) /\ length items' = length items.
Proof.
  intros (HP & Hheap & Hok & Hnd & Hne) HPst H0 Hrest.
  destruct items as [|top items]; [done|]. simpl in H0, Hrest. injection H0 as ->. rewrite drop_0 in Hrest.
  rewrite HPst in Hok, Hnd. apply Forall_cons in Hok as [Ho Hok]. rewrite item_next_item_of by done.
  set (its := <[0%nat := item_of (l, p)]> (item_of (e :: l, p) :: items)).
  assert (Hl : length its = length (item_of (e :: l, p) :: items)) by apply length_insert.
  destruct (HeapShiftDown_spec HeapItemGreater HeapItemGreater_trans HeapItemGreater_total
    (S (length its)) its 0) as (res & Hr & HPr & Hheap').
  { rewrite Hl; simpl; lia. }
  { lia. }
  { unfold its. rewrite length_insert. by apply heap_replace_root. }
  rewrite Hl in Hr. exists res. split; [done|].
  pose proof (Permutation_length HPr) as Hlr.
  split; [|by rewrite Hlr, Hl].
  split; [|split; [by rewrite Hlr|split; [|split; [done|done]]]].
  - rewrite HPr. unfold its. simpl. by rewrite Hrest.
  - apply Forall_cons. split; [by eapply cursor_ok_tail|done].
Qed.

Definition total (st : list cursor) : nat := sum_list_with (fun x => length x.1) st.

#[export] Instance total_perm : Proper ((≡ₚ) ==> (=)) total.
Proof. intros st st' HP. unfold total. induction HP; simpl; lia. Qed.

Lemma heap_fuel_rep items st : rep items st -> heap_fuel items = S (9 * total st).
Proof.
  intros (HP & _). unfold heap_fuel. f_equal.
  transitivity (sum_list_with (fun i => length (ptr_ i)) (map item_of st)).
  { clear -HP. induction HP; simpl; lia. }
  clear HP. unfold total. induction st as [|x st IH]; [done|].
  cbn [map sum_list_with item_of ptr_]. rewrite length_enc_entries, IH. lia.
Qed.

Lemma skip_same_spec fuel items st d :
  rep items st -> (total st < fuel)%nat -> 0 < d -> Forall (fun x => head_id x.1 <= d) st ->
  (exists top, items !! 0%nat = Some top /\ DOCID top = d) ->
  exists items' st', skip_same fuel items d = Some items' /\ rep items' st' /\
    (total st' < total st)%nat /\ Forall (fun x => head_id x.1 < d) st' /\
    (forall d' s, d' <> d -> Winner st' d' s <-> Winner st d' s).
Proof.
  revert items st. induction fuel as [|fuel IH]; intros items st Hrep Hfuel Hd Hle (top & Htop & Htd); [lia|].
  destruct (rep_top _ _ Hrep) as (l & p & st0 & rest & HP & -> & Hrest & Hmax).
  injection Htop as <-. pose proof Hrep as (_ & _ & Hok & _ & _). rewrite HP in Hok.
  apply Forall_cons in Hok as [Ho _]. rewrite DOCID_item_of in Htd by done. cbn [fst] in Htd.
  destruct l as [|e l]; [simpl in Htd; lia|]. cbn [skip_same lookup list_lookup mbind option_bind].
  destruct (rep_step _ e l p st st0 Hrep HP eq_refl Hrest) as (items' & -> & Hrep' & Hlen').
  cbn [mbind option_bind]. cbn [head_id] in Htd. subst d.
  assert (HW : forall d' s, d' <> e.1 -> Winner ((l, p) :: st0) d' s <-> Winner st d' s).
  { intros d' s Hne. rewrite (Winner_perm _ _ _ _ HP). by rewrite <- Winner_tail. }
  assert (Ht : total st = S (total ((l, p) :: st0))) by (rewrite HP; done).
  assert (Hle' : Forall (fun x => head_id x.1 <= e.1) ((l, p) :: st0)).
  { rewrite HP in Hle. apply Forall_cons in Hle as [_ Hle]. apply Forall_cons. split; [|done].
    destruct Ho as [[Hwf _] _]. apply wf_entries_cons_inv in Hwf as (_ & _ & Hf). simpl.
    destruct l as [|e' l]; [simpl; lia|]. apply Forall_cons in Hf as [Hf _]. unfold entry_gt in Hf. simpl. lia. }
  destruct (rep_top _ _ Hrep') as (l' & p' & st1 & rest' & HP' & -> & _ & Hmax').
  cbn [lookup list_lookup mbind option_bind].
  assert (Ho' : cursor_ok (l', p')).
  { destruct Hrep' as (_ & _ & Hok & _). rewrite HP' in Hok. by apply Forall_cons in Hok as [? _]. }
  destruct (Z.eqb_spec (DOCID (item_of (l', p'))) e.1) as [E|E].
  - destruct (IH _ _ Hrep' ltac:(lia) Hd Hle') as (items'' & st'' & Hs & Hrep'' & Htot & Hlt & HW').
    { by eexists. }
    exists items'', st''. split; [done|]. split; [done|]. split; [lia|]. split; [done|].
    intros d' s Hne. by rewrite HW', HW.
  - eexists _, _. split; [done|]. split; [done|]. split; [lia|]. split; [|done].
    rewrite DOCID_item_of in E by done. rewrite HP' in Hle' |- *.
    apply Forall_cons in Hle' as [Hh _]. apply Forall_cons; simpl in *. split; [lia|].
    eapply Forall_impl; [exact Hmax'|]. simpl. intros. lia.
Qed.

(** ** The sequence of rounds *)
Fixpoint visit_list (max : Z) (purge : bool) (l : list (Z * Z)) (m : MergeState) : option MergeState :=
  match l with
  | [] => Some m
  | e :: l' =>
      '(m, stop) ← merge_visit max purge e.1 e.2 m;
      if (stop : bool) then Some m else visit_list max purge l' m
  end.

Lemma Winner_top l e p st d s :
  Forall cursor_ok ((e :: l, p) :: st) ->
  Forall (fun x => head_id x.1 < e.1 \/ (head_id x.1 = e.1 /\ x.2 < p)) st ->
  d = e.1 -> Winner ((e :: l, p) :: st) d s <-> s = e.2.
Proof.
  intros [Ho Hok]%Forall_cons Hmax ->. rewrite Forall_forall in Hok, Hmax.
  assert (Huniq : forall s', (e.1, s') ∈ e :: l -> s' = e.2).
  { intros s' [<- |Hin]%elem_of_cons; [done|]. destruct Ho as [[Hwf _] _].
    apply wf_entries_cons_inv in Hwf as (_ & _ & Hf). rewrite Forall_forall in Hf.
    specialize (Hf _ Hin). unfold entry_gt in Hf. simpl in Hf. lia. }
  assert (Hp : forall l' p' s', (l', p') ∈ st -> (e.1, s') ∈ l' -> p' < p).
  { intros l' p' s' Hin Hs. destruct (Hok _ Hin) as [Hwf _]. specialize (Hmax _ Hin).
    pose proof (wf_docs_le_head _ _ _ Hwf Hs). simpl in *. lia. }
  split.
  - intros (l1 & p1 & [[= -> ->]|H1]%elem_of_cons & H2 & H3); [by apply Huniq|].
    specialize (H3 (e :: l) p e.2). pose proof (Hp _ _ _ H1 H2).
    assert (p <= p1) by (apply H3; [by left|destruct e; by left]). lia.
  - intros ->. exists (e :: l), p. split; [by left|]. split; [destruct e; by left|].
    intros l' p' s' [[= -> ->]|H1]%elem_of_cons Hs; [done|]. pose proof (Hp _ _ _ H1 Hs). lia.
Qed.

Lemma merge_loop_spec max purge fuel items st :
  rep items st -> (total st < fuel)%nat ->
  exists out, StronglySorted entry_gt out /\ (forall d s, (d, s) ∈ out <-> Winner st d s) /\
    forall m, merge_loop fuel max purge items m = visit_list max purge out m.
Proof.
  revert items st. induction fuel as [|fuel IH]; intros items st Hrep Hfuel; [lia|].
  destruct (rep_top _ _ Hrep) as (l & p & st0 & rest & HP & -> & Hrest & Hmax).
  pose proof Hrep as (_ & _ & Hok & _ & _). rewrite HP in Hok. pose proof Hok as Hok0.
  apply Forall_cons in Hok as [Ho Hok].
  cbn [merge_loop lookup list_lookup mbind option_bind]. rewrite DOCID_item_of by done. cbn [fst].
  destruct l as [|e l].
  - exists []. split; [constructor|]. split; [|done]. intros d s. split; [by intros ?%elem_of_nil|].
    rewrite (Winner_perm _ _ _ _ HP). intros (l1 & p1 & [[= -> ->]|H1]%elem_of_cons & H2 & _).
    { done. }
    exfalso. rewrite Forall_forall in Hok, Hmax. destruct (Hok _ H1) as [Hwf _]. specialize (Hmax _ H1).
    pose proof Hwf as [_ Hnz]. destruct l1 as [|e1 l1]; [by apply elem_of_nil in H2|].
    pose proof (head_id_pos _ _ Hwf). simpl in Hmax. lia.
  - pose proof (head_id_pos e l ltac:(apply Ho)) as Hpos. cbn [head_id].
    destruct (Z.eqb_spec e.1 0) as [E|_]; [lia|].
    assert (Es : item_state (item_of (e :: l, p)) = Some e.2).
    { destruct e as [d s]. by apply (state_at_enc ((d, s) :: l) 0 d s). }
    rewrite Es. cbn [mbind option_bind].
    destruct (skip_same_spec (heap_fuel (item_of (e :: l, p) :: rest)) (item_of (e :: l, p) :: rest) st e.1)
      as (items' & st' & Hskip & Hrep' & Htot & Hlt & HW); [done| |done| | |].
    { rewrite (heap_fuel_rep _ st) by done. lia. }
    { rewrite HP. apply Forall_cons; simpl. split; [lia|].
      eapply Forall_impl; [exact Hmax|]. simpl. intros. lia. }
    { eexists. split; [done|]. by rewrite DOCID_item_of. }
    destruct (IH _ _ Hrep' ltac:(lia)) as (out & Hsort & Hin & Hrun).
    pose proof Hrep' as (_ & _ & Hok' & _ & _).
    assert (Hbelow : forall d s, Winner st' d s -> d < e.1).
    { intros d s Hw. pose proof (Winner_bound st' d s (e.1 - 1) Hok') as Hb.
      enough (d <= e.1 - 1) by lia. apply Hb; [|done].
      eapply Forall_impl; [exact Hlt|]. simpl. intros. lia. }
    exists (e :: out). split; [|split].
    + constructor; [done|]. apply Forall_forall. intros [d s] Hi. apply Hin in Hi.
      unfold entry_gt; simpl. by eapply Hbelow.
    + intros d s. rewrite elem_of_cons, Hin. destruct (decide (d = e.1)) as [->|Hne].
      * rewrite (Winner_perm _ _ _ _ HP). rewrite (Winner_top l e p st0 e.1 s Hok0 Hmax eq_refl).
        destruct e as [d0 s0]; simpl in *. split; [intros [[= ->]|Hw]; [done|]|intros ->; by left].
        specialize (Hbelow _ _ Hw). lia.
      * rewrite HW by done. split; [intros [<- |]; done|by right].
    + intros m. cbn [visit_list]. destruct (merge_visit max purge e.1 e.2 m) as [[m' stop]|]; [|done].
      cbn [mbind option_bind]. destruct stop; [done|]. rewrite Hskip. apply Hrun.
Qed.

Definition finish (m : option MergeState) : option bytes := m ← m; SerializeToBytes (writer m).

Lemma visit_list_full max l w n k :
  0 <= n < max -> is_u32 max ->
  finish (visit_list max true l (mkMerge w n k)) =
  (w ← add_all w (take (Z.to_nat (max - n)) (List.filter live l)); SerializeToBytes w).
Proof.
  intros Hn Hmax. unfold finish. revert w n Hn. induction l as [|[d s] l IH]; intros w n Hn; cbn [visit_list].
  - cbn [List.filter]. by rewrite take_nil.
  - unfold merge_visit. cbn [List.filter live fst snd writer match_doc_count match_delete_doc_count].
    destruct (negb (s =? kDocumentStateDelete)) eqn:E; unfold live; cbn [snd]; rewrite E; [|by apply IH].
    replace (Z.to_nat (max - n)) with (S (Z.to_nat (max - (n + 1)))) by lia.
    cbn [take add_all]. destruct (AddDocID w d s) as [w'|]; [|done]. cbn [mbind option_bind].
    unfold is_u32 in Hmax. unfold u64. rewrite Z.mod_small by lia.
    destruct (Z.leb_spec max (n + 1)).
    + by replace (Z.to_nat (max - (n + 1))) with 0%nat by lia.
    + apply IH. lia.
Qed.

Definition deletes (l : list (Z * Z)) : nat := length (List.filter (fun e => negb (live e)) l).

Lemma deletes_cons d s l :
  deletes ((d, s) :: l) = if s =? kDocumentStateDelete then S (deletes l) else deletes l.
Proof. unfold deletes. simpl. unfold live at 1. simpl. by destruct (s =? kDocumentStateDelete). Qed.

Lemma visit_list_partial max l w n k :
  0 <= n <= max -> is_u32 max -> 0 <= k -> k + Z.of_nat (deletes l) <= 10000000 ->
  finish (visit_list max false l (mkMerge w n k)) =
  (w ← add_all w (partial_keep (Z.to_nat (max - n)) l); SerializeToBytes w).
Proof.
  intros Hn Hmax. unfold finish.
  revert w n k Hn. induction l as [|[d s] l IH]; intros w n k Hn Hk Hdel; cbn [visit_list partial_keep]; [done|].
  unfold merge_visit. cbn [live fst snd writer match_doc_count match_delete_doc_count].
  rewrite deletes_cons in Hdel. unfold live; cbn [snd].
  destruct (s =? kDocumentStateDelete) eqn:E; cbn [negb]; swap 1 2.
  - destruct (Z.ltb_spec n max).
    + replace (Z.to_nat (max - n)) with (S (Z.to_nat (max - (n + 1)))) by lia.
      cbn [add_all]. destruct (AddDocID w d s) as [w'|]; [|done]. cbn [mbind option_bind].
      unfold is_u32 in Hmax. unfold u64. rewrite Z.mod_small by lia. apply IH; lia.
    + replace (Z.to_nat (max - n)) with 0%nat by lia. cbn [mbind option_bind].
      rewrite IH by lia. by replace (Z.to_nat (max - n)) with 0%nat by lia.
  - cbn [add_all]. destruct (AddDocID w d s) as [w'|]; [|done].
    cbn [mbind option_bind]. unfold u64. rewrite Z.mod_small by lia.
    destruct (Z.ltb_spec 10000000 (k + 1)); [lia|]. apply IH; lia.
Qed.

(** ** The overlay *)

Lemma entries_sorted l : StronglySorted entry_gt l <-> om_sorted Zcmp_desc l.
Proof.
  split; (apply StronglySorted_ind; [constructor|]); intros e m _ IH Hf; (constructor; [done|]);
    (eapply Forall_impl; [exact Hf|]); unfold entry_gt, om_lt, Zcmp_desc; intros a; simpl;
    by rewrite ?Z.compare_lt_iff.
Qed.

Lemma write_list_sorted m l : om_sorted Zcmp_desc m -> om_sorted Zcmp_desc (write_list m l).
Proof.
  revert m. induction l as [|e l IH]; intros m Hm; [done|].
  apply IH. by apply om_insert_sorted, Hm; typeclasses eauto.
Qed.

Lemma om_find_write_list m l d :
  om_sorted Zcmp_desc m -> om_sorted Zcmp_desc l ->
  om_find Zcmp_desc d (write_list m l) =
  match om_find Zcmp_desc d l with Some s => Some s | None => om_find Zcmp_desc d m end.
Proof.
  revert m. induction l as [|[d1 s1] l IH]; intros m Hm Hl; [done|].
  destruct (om_sorted_cons_inv _ _ _ _ Hl) as [Hl' Hlt]. cbn [write_list fold_left fst snd om_find].
  unfold write_list in IH. rewrite IH by (try apply om_insert_sorted; typeclasses eauto || done).
  rewrite (om_find_insert Zcmp_desc) by done.
  destruct (Zcmp_desc d d1) eqn:E; [|rewrite (om_find_below Zcmp_desc d l); [done|done|]|done].
  - apply (cmp_eq Zcmp_desc) in E as ->. rewrite (om_find_below Zcmp_desc d1 l) by done. done.
  - intros k' v' Hin. eapply (cmp_lt_trans Zcmp_desc); [done|]. by eapply Hlt.
Qed.

Lemma overlay_snoc lists l : overlay (lists ++ [l]) = write_list (overlay lists) l.
Proof. unfold overlay. by rewrite fold_left_app. Qed.

Lemma overlay_sorted lists : om_sorted Zcmp_desc (overlay lists).
Proof.
  induction lists as [|l lists IH] using rev_ind; [constructor|].
  rewrite overlay_snoc. by apply write_list_sorted.
Qed.

Lemma om_find_overlay_snoc lists l d :
  om_sorted Zcmp_desc l ->
  om_find Zcmp_desc d (overlay (lists ++ [l])) =
  match om_find Zcmp_desc d l with Some s => Some s | None => om_find Zcmp_desc d (overlay lists) end.
Proof. intros. rewrite overlay_snoc. apply om_find_write_list; [apply overlay_sorted|done]. Qed.

Definition cursors (lists : list (list (Z * Z))) : list cursor := imap (fun i l => (l, Z.of_nat i)) lists.

Lemma elem_of_cursors lists l p :
  (l, p) ∈ cursors lists <-> exists i, lists !! i = Some l /\ p = Z.of_nat i.
Proof.
  unfold cursors. rewrite list_elem_of_lookup. setoid_rewrite list_lookup_imap_Some. naive_solver.
Qed.

Lemma overlay_Winner lists d s :
  Forall (om_sorted Zcmp_desc) lists ->
  om_find Zcmp_desc d (overlay lists) = Some s <-> Winner (cursors lists) d s.
Proof.
  revert s. induction lists as [|l lists IH] using rev_ind; intros s Hs.
  { split; [done|]. by intros (? & ? & ?%elem_of_nil & _). }
  apply Forall_app in Hs as [Hs Hl]. apply Forall_cons in Hl as [Hl _]. specialize (fun s => IH s Hs).
  rewrite (om_find_overlay_snoc lists l d Hl).
  assert (Hnew : (l, Z.of_nat (length lists)) ∈ cursors (lists ++ [l])).
  { apply elem_of_cursors. exists (length lists). split; [|done]. by apply list_lookup_middle. }
  assert (Hold : forall l' p', (l', p') ∈ cursors lists <->
    (l', p') ∈ cursors (lists ++ [l]) /\ p' < Z.of_nat (length lists)).
  { intros l' p'. rewrite !elem_of_cursors. split.
    - intros (i & Hi & ->). pose proof (lookup_lt_Some _ _ _ Hi). split; [|lia].
      exists i. by rewrite lookup_app_l.
    - intros [(i & Hi & ->) Hlt]. exists i. by rewrite lookup_app_l in Hi by lia. }
  assert (Hcase : forall l' p', (l', p') ∈ cursors (lists ++ [l]) ->
    (l', p') = (l, Z.of_nat (length lists)) \/ (l', p') ∈ cursors lists).
  { intros l' p'. rewrite !elem_of_cursors. intros (i & Hi & ->).
    apply lookup_app_Some in Hi as [Hi|[Hge Hi]]; [right; by exists i|].
    apply list_lookup_singleton_Some in Hi as [Hi ->]. left. f_equal. lia. }
  destruct (om_find Zcmp_desc d l) as [s'|] eqn:E.
  - apply om_find_in in E; [|typeclasses eauto]. split.
    + intros [= <-]. exists l, (Z.of_nat (length lists)). split; [done|]. split; [done|].
      intros l' p' s0 [[= -> ->]|Hin]%Hcase _; [lia|]. apply Hold in Hin. lia.
    + intros (l1 & p1 & H1 & H2 & H3). specialize (H3 _ _ _ Hnew E).
      apply Hcase in H1 as [[= -> ->]|H1]; [|apply Hold in H1; lia].
      f_equal. apply (om_in_find Zcmp_desc) in E, H2; try done. congruence.
  - rewrite IH. unfold Winner. setoid_rewrite Hold.
    assert (Hno : forall s', (d, s') ∉ l).
    { intros s' Hin. apply (om_in_find Zcmp_desc) in Hin; [congruence|done]. }
    split; intros (l1 & p1 & H1 & H2 & H3).
    + exists l1, p1. split; [apply H1|]. split; [done|].
      intros l' p' s0 Hin Hs0. apply (H3 l' p' s0); [|done]. apply Hold.
      destruct (Hcase _ _ Hin) as [[= -> ->]|]; [by destruct (Hno s0)|done].
    + exists l1, p1. destruct (Hcase _ _ H1) as [[= -> ->]|Hin]; [by destruct (Hno s)|].
      split; [by apply Hold|]. split; [done|]. intros l' p' s0 [Hin' _]. by apply H3.
Qed.

(** Merging some lists beforehand does not change the overlay. *)
Lemma write_list_overlay m b :
  om_sorted Zcmp_desc m -> Forall (om_sorted Zcmp_desc) b ->
  write_list m (overlay b) = fold_left write_list b m.
Proof.
  intros Hm. induction b as [|l b IH] using rev_ind; intros Hb; [done|].
  apply Forall_app in Hb as [Hb Hl]. apply Forall_cons in Hl as [Hl _].
  rewrite fold_left_app, <- IH by done. cbn [fold_left].
  apply (om_ext Zcmp_desc).
  - by apply write_list_sorted.
  - by apply write_list_sorted, write_list_sorted.
  - intros k. rewrite !om_find_write_list, om_find_overlay_snoc by
      (done || apply overlay_sorted || by apply write_list_sorted).
    by destruct (om_find Zcmp_desc k l).
Qed.

Lemma overlay_assoc a b c :
  Forall (om_sorted Zcmp_desc) b -> overlay (a ++ overlay b :: c) = overlay (a ++ b ++ c).
Proof.
  intros Hb. unfold overlay at 1 3. rewrite !fold_left_app. cbn [fold_left]. f_equal.
  apply write_list_overlay; [apply overlay_sorted|done].
Qed.

Lemma overlay_wf lists : Forall wf_docs lists -> wf_docs (overlay lists).
Proof.
  intros Hwf. assert (Hs : Forall (om_sorted Zcmp_desc) lists).
  { eapply Forall_impl; [exact Hwf|]. intros l [[Hl _] _]. by apply entries_sorted. }
  assert (Hin : forall e, e ∈ overlay lists -> exists l, l ∈ lists /\ e ∈ l).
  { intros [d s] H. apply (om_in_find Zcmp_desc) in H; [|apply overlay_sorted].
    apply overlay_Winner in H as (l & p & Hl & He & _); [|done].
    exists l. split; [|done]. apply elem_of_cursors in Hl as (i & Hi & _).
    by eapply list_elem_of_lookup_2. }
  rewrite Forall_forall in Hwf. split; [split|].
  - apply entries_sorted, overlay_sorted.
  - apply Forall_forall. intros e (l & Hl & He)%Hin. destruct (Hwf _ Hl) as [[_ Hf] _].
    rewrite Forall_forall in Hf. by apply Hf.
  - apply Forall_forall. intros e (l & Hl & He)%Hin. destruct (Hwf _ Hl) as [_ Hf].
    rewrite Forall_forall in Hf. by apply Hf.
Qed.

Lemma full_keep_sublist max l : sublist (full_keep max l) l.
Proof.
  unfold full_keep. etransitivity; [apply sublist_take|apply sublist_list_filter].
Qed.

Lemma partial_keep_sublist max l : sublist (partial_keep max l) l.
Proof.
  revert max. induction l as [|e l IH]; intros max; [constructor|]. simpl.
  destruct (live e); [destruct max|]; by constructor.
Qed.

Lemma length_full_keep max l : (length (full_keep max l) <= max)%nat.
Proof. unfold full_keep. rewrite length_take. lia. Qed.

Lemma partial_keep_all max l :
  (length (List.filter live l) <= max)%nat -> partial_keep max l = l.
Proof.
  revert max. induction l as [|e l IH]; intros max H; [done|]. simpl in *.
  destruct (live e); [destruct max; simpl in H; [lia|]|]; f_equal; apply IH; lia.
Qed.

(** ** The operator on stored lists *)

(** [data] is a stored list holding [l]. *)
Definition stored (data : bytes) (l : list (Z * Z)) : Prop :=
  wf_docs l /\ Z.of_nat (length l) < 2 ^ 32 /\ Z.of_nat (length data) < 2 ^ 31 /\
  exists c, write_doclist c l = Some data.

Lemma decode_all_spec datas lists :
  Forall2 stored datas lists ->
  exists fixes, decode_all datas = Some fixes /\
    Forall2 (fun f l => exists b, f = b :: enc_entries l) fixes lists.
Proof.
  induction 1 as [|d l datas lists (Hwf & Hlen & Hd & c & Hw) _ (fixes & IH & IHf)].
  { by exists []. }
  destruct (DecodeDocListToFixBytes_spec c l) as (d' & b & Hw' & Hdec); [apply Hwf|done|].
  rewrite Hw in Hw'. injection Hw' as <-.
  exists ((b :: enc_entries l) :: fixes). split; [|constructor; eauto].
  cbn [decode_all]. unfold DecodeDocList. destruct (Z.ltb_spec (Z.of_nat (length d)) (2 ^ 31)); [|lia].
  by rewrite Hdec, IH.
Qed.

Lemma HeapItem_Set_item b l i :
  Z.of_nat (length l) < 2 ^ 32 -> is_u32 i ->
  HeapItem_Set (b :: enc_entries l) (Z.of_nat (length (b :: enc_entries l))) i = item_of (l, i).
Proof.
  intros Hl Hi. unfold HeapItem_Set, item_of. cbn [fst snd drop sizeof_DocListHeader length].
  rewrite length_enc_entries. unfold is_u32 in Hi. unfold u64, u32.
  unfold sizeof_DocListHeader. rewrite !Z.mod_small by lia. f_equal. lia.
Qed.

Lemma heap_items_spec datas lists fixes :
  Forall2 stored datas lists -> Z.of_nat (length lists) < 2 ^ 32 ->
  Forall2 (fun f l => exists b, f = b :: enc_entries l) fixes lists ->
  heap_items fixes = map item_of (cursors lists).
Proof.
  intros Hst Hlen Hf. apply list_eq. intros i. unfold heap_items, cursors.
  rewrite list_lookup_imap. change (map item_of) with (fmap (M := list) item_of).
  rewrite list_lookup_fmap, list_lookup_imap.
  destruct (lists !! i) as [l|] eqn:El.
  - pose proof (lookup_lt_Some _ _ _ El).
    destruct (Forall2_lookup_r _ _ _ _ _ Hf El) as (f & -> & b & ->).
    destruct (Forall2_lookup_r _ _ _ _ _ Hst El) as (d & _ & _ & Hl & _).
    simpl. f_equal. apply HeapItem_Set_item; [done|]. unfold is_u32. lia.
  - apply lookup_ge_None in El. rewrite <- (Forall2_length _ _ _ Hf) in El.
    by rewrite lookup_ge_None_2.
Qed.

Lemma cursors_rep datas lists :
  Forall2 stored datas lists -> lists <> [] ->
  exists items, build_heap HeapItemGreater (length (map item_of (cursors lists))) 0
      (map item_of (cursors lists)) = Some items /\ rep items (cursors lists).
Proof.
  intros Hst Hne.
  destruct (build_heap_spec HeapItemGreater HeapItemGreater_trans HeapItemGreater_total
    (length (map item_of (cursors lists))) 0 (map item_of (cursors lists)))
    as (items & Hb & HP & Hok); [lia|intros i; lia|].
  exists items. split; [done|]. split; [done|]. split; [by rewrite (Permutation_length HP)|].
  split; [|split].
  - apply Forall_forall. intros [l p] (i & Hi & _)%elem_of_cursors.
    destruct (Forall2_lookup_r _ _ _ _ _ Hst Hi) as (d & _ & Hwf & Hl & _). by split.
  - apply NoDup_alt. intros i j x. unfold cursors. rewrite !list_lookup_fmap, !list_lookup_imap.
    destruct (lists !! i), (lists !! j); simpl; intros; simplify_eq; lia.
  - destruct lists; [done|]. unfold cursors. by rewrite imap_cons.
Qed.

Lemma DoMerge_spec max c purge datas lists :
  Forall2 stored datas lists -> lists <> [] -> Z.of_nat (length lists) < 2 ^ 32 ->
  (fixes ← decode_all datas; DoMerge max c fixes purge) =
  finish (visit_list max purge (overlay lists) (mkMerge (NewOrderDocListWriterCodec c) 0 0)).
Proof.
  intros Hst Hne Hlen. destruct (decode_all_spec _ _ Hst) as (fixes & -> & Hf).
  cbn [mbind option_bind]. unfold DoMerge, OptimizeDocListMerge.
  rewrite (heap_items_spec _ _ _ Hst Hlen Hf).
  destruct (cursors_rep _ _ Hst Hne) as (items & -> & Hrep). cbn [mbind option_bind].
  destruct (merge_loop_spec max purge (heap_fuel items) items (cursors lists) Hrep) as (out & Hs & Hin & Hrun).
  { rewrite (heap_fuel_rep _ _ Hrep). lia. }
  rewrite Hrun. unfold finish. do 2 f_equal.
  apply (om_ext Zcmp_desc); [by apply entries_sorted|apply overlay_sorted|].
  intros d. apply option_eq. intros s. rewrite overlay_Winner, <- Hin.
  - apply om_find_spec; [typeclasses eauto|by apply entries_sorted].
  - apply Forall_forall. intros l Hl. apply list_elem_of_lookup in Hl as [i Hi].
    destruct (Forall2_lookup_r _ _ _ _ _ Hst Hi) as (d0 & _ & [[Hsl _] _] & _). by apply entries_sorted.
Qed.

Lemma stored_wf datas lists : Forall2 stored datas lists -> Forall wf_docs lists.
Proof. induction 1 as [|d l ? ? (? & _)]; by constructor. Qed.

Lemma stored_sorted datas lists : Forall2 stored datas lists -> Forall (om_sorted Zcmp_desc) lists.
Proof.
  intros H. apply stored_wf in H. eapply Forall_impl; [exact H|].
  intros l [[Hl _] _]. by apply entries_sorted.
Qed.

Lemma FullMergeV2_write max c existing ops lists :
  0 < max -> is_u32 max -> lists <> [] -> Z.of_nat (length lists) < 2 ^ 32 ->
  Forall2 stored (option_list existing ++ ops) lists ->
  FullMergeV2 max c existing ops = write_doclist c (full_keep (Z.to_nat max) (overlay lists)).
Proof.
  intros Hmax Hu Hne Hlen Hst. unfold FullMergeV2.
  replace (match existing with Some v => v :: ops | None => ops end)
    with (option_list existing ++ ops) by (by destruct existing).
  rewrite (DoMerge_spec _ _ _ _ _ Hst Hne Hlen), visit_list_full by (done || lia).
  by rewrite Z.sub_0_r.
Qed.

Lemma PartialMergeMulti_write max c ops lists :
  0 < max -> is_u32 max -> lists <> [] -> Z.of_nat (length lists) < 2 ^ 32 ->
  Forall2 stored ops lists -> Z.of_nat (deletes (overlay lists)) <= 10000000 ->
  PartialMergeMulti max c ops = write_doclist c (partial_keep (Z.to_nat max) (overlay lists)).
Proof.
  intros Hmax Hu Hne Hlen Hst Hdel. unfold PartialMergeMulti.
  rewrite (DoMerge_spec _ _ _ _ _ Hst Hne Hlen), visit_list_partial by (done || lia).
  by rewrite Z.sub_0_r.
Qed.

(** ** Theorems *)

Definition sample_lists : list (list (Z * Z)) :=
  [[(9, 0); (7, 0); (4, 0)]; [(9, 1); (5, 0)]; [(7, 0); (4, 1); (2, 0)]].

Definition sample_datas : list bytes :=
  map (fun l => default [] (write_doclist DocListCompressionFixType l)) sample_lists.

Lemma sample_stored : Forall2 stored sample_datas sample_lists.
Proof.
  assert (H : forall l, wf_docs l -> Z.of_nat (length l) < 2 ^ 20 ->
    stored (default [] (write_doclist DocListCompressionFixType l)) l).
  { intros l Hwf Hlen. rewrite write_doclist_fix by apply Hwf. cbn [default from_option id].
    split; [done|]. split; [lia|]. split.
    - cbn [length]. rewrite length_enc_entries. lia.
    - exists DocListCompressionFixType. by apply write_doclist_fix, Hwf. }
  unfold sample_datas, sample_lists; cbn [map].
  repeat first [apply Forall2_cons_2; [apply H|]|apply Forall2_nil_2]; try (simpl; lia);
    unfold wf_docs, wf_entries, entry_gt, NO_MORE_DOCS;
    repeat split; repeat constructor; simpl; try lia; unfold is_u64; simpl; lia.
Qed.

(** C8: a full merge of an existing value and its operands returns a list that
    reads back as the newest state of every id, the deleted ids removed, in
    decreasing order, cut after the configured maximum. *)
Theorem FullMergeV2_correct max c existing ops lists :
  0 < max -> is_u32 max -> lists <> [] -> Z.of_nat (length lists) < 2 ^ 32 ->
  Forall2 stored (option_list existing ++ ops) lists ->
  exists data, FullMergeV2 max c existing ops = Some data /\
    read_doclist data = Some (full_keep (Z.to_nat max) (overlay lists)).
Proof.
  intros Hmax Hu Hne Hlen Hst. rewrite (FullMergeV2_write max c existing ops lists) by done.
  apply read_doclist_spec.
  - eapply wf_docs_sublist; [apply full_keep_sublist|]. by eapply overlay_wf, stored_wf.
  - pose proof (length_full_keep (Z.to_nat max) (overlay lists)). unfold is_u32 in Hu. lia.
Qed.

Lemma FullMergeV2_correct_witness :
  exists data, FullMergeV2 1000 DocListCompressionVarLenBlockType (head sample_datas) (tail sample_datas)
      = Some data /\ read_doclist data = Some [(7, 0); (5, 0); (2, 0)].
Proof.
  destruct (FullMergeV2_correct 1000 DocListCompressionVarLenBlockType (head sample_datas)
    (tail sample_datas) sample_lists) as (data & H1 & H2);
    [lia|unfold is_u32; lia|done|simpl; lia|exact sample_stored|].
  exists data. split; [exact H1|]. rewrite H2. vm_compute. reflexivity.
Defined.

(** C9: a partial merge of operands returns a list that reads back as the newest
    state of every id, deletions kept, with at most the configured number of
    live ids, provided it carries at most ten million deletions. *)
Theorem PartialMergeMulti_correct max c ops lists :
  0 < max -> is_u32 max -> lists <> [] -> Z.of_nat (length lists) < 2 ^ 32 ->
  Forall2 stored ops lists -> Z.of_nat (deletes (overlay lists)) <= 10000000 ->
  Z.of_nat (length (partial_keep (Z.to_nat max) (overlay lists))) < 2 ^ 32 ->
  exists data, PartialMergeMulti max c ops = Some data /\
    read_doclist data = Some (partial_keep (Z.to_nat max) (overlay lists)).
Proof.
  intros Hmax Hu Hne Hlen Hst Hdel Hk. rewrite (PartialMergeMulti_write max c ops lists) by done.
  apply read_doclist_spec; [|done].
  eapply wf_docs_sublist; [apply partial_keep_sublist|]. by eapply overlay_wf, stored_wf.
Qed.

Lemma PartialMergeMulti_correct_witness :
  exists data, PartialMergeMulti 2 DocListCompressionFixType sample_datas = Some data /\
    read_doclist data = Some [(9, 1); (7, 0); (5, 0); (4, 1)].
Proof.
  destruct (PartialMergeMulti_correct 2 DocListCompressionFixType sample_datas sample_lists)
    as (data & H1 & H2);
    [lia|unfold is_u32; lia|done|simpl; lia|exact sample_stored|vm_compute; discriminate|vm_compute; reflexivity|].
  exists data. split; [exact H1|]. rewrite H2. vm_compute. reflexivity.
Defined.

(** Merging a run of operands beforehand does not change the result of the
    full merge, as long as the run holds no more live ids than the maximum:
    RocksDB may apply partial merges as it likes. *)
Theorem partial_then_full max c existing a b d da db dd :
  0 < max -> is_u32 max -> b <> [] -> Z.of_nat (length (a ++ b ++ d)) < 2 ^ 32 ->
  Forall2 stored (option_list existing ++ da) a -> Forall2 stored db b -> Forall2 stored dd d ->
  Z.of_nat (deletes (overlay b)) <= 10000000 ->
  Z.of_nat (length (List.filter live (overlay b))) <= max ->
  Z.of_nat (length (overlay b)) < 2 ^ 32 ->
  exists x, PartialMergeMulti max c db = Some x /\
    (Z.of_nat (length x) < 2 ^ 31 ->
     FullMergeV2 max c existing (da ++ x :: dd) = FullMergeV2 max c existing (da ++ db ++ dd)).
Proof.
  intros Hmax Hu Hne Hlen Ha Hb Hd Hdel Hlive Hov.
  assert (Hk : partial_keep (Z.to_nat max) (overlay b) = overlay b) by (apply partial_keep_all; lia).
  rewrite !length_app in Hlen.
  rewrite (PartialMergeMulti_write max c db b), Hk by (done || lia).
  pose proof (overlay_wf b (stored_wf _ _ Hb)) as Hwf.
  destruct (read_doclist_spec c (overlay b) Hwf Hov) as (x & Hx & _).
  exists x. split; [done|]. intros Hxl.
  rewrite (FullMergeV2_write max c existing (da ++ x :: dd) (a ++ overlay b :: d)).
  2: done. 2: done. 2: by destruct a.
  2: { rewrite !length_app. cbn [length]. destruct b; [done|]. cbn [length] in Hlen. lia. }
  2: { rewrite app_assoc. apply Forall2_app; [done|]. constructor; [|done].
       split; [done|]. split; [done|]. split; [done|]. by exists c. }
  rewrite (FullMergeV2_write max c existing (da ++ db ++ dd) (a ++ b ++ d)).
  2: done. 2: done. 2: { destruct a; [|done]. by destruct b. }
  2: { rewrite !length_app. lia. }
  2: { rewrite app_assoc. apply Forall2_app; [done|]. by apply Forall2_app. }
  by rewrite (overlay_assoc a b d (stored_sorted _ _ Hb)).
Qed.

Lemma partial_then_full_witness :
  exists x, PartialMergeMulti 1000 DocListCompressionVarLenBlockType (tail sample_datas) = Some x /\
    (Z.of_nat (length x) < 2 ^ 31 ->
     FullMergeV2 1000 DocListCompressionVarLenBlockType (head sample_datas) ([] ++ x :: []) =
     FullMergeV2 1000 DocListCompressionVarLenBlockType (head sample_datas) ([] ++ tail sample_datas ++ [])).
Proof.
  destruct (proj1 (Forall2_cons _ _ _ _ _) sample_stored) as [H1 H2].
  apply (partial_then_full 1000 DocListCompressionVarLenBlockType (head sample_datas)
    [[(9, 0); (7, 0); (4, 0)]] (tail sample_lists) [] [] (tail sample_datas) []);
    [lia|unfold is_u32; lia|done|simpl; lia|apply Forall2_cons_2; [exact H1|apply Forall2_nil_2]|exact H2|apply Forall2_nil_2
    |vm_compute; discriminate|vm_compute; discriminate|vm_compute; reflexivity].
Defined.
