(* ===== verification/Iterators.v ===== *)
(** The document iterators ([doc_iterator.h], [merge_iterator.cpp],
    [or_iterator.cpp]).

    [DocIdSetIterator] is the interface every iterator promises, with its laws:
    an iterator enumerates a strictly decreasing list of ids.  The reader of a
    document list, [MergeIterator] (conjunction) and [OrIterator] (disjunction)
    implement it, the last two over any implementation of their sub iterators.
    [None] is a failed [assert] or exhausted fuel; [remaining] bounds the ids
    an iterator still has and serves as fuel. *)
From S2P Require Import Prelude Storage Coding DocList Heap.

(** ** The interface *)
Class DocIdSetIterator (I : Type) := {
  DocID : I -> Z;
  NextDoc : I -> option I;
  Advance : I -> Z -> option I;
  FieldId : I -> Z;
  remaining : I -> nat
}.

#[export] Hint Mode DocIdSetIterator ! : typeclass_instances.

(** Strictly decreasing 64-bit ids, none of them [NO_MORE_DOCS]. *)
Definition wf_ids (l : list Z) : Prop :=
  os_sorted Zcmp_desc l /\ Forall (fun d => 0 < d <= MAX_DOCID) l.

Definition first_id (l : list Z) : Z := match l with [] => NO_MORE_DOCS | d :: _ => d end.

(** The ids at most [t]. *)
Definition below (t : Z) (l : list Z) : list Z := List.filter (fun d => d <=? t) l.

(** [repr it l r]: the ids [it] still enumerates are [l], and after seeking
    back to [MAX_DOCID] they are [r].  (A reader seeks back to its start; a
    disjunction does not seek back at all.) *)
Class IteratorLaws (I : Type) `{DocIdSetIterator I} := {
  repr : I -> list Z -> list Z -> Prop;
  repr_wf it l r : repr it l r -> wf_ids l /\ wf_ids r /\ l ⊆ r;
  repr_DocID it l r : repr it l r -> DocID it = first_id l;
  repr_remaining it l r : repr it l r -> (length l <= remaining it)%nat;
  repr_NextDoc it l r : repr it l r ->
    exists it' r', NextDoc it = Some it' /\ repr it' (tail l) r' /\ r' ⊆ r;
  repr_Advance it l r t : repr it l r -> 0 <= t <= first_id l -> t <> MAX_DOCID ->
    exists it' r', Advance it t = Some it' /\ repr it' (below t l) r' /\ r' ⊆ r;
  repr_reset it l r : repr it l r ->
    exists it', Advance it MAX_DOCID = Some it' /\ repr it' r r
}.

(** The loop of every client:
    [while (it.DocID() != NO_MORE_DOCS) { ...; it.NextDoc(); }]. *)
Fixpoint collect {I} `{DocIdSetIterator I} (fuel : nat) (it : I) : option (list (Z * Z)) :=
  if DocID it =? NO_MORE_DOCS then Some []
  else
    match fuel with
    | O => None
    | S fuel' => it' ← NextDoc it; rest ← collect fuel' it'; Some ((DocID it, FieldId it) :: rest)
    end.

Lemma wf_ids_cons d l : wf_ids (d :: l) <-> 0 < d <= MAX_DOCID /\ wf_ids l /\ Forall (fun x => x < d) l.
Proof.
  unfold wf_ids. rewrite Forall_cons. split.
  - intros [Hs [Hd Hf]]. apply StronglySorted_inv in Hs as [Hs Hl]. split; [done|]. split; [done|].
    eapply Forall_impl; [exact Hl|]. unfold os_lt, Zcmp_desc. intros x. by rewrite Z.compare_lt_iff.
  - intros (Hd & [Hs Hf] & Hl). split; [|by split]. constructor; [done|].
    eapply Forall_impl; [exact Hl|]. unfold os_lt, Zcmp_desc. intros x. by rewrite Z.compare_lt_iff.
Qed.

Lemma wf_ids_in l d : wf_ids l -> d ∈ l -> 0 < d <= first_id l.
Proof.
  intros Hwf Hd. destruct l as [|e l]; [by apply elem_of_nil in Hd|].
  apply wf_ids_cons in Hwf as (He & [_ Hf] & Hl). rewrite Forall_forall in Hf, Hl. simpl.
  apply elem_of_cons in Hd as [->|Hd]; [lia|]. specialize (Hf _ Hd). specialize (Hl _ Hd). simpl in *. lia.
Qed.

Lemma first_id_range l : wf_ids l -> 0 <= first_id l <= MAX_DOCID.
Proof.
  destruct l as [|d l]; [unfold NO_MORE_DOCS, MAX_DOCID; simpl; unfold NO_MORE_DOCS, UINT64_MAX; lia|].
  intros (H & _)%wf_ids_cons. simpl. lia.
Qed.

Lemma first_id_zero l : wf_ids l -> first_id l = NO_MORE_DOCS <-> l = [].
Proof.
  intros Hwf. split; [|by intros ->]. destruct l as [|d l]; [done|].
  apply wf_ids_cons in Hwf as (Hd & _). unfold NO_MORE_DOCS. simpl. lia.
Qed.

Lemma elem_of_below t l d : d ∈ below t l <-> d ∈ l /\ d <= t.
Proof.
  unfold below. rewrite list_elem_of_In, List.filter_In, <- list_elem_of_In, Z.leb_le. done.
Qed.

Lemma below_cons t d l : below t (d :: l) = if d <=? t then d :: below t l else below t l.
Proof. done. Qed.

Lemma below_Forall t l : Forall (fun d => d <= t) l -> below t l = l.
Proof.
  induction 1 as [|d l Hd _ IH]; [done|]. rewrite below_cons, IH. by destruct (Z.leb_spec d t); [|lia].
Qed.

Lemma wf_ids_below t l : wf_ids l -> wf_ids (below t l).
Proof.
  intros [Hs Hf]. pose proof (sublist_list_filter (fun d => d <=? t) l) as Hsub.
  split; [by eapply StronglySorted_sublist|by eapply Forall_sublist].
Qed.

Lemma wf_ids_tail l : wf_ids l -> wf_ids (tail l).
Proof. destruct l; [done|]. by intros (_ & H & _)%wf_ids_cons. Qed.

Lemma wf_ids_ext l1 l2 : wf_ids l1 -> wf_ids l2 -> (forall d, d ∈ l1 <-> d ∈ l2) -> l1 = l2.
Proof. intros [H1 _] [H2 _]. by apply (os_ext Zcmp_desc). Qed.

Lemma below_all t l : wf_ids l -> first_id l <= t -> below t l = l.
Proof.
  intros Hwf Ht. apply wf_ids_ext; [by apply wf_ids_below|done|]. intros d. rewrite elem_of_below.
  split; [by intros []|]. intros Hd. split; [done|]. pose proof (wf_ids_in _ _ Hwf Hd). lia.
Qed.

(** Going to the next id drops the first one. *)
Lemma below_tail l : wf_ids l -> l <> [] -> below (first_id l - 1) l = tail l.
Proof.
  destruct l as [|d l]; [done|]. intros Hwf _. simpl.
  pose proof Hwf as (_ & Hwf' & Hf)%wf_ids_cons. destruct (Z.leb_spec d (d - 1)); [lia|].
  apply below_all; [done|]. destruct l as [|e l]; simpl.
  - unfold NO_MORE_DOCS. apply wf_ids_cons in Hwf as (? & _). lia.
  - apply Forall_cons in Hf as [? _]. lia.
Qed.

Lemma length_below t l : (length (below t l) <= length l)%nat.
Proof. apply sublist_length, sublist_list_filter. Qed.

Lemma length_below_lt t l : t < first_id l -> l <> [] -> (length (below t l) < length l)%nat.
Proof.
  destruct l as [|d l]; [done|]. simpl. intros Ht _. destruct (Z.leb_spec d t); [lia|].
  pose proof (length_below t l). unfold below in *. lia.
Qed.

Lemma below_below s t l : s <= t -> below s (below t l) = below s l.
Proof.
  intros Hst. unfold below. induction l as [|d l IH]; [done|]. simpl.
  destruct (Z.leb_spec d t); simpl; rewrite IH; [done|]. destruct (Z.leb_spec d s); [lia|done].
Qed.

(** Enumerating an iterator returns its ids. *)
Lemma collect_repr {I} `{IteratorLaws I} fuel (it : I) l r :
  repr it l r -> (length l <= fuel)%nat ->
  exists out, collect fuel it = Some out /\ map fst out = l.
Proof.
  revert it l r. induction fuel as [|fuel IH]; intros it l r Hr Hlen;
    destruct (repr_wf it l r Hr) as (Hwf & _); cbn [collect]; rewrite (repr_DocID it l r Hr);
    destruct (Z.eqb_spec (first_id l) NO_MORE_DOCS) as [E|E];
    try (apply first_id_zero in E as ->; [|done]; by exists []).
  - destruct l; [done|]. simpl in Hlen. lia.
  - destruct l as [|d l]; [done|]. destruct (repr_NextDoc it _ r Hr) as (it' & r' & -> & Hr' & _).
    destruct (IH it' l r') as (out & Hout & Hmap); [done|simpl in Hlen; lia|].
    cbn [mbind option_bind]. rewrite Hout. eexists. split; [done|]. simpl. by rewrite Hmap.
Qed.

(** ** The reader of a document list *)
#[export] Instance reader_iterator : DocIdSetIterator DocListReaderCodec := {
  DocID := Reader_DocID;
  NextDoc r := Some (Reader_NextDoc r);
  Advance := Reader_Advance;
  FieldId := Reader_FieldId;
  remaining r := ((length (slice_ r) - rpos_ r) / DOC_ID_GAP)%nat
}.

Definition reader_repr (it : DocListReaderCodec) (l r : list Z) : Prop :=
  exists docs n f, wf_docs docs /\ (n <= length docs)%nat /\ it = reader_of docs n f /\
    l = map fst (drop n docs) /\ r = map fst docs.

Lemma wf_docs_ids docs : wf_docs docs -> wf_ids (map fst docs).
Proof.
  intros [[Hs Hf] Hn]. induction docs as [|e docs IH]; [by repeat constructor|].
  apply StronglySorted_inv in Hs as [Hs Hl]. apply Forall_cons in Hf as [[He _] Hf], Hn as [Hne Hn].
  cbn [map]. apply wf_ids_cons. split; [|split; [by apply IH|]].
  - unfold is_u64, NO_MORE_DOCS, MAX_DOCID, UINT64_MAX in *. lia.
  - clear -Hl. induction Hl; simpl; constructor; done.
Qed.

Lemma map_fst_first_le t docs :
  wf_entries docs -> map fst (drop (first_le t docs) docs) = below t (map fst docs).
Proof.
  induction docs as [|e docs IH]; intros Hwf; [done|].
  pose proof (wf_entries_cons_inv _ _ Hwf) as (Hwf' & _ & Hf). cbn [map first_le].
  rewrite below_cons. destruct (Z.leb_spec e.1 t) as [Hle|Hgt].
  - cbn [drop map]. rewrite below_Forall; [done|].
    rewrite Forall_map. eapply Forall_impl; [exact Hf|]. unfold entry_gt. simpl. lia.
  - by apply IH.
Qed.

Lemma first_le_length t docs : (first_le t docs <= length docs)%nat.
Proof. induction docs as [|e docs IH]; simpl; [lia|]. destruct (e.1 <=? t); lia. Qed.

(** Seeking a whole list to an id at most the current one. *)
Lemma below_drop t n (docs : list (Z * Z)) :
  wf_docs docs -> t <= first_id (map fst (drop n docs)) ->
  below t (map fst docs) = below t (map fst (drop n docs)).
Proof.
  revert docs. induction n as [|n IH]; intros docs Hwf Ht; [by rewrite drop_0|].
  destruct docs as [|e docs]; [done|]. cbn [drop] in *.
  assert (Hwf' : wf_docs docs) by (eapply wf_docs_sublist; [apply (sublist_drop (e :: docs) 1)|exact Hwf]).
  rewrite <- IH by done. cbn [map]. rewrite below_cons.
  pose proof (wf_docs_ids _ Hwf) as (He & _ & Hf)%wf_ids_cons. destruct (Z.leb_spec e.1 t); [exfalso|done].
  destruct (drop n docs) as [|x rest] eqn:E; simpl in Ht; [unfold NO_MORE_DOCS in Ht; lia|].
  rewrite Forall_forall in Hf. assert (x.1 < e.1); [|lia]. apply Hf, list_elem_of_fmap_2.
  eapply elem_of_sublist; [|apply (sublist_drop docs n)]. rewrite E. by left.
Qed.

#[export] Program Instance reader_laws : IteratorLaws DocListReaderCodec := {| repr := reader_repr |}.
Next Obligation.
  intros it l r (docs & n & f & Hwf & Hn & -> & -> & ->).
  assert (Hs : sublist (drop n docs) docs) by apply sublist_drop.
  split; [by eapply wf_docs_ids, wf_docs_sublist|]. split; [by apply wf_docs_ids|].
  apply sublist_subseteq. exact (fmap_sublist fst _ _ Hs).
Qed.
Next Obligation.
  intros it l r (docs & n & f & Hwf & Hn & -> & -> & ->). cbn [DocID reader_iterator].
  rewrite Reader_DocID_spec by apply Hwf. rewrite <- (Nat.add_0_r n) at 1. rewrite <- lookup_drop.
  by destruct (drop n docs).
Qed.
Next Obligation.
  intros it l r (docs & n & f & Hwf & Hn & -> & -> & ->). cbn [remaining reader_iterator reader_of slice_ rpos_].
  rewrite length_enc_entries, length_map, length_drop, <- Nat.mul_sub_distr_l.
  unfold DOC_ID_GAP. by rewrite Nat.mul_comm, Nat.div_mul.
Qed.
Next Obligation.
  intros it l r (docs & n & f & Hwf & Hn & -> & -> & ->). cbn [NextDoc reader_iterator].
  destruct (decide (n = length docs)) as [->|Hne].
  - rewrite Reader_NextDoc_end by done. eexists _, (map fst docs). split; [done|]. split; [|done].
    exists docs, (length docs), f. rewrite drop_all. split; [done|]. split; [lia|]. by split.
  - rewrite Reader_NextDoc_spec by (done || lia). eexists _, (map fst docs). split; [done|]. split; [|done].
    exists docs, (S n), f. split; [done|]. split; [lia|]. split; [done|]. split; [|done].
    destruct (lookup_lt_is_Some_2 docs n ltac:(lia)) as [e He]. by rewrite (drop_S docs e n He).
Qed.
Next Obligation.
  intros it l r t (docs & n & f & Hwf & Hn & -> & -> & ->) Ht Hm. cbn [Advance reader_iterator].
  assert (Hr : first_id (map fst (drop n docs)) <= MAX_DOCID).
  { apply first_id_range, wf_docs_ids. eapply wf_docs_sublist; [apply sublist_drop|done]. }
  rewrite Reader_Advance_spec by (apply Hwf || lia). eexists _, (map fst docs). split; [done|]. split; [|done].
  destruct docs as [|e docs]; [by exists [], 0%nat, f; assert (n = 0%nat) as -> by (simpl in Hn; lia)|].
  exists (e :: docs), (first_le t (e :: docs)), f. split; [done|]. split; [apply first_le_length|].
  split; [done|]. split; [|done]. rewrite map_fst_first_le by apply Hwf. symmetry. apply below_drop; [done|lia].
Qed.
Next Obligation.
  intros it l r (docs & n & f & Hwf & Hn & -> & -> & ->). cbn [Advance reader_iterator].
  rewrite Reader_Advance_spec by (apply Hwf || lia). eexists. split; [done|].
  destruct docs as [|e docs]; [by exists [], 0%nat, f; assert (n = 0%nat) as -> by (simpl in Hn; lia)|].
  exists (e :: docs), 0%nat, f. split; [done|]. split; [lia|]. split; [|done].
  f_equal. simpl. pose proof (wf_docs_ids _ Hwf) as (He & _)%wf_ids_cons.
  destruct (Z.leb_spec e.1 MAX_DOCID); [done|lia].
Qed.

Lemma reader_repr_start docs f :
  wf_docs docs -> repr (reader_of docs 0 f) (map fst docs) (map fst docs).
Proof. intros Hwf. exists docs, 0%nat, f. split; [done|]. split; [lia|]. by rewrite drop_0. Qed.

(** ** Conjunction *)
Section MergeIterator.
Context {I : Type} `{IteratorLaws I}.

Record MergeIterator := mkMergeIterator {
  sub_iterator_ : list I; curr_ : Z; mfield_id_ : Z }.

(** The loop that looks for the least current id: the id, its field and
    whether another id was seen. *)
Fixpoint find_min (subs : list I) (min field : Z) (retry : bool) : Z * Z * bool :=
  match subs with
  | [] => (min, field, retry)
  | it :: subs' =>
      if DocID it <? min then find_min subs' (DocID it) (FieldId it) true
      else if min <? DocID it then find_min subs' min field true
      else find_min subs' min field retry
  end.

Definition find_min_first (subs : list I) : Z * Z * bool :=
  match subs with
  | [] => (NO_MORE_DOCS, 0, false)
  | it :: subs' => find_min subs' (DocID it) (FieldId it) false
  end.

Definition advance_to_min (min : Z) (it : I) : option I :=
  if min <? DocID it then Advance it min else Some it.

(** The [for (;;)] loop. *)
Fixpoint align (fuel : nat) (subs : list I) : option (list I * Z * Z) :=
  match fuel with
  | O => None
  | S fuel' =>
      let '(min, field, retry) := find_min_first subs in
      if (retry : bool) then
        subs ← mapM (advance_to_min min) subs;
        align fuel' subs
      else Some (subs, min, field)
  end.

Definition merge_fuel (subs : list I) : nat := sum_list_with remaining subs.

Definition Merge_InnderNextDoc (it : MergeIterator) (use_advance : bool) (target : Z) :
    option MergeIterator :=
  subs ← mapM (fun s => if use_advance then Advance s target else NextDoc s) (sub_iterator_ it);
  '(subs, min, field) ← align (S (merge_fuel subs)) subs;
  Some (mkMergeIterator subs min field).

Definition Merge_NextDoc (it : MergeIterator) : option MergeIterator := Merge_InnderNextDoc it false 0.

Definition Merge_Advance (it : MergeIterator) (target : Z) : option MergeIterator :=
  Merge_InnderNextDoc it true target.

Definition new_merge_iterator : MergeIterator := mkMergeIterator [] NO_MORE_DOCS (-1).

Definition Merge_AddSubIterator (it : MergeIterator) (s : I) : MergeIterator :=
  mkMergeIterator (sub_iterator_ it ++ [s]) (curr_ it) (mfield_id_ it).

Definition Merge_FinishAddIterator (it : MergeIterator) : option MergeIterator :=
  Merge_Advance it MAX_DOCID.

#[export] Instance merge_iterator : DocIdSetIterator MergeIterator := {
  DocID := curr_;
  NextDoc := Merge_NextDoc;
  Advance := Merge_Advance;
  FieldId := mfield_id_;
  remaining it := merge_fuel (sub_iterator_ it)
}.

(** What a sub iterator has left, and what it has after a reset. *)
Notation ghost := (list Z * list Z)%type.
Definition R (it : I) (g : ghost) : Prop := repr it g.1 g.2.

Definition inter (ls : list (list Z)) : list Z :=
  match ls with
  | [] => []
  | l :: ls' => List.filter (fun d => forallb (fun l' => bool_decide (d ∈ l')) ls') l
  end.

Lemma elem_of_inter ls d : ls <> [] -> d ∈ inter ls <-> Forall (fun l => d ∈ l) ls.
Proof.
  destruct ls as [|l ls]; [done|]. intros _. simpl.
  rewrite list_elem_of_In, List.filter_In, <- list_elem_of_In, forallb_forall, Forall_cons, Forall_forall.
  setoid_rewrite bool_decide_eq_true. setoid_rewrite <- list_elem_of_In. done.
Qed.

Lemma wf_ids_inter ls : Forall wf_ids ls -> wf_ids (inter ls).
Proof.
  destruct ls as [|l ls]; [by repeat constructor|]. intros [[Hs Hf] _]%Forall_cons. simpl.
  split; [eapply StronglySorted_sublist; [apply sublist_list_filter|done]|].
  eapply Forall_sublist; [apply sublist_list_filter|done].
Qed.

Lemma inter_below t ls : Forall wf_ids ls -> inter (map (below t) ls) = below t (inter ls).
Proof.
  intros Hwf. destruct (decide (ls = [])) as [->|Hne]; [done|]. apply wf_ids_ext.
  - apply wf_ids_inter. rewrite Forall_map. eapply Forall_impl; [exact Hwf|]. intros l. apply wf_ids_below.
  - by apply wf_ids_below, wf_ids_inter.
  - intros d. rewrite elem_of_below, !elem_of_inter by (done || by destruct ls).
    rewrite Forall_map. unfold compose. setoid_rewrite elem_of_below. rewrite Forall_and.
    split; [intros [H1 H2]; split; [done|]|intros [H1 H2]; split; [done|]].
    + destruct ls; [done|]. by apply Forall_cons in H2 as [? _].
    + by apply Forall_true.
Qed.

Lemma inter_subseteq ls ls' : Forall2 (⊆) ls ls' -> inter ls ⊆ inter ls'.
Proof.
  intros H2 d. destruct (decide (ls = [])) as [->|Hne]; [by intros ?%elem_of_nil|].
  assert (ls' <> []) by (intros ->; by apply Forall2_nil_inv_r in H2).
  rewrite !elem_of_inter by done. intros Hd. clear -Hd H2.
  induction H2; [constructor|]. apply Forall_cons in Hd as [? ?]. constructor; [set_solver|by apply IHForall2].
Qed.

(** Applying an operation to every sub iterator. *)
Lemma mapM_R (op : I -> option I) (F : list Z -> list Z) (P : list Z -> Prop) subs gs :
  (forall it g, R it g -> P g.1 -> exists it' r', op it = Some it' /\ repr it' (F g.1) r' /\ r' ⊆ g.2) ->
  Forall2 R subs gs -> Forall P gs.*1 ->
  exists subs' gs', mapM op subs = Some subs' /\ Forall2 R subs' gs' /\
    gs'.*1 = map F gs.*1 /\ Forall2 (⊆) gs'.*2 gs.*2.
Proof.
  intros Hop. induction 1 as [|it g subs gs Hg Hgs IH]; intros HP; [by exists [], []|].
  cbn in HP. apply Forall_cons in HP as [HP HPs].
  destruct (Hop it g Hg HP) as (it' & r' & Ho & Hr & Hsub).
  destruct (IH HPs) as (subs' & gs' & Hm & HR & E1 & E2).
  exists (it' :: subs'), ((F g.1, r') :: gs'). cbn. rewrite Ho. cbn [mbind option_bind]. rewrite Hm.
  split; [done|]. split; [by constructor|]. split; [by f_equal|by constructor].
Qed.

Lemma R_wf subs gs : Forall2 R subs gs -> Forall wf_ids gs.*1 /\ Forall wf_ids gs.*2 /\ Forall2 (⊆) gs.*1 gs.*2.
Proof.
  induction 1 as [|it g subs gs Hg _ (IH1 & IH2 & IH3)]; [done|].
  destruct (repr_wf _ _ _ Hg) as (? & ? & ?). cbn. repeat split; by constructor.
Qed.

Lemma find_min_spec subs min field retry min' field' retry' :
  find_min subs min field retry = (min', field', retry') ->
  min' <= min /\ Forall (fun it => min' <= DocID it) subs /\
  (min' = min \/ exists it, it ∈ subs /\ DocID it = min') /\
  (retry' = false -> retry = false /\ min' = min /\ Forall (fun it => DocID it = min) subs) /\
  (retry' = true -> retry = true \/ min' < min \/ exists it, it ∈ subs /\ min' < DocID it).
Proof.
  revert min field retry. induction subs as [|it subs IH]; intros min field retry; simpl.
  { intros [= -> -> ->]. repeat split; try done; [by left|by left]. }
  assert (Hcons : forall P : I -> Prop, (exists x, x ∈ subs /\ P x) -> exists x, x ∈ it :: subs /\ P x).
  { intros P (x & ? & ?). exists x. split; [by right|done]. }
  destruct (Z.ltb_spec (DocID it) min) as [Hlt|Hge]; [|destruct (Z.ltb_spec min (DocID it)) as [Hgt|Heq]];
    intros (H1 & H2 & H3 & H4 & H5)%IH; rewrite ?Forall_cons.
  - split; [lia|]. split; [by split; [lia|]|]. split; [|split].
    + right. destruct H3 as [->|H3]; [exists it; split; [by left|done]|by apply Hcons].
    + intros E. by destruct (H4 E).
    + intros _. right; left. lia.
  - split; [lia|]. split; [by split; [lia|]|]. split; [|split].
    + destruct H3 as [->|H3]; [by left|right; by apply Hcons].
    + intros E. by destruct (H4 E).
    + intros _. right; right. exists it. split; [by left|lia].
  - split; [lia|]. split; [by split; [lia|]|]. split; [|split].
    + destruct H3 as [->|H3]; [by left|right; by apply Hcons].
    + intros E. destruct (H4 E) as (-> & -> & ?). split; [done|]. split; [done|]. split; [lia|done].
    + intros E. destruct (H5 E) as [?|[?|?]]; [by left|by right; left|right; right; by apply Hcons].
Qed.

Definition ghost_size (gs : list ghost) : nat := sum_list_with (fun g => length g.1) gs.

Lemma ghost_size_fuel subs gs : Forall2 R subs gs -> (ghost_size gs <= merge_fuel subs)%nat.
Proof.
  induction 1 as [|it g subs gs Hg _ IH]; [done|]. unfold ghost_size, merge_fuel in *. cbn.
  pose proof (repr_remaining _ _ _ Hg). lia.
Qed.

Lemma ghost_size_below t gs gs' : gs'.*1 = map (below t) gs.*1 -> (ghost_size gs' <= ghost_size gs)%nat.
Proof.
  revert gs'. induction gs as [|g gs IH]; intros [|g' gs'] E; try done.
  cbn in E. injection E as E1 E2. unfold ghost_size in *. cbn. rewrite E1. specialize (IH _ E2).
  pose proof (length_below t g.1). lia.
Qed.

Lemma ghost_size_below_lt t gs gs' :
  gs'.*1 = map (below t) gs.*1 -> (exists g, g ∈ gs /\ t < first_id g.1 /\ g.1 <> []) ->
  (ghost_size gs' < ghost_size gs)%nat.
Proof.
  revert gs'. induction gs as [|g gs IH]; intros [|g' gs'] E (x & Hx & Hlt & Hne); try done;
    [by apply elem_of_nil in Hx|].
  pose proof (ghost_size_below t gs gs'). cbn in E. injection E as E1 E2. unfold ghost_size in *. cbn.
  rewrite E1. specialize (H1 E2). pose proof (length_below t g.1).
  apply elem_of_cons in Hx as [->|Hx].
  - pose proof (length_below_lt t g.1 Hlt Hne). lia.
  - assert (exists g, g ∈ gs /\ t < first_id g.1 /\ g.1 <> []) as Hex by eauto.
    specialize (IH gs' E2 Hex). lia.
Qed.

Lemma advance_to_min_spec min it g :
  R it g -> 0 <= min <= MAX_DOCID ->
  exists it' r', advance_to_min min it = Some it' /\ repr it' (below min g.1) r' /\ r' ⊆ g.2.
Proof.
  intros Hr Hmin. unfold advance_to_min. rewrite (repr_DocID _ _ _ Hr).
  destruct (repr_wf _ _ _ Hr) as (Hwf & _). pose proof (first_id_range _ Hwf).
  destruct (Z.ltb_spec min (first_id g.1)).
  - apply repr_Advance; [done|lia|lia].
  - exists it, g.2. by rewrite below_all.
Qed.

Lemma align_spec fuel subs gs :
  Forall2 R subs gs -> (ghost_size gs < fuel)%nat ->
  exists subs' min field gs', align fuel subs = Some (subs', min, field) /\ Forall2 R subs' gs' /\
    Forall (fun it => DocID it = min) subs' /\ (subs' = [] -> min = NO_MORE_DOCS) /\
    inter gs'.*1 = inter gs.*1 /\ Forall2 (⊆) gs'.*2 gs.*2.
Proof.
  revert subs gs. induction fuel as [|fuel IH]; intros subs gs HR Hfuel; [lia|]. cbn [align].
  destruct subs as [|it subs].
  { inversion HR; subst. simpl. by exists [], NO_MORE_DOCS, 0, []. }
  cbn [find_min_first]. destruct (find_min subs (DocID it) (FieldId it) false) as [[min field] retry] eqn:E.
  apply find_min_spec in E as (H1 & H2 & H3 & H4 & H5).
  assert (Hge : Forall (fun it => min <= DocID it) (it :: subs)) by (constructor; [lia|done]).
  destruct retry.
  - assert (Hex : exists it', it' ∈ it :: subs /\ min < DocID it').
    { destruct (H5 eq_refl) as [?|[?|(x & ? & ?)]]; [done|exists it; split; [by left|lia]|].
      exists x. split; [by right|done]. }
    assert (Hin : exists it', it' ∈ it :: subs /\ DocID it' = min).
    { destruct H3 as [->|(x & ? & ?)]; [exists it; split; [by left|done]|exists x; split; [by right|done]]. }
    assert (Hmin : 0 <= min <= MAX_DOCID).
    { destruct Hin as (x & Hx & <-). apply list_elem_of_lookup in Hx as [i Hi].
      destruct (Forall2_lookup_l _ _ _ _ _ HR Hi) as (g & _ & Hg).
      rewrite (repr_DocID _ _ _ Hg). apply first_id_range, (repr_wf _ _ _ Hg). }
    destruct (mapM_R (advance_to_min min) (below min) (fun _ => True) (it :: subs) gs)
      as (subs1 & gs1 & Hm & HR1 & E1 & E2).
    { intros x g Hx _. by apply advance_to_min_spec. }
    { done. }
    { by apply Forall_true. }
    rewrite Hm. cbn [mbind option_bind].
    destruct (IH subs1 gs1 HR1) as (subs2 & min2 & field2 & gs2 & Ha & HR2 & Hall & Hnil & Hint & Hsub).
    { assert (ghost_size gs1 < ghost_size gs)%nat; [|lia]. apply (ghost_size_below_lt min); [done|].
      destruct Hex as (x & Hx & Hlt). apply list_elem_of_lookup in Hx as [i Hi].
      destruct (Forall2_lookup_l _ _ _ _ _ HR Hi) as (g & Hg & HRg). exists g.
      rewrite (repr_DocID _ _ _ HRg) in Hlt. split; [by eapply list_elem_of_lookup_2|]. split; [done|].
      intros En. rewrite En in Hlt. simpl in Hlt. unfold NO_MORE_DOCS in Hlt. lia. }
    exists subs2, min2, field2, gs2. split; [done|]. split; [done|]. split; [done|]. split; [done|].
    destruct (R_wf _ _ HR) as (Hwf & _ & _). split.
    + rewrite Hint, E1, inter_below by done. apply below_all; [by apply wf_ids_inter|].
      destruct Hin as (x & Hx & <-). apply list_elem_of_lookup in Hx as [i Hi].
      destruct (Forall2_lookup_l _ _ _ _ _ HR Hi) as (g & Hg & HRg). rewrite (repr_DocID _ _ _ HRg).
      assert (Hgne : gs.*1 <> []) by (inversion HR; subst; done).
      pose proof (elem_of_inter gs.*1 (first_id (inter gs.*1)) Hgne) as Hei.
      pose proof (wf_ids_inter _ Hwf) as Hwi.
      assert (HRwf : wf_ids g.1) by apply (repr_wf _ _ _ HRg).
      destruct (inter gs.*1) as [|d l]; [simpl; apply first_id_range; done|]. simpl in *.
      assert (d ∈ g.1) as Hd.
      { rewrite Forall_forall in Hei. apply Hei; [by left|]. apply list_elem_of_fmap_2.
        by eapply list_elem_of_lookup_2. }
      pose proof (wf_ids_in _ _ HRwf Hd). lia.
    + by transitivity gs1.*2.
  - destruct (H4 eq_refl) as (_ & -> & Hall).
    exists (it :: subs), (DocID it), field, gs. split; [done|]. split; [done|].
    split; [by constructor|]. split; [done|]. split; [done|]. clear. induction gs.*2; by constructor.
Qed.

Lemma Merge_InnderNextDoc_spec it gs use_advance target F P :
  (forall s g, R s g -> P g.1 -> exists s' r',
     (if use_advance : bool then Advance s target else NextDoc s) = Some s' /\ repr s' (F g.1) r' /\ r' ⊆ g.2) ->
  Forall2 R (sub_iterator_ it) gs -> Forall P gs.*1 ->
  exists it' gs', Merge_InnderNextDoc it use_advance target = Some it' /\ Forall2 R (sub_iterator_ it') gs' /\
    Forall (fun s => DocID s = curr_ it') (sub_iterator_ it') /\
    (sub_iterator_ it' = [] -> curr_ it' = NO_MORE_DOCS) /\
    inter gs'.*1 = inter (map F gs.*1) /\ Forall2 (⊆) gs'.*2 gs.*2.
Proof.
  intros Hop HR HP. unfold Merge_InnderNextDoc.
  destruct (mapM_R _ F P _ _ Hop HR HP) as (subs1 & gs1 & -> & HR1 & E1 & E2). cbn [mbind option_bind].
  destruct (align_spec (S (merge_fuel subs1)) subs1 gs1 HR1) as
    (subs2 & min & field & gs2 & -> & HR2 & Hall & Hnil & Hint & Hsub).
  { pose proof (ghost_size_fuel _ _ HR1). lia. }
  cbn [mbind option_bind]. exists (mkMergeIterator subs2 min field), gs2. split; [done|].
  split; [done|]. split; [done|]. split; [done|]. split; [by rewrite Hint, E1|].
  by transitivity gs1.*2.
Qed.

(** A conjunction positioned on the common id of its sub iterators. *)
Definition merge_repr (it : MergeIterator) (l r : list Z) : Prop :=
  exists gs, Forall2 R (sub_iterator_ it) gs /\
    Forall (fun s => DocID s = curr_ it) (sub_iterator_ it) /\
    (sub_iterator_ it = [] -> curr_ it = NO_MORE_DOCS) /\
    l = inter gs.*1 /\ r = inter gs.*2.

Lemma aligned_first subs gs c :
  Forall2 R subs gs -> Forall (fun s => DocID s = c) subs -> (subs = [] -> c = NO_MORE_DOCS) ->
  c = first_id (inter gs.*1) /\ Forall (fun l => first_id l = first_id (inter gs.*1)) gs.*1.
Proof.
  intros HR Hall Hnil. destruct (R_wf _ _ HR) as (Hwf & _ & _).
  assert (Hf : Forall (fun l => first_id l = c) gs.*1).
  { clear -HR Hall. induction HR as [|s g subs gs Hg _ IH]; [constructor|].
    apply Forall_cons in Hall as [Hd Hall]. cbn. constructor; [|by apply IH].
    by rewrite <- (repr_DocID _ _ _ Hg). }
  cut (c = first_id (inter gs.*1)); [by intros <-|].
  assert (Hwi : wf_ids (inter gs.*1)) by by apply wf_ids_inter.
  destruct HR as [|s g subs gs Hg HR]; [by rewrite Hnil|].
  set (ls := (g :: gs).*1) in *. assert (Hne : ls <> []) by done.
  assert (Hg1 : g.1 ∈ ls) by (cbn; left).
  rewrite Forall_forall in Hf, Hwf. pose proof (Hf _ Hg1) as Hgc. pose proof (Hwf _ Hg1) as Hgw.
  destruct (inter ls) as [|d l] eqn:Ei.
  - simpl. destruct (decide (c = NO_MORE_DOCS)) as [|Hc]; [done|exfalso].
    assert (c ∈ inter ls); [|rewrite Ei in H1; by apply elem_of_nil in H1].
    apply elem_of_inter; [done|]. apply Forall_forall. intros l Hl. specialize (Hf l Hl).
    destruct l as [|x l]; [simpl in Hf; congruence|]. simpl in Hf. subst. left.
  - simpl. assert (Hd : d ∈ g.1).
    { assert (Hd : d ∈ inter ls) by (rewrite Ei; left). apply elem_of_inter in Hd; [|done].
      rewrite Forall_forall in Hd. by apply Hd. }
    pose proof (wf_ids_in _ _ Hgw Hd) as Hdle.
    assert (Hc : c ∈ inter ls).
    { apply elem_of_inter; [done|]. apply Forall_forall. intros l' Hl. specialize (Hf l' Hl).
      destruct l' as [|x l']; [simpl in Hf; unfold NO_MORE_DOCS in *; lia|]. simpl in Hf. subst. left. }
    rewrite Ei in Hc. pose proof (wf_ids_in _ _ Hwi Hc). simpl in *. lia.
Qed.

(** Both steps restrict every sub iterator to the ids at most [t]. *)
Lemma merge_step it l r use_advance target t :
  merge_repr it l r ->
  (forall s g, R s g -> first_id g.1 = first_id l -> exists s' r',
     (if use_advance : bool then Advance s target else NextDoc s) = Some s' /\
     repr s' (below t g.1) r' /\ r' ⊆ g.2) ->
  exists it' r', Merge_InnderNextDoc it use_advance target = Some it' /\
    merge_repr it' (below t l) r' /\ r' ⊆ r.
Proof.
  intros (gs & HR & Hall & Hnil & -> & ->) Hop. destruct (R_wf _ _ HR) as (Hwf & Hwr & Hsub).
  destruct (aligned_first _ _ _ HR Hall Hnil) as [Hc Hf].
  destruct (Merge_InnderNextDoc_spec it gs use_advance target (below t)
    (fun l => first_id l = first_id (inter gs.*1)) Hop HR Hf) as
    (it' & gs' & -> & HR' & Hall' & Hnil' & Hint & Hs).
  exists it', (inter gs'.*2). split; [done|]. split; [|by apply inter_subseteq].
  exists gs'. repeat split; try done. by rewrite Hint, inter_below.
Qed.

#[export] Program Instance merge_laws : IteratorLaws MergeIterator := {| repr := merge_repr |}.
Next Obligation.
  intros it l r (gs & HR & _ & _ & -> & ->). destruct (R_wf _ _ HR) as (Hwf & Hwr & Hsub).
  split; [by apply wf_ids_inter|]. split; [by apply wf_ids_inter|]. by apply inter_subseteq.
Qed.
Next Obligation. intros it l r (gs & HR & Hall & Hnil & -> & ->). by eapply aligned_first. Qed.
Next Obligation.
  intros it l r (gs & HR & _ & _ & -> & ->). cbn [remaining merge_iterator].
  pose proof (ghost_size_fuel _ _ HR). destruct gs as [|g gs]; [simpl; lia|]. unfold ghost_size in *. cbn in *.
  pose proof (sublist_length _ _ (sublist_list_filter
    (fun d => forallb (fun l' => bool_decide (d ∈ l')) gs.*1) g.1)). cbn in *. lia.
Qed.
Next Obligation.
  intros it l r Hr. destruct (merge_step it l r false 0 (first_id l - 1) Hr) as (it' & r' & Hs & Hr' & Hsub).
  { intros s g Hg Hf. destruct (repr_wf _ _ _ Hg) as (Hwf & _).
    destruct (repr_NextDoc _ _ _ Hg) as (s' & r' & -> & Hr' & Hs). exists s', r'. split; [done|].
    split; [|done]. replace (below (first_id l - 1) g.1) with (tail g.1); [done|].
    destruct (decide (g.1 = [])) as [E|Hne]; [by rewrite E|by rewrite <- Hf, below_tail]. }
  exists it', r'. split; [done|]. split; [|done].
  destruct Hr as (gs & HR & _ & _ & -> & _). destruct (R_wf _ _ HR) as (Hwf & _).
  destruct (decide (inter gs.*1 = [])) as [E|Hne]; [by rewrite E in *|].
  by rewrite below_tail in Hr' by (done || by apply wf_ids_inter).
Qed.
Next Obligation.
  intros it l r t Hr Ht Hm. apply (merge_step it l r true t t Hr).
  intros s g Hg Hf. apply repr_Advance; [done|by rewrite Hf|done].
Qed.

(** [FinishAddIterator] and a seek to [MAX_DOCID]: the position is found again. *)
Lemma Merge_FinishAddIterator_spec it gs :
  Forall2 R (sub_iterator_ it) gs ->
  exists it', Merge_FinishAddIterator it = Some it' /\ merge_repr it' (inter gs.*2) (inter gs.*2).
Proof.
  intros HR. unfold Merge_FinishAddIterator, Merge_Advance.
  set (gs0 := map (fun g : ghost => (g.2, g.2)) gs).
  assert (Hop : exists subs, mapM (fun s => Advance s MAX_DOCID) (sub_iterator_ it) = Some subs /\
    Forall2 R subs gs0).
  { unfold gs0. clear gs0. induction HR as [|s g subs gs Hg _ (subs' & IH & IHR)].
    - exists []. done.
    - destruct (repr_reset _ _ _ Hg) as (s' & Hs & Hr). exists (s' :: subs'). cbn. rewrite Hs.
      cbn [mbind option_bind]. rewrite IH. split; [done|]. by constructor. }
  destruct Hop as (subs1 & Hm & HR1). unfold Merge_InnderNextDoc. rewrite Hm. cbn [mbind option_bind].
  destruct (align_spec (S (merge_fuel subs1)) subs1 gs0 HR1) as
    (subs2 & min & field & gs2 & -> & HR2 & Hall & Hnil & Hint & Hsub).
  { pose proof (ghost_size_fuel _ _ HR1). lia. }
  cbn [mbind option_bind]. eexists. split; [done|]. exists gs2.
  assert (E1 : gs0.*1 = gs.*2) by (unfold gs0; clear; induction gs; simpl; by f_equal).
  assert (E2 : gs0.*2 = gs.*2) by (unfold gs0; clear; induction gs; simpl; by f_equal).
  rewrite E1 in Hint. rewrite E2 in Hsub. split; [done|]. split; [done|]. split; [done|]. split; [done|].
  destruct (R_wf _ _ HR2) as (_ & Hw2 & Hs2). destruct (R_wf _ _ HR) as (_ & Hw & _).
  apply wf_ids_ext; [by apply wf_ids_inter|by apply wf_ids_inter|].
  intros d. split; [rewrite <- Hint; by apply inter_subseteq|by apply inter_subseteq].
Qed.

Next Obligation.
  intros it l r (gs & HR & _ & _ & -> & ->). by apply Merge_FinishAddIterator_spec.
Qed.
End MergeIterator.

(** ** Disjunction *)
Section OrIterator.
Context {I : Type} `{IteratorLaws I}.

(** The sub iterators, kept as a heap once [FinishAddIterator] was called. *)
Record OrIterator := mkOrIterator { osub_iterator_ : list I }.

(** The heap order: [IteratorGreater] is the "less" of a heap whose front has
    the greatest id. *)
Definition IteratorGreater (left right : I) : bool := DocID left <? DocID right.
Definition heap_greater (a b : I) : bool := IteratorGreater b a.

Definition Or_DocID (it : OrIterator) : Z :=
  match osub_iterator_ it with [] => NO_MORE_DOCS | s :: _ => DocID s end.

Definition Or_FieldId (it : OrIterator) : Z :=
  match osub_iterator_ it with [] => -1 | s :: _ => FieldId s end.

(** The [for (;;)] loop: pop the front, move it, push it back. *)
Fixpoint or_loop (fuel : nat) (use_advance : bool) (target : Z) (subs : list I) : option (list I) :=
  match fuel with
  | O => None
  | S fuel' =>
      front ← head subs;
      let curr := DocID front in
      if negb (curr =? NO_MORE_DOCS) && (target <? curr) then
        subs ← pop_heap heap_greater subs;
        back ← last subs;
        back ← (if use_advance then Advance back target else NextDoc back);
        subs ← push_heap heap_greater (removelast subs ++ [back]);
        or_loop fuel' use_advance target subs
      else Some subs
  end.

Definition or_fuel (subs : list I) : nat := sum_list_with remaining subs.

Definition Or_InnderNextDoc (it : OrIterator) (use_advance : bool) (target : Z) : option OrIterator :=
  match osub_iterator_ it with
  | [] => Some it
  | subs => subs ← or_loop (S (or_fuel subs)) use_advance target subs; Some (mkOrIterator subs)
  end.

Definition Or_NextDoc (it : OrIterator) : option OrIterator :=
  let curr := Or_DocID it in
  if NO_MORE_DOCS =? curr then Some it else Or_InnderNextDoc it false (u64 (curr - 1)).

Definition Or_Advance (it : OrIterator) (target : Z) : option OrIterator :=
  Or_InnderNextDoc it true target.

Definition Or_AddSubIterator (it : OrIterator) (s : I) : OrIterator :=
  mkOrIterator (osub_iterator_ it ++ [s]).

Definition Or_FinishAddIterator (it : OrIterator) : option OrIterator :=
  match osub_iterator_ it with
  | [] => Some it
  | subs => subs ← make_heap heap_greater subs; Some (mkOrIterator subs)
  end.

#[export] Instance or_iterator : DocIdSetIterator OrIterator := {
  DocID := Or_DocID;
  NextDoc := Or_NextDoc;
  Advance := Or_Advance;
  FieldId := Or_FieldId;
  remaining it := or_fuel (osub_iterator_ it)
}.

Notation ghost := (list Z * list Z)%type.

Definition in_some (gs : list ghost) (d : Z) : Prop := exists g, g ∈ gs /\ d ∈ g.1.

Definition or_repr (it : OrIterator) (l r : list Z) : Prop :=
  r = l /\ wf_ids l /\ exists gs, Forall2 R (osub_iterator_ it) gs /\
    heap_ok heap_greater (length (osub_iterator_ it)) (osub_iterator_ it) /\
    (forall d, d ∈ l <-> in_some gs d).

Lemma heap_greater_trans a b c :
  heap_greater a b = false -> heap_greater b c = false -> heap_greater a c = false.
Proof. unfold heap_greater, IteratorGreater. rewrite !Z.ltb_ge. lia. Qed.

Lemma heap_greater_total a b : heap_greater a b = true -> heap_greater b a = false.
Proof. unfold heap_greater, IteratorGreater. rewrite Z.ltb_ge, Z.ltb_lt. lia. Qed.

Lemma Forall2_R_perm (subs subs' : list I) gs :
  subs' ≡ₚ subs -> Forall2 R subs gs -> exists gs', gs' ≡ₚ gs /\ Forall2 R subs' gs'.
Proof.
  intros HP. revert gs. symmetry in HP. induction HP as [|s l l' HP IH|s1 s2 l|l1 l2 l3 _ IH1 _ IH2]; intros gs HR.
  - inversion HR; subst. by exists [].
  - inversion HR as [|? g ? gs0 Hg HR']; subst. destruct (IH _ HR') as (gs' & HP' & HR'').
    exists (g :: gs'). split; [by constructor|by constructor].
  - inversion HR as [|? g1 ? gs1 Hg1 HR1]; subst. inversion HR1 as [|? g2 ? gs2 Hg2 HR2]; subst.
    exists (g2 :: g1 :: gs2). split; [constructor|by repeat constructor].
  - destruct (IH1 _ HR) as (gs1 & HP1 & HR1). destruct (IH2 _ HR1) as (gs2 & HP2 & HR2).
    exists gs2. split; [by transitivity gs1|done].
Qed.

Lemma in_some_perm gs gs' d : gs ≡ₚ gs' -> in_some gs d <-> in_some gs' d.
Proof. intros HP. unfold in_some. by setoid_rewrite HP. Qed.

Lemma ghost_size_perm gs gs' : gs ≡ₚ gs' -> ghost_size gs = ghost_size gs'.
Proof. intros HP. unfold ghost_size. by rewrite HP. Qed.

(** The front has the greatest id. *)
Lemma or_front s subs g gs :
  heap_ok heap_greater (length (s :: subs)) (s :: subs) -> Forall2 R (s :: subs) (g :: gs) ->
  Forall (fun g' => first_id g'.1 <= first_id g.1) (g :: gs).
Proof.
  intros Hok HR. apply Forall_forall. intros g' Hg'. apply list_elem_of_lookup in Hg' as [i Hi].
  destruct (Forall2_lookup_r _ _ _ _ _ HR Hi) as (s' & Hs' & HRs').
  inversion HR as [|? ? ? ? HRs _]; subst.
  assert (Hle : heap_greater s' s = false).
  { eapply (heap_root heap_greater heap_greater_trans heap_greater_total _ _ _ _ i Hok);
      [by eapply lookup_lt_Some|done|done|done]. }
  unfold heap_greater, IteratorGreater in Hle. rewrite Z.ltb_ge in Hle.
  by rewrite (repr_DocID _ _ _ HRs), (repr_DocID _ _ _ HRs') in Hle.
Qed.

Lemma or_loop_spec fuel use_advance target b subs gs :
  (forall s g, R s g -> target < first_id g.1 <= b -> exists s' r',
     (if use_advance : bool then Advance s target else NextDoc s) = Some s' /\
     repr s' (below target g.1) r' /\ r' ⊆ g.2) ->
  0 <= target -> subs <> [] -> Forall2 R subs gs -> heap_ok heap_greater (length subs) subs ->
  Forall (fun g => first_id g.1 <= b) gs -> (ghost_size gs < fuel)%nat ->
  exists subs' gs', or_loop fuel use_advance target subs = Some subs' /\ subs' <> [] /\ Forall2 R subs' gs' /\
    heap_ok heap_greater (length subs') subs' /\
    (forall d, in_some gs' d <-> in_some gs d /\ d <= target).
Proof.
  intros Hop Ht. revert subs gs. induction fuel as [|fuel IH]; intros subs gs Hne HR Hok Hb Hfuel; [lia|].
  destruct subs as [|s subs]; [done|]. inversion HR as [|? g ? gs0 Hg HR']; subst.
  pose proof (or_front _ _ _ _ Hok HR) as Hfront.
  cbn [or_loop head mbind option_bind]. rewrite (repr_DocID _ _ _ Hg).
  destruct (repr_wf _ _ _ Hg) as (Hwf & _). pose proof (first_id_range _ Hwf) as Hrange.
  destruct (Z.ltb_spec target (first_id g.1)) as [Hlt|Hge].
  - destruct (Z.eqb_spec (first_id g.1) NO_MORE_DOCS) as [E|_]; [unfold NO_MORE_DOCS in E; lia|]. cbn [negb andb].
    destruct (pop_heap_spec heap_greater heap_greater_trans heap_greater_total s subs Hok)
      as (init & -> & HP & Hok'). cbn [mbind option_bind].
    rewrite last_snoc, removelast_last. cbn [mbind option_bind].
    apply Forall_cons in Hb as [Hbg Hbs].
    destruct (Hop s g Hg ltac:(lia)) as (s' & r' & -> & Hr' & _). cbn [mbind option_bind].
    destruct (push_heap_spec heap_greater heap_greater_trans heap_greater_total init s' Hok')
      as (subs' & -> & HP' & Hok''). cbn [mbind option_bind].
    assert (HR1 : Forall2 R (s' :: subs) ((below target g.1, r') :: gs0)) by by constructor.
    destruct (Forall2_R_perm _ subs' _ ltac:(by rewrite HP', HP) HR1) as (gs1 & HPg & HR2).
    destruct (IH subs' gs1) as (subs2 & gs2 & Hl & Hne2 & HR3 & Hok3 & Hin); try done.
    { intros ->. apply Permutation_nil_l in HP'. done. }
    { rewrite HPg. apply Forall_cons. split; [|done]. simpl.
      pose proof (wf_ids_below target g.1 Hwf) as Hwb. destruct (below target g.1) as [|d l] eqn:Eb.
      - simpl. unfold NO_MORE_DOCS. lia.
      - assert (d ∈ below target g.1) as Hd by (rewrite Eb; left). apply elem_of_below in Hd. simpl. lia. }
    { rewrite (ghost_size_perm _ _ HPg). unfold ghost_size in *. cbn in *.
      assert (g.1 <> []) as Hgne. { intros E. rewrite E in Hlt. simpl in Hlt. unfold NO_MORE_DOCS in Hlt. lia. }
      pose proof (length_below_lt target g.1 Hlt Hgne). lia. }
    exists subs2, gs2. split; [done|]. split; [done|]. split; [done|]. split; [done|].
    intros d. rewrite Hin, (in_some_perm _ _ d HPg). unfold in_some.
    setoid_rewrite elem_of_cons. split.
    + intros [(g' & [->|Hg'] & Hd) Hle]; (split; [|done]).
      * apply elem_of_below in Hd as [Hd _]. eauto.
      * eauto.
    + intros [(g' & [->|Hg'] & Hd) Hle]; (split; [|done]).
      * exists (below target g.1, r'). split; [by left|]. by apply elem_of_below.
      * eauto.
  - rewrite andb_false_r. exists (s :: subs), (g :: gs0). split; [done|]. split; [done|]. split; [done|].
    split; [done|]. intros d. split; [|by intros []]. intros (g' & Hg' & Hd). split; [by exists g'|].
    apply list_elem_of_lookup in Hg' as [i Hi].
    destruct (Forall2_lookup_r _ _ _ _ _ HR Hi) as (s1 & _ & HR1). destruct (repr_wf _ _ _ HR1) as (Hwf1 & _).
    pose proof (wf_ids_in _ _ Hwf1 Hd). rewrite Forall_forall in Hfront.
    specialize (Hfront g' (list_elem_of_lookup_2 _ _ _ Hi)). simpl in *. lia.
Qed.

(** A step that leaves the ids at most [t]. *)
Lemma or_step it l use_advance t b :
  or_repr it l l -> 0 <= t -> first_id l <= b -> osub_iterator_ it <> [] ->
  (forall s g, R s g -> t < first_id g.1 <= b -> exists s' r',
     (if use_advance : bool then Advance s t else NextDoc s) = Some s' /\
     repr s' (below t g.1) r' /\ r' ⊆ g.2) ->
  exists it', Or_InnderNextDoc it use_advance t = Some it' /\ or_repr it' (below t l) (below t l).
Proof.
  intros (_ & Hwf & gs & HR & Hok & Hin) Ht Hb Hne Hop. unfold Or_InnderNextDoc.
  destruct (osub_iterator_ it) as [|s subs] eqn:Es; [done|].
  destruct (or_loop_spec (S (or_fuel (s :: subs))) use_advance t b (s :: subs) gs Hop Ht Hne HR Hok)
    as (subs' & gs' & -> & Hne' & HR' & Hok' & Hin').
  { apply Forall_forall. intros g Hg. destruct g.1 as [|d l0] eqn:E.
    - simpl. pose proof (first_id_range _ Hwf). unfold NO_MORE_DOCS. lia.
    - simpl. assert (d ∈ l) as Hd. { apply Hin. exists g. rewrite E. split; [done|left]. }
      pose proof (wf_ids_in _ _ Hwf Hd). lia. }
  { pose proof (ghost_size_fuel _ _ HR). unfold or_fuel, merge_fuel in *. lia. }
  cbn [mbind option_bind]. eexists. split; [done|]. split; [done|]. split; [by apply wf_ids_below|].
  exists gs'. split; [done|]. split; [done|]. intros d. by rewrite elem_of_below, Hin, Hin'.
Qed.

Lemma or_repr_DocID it l r : or_repr it l r -> Or_DocID it = first_id l.
Proof.
  intros (_ & Hwf & gs & HR & Hok & Hin). unfold Or_DocID.
  destruct (osub_iterator_ it) as [|s subs] eqn:Es.
  - inversion HR; subst. destruct l as [|d l]; [done|]. destruct (Hin d) as [H1 _].
    destruct H1 as (g & Hg & _); [left|]. by apply elem_of_nil in Hg.
  - inversion HR as [|? g ? gs0 Hg HR']; subst. rewrite (repr_DocID _ _ _ Hg).
    pose proof (or_front _ _ _ _ Hok HR) as Hf. destruct (repr_wf _ _ _ Hg) as (Hwg & _).
    pose proof (first_id_range _ Hwg) as Hr1. pose proof (first_id_range _ Hwf) as Hr2.
    apply Z.le_antisymm.
    + destruct g.1 as [|d l0] eqn:E; [simpl; unfold NO_MORE_DOCS in *; lia|]. simpl.
      assert (d ∈ l) as Hd. { apply Hin. exists g. rewrite E. split; left. }
      apply (wf_ids_in _ _ Hwf Hd).
    + destruct l as [|d l]; [simpl; unfold NO_MORE_DOCS in *; lia|]. simpl.
      destruct (proj1 (Hin d)) as (g' & Hg' & Hd); [left|]. rewrite Forall_forall in Hf. specialize (Hf _ Hg').
      apply list_elem_of_lookup in Hg' as [i Hi].
      destruct (Forall2_lookup_r _ _ _ _ _ HR Hi) as (s1 & _ & HR1). destruct (repr_wf _ _ _ HR1) as (Hwf1 & _).
      pose proof (wf_ids_in _ _ Hwf1 Hd). simpl in *. lia.
Qed.
#[export] Program Instance or_laws : IteratorLaws OrIterator := {| repr := or_repr |}.
Next Obligation. intros it l r (-> & Hwf & _). split; [done|]. split; [done|]. done. Qed.
Next Obligation. apply or_repr_DocID. Qed.
Next Obligation.
  intros it l r (_ & [Hs _] & gs & HR & Hok & Hin). cbn [remaining or_iterator].
  pose proof (ghost_size_fuel _ _ HR) as Hfu. change (or_fuel (osub_iterator_ it)) with (merge_fuel (osub_iterator_ it)).
  transitivity (ghost_size gs); [|done].
  assert (E : ghost_size gs = length (concat gs.*1)).
  { clear. unfold ghost_size. induction gs as [|g gs IH]; [done|]. cbn. by rewrite length_app, IH. }
  rewrite E. apply submseteq_length, NoDup_submseteq.
  - clear -Hs. induction Hs as [|d l Hs IH Hf]; constructor; [|done]. intros Hd.
    rewrite Forall_forall in Hf. apply (cmp_lt_irrefl Zcmp_desc d), Hf, Hd.
  - intros d Hd. apply Hin in Hd as (g & Hg & Hd). rewrite list_elem_of_In, in_concat. exists g.1. rewrite <- !list_elem_of_In. split; [|done].
    by apply list_elem_of_fmap_2.
Qed.
Next Obligation.
  intros it l r Hr. pose proof Hr as (-> & Hwf & gs & HR & Hok & Hin). cbn [NextDoc or_iterator].
  unfold Or_NextDoc. rewrite (or_repr_DocID _ _ _ Hr). pose proof (first_id_range _ Hwf) as Hrange.
  destruct (Z.eqb_spec NO_MORE_DOCS (first_id l)) as [E|E].
  { symmetry in E. apply first_id_zero in E as ->; [|done]. by exists it, []. }
  assert (Hne : l <> []) by (by intros ->).
  assert (Hu : u64 (first_id l - 1) = first_id l - 1).
  { unfold u64, NO_MORE_DOCS, MAX_DOCID, UINT64_MAX in *. apply Z.mod_small. lia. }
  rewrite Hu. destruct (or_step it l false (first_id l - 1) (first_id l) Hr) as (it' & Hs & Hr').
  - unfold NO_MORE_DOCS in *. lia.
  - lia.
  - intros En. pose proof (or_repr_DocID _ _ _ Hr) as Hd. unfold Or_DocID in Hd. rewrite En in Hd. congruence.
  - intros s g Hg Hf. destruct (repr_wf _ _ _ Hg) as (Hwg & _).
    destruct (repr_NextDoc _ _ _ Hg) as (s' & r' & Hs & Hr' & Hsub). exists s', r'. split; [done|].
    split; [|done]. replace (first_id l - 1) with (first_id g.1 - 1) by lia. rewrite below_tail; [done|done|].
    intros En. rewrite En in Hf. simpl in Hf. unfold NO_MORE_DOCS in *. lia.
  - exists it', (below (first_id l - 1) l). split; [done|]. split; [by rewrite below_tail in Hr' |- *|].
    apply sublist_subseteq, sublist_list_filter.
Qed.
Next Obligation.
  intros it l r t Hr Ht Hm. pose proof Hr as (-> & Hwf & _). cbn [Advance or_iterator].
  unfold Or_Advance. destruct (decide (osub_iterator_ it = [])) as [E|Hne].
  - exists it, l. unfold Or_InnderNextDoc. rewrite E. split; [done|].
    assert (l = []) as ->; [|done]. apply first_id_zero; [done|].
    rewrite <- (or_repr_DocID _ _ _ Hr). unfold Or_DocID. by rewrite E.
  - pose proof (first_id_range _ Hwf) as Hrange.
    destruct (or_step it l true t MAX_DOCID Hr) as (it' & Hs & Hr'); [lia|lia|done| |].
    + intros s g Hg Hf. apply repr_Advance; [done|lia|done].
    + exists it', (below t l). split; [done|]. split; [done|]. apply sublist_subseteq, sublist_list_filter.
Qed.
Next Obligation.
  intros it l r Hr. pose proof Hr as (-> & Hwf & _). cbn [Advance or_iterator]. exists it. split; [|done].
  unfold Or_Advance, Or_InnderNextDoc. pose proof (or_repr_DocID _ _ _ Hr) as Hd.
  pose proof (first_id_range _ Hwf) as Hrange. unfold Or_DocID in Hd.
  destruct it as [[|s subs]]; [done|]. cbn [osub_iterator_ or_loop head mbind option_bind] in *. rewrite Hd.
  destruct (Z.ltb_spec MAX_DOCID (first_id l)); [lia|]. by rewrite andb_false_r.
Qed.

(** The union of the ids of the sub iterators. *)
Definition union_ids (ls : list (list Z)) : list Z :=
  foldr (fun l acc => foldr (os_insert Zcmp_desc) acc l) [] ls.

Lemma elem_of_union_ids ls d : d ∈ union_ids ls <-> exists l, l ∈ ls /\ d ∈ l.
Proof.
  induction ls as [|l ls IH]; simpl.
  - split; [by intros ?%elem_of_nil|by intros (? & ?%elem_of_nil & _)].
  - assert (Hin : forall acc, d ∈ foldr (os_insert Zcmp_desc) acc l <-> d ∈ l \/ d ∈ acc).
    { intros acc. induction l as [|x l IHl]; simpl; [set_solver|].
      rewrite elem_of_os_insert, IHl, elem_of_cons by typeclasses eauto. tauto. }
    rewrite Hin, IH. setoid_rewrite elem_of_cons. naive_solver.
Qed.

Lemma wf_ids_union ls : Forall wf_ids ls -> wf_ids (union_ids ls).
Proof.
  intros Hwf. split.
  - clear Hwf. induction ls as [|l ls IH]; simpl; [constructor|].
    induction l as [|x l IHl]; simpl; [done|]. by apply os_insert_sorted; [typeclasses eauto|].
  - apply Forall_forall. intros d Hd. apply elem_of_union_ids in Hd as (l & Hl & Hd).
    rewrite Forall_forall in Hwf. destruct (Hwf _ Hl) as [_ Hf]. rewrite Forall_forall in Hf. by apply Hf.
Qed.

Lemma Or_FinishAddIterator_spec it gs :
  Forall2 R (osub_iterator_ it) gs ->
  exists it', Or_FinishAddIterator it = Some it' /\ or_repr it' (union_ids gs.*1) (union_ids gs.*1).
Proof.
  intros HR. assert (Hw : wf_ids (union_ids gs.*1)) by (apply wf_ids_union, (R_wf _ _ HR)).
  assert (Hin : forall d, d ∈ union_ids gs.*1 <-> in_some gs d).
  { intros d. rewrite elem_of_union_ids. unfold in_some. split.
    - intros (l & Hl & Hd). apply list_elem_of_fmap in Hl as (g & -> & Hg). eauto.
    - intros (g & Hg & Hd). exists g.1. split; [by apply list_elem_of_fmap_2|done]. }
  unfold Or_FinishAddIterator. destruct (osub_iterator_ it) as [|s subs] eqn:Es.
  - exists it. split; [done|]. split; [done|]. split; [done|]. exists gs. rewrite Es. split; [done|].
    split; [intros i; simpl; lia|done].
  - destruct (make_heap_spec heap_greater heap_greater_trans heap_greater_total (s :: subs)) as (subs' & -> & HP & Hok).
    cbn [mbind option_bind]. destruct (Forall2_R_perm _ _ _ HP HR) as (gs' & HPg & HR').
    eexists. split; [done|]. split; [done|]. split; [done|]. exists gs'. split; [done|]. split; [done|].
    intros d. by rewrite Hin, (in_some_perm _ _ _ HPg).
Qed.
End OrIterator.

(** ** Theorems *)

Definition sample_subs : list DocListReaderCodec :=
  [reader_of [(9, 0); (7, 0); (4, 0); (2, 0)] 0 1; reader_of [(8, 0); (7, 0); (2, 0)] 0 2;
   reader_of [(7, 0); (5, 0); (2, 0)] 0 3].

Definition sample_ghosts : list (list Z * list Z) :=
  [([9; 7; 4; 2], [9; 7; 4; 2]); ([8; 7; 2], [8; 7; 2]); ([7; 5; 2], [7; 5; 2])].

Lemma sample_subs_repr : Forall2 R sample_subs sample_ghosts.
Proof.
  unfold sample_subs, sample_ghosts.
  repeat first [apply Forall2_cons_2;
    [apply (reader_repr_start [(9, 0); (7, 0); (4, 0); (2, 0)]) || apply (reader_repr_start [(8, 0); (7, 0); (2, 0)])
     || apply (reader_repr_start [(7, 0); (5, 0); (2, 0)])|]|apply Forall2_nil_2];
    unfold wf_docs, wf_entries, entry_gt, NO_MORE_DOCS;
    repeat split; repeat constructor; simpl; try lia; unfold is_u64; simpl; lia.
Qed.

(** C24: a conjunction finished over any iterators that obey the interface is
    well defined and enumerates, in decreasing order, exactly the ids common
    to all of them, wherever the sub iterators were positioned. *)
Theorem MergeIterator_enumerates {I} `{IteratorLaws I} (it : MergeIterator) gs :
  Forall2 R (sub_iterator_ it) gs ->
  exists it' out, Merge_FinishAddIterator it = Some it' /\ collect (remaining it') it' = Some out /\
    map fst out = inter gs.*2 /\ forall d, gs <> [] -> d ∈ map fst out <-> Forall (fun g => d ∈ g.2) gs.
Proof.
  intros HR. destruct (Merge_FinishAddIterator_spec it gs HR) as (it' & Hf & Hr).
  assert (Hr' : repr it' (inter gs.*2) (inter gs.*2)) by exact Hr.
  destruct (collect_repr (remaining it') it' _ _ Hr' (repr_remaining it' _ _ Hr')) as (out & Hc & Hm).
  exists it', out. split; [done|]. split; [done|]. split; [done|]. intros d Hne.
  rewrite Hm, elem_of_inter by (by destruct gs). apply Forall_fmap.
Qed.

Lemma MergeIterator_enumerates_witness :
  exists it' out, Merge_FinishAddIterator (mkMergeIterator sample_subs 0 0) = Some it' /\
    collect (remaining it') it' = Some out /\ map fst out = [7; 2].
Proof.
  destruct (MergeIterator_enumerates (mkMergeIterator sample_subs 0 0) sample_ghosts sample_subs_repr)
    as (it' & out & H1 & H2 & H3 & _).
  exists it', out. split; [exact H1|]. split; [exact H2|]. rewrite H3. vm_compute. reflexivity.
Defined.

(** A disjunction finished over any iterators that obey the interface is
    well defined and enumerates, in decreasing order and once each, exactly
    the ids that some of them enumerates. *)
Theorem OrIterator_enumerates {I} `{IteratorLaws I} (it : OrIterator) gs :
  Forall2 R (osub_iterator_ it) gs ->
  exists it' out, Or_FinishAddIterator it = Some it' /\ collect (remaining it') it' = Some out /\
    map fst out = union_ids gs.*1 /\ forall d, d ∈ map fst out <-> exists g, g ∈ gs /\ d ∈ g.1.
Proof.
  intros HR. destruct (Or_FinishAddIterator_spec it gs HR) as (it' & Hf & Hr).
  assert (Hr' : repr it' (union_ids gs.*1) (union_ids gs.*1)) by exact Hr.
  destruct (collect_repr (remaining it') it' _ _ Hr' (repr_remaining it' _ _ Hr')) as (out & Hc & Hm).
  exists it', out. split; [done|]. split; [done|]. split; [done|]. intros d.
  rewrite Hm, elem_of_union_ids. split.
  - intros (l & Hl & Hd). apply list_elem_of_fmap in Hl as (g & -> & Hg). by exists g.
  - intros (g & Hg & Hd). exists g.1. split; [by apply list_elem_of_fmap_2|done].
Qed.

Lemma OrIterator_enumerates_witness :
  exists it' out, Or_FinishAddIterator (mkOrIterator sample_subs) = Some it' /\
    collect (remaining it') it' = Some out /\ map fst out = [9; 8; 7; 5; 4; 2].
Proof.
  destruct (OrIterator_enumerates (mkOrIterator sample_subs) sample_ghosts sample_subs_repr)
    as (it' & out & H1 & H2 & H3 & _).
  exists it', out. split; [exact H1|]. split; [exact H2|]. rewrite H3. vm_compute. reflexivity.
Defined.
