(* ===== verification/VirtualDB.v ===== *)
(** The read side of the storage interface ([virtual_db.h]): what a query or a
    writer may assume of the database it is given.

    A database is seen through [Get] and through an iterator positioned by
    [Seek]; an iterator is the list of the entries it still yields.  The laws
    say that both read one ordered map per column.  Snapshots are not
    distinguished: every read of an operation sees the same database value. *)
From Stdlib Require String.
From S2P Require Import Prelude Storage.

(** The entries of one column, sorted by key. *)
Notation kv_list := (list (bytes * bytes)) (only parsing).

Class VirtualDB (DB : Type) := {
  Get : DB -> StorageColumnType -> bytes -> SearchStatus * bytes;
  Seek : DB -> StorageColumnType -> bytes -> list (bytes * bytes)
}.

Class VirtualDBLaws (DB : Type) `{VirtualDB DB} := {
  content : DB -> StorageColumnType -> list (bytes * bytes);
  db_wf : DB -> Prop;
  content_sorted db c : db_wf db -> om_sorted bytes_cmp (content db c);
  Get_content db c k : db_wf db ->
    Get db c k = match om_find bytes_cmp k (content db c) with
                 | Some v => (status_ok, v)
                 | None => (SetStatus kDocumentNotExistStatus String.EmptyString, [])
                 end;
  Seek_content db c k : db_wf db -> Seek db c k = om_lower_bound bytes_cmp k (content db c)
}.

(** A range of keys without its end, as range deletions take it. *)
Definition in_range (begin_key end_key k : bytes) : bool :=
  match bytes_cmp k begin_key, bytes_cmp k end_key with
  | Lt, _ => false
  | _, Lt => true
  | _, _ => false
  end.

(** [MultiGet]: one status and one value per key. *)
Definition MultiGet {DB} `{VirtualDB DB} (db : DB) (columns : list StorageColumnType)
    (keys : list bytes) : list SearchStatus * list bytes :=
  let r := zip_with (fun c k => Get db c k) columns keys in (map fst r, map snd r).

(** ** Scanning the keys that start with a prefix *)

(** The entries of a sorted map whose key starts with [p]. *)
Definition with_prefix {V} (p : bytes) (m : list (bytes * V)) : list (bytes * V) :=
  List.filter (fun e => starts_with p e.1) m.

(** Cutting an iterator at the first key without the prefix. *)
Fixpoint take_prefix {V} (p : bytes) (m : list (bytes * V)) : list (bytes * V) :=
  match m with
  | [] => []
  | e :: m' => if starts_with p e.1 then e :: take_prefix p m' else []
  end.

Lemma take_prefix_filter {V} p (m : list (bytes * V)) :
  om_sorted bytes_cmp m -> (forall k v, (k, v) ∈ m -> bytes_cmp k p <> Lt) ->
  take_prefix p m = with_prefix p m.
Proof.
  induction m as [|[k v] m IH]; intros Hs Hge; [done|].
  destruct (om_sorted_cons_inv bytes_cmp _ _ _ Hs) as [Hs' Hlt]. unfold with_prefix. cbn [take_prefix List.filter fst].
  destruct (starts_with p k) eqn:E.
  - f_equal. apply IH; [done|]. intros k' v' Hin. apply (Hge k' v'). by right.
  - symmetry. rewrite (list_filter_none (fun e : bytes * V => starts_with p e.1)); [done|].
    apply Forall_forall. intros [k' v'] Hin. simpl. destruct (starts_with p k') eqn:E'; [|done].
    rewrite (starts_with_between p k k') in E; [done|done|apply (Hge k v); by left|].
    rewrite (Hlt k' v' Hin). done.
Qed.

(** The same from any key with the prefix on. *)
Lemma take_prefix_from {V} p k (m : list (bytes * V)) :
  om_sorted bytes_cmp m -> starts_with p k = true ->
  take_prefix p (om_lower_bound bytes_cmp k m) = with_prefix p (om_lower_bound bytes_cmp k m).
Proof.
  intros Hs Hk. apply take_prefix_filter; [by apply (om_lower_bound_sorted bytes_cmp)|]. intros k' v Hin Hlt.
  apply (om_lower_bound_spec bytes_cmp) in Hin as [_ Hge]; [|done]. apply starts_with_ge in Hk. apply Hge.
  destruct (bytes_cmp p k) eqn:E.
  - apply bytes_cmp_eq in E. by rewrite <- E.
  - by eapply bytes_cmp_lt_trans.
  - exfalso. apply Hk. by apply (cmp_gt_lt bytes_cmp).
Qed.

(** Seeking to the prefix and cutting at the first key without it finds every
    key with the prefix. *)
Lemma take_prefix_seek {V} p (m : list (bytes * V)) :
  om_sorted bytes_cmp m -> take_prefix p (om_lower_bound bytes_cmp p m) = with_prefix p m.
Proof.
  intros Hs. rewrite take_prefix_filter.
  - induction m as [|[k v] m IH]; [done|]. destruct (om_sorted_cons_inv bytes_cmp _ _ _ Hs) as [Hs' _].
    simpl. destruct (bytes_cmp p k) eqn:E; [done|done|]. rewrite IH by done.
    destruct (starts_with p k) eqn:E'; [|done]. apply starts_with_ge in E'.
    exfalso. apply E'. by apply (cmp_gt_lt bytes_cmp).
  - by apply om_lower_bound_sorted.
  - intros k v Hin. apply om_lower_bound_spec in Hin as [_ Hin]; [done|typeclasses eauto|done].
Qed.
