(* ===== verification/WriteDB.v ===== *)
(** The write side of the storage interface ([write_buffer.h], [virtual_db.h]):
    what the document writer may assume of a write buffer and of flushing it.

    A write buffer is seen through the pending operation of every key
    ([pend]).  The laws say what each operation does to it and what
    [FlushBuffer] then makes of the stored values; a status that is not OK
    leaves the database as it was.  The merge law is stated on document lists
    shorter than the limit of the store ([doc_limit])
    and speaks about live ids only, so that a store that keeps the deletions
    of a merge onto a missing key obeys it as well as one that drops them.
    Range deletions are not part of the laws. *)
From S2P Require Import Prelude Storage Coding DocList MergeOperator VirtualDB.

(** ** Stored document lists *)

(** [v] is the stored form of [l]. *)
Definition is_doclist (v : bytes) (l : list (Z * Z)) : Prop :=
  wf_docs l /\ Z.of_nat (length l) < 2 ^ 32 /\ exists c, write_doclist c l = Some v.

Lemma is_doclist_read v l : is_doclist v l -> read_doclist v = Some l.
Proof.
  intros (Hwf & Hlen & c' & Hw). destruct (read_doclist_spec c' l Hwf Hlen) as (v' & Hw' & Hr). congruence.
Qed.

Lemma is_doclist_write c l : wf_docs l -> Z.of_nat (length l) < 2 ^ 32 ->
  exists v, write_doclist c l = Some v /\ is_doclist v l.
Proof.
  intros Hwf Hlen. destruct (read_doclist_spec c l Hwf Hlen) as (v & Hw & _). exists v.
  split; [done|]. split; [done|]. split; [done|]. by exists c.
Qed.

Definition doc_entry_ok (e : Z * Z) : Prop := entry_ok e /\ e.1 <> NO_MORE_DOCS.

Lemma wf_docs_alt l : wf_docs l <-> om_sorted Zcmp_desc l /\ Forall doc_entry_ok l.
Proof.
  unfold wf_docs, wf_entries, doc_entry_ok. rewrite entries_sorted, Forall_and. tauto.
Qed.

Lemma length_om_insert d s (m : list (Z * Z)) : (length (om_insert Zcmp_desc d s m) <= S (length m))%nat.
Proof. induction m as [|[d' s'] m IH]; simpl; [lia|]. destruct (Zcmp_desc d d'); simpl; lia. Qed.

Lemma length_om_erase d (m : list (Z * Z)) : (length (om_erase Zcmp_desc d m) <= length m)%nat.
Proof. induction m as [|[d' s'] m IH]; simpl; [lia|]. destruct (Zcmp_desc d d'); simpl; lia. Qed.

Lemma wf_docs_nil : wf_docs [].
Proof. repeat split; constructor. Qed.

Lemma write_list_ok m l :
  wf_docs m -> wf_docs l -> wf_docs (write_list m l) /\ (length (write_list m l) <= length m + length l)%nat.
Proof.
  intros Hm Hl. apply wf_docs_alt in Hm, Hl. destruct Hl as [_ Hl]. destruct Hm as [Hs Hm].
  rewrite wf_docs_alt. revert m Hs Hm. induction Hl as [|[d s] l He Hl IH]; intros m Hs Hm; cbn [write_list fold_left].
  { split; [done|]. simpl. lia. }
  cbn [fst snd]. destruct (IH (om_insert Zcmp_desc d s m)) as [H1 H2].
  - by apply (om_insert_sorted Zcmp_desc).
  - apply Forall_forall. intros [d' s'] Hin. apply (om_insert_in Zcmp_desc) in Hin as [[= -> ->]|Hin]; [done|].
    rewrite Forall_forall in Hm. by apply Hm.
  - split; [done|]. pose proof (length_om_insert d s m). unfold write_list in H2. simpl. lia.
Qed.

Lemma write_list_nil l : wf_docs l -> write_list [] l = l.
Proof.
  intros Hl%wf_docs_alt. destruct Hl as [Hs _]. apply (om_ext Zcmp_desc).
  - apply write_list_sorted. constructor.
  - done.
  - intros d. rewrite om_find_write_list by (done || constructor). by destruct (om_find Zcmp_desc d l).
Qed.

(** The state of an id in a list, deletions aside. *)
Definition live_find (d : Z) (l : list (Z * Z)) : option Z :=
  match om_find Zcmp_desc d l with
  | Some s => if s =? kDocumentStateDelete then None else Some s
  | None => None
  end.

(** ** Operations *)
Class WriteBuffer (B : Type) := {
  Put : B -> StorageColumnType -> bytes -> bytes -> SearchStatus * B;
  Delete : B -> StorageColumnType -> bytes -> SearchStatus * B;
  DeleteRange : B -> StorageColumnType -> bytes -> bytes -> SearchStatus * B;
  Merge : B -> StorageColumnType -> bytes -> bytes -> option (SearchStatus * B);
  Data : B -> bytes * B;
  DataSize : B -> Z
}.

Class WriteDB (DB B : Type) := {
  NewWriteBuffer : option bytes -> B;
  FlushBuffer : DB -> B -> option (SearchStatus * DB * B)
}.

#[export] Hint Mode WriteDB ! ! : typeclass_instances.

(** ** Pending operations *)
Inductive pending := PNone | PPut (v : bytes) | PDelete | PMerge (l : list (Z * Z)).

(** The document list under a key that may be missing. *)
Definition old_list (old : option bytes) (lo : list (Z * Z)) : Prop :=
  old = None /\ lo = [] \/ exists o, old = Some o /\ is_doclist o lo.

(** What a pending operation makes of a stored value. *)
Definition merged (old : option bytes) (l : list (Z * Z)) (new : option bytes) : Prop :=
  exists lo v lf,
    old_list old lo /\
    new = Some v /\ is_doclist v lf /\
    (forall d, live_find d lf = match om_find Zcmp_desc d l with
                                | Some s => if s =? kDocumentStateDelete then None else Some s
                                | None => live_find d lo
                                end) /\
    (forall e, e ∈ lf -> live e = true \/ (old = None /\ e ∈ l)).

Definition effect (old : option bytes) (p : pending) (new : option bytes) : Prop :=
  match p with
  | PNone => new = old
  | PPut v => new = Some v
  | PDelete => new = None
  | PMerge l => merged old l new
  end.

Definition lists_of (p : pending) (l : list (Z * Z)) : Prop := p = PMerge l \/ (p = PNone /\ l = []).

(** ** Laws *)
Class WriteLaws (DB B : Type) `{VirtualDBLaws DB, WriteBuffer B, !WriteDB DB B} := {
  wb_ok : B -> Prop;
  (* the longest document list the store keeps whole, plus one *)
  doc_limit : Z;
  doc_limit_range : 0 < doc_limit <= 2 ^ 32;
  pend : B -> StorageColumnType -> bytes -> pending;
  new_buffer_ok : wb_ok (NewWriteBuffer (DB := DB) None) /\
    forall c k, pend (NewWriteBuffer (DB := DB) None) c k = PNone;
  Put_law b c k v : wb_ok b ->
    wb_ok (Put b c k v).2 /\
    (OK (Put b c k v).1 = true ->
     forall c' k', pend (Put b c k v).2 c' k' = if decide (c' = c /\ k' = k) then PPut v else pend b c' k');
  Delete_law b c k : wb_ok b ->
    wb_ok (Delete b c k).2 /\
    (OK (Delete b c k).1 = true ->
     forall c' k', pend (Delete b c k).2 c' k' = if decide (c' = c /\ k' = k) then PDelete else pend b c' k');
  Merge_law b k v l1 l2 : wb_ok b ->
    lists_of (pend b kInvertedIndexColumn k) l1 -> is_doclist v l2 ->
    Z.of_nat (length l1 + length l2) < 2 ^ 32 ->
    exists s b', Merge b kInvertedIndexColumn k v = Some (s, b') /\ wb_ok b' /\
      (OK s = true -> forall c' k', pend b' c' k' =
         if decide (c' = kInvertedIndexColumn /\ k' = k) then PMerge (write_list l1 l2) else pend b c' k');
  Data_law b : wb_ok b -> wb_ok (Data b).2 /\ forall c k, pend (Data b).2 c k = pend b c k;
  Flush_law db b : db_wf db -> wb_ok b ->
    (forall k l, pend b kInvertedIndexColumn k = PMerge l ->
       exists lo, old_list (om_find bytes_cmp k (content db kInvertedIndexColumn)) lo /\
         Z.of_nat (length lo + length l) < doc_limit) ->
    exists s db' b', FlushBuffer db b = Some (s, db', b') /\ db_wf db' /\
      if OK s
      then forall c k, effect (om_find bytes_cmp k (content db c)) (pend b c k) (om_find bytes_cmp k (content db' c))
      else forall c, content db' c = content db c
}.
