(* ===== verification/MergeSchedule.v ===== *)
(** Merging as RocksDB does it: at times of its own choosing.

    Under a key RocksDB keeps a base value, if there is one, and the merge
    operands written since.  Compactions replace runs of operands by one operand
    (a partial merge) and the base with the operands on it by a new base (a full
    merge); a read sees what is left after merging everything.  [collapse] is
    one such replacement, for any merge operator.

    The theorem: with the document-list operator it does not matter what is
    merged when.  Every schedule leads to the same value, the document list of
    the newest live states. *)
From stdpp Require Import relations.
From S2P Require Import Prelude Storage Coding DocList MergeOperator WriteDB.

(** ** Merge operators and their schedules *)

(** [rocksdb::MergeOperator]; [None] is a call that does not return a value. *)
Record MergeOp := mkMergeOp {
  full_merge : option bytes -> list bytes -> option bytes;
  partial_merge : list bytes -> option bytes
}.

(** [DocListMergeOperator], with its maximum and its codec. *)
Definition DocListMergeOperator (max_doc_list_num_ : Z) (c : DocListCompressionType) : MergeOp :=
  mkMergeOp (FullMergeV2 max_doc_list_num_ c) (PartialMergeMulti max_doc_list_num_ c).

(** The base value of a key and the operands on top of it. *)
Notation history := (option bytes * list bytes)%type.

Section Collapse.
(** The operator, and the runs of operands a store merges partially. *)
Context (op : MergeOp) (chosen : list bytes -> Prop).

Inductive collapse : history -> history -> Prop :=
| collapse_partial base a run d x :
    chosen run -> run <> [] -> partial_merge op run = Some x -> collapse (base, a ++ run ++ d) (base, a ++ x :: d)
| collapse_full base a d x :
    a <> [] -> full_merge op base a = Some x -> collapse (base, a ++ d) (Some x, d).

(** What a read may see: everything is merged. *)
Definition reads (h : history) (v : option bytes) : Prop := rtc collapse h (v, []).

(** No schedule makes a call of the operator that does not return. *)
Definition answers (h : history) : Prop :=
  forall base ops, rtc collapse h (base, ops) ->
    (forall a d, ops = a ++ d -> a <> [] -> full_merge op base a <> None) /\
    (forall a run d, ops = a ++ run ++ d -> chosen run -> run <> [] -> partial_merge op run <> None).

Lemma collapse_base v h : ~ collapse (v, []) h.
Proof.
  intros Hc. inversion Hc as [base a run d x _ Hne _ E|base a d x Hne _ E]; subst.
  - by destruct a, run.
  - by destruct a.
Qed.

Lemma reads_base v v' : reads (v, []) v' <-> v' = v.
Proof.
  split; [|by intros ->; apply rtc_refl]. intros H. inversion H as [|x y z Hc _]; subst; [done|].
  by apply collapse_base in Hc.
Qed.

Lemma answers_base v : answers (v, []).
Proof.
  intros base ops H. apply rtc_inv in H as [[= <- <-]|(y & Hc & _)]; [|by apply collapse_base in Hc].
  split; [intros [] d E Hne|intros [] [] d E _ Hne]; done.
Qed.

(** Operands written later do not get in the way. *)
Lemma collapse_app base ops base' ops' new :
  collapse (base, ops) (base', ops') -> collapse (base, ops ++ new) (base', ops' ++ new).
Proof.
  intros Hc. inversion Hc as [? a run d x H1 H2 H3|? a d x H1 H2]; subst.
  - rewrite <- !app_assoc. cbn [app]. by apply collapse_partial.
  - rewrite <- app_assoc. by apply collapse_full.
Qed.

Lemma collapses_app h h' new :
  rtc collapse h h' -> rtc collapse (h.1, h.2 ++ new) (h'.1, h'.2 ++ new).
Proof.
  induction 1 as [|[b1 o1] [b2 o2] h3 Hc _ IH]; [done|]. eapply rtc_l; [|exact IH]. by apply collapse_app.
Qed.
End Collapse.

(** ** Live views *)

(** The live newest states of some lists. *)
Definition view (lists : list (list (Z * Z))) : list (Z * Z) := List.filter live (overlay lists).

Lemma view_sorted lists : om_sorted Zcmp_desc (view lists).
Proof. eapply StronglySorted_sublist; [apply sublist_list_filter|apply overlay_sorted]. Qed.

Lemma elem_of_view lists d s : (d, s) ∈ view lists <-> om_find Zcmp_desc d (overlay lists) = Some s /\ live (d, s) = true.
Proof.
  unfold view. rewrite list_elem_of_In, filter_In, <- list_elem_of_In.
  by rewrite (om_find_spec Zcmp_desc) by apply overlay_sorted.
Qed.

Lemma om_find_filter_live d m : om_sorted Zcmp_desc m -> om_find Zcmp_desc d (List.filter live m) = live_find d m.
Proof.
  intros Hs. apply option_eq. intros s.
  rewrite (om_find_spec Zcmp_desc) by (eapply StronglySorted_sublist; [apply sublist_list_filter|done]).
  rewrite list_elem_of_In, filter_In, <- list_elem_of_In, <- (om_find_spec Zcmp_desc) by done.
  unfold live_find, live. cbn [snd]. destruct (om_find Zcmp_desc d m) as [s'|]; [|by intuition].
  destruct (s' =? kDocumentStateDelete) eqn:E; split.
  - intros [[= <-] H]. by rewrite E in H.
  - done.
  - by intros [[= <-] _].
  - intros [= <-]. by rewrite E.
Qed.

Lemma live_find_write_list d m l :
  om_sorted Zcmp_desc m -> om_sorted Zcmp_desc l ->
  live_find d (write_list m l) =
  match om_find Zcmp_desc d l with
  | Some s => if s =? kDocumentStateDelete then None else Some s
  | None => live_find d m
  end.
Proof.
  intros Hm Hl. unfold live_find at 1. rewrite om_find_write_list by done. by destruct (om_find Zcmp_desc d l).
Qed.

Lemma live_find_view d lists : live_find d (view lists) = live_find d (overlay lists).
Proof.
  unfold live_find at 1, view. rewrite om_find_filter_live by apply overlay_sorted. unfold live_find.
  destruct (om_find Zcmp_desc d (overlay lists)) as [s|]; [|done]. destruct (s =? kDocumentStateDelete) eqn:E; [done|]. by rewrite E.
Qed.

(** Only the live states of what was there count. *)
Lemma filter_live_write_list m m' l :
  om_sorted Zcmp_desc m -> om_sorted Zcmp_desc m' -> om_sorted Zcmp_desc l ->
  List.filter live m = List.filter live m' ->
  List.filter live (write_list m l) = List.filter live (write_list m' l).
Proof.
  intros Hm Hm' Hl E. apply (om_ext Zcmp_desc).
  1,2: eapply StronglySorted_sublist; [apply sublist_list_filter|by apply write_list_sorted].
  intros d. rewrite !om_find_filter_live, !live_find_write_list by (done || by apply write_list_sorted).
  by rewrite <- !om_find_filter_live, E by done.
Qed.

Lemma filter_live_fold lists m m' :
  om_sorted Zcmp_desc m -> om_sorted Zcmp_desc m' -> Forall (om_sorted Zcmp_desc) lists ->
  List.filter live m = List.filter live m' ->
  List.filter live (fold_left write_list lists m) = List.filter live (fold_left write_list lists m').
Proof.
  intros Hm Hm' Hl. revert m m' Hm Hm'. induction Hl as [|l lists Hl _ IH]; intros m m' Hm Hm' E; [done|].
  apply IH; [by apply write_list_sorted..|]. by apply filter_live_write_list.
Qed.

Lemma filter_live_idem m : List.filter live (List.filter live m) = List.filter live m.
Proof.
  induction m as [|e m IH]; [done|]. cbn [List.filter]. destruct (live e) eqn:E; cbn [List.filter]; rewrite ?E, IH; done.
Qed.

(** A full merge of the first lists may be done beforehand. *)
Lemma view_full a d :
  Forall wf_docs a -> Forall (om_sorted Zcmp_desc) d -> view (view a :: d) = view (a ++ d).
Proof.
  intros Ha Hd. unfold view at 1 3, overlay. rewrite fold_left_app. cbn [fold_left].
  apply filter_live_fold; [apply write_list_sorted; constructor|apply overlay_sorted|done|].
  rewrite write_list_nil; [apply filter_live_idem|]. eapply wf_docs_sublist; [apply sublist_list_filter|].
  by apply overlay_wf.
Qed.

(** ** Counting *)

Lemma incl_length {A} (l l' : list A) : NoDup l -> (forall x, x ∈ l -> x ∈ l') -> (length l <= length l')%nat.
Proof. intros Hn Hi. by apply submseteq_length, NoDup_submseteq. Qed.

Lemma view_NoDup lists : NoDup (view lists).
Proof. eapply NoDup_fmap_1. exact (om_sorted_NoDup Zcmp_desc (view lists) (view_sorted lists)). Qed.

Lemma overlay_app a b :
  Forall (om_sorted Zcmp_desc) b -> overlay (a ++ b) = write_list (overlay a) (overlay b).
Proof.
  intros Hb. unfold overlay at 1. rewrite fold_left_app. symmetry. apply write_list_overlay; [apply overlay_sorted|done].
Qed.

Lemma om_find_overlay_app a b d :
  Forall (om_sorted Zcmp_desc) b ->
  om_find Zcmp_desc d (overlay (a ++ b)) =
  match om_find Zcmp_desc d (overlay b) with Some s => Some s | None => om_find Zcmp_desc d (overlay a) end.
Proof. intros Hb. rewrite overlay_app by done. apply om_find_write_list; apply overlay_sorted. Qed.

(** What the last lists show is shown by all of them. *)
Lemma length_view_last a b :
  Forall (om_sorted Zcmp_desc) b -> (length (view b) <= length (view (a ++ b)))%nat.
Proof.
  intros Hb. apply incl_length; [apply view_NoDup|]. intros [d s]. rewrite !elem_of_view.
  rewrite om_find_overlay_app by done. by intros [-> ?].
Qed.

Lemma length_view_app a b :
  Forall (om_sorted Zcmp_desc) b -> (length (view (a ++ b)) <= length (view a) + length (overlay b))%nat.
Proof.
  intros Hb. rewrite <- length_app. apply incl_length; [apply view_NoDup|]. intros [d s].
  rewrite elem_of_app, !elem_of_view, om_find_overlay_app by done. intros [Hf Hl].
  destruct (om_find Zcmp_desc d (overlay b)) as [s'|] eqn:E; [|by left].
  injection Hf as ->. right. by apply (om_find_in Zcmp_desc).
Qed.

(** An id of some of the lists is an id of the overlay. *)
Lemma length_overlay_part a b d :
  Forall (om_sorted Zcmp_desc) (a ++ b ++ d) -> (length (overlay b) <= length (overlay (a ++ b ++ d)))%nat.
Proof.
  intros Hs. apply Forall_app in Hs as [_ [Hb Hd]%Forall_app].
  rewrite <- (length_map fst (overlay b)), <- (length_map fst (overlay (a ++ b ++ d))).
  apply incl_length; [apply (om_sorted_NoDup Zcmp_desc), overlay_sorted|].
  intros d0 ([d0' s] & -> & Hin)%list_elem_of_fmap. cbn [fst].
  apply (om_in_find Zcmp_desc) in Hin; [|apply overlay_sorted].
  assert (exists s', om_find Zcmp_desc d0' (overlay (a ++ b ++ d)) = Some s') as [s' Hs'].
  { rewrite om_find_overlay_app, om_find_overlay_app by (done || by apply Forall_app).
    destruct (om_find Zcmp_desc d0' (overlay d)); [by eexists|]. rewrite Hin. by eexists. }
  apply (om_find_in Zcmp_desc) in Hs'. by apply (list_elem_of_fmap_2 fst _ (d0', s')).
Qed.

Lemma length_overlay_le lists : length (overlay lists) = (deletes (overlay lists) + length (view lists))%nat.
Proof.
  unfold view, deletes. induction (overlay lists) as [|e m IH]; [done|]. cbn [List.filter length].
  destruct (live e); cbn [negb length]; lia.
Qed.

(** ** The size of a stored list *)

Lemma length_delta_bytes prev l : (length (delta_bytes prev l) <= 10 * length l)%nat.
Proof.
  revert prev. induction l as [|d l IH]; intros prev; [done|]. cbn [delta_bytes length]. rewrite length_app.
  specialize (IH d). pose proof (length_varint 9 (if prev =? 0 then d else u64 (prev - d))). lia.
Qed.

Lemma length_pos_bytes prev l : (length (pos_bytes prev l) <= 5 * length l)%nat.
Proof.
  revert prev. induction l as [|d l IH]; intros prev; [done|]. cbn [pos_bytes length]. rewrite length_app.
  specialize (IH d). pose proof (length_varint 4 (u32 (d - prev))). lia.
Qed.

Lemma length_write_doclist c l data :
  wf_docs l -> Z.of_nat (length l) < 2 ^ 32 -> write_doclist c l = Some data ->
  (length data <= 6 + 15 * length l)%nat.
Proof.
  intros [Hwf _] Hlen. destruct c.
  - rewrite write_doclist_fix by apply Hwf. intros [= <-]. cbn [length]. rewrite length_enc_entries. lia.
  - rewrite write_doclist_compressed by done. intros [= <-]. unfold compressed_bytes. rewrite length_app.
    pose proof (length_delta_bytes 0 (map fst l)) as H1. rewrite length_map in H1.
    pose proof (length_del_positions 0 l) as H2.
    destruct (bool_decide (del_positions 0 l = [])); cbn [length]; [lia|]. rewrite length_app.
    pose proof (length_varint 4 (Z.of_nat (length (del_positions 0 l)))).
    pose proof (length_pos_bytes 0 (del_positions 0 l)). lia.
Qed.

(** Lists up to this length fit the merge operator. *)
Definition max_list : Z := 110000000.

Lemma is_doclist_stored v l : is_doclist v l -> Z.of_nat (length l) <= max_list -> stored v l.
Proof.
  intros (Hwf & Hlen & c & Hw) Hm. split; [done|]. split; [done|]. split; [|by exists c].
  pose proof (length_write_doclist c l v Hwf Hlen Hw). unfold max_list in Hm. lia.
Qed.

Lemma stored_write c l :
  wf_docs l -> Z.of_nat (length l) <= max_list -> exists v, write_doclist c l = Some v /\ stored v l.
Proof.
  intros Hwf Hm. destruct (is_doclist_write c l Hwf) as (v & Hw & Hv); [unfold max_list in Hm; lia|].
  exists v. split; [done|]. by apply is_doclist_stored.
Qed.

Lemma prefix_app_cases {A} (p a b : list A) :
  p `prefix_of` a ++ b -> p `prefix_of` a \/ exists k, p = a ++ k /\ k `prefix_of` b.
Proof.
  intros [r E]. apply app_eq_inv in E as [(k & -> & ->)|(k & -> & ->)].
  - left. by apply prefix_app_r.
  - right. exists k. split; [done|]. by apply prefix_app_r.
Qed.

(** ** Every schedule of the document-list operator *)
Section Schedule.
Context (max : Z) (c : DocListCompressionType) (chosen : list bytes -> Prop).
Context (Hmax : 0 < max <= 100000000).

(** The limit the operator sets itself: beyond ten million deletions a partial
    merge drops the rest of its input. *)
Definition moderate : Prop :=
  forall run lists, chosen run -> Forall2 stored run lists -> Z.of_nat (deletes (overlay lists)) <= 10000000.
Context (Hchosen : moderate).

(** At no time were there more live ids than the operator keeps. *)
Definition fits (lists : list (list (Z * Z))) : Prop :=
  forall p, p `prefix_of` lists -> Z.of_nat (length (view p)) <= max.

(** The history holds these lists, oldest first. *)
Definition holds (h : history) (lists : list (list (Z * Z))) : Prop :=
  Forall2 stored (option_list h.1 ++ h.2) lists /\ Z.of_nat (length lists) < 2 ^ 32 /\ fits lists.

Let op := DocListMergeOperator max c.

Lemma fits_prefix p lists : fits lists -> p `prefix_of` lists -> fits p.
Proof. intros Hf Hp q Hq. apply Hf. by etrans. Qed.

(** A prefix of lists of which some were merged. *)
Lemma fits_merged a m b d :
  Forall (om_sorted Zcmp_desc) d -> (forall d', Forall (om_sorted Zcmp_desc) d' -> view (a ++ m :: d') = view (a ++ b ++ d')) ->
  fits (a ++ b ++ d) -> fits (a ++ m :: d).
Proof.
  intros Hd Hv Hf p Hp. apply prefix_app_cases in Hp as [Hp|(k & -> & Hk)].
  - apply Hf. by apply prefix_app_r.
  - destruct k as [|l k].
    + rewrite app_nil_r. apply Hf. by apply prefix_app_r.
    + apply prefix_cons_inv_1 in Hk as Hl. apply prefix_cons_inv_2 in Hk as [q ->]. subst l.
      apply Forall_app in Hd as [Hk _]. rewrite Hv by done. apply Hf. rewrite !app_assoc. apply prefix_app_r. done.
Qed.

Lemma fits_view lists p : fits lists -> p `prefix_of` lists -> (length (view p) <= Z.to_nat max)%nat.
Proof. intros Hf Hp. specialize (Hf p Hp). lia. Qed.

Lemma holds_sorted h lists : holds h lists -> Forall (om_sorted Zcmp_desc) lists.
Proof. intros (Hs & _). by eapply stored_sorted. Qed.

(** A partial merge: one operand instead of some, with the same view. *)
Lemma partial_step base a run d lists :
  holds (base, a ++ run ++ d) lists -> chosen run -> run <> [] ->
  exists x lists', partial_merge op run = Some x /\ holds (base, a ++ x :: d) lists' /\ view lists' = view lists.
Proof.
  intros (Hst & Hlen & Hfit) Hc Hne. cbn [fst snd] in *. rewrite app_assoc in Hst.
  apply Forall2_app_inv_l in Hst as (la & l2 & Ha & H2 & ->). apply Forall2_app_inv_l in H2 as (lr & ld & Hr & Hd & ->).
  pose proof (stored_sorted _ _ Hr) as Hsr. pose proof (stored_sorted _ _ Hd) as Hsd. rewrite !length_app in Hlen.
  assert (Hv : (length (view lr) <= Z.to_nat max)%nat).
  { etrans; [by apply (length_view_last la)|]. apply (fits_view _ _ Hfit). rewrite (app_assoc la). by apply prefix_app_r. }
  pose proof (Hchosen run lr Hc Hr) as Hdel.
  assert (Hne' : lr <> []) by (intros ->; apply Forall2_nil_inv_r in Hr; done).
  destruct (stored_write c (overlay lr)) as (x & Hw & Hx).
  { by apply overlay_wf, (stored_wf run). }
  { rewrite length_overlay_le. unfold max_list. lia. }
  assert (Hview : forall d', view (la ++ overlay lr :: d') = view (la ++ lr ++ d'))
    by (intros d'; unfold view; by rewrite overlay_assoc).
  exists x, (la ++ overlay lr :: ld). split.
  { unfold op. cbn [partial_merge DocListMergeOperator]. rewrite (PartialMergeMulti_write max c run lr), partial_keep_all;
      [done|done|lia|unfold is_u32; lia|done|lia|done|lia]. }
  split; [|by rewrite Hview]. split; cbn [fst snd].
  - rewrite app_assoc. apply Forall2_app; [done|]. by constructor.
  - split; [rewrite length_app; cbn [length]; destruct lr; [done|]; cbn [length] in Hlen; lia|].
    by apply (fits_merged la (overlay lr) lr ld).
Qed.

(** A full merge of the base and the first operands. *)
Lemma full_step base a d lists :
  holds (base, a ++ d) lists -> a <> [] ->
  exists x la ld, full_merge op base a = Some x /\ write_doclist c (view la) = Some x /\ Forall2 stored d ld /\
    lists = la ++ ld /\ holds (Some x, d) (view la :: ld).
Proof.
  intros (Hst & Hlen & Hfit) Hne. cbn [fst snd] in *. rewrite app_assoc in Hst.
  apply Forall2_app_inv_l in Hst as (la & ld & Ha & Hd & ->). rewrite length_app in Hlen.
  pose proof (stored_sorted _ _ Hd) as Hsd. pose proof (stored_wf _ _ Ha) as Hwa.
  assert (Hv : (length (view la) <= Z.to_nat max)%nat) by (apply (fits_view _ _ Hfit); by apply prefix_app_r).
  assert (Hne' : la <> []) by (intros ->; apply Forall2_nil_inv_r in Ha; by destruct base, a).
  destruct (stored_write c (view la)) as (x & Hw & Hx).
  { eapply wf_docs_sublist; [apply sublist_list_filter|]. by apply overlay_wf. }
  { unfold max_list. lia. }
  exists x, la, ld. split; [|split; [done|]].
  { unfold op. cbn [full_merge DocListMergeOperator]. rewrite (FullMergeV2_write max c base a la) by (done || unfold is_u32; lia).
    unfold full_keep. by rewrite take_ge. }
  split; [done|]. split; [done|]. split; [by constructor|]. split; [destruct la; [done|]; cbn [length] in *; lia|].
  apply (fits_merged [] (view la) la ld); [done| |done]. intros d' Hd'. exact (view_full la d' Hwa Hd').
Qed.

(** What the operands still to be merged amount to stays the same; when none is
    left the base holds it. *)
Definition settled (h h' : history) (lists : list (list (Z * Z))) : Prop :=
  (h'.2 <> [] /\ exists lists', holds h' lists' /\ view lists' = view lists) \/
  (exists x, h' = (Some x, []) /\ write_doclist c (view lists) = Some x).

Lemma collapse_settled h h' lists :
  holds h lists -> collapse op chosen h h' -> settled h h' lists.
Proof.
  intros Hh Hc. inversion Hc as [base a run d x Hch Hne Hx E1 E2|base a d x Hne Hx E1 E2]; subst.
  - destruct (partial_step base a run d lists Hh Hch Hne) as (x' & lists' & Hx' & Hh' & Hv).
    assert (x' = x) as -> by congruence. left. split; [by destruct a|]. by exists lists'.
  - destruct (full_step base a d lists Hh Hne) as (x' & la & ld & Hx' & Hw & Hd & -> & Hh').
    assert (x' = x) as -> by congruence. destruct d as [|o d].
    + apply Forall2_nil_inv_l in Hd as ->. rewrite (app_nil_r la). right. exists x. split; [done|]. exact Hw.
    + left. split; [done|]. exists (view la :: ld). split; [done|].
      apply view_full; [|by eapply stored_sorted]. destruct Hh as (Hst & _). apply stored_wf in Hst. by apply Forall_app in Hst as [? _].
Qed.

Lemma collapses_settled h h' lists :
  holds h lists -> h.2 <> [] -> rtc (collapse op chosen) h h' -> settled h h' lists.
Proof.
  intros Hh Hne Hr. revert lists Hh Hne. induction Hr as [h|h h1 h2 Hc Hr IH]; intros lists Hh Hne.
  { left. split; [done|]. by exists lists. }
  destruct (collapse_settled h h1 lists Hh Hc) as [(Hne1 & lists1 & Hh1 & Hv)|(x & -> & Hw)].
  - destruct (IH lists1 Hh1 Hne1) as [(Hne2 & lists2 & Hh2 & Hv2)|(x & -> & Hw)].
    + left. split; [done|]. exists lists2. split; [done|congruence].
    + right. exists x. split; [done|congruence].
  - right. exists x. split; [|done]. apply rtc_inv in Hr as [<-|(y & Hy & _)]; [done|]. by apply collapse_base in Hy.
Qed.

(** The operator returns from every call a schedule makes. *)
Lemma holds_answers h lists : holds h lists -> answers op chosen h.
Proof.
  intros Hh base ops Hr. assert (Hcase : ops = [] \/ exists lists', holds (base, ops) lists').
  { destruct (decide (h.2 = [])) as [E|E].
    - left. destruct h as [v o]; cbn [snd] in E; subst o. apply rtc_inv in Hr as [[= <- <-]|(y & Hy & _)]; [done|].
      by apply collapse_base in Hy.
    - destruct (collapses_settled h (base, ops) lists Hh E Hr) as [(_ & l & Hl & _)|(x & [= -> ->] & _)]; [right; by exists l|by left]. }
  destruct Hcase as [->|(l & Hl)]; split.
  - by intros [] d E Hne.
  - by intros [] [] d E _ Hne.
  - intros a d -> Hne. destruct (full_step base a d l Hl Hne) as (x & _ & _ & -> & _). done.
  - intros a run d -> Hch Hne. destruct (partial_step base a run d l Hl Hch Hne) as (x & _ & -> & _). done.
Qed.

Lemma holds_reads h lists v :
  holds h lists -> h.2 <> [] -> reads op chosen h v ->
  exists x, v = Some x /\ write_doclist c (view lists) = Some x.
Proof.
  intros Hh Hne Hr. destruct (collapses_settled h (v, []) lists Hh Hne Hr) as [(Hn & _)|(x & [= ->] & Hw)]; [done|]. by exists x.
Qed.

(** There is always a read: merging everything at once. *)
Lemma holds_read h lists :
  holds h lists -> h.2 <> [] -> exists x, write_doclist c (view lists) = Some x /\ reads op chosen h (Some x).
Proof.
  intros Hh Hne. destruct h as [base ops]. cbn [snd] in Hne.
  destruct (full_step base ops [] lists) as (x & la & ld & Hx & Hw & Hd & -> & _); [by rewrite app_nil_r|done|].
  apply Forall2_nil_inv_l in Hd as ->. rewrite app_nil_r. exists x. split; [done|].
  apply rtc_once. rewrite <- (app_nil_r ops) at 1. by apply collapse_full.
Qed.

(** ** Writing on top of what is there *)

(** A history of document lists, or a bare value of any kind. *)
Definition sound (h : history) : Prop := h.2 = [] \/ exists lists, holds h lists.

Lemma sound_answers h : sound h -> answers op chosen h.
Proof.
  intros [E|(lists & Hh)]; [|by eapply holds_answers]. destruct h as [v ops]. cbn [snd] in E. subst ops. apply answers_base.
Qed.

Lemma sound_reads h v v' : sound h -> reads op chosen h v -> reads op chosen h v' -> v = v'.
Proof.
  intros Hs H1 H2. destruct (decide (h.2 = [])) as [E|E].
  - destruct h as [b ops]. cbn [snd] in E. subst ops. apply reads_base in H1, H2. congruence.
  - destruct Hs as [?|(lists & Hh)]; [done|].
    destruct (holds_reads h lists v Hh E H1) as (x & -> & Hx), (holds_reads h lists v' Hh E H2) as (x' & -> & Hx'). congruence.
Qed.

Lemma sound_collapses h h' : sound h -> rtc (collapse op chosen) h h' -> sound h'.
Proof.
  intros Hs Hr. destruct (decide (h.2 = [])) as [E|E].
  - destruct h as [b ops]. cbn [snd] in E. subst ops. apply rtc_inv in Hr as [<-|(y & Hy & _)]; [by left|].
    by apply collapse_base in Hy.
  - destruct Hs as [?|(lists & Hh)]; [done|].
    destruct (collapses_settled h h' lists Hh E Hr) as [(_ & l & Hl & _)|(x & -> & _)]; [right; by exists l|by left].
Qed.

(** The lists behind a value that is a document list. *)
Lemma sound_lists h v lo :
  sound h -> reads op chosen h v -> old_list v lo -> Z.of_nat (length lo) <= max ->
  exists lists, Forall2 stored (option_list h.1 ++ h.2) lists /\ fits lists /\
    (length (view lists) <= length lo)%nat /\ forall d, live_find d (overlay lists) = live_find d lo.
Proof.
  intros Hs Hr Ho Hlen. destruct (decide (h.2 = [])) as [E|E].
  - destruct h as [b ops]. cbn [snd] in E. subst ops. apply reads_base in Hr as <-. cbn [fst snd].
    destruct Ho as [[-> ->]|(o & -> & Hd)].
    + exists []. split; [constructor|]. split; [|done]. intros p ->%prefix_nil_inv. cbn. lia.
    + pose proof (proj1 Hd) as Hwf. assert (Eo : overlay [lo] = lo) by exact (write_list_nil lo Hwf).
      assert (Hv : (length (view [lo]) <= length lo)%nat).
      { unfold view. rewrite Eo. apply sublist_length, sublist_list_filter. }
      exists [lo]. split; [|split; [|split; [done|by rewrite Eo]]].
      * constructor; [|constructor]. apply is_doclist_stored; [done|]. unfold max_list. lia.
      * intros p Hp. destruct p as [|l p]; [cbn; lia|]. pose proof (prefix_length _ _ Hp) as Hl. destruct p; [|cbn in Hl; lia].
        apply prefix_cons_inv_1 in Hp as ->. lia.
  - destruct Hs as [?|(lists & Hh)]; [done|]. destruct (holds_reads h lists v Hh E Hr) as (x & -> & Hw).
    destruct Hh as (Hst & Hl & Hfit). exists lists. split; [done|]. split; [done|].
    assert (Hwf : wf_docs (view lists)).
    { eapply wf_docs_sublist; [apply sublist_list_filter|]. apply overlay_wf. by eapply stored_wf. }
    destruct Ho as [[? _]|(o & [= ->] & Hd)]; [done|].
    assert (lo = view lists) as ->.
    { apply is_doclist_read in Hd. destruct (read_doclist_spec c (view lists) Hwf) as (x' & Hw' & Hr'); [|congruence].
      specialize (Hfit lists (reflexivity lists)). lia. }
    split; [done|]. intros d. symmetry. apply live_find_view.
Qed.

(** New operands on top of a sound history. *)
Lemma append_operands h v lo datas ls :
  sound h -> reads op chosen h v -> old_list v lo -> Forall2 is_doclist datas ls ->
  Z.of_nat (length lo + length (overlay ls)) <= max -> Z.of_nat (length h.2 + length datas) < 2 ^ 32 - 1 ->
  exists lists, holds (h.1, h.2 ++ datas) lists /\
    forall d, live_find d (overlay lists) =
      match om_find Zcmp_desc d (overlay ls) with
      | Some s => if s =? kDocumentStateDelete then None else Some s
      | None => live_find d lo
      end.
Proof.
  intros Hs Hr Ho Hd Hlen Hn. destruct (sound_lists h v lo Hs Hr Ho) as (lists & Hst & Hfit & Hv & Hlive); [lia|].
  assert (Hsls : Forall (om_sorted Zcmp_desc) ls).
  { clear -Hd. induction Hd as [|x l datas ls (Hwf & _) _ IH]; constructor; [|done]. by apply wf_docs_alt in Hwf as [? _]. }
  assert (Hpart : forall l, l ∈ ls -> (length l <= length (overlay ls))%nat).
  { intros l Hin. apply list_elem_of_split in Hin as (a & b & ->). pose proof (length_overlay_part a [l] b Hsls) as Hle.
    replace (overlay [l]) with l in Hle; [done|]. symmetry. apply write_list_nil.
    apply Forall2_app_inv_r in Hd as (? & ? & _ & Hd & _). apply Forall2_cons_inv_r in Hd as (? & ? & (Hwf & _) & _). done. }
  assert (Hstn : Forall2 stored datas ls).
  { apply Forall2_same_length_lookup_2; [by eapply Forall2_length|]. intros i x l Hx Hl.
    apply is_doclist_stored; [by eapply Forall2_lookup_lr|]. apply list_elem_of_lookup_2, Hpart in Hl. unfold max_list. lia. }
  exists (lists ++ ls). split; [split; [|split]|].
  - cbn [fst snd]. rewrite app_assoc. by apply Forall2_app.
  - rewrite length_app. apply Forall2_length in Hst, Hstn. rewrite length_app in Hst.
    assert (length (option_list h.1) <= 1)%nat by (destruct h.1; cbn; lia). lia.
  - intros p Hp. apply prefix_app_cases in Hp as [Hp|(k & -> & [r ->])]; [by apply Hfit|].
    apply Forall_app in Hsls as Hk. destruct Hk as [Hk _]. pose proof (length_view_app lists k Hk).
    pose proof (length_overlay_part [] k r Hsls) as Hle. cbn [app] in Hle. lia.
  - intros d. unfold live_find at 1. rewrite om_find_overlay_app by done.
    destruct (om_find Zcmp_desc d (overlay ls)) as [s|]; [done|]. apply Hlive.
Qed.

(** The value read after new operands were written. *)
Lemma append_merged h v datas ls lo v' :
  sound h -> reads op chosen h v -> old_list v lo -> Forall2 is_doclist datas ls -> datas <> [] ->
  Z.of_nat (length lo + length (overlay ls)) <= max -> Z.of_nat (length h.2 + length datas) < 2 ^ 32 - 1 ->
  reads op chosen (h.1, h.2 ++ datas) v' -> merged v (overlay ls) v'.
Proof.
  intros Hs Hr Ho Hd Hne Hlen Hn Hr'. destruct (append_operands h v lo datas ls) as (lists & Hh & Hlive); [done..|].
  destruct (holds_reads _ lists v' Hh) as (x & -> & Hw); [cbn [snd]; by intros [_ ?]%app_eq_nil|done|].
  destruct Hh as (Hst & _ & Hfit). assert (Hwf : wf_docs (view lists)).
  { eapply wf_docs_sublist; [apply sublist_list_filter|]. apply overlay_wf. by eapply stored_wf. }
  exists lo, x, (view lists). split; [done|]. split; [done|]. split.
  { split; [done|]. split; [|by exists c]. specialize (Hfit lists (reflexivity lists)). lia. }
  split; [|intros e He; left; destruct e; by apply elem_of_view in He as [_ He]].
  intros d. by rewrite live_find_view, Hlive.
Qed.
End Schedule.

(** ** Theorems *)

(** C10: reading a document list does not depend on when RocksDB merged what.  A
    key holds a base value and operands that are document lists, at no time
    with more live ids than the operator keeps.  Then no partial or full merge
    of any schedule fails, a read is possible, and whatever was merged before
    in whatever order, the value read is one and the same: the encoding of the
    newest live states of all ids.  (The runs merged partially carry at most
    the ten million deletions the operator copes with.) *)
Theorem read_any_schedule max c chosen h lists :
  0 < max <= 100000000 -> moderate chosen -> holds max h lists -> h.2 <> [] ->
  answers (DocListMergeOperator max c) chosen h /\
  exists x, read_doclist x = Some (view lists) /\ reads (DocListMergeOperator max c) chosen h (Some x) /\
    forall v, reads (DocListMergeOperator max c) chosen h v -> v = Some x.
Proof.
  intros Hmax Hch Hh Hne. split; [by eapply holds_answers|].
  destruct (holds_read max c chosen Hmax h lists Hh Hne) as (x & Hw & Hr). exists x. split; [|split; [done|]].
  - destruct (read_doclist_spec c (view lists)) as (x' & Hw' & Hrd); [| |congruence]; destruct Hh as (Hst & _ & Hfit).
    + eapply wf_docs_sublist; [apply sublist_list_filter|]. apply overlay_wf. by eapply stored_wf.
    + specialize (Hfit lists (reflexivity lists)). lia.
  - intros v Hv. destruct (holds_reads max c chosen Hmax Hch h lists v Hh Hne Hv) as (x' & -> & Hx'). congruence.
Qed.

(** A schedule: the last two operands first, then the rest with the base. *)
Definition sample_history : history :=
  (Some (default [] (head sample_datas)), tail sample_datas).

Lemma sample_holds : holds 1000 sample_history sample_lists.
Proof.
  split; [exact sample_stored|]. split; [cbn; lia|]. intros p [r E].
  repeat (destruct p as [|? p]; [vm_compute; discriminate|cbn in E; injection E as <- E]). by destruct p.
Qed.

Lemma stored_read d l : stored d l -> read_doclist d = Some l.
Proof. intros (Hwf & Hlen & _ & Hw). by apply is_doclist_read. Qed.

Lemma sample_moderate : moderate (fun run => run = tail sample_datas).
Proof.
  intros run lists -> Hst.
  assert (E : mapM read_doclist (tail sample_datas) = Some lists).
  { apply mapM_Some. eapply Forall2_impl; [exact Hst|]. apply stored_read. }
  vm_compute in E. injection E as <-. vm_compute. discriminate.
Qed.

Lemma read_any_schedule_witness :
  exists x, read_doclist x = Some (view sample_lists) /\ view sample_lists = [(7, 0); (5, 0); (2, 0)] /\
    forall v, reads (DocListMergeOperator 1000 DocListCompressionVarLenBlockType) (fun run => run = tail sample_datas)
      sample_history v -> v = Some x.
Proof.
  destruct (read_any_schedule 1000 DocListCompressionVarLenBlockType (fun run => run = tail sample_datas)
    sample_history sample_lists) as (_ & x & Hx & _ & Hu); [lia|exact sample_moderate|exact sample_holds|done|].
  exists x. split; [exact Hx|]. split; [vm_compute; reflexivity|exact Hu].
Defined.
