(* ===== verification/VirtualDBMock.v ===== *)
(** The in-memory storage ([virtual_db_mock.cpp], [write_buffer_mock.cpp]):
    a write buffer collects operations per column and key, is serialized with
    protobuf, and is applied to the database by [ParsePbString].

    [MockProto] stands for the serializer and parser of the protobuf messages,
    [MockProtoLaws] for their documented round trip, which [WireStore] proves of
    the generated ones.  [None] is a failed [assert] or undefined behaviour. *)
From Stdlib Require String.
From stdpp Require Import countable.
From S2P Require Import Prelude Storage Coding Codec DocList MergeOperator VirtualDB WriteDB.

(** ** The protobuf messages *)
Inductive MockData_Type := kUnknown | kUpdate | kMerge | kDelete | kDeleteRange.

Record MockData := mkMockData {
  column_type : Z; key : bytes; value : bytes; type : MockData_Type; end_key : bytes }.

Class MockProto := {
  SerializeToString : list MockData -> option bytes;
  ParseFromString : bytes -> option (list MockData)
}.

Class MockProtoLaws `{MockProto} : Prop := {
  Parse_Serialize l data : SerializeToString l = Some data -> ParseFromString data = Some l;
  Serialize_empty l : SerializeToString l = Some [] <-> l = []
}.

(** ** The write buffer *)
Abbreviation buffer_kvs := (list (bytes * (bytes * MockData_Type))).

(** Order of [std::pair<std::string, std::string>]. *)
Definition pair_cmp (a b : bytes * bytes) : comparison :=
  match bytes_cmp a.1 b.1 with Eq => bytes_cmp a.2 b.2 | r => r end.

Record WriteBufferMock := mkBuffer {
  kv_cnt_ : Z;
  total_size_ : Z;
  cf_kv_list_ : list (Z * buffer_kvs);
  cf_delete_keyrange_list_ : list (Z * list (bytes * bytes));
  data_ : bytes
}.

Definition empty_buffer : WriteBufferMock := mkBuffer 0 0 [] [] [].

Definition set_kvs (b : WriteBufferMock) (column : Z) (kvs : buffer_kvs) (cnt : Z) : WriteBufferMock :=
  mkBuffer cnt (total_size_ b) (cf_set (cf_kv_list_ b) column kvs) (cf_delete_keyrange_list_ b) (data_ b).

Definition buffer_Put (b : WriteBufferMock) (column : Z) (key value : bytes) : WriteBufferMock :=
  let kvs := cf_get (cf_kv_list_ b) column in
  match om_find bytes_cmp key kvs with
  | Some _ => set_kvs b column (om_insert bytes_cmp key (value, kUpdate) kvs) (kv_cnt_ b)
  | None => set_kvs b column (om_emplace bytes_cmp key (value, kUpdate) kvs) (u64 (kv_cnt_ b + 1))
  end.

Definition buffer_Delete (b : WriteBufferMock) (column : Z) (key : bytes) : WriteBufferMock :=
  let kvs := cf_get (cf_kv_list_ b) column in
  let kvs := om_erase bytes_cmp key kvs in
  set_kvs b column (om_emplace bytes_cmp key ([], kDelete) kvs) (u64 (kv_cnt_ b - 1)).

Definition buffer_DeleteRange (b : WriteBufferMock) (column : Z) (begin_key end_key : bytes) : WriteBufferMock :=
  let l := cf_get (cf_delete_keyrange_list_ b) column in
  mkBuffer (u64 (kv_cnt_ b - 1)) (total_size_ b) (cf_kv_list_ b)
    (cf_set (cf_delete_keyrange_list_ b) column (os_insert pair_cmp (begin_key, end_key) l)) (data_ b).

(** The messages of [SeriableData]: the entries of every column, then the
    ranges. *)
Definition buffer_messages (b : WriteBufferMock) : list MockData :=
  concat (map (fun c : Z * buffer_kvs =>
    map (fun e : bytes * (bytes * MockData_Type) => mkMockData c.1 e.1 e.2.1 e.2.2 []) c.2) (cf_kv_list_ b)) ++
  concat (map (fun c : Z * list (bytes * bytes) =>
    map (fun r : bytes * bytes => mkMockData c.1 r.1 [] kDeleteRange r.2) c.2) (cf_delete_keyrange_list_ b)).

Definition kv_total (b : WriteBufferMock) : Z :=
  Z.of_nat (sum_list_with (fun c : Z * buffer_kvs => length c.2) (cf_kv_list_ b)).

Section Mock.
Context `{MockProto} (c : DocListCompressionType).

Definition SeriableData (b : WriteBufferMock) : SearchStatus * WriteBufferMock :=
  match SerializeToString (buffer_messages b) with
  | Some data =>
      (status_ok, mkBuffer (u64 (kv_total b)) (u32 (Z.of_nat (length data)))
                    (cf_kv_list_ b) (cf_delete_keyrange_list_ b) data)
  | None =>
      (SetStatus kRocksDBErrorStatus "RocksDBErrorStatus WriteBufferMock::Append",
       mkBuffer (u64 (kv_total b)) 0 (cf_kv_list_ b) (cf_delete_keyrange_list_ b) [])
  end.

Definition buffer_Data (b : WriteBufferMock) : bytes * WriteBufferMock :=
  let '(s, b) := SeriableData b in ((if OK s then data_ b else []), b).

Definition DataSize (b : WriteBufferMock) : Z := total_size_ b.
Definition KvCount (b : WriteBufferMock) : Z := kv_cnt_ b.

(** [DeSeriableData], run by the constructor that takes the bytes of another
    buffer: every message becomes a [Put]. *)
Definition DeSeriableData (b : WriteBufferMock) : SearchStatus * WriteBufferMock :=
  match data_ b with
  | [] => (status_ok, b)
  | data =>
      let b := mkBuffer 0 (u32 (Z.of_nat (length data))) (cf_kv_list_ b) (cf_delete_keyrange_list_ b) data in
      match ParseFromString data with
      | None => (SetStatus kRocksDBErrorStatus "RocksDBErrorStatus WriteBufferMock::Append", b)
      | Some data_list =>
          (status_ok, fold_left (fun b d => buffer_Put b (column_type d) (key d) (value d)) data_list b)
      end
  end.

Definition buffer_of_data (data : bytes) : WriteBufferMock := (DeSeriableData (mkBuffer 0 0 [] [] data)).2.

(** [WriteBufferMock::Merge]: the ids of the old value, then those of the new
    one, through a map ordered by decreasing id; states are kept. *)
Definition buffer_merge_value (old new : bytes) : option bytes :=
  l1 ← read_doclist old; l2 ← read_doclist new;
  write_doclist c (write_list (write_list [] l1) l2).

Definition buffer_Merge (b : WriteBufferMock) (column : Z) (key value : bytes) : option WriteBufferMock :=
  let kvs := cf_get (cf_kv_list_ b) column in
  if negb (column =? column_num kInvertedIndexColumn) then None
  else
    match om_find bytes_cmp key kvs with
    | Some (old, _) =>
        final_value ← buffer_merge_value old value;
        Some (set_kvs b column (om_insert bytes_cmp key (final_value, kMerge) kvs) (kv_cnt_ b))
    | None => Some (set_kvs b column (om_emplace bytes_cmp key (value, kMerge) kvs) (u64 (kv_cnt_ b + 1)))
    end.

(** One round of [WriteBufferMock::Append]. *)
Definition append_one (b : WriteBufferMock) (d : MockData) : option WriteBufferMock :=
  match type d with
  | kUpdate => Some (buffer_Put b (column_type d) (key d) (value d))
  | kMerge =>
      if negb (column_type d =? column_num kInvertedIndexColumn) then None
      else buffer_Merge b (column_type d) (key d) (value d)
  | kDelete => Some (buffer_Delete b (column_type d) (key d))
  | _ => None
  end.

Fixpoint fold_opt {A B} (f : B -> A -> option B) (l : list A) (b : B) : option B :=
  match l with
  | [] => Some b
  | x :: l' => b ← f b x; fold_opt f l' b
  end.

Definition buffer_Append (b prepare_append_write_buffer : WriteBufferMock) :
    option (SearchStatus * WriteBufferMock) :=
  let '(data, _) := buffer_Data prepare_append_write_buffer in
  match data with
  | [] => Some (status_ok, b)
  | _ =>
      match ParseFromString data with
      | None => Some (SetStatus kRocksDBErrorStatus "RocksDBErrorStatus WriteBufferMock::Append", b)
      | Some l => b ← fold_opt append_one l b; Some (status_ok, b)
      end
  end.

(** ** The database *)
Definition MockDB := list (Z * list (bytes * bytes)).

(** The merge of [ParsePbString]: deleted ids leave the map. *)
Definition apply_doclist (doclist l : list (Z * Z)) : list (Z * Z) :=
  fold_left (fun m e => if e.2 =? kDocumentStateDelete then om_erase Zcmp_desc e.1 m
                        else om_insert Zcmp_desc e.1 e.2 m) l doclist.

Definition db_merge_value (old new : bytes) : option bytes :=
  l1 ← read_doclist old; l2 ← read_doclist new;
  write_doclist c (apply_doclist (apply_doclist [] l1) l2).

(** One round of [ParsePbString].  The range deletion erases from the map it
    iterates over, which is undefined as soon as one key is in the range. *)
Definition parse_one (db : MockDB) (d : MockData) : option MockDB :=
  let cf := column_type d in
  let kvs := cf_get db cf in
  match type d with
  | kUpdate => Some (cf_set db cf (om_insert bytes_cmp (key d) (value d) kvs))
  | kMerge =>
      if negb (cf =? column_num kInvertedIndexColumn) then None
      else
        match om_find bytes_cmp (key d) kvs with
        | Some old =>
            final_value ← db_merge_value old (value d);
            Some (cf_set db cf (om_insert bytes_cmp (key d) final_value kvs))
        | None => Some (cf_set db cf (om_emplace bytes_cmp (key d) (value d) kvs))
        end
  | kDelete => Some (cf_set db cf (om_erase bytes_cmp (key d) kvs))
  | kDeleteRange =>
      if existsb (fun e => in_range (key d) (end_key d) e.1) kvs then None else Some db
  | kUnknown => None
  end.

Definition ParsePbString (db : MockDB) (write_buffer_data : bytes) : option (SearchStatus * MockDB) :=
  match write_buffer_data with
  | [] => Some (status_ok, db)
  | _ =>
      match ParseFromString write_buffer_data with
      | None => Some (SetStatus kRocksDBErrorStatus "RocksDBErrorStatus in parse write_buffer_data", db)
      | Some data_list => db ← fold_opt parse_one data_list db; Some (status_ok, db)
      end
  end.

Definition mock_FlushBuffer (db : MockDB) (write_buffer : WriteBufferMock) :
    option (SearchStatus * MockDB * WriteBufferMock) :=
  let '(data, write_buffer) := buffer_Data write_buffer in
  '(s, db) ← ParsePbString db data;
  Some (s, db, write_buffer).

Definition mock_NewWriteBuffer (write_buffer : option bytes) : WriteBufferMock :=
  match write_buffer with Some data => buffer_of_data data | None => empty_buffer end.
End Mock.

Definition mock_content (db : MockDB) (column : StorageColumnType) : list (bytes * bytes) :=
  cf_get db (column_num column).

Definition mock_Get (db : MockDB) (column : StorageColumnType) (key : bytes) : SearchStatus * bytes :=
  match om_find bytes_cmp key (mock_content db column) with
  | Some v => (status_ok, v)
  | None => (SetStatus kDocumentNotExistStatus String.EmptyString, [])
  end.

(** [MockIterator::Seek] on a copy of the column, read with [Valid], [key],
    [value] and [Next]: the entries from the lower bound on. *)
Definition mock_Seek (db : MockDB) (column : StorageColumnType) (target : bytes) : list (bytes * bytes) :=
  om_lower_bound bytes_cmp target (mock_content db column).

#[export] Instance mock_db : VirtualDB MockDB := { Get := mock_Get; Seek := mock_Seek }.

(** [CompactRange], [DropDB]: nothing happens. *)
Definition CompactRange (db : MockDB) (column : StorageColumnType) (begin end_ : bytes) : SearchStatus * MockDB :=
  (status_ok, db).
Definition DropDB (db : MockDB) : SearchStatus * MockDB := (status_ok, db).

(** ** Columns and keys *)
#[export] Instance pair_cmp_total : TotalCmp pair_cmp.
Proof.
  unfold pair_cmp. split.
  - intros [a1 a2] [b1 b2]; simpl. destruct (bytes_cmp a1 b1) eqn:E.
    + apply (cmp_eq bytes_cmp) in E as ->. rewrite (cmp_eq bytes_cmp). naive_solver.
    + split; [done|]. intros [= -> ->]. by rewrite bytes_cmp_refl in E.
    + split; [done|]. intros [= -> ->]. by rewrite bytes_cmp_refl in E.
  - intros [a1 a2] [b1 b2]; simpl. rewrite (cmp_opp bytes_cmp a1 b1).
    destruct (bytes_cmp a1 b1); simpl; [apply (cmp_opp bytes_cmp)|done|done].
  - intros [a1 a2] [b1 b2] [c1 c2]; simpl. destruct (bytes_cmp a1 b1) eqn:E1; try done;
      destruct (bytes_cmp b1 c1) eqn:E2; try done.
    + apply (cmp_eq bytes_cmp) in E1 as ->, E2 as ->. rewrite bytes_cmp_refl. apply (cmp_lt_trans bytes_cmp).
    + apply (cmp_eq bytes_cmp) in E1 as ->. by rewrite E2.
    + apply (cmp_eq bytes_cmp) in E2 as ->. by rewrite E1.
    + by rewrite (cmp_lt_trans bytes_cmp _ _ _ E1 E2).
Qed.

(** The laws of the storage interface. *)
#[export] Program Instance mock_db_laws : VirtualDBLaws MockDB := {|
  content := mock_content; db_wf := cf_wf |}.
Next Obligation. intros db col Hwf. by apply cf_get_sorted. Qed.
Next Obligation. done. Qed.
Next Obligation. done. Qed.

(** ** Flushing *)
Section Flush.
Context (c : DocListCompressionType).

(** What a pending entry makes of the stored value of its key. *)
Definition pending_effect (old : option bytes) (e : bytes * MockData_Type) : option (option bytes) :=
  match e.2 with
  | kUpdate => Some (Some e.1)
  | kDelete => Some None
  | kMerge =>
      match old with
      | None => Some (Some e.1)
      | Some o => v ← db_merge_value c o e.1; Some (Some v)
      end
  | _ => None
  end.

Lemma parse_one_spec db d db' :
  cf_wf db -> type d <> kDeleteRange -> parse_one c db d = Some db' ->
  cf_wf db' /\
  pending_effect (cf_find db (column_type d) (key d)) (value d, type d)
    = Some (cf_find db' (column_type d) (key d)) /\
  (forall col k, (col, k) <> (column_type d, key d) -> cf_find db' col k = cf_find db col k).
Proof.
  intros Hwf Ht Hp. pose proof (cf_get_sorted db (column_type d) Hwf) as Hs.
  assert (Hput : forall v, om_find bytes_cmp (key d) (om_insert bytes_cmp (key d) v (cf_get db (column_type d))) = Some v)
    by (intros v; by apply (om_find_insert_eq bytes_cmp)).
  assert (Hset : forall kvs, om_sorted bytes_cmp kvs ->
    (forall k, k <> key d -> om_find bytes_cmp k kvs = cf_find db (column_type d) k) ->
    cf_wf (cf_set db (column_type d) kvs) /\
    cf_find (cf_set db (column_type d) kvs) (column_type d) (key d) = om_find bytes_cmp (key d) kvs /\
    (forall col k, (col, k) <> (column_type d, key d) ->
       cf_find (cf_set db (column_type d) kvs) col k = cf_find db col k)).
  { intros kvs Hk Hother. split; [by apply cf_set_wf|]. split; [by rewrite cf_find_set, decide_True by done|].
    intros col k Hne. rewrite cf_find_set by done. destruct (decide (col = column_type d)) as [->|]; [|done].
    apply Hother. congruence. }
  assert (Hins : forall v k, k <> key d ->
    om_find bytes_cmp k (om_insert bytes_cmp (key d) v (cf_get db (column_type d))) = cf_find db (column_type d) k).
  { intros v k Hk. by apply (om_find_insert_ne bytes_cmp). }
  unfold parse_one in Hp. unfold pending_effect; cbn [fst snd]. destruct (type d); try done.
  - injection Hp as <-. destruct (Hset (om_insert bytes_cmp (key d) (value d) (cf_get db (column_type d))))
      as (H1 & H2 & H3); [by apply (om_insert_sorted bytes_cmp)|by apply Hins|].
    by rewrite H2, Hput.
  - destruct (negb (column_type d =? column_num kInvertedIndexColumn)); [done|]. unfold cf_find at 1.
    destruct (om_find bytes_cmp (key d) (cf_get db (column_type d))) as [o|] eqn:E.
    + destruct (db_merge_value c o (value d)) as [v|]; [|done]. cbn [mbind option_bind] in *. injection Hp as <-.
      destruct (Hset (om_insert bytes_cmp (key d) v (cf_get db (column_type d))))
        as (H1 & H2 & H3); [by apply (om_insert_sorted bytes_cmp)|by apply Hins|].
      by rewrite H2, Hput.
    + injection Hp as <-. unfold om_emplace. rewrite E.
      destruct (Hset (om_insert bytes_cmp (key d) (value d) (cf_get db (column_type d))))
        as (H1 & H2 & H3); [by apply (om_insert_sorted bytes_cmp)|by apply Hins|].
      by rewrite H2, Hput.
  - injection Hp as <-. destruct (Hset (om_erase bytes_cmp (key d) (cf_get db (column_type d))))
      as (H1 & H2 & H3); [by apply (om_erase_sorted bytes_cmp)| |].
    + intros k Hk. rewrite om_find_erase by (done || typeclasses eauto).
      destruct (bytes_cmp k (key d)) eqn:E; [|done|done]. apply (cmp_eq bytes_cmp) in E. congruence.
    + rewrite H2, om_find_erase by (done || typeclasses eauto).
      by rewrite bytes_cmp_refl.
Qed.

Definition target (d : MockData) : Z * bytes := (column_type d, key d).

Lemma fold_parse_spec l db db' :
  cf_wf db -> NoDup (map target l) -> Forall (fun d => type d <> kDeleteRange) l ->
  fold_opt (parse_one c) l db = Some db' ->
  cf_wf db' /\
  (forall d, d ∈ l -> pending_effect (cf_find db (column_type d) (key d)) (value d, type d)
                      = Some (cf_find db' (column_type d) (key d))) /\
  (forall col k, (col, k) ∉ map target l -> cf_find db' col k = cf_find db col k).
Proof.
  revert db. induction l as [|d l IH]; intros db Hwf Hnd Hty; cbn [fold_opt map].
  { intros [= <-]. split; [done|]. split; [by intros d ?%elem_of_nil|done]. }
  apply NoDup_cons in Hnd as [Hni Hnd]. apply Forall_cons in Hty as [Htd Hty].
  destruct (parse_one c db d) as [db1|] eqn:E; [|done]. cbn [mbind option_bind]. intros Hf.
  destruct (parse_one_spec db d db1 Hwf Htd E) as (Hwf1 & He1 & Ho1).
  destruct (IH db1 Hwf1 Hnd Hty Hf) as (Hwf' & He & Ho). split; [done|]. split.
  - intros d' [->|Hd']%elem_of_cons.
    + rewrite He1. f_equal. symmetry. by apply Ho.
    + rewrite <- He by done. f_equal. symmetry. apply Ho1. intros Heq.
      apply Hni. unfold target at 1. rewrite <- Heq. by apply (list_elem_of_fmap_2 target l d').
  - intros col k Hni'. rewrite not_elem_of_cons in Hni'. destruct Hni' as [Hne Hni']. rewrite Ho by done.
    by apply Ho1.
Qed.

(** The messages of a buffer name every pending key once. *)
Lemma messages_kvs (m : list (Z * buffer_kvs)) :
  cf_wf m ->
  let l := concat (map (fun c : Z * buffer_kvs =>
    map (fun e : bytes * (bytes * MockData_Type) => mkMockData c.1 e.1 e.2.1 e.2.2 []) c.2) m) in
  NoDup (map target l) /\
  (forall d, d ∈ l -> cf_find m (column_type d) (key d) = Some (value d, type d)) /\
  (forall col k e, cf_find m col k = Some e -> mkMockData col k e.1 e.2 [] ∈ l).
Proof.
  intros Hwf l. destruct Hwf as [Hs Hf].
  assert (Hin : forall d, d ∈ l <-> exists col kvs e, (col, kvs) ∈ m /\ e ∈ kvs /\ d = mkMockData col e.1 e.2.1 e.2.2 []).
  { intros d. unfold l. rewrite list_elem_of_In, in_concat. split.
    - intros (x & Hx & Hd). apply in_map_iff in Hx as ([col kvs] & <- & Hm). apply in_map_iff in Hd as (e & <- & He).
      apply list_elem_of_In in Hm, He. by exists col, kvs, e.
    - intros (col & kvs & e & Hm%list_elem_of_In & He%list_elem_of_In & ->).
      exists (map (fun e : bytes * (bytes * MockData_Type) => mkMockData col e.1 e.2.1 e.2.2 []) kvs).
      split; [apply in_map_iff; by exists (col, kvs)|]. apply in_map_iff. by exists e. }
  assert (Hfind : forall col k e, cf_find m col k = Some e <-> exists kvs, (col, kvs) ∈ m /\ (k, e) ∈ kvs).
  { intros col k e. unfold cf_find, cf_get. split.
    - destruct (om_find Z.compare col m) as [kvs|] eqn:E; [|done].
      apply (om_find_in Z.compare) in E. simpl. intros Hk%(om_find_in bytes_cmp). by exists kvs.
    - intros (kvs & Hm & Hk). apply (om_in_find Z.compare) in Hm as Hm'; [|done]. rewrite Hm'. simpl.
      rewrite Forall_forall in Hf. apply (om_in_find bytes_cmp); [apply (Hf _ Hm)|done]. }
  split; [|split].
  - unfold l. clear l Hin Hfind. induction m as [|[col kvs] m IH]; [constructor|].
    destruct (om_sorted_cons_inv Z.compare _ _ _ Hs) as [Hs' Hlt]. apply Forall_cons in Hf as [Hk Hf].
    cbn [map concat fst snd]. rewrite map_app. apply NoDup_app. split; [|split; [|by apply IH]].
    + rewrite map_map. unfold target; cbn. clear -Hk. cbn [snd] in Hk. unfold om_sorted in Hk.
      induction Hk as [|[k v] kvs' Hk IH Hf]; [constructor|].
      cbn. constructor; [|done]. intros Hin. apply list_elem_of_fmap in Hin as ([k' v'] & [= ->] & Hin).
      rewrite Forall_forall in Hf. specialize (Hf _ Hin). unfold om_lt in Hf. simpl in Hf.
      by rewrite bytes_cmp_refl in Hf.
    + intros [col1 k1] H1 H2. rewrite map_map in H1. apply list_elem_of_fmap in H1 as (e & [= -> ->] & _).
      apply list_elem_of_fmap in H2 as (d & [= Ec _] & Hd). rewrite list_elem_of_In, in_concat in Hd.
      destruct Hd as (x & Hx & Hd). apply in_map_iff in Hx as ([col' kvs'] & <- & Hm).
      apply in_map_iff in Hd as (e' & <- & _). simpl in Ec. subst. rewrite <- list_elem_of_In in Hm.
      specialize (Hlt _ _ Hm). by rewrite Z.compare_refl in Hlt.
  - intros d (col & kvs & [k e] & Hm & He & ->)%Hin. cbn. apply Hfind. exists kvs. by destruct e.
  - intros col k e (kvs & Hm & Hk)%Hfind. apply Hin. by exists col, kvs, (k, e).
Qed.

(** ** Merged values *)

Lemma apply_doclist_ok m l :
  wf_docs m -> wf_docs l -> wf_docs (apply_doclist m l) /\ (length (apply_doclist m l) <= length m + length l)%nat.
Proof.
  intros Hm Hl. apply wf_docs_alt in Hm, Hl. destruct Hl as [_ Hl]. destruct Hm as [Hs Hm].
  rewrite wf_docs_alt. revert m Hs Hm. induction Hl as [|[d s] l He Hl IH]; intros m Hs Hm; cbn [apply_doclist fold_left].
  { split; [done|]. simpl. lia. }
  cbn [fst snd]. destruct (s =? kDocumentStateDelete).
  - destruct (IH (om_erase Zcmp_desc d m)) as [H1 H2].
    + by apply (om_erase_sorted Zcmp_desc).
    + apply Forall_forall. intros [d' s'] Hin. apply om_erase_in in Hin. rewrite Forall_forall in Hm. by apply Hm.
    + split; [done|]. pose proof (length_om_erase d m). unfold apply_doclist in H2. simpl. lia.
  - destruct (IH (om_insert Zcmp_desc d s m)) as [H1 H2].
    + by apply (om_insert_sorted Zcmp_desc).
    + apply Forall_forall. intros [d' s'] Hin. apply (om_insert_in Zcmp_desc) in Hin as [[= -> ->]|Hin]; [done|].
      rewrite Forall_forall in Hm. by apply Hm.
    + split; [done|]. pose proof (length_om_insert d s m). unfold apply_doclist in H2. simpl. lia.
Qed.

Lemma db_merge_value_ok o v l1 l2 :
  is_doclist o l1 -> is_doclist v l2 -> Z.of_nat (length l1 + length l2) < 2 ^ 32 ->
  exists r, db_merge_value c o v = Some r /\ is_doclist r (apply_doclist (apply_doclist [] l1) l2).
Proof.
  intros H1 H2 Hlen. unfold db_merge_value.
  rewrite (is_doclist_read _ _ H1), (is_doclist_read _ _ H2). cbn [mbind option_bind].
  destruct (apply_doclist_ok [] l1 wf_docs_nil (proj1 H1)) as [Hw1 Hl1].
  destruct (apply_doclist_ok _ l2 Hw1 (proj1 H2)) as [Hw2 Hl2]. cbn [length] in *.
  apply is_doclist_write; [done|]. lia.
Qed.

Lemma buffer_merge_value_ok o v l1 l2 :
  is_doclist o l1 -> is_doclist v l2 -> Z.of_nat (length l1 + length l2) < 2 ^ 32 ->
  exists r, buffer_merge_value c o v = Some r /\ is_doclist r (write_list (write_list [] l1) l2).
Proof.
  intros H1 H2 Hlen. unfold buffer_merge_value.
  rewrite (is_doclist_read _ _ H1), (is_doclist_read _ _ H2). cbn [mbind option_bind].
  destruct (write_list_ok [] l1 wf_docs_nil (proj1 H1)) as [Hw1 Hl1].
  destruct (write_list_ok _ l2 Hw1 (proj1 H2)) as [Hw2 Hl2]. cbn [length] in *.
  apply is_doclist_write; [done|]. lia.
Qed.

(** What the database map of a merge contains: the live newest states. *)
Lemma om_find_apply_doclist m l d :
  om_sorted Zcmp_desc m -> om_sorted Zcmp_desc l ->
  om_find Zcmp_desc d (apply_doclist m l) =
  match om_find Zcmp_desc d l with
  | Some s => if s =? kDocumentStateDelete then None else Some s
  | None => om_find Zcmp_desc d m
  end.
Proof.
  revert m. induction l as [|[d1 s1] l IH]; intros m Hm Hl; [done|].
  destruct (om_sorted_cons_inv Zcmp_desc _ _ _ Hl) as [Hl' Hlt]. cbn [apply_doclist fold_left fst snd om_find].
  unfold apply_doclist in IH. rewrite IH; [|destruct (s1 =? kDocumentStateDelete);
    [by apply (om_erase_sorted Zcmp_desc)|by apply (om_insert_sorted Zcmp_desc)]|done].
  destruct (Zcmp_desc d d1) eqn:E.
  - apply (cmp_eq Zcmp_desc) in E as ->. rewrite (om_find_below Zcmp_desc d1 l) by done.
    destruct (s1 =? kDocumentStateDelete).
    + by rewrite (om_find_erase Zcmp_desc), (cmp_refl Zcmp_desc) by done.
    + by rewrite (om_find_insert_eq Zcmp_desc) by done.
  - rewrite (om_find_below Zcmp_desc d l); [|done|].
    + destruct (s1 =? kDocumentStateDelete).
      * by rewrite (om_find_erase Zcmp_desc), E by done.
      * by rewrite (om_find_insert Zcmp_desc), E by done.
    + intros k' v' Hin. eapply (cmp_lt_trans Zcmp_desc); [done|]. by eapply Hlt.
  - destruct (om_find Zcmp_desc d l); [done|]. destruct (s1 =? kDocumentStateDelete).
    + by rewrite (om_find_erase Zcmp_desc), E by done.
    + by rewrite (om_find_insert Zcmp_desc), E by done.
Qed.

(** ** Buffers and databases whose merges go through *)
Definition buffer_ok (b : WriteBufferMock) : Prop :=
  cf_wf (cf_kv_list_ b) /\ cf_delete_keyrange_list_ b = [] /\
  forall col k e, cf_find (cf_kv_list_ b) col k = Some e ->
    match e.2 with
    | kUpdate | kDelete => True
    | kMerge => col = column_num kInvertedIndexColumn /\ exists l, is_doclist e.1 l
    | _ => False
    end.

(** Every pending merge meets a document list it can be merged with. *)
Definition merges_ok (db : MockDB) (b : WriteBufferMock) : Prop :=
  forall col k v o, cf_find (cf_kv_list_ b) col k = Some (v, kMerge) -> cf_find db col k = Some o ->
    exists l1 l2, is_doclist o l1 /\ is_doclist v l2 /\ Z.of_nat (length l1 + length l2) < 2 ^ 32.

Lemma parse_one_total db d :
  match type d with
  | kUpdate | kDelete => True
  | kMerge => column_type d = column_num kInvertedIndexColumn /\
      forall o, cf_find db (column_type d) (key d) = Some o -> exists r, db_merge_value c o (value d) = Some r
  | _ => False
  end -> exists db', parse_one c db d = Some db'.
Proof.
  unfold parse_one, cf_find. destruct (type d); try done; [by eexists| |by eexists].
  intros [-> Hm]. rewrite Z.eqb_refl. cbn [negb].
  destruct (om_find bytes_cmp (key d) (cf_get db (column_num kInvertedIndexColumn))) as [o|] eqn:E; [|by eexists].
  destruct (Hm o eq_refl) as [r ->]. by eexists.
Qed.

Lemma fold_parse_total l db :
  cf_wf db -> NoDup (map target l) ->
  (forall d, d ∈ l -> match type d with
    | kUpdate | kDelete => True
    | kMerge => column_type d = column_num kInvertedIndexColumn /\
        forall o, cf_find db (column_type d) (key d) = Some o -> exists r, db_merge_value c o (value d) = Some r
    | _ => False
    end) -> exists db', fold_opt (parse_one c) l db = Some db'.
Proof.
  revert db. induction l as [|d l IH]; intros db Hwf Hnd Hok; [by exists db|].
  cbn [map] in Hnd. apply NoDup_cons in Hnd as [Hni Hnd].
  destruct (parse_one_total db d) as [db1 Hp]; [by apply Hok; left|]. cbn [fold_opt]. rewrite Hp.
  cbn [mbind option_bind].
  destruct (parse_one_spec db d db1 Hwf) as (Hwf1 & _ & Hother); [|done|].
  { specialize (Hok d ltac:(left)). by destruct (type d). }
  apply IH; [done|done|]. intros d' Hd'. specialize (Hok d' ltac:(by right)).
  destruct (type d'); try done. destruct Hok as [? Hm]. split; [done|]. intros o Ho. apply Hm.
  rewrite <- Hother; [done|]. intros Heq. apply Hni. unfold target at 1. rewrite <- Heq.
  by apply (list_elem_of_fmap_2 target l d').
Qed.
End Flush.

(** ** The operations of the buffer *)
Lemma cf_find_not_in {V} (m : list (Z * list (bytes * V))) col k kvs :
  cf_get m col = kvs -> cf_find m col k = om_find bytes_cmp k kvs.
Proof. by intros <-. Qed.

Section BufferOps.
Context (c : DocListCompressionType) (b : WriteBufferMock) (Hok : buffer_ok b).

Lemma buffer_set_ok column k e kvs cnt :
  om_sorted bytes_cmp kvs ->
  (forall k', om_find bytes_cmp k' kvs = if decide (k' = k) then Some e else cf_find (cf_kv_list_ b) column k') ->
  match e.2 with
  | kUpdate | kDelete => True
  | kMerge => column = column_num kInvertedIndexColumn /\ exists l, is_doclist e.1 l
  | _ => False
  end ->
  buffer_ok (set_kvs b column kvs cnt) /\
  forall col k', cf_find (cf_kv_list_ (set_kvs b column kvs cnt)) col k' =
    if decide (col = column /\ k' = k) then Some e else cf_find (cf_kv_list_ b) col k'.
Proof.
  destruct Hok as (Hwf & Hr & Hf). intros Hs Hk He.
  assert (Hfind : forall col k', cf_find (cf_kv_list_ (set_kvs b column kvs cnt)) col k' =
    if decide (col = column /\ k' = k) then Some e else cf_find (cf_kv_list_ b) col k').
  { intros col k'. unfold set_kvs; cbn [cf_kv_list_]. rewrite cf_find_set by done.
    destruct (decide (col = column)) as [->|Hne].
    - rewrite Hk. destruct (decide (k' = k)) as [->|]; [by rewrite decide_True|].
      rewrite decide_False by naive_solver. done.
    - rewrite decide_False by naive_solver. done. }
  split; [|done]. split; [by apply cf_set_wf|]. split; [done|].
  intros col k' e'. rewrite Hfind. destruct (decide (col = column /\ k' = k)) as [[-> ->]|].
  - intros [= <-]. done.
  - apply Hf.
Qed.

Lemma buffer_Put_spec column k v :
  buffer_ok (buffer_Put b column k v) /\
  forall col k', cf_find (cf_kv_list_ (buffer_Put b column k v)) col k' =
    if decide (col = column /\ k' = k) then Some (v, kUpdate) else cf_find (cf_kv_list_ b) col k'.
Proof.
  pose proof (cf_get_sorted (cf_kv_list_ b) column (proj1 Hok)) as Hs.
  assert (Hfi : forall k', om_find bytes_cmp k' (om_insert bytes_cmp k (v, kUpdate) (cf_get (cf_kv_list_ b) column)) =
    if decide (k' = k) then Some (v, kUpdate) else cf_find (cf_kv_list_ b) column k').
  { intros k'. destruct (decide (k' = k)) as [->|]; [by apply (om_find_insert_eq bytes_cmp)|].
    by rewrite (om_find_insert_ne bytes_cmp). }
  unfold buffer_Put, om_emplace. destruct (om_find bytes_cmp k (cf_get (cf_kv_list_ b) column));
    (apply buffer_set_ok; [by apply (om_insert_sorted bytes_cmp)|done|done]).
Qed.

Lemma buffer_Delete_spec column k :
  buffer_ok (buffer_Delete b column k) /\
  forall col k', cf_find (cf_kv_list_ (buffer_Delete b column k)) col k' =
    if decide (col = column /\ k' = k) then Some ([], kDelete) else cf_find (cf_kv_list_ b) col k'.
Proof.
  pose proof (cf_get_sorted (cf_kv_list_ b) column (proj1 Hok)) as Hs.
  pose proof (om_erase_sorted bytes_cmp k _ Hs) as He.
  unfold buffer_Delete. apply buffer_set_ok; [by apply (om_emplace_sorted bytes_cmp)| |done].
  intros k'. rewrite (om_find_emplace bytes_cmp), (om_find_erase bytes_cmp) by done.
  destruct (decide (k' = k)) as [->|Hne]; [by rewrite bytes_cmp_refl|].
  destruct (bytes_cmp k' k) eqn:E; [by apply (cmp_eq bytes_cmp) in E| |];
    by unfold cf_find; destruct (om_find bytes_cmp k' (cf_get (cf_kv_list_ b) column)).
Qed.

(** A merge onto nothing keeps the value; onto a pending merge it combines. *)
Lemma buffer_Merge_spec k v l2 :
  is_doclist v l2 ->
  (forall o t, cf_find (cf_kv_list_ b) (column_num kInvertedIndexColumn) k = Some (o, t) ->
     exists l1, is_doclist o l1 /\ Z.of_nat (length l1 + length l2) < 2 ^ 32) ->
  exists b' v' l', buffer_Merge c b (column_num kInvertedIndexColumn) k v = Some b' /\ buffer_ok b' /\
    is_doclist v' l' /\
    (l' = match cf_find (cf_kv_list_ b) (column_num kInvertedIndexColumn) k with
          | Some (o, _) => write_list (write_list [] (default [] (read_doclist o))) l2
          | None => l2
          end) /\
    forall col k', cf_find (cf_kv_list_ b') col k' =
      if decide (col = column_num kInvertedIndexColumn /\ k' = k) then Some (v', kMerge)
      else cf_find (cf_kv_list_ b) col k'.
Proof.
  intros Hv Hold. set (column := column_num kInvertedIndexColumn) in *.
  pose proof (cf_get_sorted (cf_kv_list_ b) column (proj1 Hok)) as Hs.
  assert (Hfi : forall x k', om_find bytes_cmp k' (om_insert bytes_cmp k x (cf_get (cf_kv_list_ b) column)) =
    if decide (k' = k) then Some x else cf_find (cf_kv_list_ b) column k').
  { intros x k'. destruct (decide (k' = k)) as [->|]; [by apply (om_find_insert_eq bytes_cmp)|].
    by rewrite (om_find_insert_ne bytes_cmp). }
  unfold buffer_Merge. fold column. rewrite Z.eqb_refl. cbn [negb].
  change (om_find bytes_cmp k (cf_get (cf_kv_list_ b) column)) with (cf_find (cf_kv_list_ b) column k).
  destruct (cf_find (cf_kv_list_ b) column k) as [[o t]|] eqn:E.
  - destruct (Hold o t eq_refl) as (l1 & Ho & Hlen).
    destruct (buffer_merge_value_ok c o v l1 l2 Ho Hv Hlen) as (r & -> & Hr). cbn [mbind option_bind].
    eexists _, r, _. split; [done|].
    destruct (buffer_set_ok column k (r, kMerge) (om_insert bytes_cmp k (r, kMerge) (cf_get (cf_kv_list_ b) column))
      (kv_cnt_ b)) as [H1 H2]; [by apply (om_insert_sorted bytes_cmp)|by apply Hfi|split; [done|by eexists]|].
    split; [done|]. split; [done|]. rewrite (is_doclist_read _ _ Ho). split; [done|]. exact H2.
  - unfold om_emplace. change (om_find bytes_cmp k (cf_get (cf_kv_list_ b) column)) with
      (cf_find (cf_kv_list_ b) column k). rewrite E.
    eexists _, v, l2. split; [done|].
    destruct (buffer_set_ok column k (v, kMerge) (om_insert bytes_cmp k (v, kMerge) (cf_get (cf_kv_list_ b) column))
      (u64 (kv_cnt_ b + 1))) as [H1 H2]; [by apply (om_insert_sorted bytes_cmp)|by apply Hfi|split; [done|by eexists]|].
    split; [done|]. split; [done|]. split; [done|]. exact H2.
Qed.
End BufferOps.

Lemma empty_buffer_ok : buffer_ok empty_buffer.
Proof. split; [apply cf_wf_nil|]. split; [done|]. by intros col k e. Qed.

(** ** Flushing a buffer *)

(** A buffer that may hold ranges, too. *)
Definition entries_ok (b : WriteBufferMock) : Prop :=
  cf_wf (cf_kv_list_ b) /\
  forall col k e, cf_find (cf_kv_list_ b) col k = Some e ->
    match e.2 with
    | kUpdate | kDelete => True
    | kMerge => col = column_num kInvertedIndexColumn /\ exists l, is_doclist e.1 l
    | _ => False
    end.

(** A key of the database lies in a range to be deleted. *)
Definition range_hit (b : WriteBufferMock) (db : MockDB) : Prop :=
  exists col ranges r k v, (col, ranges) ∈ cf_delete_keyrange_list_ b /\ r ∈ ranges /\
    cf_find db col k = Some v /\ in_range r.1 r.2 k = true.

Lemma fold_opt_app {A B} (f : B -> A -> option B) l1 l2 b :
  fold_opt f (l1 ++ l2) b = (b ← fold_opt f l1 b; fold_opt f l2 b).
Proof.
  revert b. induction l1 as [|x l1 IH]; intros b; cbn [app fold_opt]; [done|].
  destruct (f b x); [apply IH|done].
Qed.

Section Ranges.
Context (c : DocListCompressionType) (db : MockDB) (Hwf : cf_wf db).

Definition range_messages (b : WriteBufferMock) : list MockData :=
  concat (map (fun c : Z * list (bytes * bytes) =>
    map (fun r : bytes * bytes => mkMockData c.1 r.1 [] kDeleteRange r.2) c.2) (cf_delete_keyrange_list_ b)).

Definition message_hits (d : MockData) : bool :=
  existsb (fun e => in_range (key d) (end_key d) e.1) (cf_get db (column_type d)).

Lemma in_range_messages b d :
  In d (range_messages b) <-> exists col ranges r, (col, ranges) ∈ cf_delete_keyrange_list_ b /\ r ∈ ranges /\
    d = mkMockData col r.1 [] kDeleteRange r.2.
Proof.
  unfold range_messages. rewrite in_concat. split.
  - intros (x & ([col ranges] & <- & Hin)%in_map_iff & (r & <- & Hr)%in_map_iff). exists col, ranges, r.
    split_and!; [by apply list_elem_of_In|by apply list_elem_of_In|done].
  - intros (col & ranges & r & Hin%list_elem_of_In & Hr%list_elem_of_In & ->). eexists. split.
    + apply in_map_iff. by exists (col, ranges).
    + apply in_map_iff. by exists r.
Qed.

(** Range messages leave the database alone or stop the process. *)
Lemma fold_ranges l :
  (forall d, In d l -> type d = kDeleteRange) ->
  fold_opt (parse_one c) l db = if existsb message_hits l then None else Some db.
Proof.
  induction l as [|d l IH]; intros Hl; [done|]. cbn [fold_opt existsb].
  assert (Hp : parse_one c db d = if message_hits d then None else Some db) by (unfold parse_one; by rewrite (Hl d (or_introl eq_refl))).
  rewrite Hp. destruct (message_hits d); [done|]. apply IH. intros d' Hd'. apply Hl. by right.
Qed.

Lemma range_hit_messages b : existsb message_hits (range_messages b) = true <-> range_hit b db.
Proof.
  rewrite existsb_exists. unfold range_hit, message_hits. setoid_rewrite existsb_exists. split.
  - intros (d & (col & ranges & r & Hin & Hr & ->)%in_range_messages & [k v] & He%list_elem_of_In & Hk).
    exists col, ranges, r, k, v. split_and!; [done|done| |done]. apply (om_in_find bytes_cmp); [by apply cf_get_sorted|done].
  - intros (col & ranges & r & k & v & Hin & Hr & Hv & Hk). eexists. split; [apply in_range_messages; by exists col, ranges, r|].
    exists (k, v). split; [|done]. by apply list_elem_of_In, (om_find_in bytes_cmp).
Qed.
End Ranges.

(** The entries are applied; then a range that holds a key stops the process. *)
Lemma mock_Flush_ranges `{MockProtoLaws} c db b :
  cf_wf db -> entries_ok b -> merges_ok db b -> SerializeToString (buffer_messages b) <> None ->
  exists db', cf_wf db' /\
    (forall col k,
       match cf_find (cf_kv_list_ b) col k with
       | None => cf_find db' col k = cf_find db col k
       | Some e => pending_effect c (cf_find db col k) e = Some (cf_find db' col k)
       end) /\
    (range_hit b db' -> mock_FlushBuffer c db b = None) /\
    (~ range_hit b db' -> exists b', mock_FlushBuffer c db b = Some (status_ok, db', b')).
Proof.
  intros Hwf (Hbwf & Hty) Hm Hser. unfold mock_FlushBuffer, buffer_Data, SeriableData.
  destruct (messages_kvs _ Hbwf) as (Hnd & Hdoc & Hall).
  destruct (SerializeToString (buffer_messages b)) as [data|] eqn:E; [|done].
  change (OK status_ok) with true. cbn [data_].
  set (l := concat (map _ (cf_kv_list_ b))) in *. assert (Hmsg : buffer_messages b = l ++ range_messages b) by done.
  destruct (fold_parse_total c l db Hwf Hnd) as [db' Hf].
  { intros d Hd. specialize (Hdoc d Hd) as Hd'. pose proof (Hty _ _ _ Hd') as Ht. cbn in Ht.
    destruct (type d) eqn:Et; try done. destruct Ht as [Hcol _]. split; [done|]. intros o Ho.
    destruct (Hm _ _ _ _ Hd' Ho) as (l1 & l2 & H1 & H2 & Hl).
    destruct (db_merge_value_ok c _ _ _ _ H1 H2 Hl) as (r & Hr & _). by exists r. }
  destruct (fold_parse_spec c _ db db' Hwf Hnd) as (Hwf' & Heff & Hother); [|done|].
  { apply Forall_forall. intros d Hd E'. specialize (Hdoc d Hd) as Hd'.
    pose proof (Hty _ _ _ Hd') as Ht. cbn in Ht. by rewrite E' in Ht. }
  assert (Hparse : ParsePbString c db data =
    if existsb (message_hits db') (range_messages b) then None else Some (status_ok, db')).
  { assert (Hfold : fold_opt (parse_one c) (buffer_messages b) db = if existsb (message_hits db') (range_messages b) then None else Some db').
    { rewrite Hmsg, fold_opt_app, Hf. apply fold_ranges. by intros d (? & ? & ? & _ & _ & ->)%in_range_messages. }
    unfold ParsePbString. destruct data as [|x data].
    - apply Serialize_empty in E. rewrite E in Hfold. cbn [fold_opt] in Hfold. by destruct (existsb _ _); [|injection Hfold as ->].
    - rewrite (Parse_Serialize _ _ E). cbn [mbind option_bind]. rewrite Hfold. by destruct (existsb _ _). }
  exists db'. split; [done|]. split; [|rewrite Hparse, <- (range_hit_messages db' Hwf')].
  - intros col k. destruct (cf_find (cf_kv_list_ b) col k) as [[v t]|] eqn:Ef.
    + specialize (Hall _ _ _ Ef). apply (Heff _ Hall).
    + apply Hother. intros Hin. apply list_elem_of_fmap in Hin as (d & [= -> ->] & Hd).
      specialize (Hdoc d Hd). congruence.
  - destruct (existsb _ _); split; try done. intros _. by eexists.
Qed.

Lemma mock_FlushBuffer_spec `{MockProtoLaws} c db b :
  cf_wf db -> buffer_ok b -> merges_ok db b -> SerializeToString (buffer_messages b) <> None ->
  exists db' b', mock_FlushBuffer c db b = Some (status_ok, db', b') /\ cf_wf db' /\
    forall col k,
      match cf_find (cf_kv_list_ b) col k with
      | None => cf_find db' col k = cf_find db col k
      | Some e => pending_effect c (cf_find db col k) e = Some (cf_find db' col k)
      end.
Proof.
  intros Hwf (Hbwf & Hnr & Hty) Hm Hser. destruct (mock_Flush_ranges c db b Hwf (conj Hbwf Hty) Hm Hser) as (db' & Hwf' & He & _ & Hf).
  destruct Hf as [b' Hf]; [|by exists db', b']. intros (? & ? & ? & ? & ? & Hin & _). rewrite Hnr in Hin. by apply elem_of_nil in Hin.
Qed.

(** ** The write interface *)
Section Interface.
Context `{MockProtoLaws} (c : DocListCompressionType).

Definition mock_write_buffer : WriteBuffer WriteBufferMock := {|
  Put b column key value := (status_ok, buffer_Put b (column_num column) key value);
  Delete b column key := (status_ok, buffer_Delete b (column_num column) key);
  DeleteRange b column begin_key end_key :=
    (status_ok, buffer_DeleteRange b (column_num column) begin_key end_key);
  Merge b column key value := b ← buffer_Merge c b (column_num column) key value; Some (status_ok, b);
  Data := buffer_Data;
  WriteDB.DataSize := DataSize |}.

Definition mock_write_db : WriteDB MockDB WriteBufferMock := {|
  NewWriteBuffer := mock_NewWriteBuffer;
  FlushBuffer := mock_FlushBuffer c |}.

Definition pending_of (e : bytes * MockData_Type) : pending :=
  match e.2 with
  | kUpdate => PPut e.1
  | kDelete => PDelete
  | kMerge => PMerge (default [] (read_doclist e.1))
  | _ => PNone
  end.

Definition mock_pend (b : WriteBufferMock) (column : StorageColumnType) (k : bytes) : pending :=
  match cf_find (cf_kv_list_ b) (column_num column) k with Some e => pending_of e | None => PNone end.

Lemma mock_pend_update b b' column k e :
  (forall col k', cf_find (cf_kv_list_ b') col k' =
     if decide (col = column_num column /\ k' = k) then Some e else cf_find (cf_kv_list_ b) col k') ->
  forall c' k', mock_pend b' c' k' = if decide (c' = column /\ k' = k) then pending_of e else mock_pend b c' k'.
Proof.
  intros Hf c' k'. unfold mock_pend. rewrite Hf. destruct (decide (c' = column /\ k' = k)) as [[-> ->]|Hne].
  - by rewrite decide_True by done.
  - rewrite decide_False by (intros [?%column_num_inj ?]; by apply Hne). done.
Qed.

(** The merged value of the database keeps live entries only. *)
Lemma db_merge_live lo l :
  wf_docs lo -> wf_docs l ->
  let lf := apply_doclist (apply_doclist [] lo) l in
  (forall d, live_find d lf = match om_find Zcmp_desc d l with
                              | Some s => if s =? kDocumentStateDelete then None else Some s
                              | None => live_find d lo
                              end) /\
  (forall e, e ∈ lf -> live e = true).
Proof.
  intros Hlo Hl lf. pose proof (proj1 (apply_doclist_ok [] lo wf_docs_nil Hlo)) as Hm.
  pose proof (proj1 (apply_doclist_ok _ l Hm Hl)) as Hf. fold lf in Hf.
  apply wf_docs_alt in Hlo, Hl, Hm, Hf. destruct Hlo as [Hlo _], Hl as [Hl _], Hm as [Hm _], Hf as [Hf _].
  assert (Hfind : forall d, om_find Zcmp_desc d lf =
    match om_find Zcmp_desc d l with
    | Some s => if s =? kDocumentStateDelete then None else Some s
    | None => live_find d lo
    end).
  { intros d. unfold lf. rewrite om_find_apply_doclist by done. destruct (om_find Zcmp_desc d l); [done|].
    rewrite om_find_apply_doclist by (done || constructor). unfold live_find.
    by destruct (om_find Zcmp_desc d lo). }
  assert (Hlive : forall d s, om_find Zcmp_desc d lf = Some s -> (s =? kDocumentStateDelete) = false).
  { intros d s. rewrite Hfind. unfold live_find. destruct (om_find Zcmp_desc d l) as [s'|].
    - destruct (s' =? kDocumentStateDelete) eqn:E; [done|]. by intros [= <-].
    - destruct (om_find Zcmp_desc d lo) as [s'|]; [|done].
      destruct (s' =? kDocumentStateDelete) eqn:E; [done|]. by intros [= <-]. }
  split.
  - intros d. rewrite <- Hfind. unfold live_find at 1. destruct (om_find Zcmp_desc d lf) as [s|] eqn:E; [|done].
    by rewrite (Hlive d s E).
  - intros [d s] Hin. apply (om_in_find Zcmp_desc) in Hin; [|done]. unfold live. cbn [snd]. by rewrite (Hlive d s Hin).
Qed.

Lemma mock_effect old v t new :
  (forall o, old = Some o -> t = kMerge -> exists lo l, is_doclist o lo /\ is_doclist v l /\
     Z.of_nat (length lo + length l) < 2 ^ 32) ->
  (t = kMerge -> exists l, is_doclist v l) ->
  pending_effect c old (v, t) = Some new -> effect old (pending_of (v, t)) new.
Proof.
  intros Hm Hv. unfold pending_effect, pending_of; cbn [fst snd]. destruct t; try done.
  - by intros [= <-].
  - destruct (Hv eq_refl) as [l Hl]. rewrite (is_doclist_read _ _ Hl). cbn [default from_option id effect].
    destruct old as [o|].
    + destruct (Hm o eq_refl eq_refl) as (lo & l' & Ho & Hl' & Hlen).
      assert (l' = l) as ->.
      { apply is_doclist_read in Hl, Hl'. congruence. }
      destruct (db_merge_value_ok c o v lo l Ho Hl Hlen) as (r & Hr & Hd). rewrite Hr. cbn [mbind option_bind].
      intros [= <-]. destruct (db_merge_live lo l (proj1 Ho) (proj1 Hl)) as [H1 H2].
      exists lo, r, (apply_doclist (apply_doclist [] lo) l). split; [right; exists o; split; [done|exact Ho]|].
      split; [done|]. split; [exact Hd|]. split; [exact H1|]. intros e He. left. by apply H2.
    + intros [= <-]. exists [], v, l. split; [by left|]. split; [done|]. split; [exact Hl|]. split.
      * intros d. unfold live_find. by destruct (om_find Zcmp_desc d l).
      * intros e He. by right.
  - by intros [= <-].
Qed.

Context (Htotal : forall l, SerializeToString l <> None).

(** The mock obeys the laws of the write interface. *)
Program Definition mock_write_laws :
    @WriteLaws MockDB WriteBufferMock mock_db mock_db_laws mock_write_buffer mock_write_db := {|
  wb_ok := buffer_ok; pend := mock_pend; doc_limit := 2 ^ 32 |}.
Next Obligation. done. Qed.
Next Obligation. split; [apply empty_buffer_ok|done]. Qed.
Next Obligation.
  intros b col k v Hb. destruct (buffer_Put_spec b Hb (column_num col) k v) as [H1 H2].
  split; [done|]. intros _. by apply (mock_pend_update b _ col k (v, kUpdate)).
Qed.
Next Obligation.
  intros b col k Hb. destruct (buffer_Delete_spec b Hb (column_num col) k) as [H1 H2].
  split; [done|]. intros _. by apply (mock_pend_update b _ col k ([], kDelete)).
Qed.
Next Obligation.
  intros b k v l1 l2 Hb Hp Hv Hlen.
  assert (Hold : forall o t, cf_find (cf_kv_list_ b) (column_num kInvertedIndexColumn) k = Some (o, t) ->
     exists l1', is_doclist o l1' /\ l1' = l1).
  { intros o t E. unfold mock_pend in Hp. rewrite E in Hp. destruct Hb as (_ & _ & Hb). specialize (Hb _ _ _ E).
    unfold lists_of, pending_of in Hp. cbn [fst snd] in *. destruct t; try (destruct Hp as [?|[? ?]]; done).
    destruct Hb as [_ [l Hl]]. rewrite (is_doclist_read _ _ Hl) in Hp. exists l. split; [done|].
    by destruct Hp as [[= ->]|[? ?]]. }
  destruct (buffer_Merge_spec c b Hb k v l2 Hv) as (b' & v' & l' & Hm & Hok & Hd & Hl' & Hf).
  { intros o t E. destruct (Hold o t E) as (l & Ho & ->). by exists l1. }
  exists status_ok, b'. cbn [Merge mock_write_buffer]. rewrite Hm. split; [done|]. split; [done|]. intros _ c' k'.
  rewrite (mock_pend_update b b' kInvertedIndexColumn k (v', kMerge) Hf). destruct (decide _); [|done].
  unfold pending_of; cbn [fst snd]. rewrite (is_doclist_read _ _ Hd). cbn [default from_option id]. f_equal.
  rewrite Hl'. unfold mock_pend in Hp.
  destruct (cf_find (cf_kv_list_ b) (column_num kInvertedIndexColumn) k) as [[o t]|] eqn:E.
  - destruct (Hold o t eq_refl) as (l & Ho & ->). rewrite (is_doclist_read _ _ Ho). cbn [default from_option id].
    by rewrite (write_list_nil l1 (proj1 Ho)).
  - destruct Hp as [?|[_ ->]]; [done|]. by rewrite (write_list_nil l2 (proj1 Hv)).
Qed.
Next Obligation.
  intros b Hb. cbn [Data mock_write_buffer]. unfold buffer_Data, SeriableData.
  destruct (SerializeToString (buffer_messages b)); done.
Qed.
Next Obligation.
  intros db b Hwf Hb Hm.
  assert (Hmo : forall col k v o, cf_find (cf_kv_list_ b) col k = Some (v, kMerge) -> cf_find db col k = Some o ->
    col = column_num kInvertedIndexColumn /\
    exists l1 l2, is_doclist o l1 /\ is_doclist v l2 /\ Z.of_nat (length l1 + length l2) < 2 ^ 32).
  { intros col k v o E Ho. destruct Hb as (_ & _ & Hb). destruct (Hb _ _ _ E) as [-> [l Hl]]. cbn [fst] in Hl.
    split; [done|].
    destruct (Hm k l) as (lo & Hlo & Hlen).
    { unfold mock_pend. rewrite E. unfold pending_of; cbn [fst snd]. by rewrite (is_doclist_read _ _ Hl). }
    assert (Ho' : om_find bytes_cmp k (mock_content db kInvertedIndexColumn) = Some o) by exact Ho.
    destruct Hlo as [[Hn _]|(o' & Hn & Hlo)]; cbn [content mock_db_laws] in Hn; rewrite Ho' in Hn; [done|].
    injection Hn as <-. exists lo, l. by split. }
  destruct (mock_FlushBuffer_spec c db b Hwf Hb) as (db' & b' & Hf & Hwf' & He);
    [intros col k v o E Ho; by apply (Hmo col k v o)|by apply Htotal|].
  exists status_ok, db', b'. split; [done|]. split; [done|]. cbn. intros col k.
  specialize (He (column_num col) k). unfold mock_pend, mock_content.
  change (om_find bytes_cmp k (cf_get db (column_num col))) with (cf_find db (column_num col) k).
  change (om_find bytes_cmp k (cf_get db' (column_num col))) with (cf_find db' (column_num col) k).
  destruct (cf_find (cf_kv_list_ b) (column_num col) k) as [[v t]|] eqn:E; [|done].
  apply mock_effect; [|intros ->; by apply (proj2 (proj2 Hb) _ _ _ E)|done].
  intros o Ho ->. by apply (Hmo (column_num col) k v o).
Qed.
End Interface.

(** ** A concrete protobuf stand-in *)
#[export] Instance MockData_Type_eq_dec : EqDecision MockData_Type.
Proof. solve_decision. Defined.

Definition type_num (t : MockData_Type) : positive :=
  match t with kUnknown => 1 | kUpdate => 2 | kMerge => 3 | kDelete => 4 | kDeleteRange => 5 end.

Definition type_of_num (p : positive) : option MockData_Type :=
  match p with
  | 1 => Some kUnknown | 2 => Some kUpdate | 3 => Some kMerge
  | 4 => Some kDelete | 5 => Some kDeleteRange | _ => None
  end%positive.

#[export] Instance MockData_Type_countable : Countable MockData_Type.
Proof. refine {| encode := type_num; decode := type_of_num |}. by intros []. Defined.

Definition mock_tuple (d : MockData) : Z * bytes * bytes * MockData_Type * bytes :=
  (column_type d, key d, value d, type d, end_key d).

(** One number that encodes the messages: any injective encoding will do. *)
Definition number_proto : MockProto := {|
  SerializeToString l := Some (match l with [] => [] | _ => [Z.pos (encode (map mock_tuple l))] end);
  ParseFromString data :=
    match data with
    | [] => Some []
    | [Z.pos p] =>
        l ← decode (A := list (Z * bytes * bytes * MockData_Type * bytes)) p;
        Some (map (fun t => match t with (c, k, v, ty, e) => mkMockData c k v ty e end) l)
    | _ => None
    end
|}.

Lemma number_proto_laws : @MockProtoLaws number_proto.
Proof.
  split; cbn.
  - intros [|d l] data [= <-]; [done|]. rewrite decode_encode. cbn [mbind option_bind].
    f_equal. cut (forall l, map (fun t : Z * bytes * bytes * MockData_Type * bytes =>
      match t with (c, k, v, ty, e) => mkMockData c k v ty e end) (map mock_tuple l) = l);
      [intros Hinv; exact (Hinv (d :: l))|].
    clear. intros l. induction l as [|[] l IH]; [done|]. cbn [map]. by rewrite IH.
  - intros [|d l]; by split.
Qed.

(** ** Theorems *)

(** [lf] are the newest states of [l] on top of [lo], without deletions. *)
Definition newest_live (lo l lf : list (Z * Z)) : Prop :=
  om_sorted Zcmp_desc lf /\
  forall d s, (d, s) ∈ lf <-> s <> kDocumentStateDelete /\ ((d, s) ∈ l \/ (d, s) ∈ lo /\ d ∉ map fst l).

(** What an entry of the buffer makes of the value of its key. *)
Definition entry_effect (c : DocListCompressionType) (old : option bytes) (e : bytes * MockData_Type) (new : option bytes) : Prop :=
  match e.2, old with
  | kUpdate, _ => new = Some e.1
  | kDelete, _ => new = None
  | kMerge, None => new = Some e.1
  | kMerge, Some o =>
      exists lo l lf v, read_doclist o = Some lo /\ read_doclist e.1 = Some l /\ newest_live lo l lf /\
        write_doclist c lf = Some v /\ new = Some v
  | _, _ => False
  end.

Lemma apply_doclist_newest lo l :
  wf_docs lo -> wf_docs l -> newest_live lo l (apply_doclist (apply_doclist [] lo) l).
Proof.
  intros Hlo Hl. pose proof (proj1 (apply_doclist_ok [] lo wf_docs_nil Hlo)) as Hm.
  pose proof (proj1 (apply_doclist_ok _ l Hm Hl)) as Hf.
  apply wf_docs_alt in Hlo, Hl, Hm, Hf. destruct Hlo as [Hlo _], Hl as [Hl _], Hm as [Hm _], Hf as [Hf _].
  split; [done|]. intros d s. rewrite <- (om_find_spec Zcmp_desc d s) by done. rewrite om_find_apply_doclist by done.
  assert (Hkey : d ∈ map fst l <-> is_Some (om_find Zcmp_desc d l)).
  { split.
    - intros ([d' s'] & -> & Hin)%list_elem_of_fmap. exists s'. by apply (om_in_find Zcmp_desc).
    - intros [s' E%(om_find_in Zcmp_desc)]. by apply (list_elem_of_fmap_2 fst l (d, s')). }
  rewrite Hkey, <- (om_find_spec Zcmp_desc d s l), <- (om_find_spec Zcmp_desc d s lo) by done.
  destruct (om_find Zcmp_desc d l) as [s'|].
  - destruct (Z.eqb_spec s' kDocumentStateDelete) as [->|Hne]; split.
    + done.
    + intros [Hs [[= <-]|[_ Hn]]]; [done|]. by destruct Hn.
    + intros [= <-]. split; [done|by left].
    + intros [_ [Es|[_ Hn]]]; [done|]. by destruct Hn.
  - rewrite om_find_apply_doclist by (done || constructor). cbn [om_find].
    destruct (om_find Zcmp_desc d lo) as [s'|]; [|split; [done|by intros [_ [?|[? _]]]]].
    destruct (Z.eqb_spec s' kDocumentStateDelete) as [->|Hne]; split.
    + done.
    + by intros [Hs [?|[[= <-] _]]].
    + intros [= <-]. split; [done|right]. split; [done|by intros [? ?]].
    + by intros [_ [?|[? _]]].
Qed.

Lemma pending_entry c db b col k e new :
  entries_ok b -> merges_ok db b -> cf_find (cf_kv_list_ b) col k = Some e ->
  pending_effect c (cf_find db col k) e = Some new -> entry_effect c (cf_find db col k) e new.
Proof.
  intros (_ & Hty) Hm He. pose proof (Hty _ _ _ He) as Ht. destruct e as [v t]. unfold pending_effect, entry_effect.
  cbn [fst snd] in *. destruct t; try done; [by intros [= <-]| |by intros [= <-]].
  destruct (cf_find db col k) as [o|] eqn:Eo; [|by intros [= <-]].
  destruct (Hm _ _ _ _ He Eo) as (lo & l & H1 & H2 & Hlen). unfold db_merge_value.
  rewrite (is_doclist_read _ _ H1), (is_doclist_read _ _ H2). cbn [mbind option_bind].
  destruct (write_doclist c _) as [r|] eqn:Er; cbn [mbind option_bind]; [|done]. intros [= <-].
  exists lo, l, (apply_doclist (apply_doclist [] lo) l), r. split; [done|]. split; [done|]. split; [apply apply_doclist_newest; [apply H1|apply H2]|done].
Qed.

(** C25: flushing a write buffer applies exactly its entries: a put sets the
    value of its key, a delete removes it, a merge onto a missing key stores its
    list, and a merge onto a stored list leaves the list, in order, of the
    states that are newest and no deletions; all other keys are unchanged and
    the database stays well formed.  If after that some key lies in a range
    that the buffer deletes, the map is changed while it is iterated and the
    behaviour is undefined; if none does, the ranges change nothing and the
    flush succeeds. *)
Theorem FlushBuffer_effect `{MockProtoLaws} c db b :
  cf_wf db -> entries_ok b -> merges_ok db b -> SerializeToString (buffer_messages b) <> None ->
  exists db', cf_wf db' /\
    (forall col k,
       match cf_find (cf_kv_list_ b) col k with
       | None => cf_find db' col k = cf_find db col k
       | Some e => entry_effect c (cf_find db col k) e (cf_find db' col k)
       end) /\
    (range_hit b db' -> mock_FlushBuffer c db b = None) /\
    (~ range_hit b db' -> exists b', mock_FlushBuffer c db b = Some (status_ok, db', b')).
Proof.
  intros Hwf Hb Hm Hs. destruct (mock_Flush_ranges c db b Hwf Hb Hm Hs) as (db' & Hwf' & He & Hr). exists db'.
  split; [done|]. split; [|done]. intros col k. specialize (He col k). destruct (cf_find (cf_kv_list_ b) col k) eqn:E; [|done].
  by eapply pending_entry.
Qed.

Definition sample_list (l : list (Z * Z)) : bytes := default [] (write_doclist DocListCompressionFixType l).

Lemma sample_list_ok l :
  wf_docs l -> Z.of_nat (length l) < 2 ^ 32 -> is_doclist (sample_list l) l.
Proof.
  intros Hwf Hlen. destruct (is_doclist_write DocListCompressionFixType l Hwf Hlen) as (v & E & Hv). unfold sample_list.
  by rewrite E.
Qed.

(** A stored field, a document list, and on them a put, a delete, a merge that
    deletes a document and adds one, and a range in another column. *)
Definition sample_stored : MockDB := [(0, [([1; 3], [5])]); (1, [([9], sample_list [(9, 0); (7, 0)])])].

Definition sample_merge (b : WriteBufferMock) : WriteBufferMock :=
  default b (buffer_Merge DocListCompressionFixType b 1 [9] (sample_list [(9, 1); (5, 0)])).

Definition sample_buffer : WriteBufferMock :=
  buffer_DeleteRange (sample_merge (buffer_Delete (buffer_Put empty_buffer 0 [1; 2] [7]) 0 [1; 3])) 2 [1] [2].

Definition sample_flushed : option (list (option bytes)) :=
  '(_, db, _) ← @mock_FlushBuffer number_proto DocListCompressionFixType sample_stored sample_buffer;
  Some [cf_find db 0 [1; 2]; cf_find db 0 [1; 3]; cf_find db 1 [9]].

Lemma sample_entries : entries_ok sample_buffer /\ merges_ok sample_stored sample_buffer.
Proof.
  assert (Hl : is_doclist (sample_list [(9, 1); (5, 0)]) [(9, 1); (5, 0)] /\ is_doclist (sample_list [(9, 0); (7, 0)]) [(9, 0); (7, 0)]).
  { split; (apply sample_list_ok; [|cbn; lia]); apply wf_docs_alt; (split; [repeat constructor|]);
      repeat constructor; cbn; unfold is_u64, NO_MORE_DOCS; cbn; lia. }
  destruct Hl as [Hl1 Hl2].
  destruct (buffer_Put_spec empty_buffer empty_buffer_ok 0 [1; 2] [7]) as [H1 F1].
  set (b1 := buffer_Put empty_buffer 0 [1; 2] [7]) in *.
  destruct (buffer_Delete_spec b1 H1 0 [1; 3]) as [H2 F2]. set (b2 := buffer_Delete b1 0 [1; 3]) in *.
  destruct (buffer_Merge_spec DocListCompressionFixType b2 H2 [9] (sample_list [(9, 1); (5, 0)]) _ Hl1) as (b3 & v & l & E3 & H3 & Hv & El & F3).
  { intros o t. rewrite F2. destruct (decide _) as [[? _]|_]; [done|]. by rewrite F1. }
  assert (Eb : sample_buffer = buffer_DeleteRange b3 2 [1] [2]).
  { assert (E : sample_merge b2 = b3); [|by rewrite <- E].
    transitivity (default b2 (buffer_Merge DocListCompressionFixType b2 (column_num kInvertedIndexColumn) [9] (sample_list [(9, 1); (5, 0)])));
      [done|by rewrite E3]. }
  rewrite Eb. split; [split; apply H3|]. intros col k w o. cbn [buffer_DeleteRange cf_kv_list_]. rewrite F3.
  destruct (decide _) as [[-> ->]|_].
  - intros [= <-] Ho. change (Some (sample_list [(9, 0); (7, 0)]) = Some o) in Ho. injection Ho as <-.
    exists [(9, 0); (7, 0)], l. split; [done|]. split; [done|]. rewrite El, F2. vm_compute. done.
  - rewrite F2. destruct (decide _); [done|]. rewrite F1. by destruct (decide _).
Qed.

Lemma FlushBuffer_effect_witness :
  exists db', cf_wf db' /\
    (forall col k,
       match cf_find (cf_kv_list_ sample_buffer) col k with
       | None => cf_find db' col k = cf_find sample_stored col k
       | Some e => entry_effect DocListCompressionFixType (cf_find sample_stored col k) e (cf_find db' col k)
       end) /\
    (exists b', @mock_FlushBuffer number_proto DocListCompressionFixType sample_stored sample_buffer = Some (status_ok, db', b')) /\
    sample_flushed = Some [Some [7]; None; Some (sample_list [(7, 0); (5, 0)])].
Proof.
  destruct (@FlushBuffer_effect number_proto number_proto_laws DocListCompressionFixType sample_stored sample_buffer)
    as (db' & Hwf & He & _ & Hf); [split; repeat constructor|apply sample_entries|apply sample_entries|done|].
  exists db'. split; [exact Hwf|]. split; [exact He|]. split; [|vm_compute; reflexivity]. apply Hf.
  intros (col & ranges & r & k & v & Hin & _ & Hk & _). specialize (He col k).
  change (cf_delete_keyrange_list_ sample_buffer) with [(2, [([1], [2])])] in Hin. apply list_elem_of_singleton in Hin as [= -> ->].
  change (cf_find (cf_kv_list_ sample_buffer) 2 k) with (@None (bytes * MockData_Type)) in He. by rewrite Hk in He.
Defined.
