(* ===== verification/Query.v ===== *)
(** Queries, weights and scorers ([and_query.cpp], [or_query.cpp],
    [bool_query.cpp], [prefix_query.cpp], the matching [*_weight.cpp] and
    [*_scorer.cpp]).

    A query builds a weight, the weight a scorer, the scorer an iterator.  The
    iterators of a query tree have a type per level: [Iter 0] is a document
    list reader, [Iter (S n)] a reader or a conjunction or disjunction of
    [Iter n].  [GetScorer n] is total on queries of depth at most [n]; [None]
    is a failed [assert] or a query deeper than [n].  A scorer that could not
    be built is the inner [None], with the reason in the status. *)
From Stdlib Require String.
From S2P Require Import Prelude Storage Coding Codec DocList Heap Iterators VirtualDB VirtualDBMock.

(** ** Queries *)
Record BooleanQuery := mkBooleanQuery {
  bq_field_id_ : Z; value_type_ : Z; match_term_ : bytes; match_numeric_ : Z }.

Definition BooleanQuery_term (field_id : Z) (term : bytes) : BooleanQuery :=
  mkBooleanQuery field_id kStringIndexField term 0.
Definition BooleanQuery_uint64 (field_id value : Z) : BooleanQuery :=
  mkBooleanQuery field_id kUint64IndexField [] value.
Definition BooleanQuery_uint32 (field_id value : Z) : BooleanQuery :=
  mkBooleanQuery field_id kUint32IndexField [] value.

Record PrefixQuery := mkPrefixQuery {
  pq_field_id_ : Z; pmatch_term_ : bytes; max_doc_list_size_ : Z }.

Inductive Query :=
| QBoolean (q : BooleanQuery)
| QPrefix (q : PrefixQuery)
| QAnd (sub_query_ : list Query)
| QOr (sub_query_ : list Query).

Fixpoint query_depth (q : Query) : nat :=
  match q with
  | QBoolean _ | QPrefix _ => 0
  | QAnd qs | QOr qs => S (max_list_with query_depth qs)
  end.

(** ** Iterators of a query tree *)
Inductive IterNode (I : Type) :=
| IReader (r : DocListReaderCodec)
| IMerge (m : @MergeIterator I)
| IOr (o : @OrIterator I).
Arguments IReader {I}. Arguments IMerge {I}. Arguments IOr {I}.

#[export] Instance node_iterator {I} `{DocIdSetIterator I} : DocIdSetIterator (IterNode I) := {
  DocID it := match it with IReader r => DocID r | IMerge m => DocID m | IOr o => DocID o end;
  NextDoc it :=
    match it with
    | IReader r => IReader <$> NextDoc r
    | IMerge m => IMerge <$> NextDoc m
    | IOr o => IOr <$> NextDoc o
    end;
  Advance it t :=
    match it with
    | IReader r => IReader <$> Advance r t
    | IMerge m => IMerge <$> Advance m t
    | IOr o => IOr <$> Advance o t
    end;
  FieldId it := match it with IReader r => FieldId r | IMerge m => FieldId m | IOr o => FieldId o end;
  remaining it :=
    match it with IReader r => remaining r | IMerge m => remaining m | IOr o => remaining o end
}.

Definition node_repr {I} `{IteratorLaws I} (it : IterNode I) (l r : list Z) : Prop :=
  match it with IReader x => repr x l r | IMerge x => repr x l r | IOr x => repr x l r end.

#[export] Program Instance node_laws {I} `{IteratorLaws I} : IteratorLaws (IterNode I) :=
  {| repr := node_repr |}.
Next Obligation. intros I ? ? [x|x|x] l r Hr; exact (repr_wf x l r Hr). Qed.
Next Obligation. intros I ? ? [x|x|x] l r Hr; exact (repr_DocID x l r Hr). Qed.
Next Obligation. intros I ? ? [x|x|x] l r Hr; exact (repr_remaining x l r Hr). Qed.
Next Obligation.
  intros I ? ? [x|x|x] l r Hr; destruct (repr_NextDoc x l r Hr) as (it' & r' & E & ? & ?);
    [exists (IReader it'), r'|exists (IMerge it'), r'|exists (IOr it'), r'];
    cbn in E |- *; rewrite ?E; (split; [by simplify_eq|done]).
Qed.
Next Obligation.
  intros I ? ? [x|x|x] l r t Hr Ht Hm; destruct (repr_Advance x l r t Hr Ht Hm) as (it' & r' & E & ? & ?);
    [exists (IReader it'), r'|exists (IMerge it'), r'|exists (IOr it'), r'];
    cbn in E |- *; rewrite E; done.
Qed.
Next Obligation.
  intros I ? ? [x|x|x] l r Hr; destruct (repr_reset x l r Hr) as (it' & E & ?);
    [exists (IReader it')|exists (IMerge it')|exists (IOr it')];
    cbn in E |- *; rewrite E; done.
Qed.

Fixpoint Iter (n : nat) : Type :=
  match n with O => DocListReaderCodec | S n' => IterNode (Iter n') end.

#[export] Instance Iter_iterator n : DocIdSetIterator (Iter n).
Proof. induction n as [|n IH]; cbn [Iter]; typeclasses eauto. Defined.

#[export] Instance Iter_laws n : IteratorLaws (Iter n).
Proof. induction n as [|n IH]; cbn [Iter Iter_iterator nat_rect]; typeclasses eauto. Defined.

(** A reader as an iterator of any level. *)
Definition Iter_reader (n : nat) (r : DocListReaderCodec) : Iter n :=
  match n with O => r | S _ => IReader r end.

(** ** Scorers *)

(** The scorer of each kind of weight, with the iterator it owns. *)
Inductive Scorer (I : Type) :=
| BooleanScorer (iterator_ : DocListReaderCodec)
| PrefixScorer (iterator_ : @OrIterator I)
| AndScorer (iterator_ : @MergeIterator I)
| OrScorer (iterator_ : @OrIterator I).
Arguments BooleanScorer {I}. Arguments PrefixScorer {I}. Arguments AndScorer {I}. Arguments OrScorer {I}.

(** [Scorer::Iterator]: a conjunction or disjunction is finished on every call. *)
Definition Scorer_Iterator {I} `{DocIdSetIterator I} (s : Scorer I) : option (IterNode I) :=
  match s with
  | BooleanScorer it => Some (IReader it)
  | PrefixScorer it => Some (IOr it)
  | AndScorer it => IMerge <$> Merge_FinishAddIterator it
  | OrScorer it => IOr <$> Or_FinishAddIterator it
  end.

(** ** Weights *)
Section Weights.
Context {DB : Type} `{VirtualDB DB} (db : DB) (table : TableID).

(** The key looked up by [BooleanWeight::GetScorer]. *)
Definition BooleanQuery_key (query : BooleanQuery) : option bytes :=
  if value_type_ query =? kStringIndexField then
    Some (EncodeInvertedKey table (bq_field_id_ query) (match_term_ query) [])
  else if value_type_ query =? kUint32IndexField then
    let term := AppendFixed32 [] (match_numeric_ query) in
    Some (EncodeInvertedKey table (bq_field_id_ query) term [])
  else if value_type_ query =? kUint64IndexField then
    let term := AppendFixed64 [] (match_numeric_ query) in
    Some (EncodeInvertedKey table (bq_field_id_ query) term [])
  else None.

Definition BooleanWeight_GetScorer {I} (query : BooleanQuery) (status : SearchStatus) :
    option (SearchStatus * option (Scorer I)) :=
  match BooleanQuery_key query with
  | None => Some (SetStatus kScorerErrorStatus "unknow valuetype"%string, None)
  | Some key =>
      let '(ss, value) := Get db kInvertedIndexColumn key in
      if negb (OK ss) && negb (DocumentNotExist ss) then Some (ss, None)
      else
        let value := if OK ss then value else [] in
        doc_lists ← NewDocListReaderCodec value (bq_field_id_ query);
        Some (status, Some (BooleanScorer doc_lists))
  end.

(** The scan of [PrefixWeight::GetScorer]: the values collected and whether
    the size limit was reached. *)
Fixpoint prefix_scan (entries : list (bytes * bytes)) (prefix_key : bytes)
    (max_doc_list_size total_doc_list_size : Z) (values_ : list bytes) : list bytes * bool :=
  match entries with
  | [] => (values_, false)
  | (k, v) :: entries' =>
      if max_doc_list_size <=? total_doc_list_size then (values_, true)
      else if negb (starts_with prefix_key k) then (values_, false)
      else prefix_scan entries' prefix_key max_doc_list_size
             (u32 (total_doc_list_size + Z.of_nat (length v))) (values_ ++ [v])
  end.

(** The message is formatted from the limit and the size. *)
Definition PrefixWeight_GetScorer (n : nat) (query : PrefixQuery) (status : SearchStatus) :
    option (SearchStatus * option (Scorer (Iter n))) :=
  let prefix_key := EncodeInvertedKey table (pq_field_id_ query) (pmatch_term_ query) [] in
  let '(values_, reached) :=
    prefix_scan (Seek db kInvertedIndexColumn prefix_key) prefix_key (max_doc_list_size_ query) 0 [] in
  let status := if reached then SetStatus kReachMaxDocListSizeLimit "PrefixWeight::GetScorer"%string else status in
  readers ← mapM (fun v => NewDocListReaderCodec v (pq_field_id_ query)) values_;
  let or_iterator :=
    fold_left (fun o r => Or_AddSubIterator o (Iter_reader n r)) readers (mkOrIterator []) in
  or_iterator ← Or_FinishAddIterator or_iterator;
  Some (status, Some (PrefixScorer or_iterator)).

(** The loop of [AndWeight::GetScorer] and [OrWeight::GetScorer]: the
    iterators of the sub scorers, in order; a sub scorer that could not be
    built stops it. *)
Fixpoint sub_iterators {I} `{DocIdSetIterator I}
    (GetScorer : Query -> SearchStatus -> option (SearchStatus * option (Scorer I)))
    (qs : list Query) (status : SearchStatus) : option (SearchStatus * option (list (IterNode I))) :=
  match qs with
  | [] => Some (status, Some [])
  | q :: qs' =>
      '(status, s) ← GetScorer q status;
      match s with
      | None => Some (status, None)
      | Some s =>
          it ← Scorer_Iterator s;
          '(status, its) ← sub_iterators GetScorer qs' status;
          Some (status, option_map (cons it) its)
      end
  end.

Fixpoint GetScorer (n : nat) (q : Query) (status : SearchStatus) {struct n} :
    option (SearchStatus * option (Scorer (Iter n))) :=
  match q with
  | QBoolean q => BooleanWeight_GetScorer q status
  | QPrefix q => PrefixWeight_GetScorer n q status
  | QAnd qs =>
      match n with
      | O => None
      | S n' =>
          '(status, its) ← sub_iterators (I := Iter n') (GetScorer n') qs status;
          Some (status, option_map (fun its : list (Iter (S n')) =>
            AndScorer (I := Iter (S n')) (fold_left Merge_AddSubIterator its new_merge_iterator)) its)
      end
  | QOr qs =>
      match n with
      | O => None
      | S n' =>
          '(status, its) ← sub_iterators (I := Iter n') (GetScorer n') qs status;
          Some (status, option_map (fun its : list (Iter (S n')) =>
            OrScorer (I := Iter (S n')) (fold_left Or_AddSubIterator its (mkOrIterator []))) its)
      end
  end.

(** What [Searcher::DoQuery] iterates: the ids and fields a query matches. *)
Definition run_query (q : Query) : option (SearchStatus * option (list (Z * Z))) :=
  '(status, s) ← GetScorer (query_depth q) q status_ok;
  match s with
  | None => Some (status, None)
  | Some s =>
      it ← Scorer_Iterator s;
      out ← collect (remaining it) it;
      Some (status, Some out)
  end.
End Weights.

(** ** What a query means *)

(** The ids of a stored list. *)
Definition posting (v : bytes) : list Z := map fst (default [] (read_doclist v)).

(** The ids matched by a query in the inverted column [m]. *)
Fixpoint eval (m : list (bytes * bytes)) (table : TableID) (q : Query) : list Z :=
  match q with
  | QBoolean q =>
      match BooleanQuery_key table q with
      | Some key => match om_find bytes_cmp key m with Some v => posting v | None => [] end
      | None => []
      end
  | QPrefix q =>
      let prefix_key := EncodeInvertedKey table (pq_field_id_ q) (pmatch_term_ q) [] in
      union_ids (map (fun e => posting e.2) (with_prefix prefix_key m))
  | QAnd qs => inter (map (eval m table) qs)
  | QOr qs => union_ids (map (eval m table) qs)
  end.

(** Every stored value is a document list. *)
Definition index_ok (m : list (bytes * bytes)) : Prop :=
  Forall (fun e => exists c docs, wf_docs docs /\ Z.of_nat (length docs) < 2 ^ 32 /\
                     write_doclist c docs = Some e.2) m.

(** The value types are known, and no prefix reaches its size limit. *)
Fixpoint query_ok (m : list (bytes * bytes)) (table : TableID) (q : Query) : bool :=
  match q with
  | QBoolean q => (kUint32IndexField <=? value_type_ q) && (value_type_ q <=? kStringIndexField)
  | QPrefix q =>
      let prefix_key := EncodeInvertedKey table (pq_field_id_ q) (pmatch_term_ q) [] in
      (Z.of_nat (sum_list_with (fun e : bytes * bytes => length e.2) (with_prefix prefix_key m))
         <? max_doc_list_size_ q) && (max_doc_list_size_ q <? 2 ^ 32)
  | QAnd qs | QOr qs => forallb (query_ok m table) qs
  end.

Lemma index_value_reader m k v f :
  index_ok m -> (k, v) ∈ m ->
  exists r, NewDocListReaderCodec v f = Some r /\ repr r (posting v) (posting v).
Proof.
  intros Hok Hin. unfold index_ok in Hok. rewrite Forall_forall in Hok.
  destruct (Hok _ Hin) as (c & docs & Hwf & Hlen & Hw). cbn [snd] in Hw.
  destruct (NewDocListReaderCodec_spec c docs f) as (data & Hw' & Hr); [apply Hwf|done|].
  rewrite Hw in Hw'. injection Hw' as <-.
  destruct (read_doclist_spec c docs Hwf Hlen) as (data & Hw' & Hrd). rewrite Hw in Hw'. injection Hw' as <-.
  exists (reader_of docs 0 f). split; [done|]. unfold posting. rewrite Hrd. by apply reader_repr_start.
Qed.

Lemma Iter_reader_repr n r l l' : repr r l l' -> repr (Iter_reader n r) l l'.
Proof. by destruct n. Qed.

Section Queries.
Context {DB : Type} `{VirtualDBLaws DB} (db : DB) (table : TableID).
Let m := content db kInvertedIndexColumn.
Context (Hdb : db_wf db) (Hindex : index_ok m).

Definition scorer_repr {I} `{IteratorLaws I} (s : Scorer I) (l : list Z) : Prop :=
  exists it, Scorer_Iterator s = Some it /\ repr it l l.

Lemma prefix_scan_spec entries p max total acc :
  0 <= total -> max < 2 ^ 32 ->
  total + Z.of_nat (sum_list_with (fun e => length e.2) (take_prefix p entries)) < max ->
  prefix_scan entries p max total acc = (acc ++ map snd (take_prefix p entries), false).
Proof.
  revert total acc. induction entries as [|[k v] entries IH]; intros total acc Ht Hm Hs; cbn [prefix_scan take_prefix].
  { by rewrite app_nil_r. }
  cbn [take_prefix fst] in Hs. destruct (starts_with p k) eqn:E; cbn [negb fst].
  - cbn in Hs. destruct (Z.leb_spec max total); [lia|]. unfold u32. rewrite Z.mod_small by lia.
    rewrite IH by lia. cbn. by rewrite <- app_assoc, E.
  - cbn in Hs. destruct (Z.leb_spec max total); [lia|]. by rewrite E, app_nil_r.
Qed.

Lemma mapM_readers f vs :
  Forall (fun v => exists k, (k, v) ∈ m) vs ->
  exists rs, mapM (fun v => NewDocListReaderCodec v f) vs = Some rs /\
    Forall2 (fun r v => repr r (posting v) (posting v)) rs vs.
Proof.
  induction 1 as [|v vs [k Hk] _ (rs & IH & IHf)]; [by exists []|].
  destruct (index_value_reader m k v f Hindex Hk) as (r & Hr & Hrep). exists (r :: rs). cbn. rewrite Hr.
  cbn [mbind option_bind]. rewrite IH. split; [done|]. by constructor.
Qed.

Lemma Or_AddSubIterators {I} (o : @OrIterator I) its :
  osub_iterator_ (fold_left Or_AddSubIterator its o) = osub_iterator_ o ++ its.
Proof.
  revert o. induction its as [|it its IH]; intros o; simpl; [by rewrite app_nil_r|].
  rewrite IH. simpl. by rewrite <- app_assoc.
Qed.

Lemma Merge_AddSubIterators {I} (o : @MergeIterator I) its :
  sub_iterator_ (fold_left Merge_AddSubIterator its o) = sub_iterator_ o ++ its.
Proof.
  revert o. induction its as [|it its IH]; intros o; simpl; [by rewrite app_nil_r|].
  rewrite IH. simpl. by rewrite <- app_assoc.
Qed.

Lemma BooleanWeight_spec {I} `{IteratorLaws I} q status :
  query_ok m table (QBoolean q) = true ->
  exists s, BooleanWeight_GetScorer (I := I) db table q status = Some (status, Some s) /\
    scorer_repr s (eval m table (QBoolean q)).
Proof.
  intros Hq. unfold BooleanWeight_GetScorer. cbn [eval query_ok] in *.
  assert (exists key, BooleanQuery_key table q = Some key) as [key ->].
  { unfold BooleanQuery_key, kUint32IndexField, kUint64IndexField, kStringIndexField in *.
    apply andb_true_iff in Hq as [Hq1%Z.leb_le Hq2%Z.leb_le].
    assert (value_type_ q = 1 \/ value_type_ q = 2 \/ value_type_ q = 3) as [-> |[-> | ->]] by lia; by eexists. }
  rewrite Get_content by done. fold m. destruct (om_find bytes_cmp key m) as [v|] eqn:E.
  - apply om_find_in in E; [|typeclasses eauto].
    destruct (index_value_reader m key v (bq_field_id_ q) Hindex E) as (r & Hr & Hrep).
    change (OK status_ok) with true. cbn [negb andb]. rewrite Hr.
    eexists. split; [done|]. by eexists.
  - eexists. split; [done|]. eexists. split; [done|]. apply (reader_repr_start [] (bq_field_id_ q)).
    repeat split; repeat constructor.
Qed.

Lemma PrefixWeight_spec n q status :
  query_ok m table (QPrefix q) = true ->
  exists s, PrefixWeight_GetScorer db table n q status = Some (status, Some s) /\
    scorer_repr s (eval m table (QPrefix q)).
Proof.
  cbn [query_ok eval]. set (p := EncodeInvertedKey table (pq_field_id_ q) (pmatch_term_ q) []).
  intros Hq. apply andb_true_iff in Hq as [Hq1%Z.ltb_lt Hq2%Z.ltb_lt].
  assert (Hscan : take_prefix p (Seek db kInvertedIndexColumn p) = with_prefix p m).
  { rewrite Seek_content by done. by apply take_prefix_seek, content_sorted. }
  unfold PrefixWeight_GetScorer. fold p.
  rewrite (prefix_scan_spec _ p (max_doc_list_size_ q) 0 []) by (rewrite ?Hscan; lia).
  rewrite Hscan, app_nil_l.
  destruct (mapM_readers (pq_field_id_ q) (map snd (with_prefix p m))) as (rs & Hrs & Hrep).
  { apply Forall_forall. intros v Hv. apply list_elem_of_fmap in Hv as ([k v'] & -> & Hin). exists k.
    eapply elem_of_sublist; [exact Hin|]. apply sublist_list_filter. }
  rewrite Hrs. cbn [mbind option_bind].
  set (its := map (Iter_reader n) rs).
  assert (Hfold : forall o, fold_left (fun o r => Or_AddSubIterator o (Iter_reader n r)) rs o =
                            fold_left Or_AddSubIterator its o).
  { unfold its. clear. induction rs as [|r rs IH]; intros o; [done|]. apply IH. }
  rewrite Hfold.
  set (gs := map (fun e : bytes * bytes => (posting e.2, posting e.2)) (with_prefix p m)).
  destruct (Or_FinishAddIterator_spec (fold_left Or_AddSubIterator its (mkOrIterator [])) gs) as (o & Ho & Hor).
  { rewrite Or_AddSubIterators. cbn [osub_iterator_ app]. unfold gs, its. clear -Hrep.
    revert rs Hrep. generalize (with_prefix p m) as es.
    induction es as [|e es IH]; intros rs Hrep; inversion Hrep as [|r v rs' vs Hr Hrs]; subst; constructor.
    - by apply Iter_reader_repr.
    - by apply IH. }
  assert (E : gs.*1 = map (fun e : bytes * bytes => posting e.2) (with_prefix p m)).
  { unfold gs. change (fmap (M := list) fst) with (map (@fst (list Z) (list Z))). by rewrite map_map. }
  rewrite Ho. cbn [mbind option_bind]. eexists. split; [done|]. eexists. split; [done|].
  rewrite E in Hor. exact Hor.
Qed.

Lemma sub_iterators_spec {I} `{IteratorLaws I} (G : Query -> SearchStatus -> option (SearchStatus * option (Scorer I)))
    qs status :
  Forall (fun q => forall status, exists s, G q status = Some (status, Some s) /\
                     scorer_repr s (eval m table q)) qs ->
  exists its, sub_iterators G qs status = Some (status, Some its) /\
    Forall2 R its (map (fun l => (l, l)) (map (eval m table) qs)).
Proof.
  induction 1 as [|q qs Hq _ IH]; [by exists []|].
  destruct (Hq status) as (s & HG & it & Hit & Hrep). destruct IH as (its & IH & IHf).
  exists (it :: its). cbn [sub_iterators]. rewrite HG. cbn [mbind option_bind]. rewrite Hit. cbn [mbind option_bind].
  rewrite IH. split; [done|]. by constructor.
Qed.

Lemma pairs_fst (ls : list (list Z)) : (map (fun l => (l, l)) ls).*1 = ls.
Proof. induction ls as [|l ls IH]; [done|]. cbn. by rewrite IH. Qed.

Lemma pairs_snd (ls : list (list Z)) : (map (fun l => (l, l)) ls).*2 = ls.
Proof. induction ls as [|l ls IH]; [done|]. cbn. by rewrite IH. Qed.

Lemma max_list_with_le {A} (f : A -> nat) l n :
  (max_list_with f l <= n)%nat -> Forall (fun x => (f x <= n)%nat) l.
Proof. induction l as [|x l IH]; simpl; intros Hn; constructor; [lia|apply IH; lia]. Qed.

Lemma GetScorer_spec n q status :
  (query_depth q <= n)%nat -> query_ok m table q = true ->
  exists s, GetScorer db table n q status = Some (status, Some s) /\ scorer_repr s (eval m table q).
Proof.
  revert q status. induction n as [|n IH]; intros q status Hd Hq;
    (destruct q as [q|q|qs|qs]; [by apply BooleanWeight_spec|by apply PrefixWeight_spec| |]);
    cbn [query_depth] in Hd; try lia.
  all: assert (Hsub : Forall (fun q => forall status, exists s,
         GetScorer db table n q status = Some (status, Some s) /\ scorer_repr s (eval m table q)) qs)
    by (cbn [query_ok] in Hq; rewrite forallb_forall in Hq;
        pose proof (max_list_with_le query_depth qs n ltac:(lia)) as Hd'; rewrite Forall_forall in Hd';
        apply Forall_forall; intros q Hin st; apply IH; [by apply Hd'|apply Hq; by apply list_elem_of_In]).
  all: destruct (sub_iterators_spec (GetScorer db table n) qs status Hsub) as (its & Hits & HR).
  all: cbn [GetScorer eval]; rewrite Hits; cbn [mbind option_bind option_map].
  all: eexists; split; [done|]; unfold scorer_repr, Scorer_Iterator.
  - edestruct (Merge_FinishAddIterator_spec (fold_left Merge_AddSubIterator its new_merge_iterator))
      as (it & Hit & Hr); [by rewrite Merge_AddSubIterators|].
    exists (IMerge it). rewrite pairs_snd in Hr.
    split; [exact (f_equal (fmap IMerge) Hit)|exact Hr].
  - edestruct (Or_FinishAddIterator_spec (fold_left Or_AddSubIterator its (mkOrIterator [])))
      as (it & Hit & Hr); [by rewrite Or_AddSubIterators|].
    exists (IOr it). rewrite pairs_fst in Hr.
    split; [exact (f_equal (fmap IOr) Hit)|exact Hr].
Qed.
End Queries.

(** ** Theorems *)

(** C7: a query over a well-formed inverted column builds its scorer without an
    error, and the iterator the searcher walks returns exactly the ids the
    query means, each once, in decreasing order: a term its posting list, a
    prefix the union of the lists of all terms with that prefix, [AND] the
    intersection and [OR] the union, nested to any depth. *)
Theorem run_query_correct {DB} `{VirtualDBLaws DB} (db : DB) table q :
  db_wf db -> index_ok (content db kInvertedIndexColumn) ->
  query_ok (content db kInvertedIndexColumn) table q = true ->
  exists out, run_query db table q = Some (status_ok, Some out) /\
    map fst out = eval (content db kInvertedIndexColumn) table q /\ wf_ids (map fst out).
Proof.
  intros Hdb Hidx Hq.
  destruct (GetScorer_spec db table Hdb Hidx (query_depth q) q status_ok (le_n _) Hq) as (s & Hs & it & Hit & Hr).
  unfold run_query. rewrite Hs. cbn [mbind option_bind]. rewrite Hit. cbn [mbind option_bind].
  edestruct (collect_repr (remaining it) it) as (out & Hc & Hm); [exact Hr|exact (repr_remaining it _ _ Hr)|].
  rewrite Hc. exists out. split; [done|]. split; [done|]. rewrite Hm. apply (repr_wf it _ _ Hr).
Qed.

(** An index built from lists. *)
Definition index_of (l : list (bytes * list (Z * Z))) : list (bytes * bytes) :=
  foldr (fun e m => om_insert bytes_cmp e.1 (default [] (write_doclist DocListCompressionFixType e.2)) m) [] l.

Lemma index_of_sorted l : om_sorted bytes_cmp (index_of l).
Proof. induction l as [|e l IH]; [constructor|]. by apply (om_insert_sorted bytes_cmp). Qed.

Lemma index_of_ok l :
  Forall (fun e => wf_docs e.2 /\ Z.of_nat (length e.2) < 2 ^ 32) l -> index_ok (index_of l).
Proof.
  induction 1 as [|e l [Hwf Hlen] _ IH]; [constructor|]. apply Forall_forall. intros [k v] Hin.
  apply (om_insert_in bytes_cmp) in Hin as [[= -> ->]|Hin].
  - exists DocListCompressionFixType, e.2. rewrite write_doclist_fix by apply Hwf. done.
  - unfold index_ok in IH. rewrite Forall_forall in IH. exact (IH _ Hin).
Qed.

Definition sample_table : TableID := mkTable 1 2.

Definition sample_index : list (bytes * bytes) := index_of
  [(EncodeInvertedKey sample_table 3 [97; 98] [], [(9, 0); (7, 0); (2, 0)]);
   (EncodeInvertedKey sample_table 3 [97; 99] [], [(8, 0); (7, 0)]);
   (EncodeInvertedKey sample_table 3 [98] [], [(6, 0); (5, 0)]);
   (EncodeInvertedKey sample_table 4 (AppendFixed32 [] 5) [], [(8, 0); (6, 0); (2, 0)])].

Definition sample_query : Query :=
  QAnd [QPrefix (mkPrefixQuery 3 [97] 1000000);
        QOr [QBoolean (BooleanQuery_uint32 4 5); QBoolean (BooleanQuery_term 3 [98])]].

Lemma run_query_correct_witness :
  exists out, run_query ([(1, sample_index)] : MockDB) sample_table sample_query = Some (status_ok, Some out) /\
    map fst out = [8; 2].
Proof.
  destruct (run_query_correct ([(1, sample_index)] : MockDB) sample_table sample_query) as (out & H1 & H2 & _).
  - split; [repeat constructor|]. apply Forall_cons; split; [apply index_of_sorted|constructor].
  - apply index_of_ok. repeat apply Forall_cons_2; [..|constructor]; cbn [snd];
      (split; [|simpl; lia]); unfold wf_docs, wf_entries, entry_gt, NO_MORE_DOCS;
      repeat split; repeat constructor; simpl; try lia; unfold is_u64; simpl; lia.
  - vm_compute. reflexivity.
  - exists out. split; [exact H1|]. rewrite H2. vm_compute. reflexivity.
Defined.
