(* ===== verification/Document.v ===== *)
(** Fields and documents ([index_field.cpp], [document.cpp]) and their stored
    form.

    A document is serialized as a protobuf message; the message is a record
    here, its wire format is the parameter [StoreProto] with its documented
    round trip [StoreProtoLaws], which [WireStore] proves of the generated
    message. *)
From stdpp Require Import countable.
From S2P Require Import Prelude Storage.

(** ** Flags *)
Definition kTokenizeFieldFlag : Z := Z.shiftl 1 0.
Definition kStoreFieldFlag : Z := Z.shiftl 1 1.
Definition kDocValueFieldFlag : Z := Z.shiftl 1 2.
Definition kSuffixBuildFlag : Z := Z.shiftl 1 3.
Definition kInvertIndexFieldFlag : Z := Z.shiftl 1 4.
Definition kNotStoreInvertTermFieldFlag : Z := Z.shiftl 1 5.

(** [IndexFieldFlag]: one unsigned byte. *)
Definition IndexFieldFlag := Z.

Definition set_flag (bit flag_ : Z) : IndexFieldFlag := u8 (Z.lor flag_ bit).
Definition has_flag (bit flag_ : Z) : bool := negb (Z.land flag_ bit =? 0).

Definition SetTokenize : IndexFieldFlag -> IndexFieldFlag := set_flag kTokenizeFieldFlag.
Definition Tokenize : IndexFieldFlag -> bool := has_flag kTokenizeFieldFlag.
Definition SetStoredField : IndexFieldFlag -> IndexFieldFlag := set_flag kStoreFieldFlag.
Definition StoredField : IndexFieldFlag -> bool := has_flag kStoreFieldFlag.
Definition SetDocValue : IndexFieldFlag -> IndexFieldFlag := set_flag kDocValueFieldFlag.
Definition DocValue : IndexFieldFlag -> bool := has_flag kDocValueFieldFlag.
Definition SetSuffixBuild : IndexFieldFlag -> IndexFieldFlag := set_flag kSuffixBuildFlag.
Definition SuffixBuild : IndexFieldFlag -> bool := has_flag kSuffixBuildFlag.
Definition SetInvertIndex : IndexFieldFlag -> IndexFieldFlag := set_flag kInvertIndexFieldFlag.
Definition InvertIndex : IndexFieldFlag -> bool := has_flag kInvertIndexFieldFlag.
Definition SetNotStoreInvertTerm : IndexFieldFlag -> IndexFieldFlag := set_flag kNotStoreInvertTermFieldFlag.
Definition NotStoreInvertTerm : IndexFieldFlag -> bool := has_flag kNotStoreInvertTermFieldFlag.

(** ** Fields *)
Record IndexField := mkField {
  field_id_ : Z;
  field_flag_ : IndexFieldFlag;
  field_type_ : Z;
  numeric_value_ : Z;
  string_value_ : bytes;
  use_outer_segment_terms_ : bool;
  terms_ : list bytes;          (* std::set, sorted *)
  suffix_len_ : Z;
  numeric_list_ : list Z
}.

(** The constructor; [field_id_] is the byte of -1. *)
Definition new_field : IndexField := mkField (u8 (-1)) 0 kIndexFieldUnknowType 0 [] false [] 0 [].

Definition SetMeta (f : IndexField) (field_id : Z) (flag : IndexFieldFlag) : IndexField :=
  mkField field_id flag (field_type_ f) (numeric_value_ f) (string_value_ f)
    (use_outer_segment_terms_ f) (terms_ f) (suffix_len_ f) (numeric_list_ f).

Definition SetUint32 (f : IndexField) (value : Z) : IndexField :=
  mkField (field_id_ f) (field_flag_ f) kUint32IndexField value (string_value_ f)
    (use_outer_segment_terms_ f) (terms_ f) (suffix_len_ f) (numeric_list_ f).

Definition SetUint64 (f : IndexField) (value : Z) : IndexField :=
  mkField (field_id_ f) (field_flag_ f) kUint64IndexField value (string_value_ f)
    (use_outer_segment_terms_ f) (terms_ f) (suffix_len_ f) (numeric_list_ f).

Definition SetString (f : IndexField) (value : bytes) : IndexField :=
  mkField (field_id_ f) (field_flag_ f) kStringIndexField (numeric_value_ f) value
    (use_outer_segment_terms_ f) (terms_ f) (suffix_len_ f) (numeric_list_ f).

Definition SetNumericList (f : IndexField) (numeric_list : list Z) : IndexField :=
  mkField (field_id_ f) (field_flag_ f) kUint64IndexField (numeric_value_ f) (string_value_ f)
    (use_outer_segment_terms_ f) (terms_ f) (suffix_len_ f) numeric_list.

Definition SetSegmentTerms (f : IndexField) (terms : list bytes) : IndexField :=
  mkField (field_id_ f) (field_flag_ f) (field_type_ f) (numeric_value_ f) (string_value_ f)
    true terms (suffix_len_ f) (numeric_list_ f).

Definition SetSuffixLen (f : IndexField) (suffix_len : Z) : IndexField :=
  mkField (field_id_ f) (field_flag_ f) (field_type_ f) (numeric_value_ f) (string_value_ f)
    (use_outer_segment_terms_ f) (terms_ f) suffix_len (numeric_list_ f).

(** [Terms()] gives the tokenizer write access to the set. *)
Definition set_terms (f : IndexField) (terms : list bytes) : IndexField :=
  mkField (field_id_ f) (field_flag_ f) (field_type_ f) (numeric_value_ f) (string_value_ f)
    (use_outer_segment_terms_ f) terms (suffix_len_ f) (numeric_list_ f).

(** [CopyFrom] copies every member. *)
Definition CopyFrom (this obj : IndexField) : IndexField :=
  mkField (field_id_ obj) (field_flag_ obj) (field_type_ obj) (numeric_value_ obj) (string_value_ obj)
    (use_outer_segment_terms_ obj) (terms_ obj) (suffix_len_ obj) (numeric_list_ obj).

(** ** The stored message of a field *)
Record StoreIndexField := mkStoreField {
  pb_field_id : Z; pb_field_flag : Z; pb_field_type : Z;
  pb_numeric_value : option Z; pb_string_value : option bytes;
  pb_terms : list bytes; pb_suffix_len : option Z }.

(** [flag] 0 stores the field, 1 only its doc value. *)
Definition EncodeToStoreField (f : IndexField) (flag : Z) : StoreIndexField :=
  let need_value := if flag =? 0 then StoredField (field_flag_ f) else DocValue (field_flag_ f) in
  let string_value :=
    if need_value && (field_type_ f =? kStringIndexField) then Some (string_value_ f) else None in
  let numeric_value :=
    if need_value && ((field_type_ f =? kUint32IndexField) || (field_type_ f =? kUint64IndexField))
    then Some (numeric_value_ f) else None in
  let not_store_invert_terms := NotStoreInvertTerm (field_flag_ f) in
  let terms := if (flag =? 0) && negb not_store_invert_terms then terms_ f else [] in
  mkStoreField (field_id_ f) (field_flag_ f) (field_type_ f) numeric_value string_value terms
    (if suffix_len_ f =? 0 then None else Some (suffix_len_ f)).

Definition DecodeFromStoreField (this : IndexField) (field : StoreIndexField) : IndexField :=
  let flag := u8 (pb_field_flag field) in
  let type := pb_field_type field in
  let need_value := StoredField flag || DocValue flag in
  let string_value :=
    if need_value && (type =? kStringIndexField) then default [] (pb_string_value field)
    else string_value_ this in
  let numeric_value :=
    if need_value && ((type =? kUint32IndexField) || (type =? kUint64IndexField))
    then default 0 (pb_numeric_value field) else numeric_value_ this in
  let terms := os_inserts bytes_cmp (pb_terms field) (terms_ this) in
  let suffix_len :=
    if SuffixBuild flag then
      let l := match pb_suffix_len field with Some l => l | None => suffix_len_ this end in
      if l =? 0 then 5 else l
    else suffix_len_ this in
  mkField (u8 (pb_field_id field)) flag type numeric_value string_value
    (use_outer_segment_terms_ this) terms suffix_len (numeric_list_ this).

(** ** Documents *)
Record StoreDocument := mkStoreDocument { pb_document_id : Z; pb_fields : list StoreIndexField }.

Class StoreProto := {
  SerializeDocument : StoreDocument -> option bytes;
  ParseDocument : bytes -> option StoreDocument
}.

Class StoreProtoLaws `{StoreProto} : Prop := {
  ParseDocument_Serialize d data : SerializeDocument d = Some data -> ParseDocument data = Some d
}.

(** The score is a floating point number that only post scoring writes; it is
    not modelled. *)
Record Document := mkDocument { fields_ : list IndexField; document_id_ : Z; match_field_id_ : Z }.

(** The identifier is indeterminate until [SetID], a deserialization or
    [BuildDocValue] writes it. *)
Definition new_document : Document := mkDocument [] 0 (-1).

Definition AddField (d : Document) (f : IndexField) : Document :=
  mkDocument (fields_ d ++ [f]) (document_id_ d) (match_field_id_ d).
Definition ClearField (d : Document) : Document := mkDocument [] (document_id_ d) (match_field_id_ d).
Definition SetID (d : Document) (id : Z) : Document := mkDocument (fields_ d) id (match_field_id_ d).
Definition SetMatchFieldID (d : Document) (id : Z) : Document := mkDocument (fields_ d) (document_id_ d) id.

(** The first field with the identifier. *)
Definition FindField (d : Document) (field_id : Z) : option IndexField :=
  List.find (fun f => field_id =? field_id_ f) (fields_ d).

Definition BuildDocValue (this document : Document) : Document :=
  let this := SetID this (document_id_ document) in
  fold_left (fun d field => if DocValue (field_flag_ field) then AddField d (CopyFrom new_field field) else d)
    (fields_ document) this.

(** The fields of the message for a mode, and [have_field]. *)
Definition store_fields (d : Document) (flag : Z) : list StoreIndexField :=
  if flag =? 1 then map (fun f => EncodeToStoreField f 1) (List.filter (fun f => DocValue (field_flag_ f)) (fields_ d))
  else map (fun f => EncodeToStoreField f 0) (fields_ d).

Definition SerializeToBytes `{StoreProto} (d : Document) (flag : Z) : option bytes * bool :=
  let fields := store_fields d flag in
  (SerializeDocument (mkStoreDocument (document_id_ d) fields),
   negb (match fields with [] => true | _ => false end)).

Definition DeSerializeFromByte `{StoreProto} (d : Document) (buffer : bytes) : option Document :=
  document ← ParseDocument buffer;
  let d := SetID d (pb_document_id document) in
  Some (fold_left (fun d f => AddField d (DecodeFromStoreField new_field f)) (pb_fields document) d).

Definition EncodeToPBDocument (d : Document) : StoreDocument :=
  mkStoreDocument (document_id_ d) (map (fun f => EncodeToStoreField f 0) (fields_ d)).

(** ** Updaters *)
Inductive kDocumentUpdaterType :=
| kDocumentAddType | kDocumentUpdateType | kDocumentAddOrUpdateType | kDocumentDeleteType
| kDocumentReplaceType | kDocumentAddWithoutReadType.

#[export] Instance updater_type_eq_dec : EqDecision kDocumentUpdaterType.
Proof. solve_decision. Defined.

Record DocumentUpdater := mkUpdater {
  status_ : SearchStatus;
  old_document_ : Document;
  new_document_ : Document;
  old_docvalue_document_ : Document;
  new_docvalue_document_ : Document;
  update_type_ : kDocumentUpdaterType }.

Definition set_status (u : DocumentUpdater) (s : SearchStatus) : DocumentUpdater :=
  mkUpdater s (old_document_ u) (new_document_ u) (old_docvalue_document_ u) (new_docvalue_document_ u) (update_type_ u).
Definition set_old (u : DocumentUpdater) (d : Document) : DocumentUpdater :=
  mkUpdater (status_ u) d (new_document_ u) (old_docvalue_document_ u) (new_docvalue_document_ u) (update_type_ u).
Definition set_new (u : DocumentUpdater) (d : Document) : DocumentUpdater :=
  mkUpdater (status_ u) (old_document_ u) d (old_docvalue_document_ u) (new_docvalue_document_ u) (update_type_ u).
Definition set_old_docvalue (u : DocumentUpdater) (d : Document) : DocumentUpdater :=
  mkUpdater (status_ u) (old_document_ u) (new_document_ u) d (new_docvalue_document_ u) (update_type_ u).
Definition set_new_docvalue (u : DocumentUpdater) (d : Document) : DocumentUpdater :=
  mkUpdater (status_ u) (old_document_ u) (new_document_ u) (old_docvalue_document_ u) d (update_type_ u).
Definition SetUpdateType (u : DocumentUpdater) (t : kDocumentUpdaterType) : DocumentUpdater :=
  mkUpdater (status_ u) (old_document_ u) (new_document_ u) (old_docvalue_document_ u) (new_docvalue_document_ u) t.

Definition updater_Delete (u : DocumentUpdater) : bool := bool_decide (update_type_ u = kDocumentDeleteType).
Definition NeedMergeDocValue (u : DocumentUpdater) : bool :=
  bool_decide (update_type_ u = kDocumentUpdateType) || bool_decide (update_type_ u = kDocumentAddOrUpdateType).

(** ** Ingested index items *)
Record InvertIndexItem := mkInvertItem { item_field_id_ : Z; term_ : bytes; doc_list_ : list Z }.

Definition item_Set (item : InvertIndexItem) (field_id : Z) (term : bytes) : InvertIndexItem :=
  mkInvertItem field_id term [].
Definition item_AddDocID (item : InvertIndexItem) (doc_id : Z) : InvertIndexItem :=
  mkInvertItem (item_field_id_ item) (term_ item) (os_insert Zcmp_desc doc_id (doc_list_ item)).

(** ** Stored form *)

(** A field whose value and terms all go to the stored column. *)
Definition storable (f : IndexField) : Prop :=
  is_byte (field_id_ f) /\ is_byte (field_flag_ f) /\
  StoredField (field_flag_ f) = true /\ NotStoreInvertTerm (field_flag_ f) = false /\
  (field_type_ f = kStringIndexField \/ string_value_ f = []) /\
  (field_type_ f = kUint32IndexField \/ field_type_ f = kUint64IndexField \/ numeric_value_ f = 0) /\
  use_outer_segment_terms_ f = false /\ numeric_list_ f = [] /\ os_sorted bytes_cmp (terms_ f) /\
  (if SuffixBuild (field_flag_ f) then suffix_len_ f <> 0 else suffix_len_ f = 0).

Lemma u8_byte b : is_byte b -> u8 b = b.
Proof. unfold is_byte, u8. intros. by apply Z.mod_small. Qed.

Lemma field_roundtrip f : storable f -> DecodeFromStoreField new_field (EncodeToStoreField f 0) = f.
Proof.
  intros (Hid & Hfl & Hst & Hnot & Hs & Hn & Ho & Hl & Hso & Hsu). destruct f as [id fl ty nv sv o te su nl].
  cbn [field_id_ field_flag_ field_type_ numeric_value_ string_value_ use_outer_segment_terms_ terms_
       suffix_len_ numeric_list_] in *. subst o nl.
  unfold DecodeFromStoreField, EncodeToStoreField.
  cbn [field_id_ field_flag_ field_type_ numeric_value_ string_value_ use_outer_segment_terms_ terms_
       suffix_len_ numeric_list_ pb_field_id pb_field_flag pb_field_type pb_numeric_value pb_string_value
       pb_terms pb_suffix_len new_field].
  rewrite !u8_byte, Hst, Hnot by done. cbn [andb orb negb Z.eqb].
  rewrite (os_inserts_id bytes_cmp te Hso). f_equal.
  - destruct ((ty =? kUint32IndexField) || (ty =? kUint64IndexField)) eqn:E; [done|].
    apply orb_false_iff in E as [E1%Z.eqb_neq E2%Z.eqb_neq]. by destruct Hn as [?|[?|?]].
  - destruct (Z.eqb_spec ty kStringIndexField); [done|]. by destruct Hs.
  - destruct (SuffixBuild fl); [|done]. destruct (Z.eqb_spec su 0); [done|]. by destruct (Z.eqb_spec su 0).
Qed.

Lemma fold_AddField l (d : Document) :
  fold_left (fun d f => AddField d (DecodeFromStoreField new_field f)) l d =
  mkDocument (fields_ d ++ map (DecodeFromStoreField new_field) l) (document_id_ d) (match_field_id_ d).
Proof.
  revert d. induction l as [|f l IH]; intros d; simpl; [rewrite app_nil_r; by destruct d|].
  rewrite IH. simpl. by rewrite <- app_assoc.
Qed.

(** ** A concrete wire format *)
Definition field_tuple (f : StoreIndexField) : Z * Z * Z * option Z * option bytes * list bytes * option Z :=
  (pb_field_id f, pb_field_flag f, pb_field_type f, pb_numeric_value f, pb_string_value f, pb_terms f, pb_suffix_len f).

Definition tuple_field (t : Z * Z * Z * option Z * option bytes * list bytes * option Z) : StoreIndexField :=
  match t with (a, b, c, d, e, f, g) => mkStoreField a b c d e f g end.

Definition number_store_proto : StoreProto := {|
  SerializeDocument d := Some [Z.pos (encode (pb_document_id d, map field_tuple (pb_fields d)))];
  ParseDocument data :=
    match data with
    | [Z.pos p] =>
        '(id, l) ← decode (A := Z * list (Z * Z * Z * option Z * option bytes * list bytes * option Z)) p;
        Some (mkStoreDocument id (map tuple_field l))
    | _ => None
    end
|}.

Lemma number_store_proto_laws : @StoreProtoLaws number_store_proto.
Proof.
  split. intros [id l] data. cbn. intros [= <-]. rewrite decode_encode. cbn [mbind option_bind].
  do 2 f_equal. induction l as [|[] l IH]; [done|]. cbn [map]. by rewrite IH.
Qed.

(** ** Theorems *)

(** A document whose fields are stored completely survives the stored
    column: parsing its serialized form into a fresh document gives back the
    same fields in the same order and the same id. *)
Theorem document_roundtrip `{StoreProtoLaws} d data :
  Forall storable (fields_ d) -> fst (SerializeToBytes d 0) = Some data ->
  DeSerializeFromByte new_document data = Some (mkDocument (fields_ d) (document_id_ d) (-1)).
Proof.
  intros Hf Hs. unfold SerializeToBytes in Hs. cbn [fst] in Hs.
  unfold DeSerializeFromByte. rewrite (ParseDocument_Serialize _ _ Hs). cbn [mbind option_bind].
  rewrite fold_AddField. cbn. do 2 f_equal. rewrite map_map.
  induction Hf as [|f l Hf _ IH]; [done|]. cbn. by rewrite field_roundtrip, IH.
Qed.

Definition sample_document : Document :=
  mkDocument
    [mkField 1 (SetInvertIndex (SetTokenize (SetStoredField 0))) kStringIndexField 0 [104; 105] false [[104; 105]] 0 [];
     mkField 2 (SetDocValue (SetStoredField 0)) kUint32IndexField 77 [] false [] 0 []] 42 (-1).

Lemma document_roundtrip_witness :
  exists data, fst (@SerializeToBytes number_store_proto sample_document 0) = Some data /\
    @DeSerializeFromByte number_store_proto new_document data = Some sample_document.
Proof.
  eexists. split; [reflexivity|].
  apply (@document_roundtrip number_store_proto number_store_proto_laws sample_document); [|reflexivity].
  repeat apply Forall_cons_2; [..|constructor];
    (split; [cbv; done|split; [cbv; done|split; [done|split; [done|]]]]);
    (split; [first [by left|by right]|]); (split; [first [by left|by right; left|by right; right]|]);
    (split; [done|split; [done|split; [repeat constructor|done]]]).
Defined.

(** A numeric field kept only as doc value loses its value in the stored
    column: what an update reads back as the old document has zero there. *)
Theorem docvalue_only_field_lost f :
  is_byte (field_flag_ f) -> StoredField (field_flag_ f) = false -> DocValue (field_flag_ f) = true ->
  field_type_ f = kUint32IndexField \/ field_type_ f = kUint64IndexField ->
  let old := DecodeFromStoreField new_field (EncodeToStoreField f 0) in
  DocValue (field_flag_ old) = true /\ field_type_ old = field_type_ f /\ numeric_value_ old = 0.
Proof.
  intros Hb Hs Hd Ht old. unfold old, DecodeFromStoreField, EncodeToStoreField.
  cbn [field_id_ field_flag_ field_type_ numeric_value_ pb_field_flag pb_field_type pb_numeric_value Z.eqb].
  rewrite u8_byte, Hs, Hd by done. cbn [andb orb default from_option].
  split; [done|]. split; [done|]. by destruct Ht as [-> | ->].
Qed.

Lemma docvalue_only_field_lost_witness :
  let f := mkField 5 (SetDocValue 0) kUint64IndexField 123 [] false [] 0 [] in
  numeric_value_ (DecodeFromStoreField new_field (EncodeToStoreField f 0)) = 0 /\ numeric_value_ f = 123.
Proof.
  split; [|reflexivity].
  apply (docvalue_only_field_lost (mkField 5 (SetDocValue 0) kUint64IndexField 123 [] false [] 0 []));
    [cbv; done|reflexivity|reflexivity|by right].
Defined.
