(* ===== verification/WireStore.v ===== *)
(** Stored documents and write buffers on the wire: the generated messages
    ([search_store.pb.cc]) implement the serializers that documents
    ([document.cpp]) and the write buffer of the mock ([write_buffer_mock.cpp])
    rely on, so [StoreProto] and [MockProto] hold for any protobuf library that
    behaves as documented.

    A record of numbers and bytes becomes a message by its setters.  The
    records cover more than the machine types, and the library reads at most
    64 MB: outside of that, serializing gives [None] here. *)
From S2P Require Import Prelude Storage Coding Wire PlainWire SearchStore Document VirtualDBMock.


(** ** Documents *)

(** The setters [EncodeToStoreField] calls on a new message. *)
Definition field_message (f : StoreIndexField) : StoreIndexField.t :=
  let m := StoreIndexField.set_field_id StoreIndexField.New (pb_field_id f) in
  let m := StoreIndexField.set_field_flag m (pb_field_flag f) in
  let m := StoreIndexField.set_field_type m (pb_field_type f) in
  let m := match pb_string_value f with Some v => StoreIndexField.set_string_value m v | None => m end in
  let m := match pb_numeric_value f with Some v => StoreIndexField.set_numeric_value m v | None => m end in
  let m := fold_left (fun m v => StoreIndexField.add_terms m v) (pb_terms f) m in
  match pb_suffix_len f with Some v => StoreIndexField.set_suffix_len m v | None => m end.

(** What the accessors give. *)
Definition field_record (m : StoreIndexField.t) : StoreIndexField :=
  mkStoreField (StoreIndexField.field_id_ m) (StoreIndexField.field_flag_ m) (StoreIndexField.field_type_ m)
    (if StoreIndexField.has_numeric_value m then Some (StoreIndexField.numeric_value_ m) else None)
    (if StoreIndexField.has_string_value m then Some (StoreIndexField.string_value_ m) else None)
    (StoreIndexField.terms_ m) (if StoreIndexField.has_suffix_len m then Some (StoreIndexField.suffix_len_ m) else None).

Definition document_message (d : StoreDocument) : StoreDocument.t :=
  fold_left (fun m f => StoreDocument.add_fields m (field_message f)) (pb_fields d)
    (StoreDocument.set_document_id StoreDocument.New (pb_document_id d)).

Definition document_record (m : StoreDocument.t) : StoreDocument :=
  mkStoreDocument (StoreDocument.document_id_ m) (map field_record (StoreDocument.fields_ m)).

(** ** Machine types *)
Definition in_range (bits v : Z) : bool := (0 <=? v) && (v <? 2 ^ bits).
Definition byte_string (b : bytes) : bool := forallb (in_range 8) b.

Lemma in_bits_spec bits v : in_range bits v = true <-> 0 <= v < 2 ^ bits.
Proof. unfold in_range. rewrite andb_true_iff, Z.leb_le, Z.ltb_lt. done. Qed.

Lemma byte_string_spec b : byte_string b = true <-> wf_bytes b.
Proof.
  unfold byte_string. rewrite forallb_forall, Forall_forall. split; intros Hb x Hx.
  - apply (in_bits_spec 8), Hb. by apply list_elem_of_In.
  - apply in_bits_spec, Hb. by apply list_elem_of_In.
Qed.

Definition opt_all {A} (f : A -> bool) (o : option A) : bool := match o with Some v => f v | None => true end.

Definition field_fits (f : StoreIndexField) : bool :=
  in_range 32 (pb_field_id f) && in_range 32 (pb_field_flag f) && in_range 32 (pb_field_type f) &&
  opt_all (in_range 64) (pb_numeric_value f) && opt_all byte_string (pb_string_value f) &&
  forallb byte_string (pb_terms f) && opt_all (in_range 32) (pb_suffix_len f).

Definition document_fits (d : StoreDocument) : bool := in_range 64 (pb_document_id d) && forallb field_fits (pb_fields d).

Lemma field_message_ok f :
  field_fits f = true ->
  StoreIndexField.ok (field_message f) /\ StoreIndexField.unknown_fields_ (field_message f) = [] /\
  field_record (field_message f) = f /\ StoreIndexField.IsInitialized (field_message f) = true.
Proof.
  unfold field_fits. rewrite !andb_true_iff, !in_bits_spec.
  intros ((((((Hi & Hf) & Ht) & Hn) & Hs) & Hts) & Hl). unfold field_message. cbv zeta.
  rewrite StoreIndexField.field_fold_add_terms.
  destruct f as [i fl ty nv sv ts sl]. cbn [pb_field_id pb_field_flag pb_field_type pb_numeric_value pb_string_value
    pb_terms pb_suffix_len] in *.
  assert (Hterms : Forall (Forall is_byte) ts).
  { apply Forall_forall. intros t Hin. apply byte_string_spec. rewrite forallb_forall in Hts. by apply Hts, list_elem_of_In. }
  destruct nv as [nv|], sv as [sv|], sl as [sl|]; cbn [opt_all] in *;
    repeat match goal with
    | H : in_range _ _ = true |- _ => apply in_bits_spec in H
    | H : byte_string _ = true |- _ => apply byte_string_spec in H
    end; (split; [|done]); by split.
Qed.

Lemma fold_document_message l m :
  fold_left (fun m f => StoreDocument.add_fields m (field_message f)) l m =
  StoreDocument.mk (StoreDocument.document_id_ m) (StoreDocument.fields_ m ++ map field_message l) (StoreDocument.has_bits_ m)
    (StoreDocument.unknown_fields_ m) (StoreDocument.cached_size_ m).
Proof.
  revert m. induction l as [|f l IH]; intros m; cbn [fold_left map]; [rewrite app_nil_r; by destruct m|].
  rewrite IH. cbn. by rewrite <- app_assoc.
Qed.

Lemma document_message_ok `{CodedLib} d :
  document_fits d = true ->
  StoreDocument.ok (document_message d) /\ StoreDocument.no_unknown (document_message d) /\
  document_record (StoreDocument.without_sizes (document_message d)) = d /\ StoreDocument.IsInitialized (document_message d) = true.
Proof.
  unfold document_fits. rewrite andb_true_iff, in_bits_spec, forallb_forall. intros [Hi Hf].
  unfold document_message. rewrite fold_document_message. cbn [StoreDocument.fields_ StoreDocument.set_document_id StoreDocument.New app].
  assert (Hall : Forall (fun f => field_fits f = true) (pb_fields d)) by (apply Forall_forall; intros f Hin; by apply Hf, list_elem_of_In).
  clear Hf. destruct d as [i l]. cbn [pb_document_id pb_fields] in *. split_and!.
  - split; [done| |done|done]. cbn. apply Forall_map. eapply Forall_impl; [exact Hall|]. intros f. apply field_message_ok.
  - split; [done|]. cbn. apply Forall_map. eapply Forall_impl; [exact Hall|]. intros f. apply field_message_ok.
  - unfold document_record, StoreDocument.without_sizes. cbn. f_equal. rewrite !map_map. induction Hall as [|f l Hf _ IH]; [done|].
    cbn [map]. rewrite IH. f_equal. by destruct (field_message_ok f Hf) as (_ & _ & E & _).
  - unfold StoreDocument.IsInitialized. cbn. induction Hall as [|f l Hf _ IH]; [done|]. cbn [map forallb].
    destruct (field_message_ok f Hf) as (_ & _ & _ & ->). exact IH.
Qed.

(** ** Parsing and serializing a whole message *)
Section Documents.
Context `{CodedLibLaws}.

Lemma array_stream_ok data :
  Z.of_nat (length data) < kDefaultTotalBytesLimit -> stream_ok 1 (array_stream data).
Proof. intros Hl. unfold stream_ok, kDefaultRecursionLimit. cbn. lia. Qed.

Lemma limit_int : kDefaultTotalBytesLimit < 2 ^ 31.
Proof. done. Qed.

Lemma document_Clear m : StoreDocument.ok m -> StoreDocument.Clear m = StoreDocument.set_cached_sizes StoreDocument.New [] (StoreDocument.cached_size_ m).
Proof.
  intros [_ _ _ Hi]. unfold StoreDocument.Clear. destruct (has_bit (StoreDocument.has_bits_ m) 255) eqn:E; [done|].
  unfold StoreDocument.set_cached_sizes. cbn. rewrite Hi; [done|]. unfold StoreDocument.has_document_id.
  by apply (no_bits _ 255 _ E).
Qed.

(** Copying into a used message differs from a fresh one in the cached size. *)
Lemma document_CopyFrom m other :
  StoreDocument.ok m -> StoreDocument.no_unknown m -> StoreDocument.ok other ->
  StoreDocument.CopyFrom other m =
  StoreDocument.set_cached_sizes (StoreDocument.without_sizes m) (StoreDocument.fields_ (StoreDocument.without_sizes m)) (StoreDocument.cached_size_ other).
Proof.
  intros Hok Hu Ho. unfold StoreDocument.CopyFrom. rewrite document_Clear, <- StoreDocument.document_MergeFrom_New by done.
  unfold StoreDocument.MergeFrom. cbv zeta. repeat case_match; done.
Qed.

Lemma initialized_without_sizes m size :
  StoreDocument.IsInitialized (StoreDocument.set_cached_sizes (StoreDocument.without_sizes m) (StoreDocument.fields_ (StoreDocument.without_sizes m)) size) =
  StoreDocument.IsInitialized m.
Proof.
  unfold StoreDocument.IsInitialized. cbn. destruct (negb _); [done|].
  induction (StoreDocument.fields_ m) as [|f l IH]; [done|]. cbn [map forallb]. by rewrite IH.
Qed.

Lemma document_parses m other :
  StoreDocument.ok m -> StoreDocument.no_unknown m -> StoreDocument.IsInitialized m = true -> StoreDocument.size m < kDefaultTotalBytesLimit ->
  StoreDocument.ok other ->
  exists data, Wire.SerializeToString StoreDocument.message m = Some data /\ Z.of_nat (length data) = StoreDocument.size m /\
    ParseFromArray StoreDocument.message data other = Some (StoreDocument.CopyFrom other m).
Proof.
  intros Hok Hu Hi Hs Ho. pose proof limit_int as Hlim.
  pose proof (StoreDocument.document_ByteSize_sum m) as Hb.
  exists (StoreDocument.SerializeWithCachedSizesToArray (StoreDocument.with_sizes m)).
  assert (Hs31 : StoreDocument.size m < 2 ^ 31) by lia.
  split; [|split].
  - rewrite Wire.SerializeToString_spec; cbn; rewrite ?Hb; done.
  - by apply StoreDocument.document_length_array.
  - rewrite ParseFromArray_spec. cbn [MergePartialFromCodedStream Clear IsInitialized StoreDocument.message].
    destruct (StoreDocument.document_Merge_array m (StoreDocument.Clear other)
      (array_stream (StoreDocument.SerializeWithCachedSizesToArray (StoreDocument.with_sizes m))) Hok Hu Hs31) as (s' & E & _ & _ & He).
    { apply array_stream_ok. by rewrite StoreDocument.document_length_array. }
    { done. }
    rewrite E. cbn [mbind option_bind]. unfold ConsumedEntireMessage. rewrite He, andb_true_r.
    fold (StoreDocument.CopyFrom other m). rewrite document_CopyFrom, initialized_without_sizes, Hi by done. done.
Qed.
End Documents.

(** Bit by bit, the required fields. *)
Lemma mask_bit h mask b : Z.land h mask = mask -> Z.land mask b = b -> 0 < b -> has_bit h b = true.
Proof.
  intros Hm Hb Hp. unfold has_bit. destruct (Z.eqb_spec (Z.land h b) 0) as [E|]; [|done]. exfalso.
  rewrite <- Hb, Z.land_assoc, Hm, Hb in E. lia.
Qed.

Lemma document_initialized m :
  StoreDocument.IsInitialized m = true ->
  StoreDocument.has_document_id m = true /\
  Forall (fun f => StoreIndexField.has_field_id f = true /\ StoreIndexField.has_field_flag f = true /\
                   StoreIndexField.has_field_type f = true) (StoreDocument.fields_ m).
Proof.
  unfold StoreDocument.IsInitialized. destruct (Z.eqb_spec (Z.land (StoreDocument.has_bits_ m) 1) 1) as [E|]; [|done].
  cbn [negb]. intros Hf. split; [by apply (mask_bit _ 1)|]. rewrite forallb_forall in Hf. apply Forall_forall.
  intros f Hin%list_elem_of_In. specialize (Hf f Hin). apply Z.eqb_eq in Hf.
  split_and!; by apply (mask_bit _ 7).
Qed.

(** ** The interface of stored documents *)
Section StoreInterface.
Context `{CodedLib}.

Definition document_small (d : StoreDocument) : bool :=
  fst (ByteSize (document_message d)) <? kDefaultTotalBytesLimit.

Definition wire_store_proto : StoreProto := {|
  SerializeDocument d :=
    if document_fits d && document_small d then Wire.SerializeToString StoreDocument.message (document_message d) else None;
  ParseDocument data := m ← ParseFromArray StoreDocument.message data StoreDocument.New; Some (document_record m) |}.
End StoreInterface.

Lemma wire_document_some `{CodedLibLaws} d :
  document_fits d = true -> document_small d = true ->
  exists data, @SerializeDocument wire_store_proto d = Some data /\ @ParseDocument wire_store_proto data = Some d /\
    Z.of_nat (length data) < kDefaultTotalBytesLimit.
Proof.
  intros Hf Hs. cbn. rewrite Hf, Hs. cbn [andb]. destruct (document_message_ok d Hf) as (Hok & Hu & Hr & Hi).
  unfold document_small in Hs. cbn in Hs. rewrite StoreDocument.document_ByteSize_sum in Hs. apply Z.ltb_lt in Hs. cbn in Hs.
  destruct (document_parses _ StoreDocument.New Hok Hu Hi Hs StoreDocument.document_ok_New) as (data & E & Hl & Hp).
  exists data. rewrite E, Hp, Hl. cbn [mbind option_bind]. split; [done|]. split; [|done].
  rewrite document_CopyFrom; [|done..|apply StoreDocument.document_ok_New]. f_equal. exact Hr.
Qed.

#[export] Instance wire_store_laws `{CodedLibLaws} : @StoreProtoLaws wire_store_proto.
Proof.
  split. intros d data Hd. assert (Hfs : document_fits d = true /\ document_small d = true).
  { cbn in Hd. destruct (document_fits d), (document_small d); done. }
  destruct (wire_document_some d (proj1 Hfs) (proj2 Hfs)) as (data' & E & Hp & _). congruence.
Qed.

(** ** The interface of the write buffer *)
Definition type_value (t : MockData_Type) : Z :=
  match t with kUnknown => 0 | kUpdate => 1 | kMerge => 2 | kDelete => 3 | kDeleteRange => 4 end.

Definition value_type (v : Z) : MockData_Type :=
  match v with 1 => kUpdate | 2 => kMerge | 3 => kDelete | 4 => kDeleteRange | _ => kUnknown end.

(** The setters [SeriableData] calls; only a range has an end. *)
Definition mock_message (d : MockData) : MockData.t :=
  let m := MockData.set_column_type MockData.New (column_type d) in
  let m := MockData.set_key m (key d) in
  let m := match type d with kDeleteRange => MockData.set_end_key m (end_key d) | _ => m end in
  let m := MockData.set_value m (value d) in
  MockData.set_type m (type_value (type d)).

Definition mock_record (m : MockData.t) : MockData :=
  mkMockData (MockData.column_type_ m) (MockData.key_ m) (MockData.value_ m) (value_type (MockData.type_ m)) (MockData.end_key_ m).

Definition mock_fits (d : MockData) : bool :=
  in_range 32 (column_type d) && byte_string (key d) && byte_string (value d) &&
  match type d with kDeleteRange => byte_string (end_key d) | _ => match end_key d with [] => true | _ => false end end.

Lemma mock_message_ok d :
  mock_fits d = true ->
  MockData.ok (mock_message d) /\ MockData.unknown_fields_ (mock_message d) = [] /\
  mock_record (mock_message d) = d /\ MockData.IsInitialized (mock_message d) = true.
Proof.
  unfold mock_fits. rewrite !andb_true_iff, in_bits_spec, !byte_string_spec. intros (((Hc & Hk) & Hv) & He).
  destruct d as [c k v t e]. cbn [column_type key value type end_key] in *. unfold mock_message.
  destruct t; cbn in *; try (destruct e; [|done]); try apply byte_string_spec in He;
    (split; [|done]); split; cbn; try done; lia.
Qed.

Section MockInterface.
Context `{CodedLib}.

Definition mock_list_message (l : list MockData) : MockDataList.t :=
  fold_left (fun m d => MockDataList.add_mock_data_list m (mock_message d)) l MockDataList.New.

Definition mock_small (l : list MockData) : bool :=
  fst (ByteSize (mock_list_message l)) <? kDefaultTotalBytesLimit.

Definition wire_mock_proto : MockProto := {|
  SerializeToString l :=
    if forallb mock_fits l && mock_small l then Wire.SerializeToString MockDataList.message (mock_list_message l) else None;
  ParseFromString data :=
    m ← Wire.ParseFromString MockDataList.message data MockDataList.New;
    Some (map mock_record (MockDataList.mock_data_list m)) |}.

Lemma fold_mock_message l (m : MockDataList.t) :
  fold_left (fun m d => MockDataList.add_mock_data_list m (mock_message d)) l m =
  ListMessage.mk (ListMessage.list_ m ++ map mock_message l) (ListMessage.has_bits_ m) (ListMessage.unknown_fields_ m)
    (ListMessage.cached_size_ m).
Proof.
  revert m. induction l as [|d l IH]; intros m; cbn [fold_left map]; [rewrite app_nil_r; by destruct m|].
  rewrite IH. cbn. by rewrite <- app_assoc.
Qed.
End MockInterface.

Section MockLaws.
Context `{CodedLibLaws}.

Lemma mock_list_message_ok l :
  forallb mock_fits l = true ->
  ListMessage.ok (mock_list_message l) /\ ListMessage.no_unknown (mock_list_message l) /\
  map mock_record (ListMessage.list_ (ListMessage.without_sizes (mock_list_message l))) = l /\
  ListMessage.IsInitialized (ListMessage.without_sizes (mock_list_message l)) = true /\
  ListMessage.IsInitialized (mock_list_message l) = true.
Proof.
  rewrite forallb_forall. intros Hf. unfold mock_list_message. rewrite fold_mock_message.
  assert (Hall : Forall (fun d => mock_fits d = true) l) by (apply Forall_forall; intros d Hin; by apply Hf, list_elem_of_In).
  clear Hf. split_and!.
  - split; [|done]. cbn. apply Forall_map. eapply Forall_impl; [exact Hall|]. intros d. apply mock_message_ok.
  - split; [done|]. cbn. apply Forall_map. eapply Forall_impl; [exact Hall|].
    intros d Hd. by destruct (mock_message_ok d Hd) as (? & ? & _).
  - cbn. rewrite !map_map. induction Hall as [|d l Hd _ IH]; [done|]. cbn [map]. rewrite IH. f_equal.
    by destruct (mock_message_ok d Hd) as (_ & _ & E & _).
  - unfold ListMessage.IsInitialized. cbn. induction Hall as [|d l Hd _ IH]; [done|]. cbn [map forallb].
    rewrite IH, andb_true_r. by destruct (mock_message_ok d Hd) as (_ & _ & _ & E).
  - unfold ListMessage.IsInitialized. cbn. induction Hall as [|d l Hd _ IH]; [done|]. cbn [map forallb].
    rewrite IH, andb_true_r. by destruct (mock_message_ok d Hd) as (_ & _ & _ & E).
Qed.

Lemma wire_mock_some l :
  forallb mock_fits l = true -> mock_small l = true ->
  exists data, @SerializeToString wire_mock_proto l = Some data /\ @ParseFromString wire_mock_proto data = Some l /\
    Z.of_nat (length data) = ListMessage.size (mock_list_message l).
Proof.
  intros Hf Hs. cbn. rewrite Hf, Hs. cbn [andb]. destruct (mock_list_message_ok l Hf) as (Hok & Hu & Hr & Hi & Hi').
  set (m := mock_list_message l) in *.
  pose proof (ListMessage.list_ByteSize_sum (E := MockData.t) m) as Hb. pose proof limit_int as Hlim.
  unfold mock_small in Hs. fold m in Hs. cbn in Hs. unfold MockDataList.ByteSize in Hs. rewrite Hb in Hs.
  apply Z.ltb_lt in Hs. cbn in Hs.
  exists (ListMessage.SerializeWithCachedSizesToArray (ListMessage.with_sizes m)).
  assert (Hs31 : ListMessage.size m < 2 ^ 31) by lia. split; [|split].
  - rewrite Wire.SerializeToString_spec; cbn; unfold MockDataList.ByteSize; rewrite ?Hb; done.
  - rewrite ParseFromString_spec, ParseFromArray_spec.
    cbn [MergePartialFromCodedStream Clear IsInitialized MockDataList.message].
    destruct (ListMessage.list_Merge_array (E := MockData.t) m (MockDataList.Clear MockDataList.New)
      (array_stream (ListMessage.SerializeWithCachedSizesToArray (ListMessage.with_sizes m))) Hok Hu Hs31)
      as (s' & E & _ & _ & He).
    { apply array_stream_ok. by rewrite ListMessage.list_length_array. }
    { done. }
    change (MockDataList.Clear MockDataList.New) with (ListMessage.New (E := MockData.t)) in *.
    unfold MockDataList.MergePartialFromCodedStream. rewrite E. cbn [mbind option_bind].
    unfold ConsumedEntireMessage. rewrite He, andb_true_r.
    change MockDataList.IsInitialized with (ListMessage.IsInitialized (E := MockData.t)).
    rewrite ListMessage.list_MergeFrom_New, Hi by done. cbn [mbind option_bind]. f_equal. exact Hr.
  - by apply ListMessage.list_length_array.
Qed.

#[export] Instance wire_mock_laws : @MockProtoLaws wire_mock_proto.
Proof.
  split.
  - intros l data Hd. assert (Hfs : forallb mock_fits l = true /\ mock_small l = true).
    { cbn in Hd. destruct (forallb mock_fits l), (mock_small l); done. }
    destruct (wire_mock_some l (proj1 Hfs) (proj2 Hfs)) as (data' & E & Hp & _). congruence.
  - intros l. split.
    + intros Hd. assert (Hfs : forallb mock_fits l = true /\ mock_small l = true).
      { cbn in Hd. destruct (forallb mock_fits l), (mock_small l); done. }
      destruct (wire_mock_some l (proj1 Hfs) (proj2 Hfs)) as (data' & E & Hp & Hl). rewrite Hd in E. injection E as <-.
      destruct (mock_list_message_ok l (proj1 Hfs)) as ([Hok _] & _). destruct l as [|d l]; [done|]. exfalso.
      unfold mock_list_message in *. rewrite fold_mock_message in *. cbn in Hl, Hok. unfold ListMessage.size in Hl.
      cbn [ListMessage.list_ ListMessage.unknown_fields_ unknown_empty negb opt_size] in Hl.
      rewrite sum_sizes_cons in Hl. apply Forall_cons in Hok as [Hd' Hok].
      pose proof (sum_messages_nonneg (M := MockData.t) _ Hok). pose proof (message_size_bound (M := MockData.t) _ Hd') as [? _].
      pose proof (size_of_nonneg (M := MockData.t) _ Hd'). lia.
    + intros ->. destruct (wire_mock_some []) as (data & E & _ & Hl); [done|done|].
      rewrite E. f_equal. change (ListMessage.size (mock_list_message [])) with 0 in Hl.
      destruct data; [done|]. cbn in Hl. lia.
Qed.
End MockLaws.

(** ** Theorems *)

(** C26: a stored document whose values fit the machine types and whose message
    stays below the 64 MB the library reads is serialized, and parsing the
    bytes into a fresh document gives back its fields in order and its id. *)
Theorem stored_document_on_wire `{CodedLibLaws} d :
  Forall storable (fields_ d) ->
  document_fits (mkStoreDocument (document_id_ d) (store_fields d 0)) = true ->
  document_small (mkStoreDocument (document_id_ d) (store_fields d 0)) = true ->
  exists data, @SerializeToBytes wire_store_proto d 0 = (Some data, negb (bool_decide (fields_ d = []))) /\
    @DeSerializeFromByte wire_store_proto new_document data = Some (mkDocument (fields_ d) (document_id_ d) (-1)).
Proof.
  intros Hst Hf Hs. destruct (wire_document_some _ Hf Hs) as (data & E & _). exists data. split.
  - unfold SerializeToBytes. rewrite E. f_equal. unfold store_fields. cbn [Z.eqb]. by destruct (fields_ d).
  - by apply (@document_roundtrip wire_store_proto wire_store_laws).
Qed.

Lemma sample_storable : Forall storable (fields_ sample_document).
Proof.
  repeat apply Forall_cons_2; [..|constructor];
    (split; [cbv; done|split; [cbv; done|split; [done|split; [done|]]]]);
    (split; [first [by left|by right]|]); (split; [first [by left|by right; left|by right; right]|]);
    (split; [done|split; [done|split; [repeat constructor|done]]]).
Qed.

Lemma stored_document_on_wire_witness :
  exists data, @SerializeToBytes (@wire_store_proto plain_lib) sample_document 0 = (Some data, true) /\
    @DeSerializeFromByte (@wire_store_proto plain_lib) new_document data = Some sample_document.
Proof.
  exact (@stored_document_on_wire plain_lib plain_lib_laws sample_document sample_storable eq_refl eq_refl).
Defined.

Definition sample_message : StoreDocument.t :=
  document_message (mkStoreDocument (document_id_ sample_document) (store_fields sample_document 0)).

Lemma sample_message_ok : StoreDocument.ok sample_message /\ StoreDocument.no_unknown sample_message.
Proof.
  pose proof (@document_message_ok plain_lib
    (mkStoreDocument (document_id_ sample_document) (store_fields sample_document 0)) eq_refl) as (H1 & H2 & _).
  by split.
Qed.

(** C27: serializing an initialized document message below 64 MB writes exactly
    [ByteSize] bytes, the same to a stream as to an array, and parsing them
    into any message makes that message a copy of the document. *)
Theorem document_message_roundtrip `{CodedLibLaws} m other :
  StoreDocument.ok m -> StoreDocument.no_unknown m -> StoreDocument.IsInitialized m = true ->
  fst (StoreDocument.ByteSize m) < kDefaultTotalBytesLimit -> StoreDocument.ok other ->
  exists data, Wire.SerializeToString StoreDocument.message m = Some data /\
    Z.of_nat (length data) = fst (StoreDocument.ByteSize m) /\
    (forall out, StoreDocument.SerializeWithCachedSizes (snd (StoreDocument.ByteSize m)) out = out ++ data) /\
    ParseFromArray StoreDocument.message data other = Some (StoreDocument.CopyFrom other m) /\
    StoreDocument.CopyFrom StoreDocument.New m = StoreDocument.without_sizes m.
Proof.
  intros Hok Hu Hi Hs Ho. rewrite StoreDocument.document_ByteSize_sum in *. cbn [fst snd] in *.
  destruct (document_parses m other Hok Hu Hi Hs Ho) as (data & E & Hl & Hp). exists data.
  split; [exact E|]. split; [exact Hl|]. split; [|split; [exact Hp|]].
  - intros out. rewrite StoreDocument.document_Serialize_array. f_equal.
    rewrite SerializeToString_spec in E; cbn in E |- *; rewrite ?StoreDocument.document_ByteSize_sum in *;
      [by injection E as <-|done|pose proof limit_int; cbn; lia].
  - rewrite document_CopyFrom by (done || apply StoreDocument.document_ok_New). done.
Qed.

Lemma document_message_roundtrip_witness :
  exists data, @Wire.SerializeToString plain_lib _ (@StoreDocument.message plain_lib) sample_message = Some data /\
    Z.of_nat (length data) = fst (@StoreDocument.ByteSize plain_lib sample_message) /\
    (forall out, @StoreDocument.SerializeWithCachedSizes plain_lib (snd (@StoreDocument.ByteSize plain_lib sample_message)) out
       = out ++ data) /\
    @ParseFromArray plain_lib _ (@StoreDocument.message plain_lib) data StoreDocument.New =
      Some (@StoreDocument.CopyFrom plain_lib StoreDocument.New sample_message) /\
    @StoreDocument.CopyFrom plain_lib StoreDocument.New sample_message = @StoreDocument.without_sizes plain_lib sample_message.
Proof.
  apply (@document_message_roundtrip plain_lib plain_lib_laws sample_message StoreDocument.New);
    [apply sample_message_ok|apply sample_message_ok|reflexivity|reflexivity|apply StoreDocument.document_ok_New].
Defined.

(** The bytes of one document message followed by those of another parse
    as the first message merged with the second: later values replace, the
    fields are appended. *)
Theorem document_bytes_merge `{CodedLibLaws} m1 m2 :
  StoreDocument.ok m1 -> StoreDocument.no_unknown m1 -> StoreDocument.ok m2 -> StoreDocument.no_unknown m2 ->
  fst (StoreDocument.ByteSize m1) + fst (StoreDocument.ByteSize m2) < kDefaultTotalBytesLimit ->
  let bytes_of m := StoreDocument.SerializeWithCachedSizesToArray (snd (StoreDocument.ByteSize m)) in
  exists s, StoreDocument.MergePartialFromCodedStream StoreDocument.New (array_stream (bytes_of m1 ++ bytes_of m2)) =
      Some (StoreDocument.MergeFrom (StoreDocument.MergeFrom StoreDocument.New m1) m2, s) /\
    buffer_ s = [] /\ ConsumedEntireMessage s = true.
Proof.
  intros Hok1 Hu1 Hok2 Hu2 Hs bytes_of. subst bytes_of. cbv beta.
  rewrite !StoreDocument.document_ByteSize_sum in *. cbn [fst snd] in *. pose proof limit_int.
  pose proof (StoreDocument.document_size_parts m1 Hok1). pose proof (StoreDocument.document_size_parts m2 Hok2).
  assert (Hz1 : 0 <= StoreDocument.size m1) by (unfold StoreDocument.size; lia).
  assert (Hz2 : 0 <= StoreDocument.size m2) by (unfold StoreDocument.size; lia).
  assert (Hl1 : StoreDocument.size m1 < 2 ^ 31) by lia. assert (Hl2 : StoreDocument.size m2 < 2 ^ 31) by lia.
  destruct (wire_loop_spec _ _ _ _ StoreDocument.document_label_reads 1 _ _ StoreDocument.New
    (array_stream (StoreDocument.SerializeWithCachedSizesToArray (StoreDocument.with_sizes m1) ++
                   StoreDocument.SerializeWithCachedSizesToArray (StoreDocument.with_sizes m2)))
    (consumes_app _ _ _ _ 1 _ _ _ _ (StoreDocument.document_consumes_array m1 Hok1 Hu1 Hl1)
      (StoreDocument.document_consumes_array m2 Hok2 Hu2 Hl2))) as (s & E & _ & Hb & He).
  - apply array_stream_ok. rewrite length_app, Nat2Z.inj_add, !StoreDocument.document_length_array by done. lia.
  - done.
  - by exists s.
Qed.

Lemma document_bytes_merge_witness :
  let bytes_of m := @StoreDocument.SerializeWithCachedSizesToArray plain_lib (snd (@StoreDocument.ByteSize plain_lib m)) in
  exists s, @StoreDocument.MergePartialFromCodedStream plain_lib StoreDocument.New
      (array_stream (bytes_of sample_message ++ bytes_of sample_message)) =
      Some (@StoreDocument.MergeFrom plain_lib (@StoreDocument.MergeFrom plain_lib StoreDocument.New sample_message)
              sample_message, s) /\
    buffer_ s = [] /\ ConsumedEntireMessage s = true.
Proof.
  apply (@document_bytes_merge plain_lib plain_lib_laws sample_message sample_message);
    [apply sample_message_ok..|reflexivity].
Defined.

(** C28: whatever bytes are parsed into a well-formed document message, a parse
    that succeeds gives a well-formed message: values have their widths, absent
    fields their defaults, and every required field of the document and of its
    fields is present. *)
Theorem parsed_document_ok `{CodedLibLaws} data m m' :
  wf_bytes data -> StoreDocument.ok m -> ParseFromArray StoreDocument.message data m = Some m' ->
  StoreDocument.ok m' /\ StoreDocument.has_document_id m' = true /\
  Forall (fun f => StoreIndexField.has_field_id f = true /\ StoreIndexField.has_field_flag f = true /\
                   StoreIndexField.has_field_type f = true) (StoreDocument.fields_ m').
Proof.
  intros Hw Hok. rewrite ParseFromArray_spec. cbn [MergePartialFromCodedStream Clear IsInitialized StoreDocument.message].
  destruct (StoreDocument.MergePartialFromCodedStream _ _) as [[m1 s]|] eqn:E; [|done]. cbn [mbind option_bind].
  destruct (_ && _) eqn:Ei; [|done]. intros [= <-]. apply andb_true_iff in Ei as [Ei _]. split; [|by apply document_initialized].
  refine (StoreDocument.document_Merge_ok _ (array_stream data) _ _ _ Hw _ E); [done|].
  rewrite document_Clear by done. by split.
Qed.

(** A document of id 5 without fields, and an unknown varint of field 9. *)
Definition sample_bytes : bytes := [8; 5; 72; 7].

Lemma parsed_document_ok_witness :
  exists m, @ParseFromArray plain_lib _ (@StoreDocument.message plain_lib) sample_bytes StoreDocument.New = Some m /\
    StoreDocument.ok m /\ StoreDocument.has_document_id m = true.
Proof.
  eexists. split; [vm_compute; reflexivity|].
  match goal with |- StoreDocument.ok ?x /\ _ =>
    destruct (@parsed_document_ok plain_lib plain_lib_laws sample_bytes StoreDocument.New x) as (Hok & Hid & _);
      [repeat constructor; done|apply StoreDocument.document_ok_New|vm_compute; reflexivity|exact (conj Hok Hid)]
  end.
Defined.

(** C29: the loops of the generated parsers end on every input: one turn more
    than there are readable bytes is enough, whatever the bytes and the state of
    the message. *)
Theorem parsers_end `{CodedLibLaws} s :
  0 <= recursion_depth_ s ->
  let fuel := S (length (buffer_ s)) in
  (forall m, parse StoreDocument.cases StoreDocument.label StoreDocument.unknown_fields_
     StoreDocument.set_unknown_fields fuel NextTag m s <> OutOfFuel) /\
  (forall m, parse StoreIndexField.cases StoreIndexField.label StoreIndexField.unknown_fields_
     StoreIndexField.set_unknown_fields fuel NextTag m s <> OutOfFuel) /\
  (forall m, parse StoreMeta.cases StoreMeta.label StoreMeta.unknown_fields_
     StoreMeta.set_unknown_fields fuel NextTag m s <> OutOfFuel) /\
  (forall m, parse MockData.cases MockData.label MockData.unknown_fields_
     MockData.set_unknown_fields fuel NextTag m s <> OutOfFuel) /\
  (forall m : MockDataList.t, parse ListMessage.cases ListMessage.label ListMessage.unknown_fields_
     ListMessage.set_unknown_fields fuel NextTag m s <> OutOfFuel) /\
  (forall m : StoreDocValue.t, parse ListMessage.cases ListMessage.label ListMessage.unknown_fields_
     ListMessage.set_unknown_fields fuel NextTag m s <> OutOfFuel).
Proof.
  intros Hd. split_and!; intros m.
  - by apply StoreDocument.document_Merge_ends.
  - by apply StoreIndexField.field_Merge_ends.
  - by apply StoreMeta.meta_Merge_ends.
  - by apply MockData.mock_Merge_ends.
  - by apply (ListMessage.list_Merge_ends (E := MockData.t)).
  - by apply (ListMessage.list_Merge_ends (E := StoreIndexField.t)).
Qed.

Lemma parsers_end_witness :
  @parse plain_lib _ (StoreDocument.cases) (@StoreDocument.label plain_lib) StoreDocument.unknown_fields_
    StoreDocument.set_unknown_fields 5 NextTag StoreDocument.New (array_stream sample_bytes) <> OutOfFuel.
Proof. apply (@parsers_end plain_lib plain_lib_laws (array_stream sample_bytes)). done. Defined.
