(* ===== verification/Utf8.v ===== *)
(** UTF-8 decoding ([core.h], [checked.h]) and its two clients: the suffixes
    of a term ([utf8_suffixbuilder.cpp]) and the lower-casing of
    [TokenizerMMSEG::ToLowerCase].

    An iterator is the list of the octets from it to the end.  The decoder
    reads the octet at the iterator before it tests for the end: the buffers
    of the callers are C strings, so that octet is the terminating zero. *)
From S2P Require Import Prelude Storage Coding.

Module utf8.

Definition LEAD_SURROGATE_MIN : Z := 0xd800.
Definition LEAD_SURROGATE_MAX : Z := 0xdbff.
Definition TRAIL_SURROGATE_MIN : Z := 0xdc00.
Definition TRAIL_SURROGATE_MAX : Z := 0xdfff.
Definition CODE_POINT_MAX : Z := 0x10ffff.

Definition mask8 (oc : Z) : Z := Z.land 0xff oc.
Definition mask16 (oc : Z) : Z := Z.land 0xffff oc.
Definition is_trail (oc : Z) : bool := Z.shiftr (mask8 oc) 6 =? 2.
Definition is_lead_surrogate (cp : Z) : bool := (LEAD_SURROGATE_MIN <=? cp) && (cp <=? LEAD_SURROGATE_MAX).
Definition is_trail_surrogate (cp : Z) : bool := (TRAIL_SURROGATE_MIN <=? cp) && (cp <=? TRAIL_SURROGATE_MAX).
Definition is_surrogate (cp : Z) : bool := (LEAD_SURROGATE_MIN <=? cp) && (cp <=? TRAIL_SURROGATE_MAX).
Definition is_code_point_valid (cp : Z) : bool := (cp <=? CODE_POINT_MAX) && negb (is_surrogate cp).

Definition sequence_length (it : bytes) : Z :=
  let lead := mask8 (match it with b :: _ => b | [] => 0 end) in
  if lead <? 0x80 then 1
  else if Z.shiftr lead 5 =? 6 then 2
  else if Z.shiftr lead 4 =? 14 then 3
  else if Z.shiftr lead 3 =? 30 then 4
  else 0.

Definition is_overlong_sequence (cp length : Z) : bool :=
  if cp <? 0x80 then negb (length =? 1)
  else if cp <? 0x800 then negb (length =? 2)
  else if cp <? 0x10000 then negb (length =? 3)
  else false.

Inductive utf_error :=
| NOT_ENOUGH_ROOM | INVALID_LEAD | INCOMPLETE_SEQUENCE | OVERLONG_SEQUENCE | INVALID_CODE_POINT.

(** Results: an error, or the code point and the iterator. *)
Abbreviation result A := (utf_error + A)%type.

Definition bind {A B} (m : result A) (f : A -> result B) : result B :=
  match m with inl e => inl e | inr a => f a end.

(** [increase_safely]: the next octet and the iterator on it. *)
Definition increase_safely (it : bytes) : result (Z * bytes) :=
  match it with
  | _ :: (b :: _) as it' => if is_trail b then inr (b, it') else inl INCOMPLETE_SEQUENCE
  | _ => inl NOT_ENOUGH_ROOM
  end.

(** The iterator is left on the last octet of the sequence. *)
Definition get_sequence_1 (it : bytes) : result (Z * bytes) :=
  match it with
  | [] => inl NOT_ENOUGH_ROOM
  | b :: _ => inr (mask8 b, it)
  end.

Definition get_sequence_2 (it : bytes) : result (Z * bytes) :=
  match it with
  | [] => inl NOT_ENOUGH_ROOM
  | b :: _ =>
      let code_point := mask8 b in
      bind (increase_safely it) (fun '(b, it) =>
      inr (Z.land (Z.shiftl code_point 6) 0x7ff + Z.land b 0x3f, it))
  end.

Definition get_sequence_3 (it : bytes) : result (Z * bytes) :=
  match it with
  | [] => inl NOT_ENOUGH_ROOM
  | b :: _ =>
      let code_point := mask8 b in
      bind (increase_safely it) (fun '(b, it) =>
      let code_point := Z.land (Z.shiftl code_point 12) 0xffff + Z.land (Z.shiftl (mask8 b) 6) 0xfff in
      bind (increase_safely it) (fun '(b, it) =>
      inr (code_point + Z.land b 0x3f, it)))
  end.

Definition get_sequence_4 (it : bytes) : result (Z * bytes) :=
  match it with
  | [] => inl NOT_ENOUGH_ROOM
  | b :: _ =>
      let code_point := mask8 b in
      bind (increase_safely it) (fun '(b, it) =>
      let code_point := Z.land (Z.shiftl code_point 18) 0x1fffff + Z.land (Z.shiftl (mask8 b) 12) 0x3ffff in
      bind (increase_safely it) (fun '(b, it) =>
      let code_point := code_point + Z.land (Z.shiftl (mask8 b) 6) 0xfff in
      bind (increase_safely it) (fun '(b, it) =>
      inr (code_point + Z.land b 0x3f, it))))
  end.

(** [validate_next]; on an error the caller's iterator is restored. *)
Definition validate_next (it : bytes) : result (Z * bytes) :=
  let length := sequence_length it in
  let r :=
    if length =? 0 then inl INVALID_LEAD
    else if length =? 1 then get_sequence_1 it
    else if length =? 2 then get_sequence_2 it
    else if length =? 3 then get_sequence_3 it
    else get_sequence_4 it in
  bind r (fun '(cp, it) =>
    if is_code_point_valid cp then
      if negb (is_overlong_sequence cp length) then inr (cp, drop 1 it)
      else inl OVERLONG_SEQUENCE
    else inl INVALID_CODE_POINT).

(** [find_invalid]: every round consumes an octet. *)
Fixpoint find_invalid (fuel : nat) (start : bytes) : option bytes :=
  match start with
  | [] => Some []
  | _ =>
      match fuel with
      | O => None
      | S fuel' =>
          match validate_next start with
          | inr (_, result) => find_invalid fuel' result
          | inl _ => Some start
          end
      end
  end.

Definition is_valid (s : bytes) : option bool :=
  r ← find_invalid (length s) s; Some (match r with [] => true | _ => false end).

Definition starts_with_bom (it : bytes) : bool :=
  match it with
  | a :: b :: c :: _ => (mask8 a =? 0xef) && (mask8 b =? 0xbb) && (mask8 c =? 0xbf)
  | _ => false
  end.

(** The exceptions of the checked interface. *)
Inductive exception :=
| not_enough_room | invalid_utf8 (u8 : Z) | invalid_code_point (cp : Z).

(** [utf8::append] of one code point. *)
Definition append (cp : Z) : exception + bytes :=
  if negb (is_code_point_valid cp) then inl (invalid_code_point cp)
  else if cp <? 0x80 then inr [u8 cp]
  else if cp <? 0x800 then
    inr [u8 (Z.lor (Z.shiftr cp 6) 0xc0); u8 (Z.lor (Z.land cp 0x3f) 0x80)]
  else if cp <? 0x10000 then
    inr [u8 (Z.lor (Z.shiftr cp 12) 0xe0); u8 (Z.lor (Z.land (Z.shiftr cp 6) 0x3f) 0x80);
         u8 (Z.lor (Z.land cp 0x3f) 0x80)]
  else
    inr [u8 (Z.lor (Z.shiftr cp 18) 0xf0); u8 (Z.lor (Z.land (Z.shiftr cp 12) 0x3f) 0x80);
         u8 (Z.lor (Z.land (Z.shiftr cp 6) 0x3f) 0x80); u8 (Z.lor (Z.land cp 0x3f) 0x80)].

(** [utf8::next]: the code point given to [invalid_code_point] is still the
    initial zero. *)
Definition next (it : bytes) : exception + (Z * bytes) :=
  match validate_next it with
  | inr r => inr r
  | inl NOT_ENOUGH_ROOM => inl not_enough_room
  | inl INVALID_CODE_POINT => inl (invalid_code_point 0)
  | inl _ => inl (invalid_utf8 (match it with b :: _ => u8 b | [] => 0 end))
  end.

Definition peek_next (it : bytes) : exception + Z :=
  match next it with inl e => inl e | inr (cp, _) => inr cp end.

(** [utf8::advance]. *)
Fixpoint advance (n : nat) (it : bytes) : exception + bytes :=
  match n with
  | O => inr it
  | S n' => match next it with inl e => inl e | inr (_, it) => advance n' it end
  end.

(** [utf8::distance]. *)
Fixpoint distance_loop (fuel : nat) (first : bytes) (dist : Z) : option (exception + Z) :=
  match first with
  | [] => Some (inr dist)
  | _ =>
      match fuel with
      | O => None
      | S fuel' =>
          match next first with
          | inl e => Some (inl e)
          | inr (_, first) => distance_loop fuel' first (dist + 1)
          end
      end
  end.

Definition distance (first : bytes) : option (exception + Z) := distance_loop (length first) first 0.

(** [utf8::replace_invalid]. *)
Fixpoint skip_trail (start : bytes) : bytes :=
  match start with
  | b :: rest => if is_trail b then skip_trail rest else start
  | [] => []
  end.

Fixpoint replace_invalid (fuel : nat) (start : bytes) (out : bytes) (replacement : Z) :
    option (exception + bytes) :=
  match start with
  | [] => Some (inr out)
  | _ =>
      match fuel with
      | O => None
      | S fuel' =>
          match validate_next start with
          | inr (_, start') =>
              replace_invalid fuel' start' (out ++ take (length start - length start') start) replacement
          | inl NOT_ENOUGH_ROOM => Some (inl not_enough_room)
          | inl INVALID_LEAD =>
              match append replacement with
              | inl e => Some (inl e)
              | inr r => replace_invalid fuel' (drop 1 start) (out ++ r) replacement
              end
          | inl _ =>
              match append replacement with
              | inl e => Some (inl e)
              | inr r => replace_invalid fuel' (skip_trail (drop 1 start)) (out ++ r) replacement
              end
          end
      end
  end.
End utf8.

(** ** The suffixes of a term *)
Module UTF8SuffixBuilder.
Record t := mk { buffer_ : bytes; it : bytes; pos_ : nat; error : bool; min_suffix_len_ : Z }.

Definition create (buffer : bytes) (min_suffix_len : Z) : t :=
  mk buffer buffer 0 false
    (if Z.of_nat (length buffer) <? min_suffix_len then Z.of_nat (length buffer) else min_suffix_len).

(** [Next]: after an exception it keeps answering [error], that is true. *)
Definition Next (b : t) : t * bool :=
  if error b then (b, error b)
  else
    match utf8.next (it b) with
    | inl _ => (mk (buffer_ b) (it b) (pos_ b) true (min_suffix_len_ b), false)
    | inr (_, it') =>
        let pos := (length (buffer_ b) - length it')%nat in
        (mk (buffer_ b) it' pos false (min_suffix_len_ b),
         bool_decide (pos < length (buffer_ b))%nat &&
         (min_suffix_len_ b <=? Z.of_nat (length (buffer_ b) - pos)))
    end.

Definition Term (b : t) : bytes := drop (pos_ b) (buffer_ b).
Definition TermSize (b : t) : nat := length (buffer_ b) - pos_ b.
Definition Reset (b : t) : t := mk (buffer_ b) (buffer_ b) 0 false (min_suffix_len_ b).

(** [do { ... Term() ... } while (builder.Next())] of the document writer:
    the terms in the order they are visited. *)
Fixpoint loop (fuel : nat) (b : t) : option (list bytes) :=
  match fuel with
  | O => None
  | S fuel' =>
      let '(b', more) := Next b in
      if (more : bool) then rest ← loop fuel' b'; Some (take (TermSize b) (Term b) :: rest)
      else Some [take (TermSize b) (Term b)]
  end.

Definition suffixes (term : bytes) (min_suffix_len : Z) : option (list bytes) :=
  loop (S (length term)) (create term min_suffix_len).
End UTF8SuffixBuilder.

(** ** Lower case *)

(** The loop of [ToLowerCase]: single octets in [A-Z] are changed in place; it
    stops at the first sequence that does not decode. *)
Fixpoint lower_loop (fuel : nat) (it : bytes) : option bytes :=
  match fuel with
  | O => None
  | S fuel' =>
      match utf8.next it with
      | inl _ => Some it
      | inr (_, it') =>
          let consumed := take (length it - length it') it in
          let consumed :=
            match consumed with
            | [b] => if (65 <=? b) && (b <=? 90) then [97 + (b - 65)] else consumed
            | _ => consumed
            end in
          match it' with
          | [] => Some consumed
          | _ => rest ← lower_loop fuel' it'; Some (consumed ++ rest)
          end
      end
  end.

Definition ToLowerCase (old : bytes) : option bytes :=
  match old with [] => Some [] | _ => lower_loop (length old) old end.

(** ** Octets as numbers *)
Module utf8_facts.
Import utf8.

Lemma land_63 x : Z.land x 0x3f = x mod 64. Proof. exact (Z.land_ones x 6 ltac:(lia)). Qed.
Lemma land_2047 x : Z.land x 0x7ff = x mod 2048. Proof. exact (Z.land_ones x 11 ltac:(lia)). Qed.
Lemma land_4095 x : Z.land x 0xfff = x mod 4096. Proof. exact (Z.land_ones x 12 ltac:(lia)). Qed.
Lemma land_65535 x : Z.land x 0xffff = x mod 65536. Proof. exact (Z.land_ones x 16 ltac:(lia)). Qed.
Lemma land_262143 x : Z.land x 0x3ffff = x mod 262144. Proof. exact (Z.land_ones x 18 ltac:(lia)). Qed.
Lemma land_2097151 x : Z.land x 0x1fffff = x mod 2097152. Proof. exact (Z.land_ones x 21 ltac:(lia)). Qed.

Lemma mask8_byte b : is_byte b -> mask8 b = b.
Proof.
  intros Hb. unfold mask8. rewrite Z.land_comm. rewrite (Z.land_ones b 8 ltac:(lia) : Z.land b 0xff = b mod 256).
  by apply Z.mod_small.
Qed.

Lemma is_trail_byte b : is_byte b -> is_trail b = (128 <=? b) && (b <? 192).
Proof.
  intros Hb. unfold is_trail. rewrite mask8_byte, Z.shiftr_div_pow2 by (done || lia). unfold is_byte in Hb.
  change (2 ^ 6) with 64. destruct (Z.eqb_spec (b / 64) 2), (Z.leb_spec 128 b), (Z.ltb_spec b 192); simpl; try done; zlia.
Qed.

Lemma lor_c0 x : 0 <= x < 64 -> Z.lor x 0xc0 = x + 192.
Proof. intros. apply (lor_shiftl_add x 3 6); lia. Qed.
Lemma lor_80 x : 0 <= x < 128 -> Z.lor x 0x80 = x + 128.
Proof. intros. apply (lor_shiftl_add x 1 7); lia. Qed.
Lemma lor_e0 x : 0 <= x < 32 -> Z.lor x 0xe0 = x + 224.
Proof. intros. apply (lor_shiftl_add x 7 5); lia. Qed.
Lemma lor_f0 x : 0 <= x < 16 -> Z.lor x 0xf0 = x + 240.
Proof. intros. apply (lor_shiftl_add x 15 4); lia. Qed.

(** The octets of a code point. *)
Definition octets (cp : Z) : bytes :=
  if cp <? 0x80 then [cp]
  else if cp <? 0x800 then [192 + cp / 64; 128 + cp mod 64]
  else if cp <? 0x10000 then [224 + cp / 4096; 128 + cp / 64 mod 64; 128 + cp mod 64]
  else [240 + cp / 262144; 128 + cp / 4096 mod 64; 128 + cp / 64 mod 64; 128 + cp mod 64].

(** Unicode scalar values. *)
Definition scalar (cp : Z) : Prop := 0 <= cp /\ is_code_point_valid cp = true.

Lemma scalar_range cp : scalar cp -> 0 <= cp <= 0x10ffff /\ ~ (0xd800 <= cp <= 0xdfff).
Proof.
  intros [H0 H]. unfold is_code_point_valid, is_surrogate, CODE_POINT_MAX, LEAD_SURROGATE_MIN, TRAIL_SURROGATE_MAX in H.
  apply andb_true_iff in H as [H1%Z.leb_le H2%negb_true_iff]. apply andb_false_iff in H2.
  rewrite !Z.leb_gt in H2. lia.
Qed.

Lemma octets_bytes cp : scalar cp -> wf_bytes (octets cp).
Proof.
  intros [Hr _]%scalar_range. unfold octets.
  destruct (Z.ltb_spec cp 0x80); [|destruct (Z.ltb_spec cp 0x800); [|destruct (Z.ltb_spec cp 0x10000)]];
    repeat constructor; unfold is_byte; zlia.
Qed.

Lemma append_octets cp : scalar cp -> append cp = inr (octets cp).
Proof.
  intros Hs. pose proof (octets_bytes _ Hs) as Hb. pose proof (scalar_range _ Hs) as [Hr _]. destruct Hs as [_ Hv].
  unfold append, octets in *. rewrite Hv. cbn [negb]. rewrite !Z.shiftr_div_pow2, !land_63 by lia.
  change (2 ^ 6) with 64. change (2 ^ 12) with 4096. change (2 ^ 18) with 262144.
  assert (Hm : forall x, 0 <= x mod 64 < 128) by (intros; zlia).
  destruct (Z.ltb_spec cp 0x80); [|destruct (Z.ltb_spec cp 0x800); [|destruct (Z.ltb_spec cp 0x10000)]].
  - rewrite u8_id by lia. done.
  - rewrite lor_c0, lor_80 by (done || zlia). rewrite !u8_id by zlia. do 2 f_equal; [lia|f_equal; lia].
  - rewrite lor_e0, !lor_80 by (done || zlia). rewrite !u8_id by zlia.
    do 2 f_equal; [lia|f_equal; [lia|f_equal; lia]].
  - rewrite lor_f0, !lor_80 by (done || zlia). rewrite !u8_id by zlia.
    do 2 f_equal; [lia|f_equal; [lia|f_equal; [lia|f_equal; lia]]].
Qed.

(** The length announced by a lead octet. *)
Lemma sequence_length_byte b s :
  is_byte b ->
  sequence_length (b :: s) =
    if b <? 128 then 1 else if (192 <=? b) && (b <? 224) then 2
    else if (224 <=? b) && (b <? 240) then 3 else if (240 <=? b) && (b <? 248) then 4 else 0.
Proof.
  intros Hb. unfold sequence_length. rewrite mask8_byte, !Z.shiftr_div_pow2 by (done || lia). unfold is_byte in Hb.
  change (2 ^ 5) with 32. change (2 ^ 4) with 16. change (2 ^ 3) with 8.
  destruct (Z.ltb_spec b 0x80), (Z.eqb_spec (b / 32) 6), (Z.eqb_spec (b / 16) 14), (Z.eqb_spec (b / 8) 30),
    (Z.leb_spec 192 b), (Z.ltb_spec b 224), (Z.leb_spec 224 b), (Z.ltb_spec b 240), (Z.leb_spec 240 b), (Z.ltb_spec b 248);
    simpl; try done; exfalso; zlia.
Qed.

Lemma increase_safely_byte a b s :
  is_byte b -> 128 <= b < 192 -> increase_safely (a :: b :: s) = inr (b, b :: s).
Proof.
  intros Hb Hr. unfold increase_safely. rewrite is_trail_byte by done.
  destruct (Z.leb_spec 128 b), (Z.ltb_spec b 192); done || lia.
Qed.

Lemma increase_safely_inv it b it' :
  wf_bytes it -> increase_safely it = inr (b, it') ->
  exists a s, it = a :: b :: s /\ it' = b :: s /\ 128 <= b < 192 /\ is_byte b.
Proof.
  intros Hwf H. destruct it as [|a [|c s]]; [done|done|]. unfold increase_safely in H.
  apply Forall_cons in Hwf as [_ Hwf]. pose proof Hwf as [Hc _]%Forall_cons.
  rewrite is_trail_byte in H by done. destruct (Z.leb_spec 128 c), (Z.ltb_spec c 192); try done. simpl in H.
  injection H as -> <-. by exists a, s.
Qed.

Ltac land_simpl := rewrite ?land_63, ?land_2047, ?land_4095, ?land_65535, ?land_262143, ?land_2097151,
  ?Z.shiftl_mul_pow2 by lia.

Lemma overlong_false cp n :
  is_overlong_sequence cp n = false <->
  (cp < 128 -> n = 1) /\ (128 <= cp < 2048 -> n = 2) /\ (2048 <= cp < 65536 -> n = 3).
Proof.
  unfold is_overlong_sequence. destruct (Z.ltb_spec cp 0x80); [|destruct (Z.ltb_spec cp 0x800);
    [|destruct (Z.ltb_spec cp 0x10000)]]; rewrite ?negb_false_iff, ?Z.eqb_eq; lia.
Qed.

(** Decoding what [append] wrote. *)
Lemma validate_next_octets cp s : scalar cp -> validate_next (octets cp ++ s) = inr (cp, s).
Proof.
  intros Hs. pose proof (octets_bytes _ Hs) as Hb. pose proof (scalar_range _ Hs) as [Hr _]. destruct Hs as [_ Hv].
  assert (Hov : forall n, (cp < 128 -> n = 1) /\ (128 <= cp < 2048 -> n = 2) /\ (2048 <= cp < 65536 -> n = 3) ->
    is_overlong_sequence cp n = false) by (intros n; apply overlong_false).
  unfold octets in *. unfold validate_next.
  destruct (Z.ltb_spec cp 0x80); [|destruct (Z.ltb_spec cp 0x800); [|destruct (Z.ltb_spec cp 0x10000)]];
    cbn [app]; repeat (apply Forall_cons in Hb as [? Hb]); rewrite sequence_length_byte by done.
  - destruct (Z.ltb_spec cp 128); [|lia]. cbn [Z.eqb Pos.eqb get_sequence_1 bind]. rewrite mask8_byte by done.
    rewrite Hv, Hov by lia. done.
  - destruct (Z.ltb_spec (192 + cp / 64) 128); [zlia|].
    destruct (Z.leb_spec 192 (192 + cp / 64)); [|zlia]. destruct (Z.ltb_spec (192 + cp / 64) 224); [|zlia].
    cbn [andb Z.eqb Pos.eqb get_sequence_2]. rewrite increase_safely_byte by (done || zlia). cbn [bind].
    rewrite mask8_byte by done. land_simpl.
    replace (((192 + cp / 64) * 2 ^ 6) mod 2048 + (128 + cp mod 64) mod 64) with cp by zlia.
    rewrite Hv, Hov by lia. done.
  - destruct (Z.ltb_spec (224 + cp / 4096) 128); [zlia|].
    destruct (Z.ltb_spec (224 + cp / 4096) 224); [zlia|]. rewrite andb_false_r.
    destruct (Z.leb_spec 224 (224 + cp / 4096)); [|zlia]. destruct (Z.ltb_spec (224 + cp / 4096) 240); [|zlia].
    cbn [andb Z.eqb Pos.eqb get_sequence_3]. rewrite increase_safely_byte by (done || zlia). cbn [bind].
    rewrite increase_safely_byte by (done || zlia). cbn [bind]. rewrite !mask8_byte by done. land_simpl.
    replace (((224 + cp / 4096) * 2 ^ 12) mod 65536 + ((128 + cp / 64 mod 64) * 2 ^ 6) mod 4096 +
      (128 + cp mod 64) mod 64) with cp by zlia.
    rewrite Hv, Hov by lia. done.
  - destruct (Z.ltb_spec (240 + cp / 262144) 128); [zlia|].
    destruct (Z.ltb_spec (240 + cp / 262144) 224); [zlia|]. rewrite andb_false_r.
    destruct (Z.ltb_spec (240 + cp / 262144) 240); [zlia|]. rewrite andb_false_r.
    destruct (Z.leb_spec 240 (240 + cp / 262144)); [|zlia]. destruct (Z.ltb_spec (240 + cp / 262144) 248); [|zlia].
    cbn [andb Z.eqb Pos.eqb get_sequence_4]. rewrite increase_safely_byte by (done || zlia). cbn [bind].
    rewrite increase_safely_byte by (done || zlia). cbn [bind].
    rewrite increase_safely_byte by (done || zlia). cbn [bind]. rewrite !mask8_byte by done. land_simpl.
    replace (((240 + cp / 262144) * 2 ^ 18) mod 2097152 + ((128 + cp / 4096 mod 64) * 2 ^ 12) mod 262144 +
      ((128 + cp / 64 mod 64) * 2 ^ 6) mod 4096 + (128 + cp mod 64) mod 64) with cp by zlia.
    rewrite Hv, Hov by lia. done.
Qed.

(** What the sequence readers return. *)
Lemma get_sequence_1_inv it cp it' :
  wf_bytes it -> sequence_length it = 1 -> get_sequence_1 it = inr (cp, it') ->
  exists b s, it = b :: s /\ it' = b :: s /\ cp = b /\ 0 <= b < 128.
Proof.
  intros Hwf Hl H. destruct it as [|b s]; [done|]. apply Forall_cons in Hwf as [Hb _].
  rewrite sequence_length_byte in Hl by done. cbn in H. rewrite mask8_byte in H by done. injection H as <- <-.
  exists b, s. repeat split; try done; unfold is_byte in Hb; destruct (Z.ltb_spec b 128); try lia;
    destruct (_ && _); try lia; destruct (_ && _); try lia; destruct (_ && _); lia.
Qed.

Lemma lead_range b s n :
  is_byte b -> sequence_length (b :: s) = n -> 2 <= n <= 4 ->
  (n = 2 -> 192 <= b < 224) /\ (n = 3 -> 224 <= b < 240) /\ (n = 4 -> 240 <= b < 248).
Proof.
  intros Hb Hl Hn. rewrite sequence_length_byte in Hl by done.
  destruct (Z.ltb_spec b 128); [lia|].
  destruct (Z.leb_spec 192 b), (Z.ltb_spec b 224), (Z.leb_spec 224 b), (Z.ltb_spec b 240), (Z.leb_spec 240 b),
    (Z.ltb_spec b 248); cbn [andb] in Hl; lia.
Qed.

Lemma get_sequence_2_inv it cp it' :
  wf_bytes it -> sequence_length it = 2 -> get_sequence_2 it = inr (cp, it') ->
  exists a b s, it = a :: b :: s /\ it' = b :: s /\ 192 <= a < 224 /\ 128 <= b < 192 /\
    cp = (a - 192) * 64 + (b - 128).
Proof.
  intros Hwf Hl H. destruct it as [|a it]; [done|]. pose proof Hwf as [Ha _]%Forall_cons.
  unfold get_sequence_2 in H. destruct (increase_safely (a :: it)) as [e|[b it1]] eqn:E; [done|].
  apply increase_safely_inv in E as (a' & s & [= <- ->] & -> & Hb & Hbb); [|done]. cbn [bind] in H.
  injection H as <- <-. rewrite mask8_byte by done. land_simpl.
  pose proof (lead_range a _ 2 Ha Hl ltac:(lia)) as (H2 & _). specialize (H2 eq_refl).
  exists a, b, s. split; [done|]. split; [done|]. split; [done|]. split; [done|]. zlia.
Qed.

Lemma get_sequence_3_inv it cp it' :
  wf_bytes it -> sequence_length it = 3 -> get_sequence_3 it = inr (cp, it') ->
  exists a b c s, it = a :: b :: c :: s /\ it' = c :: s /\ 224 <= a < 240 /\ 128 <= b < 192 /\ 128 <= c < 192 /\
    cp = (a - 224) * 4096 + (b - 128) * 64 + (c - 128).
Proof.
  intros Hwf Hl H. destruct it as [|a it]; [done|]. pose proof Hwf as [Ha Hwf']%Forall_cons.
  unfold get_sequence_3 in H. destruct (increase_safely (a :: it)) as [e|[b it1]] eqn:E; [done|].
  apply increase_safely_inv in E as (a' & s & [= <- ->] & -> & Hb & Hbb); [|done]. cbn [bind] in H.
  destruct (increase_safely (b :: s)) as [e|[c it2]] eqn:E; [done|].
  apply increase_safely_inv in E as (b' & s' & [= <- ->] & -> & Hc & Hcb); [|done]. cbn [bind] in H.
  injection H as <- <-. rewrite !mask8_byte by done. land_simpl.
  pose proof (lead_range a _ 3 Ha Hl ltac:(lia)) as (_ & H3 & _). specialize (H3 eq_refl).
  exists a, b, c, s'. split; [done|]. split; [done|]. split; [done|]. split; [done|]. split; [done|]. zlia.
Qed.

Lemma get_sequence_4_inv it cp it' :
  wf_bytes it -> sequence_length it = 4 -> get_sequence_4 it = inr (cp, it') ->
  exists a b c d s, it = a :: b :: c :: d :: s /\ it' = d :: s /\ 240 <= a < 248 /\ 128 <= b < 192 /\
    128 <= c < 192 /\ 128 <= d < 192 /\
    cp = (a - 240) * 262144 + (b - 128) * 4096 + (c - 128) * 64 + (d - 128).
Proof.
  intros Hwf Hl H. destruct it as [|a it]; [done|]. pose proof Hwf as [Ha Hwf']%Forall_cons.
  unfold get_sequence_4 in H. destruct (increase_safely (a :: it)) as [e|[b it1]] eqn:E; [done|].
  apply increase_safely_inv in E as (a' & s & [= <- ->] & -> & Hb & Hbb); [|done]. cbn [bind] in H.
  destruct (increase_safely (b :: s)) as [e|[c it2]] eqn:E; [done|].
  apply increase_safely_inv in E as (b' & s' & [= <- ->] & -> & Hc & Hcb); [|done]. cbn [bind] in H.
  apply Forall_cons in Hwf' as [_ Hwf''].
  destruct (increase_safely (c :: s')) as [e|[d it3]] eqn:E; [done|].
  apply increase_safely_inv in E as (c' & s'' & [= <- ->] & -> & Hd & Hdb); [|done]. cbn [bind] in H.
  injection H as <- <-. rewrite !mask8_byte by done. land_simpl.
  pose proof (lead_range a _ 4 Ha Hl ltac:(lia)) as (_ & _ & H4). specialize (H4 eq_refl).
  exists a, b, c, d, s''. split; [done|]. split; [done|]. split; [done|]. split; [done|]. split; [done|].
  split; [done|]. zlia.
Qed.

Lemma sequence_length_cases it :
  wf_bytes it -> sequence_length it = 0 \/ sequence_length it = 1 \/ sequence_length it = 2 \/
    sequence_length it = 3 \/ sequence_length it = 4.
Proof.
  intros _. unfold sequence_length. destruct (_ <? _); [tauto|]. destruct (_ =? _); [tauto|].
  destruct (_ =? _); [tauto|]. destruct (_ =? _); tauto.
Qed.

(** Only shortest encodings of scalar values are accepted. *)
Lemma validate_next_inv it cp s :
  wf_bytes it -> validate_next it = inr (cp, s) -> scalar cp /\ it = octets cp ++ s.
Proof.
  intros Hwf H. unfold validate_next in H.
  assert (Hfin : forall r cp0 it0, r = inr (cp0, it0) -> 0 <= cp0 ->
    bind r (fun '(cp, it0) => if is_code_point_valid cp then
      if negb (is_overlong_sequence cp (sequence_length it)) then inr (cp, drop 1 it0)
      else inl OVERLONG_SEQUENCE else inl INVALID_CODE_POINT) = inr (cp, s) ->
    scalar cp /\ cp = cp0 /\ s = drop 1 it0 /\ is_overlong_sequence cp (sequence_length it) = false).
  { intros r cp0 it0 -> H0 Hb. cbn [bind] in Hb. destruct (is_code_point_valid cp0) eqn:Ev; [|done].
    destruct (is_overlong_sequence cp0 (sequence_length it)) eqn:Eo; [done|]. cbn [negb] in Hb.
    injection Hb as <- <-. by repeat split. }
  destruct (sequence_length_cases it Hwf) as [E|[E|[E|[E|E]]]]; rewrite E in H, Hfin;
    cbn [Z.eqb Pos.eqb] in H; [done| | | |].
  - destruct (get_sequence_1 it) as [e|[cp0 it0]] eqn:G; [done|].
    destruct (get_sequence_1_inv _ _ _ Hwf E G) as (b & s' & -> & -> & -> & Hb).
    destruct (Hfin _ b _ eq_refl ltac:(lia) H) as (Hs & -> & -> & Ho). split; [done|].
    unfold octets. destruct (Z.ltb_spec b 0x80); [done|lia].
  - destruct (get_sequence_2 it) as [e|[cp0 it0]] eqn:G; [done|].
    destruct (get_sequence_2_inv _ _ _ Hwf E G) as (a & b & s' & -> & -> & Ha & Hb & Hcp).
    destruct (Hfin _ cp0 _ eq_refl ltac:(lia) H) as (Hs & -> & -> & Ho). split; [done|].
    apply overlong_false in Ho. unfold octets.
    destruct (Z.ltb_spec cp0 0x80); [lia|]. destruct (Z.ltb_spec cp0 0x800); [|lia].
    cbn [app drop]. f_equal; [zlia|f_equal; zlia].
  - destruct (get_sequence_3 it) as [e|[cp0 it0]] eqn:G; [done|].
    destruct (get_sequence_3_inv _ _ _ Hwf E G) as (a & b & c & s' & -> & -> & Ha & Hb & Hc & Hcp).
    destruct (Hfin _ cp0 _ eq_refl ltac:(lia) H) as (Hs & -> & -> & Ho). split; [done|].
    apply overlong_false in Ho. unfold octets.
    destruct (Z.ltb_spec cp0 0x80); [lia|]. destruct (Z.ltb_spec cp0 0x800); [lia|].
    destruct (Z.ltb_spec cp0 0x10000); [|lia].
    assert (E1 : cp0 / 64 = (a - 224) * 64 + (b - 128)) by zlia.
    assert (E2 : cp0 / 4096 = a - 224) by zlia. rewrite E1, E2.
    assert (E3 : ((a - 224) * 64 + (b - 128)) mod 64 = b - 128) by zlia.
    assert (E4 : cp0 mod 64 = c - 128) by zlia. rewrite E3, E4.
    cbn [app drop]. f_equal; [lia|f_equal; [lia|f_equal; lia]].
  - destruct (get_sequence_4 it) as [e|[cp0 it0]] eqn:G; [done|].
    destruct (get_sequence_4_inv _ _ _ Hwf E G) as (a & b & c & d & s' & -> & -> & Ha & Hb & Hc & Hd & Hcp).
    destruct (Hfin _ cp0 _ eq_refl ltac:(lia) H) as (Hs & -> & -> & Ho). split; [done|].
    apply overlong_false in Ho. unfold octets.
    destruct (Z.ltb_spec cp0 0x80); [lia|]. destruct (Z.ltb_spec cp0 0x800); [lia|].
    destruct (Z.ltb_spec cp0 0x10000); [lia|].
    assert (E1 : cp0 / 64 = (a - 240) * 4096 + (b - 128) * 64 + (c - 128)) by zlia.
    assert (E2 : cp0 / 4096 = (a - 240) * 64 + (b - 128)) by zlia.
    assert (E3 : cp0 / 262144 = a - 240) by zlia. rewrite E1, E2, E3.
    assert (E4 : ((a - 240) * 4096 + (b - 128) * 64 + (c - 128)) mod 64 = c - 128) by zlia.
    assert (E5 : ((a - 240) * 64 + (b - 128)) mod 64 = b - 128) by zlia.
    assert (E6 : cp0 mod 64 = d - 128) by zlia. rewrite E4, E5, E6.
    cbn [app drop]. f_equal; [lia|f_equal; [lia|f_equal; [lia|f_equal; lia]]].
Qed.

Lemma next_octets cp s : scalar cp -> next (octets cp ++ s) = inr (cp, s).
Proof. intros. unfold next. by rewrite validate_next_octets. Qed.

Lemma next_inv it cp s : wf_bytes it -> next it = inr (cp, s) -> scalar cp /\ it = octets cp ++ s.
Proof.
  intros Hwf H. unfold next in H. destruct (validate_next it) as [[]|[cp' s']] eqn:E; try done.
  injection H as -> ->. by apply validate_next_inv.
Qed.

Lemma octets_length cp : (1 <= length (octets cp) <= 4)%nat.
Proof. unfold octets. destruct (_ <? _); [|destruct (_ <? _); [|destruct (_ <? _)]]; simpl; lia. Qed.

(** A string of code points. *)
Definition text (cps : list Z) : bytes := flat_map octets cps.
End utf8_facts.

(** ** Theorems *)
Section Theorems.
Import utf8 utf8_facts.

Lemma next_shorter it cp s : wf_bytes it -> next it = inr (cp, s) -> (length s < length it)%nat /\ wf_bytes s.
Proof.
  intros Hwf H. apply next_inv in H as [_ ->]; [|done]. rewrite length_app. pose proof (octets_length cp).
  apply Forall_app in Hwf as [_ Hwf]. split; [lia|done].
Qed.

(** The decoder accepts exactly the octets that the encoder writes: it
    returns a code point and the rest of the input if and only if the input
    starts with the encoding of that code point, so no surrogate, no overlong
    sequence and no number above U+10FFFF is ever accepted. *)
Theorem next_append it cp s :
  wf_bytes it -> 0 <= cp ->
  next it = inr (cp, s) <-> exists o, append cp = inr o /\ it = o ++ s.
Proof.
  intros Hwf H0. split.
  - intros H. apply next_inv in H as [Hs ->]; [|done]. exists (octets cp). by rewrite append_octets.
  - intros (o & Ha & ->). assert (Hs : scalar cp).
    { split; [done|]. unfold append in Ha. by destruct (is_code_point_valid cp). }
    rewrite append_octets in Ha by done. injection Ha as <-. by apply next_octets.
Qed.

Lemma next_append_witness :
  next [0xe4; 0xbd; 0xa0; 33] = inr (0x4f60, [33]) <-> exists o, append 0x4f60 = inr o /\ [0xe4; 0xbd; 0xa0; 33] = o ++ [33].
Proof. apply (next_append [0xe4; 0xbd; 0xa0; 33] 0x4f60 [33]); [|lia]. repeat constructor; cbv; done. Defined.

Lemma find_invalid_text fuel cps s :
  Forall scalar cps -> (length (text cps ++ s) <= fuel)%nat ->
  exists fuel', (length s <= fuel')%nat /\ find_invalid fuel (text cps ++ s) = find_invalid fuel' s.
Proof.
  intros Hs. revert fuel. induction Hs as [|cp cps Hc Hs IH]; intros fuel Hf; [by exists fuel|].
  cbn [text flat_map] in *. unfold text in *. rewrite <- app_assoc in *. pose proof (octets_length cp) as Hl.
  destruct fuel as [|fuel]; [rewrite length_app in Hf; lia|].
  destruct (IH fuel) as (f' & Hf' & E); [rewrite length_app in Hf; lia|]. exists f'. split; [done|].
  rewrite <- E. cbn [find_invalid]. rewrite validate_next_octets by done.
  destruct (octets cp ++ flat_map octets cps ++ s) eqn:Ee; [|done].
  apply app_eq_nil in Ee as [Ee _]. rewrite Ee in Hl. simpl in Hl. lia.
Qed.

Lemma find_invalid_spec fuel s :
  wf_bytes s -> (length s <= fuel)%nat ->
  exists cps r, Forall scalar cps /\ s = text cps ++ r /\ find_invalid fuel s = Some r /\
    (r = [] \/ exists e, validate_next r = inl e).
Proof.
  revert s. induction fuel as [|fuel IH]; intros s Hwf Hf.
  - destruct s; [|simpl in Hf; lia]. exists [], []. repeat split; [constructor|by left].
  - destruct s as [|b s]; [exists [], []; repeat split; [constructor|by left]|]. cbn [find_invalid].
    destruct (validate_next (b :: s)) as [e|[cp s']] eqn:E.
    + exists [], (b :: s). repeat split; [constructor|right; by exists e].
    + apply validate_next_inv in E as [Hc E]; [|done]. rewrite E in Hf, Hwf.
      pose proof (octets_length cp). rewrite length_app in Hf. apply Forall_app in Hwf as [_ Hwf].
      destruct (IH s' Hwf ltac:(lia)) as (cps & r & Hcs & -> & Hr & Hend).
      exists (cp :: cps), r. split; [by constructor|]. split; [|done]. rewrite E. cbn [text flat_map].
      unfold text. by rewrite <- app_assoc.
Qed.

(** The validity test always answers, and it answers yes exactly for the
    concatenations of encoded code points. *)
Theorem is_valid_correct s :
  wf_bytes s ->
  exists b, is_valid s = Some b /\ (b = true <-> exists cps, Forall scalar cps /\ s = text cps).
Proof.
  intros Hwf. unfold is_valid.
  destruct (find_invalid_spec (length s) s Hwf (le_n _)) as (cps & r & Hc & Hs & Hr & Hend).
  rewrite Hr. cbn [mbind option_bind]. eexists. split; [done|]. split.
  - destruct r; [|done]. intros _. exists cps. by rewrite Hs, app_nil_r.
  - intros (cps' & Hc' & Hs'). pose proof (find_invalid_text (length s) cps' [] Hc') as Hf.
    rewrite app_nil_r, <- Hs' in Hf. destruct (Hf (le_n _)) as (f' & _ & E). rewrite Hr in E.
    destruct f'; injection E as ->; done.
Qed.

Lemma is_valid_correct_witness :
  exists b, is_valid [0xe4; 0xbd; 0xa0; 33] = Some b /\
    (b = true <-> exists cps, Forall scalar cps /\ [0xe4; 0xbd; 0xa0; 33] = text cps).
Proof. apply is_valid_correct. repeat constructor; cbv; done. Defined.

(** *** Suffixes *)
Import UTF8SuffixBuilder.

(** The builder before the code points [cps], after the octets [pre]. *)
Definition builder_at (pre : bytes) (cps : list Z) (m : Z) : UTF8SuffixBuilder.t :=
  mk (pre ++ text cps) (text cps) (length pre) false m.

Lemma Term_builder_at pre cps m :
  take (TermSize (builder_at pre cps m)) (Term (builder_at pre cps m)) = text cps.
Proof.
  unfold TermSize, Term, builder_at; cbn [buffer_ pos_]. rewrite drop_app_length, length_app.
  apply take_ge. lia.
Qed.

Fixpoint tails (cps : list Z) : list (list Z) :=
  match cps with [] => [] | _ :: cps' => match cps' with [] => [] | _ => cps' :: tails cps' end end.

Lemma text_cons cp cps : text (cp :: cps) = octets cp ++ text cps.
Proof. done. Qed.

Lemma Next_builder_at pre cp cps m :
  scalar cp -> 0 <= m ->
  Next (builder_at pre (cp :: cps) m) =
    (builder_at (pre ++ octets cp) cps m,
     match cps with [] => false | _ => m <=? Z.of_nat (length (text cps)) end).
Proof.
  intros Hc Hm. unfold Next, builder_at; cbn [error it buffer_ pos_ min_suffix_len_].
  rewrite text_cons, next_octets by done.
  replace (length (pre ++ octets cp ++ text cps) - length (text cps))%nat with (length (pre ++ octets cp))
    by (rewrite !length_app; lia).
  rewrite (app_assoc pre). f_equal. rewrite (length_app (pre ++ octets cp)).
  replace (length (pre ++ octets cp) + length (text cps) - length (pre ++ octets cp))%nat
    with (length (text cps)) by lia.
  destruct cps as [|c cps].
  - cbn. rewrite bool_decide_false by lia. done.
  - rewrite text_cons, !length_app. pose proof (octets_length c). rewrite bool_decide_true by lia. done.
Qed.

Lemma loop_builder_at fuel pre cps m :
  Forall scalar cps -> 0 <= m -> (length cps < fuel)%nat -> cps <> [] ->
  loop fuel (builder_at pre cps m) =
    Some (text cps :: List.filter (fun s => m <=? Z.of_nat (length s)) (map text (tails cps))).
Proof.
  intros Hs Hm. revert pre fuel. induction Hs as [|cp cps Hc Hs IH]; intros pre fuel Hf Hne; [done|].
  destruct fuel as [|fuel]; [simpl in Hf; lia|]. cbn [loop].
  rewrite Next_builder_at, Term_builder_at by done. destruct cps as [|c cps]; [done|].
  assert (Hmono : forall l, Forall scalar l -> Z.of_nat (length (text l)) < m ->
    List.filter (fun s => m <=? Z.of_nat (length s)) (map text (tails l)) = []).
  { clear. intros l Hl. induction Hl as [|x l Hx Hl IH]; intros Hlt; [done|].
    rewrite text_cons, length_app in Hlt. destruct l as [|y l]; [done|]. cbn [tails map List.filter].
    cbn [tails] in IH. destruct (Z.leb_spec m (Z.of_nat (length (text (y :: l))))); [lia|]. apply IH. lia. }
  cbn [tails map List.filter]. destruct (Z.leb_spec m (Z.of_nat (length (text (c :: cps))))).
  - rewrite IH; [done|simpl in *; lia|done].
  - specialize (Hmono (c :: cps) Hs ltac:(lia)). cbn [tails] in Hmono. by rewrite Hmono.
Qed.

(** C37: for a term of well-formed UTF-8 the suffix builder visits the term and
    then, longest first, exactly its proper suffixes that start at a code
    point and have at least the minimum length (the term's own length if that
    is smaller). *)
Theorem suffixes_correct cps m :
  Forall scalar cps -> 0 <= m -> cps <> [] ->
  suffixes (text cps) m =
    Some (text cps :: List.filter
            (fun s => Z.min m (Z.of_nat (length (text cps))) <=? Z.of_nat (length s)) (map text (tails cps))).
Proof.
  intros Hs Hm Hne. unfold suffixes, create.
  replace (if Z.of_nat (length (text cps)) <? m then Z.of_nat (length (text cps)) else m)
    with (Z.min m (Z.of_nat (length (text cps)))) by (destruct (Z.ltb_spec (Z.of_nat (length (text cps))) m); lia).
  apply (loop_builder_at _ []); [done|lia| |done].
  apply le_n_S. clear. induction cps as [|c cps IH]; [simpl; lia|]. rewrite text_cons, length_app.
  pose proof (octets_length c). simpl. lia.
Qed.

Lemma suffixes_correct_witness :
  suffixes (text [104; 0x4f60; 105; 33]) 2 =
    Some [[104; 0xe4; 0xbd; 0xa0; 105; 33]; [0xe4; 0xbd; 0xa0; 105; 33]; [105; 33]].
Proof.
  rewrite (suffixes_correct [104; 0x4f60; 105; 33] 2); [vm_compute; reflexivity| |lia|done].
  repeat apply Forall_cons_2; try apply Forall_nil_2; split; try lia; reflexivity.
Defined.

Lemma loop_total fuel b :
  error b = false -> wf_bytes (it b) -> (length (it b) < fuel)%nat -> exists l, loop fuel b = Some l.
Proof.
  revert b. induction fuel as [|fuel IH]; intros b He Hwf Hf; [lia|]. cbn [loop].
  unfold Next at 1. rewrite He. destruct (next (it b)) as [e|[cp s]] eqn:E; [by eexists|].
  destruct (next_shorter _ _ _ Hwf E) as [Hlt Hwf'].
  match goal with |- context [if ?c then _ else _] => destruct c end; [|by eexists].
  destruct (IH (mk (buffer_ b) s (length (buffer_ b) - length s) false (min_suffix_len_ b))) as [l ->];
    [done|done|simpl; lia|by eexists].
Qed.

(** The suffix loop of the writer terminates on every byte string, valid
    UTF-8 or not. *)
Theorem suffixes_total term m : wf_bytes term -> exists l, suffixes term m = Some l.
Proof. intros Hwf. apply loop_total; [done|done|simpl; lia]. Qed.

Lemma suffixes_total_witness : exists l, suffixes [0xff; 0xe4; 1] 5 = Some l.
Proof. apply suffixes_total. repeat constructor; cbv; done. Defined.

(** *** Lower case *)
Definition lower_cp (cp : Z) : Z := if (65 <=? cp) && (cp <=? 90) then cp + 32 else cp.

Lemma lower_octets cp :
  scalar cp ->
  match octets cp with
  | [b] => if (65 <=? b) && (b <=? 90) then [97 + (b - 65)] else octets cp
  | _ => octets cp
  end = octets (lower_cp cp).
Proof.
  intros [Hr _]%scalar_range. unfold lower_cp.
  destruct (Z.ltb_spec cp 0x80) as [Hlt|Hge].
  - assert (octets cp = [cp]) as -> by (unfold octets; by destruct (Z.ltb_spec cp 0x80); [|lia]).
    destruct (Z.leb_spec 65 cp), (Z.leb_spec cp 90); cbn [andb]; unfold octets.
    + destruct (Z.ltb_spec (cp + 32) 0x80); [f_equal; lia|lia].
    + by destruct (Z.ltb_spec cp 0x80); [|lia].
    + by destruct (Z.ltb_spec cp 0x80); [|lia].
    + lia.
  - assert (match octets cp with [b] => if (65 <=? b) && (b <=? 90) then [97 + (b - 65)] else octets cp
            | _ => octets cp end = octets cp) as ->.
    { unfold octets. destruct (Z.ltb_spec cp 0x80); [lia|].
      destruct (Z.ltb cp 0x800); [done|]. by destruct (Z.ltb cp 0x10000). }
    destruct (Z.leb_spec 65 cp), (Z.leb_spec cp 90); try lia; done.
Qed.

Lemma ToLowerCase_text cps :
  Forall scalar cps -> ToLowerCase (text cps) = Some (text (map lower_cp cps)).
Proof.
  intros Hs. unfold ToLowerCase.
  assert (Hl : forall fuel, cps <> [] -> (length cps <= fuel)%nat ->
    lower_loop fuel (text cps) = Some (text (map lower_cp cps))).
  { induction Hs as [|cp cps Hc Hs IH]; intros fuel Hne Hf; [done|].
    destruct fuel as [|fuel]; [simpl in Hf; lia|]. cbn [lower_loop map].
    rewrite !text_cons, next_octets by done. rewrite length_app.
    replace (length (octets cp) + length (text cps) - length (text cps))%nat with (length (octets cp)) by lia.
    rewrite take_app_length. rewrite (lower_octets cp Hc).
    destruct cps as [|c cps]; [cbn; by rewrite app_nil_r|].
    rewrite IH by (done || simpl in *; lia). rewrite text_cons. pose proof (octets_length c).
    destruct (octets c ++ text cps) eqn:E; [|done].
    apply app_eq_nil in E as [E _]. rewrite E in H. simpl in H. lia. }
  destruct cps as [|c cps]; [done|].
  assert (Hlen : (length (c :: cps) <= length (text (c :: cps)))%nat).
  { clear. induction (c :: cps) as [|x l IH]; [done|]. rewrite text_cons, length_app.
    pose proof (octets_length x). simpl. lia. }
  rewrite <- Hl with (fuel := length (text (c :: cps))) by done.
  destruct (text (c :: cps)) eqn:E; [|done]. exfalso. simpl in Hlen. lia.
Qed.

(** Lower-casing well-formed UTF-8 maps the ASCII capitals to their small
    letters and changes no other code point. *)
Theorem ToLowerCase_correct cps :
  Forall scalar cps -> ToLowerCase (text cps) = Some (text (map lower_cp cps)).
Proof. apply ToLowerCase_text. Qed.

Lemma ToLowerCase_correct_witness : ToLowerCase [72; 105; 0xc3; 0x89] = Some [104; 105; 0xc3; 0x89].
Proof.
  apply (ToLowerCase_correct [72; 105; 0xc9]).
  repeat apply Forall_cons_2; try apply Forall_nil_2; split; try lia; reflexivity.
Defined.
End Theorems.
