(* ===== verification/Utf8Convert.v ===== *)
(** The rest of the UTF-8 library ([core.h], [checked.h], [unchecked.h]):
    navigation backwards, the conversions from and to UTF-16 and UTF-32, the
    iterator adaptors and the unchecked interface.

    A place a function moves backwards from is a position in the octets that
    start at its lower bound.  [None] is undefined behaviour: an octet or a
    word read outside of the range.  As in [Utf8] the octet at the upper bound
    of a checked range is the terminating zero of a C string. *)
From S2P Require Import Prelude Storage Coding Utf8.
Import utf8 utf8_facts.

(** [is_bom], deprecated: no test for the end. *)
Definition is_bom (it : bytes) : option bool :=
  a ← it !! 0%nat;
  if mask8 a =? 0xef then
    b ← it !! 1%nat;
    if mask8 b =? 0xbb then c ← it !! 2%nat; Some (mask8 c =? 0xbf) else Some false
  else Some false.

Definition LEAD_OFFSET : Z := u16 (LEAD_SURROGATE_MIN - Z.shiftr 0x10000 10).
Definition SURROGATE_OFFSET : Z := u32 (0x10000 - Z.shiftl LEAD_SURROGATE_MIN 10 - TRAIL_SURROGATE_MIN).

(** The exceptions of the conversions. *)
Inductive utf16_exception := utf8_exception (e : exception) | invalid_utf16 (u : Z).

(** ** The checked interface *)
Module checked.

(** The loop of [prior]: back to an octet that does not continue a sequence. *)
Fixpoint to_lead (s : bytes) (it : nat) : option (exception + nat) :=
  match it with
  | O => None
  | S it =>
      b ← s !! it;
      if is_trail b then
        match it with O => Some (inl (invalid_utf8 (u8 b))) | S _ => to_lead s it end
      else Some (inr it)
  end.

Definition prior (s : bytes) (it : nat) : option (exception + (Z * nat)) :=
  match it with
  | O => Some (inl not_enough_room)
  | S _ =>
      r ← to_lead s it;
      Some match r with
           | inl e => inl e
           | inr lead =>
               match peek_next (drop lead (take it s)) with
               | inl e => inl e
               | inr cp => inr (cp, lead)
               end
           end
  end.

(** [previous], deprecated: no test for the lower bound before the first step. *)
Definition previous (s : bytes) (it : nat) : option (exception + (Z * nat)) :=
  r ← to_lead s it;
  Some match r with
       | inl e => inl e
       | inr lead =>
           match next (drop lead (take it s)) with
           | inl e => inl e
           | inr (cp, _) => inr (cp, lead)
           end
       end.

Fixpoint utf16to8 (start : list Z) (result : bytes) : utf16_exception + bytes :=
  match start with
  | [] => inr result
  | w :: start =>
      let cp := mask16 w in
      if is_lead_surrogate cp then
        match start with
        | t :: start =>
            let trail_surrogate := mask16 t in
            if is_trail_surrogate trail_surrogate then
              let cp := u32 (u32 (Z.shiftl cp 10) + trail_surrogate + SURROGATE_OFFSET) in
              match append cp with
              | inl e => inl (utf8_exception e)
              | inr o => utf16to8 start (result ++ o)
              end
            else inl (invalid_utf16 (u16 trail_surrogate))
        | [] => inl (invalid_utf16 (u16 cp))
        end
      else if is_trail_surrogate cp then inl (invalid_utf16 (u16 cp))
      else
        match append cp with
        | inl e => inl (utf8_exception e)
        | inr o => utf16to8 start (result ++ o)
        end
  end.

(** The words of a code point. *)
Definition put16 (cp : Z) : list Z :=
  if 0xffff <? cp then [u16 (Z.shiftr cp 10 + LEAD_OFFSET); u16 (Z.land cp 0x3ff + TRAIL_SURROGATE_MIN)]
  else [u16 cp].

(** Every round reads at least one octet. *)
Fixpoint utf8to16_loop (fuel : nat) (start : bytes) (result : list Z) : option (exception + list Z) :=
  match start with
  | [] => Some (inr result)
  | _ =>
      match fuel with
      | O => None
      | S fuel =>
          match next start with
          | inl e => Some (inl e)
          | inr (cp, start) => utf8to16_loop fuel start (result ++ put16 cp)
          end
      end
  end.

Definition utf8to16 (start : bytes) (result : list Z) : option (exception + list Z) :=
  utf8to16_loop (length start) start result.

Fixpoint utf32to8 (start : list Z) (result : bytes) : exception + bytes :=
  match start with
  | [] => inr result
  | cp :: start =>
      match append (u32 cp) with
      | inl e => inl e
      | inr o => utf32to8 start (result ++ o)
      end
  end.

Fixpoint utf8to32_loop (fuel : nat) (start : bytes) (result : list Z) : option (exception + list Z) :=
  match start with
  | [] => Some (inr result)
  | _ =>
      match fuel with
      | O => None
      | S fuel =>
          match next start with
          | inl e => Some (inl e)
          | inr (cp, start) => utf8to32_loop fuel start (result ++ [cp])
          end
      end
  end.

Definition utf8to32 (start : bytes) (result : list Z) : option (exception + list Z) :=
  utf8to32_loop (length start) start result.

(** The iterator adaptor: places in one buffer [s]. *)
Record iterator := mkIterator { it : nat; range_start : nat; range_end : nat }.

Inductive iterator_exception := from_utf8 (e : exception) | out_of_range | logic_error.

Definition new_iterator (octet_it range_start range_end : nat) : iterator_exception + iterator :=
  if (octet_it <? range_start)%nat || (range_end <? octet_it)%nat then inl out_of_range
  else inr (mkIterator octet_it range_start range_end).

Definition base (i : iterator) : nat := it i.

(** The octets from the place to the end of the range. *)
Definition rest (s : bytes) (i : iterator) : bytes := drop (it i) (take (range_end i) s).

Definition deref (s : bytes) (i : iterator) : iterator_exception + Z :=
  match next (rest s i) with inl e => inl (from_utf8 e) | inr (cp, _) => inr cp end.

Definition equal (i rhs : iterator) : iterator_exception + bool :=
  if negb (range_start i =? range_start rhs)%nat || negb (range_end i =? range_end rhs)%nat then inl logic_error
  else inr (it i =? it rhs)%nat.

Definition increment (s : bytes) (i : iterator) : iterator_exception + iterator :=
  match next (rest s i) with
  | inl e => inl (from_utf8 e)
  | inr (_, ahead) => inr (mkIterator (range_end i - length ahead) (range_start i) (range_end i))
  end.

Definition decrement (s : bytes) (i : iterator) : option (iterator_exception + iterator) :=
  r ← prior (drop (range_start i) s) (it i - range_start i);
  Some match r with
       | inl e => inl (from_utf8 e)
       | inr (_, p) => inr (mkIterator (range_start i + p) (range_start i) (range_end i))
       end.
End checked.

(** ** The unchecked interface *)
Module unchecked.

Definition append (cp : Z) : bytes :=
  if cp <? 0x80 then [u8 cp]
  else if cp <? 0x800 then
    [u8 (Z.lor (Z.shiftr cp 6) 0xc0); u8 (Z.lor (Z.land cp 0x3f) 0x80)]
  else if cp <? 0x10000 then
    [u8 (Z.lor (Z.shiftr cp 12) 0xe0); u8 (Z.lor (Z.land (Z.shiftr cp 6) 0x3f) 0x80); u8 (Z.lor (Z.land cp 0x3f) 0x80)]
  else
    [u8 (Z.lor (Z.shiftr cp 18) 0xf0); u8 (Z.lor (Z.land (Z.shiftr cp 12) 0x3f) 0x80);
     u8 (Z.lor (Z.land (Z.shiftr cp 6) 0x3f) 0x80); u8 (Z.lor (Z.land cp 0x3f) 0x80)].

(** An octet that starts no sequence is its own code point. *)
Definition next (it : bytes) : option (Z * bytes) :=
  lead ← it !! 0%nat;
  let cp := mask8 lead in
  let length := sequence_length it in
  if length =? 2 then
    b ← it !! 1%nat;
    Some (Z.land (Z.shiftl cp 6) 0x7ff + Z.land b 0x3f, drop 2 it)
  else if length =? 3 then
    b ← it !! 1%nat; c ← it !! 2%nat;
    Some (Z.land (Z.shiftl cp 12) 0xffff + Z.land (Z.shiftl (mask8 b) 6) 0xfff + Z.land c 0x3f, drop 3 it)
  else if length =? 4 then
    b ← it !! 1%nat; c ← it !! 2%nat; d ← it !! 3%nat;
    Some (Z.land (Z.shiftl cp 18) 0x1fffff + Z.land (Z.shiftl (mask8 b) 12) 0x3ffff +
          Z.land (Z.shiftl (mask8 c) 6) 0xfff + Z.land d 0x3f, drop 4 it)
  else Some (cp, drop 1 it).

Definition peek_next (it : bytes) : option Z := '(cp, _) ← next it; Some cp.

(** [prior]: no lower bound. *)
Fixpoint to_lead (s : bytes) (it : nat) : option nat :=
  match it with
  | O => None
  | S it => b ← s !! it; if is_trail b then to_lead s it else Some it
  end.

Definition prior (s : bytes) (it : nat) : option (Z * nat) :=
  lead ← to_lead s it; cp ← peek_next (drop lead s); Some (cp, lead).

Definition previous (s : bytes) (it : nat) : option (Z * nat) := prior s it.

Fixpoint advance (n : nat) (it : bytes) : option bytes :=
  match n with
  | O => Some it
  | S n => '(_, it) ← next it; advance n it
  end.

Fixpoint distance_loop (fuel : nat) (first : bytes) (dist : Z) : option Z :=
  match first with
  | [] => Some dist
  | _ => match fuel with O => None | S fuel => '(_, first) ← next first; distance_loop fuel first (dist + 1) end
  end.

Definition distance (first : bytes) : option Z := distance_loop (length first) first 0.

Fixpoint utf16to8 (start : list Z) (result : bytes) : option bytes :=
  match start with
  | [] => Some result
  | w :: start =>
      let cp := mask16 w in
      if is_lead_surrogate cp then
        match start with
        | t :: start =>
            let trail_surrogate := mask16 t in
            let cp := u32 (u32 (Z.shiftl cp 10) + trail_surrogate + SURROGATE_OFFSET) in
            utf16to8 start (result ++ append cp)
        | [] => None
        end
      else utf16to8 start (result ++ append cp)
  end.

Fixpoint utf8to16_loop (fuel : nat) (start : bytes) (result : list Z) : option (list Z) :=
  match start with
  | [] => Some result
  | _ =>
      match fuel with
      | O => None
      | S fuel => '(cp, start) ← next start; utf8to16_loop fuel start (result ++ checked.put16 cp)
      end
  end.

Definition utf8to16 (start : bytes) (result : list Z) : option (list Z) := utf8to16_loop (length start) start result.

Fixpoint utf32to8 (start : list Z) (result : bytes) : bytes :=
  match start with
  | [] => result
  | cp :: start => utf32to8 start (result ++ append (u32 cp))
  end.

Fixpoint utf8to32_loop (fuel : nat) (start : bytes) (result : list Z) : option (list Z) :=
  match start with
  | [] => Some result
  | _ =>
      match fuel with
      | O => None
      | S fuel => '(cp, start) ← next start; utf8to32_loop fuel start (result ++ [cp])
      end
  end.

Definition utf8to32 (start : bytes) (result : list Z) : option (list Z) := utf8to32_loop (length start) start result.

(** The iterator adaptor is a place. *)
Definition deref (s : bytes) (it : nat) : option Z := peek_next (drop it s).
Definition equal (it rhs : nat) : bool := (it =? rhs)%nat.
Definition increment (s : bytes) (it : nat) : option nat :=
  _ ← s !! it; Some (it + Z.to_nat (sequence_length (drop it s)))%nat.
Definition decrement (s : bytes) (it : nat) : option nat := '(_, it) ← prior s it; Some it.
End unchecked.

(** ** Going back *)
Section Prior.

Lemma octets_lead cp : scalar cp ->
  exists b ts, octets cp = b :: ts /\ is_trail b = false /\ Forall (fun t => is_trail t = true) ts.
Proof.
  intros Hs. pose proof (octets_bytes _ Hs) as Hb. pose proof (scalar_range _ Hs) as [Hr _]. unfold octets in *.
  assert (Ht : forall x, is_byte (128 + x mod 64) -> is_trail (128 + x mod 64) = true).
  { intros x Hx. rewrite is_trail_byte by done. apply andb_true_iff. split; [apply Z.leb_le|apply Z.ltb_lt]; zlia. }
  assert (Hl : forall x, is_byte x -> x < 128 \/ 192 <= x -> is_trail x = false).
  { intros x Hx Hor. rewrite is_trail_byte by done. apply andb_false_iff.
    destruct Hor; [left; apply Z.leb_gt; lia|right; apply Z.ltb_ge; lia]. }
  destruct (Z.ltb_spec cp 0x80); [|destruct (Z.ltb_spec cp 0x800); [|destruct (Z.ltb_spec cp 0x10000)]];
    repeat (apply Forall_cons in Hb as [? Hb]); (eexists _, _; split; [reflexivity|]; split; [apply Hl; [done|zlia]|]);
    repeat (apply Forall_cons; split; [by apply Ht|]); apply Forall_nil_2.
Qed.

Lemma to_lead_back pre b ts :
  is_trail b = false -> Forall (fun t => is_trail t = true) ts ->
  forall suf, checked.to_lead (pre ++ b :: ts ++ suf) (length pre + S (length ts)) = Some (inr (length pre)).
Proof.
  intros Hb. induction ts as [|t ts IH] using rev_ind; intros Hts suf.
  - rewrite Nat.add_1_r. cbn [checked.to_lead]. rewrite (lookup_app_r pre), Nat.sub_diag by lia.
    cbn [app mbind option_bind lookup list_lookup]. by rewrite Hb.
  - apply Forall_app in Hts as [Hts Ht]. apply Forall_cons in Ht as [Ht _]. rewrite length_app, Nat.add_1_r, Nat.add_succ_r.
    cbn [checked.to_lead]. rewrite <- app_assoc. cbn [app].
    rewrite (lookup_app_r pre) by lia. replace (length pre + S (length ts) - length pre)%nat with (S (length ts)) by lia.
    cbn [lookup list_lookup]. rewrite (lookup_app_r ts), Nat.sub_diag by lia. cbn [lookup list_lookup mbind option_bind].
    rewrite Ht. specialize (IH Hts (t :: suf)). destruct (length pre + S (length ts))%nat eqn:E; [lia|exact IH].
Qed.

Lemma to_lead_inv s it p :
  checked.to_lead s it = Some (inr p) ->
  (it <= length s)%nat /\ exists b ts, take it s = take p s ++ b :: ts /\ (p < it)%nat /\ Forall (fun t => is_trail t = true) ts.
Proof.
  induction it as [|it IH]; cbn [checked.to_lead]; [done|]. destruct (s !! it) as [b|] eqn:Hb; cbn [mbind option_bind]; [|done].
  pose proof (lookup_lt_Some _ _ _ Hb). rewrite (take_S_r _ _ _ Hb). destruct (is_trail b) eqn:Ht.
  - destruct it as [|it]; [done|]. intros E. destruct (IH E) as (_ & b' & ts & Et & Hp & Hts). split; [lia|].
    exists b', (ts ++ [b]). rewrite Et, <- app_assoc. split; [done|]. split; [lia|]. apply Forall_app. by split; [|constructor].
  - intros [= ->]. split; [lia|]. exists b, []. by split; [|split; [lia|constructor]].
Qed.

(** Moving back is exact: [prior] returns [cp] and moves to [p] if and only
    if the octets before the place are those before [p], the encoding of [cp]
    and stray continuation octets, if any. *)
Theorem prior_correct s it cp p :
  wf_bytes s -> (it <= length s)%nat ->
  checked.prior s it = Some (inr (cp, p)) <->
  (p <= it)%nat /\ scalar cp /\
  exists ts, take it s = take p s ++ octets cp ++ ts /\ Forall (fun t => is_trail t = true) ts.
Proof.
  intros Hw Hle. split.
  - intros E. unfold checked.prior in E. destruct it as [|it']; [done|]. set (it := S it') in *.
    destruct (checked.to_lead s it) as [[e|lead]|] eqn:El; cbn [mbind option_bind] in E; [done| |done].
    destruct (to_lead_inv _ _ _ El) as (_ & b & ts & Et & Hp & Hts).
    unfold peek_next in E. destruct (next _) as [e|[cp' rest]] eqn:En; [done|]. injection E as <- <-.
    assert (Ed : drop lead (take it s) = b :: ts).
    { rewrite Et, drop_app_length'; [done|]. rewrite length_take. lia. }
    rewrite Ed in En. apply next_inv in En as [Hs Eo].
    2:{ rewrite <- Ed. by apply Forall_drop, Forall_take. }
    split; [lia|]. split; [done|]. destruct (octets_lead _ Hs) as (b' & ts' & Ho & _ & _).
    exists rest. rewrite Et, Eo. split; [done|]. rewrite Ho in Eo. injection Eo as _ ->. by apply Forall_app in Hts as [_ ?].
  - intros (Hp & Hs & ts & Et & Hts). destruct (octets_lead _ Hs) as (b & ts' & Ho & Hb & Hts').
    assert (El : checked.to_lead s it = Some (inr p)).
    { assert (E : s = take p s ++ b :: (ts' ++ ts) ++ drop it s).
      { rewrite <- (take_drop it s) at 1. rewrite Et, Ho. rewrite <- !app_assoc. done. }
      assert (Hlen : it = (length (take p s) + S (length (ts' ++ ts)))%nat).
      { transitivity (length (take it s)); [rewrite length_take; lia|]. rewrite Et, Ho, length_app. done. }
      pose proof (to_lead_back (take p s) b (ts' ++ ts) Hb (Forall_app_2 _ _ _ Hts' Hts) (drop it s)) as T.
      rewrite <- E, <- Hlen in T. rewrite T, length_take. do 2 f_equal. lia. }
    unfold checked.prior. destruct it as [|it']; [done|]. set (it := S it') in *. rewrite El. cbn [mbind option_bind].
    rewrite Et, drop_app_length' by (rewrite length_take; lia). unfold peek_next. by rewrite next_octets.
Qed.
End Prior.

(** A whole text can be walked backwards. *)
Corollary prior_text cps cp : Forall scalar cps -> scalar cp ->
  checked.prior (text (cps ++ [cp])) (length (text (cps ++ [cp]))) = Some (inr (cp, length (text cps))).
Proof.
  intros Hs Hc. assert (Hw : forall l, Forall scalar l -> wf_bytes (text l)).
  { intros l. induction 1; cbn [text flat_map]; [constructor|]. apply Forall_app. split; [by apply octets_bytes|done]. }
  assert (E : text (cps ++ [cp]) = text cps ++ octets cp).
  { unfold text. rewrite flat_map_app. cbn [flat_map]. by rewrite app_nil_r. }
  apply prior_correct; [apply Hw, Forall_app; by split; [|constructor]|done|]. rewrite E, length_app. split; [lia|]. split; [done|].
  exists []. rewrite app_nil_r, take_app_length, (firstn_all2 (n := length _ + _)); [by split|]. rewrite length_app. lia.
Qed.

(** ** UTF-16 and UTF-32 *)
Section Conversions.
Definition is_u16 (w : Z) : Prop := 0 <= w < 2 ^ 16.

Lemma mask16_word w : is_u16 w -> mask16 w = w.
Proof. intros Hw. unfold mask16. rewrite Z.land_comm, land_65535. by apply Z.mod_small. Qed.

Lemma put16_word cp : 0 <= cp <= 0xffff -> checked.put16 cp = [cp].
Proof.
  intros H. unfold checked.put16. destruct (Z.ltb_spec 0xffff cp); [lia|]. f_equal. unfold u16. apply Z.mod_small. lia.
Qed.

Lemma put16_pair cp : 0xffff < cp <= 0x10ffff -> checked.put16 cp = [0xd7c0 + cp / 1024; 0xdc00 + cp mod 1024].
Proof.
  intros H. unfold checked.put16. destruct (Z.ltb_spec 0xffff cp); [|lia]. rewrite Z.shiftr_div_pow2 by lia.
  rewrite (Z.land_ones cp 10 ltac:(lia) : Z.land cp 0x3ff = cp mod 1024). change (2 ^ 10) with 1024.
  change LEAD_OFFSET with 0xd7c0. change TRAIL_SURROGATE_MIN with 0xdc00. unfold u16. repeat f_equal; zlia.
Qed.

Lemma put16_words cp : scalar cp -> Forall is_u16 (checked.put16 cp).
Proof.
  intros [Hr _]%scalar_range. destruct (Z_le_gt_dec cp 0xffff).
  - rewrite put16_word by lia. repeat constructor; unfold is_u16; lia.
  - rewrite put16_pair by lia. repeat constructor; unfold is_u16; zlia.
Qed.

Lemma lead_spec w : is_lead_surrogate w = true <-> 0xd800 <= w <= 0xdbff.
Proof. unfold is_lead_surrogate. rewrite andb_true_iff, !Z.leb_le. done. Qed.
Lemma trail_spec w : is_trail_surrogate w = true <-> 0xdc00 <= w <= 0xdfff.
Proof. unfold is_trail_surrogate. rewrite andb_true_iff, !Z.leb_le. done. Qed.

Lemma scalar_intro cp : 0 <= cp <= 0x10ffff -> ~ 0xd800 <= cp <= 0xdfff -> scalar cp.
Proof.
  intros H1 H2. split; [lia|]. unfold is_code_point_valid, is_surrogate, CODE_POINT_MAX, LEAD_SURROGATE_MIN, TRAIL_SURROGATE_MAX.
  apply andb_true_iff. split; [apply Z.leb_le; lia|]. apply negb_true_iff, andb_false_iff. rewrite !Z.leb_gt. lia.
Qed.

(** The code point of a surrogate pair. *)
Lemma pair_value l t : 0xd800 <= l <= 0xdbff -> 0xdc00 <= t <= 0xdfff ->
  u32 (u32 (Z.shiftl l 10) + t + SURROGATE_OFFSET) = (l - 0xd7c0) * 1024 + (t - 0xdc00).
Proof.
  intros Hl Ht. rewrite Z.shiftl_mul_pow2 by lia. change (2 ^ 10) with 1024.
  change SURROGATE_OFFSET with (2 ^ 32 - 0x35fdc00). unfold u32. zlia.
Qed.

Lemma utf16to8_put cp ws r : scalar cp ->
  checked.utf16to8 (checked.put16 cp ++ ws) r = checked.utf16to8 ws (r ++ octets cp).
Proof.
  intros Hs. pose proof (scalar_range _ Hs) as [Hr Hn]. pose proof (put16_words _ Hs) as Hw. pose proof (append_octets _ Hs) as Ha.
  destruct (Z_le_gt_dec cp 0xffff).
  - rewrite put16_word in * by lia. apply Forall_cons in Hw as [Hw _]. cbn [app checked.utf16to8]. rewrite mask16_word by done.
    destruct (is_lead_surrogate cp) eqn:E1; [apply lead_spec in E1; lia|].
    destruct (is_trail_surrogate cp) eqn:E2; [apply trail_spec in E2; lia|]. by rewrite Ha.
  - rewrite put16_pair in * by lia. apply Forall_cons in Hw as [Hw1 Hw]. apply Forall_cons in Hw as [Hw2 _].
    cbn [app checked.utf16to8]. rewrite !mask16_word by done.
    rewrite (proj2 (lead_spec _)), (proj2 (trail_spec _)) by zlia. rewrite pair_value by zlia.
    replace ((0xd7c0 + cp / 1024 - 0xd7c0) * 1024 + (0xdc00 + cp mod 1024 - 0xdc00)) with cp by zlia. by rewrite Ha.
Qed.

Lemma utf16to8_text cps r : Forall scalar cps ->
  checked.utf16to8 (flat_map checked.put16 cps) r = inr (r ++ text cps).
Proof.
  intros Hs. revert r. induction Hs as [|cp cps Hc _ IH]; intros r; cbn [flat_map text].
  - by rewrite app_nil_r.
  - rewrite utf16to8_put by done. rewrite IH. cbn [text flat_map]. by rewrite <- app_assoc.
Qed.

(** What [utf16to8] reads in one round. *)
Lemma utf16to8_inv ws r s : Forall is_u16 ws -> checked.utf16to8 ws r = inr s ->
  ws = [] /\ s = r \/
  exists cp ws', ws = checked.put16 cp ++ ws' /\ scalar cp /\ (length ws' < length ws)%nat /\
    checked.utf16to8 ws' (r ++ octets cp) = inr s.
Proof.
  intros Hw H. destruct ws as [|w ws]; [left; by injection H as <-|]. right.
  apply Forall_cons in Hw as [Hw Hws]. cbn [checked.utf16to8] in H. rewrite mask16_word in H by done.
  destruct (is_lead_surrogate w) eqn:E1.
  - apply lead_spec in E1. destruct ws as [|t ws]; [done|]. apply Forall_cons in Hws as [Ht _]. rewrite mask16_word in H by done.
    destruct (is_trail_surrogate t) eqn:E2; [|done]. apply trail_spec in E2. rewrite pair_value in H by done.
    set (cp := (w - 0xd7c0) * 1024 + (t - 0xdc00)) in *. assert (Hs : scalar cp) by (apply scalar_intro; lia).
    rewrite append_octets in H by done. exists cp, ws. split; [|by split; [|split; [cbn; lia|]]].
    rewrite put16_pair by lia. cbn [app]. f_equal; [zlia|f_equal; zlia].
  - destruct (is_trail_surrogate w) eqn:E2; [done|]. unfold is_u16 in Hw.
    assert (Hs : scalar w).
    { apply scalar_intro; [lia|]. intros Hr.
      destruct (Z_le_gt_dec w 0xdbff); [by rewrite (proj2 (lead_spec w)) in E1 by lia|by rewrite (proj2 (trail_spec w)) in E2 by lia]. }
    rewrite append_octets in H by done. exists w, ws. split; [by rewrite put16_word by lia|]. by split; [|split; [cbn; lia|]].
Qed.

Lemma utf16to8_only ws r s : Forall is_u16 ws -> checked.utf16to8 ws r = inr s ->
  exists cps, Forall scalar cps /\ ws = flat_map checked.put16 cps /\ s = r ++ text cps.
Proof.
  remember (length ws) as n eqn:E. revert ws r E. induction n as [n IH] using lt_wf_ind. intros ws r -> Hw H.
  destruct (utf16to8_inv ws r s Hw H) as [[-> ->]|(cp & ws' & -> & Hs & Hl & H')].
  - exists []. cbn. by rewrite app_nil_r.
  - apply Forall_app in Hw as [_ Hw]. destruct (IH _ Hl ws' _ eq_refl Hw H') as (cps & Hcps & -> & ->).
    exists (cp :: cps). split; [by constructor|]. split; [done|]. by rewrite <- app_assoc.
Qed.

(** The loops that decode octets, whatever they put out. *)
Lemma utf8to16_text fuel cps r : Forall scalar cps -> (length (text cps) <= fuel)%nat ->
  checked.utf8to16_loop fuel (text cps) r = Some (inr (r ++ flat_map checked.put16 cps)).
Proof.
  intros Hs. revert fuel r. induction Hs as [|cp cps Hc _ IH]; intros fuel r Hf.
  - destruct fuel; cbn; by rewrite app_nil_r.
  - rewrite text_cons in *. rewrite length_app in Hf. pose proof (octets_length cp).
    destruct fuel as [|fuel]; [lia|]. cbn [checked.utf8to16_loop].
    destruct (octets cp ++ text cps) eqn:E; [apply (f_equal length) in E; rewrite length_app in E; cbn in E; lia|]. rewrite <- E, next_octets by done.
    rewrite IH by lia. cbn [flat_map]. by rewrite app_assoc.
Qed.

Lemma utf8to16_loop_total fuel s r : wf_bytes s -> (length s <= fuel)%nat -> exists x, checked.utf8to16_loop fuel s r = Some x.
Proof.
  revert s r. induction fuel as [|fuel IH]; intros s r Hw Hf; (destruct s as [|b s]; [by eexists|]); [cbn in Hf; lia|].
  cbn [checked.utf8to16_loop]. destruct (next (b :: s)) as [e|[cp s']] eqn:E; [by eexists|].
  destruct (next_shorter _ _ _ Hw E) as [Hl Hw']. apply IH; [done|lia].
Qed.

Lemma utf8to16_only fuel s r ws : wf_bytes s -> checked.utf8to16_loop fuel s r = Some (inr ws) ->
  exists cps, Forall scalar cps /\ s = text cps /\ ws = r ++ flat_map checked.put16 cps.
Proof.
  revert s r. induction fuel as [|fuel IH]; intros s r Hw; (destruct s as [|b s]; [intros [= <-]; exists []; cbn; by rewrite app_nil_r|]);
    cbn [checked.utf8to16_loop]; [done|].
  destruct (next (b :: s)) as [e|[cp s']] eqn:E; [done|]. intros H. destruct (next_shorter _ _ _ Hw E) as [_ Hw'].
  apply next_inv in E as [Hc E]; [|done]. destruct (IH _ _ Hw' H) as (cps & Hs & -> & ->).
  exists (cp :: cps). split; [by constructor|]. rewrite text_cons. split; [done|]. by rewrite <- app_assoc.
Qed.

Lemma utf32to8_text cps r : Forall scalar cps -> checked.utf32to8 cps r = inr (r ++ text cps).
Proof.
  intros Hs. revert r. induction Hs as [|cp cps Hc _ IH]; intros r; [cbn; by rewrite app_nil_r|]. cbn [checked.utf32to8].
  pose proof (scalar_range _ Hc) as [Hr _]. rewrite u32_id, append_octets by (done || (unfold is_u32; lia)). rewrite IH, text_cons. by rewrite <- app_assoc.
Qed.

Lemma append_scalar cp o : 0 <= cp -> append cp = inr o -> scalar cp.
Proof. intros H0 H. split; [done|]. unfold append in H. by destruct (is_code_point_valid cp). Qed.

Lemma utf32to8_only cs r s : Forall is_u32 cs -> checked.utf32to8 cs r = inr s -> Forall scalar cs /\ s = r ++ text cs.
Proof.
  intros Hu. revert r. induction Hu as [|cp cs Hc _ IH]; intros r; cbn [checked.utf32to8].
  - intros [= <-]. cbn. by rewrite app_nil_r.
  - rewrite u32_id by done. unfold is_u32 in Hc. destruct (append cp) as [e|o] eqn:E; [done|].
    assert (Hs : scalar cp) by (apply (append_scalar cp o); [lia|done]). rewrite append_octets in E by done. injection E as <-.
    intros H. destruct (IH _ H) as [Hcs ->]. split; [by constructor|]. by rewrite text_cons, <- app_assoc.
Qed.

Lemma utf8to32_text fuel cps r : Forall scalar cps -> (length (text cps) <= fuel)%nat ->
  checked.utf8to32_loop fuel (text cps) r = Some (inr (r ++ cps)).
Proof.
  intros Hs. revert fuel r. induction Hs as [|cp cps Hc _ IH]; intros fuel r Hf.
  - destruct fuel; cbn; by rewrite app_nil_r.
  - rewrite text_cons in *. rewrite length_app in Hf. pose proof (octets_length cp).
    destruct fuel as [|fuel]; [lia|]. cbn [checked.utf8to32_loop].
    destruct (octets cp ++ text cps) eqn:E; [apply (f_equal length) in E; rewrite length_app in E; cbn in E; lia|]. rewrite <- E, next_octets by done.
    rewrite IH by lia. by rewrite <- app_assoc.
Qed.

Lemma utf8to32_only fuel s r cs : wf_bytes s -> checked.utf8to32_loop fuel s r = Some (inr cs) ->
  exists cps, Forall scalar cps /\ s = text cps /\ cs = r ++ cps.
Proof.
  revert s r. induction fuel as [|fuel IH]; intros s r Hw; (destruct s as [|b s]; [intros [= <-]; exists []; cbn; by rewrite app_nil_r|]);
    cbn [checked.utf8to32_loop]; [done|].
  destruct (next (b :: s)) as [e|[cp s']] eqn:E; [done|]. intros H. destruct (next_shorter _ _ _ Hw E) as [_ Hw'].
  apply next_inv in E as [Hc E]; [|done]. destruct (IH _ _ Hw' H) as (cps & Hs & -> & ->).
  exists (cp :: cps). split; [by constructor|]. rewrite text_cons. split; [done|]. by rewrite <- app_assoc.
Qed.

(** C38: the conversions between the encodings are inverse to each other: one
    accepts an input with a result exactly if the other turns the result into
    that input, and the decoding loop always ends. *)
Theorem conversions_inverse s :
  wf_bytes s ->
  (forall ws, Forall is_u16 ws -> checked.utf16to8 ws [] = inr s <-> checked.utf8to16 s [] = Some (inr ws)) /\
  (forall cs, Forall is_u32 cs -> checked.utf32to8 cs [] = inr s <-> checked.utf8to32 s [] = Some (inr cs)) /\
  (exists r, checked.utf8to16 s [] = Some r).
Proof.
  intros Hw. split; [|split].
  - intros ws Hws. split.
    + intros H. apply utf16to8_only in H as (cps & Hs & -> & ->); [|done]. by apply utf8to16_text.
    + intros H. apply utf8to16_only in H as (cps & Hs & -> & ->); [|done]. by apply utf16to8_text.
  - intros cs Hcs. split.
    + intros H. apply utf32to8_only in H as [Hs ->]; [|done]. by apply utf8to32_text.
    + intros H. apply utf8to32_only in H as (cps & Hs & -> & ->); [|done]. by apply utf32to8_text.
  - by apply utf8to16_loop_total.
Qed.
End Conversions.

(** ** The unchecked interface on valid input *)
Section Unchecked.

Lemma unchecked_append cp o : append cp = inr o -> unchecked.append cp = o.
Proof. unfold append, unchecked.append. destruct (negb _); [done|]. repeat case_match; congruence. Qed.

Lemma sequence_length_values it : sequence_length it = 0 \/ sequence_length it = 1 \/ sequence_length it = 2 \/
  sequence_length it = 3 \/ sequence_length it = 4.
Proof. unfold sequence_length. repeat case_match; tauto. Qed.

Lemma unchecked_next it r : next it = inr r -> unchecked.next it = Some r.
Proof.
  unfold next. destruct (validate_next it) as [e|r'] eqn:E; [by destruct e|]. intros [= ->].
  destruct it as [|b it]; [done|]. unfold unchecked.next. cbn [lookup list_lookup mbind option_bind]. unfold validate_next in E.
  destruct (sequence_length_values (b :: it)) as [H|[H|[H|[H|H]]]]; rewrite H in E |- *; cbn [Z.eqb Pos.eqb get_sequence_1 get_sequence_2 get_sequence_3 get_sequence_4] in E |- *.
  - done.
  - cbn [bind] in E. repeat case_match; congruence.
  - destruct it as [|c it]; [done|]. unfold increase_safely in E. destruct (is_trail c); [|done]. cbn in E |- *. repeat case_match; congruence.
  - destruct it as [|c [|d it]]; [done| |]; unfold increase_safely in E; destruct (is_trail c); try done; cbn [bind] in E; try done.
    destruct (is_trail d); [|done]. cbn in E |- *. repeat case_match; congruence.
  - destruct it as [|c [|d [|e it]]]; [done| | |]; unfold increase_safely in E; destruct (is_trail c); try done; cbn [bind] in E; try done;
      destruct (is_trail d); try done; cbn [bind] in E; try done.
    destruct (is_trail e); [|done]. cbn in E |- *. repeat case_match; congruence.
Qed.

Lemma unchecked_to_lead s it lead : checked.to_lead s it = Some (inr lead) -> unchecked.to_lead s it = Some lead.
Proof.
  induction it as [|it IH]; cbn [checked.to_lead unchecked.to_lead]; [done|]. destruct (s !! it) as [b|]; cbn [mbind option_bind]; [|done].
  destruct (is_trail b); [|by intros [= ->]]. by destruct it.
Qed.

Lemma unchecked_prior s it r : wf_bytes s -> (it <= length s)%nat ->
  checked.prior s it = Some (inr r) -> unchecked.prior s it = Some r.
Proof.
  intros Hw Hle H. destruct r as [cp p]. pose proof H as H'. unfold checked.prior in H'. destruct it as [|it']; [done|].
  destruct (checked.to_lead s (S it')) as [[e|lead]|] eqn:E; cbn [mbind option_bind] in H'; [done| |done].
  unfold peek_next in H'. destruct (next _) as [e|[cp' rest]] eqn:En; [done|]. injection H' as <- <-.
  unfold unchecked.prior. rewrite (unchecked_to_lead _ _ _ E). cbn [mbind option_bind].
  apply next_inv in En as [Hs Eo]; [|by apply Forall_drop, Forall_take].
  assert (Ed : drop lead s = octets cp' ++ rest ++ drop (S it') s).
  { destruct (to_lead_inv _ _ _ E) as (_ & b & ts & _ & Hp & _). rewrite <- (take_drop (S it') s) at 1.
    rewrite drop_app_le, Eo by (rewrite length_take; lia). by rewrite <- app_assoc. }
  unfold unchecked.peek_next. rewrite Ed, (unchecked_next _ (cp', rest ++ drop (S it') s)); [done|]. by apply next_octets.
Qed.

Lemma unchecked_utf16to8 ws r s : checked.utf16to8 ws r = inr s -> unchecked.utf16to8 ws r = Some s.
Proof.
  remember (length ws) as n eqn:E. revert ws r E. induction n as [n IH] using lt_wf_ind. intros ws r ->.
  destruct ws as [|w ws]; cbn [checked.utf16to8 unchecked.utf16to8]; [by intros [= ->]|].
  destruct (is_lead_surrogate (mask16 w)).
  - destruct ws as [|t ws]; [done|]. destruct (is_trail_surrogate (mask16 t)); [|done].
    destruct (append _) as [e|o] eqn:Ea; [done|]. rewrite (unchecked_append _ _ Ea). apply (IH (length ws)); cbn; [lia|done].
  - destruct (is_trail_surrogate (mask16 w)); [done|]. destruct (append _) as [e|o] eqn:Ea; [done|]. rewrite (unchecked_append _ _ Ea).
    apply (IH (length ws)); cbn; [lia|done].
Qed.

Lemma unchecked_utf32to8 cs r s : checked.utf32to8 cs r = inr s -> unchecked.utf32to8 cs r = s.
Proof.
  revert r. induction cs as [|cp cs IH]; intros r; cbn [checked.utf32to8 unchecked.utf32to8]; [by intros [= ->]|].
  destruct (append _) as [e|o] eqn:Ea; [done|]. rewrite (unchecked_append _ _ Ea). apply IH.
Qed.

Lemma unchecked_utf8to16 fuel s r ws : checked.utf8to16_loop fuel s r = Some (inr ws) -> unchecked.utf8to16_loop fuel s r = Some ws.
Proof.
  revert s r. induction fuel as [|fuel IH]; intros s r; destruct s as [|b s]; cbn [checked.utf8to16_loop unchecked.utf8to16_loop];
    try done; try by intros [= ->].
  destruct (next (b :: s)) as [e|[cp s']] eqn:E; [done|]. rewrite (unchecked_next _ _ E). apply IH.
Qed.

Lemma unchecked_utf8to32 fuel s r cs : checked.utf8to32_loop fuel s r = Some (inr cs) -> unchecked.utf8to32_loop fuel s r = Some cs.
Proof.
  revert s r. induction fuel as [|fuel IH]; intros s r; destruct s as [|b s]; cbn [checked.utf8to32_loop unchecked.utf8to32_loop];
    try done; try by intros [= ->].
  destruct (next (b :: s)) as [e|[cp s']] eqn:E; [done|]. rewrite (unchecked_next _ _ E). apply IH.
Qed.

Lemma unchecked_distance fuel s d z : distance_loop fuel s d = Some (inr z) -> unchecked.distance_loop fuel s d = Some z.
Proof.
  revert s d. induction fuel as [|fuel IH]; intros s d; destruct s as [|b s]; cbn [distance_loop unchecked.distance_loop];
    try done; try by intros [= ->].
  destruct (next (b :: s)) as [e|[cp s']] eqn:E; [done|]. rewrite (unchecked_next _ _ E). apply IH.
Qed.

Lemma unchecked_advance n s s' : advance n s = inr s' -> unchecked.advance n s = Some s'.
Proof.
  revert s. induction n as [|n IH]; intros s; cbn [advance unchecked.advance]; [by intros [= ->]|].
  destruct (next s) as [e|[cp s1]] eqn:E; [done|]. rewrite (unchecked_next _ _ E). apply IH.
Qed.

(** C39: where the checked interface succeeds the unchecked one gives the same
    result and reads nothing out of range. *)
Theorem unchecked_agrees s :
  wf_bytes s ->
  (forall r, next s = inr r -> unchecked.next s = Some r) /\
  (forall it r, (it <= length s)%nat -> checked.prior s it = Some (inr r) -> unchecked.prior s it = Some r) /\
  (forall ws, checked.utf8to16 s [] = Some (inr ws) -> unchecked.utf8to16 s [] = Some ws) /\
  (forall cs, checked.utf8to32 s [] = Some (inr cs) -> unchecked.utf8to32 s [] = Some cs) /\
  (forall ws, checked.utf16to8 ws [] = inr s -> unchecked.utf16to8 ws [] = Some s) /\
  (forall cs, checked.utf32to8 cs [] = inr s -> unchecked.utf32to8 cs [] = s) /\
  (forall z, distance s = Some (inr z) -> unchecked.distance s = Some z) /\
  (forall n s', advance n s = inr s' -> unchecked.advance n s = Some s').
Proof.
  intros Hw. split; [by apply unchecked_next|]. split; [intros it r; by apply unchecked_prior|].
  split; [intros ws; by apply unchecked_utf8to16|]. split; [intros cs; by apply unchecked_utf8to32|].
  split; [intros ws; by apply unchecked_utf16to8|]. split; [intros cs; by apply unchecked_utf32to8|].
  split; [intros z; by apply unchecked_distance|intros n s'; by apply unchecked_advance].
Qed.

(** Moving an iterator forward and back again. *)
Lemma increment_decrement pre cp suf i :
  wf_bytes pre -> scalar cp -> wf_bytes suf ->
  let s := pre ++ octets cp ++ suf in
  checked.it i = length pre -> checked.range_start i = 0%nat -> checked.range_end i = length s ->
  exists j, checked.increment s i = inr j /\ checked.decrement s j = Some (inr i) /\ checked.deref s i = inr cp.
Proof.
  intros Hp Hc Hsuf s Hi H0 He. destruct i as [it st en]. cbn in Hi, H0, He. subst it st en.
  assert (Er : checked.rest s (checked.mkIterator (length pre) 0 (length s)) = octets cp ++ suf).
  { unfold checked.rest. cbn [checked.it checked.range_end]. rewrite firstn_all. apply drop_app_length. }
  unfold checked.increment, checked.deref. rewrite Er, next_octets by done. eexists. split; [reflexivity|]. split; [|done].
  unfold checked.decrement. cbn [checked.it checked.range_start checked.range_end]. rewrite drop_0, Nat.sub_0_r.
  assert (Hn : (length s - length suf = length (pre ++ octets cp))%nat) by (unfold s; rewrite !length_app; lia).
  assert (E : checked.prior s (length (pre ++ octets cp)) = Some (inr (cp, length pre))).
  { apply prior_correct.
    - unfold s. repeat apply Forall_app_2; [done|by apply octets_bytes|done].
    - unfold s. rewrite !length_app. lia.
    - rewrite length_app. split; [lia|]. split; [done|]. exists []. unfold s. rewrite app_nil_r, take_app_length.
      rewrite app_assoc, <- length_app, take_app_length. by split. }
  by rewrite Hn, E.
Qed.
End Unchecked.

Lemma prior_correct_witness :
  let s := [97; 0xc3; 0x89; 0x80; 98] in checked.prior s 4 = Some (inr (0xc9, 1%nat)).
Proof.
  apply prior_correct.
  - repeat (apply Forall_cons; split; [unfold is_byte; lia|]). apply Forall_nil_2.
  - cbn. lia.
  - split; [lia|]. split; [split; [lia|reflexivity]|]. exists [0x80]. split; [reflexivity|].
    apply Forall_cons. split; [reflexivity|apply Forall_nil_2].
Defined.

Lemma conversions_inverse_witness :
  let s := [0xf0; 0x9f; 0x98; 0x80; 97] in
  wf_bytes s /\ checked.utf16to8 [0xd83d; 0xde00; 97] [] = inr s /\ checked.utf32to8 [0x1f600; 97] [] = inr s.
Proof.
  intros s. assert (Hw : wf_bytes s).
  { repeat (apply Forall_cons; split; [unfold is_byte; lia|]). apply Forall_nil_2. }
  destruct (conversions_inverse s Hw) as (H16 & H32 & _). split; [exact Hw|]. split.
  - apply H16; [|vm_compute; reflexivity]. repeat (apply Forall_cons; split; [unfold is_u16; lia|]). apply Forall_nil_2.
  - apply H32; [|vm_compute; reflexivity]. repeat (apply Forall_cons; split; [unfold is_u32; lia|]). apply Forall_nil_2.
Defined.

Lemma unchecked_agrees_witness :
  let s := [0xf0; 0x9f; 0x98; 0x80; 97] in unchecked.utf8to16 s [] = Some [0xd83d; 0xde00; 97].
Proof.
  intros s. destruct (unchecked_agrees s) as (_ & _ & H & _).
  - repeat (apply Forall_cons; split; [unfold is_byte; lia|]). apply Forall_nil_2.
  - apply H. vm_compute. reflexivity.
Defined.
