(* ===== verification/Darts.v ===== *)
(** The dictionary of the segmenter: a double-array trie
    ([deps/tokenizer/include/darts.h]) and its two users,
    [deps/tokenizer/src/UnigramDict.cpp] and [SynonymsDict.cpp].

    The program reads the array from a file; building one is the subject of
    [DartsBuild].  What an array means is defined by walking it: a word is
    in the dictionary with a value when the walk ends on a leaf ([value_of]).
    [None] is an access outside of the array. *)
From S2P Require Import Prelude.

Record unit_t := mkUnit { base : Z; check : Z }.

(** ** The array *)
Section Array.
Context (array_ : list unit_t).

Definition at_ (p : Z) : option unit_t := array_ !! Z.to_nat p.

Record result_pair_type := mkPair { value : Z; length_ : Z; pos : Z }.

(** [int] from an unsigned value. *)
Definition i32 (z : Z) : Z := if u32 z <? 2 ^ 31 then u32 z else u32 z - 2 ^ 32.

(** One character further: the new base, if the array has the edge. *)
Definition edge (b c : Z) : option (option Z) :=
  let p := u32 (b + u8 c + 1) in
  u ← at_ p; Some (if u32 b =? check u then Some (base u) else None).

(** What is read at the end of a key: the base there and if it is a leaf. *)
Definition leaf (b : Z) : option (Z * bool) :=
  u ← at_ (u32 b); Some (base u, (u32 b =? check u) && (base u <? 0)).

Definition root : option Z := u ← at_ 0; Some (base u).

Fixpoint exact_loop (key : bytes) (b : Z) : option (option Z) :=
  match key with
  | [] => Some (Some b)
  | c :: key => r ← edge b c; match r with Some b => exact_loop key b | None => Some (@None Z) end
  end.

Definition exactMatchSearch (key : bytes) : option result_pair_type :=
  b ← root;
  r ← exact_loop key b;
  match r with
  | None => Some (mkPair (-1) 0 0)
  | Some b =>
      x ← leaf b;
      Some (mkPair (i32 (- x.1 - 1)) (Z.of_nat (length key)) (if x.2 : bool then i32 b else i32 (- u32 b)))
  end.

(** [commonPrefixSearch]: [i] characters of the key are behind, [len] to come.
    The key is the memory from its first character on. *)
Fixpoint prefix_loop (len : nat) (key : bytes) (i : Z) (b : Z) (result : list result_pair_type) :
    option (list result_pair_type) :=
  x ← leaf b;
  let '(n, hit) := (x : Z * bool) in
  match len with
  | O =>
      (* a key that is only a prefix of words is a hit, too, at a negative position *)
      Some (result ++ [mkPair (i32 (- n - 1)) i (if hit then i32 b else i32 (- u32 b))])
  | S len =>
      let result := if hit then result ++ [mkPair (i32 (- n - 1)) i (i32 b)] else result in
      match key with
      | [] => None
      | c :: key =>
          r ← edge b c;
          match r with Some b => prefix_loop len key (i + 1) b result | None => Some result end
      end
  end.

(** The length of a C string; one without an end is an access out of bounds. *)
Fixpoint strlen (s : bytes) : option nat :=
  match s with
  | [] => None
  | c :: s => if c =? 0 then Some O else S <$> strlen s
  end.

Definition key_len (key : bytes) (len : nat) : option nat :=
  match len with O => strlen key | _ => Some len end.

(** The hits, of which the caller has room for [result_len]; the result is
    their number. *)
Definition commonPrefixSearch (key : bytes) (result_len len : nat) : option (list result_pair_type * Z) :=
  len ← key_len key len;
  b ← root; r ← prefix_loop len key 0 b []; Some (take result_len r, Z.of_nat (length r)).
End Array.

(** ** Files *)

(** The numbers of a file, the lowest octet first. *)
Definition read_u32 (s : bytes) : Z := le_val (take 4 s).
Definition read_i32 (s : bytes) : Z := i32 (read_u32 s).

(** The units of a file; an incomplete one at its end is left. *)
Fixpoint read_units (n : nat) (s : bytes) : list unit_t :=
  match n with
  | O => []
  | S n => mkUnit (read_i32 s) (read_u32 (drop 4 s)) :: read_units n (drop 8 s)
  end.

(** [open], with its result; [None] is a file that cannot be opened. *)
Definition open (file : option bytes) : Z * option (list unit_t) :=
  match file with
  | None => (-1, None)
  | Some s => (0, Some (read_units (length s / 8) s))
  end.

(** ** [UnigramDict] *)
Module UnigramDict.

(** No array is a dictionary that is not loaded. *)
Definition t : Type := option (list unit_t).

Definition load (filename : option bytes) : Z * t := open filename.

Definition isLoad (d : t) : bool := match d with Some _ => true | None => false end.

Definition findHits (d : t) (buf : bytes) (result_len keylen : nat) : option (list result_pair_type * Z) :=
  match d with
  | None => Some ([], 0)
  | Some array_ => commonPrefixSearch array_ buf result_len keylen
  end.

(** The result; the identifier that a caller may ask for is left out. *)
Definition exactMatch (d : t) (key : bytes) : option Z :=
  array_ ← d; n ← strlen key; rs ← exactMatchSearch array_ (take n key); Some (value rs).
End UnigramDict.

(** ** [SynonymsDict] *)
Module SynonymsDict.
Record _csr_sybarray_trie := mkTrie { unit_ : unit_t; offset : Z }.

(** No dictionary is a file that is not there; of the file the mapped parts. *)
Record file := mkFile { array_ : list _csr_sybarray_trie; string_pool : bytes }.
Definition t : Type := option file.

(** The header is the magic string, version and a reserved number, of two octets
    each, and the number of units and of octets in the pool, of four. *)
Definition head_mgc : bytes := [83; 89; 77; 68].
Definition header_size : nat := 16.

(** A unit takes 16 octets. *)
Fixpoint read_tries (n : nat) (s : bytes) : list _csr_sybarray_trie :=
  match n with
  | O => []
  | S n => mkTrie (mkUnit (read_i32 s) (read_u32 (drop 4 s))) (le_val (take 8 (drop 8 s))) :: read_tries n (drop 16 s)
  end.

(** [strncmp] ends where the strings differ or end. *)
Fixpoint strncmp_eq (n : nat) (a b : bytes) : option bool :=
  match n with
  | O => Some true
  | S n =>
      x ← head a; y ← head b;
      if negb (x =? y) then Some false else if x =? 0 then Some true else strncmp_eq n (tail a) (tail b)
  end.

(** [load]: the parts are found by the sizes in the header.  A broken file may
    leave the array without the pool, which is then a null pointer; a negative
    size leads out of the file. *)
Definition load (filename : option bytes) : option (Z * t) :=
  match filename with
  | None => Some (-1, None)
  | Some s =>
      same ← strncmp_eq 4 s head_mgc;
      if negb same then Some (-3, None)
      else if (length s <? 6)%nat then None
      else if negb (le_val (take 2 (drop 4 s)) =? 1) then Some (-2, None)
      else if (length s <=? header_size)%nat then Some (-4, None)
      else
        let darts_size := read_i32 (drop 8 s) in
        let pool_size := read_i32 (drop 12 s) in
        if (darts_size <? 0) || (pool_size <? 0) then None
        else
          let a := read_tries (Z.to_nat (Z.min darts_size ((Z.of_nat (length s) - 16) / 16))) (drop header_size s) in
          let pool := drop (header_size + 16 * Z.to_nat darts_size) s in
          if Z.of_nat (length s) <=? 16 + 16 * darts_size then Some (-4, Some (mkFile a []))
          else if Z.of_nat (length s) <? 16 + 16 * darts_size + pool_size then Some (-4, Some (mkFile a pool))
          else Some (0, Some (mkFile a pool))
  end.

Record Result := mkResult { r_value : Z; r_length : Z; dict_id : Z }.

(** The last hit and if there is one: [goto DO_RESULT] is the end. *)
Fixpoint max_loop (units : list unit_t) (len : nat) (key : bytes) (i : Z) (b : Z) (result : Result) (num : Z) :
    option (Result * Z) :=
  x ← leaf units b;
  let '(n, hit) := (x : Z * bool) in
  let '(result, num) := if hit then (mkResult (i32 (- n - 1)) (u8 i) (i32 b), num + 1) else (result, num) in
  match len with
  | O => Some (result, num)
  | S len =>
      match key with
      | [] => None
      | c :: key =>
          e ← edge units b c;
          match e with Some b => max_loop units len key (i + 1) b result num | None => Some (result, num) end
      end
  end.

(** The replacement, as the pool from its place on, and the length replaced. *)
Definition maxMatch (d : t) (key : bytes) (len : nat) : option (option (bytes * Z)) :=
  match d with
  | None => Some None
  | Some f =>
      let units := map unit_ (array_ f) in
      len ← key_len key len;
      b ← root units;
      x ← max_loop units len key 0 b (mkResult (-1) 0 0) 0;
      let '(result, num) := (x : Result * Z) in
      if (num =? 0) || (dict_id result =? 0) then Some None
      else
        e ← array_ f !! Z.to_nat (dict_id result);
        Some (Some (drop (Z.to_nat (offset e)) (string_pool f), r_length result))
  end.

(** [exactMatch]: the length is the caller's, or that of the string. *)
Definition exactMatch (d : t) (key : bytes) (aLen : nat) : option (option bytes) :=
  f ← d;
  let units := map unit_ (array_ f) in
  len ← key_len key aLen;
  if (length key <? len)%nat then None
  else
    b ← root units;
    r ← exact_loop units (take len key) b;
    match r with
    | None => Some None
    | Some b =>
        x ← leaf units b;
        let dict_id := if (x : Z * bool).2 then i32 b else 0 in
        if dict_id =? 0 then Some None
        else e ← array_ f !! Z.to_nat dict_id; Some (Some (drop (Z.to_nat (offset e)) (string_pool f)))
    end.
End SynonymsDict.

(** ** What an array means *)
Section Meaning.
Context (a : list unit_t).

(** The base after a whole key, and the value of a word. *)
Definition walk (key : bytes) : option Z := b ← root a; r ← exact_loop a key b; r.

Definition value_of (key : bytes) : option Z :=
  b ← walk key; x ← leaf a b; if x.2 : bool then Some (i32 (- x.1 - 1)) else None.

(** A proper array: every base that an edge leads to leaves room for all
    characters, and no edge is labelled with zero. *)
Definition unit_ok (n : Z) (p : nat) (u : unit_t) : bool :=
  (check u =? 0) || (Z.of_nat p =? check u) ||
  ((1 <=? base u) && (base u + 256 <? n) && negb (Z.of_nat p =? check u + 1)).

Definition base_ok (b : Z) : Prop := 1 <= b /\ b + 256 < Z.of_nat (length a) < 2 ^ 31.

Definition array_ok : bool :=
  let n := Z.of_nat (length a) in
  match a with [] => false | u :: _ => (1 <=? base u) && (base u + 256 <? n) end &&
  (n <? 2 ^ 31) && forallb (fun '(p, u) => unit_ok n p u) (imap pair a).

(** The hit of a prefix, and of a key that words only start with. *)
Definition hit_at (key : bytes) : list result_pair_type :=
  match walk key with
  | Some b =>
      match leaf a b with
      | Some (n, true) => [mkPair (i32 (- n - 1)) (Z.of_nat (length key)) (i32 b)]
      | _ => []
      end
  | None => []
  end.

Definition partial_at (key : bytes) : list result_pair_type :=
  match walk key with
  | Some b =>
      match leaf a b with
      | Some (n, false) => [mkPair (i32 (- n - 1)) (Z.of_nat (length key)) (i32 (- u32 b))]
      | _ => []
      end
  | None => []
  end.

Context (Hok : array_ok = true).

Lemma array_ok_root : exists b, root a = Some b /\ base_ok b.
Proof.
  unfold array_ok in Hok. apply andb_true_iff in Hok as [[H1 H2%Z.ltb_lt]%andb_true_iff _]. unfold root, base_ok.
  destruct a as [|u l]; [done|]. apply andb_true_iff in H1 as [Hb%Z.leb_le Hn%Z.ltb_lt].
  exists (base u). split; [done|]. lia.
Qed.

Lemma array_ok_unit p u : a !! p = Some u -> unit_ok (Z.of_nat (length a)) p u = true.
Proof.
  intros Hp. unfold array_ok in Hok. apply andb_true_iff in Hok as [_ H]. rewrite forallb_forall in H.
  apply (H (p, u)). apply list_elem_of_In, (list_elem_of_lookup_2 _ p). by rewrite list_lookup_imap, Hp.
Qed.

Lemma u32_small z : 0 <= z < 2 ^ 31 -> u32 z = z.
Proof. intros Hz. apply u32_id. unfold is_u32. lia. Qed.

Lemma edge_ok b c : base_ok b ->
  exists r, edge a b c = Some r /\ (forall b', r = Some b' -> base_ok b') /\ (u8 c = 0 -> r = None).
Proof.
  intros [Hb Hn]. pose proof (u8_range c) as Hc. unfold edge, at_. rewrite (u32_small (b + u8 c + 1)), (u32_small b) by lia.
  destruct (lookup_lt_is_Some_2 a (Z.to_nat (b + u8 c + 1))) as [u Hu]; [lia|]. rewrite Hu. cbn [mbind option_bind].
  eexists. split; [reflexivity|]. pose proof (array_ok_unit _ _ Hu) as H. unfold unit_ok in H. rewrite Z2Nat.id in H by lia.
  destruct (Z.eqb_spec b (check u)) as [E|E]; [|split; done]. rewrite <- E in H.
  destruct (Z.eqb_spec b 0); [lia|]. destruct (Z.eqb_spec (b + u8 c + 1) b); [lia|]. cbn [orb] in H.
  apply andb_true_iff in H as [[H1%Z.leb_le H2%Z.ltb_lt]%andb_true_iff H3%negb_true_iff%Z.eqb_neq]. split.
  - intros b' [= <-]. split; lia.
  - intros Hz. lia.
Qed.

Lemma leaf_ok b : base_ok b -> exists n hit, leaf a b = Some (n, hit).
Proof.
  intros [Hb Hn]. unfold leaf, at_. rewrite (u32_small b) by lia.
  destruct (lookup_lt_is_Some_2 a (Z.to_nat b)) as [u Hu]; [lia|]. rewrite Hu. cbn [mbind option_bind]. by eexists _, _.
Qed.

Lemma exact_loop_app k1 k2 b b' : base_ok b -> exact_loop a k1 b = Some (Some b') -> exact_loop a (k1 ++ k2) b = exact_loop a k2 b'.
Proof.
  revert b. induction k1 as [|c k1 IH]; intros b Hb; cbn [exact_loop app]; [by intros [= ->]|].
  destruct (edge_ok b c Hb) as (r & -> & Hr & _). cbn [mbind option_bind]. destruct r as [b1|]; [|done]. apply IH. by apply Hr.
Qed.

Lemma exact_loop_fail k1 k2 b : base_ok b -> exact_loop a k1 b = Some None -> exact_loop a (k1 ++ k2) b = Some None.
Proof.
  revert b. induction k1 as [|c k1 IH]; intros b Hb; cbn [exact_loop app]; [done|].
  destruct (edge_ok b c Hb) as (r & -> & Hr & _). cbn [mbind option_bind]. destruct r as [b1|]; [|done]. apply IH. by apply Hr.
Qed.

Lemma exact_loop_ok k b : base_ok b -> exists r, exact_loop a k b = Some r /\ forall b', r = Some b' -> base_ok b'.
Proof.
  revert b. induction k as [|c k IH]; intros b Hb; cbn [exact_loop]; [exists (Some b); split; [done|by intros b' [= <-]]|].
  destruct (edge_ok b c Hb) as (r & -> & Hr & _). cbn [mbind option_bind]. destruct r as [b1|]; [apply IH; by apply Hr|by exists None].
Qed.

Lemma walk_ok k b : walk k = Some b -> base_ok b.
Proof.
  unfold walk. destruct array_ok_root as (r & -> & Hr). cbn [mbind option_bind].
  destruct (exact_loop_ok k r Hr) as (x & -> & Hx). cbn [mbind option_bind]. intros ->. by apply Hx.
Qed.

Lemma walk_snoc k c b : walk k = Some b -> exists r, edge a b c = Some r /\ walk (k ++ [c]) = r.
Proof.
  intros Hk. destruct (edge_ok b c (walk_ok _ _ Hk)) as (r & Er & _). exists r. split; [done|].
  unfold walk in *. destruct array_ok_root as (r0 & E0 & Hr0). rewrite E0 in Hk |- *. cbn [mbind option_bind] in *.
  destruct (exact_loop_ok k r0 Hr0) as (x & Ex & _). rewrite Ex in Hk. cbn [mbind option_bind] in Hk. subst x.
  rewrite (exact_loop_app k [c] r0 b Hr0 Ex). cbn [exact_loop]. rewrite Er. cbn [mbind option_bind]. by destruct r.
Qed.

Lemma walk_fail k1 k2 : walk k1 = None -> walk (k1 ++ k2) = None.
Proof.
  unfold walk. destruct array_ok_root as (r0 & -> & Hr0). cbn [mbind option_bind].
  destruct (exact_loop_ok k1 r0 Hr0) as (x & Ex & _). rewrite Ex. cbn [mbind option_bind]. intros ->.
  by rewrite (exact_loop_fail k1 k2 r0 Hr0 Ex).
Qed.

(** No key with a zero is walked. *)
Lemma walk_zero k1 c k2 : u8 c = 0 -> walk (k1 ++ c :: k2) = None.
Proof.
  intros Hc. change (c :: k2) with ([c] ++ k2). rewrite app_assoc. apply walk_fail. destruct (walk k1) as [b|] eqn:E.
  - destruct (walk_snoc k1 c b E) as (r & Er & ->). destruct (edge_ok b c (walk_ok _ _ E)) as (r' & Er' & _ & Hz).
    rewrite Er in Er'. injection Er' as <-. by apply Hz.
  - by apply walk_fail.
Qed.

Lemma walk_nil : walk [] = root a.
Proof. unfold walk. destruct array_ok_root as (r0 & -> & _). done. Qed.

(** ** The searches *)
Lemma neg_pos b : base_ok b -> i32 (- u32 b) <= 0.
Proof.
  intros [Hb Hn]. rewrite (u32_small b) by lia. unfold i32, u32.
  assert (E : (- b) mod 2 ^ 32 = 2 ^ 32 - b) by (rewrite Z_mod_nz_opp_full; rewrite Z.mod_small by lia; lia). rewrite E.
  destruct (Z.ltb_spec (2 ^ 32 - b) (2 ^ 31)); lia.
Qed.

Lemma i32_small z : 0 <= z < 2 ^ 31 -> i32 z = z.
Proof. intros Hz. unfold i32. rewrite u32_small by done. by destruct (Z.ltb_spec z (2 ^ 31)); [|lia]. Qed.

(** The exact search answers at a positive position for the words of the
    array, with their value, and at none for all else. *)
Theorem exactMatchSearch_spec key :
  exists r, exactMatchSearch a key = Some r /\ value_of key = (if 0 <? pos r then Some (value r) else None).
Proof.
  unfold exactMatchSearch, value_of, walk. destruct array_ok_root as (r0 & -> & Hr0). cbn [mbind option_bind].
  destruct (exact_loop_ok key r0 Hr0) as (x & -> & Hx). cbn [mbind option_bind].
  destruct x as [b|]; [|eexists; split; [reflexivity|done]].
  specialize (Hx b eq_refl). destruct (leaf_ok b Hx) as (n & hit & El). rewrite El. cbn [mbind option_bind fst snd].
  eexists. split; [reflexivity|]. rewrite El. cbn [mbind option_bind fst snd pos value]. pose proof (neg_pos b Hx). destruct Hx as [Hb Hn]. destruct hit.
  - rewrite (i32_small b) by lia. by destruct (Z.ltb_spec 0 b); [|lia].
  - by destruct (Z.ltb_spec 0 (i32 (- u32 b))); [lia|].
Qed.

(** What the search for prefixes finds in a C string. *)
Definition prefix_hits (pre key : bytes) (len : nat) : list result_pair_type :=
  flat_map (fun n => hit_at (pre ++ take n key)) (seq 0 (S (Nat.min len (length key)))) ++
  (if (len <=? length key)%nat then partial_at (pre ++ take len key) else []).

Lemma flat_map_none {A B} (f : A -> list B) l : (forall x, f x = []) -> flat_map f l = [].
Proof. intros H. induction l as [|x l IH]; [done|]. cbn [flat_map]. by rewrite H. Qed.

Lemma prefix_hits_step pre c key len :
  prefix_hits pre (c :: key) (S len) = hit_at pre ++ prefix_hits (pre ++ [c]) key len.
Proof.
  unfold prefix_hits. cbn [length Nat.min]. rewrite <- (cons_seq (S _) 0). cbn [flat_map take]. rewrite app_nil_r, <- app_assoc.
  f_equal. change (S len <=? S (length key))%nat with (len <=? length key)%nat. f_equal.
  - rewrite <- seq_shift, flat_map_concat_map, map_map, <- flat_map_concat_map. apply flat_map_ext. intros m. cbn [take].
    by rewrite <- app_assoc.
  - cbn [take]. by rewrite <- app_assoc.
Qed.

Lemma prefix_hits_zero pre len : walk pre <> None -> prefix_hits pre [] (S len) = hit_at pre.
Proof. intros _. unfold prefix_hits. cbn. by rewrite !app_nil_r. Qed.

Lemma prefix_hits_fail pre key len : walk pre = None -> prefix_hits pre key len = [].
Proof.
  intros Hw. unfold prefix_hits. rewrite flat_map_none; [cbn [app]|intros n; unfold hit_at; by rewrite walk_fail].
  destruct (_ <=? _)%nat; [|done]. unfold partial_at. by rewrite walk_fail.
Qed.

Lemma prefix_loop_spec len key rest pre b res :
  walk pre = Some b ->
  prefix_loop a len (key ++ 0 :: rest) (Z.of_nat (length pre)) b res = Some (res ++ prefix_hits pre key len).
Proof.
  revert key pre b res. induction len as [|len IH]; intros key pre b res Hw; cbn [prefix_loop];
    destruct (leaf_ok b (walk_ok _ _ Hw)) as (n & hit & El); rewrite El; cbn [mbind option_bind].
  - unfold prefix_hits. cbn. rewrite !app_nil_r. unfold hit_at, partial_at. rewrite Hw, El. by destruct hit.
  - assert (Eh : (if hit then res ++ [mkPair (i32 (- n - 1)) (Z.of_nat (length pre)) (i32 b)] else res) = res ++ hit_at pre).
    { unfold hit_at. rewrite Hw, El. destruct hit; [done|by rewrite app_nil_r]. }
    rewrite Eh. clear Eh.
    assert (Hstep : exists c key', key ++ 0 :: rest = c :: key' /\
              ((key = [] /\ u8 c = 0) \/ exists k, key = c :: k /\ key' = k ++ 0 :: rest)).
    { destruct key as [|c key]; eexists _, _; (split; [reflexivity|]); [by left|right; by eexists]. }
    destruct Hstep as (c & key' & -> & Hstep). destruct (walk_snoc pre c b Hw) as (r & Er & Ew). rewrite Er. cbn [mbind option_bind].
    destruct Hstep as [[-> Hz]|(k & -> & ->)].
    + destruct (edge_ok b c (walk_ok _ _ Hw)) as (r' & Er' & _ & Hn). rewrite Er in Er'. injection Er' as <-.
      rewrite (Hn Hz), prefix_hits_zero by congruence. done.
    + rewrite prefix_hits_step, app_assoc. destruct r as [b'|].
      * replace (Z.of_nat (length pre) + 1) with (Z.of_nat (length (pre ++ [c]))) by (rewrite length_app; cbn; lia). by apply IH.
      * by rewrite prefix_hits_fail, app_nil_r.
Qed.

(** The search in a string for at most [len] octets finds, by length, every
    prefix that is a word, and besides the first [len] octets when words only
    start with them: the caller cannot tell that from a word. *)
Theorem commonPrefixSearch_spec key rest n len :
  (0 < len)%nat ->
  commonPrefixSearch a (key ++ 0 :: rest) n len =
    Some (take n (prefix_hits [] key len), Z.of_nat (length (prefix_hits [] key len))).
Proof.
  intros Hlen. unfold commonPrefixSearch, key_len. destruct len as [|len]; [lia|]. cbn [mbind option_bind].
  destruct array_ok_root as (r0 & E0 & Hr0). rewrite E0. cbn [mbind option_bind].
  pose proof (prefix_loop_spec (S len) key rest [] r0 [] ltac:(by rewrite walk_nil)) as H. cbn [length app] in H.
  change (Z.of_nat 0) with 0 in H. rewrite H. done.
Qed.
End Meaning.

(** ** A sample *)

(** An array of five words: the characters U+4E2D, U+56FD and U+4EBA, the first
    two together, and all three. *)
Definition sample_cells : list (nat * unit_t) :=
  [(0%nat, mkUnit 1 0); (4%nat, mkUnit (-6) 4); (7%nat, mkUnit (-8) 7); (9%nat, mkUnit (-3) 9); (12%nat, mkUnit (-5) 12);
   (15%nat, mkUnit (-4) 15); (161%nat, mkUnit 6 5); (169%nat, mkUnit 14 13); (177%nat, mkUnit 4 3); (187%nat, mkUnit 3 2);
   (189%nat, mkUnit 11 2); (195%nat, mkUnit 10 8); (196%nat, mkUnit 7 6); (197%nat, mkUnit 9 10); (198%nat, mkUnit 12 11);
   (204%nat, mkUnit 15 14); (230%nat, mkUnit 2 1); (231%nat, mkUnit 13 1); (234%nat, mkUnit 5 4); (236%nat, mkUnit 8 7)].

Definition sample_units : list unit_t := fold_left (fun l '(p, u) => <[p := u]> l) sample_cells (replicate 273 (mkUnit 0 0)).

Lemma sample_units_ok : array_ok sample_units = true.
Proof. by vm_compute. Qed.

(** The text of the three characters and a blank. *)
Definition sample_key : bytes := [0xe4; 0xb8; 0xad; 0xe5; 0x9b; 0xbd; 0xe4; 0xba; 0xba; 32].

Lemma commonPrefixSearch_spec_witness :
  commonPrefixSearch sample_units (sample_key ++ 0 :: []) 1023 15 =
    Some (take 1023 (prefix_hits sample_units [] sample_key 15),
          Z.of_nat (length (prefix_hits sample_units [] sample_key 15))).
Proof. apply (commonPrefixSearch_spec sample_units sample_units_ok). lia. Defined.

(** Three words, with their lengths and values. *)
Example sample_search :
  (fun x => (map (fun r => (length_ r, value r)) x.1, x.2)) <$>
    commonPrefixSearch sample_units (sample_key ++ [0]) 1023 15 = Some ([(3, 5); (6, 7); (9, 2)], 3).
Proof. by vm_compute. Qed.
