(* ===== verification/DartsBuild.v ===== *)
(** Building the dictionary of the segmenter: [DoubleArrayImpl::build] of
    [deps/tokenizer/include/darts.h] and [UnigramDict::import].

    The keys are the strings without their terminating zero; every caller
    passes no array of lengths.  [None] is an access out of bounds, or a growth
    of the arrays that is no number.  Allocation does not fail. *)
From S2P Require Import Prelude Double Darts.

Record node_t := mkNode { code : Z; depth : nat; left : nat; right : nat }.

(** Both arrays are of [alloc_size_] elements. *)
Record builder := mkBuilder {
  array_ : list unit_t;
  used_ : list bool;
  size_ : Z;
  progress_ : Z;
  next_check_pos_ : Z;
  error_ : Z
}.

Definition alloc_size_ (st : builder) : Z := Z.of_nat (length (array_ st)).

Definition clear : builder := mkBuilder [] [] 0 0 0 0.

Definition resize (st : builder) (new_size : Z) : option builder :=
  if new_size <? alloc_size_ st then None
  else
    let more := Z.to_nat (new_size - alloc_size_ st) in
    Some (mkBuilder (array_ st ++ replicate more (mkUnit 0 0)) (used_ st ++ replicate more false) (size_ st) (progress_ st)
            (next_check_pos_ st) (error_ st)).

(** Resizing where a position needs it. *)
Definition reach (st : builder) (pos : Z) : option builder :=
  if alloc_size_ st <=? pos then resize st (pos + 1) else Some st.

Definition set_next (st : builder) (pos : Z) : builder :=
  mkBuilder (array_ st) (used_ st) (size_ st) (progress_ st) pos (error_ st).
Definition set_error (st : builder) (e : Z) : builder :=
  mkBuilder (array_ st) (used_ st) (size_ st) (progress_ st) (next_check_pos_ st) e.
Definition step_progress (st : builder) : builder :=
  mkBuilder (array_ st) (used_ st) (size_ st) (progress_ st + 1) (next_check_pos_ st) (error_ st).
Definition set_unit (st : builder) (p : Z) (u : unit_t) : builder :=
  mkBuilder (<[Z.to_nat p := u]> (array_ st)) (used_ st) (size_ st) (progress_ st) (next_check_pos_ st) (error_ st).
Definition set_used (st : builder) (b size : Z) : builder :=
  mkBuilder (array_ st) (<[Z.to_nat b := true]> (used_ st)) size (progress_ st) (next_check_pos_ st) (error_ st).

(** A write to a base or a check. *)
Definition put_base (st : builder) (p b : Z) : option builder :=
  u ← at_ (array_ st) p; Some (set_unit st p (mkUnit (i32 b) (check u))).
Definition put_check (st : builder) (p c : Z) : option builder :=
  u ← at_ (array_ st) p; Some (set_unit st p (mkUnit (base u) (u32 c))).

Definition double_1_05 : double := double_div (double_of_Z 105) (double_of_Z 100).
Definition double_0_95 : double := double_div (double_of_Z 95) (double_of_Z 100).

Section Build.
Context (key_ : list bytes) (value_ : option (list Z)).

Definition key_size_ : Z := Z.of_nat (length key_).

(** The size to grow to. *)
Definition grown (alloc progress : Z) : option Z :=
  let ratio := double_div (double_mul (double_of_Z 1) (double_of_Z key_size_)) (double_of_Z progress) in
  let factor := if SFltb ratio double_1_05 then double_1_05 else ratio in
  new_size ← to_u64 (double_mul (double_of_Z alloc) factor);
  if new_size =? 0 then to_u64 (double_mul (double_mul (double_of_Z alloc) (double_of_Z 1)) (double_of_Z key_size_))
  else Some new_size.

(** The end of the last sibling. *)
Fixpoint set_last_right (siblings : list node_t) (i : nat) : list node_t :=
  match siblings with
  | [] => []
  | [s] => [mkNode (code s) (depth s) (left s) i]
  | s :: siblings => s :: set_last_right siblings i
  end.

(** The children of a node: its keys by their next character, 0 where a key
    ends.  [Some None] is a key out of order. *)
Fixpoint fetch_loop (n i d : nat) (prev : Z) (siblings : list node_t) : option (option (list node_t)) :=
  match n with
  | O => Some (Some siblings)
  | S n =>
      key ← key_ !! i;
      if (length key <? d)%nat then fetch_loop n (S i) d prev siblings
      else
        cur ← (if (length key =? d)%nat then Some 0 else c ← key !! d; Some (u8 c + 1));
        if cur <? prev then Some (@None (list node_t))
        else if negb (cur =? prev) || match siblings with [] => true | _ => false end then
          fetch_loop n (S i) d cur (set_last_right siblings i ++ [mkNode cur (S d) i 0])
        else fetch_loop n (S i) d cur siblings
  end.

Definition fetch (st : builder) (parent : node_t) : option (builder * list node_t) :=
  if error_ st <? 0 then Some (st, [])
  else
    r ← fetch_loop (right parent - left parent) (left parent) (depth parent) 0 [];
    match r with
    | None => Some (set_error st (-3), [])
    | Some siblings => Some (st, set_last_right siblings (right parent))
    end.

(** Whether a place is taken by another family. *)
Fixpoint collides (a : list unit_t) (begin : Z) (siblings : list node_t) : option bool :=
  match siblings with
  | [] => Some false
  | s :: siblings => u ← at_ a (begin + code s); if negb (check u =? 0) then Some true else collides a begin siblings
  end.

(** The search for a place, from behind [pos] on: where it ends, how many taken
    places were met, and the place. *)
Fixpoint find_loop (fuel : nat) (st : builder) (first_code last_code : Z) (rest : list node_t) (pos nonzero_num : Z)
    (first : bool) : option (builder * Z * Z * Z) :=
  match fuel with
  | O => None
  | S fuel =>
      let pos := pos + 1 in
      st ← reach st pos;
      u ← at_ (array_ st) pos;
      if negb (check u =? 0) then find_loop fuel st first_code last_code rest pos (nonzero_num + 1) first
      else
        let st := if first then st else set_next st pos in
        let begin := pos - first_code in
        st ← (if alloc_size_ st <=? begin + last_code then new_size ← grown (alloc_size_ st) (progress_ st); resize st new_size
              else Some st);
        taken ← used_ st !! Z.to_nat begin;
        if taken : bool then find_loop fuel st first_code last_code rest pos nonzero_num true
        else
          c ← collides (array_ st) begin rest;
          if c : bool then find_loop fuel st first_code last_code rest pos nonzero_num true
          else Some (st, pos, nonzero_num, begin)
  end.

(** Claiming the places of a family. *)
Fixpoint claim (st : builder) (begin : Z) (siblings : list node_t) : option builder :=
  match siblings with
  | [] => Some st
  | s :: siblings => st ← put_check st (begin + code s) begin; claim st begin siblings
  end.

(** Finding a place for a family and taking it. *)
Definition place (st : builder) (siblings : list node_t) : option (builder * Z) :=
  first ← head siblings;
  last ← last siblings;
  let pos := Z.max (code first + 1) (next_check_pos_ st) - 1 in
  st ← reach st pos;
  r ← find_loop (Z.to_nat (size_ st + 513)) st (code first) (code last) (tail siblings) pos 0 false;
  let '(st, pos, nonzero_num, begin) := (r : builder * Z * Z * Z) in
  let crowded := SFleb double_0_95 (double_div (double_mul (double_of_Z 1) (double_of_Z nonzero_num))
                                     (double_of_Z (pos - next_check_pos_ st + 1))) in
  let st := if crowded then set_next st pos else st in
  let st := set_used st begin (Z.max (size_ st) (begin + u32 (code last + 1))) in
  st ← claim st begin siblings;
  Some (st, begin).

(** The value of a leaf, and whether the caller gave it. *)
Definition leaf_base (i : nat) : option (Z * bool) :=
  match value_ with
  | Some vs => v ← vs !! i; Some (i32 (- v - 1), true)
  | None => Some (i32 (-1 * Z.of_nat i - 1), false)
  end.

(** The children of a family whose places are taken.  [insert] is for their own
    families; the result tells whether the last loop was left early. *)
Fixpoint each_sibling (insert : builder -> list node_t -> option (builder * Z)) (st : builder) (begin : Z)
    (siblings : list node_t) : option (builder * bool) :=
  match siblings with
  | [] => Some (st, true)
  | s :: siblings =>
      r ← fetch st s;
      let '(st, new_siblings) := (r : builder * list node_t) in
      match new_siblings with
      | [] =>
          v ← leaf_base (left s);
          st ← put_base st (begin + code s) (v : Z * bool).1;
          if v.2 && (0 <=? v.1) then Some (set_error st (-2), false)
          else each_sibling insert (step_progress st) begin siblings
      | _ =>
          h ← insert st new_siblings;
          st ← put_base h.1 (begin + code s) (h : builder * Z).2;
          each_sibling insert st begin siblings
      end
  end.

(** The fuel is for the depth of the keys. *)
Fixpoint insert (fuel : nat) (st : builder) (siblings : list node_t) : option (builder * Z) :=
  if error_ st <? 0 then Some (st, 0)
  else
    match fuel with
    | O => None
    | S fuel =>
        p ← place st siblings;
        let '(st, begin) := (p : builder * Z) in
        r ← each_sibling (insert fuel) st begin siblings;
        let '(st, whole) := (r : builder * bool) in
        Some (st, if whole then begin else 0)
    end.

Definition max_depth : nat := S (list_max (map length key_)).

(** On an array that has been cleared. *)
Definition build (st : builder) : option (builder * Z) :=
  if key_size_ =? 0 then Some (st, 0)
  else
    st ← resize (mkBuilder (array_ st) (used_ st) (size_ st) 0 (next_check_pos_ st) (error_ st)) (key_size_ * 64);
    u ← at_ (array_ st) 0;
    let st := set_next (set_unit st 0 (mkUnit 1 (check u))) 0 in
    r ← fetch st (mkNode 0 0 0 (length key_));
    let '(st, siblings) := (r : builder * list node_t) in
    r ← insert max_depth st siblings;
    let st := (r : builder * Z).1 in
    let st := mkBuilder (array_ st) (used_ st) (size_ st + (256 + 1)) (progress_ st) (next_check_pos_ st) (error_ st) in
    st ← (if alloc_size_ st <=? size_ st then resize st (size_ st) else Some st);
    Some (st, error_ st).

(** What [save] writes. *)
Definition saved (st : builder) : list unit_t := take (Z.to_nat (size_ st)) (array_ st).
End Build.

(** [UnigramDict::import]: the records of the corpus, in their order. *)
Definition import (items : list (bytes * Z)) : option (builder * Z) :=
  build (map fst items) (Some (map snd items)) clear.

Example import_sample :
  (fun r => (r.2, size_ r.1, map (value_of (saved r.1)) [[1; 2]; [1]; [1; 2; 3]; [3]; [3; 1]; [5]; []; [2]])) <$>
    import [([1], 7); ([1; 2], 5); ([1; 2; 3], 9); ([3; 1], 0); ([5], 3)] =
  Some (0, 271, [Some 5; Some 7; Some 9; None; Some 0; Some 3; None; None]).
Proof. by vm_compute. Qed.

(** With one of two keys the first family may not fit, before any key is done:
    the size to grow to is then an infinity. *)
Example import_first_growth : import [([1], 1); ([228], 1)] = None.
Proof. by vm_compute. Qed.

(** ** Growing *)
Lemma double_1_05_normal : normal double_1_05 4728779608739021 (-52).
Proof. exists 4728779608739021%positive. split; [by vm_compute|]. split; [done|]. lia. Qed.

Lemma double_1_normal : normal (double_of_Z 1) 4503599627370496 (-52).
Proof. exists 4503599627370496%positive. split; [by vm_compute|]. split; [done|]. lia. Qed.

(** A double that is not below another one of its kind. *)
Lemma normal_ge x y a b e f : normal x a e -> normal y b f -> SFltb x y = false -> f < e \/ (f = e /\ b <= a).
Proof.
  intros (p & -> & -> & _) (q & -> & -> & _). unfold SFltb, SFcompare. destruct (Z.compare_spec e f) as [->|H|H]; [|done|by left].
  change (Pos.compare_cont Eq p q) with (Pos.compare p q). destruct (Pos.compare_spec p q) as [->|H|H]; [|done|]; intros _; right; lia.
Qed.

(** The arrays grow by a twentieth at least. *)
Lemma grown_spec key_ alloc progress :
  10400 <= alloc < 2 ^ 32 -> 1 <= key_size_ key_ < 2 ^ 31 -> alloc * key_size_ key_ < 2 ^ 48 -> 1 <= progress < 2 ^ 32 ->
  exists n, grown key_ alloc progress = Some n /\ alloc + 514 <= n.
Proof.
  intros Ha Hk Hak Hp. unfold grown. set (ks := key_size_ key_) in *.
  destruct (double_of_Z_normal alloc ltac:(lia)) as [ea Hna]. destruct (double_of_Z_normal ks ltac:(lia)) as [ek Hnk].
  destruct (double_of_Z_normal progress ltac:(lia)) as [ep Hnp].
  set (ratio := double_div _ _).
  assert (Hratio : exists m g, ratio = S754_finite false m g /\ 2 ^ 52 <= Zpos m < 2 ^ 53 /\ g <= -18 /\ Zpos m <= 4 * ks * 2 ^ (- g)).
  { destruct (Hnk) as (pk & _ & Epk & Hpk & Hek).
    assert (Hek2 : ek <= -22).
    { destruct (Z.le_gt_cases ek (-22)) as [|Hgt]; [done|]. exfalso. assert (2 ^ (- ek) <= 2 ^ 21) by (apply Z.pow_le_mono_r; lia). nia. }
    destruct (mul_normal _ _ _ _ _ _ double_1_normal Hnk) as (m & g & Em & Hm & Hg0 & Hg & _ & Hv).
    { replace (52 - (-52 + ek)) with (52 + 52 + - ek) by lia. rewrite !Z.pow_add_r by lia. assert (0 < 2 ^ (- ek)) by lia. nia. }
    assert (Hnm : normal (double_mul (double_of_Z 1) (double_of_Z ks)) (Zpos m) g) by (exists m; split; [done|]; split; [done|]; lia).
    destruct (Hnp) as (pp & _ & Epp & Hpp & Hep).
    destruct (div_normal _ _ _ _ _ _ (2 * ks) Hnm Hnp) as (m2 & g2 & E2 & Hm2 & Hg2 & Hv2); [lia| | |].
    - rewrite <- (Z.mul_1_l (2 ^ (- ep))) at 1. apply Z.mul_le_mono_nonneg_r; lia.
    - replace (g - (-52 + ek)) with ((g - ek) + 52) in Hv by lia.
      assert (E : ks * 2 ^ (- ek) = ks * (2 ^ (- g) * 2 ^ (g - ek))) by (rewrite <- Z.pow_add_r by lia; do 2 f_equal; lia).
      rewrite E, Z.pow_add_r in Hv by lia. assert (0 < 2 ^ (g - ek)) by lia. change 4503599627370496 with (2 ^ 52) in Hv. nia.
    - exists m2, g2. split; [done|]. split; [done|]. split; [done|]. lia. }
  set (factor := if SFltb ratio double_1_05 then double_1_05 else ratio).
  assert (Hf : exists m g, normal factor m g /\ g <= -18 /\ m <= 4 * ks * 2 ^ (- g) /\ 4728779608739021 * 2 ^ (- g) <= m * 2 ^ 52).
  { unfold factor. destruct (SFltb ratio double_1_05) eqn:Elt.
    - exists 4728779608739021, (-52). split; [apply double_1_05_normal|]. split; [lia|]. change (- -52) with 52. lia.
    - destruct Hratio as (m & g & E & Hm & Hg & Hv). rewrite E in Elt |- *.
      assert (Hlo : -52 <= g).
      { destruct (Z.le_gt_cases (-52) g) as [|Hlt]; [done|]. exfalso. revert Elt.
        replace double_1_05 with (S754_finite false 4728779608739021 (-52)) by (by vm_compute). unfold SFltb, SFcompare.
        destruct (Z.compare_spec g (-52)); [lia|done|lia]. }
      assert (Hn : normal (S754_finite false m g) (Zpos m) g) by (exists m; split; [done|]; split; [done|]; lia).
      exists (Zpos m), g. split; [done|]. split; [done|]. split; [done|].
      destruct (normal_ge _ _ _ _ _ _ Hn double_1_05_normal Elt) as [H|[<- H]]; [|change (- -52) with 52; lia].
      assert (2 ^ (- g) <= 2 ^ 51) by (apply Z.pow_le_mono_r; lia). nia. }
  destruct Hf as (mf & gf & Hnf & Hgf & Hmf & Hlow). destruct (Hnf) as (_ & _ & _ & Hmf2 & Hgf2).
  destruct (Hna) as (_ & _ & _ & _ & Hea).
  assert (E : alloc * 2 ^ (- ea) * mf / 2 ^ (- (ea + gf)) = alloc * mf / 2 ^ (- gf)).
  { replace (- (ea + gf)) with (- gf + - ea) by lia. rewrite Z.pow_add_r by lia.
    replace (alloc * 2 ^ (- ea) * mf) with (alloc * mf * 2 ^ (- ea)) by lia. apply Z.div_mul_cancel_r; lia. }
  destruct (mul_normal _ _ _ _ _ _ Hna Hnf) as (m & g & Em & _ & Hg0 & _ & Hv & _).
  { replace (52 - (ea + gf)) with (52 + - gf + - ea) by lia. rewrite !Z.pow_add_r by lia. assert (0 < 2 ^ (- ea)) by lia.
    assert (0 < 2 ^ (- gf)) by lia. assert (alloc * mf < 2 ^ 52 * 2 ^ (- gf)); [|nia].
    apply Z.le_lt_trans with (alloc * (4 * ks * 2 ^ (- gf))); [apply Z.mul_le_mono_nonneg_l; lia|].
    replace (alloc * (4 * ks * 2 ^ (- gf))) with (4 * (alloc * ks) * 2 ^ (- gf)) by lia. apply Z.mul_lt_mono_pos_r; lia. }
  rewrite E in Hv. rewrite Em. unfold to_u64, trunc. set (v := if 0 <=? g then _ else _).
  assert (Ev : v = Zpos m / 2 ^ (- g)).
  { unfold v. destruct (Z.leb_spec 0 g); [|done]. assert (g = 0) as -> by lia. cbn [Z.opp Z.pow]. by rewrite Z.mul_1_r, Z.div_1_r. }
  assert (Hlo : alloc + 514 <= alloc * mf / 2 ^ (- gf)).
  { apply Z.div_le_lower_bound; [lia|]. assert (0 < 2 ^ (- gf)) by lia.
    assert ((alloc + 514) * 2 ^ 52 <= alloc * 4728779608739021) by lia. nia. }
  assert (Hhi : alloc * mf / 2 ^ (- gf) <= 2 ^ 50).
  { apply Z.div_le_upper_bound; [lia|]. assert (0 < 2 ^ (- gf)) by lia. nia. }
  cbn [mbind option_bind]. destruct (Z.leb_spec 0 v); [|lia]. destruct (Z.ltb_spec v (2 ^ 64)); [|lia]. cbn [andb mbind option_bind].
  destruct (Z.eqb_spec v 0); [lia|]. exists v. split; [done|]. lia.
Qed.

(** ** Families *)
Section Families.
Context (keys : list bytes).

(** The code of a key at a depth. *)
Definition cur (d : nat) (key : bytes) : Z := match key !! d with Some c => u8 c + 1 | None => 0 end.

(** The families of the keys from [l] to [r], by their codes at [d]. *)
Inductive parts (d : nat) : nat -> nat -> list node_t -> Prop :=
| parts_nil l : parts d l l []
| parts_cons l m r c siblings :
    (l < m)%nat -> (forall i, (l <= i < m)%nat -> exists key, keys !! i = Some key /\ (d <= length key)%nat /\ cur d key = c) ->
    parts d m r siblings -> Forall (fun s => c < code s) siblings -> parts d l r (mkNode c (S d) l m :: siblings).

Lemma parts_bounds d l r sibs : parts d l r sibs -> (l <= r)%nat /\ Forall (fun s => (l <= left s < right s)%nat /\ (right s <= r)%nat) sibs.
Proof.
  induction 1 as [|l m r c sibs Hlm _ _ [IH1 IH2] _]; [by split|]. split; [lia|]. constructor; [cbn; lia|].
  eapply Forall_impl; [exact IH2|]. cbn. lia.
Qed.

Lemma parts_snoc d l m r c sibs :
  parts d l m sibs -> (m < r)%nat ->
  (forall i, (m <= i < r)%nat -> exists key, keys !! i = Some key /\ (d <= length key)%nat /\ cur d key = c) ->
  Forall (fun s => code s < c) sibs -> parts d l r (sibs ++ [mkNode c (S d) m r]).
Proof.
  induction 1 as [l|l m0 m c0 sibs Hlm Hc0 Hp IH Hlt]; intros Hmr Hc Hs.
  - cbn [app]. constructor; [done|done|constructor|constructor].
  - apply Forall_cons in Hs as [Hs0 Hs]. cbn [app]. constructor; [done|done|by apply IH|]. apply Forall_app.
    split; [done|]. apply Forall_singleton. exact Hs0.
Qed.

Lemma set_last_right_snoc sibs s j : set_last_right (sibs ++ [s]) j = sibs ++ [mkNode (code s) (depth s) (left s) j].
Proof.
  induction sibs as [|x sibs IH]; [done|]. cbn [app set_last_right]. rewrite IH. by destruct sibs.
Qed.

Lemma set_last_right_codes sibs j : map code (set_last_right sibs j) = map code sibs.
Proof. induction sibs as [|x sibs IH]; [done|]. cbn [set_last_right map]. destruct sibs; [done|]. cbn [map] in *. by rewrite IH. Qed.

(** The last family may take in the next key. *)
Lemma parts_extend d l i sibs s c key :
  parts d l i (sibs ++ [s]) -> code s = c -> keys !! i = Some key -> (d <= length key)%nat -> cur d key = c ->
  parts d l (S i) (sibs ++ [mkNode c (depth s) (left s) (S i)]).
Proof.
  remember (sibs ++ [s]) as all eqn:E. intros Hp. revert sibs E.
  induction Hp as [l|l m r c0 rest Hlm Hc0 Hp IH Hlt]; intros sibs E <- Hk Hl Hcur; [by destruct sibs|].
  destruct sibs as [|x sibs]; cbn [app] in E; injection E as <- E.
  - subst rest. inversion Hp; subst. cbn [app code depth left] in *. constructor; [lia| |constructor|constructor].
    intros j Hj. destruct (decide (j = r)) as [->|]; [by exists key|]. apply Hc0. lia.
  - cbn [app]. subst rest. constructor; [done|done|by apply IH|]. apply Forall_app in Hlt as [H1 H2]. apply Forall_app. split; [done|].
    apply Forall_singleton. by rewrite Forall_singleton in H2.
Qed.

Lemma parts_in d l r sibs s :
  parts d l r sibs -> s ∈ sibs ->
  (l <= left s < right s)%nat /\ (right s <= r)%nat /\ depth s = S d /\
  forall i, (left s <= i < right s)%nat -> exists key, keys !! i = Some key /\ (d <= length key)%nat /\ cur d key = code s.
Proof.
  induction 1 as [l|l m r c sibs Hlm Hc Hp IH Hlt]; intros Hs; [by apply elem_of_nil in Hs|].
  destruct (parts_bounds _ _ _ _ Hp) as [Hmr _]. apply elem_of_cons in Hs as [->|Hs].
  - cbn [left right depth code]. do 3 (split; [lia|]). exact Hc.
  - destruct (IH Hs) as (H1 & H2 & H3 & H4). split; [lia|]. by split_and!.
Qed.

Lemma parts_at d l r sibs i :
  parts d l r sibs -> (l <= i < r)%nat -> exists s, s ∈ sibs /\ (left s <= i < right s)%nat.
Proof.
  induction 1 as [l|l m r c sibs Hlm Hc Hp IH Hlt]; intros Hi; [lia|]. destruct (decide (i < m)%nat) as [|Hm].
  - eexists. split; [left|]. cbn. lia.
  - destruct IH as (s & Hs & Hr); [lia|]. exists s. split; [by right|done].
Qed.

Lemma parts_code_inj d l r sibs s s' : parts d l r sibs -> s ∈ sibs -> s' ∈ sibs -> code s = code s' -> s = s'.
Proof.
  induction 1 as [l|l m r c sibs Hlm Hc Hp IH Hlt]; intros Hs Hs' E; [by apply elem_of_nil in Hs|].
  rewrite Forall_forall in Hlt. apply elem_of_cons in Hs as [->|Hs], Hs' as [->|Hs']; [done|..|by apply IH].
  - specialize (Hlt s' Hs'). cbn in E. lia.
  - specialize (Hlt s Hs). cbn in E. lia.
Qed.

(** What the keys of a family have in common. *)
Lemma parts_sib d l r sibs s i key :
  parts d l r sibs -> s ∈ sibs -> (l <= i < r)%nat -> keys !! i = Some key ->
  cur d key = code s <-> (left s <= i < right s)%nat.
Proof.
  intros Hp Hs Hi Hk. split.
  - intros E. destruct (parts_at _ _ _ _ i Hp Hi) as (s' & Hs' & Hr').
    destruct (parts_in _ _ _ _ _ Hp Hs') as (_ & _ & _ & H). destruct (H i Hr') as (key' & Hk' & _ & E'). simplify_eq.
    assert (s = s') as -> by (apply (parts_code_inj _ _ _ _ s s' Hp Hs Hs'); congruence). done.
  - intros Hr. destruct (parts_in _ _ _ _ _ Hp Hs) as (_ & _ & _ & H). destruct (H i Hr) as (key' & Hk' & _ & E'). by simplify_eq.
Qed.

Lemma parts_codes d l r sibs : parts d l r sibs -> Forall (fun s => 0 <= code s <= 256) sibs.
Proof.
  intros Hp. rewrite Forall_forall. intros s Hs. destruct (parts_in _ _ _ _ _ Hp Hs) as (Hl & _ & _ & H).
  destruct (H (left s) ltac:(lia)) as (key & _ & _ & <-). unfold cur. destruct (key !! d); [|lia]. pose proof (u8_range z). lia.
Qed.

Lemma parts_sorted d l r sibs : parts d l r sibs -> StronglySorted Z.lt (map code sibs).
Proof.
  induction 1 as [l|l m r c sibs Hlm Hc Hp IH Hlt]; cbn [map]; constructor; [done|]. by rewrite Forall_map.
Qed.

(** ** Fetching *)
Definition key_at (d i : nat) (c : Z) : Prop := exists key, keys !! i = Some key /\ (d <= length key)%nat /\ cur d key = c.

Lemma fetch_loop_ok d l n i sibs prev :
  (sibs = [] /\ prev = 0 /\ l = i \/ exists sibs' s, sibs = sibs' ++ [s] /\ code s = prev /\ depth s = S d /\
     parts d l i (sibs' ++ [mkNode (code s) (S d) (left s) i])) ->
  (forall j, (i <= j < i + n)%nat -> exists c, key_at d j c /\ prev <= c) ->
  (forall j k c c', (i <= j < k)%nat -> (k < i + n)%nat -> key_at d j c -> key_at d k c' -> c <= c') ->
  exists res, fetch_loop keys n i d prev sibs = Some (Some res) /\ parts d l (i + n) (set_last_right res (i + n)).
Proof.
  revert i sibs prev. induction n as [|n IH]; intros i sibs prev Hs Hc Hmono; cbn [fetch_loop].
  { exists sibs. split; [done|]. rewrite Nat.add_0_r. destruct Hs as [(-> & _ & ->)|(sibs' & s & -> & _ & Hd & Hp)]; [constructor|].
    by rewrite set_last_right_snoc, Hd. }
  destruct (Hc i ltac:(lia)) as (c & (key & Hk & Hlen & Hcur) & Hprev). rewrite Hk. cbn [mbind option_bind].
  destruct (Nat.ltb_spec (length key) d); [lia|].
  assert ((if (length key =? d)%nat then Some 0 else c ← key !! d; Some (u8 c + 1)) = Some c) as ->.
  { rewrite <- Hcur. unfold cur. destruct (Nat.eqb_spec (length key) d) as [E|E].
    - by rewrite lookup_ge_None_2 by lia.
    - destruct (lookup_lt_is_Some_2 key d) as [x Hx]; [lia|]. by rewrite Hx. }
  cbn [mbind option_bind]. destruct (Z.ltb_spec c prev); [lia|].
  assert (Hat : key_at d i c) by by exists key.
  assert (Hnew : forall j, (i <= j < S i)%nat -> key_at d j c) by (intros j Hj; by assert (j = i) as -> by lia).
  rewrite <- Nat.add_succ_comm. destruct (negb (c =? prev) || _) eqn:En.
  - apply IH.
    + right. exists (set_last_right sibs i), (mkNode c (S d) i 0). split; [done|]. split; [done|]. split; [done|]. cbn [code left].
      destruct Hs as [(-> & _ & ->)|(sibs' & s & -> & Ec & Hd & Hp)].
      * cbn [set_last_right app]. constructor; [lia|exact Hnew|constructor|constructor].
      * rewrite set_last_right_snoc, Hd. apply (parts_snoc d l i (S i) c); [done|lia|exact Hnew|].
        assert (Hlt : code s < c).
        { apply orb_true_iff in En as [En|En]; [|by destruct sibs']. apply negb_true_iff, Z.eqb_neq in En. lia. }
        pose proof (parts_sorted _ _ _ _ Hp) as Hsort. rewrite map_app in Hsort.
        apply Forall_app. split; [|apply Forall_singleton; exact Hlt]. apply Forall_forall. intros x Hx.
        etrans; [|exact Hlt]. eapply (StronglySorted_app_1_elem_of Z.lt); [exact Hsort|apply list_elem_of_fmap; by exists x|left].
    + intros j Hj. destruct (Hc j ltac:(lia)) as (c' & Hc' & _). exists c'. split; [done|].
      apply (Hmono i j c c'); [lia|lia|done|done].
    + intros j k c1 c2 Hj Hk'. apply Hmono; lia.
  - apply orb_false_iff in En as [En%negb_false_iff%Z.eqb_eq Hne]. subst prev. apply IH.
    + right. destruct Hs as [(-> & _ & _)|(sibs' & s & -> & Ec & Hd & Hp)]; [done|]. exists sibs', s. do 3 (split; [done|]).
      rewrite Ec. by apply (parts_extend d l i sibs' (mkNode (code s) (S d) (left s) i) c key).
    + intros j Hj. destruct (Hc j ltac:(lia)) as (c' & Hc' & ?). by exists c'.
    + intros j k c1 c2 Hj Hk'. apply Hmono; lia.
Qed.

Lemma fetch_loop_leaf n i d prev sibs :
  (forall j, (i <= j < i + n)%nat -> exists key, keys !! j = Some key /\ (length key < d)%nat) ->
  fetch_loop keys n i d prev sibs = Some (Some sibs).
Proof.
  revert i. induction n as [|n IH]; intros i H; cbn [fetch_loop]; [done|].
  destruct (H i ltac:(lia)) as (key & -> & Hl). cbn [mbind option_bind]. destruct (Nat.ltb_spec (length key) d); [|lia].
  apply IH. intros j Hj. apply H. lia.
Qed.

(** What is asked of the keys: sorted as strings of octets, without zeros, and
    with values that a leaf can hold. *)
Context (value_ : option (list Z)).

Definition value_at (i : nat) : option Z := match value_ with Some vs => vs !! i | None => Some (Z.of_nat i) end.

Context (Hsorted : forall i j k1 k2, (i < j)%nat -> keys !! i = Some k1 -> keys !! j = Some k2 -> bytes_cmp k1 k2 <> Gt).
Context (Hbytes : Forall (Forall (fun c => 0 < c < 256)) keys).
Context (Hvalues : forall i, (i < length keys)%nat -> exists v, value_at i = Some v /\ 0 <= v < 2 ^ 31).

Lemma i32_id z : - 2 ^ 31 <= z < 2 ^ 31 -> i32 z = z.
Proof.
  intros Hz. unfold i32, u32. destruct (Z.le_gt_cases 0 z).
  - rewrite Z.mod_small by lia. by destruct (Z.ltb_spec z (2 ^ 31)); [|lia].
  - assert (z mod 2 ^ 32 = z + 2 ^ 32) as -> by (symmetry; apply (Z.mod_unique _ _ (-1)); lia).
    destruct (Z.ltb_spec (z + 2 ^ 32) (2 ^ 31)); lia.
Qed.

Lemma leaf_base_ok i : (i < length keys)%nat -> exists v g, value_at i = Some v /\ 0 <= v < 2 ^ 31 /\ leaf_base value_ i = Some (- v - 1, g).
Proof.
  intros Hi. destruct (Hvalues i Hi) as (v & Hv & Hr). exists v. unfold leaf_base, value_at in *. destruct value_ as [vs|].
  - rewrite Hv. cbn [mbind option_bind]. exists true. by rewrite i32_id by lia.
  - injection Hv as <-. exists false. rewrite i32_id by lia. by replace (- Z.of_nat i - 1) with (-1 * Z.of_nat i - 1) by lia.
Qed.

(** The keys from [l] to [r] are those that start with [pre]. *)
Record node_ok (pre : bytes) (l r : nat) : Prop := {
  nd_range : (l < r <= length keys)%nat;
  nd_prefix i : (l <= i < r)%nat -> exists s, keys !! i = Some (pre ++ s)
}.

Lemma cur_app pre s : cur (length pre) (pre ++ s) = match s with c :: _ => u8 c + 1 | [] => 0 end.
Proof. unfold cur. rewrite lookup_app_r, Nat.sub_diag by lia. by destruct s. Qed.

Lemma key_bytes i pre s : keys !! i = Some (pre ++ s) -> Forall (fun c => 0 < c < 256) s.
Proof.
  intros Hk. rewrite Forall_forall in Hbytes. specialize (Hbytes _ (list_elem_of_lookup_2 _ _ _ Hk)).
  by apply Forall_app in Hbytes as [_ ?].
Qed.

Lemma fetch_ok pre l r st c :
  node_ok pre l r -> error_ st = 0 ->
  exists sibs, fetch keys st (mkNode c (length pre) l r) = Some (st, sibs) /\ parts (length pre) l r sibs /\ sibs <> [].
Proof.
  intros [Hr Hpre] He. unfold fetch. rewrite He. cbn [Z.ltb Z.compare left right depth].
  destruct (fetch_loop_ok (length pre) l (r - l) l [] 0) as (res & -> & Hp).
  - by left.
  - intros j Hj. destruct (Hpre j ltac:(lia)) as [s Hs]. exists (cur (length pre) (pre ++ s)). split.
    + exists (pre ++ s). split; [done|]. rewrite length_app. split; [lia|done].
    + rewrite cur_app. destruct s as [|x s]; [lia|]. pose proof (u8_range x). lia.
  - intros j k c1 c2 Hj Hk (k1 & E1 & _ & <-) (k2 & E2 & _ & <-). destruct (Hpre j ltac:(lia)) as [s1 Hs1], (Hpre k ltac:(lia)) as [s2 Hs2].
    simplify_eq. rewrite !cur_app. destruct (decide (j = k)) as [->|Hne]; [by simplify_eq|].
    pose proof (Hsorted j k _ _ ltac:(lia) E1 E2) as Hcmp. rewrite bytes_cmp_app_same in Hcmp.
    pose proof (key_bytes _ _ _ E1) as H1. pose proof (key_bytes _ _ _ E2) as H2.
    destruct s1 as [|x s1], s2 as [|y s2]; [done|pose proof (u8_range y); lia|by destruct Hcmp|].
    apply Forall_cons in H1 as [H1 _], H2 as [H2 _]. rewrite !u8_id by lia. cbn [bytes_cmp] in Hcmp.
    destruct (Z.compare_spec x y); [lia|lia|done].
  - cbn [mbind option_bind]. replace (l + (r - l))%nat with r in Hp by lia. eexists. split; [done|]. split; [done|].
    intros E. rewrite E in Hp. inversion Hp. lia.
Qed.

Lemma child_ok pre l r sibs s :
  node_ok pre l r -> parts (length pre) l r sibs -> s ∈ sibs -> code s <> 0 ->
  node_ok (pre ++ [code s - 1]) (left s) (right s) /\ depth s = length (pre ++ [code s - 1]) /\ 2 <= code s.
Proof.
  intros [Hr Hpre] Hp Hs H0. destruct (parts_in _ _ _ _ _ Hp Hs) as (Hl & Hr' & Hd & Hat).
  assert (Hkey : forall i, (left s <= i < right s)%nat -> exists t, keys !! i = Some (pre ++ (code s - 1) :: t) /\ 1 <= code s - 1).
  { intros i Hi. destruct (Hat i Hi) as (key & Hk & _ & Hc). destruct (Hpre i ltac:(lia)) as [t Ht]. rewrite Ht in Hk. injection Hk as <-.
    rewrite cur_app in Hc. destruct t as [|x t]; [done|]. pose proof (key_bytes _ _ _ Ht) as [Hx _]%Forall_cons.
    rewrite u8_id in Hc by lia. exists t. rewrite <- Hc, Z.add_simpl_r. split; [done|lia]. }
  split; [|split; [rewrite length_app; cbn; lia|destruct (Hkey (left s) ltac:(lia)) as (_ & _ & ?); lia]].
  constructor; [lia|]. intros i Hi. destruct (Hkey i Hi) as (t & Ht & _). exists t. by rewrite <- app_assoc.
Qed.

Lemma leaf_keys_ok pre l r sibs s :
  node_ok pre l r -> parts (length pre) l r sibs -> s ∈ sibs -> code s = 0 ->
  forall i, (left s <= i < right s)%nat -> keys !! i = Some pre.
Proof.
  intros [Hr Hpre] Hp Hs H0 i Hi. destruct (parts_in _ _ _ _ _ Hp Hs) as (Hl & Hr' & Hd & Hat).
  destruct (Hat i Hi) as (key & Hk & _ & Hc). destruct (Hpre i ltac:(lia)) as [t Ht]. rewrite Ht in Hk. injection Hk as <-.
  rewrite cur_app, H0 in Hc. destruct t as [|x t]; [by rewrite app_nil_r in Ht|]. pose proof (u8_range x). lia.
Qed.

Lemma fetch_leaf pre l r sibs s st :
  node_ok pre l r -> parts (length pre) l r sibs -> s ∈ sibs -> code s = 0 -> error_ st = 0 -> fetch keys st s = Some (st, []).
Proof.
  intros Hn Hp Hs H0 He. destruct (parts_in _ _ _ _ _ Hp Hs) as (Hl & Hr' & Hd & _). unfold fetch. rewrite He. cbn [Z.ltb Z.compare].
  rewrite fetch_loop_leaf; [done|]. intros j Hj. exists pre. split; [eapply leaf_keys_ok; try done; lia|]. lia.
Qed.

(** ** What is asked of the array *)

(** Two arrays with the same places of the families [X]. *)
Definition frame (X : Z -> Prop) (a a' : list unit_t) : Prop :=
  forall p u, X (check u) -> a !! p = Some u <-> a' !! p = Some u.

Lemma frame_refl X a : frame X a a.
Proof. by intros p u _. Qed.

Lemma frame_trans X a b c : frame X a b -> frame X b c -> frame X a c.
Proof. intros H1 H2 p u Hu. rewrite (H1 p u Hu). by apply H2. Qed.

Lemma frame_mono (X Y : Z -> Prop) a b : (forall x, Y x -> X x) -> frame X a b -> frame Y a b.
Proof. intros H1 H2 p u Hu. apply H2. auto. Qed.

(** The place of a child in the family at [b]: a leaf, or [R] of its base. *)
Definition child (R : Z -> nat -> nat -> Prop) (a : list unit_t) (b : Z) (s : node_t) : Prop :=
  exists u, at_ a (b + code s) = Some u /\ check u = b /\
    (code s = 0 -> exists v, value_at (left s) = Some v /\ base u = - v - 1) /\
    (code s <> 0 -> R (base u) (left s) (right s)).

(** The keys from [l] to [r], from the depth [d] on, are the tree at [b], which
    is made of families in [X]. *)
Fixpoint sub (n : nat) (X : Z -> Prop) (a : list unit_t) (b : Z) (d l r : nat) : Prop :=
  match n with
  | O => False
  | S n =>
      X b /\ exists sibs, parts d l r sibs /\
        (forall p u, a !! p = Some u -> check u = b -> exists s, s ∈ sibs /\ Z.of_nat p = b + code s) /\
        forall s, s ∈ sibs -> child (fun b' l' r' => sub n X a b' (S d) l' r') a b s
  end.

Lemma child_frame (R R' : Z -> nat -> nat -> Prop) (X : Z -> Prop) a a' b s :
  X b -> frame X a a' -> (forall b' l r, R b' l r -> R' b' l r) -> child R a b s -> child R' a' b s.
Proof.
  intros Hb Hf HR (u & Hu & Ec & H0 & H1). exists u. split; [apply (Hf _ u); [by rewrite Ec|exact Hu]|]. auto.
Qed.

Lemma sub_frame n (X Y : Z -> Prop) a a' b d l r :
  frame X a a' -> (forall x, X x -> Y x) -> sub n X a b d l r -> sub n Y a' b d l r.
Proof.
  intros Hf Hxy. revert b d l r. induction n as [|n IH]; intros b d l r; cbn [sub]; [done|].
  intros (Hb & sibs & Hp & Hneg & Hch). split; [by apply Hxy|]. exists sibs. split; [done|]. split.
  - intros p u Hu Ec. apply (Hneg p u); [|done]. apply Hf; [by rewrite Ec|done].
  - intros s Hs. eapply child_frame; [exact Hb|exact Hf| |exact (Hch s Hs)]. intros. by apply IH.
Qed.

(** ** Searching *)
Definition search (a : list unit_t) (b : Z) (s : bytes) : option Z :=
  r ← exact_loop a s b; b ← r; x ← leaf a b; if x.2 : bool then Some (i32 (- x.1 - 1)) else None.

(** The value of the first of the keys from [l] to [r] that is [key]. *)
Definition answer (l r : nat) (key : bytes) (res : option Z) : Prop :=
  (exists i v, (l <= i < r)%nat /\ keys !! i = Some key /\ (forall j, (l <= j < i)%nat -> keys !! j <> Some key) /\
     value_at i = Some v /\ res = Some v) \/
  ((forall i, (l <= i < r)%nat -> keys !! i <> Some key) /\ res = None).

Lemma sub_search n (X : Z -> Prop) a b pre l r s :
  (forall x, X x -> 1 <= x /\ x + 256 < Z.of_nat (length a) < 2 ^ 31) ->
  node_ok pre l r -> sub n X a b (length pre) l r -> wf_bytes s -> answer l r (pre ++ s) (search a b s).
Proof.
  intros HX. revert n b pre l r. induction s as [|c s IH]; intros [|n] b pre l r Hn Hsub Hs; try done;
    destruct Hsub as (Hb & sibs & Hp & Hneg & Hch); destruct (HX b Hb) as [Hb1 Hb2]; unfold search; cbn [exact_loop].
  - cbn [mbind option_bind]. unfold leaf. rewrite (u32_id b) by (unfold is_u32; lia). rewrite app_nil_r.
    destruct (lookup_lt_is_Some_2 a (Z.to_nat b)) as [u Hu]; [lia|]. unfold at_. rewrite Hu. cbn [mbind option_bind fst snd].
    destruct (Z.eqb_spec b (check u)) as [Ec|Ec].
    + destruct (Hneg _ u Hu (eq_sym Ec)) as (x & Hx & Ex). assert (H0 : code x = 0) by lia.
      destruct (Hch x Hx) as (u' & Hu' & _ & Hleaf & _). rewrite H0, Z.add_0_r in Hu'. unfold at_ in Hu'. simplify_eq.
      destruct (Hleaf H0) as (v & Hv & Ebase). destruct (parts_in _ _ _ _ _ Hp Hx) as (Hl & Hr & _ & _).
      destruct (Hvalues (left x)) as (v' & Hv' & Hvr); [destruct Hn; lia|]. simplify_eq. rewrite Ebase.
      destruct (Z.ltb_spec (- v - 1) 0); [|lia]. cbn [andb]. left. exists (left x), v. split; [lia|].
      split; [apply (leaf_keys_ok pre l r sibs x Hn Hp Hx H0); lia|]. split; [|split; [done|]].
      * intros j Hj E. assert (cur (length pre) pre = code x) as Hcur by (rewrite H0; unfold cur; by rewrite lookup_ge_None_2 by lia).
        apply (parts_sib _ _ _ _ _ j pre Hp Hx) in Hcur; [lia|lia|done].
      * f_equal. replace (- (- v - 1) - 1) with v by lia. apply i32_id. lia.
    + cbn [andb]. right. split; [|done]. intros i Hi E. destruct (parts_at _ _ _ _ i Hp Hi) as (x & Hx & Hxi).
      apply (parts_sib _ _ _ _ _ i pre Hp Hx Hi E) in Hxi as Hcur. unfold cur in Hcur. rewrite lookup_ge_None_2 in Hcur by lia.
      destruct (Hch x Hx) as (u' & Hu' & Ec' & _). rewrite <- Hcur, Z.add_0_r in Hu'. unfold at_ in Hu'. simplify_eq.
  - apply Forall_cons in Hs as [Hc Hs]. unfold is_byte in Hc. unfold edge. rewrite (u8_id c) by lia.
    rewrite !u32_id by (unfold is_u32; lia).
    destruct (lookup_lt_is_Some_2 a (Z.to_nat (b + c + 1))) as [u Hu]; [lia|]. unfold at_ at 1. rewrite Hu. cbn [mbind option_bind].
    assert (Hcur : forall key t, key = pre ++ c :: t -> cur (length pre) key = c + 1).
    { intros key t ->. rewrite cur_app, u8_id by lia. done. }
    destruct (Z.eqb_spec b (check u)) as [Ec|Ec].
    + destruct (Hneg _ u Hu (eq_sym Ec)) as (x & Hx & Ex). assert (H0 : code x = c + 1) by lia.
      destruct (Hch x Hx) as (u' & Hu' & _ & _ & Hrec). rewrite H0, Z.add_assoc in Hu'. unfold at_ in Hu'. simplify_eq.
      destruct (child_ok _ _ _ _ _ Hn Hp Hx ltac:(lia)) as (Hn' & Hd & _). rewrite H0, Z.add_simpl_r in Hn', Hd.
      specialize (Hrec ltac:(lia)). replace (S (length pre)) with (length (pre ++ [c])) in Hrec by (rewrite length_app; cbn; lia).
      specialize (IH n _ _ _ _ Hn' Hrec Hs). rewrite <- app_assoc in IH. cbn [app] in IH. fold (search a (base u) s).
      destruct (parts_in _ _ _ _ _ Hp Hx) as (Hl & Hr & _ & _).
      assert (Hout : forall j, (l <= j < r)%nat -> keys !! j = Some (pre ++ c :: s) -> (left x <= j < right x)%nat).
      { intros j Hj E. apply (parts_sib _ _ _ _ _ j _ Hp Hx Hj E). rewrite H0. by eapply Hcur. }
      destruct IH as [(i & v & Hi & Hk & Hfirst & Hv & E)|[Hnone E]].
      * left. exists i, v. split; [lia|]. split; [done|]. split; [|done]. intros j Hj Ej. apply (Hfirst j); [|done].
        specialize (Hout j ltac:(lia) Ej). lia.
      * right. split; [|done]. intros i Hi Ei. apply (Hnone i); [by apply Hout|done].
    + right. split; [|done]. intros i Hi E. destruct (parts_at _ _ _ _ i Hp Hi) as (x & Hx & Hxi).
      apply (parts_sib _ _ _ _ _ i _ Hp Hx Hi E) in Hxi as Hcx. rewrite (Hcur _ _ eq_refl) in Hcx.
      destruct (Hch x Hx) as (u' & Hu' & Ec' & _). rewrite <- Hcx, Z.add_assoc in Hu'. unfold at_ in Hu'. simplify_eq.
Qed.

(** Only beginnings of keys are walked. *)
Lemma sub_walk n (X : Z -> Prop) a b b' pre l r s :
  (forall x, X x -> 1 <= x /\ x + 256 < Z.of_nat (length a) < 2 ^ 31) ->
  node_ok pre l r -> sub n X a b (length pre) l r -> wf_bytes s -> exact_loop a s b = Some (Some b') ->
  exists i t, (l <= i < r)%nat /\ keys !! i = Some (pre ++ s ++ t).
Proof.
  intros HX. revert n b pre l r. induction s as [|c s IH]; intros [|n] b pre l r Hn Hsub Hs E; try done;
    destruct Hsub as (Hb & sibs & Hp & Hneg & Hch); destruct (HX b Hb) as [Hb1 Hb2]; cbn [exact_loop] in E.
  - destruct Hn as [Hr Hpre]. destruct (Hpre l ltac:(lia)) as [t Ht]. exists l, t. split; [lia|done].
  - apply Forall_cons in Hs as [Hc Hs]. unfold is_byte in Hc. unfold edge in E. rewrite (u8_id c) in E by lia.
    rewrite !u32_id in E by (unfold is_u32; lia).
    destruct (lookup_lt_is_Some_2 a (Z.to_nat (b + c + 1))) as [u Hu]; [lia|]. unfold at_ in E. rewrite Hu in E.
    cbn [mbind option_bind] in E. destruct (Z.eqb_spec b (check u)) as [Ec|Ec]; [|done].
    destruct (Hneg _ u Hu (eq_sym Ec)) as (x & Hx & Ex). assert (H0 : code x = c + 1) by lia.
    destruct (Hch x Hx) as (u' & Hu' & _ & _ & Hrec). rewrite H0, Z.add_assoc in Hu'. unfold at_ in Hu'. simplify_eq.
    destruct (child_ok _ _ _ _ _ Hn Hp Hx ltac:(lia)) as (Hn' & Hd & _). rewrite H0, Z.add_simpl_r in Hn', Hd.
    specialize (Hrec ltac:(lia)). replace (S (length pre)) with (length (pre ++ [c])) in Hrec by (rewrite length_app; cbn; lia).
    destruct (IH n _ _ _ _ Hn' Hrec Hs E) as (i & t & Hi & Hk). rewrite <- app_assoc in Hk. cbn [app] in Hk.
    destruct (parts_in _ _ _ _ _ Hp Hx) as (Hl & Hr & _ & _). exists i, t. split; [lia|done].
Qed.

(** ** Counting *)

(** The families that the keys from [i] on can need, from the depth [d] on. *)
Fixpoint weight (d i n : nat) : Z :=
  match n with
  | O => 0
  | S n => match keys !! i with Some key => Z.of_nat (length key) - Z.of_nat d + 1 | None => 0 end + weight d (S i) n
  end.

Lemma weight_app d i n m : weight d i (n + m) = weight d i n + weight d (i + n) m.
Proof.
  revert i. induction n as [|n IH]; intros i; cbn [weight plus]; [by rewrite Nat.add_0_r|]. rewrite IH, <- Nat.add_succ_comm. lia.
Qed.

Lemma weight_deeper d i n : (i + n <= length keys)%nat -> weight (S d) i n = weight d i n - Z.of_nat n.
Proof.
  revert i. induction n as [|n IH]; intros i Hi; cbn [weight]; [lia|]. rewrite IH by lia.
  destruct (lookup_lt_is_Some_2 keys i) as [key ->]; [lia|]. lia.
Qed.

Lemma weight_low d i n :
  (forall j, (i <= j < i + n)%nat -> exists key, keys !! j = Some key /\ (d <= length key)%nat) -> Z.of_nat n <= weight d i n.
Proof.
  revert i. induction n as [|n IH]; intros i Hi; cbn [weight]; [lia|]. destruct (Hi i ltac:(lia)) as (key & -> & Hk).
  specialize (IH (S i)). assert (Z.of_nat n <= weight d (S i) n) by (apply IH; intros j Hj; apply Hi; lia). lia.
Qed.

Definition W (d l r : nat) : Z := weight d l (r - l).

Lemma W_split d l m r : (l <= m <= r)%nat -> W d l r = W d l m + W d m r.
Proof.
  intros H. unfold W. replace (r - l)%nat with ((m - l) + (r - m))%nat by lia. rewrite weight_app. do 2 f_equal. lia.
Qed.

Lemma W_deeper d l r : (l <= r <= length keys)%nat -> W (S d) l r = W d l r - (Z.of_nat r - Z.of_nat l).
Proof. intros H. unfold W. rewrite weight_deeper by lia. lia. Qed.

Lemma W_low pre l r l' r' : node_ok pre l r -> (l <= l' <= r')%nat -> (r' <= r)%nat -> Z.of_nat r' - Z.of_nat l' <= W (length pre) l' r'.
Proof.
  intros [_ Hpre] H1 H2. unfold W. replace (Z.of_nat r' - Z.of_nat l') with (Z.of_nat (r' - l')) by lia. apply weight_low.
  intros j Hj. destruct (Hpre j ltac:(lia)) as [s Hs]. exists (pre ++ s). split; [done|]. rewrite length_app. lia.
Qed.

(** ** The state of the builder *)
Notation ks := (key_size_ keys).
Definition total : Z := W 0 0 (length keys).

Context (Hks : 163 <= ks) (Hdeep : Forall (fun key => 514 * (Z.of_nat (length key) + 2) <= 64 * ks) keys).
Context (Htotal : 514 * (total + 1) * ks < 2 ^ 48) (Htotal2 : 514 * (total + 2) < 2 ^ 31).

Definition U (st : builder) (b : Z) : Prop := 0 <= b /\ used_ st !! Z.to_nat b = Some true.

Record inv (st : builder) : Prop := {
  iv_used : length (used_ st) = length (array_ st);
  iv_alloc : 64 * ks <= alloc_size_ st;
  iv_size : 0 <= size_ st <= alloc_size_ st;
  iv_next : 0 <= next_check_pos_ st <= size_ st;
  iv_label p u : array_ st !! p = Some u -> check u <> 0 -> Z.of_nat p < size_ st /\ U st (check u);
  iv_begin b : U st b -> 1 <= b < size_ st;
  iv_error : error_ st = 0;
  iv_progress : 0 <= progress_ st
}.

(** More room and nothing else, but the place to look next. *)
Record roomier (st st' : builder) : Prop := {
  rm_array : exists k, array_ st' = array_ st ++ replicate k (mkUnit 0 0) /\ used_ st' = used_ st ++ replicate k false;
  rm_size : size_ st' = size_ st;
  rm_progress : progress_ st' = progress_ st;
  rm_error : error_ st' = error_ st
}.

Lemma roomier_refl st : roomier st st.
Proof. constructor; [|done|done|done]. exists O. by rewrite !app_nil_r. Qed.

Lemma roomier_trans a b c : roomier a b -> roomier b c -> roomier a c.
Proof.
  intros [(k1 & A1 & B1) ? ? ?] [(k2 & A2 & B2) ? ? ?]. constructor; [|congruence..]. exists (k1 + k2)%nat.
  by rewrite A2, A1, B2, B1, <- !app_assoc, <- !replicate_add.
Qed.

Lemma roomier_next st st' p : roomier st st' -> roomier st (set_next st' p).
Proof. intros []. by constructor. Qed.

Lemma resize_ok st n : alloc_size_ st <= n -> exists st', resize st n = Some st' /\ roomier st st' /\ next_check_pos_ st' = next_check_pos_ st /\
  (length (used_ st) = length (array_ st) -> alloc_size_ st' = n).
Proof.
  intros Hn. unfold resize. destruct (Z.ltb_spec n (alloc_size_ st)); [lia|]. eexists. split; [done|]. split; [|split; [done|]].
  - constructor; [by eexists|done|done|done].
  - intros _. unfold alloc_size_ in *. cbn. rewrite length_app, length_replicate. lia.
Qed.

Lemma reach_ok st pos : exists st', reach st pos = Some st' /\ roomier st st' /\ next_check_pos_ st' = next_check_pos_ st /\
  pos < alloc_size_ st' /\ alloc_size_ st <= alloc_size_ st'.
Proof.
  unfold reach. destruct (Z.leb_spec (alloc_size_ st) pos) as [H|H].
  - destruct (resize_ok st (pos + 1) ltac:(lia)) as (st' & E & Hr & Hn & _). exists st'. split; [done|]. split; [done|]. split; [done|].
    unfold resize in E. destruct (Z.ltb_spec (pos + 1) (alloc_size_ st)); [lia|]. injection E as <-. unfold alloc_size_ in *. cbn.
    rewrite length_app, length_replicate. lia.
  - exists st. split; [done|]. split; [apply roomier_refl|]. split; [done|lia].
Qed.

Lemma roomier_lookup st st' p u : roomier st st' -> check u <> 0 -> array_ st' !! p = Some u <-> array_ st !! p = Some u.
Proof.
  intros [(k & -> & _) _ _ _] Hc. split; [|intros ?; by apply lookup_app_l_Some]. intros [H|[H1 H2]]%lookup_app_Some; [done|].
  apply lookup_replicate in H2 as [-> _]. done.
Qed.

Lemma roomier_U st st' b : roomier st st' -> U st' b <-> U st b.
Proof.
  intros [(k & _ & E) _ _ _]. unfold U. rewrite E. split; intros [H0 H]; (split; [done|]); [|by apply lookup_app_l_Some].
  apply lookup_app_Some in H as [H|[_ H]]; [done|]. by apply lookup_replicate in H as [? _].
Qed.

Lemma roomier_alloc st st' : roomier st st' -> alloc_size_ st <= alloc_size_ st'.
Proof. intros [(k & E & _) _ _ _]. unfold alloc_size_. rewrite E, length_app. lia. Qed.

Lemma roomier_inv st st' : roomier st st' -> 0 <= next_check_pos_ st' <= size_ st -> inv st -> inv st'.
Proof.
  intros Hr Hn [I1 I2 I3 I4 I5 I6 I7 I8]. pose proof (roomier_alloc _ _ Hr). pose proof Hr as [(k & E1 & E2) Es Ep Ee].
  constructor; rewrite ?Es, ?Ep, ?Ee; try done; try lia.
  - rewrite E1, E2, !length_app, !length_replicate, I1. done.
  - intros p u Hu Hc. apply (roomier_lookup st st') in Hu; [|done|done]. destruct (I5 p u Hu Hc) as [? HU]. split; [done|].
    by apply (roomier_U st st').
  - intros b HU. apply I6. by apply (roomier_U st st').
Qed.

(** Behind the last place taken all is free. *)
Lemma free_behind st st' p :
  inv st -> roomier st st' -> size_ st <= p < alloc_size_ st' -> exists u, at_ (array_ st') p = Some u /\ check u = 0.
Proof.
  intros Hi Hr Hp. pose proof (iv_size st Hi). destruct (lookup_lt_is_Some_2 (array_ st') (Z.to_nat p)) as [u Hu]; [unfold alloc_size_ in *; lia|].
  exists u. split; [done|]. destruct (Z.eq_dec (check u) 0) as [|Hc]; [done|]. apply (roomier_lookup st st') in Hu; [|done|done].
  destruct (iv_label st Hi _ _ Hu Hc). lia.
Qed.

(** ** Finding a place *)
Lemma collides_ok a begin sibs :
  (forall s, s ∈ sibs -> is_Some (at_ a (begin + code s))) ->
  exists c, collides a begin sibs = Some c /\
    (c = false -> forall s, s ∈ sibs -> exists u, at_ a (begin + code s) = Some u /\ check u = 0) /\
    (c = true -> exists s u, s ∈ sibs /\ at_ a (begin + code s) = Some u /\ check u <> 0).
Proof.
  induction sibs as [|s sibs IH]; intros H; cbn [collides].
  { exists false. split; [done|]. split; [|done]. intros _ s Hs. by apply elem_of_nil in Hs. }
  destruct (H s) as [u Hu]; [left|]. rewrite Hu. cbn [mbind option_bind]. destruct (Z.eqb_spec (check u) 0) as [E|E]; cbn [negb].
  - destruct IH as (c & -> & H0 & H1); [intros x Hx; apply H; by right|]. exists c. split; [done|]. split.
    + intros Ec x [->|Hx]%elem_of_cons; [by exists u|]. by apply H0.
    + intros Ec. destruct (H1 Ec) as (x & v & Hx & ?). exists x, v. split; [by right|done].
  - exists true. split; [done|]. split; [done|]. intros _. exists s, u. split; [left|done].
Qed.

Record found (st0 st' : builder) (fc lc : Z) (rest : list node_t) (pos pos' b : Z) : Prop := {
  fd_room : roomier st0 st';
  fd_pos : pos < pos' <= size_ st0 + 257;
  fd_begin : b = pos' - fc;
  fd_fits : b + lc < alloc_size_ st';
  fd_unused : ~ U st0 b;
  fd_fresh : size_ st0 = 0 -> pos' = pos + 1;
  fd_first : exists u, at_ (array_ st') pos' = Some u /\ check u = 0;
  fd_rest s : s ∈ rest -> exists u, at_ (array_ st') (b + code s) = Some u /\ check u = 0
}.

Lemma found_later st0 st' fc lc rest pos pos1 pos' b : pos <= pos1 -> size_ st0 <> 0 -> found st0 st' fc lc rest pos1 pos' b -> found st0 st' fc lc rest pos pos' b.
Proof. intros H H0 []. constructor; try done. lia. Qed.

Lemma find_ok st0 fuel st fc lc rest pos nz first :
  inv st0 -> roomier st0 st -> 0 <= fc <= lc -> lc <= 256 -> Forall (fun s => fc < code s <= lc) rest -> fc <= pos ->
  pos + 1 <= size_ st0 + 257 -> size_ st0 + 257 - pos <= Z.of_nat fuel ->
  (1 <= progress_ st0 <= ks \/ size_ st0 + 514 <= 64 * ks) -> size_ st0 + 513 <= 514 * (total + 1) -> 0 <= next_check_pos_ st ->
  exists st' pos' nz' b, find_loop keys fuel st fc lc rest pos nz first = Some (st', pos', nz', b) /\
    found st0 st' fc lc rest pos pos' b /\ 0 <= next_check_pos_ st' <= Z.max (next_check_pos_ st) pos'.
Proof.
  intros Hi. revert st pos nz first. induction fuel as [|fuel IH]; intros st pos nz first Hr Hfc Hlc Hrest Hpos Hup Hfuel Hgrow Hlim Hn; [lia|].
  cbn [find_loop]. destruct (reach_ok st (pos + 1)) as (st1 & -> & Hr1 & Hn1 & Ha1 & _). cbn [mbind option_bind].
  pose proof (roomier_trans _ _ _ Hr Hr1) as Hr01. rewrite <- Hn1 in Hn |- *. clear Hr Hr1 Hn1 st.
  destruct (lookup_lt_is_Some_2 (array_ st1) (Z.to_nat (pos + 1))) as [u Hu]; [unfold alloc_size_ in *; lia|].
  unfold at_ at 1. rewrite Hu. cbn [mbind option_bind].
  assert (Hagain : forall st2 nz2 f2, roomier st0 st2 -> 0 <= next_check_pos_ st2 <= Z.max (next_check_pos_ st1) (pos + 1) -> pos + 2 <= size_ st0 + 257 /\ size_ st0 <> 0 ->
    exists st' pos' nz' b, find_loop keys fuel st2 fc lc rest (pos + 1) nz2 f2 = Some (st', pos', nz', b) /\
      found st0 st' fc lc rest pos pos' b /\ 0 <= next_check_pos_ st' <= Z.max (next_check_pos_ st1) pos').
  { intros st2 nz2 f2 H2 Hn2 [H3 H4]. destruct (IH st2 (pos + 1) nz2 f2) as (st' & pos' & nz' & b & E & Hf & Hb); try done; try lia.
    exists st', pos', nz', b. split; [done|]. split; [by eapply found_later; [| |exact Hf]; lia|]. pose proof (fd_pos _ _ _ _ _ _ _ _ Hf). lia. }
  destruct (Z.eqb_spec (check u) 0) as [Hc|Hc]; cbn [negb].
  2:{ apply Hagain; [done|lia|]. apply (roomier_lookup st0 st1) in Hu; [|done|done]. destruct (iv_label _ Hi _ _ Hu Hc). lia. }
  set (st2 := if first then st1 else set_next st1 (pos + 1)).
  assert (Hr2 : roomier st0 st2) by (unfold st2; destruct first; [done|by apply roomier_next]).
  assert (Hn2 : 0 <= next_check_pos_ st2 <= Z.max (next_check_pos_ st1) (pos + 1)) by (unfold st2; destruct first; cbn; lia).
  assert (Hu2 : array_ st2 = array_ st1) by (unfold st2; by destruct first). set (b := pos + 1 - fc).
  assert (Hroom : exists st3, (if alloc_size_ st2 <=? b + lc then new_size ← grown keys (alloc_size_ st2) (progress_ st2); resize st2 new_size else Some st2) = Some st3 /\
    roomier st0 st3 /\ next_check_pos_ st3 = next_check_pos_ st2 /\ b + lc < alloc_size_ st3 /\ alloc_size_ st2 <= alloc_size_ st3).
  { destruct (Z.leb_spec (alloc_size_ st2) (b + lc)) as [Hsmall|]; [|exists st2; split; [done|]; split; [done|]; split; [done|lia]].
    pose proof (roomier_alloc _ _ Hr2) as Hal. pose proof (iv_alloc _ Hi). pose proof (iv_size _ Hi).
    assert (ks <= total). { unfold total, key_size_. clear. unfold W. rewrite Nat.sub_0_r. rewrite <- (Nat2Z.id (length keys)) at 2.
      rewrite Nat2Z.id. apply weight_low. intros j Hj. destruct (lookup_lt_is_Some_2 keys j) as [k Hk]; [lia|]. exists k. split; [done|lia]. }
    destruct (grown_spec keys (alloc_size_ st2) (progress_ st2)) as (n & -> & Hn'); [lia|lia| |rewrite (rm_progress _ _ Hr2); lia|].
    { apply Z.le_lt_trans with (514 * (total + 1) * ks); [|done]. apply Z.mul_le_mono_nonneg_r; lia. }
    cbn [mbind option_bind]. destruct (resize_ok st2 n ltac:(lia)) as (st3 & -> & Hr3 & Hn3 & Ha3). exists st3. split; [done|].
    split; [by eapply roomier_trans|]. split; [done|]. rewrite Ha3; [lia|]. destruct Hr2 as [(k & -> & ->) _ _ _].
    by rewrite !length_app, !length_replicate, (iv_used _ Hi). }
  destruct Hroom as (st3 & -> & Hr3 & Hn3 & Hfit & Ha3). cbn [mbind option_bind]. rewrite <- Hn3 in Hn2.
  assert (Hlen : length (used_ st3) = length (array_ st3)).
  { destruct Hr3 as [(k & -> & ->) _ _ _]. by rewrite !length_app, !length_replicate, (iv_used _ Hi). }
  destruct (lookup_lt_is_Some_2 (used_ st3) (Z.to_nat b)) as [taken Htk]; [unfold alloc_size_ in *; lia|]. rewrite Htk. cbn [mbind option_bind].
  destruct taken.
  { apply Hagain; [done|done|]. assert (HU : U st0 b) by (apply (roomier_U st0 st3); [done|split; [lia|done]]).
    pose proof (iv_begin _ Hi _ HU). lia. }
  assert (Hat : forall c, 0 <= c <= lc -> is_Some (at_ (array_ st3) (b + c))).
  { intros c Hc'. apply lookup_lt_is_Some_2. unfold alloc_size_ in *. lia. }
  destruct (collides_ok (array_ st3) b rest) as (c & -> & Hc0 & Hc1).
  { intros s Hs. rewrite Forall_forall in Hrest. specialize (Hrest s Hs). apply Hat. lia. }
  cbn [mbind option_bind]. destruct c.
  { apply Hagain; [done|done|]. destruct (Hc1 eq_refl) as (s & v & Hs & Hv & Hvc). rewrite Forall_forall in Hrest. specialize (Hrest s Hs).
    apply (roomier_lookup st0 st3) in Hv; [|done|done]. destruct (iv_label _ Hi _ _ Hv Hvc). lia. }
  exists st3, (pos + 1), nz, b. split; [done|]. split; [|lia]. constructor; [done|lia|done|done| |done| |by apply Hc0].
  - intros HU. apply (roomier_U st0 st3) in HU as [_ HU]; [|done]. congruence.
  - destruct (Hat fc ltac:(lia)) as [v Hv]. replace (b + fc) with (pos + 1) in Hv by lia. exists v. split; [done|].
    destruct (Z.eq_dec (check v) 0) as [|Hvc]; [done|]. exfalso. apply Hvc.
    apply (roomier_lookup st0 st3) in Hv; [|done|done]. apply (roomier_lookup st0 st1) in Hv; [|done|done]. congruence.
Qed.

Lemma set_unit_lookup st p u q : 0 <= p < alloc_size_ st ->
  array_ (set_unit st p u) !! q = if decide (Z.of_nat q = p) then Some u else array_ st !! q.
Proof.
  intros Hp. cbn. destruct (decide (Z.of_nat q = p)) as [<-|H].
  - rewrite Nat2Z.id. apply list_lookup_insert_eq. unfold alloc_size_ in Hp. lia.
  - apply list_lookup_insert_ne. lia.
Qed.

Lemma set_unit_alloc st p u : alloc_size_ (set_unit st p u) = alloc_size_ st.
Proof. unfold alloc_size_. cbn. by rewrite length_insert. Qed.

Lemma at_some a p : 0 <= p < Z.of_nat (length a) -> is_Some (at_ a p).
Proof. intros H. apply lookup_lt_is_Some_2. lia. Qed.

(** Nothing but places changes. *)
Record same_rest (st st' : builder) : Prop := {
  sr_used : used_ st' = used_ st; sr_size : size_ st' = size_ st; sr_progress : progress_ st' = progress_ st;
  sr_next : next_check_pos_ st' = next_check_pos_ st; sr_error : error_ st' = error_ st; sr_alloc : alloc_size_ st' = alloc_size_ st
}.

Lemma claim_ok st b sibs :
  (forall s, s ∈ sibs -> 0 <= b + code s < alloc_size_ st) ->
  exists st', claim st b sibs = Some st' /\ same_rest st st' /\
    (forall s, s ∈ sibs -> exists u, at_ (array_ st') (b + code s) = Some u /\ check u = u32 b) /\
    (forall p, (forall s, s ∈ sibs -> Z.of_nat p <> b + code s) -> array_ st' !! p = array_ st !! p).
Proof.
  revert st. induction sibs as [|s sibs IH]; intros st H; cbn [claim].
  { exists st. split; [done|]. split; [done|]. split; [|done]. intros s Hs. by apply elem_of_nil in Hs. }
  pose proof (H s ltac:(left)) as Hs. unfold put_check. destruct (at_some (array_ st) (b + code s)) as [u Hu]; [exact Hs|]. rewrite Hu.
  cbn [mbind option_bind]. set (st1 := set_unit st _ _).
  destruct (IH st1) as (st' & E & Hsame & Hat & Hother).
  { intros x Hx. unfold st1. rewrite set_unit_alloc. apply H. by right. }
  exists st'. split; [done|]. split; [|split].
  - destruct Hsame as [? ? ? ? ? ?]. constructor; [done..|]. rewrite <- (set_unit_alloc st (b + code s) (mkUnit (base u) (u32 b))). done.
  - intros x [->|Hx]%elem_of_cons; [|by apply Hat]. destruct (decide (Exists (fun y => code y = code s) sibs)) as [Hex|Hex].
    + apply Exists_exists in Hex as (y & Hy & Ey). destruct (Hat y Hy) as (v & Hv & Ev). exists v. by rewrite <- Ey.
    + exists (mkUnit (base u) (u32 b)). split; [|done]. unfold at_. rewrite Hother.
      * unfold st1. rewrite set_unit_lookup by done. rewrite decide_True by lia. done.
      * intros y Hy E'. apply Hex, Exists_exists. exists y. split; [done|]. lia.
  - intros p Hp. rewrite Hother by (intros x Hx; apply Hp; by right). unfold st1. rewrite set_unit_lookup by done.
    rewrite decide_False; [done|]. apply Hp. left.
Qed.

(** A family that has its places. *)
Record placed (st st1 : builder) (b : Z) (sibs : list node_t) : Prop := {
  pl_inv : inv st1;
  pl_new : ~ U st b;
  pl_begin : 1 <= b /\ (size_ st = 0 -> b = 1);
  pl_zero : array_ st1 !! O = array_ st !! O;
  pl_used x : U st1 x <-> U st x \/ x = b;
  pl_size : size_ st <= size_ st1 <= size_ st + 514;
  pl_progress : progress_ st1 = progress_ st;
  pl_frame : frame (U st) (array_ st) (array_ st1);
  pl_only p u : array_ st1 !! p = Some u -> check u = b -> exists s, s ∈ sibs /\ Z.of_nat p = b + code s;
  pl_all s : s ∈ sibs -> exists u, at_ (array_ st1) (b + code s) = Some u /\ check u = b
}.

Lemma parts_ends d l r sibs :
  parts d l r sibs -> sibs <> [] ->
  exists first last', head sibs = Some first /\ last sibs = Some last' /\ 0 <= code first <= code last' /\ code last' <= 256 /\
    Forall (fun s => code first < code s <= code last') (tail sibs) /\
    (forall s, s ∈ sibs -> code first <= code s <= code last').
Proof.
  intros Hp Hne. pose proof (parts_codes _ _ _ _ Hp) as Hc. pose proof (parts_sorted _ _ _ _ Hp) as Hs. clear Hp.
  destruct sibs as [|x sibs]; [done|]. destruct (last (x :: sibs)) as [y|] eqn:El; [|by apply last_None in El].
  apply last_Some in El as [pre El]. exists x, y. cbn [head tail]. split; [done|]. split; [done|].
  assert (Hin : forall s, s ∈ x :: sibs -> code s <= code y).
  { intros s. rewrite El. intros [Hin|Hin]%elem_of_app; [|apply list_elem_of_singleton in Hin as ->; lia].
    rewrite El, map_app in Hs. apply Z.lt_le_incl.
    eapply (StronglySorted_app_1_elem_of Z.lt); [exact Hs|apply list_elem_of_fmap; by exists s|left]. }
  cbn [map] in Hs. apply StronglySorted_inv in Hs as [_ Hs]. rewrite Forall_map in Hs.
  assert (Hx : 0 <= code x <= 256) by by apply Forall_cons in Hc as [? _].
  assert (Hy : 0 <= code y <= 256) by (rewrite El in Hc; apply Forall_app in Hc as [_ H]; by rewrite Forall_singleton in H).
  split; [split; [lia|apply Hin; left]|]. split; [lia|]. split.
  - rewrite Forall_forall in Hs |- *. intros s Hin'. split; [by apply Hs|]. apply Hin. by right.
  - intros s Hin'. split; [|by apply Hin]. apply elem_of_cons in Hin' as [->|Hin']; [lia|]. rewrite Forall_forall in Hs.
    specialize (Hs s Hin'). cbn in Hs. lia.
Qed.

Lemma place_ok st d l r sibs :
  inv st -> parts d l r sibs -> sibs <> [] ->
  (1 <= progress_ st <= ks \/ size_ st + 514 <= 64 * ks) -> size_ st + 514 <= 514 * (total + 1) ->
  exists st1 b, place keys st sibs = Some (st1, b) /\ placed st st1 b sibs.
Proof.
  intros Hi Hp Hne Hgrow Hlim. unfold place. destruct (parts_ends _ _ _ _ Hp Hne) as (first & lst & Eh & El & Hf & Hl & Hrest & Hall).
  rewrite Eh, El. cbn [mbind option_bind]. set (pos := Z.max _ _ - 1).
  destruct (reach_ok st pos) as (st0 & -> & Hr0 & Hn0 & _). cbn [mbind option_bind].
  pose proof (iv_next _ Hi) as Hnext. pose proof (iv_size _ Hi) as Hsize.
  destruct (find_ok st (Z.to_nat (size_ st0 + 513)) st0 (code first) (code lst) (tail sibs) pos 0 false)
    as (st2 & pos' & nz & b & -> & Hfd & Hn2); [done|done|lia|lia|done|lia|lia|rewrite (rm_size _ _ Hr0); lia|done|lia|lia|].
  cbn [mbind option_bind]. destruct Hfd as [Hr Hpos Hb Hfit Hun Hfresh Hfirst Hfree]. rewrite Hn0 in Hn2.
  assert (Hfree' : forall s, s ∈ sibs -> exists u, at_ (array_ st2) (b + code s) = Some u /\ check u = 0).
  { intros s Hs. destruct sibs as [|x sibs]; [done|]. injection Eh as ->. cbn [tail] in Hfree.
    apply elem_of_cons in Hs as [->|Hs]; [|by apply Hfree]. replace (b + code first) with pos' by lia. done. }
  clear Hfirst Hfree. set (st3 := if SFleb _ _ then set_next st2 pos' else st2).
  assert (Hr3 : roomier st st3) by (unfold st3; destruct (SFleb _ _); [by apply roomier_next|done]).
  assert (Ea3 : array_ st3 = array_ st2) by (unfold st3; by destruct (SFleb _ _)).
  assert (Hn3 : 0 <= next_check_pos_ st3 <= Z.max (next_check_pos_ st) pos') by (unfold st3; destruct (SFleb _ _); cbn; lia).
  assert (Hfit3 : b + code lst < alloc_size_ st3) by (unfold alloc_size_ in *; by rewrite Ea3).
  rewrite <- Ea3 in Hfree'. clearbody st3. clear Hr Hn2 Hfit Ea3 st2 Hr0 Hn0 st0. rewrite (rm_size _ _ Hr3).
  rewrite (u32_id (code lst + 1)) by (unfold is_u32; lia). set (size1 := Z.max (size_ st) (b + (code lst + 1))).
  destruct (claim_ok (set_used st3 b size1) b sibs) as (st1 & -> & [Eu Es Ep En Ee Eal] & Hat & Hother).
  { intros s Hs. specialize (Hall s Hs). unfold alloc_size_ in *. cbn. lia. }
  cbn [mbind option_bind]. cbn in Eu, Es, Ep, En, Ee, Hother. change (alloc_size_ (set_used st3 b size1)) with (alloc_size_ st3) in Eal.
  assert (Hb1 : 1 <= b) by lia. rewrite (u32_id b) in Hat by (unfold is_u32; lia).
  assert (HU : forall x, U st1 x <-> U st x \/ x = b).
  { intros x. rewrite <- (roomier_U st st3 x Hr3). unfold U. rewrite Eu. destruct (decide (x = b)) as [->|Hx].
    - split; [by right|]. intros _. split; [lia|]. apply list_lookup_insert_eq. destruct Hr3 as [(k & E1 & E2) _ _ _].
      rewrite E2, length_app, length_replicate, (iv_used _ Hi). unfold alloc_size_ in Hfit3. rewrite E1, length_app, length_replicate in Hfit3. lia.
    - split; [intros [H0 H]|intros [[H0 H]|]; [|done]].
      + left. split; [done|]. rewrite list_lookup_insert_ne in H by lia. done.
      + split; [done|]. by rewrite list_lookup_insert_ne by lia. }
  assert (Hold : forall p u, check u <> 0 -> check u <> b -> array_ st1 !! p = Some u <-> array_ st !! p = Some u).
  { intros p u Hc Hcb. rewrite <- (roomier_lookup st st3) by done. split; intros Hu.
    - rewrite <- Hother; [done|]. intros s Hs E. destruct (Hat s Hs) as (v & Hv & Ev). unfold at_ in Hv. rewrite <- E, Nat2Z.id in Hv.
      simplify_eq.
    - rewrite Hother; [done|]. intros s Hs E. destruct (Hfree' s Hs) as (v & Hv & Ev). unfold at_ in Hv. rewrite <- E, Nat2Z.id in Hv.
      simplify_eq. }
  assert (Honly : forall p u, array_ st1 !! p = Some u -> check u = b -> exists s, s ∈ sibs /\ Z.of_nat p = b + code s).
  { intros p u Hu Ec. destruct (decide (Exists (fun s => Z.of_nat p = b + code s) sibs)) as [Hex|Hex]; [by apply Exists_exists in Hex|].
    exfalso. rewrite Hother in Hu by (intros s Hs E; apply Hex, Exists_exists; by exists s).
    apply (roomier_lookup st st3) in Hu; [|done|lia]. destruct (iv_label _ Hi _ _ Hu ltac:(lia)) as [_ H]. by rewrite Ec in H. }
  exists st1, b. split; [done|]. constructor.
  - constructor.
    + rewrite Eu. rewrite length_insert. apply Nat2Z.inj. change (Z.of_nat (length (array_ st1))) with (alloc_size_ st1). rewrite Eal. unfold alloc_size_.
      destruct Hr3 as [(k & -> & ->) _ _ _]. by rewrite !length_app, !length_replicate, (iv_used _ Hi).
    + rewrite Eal. pose proof (roomier_alloc _ _ Hr3). pose proof (iv_alloc _ Hi). lia.
    + rewrite Es, Eal. pose proof (roomier_alloc _ _ Hr3). lia.
    + rewrite En, Es. lia.
    + intros p u Hu Hc. rewrite Es. destruct (decide (check u = b)) as [E|E].
      * destruct (Honly p u Hu E) as (s & Hs & ->). specialize (Hall s Hs). split; [lia|]. rewrite HU. by right.
      * apply Hold in Hu; [|done|done]. destruct (iv_label _ Hi _ _ Hu Hc). split; [lia|]. rewrite HU. by left.
    + intros x [H| ->]%HU; rewrite Es; [pose proof (iv_begin _ Hi x H); lia|lia].
    + rewrite Ee, (rm_error _ _ Hr3). apply Hi.
    + rewrite Ep, (rm_progress _ _ Hr3). apply Hi.
  - done.
  - split; [done|]. intros H0. specialize (Hfresh H0). lia.
  - rewrite Hother by (intros s Hs E; specialize (Hall s Hs); lia). destruct Hr3 as [(k & -> & _) _ _ _].
    apply lookup_app_l. pose proof (iv_alloc _ Hi). unfold alloc_size_ in *. lia.
  - done.
  - rewrite Es. lia.
  - by rewrite Ep, (rm_progress _ _ Hr3).
  - intros p u HUc. pose proof (iv_begin _ Hi _ HUc). symmetry. apply Hold; [lia|]. intros E. by rewrite E in HUc.
  - done.
  - done.
Qed.

(** ** A family and its children *)

(** The places of the families [X] as a search needs them: on its own base, or
    with a base of its own below [n], and not behind the code of a zero. *)
Definition good (X : Z -> Prop) (n : Z) (a : list unit_t) : Prop :=
  forall p u, a !! p = Some u -> X (check u) -> Z.of_nat p = check u \/ (1 <= base u < n /\ Z.of_nat p <> check u + 1).

Lemma good_frame (X Y : Z -> Prop) n n' a a' : (forall x, Y x -> X x) -> n <= n' -> frame X a a' -> good X n a -> good Y n' a'.
Proof.
  intros Hxy Hn Hf Hg p u Hu Hy. apply Hxy in Hy as Hx. apply Hf in Hu; [|done]. destruct (Hg p u Hu Hx) as [|[? ?]]; [by left|].
  right. lia.
Qed.

Lemma good_union (X Y Z : Z -> Prop) n a : (forall x, Z x -> X x \/ Y x) -> good X n a -> good Y n a -> good Z n a.
Proof. intros H HX HY p u Hu Hz. destruct (H _ Hz); [by apply HX|by apply HY]. Qed.

Lemma put_base_ok st b p u v :
  inv st -> 0 <= p -> at_ (array_ st) p = Some u -> check u = b -> - 2 ^ 31 <= v < 2 ^ 31 ->
  exists st', put_base st p v = Some st' /\ inv st' /\ same_rest st st' /\ frame (fun x => x <> b) (array_ st) (array_ st') /\
    forall q, array_ st' !! q = if decide (Z.of_nat q = p) then Some (mkUnit v b) else array_ st !! q.
Proof.
  intros Hi Hp Hu Hc Hv. unfold put_base. rewrite Hu. cbn [mbind option_bind]. rewrite i32_id, Hc by done.
  assert (Hrange : 0 <= p < alloc_size_ st) by (apply lookup_lt_Some in Hu; unfold alloc_size_; lia).
  assert (Hl : forall q, array_ (set_unit st p (mkUnit v b)) !! q = if decide (Z.of_nat q = p) then Some (mkUnit v b) else array_ st !! q)
    by (intros q; by apply set_unit_lookup).
  assert (Hs : same_rest st (set_unit st p (mkUnit v b))) by (constructor; try done; by rewrite set_unit_alloc).
  eexists. split; [done|]. split; [|split; [done|split; [|done]]].
  - destruct Hi as [I1 I2 I3 I4 I5 I6 I7 I8]. constructor; rewrite ?set_unit_alloc; try done; [by cbn; rewrite length_insert|].
    intros q w Hq Hw. rewrite Hl in Hq. destruct (decide (Z.of_nat q = p)) as [<-|]; [|by apply I5].
    injection Hq as <-. cbn [check] in *. rewrite <- Hc in *. apply (I5 q u); [|done]. unfold at_ in Hu. by rewrite Nat2Z.id in Hu.
  - intros q w Hw. rewrite Hl. destruct (decide (Z.of_nat q = p)) as [<-|]; [|done]. unfold at_ in Hu. rewrite Nat2Z.id in Hu.
    split; [|intros [= <-]; done]. intros Hq. rewrite Hu in Hq. injection Hq as <-. done.
Qed.

Section Running.
Context (n : nat) (st0 : builder) (b : Z) (pre : bytes) (l r : nat) (sibs : list node_t).
Notation d := (length pre).

(** The families made since. *)
Definition fresh (st : builder) (x : Z) : Prop := U st x /\ ~ U st0 x /\ x <> b.

(** Some children of the family have been dealt with. *)
Record running (dealt : list node_t) (st : builder) : Prop := {
  ru_inv : inv st;
  ru_family : U st b /\ ~ U st0 b;
  ru_zero : array_ st !! O = array_ st0 !! O;
  ru_mono x : U st0 x -> U st x;
  ru_frame : frame (U st0) (array_ st0) (array_ st);
  ru_only p u : array_ st !! p = Some u -> check u = b -> exists s, s ∈ sibs /\ Z.of_nat p = b + code s;
  ru_all s : s ∈ sibs -> exists u, at_ (array_ st) (b + code s) = Some u /\ check u = b;
  ru_dealt s : s ∈ dealt -> child (fun b' l' r' => 1 <= b' < size_ st /\ sub n (fresh st) (array_ st) b' (S d) l' r') (array_ st) b s;
  ru_good : good (fresh st) (size_ st) (array_ st)
}.

Lemma running_start st : placed st0 st b sibs -> running [] st.
Proof.
  intros [H1 H2 H3 Hz H4 H5 H6 H7 H8 H9]. constructor; try done.
  - rewrite H4. split; [by right|done].
  - intros x Hx. rewrite H4. by left.
  - intros s Hs. by apply elem_of_nil in Hs.
  - intros p u Hu (Hx & Hn & Hb). apply H4 in Hx as [|]; done.
Qed.

(** Dealing with a child: other families come in, then its base is written. *)
Lemma running_next dealt st st2 s v :
  running dealt st -> s ∈ sibs -> (forall x, x ∈ dealt -> 0 <= code x /\ code x <> code s) -> 0 <= code s ->
  inv st2 -> (forall x, U st x -> U st2 x) -> array_ st2 !! O = array_ st !! O -> frame (U st) (array_ st) (array_ st2) -> size_ st <= size_ st2 ->
  good (fun x => U st2 x /\ ~ U st x) (size_ st2) (array_ st2) -> - 2 ^ 31 <= v < 2 ^ 31 ->
  (code s = 0 -> exists w, value_at (left s) = Some w /\ v = - w - 1) ->
  (code s <> 0 -> 1 <= v < size_ st2 /\ sub n (fun x => U st2 x /\ ~ U st x) (array_ st2) v (S d) (left s) (right s)) ->
  exists st3, put_base st2 (b + code s) v = Some st3 /\ same_rest st2 st3 /\ running (dealt ++ [s]) st3.
Proof.
  intros [I1 [I2 I2'] Iz I3 I4 I5 I6 I7 I8] Hs Hne Hc0 Hi2 Hmono Hz Hf Hsize Hg Hv Hleaf Hnode.
  destruct (I6 s Hs) as (u & Hu & Ec). pose proof (iv_begin _ I1 b I2) as Hb.
  assert (Hu2 : at_ (array_ st2) (b + code s) = Some u) by (apply Hf; [by rewrite Ec|done]).
  destruct (put_base_ok st2 b (b + code s) u v Hi2) as (st3 & E & Hi3 & Hsame & Hf3 & Hl3); [lia|done|done|done|].
  exists st3. split; [done|]. split; [done|]. destruct Hsame as [Eu Es Ep En Ee Eal].
  assert (HU : forall x, U st3 x <-> U st2 x) by (intros x; unfold U; by rewrite Eu).
  assert (Hsub : forall b' l' r' X, (forall x, X x -> U st x /\ x <> b) -> (forall x, X x -> fresh st3 x) ->
            sub n X (array_ st) b' (S d) l' r' -> sub n (fresh st3) (array_ st3) b' (S d) l' r').
  { intros b' l' r' X HX HX3. apply sub_frame; [|done]. apply (frame_trans _ _ (array_ st2)).
    - eapply frame_mono; [|exact Hf]. intros x Hx. by apply HX.
    - eapply frame_mono; [|exact Hf3]. intros x Hx. by apply HX. }
  assert (Hfresh : forall x, fresh st x -> fresh st3 x).
  { intros x (H1 & H2 & H3). split; [apply HU, Hmono, H1|done]. }
  assert (Hnew : forall x, U st2 x /\ ~ U st x -> fresh st3 x).
  { intros x [H1 H2]. split; [by apply HU|]. split; [intros H; by apply H2, I3|]. intros ->. done. }
  constructor.
  - done.
  - split; [by apply HU, Hmono|done].
  - rewrite Hl3, decide_False by lia. by rewrite Hz.
  - intros x Hx. by apply HU, Hmono, I3.
  - apply (frame_trans _ _ (array_ st)); [done|]. apply (frame_trans _ _ (array_ st2)).
    + eapply frame_mono; [|exact Hf]. done.
    + eapply frame_mono; [|exact Hf3]. intros x Hx ->. done.
  - intros p w Hp Hw. rewrite Hl3 in Hp. destruct (decide (Z.of_nat p = b + code s)) as [E'|]; [by exists s|].
    apply (I5 p w); [|done]. apply Hf; [by rewrite Hw|done].
  - intros x Hx. unfold at_. rewrite Hl3. destruct (decide _); [by eexists|]. destruct (I6 x Hx) as (w & Hw & Ew). exists w.
    split; [|done]. apply Hf; [by rewrite Ew|done].
  - intros x [Hx| ->%list_elem_of_singleton]%elem_of_app.
    + destruct (I7 x Hx) as (w & Hw & Ew & H0 & H1). exists w. split.
      * specialize (Hne x Hx). unfold at_. rewrite Hl3, decide_False by lia. apply Hf; [by rewrite Ew|done].
      * split; [done|]. split; [done|]. intros Hcx. destruct (H1 Hcx) as [Hrange Hsubx]. rewrite Es. split; [lia|].
        apply (Hsub _ _ _ (fresh st)); [intros y (Hy & _ & Hyb); by split|done|done].
    + exists (mkUnit v b). split; [unfold at_; rewrite Hl3, decide_True by lia; done|]. split; [done|]. cbn [base]. split; [done|].
      intros Hcs. destruct (Hnode Hcs) as [Hrange Hsubx]. rewrite Es. split; [lia|]. eapply sub_frame; [|exact Hnew|exact Hsubx].
      eapply frame_mono; [|exact Hf3]. intros x [_ Hx] ->. done.
  - rewrite Es. apply (good_union (fresh st) (fun x => U st2 x /\ ~ U st x)).
    + intros x (Hx & Hx0 & Hxb). destruct (decide (used_ st !! Z.to_nat x = Some true)) as [Hd|Hd].
      * left. split; [split; [apply Hx|done]|done].
      * right. split; [by apply HU|]. by intros [_ ?].
    + apply (good_frame (fresh st) _ (size_ st) _ (array_ st)); [done|done| |done]. apply (frame_trans _ _ (array_ st2)).
      * eapply frame_mono; [|exact Hf]. by intros x [? _].
      * eapply frame_mono; [|exact Hf3]. by intros x (_ & _ & ?).
    + eapply good_frame; [intros x Hx; exact Hx|reflexivity| |exact Hg]. eapply frame_mono; [|exact Hf3]. intros x [_ Hx] ->. done.
Qed.
End Running.

(** What inserting a family comes to. *)
Record inserted (n : nat) (st st' : builder) (b : Z) (d l r : nat) : Prop := {
  in_inv : inv st';
  in_begin : U st' b /\ ~ U st b;
  in_zero : array_ st' !! O = array_ st !! O;
  in_fresh : size_ st = 0 -> b = 1;
  in_mono x : U st x -> U st' x;
  in_frame : frame (U st) (array_ st) (array_ st');
  in_size : size_ st <= size_ st' <= size_ st + 514 * W d l r;
  in_progress : 1 <= progress_ st' /\ progress_ st <= progress_ st' <= progress_ st + (Z.of_nat r - Z.of_nat l);
  in_sub : sub n (fun x => U st' x /\ ~ U st x) (array_ st') b d l r;
  in_good : good (fun x => U st' x /\ ~ U st x) (size_ st') (array_ st')
}.

(** Room and fuel for the keys from [l] to [r]. *)
Record ready (n : nat) (st : builder) (pre : bytes) (l r : nat) : Prop := {
  rd_node : node_ok pre l r;
  rd_depth i key : (l <= i < r)%nat -> keys !! i = Some key -> (length key < length pre + n)%nat;
  rd_size : size_ st + 514 * W (length pre) l r <= 514 * total;
  rd_progress : progress_ st + (Z.of_nat r - Z.of_nat l) <= ks;
  rd_grow : 1 <= progress_ st \/ size_ st <= 514 * Z.of_nat (length pre)
}.

(** How far the children up to [m] have brought the builder. *)
Definition bounded (st0 : builder) (d l m : nat) (st : builder) : Prop :=
  size_ st0 <= size_ st <= size_ st0 + 514 * (1 + W d l m - (Z.of_nat m - Z.of_nat l)) /\
  progress_ st0 <= progress_ st <= progress_ st0 + (Z.of_nat m - Z.of_nat l) /\
  (m = l /\ progress_ st = progress_ st0 \/ 1 <= progress_ st).

Lemma running_step n st0 b pre sibs dealt st : running n st0 b pre sibs dealt st -> running n st0 b pre sibs dealt (step_progress st).
Proof.
  intros [[I1 I2 I3 I4 I5 I6 I7 I8] H2 Hz H3 H4 H5 H6 H7 H8]. constructor; try done. constructor; try done. cbn. lia.
Qed.

Lemma W_nil d l : W d l l = 0.
Proof. unfold W. by rewrite Nat.sub_diag. Qed.

Lemma W_nonneg pre l r l' r' : node_ok pre l r -> (l <= l' <= r')%nat -> (r' <= r)%nat -> 0 <= W (length pre) l' r'.
Proof. intros Hn H1 H2. pose proof (W_low _ _ _ _ _ Hn H1 H2). lia. Qed.

Section Children.
Context (n : nat) (Hinsert : forall st sibs pre l r, inv st -> ready n st pre l r -> parts (length pre) l r sibs -> sibs <> [] ->
  exists st' b, insert keys value_ n st sibs = Some (st', b) /\ inserted n st st' b (length pre) l r).
Context (st0 : builder) (b : Z) (pre : bytes) (l r : nat) (sibs : list node_t).
Context (Hready : ready (S n) st0 pre l r) (Hparts : parts (length pre) l r sibs).
Notation d := (length pre).
Notation run := (running n st0 b pre sibs).

Lemma each_ok todo dealt m st :
  sibs = dealt ++ todo -> parts d m r todo -> (l <= m)%nat -> run dealt st -> bounded st0 d l m st ->
  exists st', each_sibling keys value_ (insert keys value_ n) st b todo = Some (st', true) /\ run sibs st' /\ bounded st0 d l r st'.
Proof.
  pose proof (rd_node _ _ _ _ _ Hready) as Hnode. revert dealt m st.
  induction todo as [|x todo IH]; intros dealt m st Es Hp Hlm Hrun Hbd; cbn [each_sibling].
  { rewrite app_nil_r in Es. rewrite <- Es in Hrun. exists st. split; [done|]. split; [done|].
    assert (m = r) as <- by (by inversion Hp). done. }
  assert (exists m' c, x = mkNode c (S d) m m' /\ (m < m')%nat /\ parts d m' r todo) as (m' & c & -> & Hm & Hp') by (inversion Hp; eauto).
  clear Hp. rename Hp' into Hp.
  set (s := mkNode c (S d) m m') in *. assert (Hs : s ∈ sibs) by (rewrite Es; apply elem_of_app; right; left).
  destruct (parts_bounds _ _ _ _ Hp) as [Hmr _]. destruct (nd_range _ _ _ Hnode) as [Hlr Hrk].
  assert (Hcs : 0 <= code s) by (pose proof (parts_codes _ _ _ _ Hparts) as H; rewrite Forall_forall in H; by apply H).
  assert (Hdealt : forall x, x ∈ dealt -> 0 <= code x /\ code x <> code s).
  { intros x Hx. assert (Hxs : x ∈ sibs) by (rewrite Es; apply elem_of_app; by left).
    pose proof (parts_codes _ _ _ _ Hparts) as H. rewrite Forall_forall in H. split; [by apply H|]. intros E.
    pose proof (parts_sorted _ _ _ _ Hparts) as Hsort. rewrite Es, map_app in Hsort.
    assert (code x < code s); [|lia].
    eapply (StronglySorted_app_1_elem_of Z.lt); [exact Hsort|apply list_elem_of_fmap; by exists x|cbn [map]; left]. }
  pose proof (W_split d l m m' ltac:(lia)) as HW. pose proof (W_low pre l r m m' Hnode ltac:(lia) ltac:(lia)) as Hlow.
  pose proof (W_nonneg pre l r m' r Hnode ltac:(lia) ltac:(lia)) as Hrest. pose proof (W_split d l m' r ltac:(lia)) as HW2.
  pose proof (iv_error _ (ru_inv _ _ _ _ _ _ _ Hrun)) as Herr. pose proof (iv_progress _ (ru_inv _ _ _ _ _ _ _ Hrun)) as Hpr0. destruct Hbd as (Hb1 & Hb2 & Hb3).
  destruct (decide (c = 0)) as [Hc|Hc].
  - rewrite (fetch_leaf pre l r sibs s st Hnode Hparts Hs Hc Herr). cbn [mbind option_bind].
    destruct (leaf_base_ok (left s)) as (v & g & Hv & Hvr & ->); [cbn; lia|]. cbn [mbind option_bind fst snd].
    destruct (running_next n st0 b pre sibs dealt st st s (- v - 1)) as (st3 & -> & Hsame & Hrun3); try done; try lia.
    + apply Hrun.
    + intros p u _ [? ?]. done.
    + intros _. by exists v.
    + cbn [mbind option_bind]. destruct (Z.leb_spec 0 (- v - 1)); [lia|]. rewrite andb_false_r.
      destruct Hsame as [? Esz Epr ? ? ?].
      destruct (IH (dealt ++ [s]) m' (step_progress st3)) as (st' & E & Hr' & Hbd'); [by rewrite <- app_assoc|done|lia|by apply running_step| |].
      { unfold bounded. cbn. rewrite Esz, Epr. lia. }
      exists st'. by split.
  - destruct (child_ok pre l r sibs s Hnode Hparts Hs Hc) as (Hn' & Hdepth & H2). unfold s in Hn', Hdepth; cbn [left right code depth] in Hn', Hdepth.
    assert (Hnd : s = mkNode c (length (pre ++ [c - 1])) m m') by (by rewrite <- Hdepth).
    destruct (fetch_ok (pre ++ [c - 1]) m m' st c Hn' Herr) as (new & Ef & Hpn & Hne). rewrite <- Hnd in Ef. rewrite Ef.
    cbn [mbind option_bind]. assert (Hd1 : length (pre ++ [c - 1]) = S d) by (rewrite length_app; cbn; lia).
    pose proof (W_deeper d m m' ltac:(lia)) as HWd.
    destruct (Hinsert st new (pre ++ [c - 1]) m m') as (st2 & h & Ei & Hin); [apply Hrun| |done|done|].
    { constructor; [done|..].
      - intros i key Hi Hk. pose proof (rd_depth _ _ _ _ _ Hready i key ltac:(lia) Hk). rewrite Hd1. lia.
      - rewrite Hd1, HWd. pose proof (rd_size _ _ _ _ _ Hready). lia.
      - pose proof (rd_progress _ _ _ _ _ Hready). lia.
      - rewrite Hd1. destruct Hb3 as [[-> Ep]|]; [|by left]. rewrite Ep. rewrite W_nil in Hb1.
        destruct (rd_grow _ _ _ _ _ Hready); [by left|right; lia]. }
    rewrite Hd1 in Hin. destruct new as [|n1 new]; [done|]. rewrite Ei. cbn [mbind option_bind fst snd].
    destruct Hin as [J1 [J2 J2'] Jz Jf J3 J4 J5 [J6 J6'] J7 J8]. pose proof (iv_begin _ J1 h J2) as Hh.
    assert (Hsz : size_ st2 < 2 ^ 31) by (pose proof (rd_size _ _ _ _ _ Hready); lia).
    destruct (running_next n st0 b pre sibs dealt st st2 s h) as (st3 & -> & Hsame & Hrun3); try done; try lia.
    cbn [mbind option_bind]. destruct Hsame as [? Esz Epr ? ? ?].
    destruct (IH (dealt ++ [s]) m' st3) as (st' & E & Hr' & Hbd'); [by rewrite <- app_assoc|done|lia|done| |].
    { unfold bounded. rewrite Esz, Epr. lia. }
    exists st'. by split.
Qed.

End Children.

Lemma insert_ok n st sibs pre l r :
  inv st -> ready n st pre l r -> parts (length pre) l r sibs -> sibs <> [] ->
  exists st' b, insert keys value_ n st sibs = Some (st', b) /\ inserted n st st' b (length pre) l r.
Proof.
  revert st sibs pre l r. induction n as [|n IH]; intros st sibs pre l r Hi Hready Hp Hne; cbn [insert].
  { exfalso. destruct (rd_node _ _ _ _ _ Hready) as [Hr Hpre]. destruct (Hpre l ltac:(lia)) as [s Hs].
    pose proof (rd_depth _ _ _ _ _ Hready l _ ltac:(lia) Hs) as H. rewrite length_app in H. lia. }
  rewrite (iv_error _ Hi). cbn [Z.ltb Z.compare]. pose proof (rd_node _ _ _ _ _ Hready) as Hnode. destruct (nd_range _ _ _ Hnode) as [Hlr Hrk].
  pose proof (W_low pre l r l r Hnode ltac:(lia) ltac:(lia)) as Hlow. pose proof (rd_size _ _ _ _ _ Hready) as Hsz.
  pose proof (rd_progress _ _ _ _ _ Hready) as Hpr. pose proof (iv_progress _ Hi) as Hpr0.
  destruct (place_ok st (length pre) l r sibs Hi Hp Hne) as (st1 & b & -> & Hpl); [|lia|].
  { destruct (rd_grow _ _ _ _ _ Hready) as [|Hg]; [left; lia|right]. destruct (nd_prefix _ _ _ Hnode l ltac:(lia)) as [s Hs].
    rewrite Forall_forall in Hdeep. specialize (Hdeep _ (list_elem_of_lookup_2 _ _ _ Hs)). rewrite length_app in Hdeep. lia. }
  cbn [mbind option_bind]. pose proof (pl_size _ _ _ _ Hpl) as Hs1. pose proof (pl_progress _ _ _ _ Hpl) as Hp1.
  destruct (each_ok n IH st b pre l r sibs Hready Hp sibs [] l st1) as (st' & -> & Hrun & Hb1 & Hb2 & Hb3); [done|done|lia|by apply running_start| |].
  { unfold bounded. rewrite W_nil. lia. }
  cbn [mbind option_bind]. exists st', b. split; [done|]. destruct Hrun as [J1 [J2 J2'] Jz J3 J4 J5 J6 J7 J8].
  assert (Hfr : forall x, fresh st b st' x -> U st' x /\ ~ U st x) by (by intros x (? & ? & _)).
  constructor; try done.
  - apply Hpl.
  - lia.
  - lia.
  - cbn [sub]. split; [done|]. exists sibs. split; [done|]. split; [done|]. intros s Hs.
    eapply (child_frame _ _ (fun x => x = b)); [done|apply frame_refl| |exact (J7 s Hs)]. intros b' l' r' [_ H].
    eapply sub_frame; [apply frame_refl|exact Hfr|exact H].
  - apply (good_union (fresh st b st') (fun x => x = b)); [|done|].
    + intros x [H1 H2]. destruct (Z.eq_dec x b); [by right|by left].
    + intros p u Hu Ec. destruct (J5 p u Hu Ec) as (s & Hs & Ep). destruct (J7 s Hs) as (u' & Hu' & _ & _ & Hrec).
      unfold at_ in Hu'. rewrite <- Ep, Nat2Z.id in Hu'. simplify_eq. destruct (Z.eq_dec (code s) 0) as [H0|H0]; [left; lia|right].
      destruct (Hrec H0) as [Hrange _]. split; [done|]. destruct (child_ok pre l r sibs s Hnode Hp Hs H0) as (_ & _ & H2). lia.
Qed.

(** ** The whole array *)
Definition initial : builder :=
  mkBuilder (mkUnit 1 0 :: replicate (Z.to_nat (ks * 64) - 1) (mkUnit 0 0)) (replicate (Z.to_nat (ks * 64)) false) 0 0 0 0.

Lemma initial_free p u : array_ initial !! p = Some u -> check u = 0.
Proof. destruct p as [|p]; cbn; [by intros [= <-]|]. by intros [-> _]%lookup_replicate. Qed.

Lemma initial_unused b : ~ U initial b.
Proof. by intros [_ [? _]%lookup_replicate]. Qed.

Lemma initial_alloc : alloc_size_ initial = 64 * ks.
Proof. unfold alloc_size_. cbn [initial array_ length]. rewrite length_replicate. lia. Qed.

Lemma initial_inv : inv initial.
Proof.
  constructor; rewrite ?initial_alloc; try (cbn; lia).
  - cbn [initial array_ used_ length]. rewrite !length_replicate. lia.
  - intros p u Hu Hc. by apply initial_free in Hu.
  - intros b Hb. by apply initial_unused in Hb.
Qed.

Lemma max_depth_ok i key : keys !! i = Some key -> (length key < max_depth keys)%nat.
Proof.
  intros Hk. unfold max_depth. pose proof (proj1 (list_max_le (map length keys) (list_max (map length keys))) ltac:(lia)) as H.
  rewrite Forall_map, Forall_forall in H. specialize (H key (list_elem_of_lookup_2 _ _ _ Hk)). cbn in H. lia.
Qed.

Lemma root_ready : ready (max_depth keys) initial [] 0 (length keys).
Proof.
  assert (Hl : (0 < length keys)%nat) by (unfold key_size_ in Hks; lia). constructor.
  - constructor; [lia|]. intros i Hi. destruct (lookup_lt_is_Some_2 keys i) as [key Hk]; [lia|]. by exists key.
  - intros i key _ Hk. by apply (max_depth_ok i).
  - cbn [initial size_ length]. unfold total. lia.
  - cbn. unfold key_size_. lia.
  - right. cbn. lia.
Qed.

Lemma insert_root :
  exists sibs st2, fetch keys initial (mkNode 0 0 0 (length keys)) = Some (initial, sibs) /\
    insert keys value_ (max_depth keys) initial sibs = Some (st2, 1) /\
    inserted (max_depth keys) initial st2 1 0 0 (length keys).
Proof.
  pose proof root_ready as Hr. destruct (fetch_ok [] 0 (length keys) initial 0 (rd_node _ _ _ _ _ Hr) eq_refl) as (sibs & Ef & Hp & Hne).
  destruct (insert_ok _ _ sibs [] 0 (length keys) initial_inv Hr Hp Hne) as (st2 & b & Ei & Hin).
  pose proof (in_fresh _ _ _ _ _ _ _ Hin eq_refl) as ->. exists sibs, st2. by split.
Qed.

(** The array that is saved: some units more, which are free. *)
Lemma saved_ok st2 st3 :
  inserted (max_depth keys) initial st2 1 0 0 (length keys) ->
  (exists k, array_ st3 = array_ st2 ++ replicate k (mkUnit 0 0)) -> size_ st3 = size_ st2 + 257 -> size_ st3 <= alloc_size_ st3 ->
  array_ok (saved st3) = true /\ forall key, wf_bytes key -> answer 0 (length keys) key (value_of (saved st3) key) /\
    (forall b, walk (saved st3) key = Some b -> exists i t, keys !! i = Some (key ++ t)).
Proof.
  intros [J1 [J2 J2'] Jz _ J3 J4 J5 [J6 J6'] J7 J8] [k Ea] Es Hal. set (a := saved st3).
  assert (Hlen : Z.of_nat (length a) = size_ st2 + 257).
  { unfold a, saved. rewrite length_take_le; [rewrite Es; pose proof (iv_size _ J1); lia|]. unfold alloc_size_ in Hal. pose proof (iv_size _ J1). lia. }
  assert (Hlook : forall p u, check u <> 0 -> a !! p = Some u <-> array_ st2 !! p = Some u).
  { intros p u Hc. unfold a, saved. rewrite Ea. split.
    - intros [H _]%lookup_take_Some. apply lookup_app_Some in H as [H|[_ [-> _]%lookup_replicate]]; [done|]. done.
    - intros H. destruct (iv_label _ J1 _ _ H Hc) as [Hp _]. rewrite lookup_take_lt by lia. by apply lookup_app_l_Some. }
  assert (Hsize : size_ st2 + 257 < 2 ^ 31) by (unfold total in *; cbn [initial size_] in J5; lia).
  assert (Hroot : a !! O = Some (mkUnit 1 0)).
  { unfold a, saved. rewrite lookup_take_lt by (pose proof (iv_size _ J1); lia). rewrite Ea. apply lookup_app_l_Some. by rewrite Jz. }
  pose proof (iv_begin _ J1 1 J2) as H1. split.
  - unfold array_ok. rewrite Hlen. destruct a as [|u0 a0] eqn:Ea0; [done|]. injection Hroot as ->. cbn [base].
    rewrite <- Ea0 in *. apply andb_true_iff. split; [apply andb_true_iff; split; [apply andb_true_iff; split; [lia|apply Z.ltb_lt; lia]|by apply Z.ltb_lt]|].
    apply forallb_forall. intros [p u] Hin. apply list_elem_of_In, list_elem_of_lookup in Hin as [q Hq].
    rewrite list_lookup_imap in Hq. destruct (a !! q) as [v|] eqn:Hv; [|done]. injection Hq as <- <-. unfold unit_ok.
    destruct (Z.eqb_spec (check v) 0) as [|Hc]; [done|]. cbn [orb]. apply Hlook in Hv; [|done]. destruct (iv_label _ J1 _ _ Hv Hc) as [_ HU].
    destruct (J8 q v Hv) as [->|[Hb Hne]]; [split; [done|apply initial_unused]|by rewrite Z.eqb_refl|].
    apply orb_true_iff. right. rewrite !andb_true_iff, negb_true_iff, Z.leb_le, Z.ltb_lt, Z.eqb_neq. lia.
  - intros key Hkey. assert (Hval : value_of a key = search a 1 key).
    { unfold value_of, walk, root, at_. change (Z.to_nat 0) with O. rewrite Hroot. cbn [mbind option_bind base]. unfold search.
      by destruct (exact_loop a key 1). }
    assert (Hsub : sub (max_depth keys) (fun x => U st2 x) a 1 0 0 (length keys)).
    { eapply sub_frame; [| |exact J7]; [|by intros x [? _]]. intros p u [HU _]. symmetry. apply Hlook. pose proof (iv_begin _ J1 _ HU). lia. }
    assert (HX : forall x, U st2 x -> 1 <= x /\ x + 256 < Z.of_nat (length a) < 2 ^ 31)
      by (intros x Hx; pose proof (iv_begin _ J1 x Hx); lia).
    pose proof (rd_node _ _ _ _ _ root_ready) as Hnode. split.
    + rewrite Hval. by apply (sub_search (max_depth keys) (fun x => U st2 x) a 1 [] 0 (length keys) key).
    + intros b Hb. unfold walk, root, at_ in Hb. change (Z.to_nat 0) with O in Hb. rewrite Hroot in Hb. cbn [mbind option_bind base] in Hb.
      destruct (exact_loop a key 1) as [[b'|]|] eqn:El; try done.
      destruct (sub_walk (max_depth keys) (fun x => U st2 x) a 1 b' [] 0 (length keys) key HX Hnode Hsub Hkey El) as (i & t & _ & Hk).
      by exists i, t.
Qed.

Lemma build_ok :
  exists st, build keys value_ clear = Some (st, 0) /\ array_ok (saved st) = true /\
    forall key, wf_bytes key -> answer 0 (length keys) key (value_of (saved st) key) /\
      (forall b, walk (saved st) key = Some b -> exists i t, keys !! i = Some (key ++ t)).
Proof.
  unfold build. destruct (Z.eqb_spec ks 0); [lia|]. cbn [clear array_ used_ size_ next_check_pos_ error_].
  assert (resize (mkBuilder [] [] 0 0 0 0) (ks * 64) =
            Some (mkBuilder (replicate (Z.to_nat (ks * 64)) (mkUnit 0 0)) (replicate (Z.to_nat (ks * 64)) false) 0 0 0 0)) as ->.
  { unfold resize. change (alloc_size_ (mkBuilder [] [] 0 0 0 0)) with 0. destruct (Z.ltb_spec (ks * 64) 0); [lia|].
    by rewrite Z.sub_0_r. }
  cbn [mbind option_bind array_]. destruct (Z.to_nat (ks * 64)) as [|m] eqn:Em; [lia|].
  change (at_ (replicate (S m) (mkUnit 0 0)) 0) with (Some (mkUnit 0 0)). cbn [mbind option_bind check].
  assert (Ei : set_next (set_unit (mkBuilder (replicate (S m) (mkUnit 0 0)) (replicate (S m) false) 0 0 0 0) 0 (mkUnit 1 0)) 0 = initial).
  { unfold initial. rewrite Em. cbn [set_unit set_next array_ used_ size_ progress_ next_check_pos_ error_]. change (Z.to_nat 0) with O.
    cbn [Nat.sub replicate]. by rewrite Nat.sub_0_r. }
  rewrite Ei. destruct insert_root as (sibs & st2 & -> & Hins & Hin). cbn [mbind option_bind]. rewrite Hins.
  cbn [mbind option_bind fst]. set (st3 := mkBuilder _ _ _ _ _ _). pose proof (iv_error _ (in_inv _ _ _ _ _ _ _ Hin)) as He.
  pose proof (iv_size _ (in_inv _ _ _ _ _ _ _ Hin)) as Hs.
  change (size_ st2 + (256 + 1)) with (size_ st3). destruct (Z.leb_spec (alloc_size_ st3) (size_ st3)) as [Hle|Hlt].
  - destruct (resize_ok st3 (size_ st3) Hle) as (st4 & -> & [(k & E1 & _) E2 _ E4] & _ & Hal). cbn [mbind option_bind].
    exists st4. rewrite E4. cbn [st3 error_]. rewrite He. split; [done|]. apply (saved_ok st2); [done|by exists k|done|].
    rewrite E2, Hal; [lia|]. cbn. apply Hin.
  - cbn [mbind option_bind]. exists st3. cbn [st3 error_]. rewrite He. split; [done|]. apply (saved_ok st2); [done| |done|lia].
    exists O. by rewrite app_nil_r.
Qed.
End Families.

(** ** The units are 32-bit numbers *)
Definition unit_wf (u : unit_t) : Prop := - 2 ^ 31 <= base u < 2 ^ 31 /\ is_u32 (check u).
Definition units_wf (st : builder) : Prop := Forall unit_wf (array_ st).

Lemma i32_range z : - 2 ^ 31 <= i32 z < 2 ^ 31.
Proof. unfold i32. pose proof (u32_range z) as H. unfold is_u32 in H. destruct (Z.ltb_spec (u32 z) (2 ^ 31)); lia. Qed.

Lemma resize_wf st n st' : resize st n = Some st' -> units_wf st -> units_wf st'.
Proof.
  unfold resize. destruct (n <? alloc_size_ st); [done|]. intros [= <-] H. apply Forall_app. split; [done|].
  apply Forall_replicate. by split.
Qed.

Lemma reach_wf st pos st' : reach st pos = Some st' -> units_wf st -> units_wf st'.
Proof. unfold reach. destruct (alloc_size_ st <=? pos); [apply resize_wf|by intros [= ->]]. Qed.

Lemma set_unit_wf st p u : units_wf st -> unit_wf u -> units_wf (set_unit st p u).
Proof. intros H Hu. by apply Forall_insert. Qed.

Lemma put_base_wf st p b st' : put_base st p b = Some st' -> units_wf st -> units_wf st'.
Proof.
  unfold put_base. intros H Hw. apply bind_Some in H as (u & Hu & [= <-]). apply set_unit_wf; [done|]. split; [apply i32_range|].
  by destruct (Forall_lookup_1 _ _ _ _ Hw Hu).
Qed.

Lemma put_check_wf st p c st' : put_check st p c = Some st' -> units_wf st -> units_wf st'.
Proof.
  unfold put_check. intros H Hw. apply bind_Some in H as (u & Hu & [= <-]). apply set_unit_wf; [done|]. split; [|apply u32_range].
  by destruct (Forall_lookup_1 _ _ _ _ Hw Hu).
Qed.

Lemma claim_wf st begin sibs st' : claim st begin sibs = Some st' -> units_wf st -> units_wf st'.
Proof.
  revert st. induction sibs as [|s sibs IH]; intros st H Hw; cbn [claim] in H; [by injection H as <-|].
  apply bind_Some in H as (st1 & H1 & H). eapply IH; [exact H|]. by eapply put_check_wf.
Qed.

Section WellFormed.
Context (keys : list bytes) (value_ : option (list Z)).

Lemma find_loop_wf fuel st fc lc rest pos nz first r :
  find_loop keys fuel st fc lc rest pos nz first = Some r -> units_wf st -> units_wf r.1.1.1.
Proof.
  revert st pos nz first. induction fuel as [|fuel IH]; intros st pos nz first H Hw; cbn [find_loop] in H; [done|].
  apply bind_Some in H as (st1 & H1 & H). assert (Hw1 : units_wf st1) by by eapply reach_wf.
  apply bind_Some in H as (u & _ & H). destruct (negb (check u =? 0)); [by eapply IH|].
  set (st2 := if first then st1 else set_next st1 (pos + 1)) in *. assert (Hw2 : units_wf st2) by (by unfold st2; destruct first).
  apply bind_Some in H as (st3 & H3 & H). assert (Hw3 : units_wf st3).
  { destruct (alloc_size_ st2 <=? _); [|by injection H3 as <-]. apply bind_Some in H3 as (m & _ & H3). by eapply resize_wf. }
  apply bind_Some in H as (taken & _ & H). destruct taken; [by eapply IH|]. apply bind_Some in H as (c & _ & H).
  destruct c; [by eapply IH|]. by injection H as <-.
Qed.

Lemma place_wf st sibs r : place keys st sibs = Some r -> units_wf st -> units_wf r.1.
Proof.
  unfold place. intros H Hw. apply bind_Some in H as (f & _ & H). apply bind_Some in H as (l & _ & H). apply bind_Some in H as (st1 & H1 & H).
  apply bind_Some in H as ([[[st2 pos] nz] begin] & H2 & H). apply bind_Some in H as (st3 & H3 & [= <-]). cbn [fst].
  eapply claim_wf; [exact H3|]. apply find_loop_wf in H2; [|by eapply reach_wf]. cbn [fst] in H2. by destruct (SFleb _ _).
Qed.

Lemma fetch_wf st parent r : fetch keys st parent = Some r -> units_wf st -> units_wf r.1.
Proof.
  unfold fetch. destruct (error_ st <? 0); [by intros [= <-]|]. intros H Hw. apply bind_Some in H as (x & _ & H).
  destruct x; by injection H as <-.
Qed.

Lemma each_sibling_wf ins st begin sibs r :
  (forall st sibs r, ins st sibs = Some r -> units_wf st -> units_wf r.1) ->
  each_sibling keys value_ ins st begin sibs = Some r -> units_wf st -> units_wf r.1.
Proof.
  intros Hins. revert st. induction sibs as [|s sibs IH]; intros st H Hw; cbn [each_sibling] in H; [by injection H as <-|].
  apply bind_Some in H as ([st1 news] & H1 & H). assert (Hw1 : units_wf st1) by (by apply fetch_wf in H1). destruct news as [|x news].
  - apply bind_Some in H as (v & _ & H). apply bind_Some in H as (st2 & H2 & H). apply put_base_wf in H2; [|done].
    destruct (v.2 && _); [by injection H as <-|by eapply IH].
  - apply bind_Some in H as (h & Hh & H). apply bind_Some in H as (st2 & H2 & H). eapply IH; [exact H|].
    eapply put_base_wf; [exact H2|]. by eapply Hins.
Qed.

Lemma insert_wf fuel st sibs r : insert keys value_ fuel st sibs = Some r -> units_wf st -> units_wf r.1.
Proof.
  revert st sibs r. induction fuel as [|fuel IH]; intros st sibs r H Hw; cbn [insert] in H.
  - destruct (error_ st <? 0); [by injection H as <-|done].
  - destruct (error_ st <? 0); [by injection H as <-|]. apply bind_Some in H as ([st1 begin] & H1 & H).
    apply bind_Some in H as ([st2 whole] & H2 & [= <-]). cbn [fst]. apply place_wf in H1; [|done].
    apply each_sibling_wf in H2; [done|by apply IH|done].
Qed.

Lemma build_wf r : build keys value_ clear = Some r -> units_wf r.1.
Proof.
  unfold build. destruct (key_size_ keys =? 0); [intros [= <-]; constructor|]. intros H. apply bind_Some in H as (st1 & H1 & H).
  apply resize_wf in H1; [|constructor]. apply bind_Some in H as (u & Hu & H). apply bind_Some in H as ([st2 sibs] & H2 & H).
  apply fetch_wf in H2.
  2: { apply set_unit_wf; [done|]. split; [cbn; lia|]. by destruct (Forall_lookup_1 _ _ _ _ H1 Hu). }
  apply bind_Some in H as (r3 & H3 & H). apply insert_wf in H3; [|done]. apply bind_Some in H as (st4 & H4 & [= <-]). cbn [fst].
  destruct (_ <=? _); [by eapply resize_wf|by injection H4 as <-].
Qed.
(** What is saved is in the array. *)
Lemma last_resize st st' :
  (if alloc_size_ st <=? size_ st then resize st (size_ st) else Some st) = Some st' -> size_ st' <= alloc_size_ st'.
Proof.
  destruct (Z.leb_spec (alloc_size_ st) (size_ st)) as [Hle|Hlt]; [|intros [= <-]; lia]. unfold resize.
  destruct (Z.ltb_spec (size_ st) (alloc_size_ st)); [done|]. intros [= <-]. unfold alloc_size_ in *. cbn [array_ size_].
  rewrite length_app, length_replicate. lia.
Qed.

Lemma build_size r : build keys value_ clear = Some r -> key_size_ keys <> 0 -> size_ r.1 <= alloc_size_ r.1.
Proof.
  unfold build. intros H Hk. destruct (Z.eqb_spec (key_size_ keys) 0); [done|].
  apply bind_Some in H as (st1 & _ & H). apply bind_Some in H as (u & _ & H). apply bind_Some in H as ([st2 sibs] & _ & H).
  apply bind_Some in H as (r3 & _ & H). apply bind_Some in H as (st4 & H4 & [= <-]). exact (last_resize _ _ H4).
Qed.
End WellFormed.

(** ** Importing a dictionary *)

(** The keys are sorted as strings of octets; equal ones may follow. *)
Definition sorted_keys (keys : list bytes) : Prop :=
  forall i j k1 k2, (i < j)%nat -> keys !! i = Some k1 -> keys !! j = Some k2 -> bytes_cmp k1 k2 <> Gt.

(** Enough keys that the first path fits into the first allocation and that
    growing by a twentieth makes room for a family, and few enough that
    positions are of 31 bits. *)
Definition fits (keys : list bytes) : bool :=
  (163 <=? key_size_ keys) &&
  forallb (fun key => 514 * (Z.of_nat (length key) + 2) <=? 64 * key_size_ keys) keys &&
  (514 * (total keys + 1) * key_size_ keys <? 2 ^ 48) && (514 * (total keys + 2) <? 2 ^ 31).

Fixpoint assoc (key : bytes) (items : list (bytes * Z)) : option Z :=
  match items with
  | [] => None
  | (k, v) :: items => if decide (k = key) then Some v else assoc key items
  end.

Lemma assoc_first key items i v :
  map fst items !! i = Some key -> (forall j, (j < i)%nat -> map fst items !! j <> Some key) -> map snd items !! i = Some v ->
  assoc key items = Some v.
Proof.
  revert i. induction items as [|[k w] items IH]; intros [|i] Hk Hj Hv; cbn [map assoc] in *; try done.
  - injection Hk as ->. injection Hv as ->. by rewrite decide_True.
  - destruct (decide (k = key)) as [->|_]; [by destruct (Hj O ltac:(lia))|]. apply (IH i); [done| |done].
    intros j Hlt. apply (Hj (S j)). lia.
Qed.

Lemma assoc_none key items : (forall i, (i < length items)%nat -> map fst items !! i <> Some key) -> assoc key items = None.
Proof.
  induction items as [|[k w] items IH]; intros H; cbn [assoc]; [done|].
  destruct (decide (k = key)) as [->|_]; [by destruct (H O ltac:(cbn; lia))|]. apply IH. intros i Hi. apply (H (S i)). cbn. lia.
Qed.

(** Importing a dictionary succeeds when there are enough words and not too
    many: the array that is saved is a proper one, and the words in it, with
    their frequencies, are those of the corpus and no others.  Of words that
    occur twice the first counts. *)
Lemma import_ok items :
  sorted_keys (map fst items) -> Forall (Forall (fun c => 0 < c < 256)) (map fst items) ->
  Forall (fun v => 0 <= v < 2 ^ 31) (map snd items) -> fits (map fst items) = true ->
  exists st, import items = Some (st, 0) /\ array_ok (saved st) = true /\
    forall key, wf_bytes key -> value_of (saved st) key = assoc key items /\
      (forall b, walk (saved st) key = Some b -> exists t, key ++ t ∈ map fst items).
Proof.
  intros Hs Hb Hv Hf. unfold fits in Hf. rewrite !andb_true_iff, !Z.leb_le, !Z.ltb_lt, forallb_forall in Hf.
  destruct Hf as [[[H1 H2] H3] H4].
  destruct (build_ok (map fst items) (Some (map snd items))) as (st & E & Hok & Hans); try done.
  - intros i Hi. unfold value_at. destruct (lookup_lt_is_Some_2 (map snd items) i) as [v Hiv]; [by rewrite !length_map in *|].
    exists v. split; [done|]. rewrite Forall_forall in Hv. apply Hv. by apply list_elem_of_lookup_2 in Hiv.
  - apply Forall_forall. intros key Hk. apply Z.leb_le, H2. by apply list_elem_of_In.
  - exists st. split; [done|]. split; [done|]. intros key Hkey. destruct (Hans key Hkey) as [Ha Hw]. split.
    2: { intros b Hb'. destruct (Hw b Hb') as (i & t & Hk). exists t. by eapply list_elem_of_lookup_2. }
    destruct Ha as [(i & v & Hi & Hk & Hj & Hiv & ->)|[Hnone ->]].
    + symmetry. apply (assoc_first key items i v); [done| |done]. intros j Hlt. apply Hj. lia.
    + symmetry. apply assoc_none. intros i Hi. apply Hnone. rewrite length_map. lia.
Qed.
