(* ===== verification/IniParser.v ===== *)
(** The configuration reader of the segmenter:
    [deps/tokenizer/src/dictionary.c] and [iniparser.c].

    Strings are without their terminating zero; allocation does not fail.
    [None] is an access outside of an array or of a buffer. *)
From Stdlib Require Ascii String.
Import String.StringSyntax.
From S2P Require Import Prelude.

Module Ini.

(** ** Characters and C strings *)
Definition i8 (c : Z) : Z := if u8 c <? 128 then u8 c else u8 c - 256.
Definition isspace (c : Z) : bool := (c =? 32) || ((9 <=? c) && (c <=? 13)).
Definition tolower (c : Z) : Z := if (65 <=? c) && (c <=? 90) then c + 32 else c.

Fixpoint take_while (f : Z -> bool) (s : bytes) : bytes :=
  match s with
  | [] => []
  | c :: s => if f c then c :: take_while f s else []
  end.

Fixpoint drop_while (f : Z -> bool) (s : bytes) : bytes :=
  match s with
  | [] => []
  | c :: s' => if f c then drop_while f s' else s
  end.

(** What a buffer holds as a string. *)
Definition c_str (s : bytes) : bytes := take_while (fun c => negb (c =? 0)) s.

(** A [char *]: a null pointer, the invalid pointer of the parser, a string. *)
Inductive char_ptr := NullPtr | InvalidPtr | Str (s : bytes).

#[export] Instance char_ptr_eq_dec : EqDecision char_ptr.
Proof. solve_decision. Defined.

Definition text_of (s : String.string) : bytes :=
  List.map (fun c => Z.of_N (Ascii.N_of_ascii c)) (String.list_ascii_of_string s).
Arguments text_of s%_string_scope.

(** ** [dictionary.c] *)
Record slot := mkSlot { key : option bytes; val : option bytes; hash : Z }.
Record dictionary := mkDict { n : Z; slots : list slot }.

Definition DICTMINSZ : Z := 128.
Definition size (d : dictionary) : Z := Z.of_nat (length (slots d)).
Definition empty_slot : slot := mkSlot None None 0.

Definition dictionary_new (size : Z) : dictionary :=
  let size := if size <? DICTMINSZ then DICTMINSZ else size in mkDict 0 (replicate (Z.to_nat size) empty_slot).

Definition hash_step (hash c : Z) : Z :=
  let hash := u32 (hash + u32 (i8 c)) in
  let hash := u32 (hash + u32 (Z.shiftl hash 10)) in
  Z.lxor hash (Z.shiftr hash 6).

Definition dictionary_hash (key : bytes) : Z :=
  let hash := fold_left hash_step key 0 in
  let hash := u32 (hash + u32 (Z.shiftl hash 3)) in
  let hash := Z.lxor hash (Z.shiftr hash 11) in
  u32 (hash + u32 (Z.shiftl hash 15)).

(** The loops over the slots: the one with a key, and the first empty one. *)
Definition holds (h : Z) (k : bytes) (s : slot) : bool :=
  match key s with
  | None => false
  | Some k' => (h =? hash s) && bool_decide (k = k')
  end.

Fixpoint find_slot (f : slot -> bool) (l : list slot) : option nat :=
  match l with
  | [] => None
  | s :: l => if f s then Some O else S <$> find_slot f l
  end.

Definition is_empty (s : slot) : bool := match key s with None => true | Some _ => false end.

Definition to_ptr (v : option bytes) : char_ptr := match v with None => NullPtr | Some s => Str s end.

Definition dictionary_get (d : dictionary) (k : bytes) (def : char_ptr) : char_ptr :=
  match find_slot (holds (dictionary_hash k) k) (slots d) with
  | None => def
  | Some i => match slots d !! i with Some s => to_ptr (val s) | None => def end
  end.

(** Twice the slots when there is no empty one. *)
Definition grow (d : dictionary) : dictionary :=
  if n d =? size d then mkDict (n d) (slots d ++ replicate (length (slots d)) empty_slot) else d.

Definition put_slot (d : dictionary) (i : nat) (s : slot) (n : Z) : dictionary := mkDict n (<[i := s]> (slots d)).

Definition dictionary_set (d : dictionary) (k : bytes) (v : option bytes) : option (dictionary * Z) :=
  let h := dictionary_hash k in
  match (if 0 <? n d then find_slot (holds h k) (slots d) else None) with
  | Some i => s ← slots d !! i; Some (put_slot d i (mkSlot (key s) v (hash s)) (n d), 0)
  | None =>
      let d := grow d in
      i ← find_slot is_empty (slots d);
      Some (put_slot d i (mkSlot (Some k) v h) (n d + 1), 0)
  end.

Definition dictionary_unset (d : dictionary) (k : bytes) : dictionary :=
  match find_slot (holds (dictionary_hash k) k) (slots d) with
  | None => d
  | Some i => put_slot d i empty_slot (n d - 1)
  end.

(** ** [iniparser.c] *)
Definition ASCIILINESZ : nat := 1024.

Definition strlwc (s : bytes) : bytes := map tolower (take ASCIILINESZ s).

(** The static buffer has room for [ASCIILINESZ] characters. *)
Definition strip (s : bytes) : bytes := rev (drop_while isspace (rev (drop_while isspace s))).
Definition strstrip (s : bytes) : option bytes :=
  if (ASCIILINESZ <? length (drop_while isspace s))%nat then None else Some (strip s).

(** A section is a key without a colon. *)
Definition is_section (s : slot) : bool :=
  match key s with None => false | Some k => negb (existsb (Z.eqb 58) k) end.

Definition iniparser_getnsec (d : dictionary) : nat := length (filter (fun s => is_section s = true) (slots d)).
Definition iniparser_getsecname (d : dictionary) (i : Z) : option bytes :=
  if i <? 0 then None else s ← filter (fun s => is_section s = true) (slots d) !! Z.to_nat i; key s.

Definition iniparser_getstring (d : dictionary) (k : bytes) (def : char_ptr) : char_ptr := dictionary_get d (strlwc k) def.

(** The first character decides. *)
Definition in_chars (cs : bytes) (s : bytes) : bool :=
  match s with [] => false | c :: _ => existsb (Z.eqb c) cs end.

Definition iniparser_getboolean (d : dictionary) (k : bytes) (notfound : Z) : option Z :=
  match iniparser_getstring d k InvalidPtr with
  | InvalidPtr => Some notfound
  | NullPtr => None
  | Str c =>
      Some (if in_chars [121; 89; 49; 116; 84] c then 1 else if in_chars [110; 78; 48; 102; 70] c then 0 else notfound)
  end.

Definition iniparser_find_entry (d : dictionary) (entry : bytes) : bool :=
  negb (bool_decide (iniparser_getstring d entry InvalidPtr = InvalidPtr)).
Definition iniparser_set (d : dictionary) (entry : bytes) (v : option bytes) : option (dictionary * Z) :=
  dictionary_set d (strlwc entry) v.
Definition iniparser_unset (d : dictionary) (entry : bytes) : dictionary := dictionary_unset d (strlwc entry).

(** *** [sscanf], of which the parser uses blanks, characters and sets *)
Inductive directive :=
  | Blank
  | Lit (c : Z)
  | Only (cs : bytes)   (* %[cs] *)
  | Until (cs : bytes). (* %[^cs] *)

(** The strings assigned. *)
Fixpoint sscanf (s : bytes) (fmt : list directive) : list bytes :=
  let set (f : Z -> bool) fmt :=
    match take_while f s with [] => [] | m => m :: sscanf (drop_while f s) fmt end in
  match fmt with
  | [] => []
  | Blank :: fmt => sscanf (drop_while isspace s) fmt
  | Lit c :: fmt => match s with [] => [] | x :: s => if x =? c then sscanf s fmt else [] end
  | Only cs :: fmt => set (fun c => existsb (Z.eqb c) cs) fmt
  | Until cs :: fmt => set (fun c => negb (existsb (Z.eqb c) cs)) fmt
  end.

Definition fmt_section : list directive := [Lit 91; Until [93]].
Definition fmt_value (rest : list directive) : list directive := [Until [61]; Blank; Lit 61; Blank] ++ rest.
Definition fmt_dquoted : list directive := fmt_value [Lit 34; Until [34]; Lit 34].
Definition fmt_squoted : list directive := fmt_value [Lit 39; Until [39]; Lit 39].
Definition fmt_plain : list directive := fmt_value [Until [59; 35]].
Definition fmt_comment : list directive := fmt_value [Only [59; 35]].
Definition fmt_nothing : list directive := [Until [61]; Blank; Only [61]].

(** The first of some formats that assigns both strings. *)
Fixpoint scan2 (line : bytes) (fmts : list (list directive)) : option (bytes * bytes) :=
  match fmts with
  | [] => None
  | fmt :: fmts => match sscanf line fmt with [k; v] => Some (k, v) | _ => scan2 line fmts end
  end.

(** *** A line *)
Inductive line_status := LINE_ERROR | LINE_EMPTY | LINE_COMMENT | LINE_SECTION (s : bytes) | LINE_VALUE (k v : bytes).

(** [section] is the one of the lines before; a section without a name keeps it. *)
Definition iniparser_line (input_line section : bytes) : option line_status :=
  line ← strstrip input_line;
  match line with
  | [] => Some LINE_EMPTY
  | c :: _ =>
      if c =? 35 then Some LINE_COMMENT
      else if (c =? 91) && bool_decide (last line = Some 93) then
        let section := match sscanf line fmt_section with [s] => s | _ => section end in
        s ← strstrip section; Some (LINE_SECTION (strlwc s))
      else
        match scan2 line [fmt_dquoted; fmt_squoted; fmt_plain] with
        | Some (k, v) =>
            k ← strstrip k;
            v ← strstrip v;
            Some (LINE_VALUE (strlwc k) (if bool_decide (v = [34; 34]) || bool_decide (v = [39; 39]) then [] else v))
        | None =>
            match scan2 line [fmt_comment; fmt_nothing] with
            | Some (k, _) => k ← strstrip k; Some (LINE_VALUE (strlwc k) [])
            | None => Some LINE_ERROR
            end
        end
  end.

(** *** A file *)

(** [fgets] into [room] characters: what is read and the rest of the file. *)
Fixpoint fgets_loop (room : nat) (file : bytes) : bytes * bytes :=
  match room, file with
  | S room, c :: file => if c =? 10 then ([c], file) else let '(l, file) := fgets_loop room file in (c :: l, file)
  | _, _ => ([], file)
  end.

Definition fgets (room : nat) (file : bytes) : option (bytes * bytes) :=
  match file with [] => None | _ => Some (fgets_loop (room - 1) file) end.

(** The line without the blanks at its end, and the position left; none is
    before the buffer. *)
Definition trim_end (line : bytes) : bytes := rev (drop_while isspace (rev line)).

(** [line] is what a line continued has so far.  The result is the dictionary,
    or none. *)
Fixpoint load_loop (fuel : nat) (file : bytes) (line section : bytes) (dict : dictionary) (errs : Z) : option (option dictionary) :=
  match fuel with
  | O => None
  | S fuel =>
      match fgets (ASCIILINESZ - length line) file with
      | None => Some (if errs =? 0 then Some dict else @None dictionary)
      | Some (chunk, file) =>
          let line := c_str (line ++ chunk) in
          c ← last line;
          if negb (c =? 10) then Some (@None dictionary)
          else
            let line := trim_end line in
            c ← last line;
            if c =? 92 then load_loop fuel file (removelast line) section dict errs
            else
              st ← iniparser_line line section;
              match st with
              | LINE_EMPTY | LINE_COMMENT => load_loop fuel file [] section dict errs
              | LINE_SECTION s => d ← dictionary_set dict s None; load_loop fuel file [] s d.1 d.2
              | LINE_VALUE k v =>
                  if (ASCIILINESZ <? length section + 1 + length k)%nat then None
                  else d ← dictionary_set dict (section ++ [58] ++ k) (Some v); load_loop fuel file [] section d.1 d.2
              | LINE_ERROR => load_loop fuel file [] section dict (errs + 1)
              end
      end
  end.

(** No file is one that cannot be opened. *)
Definition iniparser_load (file : option bytes) : option (option dictionary) :=
  match file with
  | None => Some None
  | Some file => load_loop (S (length file)) file [] [] (dictionary_new 0) 0
  end.

(** The configuration that comes with the program, its comments shortened. *)
Definition sample_ini : bytes :=
  text_of "[mmseg] " ++ [10] ++ text_of "merge_number_and_ascii=1; " ++ [9; 59; 229; 144; 136; 10] ++
  text_of "number_and_ascii_joint=.; " ++ [9; 59; 229; 174; 154; 10] ++
  text_of "compress_space=1; " ++ [9; 9; 59; 230; 154; 130; 10] ++ text_of "seperate_number_ascii=0;" ++ [9; 59; 229; 176; 177; 10].

Example load_sample :
  match iniparser_load (Some sample_ini) with
  | Some (Some d) =>
      (n d, iniparser_getstring d (text_of "mmseg:number_and_ascii_joint") NullPtr, iniparser_getboolean d (text_of "MMSEG:merge_number_and_ascii") 0,
       iniparser_getboolean d (text_of "mmseg:seperate_number_ascii") 1, iniparser_getboolean d (text_of "m") 7, iniparser_getsecname d 0) =
      (5, Str [46], Some 1, Some 0, Some 7, Some (text_of "mmseg"))
  | _ => False
  end.
Proof. by vm_compute. Qed.

(** A syntax error is forgotten when a section or a value follows. *)
Example error_forgotten :
  (match iniparser_load (Some [120; 10; 97; 61; 49; 10]) with Some (Some _) => true | _ => false end,
   match iniparser_load (Some [97; 61; 49; 10; 120; 10]) with Some None => true | _ => false end) = (true, true).
Proof. by vm_compute. Qed.

(** A blank line: the character before the buffer is read. *)
Example blank_line_reads_before : iniparser_load (Some [10]) = None.
Proof. done. Qed.

(** ** Searching the slots *)
Lemma find_slot_some f l i : find_slot f l = Some i -> exists s, l !! i = Some s /\ f s = true.
Proof.
  revert i. induction l as [|s l IH]; intros i; cbn [find_slot]; [done|]. destruct (f s) eqn:E.
  - intros [= <-]. by exists s.
  - intros (j & Hj & ->)%fmap_Some. by apply IH.
Qed.

Lemma find_slot_none f l : find_slot f l = None <-> Forall (fun s => f s = false) l.
Proof.
  induction l as [|s l IH]; cbn [find_slot]; [by split|]. rewrite Forall_cons, <- IH. destruct (f s); [naive_solver|].
  rewrite fmap_None. naive_solver.
Qed.

Lemma find_slot_ext f g l : Forall (fun s => f s = g s) l -> find_slot f l = find_slot g l.
Proof. induction 1 as [|s l E _ IH]; cbn [find_slot]; [done|]. by rewrite E, IH. Qed.

(** ** The dictionary as a map *)
Definition has (k : bytes) (s : slot) : bool := bool_decide (key s = Some k).

Fixpoint value_in (k : bytes) (l : list slot) : option (option bytes) :=
  match l with
  | [] => None
  | s :: l => if has k s then Some (val s) else value_in k l
  end.

Fixpoint held (l : list slot) : list bytes :=
  match l with
  | [] => []
  | s :: l => match key s with Some k => k :: held l | None => held l end
  end.

Definition lookup_ (d : dictionary) (k : bytes) : option (option bytes) := value_in k (slots d).

(** Slots that hold a key have its hash, no key is held twice, [n] of them are. *)
Record dict_ok (d : dictionary) : Prop := {
  do_hash : Forall (fun s => forall k, key s = Some k -> hash s = dictionary_hash k) (slots d);
  do_unique : NoDup (held (slots d));
  do_count : n d = Z.of_nat (length (held (slots d)));
  do_size : 0 < size d
}.

Lemma elem_of_held k l : k ∈ held l <-> exists s, s ∈ l /\ key s = Some k.
Proof.
  induction l as [|s l IH]; cbn [held]; [split; [by intros ?%elem_of_nil|by intros (s & ?%elem_of_nil & _)]|].
  destruct (key s) as [k'|] eqn:E; rewrite ?elem_of_cons, IH; split.
  - intros [->|(t & Ht & Et)]; [exists s|exists t]; rewrite elem_of_cons; auto.
  - intros (t & [->|Ht]%elem_of_cons & Et); [left; congruence|right; by exists t].
  - intros (t & Ht & Et). exists t. rewrite elem_of_cons. auto.
  - intros (t & [->|Ht]%elem_of_cons & Et); [congruence|by exists t].
Qed.

Lemma held_app l l' : held (l ++ l') = held l ++ held l'.
Proof. induction l as [|s l IH]; cbn [held app]; [done|]. destruct (key s); [cbn; by rewrite IH|done]. Qed.

Lemma holds_has d k : dict_ok d -> Forall (fun s => holds (dictionary_hash k) k s = has k s) (slots d).
Proof.
  intros [H _ _ _]. eapply Forall_impl; [exact H|]. intros s Hs. unfold holds, has. destruct (key s) as [k'|] eqn:E.
  - rewrite (Hs k') by done. destruct (decide (k = k')) as [->|Hne].
    + rewrite Z.eqb_refl. by rewrite !bool_decide_true.
    + rewrite (bool_decide_false (k = k')) by done. rewrite andb_false_r. symmetry. apply bool_decide_false. congruence.
  - symmetry. by apply bool_decide_false.
Qed.

Lemma value_in_find k l :
  value_in k l = match find_slot (has k) l with Some i => match l !! i with Some s => Some (val s) | None => None end | None => None end.
Proof.
  induction l as [|s l IH]; cbn [value_in find_slot]; [done|]. destruct (has k s); [done|]. rewrite IH.
  by destruct (find_slot (has k) l).
Qed.

Lemma dictionary_get_lookup d k def :
  dict_ok d -> dictionary_get d k def = match lookup_ d k with Some v => to_ptr v | None => def end.
Proof.
  intros Hd. unfold dictionary_get, lookup_. rewrite (find_slot_ext _ _ _ (holds_has d k Hd)), value_in_find.
  destruct (find_slot (has k) (slots d)) as [i|]; [|done]. by destruct (slots d !! i).
Qed.

(** A slot that holds the key gets a new value; an empty one takes key and value. *)
Lemma value_in_replace k k' v h l i s :
  find_slot (has k) l = Some i -> l !! i = Some s ->
  value_in k' (<[i := mkSlot (key s) v h]> l) = if decide (k' = k) then Some v else value_in k' l.
Proof.
  revert i. induction l as [|t l IH]; intros i Hf Hi; cbn [find_slot] in Hf; [done|]. destruct (has k t) eqn:Et.
  - injection Hf as <-. cbn in Hi. injection Hi as ->. cbn. unfold has in Et |- *. apply bool_decide_eq_true in Et. cbn [key].
    rewrite Et. destruct (decide (k' = k)) as [->|Hne]; [by rewrite bool_decide_true|].
    rewrite bool_decide_false by congruence. done.
  - apply fmap_Some in Hf as (j & Hj & ->). cbn in Hi |- *. rewrite IH by done. destruct (decide (k' = k)) as [->|Hne]; [|done].
    by rewrite Et.
Qed.

Lemma value_in_add k k' v h l i :
  find_slot is_empty l = Some i -> find_slot (has k) l = None ->
  value_in k' (<[i := mkSlot (Some k) v h]> l) = if decide (k' = k) then Some v else value_in k' l.
Proof.
  revert i. induction l as [|t l IH]; intros i Hf Hn; cbn [find_slot] in Hf; [done|].
  apply find_slot_none, Forall_cons in Hn as [Ht Hn]. destruct (is_empty t) eqn:Et.
  - injection Hf as <-. cbn. unfold has at 1. cbn [key]. unfold is_empty in Et. destruct (key t) eqn:Ek; [done|].
    unfold has. rewrite Ek. destruct (decide (k' = k)) as [->|Hne]; [by rewrite bool_decide_true|].
    rewrite (bool_decide_false (Some k = Some k')) by congruence. by rewrite bool_decide_false.
  - apply fmap_Some in Hf as (j & Hj & ->). cbn. rewrite IH by (try done; by apply find_slot_none).
    destruct (decide (k' = k)) as [->|Hne]; [|done]. by rewrite Ht.
Qed.

Lemma value_in_remove k k' l i :
  NoDup (held l) -> find_slot (has k) l = Some i ->
  value_in k' (<[i := empty_slot]> l) = if decide (k' = k) then None else value_in k' l.
Proof.
  revert i. induction l as [|t l IH]; intros i Hnd Hf; cbn [find_slot] in Hf; [done|]. destruct (has k t) eqn:Et.
  - injection Hf as <-. cbn [insert list_insert value_in]. replace (has k' empty_slot) with false by (symmetry; by apply bool_decide_false).
    unfold has in Et. apply bool_decide_eq_true in Et. cbn in Hnd. rewrite Et in Hnd.
    apply NoDup_cons in Hnd as [Hni _]. destruct (decide (k' = k)) as [->|Hne].
    + rewrite value_in_find. destruct (find_slot (has k) l) as [j|] eqn:Ej; [|done].
      apply find_slot_some in Ej as (s & Hs & Hk). unfold has in Hk. apply bool_decide_eq_true in Hk. destruct Hni.
      apply elem_of_held. exists s. split; [by eapply list_elem_of_lookup_2|done].
    + unfold has. rewrite Et. by rewrite bool_decide_false by congruence.
  - apply fmap_Some in Hf as (j & Hj & ->). cbn. rewrite IH; [|cbn in Hnd; destruct (key t); [by apply NoDup_cons in Hnd as [_ ?]|done]|done].
    destruct (decide (k' = k)) as [->|Hne]; [|done]. by rewrite Et.
Qed.

(** What the slots hold, after a write. *)
Lemma held_same (l : list slot) (i : nat) s s' : l !! i = Some s -> key s' = key s -> held (<[i := s']> l) = held l.
Proof.
  revert i. induction l as [|t l IH]; intros [|i] Hi E; [done..| |]; cbn in Hi.
  - injection Hi as ->. change (held (s' :: l) = held (s :: l)). cbn [held]. by rewrite E.
  - change (held (t :: <[i := s']> l) = held (t :: l)). cbn [held]. by rewrite (IH i).
Qed.

Lemma held_add (l : list slot) (i : nat) s k s' :
  l !! i = Some s -> key s = None -> key s' = Some k -> held (<[i := s']> l) ≡ₚ k :: held l.
Proof.
  revert i. induction l as [|t l IH]; intros [|i] Hi E E'; [done..| |]; cbn in Hi.
  - injection Hi as ->. change (held (s' :: l) ≡ₚ k :: held (s :: l)). cbn [held]. by rewrite E, E'.
  - change (held (t :: <[i := s']> l) ≡ₚ k :: held (t :: l)). cbn [held]. destruct (key t); [|by apply IH].
    rewrite (IH i) by done. apply perm_swap.
Qed.

Lemma held_remove (l : list slot) (i : nat) s k :
  l !! i = Some s -> key s = Some k -> k :: held (<[i := empty_slot]> l) ≡ₚ held l.
Proof.
  revert i. induction l as [|t l IH]; intros [|i] Hi E; [done..| |]; cbn in Hi.
  - injection Hi as ->. change (k :: held (empty_slot :: l) ≡ₚ held (s :: l)). cbn [held]. by rewrite E.
  - change (k :: held (t :: <[i := empty_slot]> l) ≡ₚ held (t :: l)). cbn [held]. destruct (key t); [|by apply IH].
    rewrite perm_swap. by rewrite (IH i).
Qed.

Lemma empty_slot_exists (l : list slot) : (length (held l) < length l)%nat -> exists i, find_slot is_empty l = Some i.
Proof.
  intros H. destruct (find_slot is_empty l) as [i|] eqn:E; [by exists i|]. exfalso. apply find_slot_none in E.
  assert (length (held l) = length l); [|lia]. clear H. induction E as [|s l Hs _ IH]; cbn; [done|].
  unfold is_empty in Hs. destruct (key s); cbn; [by rewrite IH|done].
Qed.

Lemma held_length (l : list slot) : (length (held l) <= length l)%nat.
Proof. induction l as [|s l IH]; cbn; [done|]. destruct (key s); cbn; lia. Qed.

Lemma grow_ok d : dict_ok d -> dict_ok (grow d) /\ n (grow d) = n d /\ n d < size (grow d) /\
  (forall k, lookup_ (grow d) k = lookup_ d k) /\ (forall k, find_slot (has k) (slots d) = None -> find_slot (has k) (slots (grow d)) = None).
Proof.
  intros [H1 H2 H3 H4]. unfold grow. destruct (Z.eqb_spec (n d) (size d)) as [E|E].
  - assert (Eo : held (replicate (length (slots d)) empty_slot) = []) by (by induction (length (slots d))).
    split; [constructor|].
    + cbn [slots]. apply Forall_app. split; [done|]. by apply Forall_replicate.
    + cbn [slots]. by rewrite held_app, Eo, app_nil_r.
    + cbn [slots n]. by rewrite held_app, Eo, app_nil_r.
    + unfold size in *. cbn [slots]. rewrite length_app, length_replicate. lia.
    + unfold size in *. cbn [slots n]. rewrite length_app, length_replicate. split; [done|]. split; [lia|].
      assert (Hr : forall k m, find_slot (has k) (replicate m empty_slot) = None).
      { intros k m. apply find_slot_none, Forall_replicate. by apply bool_decide_false. }
      split.
      * intros k. unfold lookup_. cbn [slots]. generalize (length (slots d)) as m. intros m. clear - Hr.
        induction (slots d) as [|s l IH]; cbn [app value_in]; [by rewrite value_in_find, Hr|by rewrite IH].
      * intros k Hk. cbn [slots]. apply find_slot_none, Forall_app. split; [by apply find_slot_none|]. apply find_slot_none, Hr.
  - pose proof (held_length (slots d)). unfold size in *. split; [done|]. split; [done|]. split; [lia|]. done.
Qed.

Lemma dictionary_set_ok d k v :
  dict_ok d -> exists d', dictionary_set d k v = Some (d', 0) /\ dict_ok d' /\
    forall k', lookup_ d' k' = if decide (k' = k) then Some v else lookup_ d k'.
Proof.
  intros Hd. unfold dictionary_set.
  assert (Hf : (if 0 <? n d then find_slot (holds (dictionary_hash k) k) (slots d) else None) = find_slot (has k) (slots d)).
  { rewrite (find_slot_ext _ _ _ (holds_has d k Hd)). destruct (Z.ltb_spec 0 (n d)); [done|]. symmetry. apply find_slot_none, Forall_forall.
    intros s Hs. apply bool_decide_false. intros E. destruct Hd as [_ _ Hn _]. destruct (held (slots d)) as [|x l] eqn:Eo; [|cbn in Hn; lia].
    assert (k ∈ held (slots d)) as Hin by (apply elem_of_held; by exists s). rewrite Eo in Hin. by apply elem_of_nil in Hin. }
  rewrite Hf. destruct (find_slot (has k) (slots d)) as [i|] eqn:Ei.
  - destruct (find_slot_some _ _ _ Ei) as (s & Hs & Hk). rewrite Hs. cbn [mbind option_bind]. eexists. split; [done|]. split.
    + destruct Hd as [H1 H2 H3 H4]. unfold put_slot. constructor; cbn [slots n].
      * apply Forall_insert; [done|]. cbn [key hash]. rewrite Forall_forall in H1. apply H1. by eapply list_elem_of_lookup_2.
      * by rewrite (held_same _ _ s).
      * by rewrite (held_same _ _ s).
      * unfold size in *. cbn [slots]. by rewrite length_insert.
    + intros k'. unfold lookup_, put_slot. cbn [slots]. by apply value_in_replace.
  - destruct (grow_ok d Hd) as ([H1 H2 H3 H4] & En & Hlt & Hl & Hno). set (g := grow d) in *.
    destruct (empty_slot_exists (slots g)) as [i Hi]; [unfold size in *; lia|]. rewrite Hi. cbn [mbind option_bind].
    destruct (find_slot_some _ _ _ Hi) as (s & Hs & Hk). assert (Eks : key s = None) by (unfold is_empty in Hk; by destruct (key s)).
    pose proof (held_add (slots g) i s k (mkSlot (Some k) v (dictionary_hash k)) Hs Eks eq_refl) as Hp.
    eexists. split; [done|]. split.
    + unfold put_slot. constructor; cbn [slots n].
      * apply Forall_insert; [done|]. cbn [key hash]. by intros k' [= <-].
      * rewrite Hp. apply NoDup_cons. split; [|done]. intros (t & Ht & Et)%elem_of_held.
        pose proof (proj1 (find_slot_none _ _) (Hno k Ei)) as Hall. rewrite Forall_forall in Hall. specialize (Hall t Ht).
        unfold has in Hall. by apply bool_decide_eq_false in Hall.
      * rewrite Hp. cbn [length]. lia.
      * unfold size in *. cbn [slots]. rewrite length_insert. lia.
    + intros k'. unfold lookup_, put_slot. cbn [slots]. rewrite (value_in_add k k') by (try done; by apply Hno).
      fold (lookup_ g k'). by rewrite Hl.
Qed.

Lemma dictionary_unset_ok d k :
  dict_ok d -> dict_ok (dictionary_unset d k) /\
    forall k', lookup_ (dictionary_unset d k) k' = if decide (k' = k) then None else lookup_ d k'.
Proof.
  intros Hd. unfold dictionary_unset. rewrite (find_slot_ext _ _ _ (holds_has d k Hd)).
  destruct (find_slot (has k) (slots d)) as [i|] eqn:Ei.
  - destruct (find_slot_some _ _ _ Ei) as (s & Hs & Hk). unfold has in Hk. apply bool_decide_eq_true in Hk.
    pose proof (held_remove _ _ _ _ Hs Hk) as Hp. destruct Hd as [H1 H2 H3 H4]. split.
    + unfold put_slot. constructor; cbn [slots n].
      * by apply Forall_insert.
      * rewrite <- Hp in H2. by apply NoDup_cons in H2 as [_ ?].
      * rewrite <- Hp in H3. cbn [length] in H3. lia.
      * unfold size in *. cbn [slots]. by rewrite length_insert.
    + intros k'. unfold lookup_, put_slot. cbn [slots]. by apply value_in_remove.
  - split; [done|]. intros k'. destruct (decide (k' = k)) as [->|_]; [|done]. unfold lookup_. by rewrite value_in_find, Ei.
Qed.

Lemma dictionary_new_ok m : dict_ok (dictionary_new m) /\ forall k, lookup_ (dictionary_new m) k = None.
Proof.
  unfold dictionary_new. set (s := if m <? DICTMINSZ then DICTMINSZ else m).
  assert (Hs : 0 < s) by (unfold s, DICTMINSZ; destruct (Z.ltb_spec m 128); lia).
  assert (Eo : forall j, held (replicate j empty_slot) = []) by (by induction j). split.
  - constructor; cbn [slots n]; rewrite ?Eo; [by apply Forall_replicate|constructor|done|].
    unfold size. cbn [slots]. rewrite length_replicate. lia.
  - intros k. unfold lookup_. cbn [slots]. rewrite value_in_find.
    replace (find_slot (has k) (replicate (Z.to_nat s) empty_slot)) with (@None nat); [done|]. symmetry.
    apply find_slot_none, Forall_replicate. by apply bool_decide_false.
Qed.

(** ** Splitting strings *)
Lemma drop_while_head f c s : f c = false -> drop_while f (c :: s) = c :: s.
Proof. intros E. cbn. by rewrite E. Qed.

Lemma take_while_app f a b : Forall (fun c => f c = true) a -> (match b with [] => True | c :: _ => f c = false end) ->
  take_while f (a ++ b) = a /\ drop_while f (a ++ b) = b.
Proof.
  intros Ha Hb. induction Ha as [|c a Hc _ [IH1 IH2]]; cbn [app take_while drop_while].
  - destruct b as [|c b]; cbn; [done|]. by rewrite Hb.
  - by rewrite Hc, IH1, IH2.
Qed.

Lemma take_while_all f a : Forall (fun c => f c = true) a -> take_while f a = a.
Proof. intros Ha. destruct (take_while_app f a [] Ha I) as [E _]. by rewrite app_nil_r in E. Qed.

Lemma drop_while_app_stop f a c b : f c = false -> drop_while f (a ++ c :: b) = drop_while f a ++ c :: b.
Proof. intros E. induction a as [|x a IH]; cbn; [by rewrite E|]. by destruct (f x). Qed.

Lemma drop_while_app_some f a b : drop_while f a <> [] -> drop_while f (a ++ b) = drop_while f a ++ b.
Proof. intros H. induction a as [|x a IH]; cbn in *; [done|]. destruct (f x); auto. Qed.

Lemma drop_while_suffix f s : exists p, s = p ++ drop_while f s.
Proof.
  induction s as [|c s [p IH]]; cbn; [by exists []|]. destruct (f c); [exists (c :: p); cbn; by f_equal|by exists []].
Qed.

Lemma drop_while_length f s : (length (drop_while f s) <= length s)%nat.
Proof. destruct (drop_while_suffix f s) as [p E]. rewrite E at 2. rewrite length_app. lia. Qed.

Lemma drop_while_idemp f s : drop_while f (drop_while f s) = drop_while f s.
Proof. induction s as [|c s IH]; cbn; [done|]. destruct (f c) eqn:E; [done|]. cbn. by rewrite E. Qed.

Lemma trim_end_app a c b : isspace c = false -> trim_end (a ++ c :: b) = a ++ c :: trim_end b.
Proof.
  intros E. unfold trim_end. rewrite rev_app_distr. cbn [rev]. rewrite <- app_assoc. cbn [app].
  rewrite drop_while_app_stop by done. rewrite rev_app_distr. cbn [rev]. by rewrite rev_involutive, <- app_assoc.
Qed.

Lemma trim_end_blank s c : isspace c = true -> trim_end (s ++ [c]) = trim_end s.
Proof. intros E. unfold trim_end. rewrite rev_app_distr. cbn. by rewrite E. Qed.

Lemma trim_end_prefix s : exists p, s = trim_end s ++ p.
Proof.
  unfold trim_end. destruct (drop_while_suffix isspace (rev s)) as [p E]. exists (rev p).
  rewrite <- (rev_involutive s), E at 1. by rewrite rev_app_distr.
Qed.

Lemma trim_end_length s : (length (trim_end s) <= length s)%nat.
Proof. destruct (trim_end_prefix s) as [p E]. rewrite E at 2. rewrite length_app. lia. Qed.

Lemma trim_end_idemp s : trim_end (trim_end s) = trim_end s.
Proof. unfold trim_end. by rewrite rev_involutive, drop_while_idemp. Qed.

Lemma strip_trim s : strip s = trim_end (drop_while isspace s).
Proof. done. Qed.

Lemma strip_length s : (length (strip s) <= length s)%nat.
Proof. rewrite strip_trim. pose proof (trim_end_length (drop_while isspace s)). pose proof (drop_while_length isspace s). lia. Qed.

Lemma strip_head c s : isspace c = false -> strip (c :: s) = c :: trim_end s.
Proof. intros E. rewrite strip_trim, drop_while_head by done. by apply (trim_end_app [] c s). Qed.

(** Blanks at the end do not matter to what is stripped. *)
Lemma strip_trim_end s : strip (trim_end s) = strip s.
Proof.
  destruct (decide (drop_while isspace s = [])) as [E|E].
  - assert (Hall : Forall (fun c => isspace c = true) s).
    { revert E. induction s as [|c s IH]; cbn; [constructor|]. destruct (isspace c) eqn:Ec; [|done]. intros E. constructor; auto. }
    assert (trim_end s = []) as ->.
    { unfold trim_end. destruct (take_while_app isspace (rev s) [] ltac:(by apply Forall_rev) I) as [_ H]. by rewrite app_nil_r in H; rewrite H. }
    by rewrite !strip_trim, E.
  - destruct (drop_while isspace s) as [|c t] eqn:Ed; [done|]. destruct (drop_while_suffix isspace s) as [p Ep]. rewrite Ed in Ep.
    assert (Hp : Forall (fun c => isspace c = true) p /\ isspace c = false).
    { clear E. revert s Ep Ed. induction p as [|x p IH]; intros s -> Ed; cbn in Ed.
      - split; [constructor|]. destruct (isspace c) eqn:Ec; [|done]. exfalso. pose proof (drop_while_length isspace t). rewrite Ed in *. cbn in *. lia.
      - destruct (isspace x) eqn:Ex.
        + destruct (IH _ eq_refl Ed) as [? ?]. split; [by constructor|done].
        + exfalso. injection Ed as -> E2. apply (f_equal length) in E2. rewrite length_app in E2. cbn in E2. lia. }
    destruct Hp as [Hp Hc]. rewrite Ep. rewrite trim_end_app by done. rewrite !strip_trim.
    destruct (take_while_app isspace p (c :: trim_end t) Hp Hc) as [_ ->]. destruct (take_while_app isspace p (c :: t) Hp Hc) as [_ ->].
    rewrite (trim_end_app [] c (trim_end t) Hc : trim_end (c :: trim_end t) = _), (trim_end_app [] c t Hc : trim_end (c :: t) = _).
    cbn [app]. by rewrite trim_end_idemp.
Qed.

Lemma strstrip_ok s : (length s <= ASCIILINESZ)%nat -> strstrip s = Some (strip s).
Proof.
  intros H. unfold strstrip. pose proof (drop_while_length isspace s).
  by destruct (Nat.ltb_spec ASCIILINESZ (length (drop_while isspace s))); [lia|].
Qed.

Lemma length_strlwc s : (length (strlwc s) <= length s)%nat.
Proof. unfold strlwc. rewrite length_map, length_take. lia. Qed.

(** ** What is asked of a file *)

(** What stands behind the equals sign: a value and a comment, a quoted value
    and anything, or nothing but a comment. *)
Inductive text :=
  | Plain (v comment : bytes)
  | Quoted (q : Z) (v rest : bytes)
  | Nothing (comment : bytes).

Inductive item :=
  | Comment (t : bytes)
  | Section_ (s : bytes)
  | Entry (k : bytes) (t : text).

Definition render_text (t : text) : bytes :=
  match t with
  | Plain v comment => v ++ comment
  | Quoted q v rest => q :: v ++ q :: rest
  | Nothing comment => comment
  end.

Definition render (it : item) : bytes :=
  match it with
  | Comment t => 35 :: t
  | Section_ s => 91 :: s ++ [93]
  | Entry k t => k ++ 61 :: render_text t
  end.

Definition file_of (items : list item) : bytes := flat_map (fun it => render it ++ [10]) items.

Definition value_of_text (t : text) : bytes :=
  match t with Plain v _ => strip v | Quoted _ v _ => strip v | Nothing _ => [] end.

Definition not_in (cs : bytes) (c : Z) : bool := negb (existsb (Z.eqb c) cs).
Definition is_comment (s : bytes) : bool := match s with [] => true | c :: _ => (c =? 59) || (c =? 35) end.

Definition text_ok (t : text) : bool :=
  match t with
  | Plain v comment =>
      forallb (not_in [59; 35]) v && is_comment comment &&
      match drop_while isspace v with [] => false | c :: _ => not_in [34; 39] c end
  | Quoted q v rest =>
      ((q =? 34) || (q =? 39)) && forallb (not_in [q]) v && negb (bool_decide (v = [])) &&
      negb (bool_decide (strip v = [34; 34])) && negb (bool_decide (strip v = [39; 39]))
  | Nothing comment => is_comment comment
  end.

Definition item_ok (it : item) : bool :=
  match it with
  | Comment t => true
  | Section_ s => forallb (not_in [93]) s && negb (bool_decide (s = []))
  | Entry k t => match k with [] => false | c :: _ => negb (isspace c) && not_in [35; 91] c end && forallb (not_in [61]) k && text_ok t
  end.

(** A line fits into the buffer and is not continued. *)
Definition line_ok (it : item) : bool :=
  forallb (not_in [0; 10]) (render it) && (length (render it) <=? 1022)%nat && negb (bool_decide (last (trim_end (render it)) = Some 92)).

(** The names in the dictionary. *)
Definition status_of (it : item) : line_status :=
  match it with
  | Comment _ => LINE_COMMENT
  | Section_ s => LINE_SECTION (strlwc (strip s))
  | Entry k t => LINE_VALUE (strlwc (strip k)) (value_of_text t)
  end.

(** The assignments of a file, and those that fit into their buffer. *)
Fixpoint assignments (section : bytes) (items : list item) : list (bytes * option bytes) :=
  match items with
  | [] => []
  | Comment _ :: items => assignments section items
  | Section_ s :: items => let s := strlwc (strip s) in (s, None) :: assignments s items
  | Entry k t :: items => (section ++ [58] ++ strlwc (strip k), Some (value_of_text t)) :: assignments section items
  end.

Fixpoint last_of (k : bytes) (l : list (bytes * option bytes)) : option (option bytes) :=
  match l with
  | [] => None
  | (k', v) :: l => match last_of k l with Some v => Some v | None => if decide (k' = k) then Some v else None end
  end.

Definition file_ok (items : list item) : bool :=
  forallb (fun it => item_ok it && line_ok it) items &&
  forallb (fun a => length a.1 <=? ASCIILINESZ)%nat (assignments [] items).

(** ** Scanning a line *)
Lemma forallb_true_Forall f (s : bytes) : forallb f s = true -> Forall (fun c => f c = true) s.
Proof. intros H. apply Forall_forall. intros c Hc. rewrite forallb_forall in H. apply H. by apply list_elem_of_In. Qed.

Lemma sscanf_value k t rest :
  k <> [] -> forallb (not_in [61]) k = true -> sscanf (k ++ 61 :: t) (fmt_value rest) = k :: sscanf (drop_while isspace t) rest.
Proof.
  intros Hne Hk. unfold fmt_value. cbn [app sscanf]. apply forallb_true_Forall in Hk.
  destruct (take_while_app (fun c => negb (existsb (Z.eqb c) [61])) k (61 :: t) Hk eq_refl) as [-> ->]. destruct k as [|c k]; [done|].
  by rewrite drop_while_head.
Qed.

Lemma sscanf_until cs s u rest :
  s <> [] -> forallb (not_in cs) s = true -> (match u with [] => True | c :: _ => not_in cs c = false end) ->
  sscanf (s ++ u) (Until cs :: rest) = s :: sscanf u rest.
Proof.
  intros Hne Hs Hu. cbn [sscanf]. destruct (take_while_app (not_in cs) s u) as [E1 E2]; [by apply forallb_true_Forall|done|].
  change (fun c => negb (existsb (Z.eqb c) cs)) with (not_in cs). rewrite E1, E2. by destruct s.
Qed.

Lemma sscanf_until_none cs u rest : (match u with [] => True | c :: _ => not_in cs c = false end) -> sscanf u (Until cs :: rest) = [].
Proof.
  intros Hu. cbn [sscanf]. destruct u as [|c u]; cbn [take_while]; [done|]. unfold not_in in Hu. by rewrite Hu.
Qed.

Lemma trim_end_head c s : isspace c = false -> trim_end (c :: s) = c :: trim_end s.
Proof. exact (trim_end_app [] c s). Qed.

(** A comment that loses the blanks at its end. *)
Lemma trim_comment c : is_comment c = true -> is_comment (trim_end c) = true.
Proof.
  destruct c as [|x c]; [done|]. cbn [is_comment]. intros H. rewrite trim_end_head; [done|]. unfold isspace.
  apply orb_true_iff in H as [->%Z.eqb_eq| ->%Z.eqb_eq]; done.
Qed.

Lemma comment_stops c : is_comment c = true -> match c with [] => True | x :: _ => not_in [59; 35] x = false end.
Proof. destruct c as [|x c]; [done|]. cbn. unfold not_in. cbn. intros H. by rewrite orb_false_r, H. Qed.

Lemma drop_while_stop f s c u : drop_while f s = c :: u -> f c = false.
Proof. induction s as [|x s IH]; cbn; [done|]. destruct (f x) eqn:E; [done|]. by intros [= -> _]. Qed.

(** A value and its comment, without the blanks at the end of the line. *)
Lemma trim_plain v c :
  text_ok (Plain v c) = true ->
  exists v' c' h u, trim_end (v ++ c) = v' ++ c' /\ strip v' = strip v /\ is_comment c' = true /\
    drop_while isspace v' = h :: u /\ not_in [34; 39] h = true /\ forallb (not_in [59; 35]) (h :: u) = true.
Proof.
  cbn [text_ok]. rewrite !andb_true_iff. intros [[Hv Hc] Hh]. destruct (drop_while isspace v) as [|h u] eqn:Ed; [done|].
  assert (Hsuf : forall w x y, drop_while isspace w = x :: y -> forallb (not_in [59; 35]) w = true -> forallb (not_in [59; 35]) (x :: y) = true).
  { intros w x y E Hw. destruct (drop_while_suffix isspace w) as [p Ep]. rewrite Ep, E, forallb_app in Hw. by apply andb_true_iff in Hw as [_ ?]. }
  destruct c as [|x c].
  - rewrite app_nil_r. pose proof (strip_trim_end v) as Es. rewrite !strip_trim, Ed in Es.
    rewrite (trim_end_head h) in Es by (by eapply drop_while_stop).
    destruct (drop_while isspace (trim_end v)) as [|h' u'] eqn:Ed'; [done|]. rewrite trim_end_head in Es by (by eapply drop_while_stop).
    injection Es as -> _. exists (trim_end v), [], h, u'. rewrite app_nil_r, strip_trim_end. do 5 (split; [done|]).
    apply (Hsuf (trim_end v)); [done|]. destruct (trim_end_prefix v) as [p Ep]. rewrite Ep, forallb_app in Hv. by apply andb_true_iff in Hv as [? _].
  - exists v, (x :: trim_end c), h, u. split; [|split; [done|split; [done|split; [done|split; [done|by apply (Hsuf v)]]]]].
    apply trim_end_app. cbn in Hc. unfold isspace. by apply orb_true_iff in Hc as [->%Z.eqb_eq| ->%Z.eqb_eq].
Qed.

Lemma sscanf_quoted q v u : v <> [] -> forallb (not_in [q]) v = true -> sscanf (q :: v ++ q :: u) [Lit q; Until [q]; Lit q] = [v].
Proof.
  intros Hne Hv. change (sscanf (q :: v ++ q :: u) [Lit q; Until [q]; Lit q]) with
    (if q =? q then sscanf (v ++ q :: u) [Until [q]; Lit q] else []).
  rewrite Z.eqb_refl, sscanf_until; [|done|done|by unfold not_in; cbn; rewrite Z.eqb_refl]. cbn. by destruct (q =? q).
Qed.

Lemma sscanf_lit_other q c s fmt : (q =? c) = false -> sscanf (q :: s) (Lit c :: fmt) = [].
Proof. intros E. cbn. by rewrite E. Qed.

(** What the formats find in an entry. *)
Lemma scan_entry k t :
  k <> [] -> forallb (not_in [61]) k = true -> text_ok t = true ->
  let line := k ++ 61 :: trim_end (render_text t) in
  (exists v, scan2 line [fmt_dquoted; fmt_squoted; fmt_plain] = Some (k, v) /\ strip v = value_of_text t /\
     value_of_text t <> [34; 34] /\ value_of_text t <> [39; 39] /\ (length v <= length line)%nat) \/
  (exists v, scan2 line [fmt_dquoted; fmt_squoted; fmt_plain] = None /\ scan2 line [fmt_comment; fmt_nothing] = Some (k, v) /\
     value_of_text t = []).
Proof.
  intros Hne Hk Ht line. assert (Hscan : forall rest, sscanf line (fmt_value rest) = k :: sscanf (drop_while isspace (trim_end (render_text t))) rest).
  { intros rest. by apply sscanf_value. }
  cbn [scan2]. unfold fmt_dquoted, fmt_squoted, fmt_plain, fmt_comment. rewrite !Hscan. destruct t as [v c|q v rest|c]; cbn [render_text value_of_text] in *.
  - left. destruct (trim_plain v c Ht) as (v' & c' & h & u & Et & Es & Hc & Ed & Hh & Hu). rewrite Et in *.
    rewrite drop_while_app_some, Ed by (by rewrite Ed). exists (h :: u).
    assert (H34 : (h =? 34) = false /\ (h =? 39) = false) by (unfold not_in in Hh; cbn in Hh; destruct (h =? 34), (h =? 39); done).
    destruct H34 as [H34 H39]. rewrite (sscanf_until [59; 35] (h :: u) c' []); [|done|done|by apply comment_stops].
    cbn [app sscanf]. rewrite H34, H39. split; [done|].
    assert (Hst : strip (h :: u) = strip v) by (rewrite <- Ed, <- Es, !strip_trim; by rewrite drop_while_idemp). rewrite <- Hst.
    split; [done|]. rewrite strip_head by (by eapply drop_while_stop). split; [intros [= -> _]; done|]. split; [intros [= -> _]; done|].
    unfold line. rewrite Et. rewrite length_app. cbn [length]. rewrite length_app. pose proof (drop_while_length isspace v'). rewrite Ed in *. cbn in *. lia.
  - left. cbn [text_ok] in Ht. rewrite !andb_true_iff, !negb_true_iff, !bool_decide_eq_false in Ht. destruct Ht as [[[[Hq Hv] Hvn] H34] H39].
    assert (Hqb : isspace q = false) by (by apply orb_true_iff in Hq as [->%Z.eqb_eq| ->%Z.eqb_eq]).
    assert (Et : trim_end (q :: v ++ q :: rest) = q :: v ++ q :: trim_end rest).
    { rewrite trim_end_head by done. by rewrite trim_end_app. }
    assert (Hstop : not_in [q] q = false) by (unfold not_in; cbn; by rewrite Z.eqb_refl).
    exists v. rewrite Et, drop_while_head by done. split; [|split; [done|split; [done|split; [done|]]]].
    + apply orb_true_iff in Hq as [->%Z.eqb_eq| ->%Z.eqb_eq].
      * by rewrite sscanf_quoted.
      * by rewrite (sscanf_lit_other 39 34), sscanf_quoted.
    + unfold line. rewrite Et. rewrite length_app. cbn. rewrite length_app. lia.
  - right. cbn [text_ok] in Ht. pose proof (trim_comment c Ht) as Hc. destruct (trim_end c) as [|x c'] eqn:Ec.
    + exists [61]. cbn [drop_while app sscanf]. split; [done|]. split; [|done]. unfold line, fmt_nothing.
      pose proof (sscanf_until [61] k [61] [Blank; Only [61]] Hne Hk eq_refl) as ->. done.
    + cbn in Hc. assert (Hx : x = 59 \/ x = 35) by (apply orb_true_iff in Hc as [?%Z.eqb_eq|?%Z.eqb_eq]; auto).
      rewrite drop_while_head by (by destruct Hx as [-> | ->]). cbn [app].
      eexists. split; [by destruct Hx as [-> | ->]|]. split; [|done]. by destruct Hx as [-> | ->].
Qed.

(** ** A line and its meaning *)
Lemma iniparser_line_ok it section :
  item_ok it = true -> (length (render it) <= 1022)%nat -> iniparser_line (trim_end (render it)) section = Some (status_of it).
Proof.
  intros Hok Hlen. unfold iniparser_line. pose proof (trim_end_length (render it)) as Ht.
  rewrite strstrip_ok by (unfold ASCIILINESZ; lia). cbn [mbind option_bind]. rewrite strip_trim_end.
  destruct it as [t|s|k t]; cbn [render item_ok status_of] in *.
  - rewrite strip_head by done. done.
  - apply andb_true_iff in Hok as [Hs Hne]. apply negb_true_iff, bool_decide_eq_false in Hne.
    assert (strip (91 :: s ++ [93]) = 91 :: s ++ [93]) as ->.
    { rewrite strip_head by done. by rewrite (trim_end_app s 93 []). }
    assert (last (91 :: s ++ [93]) = Some 93) as -> by (by rewrite app_comm_cons, last_snoc). cbn [Z.eqb Pos.eqb andb].
    rewrite bool_decide_true by done. unfold fmt_section.
    change (sscanf (91 :: s ++ [93]) [Lit 91; Until [93]]) with (sscanf (s ++ [93]) [Until [93]]).
    rewrite sscanf_until by done. cbn [sscanf length] in *. rewrite length_app in Hlen. cbn [length] in Hlen.
    by rewrite strstrip_ok by (unfold ASCIILINESZ; lia).
  - destruct k as [|c k]; [done|]. rewrite !andb_true_iff, negb_true_iff in Hok. destruct Hok as [[[Hb Hc] Hk] Htx].
    assert (Es : strip ((c :: k) ++ 61 :: render_text t) = (c :: k) ++ 61 :: trim_end (render_text t)).
    { cbn [app]. rewrite strip_head by done. by rewrite trim_end_app. }
    rewrite Es. assert (Hl : (length ((c :: k) ++ 61%Z :: trim_end (render_text t)) <= 1022)%nat).
    { rewrite length_app in *. cbn [length] in *. pose proof (trim_end_length (render_text t)). lia. }
    unfold not_in in Hc. cbn in Hc. rewrite orb_false_r in Hc. apply negb_true_iff, orb_false_iff in Hc as [H35 H91].
    cbn [app]. rewrite H35, H91. cbn [andb]. rewrite !app_comm_cons.
    assert (Hkl : (length (c :: k) <= 1022)%nat) by (rewrite length_app in Hl; lia).
    destruct (scan_entry (c :: k) t ltac:(done) Hk Htx) as [(v & -> & Ev & H1 & H2 & Hv)|(v & -> & -> & Ev)].
    + rewrite !strstrip_ok by (unfold ASCIILINESZ; lia). cbn [mbind option_bind]. rewrite Ev.
      by rewrite !bool_decide_false.
    + rewrite !strstrip_ok by (unfold ASCIILINESZ; lia). cbn [mbind option_bind]. by rewrite Ev.
Qed.

Lemma render_nonblank it : item_ok it = true -> trim_end (render it) <> [].
Proof.
  destruct it as [t|s|k t]; cbn [render item_ok].
  - intros _. by rewrite trim_end_head.
  - intros _. by rewrite trim_end_head.
  - destruct k as [|c k]; [done|]. rewrite !andb_true_iff, negb_true_iff. intros [[[Hb _] _] _]. cbn [app]. by rewrite trim_end_head.
Qed.

(** ** The file *)
Lemma fgets_line room r rest :
  forallb (not_in [0; 10]) r = true -> (S (length r) <= room)%nat -> fgets_loop room (r ++ 10 :: rest) = (r ++ [10], rest).
Proof.
  revert room. induction r as [|c r IH]; intros [|room] Hr Hl; cbn [length] in Hl; [lia| |lia|].
  - done.
  - cbn [forallb] in Hr. apply andb_true_iff in Hr as [Hc Hr]. cbn [app fgets_loop].
    assert ((c =? 10) = false) as -> by (unfold not_in in Hc; cbn in Hc; by destruct (c =? 0), (c =? 10)).
    rewrite IH by (done || lia). done.
Qed.

Lemma c_str_id s : forallb (not_in [0]) s = true -> c_str s = s.
Proof.
  intros H. apply take_while_all. eapply Forall_impl; [by apply forallb_true_Forall|]. intros c Hc. unfold not_in in Hc. cbn in Hc.
  by rewrite orb_false_r in Hc.
Qed.

Lemma load_step fuel it rest section dict errs :
  item_ok it = true -> line_ok it = true ->
  load_loop (S fuel) (render it ++ 10 :: rest) [] section dict errs =
    match status_of it with
    | LINE_EMPTY | LINE_COMMENT => load_loop fuel rest [] section dict errs
    | LINE_SECTION s => d ← dictionary_set dict s None; load_loop fuel rest [] s d.1 d.2
    | LINE_VALUE k v =>
        if (ASCIILINESZ <? length section + 1 + length k)%nat then None
        else d ← dictionary_set dict (section ++ [58] ++ k) (Some v); load_loop fuel rest [] section d.1 d.2
    | LINE_ERROR => load_loop fuel rest [] section dict (errs + 1)
    end.
Proof.
  intros Hok Hl. unfold line_ok in Hl. rewrite !andb_true_iff, Nat.leb_le, negb_true_iff, bool_decide_eq_false in Hl. destruct Hl as [[H0 Hlen] Hb].
  cbn [load_loop length]. rewrite Nat.sub_0_r.
  assert (fgets ASCIILINESZ (render it ++ 10 :: rest) = Some (render it ++ [10], rest)) as ->.
  { unfold fgets. destruct (render it ++ 10 :: rest) as [|x l] eqn:E; [by destruct (render it)|]. rewrite <- E.
    rewrite fgets_line; [done|done|]. unfold ASCIILINESZ. lia. }
  cbn [app]. rewrite c_str_id.
  2: { rewrite forallb_app, andb_true_iff. split; [|done]. rewrite forallb_forall in *. intros x Hx. specialize (H0 x Hx).
       unfold not_in in *. cbn in *. by destruct (x =? 0). }
  rewrite last_snoc. cbn [mbind option_bind Z.eqb Pos.eqb negb]. rewrite trim_end_blank by done.
  pose proof (render_nonblank it Hok) as Hnb. destruct (last (trim_end (render it))) as [c|] eqn:El; [|by apply last_None in El].
  cbn [mbind option_bind]. destruct (Z.eqb_spec c 92) as [->|_]; [done|].
  rewrite iniparser_line_ok by done. done.
Qed.

Lemma load_items_loop items fuel section dict :
  dict_ok dict -> (length items < fuel)%nat ->
  forallb (fun it => item_ok it && line_ok it) items = true ->
  forallb (fun a => length a.1 <=? ASCIILINESZ)%nat (assignments section items) = true ->
  exists d, load_loop fuel (file_of items) [] section dict 0 = Some (Some d) /\ dict_ok d /\
    forall k, lookup_ d k = match last_of k (assignments section items) with Some v => Some v | None => lookup_ dict k end.
Proof.
  revert fuel section dict. induction items as [|it items IH]; intros [|fuel] section dict Hd Hf Hok Hsz; cbn [length] in Hf; try lia.
  - exists dict. done.
  - cbn [forallb] in Hok. rewrite !andb_true_iff in Hok. destruct Hok as [[Hi Hl] Hok].
    cbn [file_of flat_map]. rewrite <- app_assoc. cbn [app]. rewrite load_step by done. fold (file_of items).
    assert (Hstep : forall s a v, assignments section (it :: items) = (a, v) :: assignments s items ->
      exists d, (x ← dictionary_set dict a v; load_loop fuel (file_of items) [] s x.1 x.2) = Some (Some d) /\ dict_ok d /\
        forall k, lookup_ d k = match last_of k (assignments section (it :: items)) with Some v => Some v | None => lookup_ dict k end).
    { intros s a v E. rewrite E in *. cbn [forallb fst] in Hsz. apply andb_true_iff in Hsz as [_ Hsz].
      destruct (dictionary_set_ok dict a v Hd) as (d' & -> & Hd' & Hl'). cbn [mbind option_bind fst snd].
      destruct (IH fuel s d' Hd' ltac:(lia) Hok Hsz) as (d & -> & Hd2 & Hl2). exists d. split; [done|]. split; [done|].
      intros k. rewrite Hl2, Hl'. cbn [last_of]. destruct (last_of k (assignments s items)); [done|].
      by destruct (decide (k = a)) as [->|Hne]; [rewrite decide_True|rewrite decide_False by congruence]. }
    destruct it as [t|s|k t]; cbn [status_of assignments] in *.
    + by apply IH; [|lia|..].
    + by apply Hstep.
    + destruct (Nat.ltb_spec ASCIILINESZ (length section + 1 + length (strlwc (strip k)))) as [H|_]; [|by apply Hstep].
      cbn [forallb fst] in Hsz. apply andb_true_iff in Hsz as [Hsz%Nat.leb_le _]. rewrite !length_app in Hsz. cbn [length] in Hsz. lia.
Qed.

Lemma file_of_length items : (length items <= length (file_of items))%nat.
Proof. unfold file_of. induction items as [|it items IH]; cbn; [done|]. rewrite !length_app. cbn. lia. Qed.

(** C22: loading a configuration file of comments, sections and assignments, plain,
    quoted or empty, that fit into the buffers.  Every question is answered
    with the value assigned last under the name, in lower case; a section is a
    name without a value. *)
Theorem iniparser_load_correct items :
  file_ok items = true ->
  exists d, iniparser_load (Some (file_of items)) = Some (Some d) /\ dict_ok d /\
    forall k def, iniparser_getstring d k def =
      match last_of (strlwc k) (assignments [] items) with Some v => to_ptr v | None => def end.
Proof.
  intros [Hok Hsz]%andb_true_iff. destruct (dictionary_new_ok 0) as [Hn Hl]. pose proof (file_of_length items).
  destruct (load_items_loop items (S (length (file_of items))) [] (dictionary_new 0) Hn ltac:(lia) Hok Hsz) as (d & E & Hd & Hlk).
  exists d. split; [done|]. split; [done|]. intros k def. unfold iniparser_getstring. rewrite dictionary_get_lookup, Hlk, Hl by done.
  by destruct (last_of (strlwc k) (assignments [] items)).
Qed.

(** An example. *)
Definition sample_items : list item :=
  [Section_ [109; 115]; Comment [32; 120]; Entry [65; 32] (Plain [32; 49; 32] [59; 32; 120]);
   Entry [98] (Quoted 34 [59; 32] [35]); Entry [97] (Nothing []); Entry [97] (Plain [50] [])].

Lemma iniparser_load_correct_witness :
  exists d, iniparser_load (Some (file_of sample_items)) = Some (Some d) /\ dict_ok d /\
    forall k def, iniparser_getstring d k def =
      match last_of (strlwc k) (assignments [] sample_items) with Some v => to_ptr v | None => def end.
Proof. apply (iniparser_load_correct sample_items). by vm_compute. Defined.
End Ini.
