(* ===== verification/Corpus.v ===== *)
(** The corpus of a dictionary, [deps/tokenizer/src/UnigramCorpusReader.cpp],
    and its way into a file and back, [UnigramDict::import], [save] and [load].

    A file is its octets, or none.  [None] as a result is an access out of
    bounds, or a sort whose comparison is no order. *)
From Stdlib Require Ascii String.
Import String.StringSyntax.
From S2P Require Import Prelude Double IniParser Darts DartsBuild.

(** ** The C++ library *)

(** [std::getline], as far as it goes. *)
Fixpoint getlines (s : bytes) : list bytes :=
  match s with
  | [] => []
  | c :: s => if c =? 10 then [] :: getlines s else match getlines s with [] => [[c]] | l :: ls => (c :: l) :: ls end
  end.

(** [strtol] to the base 10. *)
Definition is_digit (c : Z) : bool := (48 <=? c) && (c <=? 57).
Definition strtol10 (s : bytes) : Z :=
  let s := Ini.drop_while Ini.isspace s in
  let '(neg, s) :=
    match s with c :: s' => if c =? 45 then (true, s') else if c =? 43 then (false, s') else (false, s) | [] => (false, s) end in
  let v := fold_left (fun v c => 10 * v + (c - 48)) (Ini.take_while is_digit s) 0 in
  if neg then Z.max (- v) (- 2 ^ 63) else Z.min v (2 ^ 63 - 1).

Definition csr_atoi (nptr : bytes) : Z := i32 (strtol10 (Ini.c_str nptr)).

(** [substr] from a position, and up to one. *)
Definition find_char (c : Z) (s : bytes) : option nat :=
  let p := Ini.take_while (fun x => negb (x =? c)) s in
  if (length p =? length s)%nat then None else Some (length p).

(** [std::sort] asks for a strict order; of elements that have one there is one
    sorted sequence.  The comparison may read out of bounds. *)
Section Sort.
Context {A : Type} (Cmp : A -> A -> option bool).

Definition strict (a b : A) : bool :=
  match Cmp a b, Cmp b a with Some x, Some y => negb (x && y) | _, _ => false end.

Fixpoint comparable (l : list A) : bool :=
  match l with [] => true | a :: l => forallb (strict a) l && comparable l end.

Fixpoint put_sorted (a : A) (l : list A) : list A :=
  match l with
  | [] => [a]
  | b :: l' => match Cmp a b with Some true => a :: l | _ => b :: put_sorted a l' end
  end.

Definition std_sort (l : list A) : option (list A) := if comparable l then Some (foldr put_sorted [] l) else None.
End Sort.

(** ** [Utf8_Iter] *)
Module Utf8_Iter.
Inductive eState := eStart | e2Bytes_Byte2 | e3Bytes_Byte2 | e3Bytes_Byte3.

Definition swap (c : Z) : Z := Z.lor (Z.shiftl (Z.land c 255) 8) (Z.shiftr c 8).
Definition toStart (big_endian : bool) (cur : Z) : eState * Z := (eStart, if big_endian then swap cur else cur).

(** [operator++], of an octet. *)
Definition next (big_endian : bool) (state : eState) (cur c : Z) : eState * Z :=
  match state with
  | eStart =>
      if Z.land 224 c =? 224 then (e3Bytes_Byte2, u16 (Z.shiftl (Z.land 31 c) 12))
      else if Z.land 192 c =? 192 then (e2Bytes_Byte2, u16 (Z.shiftl (Z.land 63 c) 6))
      else toStart big_endian c
  | e2Bytes_Byte2 => toStart big_endian (Z.lor cur (Z.land 63 c))
  | e3Bytes_Byte2 => (e3Bytes_Byte3, Z.lor cur (u16 (Z.shiftl (Z.land 63 c) 6)))
  | e3Bytes_Byte3 => toStart big_endian (Z.lor cur (Z.land 63 c))
  end.

(** What [get] gives, at the positions where [canGet]; the terminating zero is
    read and not used. *)
Fixpoint each (big_endian : bool) (state : eState) (cur : Z) (s : bytes) : list Z :=
  match s with
  | [] => []
  | c :: s =>
      let '(state, cur) := next big_endian state cur c in
      match state with eStart => cur :: each big_endian state cur s | _ => each big_endian state cur s end
  end.
End Utf8_Iter.

(** ** [UnigramCorpusReader] *)
Record UnigramRecord := mkRecord { key : bytes; wkey : list Z; count : Z }.

Module UnigramCorpusReader.

(** The buffer of the conversion has a place per octet and one more. *)
Definition wide (key : bytes) : option (list Z) :=
  let buf := Utf8_Iter.each false Utf8_Iter.eStart 0 key in
  if (length key + 1 <? length buf + 1)%nat then None else Some (Ini.c_str buf).

Definition record (key : bytes) (count : Z) : option UnigramRecord := w ← wide key; Some (mkRecord key w count).

Definition getAt (m_items : list UnigramRecord) (idx : Z) : option UnigramRecord :=
  if (0 <=? idx) && (idx <? Z.of_nat (length m_items)) then m_items !! Z.to_nat idx else None.

(** The index is a [char]. *)
Definition char_at (s : bytes) (i : Z) : option Z :=
  if i <? 0 then None else if Z.of_nat (length s) =? i then Some 0 else c ← s !! Z.to_nat i; Some (u8 c).

Fixpoint Cmp_loop (fuel : nat) (p1 p2 : bytes) (i : Z) : option bool :=
  match fuel with
  | O => None
  | S fuel =>
      pu1 ← char_at p1 i; pu2 ← char_at p2 i;
      if pu1 =? pu2 then if pu1 =? 0 then Some true else Cmp_loop fuel p1 p2 (Ini.i8 (i + 1)) else Some (pu1 <? pu2)
  end.

(** After 128 steps the index is negative. *)
Definition Cmp (p1 p2 : UnigramRecord) : option bool := Cmp_loop 129 (key p1) (key p2) 0.

(** A record per line, or per line of a pair. *)
Fixpoint plain_lines (ls : list bytes) (m_items : list UnigramRecord) : option (list UnigramRecord) :=
  match ls with
  | [] => Some m_items
  | line :: ls => ur ← record line 1; plain_lines ls (m_items ++ [ur])
  end.

Definition parse_line (line : bytes) : option UnigramRecord :=
  let spos := find_char 9 line in
  let kCnt := match spos with Some spos => drop (spos + 1) line | None => line end in
  record (match spos with Some spos => take spos line | None => line end) (csr_atoi kCnt).

Fixpoint pair_lines (ls : list bytes) (n : nat) (m_items : list UnigramRecord) : option (list UnigramRecord) :=
  match ls with
  | [] => Some m_items
  | line :: ls =>
      if negb (n mod 2 =? 0)%nat then pair_lines ls (n + 1) m_items
      else ur ← parse_line line; pair_lines ls (n + 1) (m_items ++ [ur])
  end.

Definition is_plain (type : option bytes) : bool :=
  match type with Some t => starts_with (Ini.text_of "plain") t | None => false end.

Definition open (m_items : list UnigramRecord) (filename : option bytes) (type : option bytes) :
    option (list UnigramRecord * Z) :=
  match filename with
  | None => Some (m_items, -1)
  | Some text =>
      m_items ← (if is_plain type then plain_lines (getlines text) m_items else pair_lines (getlines text) 0 m_items);
      m_items ← std_sort Cmp m_items;
      Some (m_items, 0)
  end.
End UnigramCorpusReader.

(** ** [UnigramDict] *)

(** The loop over the reader; a key is the pointer to its characters. *)
Fixpoint import_loop (fuel : nat) (ur : list UnigramRecord) (i : Z) (items : list (bytes * Z)) : list (bytes * Z) :=
  match fuel with
  | O => items
  | S fuel =>
      let items :=
        match UnigramCorpusReader.getAt ur i with
        | Some rec => items ++ [(Ini.c_str (key rec), count rec)]
        | None => items
        end in
      import_loop fuel ur (i + 1) items
  end.

Definition UnigramDict_import (ur : list UnigramRecord) : option (builder * Z) := import (import_loop (length ur) ur 0 []).

Definition unit_bytes (u : unit_t) : bytes := le_bytes 4 (u32 (base u)) ++ le_bytes 4 (check u).

(** What [save] writes, if anything. *)
Definition DoubleArray_save (st : builder) : Z * option bytes :=
  if size_ st =? 0 then (-1, None) else (0, Some (flat_map unit_bytes (saved st))).

Definition UnigramDict_save (st : builder) : Z * option bytes := (0, (DoubleArray_save st).2).

Example read_corpus :
  (fun r => (map (fun u => (key u, wkey u, count u)) r.1, r.2)) <$>
    UnigramCorpusReader.open [] (Some (Ini.text_of "b" ++ [9] ++ Ini.text_of "12" ++ [10] ++ Ini.text_of "x:1" ++ [10; 228; 184; 173; 97; 9; 51; 10])) None =
  Some ([([98], [98], 12); ([228; 184; 173; 97], [20013; 97], 3)], 0).
Proof. by vm_compute. Qed.

(** Two lines with the same word: the comparison says that each is before the other. *)
Example same_word_twice : UnigramCorpusReader.open [] (Some (Ini.text_of "b" ++ [10; 10] ++ Ini.text_of "b")) None = None.
Proof. by vm_compute. Qed.

(** ** Reading lines *)
Lemma getlines_file ls : Forall (fun l => Forall (fun c => c <> 10) l) ls -> getlines (flat_map (fun l => l ++ [10]) ls) = ls.
Proof.
  induction 1 as [|l ls Hl _ IH]; cbn [flat_map]; [done|]. rewrite <- app_assoc. cbn [app].
  induction Hl as [|c l Hc _ IHl]; cbn [app getlines]; [by rewrite Z.eqb_refl, IH|].
  destruct (Z.eqb_spec c 10); [done|]. by rewrite IHl.
Qed.

(** The word and the number of a line, and the lines of a file that count. *)
Definition entry_of (line : bytes) : bytes * Z :=
  let word := Ini.take_while (fun c => negb (c =? 9)) line in
  (word, csr_atoi (if (length word =? length line)%nat then line else drop (S (length word)) line)).

Fixpoint entries (ls : list bytes) : list (bytes * Z) :=
  match ls with
  | [] => []
  | [l] => [entry_of l]
  | l :: _ :: ls => entry_of l :: entries ls
  end.

Lemma take_while_take f s : take (length (Ini.take_while f s)) s = Ini.take_while f s.
Proof. induction s as [|c s IH]; cbn; [done|]. destruct (f c); cbn; [by rewrite IH|done]. Qed.

Lemma take_while_full f s : length (Ini.take_while f s) = length s -> Ini.take_while f s = s.
Proof. intros E. by rewrite <- (take_while_take f s), E, firstn_all. Qed.

(** *** The wide characters *)
Lemma each_length big st cur s : (length (Utf8_Iter.each big st cur s) <= length s)%nat.
Proof.
  revert st cur. induction s as [|c s IH]; intros st cur; cbn [Utf8_Iter.each length]; [done|].
  destruct (Utf8_Iter.next big st cur c) as [st' cur']. specialize (IH st' cur'). destruct st'; cbn [length]; lia.
Qed.

Definition wide_of (key : bytes) : list Z := Ini.c_str (Utf8_Iter.each false Utf8_Iter.eStart 0 key).

Lemma wide_total key : UnigramCorpusReader.wide key = Some (wide_of key).
Proof.
  unfold UnigramCorpusReader.wide. pose proof (each_length false Utf8_Iter.eStart 0 key).
  by destruct (Nat.ltb_spec (length key + 1) (length (Utf8_Iter.each false Utf8_Iter.eStart 0 key) + 1)); [lia|].
Qed.

Definition record_of (e : bytes * Z) : UnigramRecord := mkRecord e.1 (wide_of e.1) e.2.

Lemma parse_line_spec line : UnigramCorpusReader.parse_line line = Some (record_of (entry_of line)).
Proof.
  unfold UnigramCorpusReader.parse_line, UnigramCorpusReader.record, find_char, entry_of.
  set (w := Ini.take_while (fun x => negb (x =? 9)) line). destruct (Nat.eqb_spec (length w) (length line)) as [E|E].
  - rewrite wide_total. cbn [mbind option_bind]. unfold w in *. by rewrite (take_while_full _ line E).
  - rewrite wide_total. cbn [mbind option_bind]. unfold w at 1 2 4. rewrite take_while_take. by rewrite Nat.add_1_r.
Qed.

Lemma pair_lines_spec ls m acc :
  (m mod 2 = 0)%nat -> UnigramCorpusReader.pair_lines ls m acc = Some (acc ++ map record_of (entries ls)).
Proof.
  remember (length ls) as k eqn:Ek. assert (Hk : (length ls <= k)%nat) by lia. clear Ek. revert ls m acc Hk.
  induction k as [|k IH]; intros ls m acc Hk Hm.
  - destruct ls; [cbn; by rewrite app_nil_r|cbn in Hk; lia].
  - assert (Hm1 : ((m + 1) mod 2 =? 0)%nat = false).
    { apply Nat.eqb_neq. rewrite Nat.Div0.add_mod, Hm. done. }
    assert (Hm2 : ((m + 1 + 1) mod 2 = 0)%nat).
    { rewrite <- Nat.add_assoc, Nat.Div0.add_mod, Hm. done. }
    destruct ls as [|l [|x ls]]; cbn [UnigramCorpusReader.pair_lines entries map].
    + by rewrite app_nil_r.
    + rewrite Hm. cbn [Nat.eqb negb]. by rewrite parse_line_spec.
    + rewrite Hm. cbn [Nat.eqb negb]. rewrite (parse_line_spec l). cbn [mbind option_bind]. rewrite Hm1. cbn [negb].
      rewrite IH; [|cbn in Hk; lia|done]. by rewrite <- app_assoc.
Qed.

(** ** Sorting *)

(** A word that the comparison can handle: 127 octets, none of them zero. *)
Definition key_ok (k : bytes) : Prop := Forall (fun c => 0 < c < 256) k /\ (length k <= 127)%nat.

Lemma i8_next i : 0 <= i < 127 -> Ini.i8 (i + 1) = i + 1.
Proof. intros Hi. unfold Ini.i8. rewrite u8_id by lia. by destruct (Z.ltb_spec (i + 1) 128); [|lia]. Qed.

Lemma char_at_app p s : Forall (fun c => 0 < c < 256) s ->
  UnigramCorpusReader.char_at (p ++ s) (Z.of_nat (length p)) = Some (match s with [] => 0 | c :: _ => c end).
Proof.
  intros Hs. unfold UnigramCorpusReader.char_at. destruct (Z.ltb_spec (Z.of_nat (length p)) 0); [lia|]. rewrite length_app.
  destruct s as [|c s]; cbn [length].
  - rewrite Nat.add_0_r, Z.eqb_refl. done.
  - destruct (Z.eqb_spec (Z.of_nat (length p + S (length s))) (Z.of_nat (length p))); [lia|].
    rewrite Nat2Z.id, lookup_app_r, Nat.sub_diag by lia. cbn. apply Forall_cons in Hs as [Hc _]. by rewrite u8_id by lia.
Qed.

Lemma Cmp_loop_spec fuel p a b :
  Forall (fun c => 0 < c < 256) a -> Forall (fun c => 0 < c < 256) b -> (length p + length a <= 127)%nat -> (length p + length b <= 127)%nat ->
  (length a < fuel)%nat ->
  UnigramCorpusReader.Cmp_loop fuel (p ++ a) (p ++ b) (Z.of_nat (length p)) = Some (match bytes_cmp a b with Gt => false | _ => true end).
Proof.
  revert p a b. induction fuel as [|fuel IH]; intros p a b Ha Hb Hla Hlb Hf; [lia|]. cbn [UnigramCorpusReader.Cmp_loop].
  rewrite !char_at_app by done. cbn [mbind option_bind]. destruct a as [|x a], b as [|y b]; cbn [bytes_cmp].
  - done.
  - apply Forall_cons in Hb as [Hy _]. destruct (Z.eqb_spec 0 y); [lia|]. destruct (Z.ltb_spec 0 y); [done|lia].
  - apply Forall_cons in Ha as [Hx _]. destruct (Z.eqb_spec x 0); [lia|]. destruct (Z.ltb_spec x 0); [lia|done].
  - apply Forall_cons in Ha as [Hx Ha], Hb as [Hy Hb]. cbn [length] in *. destruct (Z.eqb_spec x y) as [->|Hne].
    + destruct (Z.eqb_spec y 0); [lia|]. rewrite i8_next by lia. rewrite Z.compare_refl.
      specialize (IH (p ++ [y]) a b Ha Hb). rewrite <- !app_assoc in IH. cbn [app] in IH. rewrite length_app in IH. cbn [length] in IH.
      replace (Z.of_nat (length p) + 1) with (Z.of_nat (length p + 1)) by lia. apply IH; lia.
    + destruct (Z.compare_spec x y); [done|by destruct (Z.ltb_spec x y); [|lia]|by destruct (Z.ltb_spec x y); [lia|]].
Qed.

Lemma Cmp_spec a b : key_ok (key a) -> key_ok (key b) ->
  UnigramCorpusReader.Cmp a b = Some (match bytes_cmp (key a) (key b) with Gt => false | _ => true end).
Proof. intros [Ha Hla] [Hb Hlb]. apply (Cmp_loop_spec 129 [] (key a) (key b)); cbn; done || lia. Qed.

Lemma sorted_lookup {A} (R : A -> A -> Prop) l i j x y :
  StronglySorted R l -> l !! i = Some x -> l !! j = Some y -> (i < j)%nat -> R x y.
Proof.
  intros Hs. revert i j. induction Hs as [|a l Hs IH Ha]; intros [|i] [|j] Hi Hj Hij; try (done || lia); cbn in Hi, Hj.
  - injection Hi as ->. rewrite Forall_forall in Ha. apply Ha. by eapply list_elem_of_lookup_2.
  - apply (IH i j); [done|done|lia].
Qed.

(** A comparison of strings, on elements where it is defined. *)
Section SortStrings.
Context {A : Type} (Cmp : A -> A -> option bool) (str : A -> bytes) (ok : A -> Prop).
Context (HCmp : forall a b, ok a -> ok b -> Cmp a b = Some (match bytes_cmp (str a) (str b) with Gt => false | _ => true end)).

Lemma comparable_ok l : Forall ok l -> NoDup (map str l) -> comparable Cmp l = true.
Proof.
  induction 1 as [|a l Ha Hl IH]; intros Hnd; cbn [comparable]; [done|].
  cbn [map] in Hnd. apply NoDup_cons in Hnd as [Hni Hnd]. rewrite IH, andb_true_r by done. apply forallb_forall.
  intros b Hb%list_elem_of_In. rewrite Forall_forall in Hl. unfold strict. rewrite !HCmp by auto.
  rewrite (bytes_cmp_opp (str a) (str b)). destruct (bytes_cmp (str a) (str b)) eqn:E; cbn; [|done|done].
  apply bytes_cmp_eq in E. destruct Hni. rewrite E. by apply list_elem_of_fmap_2.
Qed.

Definition str_lt (a b : A) : Prop := bytes_cmp (str a) (str b) = Lt.

Lemma put_sorted_perm a l : put_sorted Cmp a l ≡ₚ a :: l.
Proof.
  induction l as [|b l IH]; cbn [put_sorted]; [done|]. destruct (Cmp a b) as [[|]|]; [done|..]; rewrite IH; apply perm_swap.
Qed.

Lemma put_sorted_ok a l :
  Forall ok (a :: l) -> str a ∉ map str l -> StronglySorted str_lt l -> StronglySorted str_lt (put_sorted Cmp a l).
Proof.
  intros [Ha Hl]%Forall_cons Hni Hs. induction Hs as [|b l Hs IH Hb]; cbn [put_sorted]; [repeat constructor|].
  apply Forall_cons in Hl as [Hkb Hl]. cbn [map] in Hni. apply not_elem_of_cons in Hni as [Hne Hni]. rewrite HCmp by done.
  destruct (bytes_cmp (str a) (str b)) eqn:E.
  - by apply bytes_cmp_eq in E.
  - constructor; [by constructor|]. constructor; [done|]. eapply Forall_impl; [exact Hb|]. intros c Hc. by eapply bytes_cmp_lt_trans.
  - constructor; [by apply IH|]. rewrite put_sorted_perm. constructor; [|done]. unfold str_lt. rewrite bytes_cmp_opp, E. done.
Qed.

Lemma sort_ok l :
  Forall ok l -> NoDup (map str l) -> exists l', std_sort Cmp l = Some l' /\ l' ≡ₚ l /\ StronglySorted str_lt l'.
Proof.
  intros Hl Hnd. unfold std_sort. rewrite comparable_ok by done. eexists. split; [done|].
  induction Hl as [|a l Ha Hl IH]; cbn [foldr]; [split; [done|constructor]|]. cbn [map] in Hnd. apply NoDup_cons in Hnd as [Hni Hnd].
  destruct (IH Hnd) as [Hp Hs]. split; [rewrite put_sorted_perm; by rewrite Hp|]. apply put_sorted_ok; [|by rewrite Hp|done].
  constructor; [done|]. by rewrite Hp.
Qed.

Lemma str_sorted_keys l : StronglySorted str_lt l -> sorted_keys (map str l).
Proof.
  intros Hs i j k1 k2 Hij H1 H2. apply list_lookup_fmap_Some in H1 as (r1 & -> & H1), H2 as (r2 & -> & H2).
  intros E. pose proof (sorted_lookup str_lt l i j r1 r2 Hs H1 H2 Hij) as Hlt. unfold str_lt in Hlt. congruence.
Qed.
End SortStrings.

(** ** Importing *)
Lemma c_str_key k : Forall (fun c => 0 < c < 256) k -> Ini.c_str k = k.
Proof. intros H. apply Ini.take_while_all. eapply Forall_impl; [exact H|]. intros c Hc. cbn in Hc |- *. by destruct (Z.eqb_spec c 0); [lia|]. Qed.

Definition item_of (r : UnigramRecord) : bytes * Z := (Ini.c_str (key r), count r).

Lemma import_loop_spec pre ur items :
  import_loop (length ur) (pre ++ ur) (Z.of_nat (length pre)) items = items ++ map item_of ur.
Proof.
  revert pre items. induction ur as [|r ur IH]; intros pre items; cbn [length import_loop map]; [by rewrite app_nil_r|].
  assert (UnigramCorpusReader.getAt (pre ++ r :: ur) (Z.of_nat (length pre)) = Some r) as ->.
  { unfold UnigramCorpusReader.getAt. rewrite length_app. cbn [length].
    destruct (Z.leb_spec 0 (Z.of_nat (length pre))); [|lia]. destruct (Z.ltb_spec (Z.of_nat (length pre)) (Z.of_nat (length pre + S (length ur)))); [|lia].
    cbn [andb]. by rewrite Nat2Z.id, list_lookup_middle. }
  specialize (IH (pre ++ [r])). rewrite <- app_assoc in IH. cbn [app] in IH. rewrite length_app in IH. cbn [length] in IH.
  replace (Z.of_nat (length pre) + 1) with (Z.of_nat (length pre + 1)) by lia. rewrite IH, <- app_assoc. done.
Qed.

(** *** What does not depend on the order *)
Lemma assoc_perm key l l' : NoDup (map fst l) -> l ≡ₚ l' -> assoc key l = assoc key l'.
Proof.
  intros Hnd Hp. induction Hp as [|[k v] l l' Hp IH|[k v] [k' v'] l|l l1 l2 H1 IH1 H2 IH2]; cbn [assoc map] in *; [done|..].
  - apply NoDup_cons in Hnd as [_ Hnd]. by rewrite IH.
  - apply NoDup_cons in Hnd as [Hni _]. apply not_elem_of_cons in Hni as [Hne _]. cbn [fst] in Hne.
    destruct (decide (k = key)), (decide (k' = key)); congruence.
  - rewrite IH1 by done. apply IH2. by rewrite <- H1.
Qed.

Definition sum_sizes (keys : list bytes) : Z := foldr (fun k s => Z.of_nat (length k) + 1 + s) 0 keys.

Lemma weight_sum pre ks : weight (pre ++ ks) 0 (length pre) (length ks) = sum_sizes ks.
Proof.
  revert pre. induction ks as [|k ks IH]; intros pre; cbn [length weight sum_sizes foldr]; [done|].
  rewrite list_lookup_middle by done. specialize (IH (pre ++ [k])). rewrite <- app_assoc, length_app in IH. cbn [app length] in IH.
  rewrite Nat.add_1_r in IH. rewrite IH. unfold sum_sizes. lia.
Qed.

Lemma total_sum keys : total keys = sum_sizes keys.
Proof. unfold total, W. rewrite Nat.sub_0_r. exact (weight_sum [] keys). Qed.

Lemma fits_perm keys keys' : keys ≡ₚ keys' -> fits keys = fits keys'.
Proof.
  intros Hp. unfold fits. rewrite !total_sum. assert (sum_sizes keys = sum_sizes keys') as ->.
  { unfold sum_sizes. induction Hp; cbn; lia. }
  assert (key_size_ keys = key_size_ keys') as -> by (unfold key_size_; by rewrite Hp). f_equal. f_equal. f_equal.
  apply eq_true_iff_eq. rewrite !forallb_forall. split; intros H k Hk; apply H; apply list_elem_of_In; apply list_elem_of_In in Hk; [by rewrite Hp|by rewrite <- Hp].
Qed.

(** ** A file and back *)
Lemma read_unit_bytes u s : unit_wf u ->
  read_i32 (unit_bytes u ++ s) = base u /\ read_u32 (drop 4 (unit_bytes u ++ s)) = check u /\ drop 8 (unit_bytes u ++ s) = s.
Proof.
  intros [Hb Hc]. unfold unit_bytes, read_i32, read_u32. rewrite <- app_assoc.
  assert (H4 : forall z, length (le_bytes 4 z) = 4%nat) by (intros z; apply length_le_bytes).
  pose proof (u32_range (base u)) as Hu. unfold is_u32 in *. split; [|split].
  - rewrite take_app_length' by done. rewrite le_val_le_bytes_small by (cbn; lia).
    unfold i32. rewrite (u32_id (u32 (base u))) by exact Hu. fold (i32 (base u)). by apply i32_id.
  - rewrite drop_app_length' by done. rewrite take_app_length' by done. apply le_val_le_bytes_small. cbn. lia.
  - rewrite app_assoc. apply drop_app_length'. by rewrite length_app, !H4.
Qed.

Lemma read_units_save us : Forall unit_wf us -> read_units (length us) (flat_map unit_bytes us) = us.
Proof.
  induction 1 as [|u us Hu _ IH]; cbn [length flat_map read_units]; [done|].
  destruct (read_unit_bytes u (flat_map unit_bytes us) Hu) as (-> & -> & ->). rewrite IH. by destruct u.
Qed.

Lemma length_units us : length (flat_map unit_bytes us) = (8 * length us)%nat.
Proof.
  induction us as [|u us IH]; cbn [flat_map]; [done|]. rewrite length_app, IH. unfold unit_bytes. rewrite length_app, !length_le_bytes.
  cbn [length]. lia.
Qed.

Lemma open_save us : Forall unit_wf us -> open (Some (flat_map unit_bytes us)) = (0, Some us).
Proof. intros H. unfold open. rewrite length_units, Nat.mul_comm, Nat.div_mul by done. by rewrite read_units_save. Qed.

(** ** From the corpus to the dictionary *)
Definition key_okb (k : bytes) : bool := forallb (fun c => (0 <? c) && (c <? 256)) k && (length k <=? 127)%nat.

Lemma key_okb_spec k : key_okb k = true -> key_ok k.
Proof.
  unfold key_okb. rewrite andb_true_iff, forallb_forall, Nat.leb_le. intros [H Hl]. split; [|done]. apply Forall_forall.
  intros c Hc%list_elem_of_In. specialize (H c Hc). apply andb_true_iff in H as [?%Z.ltb_lt ?%Z.ltb_lt]. done.
Qed.

(** Words of 1 to 255 that occur once, frequencies of 31 bits, and enough and
    not too many words. *)
Definition corpus_ok (es : list (bytes * Z)) : bool :=
  forallb (fun e => key_okb e.1 && (0 <=? e.2) && (e.2 <? 2 ^ 31)) es && bool_decide (NoDup (map fst es)) && fits (map fst es).

Lemma map_record_key es : map key (map record_of es) = map fst es.
Proof. rewrite map_map. done. Qed.

(** The records of a corpus, and the words that are imported. *)
Lemma open_corpus text :
  corpus_ok (entries (getlines text)) = true ->
  exists ur, UnigramCorpusReader.open [] (Some text) None = Some (ur, 0) /\
    map item_of ur ≡ₚ entries (getlines text) /\ sorted_keys (map fst (map item_of ur)).
Proof.
  intros H. unfold corpus_ok in H. rewrite !andb_true_iff, bool_decide_eq_true in H. destruct H as [[He Hnd] _].
  set (es := entries (getlines text)) in *.
  assert (Hk : Forall (fun r => key_ok (key r)) (map record_of es)).
  { apply Forall_forall. intros r (e & -> & Hin)%list_elem_of_fmap. rewrite forallb_forall in He. apply list_elem_of_In in Hin.
    specialize (He e Hin). rewrite !andb_true_iff in He. destruct He as [[? _] _]. by apply key_okb_spec. }
  destruct (sort_ok _ key _ Cmp_spec (map record_of es) Hk) as (ur & Esort & Hp & Hs); [by rewrite map_record_key|].
  assert (Hur : Forall (fun r => key_ok (key r)) ur) by (by rewrite Hp).
  exists ur. split; [|split].
  - unfold UnigramCorpusReader.open. cbn [UnigramCorpusReader.is_plain]. rewrite pair_lines_spec by done. cbn [mbind option_bind app].
    fold es. by rewrite Esort.
  - rewrite Hp, map_map. apply reflexive_eq. transitivity (map id es); [|apply map_id]. apply map_ext_in. intros [k v] Hin.
    rewrite forallb_forall in He. specialize (He _ Hin). rewrite !andb_true_iff in He. destruct He as [[Hkey _] _].
    unfold item_of. cbn. f_equal. by apply c_str_key, key_okb_spec.
  - rewrite map_map. replace (map (fun r => (item_of r).1) ur) with (map key ur); [by apply str_sorted_keys|].
    apply map_ext_in. intros r Hr%list_elem_of_In. rewrite Forall_forall in Hur. destruct (Hur r Hr) as [K _]. cbn. by rewrite c_str_key.
Qed.

(** What a corpus becomes, and that only beginnings of words are walked. *)
Lemma dictionary_made text :
  corpus_ok (entries (getlines text)) = true ->
  exists ur st a, UnigramCorpusReader.open [] (Some text) None = Some (ur, 0) /\ UnigramDict_import ur = Some (st, 0) /\
    UnigramDict.load (UnigramDict_save st).2 = (0, Some a) /\ array_ok a = true /\
    forall key, wf_bytes key -> value_of a key = assoc key (entries (getlines text)) /\
      (forall b, walk a key = Some b -> exists t, key ++ t ∈ map fst (entries (getlines text))).
Proof.
  intros H. destruct (open_corpus text H) as (ur & Eopen & Hp & Hs). unfold corpus_ok in H. rewrite !andb_true_iff, bool_decide_eq_true in H.
  destruct H as [[He Hnd] Hf]. set (es := entries (getlines text)) in *.
  assert (Hes : Forall (fun e => key_ok e.1 /\ 0 <= e.2 < 2 ^ 31) (map item_of ur)).
  { rewrite Hp. apply Forall_forall. intros e Hin%list_elem_of_In. rewrite forallb_forall in He. specialize (He e Hin).
    rewrite !andb_true_iff, Z.leb_le, Z.ltb_lt in He. destruct He as [[? ?] ?]. split; [by apply key_okb_spec|lia]. }
  destruct (import_ok (map item_of ur)) as (st & Ei & Hok & Hval); [done|..].
  - rewrite Forall_map. eapply Forall_impl; [exact Hes|]. by intros e [[? _] _].
  - rewrite Forall_map. eapply Forall_impl; [exact Hes|]. by intros e [_ ?].
  - rewrite (fits_perm _ (map fst es)); [done|]. by rewrite Hp.
  - exists ur, st, (saved st). split; [done|]. split.
    { unfold UnigramDict_import. pose proof (import_loop_spec [] ur []) as E. cbn [app length] in E. change (Z.of_nat 0) with 0 in E. by rewrite E. }
    assert (Hsize : size_ st <> 0).
    { intros E. unfold saved in Hok. rewrite E in Hok. done. }
    unfold UnigramDict_save, DoubleArray_save. destruct (Z.eqb_spec (size_ st) 0); [done|]. cbn [snd]. split; [|split; [done|]].
    + apply open_save. apply Forall_take. exact (build_wf _ _ _ Ei).
    + intros k Hk. destruct (Hval k Hk) as [-> Hw]. split; [apply assoc_perm; [by rewrite Hp|done]|].
      intros b Hb. destruct (Hw b Hb) as (t & Ht). exists t. by rewrite <- Hp.
Qed.

(** C20: reading a corpus, importing it, saving the dictionary and loading it again
    gives a proper array that holds exactly the words of the corpus with their
    frequencies. *)
Theorem dictionary_roundtrip text :
  corpus_ok (entries (getlines text)) = true ->
  exists ur st a, UnigramCorpusReader.open [] (Some text) None = Some (ur, 0) /\ UnigramDict_import ur = Some (st, 0) /\
    UnigramDict.load (UnigramDict_save st).2 = (0, Some a) /\ array_ok a = true /\
    forall key, wf_bytes key -> value_of a key = assoc key (entries (getlines text)).
Proof.
  intros H. destruct (dictionary_made text H) as (ur & st & a & H1 & H2 & H3 & H4 & H5). exists ur, st, a.
  do 4 (split; [done|]). intros key Hk. by apply H5.
Qed.

(** Words of one octet, with a frequency of two digits. *)
Definition sample_text : bytes := flat_map (fun c => [c; 9; 52; 50; 10; 120; 58; 49; 10]) (map Z.of_nat (rev (seq 65 164))).

Lemma dictionary_roundtrip_witness :
  exists ur st a, UnigramCorpusReader.open [] (Some sample_text) None = Some (ur, 0) /\ UnigramDict_import ur = Some (st, 0) /\
    UnigramDict.load (UnigramDict_save st).2 = (0, Some a) /\ array_ok a = true /\
    forall key, wf_bytes key -> value_of a key = assoc key (entries (getlines sample_text)).
Proof. apply (dictionary_roundtrip sample_text). by vm_compute. Defined.
