(* ===== verification/Synonyms.v ===== *)
(** Making a dictionary of synonyms: [SynonymsDict::import] and [save] of
    [deps/tokenizer/src/SynonymsDict.cpp].

    A line [word => replacement] makes a pair.  The words become the keys of a
    double array without values; beside each unit stands the place of the
    replacement in a pool of strings. *)
From S2P Require Import Prelude Double Utils IniParser Darts DartsBuild Corpus.

Module SynonymsBuild.
Import SynonymsDict.

(** [std::map]s of strings; a place is an offset into the pool. *)
Record importer := mkImporter { rKeys : list (bytes * Z); lKeys : list (bytes * Z); m_string_pool_size : Z }.

Definition create : importer := mkImporter [] [] 0.

Definition trimmed (str sepSet : bytes) : bytes :=
  match find_first_not_of sepSet str with
  | None => []
  | Some first =>
      match find_last_not_of sepSet str with
      | Some last => take (last - first + 1) (drop first str)
      | None => drop first str
      end
  end.

Definition txtHead : bytes := [239; 187; 191].

(** The two words of a line, if it has them. *)
Definition parse_pair (line : bytes) : option (bytes * bytes) :=
  if (length line <? 4)%nat then None
  else if starts_with [47; 47] line then None
  else
    match find_in [61; 62] line with
    | None => None
    | Some pos =>
        let lKey :=
          if starts_with txtHead line then trimmed (take (pos - 3) (drop 3 line)) [32; 9] else trimmed (take pos line) [32; 9] in
        let rKey := trimmed (drop (pos + 2) line) [32; 9] in
        match lKey, rKey with [], _ | _, [] => None | _, _ => Some (lKey, rKey) end
    end.

(** A pair: the offset is that of the next new replacement. *)
Definition add_pair (lKey rKey : bytes) (rKeys lKeys : list (bytes * Z)) (offset : Z) : list (bytes * Z) * list (bytes * Z) * Z :=
  let '(rKeys, lKey_offset, offset) :=
    match om_find bytes_cmp rKey rKeys with
    | None => (om_insert bytes_cmp rKey offset rKeys, offset, offset + (Z.of_nat (length rKey) + 1))
    | Some second => (rKeys, second, offset)
    end in
  match om_find bytes_cmp lKey lKeys with
  | None => (rKeys, om_insert bytes_cmp lKey lKey_offset lKeys, offset)
  | Some _ => (rKeys, lKeys, offset)
  end.

Fixpoint import_loop (ls : list bytes) (rKeys lKeys : list (bytes * Z)) (offset : Z) : list (bytes * Z) * list (bytes * Z) * Z :=
  match ls with
  | [] => (rKeys, lKeys, offset)
  | line :: ls =>
      match parse_pair line with
      | None => import_loop ls rKeys lKeys offset
      | Some (lKey, rKey) =>
          let '(rKeys, lKeys, offset) := add_pair lKey rKey rKeys lKeys offset in import_loop ls rKeys lKeys offset
      end
  end.

Definition import (d : importer) (filename : option bytes) : importer * Z :=
  match filename with
  | None => (d, -1)
  | Some text =>
      let '(rKeys, lKeys, offset) := import_loop (getlines text) (rKeys d) (lKeys d) 1 in
      (mkImporter rKeys lKeys offset, 0)
  end.

(** The comparison of C strings. *)
Fixpoint Cmp (p1 p2 : bytes) : bool :=
  match p1, p2 with
  | c :: p1, d :: p2 => if u8 c =? u8 d then if u8 c =? 0 then true else Cmp p1 p2 else u8 c <? u8 d
  | [], _ => true
  | c :: _, [] => u8 c =? 0
  end.

(** The position of the leaf of a key. *)
Definition exactMatchID (array_ : list _csr_sybarray_trie) (key : bytes) : option Z :=
  let units := map unit_ array_ in
  b ← root units;
  r ← exact_loop units (Ini.c_str key) b;
  match r with
  | None => Some (-1)
  | Some b =>
      x ← leaf units b;
      let dict_id := if (x : Z * bool).2 then i32 b else 0 in
      Some (if dict_id =? 0 then -1 else dict_id)
  end.

Fixpoint fill_offsets (keys : list (bytes * Z)) (array_ : list _csr_sybarray_trie) : option (list _csr_sybarray_trie) :=
  match keys with
  | [] => Some array_
  | (k, off) :: keys =>
      id ← exactMatchID array_ k;
      if 0 <? id then t ← array_ !! Z.to_nat id; fill_offsets keys (<[Z.to_nat id := mkTrie (unit_ t) off]> array_)
      else fill_offsets keys array_
  end.

Fixpoint fill_pool (keys : list (bytes * Z)) (buf : bytes) : option bytes :=
  match keys with
  | [] => Some buf
  | (str, off) :: keys =>
      if (off <? 0) || (Z.of_nat (length buf) <? off + Z.of_nat (length str)) then None
      else fill_pool keys (list_inserts (Z.to_nat off) str buf)
  end.

Definition trie_bytes (t : _csr_sybarray_trie) : bytes := unit_bytes (unit_ t) ++ le_bytes 8 (offset t).

Definition header_bytes (darts_size pool_size : Z) : bytes :=
  head_mgc ++ le_bytes 2 1 ++ le_bytes 2 0 ++ le_bytes 4 (u32 darts_size) ++ le_bytes 4 (u32 pool_size).

(** What [save] writes. *)
Definition save (d : importer) : option bytes :=
  keys ← std_sort (fun p1 p2 => Some (Cmp p1 p2)) (map fst (lKeys d));
  r ← build (map Ini.c_str keys) None clear;
  let units := saved (r : builder * Z).1 in
  array_ ← fill_offsets (lKeys d) (map (fun u => mkTrie u 0) units);
  let pool_size := i32 (m_string_pool_size d) in
  if pool_size <? 0 then None
  else
    buf ← fill_pool (rKeys d) (replicate (Z.to_nat pool_size) 0);
    Some (header_bytes (i32 (size_ r.1)) pool_size ++ flat_map trie_bytes array_ ++ buf).

(** ** Reading *)

(** The pairs of a file, and what they mean: the first replacement of a word. *)
Definition pairs (ls : list bytes) : list (bytes * bytes) := omap parse_pair ls.

Fixpoint first_of (k : bytes) (ps : list (bytes * bytes)) : option bytes :=
  match ps with
  | [] => None
  | (l, r) :: ps => if decide (l = k) then Some r else first_of k ps
  end.

Lemma first_of_app k ps qs : first_of k (ps ++ qs) = match first_of k ps with Some r => Some r | None => first_of k qs end.
Proof. induction ps as [|[l r] ps IH]; cbn [app first_of]; [done|]. by destruct (decide (l = k)). Qed.

Lemma first_of_in k ps r : first_of k ps = Some r -> r ∈ map snd ps.
Proof.
  induction ps as [|[l' r'] ps IH]; cbn; [done|]. destruct (decide (l' = k)).
  - intros [= ->]. left.
  - intros H. right. by apply IH.
Qed.

(** The place of a string in the pool, its zero included. *)
Definition apart (e e' : bytes * Z) : Prop :=
  e.2 + Z.of_nat (length e.1) + 1 <= e'.2 \/ e'.2 + Z.of_nat (length e'.1) + 1 <= e.2.

(** What the maps hold after some pairs. *)
Record maps_ok (ps : list (bytes * bytes)) (rK lK : list (bytes * Z)) (offset : Z) : Prop := {
  mo_rsorted : om_sorted bytes_cmp rK;
  mo_lsorted : om_sorted bytes_cmp lK;
  mo_right r : is_Some (om_find bytes_cmp r rK) <-> r ∈ map snd ps;
  mo_left l : om_find bytes_cmp l lK = match first_of l ps with Some r => om_find bytes_cmp r rK | None => None end;
  mo_places e : e ∈ rK -> 1 <= e.2 /\ e.2 + Z.of_nat (length e.1) + 1 <= offset;
  mo_apart e e' : e ∈ rK -> e' ∈ rK -> e <> e' -> apart e e';
  mo_offset : offset = 1 + sum_sizes (map fst rK)
}.

Lemma sum_sizes_perm l l' : l ≡ₚ l' -> sum_sizes l = sum_sizes l'.
Proof. intros Hp. unfold sum_sizes. induction Hp; cbn; lia. Qed.

Lemma om_insert_perm k (v : Z) m : om_find bytes_cmp k m = None -> om_sorted bytes_cmp m -> om_insert bytes_cmp k v m ≡ₚ (k, v) :: m.
Proof.
  induction m as [|[k1 v1] m IH]; cbn [om_find om_insert]; [done|]. intros Hf Hs. destruct (bytes_cmp k k1) eqn:E; [done..|].
  apply om_sorted_cons_inv in Hs as [Hs _]. rewrite IH by done. apply perm_swap.
Qed.

Lemma add_pair_ok ps rK lK offset l r rK' lK' offset' :
  maps_ok ps rK lK offset -> add_pair l r rK lK offset = (rK', lK', offset') -> maps_ok (ps ++ [(l, r)]) rK' lK' offset'.
Proof.
  intros [H1 H2 H3 H4 H5 H6 H7] E. unfold add_pair in E.
  (* the replacements *)
  assert (Hr : exists o, (let '(rK1, o1, off1) := match om_find bytes_cmp r rK with
      | None => (om_insert bytes_cmp r offset rK, offset, offset + (Z.of_nat (length r) + 1))
      | Some second => (rK, second, offset) end in (rK1, o1, off1)) = (rK', o, offset') /\ lK' =
      match om_find bytes_cmp l lK with None => om_insert bytes_cmp l o lK | Some _ => lK end).
  { destruct (om_find bytes_cmp r rK); destruct (om_find bytes_cmp l lK); injection E as <- <- <-; by eexists. }
  destruct Hr as (o & Er & ->). clear E.
  assert (Hrk : om_sorted bytes_cmp rK' /\ om_find bytes_cmp r rK' = Some o /\
    (forall x, x <> r -> om_find bytes_cmp x rK' = om_find bytes_cmp x rK) /\
    (forall x v, om_find bytes_cmp x rK = Some v -> om_find bytes_cmp x rK' = Some v) /\
    (forall e, e ∈ rK' -> 1 <= e.2 /\ e.2 + Z.of_nat (length e.1) + 1 <= offset') /\
    (forall e e', e ∈ rK' -> e' ∈ rK' -> e <> e' -> apart e e') /\ offset' = 1 + sum_sizes (map fst rK')).
  { destruct (om_find bytes_cmp r rK) as [second|] eqn:Ef; injection Er as <- <- <-.
    - do 6 (split; [done|]). done.
    - pose proof (om_insert_perm r offset rK Ef H1) as Hp. split; [by apply (om_insert_sorted bytes_cmp)|]. split; [by apply (om_find_insert_eq bytes_cmp)|].
      split; [intros x Hx; by apply (om_find_insert_ne bytes_cmp)|]. split.
      { intros x v Hx. rewrite (om_find_insert_ne bytes_cmp); [done|done|]. intros ->. congruence. }
      assert (Hoff : 1 <= offset).
      { rewrite H7. assert (0 <= sum_sizes (map fst rK)); [|lia]. generalize (map fst rK). intros ks. induction ks as [|k ks IH]; cbn; [done|].
        unfold sum_sizes in IH. lia. }
      split.
      { intros e He. rewrite Hp in He. apply elem_of_cons in He as [->|He]; [cbn; lia|]. destruct (H5 e He). lia. }
      split.
      { intros e e' He He' Hne. rewrite Hp in He, He'. apply elem_of_cons in He as [->|He], He' as [->|He'].
        - done.
        - right. destruct (H5 e' He'). cbn. lia.
        - left. destruct (H5 e He). cbn. lia.
        - by apply H6. }
      rewrite (sum_sizes_perm _ (map fst ((r, offset) :: rK))) by (by rewrite Hp). cbn [map fst sum_sizes foldr]. unfold sum_sizes in H7. lia. }
  destruct Hrk as (K1 & K2 & K3 & K4 & K5 & K6 & K7).
  constructor; [done| | | |done|done|done].
  - destruct (om_find bytes_cmp l lK); [done|by apply (om_insert_sorted bytes_cmp)].
  - intros x. rewrite map_app, elem_of_app. cbn [map snd]. rewrite list_elem_of_singleton. destruct (decide (x = r)) as [->|Hne].
    + rewrite K2. split; [by right|by eexists].
    + rewrite K3 by done. rewrite H3. naive_solver.
  - intros x. rewrite first_of_app. cbn [first_of]. destruct (decide (l = x)) as [<-|Hne].
    + rewrite (H4 l). destruct (first_of l ps) as [r1|] eqn:E1.
      * destruct (H3 r1) as [_ Hin]. destruct Hin as [v Hv].
        { by eapply first_of_in. }
        rewrite Hv. rewrite (H4 l), E1, Hv. symmetry. by apply K4.
      * rewrite (om_find_insert_eq bytes_cmp) by done. by rewrite K2.
    + assert (Hsame : om_find bytes_cmp x (match om_find bytes_cmp l lK with None => om_insert bytes_cmp l o lK | Some _ => lK end) = om_find bytes_cmp x lK).
      { destruct (om_find bytes_cmp l lK); [done|]. by apply (om_find_insert_ne bytes_cmp). }
      rewrite Hsame, H4. destruct (first_of x ps) as [r1|] eqn:E1; [|done].
      destruct (H3 r1) as [_ Hin]. destruct Hin as [v Hv].
      { by eapply first_of_in. }
      rewrite Hv. symmetry. by apply K4.
Qed.

Lemma import_loop_ok ls ps rK lK offset rK' lK' offset' :
  maps_ok ps rK lK offset -> import_loop ls rK lK offset = (rK', lK', offset') -> maps_ok (ps ++ pairs ls) rK' lK' offset'.
Proof.
  revert ps rK lK offset. induction ls as [|line ls IH]; intros ps rK lK offset H E; cbn [import_loop] in E.
  - injection E as <- <- <-. by rewrite app_nil_r.
  - unfold pairs. cbn [omap list_omap]. destruct (parse_pair line) as [[l r]|] eqn:Ep.
    + destruct (add_pair l r rK lK offset) as [[rK1 lK1] off1] eqn:Ea. pose proof (add_pair_ok _ _ _ _ _ _ _ _ _ H Ea) as H1.
      specialize (IH _ _ _ _ H1 E). by rewrite <- app_assoc in IH.
    + by apply (IH ps rK lK offset).
Qed.

Lemma maps_ok_empty : maps_ok [] [] [] 1.
Proof.
  constructor; [constructor|constructor| |done| | |done].
  - intros r. split; [by intros [? ?]|by intros ?%elem_of_nil].
  - by intros e ?%elem_of_nil.
  - by intros e e' ?%elem_of_nil.
Qed.

(** ** The pool *)
Lemma fill_pool_ok l buf :
  (forall e, e ∈ l -> 1 <= e.2 /\ e.2 + Z.of_nat (length e.1) + 1 <= Z.of_nat (length buf)) ->
  (forall e e', e ∈ l -> e' ∈ l -> e <> e' -> apart e e') -> NoDup l ->
  exists buf', fill_pool l buf = Some buf' /\ length buf' = length buf /\
    (forall e x, e ∈ l -> (x < length e.1)%nat -> buf' !! (Z.to_nat e.2 + x)%nat = e.1 !! x) /\
    (forall j, (forall e, e ∈ l -> Z.of_nat j < e.2 \/ e.2 + Z.of_nat (length e.1) <= Z.of_nat j) -> buf' !! j = buf !! j).
Proof.
  revert buf. induction l as [|[str off] l IH]; intros buf Hin Hap Hnd.
  - exists buf. split; [done|]. split; [done|]. split; [by intros e x ?%elem_of_nil|done].
  - apply NoDup_cons in Hnd as [Hni Hnd]. destruct (Hin (str, off) ltac:(left)) as [Ho1 Ho2]. cbn [fst snd] in *. cbn [fill_pool].
    destruct (Z.ltb_spec off 0); [lia|]. destruct (Z.ltb_spec (Z.of_nat (length buf)) (off + Z.of_nat (length str))); [lia|]. cbn [orb].
    destruct (IH (list_inserts (Z.to_nat off) str buf)) as (buf' & E & Hlen & Hstr & Hfree).
    + intros e He. rewrite length_inserts. apply Hin. by right.
    + intros e e' He He'. apply Hap; by right.
    + done.
    + exists buf'. rewrite length_inserts in Hlen. split; [done|]. split; [done|]. split.
      * intros e x [->|He]%elem_of_cons Hx; [|by apply Hstr]. cbn [fst snd] in *. rewrite Hfree.
        -- rewrite list_lookup_inserts by lia. f_equal. lia.
        -- intros e He. assert (Hne : e <> (str, off)) by (intros ->; done). destruct (Hap e (str, off) ltac:(by right) ltac:(left) Hne) as [H1|H1]; cbn in H1; lia.
      * intros j Hj. rewrite Hfree by (intros e He; apply Hj; by right).
        destruct (Hj (str, off) ltac:(left)) as [H1|H1]; cbn [fst snd] in H1.
        -- apply list_lookup_inserts_lt. lia.
        -- apply list_lookup_inserts_ge. lia.
Qed.

(** The string at a place, and what follows it. *)
Lemma pool_string l n buf' str off :
  (forall e, e ∈ l -> 1 <= e.2 /\ e.2 + Z.of_nat (length e.1) + 1 <= Z.of_nat n) ->
  (forall e e', e ∈ l -> e' ∈ l -> e <> e' -> apart e e') -> NoDup l -> (str, off) ∈ l ->
  fill_pool l (replicate n 0) = Some buf' -> exists rest, drop (Z.to_nat off) buf' = str ++ 0 :: rest.
Proof.
  intros Hin Hap Hnd He E. destruct (fill_pool_ok l (replicate n 0)) as (b & E' & Hlen & Hstr & Hfree); [by rewrite length_replicate|done|done|].
  rewrite E in E'. injection E' as <-. rewrite length_replicate in *. destruct (Hin _ He) as [H1 H2]. cbn [fst snd] in *.
  exists (drop (Z.to_nat off + length str + 1) buf').
  rewrite <- (take_drop (length str) (drop (Z.to_nat off) buf')). f_equal.
  - apply list_eq. intros x. destruct (decide (x < length str)%nat).
    + rewrite lookup_take_lt, lookup_drop by done. by apply (Hstr (str, off)).
    + rewrite !lookup_ge_None_2; [done|lia|]. rewrite length_take. lia.
  - rewrite drop_drop. rewrite (drop_S buf' 0 (Z.to_nat off + length str)); [by rewrite Nat.add_1_r|].
    rewrite Hfree.
    + apply lookup_replicate. split; [done|lia].
    + intros e He'. destruct (decide (e = (str, off))) as [->|Hne]; [cbn; lia|].
      destruct (Hap e (str, off) He' He Hne) as [H3|H3]; cbn in H3; lia.
Qed.

(** ** The offsets *)
Section Offsets.
Context (a : list unit_t) (Hok : array_ok a = true).

(** A key that is a word of the array, and its place. *)
Lemma word_place k v :
  Forall (fun c => 0 < c < 256) k -> value_of a k = Some v ->
  exists b u, walk a k = Some b /\ base_ok a b /\ a !! Z.to_nat b = Some u /\ leaf a b = Some (base u, true) /\ v = i32 (- base u - 1).
Proof.
  intros Hk Hv. unfold value_of in Hv. destruct (walk a k) as [b|] eqn:Ew; [|done]. cbn [mbind option_bind] in Hv.
  pose proof (walk_ok a Hok _ _ Ew) as Hb. destruct Hb as [Hb1 Hb2]. destruct (lookup_lt_is_Some_2 a (Z.to_nat b)) as [u Hu]; [lia|].
  assert (El : leaf a b = Some (base u, (b =? check u) && (base u <? 0))).
  { unfold leaf, at_. rewrite (u32_small b) by lia. by rewrite Hu. }
  rewrite El in Hv. cbn [mbind option_bind fst snd] in Hv. destruct ((b =? check u) && (base u <? 0)) eqn:Eh; [|done].
  injection Hv as <-. exists b, u. done.
Qed.

(** The search for a key in an array of these units. *)
Lemma search_key array_ k b :
  map unit_ array_ = a -> walk a k = Some b -> exists r, root (map unit_ array_) = Some r /\ exact_loop (map unit_ array_) k r = Some (Some b).
Proof.
  intros -> Hw. unfold walk in Hw. destruct (array_ok_root a Hok) as (r & Er & Hr). exists r. split; [done|]. rewrite Er in Hw.
  cbn [mbind option_bind] in Hw. destruct (exact_loop_ok a Hok k r Hr) as (x & Ex & _). rewrite Ex in Hw |- *. cbn [mbind option_bind] in Hw. by subst.
Qed.

Lemma i32_base b : base_ok a b -> i32 b = b.
Proof. intros [H1 H2]. apply i32_id. lia. Qed.

Lemma exactMatchID_ok array_ k v :
  map unit_ array_ = a -> Forall (fun c => 0 < c < 256) k -> value_of a k = Some v ->
  exists b, walk a k = Some b /\ base_ok a b /\ exactMatchID array_ k = Some b.
Proof.
  intros Ha Hk Hv. destruct (word_place k v Hk Hv) as (b & u & Ew & Hb & Hu & El & _). exists b. split; [done|]. split; [done|].
  destruct (search_key array_ k b Ha Ew) as (r & Er & Ex). unfold exactMatchID. rewrite Er. cbn [mbind option_bind]. rewrite c_str_key by done.
  rewrite Ex. cbn [mbind option_bind]. rewrite Ha, El. cbn [mbind option_bind snd]. rewrite i32_base by done. destruct Hb as [Hb _].
  by destruct (Z.eqb_spec b 0); [lia|].
Qed.

Lemma fill_offsets_ok lK array_ :
  map unit_ array_ = a -> NoDup (map fst lK) ->
  (forall k off, (k, off) ∈ lK -> Forall (fun c => 0 < c < 256) k /\ is_Some (value_of a k)) ->
  (forall k k' off off', (k, off) ∈ lK -> (k', off') ∈ lK -> walk a k = walk a k' -> k = k') ->
  exists array_', fill_offsets lK array_ = Some array_' /\ map unit_ array_' = a /\
    (forall k off b, (k, off) ∈ lK -> walk a k = Some b -> exists u, array_' !! Z.to_nat b = Some (mkTrie u off)) /\
    (forall p, (forall k off b, (k, off) ∈ lK -> walk a k = Some b -> Z.to_nat b <> p) -> array_' !! p = array_ !! p) /\
    (forall t, t ∈ array_' -> t ∈ array_ \/ exists k, (k, offset t) ∈ lK).
Proof.
  revert array_. induction lK as [|[k off] lK IH]; intros array_ Ha Hnd Hw Hinj; cbn [fill_offsets].
  - exists array_. split; [done|]. split; [done|]. split; [by intros k off b ?%elem_of_nil|]. split; [done|]. by left.
  - cbn [map fst] in Hnd. apply NoDup_cons in Hnd as [Hni Hnd]. destruct (Hw k off ltac:(left)) as [Hk [v Hv]].
    destruct (exactMatchID_ok array_ k v Ha Hk Hv) as (b & Ew & Hb & ->). cbn [mbind option_bind]. destruct Hb as [Hb1 Hb2].
    destruct (Z.ltb_spec 0 b); [|lia]. assert (Hlen : length array_ = length a) by (by rewrite <- Ha, length_map).
    destruct (lookup_lt_is_Some_2 array_ (Z.to_nat b)) as [t Ht]; [lia|]. rewrite Ht. cbn [mbind option_bind].
    destruct (IH (<[Z.to_nat b := mkTrie (unit_ t) off]> array_)) as (array_' & E & Ha' & Hset & Hfree & Hall).
    + rewrite <- Ha. change (map unit_ ?l) with (unit_ <$> l). rewrite list_fmap_insert. apply list_insert_id. rewrite list_lookup_fmap, Ht. done.
    + done.
    + intros k' off' Hin. apply (Hw k' off'). by right.
    + intros k1 k2 o1 o2 H1 H2. by apply (Hinj k1 k2 o1 o2); right.
    + exists array_'. split; [done|]. split; [done|]. split; [|split].
      * intros k' off' b' [[= -> ->]|Hin]%elem_of_cons Hw'; [|by apply (Hset k' off')]. rewrite Ew in Hw'. injection Hw' as <-.
        exists (unit_ t). rewrite Hfree; [apply list_lookup_insert_eq; lia|].
        intros k2 off2 b2 Hin2 Hw2 Eb. destruct (Hw k2 off2 ltac:(by right)) as [Hk2 [v2 Hv2]].
        destruct (word_place k2 v2 Hk2 Hv2) as (b3 & _ & Ew3 & [Hb3 _] & _). assert (b3 = b2) as -> by congruence. assert (b2 = b) as -> by lia.
        assert (k = k2) as -> by (apply (Hinj k k2 off off2); [left|by right|congruence]). apply Hni. by apply (list_elem_of_fmap_2 fst _ (k2, off2)).
      * intros p Hp. rewrite Hfree by (intros k2 off2 b2 Hin2; apply (Hp k2 off2 b2); by right).
        apply list_lookup_insert_ne. apply (Hp k off b); [left|done].
      * intros x Hx. destruct (Hall x Hx) as [Hi|(k2 & Hin2)]; [|right; exists k2; by right].
        apply list_elem_of_lookup in Hi as (i & Hi). apply list_lookup_insert_Some in Hi as [(_ & <- & _)|(_ & Hi)].
        -- right. exists k. left.
        -- left. by eapply list_elem_of_lookup_2.
Qed.

(** What the dictionary answers. *)
Lemma exactMatch_ok array_ pool key rest off :
  map unit_ array_ = a -> Forall (fun c => 0 < c < 256) key -> key <> [] ->
  (forall b, walk a key = Some b -> is_Some (value_of a key) -> exists u, array_ !! Z.to_nat b = Some (mkTrie u off)) ->
  exactMatch (Some (mkFile array_ pool)) (key ++ rest) (length key) =
    Some (match value_of a key with Some _ => Some (drop (Z.to_nat off) pool) | None => None end).
Proof.
  intros Ha Hk Hne Hoff. unfold exactMatch. cbn [mbind option_bind SynonymsDict.array_ string_pool].
  assert (key_len (key ++ rest) (length key) = Some (length key)) as -> by (unfold key_len; by destruct key). cbn [mbind option_bind].
  destruct (Nat.ltb_spec (length (key ++ rest)) (length key)) as [H|_]; [rewrite length_app in H; lia|]. rewrite take_app_length.
  rewrite Ha. destruct (array_ok_root a Hok) as (r & Er & Hr). rewrite Er. cbn [mbind option_bind].
  destruct (exact_loop_ok a Hok key r Hr) as (x & Ex & Hx). rewrite Ex. cbn [mbind option_bind].
  assert (Ew : walk a key = x) by (unfold walk; rewrite Er; cbn [mbind option_bind]; by rewrite Ex).
  destruct x as [b|]; [|unfold value_of; by rewrite Ew]. specialize (Hx b eq_refl). destruct (leaf_ok a b Hx) as (n & hit & El).
  rewrite El. cbn [mbind option_bind snd]. unfold value_of in *. rewrite Ew in *. cbn [mbind option_bind] in *. rewrite El in *. cbn [mbind option_bind snd] in *.
  destruct hit; [|done]. rewrite i32_base by done. destruct Hx as [Hb _]. destruct (Z.eqb_spec b 0); [lia|].
  destruct (Hoff b eq_refl ltac:(by eexists)) as [u Hu]. by rewrite Hu.
Qed.
End Offsets.

(** ** The file *)
Definition trie_wf (t : _csr_sybarray_trie) : Prop := unit_wf (unit_ t) /\ 0 <= offset t < 2 ^ 64.

Lemma read_tries_save ts s : Forall trie_wf ts -> read_tries (length ts) (flat_map trie_bytes ts ++ s) = ts.
Proof.
  induction 1 as [|t ts [Hu Ho] _ IH]; [done|]. set (w := flat_map trie_bytes ts ++ s) in *.
  assert (E : flat_map trie_bytes (t :: ts) ++ s = unit_bytes (unit_ t) ++ le_bytes 8 (offset t) ++ w).
  { cbn [flat_map]. unfold trie_bytes at 1, w. by rewrite <- !app_assoc. }
  rewrite E. cbn [length read_tries]. destruct (read_unit_bytes (unit_ t) (le_bytes 8 (offset t) ++ w) Hu) as (-> & -> & E8).
  rewrite E8, take_app_length' by (symmetry; apply length_le_bytes). rewrite le_val_le_bytes_small by (cbn; lia).
  assert (drop 16 (unit_bytes (unit_ t) ++ le_bytes 8 (offset t) ++ w) = w) as ->.
  { rewrite app_assoc. apply drop_app_length'. unfold unit_bytes. by rewrite !length_app, !length_le_bytes. }
  rewrite IH. by destruct t as [[? ?] ?].
Qed.

Lemma length_tries ts : length (flat_map trie_bytes ts) = (16 * length ts)%nat.
Proof.
  induction ts as [|t ts IH]; cbn [flat_map]; [done|]. rewrite length_app, IH. unfold trie_bytes, unit_bytes. rewrite !length_app, !length_le_bytes.
  cbn [length]. lia.
Qed.

Lemma read_i32_le z s : 0 <= z < 2 ^ 31 -> read_i32 (le_bytes 4 (u32 z) ++ s) = z.
Proof.
  intros Hz. unfold read_i32, read_u32. rewrite take_app_length' by (symmetry; apply length_le_bytes).
  rewrite (u32_small z), le_val_le_bytes_small by (cbn; lia). apply i32_id. lia.
Qed.

Lemma load_file ts pool :
  Forall trie_wf ts -> Z.of_nat (length ts) < 2 ^ 31 -> pool <> [] -> Z.of_nat (length pool) < 2 ^ 31 ->
  load (Some (header_bytes (Z.of_nat (length ts)) (Z.of_nat (length pool)) ++ flat_map trie_bytes ts ++ pool)) = Some (0, Some (mkFile ts pool)).
Proof.
  intros Hts Hlt Hne Hlp. unfold load. set (s := header_bytes _ _ ++ _).
  assert (Hp : (0 < length pool)%nat) by (destruct pool; [done|cbn; lia]).
  assert (Hh : forall x y, length (header_bytes x y) = 16%nat) by (intros x y; unfold header_bytes; rewrite !length_app, !length_le_bytes; done).
  assert (Hlen : length s = (16 + 16 * length ts + length pool)%nat) by (unfold s; rewrite !length_app, length_tries, Hh; lia).
  assert (Es : strncmp_eq 4 s head_mgc = Some true) by done. rewrite Es. cbn [mbind option_bind negb].
  destruct (Nat.ltb_spec (length s) 6); [lia|]. assert (Ev : (le_val (take 2 (drop 4 s)) =? 1) = true) by done. rewrite Ev. cbn [negb].
  destruct (Nat.leb_spec (length s) header_size); [unfold header_size in *; lia|].
  assert (E8 : read_i32 (drop 8 s) = Z.of_nat (length ts)).
  { change (drop 8 s) with (le_bytes 4 (u32 (Z.of_nat (length ts))) ++ le_bytes 4 (u32 (Z.of_nat (length pool))) ++ flat_map trie_bytes ts ++ pool).
    apply read_i32_le. lia. }
  assert (E12 : read_i32 (drop 12 s) = Z.of_nat (length pool)).
  { change (drop 12 s) with (le_bytes 4 (u32 (Z.of_nat (length pool))) ++ flat_map trie_bytes ts ++ pool). apply read_i32_le. lia. }
  rewrite E8, E12. destruct (Z.ltb_spec (Z.of_nat (length ts)) 0); [lia|]. destruct (Z.ltb_spec (Z.of_nat (length pool)) 0); [lia|]. cbn [orb].
  assert (E16 : drop header_size s = flat_map trie_bytes ts ++ pool) by (unfold s; by apply drop_app_length').
  rewrite E16. assert (Emin : Z.min (Z.of_nat (length ts)) ((Z.of_nat (length s) - 16) / 16) = Z.of_nat (length ts)).
  { apply Z.min_l. rewrite Hlen. apply Z.div_le_lower_bound; lia. }
  rewrite Emin, Nat2Z.id, read_tries_save by done.
  assert (Epool : drop (header_size + 16 * length ts) s = pool).
  { rewrite <- drop_drop, E16. apply drop_app_length'. by rewrite length_tries. }
  rewrite Epool. destruct (Z.leb_spec (Z.of_nat (length s)) (16 + 16 * Z.of_nat (length ts))); [lia|].
  destruct (Z.ltb_spec (Z.of_nat (length s)) (16 + 16 * Z.of_nat (length ts) + Z.of_nat (length pool))); [lia|done].
Qed.

(** ** From the file of pairs to the dictionary *)
Definition nonzero (k : bytes) : bool := forallb (fun c => (0 <? c) && (c <? 256)) k.

(** Words without zeros, and enough and not too many of them. *)
Definition synonyms_ok (ps : list (bytes * bytes)) : bool :=
  forallb (fun p => nonzero p.1 && nonzero p.2) ps && fits (remove_dups (map fst ps)) &&
  (1 + sum_sizes (remove_dups (map snd ps)) <? 2 ^ 31).

Lemma nonzero_spec k : nonzero k = true <-> Forall (fun c => 0 < c < 256) k.
Proof.
  unfold nonzero. rewrite forallb_forall, Forall_forall. split; intros H c Hc; specialize (H c).
  - apply list_elem_of_In in Hc. specialize (H Hc). apply andb_true_iff in H as [?%Z.ltb_lt ?%Z.ltb_lt]. done.
  - apply list_elem_of_In in Hc. destruct (H Hc) as [? ?]. apply andb_true_iff. by rewrite !Z.ltb_lt.
Qed.

Lemma Cmp_strings a b : Forall (fun c => 0 < c < 256) a -> Forall (fun c => 0 < c < 256) b ->
  Some (Cmp a b) = Some (match bytes_cmp (id a) (id b) with Gt => false | _ => true end).
Proof.
  intros Ha. revert b. induction Ha as [|c a Hc _ IH]; intros b Hb; destruct Hb as [|d b Hd Hb]; cbn [Cmp id bytes_cmp].
  - done.
  - done.
  - rewrite u8_id by lia. by destruct (Z.eqb_spec c 0); [lia|].
  - rewrite !u8_id by lia. destruct (Z.compare_spec c d) as [->|H|H].
    + rewrite Z.eqb_refl. destruct (Z.eqb_spec d 0); [lia|]. by apply IH.
    + destruct (Z.eqb_spec c d); [lia|]. by destruct (Z.ltb_spec c d); [|lia].
    + destruct (Z.eqb_spec c d); [lia|]. by destruct (Z.ltb_spec c d); [lia|].
Qed.

(** The keys of a map. *)
Lemma keys_of_map (m : list (bytes * Z)) l :
  om_sorted bytes_cmp m -> (forall k, is_Some (om_find bytes_cmp k m) <-> k ∈ l) -> map fst m ≡ₚ remove_dups l.
Proof.
  intros Hs H. apply NoDup_Permutation; [by apply (om_sorted_NoDup bytes_cmp)|apply NoDup_remove_dups|]. intros k.
  rewrite elem_of_remove_dups, <- H. split.
  - intros ((k' & v) & -> & Hin)%list_elem_of_fmap. exists v. by apply (om_find_spec bytes_cmp).
  - intros [v Hv]. apply (om_find_in bytes_cmp) in Hv. by apply (list_elem_of_fmap_2 fst _ (k, v)).
Qed.

Lemma first_of_some k ps : is_Some (first_of k ps) <-> k ∈ map fst ps.
Proof.
  induction ps as [|[l r] ps IH]; cbn [first_of map fst]; [split; [by intros [? ?]|by intros ?%elem_of_nil]|].
  rewrite elem_of_cons. destruct (decide (l = k)) as [->|Hne]; [split; [by left|by eexists]|]. rewrite IH. naive_solver.
Qed.

Lemma maps_left ps rK lK offset k : maps_ok ps rK lK offset -> is_Some (om_find bytes_cmp k lK) <-> k ∈ map fst ps.
Proof.
  intros [_ _ H3 H4 _ _ _]. rewrite H4, <- first_of_some. destruct (first_of k ps) as [r|] eqn:E; [|done].
  destruct (H3 r) as [_ H]. destruct H as [v ->]; [by eapply first_of_in|]. split; by eexists.
Qed.

(** Building the array of some words without values. *)
Lemma build_words keys :
  sorted_keys keys -> Forall (Forall (fun c => 0 < c < 256)) keys -> fits keys = true ->
  exists st, build keys None clear = Some (st, 0) /\ array_ok (saved st) = true /\ Forall unit_wf (saved st) /\
    size_ st = Z.of_nat (length (saved st)) /\
    forall key, wf_bytes key ->
      (exists i, keys !! i = Some key /\ value_of (saved st) key = Some (Z.of_nat i)) \/ (key ∉ keys /\ value_of (saved st) key = None).
Proof.
  intros Hs Hb Hf. unfold fits in Hf. rewrite !andb_true_iff, !Z.leb_le, !Z.ltb_lt, forallb_forall in Hf. destruct Hf as [[[H1 H2] H3] H4].
  assert (Hn : Z.of_nat (length keys) < 2 ^ 31).
  { rewrite total_sum in H4. assert (Z.of_nat (length keys) <= sum_sizes keys); [|lia]. clear. unfold sum_sizes.
    induction keys as [|k keys IH]; cbn [foldr length]; [done|]. lia. }
  destruct (build_ok keys None) as (st & E & Hok & Hans); try done.
  - intros i Hi. exists (Z.of_nat i). split; [done|lia].
  - apply Forall_forall. intros key Hk. apply Z.leb_le, H2. by apply list_elem_of_In.
  - exists st. split; [done|]. split; [done|]. split; [apply Forall_take; exact (build_wf _ _ _ E)|]. split.
    + pose proof (build_size _ _ _ E ltac:(lia)) as Hsz. cbn [fst] in Hsz. unfold saved in *. unfold alloc_size_ in Hsz.
      assert (0 < size_ st) by (destruct (Z.le_gt_cases (size_ st) 0); [|lia]; exfalso; revert Hok; rewrite Z2Nat.nonpos by done; done).
      rewrite length_take. lia.
    + intros key Hk. destruct (proj1 (Hans key Hk)) as [(i & v & Hi & Hki & _ & Hv & Er)|[Hnone Er]].
      * left. exists i. split; [done|]. cbn in Hv. by injection Hv as <-.
      * right. split; [|done]. intros (i & Hi)%list_elem_of_lookup. apply (Hnone i); [|done]. apply lookup_lt_Some in Hi. lia.
Qed.

Section Roundtrip.
Context (ps : list (bytes * bytes)) (rK lK : list (bytes * Z)) (off : Z).
Context (Hm : maps_ok ps rK lK off) (Hok : synonyms_ok ps = true).

Lemma pairs_nonzero l r : (l, r) ∈ ps -> Forall (fun c => 0 < c < 256) l /\ Forall (fun c => 0 < c < 256) r.
Proof.
  intros Hin%list_elem_of_In. unfold synonyms_ok in Hok. rewrite !andb_true_iff, forallb_forall in Hok. destruct Hok as [[H _] _].
  specialize (H _ Hin). rewrite andb_true_iff in H. by rewrite !nonzero_spec in H.
Qed.

Lemma left_keys : map fst lK ≡ₚ remove_dups (map fst ps).
Proof. apply keys_of_map; [apply Hm|]. intros k. by eapply maps_left. Qed.

Lemma right_keys : map fst rK ≡ₚ remove_dups (map snd ps).
Proof. apply keys_of_map; [apply Hm|]. intros k. by apply (mo_right _ _ _ _ Hm). Qed.

Lemma left_nonzero : Forall (Forall (fun c => 0 < c < 256)) (map fst lK).
Proof.
  rewrite left_keys. apply Forall_forall. intros k Hk. rewrite elem_of_remove_dups in Hk. apply list_elem_of_fmap in Hk as ([l r] & -> & Hin).
  by apply (pairs_nonzero l r).
Qed.

Lemma pool_bound : 1 <= off < 2 ^ 31.
Proof.
  unfold synonyms_ok in Hok. rewrite !andb_true_iff, Z.ltb_lt in Hok. destruct Hok as [_ H]. rewrite (mo_offset _ _ _ _ Hm).
  rewrite (sum_sizes_perm _ _ right_keys). split; [|lia].
  assert (0 <= sum_sizes (remove_dups (map snd ps))); [|lia]. generalize (remove_dups (map snd ps)). intros l. unfold sum_sizes.
  induction l as [|k l IH]; cbn; lia.
Qed.

(** A word of the map has its place among the keys; no other string has. *)
Lemma save_ok :
  exists file f st keys, save (mkImporter rK lK off) = Some file /\ load (Some file) = Some (0, Some f) /\
    keys ≡ₚ map fst lK /\ map unit_ (SynonymsDict.array_ f) = saved st /\ array_ok (saved st) = true /\
    (forall key, wf_bytes key -> is_Some (value_of (saved st) key) <-> key ∈ map fst lK) /\
    (forall k o b, (k, o) ∈ lK -> walk (saved st) k = Some b -> exists u, SynonymsDict.array_ f !! Z.to_nat b = Some (mkTrie u o)) /\
    (forall r o, (r, o) ∈ rK -> exists rest, drop (Z.to_nat o) (string_pool f) = r ++ 0 :: rest).
Proof.
  pose proof left_nonzero as Hnz. pose proof (om_sorted_NoDup bytes_cmp _ (mo_lsorted _ _ _ _ Hm)) as Hnd.
  destruct (sort_ok (fun p1 p2 => Some (Cmp p1 p2)) id _ Cmp_strings (map fst lK) Hnz) as (keys & Esort & Hp & Hs); [by rewrite map_id|].
  assert (Hkb : Forall (Forall (fun c => 0 < c < 256)) keys) by (by rewrite Hp).
  assert (Hcs : map Ini.c_str keys = keys).
  { clear - Hkb. induction Hkb as [|k keys Hk _ IH]; cbn; [done|]. by rewrite IH, c_str_key. }
  destruct (build_words keys) as (st & Eb & Hao & Hwf & Hsz & Hval); [|done| |].
  { apply str_sorted_keys in Hs. by rewrite map_id in Hs. }
  { rewrite (fits_perm _ (remove_dups (map fst ps))); [|by rewrite Hp, left_keys].
    unfold synonyms_ok in Hok. rewrite !andb_true_iff in Hok. by destruct Hok as [[_ ?] _]. }
  set (a := saved st) in *.
  assert (Hwfk : forall k, Forall (fun c => 0 < c < 256) k -> wf_bytes k).
  { intros k Hk. eapply Forall_impl; [exact Hk|]. intros c Hc. unfold is_byte. cbn in Hc. lia. }
  assert (Hv : forall k, k ∈ map fst lK -> exists i, keys !! i = Some k /\ value_of a k = Some (Z.of_nat i)).
  { intros k Hk. rewrite Forall_forall in Hnz. destruct (Hval k (Hwfk k (Hnz k Hk))) as [?|[Hni _]]; [done|]. by rewrite Hp in Hni. }
  destruct (fill_offsets_ok a Hao lK (map (fun u => mkTrie u 0) a)) as (arr & Efill & Harr & Hset & _ & Hall).
  { rewrite map_map. apply map_id. }
  { done. }
  { intros k o Hin. assert (Hk : k ∈ map fst lK) by (by apply (list_elem_of_fmap_2 fst _ (k, o))). split.
    - rewrite Forall_forall in Hnz. by apply Hnz.
    - destruct (Hv k Hk) as (i & _ & ->). by eexists. }
  { intros k k' o o' H1 H2 Ew. destruct (Hv k) as (i & Hi & Ev); [by apply (list_elem_of_fmap_2 fst _ (k, o))|].
    destruct (Hv k') as (i' & Hi' & Ev'); [by apply (list_elem_of_fmap_2 fst _ (k', o'))|].
    assert (value_of a k = value_of a k') as E by (unfold value_of; by rewrite Ew). assert (i = i') as <- by (rewrite Ev, Ev' in E; injection E; lia).
    congruence. }
  pose proof pool_bound as Hoff.
  assert (HrKnd : NoDup rK) by (apply (NoDup_fmap_1 fst); apply (om_sorted_NoDup bytes_cmp); apply Hm).
  assert (Hplaces : forall e, e ∈ rK -> 1 <= e.2 /\ e.2 + Z.of_nat (length e.1) + 1 <= Z.of_nat (length (replicate (Z.to_nat off) 0))).
  { intros e He. rewrite length_replicate. destruct (mo_places _ _ _ _ Hm e He). lia. }
  destruct (fill_pool_ok rK (replicate (Z.to_nat off) 0) Hplaces (mo_apart _ _ _ _ Hm) HrKnd) as (pool & Epool & Hlenp & _).
  rewrite length_replicate in Hlenp. assert (Hlarr : length arr = length a) by (by rewrite <- Harr, length_map).
  assert (Hla : Z.of_nat (length a) < 2 ^ 31) by (destruct (array_ok_root a Hao) as (b & _ & [_ ?]); lia).
  assert (Hw : Forall trie_wf arr).
  { apply Forall_forall. intros t Ht. split.
    - rewrite Forall_forall in Hwf. apply Hwf. rewrite <- Harr. by apply list_elem_of_fmap_2.
    - destruct (Hall t Ht) as [Hin|(k & Hin)].
      + apply list_elem_of_fmap in Hin as (u & -> & _). cbn. lia.
      + apply (om_find_spec bytes_cmp) in Hin; [|apply Hm]. rewrite (mo_left _ _ _ _ Hm) in Hin.
        destruct (first_of k ps) as [r|]; [|done]. apply (om_find_in bytes_cmp) in Hin. destruct (mo_places _ _ _ _ Hm _ Hin). cbn in *. lia. }
  exists (header_bytes (Z.of_nat (length arr)) (Z.of_nat (length pool)) ++ flat_map trie_bytes arr ++ pool), (mkFile arr pool), st, keys.
  split; [|split; [|split; [done|split; [done|split; [done|split; [|split]]]]]].
  - unfold save. cbn [lKeys SynonymsBuild.rKeys m_string_pool_size]. rewrite Esort. cbn [mbind option_bind]. rewrite Hcs, Eb.
    cbn [mbind option_bind fst]. fold a. rewrite Efill. cbn [mbind option_bind]. rewrite (i32_id off) by lia.
    destruct (Z.ltb_spec off 0); [lia|]. rewrite Epool. cbn [mbind option_bind]. rewrite Hsz, i32_id, Hlarr by lia.
    by rewrite Hlenp, Z2Nat.id by lia.
  - apply load_file; [done|lia| |lia]. intros ->. cbn in Hlenp. lia.
  - intros key Hkey. fold a. rewrite <- Hp. destruct (Hval key Hkey) as [(i & Hi & ->)|[Hni ->]].
    + split; [intros _; by eapply list_elem_of_lookup_2|by eexists].
    + split; [by intros [? ?]|done].
  - intros k o b Hin. apply (Hset k o b Hin).
  - intros r o Hin. cbn [string_pool]. apply (pool_string rK (Z.to_nat off) pool r o); [|apply Hm|done|done|done].
    intros e He. specialize (Hplaces e He). by rewrite length_replicate in Hplaces.
Qed.
End Roundtrip.

(** C21: a dictionary of synonyms that is imported from a file, saved and loaded
    again replaces every word by the string that the first line with the word
    gives, and no other word. *)
Theorem synonyms_roundtrip text :
  synonyms_ok (pairs (getlines text)) = true ->
  exists file f, save (import create (Some text)).1 = Some file /\ load (Some file) = Some (0, Some f) /\
    forall key rest, Forall (fun c => 0 < c < 256) key -> key <> [] ->
      match first_of key (pairs (getlines text)) with
      | Some r => exists more, exactMatch (Some f) (key ++ rest) (length key) = Some (Some (r ++ 0 :: more))
      | None => exactMatch (Some f) (key ++ rest) (length key) = Some None
      end.
Proof.
  intros Hok. unfold import. cbn [rKeys lKeys create]. destruct (import_loop (getlines text) [] [] 1) as [[rK lK] off] eqn:E.
  pose proof (import_loop_ok _ _ _ _ _ _ _ _ maps_ok_empty E) as Hm. cbn [app] in Hm. set (ps := pairs (getlines text)) in *. cbn [fst].
  destruct (save_ok ps rK lK off Hm Hok) as (file & f & st & keys & Es & El & _ & Hu & Ha & Hv & Ho & Hr).
  exists file, f. split; [done|]. split; [done|]. intros key rest Hkey Hne. destruct f as [arr pool]. cbn [SynonymsDict.array_ string_pool] in *.
  assert (Hwf : wf_bytes key) by (eapply Forall_impl; [exact Hkey|]; intros c Hc; unfold is_byte; cbn in Hc; lia).
  assert (Hin : forall o, om_find bytes_cmp key lK = Some o -> forall b, walk (saved st) key = Some b -> is_Some (value_of (saved st) key) ->
    exists u, arr !! Z.to_nat b = Some (mkTrie u o)).
  { intros o Hf b Hb _. apply (om_find_in bytes_cmp) in Hf. by apply (Ho key o b). }
  pose proof (mo_left _ _ _ _ Hm key) as Hleft. pose proof (maps_left _ _ _ _ key Hm) as Hl.
  destruct (first_of key ps) as [r|] eqn:Ef.
  - assert (Hs : is_Some (om_find bytes_cmp key lK)) by (apply Hl, first_of_some; by eexists). destruct Hs as [o Hfo].
    destruct (Hr r o) as [more Emore]; [apply (om_find_in bytes_cmp); congruence|]. exists more.
    rewrite (exactMatch_ok (saved st) Ha arr pool key rest o Hu Hkey Hne (Hin o Hfo)).
    assert (Hval : is_Some (value_of (saved st) key)).
    { apply Hv; [done|]. apply (om_find_in bytes_cmp) in Hfo. by apply (list_elem_of_fmap_2 fst _ (key, o)). }
    destruct Hval as [v ->]. by rewrite Emore.
  - assert (Hval : value_of (saved st) key = None).
    { destruct (value_of (saved st) key) as [v|] eqn:Ev; [|done]. exfalso.
      assert (Hk : key ∈ map fst lK) by (apply Hv; [done|by eexists]). apply list_elem_of_fmap in Hk as ([k o] & -> & Hin').
      apply (om_find_spec bytes_cmp) in Hin'; [|apply Hm]. cbn [fst] in *. congruence. }
    rewrite (exactMatch_ok (saved st) Ha arr pool key rest 0 Hu Hkey Hne); [by rewrite Hval|]. intros b _ [v Hv']. congruence.
Qed.

(** Words of one octet: the last one has two lines. *)
Definition sample_synonyms : bytes :=
  flat_map (fun c => [c; 32; 61; 62; 9; 120; c; 10]) (map Z.of_nat (seq 62 164)) ++ [47; 47; 61; 62; 120; 10; 225; 61; 62; 121; 10].

Lemma synonyms_roundtrip_witness :
  exists file f, save (import create (Some sample_synonyms)).1 = Some file /\ load (Some file) = Some (0, Some f) /\
    forall key rest, Forall (fun c => 0 < c < 256) key -> key <> [] ->
      match first_of key (pairs (getlines sample_synonyms)) with
      | Some r => exists more, exactMatch (Some f) (key ++ rest) (length key) = Some (Some (r ++ 0 :: more))
      | None => exactMatch (Some f) (key ++ rest) (length key) = Some None
      end.
Proof. apply (synonyms_roundtrip sample_synonyms). by vm_compute. Defined.
End SynonymsBuild.
