(* ===== verification/Tagger.v ===== *)
(** The characters of the segmenter: the decoder of
    [deps/tokenizer/src/Utf8_16.cpp] and the classes of characters of
    [deps/tokenizer/src/SegmentPkg.cpp].

    A pointer is the memory from there on, as far as the buffer goes; [None] is
    a read behind it. *)
From Stdlib Require Ascii String.
From S2P Require Import Prelude Storage Coding Utf8.

(** ** [Utf8_16.cpp] *)

(** The ones a lead octet starts with, shifted out. *)
Fixpoint lead_loop (fuel : nat) (v iBytes : Z) : Z * Z :=
  match fuel with
  | O => (v, iBytes)
  | S fuel => if Z.land v 0x80 =? 0 then (v, iBytes) else lead_loop fuel (u8 (Z.shiftl v 1)) (iBytes + 1)
  end.

Fixpoint cont_loop (iBytes : nat) (pBuf : bytes) (iCode : Z) : option Z :=
  match iBytes with
  | O => Some iCode
  | S iBytes =>
      match pBuf with
      | [] => None
      | c :: pBuf =>
          if c =? 0 then Some 0 (* unexpected eof *)
          else if negb (Z.land c 0xC0 =? 0x80) then Some (-1) (* invalid code *)
          else cont_loop iBytes pBuf (Z.shiftl iCode 6 + Z.land c 0x3F)
      end
  end.

(** The code and the length, which is left alone when there is none. *)
Definition csrUTF8Decode (pBuf : bytes) (length : Z) : option (Z * Z) :=
  match pBuf with
  | [] => None
  | v :: pBuf =>
      if v =? 0 then Some (0, length)
      else if v <? 128 then Some (v, 1)
      else
        let '(v, iBytes) := lead_loop 8 v 0 in
        if (iBytes <? 2) || (4 <? iBytes) then Some (-1, length)
        else iCode ← cont_loop (Z.to_nat (iBytes - 1)) pBuf (Z.shiftr v iBytes); Some (iCode, iBytes)
  end.

(** Three octets at most: a code above 0xffff is cut. *)
Definition csrUTF8Encode (iCode : Z) : bytes :=
  if iCode <? 0x80 then [Z.land iCode 0x7F]
  else if iCode <? 0x800 then
    [Z.lor (Z.land (Z.shiftr iCode 6) 0x1F) 0xC0; Z.lor (Z.land iCode 0x3F) 0x80]
  else
    [Z.lor (Z.land (Z.shiftr iCode 12) 0x0F) 0xE0; Z.lor (Z.land (Z.shiftr iCode 6) 0x3F) 0x80;
     Z.lor (Z.land iCode 0x3F) 0x80].

(** ** [ChineseCharTaggerImpl] *)
Module ChineseCharTagger.

(** The tables of [init]; a dot is a zero, the class of no character. *)
Section Tables.
Import Ascii String.

Definition page (s : string) : list Z :=
  List.map (fun c => if Ascii.eqb c "." then 0 else Z.of_N (N_of_ascii c)) (list_ascii_of_string s).

Definition ansipage : list Z := page
  ("................................swwsssswsssswswsmmmmmmmmmmwwsssw" ++
   "seeeeeeeeeeeeeeeeeeeeeeeeeesssssseeeeeeeeeeeeeeeeeeeeeeeeeessss." ++
   "................................................................" ++
   "eeeeeeeeeeeeeeeeeeeeeeeeeeeeeeeeeeeeeeeeeeeeeeeeeeeeeeeeeeeeeee.")%string.

(** 0xFF?? *)
Definition sym1 : list Z := page
  (".wwsssswsssswsssmmmmmmmmmmwsssswseeeeeeeeeeeeeeeeeeeeeeeeessssss" ++
   "weeeeeeeeeeeeeeeeeeeeeeeeessssssssssss.........................." ++
   "................................................................" ++
   ".....................................s..........................")%string.

(** 0x30?? *)
Definition sym2 : list Z := page
  ("sswwsssmsssssssssssssssssssssssssssssssssssssssssssssssssssssss." ++
   "................................................................" ++
   "................................................................" ++
   "................................................................")%string.
End Tables.

Definition chs_number : list Z :=
  [0x4e00; 0x4e03; 0x4e09; 0x4e2a; 0x4e07; 0x9646; 0x4e5d; 0x767e; 0x8086; 0x4e8c;
   0x4e94; 0x4ebf; 0x56db; 0x4edf; 0x96f6; 0x58f9; 0x62fe; 0x4f0d; 0x8d30; 0x5341;
   0x5343; 0x5146; 0x634c; 0x516b; 0x516d; 0x4f70; 0x7396; 0x53c1; 0x67d2].

Definition is_sep_20 (i : Z) : bool :=
  ((0x2018 <=? i) && (i <=? 0x201f)) || ((0x2025 <=? i) && (i <=? 0x2027)) || ((0x2032 <=? i) && (i <=? 0x2037)).

(** The pages by the high octet of a code: the array [index_map]. *)
Definition set_page (index_map : Z -> option (list Z)) (idx : Z) (ptr : list Z) : Z -> option (list Z) :=
  fun i => if i =? idx then Some ptr else index_map i.

Definition add_number (index_map : Z -> option (list Z)) (c : Z) : Z -> option (list Z) :=
  let idx := Z.shiftr c 8 in
  let ptr := match index_map idx with Some ptr => ptr | None => replicate 256 0 end in
  set_page index_map idx (<[Z.to_nat (u8 c) := 110]> ptr).

Definition index_map : Z -> option (list Z) :=
  let m := set_page (set_page (set_page (fun _ => None) 0 ansipage) 0x30 sym2) 0xFF sym1 in
  let m := fold_left add_number chs_number m in
  let m := set_page (set_page m 0x22 (replicate 256 115)) 0x23 (replicate 256 115) in
  set_page m 0x20 (map (fun n => if is_sep_20 (0x2000 + Z.of_nat n) then 119 else 0) (seq 0 256)).

Definition c_type (iCode : Z) : Z :=
  let c := match index_map (Z.shiftr iCode 8) with
           | Some p => match p !! Z.to_nat (u8 iCode) with Some c => c | None => 0 end
           | None => 0
           end in
  if negb (c =? 0) then c
  else if (0x4E00 <=? iCode) && (iCode <=? 0x9FA5) then 99
  else if (0x3000 <=? iCode) && (iCode <=? 0x303F) then 115
  else 117.

Definition flags (length : Z) : Z :=
  if length =? 1 then 0 else if length =? 2 then 0x40 else if length =? 3 then 0x80 else 0xC9.

(** The parameters are a [u2] and a [u1]; a length of 0 is not asked for. *)
Definition tagUnicode (iCode length : Z) : Z :=
  if 3 <? length then 0 else Z.lor (flags length) (c_type (u16 iCode) - 97 + 1).
End ChineseCharTagger.

(** The class as the segmenter reads it: a small letter again. *)
Definition tag_of (iCode : Z) : Z := Z.land (ChineseCharTagger.tagUnicode iCode 1) 0x3F + 97 - 1.

(** ** The decoder *)
Section Decode.
Import utf8_facts.

(** A statement about every octet is checked on each. *)
Lemma all_bytes (P : Z -> bool) b :
  forallb P (map Z.of_nat (seq 0 256)) = true -> is_byte b -> P b = true.
Proof.
  intros H [Hb1 Hb2]. rewrite forallb_forall in H. apply H. apply in_map_iff. exists (Z.to_nat b).
  split; [lia|]. apply in_seq. lia.
Qed.

Lemma lead_loop_byte b :
  128 <= b < 256 ->
  let '(v, n) := lead_loop 8 b 0 in
  (192 <= b < 224 -> n = 2 /\ Z.shiftr v n = b - 192) /\
  (224 <= b < 240 -> n = 3 /\ Z.shiftr v n = b - 224) /\
  (240 <= b < 248 -> n = 4 /\ Z.shiftr v n = b - 240).
Proof.
  intros Hb.
  pose proof (all_bytes (fun b => let '(v, n) := lead_loop 8 b 0 in
    (negb ((192 <=? b) && (b <? 224)) || ((n =? 2) && (Z.shiftr v n =? b - 192))) &&
    (negb ((224 <=? b) && (b <? 240)) || ((n =? 3) && (Z.shiftr v n =? b - 224))) &&
    (negb ((240 <=? b) && (b <? 248)) || ((n =? 4) && (Z.shiftr v n =? b - 240)))) b
    ltac:(vm_compute; reflexivity) ltac:(unfold is_byte; lia)) as H. cbv beta in H.
  destruct (lead_loop 8 b 0) as [v n]. lia.
Qed.

Lemma cont_octet c : 128 <= c < 192 -> negb (Z.land c 0xC0 =? 0x80) = false /\ Z.land c 0x3F = c - 128.
Proof.
  intros Hc.
  pose proof (all_bytes (fun c => negb ((128 <=? c) && (c <? 192)) || ((Z.land c 0xC0 =? 0x80) && (Z.land c 0x3F =? c - 128))) c
    ltac:(vm_compute; reflexivity) ltac:(unfold is_byte; lia)) as H. cbv beta in H. lia.
Qed.

Lemma cont_loop_step n c p code :
  128 <= c < 192 -> cont_loop (S n) (c :: p) code = cont_loop n p (code * 64 + (c - 128)).
Proof.
  intros Hc. cbn [cont_loop]. destruct (cont_octet c Hc) as [-> ->]. destruct (Z.eqb_spec c 0); [lia|].
  by rewrite Z.shiftl_mul_pow2 by lia.
Qed.

(** The octets of a character are read back, whatever follows. *)
Lemma csrUTF8Decode_octets cp rest len :
  scalar cp -> cp <> 0 -> csrUTF8Decode (octets cp ++ rest) len = Some (cp, Z.of_nat (length (octets cp))).
Proof.
  intros [Hr _]%scalar_range H0. unfold octets.
  destruct (Z.ltb_spec cp 0x80); [|destruct (Z.ltb_spec cp 0x800); [|destruct (Z.ltb_spec cp 0x10000)]];
    cbn [app csrUTF8Decode length].
  - by destruct (Z.eqb_spec cp 0), (Z.ltb_spec cp 128); [lia|lia| |lia].
  - set (b := 192 + cp / 64). assert (Hb : 192 <= b < 224) by (unfold b; zlia).
    destruct (Z.eqb_spec b 0), (Z.ltb_spec b 128); [lia..|]. pose proof (lead_loop_byte b ltac:(lia)) as Hl.
    destruct (lead_loop 8 b 0) as [v nb]. destruct Hl as (Hl & _ & _). destruct (Hl Hb) as [-> Hv].
    change ((2 <? 2) || (4 <? 2)) with false. change (Z.to_nat (2 - 1)) with 1%nat. rewrite Hv. cbv iota. rewrite cont_loop_step by zlia. cbn [cont_loop mbind option_bind].
    do 2 f_equal. unfold b. zlia.
  - set (b := 224 + cp / 4096). assert (Hb : 224 <= b < 240) by (unfold b; zlia).
    destruct (Z.eqb_spec b 0), (Z.ltb_spec b 128); [lia..|]. pose proof (lead_loop_byte b ltac:(lia)) as Hl.
    destruct (lead_loop 8 b 0) as [v nb]. destruct Hl as (_ & Hl & _). destruct (Hl Hb) as [-> Hv].
    change ((3 <? 2) || (4 <? 3)) with false. change (Z.to_nat (3 - 1)) with 2%nat. rewrite Hv. cbv iota. rewrite !cont_loop_step by zlia. cbn [cont_loop mbind option_bind].
    do 2 f_equal. unfold b. zlia.
  - set (b := 240 + cp / 262144). assert (Hb : 240 <= b < 248) by (unfold b; zlia).
    destruct (Z.eqb_spec b 0), (Z.ltb_spec b 128); [lia..|]. pose proof (lead_loop_byte b ltac:(lia)) as Hl.
    destruct (lead_loop 8 b 0) as [v nb]. destruct Hl as (_ & _ & Hl). destruct (Hl Hb) as [-> Hv].
    change ((4 <? 2) || (4 <? 4)) with false. change (Z.to_nat (4 - 1)) with 3%nat. rewrite Hv. cbv iota. rewrite !cont_loop_step by zlia. cbn [cont_loop mbind option_bind].
    do 2 f_equal. unfold b. zlia.
Qed.

(** Whatever the memory: the read stays before the end of the string, and a
    positive code has consumed octets that are not the end. *)
Lemma cont_loop_string n p rest code :
  Forall (fun c => 0 < c) p -> 0 <= code ->
  exists r, cont_loop n (p ++ 0 :: rest) code = Some r /\ -1 <= r /\ (0 < r -> (n <= length p)%nat).
Proof.
  revert p code. induction n as [|n IH]; intros p code Hp Hc; cbn [cont_loop]; [exists code; split; [done|lia]|].
  destruct Hp as [|c p Hc' Hp]; cbn [app]; [exists 0; split; [done|lia]|]. destruct (Z.eqb_spec c 0); [lia|].
  destruct (negb _); [exists (-1); split; [done|lia]|].
  destruct (IH p (Z.shiftl code 6 + Z.land c 0x3F) Hp) as (r & -> & Hr1 & Hr).
  { apply Z.add_nonneg_nonneg; [by apply Z.shiftl_nonneg|apply Z.land_nonneg; lia]. }
  exists r. split; [done|]. split; [done|]. intros H. specialize (Hr H). cbn [length]. lia.
Qed.

Lemma lead_loop_nonneg fuel v n : 0 <= v -> 0 <= (lead_loop fuel v n).1.
Proof.
  revert v n. induction fuel as [|fuel IH]; intros v n Hv; cbn [lead_loop]; [done|]. destruct (_ =? 0); [done|].
  apply IH, u8_range.
Qed.

Lemma csrUTF8Decode_string p rest len :
  Forall (fun c => 0 < c) p ->
  exists code n, csrUTF8Decode (p ++ 0 :: rest) len = Some (code, n) /\ -1 <= code /\
    (0 < code -> 1 <= n <= 4 /\ n <= Z.of_nat (length p)) /\ (p = [] -> code = 0) /\ (n = len \/ 1 <= n <= 4).
Proof.
  intros Hp. destruct Hp as [|v p Hv Hp]; cbn [app csrUTF8Decode].
  { exists 0, len. split_and!; [done|lia|lia..|done|by left]. }
  destruct (Z.eqb_spec v 0); [lia|]. destruct (v <? 128).
  { exists v, 1. cbn [length]. split_and!; [done|lia..|done|right; lia]. }
  pose proof (lead_loop_nonneg 8 v 0 ltac:(lia)) as Hw. destruct (lead_loop 8 v 0) as [w nb]. cbn [fst] in Hw.
  destruct ((nb <? 2) || (4 <? nb)) eqn:En.
  { exists (-1), len. split_and!; [done|lia|lia..|done|by left]. }
  destruct (cont_loop_string (Z.to_nat (nb - 1)) p rest (Z.shiftr w nb) Hp) as (r & -> & Hr1 & Hr); [by apply Z.shiftr_nonneg|].
  exists r, nb. cbn [mbind option_bind length]. split; [done|]. split; [done|].
  split; [intros H; specialize (Hr H); lia|]. split; [done|right; lia].
Qed.

(** What is no character is of the class of unknown ones. *)
Lemma tag_of_bad code : code = 0 \/ code = -1 -> tag_of code = 117.
Proof. intros [->| ->]; reflexivity. Qed.
End Decode.
