(* ===== verification/MMThunk.v ===== *)
(** The maximum matching of the segmenter ([deps/tokenizer/include/mmthunk.h],
    [deps/tokenizer/src/mmthunk.cpp]).

    A chunk of text is a grid of offsets; at an offset are the lengths of the
    words that start there.  From an offset on all phrases of up to three words
    are formed, and the first word of the best one is the next token.  The
    logarithm of the C library is the parameter [log_].  [None] is an access
    outside of an array or a vector, or through a null pointer. *)
From stdpp Require Import gmap.
From S2P Require Import Prelude Double Darts.

Definition CHUNK_BUFFER_SIZE : Z := 1024.

(** ** Chunks *)
Record Chunk := mkChunk { tokens : list Z; freqs : list Z; total_length : Z }.

Module Chunk.
Definition empty : Chunk := mkChunk [] [] 0.

Definition pushToken (c : Chunk) (len freq : Z) : Chunk :=
  mkChunk (tokens c ++ [u16 len]) (freqs c ++ [u16 freq]) (total_length c + u16 len).

Definition popup (c : Chunk) : Chunk :=
  match last (tokens c) with
  | Some t =>
      mkChunk (take (length (tokens c) - 1) (tokens c)) (take (length (freqs c) - 1) (freqs c)) (total_length c - t)
  | None => c
  end.

Definition size (c : Chunk) : Z := Z.of_nat (length (tokens c)).

Definition get_avl (c : Chunk) : spec_float :=
  float_div (float_mul (float_of_Z 1) (float_of_Z (total_length c))) (float_of_Z (size c)).

Definition get_avg (c : Chunk) : spec_float :=
  let avg := get_avl c in
  let total := fold_left (fun total it =>
    let diff := float_sub (float_of_Z it) avg in float_add total (float_mul diff diff)) (tokens c) (float_of_Z 0) in
  float_div (float_mul (float_of_Z 1) total) (float_of_Z ((size c - 1) mod 2 ^ 64)).

(** [m_free_score] is never read. *)
Definition get_free (log_ : spec_float -> spec_float) (c : Chunk) : spec_float :=
  fold_left (fun score it =>
    let freq := float_add (float_of_Z it) (float_of_Z 1) in
    float_add score (float_mul (log_ freq) (float_of_Z 100))) (freqs c) (float_of_Z 0).
End Chunk.

(** ** The queue of the longest chunks *)
Record ChunkQueue := mkQueue { m_chunks : list Chunk; max_length : Z }.

Module ChunkQueue.
Section Queue.
Context (log_ : spec_float -> spec_float).

Definition reset : ChunkQueue := mkQueue [] 0.

Definition push (q : ChunkQueue) (ck : Chunk) : ChunkQueue :=
  if total_length ck <? max_length q then q (* rule:1 *)
  else if max_length q <? total_length ck then mkQueue [ck] (total_length ck)
  else mkQueue (m_chunks q ++ [ck]) (max_length q).

(** A write to one of the arrays of 256 indices. *)
Definition put (remains : list nat) (i : nat) : option (list nat) :=
  if (length remains <? 256)%nat then Some (remains ++ [i]) else None.

Fixpoint rule2 (chunks : list Chunk) (i : nat) (avg_length : spec_float) (remains : list nat) : option (list nat) :=
  match chunks with
  | [] => Some remains
  | c :: chunks =>
      let avl := Chunk.get_avl c in
      if SFltb avg_length avl then rule2 chunks (S i) avl [i]
      else if SFeqb avl avg_length then remains ← put remains i; rule2 chunks (S i) avg_length remains
      else rule2 chunks (S i) avg_length remains
  end.

(** A tie stores the index [i] among the remaining chunks, not the chunk. *)
Fixpoint rule3 (chunks : list Chunk) (remains : list nat) (i : nat) (avg_length : spec_float) (remains_r3 : list nat) :
    option (list nat) :=
  match remains with
  | [] => Some remains_r3
  | r :: remains =>
      c ← chunks !! r;
      let avg := Chunk.get_avg c in
      if SFltb avg avg_length then rule3 chunks remains (S i) avg [r]
      else if SFeqb avg avg_length then
        remains_r3 ← put remains_r3 i; rule3 chunks remains (S i) avg_length remains_r3
      else rule3 chunks remains (S i) avg_length remains_r3
  end.

(** [idx] is -1 until a score is positive. *)
Fixpoint rule4 (chunks : list Chunk) (remains_r3 : list nat) (max_score : spec_float) (idx : option nat) :
    option (option nat) :=
  match remains_r3 with
  | [] => Some idx
  | r :: remains_r3 =>
      c ← chunks !! r;
      let score := Chunk.get_free log_ c in
      if SFltb max_score score then rule4 chunks remains_r3 score (Some r)
      else rule4 chunks remains_r3 max_score idx
  end.

Definition first_token (chunks : list Chunk) (i : nat) : option Z := c ← chunks !! i; tokens c !! O.

Definition getToken (q : ChunkQueue) : option Z :=
  match m_chunks q with
  | [] => Some 0
  | [c] => tokens c !! O
  | chunks =>
      remains ← rule2 chunks 0 (float_of_Z 0) [];
      match remains with
      | [r] => first_token chunks r
      | _ =>
          remains_r3 ← rule3 chunks remains 0 (float_of_Z (1024 * 64)) [];
          match remains_r3 with
          | [r] => first_token chunks r
          | _ => idx ← rule4 chunks remains_r3 (float_of_Z 0) None; i ← idx; first_token chunks i
          end
      end
  end.
End Queue.
End ChunkQueue.

(** ** The thunk *)

(** [freq] is a [u4], the lengths are [u2]s. *)
Record item_info := mkItem { freq : Z; items : list Z }.

(** The arrays by offset, a null pointer being no entry: the offsets written
    are those of the loop of [peekToken], below [CHUNK_BUFFER_SIZE].  Of a
    keyword item only the lengths are read. *)
Record MMThunk := mkThunk {
  base_offset : Z;
  m_charinfos : gmap Z item_info;
  m_tokens : list Z;
  m_kwinfos : gmap Z (list Z);
  m_kw_pos : Z;
  m_kw_ipos : Z;
  m_max_length : Z;
  m_length : Z;
  m_queue : ChunkQueue
}.

Module MMThunk.
Section Thunk.
Context (log_ : spec_float -> spec_float).

Definition reset (t : MMThunk) : MMThunk := mkThunk (base_offset t) ∅ [] ∅ 0 0 (-1) 0 ChunkQueue.reset.

Definition init : MMThunk := reset (mkThunk 0 ∅ [] ∅ 0 0 (-1) 0 ChunkQueue.reset).

Definition advance (t : MMThunk) (step : Z) : MMThunk :=
  mkThunk (u16 (base_offset t + step)) (m_charinfos t) (m_tokens t) (m_kwinfos t) (m_kw_pos t) (m_kw_ipos t)
    (m_max_length t) (m_length t) (m_queue t).

(** The first [rs_count] of the results. *)
Definition setItems (t : MMThunk) (idx : Z) (rs_count : Z) (results : list result_pair_type) : option MMThunk :=
  let rs := take (Z.to_nat (u16 rs_count)) results in
  if (length rs <? Z.to_nat (u16 rs_count))%nat then None
  else
    let item := mkItem (fold_left (fun f r => u32 (f + u32 (value r))) rs 0) (map (fun r => u16 (length_ r)) rs) in
    Some (mkThunk (base_offset t) (<[idx := item]> (m_charinfos t)) (m_tokens t) (m_kwinfos t) (m_kw_pos t) (m_kw_ipos t)
            (Z.max (m_max_length t) idx) (m_length t) (m_queue t)).

Definition setKwItems (t : MMThunk) (idx : Z) (rs_count : Z) (results : list result_pair_type) : option MMThunk :=
  let rs := take (Z.to_nat (u16 rs_count)) results in
  if (length rs <? Z.to_nat (u16 rs_count))%nat then None
  else
    Some (mkThunk (base_offset t) (m_charinfos t) (m_tokens t) (<[idx := map (fun r => u16 (length_ r)) rs]> (m_kwinfos t))
            (m_kw_pos t) (m_kw_ipos t) (Z.max (m_max_length t) idx) (m_length t) (m_queue t)).

Definition peekToken (t : MMThunk) : Z := match m_tokens t with [] => 0 | l :: _ => l end.

Definition popupToken (t : MMThunk) : MMThunk * Z :=
  match m_tokens t with
  | [] => (t, 0)
  | l :: ts =>
      (mkThunk (base_offset t) (m_charinfos t) ts (m_kwinfos t) (m_kw_pos t) (m_kw_ipos t) (m_max_length t)
         (u32 (m_length t - l)) (m_queue t), l)
  end.

(** The next keyword: its offset and length, or a length of 0.  Every round
    but the last moves [m_kw_pos] on. *)
Fixpoint peekKw_loop (fuel : nat) (t : MMThunk) : option (MMThunk * Z * Z) :=
  if m_kw_pos t <=? m_max_length t then
    match fuel with
    | O => None
    | S fuel =>
        let at_pos (pos ipos : Z) :=
          mkThunk (base_offset t) (m_charinfos t) (m_tokens t) (m_kwinfos t) pos ipos (m_max_length t) (m_length t) (m_queue t) in
        let index := m_kw_pos t mod CHUNK_BUFFER_SIZE + base_offset t in
        if CHUNK_BUFFER_SIZE <=? index then None
        else
          match m_kwinfos t !! index with
          | Some info_kw =>
              match info_kw !! Z.to_nat (m_kw_ipos t) with
              | Some length => Some (at_pos (m_kw_pos t) (m_kw_ipos t + 1), u16 (m_kw_pos t), length)
              | None => peekKw_loop fuel (at_pos (m_kw_pos t + 1) 0)
              end
          | None => peekKw_loop fuel (at_pos (m_kw_pos t + 1) 0)
          end
    end
  else Some (t, 0, 0).

Definition peekKwToken (t : MMThunk) : option (MMThunk * Z * Z) :=
  let t := mkThunk (base_offset t) (m_charinfos t) (m_tokens t) (m_kwinfos t) (m_kw_pos t) (m_kw_ipos t)
             (Z.max (m_max_length t) (m_kw_pos t)) (m_length t) (m_queue t) in
  peekKw_loop (Z.to_nat (m_max_length t - m_kw_pos t + 1)) t.

(** The first item of the same length is erased. *)
Fixpoint erase (aSize : Z) (l : list Z) : list Z :=
  match l with
  | [] => []
  | x :: l => if x =? aSize then l else x :: erase aSize l
  end.

Definition pushToken (t : MMThunk) (aSize base : Z) : MMThunk :=
  let aSize := u16 aSize in
  let kw := if base <? 0 then m_kwinfos t
            else match m_kwinfos t !! base with
                 | Some l => <[base := erase aSize l]> (m_kwinfos t)
                 | None => m_kwinfos t
                 end in
  mkThunk (base_offset t) (m_charinfos t) (m_tokens t ++ [aSize]) kw (m_kw_pos t) (m_kw_ipos t) (m_max_length t)
    (u32 (m_length t + aSize)) (m_queue t).

Definition set_queue (t : MMThunk) (q : ChunkQueue) : MMThunk :=
  mkThunk (base_offset t) (m_charinfos t) (m_tokens t) (m_kwinfos t) (m_kw_pos t) (m_kw_ipos t) (m_max_length t) (m_length t) q.

(** The words after a first or a second one. *)
Definition next_info (t : MMThunk) (idx : Z) : option item_info :=
  if idx <? m_max_length t then m_charinfos t !! idx else None.

(** The loop over the second words. *)
Fixpoint loop2 (t : MMThunk) (idx_2nd : Z) (info_2nd : item_info) (its : list Z) (j : nat) (chunk : Chunk) (q : ChunkQueue) :
    option (Chunk * ChunkQueue) :=
  match its with
  | [] => Some (chunk, q)
  | it :: its =>
      let chunk := Chunk.pushToken chunk it (if (j =? 0)%nat then freq info_2nd else 1) in
      let idx_3rd := u16 (it + idx_2nd) in
      match next_info t idx_3rd with
      | Some info_3rd =>
          idx_4th ← last (items info_3rd);
          let chunk := Chunk.pushToken chunk idx_4th (if (length (items info_3rd) =? 1)%nat then freq info_3rd else 1) in
          let q := ChunkQueue.push q chunk in
          let chunk := Chunk.popup chunk in
          loop2 t idx_2nd info_2nd its (S j) (Chunk.popup chunk) q
      | None => loop2 t idx_2nd info_2nd its (S j) (Chunk.popup chunk) (ChunkQueue.push q chunk)
      end
  end.

(** The loop over the first words. *)
Fixpoint loop1 (t : MMThunk) (base : Z) (info_1st : item_info) (its : list Z) (i : nat) (chunk : Chunk) (q : ChunkQueue) :
    option (Chunk * ChunkQueue) :=
  match its with
  | [] => Some (chunk, q)
  | it :: its =>
      let chunk := Chunk.pushToken chunk it (if (i =? 0)%nat then freq info_1st else 0) in
      let idx_2nd := u16 (it + base) in
      r ← match next_info t idx_2nd with
          | Some info_2nd => loop2 t idx_2nd info_2nd (items info_2nd) 0 chunk q
          | None => Some (chunk, ChunkQueue.push q chunk)
          end;
      let '(chunk, q) := (r : Chunk * ChunkQueue) in
      loop1 t base info_1st its (S i) (Chunk.popup chunk) q
  end.

(** [base] is a [u2]; a token moves it on, so that it passes the end within
    [m_max_length] + 1 rounds when it does not wrap around. *)
Fixpoint Tokenize_loop (fuel : nat) (base : Z) (t : MMThunk) : option MMThunk :=
  if base <=? m_max_length t then
    match fuel with
    | O => None
    | S fuel =>
        info_1st ← m_charinfos t !! base;
        r ← loop1 t base info_1st (items info_1st) 0 Chunk.empty (m_queue t);
        let q := (r : Chunk * ChunkQueue).2 in
        tok_len ← ChunkQueue.getToken log_ q;
        if tok_len =? 0 then Some (set_queue t q)
        else
          let t := pushToken (set_queue t q) tok_len base in
          Tokenize_loop fuel (u16 (base + tok_len)) (set_queue t ChunkQueue.reset)
    end
  else Some t.

Definition Tokenize (t : MMThunk) : option MMThunk := Tokenize_loop (Z.to_nat (m_max_length t + 1)) 0 t.
End Thunk.
End MMThunk.

(** ** Floats of chunks *)

(** What rests on the values of the floats is checked for every chunk there
    can be: up to three words of up to 15 octets. *)
Definition avl_of (total size : Z) : spec_float :=
  float_div (float_mul (float_of_Z 1) (float_of_Z total)) (float_of_Z size).

Definition token_ok (l : Z) : Prop := 1 <= l <= 15.

Definition range (n : nat) : list Z := map Z.of_nat (seq 1 n).

Lemma in_range n z : 1 <= z <= Z.of_nat n -> In z (range n).
Proof. intros Hz. apply in_map_iff. exists (Z.to_nat z). split; [lia|]. apply in_seq. lia. Qed.

Lemma avl_pos total s : 1 <= total <= 45 -> 1 <= s <= 3 -> SFltb (float_of_Z 0) (avl_of total s) = true.
Proof.
  intros Ht Hs.
  assert (H : forallb (fun total => forallb (fun s => SFltb (float_of_Z 0) (avl_of total s)) (range 3)) (range 45) = true)
    by (vm_compute; reflexivity).
  rewrite forallb_forall in H. specialize (H total (in_range 45 _ Ht)). rewrite forallb_forall in H. exact (H s (in_range 3 _ Hs)).
Qed.

Lemma avl_inj total s s' :
  1 <= total <= 45 -> 1 <= s <= 3 -> 1 <= s' <= 3 -> SFeqb (avl_of total s) (avl_of total s') = true -> s = s'.
Proof.
  intros Ht Hs Hs' E.
  assert (H : forallb (fun total => forallb (fun s => forallb (fun s' =>
            (s =? s') || negb (SFeqb (avl_of total s) (avl_of total s'))) (range 3)) (range 3)) (range 45) = true)
    by (vm_compute; reflexivity).
  rewrite forallb_forall in H. specialize (H total (in_range 45 _ Ht)). rewrite forallb_forall in H.
  specialize (H s (in_range 3 _ Hs)). rewrite forallb_forall in H. specialize (H s' (in_range 3 _ Hs')). rewrite E in H. lia.
Qed.

(** A chunk as the thunk makes them. *)
Definition chunk_ok (c : Chunk) : Prop :=
  (1 <= length (tokens c) <= 3)%nat /\ Forall token_ok (tokens c) /\
  total_length c = fold_right Z.add 0 (tokens c) /\
  Forall (fun f => 0 <= f < 65536) (freqs c) /\ ((2 <= length (tokens c))%nat -> Exists (fun f => 0 < f) (freqs c)).

Lemma chunk_ok_bounds c : chunk_ok c -> 1 <= total_length c <= 45 /\ 1 <= Chunk.size c <= 3.
Proof.
  intros (Hl & Ht & Hsum & _). rewrite Hsum. unfold Chunk.size. unfold token_ok in Ht.
  destruct (tokens c) as [|x [|y [|z [|]]]]; cbn in Hl; try lia; rewrite ?Forall_cons in Ht; cbn; lia.
Qed.

Lemma avg_small c :
  chunk_ok c -> (2 <= length (tokens c))%nat -> SFltb (Chunk.get_avg c) (float_of_Z (1024 * 64)) = true.
Proof.
  intros (Hl & Ht & Hsum & _) H2.
  assert (H : forallb (fun x => forallb (fun y =>
      SFltb (Chunk.get_avg (mkChunk [x; y] [] (x + (y + 0)))) (float_of_Z (1024 * 64)) &&
      forallb (fun z => SFltb (Chunk.get_avg (mkChunk [x; y; z] [] (x + (y + (z + 0))))) (float_of_Z (1024 * 64)))
        (range 15)) (range 15)) (range 15) = true) by (vm_compute; reflexivity).
  rewrite forallb_forall in H.
  assert (E : Chunk.get_avg c = Chunk.get_avg (mkChunk (tokens c) [] (fold_right Z.add 0 (tokens c))))
    by (unfold Chunk.get_avg, Chunk.get_avl, Chunk.size; cbn [tokens total_length]; by rewrite <- Hsum).
  rewrite E. destruct (tokens c) as [|x [|y [|z [|]]]]; cbn in Hl, H2; try lia; rewrite ?Forall_cons in Ht;
    destruct Ht as (Hx & Hy & Ht); unfold token_ok in *; specialize (H x (in_range 15 _ Hx)); rewrite forallb_forall in H;
    specialize (H y (in_range 15 _ Hy)); apply andb_true_iff in H as [H1 H3]; [exact H1|].
  rewrite forallb_forall in H3. apply (H3 z (in_range 15 _ (proj1 Ht))).
Qed.

(** ** The logarithm *)

(** What the code relies on of [logf]: no score for a frequency of zero, and a
    positive one, of a moderate exponent, for the others. *)
Class LogLaws (log_ : spec_float -> spec_float) : Prop := {
  log_one : log_ (float_add (float_of_Z 0) (float_of_Z 1)) = S754_zero false;
  log_above n : 1 <= n < 65536 ->
    exists m e, log_ (float_add (float_of_Z n) (float_of_Z 1)) = S754_finite false m e /\ -100 <= e
}.

Section Log.
Context {log_ : spec_float -> spec_float} {Hlog : LogLaws log_}.

Lemma score_step f :
  0 <= f < 65536 ->
  let x := float_mul (log_ (float_add (float_of_Z f) (float_of_Z 1))) (float_of_Z 100) in is_nonneg x /\ (0 < f -> is_pos x).
Proof.
  intros Hf x. destruct (Z.eq_dec f 0) as [->|H0]; subst x.
  - rewrite log_one. split; [by left|lia].
  - destruct (log_above f ltac:(lia)) as (m & e & -> & He).
    change (float_of_Z 100) with (S754_finite false 13107200 (-17)).
    assert (H : is_pos (float_mul (S754_finite false m e) (S754_finite false 13107200 (-17)))) by (apply float_mul_pos; lia).
    split; [by right|done].
Qed.

Lemma get_free_pos c :
  Forall (fun f => 0 <= f < 65536) (freqs c) -> Exists (fun f => 0 < f) (freqs c) ->
  SFltb (float_of_Z 0) (Chunk.get_free log_ c) = true.
Proof.
  intros Hf Hex. unfold Chunk.get_free. change (float_of_Z 0) with (S754_zero false).
  set (step := fun score it => float_add score (float_mul (log_ (float_add (float_of_Z it) (float_of_Z 1))) (float_of_Z 100))).
  assert (Hfold : forall l acc, Forall (fun f => 0 <= f < 65536) l -> is_nonneg acc ->
            is_nonneg (fold_left step l acc) /\ (is_pos acc \/ Exists (fun f => 0 < f) l -> is_pos (fold_left step l acc))).
  { clear c Hf Hex. intros l. induction l as [|f l IH]; intros acc Hl Hacc; cbn [fold_left].
    - split; [done|]. intros [H|H]; [done|by inversion H].
    - apply Forall_cons in Hl as [Hf Hl]. destruct (score_step f Hf) as [Hn Hp].
      destruct (IH (step acc f) Hl) as [IH1 IH2]; [by apply float_add_nonneg|]. split; [done|].
      intros H. apply IH2. rewrite Exists_cons in H. destruct H as [H|[H|H]]; [|left|by right].
      + left. apply float_add_pos; [done|done|by left].
      + apply float_add_pos; [done|done|right; auto]. }
  destruct (Hfold (freqs c) (S754_zero false) Hf ltac:(by left)) as [Hn Hp].
  apply is_pos_spec; [done|]. apply Hp. by right.
Qed.
End Log.

(** ** The choice *)
Lemma getToken_many log_ chunks m :
  (2 <= length chunks)%nat ->
  ChunkQueue.getToken log_ (mkQueue chunks m) =
    (remains ← ChunkQueue.rule2 chunks 0 (float_of_Z 0) [];
     match remains with
     | [r] => ChunkQueue.first_token chunks r
     | _ =>
         remains_r3 ← ChunkQueue.rule3 chunks remains 0 (float_of_Z (1024 * 64)) [];
         match remains_r3 with
         | [r] => ChunkQueue.first_token chunks r
         | _ => idx ← ChunkQueue.rule4 log_ chunks remains_r3 (float_of_Z 0) None;
                i ← idx; ChunkQueue.first_token chunks i
         end
     end).
Proof. unfold ChunkQueue.getToken. cbn [m_chunks]. destruct chunks as [|c1 [|c2 l]]; cbn [length]; intros H; [lia|lia|done]. Qed.

Section Choice.
Context {log_ : spec_float -> spec_float} {Hlog : LogLaws log_}.
Context (all : list Chunk) (total : Z) (Hall : Forall chunk_ok all) (Htot : Forall (fun c => total_length c = total) all)
  (Hdup : NoDup (map tokens all)) (Hlen : (length all <= 256)%nat).

Lemma chunk_at i c : all !! i = Some c -> chunk_ok c /\ total_length c = total.
Proof.
  intros Hi. split; [by eapply (Forall_lookup_1 _ _ _ _ Hall)|]. by eapply (Forall_lookup_1 _ _ _ _ Htot).
Qed.

Lemma chunk_avl i c : all !! i = Some c -> Chunk.get_avl c = avl_of total (Chunk.size c) /\ 1 <= total <= 45 /\ 1 <= Chunk.size c <= 3.
Proof.
  intros Hi. destruct (chunk_at i c Hi) as [Hc <-]. split; [done|]. by apply chunk_ok_bounds.
Qed.

Definition of_size (s : Z) (r : nat) : Prop := exists c, all !! r = Some c /\ Chunk.size c = s.

Lemma rule2_spec pre cs avg remains :
  all = pre ++ cs -> (pre ++ cs <> []) ->
  (pre = [] /\ avg = float_of_Z 0 /\ remains = []) \/
  (exists s, 1 <= s <= 3 /\ avg = avl_of total s /\ remains <> [] /\ Forall (of_size s) remains /\ NoDup remains /\
     Forall (fun r => (r < length pre)%nat) remains /\ (length remains <= length pre)%nat) ->
  exists s r, ChunkQueue.rule2 cs (length pre) avg remains = Some r /\ r <> [] /\ Forall (of_size s) r /\ NoDup r /\ (length r <= length all)%nat.
Proof.
  revert pre avg remains. induction cs as [|c cs IH]; intros pre avg remains Eall Hne Hinv; cbn [ChunkQueue.rule2].
  { destruct Hinv as [(-> & _ & _)|(s & _ & _ & Hr & Hs & Hnd & _ & Hl)]; [done|]. exists s, remains.
    rewrite Eall, app_nil_r. done. }
  assert (Hi : all !! length pre = Some c) by (by rewrite Eall, lookup_app_r, Nat.sub_diag by done).
  destruct (chunk_avl _ c Hi) as (-> & Ht & Hs). rewrite cons_middle in Eall, Hne. rewrite app_assoc in Eall, Hne.
  assert (El : S (length pre) = length (pre ++ [c])) by (rewrite length_app; cbn; lia). rewrite El.
  assert (Hlt : (length pre < 256)%nat) by (rewrite Eall, !length_app in Hlen; cbn in Hlen; lia).
  assert (Hnew : exists s, 1 <= s <= 3 /\ avl_of total (Chunk.size c) = avl_of total s /\ [length pre] <> [] /\
     Forall (of_size s) [length pre] /\ NoDup [length pre] /\ Forall (fun r => (r < length (pre ++ [c]))%nat) [length pre] /\
     (length [length pre] <= length (pre ++ [c]))%nat).
  { exists (Chunk.size c). refine (conj Hs (conj eq_refl (conj _ (conj _ (conj (NoDup_singleton _) (conj _ _)))))); [done| | |].
    - apply Forall_singleton. by exists c.
    - apply Forall_singleton. lia.
    - cbn [length]. lia. }
  destruct Hinv as [(-> & -> & ->)|(s & Hsr & -> & Hr & Hsz & Hnd & Hrl & Hl)].
  - rewrite avl_pos by done. apply IH; [done|done|by right].
  - destruct (SFltb (avl_of total s) _); [apply IH; [done|done|by right]|].
    destruct (SFeqb _ _) eqn:Eq; [|apply IH; [done|done|right; exists s]].
    + apply avl_inj in Eq as <-; [|done..]. unfold ChunkQueue.put. destruct (Nat.ltb_spec (length remains) 256); [|lia].
      cbn [mbind option_bind]. apply IH; [done|done|right; exists (Chunk.size c)].
      refine (conj Hs (conj eq_refl (conj _ (conj _ (conj _ (conj _ _)))))).
      * by destruct remains.
      * apply Forall_app. split; [done|]. apply Forall_singleton. by exists c.
      * apply NoDup_app. split_and!; [done| |apply NoDup_singleton]. intros x Hx Hx'. apply list_elem_of_singleton in Hx' as ->.
        rewrite Forall_forall in Hrl. apply Hrl in Hx. lia.
      * apply Forall_app. split; [eapply Forall_impl; [exact Hrl|]; cbn; intros; lia|]. apply Forall_singleton. lia.
      * rewrite length_app. cbn. lia.
    + refine (conj Hsr (conj eq_refl (conj Hr (conj Hsz (conj Hnd (conj _ _)))))); [|lia].
      eapply Forall_impl; [exact Hrl|]; cbn; intros; lia.
Qed.

(** Two chunks of a single word cannot tie: they would be the same. *)
Lemma ties_are_long s r1 r2 l : Forall (of_size s) (r1 :: r2 :: l) -> NoDup (r1 :: r2 :: l) -> 2 <= s.
Proof.
  intros [(c1 & E1 & S1) [(c2 & E2 & S2) _]%Forall_cons]%Forall_cons Hnd.
  destruct (chunk_avl _ _ E1) as (_ & _ & H1). destruct (Z.eq_dec s 1) as [->|]; [exfalso|lia].
  destruct (chunk_at _ _ E1) as [(_ & _ & T1 & _) T1'], (chunk_at _ _ E2) as [(_ & _ & T2 & _) T2']. unfold Chunk.size in *.
  assert (Et : tokens c1 = tokens c2).
  { destruct (tokens c1) as [|x [|]], (tokens c2) as [|y [|]]; cbn in S1, S2, T1, T2; try lia. f_equal. lia. }
  apply NoDup_cons in Hnd as [Hnin _]. apply Hnin. assert (r1 = r2) as ->; [|by left].
  eapply NoDup_lookup; [exact Hdup| |]; rewrite list_lookup_fmap; [by rewrite E1|by rewrite E2, Et].
Qed.

Lemma rule3_spec rs i avg r3 :
  Forall (fun r => exists c, all !! r = Some c /\ (2 <= length (tokens c))%nat) rs ->
  (i + length rs <= length all)%nat -> (length r3 <= i)%nat -> Forall (fun r => (r < length all)%nat) r3 ->
  (r3 = [] /\ avg = float_of_Z (1024 * 64) /\ rs <> []) \/
  (exists h c l, r3 = h :: l /\ all !! h = Some c /\ (2 <= length (tokens c))%nat) ->
  exists h c l, ChunkQueue.rule3 all rs i avg r3 = Some (h :: l) /\ all !! h = Some c /\ (2 <= length (tokens c))%nat /\
    Forall (fun r => (r < length all)%nat) l.
Proof.
  intros Hrs. revert i avg r3. induction Hrs as [|r rs (c & Ec & Hc) Hrs IH]; intros i avg r3 Hi Hr3 Hlt Hinv; cbn [ChunkQueue.rule3].
  { destruct Hinv as [(_ & _ & H)|(h & c & l & -> & E & H)]; [done|]. exists h, c, l. apply Forall_cons in Hlt as [_ Hlt]. done. }
  cbn [length] in Hi. rewrite Ec. cbn [mbind option_bind].
  assert (Hnew : exists h c l, [r] = h :: l /\ all !! h = Some c /\ (2 <= length (tokens c))%nat) by (by exists r, c, []).
  assert (Hr : (r < length all)%nat) by (apply lookup_lt_is_Some; by exists c).
  destruct (SFltb (Chunk.get_avg c) avg) eqn:Elt.
  - apply IH; [lia|cbn; lia|by apply Forall_singleton|by right].
  - destruct Hinv as [(_ & -> & _)|(h & c' & l & -> & E & H)].
    + rewrite avg_small in Elt; [done|by eapply (Forall_lookup_1 _ _ _ _ Hall)|done].
    + destruct (SFeqb _ _).
      * unfold ChunkQueue.put. destruct (Nat.ltb_spec (length (h :: l)) 256); [|lia]. cbn [mbind option_bind].
        apply IH; [lia|rewrite length_app; cbn in *; lia|apply Forall_app; split; [done|apply Forall_singleton; lia]|].
        right. by exists h, c', (l ++ [i]).
      * apply IH; [lia|lia|done|]. right. by exists h, c', l.
Qed.

Lemma rule4_some rs score i :
  Forall (fun r => (r < length all)%nat) rs -> (i < length all)%nat ->
  exists j, ChunkQueue.rule4 log_ all rs score (Some i) = Some (Some j) /\ (j < length all)%nat.
Proof.
  intros Hrs. revert score i. induction Hrs as [|r rs Hr Hrs IH]; intros score i Hi; cbn [ChunkQueue.rule4]; [by exists i|].
  destruct (lookup_lt_is_Some_2 all r Hr) as [c ->]. cbn [mbind option_bind]. destruct (SFltb score _); by apply IH.
Qed.

Lemma first_token_ok i : (i < length all)%nat ->
  exists c t, all !! i = Some c /\ tokens c !! O = Some t /\ ChunkQueue.first_token all i = Some t.
Proof.
  intros Hi. destruct (lookup_lt_is_Some_2 all i Hi) as [c E]. pose proof (Forall_lookup_1 _ _ _ _ Hall E) as ((Hl & _) & _).
  destruct (lookup_lt_is_Some_2 (tokens c) 0 ltac:(lia)) as [t Et]. exists c, t. unfold ChunkQueue.first_token. by rewrite E.
Qed.

(** The queue always has an answer: the first word of one of its chunks. *)
Lemma getToken_some m :
  all <> [] -> exists c t, c ∈ all /\ tokens c !! O = Some t /\ ChunkQueue.getToken log_ (mkQueue all m) = Some t.
Proof.
  intros Hne. assert (Hpick : forall i r, (i < length all)%nat -> r = ChunkQueue.first_token all i ->
    exists c t, c ∈ all /\ tokens c !! O = Some t /\ r = Some t).
  { intros i r Hi ->. destruct (first_token_ok i Hi) as (c & t & E & Et & ->). exists c, t.
    split; [by eapply list_elem_of_lookup_2|done]. }
  destruct (Nat.le_gt_cases 2 (length all)) as [H2|H2].
  2: { apply (Hpick O); [destruct all; [done|cbn; lia]|]. destruct all as [|c1 [|]]; [done|done|cbn in H2; lia]. }
  rewrite getToken_many by done.
  destruct (rule2_spec [] all (float_of_Z 0) [] eq_refl) as (s & rs & E2 & Hne2 & Hs & Hnd & Hl2); [done|by left|].
  cbn [length] in E2. rewrite E2. cbn [mbind option_bind].
  assert (Hlt : forall r, of_size s r -> (r < length all)%nat) by (intros r (c & E & _); apply lookup_lt_is_Some; by exists c).
  destruct rs as [|r1 [|r2 rs]]; [done| |].
  { apply (Hpick r1); [|done]. rewrite Forall_singleton in Hs. exact (Hlt r1 Hs). }
  pose proof (ties_are_long s r1 r2 rs Hs Hnd) as Hs2.
  destruct (rule3_spec (r1 :: r2 :: rs) 0 (float_of_Z (1024 * 64)) []) as (h & c & r3 & E3 & Ec & Hc & Hr3).
  { eapply Forall_impl; [exact Hs|]. intros r (c & E & Hc). exists c. split; [done|]. unfold Chunk.size in Hc. lia. }
  { cbn [length] in *. lia. } { cbn; lia. } { done. } { by left. }
  rewrite E3. cbn [mbind option_bind]. assert (Hh : (h < length all)%nat) by (apply lookup_lt_is_Some; by exists c).
  destruct r3 as [|r4 r3]; [by apply (Hpick h)|]. cbn [ChunkQueue.rule4]. rewrite Ec. cbn [mbind option_bind].
  pose proof (Forall_lookup_1 _ _ _ _ Hall Ec) as (_ & _ & _ & Hf & Hex). rewrite get_free_pos by auto.
  destruct (rule4_some (r4 :: r3) (Chunk.get_free log_ c) h Hr3 Hh) as (j & Ej & Hj). cbn [ChunkQueue.rule4] in Ej.
  rewrite Ej. cbn [mbind option_bind]. by apply (Hpick j).
Qed.
End Choice.

Lemma u16_small z : 0 <= z < 65536 -> u16 z = z.
Proof. intros Hz. unfold u16. by rewrite Z.mod_small. Qed.

(** ** The phrases *)

(** A grid as the segmenter fills it: at an offset that is set are words, by
    length, of which the next is set again or the text is at an end. *)
Definition item_ok (t : MMThunk) (k : Z) (info : item_info) : Prop :=
  0 <= k <= m_max_length t /\ items info <> [] /\ StronglySorted Z.lt (items info) /\ Forall token_ok (items info) /\
  u16 (freq info) <> 0 /\ Forall (fun l => m_max_length t < k + l \/ is_Some (m_charinfos t !! (k + l))) (items info).

Record grid_ok (t : MMThunk) : Prop := {
  grid_max : -1 <= m_max_length t < CHUNK_BUFFER_SIZE;
  grid_start : 0 <= m_max_length t -> is_Some (m_charinfos t !! 0);
  grid_items k info : m_charinfos t !! k = Some info -> item_ok t k info
}.

(** A word of the grid at an offset, by its length. *)
Definition word_at (t : MMThunk) (k l : Z) : Prop := exists info, m_charinfos t !! k = Some info /\ l ∈ items info.

(** Words one behind the other.  Every word but the first starts in front of
    the last offset of the chunk. *)
Fixpoint words_from (t : MMThunk) (k : Z) (p : list Z) : Prop :=
  match p with
  | [] => True
  | l :: p => word_at t k l /\ (p = [] \/ k + l < m_max_length t) /\ words_from t (k + l) p
  end.

(** A phrase: up to three words. *)
Definition phrase (t : MMThunk) (base : Z) (p : list Z) : Prop := p <> [] /\ (length p <= 3)%nat /\ words_from t base p.

(** The phrases the loops form: none ends where a word could follow, and the
    third word is the last of its item. *)
Inductive formed (t : MMThunk) (base : Z) : list Z -> Prop :=
| formed_1 i1 a :
    m_charinfos t !! base = Some i1 -> a ∈ items i1 -> MMThunk.next_info t (base + a) = None -> formed t base [a]
| formed_2 i1 i2 a b :
    m_charinfos t !! base = Some i1 -> a ∈ items i1 -> MMThunk.next_info t (base + a) = Some i2 -> b ∈ items i2 ->
    MMThunk.next_info t (base + a + b) = None -> formed t base [a; b]
| formed_3 i1 i2 i3 a b c :
    m_charinfos t !! base = Some i1 -> a ∈ items i1 -> MMThunk.next_info t (base + a) = Some i2 -> b ∈ items i2 ->
    MMThunk.next_info t (base + a + b) = Some i3 -> last (items i3) = Some c -> formed t base [a; b; c].

Definition sum (l : list Z) : Z := fold_right Z.add 0 l.

(** A cover of the chunk by tokens, each the first word of a longest phrase. *)
Inductive greedy_cover (t : MMThunk) : Z -> list Z -> Prop :=
| cover_end base : m_max_length t < base -> greedy_cover t base []
| cover_step base tok p ts :
    base <= m_max_length t -> phrase t base (tok :: p) -> (forall p', phrase t base p' -> sum p' <= sum (tok :: p)) ->
    greedy_cover t (base + tok) ts -> greedy_cover t base (tok :: ts).

(** The words of a phrase with their frequencies, and the phrases in the order
    of the loops; [start] is the number of words before. *)
Definition third (t : MMThunk) (idx : Z) : list (list (Z * Z)) :=
  match MMThunk.next_info t idx with
  | Some i3 =>
      match last (items i3) with
      | Some c => [[(c, if (length (items i3) =? 1)%nat then freq i3 else 1)]]
      | None => []
      end
  | None => [[]]
  end.

Fixpoint seconds (t : MMThunk) (idx : Z) (i2 : item_info) (its : list Z) (start : nat) : list (list (Z * Z)) :=
  match its with
  | [] => []
  | b :: its =>
      map (cons (b, if (start =? 0)%nat then freq i2 else 1)) (third t (idx + b)) ++ seconds t idx i2 its (S start)
  end.

Definition rests (t : MMThunk) (idx : Z) : list (list (Z * Z)) :=
  match MMThunk.next_info t idx with
  | Some i2 => seconds t idx i2 (items i2) 0
  | None => [[]]
  end.

Fixpoint firsts (t : MMThunk) (base : Z) (i1 : item_info) (its : list Z) (start : nat) : list (list (Z * Z)) :=
  match its with
  | [] => []
  | a :: its => map (cons (a, if (start =? 0)%nat then freq i1 else 0)) (rests t (base + a)) ++ firsts t base i1 its (S start)
  end.

Definition extend (c : Chunk) (p : list (Z * Z)) : Chunk := fold_left (fun c w => Chunk.pushToken c w.1 w.2) p c.

Lemma extend_spec c p :
  extend c p = mkChunk (tokens c ++ map (fun w => u16 w.1) p) (freqs c ++ map (fun w => u16 w.2) p)
                 (total_length c + sum (map (fun w => u16 w.1) p)).
Proof.
  revert c. induction p as [|w p IH]; intros c; cbn [extend fold_left map sum fold_right].
  - rewrite !app_nil_r, Z.add_0_r. by destruct c.
  - fold (extend (Chunk.pushToken c w.1 w.2) p). rewrite IH. unfold Chunk.pushToken. cbn [tokens freqs total_length].
    rewrite <- !app_assoc. cbn [app]. unfold sum. f_equal. lia.
Qed.

Lemma popup_push c l f : Chunk.popup (Chunk.pushToken c l f) = c.
Proof.
  unfold Chunk.popup, Chunk.pushToken. cbn [tokens freqs total_length]. rewrite last_snoc, !length_app. cbn [length].
  rewrite !Nat.add_sub, !take_app_length. destruct c. cbn. f_equal. lia.
Qed.

Section Grid.
Context (t : MMThunk) (Hgrid : grid_ok t).

Lemma grid_at k info : m_charinfos t !! k = Some info -> item_ok t k info.
Proof. apply (grid_items t Hgrid). Qed.

Lemma next_at k info : MMThunk.next_info t k = Some info -> item_ok t k info.
Proof. unfold MMThunk.next_info. destruct (k <? _); [apply grid_at|done]. Qed.

Lemma item_len k info l : item_ok t k info -> l ∈ items info -> token_ok l.
Proof. intros (_ & _ & _ & H & _) Hl. rewrite Forall_forall in H. by apply H. Qed.

Lemma u16_off k info l :
  item_ok t k info -> l ∈ items info -> u16 l = l /\ u16 (l + k) = k + l.
Proof.
  intros Hi Hl. pose proof (item_len _ _ _ Hi Hl) as H. destruct Hi as (Hk & _). pose proof (grid_max t Hgrid).
  unfold token_ok, CHUNK_BUFFER_SIZE in *. split; [apply u16_small|rewrite u16_small]; lia.
Qed.

Definition pushes (q : ChunkQueue) (cs : list Chunk) : ChunkQueue := fold_left ChunkQueue.push cs q.

Lemma last_items k info : item_ok t k info -> exists l, last (items info) = Some l /\ l ∈ items info.
Proof.
  intros (_ & Hne & _). destruct (last (items info)) as [l|] eqn:E; [|by apply last_None in E].
  exists l. split; [done|]. by apply last_Some_elem_of.
Qed.

Lemma loop2_spec idx i2 its start chunk q :
  item_ok t idx i2 -> (forall b, b ∈ its -> b ∈ items i2) ->
  MMThunk.loop2 t idx i2 its start chunk q = Some (chunk, pushes q (map (extend chunk) (seconds t idx i2 its start))).
Proof.
  intros Hi Hin. revert start q. induction its as [|b its IH]; intros start q; cbn [MMThunk.loop2 seconds]; [done|].
  destruct (u16_off idx i2 b Hi) as [_ ->]; [apply Hin; by left|]. rewrite map_app. unfold pushes. rewrite fold_left_app.
  unfold third. destruct (MMThunk.next_info t (idx + b)) as [i3|] eqn:E3.
  - destruct (last_items _ _ (next_at _ _ E3)) as (c & -> & _). cbn [mbind option_bind map fold_left]. rewrite !popup_push.
    rewrite IH by (intros; apply Hin; by right). done.
  - rewrite popup_push, IH by (intros; apply Hin; by right). done.
Qed.

Lemma loop1_spec base i1 its start chunk q :
  item_ok t base i1 -> (forall a, a ∈ its -> a ∈ items i1) ->
  MMThunk.loop1 t base i1 its start chunk q = Some (chunk, pushes q (map (extend chunk) (firsts t base i1 its start))).
Proof.
  intros Hi Hin. revert start q. induction its as [|a its IH]; intros start q; cbn [MMThunk.loop1 firsts]; [done|].
  destruct (u16_off base i1 a Hi) as [_ ->]; [apply Hin; by left|]. rewrite map_app, map_map. unfold pushes. rewrite fold_left_app.
  unfold rests. destruct (MMThunk.next_info t (base + a)) as [i2|] eqn:E2.
  - rewrite loop2_spec by (apply (next_at _ _ E2) || done). cbn [mbind option_bind]. rewrite popup_push.
    rewrite IH by (intros; apply Hin; by right). done.
  - cbn [mbind option_bind map fold_left]. rewrite popup_push, IH by (intros; apply Hin; by right). done.
Qed.

(** *** What the phrases are *)
Lemma seconds_elem idx i2 its start p :
  p ∈ seconds t idx i2 its start ->
  exists b f p', p = (b, f) :: p' /\ b ∈ its /\ p' ∈ third t (idx + b) /\ (f = freq i2 \/ f = 1).
Proof.
  revert start. induction its as [|b its IH]; intros start Hp; cbn [seconds] in Hp; [by apply elem_of_nil in Hp|].
  apply elem_of_app in Hp as [Hp|Hp].
  - apply list_elem_of_fmap in Hp as (p' & -> & Hp'). eexists b, _, p'. split; [reflexivity|]. split; [by left|].
    split; [done|]. destruct (start =? 0)%nat; auto.
  - destruct (IH _ Hp) as (b' & f & p' & -> & Hb & H). exists b', f, p'. split; [done|]. split; [by right|done].
Qed.
Lemma firsts_elem base i1 its start p :
  p ∈ firsts t base i1 its start -> exists a f p', p = (a, f) :: p' /\ a ∈ its /\ p' ∈ rests t (base + a).
Proof.
  revert start. induction its as [|a its IH]; intros start Hp; cbn [firsts] in Hp; [by apply elem_of_nil in Hp|].
  apply elem_of_app in Hp as [Hp|Hp].
  - apply list_elem_of_fmap in Hp as (p' & -> & Hp'). eexists a, _, p'. split; [reflexivity|]. split; [by left|done].
  - destruct (IH _ Hp) as (a' & f & p' & -> & Ha & H). exists a', f, p'. split; [done|]. split; [by right|done].
Qed.

Lemma third_elem idx p : p ∈ third t idx -> p = [] \/ exists c f, p = [(c, f)] /\ token_ok c.
Proof.
  unfold third. destruct (MMThunk.next_info t idx) as [i3|] eqn:E3; [|intros ->%list_elem_of_singleton; by left].
  pose proof (next_at _ _ E3) as Hi. destruct (last_items _ _ Hi) as (c & -> & Hc). intros ->%list_elem_of_singleton. right.
  eexists c, _. split; [done|]. by eapply item_len.
Qed.

Lemma rests_elem idx p :
  p ∈ rests t idx ->
  p = [] \/ exists b f p', p = (b, f) :: p' /\ token_ok b /\ 0 < u16 f /\ (p' = [] \/ exists c f', p' = [(c, f')] /\ token_ok c).
Proof.
  unfold rests. destruct (MMThunk.next_info t idx) as [i2|] eqn:E2; [|intros ->%list_elem_of_singleton; by left].
  pose proof (next_at _ _ E2) as Hi. intros (b & f & p' & -> & Hb & Hp' & Hf)%seconds_elem. right. exists b, f, p'. split; [done|].
  split; [by eapply item_len|]. split; [|by eapply third_elem]. destruct Hi as (_ & _ & _ & _ & H0 & _).
  destruct Hf as [->| ->]; [|done]. pose proof (Z.mod_pos_bound (freq i2) (2 ^ 16)). unfold u16 in *. lia.
Qed.

Lemma extend_tokens base i1 p :
  item_ok t base i1 -> p ∈ firsts t base i1 (items i1) 0 ->
  chunk_ok (extend Chunk.empty p) /\ tokens (extend Chunk.empty p) = map fst p /\
  total_length (extend Chunk.empty p) = sum (map fst p).
Proof.
  intros Hi (a & f & p' & -> & Ha & Hp')%firsts_elem. pose proof (item_len _ _ _ Hi Ha) as Ha'.
  assert (Hu : forall l, token_ok l -> u16 l = l) by (intros l Hl; apply u16_small; unfold token_ok in Hl; lia).
  assert (Hr : forall f, 0 <= u16 f < 65536) by (intros g; apply (Z.mod_pos_bound g (2 ^ 16)); lia).
  rewrite extend_spec. unfold chunk_ok, Chunk.empty. cbn [tokens freqs total_length app].
  destruct (rests_elem _ _ Hp') as [->|(b & f2 & p2 & -> & Hb & Hf2 & [->|(c & f3 & -> & Hc)])]; cbn [map fst snd length];
    rewrite ?Hu by done; (split; [split_and!|]); try lia; try done; repeat (constructor; auto); try lia;
    intros; apply Exists_exists; (exists (u16 f2); split; [right; left|done]).
Qed.

(** By the lengths alone. *)
Definition third_l (idx : Z) : list (list Z) :=
  match MMThunk.next_info t idx with
  | Some i3 => match last (items i3) with Some c => [[c]] | None => [] end
  | None => [[]]
  end.

Definition rests_l (idx : Z) : list (list Z) :=
  match MMThunk.next_info t idx with
  | Some i2 => flat_map (fun b => map (cons b) (third_l (idx + b))) (items i2)
  | None => [[]]
  end.

Definition firsts_l (base : Z) (its : list Z) : list (list Z) :=
  flat_map (fun a => map (cons a) (rests_l (base + a))) its.

Lemma third_fst idx : map (map fst) (third t idx) = third_l idx.
Proof. unfold third, third_l. destruct (MMThunk.next_info t idx) as [i3|]; [|done]. by destruct (last (items i3)). Qed.

Lemma rests_fst idx : map (map fst) (rests t idx) = rests_l idx.
Proof.
  unfold rests, rests_l. destruct (MMThunk.next_info t idx) as [i2|]; [|done]. generalize 0%nat as start.
  induction (items i2) as [|b its IH]; intros start; cbn [seconds flat_map]; [done|].
  rewrite map_app, IH, <- third_fst, !map_map. done.
Qed.

Lemma firsts_fst base i1 its start : map (map fst) (firsts t base i1 its start) = firsts_l base its.
Proof.
  revert start. induction its as [|a its IH]; intros start; cbn [firsts firsts_l flat_map]; [done|].
  rewrite map_app, IH, <- rests_fst, !map_map. done.
Qed.

Lemma firsts_l_formed base i1 p :
  m_charinfos t !! base = Some i1 -> p ∈ firsts_l base (items i1) <-> formed t base p.
Proof.
  intros E1. unfold firsts_l. rewrite list_elem_of_In, in_flat_map. split.
  - intros (a & Ha & (p' & <- & Hp')%in_map_iff). apply list_elem_of_In in Ha. unfold rests_l in Hp'.
    destruct (MMThunk.next_info t (base + a)) as [i2|] eqn:E2; [|destruct Hp' as [<-|[]]; by eapply formed_1].
    apply in_flat_map in Hp' as (b & Hb & (p2 & <- & Hp2)%in_map_iff). apply list_elem_of_In in Hb. unfold third_l in Hp2.
    destruct (MMThunk.next_info t (base + a + b)) as [i3|] eqn:E3; [|destruct Hp2 as [<-|[]]; by eapply formed_2].
    destruct (last (items i3)) as [c|] eqn:E4; [|destruct Hp2]. destruct Hp2 as [<-|[]]. by eapply formed_3.
  - intros [i1' a E1' Ha E2|i1' i2 a b E1' Ha E2 Hb E3|i1' i2 i3 a b c E1' Ha E2 Hb E3 E4];
      rewrite E1 in E1'; injection E1' as <-; exists a; (split; [by apply list_elem_of_In|]);
      apply in_map; unfold rests_l; rewrite E2; [by left| |];
      apply in_flat_map; exists b; (split; [by apply list_elem_of_In|]); apply in_map; unfold third_l; rewrite E3; [by left|].
    rewrite E4. by left.
Qed.

Lemma NoDup_words (l : list Z) (f : Z -> list (list Z)) :
  NoDup l -> (forall a, a ∈ l -> NoDup (f a)) -> NoDup (flat_map (fun a => map (cons a) (f a)) l).
Proof.
  intros Hl Hf. induction Hl as [|a l Ha Hl IH]; cbn [flat_map]; [constructor|]. apply NoDup_app. split_and!.
  - apply NoDup_fmap_2; [intros x y; by intros [= ->]|]. apply Hf. by left.
  - intros x Hx Hx'. apply list_elem_of_fmap in Hx as (x' & -> & _).
    apply list_elem_of_In, in_flat_map in Hx' as (a' & Ha' & (y & [= -> ->] & _)%in_map_iff). apply Ha. by apply list_elem_of_In.
  - apply IH. intros a' Ha'. apply Hf. by right.
Qed.

Lemma items_nodup l : StronglySorted Z.lt l -> NoDup l.
Proof.
  induction 1 as [|x l Hl IH Hx]; constructor; [|done]. intros Hin. rewrite Forall_forall in Hx. apply Hx in Hin. lia.
Qed.

Lemma firsts_l_nodup base i1 : item_ok t base i1 -> NoDup (firsts_l base (items i1)).
Proof.
  intros Hi. apply NoDup_words; [apply items_nodup, Hi|]. intros a Ha. unfold rests_l.
  destruct (MMThunk.next_info t (base + a)) as [i2|] eqn:E2; [|apply NoDup_singleton].
  apply NoDup_words; [apply items_nodup, (next_at _ _ E2)|]. intros b Hb. unfold third_l.
  destruct (MMThunk.next_info t (base + a + b)) as [i3|]; [|apply NoDup_singleton]. destruct (last (items i3)); [apply NoDup_singleton|constructor].
Qed.

Lemma length_flat_map_le {A B} (f : A -> list B) l n :
  (forall a, a ∈ l -> (length (f a) <= n)%nat) -> (length (flat_map f l) <= length l * n)%nat.
Proof.
  induction l as [|a l IH]; intros H; cbn [flat_map length]; [lia|]. rewrite length_app.
  specialize (H a) as Ha. specialize (Ha ltac:(by left)). specialize (IH ltac:(intros; apply H; by right)). lia.
Qed.

Lemma items_length k info : item_ok t k info -> (length (items info) <= 15)%nat.
Proof.
  intros (_ & _ & Hs & Hok & _).
  assert (H : forall l lo, StronglySorted Z.lt l -> Forall token_ok l -> Forall (fun x => lo < x) l -> 0 <= lo <= 15 ->
            Z.of_nat (length l) <= 15 - lo).
  { clear. intros l. induction l as [|x l IH]; intros lo Hs Hok Hlo H; cbn [length]; [lia|].
    apply Forall_cons in Hok as [Hx Hok]. apply Forall_cons in Hlo as [Hlo _]. apply StronglySorted_inv in Hs as [Hs Hgt].
    unfold token_ok in Hx. specialize (IH x Hs Hok Hgt ltac:(lia)). lia. }
  specialize (H (items info) 0 Hs Hok). lapply H; [lia|]. eapply Forall_impl; [exact Hok|]. unfold token_ok. cbn. lia.
Qed.

Lemma firsts_l_length base i1 : item_ok t base i1 -> (length (firsts_l base (items i1)) <= 256)%nat.
Proof.
  intros Hi. pose proof (items_length _ _ Hi).
  assert (Hr : forall idx, (length (rests_l idx) <= 15)%nat).
  { intros idx. unfold rests_l. destruct (MMThunk.next_info t idx) as [i2|] eqn:E2; [|cbn; lia].
    pose proof (items_length _ _ (next_at _ _ E2)). etransitivity; [apply (length_flat_map_le _ _ 1)|lia].
    intros b _. rewrite length_map. unfold third_l. destruct (MMThunk.next_info t (idx + b)) as [i3|]; [|cbn; lia].
    destruct (last (items i3)); cbn; lia. }
  etransitivity; [apply (length_flat_map_le _ _ 15)|lia]. intros a _. rewrite length_map. apply Hr.
Qed.

Lemma firsts_l_nonempty base i1 : item_ok t base i1 -> firsts_l base (items i1) <> [].
Proof.
  intros Hi. pose proof Hi as (_ & Hne & _). destruct (items i1) as [|a its] eqn:E; [done|]. unfold firsts_l. cbn [flat_map].
  assert (Hr : rests_l (base + a) <> []).
  { unfold rests_l. destruct (MMThunk.next_info t (base + a)) as [i2|] eqn:E2; [|done].
    destruct (next_at _ _ E2) as (_ & Hne2 & _). destruct (items i2) as [|b its2]; [done|]. cbn [flat_map].
    assert (third_l (base + a + b) <> []).
    { unfold third_l. destruct (MMThunk.next_info t (base + a + b)) as [i3|] eqn:E3; [|done].
      by destruct (last_items _ _ (next_at _ _ E3)) as (c & -> & _). }
    by destruct (third_l _). }
  by destruct (rests_l _).
Qed.

(** *** The queue after the loops *)
Definition longest (cs : list Chunk) : Z := fold_left (fun m c => Z.max m (total_length c)) cs 0.

Lemma longest_snoc cs c : longest (cs ++ [c]) = Z.max (longest cs) (total_length c).
Proof. unfold longest. by rewrite fold_left_app. Qed.

Lemma longest_ge cs c : c ∈ cs -> total_length c <= longest cs.
Proof.
  induction cs as [|d cs IH] using rev_ind; [by intros ?%elem_of_nil|]. rewrite longest_snoc.
  intros [H|H%list_elem_of_singleton]%elem_of_app; [specialize (IH H); lia|subst; lia].
Qed.

Lemma longest_attained cs : Forall (fun c => 0 < total_length c) cs -> cs <> [] -> exists c, c ∈ cs /\ total_length c = longest cs.
Proof.
  induction cs as [|d cs IH] using rev_ind; [done|]. rewrite longest_snoc. intros [Hcs Hd]%Forall_app _.
  rewrite Forall_singleton in Hd. destruct cs as [|c cs].
  - exists d. split; [by left|]. change (longest []) with 0. lia.
  - destruct IH as (x & Hx & Ex); [done|done|]. destruct (Z.le_gt_cases (longest (c :: cs)) (total_length d)) as [H|H].
    + exists d. split; [apply elem_of_app; right; by left|lia].
    + exists x. split; [apply elem_of_app; by left|lia].
Qed.

Lemma pushes_spec cs :
  pushes ChunkQueue.reset cs = mkQueue (filter (fun c => total_length c = longest cs) cs) (longest cs).
Proof.
  induction cs as [|c cs IH] using rev_ind; [done|]. unfold pushes in *. rewrite fold_left_app, IH. cbn [fold_left].
  unfold ChunkQueue.push. cbn [max_length m_chunks]. rewrite longest_snoc, filter_app.
  destruct (Z.ltb_spec (total_length c) (longest cs)) as [H|H].
  - rewrite Z.max_l, filter_cons, decide_False, filter_nil, app_nil_r by lia. done.
  - destruct (Z.ltb_spec (longest cs) (total_length c)) as [H'|H'].
    + rewrite Z.max_r, (filter_cons _ c), decide_True, filter_nil by lia. f_equal.
      replace (filter _ cs) with (@nil Chunk); [done|]. symmetry.
      destruct (filter (fun d => total_length d = total_length c) cs) as [|d l] eqn:Ef; [done|].
      assert (d ∈ d :: l) as Hd by by left. rewrite <- Ef in Hd. apply list_elem_of_filter in Hd as [Ed Hd%longest_ge]. lia.
    + assert (total_length c = longest cs) as Ec by lia. rewrite Ec, Z.max_id, (filter_cons _ c), decide_True by done. done.
Qed.

(** *** The phrases the loops form among all phrases *)
Lemma next_some k info :
  MMThunk.next_info t k = Some info <-> k < m_max_length t /\ m_charinfos t !! k = Some info.
Proof. unfold MMThunk.next_info. destruct (Z.ltb_spec k (m_max_length t)); intuition (try lia; try done). Qed.

Lemma formed_phrase base p : formed t base p -> phrase t base p.
Proof.
  assert (Hw : forall k info l, m_charinfos t !! k = Some info -> l ∈ items info -> word_at t k l) by (intros; by eexists).
  intros [i1 a E1 Ha _|i1 i2 a b E1 Ha [H2 E2]%next_some Hb _|i1 i2 i3 a b c E1 Ha [H2 E2]%next_some Hb [H3 E3]%next_some Hc%last_Some_elem_of];
    (split; [done|]; split; [cbn; lia|]); cbn [words_from]; split_and!; eauto.
Qed.

Lemma last_max k info l c : item_ok t k info -> l ∈ items info -> last (items info) = Some c -> l <= c.
Proof.
  intros (_ & _ & Hs & _) Hl Hc. apply last_Some in Hc as [its E]. rewrite E in Hl, Hs.
  apply elem_of_app in Hl as [Hl|Hl%list_elem_of_singleton]; [|lia].
  apply Z.lt_le_incl, (StronglySorted_app_1_elem_of Z.lt its [c]); [done|done|by left].
Qed.

(** Two words go on as far as the loops follow. *)
Lemma formed_from_2 base i1 i2 a b :
  m_charinfos t !! base = Some i1 -> a ∈ items i1 -> MMThunk.next_info t (base + a) = Some i2 -> b ∈ items i2 ->
  exists p, formed t base p /\ a + b <= sum p /\
    forall c, base + a + b < m_max_length t -> word_at t (base + a + b) c -> a + b + c <= sum p.
Proof.
  intros E1 Ha E2 Hb. destruct (MMThunk.next_info t (base + a + b)) as [i3|] eqn:E3.
  - pose proof (next_at _ _ E3) as Hi3. destruct (last_items _ _ Hi3) as (c & Ec & Hc). pose proof (item_len _ _ _ Hi3 Hc) as Hc'.
    unfold token_ok in Hc'. exists [a; b; c]. split; [by eapply formed_3|]. cbn. split; [lia|].
    intros c' _ (info & Ei & Hin). apply next_some in E3 as [_ E3]. assert (info = i3) as -> by congruence.
    pose proof (last_max _ _ _ _ Hi3 Hin Ec). lia.
  - exists [a; b]. split; [by eapply formed_2|]. cbn. split; [lia|]. intros c Hlt (info & Ei & _).
    assert (Hn : MMThunk.next_info t (base + a + b) = Some info) by by apply next_some. congruence.
Qed.

Lemma formed_from_1 base i1 a :
  m_charinfos t !! base = Some i1 -> a ∈ items i1 -> exists p, formed t base p /\ a <= sum p.
Proof.
  intros E1 Ha. destruct (MMThunk.next_info t (base + a)) as [i2|] eqn:E2.
  - pose proof (next_at _ _ E2) as Hi2. destruct (last_items _ _ Hi2) as (b & _ & Hb). pose proof (item_len _ _ _ Hi2 Hb) as Hb'.
    destruct (formed_from_2 base i1 i2 a b E1 Ha E2 Hb) as (p & Hp & Hs & _). exists p. unfold token_ok in Hb'. split; [done|lia].
  - exists [a]. split; [by eapply formed_1|]. cbn. lia.
Qed.

(** No phrase is longer than all that the loops form. *)
Lemma phrase_formed base p : phrase t base p -> exists p', formed t base p' /\ sum p <= sum p'.
Proof.
  intros (Hne & Hl & Hw). destruct p as [|a p]; [done|]. destruct Hw as ((i1 & E1 & Ha) & Hn & Hw).
  destruct p as [|b p]; [destruct (formed_from_1 base i1 a E1 Ha) as (p & ? & ?); exists p; cbn; split; [done|lia]|].
  destruct Hn as [?|Hn]; [done|]. destruct Hw as ((i2 & E2 & Hb) & Hn2 & Hw).
  destruct (formed_from_2 base i1 i2 a b E1 Ha) as (p' & Hp' & Hs & Hc); [by apply next_some|done|]. exists p'. split; [done|].
  destruct p as [|c p]; [cbn; lia|]. destruct Hn2 as [?|Hn2]; [done|]. destruct Hw as (Hwc & _ & _).
  destruct p as [|d p]; [|cbn in Hl; lia]. specialize (Hc c Hn2 Hwc). cbn. lia.
Qed.

(** One round picks the first word of a longest phrase. *)
Lemma getToken_greedy {log_} `{Hlog : LogLaws log_} base i1 :
  m_charinfos t !! base = Some i1 ->
  exists r tok p,
    MMThunk.loop1 t base i1 (items i1) 0 Chunk.empty ChunkQueue.reset = Some r /\
    ChunkQueue.getToken log_ r.2 = Some tok /\
    phrase t base (tok :: p) /\ (forall p', phrase t base p' -> sum p' <= sum (tok :: p)) /\ tok ∈ items i1.
Proof.
  intros E1. pose proof (grid_at _ _ E1) as Hi. rewrite loop1_spec by done. eexists. cbn [snd].
  set (cs := map (extend Chunk.empty) (firsts t base i1 (items i1) 0)). rewrite pushes_spec.
  assert (Hp : forall c, c ∈ cs -> exists p, tokens c = p /\ formed t base p /\ chunk_ok c /\ total_length c = sum p).
  { intros c (p & -> & Hp)%list_elem_of_fmap. destruct (extend_tokens base i1 p Hi Hp) as (Hok & Htok & Htot).
    exists (map fst p). split_and!; [done| |done|done]. apply (firsts_l_formed _ _ _ E1).
    rewrite <- (firsts_fst base i1 _ 0). by apply list_elem_of_fmap_2. }
  assert (Hc : map tokens cs = firsts_l base (items i1)).
  { unfold cs. rewrite <- (firsts_fst base i1 _ 0), map_map. apply map_ext_in. intros p Hin%list_elem_of_In.
    by destruct (extend_tokens base i1 p Hi Hin) as (_ & Htok & _). }
  set (M := longest cs). set (all := filter _ cs).
  assert (Hall : Forall chunk_ok all).
  { apply Forall_forall. intros c [_ Hin]%list_elem_of_filter. by destruct (Hp c Hin) as (p & _ & _ & Hok & _). }
  assert (Htot : Forall (fun c => total_length c = M) all) by (apply Forall_forall; by intros c [Hm _]%list_elem_of_filter).
  assert (Hsub : all `sublist_of` cs) by apply sublist_filter.
  assert (Hdup : NoDup (map tokens all)).
  { eapply sublist_NoDup; [|apply fmap_sublist, Hsub]. change (NoDup (map tokens cs)). rewrite Hc. by apply firsts_l_nodup. }
  assert (Hlen : (length all <= 256)%nat).
  { apply sublist_length in Hsub. pose proof (firsts_l_length base i1 Hi) as Hl. rewrite <- Hc, length_map in Hl. lia. }
  assert (Hpos : Forall (fun c => 0 < total_length c) cs).
  { apply Forall_forall. intros c Hin. destruct (Hp c Hin) as (p & _ & _ & Hok & _). pose proof (chunk_ok_bounds c Hok). lia. }
  assert (Hne : all <> []).
  { assert (Hcs : cs <> []) by (intros E; apply (firsts_l_nonempty base i1 Hi); rewrite <- Hc, E; done).
    destruct (longest_attained cs Hpos Hcs) as (c & Hin & Em). intros E.
    apply (elem_of_nil c). rewrite <- E. by apply list_elem_of_filter. }
  destruct (getToken_some (log_ := log_) all M Hall Htot Hdup Hlen M Hne) as (c & tok & [Hm Hin]%list_elem_of_filter & Et & Eg).
  destruct (Hp c Hin) as (p & Ep & Hph & _ & Esum). destruct p as [|tok' p]; [by rewrite Ep in Et|].
  rewrite Ep in Et. cbn in Et. injection Et as ->. exists tok, p. split_and!; [done|done|by apply formed_phrase| |].
  - intros p0 (p' & Hp' & Hle)%phrase_formed. etransitivity; [exact Hle|]. apply (firsts_l_formed _ _ _ E1) in Hp'. rewrite <- Hc in Hp'. apply list_elem_of_fmap in Hp' as (c' & -> & Hin').
    destruct (Hp c' Hin') as (_ & <- & _ & _ & Es). rewrite <- Es, <- Esum, Hm. by apply longest_ge.
  - inversion Hph; subst; congruence.
Qed.
End Grid.

(** ** The tokens of a chunk *)

(** Thunks with the same grid. *)
Definition same_grid (t t2 : MMThunk) : Prop := m_charinfos t2 = m_charinfos t /\ m_max_length t2 = m_max_length t.

Lemma grid_same t t2 : same_grid t t2 -> grid_ok t -> grid_ok t2.
Proof.
  intros [Ec Em] [H1 H2 H3]. constructor; rewrite ?Ec, ?Em; [done|done|].
  intros k info Hk. specialize (H3 k info Hk). unfold item_ok in *. by rewrite Ec, Em.
Qed.

Lemma phrase_same t t2 base p : same_grid t t2 -> phrase t base p -> phrase t2 base p.
Proof.
  intros [Ec Em] (Hne & Hl & Hw). split; [done|]. split; [done|]. clear Hne Hl.
  revert base Hw. induction p as [|l p IH]; intros base; cbn [words_from]; [done|]. unfold word_at. rewrite Ec, Em.
  intros (? & ? & ?). eauto.
Qed.

Lemma cover_same t t2 base ts : same_grid t t2 -> greedy_cover t2 base ts -> greedy_cover t base ts.
Proof.
  intros Hg. assert (Hg' : same_grid t2 t) by (destruct Hg; by split). destruct Hg as [_ Em].
  induction 1 as [base H|base tok p ts Hb Hp Hmax _ IH]; [constructor; lia|]. econstructor; [lia| | |exact IH].
  - by eapply phrase_same.
  - intros p' Hp'. apply Hmax. eapply phrase_same; [|done]. by destruct Hg'; split.
Qed.

(** The offset after a token of the grid. *)
Lemma next_offset t base i1 tok :
  grid_ok t -> m_charinfos t !! base = Some i1 -> tok ∈ items i1 ->
  token_ok tok /\ 0 <= base <= m_max_length t /\ u16 (base + tok) = base + tok /\
  (base + tok <= m_max_length t -> is_Some (m_charinfos t !! (base + tok))).
Proof.
  intros Hg E1 Hin. pose proof (grid_items t Hg _ _ E1) as Hi. destruct (u16_off t Hg base i1 tok Hi Hin) as [_ Hu].
  pose proof (item_len t base i1 tok Hi Hin). destruct Hi as (Hb & _ & _ & _ & _ & Hnext). rewrite Forall_forall in Hnext.
  rewrite Z.add_comm in Hu. split; [done|]. split; [done|]. split; [done|].
  intros Hle. destruct (Hnext tok Hin); [lia|done].
Qed.

Lemma u32_add_l a b : u32 (u32 a + b) = u32 (a + b).
Proof. unfold u32. by rewrite Zplus_mod_idemp_l. Qed.

Section Tokenize.
Context {log_ : spec_float -> spec_float} {Hlog : LogLaws log_}.

Lemma Tokenize_loop_spec fuel base t :
  grid_ok t -> m_queue t = ChunkQueue.reset -> is_u32 (m_length t) -> (base <= m_max_length t -> is_Some (m_charinfos t !! base)) ->
  m_max_length t + 1 - base <= Z.of_nat fuel ->
  exists ts kw,
    MMThunk.Tokenize_loop log_ fuel base t =
      Some (mkThunk (base_offset t) (m_charinfos t) (m_tokens t ++ ts) kw (m_kw_pos t) (m_kw_ipos t) (m_max_length t)
              (u32 (m_length t + sum ts)) ChunkQueue.reset) /\
    greedy_cover t base ts /\ Forall token_ok ts.
Proof.
  revert base t. induction fuel as [|fuel IH]; intros base t Hg Hq Hl Hset Hf; cbn [MMThunk.Tokenize_loop];
    (destruct (Z.leb_spec base (m_max_length t)) as [Hb|Hb];
     [|exists [], (m_kwinfos t); split; [rewrite app_nil_r; cbn [sum fold_right]; rewrite Z.add_0_r, u32_id, <- Hq by done; by destruct t
      |by split; constructor]]); [lia|].
  destruct (Hset Hb) as [i1 E1]. rewrite E1. cbn [mbind option_bind].
  destruct (getToken_greedy t Hg base i1 E1) as (r & tok & p & Er & Et & Hp & Hmax & Hin). rewrite Hq, Er.
  cbn [mbind option_bind]. rewrite Et. cbn [mbind option_bind].
  destruct (next_offset t base i1 tok Hg E1 Hin) as (Htok & Hbr & Hu & Hnext). unfold token_ok in Htok.
  destruct (Z.eqb_spec tok 0); [lia|]. rewrite Hu.
  set (t2 := MMThunk.set_queue (MMThunk.pushToken (MMThunk.set_queue t r.2) tok base) ChunkQueue.reset).
  assert (Hs : same_grid t t2) by done.
  destruct (IH (base + tok) t2) as (ts & kw & -> & Hc & Hts); [by eapply grid_same|done|apply u32_range|done|cbn; lia|].
  exists (tok :: ts), kw. split; [|split; [|by constructor]].
  - cbn -[u32 u16]. rewrite (u16_small tok) by lia. rewrite <- app_assoc, u32_add_l. cbn [app]. do 3 f_equal. unfold sum. lia.
  - econstructor; [done|exact Hp|exact Hmax|]. by eapply cover_same.
Qed.

Lemma Tokenize_spec t :
  grid_ok t -> m_queue t = ChunkQueue.reset -> is_u32 (m_length t) ->
  exists ts kw,
    MMThunk.Tokenize log_ t =
      Some (mkThunk (base_offset t) (m_charinfos t) (m_tokens t ++ ts) kw (m_kw_pos t) (m_kw_ipos t) (m_max_length t)
              (u32 (m_length t + sum ts)) ChunkQueue.reset) /\
    greedy_cover t 0 ts /\ Forall token_ok ts.
Proof.
  intros Hg Hq Hl. apply Tokenize_loop_spec; [done|done|done|apply grid_start, Hg|]. pose proof (grid_max t Hg). lia.
Qed.

(** C19: the matching of a chunk always ends, without an access out of bounds,
    and it cuts the whole chunk into words of the dictionary: from the start on
    each token is the first word of a phrase of at most three words that no
    other phrase there surpasses in length, and the next one starts where it
    ends.  The second and the third word of a phrase have to start in front of
    the last offset of the chunk, which is an offset that has words; so far the
    phrases are all there are.  Which of the longest phrases it is, the scores
    decide. *)
Theorem Tokenize_greedy t :
  grid_ok t -> m_queue t = ChunkQueue.reset -> is_u32 (m_length t) ->
  exists ts kw,
    MMThunk.Tokenize log_ t =
      Some (mkThunk (base_offset t) (m_charinfos t) (m_tokens t ++ ts) kw (m_kw_pos t) (m_kw_ipos t) (m_max_length t)
              (u32 (m_length t + sum ts)) ChunkQueue.reset) /\
    greedy_cover t 0 ts /\ Forall token_ok ts.
Proof.
  apply Tokenize_spec.
Qed.
End Tokenize.

(** ** Examples *)
Section Examples.

(** A function in place of the logarithm: nothing for one, and for a greater
    number the number itself. *)
Definition rough_log (x : spec_float) : spec_float :=
  match x with
  | S754_finite false m e =>
      if 0 <? Z.log2 (Zpos m) + e then if -100 <=? e then x else float_of_Z 1 else S754_zero false
  | S754_infinity false => float_of_Z 1
  | _ => x
  end.

#[local] Instance rough_log_laws : LogLaws rough_log.
Proof.
  split; [reflexivity|]. intros n Hn. pose proof (float_succ_above n ltac:(lia)) as H.
  assert (H1 : exists m e, float_of_Z 1 = S754_finite false m e /\ -100 <= e) by (exists 8388608%positive, (-23); by split).
  destruct (float_add _ _) as [|[]| |[] m e]; try done. unfold above in H.
  cbn [rough_log]. destruct (Z.ltb_spec 0 (Z.log2 (Zpos m) + e)); [|lia]. destruct (Z.leb_spec (-100) e); [by exists m, e|done].
Qed.

(** Words of one to three octets. *)
Definition sample_grid : gmap Z item_info :=
  <[0 := mkItem 1 [1; 2; 3]]> (<[1 := mkItem 1 [1; 2; 3]]> (<[2 := mkItem 1 [1]]>
  (<[3 := mkItem 1000 [1]]> (<[4 := mkItem 1 [1]]> ∅)))).

Definition sample : MMThunk := mkThunk 0 sample_grid [] ∅ 0 0 4 0 ChunkQueue.reset.

#[local] Ltac solve_words :=
  cbn [items m_max_length sample]; repeat first [apply SSorted_cons|apply SSorted_nil|apply Forall_cons_2|apply Forall_nil_2];
  unfold token_ok; try lia.

Lemma sample_ok : grid_ok sample.
Proof.
  constructor; [cbn; unfold CHUNK_BUFFER_SIZE; lia|intros _; by eexists|]. intros k info Hk. cbn [m_charinfos sample] in Hk.
  unfold sample_grid in Hk.
  do 5 (apply lookup_insert_Some in Hk as [[<- <-]|[_ Hk]];
    [refine (conj _ (conj _ (conj _ (conj _ (conj _ _)))));
      [cbn; lia|done|solve_words|solve_words|done
      |solve_words; ((right; by eexists) || (left; cbn; lia))]|]).
  by rewrite lookup_empty in Hk.
Qed.

Lemma Tokenize_greedy_witness :
  exists ts kw,
    MMThunk.Tokenize rough_log sample = Some (mkThunk 0 sample_grid ts kw 0 0 4 (u32 (0 + sum ts)) ChunkQueue.reset) /\
    greedy_cover sample 0 ts /\ Forall token_ok ts.
Proof. apply (Tokenize_greedy sample); [apply sample_ok|reflexivity|unfold is_u32; cbn; lia]. Defined.

(** The phrases 1, 3 and 3, 1 tie, and the second has the better score; but
    the tie stored its index among the two in place of its chunk, so that the
    first is compared with itself. *)
Example rule3_tie_stores_index :
  (exists q c1 c3,
     MMThunk.loop1 sample 0 (mkItem 1 [1; 2; 3]) [1; 2; 3] 0 Chunk.empty ChunkQueue.reset = Some (Chunk.empty, q) /\
     m_chunks q !! 1%nat = Some c1 /\ tokens c1 = [1; 3] /\ m_chunks q !! 3%nat = Some c3 /\ tokens c3 = [3; 1] /\
     ChunkQueue.rule2 (m_chunks q) 0 (float_of_Z 0) [] = Some [1; 3]%nat /\
     ChunkQueue.rule3 (m_chunks q) [1; 3]%nat 0 (float_of_Z (1024 * 64)) [] = Some [1; 1]%nat /\
     SFltb (Chunk.get_free rough_log c1) (Chunk.get_free rough_log c3) = true) /\
  m_tokens <$> MMThunk.Tokenize rough_log sample = Some [1; 3; 1].
Proof.
  split; [|by vm_compute]. eexists _, _, _. split; [vm_compute; reflexivity|]. split; [reflexivity|]. split; [reflexivity|].
  split; [reflexivity|]. by vm_compute.
Qed.
End Examples.
