(* ===== verification/Segmenter.v ===== *)
(** The segmenter ([deps/tokenizer/src/segmenter.cpp], [Segmenter.h]), its
    manager ([SegmenterManager.cpp]) and the loop that drives it.

    The segmenter hands out the tokens of a buffer one after the other.  When it
    has none it looks at the next chunk of the text: a run of characters that
    are neither numbers, letters nor separators goes through the matching of
    [MMThunk], a run of numbers or letters is one token, a separator is one.
    A pointer is the memory of the buffer from there on, the terminating zero
    included; [None] is an access behind it, or a recursion without an end. *)
From stdpp Require Import gmap.
From S2P Require Import Prelude Double IniParser Darts Storage Coding Utf8 Tagger MMThunk.

Definition MAX_TOKEN_LENGTH : nat := 15.

Record Segmenter_ConfigObj := mkConfig {
  merge_number_and_ascii : bool;
  seperate_number_ascii : bool;
  compress_space : bool;
  number_and_ascii_joint : bytes
}.

Definition default_config : Segmenter_ConfigObj := mkConfig false false false [].

(** A null pointer is no dictionary. *)
Record Segmenter := mkSegmenter {
  m_unidict : UnigramDict.t;
  m_kwdict : UnigramDict.t;
  m_weightdict : UnigramDict.t;
  m_symdict : SynonymsDict.t;
  m_config : option Segmenter_ConfigObj;
  m_thunk : MMThunk;
  m_buffer_begin : bytes;
  m_buffer_ptr : bytes;
  m_buffer_chunk_begin : bytes;
  m_buffer_end : bytes
}.

(** A pointer [len] octets further. *)
Definition advance (ptr : bytes) (len : Z) : option bytes :=
  if (len <? 0) || (Z.of_nat (length ptr) <? len) then None else Some (drop (Z.to_nat len) ptr).

(** [dry_strchr] on a C string that may lack its end here. *)
Fixpoint dry_strchr (pattern : bytes) (iCode : Z) (i : Z) : Z :=
  match pattern with
  | [] => -1
  | c :: pattern => if c =? 0 then -1 else if c =? iCode then i else dry_strchr pattern iCode (i + 1)
  end.

Definition is_tag_w (tag : Z) : bool := tag =? 119.
Definition is_tag_m (tag : Z) : bool := tag =? 109.
Definition is_tag_e (tag : Z) : bool := tag =? 101.

(** Where the loop over a chunk leaves off. *)
Record scan := mkScan {
  sc_ptr : bytes; sc_i : Z; sc_tag : Z; sc_iCode : Z; sc_len : Z; sc_thunk : MMThunk; sc_chunk_begin : bytes
}.

(** What a round of the loop over a chunk comes to. *)
Inductive step := Continue (c : scan) | Break (c : scan) | Return (c : scan).

(** The result of [peekToken]: the token, or a null pointer, and the two
    lengths. *)
Definition token : Type := option bytes * Z * Z.

Module Segmenter.
Section Segmenter.
Context (log_ : spec_float -> spec_float).

Definition create : Segmenter :=
  mkSegmenter None None None None None MMThunk.init [] [] [] [].

Definition set_thunk (s : Segmenter) (t : MMThunk) : Segmenter :=
  mkSegmenter (m_unidict s) (m_kwdict s) (m_weightdict s) (m_symdict s) (m_config s) t (m_buffer_begin s)
    (m_buffer_ptr s) (m_buffer_chunk_begin s) (m_buffer_end s).

Definition set_chunk_begin (s : Segmenter) (p : bytes) : Segmenter :=
  mkSegmenter (m_unidict s) (m_kwdict s) (m_weightdict s) (m_symdict s) (m_config s) (m_thunk s) (m_buffer_begin s)
    (m_buffer_ptr s) p (m_buffer_end s).

(** [m_buffer_ptr += d]: the pointer may move back, too. *)
Definition move_ptr (s : Segmenter) (d : Z) : option Segmenter :=
  let pos := Z.of_nat (length (m_buffer_begin s)) - Z.of_nat (length (m_buffer_ptr s)) in
  p ← advance (m_buffer_begin s) (pos + d);
  Some (mkSegmenter (m_unidict s) (m_kwdict s) (m_weightdict s) (m_symdict s) (m_config s) (m_thunk s) (m_buffer_begin s)
          p (m_buffer_chunk_begin s) (m_buffer_end s)).

Definition setBuffer (s : Segmenter) (buf : bytes) (length : nat) : Segmenter :=
  mkSegmenter (m_unidict s) (m_kwdict s) (m_weightdict s) (m_symdict s) (m_config s) (MMThunk.reset (m_thunk s))
    buf buf buf (drop length buf).

(** A buffer leaves nothing behind for the next one. *)
Lemma setBuffer_fresh s t b p c e buf n :
  base_offset t = base_offset (m_thunk s) ->
  setBuffer (mkSegmenter (m_unidict s) (m_kwdict s) (m_weightdict s) (m_symdict s) (m_config s) t b p c e) buf n = setBuffer s buf n.
Proof. unfold setBuffer, MMThunk.reset. cbn. by intros ->. Qed.

Definition isSentenceEnd (s : Segmenter) : bool := MMThunk.peekToken (m_thunk s) =? 0.

Definition isKeyWord (s : Segmenter) (buf : bytes) : option bool :=
  match m_kwdict s with
  | None => Some false
  | d => id ← UnigramDict.exactMatch d buf; Some (0 <? id)
  end.

Definition getWordWeight (s : Segmenter) (buf : bytes) (length : Z) : option Z :=
  match m_weightdict s with
  | None => Some length
  | d => count ← UnigramDict.exactMatch d buf; Some (if 100 <? count then 100 else if count <? 1 then 100 else count)
  end.

(** The items of a character of [len] octets: its words, and the character
    itself when no word is as long. *)
Definition char_items (len : Z) (rs : list result_pair_type) (num : Z) : option (list result_pair_type * Z) :=
  let one := mkPair 1 len 0 in
  if num =? 0 then Some ([one], 1)
  else r ← rs !! O; Some (if length_ r =? len then (rs, num) else (one :: rs, num + 1)).

(** The character that is looked at, which is the one behind a byte order mark.
    [len] has no value before the first character. *)
Definition scan_char (c : scan) : option scan :=
  d ← csrUTF8Decode (sc_ptr c) (sc_len c);
  let '(iCode, len) := (d : Z * Z) in
  if iCode =? 0xFEFF then
    ptr ← advance (sc_ptr c) len;
    d ← csrUTF8Decode ptr len;
    Some (mkScan ptr (sc_i c) (sc_tag c) (d : Z * Z).1 d.2 (MMThunk.pushToken (sc_thunk c) len 0) ptr)
  else Some (mkScan (sc_ptr c) (sc_i c) (sc_tag c) iCode len (sc_thunk c) (sc_chunk_begin c)).

(** Its words and keywords. *)
Definition scan_items (s : Segmenter) (c : scan) : option MMThunk :=
  hits ← UnigramDict.findHits (m_unidict s) (sc_ptr c) (1024 - 1) MAX_TOKEN_LENGTH;
  its ← char_items (sc_len c) (hits : list result_pair_type * Z).1 hits.2;
  t ← MMThunk.setItems (sc_thunk c) (sc_i c) (its : list result_pair_type * Z).2 its.1;
  kws ← UnigramDict.findHits (m_kwdict s) (sc_ptr c) (1024 - 1) MAX_TOKEN_LENGTH;
  MMThunk.setKwItems t (sc_i c) (kws : list result_pair_type * Z).2 kws.1.

(** The body of the loop over a chunk. *)
Definition scan_step (s : Segmenter) (c : scan) : option step :=
  c ← scan_char c;
  if sc_iCode c =? 0 then Some (Return c) (* unexpected end *)
  else if sc_iCode c <? 0 then
    ptr ← advance (sc_ptr c) 1;
    Some (Continue (mkScan ptr (sc_i c) (sc_tag c) (sc_iCode c) (sc_len c) (MMThunk.pushToken (sc_thunk c) 1 0) (sc_chunk_begin c)))
  else if (sc_iCode c =? 13) || (sc_iCode c =? 10) then Some (Break c)
  else
    let tag := tag_of (sc_iCode c) in
    let c := mkScan (sc_ptr c) (sc_i c) tag (sc_iCode c) (sc_len c) (sc_thunk c) (sc_chunk_begin c) in
    if is_tag_w tag || is_tag_m tag || is_tag_e tag then Some (Break c)
    else
      t ← scan_items s c;
      ptr ← advance (sc_ptr c) (sc_len c);
      Some (Continue (mkScan ptr (sc_i c + sc_len c) tag (sc_iCode c) (sc_len c) t (sc_chunk_begin c))).

(** The loop: [inl] behind it, [inr] out of the function.  A step moves the
    pointer on. *)
Fixpoint scan_loop (fuel : nat) (s : Segmenter) (c : scan) : option (scan + scan) :=
  match sc_ptr c with
  | [] => None
  | b :: _ =>
      if (b =? 0) || (length (sc_ptr c) <=? length (m_buffer_end s))%nat || (CHUNK_BUFFER_SIZE <=? sc_i c) then Some (inl c)
      else
        match fuel with
        | O => None
        | S fuel =>
            r ← scan_step s c;
            match r with
            | Continue c => scan_loop fuel s c
            | Break c => Some (inl c)
            | Return c => Some (inr c)
            end
        end
  end.

(** Whether a run goes on with a character of another class. *)
Definition run_continues (config : option Segmenter_ConfigObj) (tag prev_tag iCoden iCodep : Z) : bool :=
  match config with
  | None => false
  | Some g =>
      let bContinue :=
        merge_number_and_ascii g &&
        ((is_tag_e tag && is_tag_m prev_tag) || (is_tag_m tag && is_tag_e prev_tag)) in
      let bContinue := bContinue || negb (dry_strchr (number_and_ascii_joint g) (u16 iCoden) 0 =? -1) in
      let bContinue := bContinue || negb (dry_strchr (number_and_ascii_joint g) (u16 iCodep) 0 =? -1) in
      bContinue && negb (seperate_number_ascii g)
  end.

Definition separates (config : option Segmenter_ConfigObj) : bool :=
  match config with Some g => seperate_number_ascii g | None => false end.

(** The loop over a run of numbers or letters: the last tag and length, and
    the length of the run. *)
Fixpoint run_loop (fuel : nat) (config : option Segmenter_ConfigObj) (ptr : bytes) (len tag prev_tag iCodep tok_len : Z) :
    option (Z * Z * Z) :=
  match ptr with
  | [] => None
  | b :: _ =>
      if b =? 0 then Some (tag, len, tok_len)
      else
        match fuel with
        | O => None
        | S fuel =>
            d ← csrUTF8Decode ptr len;
            let '(iCoden, len) := (d : Z * Z) in
            let tag := tag_of iCoden in
            if is_tag_m tag && separates config then Some (tag, len, tok_len)
            else if negb (tag =? prev_tag) && negb (run_continues config tag prev_tag iCoden iCodep) then
              Some (tag, len, tok_len)
            else
              ptr ← advance ptr len;
              run_loop fuel config ptr len tag prev_tag iCoden (u32 (tok_len + len))
        end
  end.

(** The tokens after the chunk: a line break, a run, a separator. *)
Definition append_tokens (config : option Segmenter_ConfigObj) (c : scan) (t : MMThunk) : option MMThunk :=
  let is_break := (sc_iCode c =? 13) || (sc_iCode c =? 10) in
  ptr ← (if is_break then advance (sc_ptr c) 1 else Some (sc_ptr c));
  let t := if is_break then MMThunk.pushToken t 1 0 else t in
  x ← (if is_tag_m (sc_tag c) || is_tag_e (sc_tag c) then
         ptr ← advance ptr (sc_len c);
         r ← run_loop (length ptr) config ptr (sc_len c) (sc_tag c) (sc_tag c) (sc_iCode c) (sc_len c);
         let '(tag, len, tok_len) := (r : Z * Z * Z) in
         Some (tag, len, MMThunk.pushToken t tok_len (-1))
       else Some (sc_tag c, sc_len c, t));
  let '(tag, len, t) := (x : Z * Z * MMThunk) in
  Some (if is_tag_w tag then MMThunk.pushToken t len (-1) else t).

(** A token that is there already. *)
Definition head_token (s : Segmenter) (aLen : Z) : option token :=
  let tok := m_buffer_ptr s in
  sym ← SynonymsDict.maxMatch (m_symdict s) tok 64;
  match (sym : option (bytes * Z)) with
  | Some (sym, sym_key_len) => n ← strlen sym; Some (Some sym, u16 sym_key_len, u16 (Z.of_nat n))
  | None => Some (Some tok, aLen, aLen)
  end.

(** The scan of the next chunk. *)
Definition next_chunk (s : Segmenter) : option (Segmenter * bool) :=
  let ptr := m_buffer_ptr s in
  r ← scan_loop (length ptr) s (mkScan ptr 0 0 0 0 (MMThunk.reset (m_thunk s)) ptr);
  match (r : scan + scan) with
  | inr c => Some (set_chunk_begin (set_thunk s (sc_thunk c)) (sc_chunk_begin c), false)
  | inl c =>
      t ← MMThunk.Tokenize log_ (sc_thunk c);
      t ← append_tokens (m_config s) c t;
      Some (set_chunk_begin (set_thunk s t) (sc_chunk_begin c), true)
  end.

(** [peekToken]: after a chunk it calls itself once, and then there is a token;
    only a first token of length 0 would make it call itself again, for ever. *)
Fixpoint peekToken_loop (fuel : nat) (s : Segmenter) (aSymLen : Z) : option (Segmenter * token) :=
  let aLen := MMThunk.peekToken (m_thunk s) in
  if negb (aLen =? 0) then tok ← head_token s aLen; Some (s, tok)
  else
    match fuel with
    | O => None
    | S fuel =>
        r ← next_chunk s;
        let '(s, more) := (r : Segmenter * bool) in
        if negb more then Some (s, (None, 0, 0))
        else if negb (m_length (m_thunk s) =? 0) then peekToken_loop fuel s aSymLen
        else Some (s, (None, 0, aSymLen))
    end.

Definition peekToken (s : Segmenter) (aSymLen : Z) : option (Segmenter * token) := peekToken_loop 1 s aSymLen.

(** The keyword interface ([n] = 1). *)
Definition peekKwToken (s : Segmenter) : option (Segmenter * token) :=
  r ← MMThunk.peekKwToken (m_thunk s);
  let '(t, pos, aLen) := (r : MMThunk * Z * Z) in
  p ← advance (m_buffer_chunk_begin s) pos;
  Some (set_thunk s t, (Some p, aLen, aLen)).

Fixpoint pop_loop (fuel : nat) (t : MMThunk) (len tLen : Z) : option (MMThunk * Z * Z) :=
  let diff := MMThunk.peekToken t in
  let tLen := u16 (tLen + diff) in
  if diff =? 0 then Some (t, tLen, diff)
  else if tLen <=? len then
    match fuel with
    | O => None
    | S fuel => pop_loop fuel (MMThunk.popupToken t).1 len tLen
    end
  else Some (t, tLen, diff).

(** [popToken]: should eat [len] octets. *)
Definition popToken (s : Segmenter) (len : Z) : option Segmenter :=
  let '(t, tLen) := MMThunk.popupToken (m_thunk s) in
  r ← pop_loop (length (m_tokens t)) t len tLen;
  let '(t, tLen, diff) := (r : MMThunk * Z * Z) in
  let s := set_thunk s t in
  if negb (m_length t =? 0) && negb (tLen =? len) then move_ptr s (tLen - diff) else move_ptr s len.

(** The loop of the clients: every token that does not start a line is given
    to [f], until there is none, or an empty one. *)
Fixpoint each_token {A} (f : bytes -> A -> option A) (fuel : nat) (s : Segmenter) (symlen : Z) (a : A) : option A :=
  r ← peekToken s symlen;
  let '(s, (tok, len, symlen)) := (r : Segmenter * token) in
  match tok with
  | None => Some a
  | Some tok =>
      b ← tok !! O;
      if (b =? 0) || (len =? 0) then Some a
      else
        match fuel with
        | O => None
        | S fuel =>
            s ← popToken s len;
            if (b =? 13) || (b =? 10) then each_token f fuel s symlen a
            else
              term ← (if Z.of_nat (length tok) <? len then None else Some (take (Z.to_nat len) tok));
              a ← f term a;
              each_token f fuel s symlen a
        end
  end.

(** The clients' call: a string is passed with its terminating zero. *)
Definition segment {A} (s : Segmenter) (f : bytes -> A -> option A) (buffer : bytes) (a : A) : option A :=
  each_token f (S (length buffer)) (setBuffer s (buffer ++ [0]) (length buffer)) 0 a.
End Segmenter.
End Segmenter.

(** ** [SegmenterManager] *)
Record SegmenterManager := mkManager {
  m_uni : UnigramDict.t; m_kw : UnigramDict.t; m_weight : UnigramDict.t; m_sym : SynonymsDict.t;
  config : Segmenter_ConfigObj; m_method : Z; m_inited : bool
}.

Module SegmenterManager.
Definition SEG_METHOD_NGRAM : Z := 1.

Definition create : SegmenterManager := mkManager None None None None default_config SEG_METHOD_NGRAM false.

(** A dictionary that is not loaded is not passed on. *)
Definition getSegmenter (m : SegmenterManager) : option Segmenter :=
  if m_method m =? SEG_METHOD_NGRAM then
    Some (mkSegmenter (m_uni m) (m_kw m) (m_weight m) (m_sym m) (Some (config m)) MMThunk.init [] [] [] [])
  else None.

(** The joint characters go into an array of 512 octets; a string that is too
    long is copied as a whole before it is cut. *)
Definition copy_joint (s : bytes) : option bytes :=
  if (511 <? length s)%nat then if (512 <? length s)%nat then None else Some (take 511 s) else Some s.

(** [loadconfig], of the contents of the file, if there is one. *)
Definition loadconfig (g : Segmenter_ConfigObj) (confile : option bytes) : option Segmenter_ConfigObj :=
  ini ← Ini.iniparser_load confile;
  match ini with
  | None => Some g
  | Some ini =>
      merge ← Ini.iniparser_getboolean ini (Ini.text_of "mmseg:merge_number_and_ascii") 0;
      separate ← Ini.iniparser_getboolean ini (Ini.text_of "mmseg:seperate_number_ascii") 0;
      compress ← Ini.iniparser_getboolean ini (Ini.text_of "mmseg:compress_space") 0;
      joint ← match Ini.iniparser_getstring ini (Ini.text_of "mmseg:number_and_ascii_joint") Ini.NullPtr with
              | Ini.Str s => copy_joint s
              | _ => Some (number_and_ascii_joint g)
              end;
      Some (mkConfig (negb (merge =? 0)) (negb (separate =? 0)) (negb (compress =? 0)) joint)
  end.

(** A directory: the contents of its files. *)
Definition directory : Type := bytes -> option bytes.

Definition g_ngram_unigram_dict_name : bytes := Ini.text_of "wwsearch_mmseg_uni.lib".
Definition g_kword_unigram_dict_name : bytes := Ini.text_of "kw.lib".
Definition g_wordweight_unigram_dict_name : bytes := Ini.text_of "weight.lib".
Definition g_synonyms_dict_name : bytes := Ini.text_of "synonyms.dat".
Definition g_config_name : bytes := Ini.text_of "wwsearch_mmseg.ini".

Definition optional (r : Z) : bool := (r =? 0) || (r =? -1).

(** [init]; a dictionary that has been read stays when a later one fails.  The
    thesaurus is no part of segmenting. *)
Definition init (m : SegmenterManager) (path : directory) (method : Z) : option (SegmenterManager * Z) :=
  if negb (method =? SEG_METHOD_NGRAM) then Some (m, -4)
  else if m_inited m then Some (m, 0)
  else
    let uni := UnigramDict.load (path g_ngram_unigram_dict_name) in
    let m := mkManager uni.2 (m_kw m) (m_weight m) (m_sym m) (config m) method (m_inited m) in
    if negb (uni.1 =? 0) then Some (m, uni.1)
    else
      let kw := UnigramDict.load (path g_kword_unigram_dict_name) in
      let m := mkManager (m_uni m) kw.2 (m_weight m) (m_sym m) (config m) method (m_inited m) in
      if negb (optional kw.1) then Some (m, kw.1)
      else
        let weight := UnigramDict.load (path g_wordweight_unigram_dict_name) in
        let m := mkManager (m_uni m) (m_kw m) weight.2 (m_sym m) (config m) method (m_inited m) in
        if negb (optional weight.1) then Some (m, weight.1)
        else
          sym ← SynonymsDict.load (path g_synonyms_dict_name);
          g ← loadconfig (config m) (path g_config_name);
          Some (mkManager (m_uni m) (m_kw m) (m_weight m) sym.2 g method true, 0).
End SegmenterManager.

(** ** [MMSEGWrapper] *)
Module MMSEGWrapper.
(** The manager is picked by the counter [seq_], which is moved on; the terms
    are kept as they are. *)
Definition BuildTerms (log_ : spec_float -> spec_float) (managers_ : list SegmenterManager) (seq_ : Z) (buffer : bytes)
    (terms : list bytes) : option (Z * bool * list bytes) :=
  manager ← managers_ !! Z.to_nat (u64 seq_ mod Z.of_nat (length managers_));
  seg ← SegmenterManager.getSegmenter manager;
  terms ← Segmenter.segment log_ seg (fun term terms => Some (os_insert bytes_cmp term terms)) buffer terms;
  Some (u64 (seq_ + 1), true, terms).
End MMSEGWrapper.
