(* ===== verification/SegmentCorrect.v ===== *)
(** The segmenter is correct: the tokens it hands out are the text cut into
    pieces, and the pieces of well-formed text are whole characters.  What is
    asked of the text is [accepts]: less than 2^16 - 4 octets, no synonyms, and
    no joint characters unless it is well-formed; of the dictionary [dict_ok]:
    its words are of characters that stay within a chunk. *)
From stdpp Require Import gmap.
From S2P Require Import Prelude Double Darts Storage Coding Utf8 Tagger MMThunk Segmenter.
Import utf8_facts.

(** ** Characters and words *)

(** A character that is neither the end of a string nor a byte order mark. *)
Definition clean (cp : Z) : Prop := scalar cp /\ cp <> 0 /\ cp <> 0xFEFF.

Definition breaks (tag : Z) : bool := is_tag_w tag || is_tag_m tag || is_tag_e tag.

(** A character the scan of a chunk does not stop at. *)
Definition passes (code : Z) : Prop := 0 < code /\ code <> 13 /\ code <> 10 /\ breaks (tag_of code) = false.

Definition plain (cp : Z) : Prop := clean cp /\ passes cp.

Definition size (s : bytes) : Z := Z.of_nat (length s).

(** The next [d] octets are characters the scan passes. *)
Definition pending (r : bytes) (d : Z) : Prop :=
  exists cps, Forall plain cps /\ size (text cps) = d /\ text cps `prefix_of` r.

(** The next [l] octets are whole characters. *)
Definition whole (r : bytes) (l : Z) : Prop :=
  exists cps, cps <> [] /\ Forall clean cps /\ size (text cps) = l /\ text cps `prefix_of` r.

Definition valid (r : bytes) : Prop := exists cps, Forall clean cps /\ r = text cps.

Inductive cuts : bytes -> list Z -> Prop :=
| cuts_nil r : cuts r []
| cuts_cons r l ls : whole r l -> cuts (drop (Z.to_nat l) r) ls -> cuts r (l :: ls).

Lemma octets_size cp : 1 <= size (octets cp) <= 4.
Proof. pose proof (octets_length cp). unfold size. lia. Qed.

Lemma size_app a b : size (a ++ b) = size a + size b.
Proof. unfold size. rewrite length_app. lia. Qed.

Lemma text_app a b : text (a ++ b) = text a ++ text b.
Proof. unfold text. apply flat_map_app. Qed.

Lemma drop_size a b n : n = size a -> drop (Z.to_nat n) (a ++ b) = b.
Proof. intros ->. unfold size. rewrite Nat2Z.id. apply drop_app_length. Qed.

Section Text.
Context (q : bytes).

(** The code at the head of a text; [q] is behind its end. *)
Lemma decode_octets cp r l : clean cp -> csrUTF8Decode ((octets cp ++ r) ++ 0 :: q) l = Some (cp, size (octets cp)).
Proof. intros (Hs & H0 & _). rewrite <- app_assoc. by apply csrUTF8Decode_octets. Qed.

Lemma pending_0 r : pending r 0.
Proof. exists []. split; [constructor|]. split; [done|apply prefix_nil]. Qed.

Lemma pending_nonneg r d : pending r d -> 0 <= d.
Proof. intros (cps & _ & <- & _). unfold size. lia. Qed.

(** What is pending starts with the next character. *)
Lemma pending_step r d code len l :
  pending r d -> 0 < d -> csrUTF8Decode (r ++ 0 :: q) l = Some (code, len) ->
  plain code /\ pending (drop (Z.to_nat len) r) (d - len).
Proof.
  intros (cps & Hp & <- & [s ->]) Hd E. destruct Hp as [|c cps Hc Hp]; [by cbn in Hd|]. rewrite text_cons in *.
  rewrite <- (app_assoc (octets c)), decode_octets in E by apply Hc. injection E as <- <-. split; [done|].
  rewrite <- app_assoc, drop_size by done. exists cps. split; [done|]. rewrite size_app. split; [lia|]. by eexists.
Qed.

Lemma pending_stop r d code len l :
  pending r d -> csrUTF8Decode (r ++ 0 :: q) l = Some (code, len) -> ~ plain code -> d = 0.
Proof.
  intros Hp E Hc. destruct (Z.eq_dec d 0) as [|Hd]; [done|]. pose proof (pending_nonneg _ _ Hp).
  exfalso. apply Hc. by destruct (pending_step r d code len l Hp ltac:(lia) E).
Qed.

Lemma valid_head r code len l :
  valid r -> r <> [] -> csrUTF8Decode (r ++ 0 :: q) l = Some (code, len) ->
  clean code /\ 1 <= len <= 4 /\ whole r len /\ valid (drop (Z.to_nat len) r).
Proof.
  intros (cps & Hc & ->) Hne E. destruct Hc as [|c cps Hc Hcs]; [done|]. rewrite text_cons in *.
  rewrite decode_octets in E by done. injection E as <- <-. split; [done|]. split; [apply octets_size|]. split.
  - exists [c]. split; [done|]. split; [by constructor|]. cbn. rewrite app_nil_r. split; [done|]. by eexists.
  - rewrite drop_size by done. by exists cps.
Qed.

(** Whole characters of a well-formed text leave well-formed text. *)
Lemma text_prefix w s cps : Forall clean w -> Forall clean cps -> text w ++ s = text cps -> exists cps', cps = w ++ cps' /\ s = text cps'.
Proof.
  intros Hw. revert cps. induction Hw as [|c w Hc Hw IH]; intros cps Hcs E; [by exists cps|].
  rewrite text_cons, <- app_assoc in E. destruct Hcs as [|c' cps Hc' Hcs].
  - pose proof (octets_length c). apply (f_equal length) in E. rewrite length_app in E. cbn in E. lia.
  - rewrite text_cons in E. assert (c = c') as <-.
    { pose proof (decode_octets c (text w ++ s) 0 Hc) as D. rewrite E, decode_octets in D by done. by injection D as ->. }
    apply app_inv_head in E. destruct (IH cps Hcs E) as (cps' & -> & ->). by exists cps'.
Qed.

Lemma valid_drop r l : valid r -> whole r l -> valid (drop (Z.to_nat l) r).
Proof.
  intros (cps & Hc & ->) (w & _ & Hw & Hl & [s E]). destruct (text_prefix w s cps Hw Hc (eq_sym E)) as (cps' & -> & ->).
  rewrite E, drop_size by done. exists cps'. split; [|done]. by apply Forall_app in Hc as [_ ?].
Qed.

Lemma whole_size r l : whole r l -> 1 <= l <= size r.
Proof.
  intros (w & Hne & _ & <- & [s ->]). rewrite size_app. destruct w as [|c w]; [done|]. rewrite text_cons, size_app.
  pose proof (octets_size c). unfold size in *. lia.
Qed.
End Text.

(** ** What is asked of a dictionary *)
Definition item_freq (its : list result_pair_type) : Z := fold_left (fun f r => u32 (f + u32 (value r))) its 0.

(** The words found at the text [r]: they are of characters the scan passes, a
    token is at most 15 octets, and their frequency does not vanish. *)
Record hits_ok (r : bytes) (rs : list result_pair_type) : Prop := {
  hits_room : (length rs < 1023)%nat;
  hits_sorted : StronglySorted Z.lt (map length_ rs);
  hits_words : Forall (fun x => length_ x <= 15 /\ exists cps, cps <> [] /\ Forall plain cps /\
                         size (text cps) = length_ x /\ text cps `prefix_of` r) rs;
  hits_freq len its num : Segmenter.char_items len rs (Z.of_nat (length rs)) = Some (its, num) -> u16 (item_freq its) <> 0
}.

(** For every place of the text where it is looked at. *)
Definition dict_ok (s : Segmenter) (p q : bytes) : Prop :=
  forall used r code len l,
    p = used ++ r -> csrUTF8Decode (r ++ 0 :: q) l = Some (code, len) -> passes code ->
    (exists rs, UnigramDict.findHits (m_unidict s) (r ++ 0 :: q) 1023 15 = Some (rs, Z.of_nat (length rs)) /\ hits_ok r rs) /\
    (exists rs, UnigramDict.findHits (m_kwdict s) (r ++ 0 :: q) 1023 15 = Some (rs, Z.of_nat (length rs)) /\ (length rs < 1023)%nat).

(** ** The grid under construction *)

(** At [i] octets into the grid, with the text [r] to come. *)
Definition cell_ok (r : bytes) (i : Z) (t : MMThunk) (k : Z) (info : item_info) : Prop :=
  0 <= k <= m_max_length t /\ items info <> [] /\ StronglySorted Z.lt (items info) /\ Forall token_ok (items info) /\
  u16 (freq info) <> 0 /\ Forall (fun l => is_Some (m_charinfos t !! (k + l)) \/ pending r (k + l - i)) (items info).

Record grid_inv (r : bytes) (i : Z) (t : MMThunk) : Prop := {
  gi_i : 0 <= i;
  gi_max : -1 <= m_max_length t < CHUNK_BUFFER_SIZE /\ m_max_length t < i;
  gi_start : 0 < i -> is_Some (m_charinfos t !! 0);
  gi_cells k info : m_charinfos t !! k = Some info -> cell_ok r i t k info
}.

Lemma grid_inv_ok r i t : grid_inv r i t -> grid_ok t.
Proof.
  intros [Hi Hmax Hs Hc]. constructor; [lia|intros; apply Hs; lia|]. intros k info Hk.
  destruct (Hc k info Hk) as (H1 & H2 & H3 & H4 & H5 & H6). refine (conj H1 (conj H2 (conj H3 (conj H4 (conj H5 _))))).
  eapply Forall_impl; [exact H6|]. cbn. intros l [H|H%pending_nonneg]; [by right|left; lia].
Qed.

(** The text may move on where nothing is pending. *)
Lemma grid_inv_skip r r' i t : (forall d, pending r d -> d = 0) -> grid_inv r i t -> grid_inv r' i t.
Proof.
  intros H0 [Hi Hmax Hs Hc]. constructor; [done|done|done|]. intros k info Hk.
  destruct (Hc k info Hk) as (H1 & H2 & H3 & H4 & H5 & H6). refine (conj H1 (conj H2 (conj H3 (conj H4 (conj H5 _))))).
  eapply Forall_impl; [exact H6|]. cbn. intros l [H|H%H0]; [by left|]. right. rewrite H. apply pending_0.
Qed.

(** Nothing but the grid matters. *)
Lemma grid_inv_same r i t t2 : same_grid t t2 -> grid_inv r i t -> grid_inv r i t2.
Proof.
  intros [Ec Em] [Hi Hmax Hs Hc]. constructor; rewrite ?Ec, ?Em; [done|done|done|]. intros k info Hk.
  specialize (Hc k info Hk). unfold cell_ok in *. by rewrite Ec, Em.
Qed.

(** The cover of a grid ends behind it, by what was pending. *)
Lemma cover_end_at r i t b ts :
  grid_inv r i t -> greedy_cover t b ts -> is_Some (m_charinfos t !! b) \/ pending r (b - i) ->
  exists d, pending r d /\ b + sum ts = i + d.
Proof.
  intros Hg Hc. induction Hc as [b H|b tok p ts Hb Hp Hmax Hc IH]; intros Hat; cbn [sum fold_right].
  - exists (b - i). split; [|lia]. destruct Hat as [[info Hk]|Hat]; [|done].
    destruct (gi_cells _ _ _ Hg _ _ Hk) as (Hk' & _). lia.
  - destruct IH as (d & Hd & E); [|exists d; split; [done|unfold sum in *; lia]].
    assert (exists i1, m_charinfos t !! b = Some i1 /\ tok ∈ items i1) as (i1 & E1 & Hin) by exact (proj1 (proj2 (proj2 Hp))).
    destruct (gi_cells _ _ _ Hg _ _ E1) as (_ & _ & _ & _ & _ & H). rewrite Forall_forall in H. by apply H.
Qed.

(** The words of the cells are whole characters of the text. *)
Definition aligned (r0 : bytes) (t : MMThunk) : Prop :=
  forall k info l, m_charinfos t !! k = Some info -> l ∈ items info -> 0 <= k /\ whole (drop (Z.to_nat k) r0) l.

Lemma cover_cuts r0 t b ts :
  0 <= b -> aligned r0 t -> greedy_cover t b ts -> cuts (drop (Z.to_nat b) r0) ts.
Proof.
  intros Hb Ha Hc. induction Hc as [b H|b tok p ts Hbm Hp Hmax Hc IH]; [constructor|].
  assert (exists i1, m_charinfos t !! b = Some i1 /\ tok ∈ items i1) as (i1 & E1 & Hin) by exact (proj1 (proj2 (proj2 Hp))).
  destruct (Ha _ _ _ E1 Hin) as [_ Hw]. pose proof (whole_size _ _ Hw). constructor; [done|].
  rewrite drop_drop, <- Z2Nat.inj_add by lia. apply IH. lia.
Qed.

(** ** The scan of a chunk *)
Lemma hit_word r x rs : hits_ok r rs -> x ∈ rs ->
  length_ x <= 15 /\ exists cps, cps <> [] /\ Forall plain cps /\ size (text cps) = length_ x /\ text cps `prefix_of` r.
Proof. intros [_ _ Hw _] Hx. rewrite Forall_forall in Hw. by apply Hw. Qed.

(** A word starts with the character that is looked at. *)
Lemma word_head q r code len l cps :
  csrUTF8Decode (r ++ 0 :: q) l = Some (code, len) -> cps <> [] -> Forall plain cps -> text cps `prefix_of` r ->
  len <= size (text cps).
Proof.
  intros E Hne Hp [s ->]. destruct Hp as [|c cps Hc Hp]; [done|]. rewrite text_cons in *.
  rewrite <- (app_assoc (octets c)), decode_octets in E by apply Hc. injection E as _ <-. rewrite size_app. unfold size. lia.
Qed.

(** The items of a character: by length, its words and itself. *)
Lemma char_items_spec q r rs code len l :
  hits_ok r rs -> csrUTF8Decode (r ++ 0 :: q) l = Some (code, len) -> 1 <= len <= 4 ->
  exists its,
    Segmenter.char_items len rs (Z.of_nat (length rs)) = Some (its, Z.of_nat (length its)) /\ (length its < 1024)%nat /\
    map length_ its <> [] /\ StronglySorted Z.lt (map length_ its) /\ Forall token_ok (map length_ its) /\
    Forall (fun l => l = len \/ exists cps, cps <> [] /\ Forall plain cps /\ size (text cps) = l /\ text cps `prefix_of` r)
      (map length_ its).
Proof.
  intros Hh E Hl. pose proof (hits_room _ _ Hh) as Hroom. pose proof (hits_sorted _ _ Hh) as Hs.
  assert (Hw : Forall (fun l => l = len \/ exists cps, cps <> [] /\ Forall plain cps /\ size (text cps) = l /\ text cps `prefix_of` r)
            (map length_ rs) /\ Forall (fun l => len <= l <= 15) (map length_ rs)).
  { split; apply Forall_fmap, Forall_forall; intros x Hx; unfold compose;
      destruct (hit_word r x rs Hh Hx) as (H15 & cps & Hne & Hp & Hs' & Hpre).
    - right. by exists cps.
    - pose proof (word_head q r code len l cps E Hne Hp Hpre). lia. }
  destruct Hw as [Hw Hb].
  assert (Htok : forall ls, Forall (fun l => len <= l <= 15) ls -> Forall token_ok ls)
    by (intros ls H; eapply Forall_impl; [exact H|]; unfold token_ok; cbn; lia).
  unfold Segmenter.char_items. destruct rs as [|x rs].
  - exists [mkPair 1 len 0]. cbn. split_and!; try done; [lia| | |].
    + by repeat constructor.
    + repeat constructor; lia.
    + constructor; [by left|constructor].
  - destruct (Z.eqb_spec (Z.of_nat (length (x :: rs))) 0) as [H0|_]; [cbn in H0; lia|]. cbn [lookup list_lookup mbind option_bind].
    destruct (Z.eqb_spec (length_ x) len) as [Ex|Ex].
    + exists (x :: rs). split_and!; [done|lia|done|done|by apply Htok|done].
    + exists (mkPair 1 len 0 :: x :: rs). cbn [map length_]. split_and!; [|cbn [length] in *; lia|done| | |].
      * do 2 f_equal. cbn [length]. lia.
      * constructor; [exact Hs|]. cbn [map] in Hs, Hb. apply Forall_cons in Hb as [Hx _]. apply StronglySorted_inv in Hs as [_ Hs].
        constructor; [lia|]. eapply Forall_impl; [exact Hs|]. cbn. lia.
      * apply Htok. constructor; [lia|done].
      * constructor; [by left|done].
Qed.

Lemma setItems_spec t i its :
  (length its < 1024)%nat -> Forall token_ok (map length_ its) ->
  MMThunk.setItems t i (Z.of_nat (length its)) its =
    Some (mkThunk (base_offset t) (<[i := mkItem (item_freq its) (map length_ its)]> (m_charinfos t)) (m_tokens t) (m_kwinfos t)
            (m_kw_pos t) (m_kw_ipos t) (Z.max (m_max_length t) i) (m_length t) (m_queue t)).
Proof.
  intros Hl Ht. unfold MMThunk.setItems. rewrite u16_small, Nat2Z.id, take_ge by lia. rewrite Nat.ltb_irrefl. do 4 f_equal.
  apply map_ext_in. intros x Hx%list_elem_of_In. rewrite Forall_fmap, Forall_forall in Ht. specialize (Ht x Hx). cbn in Ht.
  unfold token_ok in Ht. apply u16_small. lia.
Qed.

Lemma setKwItems_spec t i rs :
  (length rs < 1023)%nat ->
  exists kw, MMThunk.setKwItems t i (Z.of_nat (length rs)) rs =
    Some (mkThunk (base_offset t) (m_charinfos t) (m_tokens t) kw (m_kw_pos t) (m_kw_ipos t) (Z.max (m_max_length t) i)
            (m_length t) (m_queue t)).
Proof.
  intros Hl. unfold MMThunk.setKwItems. rewrite u16_small, Nat2Z.id, take_ge by lia. rewrite Nat.ltb_irrefl. by eexists.
Qed.

Section Cell.
Context (q r : bytes) (code len l : Z) (E : csrUTF8Decode (r ++ 0 :: q) l = Some (code, len)) (Hlen : 1 <= len <= 4).
Context (i : Z) (t : MMThunk) (f : Z) (ls : list Z) (Hi : i < CHUNK_BUFFER_SIZE) (Hne : ls <> []) (Hsort : StronglySorted Z.lt ls)
  (Htok : Forall token_ok ls) (Hf : u16 f <> 0)
  (Hls : Forall (fun l => l = len \/ exists cps, cps <> [] /\ Forall plain cps /\ size (text cps) = l /\ text cps `prefix_of` r) ls).
Context (t2 : MMThunk) (Ec : m_charinfos t2 = <[i := mkItem f ls]> (m_charinfos t)) (Em : m_max_length t2 = Z.max (m_max_length t) i).

(** A cell is added, and the text moves on by its character. *)
Lemma grid_inv_cell : grid_inv r i t -> grid_inv (drop (Z.to_nat len) r) (i + len) t2.
Proof.
  intros [Hi0 Hmax Hs Hc]. constructor; rewrite ?Ec, ?Em; [lia|lia| |].
  - intros _. destruct (Z.eq_dec i 0) as [->|]; [rewrite lookup_insert_eq; by eexists|]. apply lookup_insert_is_Some'.
    right. apply Hs. lia.
  - intros k info Hk. apply lookup_insert_Some in Hk as [[<- <-]|[Hki Hk]].
    + refine (conj _ (conj Hne (conj Hsort (conj Htok (conj Hf _))))); [lia|]. cbn [items].
      eapply Forall_impl; [exact Hls|]. cbn. intros w Hw. right. replace (i + w - (i + len)) with (w - len) by lia.
      destruct Hw as [->|(cps & Hcne & Hp & <- & Hpre)]; [rewrite Z.sub_diag; apply pending_0|].
      assert (0 < size (text cps)) by (pose proof (word_head q r code len l cps E Hcne Hp Hpre); lia).
      apply (pending_step q r _ code len l); [by exists cps|done|done].
    + destruct (Hc k info Hk) as (H1 & H2 & H3 & H4 & H5 & H6). refine (conj _ (conj H2 (conj H3 (conj H4 (conj H5 _))))); [lia|].
      eapply Forall_impl; [exact H6|]. cbn. intros w [Hw|Hw]; [left; rewrite Ec; apply lookup_insert_is_Some'; by right|].
      pose proof (pending_nonneg _ _ Hw). destruct (Z.eq_dec (k + w) i) as [Ek|].
      * left. rewrite Ec, Ek, lookup_insert_eq. by eexists.
      * right. replace (k + w - (i + len)) with (k + w - i - len) by lia. apply (pending_step q r _ code len l); [done|lia|done].
Qed.

Lemma aligned_cell r0 :
  0 <= i -> drop (Z.to_nat i) r0 = r -> valid r -> r <> [] -> aligned r0 t -> aligned r0 t2.
Proof.
  intros Hi0 Hr Hv Hrne Ha k info w Hk Hw. rewrite Ec in Hk. apply lookup_insert_Some in Hk as [[<- <-]|[Hki Hk]]; [|by eapply Ha].
  split; [done|]. rewrite Hr. cbn [items] in Hw. rewrite Forall_forall in Hls. destruct (Hls w Hw) as [->|(cps & Hcne & Hp & Hs & Hpre)].
  - by destruct (valid_head q r code len l Hv Hrne E) as (_ & _ & ? & _).
  - exists cps. split; [done|]. split; [|done]. eapply Forall_impl; [exact Hp|]. by intros c [].
Qed.
End Cell.

Lemma sum_app a b : sum (a ++ b) = sum a + sum b.
Proof. unfold sum. induction a as [|x a IH]; cbn [app fold_right]; [done|]. rewrite IH. lia. Qed.

Lemma sum_nonneg ls : Forall (fun l => 1 <= l <= 4) ls -> 0 <= sum ls.
Proof. unfold sum. induction 1; cbn [fold_right]; lia. Qed.

Lemma advance_app a b n : n = size a -> advance (a ++ b) n = Some b.
Proof.
  intros ->. unfold advance, size. destruct (Z.ltb_spec (Z.of_nat (length a)) 0); [lia|]. rewrite length_app.
  destruct (Z.ltb_spec (Z.of_nat (length a + length b)) (Z.of_nat (length a))); [lia|]. cbn [orb]. by rewrite Nat2Z.id, drop_app_length.
Qed.

(** The next [n] octets of a text. *)
Lemma advance_text (q r : bytes) n : 0 <= n <= size r -> advance (r ++ 0 :: q) n = Some (drop (Z.to_nat n) r ++ 0 :: q).
Proof.
  intros Hn. unfold size in Hn. rewrite <- (take_drop (Z.to_nat n) r) at 1. rewrite <- app_assoc. apply advance_app.
  unfold size. rewrite length_take. lia.
Qed.

Lemma drop_split (r : bytes) n : 0 <= n <= size r -> exists u, r = u ++ drop (Z.to_nat n) r /\ size u = n.
Proof.
  intros Hn. unfold size in *. exists (take (Z.to_nat n) r). rewrite take_drop. split; [done|]. rewrite length_take. lia.
Qed.

Section Scan.
Context (s : Segmenter) (p q : bytes).
Context (Hpos : Forall (fun c => 0 < c) p) (Hshort : size p < 2 ^ 16 - 4) (Hdict : dict_ok s p q)
  (Hend : (length (m_buffer_end s) <= S (length q))%nat).

(** In the middle of the scan of a chunk that starts with [r0]; [r] is left. *)
Record scan_inv (r0 r : bytes) (c : scan) : Prop := {
  si_ptr : sc_ptr c = r ++ 0 :: q;
  si_used : exists u, r0 = u ++ r /\ size u = sum (m_tokens (sc_thunk c)) + sc_i c;
  si_tokens : Forall (fun l => 1 <= l <= 4) (m_tokens (sc_thunk c));
  si_length : m_length (sc_thunk c) = sum (m_tokens (sc_thunk c));
  si_queue : m_queue (sc_thunk c) = ChunkQueue.reset;
  si_grid : grid_inv r (sc_i c) (sc_thunk c);
  si_valid : valid r0 -> m_tokens (sc_thunk c) = [] /\ valid r /\ aligned r0 (sc_thunk c)
}.

(** The last character was passed, or there was none. *)
Definition quiet (c : scan) : Prop := breaks (sc_tag c) = false /\ sc_iCode c <> 13 /\ sc_iCode c <> 10.

(** Where the scan stops: at the end of the text or of the room for a chunk, at
    a line break, at a number, a letter or a separator. *)
Definition stop_at (r : bytes) (c : scan) : Prop :=
  (quiet c /\ (r = [] \/ CHUNK_BUFFER_SIZE <= sc_i c)) \/
  (exists len l, csrUTF8Decode (r ++ 0 :: q) l = Some (sc_iCode c, len) /\ r <> [] /\ breaks (sc_tag c) = false /\
     (sc_iCode c = 13 \/ sc_iCode c = 10)) \/
  (exists l, csrUTF8Decode (r ++ 0 :: q) l = Some (sc_iCode c, sc_len c) /\ 0 < sc_iCode c /\ sc_iCode c <> 13 /\
     sc_iCode c <> 10 /\ sc_tag c = tag_of (sc_iCode c) /\ breaks (sc_tag c) = true).

(** A token that the matching does not make moves the text on. *)
Lemma scan_inv_skip r0 r c code len l n :
  scan_inv r0 r c -> size r0 <= size p -> ~ valid r0 -> csrUTF8Decode (r ++ 0 :: q) l = Some (code, len) -> ~ plain code ->
  1 <= n <= 4 -> n <= size r ->
  forall iCode len' cb, scan_inv r0 (drop (Z.to_nat n) r) (mkScan (drop (Z.to_nat n) r ++ 0 :: q) (sc_i c) (sc_tag c) iCode len'
                           (MMThunk.pushToken (sc_thunk c) n 0) cb).
Proof.
  intros [Hp (u & -> & Hu) Ht Hl Hq Hg Hv] H0 Hnv E Hc Hn Hnr iCode len' cb.
  pose proof (sum_nonneg _ Ht) as Hsum. pose proof (gi_i _ _ _ Hg). rewrite size_app in H0. pose proof (u16_small n ltac:(lia)) as Hn16.
  constructor; cbn [sc_ptr sc_i sc_thunk MMThunk.pushToken m_tokens m_length m_queue]; rewrite ?Hn16, ?sum_app; cbn [sum fold_right].
  - done.
  - destruct (drop_split r n ltac:(lia)) as (v & Ev & Sv). exists (u ++ v). rewrite <- app_assoc, <- Ev, size_app. split; [done|lia].
  - apply Forall_app. split; [done|]. by apply Forall_singleton.
  - rewrite Hl. unfold size in *. rewrite u32_id by (unfold is_u32; lia). lia.
  - done.
  - eapply grid_inv_same; [|eapply (grid_inv_skip r); [|exact Hg]]; [done|]. intros d Hd. by eapply pending_stop.
  - done.
Qed.

(** The scan is at a place of the text. *)
Lemma scan_place r0 r c used :
  p = used ++ r0 -> scan_inv r0 r c -> exists used', p = used' ++ r /\ Forall (fun c => 0 < c) r /\ size r0 <= size p /\ size r <= size r0.
Proof.
  intros -> [_ (u & -> & _) _ _ _ _ _]. exists (used ++ u). rewrite <- app_assoc. split; [done|].
  apply Forall_app in Hpos as [_ H]. apply Forall_app in H as [_ H]. rewrite !size_app. unfold size. split; [done|lia].
Qed.
(** The character that is looked at, behind a byte order mark. *)
Lemma scan_char r0 r c used :
  p = used ++ r0 -> scan_inv r0 r c -> r <> [] ->
  exists r2 c2 l2,
    Segmenter.scan_char c = Some c2 /\
    scan_inv r0 r2 c2 /\ csrUTF8Decode (r2 ++ 0 :: q) l2 = Some (sc_iCode c2, sc_len c2) /\
    sc_tag c2 = sc_tag c /\ sc_i c2 = sc_i c /\ size r2 <= size r /\ (valid r0 -> clean (sc_iCode c2) /\ r2 <> []).
Proof.
  intros Ep Hinv Hne. destruct (scan_place r0 r c used Ep Hinv) as (u & _ & Hr & Hs0 & Hs). unfold Segmenter.scan_char.
  rewrite (si_ptr _ _ _ Hinv). destruct (csrUTF8Decode_string r q (sc_len c) Hr) as (code & len & E & _ & Hlen & _). rewrite E. cbn [mbind option_bind].
  destruct (Z.eqb_spec code 0xFEFF) as [->|Hb].
  - destruct (Hlen ltac:(lia)) as [H1 H2]. fold (size r) in H2. rewrite advance_text by lia. cbn [mbind option_bind].
    assert (Hr2 : Forall (fun c => 0 < c) (drop (Z.to_nat len) r)) by by apply Forall_drop.
    assert (Hnp : ~ clean 0xFEFF) by (intros (_ & _ & H); done).
    assert (Hnv : ~ valid r0).
    { intros Hv. apply Hnp. destruct (si_valid _ _ _ Hinv Hv) as (_ & Hvr & _). by destruct (valid_head q r _ _ _ Hvr Hne E). }
    destruct (csrUTF8Decode_string (drop (Z.to_nat len) r) q len Hr2) as (code2 & len2 & E2 & _). rewrite E2. cbn [mbind option_bind fst snd].
    eexists (drop (Z.to_nat len) r), _, len. split; [reflexivity|]. cbn [sc_iCode sc_len sc_tag sc_i].
    refine (conj _ (conj E2 (conj eq_refl (conj eq_refl (conj _ _))))); [| |done].
    + eapply scan_inv_skip; [done|done|done|exact E|intros [? _]; by apply Hnp|done|done].
    + unfold size. rewrite length_drop. lia.
  - eexists r, _, (sc_len c). split; [reflexivity|]. cbn [sc_iCode sc_len sc_tag sc_i].
    refine (conj _ (conj E (conj eq_refl (conj eq_refl (conj (Z.le_refl _) _))))).
    + destruct Hinv. by constructor.
    + intros H. split; [|done]. destruct (si_valid _ _ _ Hinv H) as (_ & Hvr & _). by destruct (valid_head q r _ _ _ Hvr Hne E).
Qed.

(** A character that passes gets its cell. *)
Lemma scan_cell r0 r c l used :
  p = used ++ r0 -> scan_inv r0 r c -> csrUTF8Decode (r ++ 0 :: q) l = Some (sc_iCode c, sc_len c) -> passes (sc_iCode c) ->
  sc_i c < CHUNK_BUFFER_SIZE ->
  exists t,
    Segmenter.scan_items s c = Some t /\
    1 <= sc_len c <= 4 /\ sc_len c <= size r /\
    forall tag iCode len cb,
      scan_inv r0 (drop (Z.to_nat (sc_len c)) r)
        (mkScan (drop (Z.to_nat (sc_len c)) r ++ 0 :: q) (sc_i c + sc_len c) tag iCode len t cb).
Proof.
  intros Ep Hinv E Hpass Hi. destruct (scan_place r0 r c used Ep Hinv) as (u & Eu & Hr & _). unfold Segmenter.scan_items.
  rewrite (si_ptr _ _ _ Hinv).
  destruct (csrUTF8Decode_string r q l Hr) as (code & len & E' & _ & Hlen & Hnil & _). rewrite E in E'. injection E' as <- <-.
  destruct (Hlen ltac:(apply Hpass)) as [H4 Hsz]. clear Hlen. fold (size r) in Hsz.
  assert (Hrne : r <> []) by (intros ->; specialize (Hnil eq_refl); destruct Hpass; lia).
  destruct (Hdict u r _ _ _ Eu E Hpass) as [(rs & Er & Hok) (ks & Ek & Hk)].
  change (1024 - 1)%nat with 1023%nat. unfold MAX_TOKEN_LENGTH. rewrite Er. cbn [mbind option_bind fst snd].
  destruct (char_items_spec q r rs _ _ _ Hok E H4) as (its & Ei & Hn & Hne & Hsort & Htok & Hls). rewrite Ei. cbn [mbind option_bind fst snd].
  pose proof (hits_freq _ _ Hok _ _ _ Ei) as Hf. rewrite setItems_spec, Ek by done. cbn [mbind option_bind fst snd].
  destruct (setKwItems_spec (mkThunk (base_offset (sc_thunk c)) (<[sc_i c := mkItem (item_freq its) (map length_ its)]> (m_charinfos (sc_thunk c)))
    (m_tokens (sc_thunk c)) (m_kwinfos (sc_thunk c)) (m_kw_pos (sc_thunk c)) (m_kw_ipos (sc_thunk c))
    (Z.max (m_max_length (sc_thunk c)) (sc_i c)) (m_length (sc_thunk c)) (m_queue (sc_thunk c))) (sc_i c) ks Hk) as (kw & ->).
  cbn [base_offset m_charinfos m_tokens m_kw_pos m_kw_ipos m_max_length m_length m_queue].
  eexists. split; [reflexivity|]. split; [done|]. split; [done|]. intros tag iCode len' cb.
  destruct Hinv as [Hptr (v & -> & Hv) Ht Hl Hq Hg Hval]. pose proof (gi_i _ _ _ Hg).
  constructor; cbn [sc_ptr sc_i sc_thunk m_tokens m_length m_queue]; try done.
  - destruct (drop_split r (sc_len c) ltac:(lia)) as (w & Ew & Sw). exists (v ++ w). rewrite <- app_assoc, <- Ew, size_app. split; [done|lia].
  - eapply (grid_inv_cell q r); [exact E|done|done|exact Hne|done|done|exact Hf|done|reflexivity|cbn; lia|done].
  - intros Hvr0. destruct (Hval Hvr0) as (H0 & Hvr & Ha). split; [done|].
    split; [by destruct (valid_head q r _ _ _ Hvr Hrne E) as (_ & _ & _ & ?)|].
    eapply (aligned_cell q r); [exact E|exact Hls|reflexivity|done| |done|done|done].
    rewrite H0 in Hv. apply drop_size. cbn in Hv. lia.
Qed.
(** A step of the scan. *)
Definition step_ok (r0 r : bytes) (st : step) : Prop :=
  match st with
  | Return _ => ~ valid r0
  | Break c => exists r', scan_inv r0 r' c /\ stop_at r' c
  | Continue c => exists r', scan_inv r0 r' c /\ quiet c /\ size r' < size r
  end.

Lemma scan_step_spec r0 r c used :
  p = used ++ r0 -> scan_inv r0 r c -> quiet c -> r <> [] -> sc_i c < CHUNK_BUFFER_SIZE ->
  exists st, Segmenter.scan_step s c = Some st /\ step_ok r0 r st.
Proof.
  intros Ep Hinv [Hq _] Hrne Hi. unfold Segmenter.scan_step.
  destruct (scan_char r0 r c used Ep Hinv Hrne) as (r2 & c2 & l2 & -> & Hinv2 & D2 & Htag & Hi2 & Hs2 & Hval). cbn [mbind option_bind].
  destruct (scan_place r0 r2 c2 used Ep Hinv2) as (_ & _ & Hr2 & Hs0 & _).
  destruct (csrUTF8Decode_string r2 q l2 Hr2) as (code2 & len2 & D2' & Hm1 & Hlen & Hnil & _). rewrite D2 in D2'.
  injection D2' as <- <-. destruct (Z.eqb_spec (sc_iCode c2) 0) as [H0|H0].
  { eexists. split; [reflexivity|]. intros Hv. by destruct (Hval Hv) as [(_ & ? & _) _]. }
  assert (Hr2ne : r2 <> []) by (intros ->; by specialize (Hnil eq_refl)).
  assert (Hsz : 1 <= size r2) by (destruct r2; [done|unfold size; cbn [length]; lia]).
  destruct (Z.ltb_spec (sc_iCode c2) 0) as [Hneg|Hneg].
  - assert (Hnc : ~ clean (sc_iCode c2)) by (intros (Hsc & _); apply scalar_range in Hsc; lia).
    rewrite (si_ptr _ _ _ Hinv2), advance_text by lia. cbn [mbind option_bind].
    eexists. split; [reflexivity|]. exists (drop (Z.to_nat 1) r2). split; [|split].
    + eapply scan_inv_skip; [done|done| |exact D2|intros [? _]; by apply Hnc|lia|lia]. intros Hv. apply Hnc. by destruct (Hval Hv).
    + unfold quiet. cbn [sc_tag sc_iCode]. rewrite Htag. split; [done|lia].
    + unfold size in *. rewrite length_drop. lia.
  - destruct ((sc_iCode c2 =? 13) || (sc_iCode c2 =? 10)) eqn:Ebr.
    { eexists. split; [reflexivity|]. exists r2. split; [done|]. right; left. exists (sc_len c2), l2. rewrite Htag.
      split_and!; [done|done|done|lia]. }
    destruct (breaks (tag_of (sc_iCode c2))) eqn:Ewme; pose proof Ewme as Ewme'; unfold breaks in Ewme'; rewrite Ewme'.
    { eexists. split; [reflexivity|]. exists r2. split; [destruct Hinv2; by constructor|].
      right; right. exists l2. cbn [sc_iCode sc_len sc_tag]. split_and!; [done|lia|lia|lia|done|done]. }
    assert (Hpass : passes (sc_iCode c2)) by (unfold passes; split_and!; [lia|lia|lia|done]).
    set (c3 := mkScan _ _ _ _ _ _ _). assert (Hinv3 : scan_inv r0 r2 c3) by (destruct Hinv2; by constructor).
    destruct (scan_cell r0 r2 c3 l2 used Ep Hinv3 D2 Hpass) as (t & -> & H4 & Hsz3 & Hnext); [by rewrite <- Hi2 in Hi|].
    cbn [mbind option_bind]. rewrite (si_ptr _ _ _ Hinv3), advance_text by lia. cbn [mbind option_bind].
    eexists. split; [reflexivity|]. exists (drop (Z.to_nat (sc_len c3)) r2). split; [apply Hnext|]. split.
    + unfold quiet. cbn [sc_tag sc_iCode]. destruct Hpass as (_ & ? & ? & ?). done.
    + unfold size in *. rewrite length_drop. lia.
Qed.

(** The scan always ends, and for a reason; only in text that is not well-formed
    does it give up. *)
Lemma chunk_scan_spec fuel r0 r c used :
  p = used ++ r0 -> scan_inv r0 r c -> quiet c -> size r <= Z.of_nat fuel ->
  exists c',
    (Segmenter.scan_loop fuel s c = Some (inr c') /\ ~ valid r0) \/
    (Segmenter.scan_loop fuel s c = Some (inl c') /\ exists r', scan_inv r0 r' c' /\ stop_at r' c').
Proof.
  intros Ep. revert r c. induction fuel as [|fuel IH]; intros r c Hinv Hquiet Hf;
    destruct (scan_place r0 r c used Ep Hinv) as (u & Eu & Hr & Hs0 & Hs); cbn [Segmenter.scan_loop];
    (destruct (decide (r = [])) as [->|Hrne];
     [rewrite (si_ptr _ _ _ Hinv); exists c; right; split; [done|]; exists []; split; [done|]; left; split; [done|by left]|]).
  { destruct r; [done|]. unfold size in Hf. cbn in Hf. lia. }
  assert (Hhd : exists b l, sc_ptr c = b :: l /\ (b =? 0) = false /\
            (length (sc_ptr c) <=? length (m_buffer_end s))%nat = false).
  { rewrite (si_ptr _ _ _ Hinv). destruct r as [|b r]; [done|]. eexists _, _. split; [reflexivity|].
    apply Forall_cons in Hr as [Hb _]. split; [lia|]. apply Nat.leb_gt. rewrite length_app. cbn [length]. lia. }
  destruct Hhd as (b & l & Eb & Hb & Hl). rewrite Eb, Hb, <- Eb, Hl. cbn [orb].
  destruct (Z.leb_spec CHUNK_BUFFER_SIZE (sc_i c)) as [Hi|Hi].
  { exists c. right. split; [done|]. exists r. split; [done|]. left. split; [done|by right]. }
  destruct (scan_step_spec r0 r c used Ep Hinv Hquiet Hrne Hi) as ([c2|c2|c2] & -> & Hst); cbn [mbind option_bind step_ok] in *.
  - destruct Hst as (r' & Hinv2 & Hq2 & Hlt). apply (IH r'); [done|done|lia].
  - exists c2. by right.
  - exists c2. by left.
Qed.

(** *** Runs of numbers and letters *)
Definition no_joint (cfg : option Segmenter_ConfigObj) : Prop :=
  match cfg with Some g => number_and_ascii_joint g = [] | None => True end.

Lemma run_continues_tag cfg tag prev a b :
  no_joint cfg -> Segmenter.run_continues cfg tag prev a b = true -> is_tag_m tag || is_tag_e tag = true.
Proof.
  destruct cfg as [g|]; [|done]. unfold no_joint. intros E. unfold Segmenter.run_continues. rewrite E.
  cbn [dry_strchr Z.eqb negb orb]. rewrite !orb_false_r. intros [[_ H]%andb_true_iff _]%andb_true_iff.
  apply orb_true_iff in H as [[-> _]%andb_true_iff|[-> _]%andb_true_iff]; [by rewrite orb_true_r|done].
Qed.

Lemma tag_positive code : -1 <= code -> is_tag_w (tag_of code) || is_tag_m (tag_of code) || is_tag_e (tag_of code) = true -> 0 < code.
Proof.
  intros Hc H. destruct (Z.lt_ge_cases 0 code) as [|Hle]; [done|]. rewrite (tag_of_bad code) in H by lia. done.
Qed.

Lemma run_loop_spec fuel cfg r len tag prev iCodep tok_len :
  Forall (fun c => 0 < c) r -> size r <= Z.of_nat fuel -> valid r \/ no_joint cfg -> 1 <= len <= 4 ->
  is_tag_m prev || is_tag_e prev = true -> 0 <= tok_len -> tok_len + size r < 2 ^ 16 ->
  exists u r' tag' len',
    r = u ++ r' /\ Segmenter.run_loop fuel cfg (r ++ 0 :: q) len tag prev iCodep tok_len = Some (tag', len', tok_len + size u) /\
    1 <= len' <= 4 /\ (is_tag_w tag' = true -> r' = [] \/ len' <= size r' /\ (valid r -> whole r' len')) /\
    (valid r -> valid r' /\ exists cps, Forall clean cps /\ u = text cps).
Proof.
  revert r len tag iCodep tok_len. induction fuel as [|fuel IH]; intros r len tag iCodep tok_len Hr Hf Hsafe Hlen Hprev H0 Hsum;
    cbn [Segmenter.run_loop];
    (destruct (decide (r = [])) as [->|Hne];
     [exists [], [], tag, len; cbn [app size length]; rewrite Z.add_0_r;
      refine (conj eq_refl (conj eq_refl (conj Hlen (conj _ _)))); [intros _; by left|intros Hv; split; [done|by exists []]]|]).
  { destruct r; [done|]. unfold size in Hf. cbn in Hf. lia. }
  assert (Hhd : exists b l, r ++ 0 :: q = b :: l /\ (b =? 0) = false).
  { destruct r as [|b r]; [done|]. eexists _, _. split; [reflexivity|]. apply Forall_cons in Hr as [Hb _]. lia. }
  destruct Hhd as (b & l & Eb & Hb). rewrite Eb, Hb, <- Eb. clear b l Eb Hb.
  destruct (csrUTF8Decode_string r q len Hr) as (code & n & E & Hm1 & Hn & _ & Hn4). rewrite E. cbn [mbind option_bind].
  fold (size r) in Hn. assert (Hn4' : 1 <= n <= 4) by lia.
  assert (Hstop : forall tag', (is_tag_w tag' = true -> tag' = tag_of code) ->
    exists u r' tag'' len', r = u ++ r' /\ Some (tag', n, tok_len) = Some (tag'', len', tok_len + size u) /\ 1 <= len' <= 4 /\
      (is_tag_w tag'' = true -> r' = [] \/ len' <= size r' /\ (valid r -> whole r' len')) /\
      (valid r -> valid r' /\ exists cps, Forall clean cps /\ u = text cps)).
  { intros tag' Ht. exists [], r, tag', n. cbn [app size length]. rewrite Z.add_0_r.
    refine (conj eq_refl (conj eq_refl (conj Hn4' (conj _ _)))); [|intros Hv; split; [done|by exists []]].
    intros Hw. right. specialize (Ht Hw) as ->. assert (0 < code) as Hc by (apply tag_positive; [done|by rewrite Hw]).
    split; [by destruct (Hn Hc)|]. intros Hv. by destruct (valid_head q r _ _ _ Hv Hne E) as (_ & _ & ? & _). }
  destruct (is_tag_m (tag_of code) && Segmenter.separates cfg); [by apply Hstop|].
  destruct (negb (tag_of code =? prev) && negb _) eqn:Ego; [by apply Hstop|]. clear Hstop.
  assert (Hcode : 0 < code).
  { destruct Hsafe as [Hv|Hj].
    - destruct (valid_head q r _ _ _ Hv Hne E) as ((Hs & Hz & _) & _). apply scalar_range in Hs. lia.
    - apply tag_positive; [done|]. rewrite <- orb_assoc. apply andb_false_iff in Ego as [Ego%negb_false_iff|Ego%negb_false_iff].
      + apply Z.eqb_eq in Ego as ->. rewrite Hprev. by rewrite orb_true_r.
      + apply run_continues_tag in Ego; [|done]. rewrite Ego. by rewrite orb_true_r. }
  destruct (Hn Hcode) as [_ Hnr]. rewrite advance_text by lia. cbn [mbind option_bind].
  rewrite u32_id by (unfold is_u32, size in *; lia). destruct (drop_split r n ltac:(lia)) as (v & Ev & Sv).
  assert (Hd : size (drop (Z.to_nat n) r) = size r - n) by (apply (f_equal size) in Ev; rewrite size_app in Ev; lia).
  destruct (IH (drop (Z.to_nat n) r) n (tag_of code) code (tok_len + n)) as (u & r' & tag' & len' & Eu & -> & Hl' & Hw & Hval);
    [by apply Forall_drop|lia| |done|done|lia|lia|].
  { destruct Hsafe as [Hv|]; [left|by right]. by destruct (valid_head q r _ _ _ Hv Hne E) as (_ & _ & _ & ?). }
  exists (v ++ u), r', tag', len'. rewrite <- app_assoc, <- Eu, size_app. split; [done|]. split; [do 2 f_equal; lia|]. split; [done|].
  assert (Hvd : valid r -> valid (drop (Z.to_nat n) r)) by (intros Hv; by destruct (valid_head q r _ _ _ Hv Hne E) as (_ & _ & _ & ?)).
  split.
  - intros Ht. destruct (Hw Ht) as [->|[H1 H2]]; [by left|right; split; [done|auto]].
  - intros Hv. destruct (Hval (Hvd Hv)) as (Hvr' & cps & Hc & ->). split; [done|].
    destruct (valid_head q r _ _ _ Hv Hne E) as (_ & _ & (w & _ & Hwc & Hws & [x Ex]) & _).
    assert (v = text w) as ->.
    { apply (f_equal (take (Z.to_nat n))) in Ev. rewrite Ex in Ev at 1. unfold size in *.
      rewrite take_app_length' in Ev by lia. rewrite take_app_length' in Ev by lia. done. }
    exists (w ++ cps). rewrite text_app. split; [by apply Forall_app|done].
Qed.

(** *** The tokens of a chunk *)

(** The tokens that are ready: they cut the text [r], into whole characters if
    it is well-formed ([v]).  One more may follow at the end of the text, where
    nobody takes it. *)
Definition fed (v : Prop) (r : bytes) (t : MMThunk) : Prop :=
  exists real ph,
    m_tokens t = real ++ ph /\ Forall (fun l => 1 <= l) real /\ (ph = [] \/ exists l, ph = [l] /\ 1 <= l <= 4 /\ sum real = size r) /\
    sum real <= size r /\ m_length t = sum (real ++ ph) /\ (v -> cuts r real).

Lemma cuts_app r a b : cuts r a -> cuts (drop (Z.to_nat (sum a)) r) b -> cuts r (a ++ b).
Proof.
  intros Ha. revert b. induction Ha as [r|r l ls Hw Hc IH]; intros b Hb; [done|]. cbn [app]. constructor; [done|]. apply IH.
  pose proof (whole_size _ _ Hw). assert (0 <= sum ls).
  { clear -Hc. unfold sum. induction Hc as [|r' l' ls' Hw _ IH]; cbn [fold_right]; [lia|]. pose proof (whole_size _ _ Hw). lia. }
  rewrite drop_drop, <- Z2Nat.inj_add by lia. replace (l + sum ls) with (sum (l :: ls)) by (unfold sum; cbn [fold_right]; lia). done.
Qed.

Lemma pushToken_queue t l b :
  0 <= l < 65536 -> 0 <= m_length t + l < 2 ^ 32 ->
  m_tokens (MMThunk.pushToken t l b) = m_tokens t ++ [l] /\ m_length (MMThunk.pushToken t l b) = m_length t + l.
Proof.
  intros Hl Ht. unfold MMThunk.pushToken. cbn [m_tokens m_length]. rewrite (u16_small l), u32_id by (unfold is_u32; lia). done.
Qed.

(** One character that is pushed as a token, or a run. *)
Lemma whole_octet r cp : valid r -> r <> [] -> forall len l, csrUTF8Decode (r ++ 0 :: q) l = Some (cp, len) -> cp < 128 -> whole r 1.
Proof.
  intros Hv Hne len l E Hcp. destruct (valid_head q r _ _ _ Hv Hne E) as (Hc & _ & Hw & _).
  destruct Hv as (cps & Hcs & ->). destruct Hcs as [|c cps Hc' Hcs]; [done|]. rewrite text_cons in E. rewrite decode_octets in E by done.
  injection E as -> <-. assert (size (octets cp) = 1) as Hs.
  { unfold octets. destruct (Z.ltb_spec cp 0x80); [done|lia]. }
  by rewrite Hs in Hw.
Qed.

(** What is known of the tokens when the matching is done. *)
Lemma tokens_of_scan r0 r c ts :
  scan_inv r0 r c -> greedy_cover (sc_thunk c) 0 ts -> Forall token_ok ts ->
  let pre := m_tokens (sc_thunk c) ++ ts in
  exists d, pending r d /\ size r0 = size r + sum pre - d /\ Forall (fun l => 1 <= l) pre /\
    (valid r0 -> cuts r0 pre) /\ (d = 0 -> drop (Z.to_nat (sum pre)) r0 = r) /\ sc_i c <= sum pre.
Proof.
  intros Hinv Hc Hts. cbv zeta. destruct (si_used _ _ _ Hinv) as (u & Eu & Su). pose proof (si_grid _ _ _ Hinv) as Hg.
  destruct (cover_end_at r _ _ 0 ts Hg Hc) as (d & Hd & Esum).
  { destruct (Z.eq_dec (sc_i c) 0) as [->|]; [right; apply pending_0|left; apply (gi_start _ _ _ Hg)]. pose proof (gi_i _ _ _ Hg). lia. }
  pose proof (pending_nonneg _ _ Hd) as Hd0. pose proof (sum_nonneg _ (si_tokens _ _ _ Hinv)) as Hpre. pose proof (gi_i _ _ _ Hg) as Hi0.
  exists d. rewrite sum_app. split; [done|]. split; [rewrite Eu, size_app; lia|]. split_and!.
  - apply Forall_app. split; [eapply Forall_impl; [apply (si_tokens _ _ _ Hinv)|]|eapply Forall_impl; [exact Hts|]];
      unfold token_ok; cbn; intros; lia.
  - intros Hv. destruct (si_valid _ _ _ Hinv Hv) as (-> & _ & Ha). cbn [app].
    pose proof (cover_cuts r0 _ 0 ts ltac:(lia) Ha Hc) as H. by rewrite drop_0 in H.
  - intros ->. rewrite Eu. apply drop_size. lia.
  - lia.
Qed.
Lemma breaks_false tag : breaks tag = false -> is_tag_w tag = false /\ is_tag_m tag = false /\ is_tag_e tag = false.
Proof. unfold breaks. intros [[? ?]%orb_false_iff ?]%orb_false_iff. done. Qed.

Lemma pending_size r d : pending r d -> d <= size r.
Proof. intros (cps & _ & <- & [x ->]). rewrite size_app. unfold size. lia. Qed.

Section Append.
Context (cfg : option Segmenter_ConfigObj) (r0 r : bytes) (c : scan) (ts used : list Z) (t : MMThunk).
Context (Ep : p = used ++ r0) (Hinv : scan_inv r0 r c) (Hcov : greedy_cover (sc_thunk c) 0 ts) (Hts : Forall token_ok ts)
  (Hsafe : valid r0 \/ no_joint cfg) (Et : m_tokens t = m_tokens (sc_thunk c) ++ ts) (El : m_length t = sum (m_tokens t)).

#[local] Notation pre := (m_tokens t).

Lemma pre_facts d :
  pending r d -> size r0 = size r + sum pre - d -> 0 <= sum pre <= size r0 /\ size r0 < 2 ^ 16 - 4 /\ size r <= size r0.
Proof.
  intros Hd Es. pose proof (pending_size _ _ Hd). pose proof (pending_nonneg _ _ Hd).
  destruct (scan_place r0 r c used Ep Hinv) as (_ & _ & _ & H1 & H2). lia.
Qed.

Lemma append_quiet :
  quiet c -> r = [] \/ CHUNK_BUFFER_SIZE <= sc_i c ->
  exists t', Segmenter.append_tokens cfg c t = Some t' /\ fed (valid r0) r0 t' /\ (r0 <> [] -> m_tokens t' <> []).
Proof.
  intros (Hb & H13 & H10) Hstop. destruct (breaks_false _ Hb) as (Hw & Hm & He).
  destruct (tokens_of_scan r0 r c ts Hinv Hcov Hts) as (d & Hd & Es & H1 & Hcut & _ & Hi). rewrite <- Et in Es, H1, Hcut, Hi.
  destruct (pre_facts d Hd Es) as (Hs & Hsz & Hrr). unfold Segmenter.append_tokens. rewrite Hm, He.
  assert ((sc_iCode c =? 13) || (sc_iCode c =? 10) = false) as -> by lia. cbn [orb mbind option_bind].
  rewrite Hw. exists t. split; [done|]. split.
  - exists pre, []. rewrite app_nil_r. split_and!; [done|done|by left|lia|done|done].
  - intros Hne E. rewrite E in Es, Hi. cbn in Es, Hi.
    destruct Hstop as [->|Hstop]; [|unfold CHUNK_BUFFER_SIZE in Hstop; lia].
    pose proof (pending_nonneg _ _ Hd). destruct r0; [done|]. unfold size in Es. cbn in Es. lia.
Qed.

Lemma append_break len l :
  csrUTF8Decode (r ++ 0 :: q) l = Some (sc_iCode c, len) -> r <> [] -> breaks (sc_tag c) = false ->
  sc_iCode c = 13 \/ sc_iCode c = 10 ->
  exists t', Segmenter.append_tokens cfg c t = Some t' /\ fed (valid r0) r0 t' /\ (r0 <> [] -> m_tokens t' <> []).
Proof.
  intros E Hne Hb Hcode. destruct (breaks_false _ Hb) as (Hw & Hm & He).
  destruct (tokens_of_scan r0 r c ts Hinv Hcov Hts) as (d & Hd & Es & H1 & Hcut & Hdrop & Hi). rewrite <- Et in Es, H1, Hcut, Hdrop, Hi.
  assert (Hd0 : d = 0) by (eapply pending_stop; [exact Hd|exact E|]; intros [_ (_ & ? & ? & _)]; lia).
  destruct (pre_facts d Hd Es) as (Hs & Hsz & Hrr). subst d. unfold Segmenter.append_tokens.
  assert (Hr1 : 1 <= size r) by (destruct r; [done|unfold size; cbn [length]; lia]).
  assert ((sc_iCode c =? 13) || (sc_iCode c =? 10) = true) as -> by lia. rewrite (si_ptr _ _ _ Hinv), advance_text by lia.
  cbn [mbind option_bind]. rewrite Hm, He. cbn [orb mbind option_bind]. rewrite Hw.
  destruct (pushToken_queue t 1 0) as [Et' El']; [lia|rewrite El; lia|].
  eexists. split; [reflexivity|]. split; [|rewrite Et'; by destruct pre]. exists (pre ++ [1]), []. rewrite app_nil_r, sum_app.
  cbn [sum fold_right]. refine (conj Et' (conj _ (conj (or_introl eq_refl) (conj _ (conj _ _))))).
  - apply Forall_app. split; [done|]. by apply Forall_singleton.
  - lia.
  - rewrite El', El. lia.
  - intros Hv. apply cuts_app; [auto|]. rewrite Hdrop by done. constructor; [|constructor].
    eapply whole_octet; [by destruct (si_valid _ _ _ Hinv Hv) as (_ & ? & _)|done|exact E|]. lia.
Qed.

Lemma append_run l :
  csrUTF8Decode (r ++ 0 :: q) l = Some (sc_iCode c, sc_len c) -> 0 < sc_iCode c -> sc_iCode c <> 13 -> sc_iCode c <> 10 ->
  sc_tag c = tag_of (sc_iCode c) -> breaks (sc_tag c) = true ->
  exists t', Segmenter.append_tokens cfg c t = Some t' /\ fed (valid r0) r0 t' /\ (r0 <> [] -> m_tokens t' <> []).
Proof.
  intros E Hpos0 H13 H10 Htag Hb.
  destruct (tokens_of_scan r0 r c ts Hinv Hcov Hts) as (d & Hd & Es & H1 & Hcut & Hdrop & Hi). rewrite <- Et in Es, H1, Hcut, Hdrop, Hi.
  assert (Hd0 : d = 0) by (eapply pending_stop; [exact Hd|exact E|]; intros [_ (_ & _ & _ & H)]; congruence).
  destruct (pre_facts d Hd Es) as (Hs & Hsz & Hrr). subst d. specialize (Hdrop eq_refl).
  destruct (scan_place r0 r c used Ep Hinv) as (_ & _ & Hr & _).
  destruct (csrUTF8Decode_string r q l Hr) as (code & n & E' & _ & Hn & Hnil & _). rewrite E in E'. injection E' as <- <-.
  destruct (Hn Hpos0) as [Hn4 Hnr]. fold (size r) in Hnr. clear Hn.
  assert (Hne : r <> []) by (intros ->; specialize (Hnil eq_refl); lia).
  assert (Hvr : valid r0 -> valid r) by (intros Hv; by destruct (si_valid _ _ _ Hinv Hv) as (_ & ? & _)).
  unfold Segmenter.append_tokens. assert ((sc_iCode c =? 13) || (sc_iCode c =? 10) = false) as -> by lia.
  cbn [mbind option_bind]. rewrite (si_ptr _ _ _ Hinv). destruct (is_tag_m (sc_tag c) || is_tag_e (sc_tag c)) eqn:Eme.
  - rewrite advance_text by lia. cbn [mbind option_bind]. set (r1 := drop (Z.to_nat (sc_len c)) r).
    destruct (drop_split r (sc_len c) ltac:(lia)) as (v & Ev & Sv). fold r1 in Ev.
    assert (Hr1 : size r = sc_len c + size r1) by (rewrite Ev, size_app at 1; lia).
    destruct (run_loop_spec (length (r1 ++ 0 :: q)) cfg r1 (sc_len c) (sc_tag c) (sc_tag c) (sc_iCode c) (sc_len c))
      as (u & r' & tag' & len' & Eu & -> & Hl' & Hw & Hval);
      [by apply Forall_drop|unfold size; rewrite length_app; lia| |done|done|lia|lia|].
    { destruct Hsafe as [Hv|]; [left|by right]. by destruct (valid_head q r _ _ _ (Hvr Hv) Hne E) as (_ & _ & _ & ?). }
    cbn [mbind option_bind]. assert (Hr' : size r1 = size u + size r') by (rewrite Eu, size_app at 1; lia).
    assert (0 <= size u) by (unfold size; lia). assert (0 <= size r') by (unfold size; lia).
    destruct (pushToken_queue t (sc_len c + size u) (-1)) as [Et' El']; [lia|rewrite El; lia|].
    set (t1 := MMThunk.pushToken t (sc_len c + size u) (-1)) in *. rewrite El in El'.
    assert (Hr'd : drop (Z.to_nat (sc_len c + size u)) r = r').
    { rewrite Ev, Eu, app_assoc. apply drop_size. rewrite size_app. lia. }
    assert (Hcut1 : valid r0 -> cuts r0 (pre ++ [sc_len c + size u])).
    { intros Hv. apply cuts_app; [auto|]. rewrite Hdrop. constructor; [|constructor].
      destruct (valid_head q r _ _ _ (Hvr Hv) Hne E) as (_ & _ & (w & Hwne & Hwc & Hws & [x Ex]) & Hvr1).
      fold r1 in Hvr1. destruct (Hval Hvr1) as (_ & cps & Hc & Eucps). exists (w ++ cps). rewrite text_app.
      split; [by destruct w|]. split; [by apply Forall_app|]. rewrite size_app, Hws, <- Eucps. split; [done|].
      exists r'. rewrite <- app_assoc, <- Eu. rewrite Ex at 1. f_equal. unfold r1. rewrite Ex. by rewrite drop_size. }
    assert (Hf1 : Forall (fun l => 1 <= l) (pre ++ [sc_len c + size u])).
    { apply Forall_app. split; [done|]. apply Forall_singleton. lia. }
    destruct (is_tag_w tag') eqn:Ew'.
    2: { eexists. split; [reflexivity|]. split; [|rewrite Et'; by destruct pre]. exists (pre ++ [sc_len c + size u]), [].
         rewrite app_nil_r, sum_app. cbn [sum fold_right]. refine (conj Et' (conj Hf1 (conj (or_introl eq_refl) (conj _ (conj _ Hcut1))))).
         - unfold size in *. lia.
         - rewrite El'. lia. }
    destruct (pushToken_queue t1 len' (-1)) as [Et2 El2]; [lia|unfold size in *; lia|]. rewrite Et', <- app_assoc in Et2. rewrite El' in El2.
    eexists. split; [reflexivity|]. split; [|rewrite Et2; by destruct pre].
    destruct (Hw eq_refl) as [Hnil'|[Hle Hwh]].
    + exists (pre ++ [sc_len c + size u]), [len']. rewrite !sum_app. cbn [sum fold_right]. rewrite Hnil' in Hr'. unfold size in Hr' at 3.
      cbn [length] in Hr'. rewrite <- app_assoc. refine (conj Et2 (conj Hf1 (conj _ (conj _ (conj _ Hcut1))))).
      * right. exists len'. split; [done|]. split; [done|]. lia.
      * lia.
      * rewrite El2. lia.
    + exists (pre ++ [sc_len c + size u; len']), []. rewrite app_nil_r, !sum_app. cbn [sum fold_right].
      refine (conj Et2 (conj _ (conj (or_introl eq_refl) (conj _ (conj _ _))))).
      * apply Forall_app. split; [done|]. constructor; [lia|]. apply Forall_singleton. lia.
      * lia.
      * rewrite El2. lia.
      * intros Hv. change [sc_len c + size u; len'] with ([sc_len c + size u] ++ [len']). rewrite app_assoc. apply cuts_app; [auto|].
        constructor; [|constructor]. rewrite sum_app. cbn [sum fold_right].
        replace (sum pre + (sc_len c + size u + 0)) with (sum pre + (sc_len c + size u)) by lia.
        rewrite Z2Nat.inj_add, <- drop_drop, Hdrop, Hr'd by lia. apply Hwh.
        destruct (valid_head q r _ _ _ (Hvr Hv) Hne E) as (_ & _ & _ & ?). done.
  - cbn [mbind option_bind]. assert (is_tag_w (sc_tag c) = true) as ->.
    { unfold breaks in Hb. rewrite <- orb_assoc, Eme, orb_false_r in Hb. done. }
    destruct (pushToken_queue t (sc_len c) (-1)) as [Et' El']; [lia|rewrite El; lia|].
    eexists. split; [reflexivity|]. split; [|rewrite Et'; by destruct pre]. exists (pre ++ [sc_len c]), []. rewrite app_nil_r, sum_app.
    cbn [sum fold_right]. refine (conj Et' (conj _ (conj (or_introl eq_refl) (conj _ (conj _ _))))).
    + apply Forall_app. split; [done|]. apply Forall_singleton. lia.
    + lia.
    + rewrite El', El. lia.
    + intros Hv. apply cuts_app; [auto|]. rewrite Hdrop. constructor; [|constructor].
      by destruct (valid_head q r _ _ _ (Hvr Hv) Hne E) as (_ & _ & ? & _).
Qed.
End Append.

Lemma scan_start r t0 cb :
  scan_inv r r (mkScan (r ++ 0 :: q) 0 0 0 0 (MMThunk.reset t0) cb) /\ quiet (mkScan (r ++ 0 :: q) 0 0 0 0 (MMThunk.reset t0) cb).
Proof.
  split; [|split; [done|]; cbn; lia]. constructor; cbn [sc_ptr sc_thunk sc_i MMThunk.reset m_tokens m_length m_queue].
  - done.
  - exists []. by split.
  - done.
  - done.
  - done.
  - constructor; cbn; [lia|unfold CHUNK_BUFFER_SIZE; lia|lia|]. intros k info Hk. by rewrite lookup_empty in Hk.
  - intros Hv. split; [done|]. split; [done|]. intros k info l Hk. cbn in Hk. by rewrite lookup_empty in Hk.
Qed.

(** The next chunk: tokens, or the end of a text that is not well-formed. *)
Lemma next_chunk_spec {log_} `{Hlog : LogLaws log_} r used :
  p = used ++ r -> m_buffer_ptr s = r ++ 0 :: q -> valid r \/ no_joint (m_config s) ->
  exists c t' more,
    Segmenter.next_chunk log_ s = Some (Segmenter.set_chunk_begin (Segmenter.set_thunk s t') c, more) /\
    (if more : bool then fed (valid r) r t' /\ (r <> [] -> m_tokens t' <> []) else ~ valid r).
Proof.
  intros Ep Eptr Hsafe. unfold Segmenter.next_chunk. rewrite Eptr. destruct (scan_start r (m_thunk s) (r ++ 0 :: q)) as [Hinv Hquiet].
  destruct (chunk_scan_spec (length (r ++ 0 :: q)) r r _ used Ep Hinv Hquiet) as (c & [[-> Hnv]|[-> (r' & Hinv' & Hstop)]]).
  { unfold size. rewrite length_app. lia. }
  { cbn [mbind option_bind]. eexists _, _, false. by split. }
  cbn [mbind option_bind]. clear Hinv Hquiet.
  pose proof (sum_nonneg _ (si_tokens _ _ _ Hinv')) as H0. destruct (scan_place r r' c used Ep Hinv') as (_ & _ & _ & Hs1 & Hs2).
  destruct (si_used _ _ _ Hinv') as (u & Eu & Su). pose proof (gi_i _ _ _ (si_grid _ _ _ Hinv')).
  assert (Hu : size u <= size r) by (rewrite Eu, size_app; unfold size; lia).
  destruct (Tokenize_spec (log_ := log_) (sc_thunk c)) as (ts & kw & -> & Hcov & Hts);
    [eapply grid_inv_ok; apply Hinv'|apply Hinv'|rewrite (si_length _ _ _ Hinv'); unfold is_u32; lia|].
  cbn [mbind option_bind]. set (t := mkThunk _ _ _ _ _ _ _ _ _).
  assert (El : m_length t = sum (m_tokens t)).
  { cbn [t m_length m_tokens]. rewrite (si_length _ _ _ Hinv'), sum_app. apply u32_id.
    destruct (tokens_of_scan r r' c ts Hinv' Hcov Hts) as (d & Hd & Es & _ & _ & _ & Hi). rewrite sum_app in Es, Hi.
    pose proof (pending_size _ _ Hd). unfold is_u32. lia. }
  assert (Happ : exists t', Segmenter.append_tokens (m_config s) c t = Some t' /\ fed (valid r) r t' /\ (r <> [] -> m_tokens t' <> [])).
  { destruct Hstop as [[Hq Hend']|[(len & l & E & Hne & Hb & Hcode)|(l & E & Hpos' & H13 & H10 & Htag & Hb)]].
    - by eapply append_quiet.
    - by eapply append_break.
    - by eapply append_run. }
  destruct Happ as (t' & -> & Hfed & Hne). cbn [mbind option_bind]. by eexists _, _, true.
Qed.
End Scan.

(** ** The tokens of a text *)
Lemma sum_pos ls : Forall (fun l => 1 <= l) ls -> Z.of_nat (length ls) <= sum ls.
Proof. unfold sum. induction 1 as [|l ls Hl _ IH]; cbn [fold_right length]; lia. Qed.

Section Tokens.
Context {log_ : spec_float -> spec_float} {Hlog : LogLaws log_}.
Context (p q : bytes) (v : Prop).
Context (Hpos : Forall (fun c => 0 < c) p) (Hshort : size p < 2 ^ 16 - 4).

(** The segmenter with the text [r] to come. *)
Record seg_at (r : bytes) (s : Segmenter) : Prop := {
  sg_begin : m_buffer_begin s = p ++ 0 :: q;
  sg_ptr : m_buffer_ptr s = r ++ 0 :: q;
  sg_used : exists used, p = used ++ r;
  sg_dict : dict_ok s p q;
  sg_end : (length (m_buffer_end s) <= S (length q))%nat;
  sg_sym : m_symdict s = None;
  sg_safe : v \/ no_joint (m_config s);
  sg_valid : v -> valid r;
  sg_fed : m_tokens (m_thunk s) = [] \/ fed v r (m_thunk s)
}.

Lemma fed_weaken (v1 v2 : Prop) r t : (v2 -> v1) -> fed v1 r t -> fed v2 r t.
Proof. intros Hv (real & ph & H1 & H2 & H3 & H4 & H5 & H6). exists real, ph. split_and!; auto. Qed.

(** The head token is taken from the text, or there is none and the text is at
    an end, if it is well-formed. *)
Lemma peekToken_spec r s :
  seg_at r s ->
  exists s',
    ((v -> r = []) /\ forall sym, exists sl, Segmenter.peekToken log_ s sym = Some (s', (None, 0, sl))) \/
    (seg_at r s' /\ exists l ls, m_tokens (m_thunk s') = l :: ls /\ 1 <= l < 65536 /\
       forall sym, Segmenter.peekToken log_ s sym = Some (s', (Some (r ++ 0 :: q), l, l))).
Proof.
  intros Hs.
  assert (Hhead : forall s l ls, seg_at r s -> m_tokens (m_thunk s) = l :: ls ->
    1 <= l < 65536 /\ Segmenter.head_token s l = Some (Some (r ++ 0 :: q), l, l)).
  { intros s1 l ls Hs1 E. destruct (sg_fed _ _ Hs1) as [H|(real & ph & Et & Hr & Hph & Hsum & _)]; [congruence|]. split.
    - destruct (sg_used _ _ Hs1) as [used Ep]. pose proof Hshort as Hsh. rewrite Ep, size_app in Hsh.
      assert (0 <= size used) by (unfold size; lia). rewrite E in Et. destruct real as [|x real]; cbn [app] in Et.
      + destruct Hph as [->|(y & -> & Hy & _)]; [done|]. injection Et as -> _. lia.
      + injection Et as -> _. apply Forall_cons in Hr as [Hx Hr]. unfold sum in Hsum. cbn [fold_right] in Hsum.
        pose proof (sum_pos real Hr). unfold sum in *. lia.
    - unfold Segmenter.head_token. rewrite (sg_sym _ _ Hs1), (sg_ptr _ _ Hs1). done. }
  assert (Hpeek : forall fuel s l ls sym, seg_at r s -> m_tokens (m_thunk s) = l :: ls ->
            Segmenter.peekToken_loop log_ fuel s sym = Some (s, (Some (r ++ 0 :: q), l, l))).
  { intros fuel s1 l ls sym Hs1 E. destruct (Hhead s1 l ls Hs1 E) as [Hl Eh].
    destruct fuel; cbn [Segmenter.peekToken_loop]; unfold MMThunk.peekToken; rewrite E;
      (destruct (Z.eqb_spec l 0); [lia|]); cbn [negb]; by rewrite Eh. }
  destruct (m_tokens (m_thunk s)) as [|l ls] eqn:E.
  2: { exists s. right. split; [done|]. exists l, ls. split; [done|]. split; [by destruct (Hhead s l ls Hs E)|].
       intros sym. by apply (Hpeek 1%nat s l ls). }
  destruct (sg_used _ _ Hs) as [used Ep].
  destruct (next_chunk_spec s p q Hpos Hshort (sg_dict _ _ Hs) (sg_end _ _ Hs) r used Ep (sg_ptr _ _ Hs)) as (cb & t' & more & En & Hmore).
  { destruct (sg_safe _ _ Hs) as [Hv|]; [left; by apply (sg_valid _ _ Hs)|by right]. }
  set (s' := Segmenter.set_chunk_begin (Segmenter.set_thunk s t') cb) in *. exists s'.
  assert (Eloop : forall sym, Segmenter.peekToken log_ s sym =
    if negb more then Some (s', (None, 0, 0))
    else if negb (m_length t' =? 0) then Segmenter.peekToken_loop log_ 0 s' sym else Some (s', (None, 0, sym))).
  { intros sym. unfold Segmenter.peekToken. cbn [Segmenter.peekToken_loop]. unfold MMThunk.peekToken at 1. rewrite E. cbn [Z.eqb negb].
    rewrite En. done. }
  destruct more; [|left; split; [intros Hv; destruct Hmore; by apply (sg_valid _ _ Hs)|intros sym; exists 0; by rewrite Eloop]].
  destruct Hmore as [Hfed Hne]. assert (Hfed' : fed v r t') by (eapply fed_weaken; [apply (sg_valid _ _ Hs)|done]).
  assert (Hs' : seg_at r s') by (destruct Hs; constructor; try done; by right).
  pose proof Hfed as (real & ph & Etk & Hr & Hph & _ & El & _). destruct (m_tokens t') as [|l ls] eqn:Et.
  - left. symmetry in Etk. apply app_eq_nil in Etk as [-> ->]. cbn in El. split; [|intros sym; exists sym; by rewrite Eloop, El].
    intros _. destruct r; [done|]. by destruct (Hne ltac:(done)).
  - right. split; [done|]. exists l, ls. destruct (Hhead s' l ls Hs' Et) as [Hl _]. split; [done|]. split; [done|]. intros sym.
    rewrite Eloop. assert (0 < m_length t').
    { rewrite El, <- Etk. assert (Hall : Forall (fun l => 1 <= l) (l :: ls)).
      { rewrite Etk. apply Forall_app. split; [done|]. destruct Hph as [->|(y & -> & Hy & _)]; [constructor|]. apply Forall_singleton. lia. }
      apply sum_pos in Hall. cbn [length] in Hall. lia. }
    destruct (Z.eqb_spec (m_length t') 0); [lia|]. cbn [negb]. by apply (Hpeek 0%nat s' l ls).
Qed.

Lemma popToken_spec r s l ls :
  seg_at r s -> m_tokens (m_thunk s) = l :: ls -> r <> [] ->
  exists s2, Segmenter.popToken s l = Some s2 /\ seg_at (drop (Z.to_nat l) r) s2 /\ 1 <= l <= size r /\ (v -> whole r l).
Proof.
  intros Hs E Hne. destruct (sg_used _ _ Hs) as [used Ep].
  destruct (sg_fed _ _ Hs) as [H|(real & ph & Et & Hr & Hph & Hsum & El & Hcut)]; [congruence|]. rewrite E in Et.
  destruct real as [|x real]; cbn [app] in Et.
  { destruct Hph as [->|(y & -> & _ & Hy)]; [done|]. destruct r; [done|]. unfold size in Hy. cbn in Hy. lia. }
  injection Et as <- ->. apply Forall_cons in Hr as [Hl Hr]. pose proof Hshort as Hsh. rewrite Ep, size_app in Hsh.
  assert (0 <= size used) by (unfold size; lia). unfold sum in Hsum, El. cbn [fold_right app] in Hsum, El. fold (sum real) in Hsum.
  fold (sum (real ++ ph)) in El. rewrite sum_app in El. pose proof (sum_pos real Hr) as Hreal.
  assert (Hph0 : 0 <= sum ph <= 4) by (destruct Hph as [->|(y & -> & Hy & _)]; cbn; lia).
  destruct (drop_split r l ltac:(lia)) as (u & Eu & Su).
  assert (Hsz : size (drop (Z.to_nat l) r) = size r - l) by (apply (f_equal size) in Eu; rewrite size_app in Eu; lia).
  set (t1 := (MMThunk.popupToken (m_thunk s)).1).
  assert (Et1 : MMThunk.popupToken (m_thunk s) = (t1, l) /\ m_tokens t1 = real ++ ph /\ m_length t1 = sum real + sum ph).
  { unfold t1, MMThunk.popupToken. rewrite E. cbn [fst m_tokens m_length]. rewrite El, u32_id by (unfold is_u32; lia). split_and!; [done|done|lia]. }
  destruct Et1 as (Epop & Et1 & El1).
  assert (Hmove : Segmenter.move_ptr (Segmenter.set_thunk s t1) l =
    Some (mkSegmenter (m_unidict s) (m_kwdict s) (m_weightdict s) (m_symdict s) (m_config s) t1 (p ++ 0 :: q)
            (drop (Z.to_nat l) r ++ 0 :: q) (m_buffer_chunk_begin s) (m_buffer_end s))).
  { unfold Segmenter.move_ptr. cbn [m_buffer_begin m_buffer_ptr Segmenter.set_thunk m_unidict m_kwdict m_weightdict m_symdict m_config
      m_thunk m_buffer_chunk_begin m_buffer_end]. rewrite (sg_begin _ _ Hs), (sg_ptr _ _ Hs).
    assert (Ea : advance (p ++ 0 :: q) (Z.of_nat (length (p ++ 0%Z :: q)) - Z.of_nat (length (r ++ 0%Z :: q)) + l) = Some (drop (Z.to_nat l) r ++ 0 :: q)).
    { rewrite Ep. rewrite Eu at 1. rewrite <- !app_assoc, app_assoc. apply advance_app. rewrite size_app. unfold size in *.
      rewrite !length_app. lia. }
    by rewrite Ea. }
  eexists. split; [|split; [|split; [lia|intros Hv; specialize (Hcut Hv); by inversion Hcut]]].
  - unfold Segmenter.popToken. rewrite Epop.
    assert (Eloop : exists tLen diff, Segmenter.pop_loop (length (m_tokens t1)) t1 l l = Some (t1, tLen, diff) /\
              (m_length t1 = 0 \/ (tLen <> l /\ tLen - diff = l))).
    { rewrite Et1. destruct (real ++ ph) as [|d ds] eqn:Ed; cbn [length Segmenter.pop_loop]; unfold MMThunk.peekToken; rewrite Et1.
      - exists (u16 (l + 0)), 0. split; [done|]. left. rewrite El1. apply app_eq_nil in Ed as [-> ->]. done.
      - assert (Hd : 1 <= d <= sum real + 4 /\ l + d < 65536).
        { destruct real as [|x real']; cbn [app] in Ed.
          - destruct Hph as [->|(y & -> & Hy & _)]; [done|]. injection Ed as -> _. cbn. lia.
          - injection Ed as -> _. apply Forall_cons in Hr as [Hx Hr']. pose proof (sum_pos real' Hr'). unfold sum in *. cbn [fold_right] in *. lia. }
        rewrite u16_small by lia. destruct (Z.eqb_spec d 0); [lia|]. destruct (Z.leb_spec (l + d) l); [lia|].
        exists (l + d), d. split; [done|]. right. lia. }
    destruct Eloop as (tLen & diff & -> & Hcase). cbn [mbind option_bind]. change (m_length t1) with (m_length t1).
    destruct (Z.eqb_spec (m_length t1) 0) as [H0|H0]; cbn [negb andb]; [exact Hmove|].
    destruct Hcase as [|[Hn Ed]]; [done|]. destruct (Z.eqb_spec tLen l); [done|]. cbn [negb]. rewrite Ed. exact Hmove.
  - constructor; cbn [m_buffer_begin m_buffer_ptr m_config m_thunk m_buffer_end m_symdict m_unidict m_kwdict]; try apply Hs.
    + done.
    + done.
    + exists (used ++ u). rewrite <- app_assoc, <- Eu. done.
    + intros Hv. specialize (Hcut Hv). apply (valid_drop q); [by apply (sg_valid _ _ Hs)|by inversion Hcut].
    + right. exists real, ph. refine (conj Et1 (conj Hr (conj _ (conj _ (conj _ _))))); [|lia|by rewrite sum_app|].
      * destruct Hph as [->|(y & -> & Hy & Hs')]; [by left|right]. exists y. split; [done|]. split; [done|].
        unfold sum in Hs'. cbn [fold_right] in Hs'. fold (sum real) in Hs'. lia.
      * intros Hv. specialize (Hcut Hv). by inversion Hcut.
Qed.

(** What a client does with the tokens: those that start a line are dropped. *)
Definition starts_line (tok : bytes) : bool := match tok with b :: _ => (b =? 13) || (b =? 10) | [] => false end.

Fixpoint give {A} (f : bytes -> A -> option A) (toks : list bytes) (a : A) : option A :=
  match toks with
  | [] => Some a
  | tok :: toks => if starts_line tok then give f toks a else a ← f tok a; give f toks a
  end.

Lemma take_text (r : bytes) l : 1 <= l <= size r ->
  (Z.of_nat (length (r ++ 0%Z :: q)) <? l) = false /\ take (Z.to_nat l) (r ++ 0 :: q) = take (Z.to_nat l) r.
Proof.
  unfold size. intros Hl. split; [apply Z.ltb_ge; rewrite length_app; cbn [length]; zify; lia|]. apply take_app_le. lia.
Qed.

Lemma each_token_spec n r s :
  seg_at r s -> size r <= Z.of_nat n ->
  exists toks rest,
    r = concat toks ++ rest /\ Forall (fun tok => tok <> []) toks /\
    (v -> rest = [] /\ exists ws, Forall (fun w => w <> [] /\ Forall clean w) ws /\ toks = map text ws) /\
    forall A (f : bytes -> A -> option A) a sym fuel,
      size r <= Z.of_nat fuel -> Segmenter.each_token log_ f fuel s sym a = give f toks a.
Proof.
  revert r s. induction n as [|n IH]; intros r s Hs Hn;
    (destruct (peekToken_spec r s Hs) as (s' & [[Hv Hpeek]|(Hs' & l & ls & Et & Hl & Hpeek)]);
     [exists [], r; split; [done|]; split; [constructor|];
      split; [intros H; split; [auto|exists []; by split]|]; intros A f a sym fuel _; destruct (Hpeek sym) as (sl & E);
      destruct fuel; cbn [Segmenter.each_token]; by rewrite E|]);
    (destruct (decide (r = [])) as [->|Hne];
     [exists [], []; split; [done|]; split; [constructor|]; split; [intros _; split; [done|exists []; by split]|];
      intros A f a sym fuel _; destruct fuel; cbn [Segmenter.each_token]; rewrite Hpeek; done|]).
  { destruct r; [done|]. unfold size in Hn. cbn in Hn. lia. }
  destruct (popToken_spec r s' l ls Hs' Et Hne) as (s2 & Epop & Hs2 & Hlr & Hw).
  destruct (drop_split r l ltac:(lia)) as (u & Eu & Su).
  assert (Hsz : size (drop (Z.to_nat l) r) = size r - l) by (apply (f_equal size) in Eu; rewrite size_app in Eu; lia).
  destruct (IH (drop (Z.to_nat l) r) s2 Hs2 ltac:(lia)) as (toks & rest & Er & Hnil & Hval & Hrun).
  assert (Htake : take (Z.to_nat l) r = u) by (rewrite Eu; unfold size in Su; rewrite take_app_length'; [done|lia]).
  exists (u :: toks), rest. split; [cbn [concat]; by rewrite <- app_assoc, <- Er|].
  split; [constructor; [intros ->; unfold size in Su; cbn in Su; lia|done]|]. split.
  - intros H. destruct (Hval H) as (-> & ws & Hws & ->). split; [done|]. destruct (Hw H) as (w & Hwne & Hwc & Hwl & [x Ex]).
    exists (w :: ws). split; [by constructor|]. cbn [map]. f_equal. rewrite <- Htake, Ex. unfold size in Hwl.
    rewrite take_app_length'; [done|lia].
  - intros A f a sym fuel Hf. destruct fuel as [|fuel]; [destruct r; [done|unfold size in Hf; cbn in Hf; lia]|].
    cbn [Segmenter.each_token give]. rewrite Hpeek. cbn [mbind option_bind].
    assert (Hhd : exists b r1, r = b :: r1 /\ 0 < b).
    { destruct r as [|b r1]; [done|]. exists b, r1. split; [done|]. destruct (sg_used _ _ Hs) as [used Ep]. rewrite Ep in Hpos.
      apply Forall_app in Hpos as [_ H]. by apply Forall_cons in H as [H _]. }
    destruct Hhd as (b & r1 & Er1 & Hb). assert ((r ++ 0 :: q) !! 0%nat = Some b) as -> by by rewrite Er1.
    cbn [mbind option_bind]. destruct (Z.eqb_spec b 0); [lia|]. destruct (Z.eqb_spec l 0); [lia|]. cbn [orb]. rewrite Epop.
    cbn [mbind option_bind]. assert (Hstart : starts_line u = (b =? 13) || (b =? 10)).
    { destruct u as [|b' u]; [unfold size in Su; cbn in Su; lia|]. rewrite Er1 in Eu. injection Eu as <- _. done. }
    rewrite Hstart. destruct ((b =? 13) || (b =? 10)); [apply Hrun; lia|].
    destruct (take_text r l ltac:(lia)) as [-> ->]. cbn [mbind option_bind]. rewrite Htake. unfold mbind, option_bind.
    destruct (f u a); [apply Hrun; lia|done].
Qed.
End Tokens.

(** ** Segmenting a string *)

(** The string a C function sees, and what is behind its end. *)
Fixpoint c_string (s : bytes) : bytes :=
  match s with c :: s => if c =? 0 then [] else c :: c_string s | [] => [] end.
Fixpoint c_tail (s : bytes) : bytes :=
  match s with c :: s' => if c =? 0 then s' ++ [0] else c_tail s' | [] => [] end.

Lemma c_string_split s : s ++ [0] = c_string s ++ 0 :: c_tail s.
Proof.
  induction s as [|c s IH]; [done|]. cbn [app c_string c_tail]. destruct (Z.eqb_spec c 0) as [->|]; [done|]. cbn [app]. by rewrite IH.
Qed.

Lemma c_string_pos s : wf_bytes s -> Forall (fun c => 0 < c) (c_string s) /\ size (c_string s) <= size s.
Proof.
  induction 1 as [|c s Hc _ [IH1 IH2]]; [by split|]. cbn [c_string]. unfold is_byte in Hc.
  destruct (Z.eqb_spec c 0); [split; [constructor|unfold size; cbn; lia]|]. split; [constructor; [lia|done]|].
  unfold size in *. cbn [length]. lia.
Qed.

Lemma c_string_bytes s : wf_bytes s -> wf_bytes (c_string s).
Proof. induction 1 as [|c s Hc _ IH]; [constructor|]. cbn [c_string]. by destruct (c =? 0); constructor. Qed.

Lemma c_string_text cps : Forall clean cps -> c_string (text cps) = text cps.
Proof.
  intros Hc. assert (H : Forall (fun c => c <> 0) (text cps)).
  { induction Hc as [|c cps (Hs & H0 & _) _ IH]; [constructor|]. rewrite text_cons. apply Forall_app. split; [|done].
    apply scalar_range in Hs as [Hr _]. unfold octets.
    destruct (Z.ltb_spec c 0x80); [|destruct (Z.ltb_spec c 0x800); [|destruct (Z.ltb_spec c 0x10000)]]; repeat constructor; zlia. }
  induction H as [|b s Hb _ IH]; [done|]. cbn [c_string]. destruct (Z.eqb_spec b 0); [done|]. by rewrite IH.
Qed.

(** What the segmenter of a manager accepts: no synonyms, a text that fits the
    16 bits of a length, the words of the dictionary as they should be, and
    either well-formed text or no joint characters. *)
Definition accepts (m : SegmenterManager) (seg : Segmenter) (buffer : bytes) : Prop :=
  SegmenterManager.getSegmenter m = Some seg /\ m_sym m = None /\ size buffer < 2 ^ 16 - 4 /\
  dict_ok seg (c_string buffer) (c_tail buffer) /\ (valid (c_string buffer) \/ no_joint (Some (config m))).

Lemma seg_start m seg buffer :
  accepts m seg buffer ->
  seg_at (c_string buffer) (c_tail buffer) (valid (c_string buffer)) (c_string buffer)
    (Segmenter.setBuffer seg (buffer ++ [0]) (length buffer)).
Proof.
  intros (Eg & Hsym & Hsh & Hd & Hsafe). unfold SegmenterManager.getSegmenter in Eg. destruct (m_method m =? _); [|done].
  injection Eg as <-. constructor; cbn [m_buffer_begin m_buffer_ptr Segmenter.setBuffer m_symdict m_config m_thunk m_buffer_end].
  - apply c_string_split.
  - apply c_string_split.
  - by exists [].
  - exact Hd.
  - rewrite drop_app_length. cbn. lia.
  - exact Hsym.
  - exact Hsafe.
  - done.
  - by left.
Qed.

(** What the segmenter makes of a string. *)
Lemma segment_spec {log_} `{Hlog : LogLaws log_} m seg buffer :
  wf_bytes buffer -> accepts m seg buffer ->
  exists toks rest,
    c_string buffer = concat toks ++ rest /\ Forall (fun tok => tok <> []) toks /\
    (valid (c_string buffer) ->
       rest = [] /\ exists ws, Forall (fun w => w <> [] /\ Forall clean w) ws /\ toks = map text ws) /\
    forall A (f : bytes -> A -> option A) a, Segmenter.segment log_ seg f buffer a = give f toks a.
Proof.
  intros Hb Hacc. destruct (c_string_pos buffer Hb) as [Hp Hsz]. pose proof Hacc as (_ & _ & Hsh & _).
  destruct (each_token_spec (log_ := log_) (c_string buffer) (c_tail buffer) _ Hp ltac:(lia) (length buffer) _ _ (seg_start m seg buffer Hacc))
    as (toks & rest & E & Hnil & Hval & Hrun); [exact Hsz|].
  exists toks, rest. do 3 (split; [done|]). intros A f a. apply Hrun. unfold size in *. lia.
Qed.

(** C18: on a string of less than 65532 octets, over a dictionary of words of
    whole characters ([dict_ok]) and without synonyms, the segmenter comes to an
    end without an access out of bounds, whatever the octets are when no joint
    characters are configured, and for well-formed text also when some are.
    None of the tokens it hands out is empty, and put together again they are a
    prefix of the string, and all of it when the string is well-formed text.

    The conditions ([accepts]) are those the code needs: a run of 65536 octets
    has a length of 0 and is peeked at for ever, a joint character in front of
    an octet that is no character reads behind the end
    ([joint_reads_behind_end]), and with a synonym as many octets are copied of
    the replacement as the word has. *)
Theorem segment_total {log_} `{Hlog : LogLaws log_} m seg buffer :
  wf_bytes buffer -> accepts m seg buffer ->
  exists toks rest,
    c_string buffer = concat toks ++ rest /\ Forall (fun tok => tok <> []) toks /\
    (valid (c_string buffer) -> rest = []) /\
    forall A (f : bytes -> A -> option A) a, Segmenter.segment log_ seg f buffer a = give f toks a.
Proof.
  intros Hb Hacc. destruct (segment_spec (log_ := log_) m seg buffer Hb Hacc) as (toks & rest & E & Hnil & Hval & Hrun).
  exists toks, rest. do 2 (split; [done|]). split; [|done]. intros H. by destruct (Hval H).
Qed.

Lemma text_inj a b : Forall clean a -> Forall clean b -> text a = text b -> a = b.
Proof.
  intros Ha Hb E. destruct (text_prefix [] a [] b Ha Hb) as (c & -> & Ec); [by rewrite app_nil_r|].
  destruct c as [|x c]; [by rewrite app_nil_r|]. rewrite text_cons in Ec. pose proof (octets_length x).
  apply (f_equal length) in Ec. rewrite length_app in Ec. cbn in Ec. lia.
Qed.

Lemma text_bytes cps : Forall clean cps -> wf_bytes (text cps).
Proof.
  induction 1 as [|c cps (Hs & _) _ IH]; [constructor|]. rewrite text_cons. apply Forall_app. split; [by apply octets_bytes|done].
Qed.

(** Well-formed text without zeros and byte order marks is cut into tokens of
    whole characters, none of them empty, which are all of the text. *)
Theorem segment_text {log_} `{Hlog : LogLaws log_} m seg cps :
  Forall clean cps -> accepts m seg (text cps) ->
  exists ws,
    concat ws = cps /\ Forall (fun w => w <> [] /\ Forall clean w) ws /\
    forall A (f : bytes -> A -> option A) a, Segmenter.segment log_ seg f (text cps) a = give f (map text ws) a.
Proof.
  intros Hc Hacc. destruct (segment_spec (log_ := log_) m seg _ (text_bytes cps Hc) Hacc) as (toks & rest & E & _ & Hval & Hrun).
  rewrite (c_string_text cps Hc) in *. destruct Hval as (-> & ws & Hws & ->); [by exists cps|]. rewrite app_nil_r in E.
  assert (Ews : text cps = text (concat ws)).
  { rewrite E. clear. induction ws as [|w ws IH]; [done|]. cbn [map concat]. by rewrite IH, text_app. }
  exists ws. split; [|by split]. symmetry. apply text_inj; [done| |done].
  clear -Hws. induction Hws as [|w ws [_ Hw] _ IH]; [constructor|]. cbn [concat]. by apply Forall_app.
Qed.

(** ** Checking a dictionary against a text *)
Fixpoint plain_check (fuel : nat) (r q : bytes) (n : Z) : bool :=
  if n =? 0 then true
  else
    match fuel with
    | O => false
    | S fuel =>
        match csrUTF8Decode (r ++ 0 :: q) 0 with
        | None => false
        | Some (cp, len) =>
            (0 <? cp) && utf8.is_code_point_valid cp && negb (cp =? 0xFEFF) &&
            negb (cp =? 13) && negb (cp =? 10) && negb (breaks (tag_of cp)) &&
            (size (octets cp) <=? n) && bool_decide (take (length (octets cp)) r = octets cp) &&
            plain_check fuel (drop (length (octets cp)) r) q (n - size (octets cp))
        end
    end.

Lemma plain_check_ok fuel r q n : plain_check fuel r q n = true -> 0 <= n -> pending r n.
Proof.
  revert r n. induction fuel as [|fuel IH]; intros r n; cbn [plain_check]; (destruct (Z.eqb_spec n 0) as [->|Hn]; [intros _ _; apply pending_0|]);
    [done|]. destruct (csrUTF8Decode _ _) as [[cp len]|]; [|done]. intros H Hn0.
  rewrite !andb_true_iff, !negb_true_iff, !Z.ltb_lt, !Z.leb_le, !Z.eqb_neq, bool_decide_eq_true in H.
  destruct H as [[[[[[[[H0 H2] H3] H4] H5] H6] H7] H8] H9].
  destruct (IH _ _ H9 ltac:(lia)) as (cps & Hp & Hs & [z Hz]). exists (cp :: cps). split; [|split].
  - constructor; [|done]. split; [split; [split; [lia|done]|lia]|split; [lia|done]].
  - rewrite text_cons, size_app. lia.
  - exists z. rewrite text_cons, <- app_assoc, <- Hz. rewrite <- (take_drop (length (octets cp)) r) at 1. by rewrite H8.
Qed.

Fixpoint sorted_check (l : Z) (ls : list Z) : bool :=
  match ls with [] => true | x :: ls => (l <? x) && sorted_check x ls end.

Lemma sorted_check_ok l ls : sorted_check l ls = true -> StronglySorted Z.lt ls /\ Forall (Z.lt l) ls.
Proof.
  revert l. induction ls as [|x ls IH]; intros l; cbn [sorted_check]; [split; constructor|].
  rewrite andb_true_iff, Z.ltb_lt. intros [Hx Hl%IH]. destruct Hl as [Hs Hf]. split; constructor; [done|done|done|].
  eapply Forall_impl; [exact Hf|]. cbn. lia.
Qed.

Definition freq_check (rs : list result_pair_type) : bool :=
  match rs with [] => true | _ => negb (u16 (item_freq rs) =? 0) end && negb (u16 (item_freq (mkPair 1 0 0 :: rs)) =? 0).

Definition hits_check (r q : bytes) (rs : list result_pair_type) : bool :=
  (length rs <? 1023)%nat && sorted_check 0 (map length_ rs) &&
  forallb (fun x => (length_ x <=? 15) && plain_check 15 r q (length_ x)) rs && freq_check rs.

Lemma hits_check_ok r q rs : hits_check r q rs = true -> hits_ok r rs.
Proof.
  unfold hits_check. rewrite !andb_true_iff, Nat.ltb_lt, forallb_forall. intros [[[Hl Hs] Hw] Hf].
  destruct (sorted_check_ok _ _ Hs) as [Hsort Hpos]. rewrite Forall_map in Hpos. constructor; [done|done| |].
  - rewrite Forall_forall in Hpos |- *. intros x Hin. specialize (Hpos x Hin). cbn in Hpos.
    destruct (proj1 (andb_true_iff _ _) (Hw x (proj1 (list_elem_of_In _ _) Hin))) as [H1%Z.leb_le H2].
    split; [done|]. destruct (plain_check_ok _ _ _ _ H2 ltac:(lia)) as (cps & Hp & E & Hpre). exists cps.
    split; [|done]. intros ->. unfold size in E. cbn in E. lia.
  - unfold freq_check in Hf. rewrite andb_true_iff, !negb_true_iff, !Z.eqb_neq in Hf. destruct Hf as [H1 H2].
    intros len its num E. unfold Segmenter.char_items in E. destruct rs as [|x rs]; cbn in E; [by injection E as <- _|].
    apply negb_true_iff, Z.eqb_neq in H1. destruct (length_ x =? len); injection E as <- _; [done|].
    unfold item_freq in *. exact H2.
Qed.

Fixpoint suffixes (p : bytes) : list bytes := p :: match p with [] => [] | _ :: p => suffixes p end.

Definition dict_check (s : Segmenter) (p q : bytes) : bool :=
  forallb (fun r =>
    match UnigramDict.findHits (m_unidict s) (r ++ 0 :: q) 1023 15 with
    | Some (rs, n) => (n =? Z.of_nat (length rs)) && hits_check r q rs
    | None => false
    end &&
    match UnigramDict.findHits (m_kwdict s) (r ++ 0 :: q) 1023 15 with
    | Some (rs, n) => (n =? Z.of_nat (length rs)) && (length rs <? 1023)%nat
    | None => false
    end) (suffixes p).

Lemma suffixes_in used r : r ∈ suffixes (used ++ r).
Proof. induction used as [|c used IH]; cbn [app]; [destruct r; left|right; exact IH]. Qed.

Lemma dict_check_ok s p q : dict_check s p q = true -> dict_ok s p q.
Proof.
  intros H used r code len l -> _ _. unfold dict_check in H. rewrite forallb_forall in H.
  specialize (H r (proj1 (list_elem_of_In _ _) (suffixes_in used r))). apply andb_true_iff in H as [H1 H2]. split.
  - destruct (UnigramDict.findHits (m_unidict s) _ _ _) as [[rs n]|]; [|done].
    apply andb_true_iff in H1 as [->%Z.eqb_eq H%hits_check_ok]. by exists rs.
  - destruct (UnigramDict.findHits (m_kwdict s) _ _ _) as [[rs n]|]; [|done].
    apply andb_true_iff in H2 as [->%Z.eqb_eq H%Nat.ltb_lt]. by exists rs.
Qed.

(** ** Examples *)
Module Sample.

(** The configuration of the shipped file. *)
Definition manager : SegmenterManager := mkManager (Some sample_units) None None None (mkConfig true false true [46]) 1 false.

Definition segmenter : Segmenter := mkSegmenter (Some sample_units) None None None (Some (config manager)) MMThunk.init [] [] [] [].

Definition zhong : Z := 0x4E2D.
Definition guo : Z := 0x56FD.
Definition ren : Z := 0x4EBA.

Definition run (buffer : bytes) : option (list bytes) :=
  Segmenter.segment rough_log segmenter (fun term terms => Some (terms ++ [term])) buffer [].

Lemma manager_segmenter : SegmenterManager.getSegmenter manager = Some segmenter.
Proof. reflexivity. Qed.

(** The words of the array, with their frequencies. *)
Example words :
  map (fun w => value_of sample_units (text w)) [[zhong]; [guo]; [ren]; [zhong; guo]; [zhong; guo; ren]; [guo; ren]] =
    [Some 5; Some 3; Some 4; Some 7; Some 2; None].
Proof. by vm_compute. Qed.
End Sample.

(** The sample text: two words, letters and digits, and a separator. *)
Definition sample_text : list Z := [Sample.zhong; Sample.guo; Sample.ren; 65; 49; 46; 53; 33; Sample.guo; Sample.ren].

Lemma sample_clean : Forall clean sample_text.
Proof.
  unfold sample_text, Sample.zhong, Sample.guo, Sample.ren. repeat constructor; lia.
Qed.

Lemma sample_accepts : accepts Sample.manager Sample.segmenter (text sample_text).
Proof.
  split; [reflexivity|]. split; [reflexivity|]. split; [by vm_compute|].
  split; [apply dict_check_ok; by vm_compute|]. left. exists sample_text. split; [apply sample_clean|by vm_compute].
Qed.

(** Octets that are no text, without joint characters. *)
Definition plain_manager : SegmenterManager := mkManager (Some sample_units) None None None (mkConfig true false true []) 1 false.
Definition plain_segmenter : Segmenter :=
  mkSegmenter (Some sample_units) None None None (Some (config plain_manager)) MMThunk.init [] [] [] [].
Definition no_text : bytes := text [Sample.zhong] ++ [255; 51] ++ text [Sample.guo; Sample.ren] ++ [0xe4; 0xb8].

Lemma no_text_bytes : wf_bytes no_text.
Proof. let v := eval vm_compute in no_text in change no_text with v. repeat constructor; lia. Qed.

Lemma no_text_accepts : accepts plain_manager plain_segmenter no_text.
Proof.
  split; [reflexivity|]. split; [reflexivity|]. split; [by vm_compute|].
  split; [apply dict_check_ok; by vm_compute|]. right. by vm_compute.
Qed.

Lemma segment_total_witness :
  exists toks rest,
    c_string no_text = concat toks ++ rest /\ Forall (fun tok => tok <> []) toks /\ (valid (c_string no_text) -> rest = []) /\
    forall A (f : bytes -> A -> option A) a, Segmenter.segment rough_log plain_segmenter f no_text a = give f toks a.
Proof.
  apply (segment_total (Hlog := rough_log_laws) plain_manager); [apply no_text_bytes|apply no_text_accepts].
Defined.

(** The longest words win, a number with its point is one token. *)
Example sample_segments :
  Sample.run (text sample_text) =
    Some (map text [[Sample.zhong; Sample.guo; Sample.ren]; [65; 49; 46; 53]; [33]; [Sample.guo]; [Sample.ren]]).
Proof. by vm_compute. Qed.

(** An octet that is no character gets its token before those of the chunk it
    is in: the words are cut at the wrong places. *)
Example bad_octet_shifts_tokens :
  Sample.run (text [Sample.zhong] ++ [255] ++ text [Sample.guo]) =
    Some [[228]; [184; 173; 255]; [229; 155; 189]].
Proof. by vm_compute. Qed.

(** A text that ends within a character loses its whole last chunk. *)
Example cut_character_loses_chunk : Sample.run (text [Sample.zhong; Sample.guo] ++ [0xe4; 0xb8]) = Some [].
Proof. by vm_compute. Qed.

(** A joint character before a character that is cut off: the length the first
    octet announces is added, and the next character is looked for behind the
    end of the string. *)
Example joint_reads_behind_end : Sample.run (text [Sample.zhong; 51; 46] ++ [0xe4]) = None.
Proof. by vm_compute. Qed.
