(* ===== verification/Tokenizer.v ===== *)
(** Tokenizers ([tokenizer.h], [tokenizer_impl.cpp], [tokenizer_mmseg.cpp]).

    The interface is a type class: what the document writer may assume of a
    tokenizer is [TokenizerLaws].  [TokenizerSpaceImpl] cuts at blanks.
    [TokenizerMMSEG] drives the segmenter of [Segmenter.v].
    A pointer into a buffer is the rest of the buffer from there on. *)
From S2P Require Import Prelude Storage Coding Document Utf8 Darts Double Tagger MMThunk Segmenter SegmentCorrect.

(** ** The interface *)
Class Tokenizer := {
  Do : Document -> option (bool * Document);
  BuildTerms : bytes -> list bytes -> bool -> option (bool * list bytes)
}.

(** Terms are a sorted set of byte strings, strings are bytes. *)
Definition terms_ok (l : list bytes) : Prop := os_sorted bytes_cmp l /\ Forall wf_bytes l.

Definition field_ok (f : IndexField) : Prop :=
  terms_ok (terms_ f) /\ wf_bytes (string_value_ f) /\
  0 <= numeric_value_ f < (if field_type_ f =? kUint32IndexField then 2 ^ 32 else 2 ^ 64).

(** A tokenizer answers for every document whose fields it accepts, and touches
    only the terms. *)
Class TokenizerLaws `{Tokenizer} := {
  accepted : IndexField -> Prop;
  Do_law d : Forall (fun f => field_ok f /\ accepted f) (fields_ d) ->
    exists ok d', Do d = Some (ok, d') /\
      (ok = true -> exists ts, length ts = length (fields_ d) /\ Forall terms_ok ts /\
         d' = mkDocument (zip_with set_terms (fields_ d) ts) (document_id_ d) (match_field_id_ d))
}.

(** Running one step per field, in order. *)
Fixpoint each_field (step : IndexField -> option IndexField) (l : list IndexField) : option (list IndexField) :=
  match l with
  | [] => Some []
  | f :: l' => f ← step f; l' ← each_field step l'; Some (f :: l')
  end.

(** ** [TokenizerSpaceImpl] *)
Module TokenizerSpaceImpl.

Definition IsSkipChar (c : Z) : bool := (c =? 32) || (c =? 9) || (c =? 13).

(** The two inner loops: from [prev] to the next character to keep, and from
    there to the next one to skip. *)
Fixpoint skip (buffer : bytes) : bytes :=
  match buffer with
  | c :: rest => if IsSkipChar c then skip rest else buffer
  | [] => []
  end.

Fixpoint scan (buffer : bytes) : bytes * bytes :=
  match buffer with
  | c :: rest => if IsSkipChar c then ([], buffer) else let '(w, r) := scan rest in (c :: w, r)
  | [] => ([], [])
  end.

Fixpoint build_loop (fuel : nat) (buffer : bytes) (terms : list bytes) : option (list bytes) :=
  match skip buffer with
  | [] => Some terms
  | prev =>
      match fuel with
      | O => None
      | S fuel' => let '(term, curr) := scan prev in build_loop fuel' curr (os_insert bytes_cmp term terms)
      end
  end.

Definition BuildTerms (buffer : bytes) (terms : list bytes) (no_covert_to_lower_case : bool) :
    option (bool * list bytes) :=
  terms ← build_loop (length buffer) buffer terms; Some (true, terms).

(** The whole value as one term. *)
Definition value_term (field : IndexField) : bytes :=
  if field_type_ field =? kStringIndexField then string_value_ field
  else if field_type_ field =? kUint32IndexField then AppendFixed32 [] (u32 (numeric_value_ field))
  else if field_type_ field =? kUint64IndexField then AppendFixed64 [] (numeric_value_ field)
  else [].

Definition insert_term (term : bytes) (field : IndexField) : IndexField :=
  match term with
  | [] => field
  | _ => set_terms field (os_insert bytes_cmp term (terms_ field))
  end.

Definition do_field (field : IndexField) : option IndexField :=
  if InvertIndex (field_flag_ field) then
    if (field_type_ field =? kStringIndexField) && Tokenize (field_flag_ field) then
      '(_, terms) ← BuildTerms (string_value_ field) (terms_ field) false;
      Some (set_terms field terms)
    else Some (insert_term (value_term field) field)
  else Some field.

Definition Do (document : Document) : option (bool * Document) :=
  fields ← each_field do_field (fields_ document);
  Some (true, mkDocument fields (document_id_ document) (match_field_id_ document)).

#[export] Instance tokenizer : Tokenizer := {| Tokenizer.Do := Do; Tokenizer.BuildTerms := BuildTerms |}.
End TokenizerSpaceImpl.

(** ** [TokenizerMMSEG] *)
Module TokenizerMMSEG.

(** The managers of the constructor, which read the same directory; each has to
    come up. *)
Fixpoint new_managers (dict_path : SegmenterManager.directory) (n : nat) : option (list SegmenterManager) :=
  match n with
  | O => Some []
  | S n =>
      r ← SegmenterManager.init SegmenterManager.create dict_path SegmenterManager.SEG_METHOD_NGRAM;
      let '(seg, result) := (r : SegmenterManager * Z) in
      if negb (result =? 0) then None else managers ← new_managers dict_path n; Some (seg :: managers)
  end.

Definition new_TokenizerMMSEG (dict_path : SegmenterManager.directory) (segmenter_num : nat) : option (list SegmenterManager) :=
  if (segmenter_num =? 0)%nat then None else new_managers dict_path segmenter_num.

Section MMSEG.
Context (log_ : spec_float -> spec_float) (managers_ : list SegmenterManager) (seq_ : Z).

(** [locks_[hash % locks_num_]], and the manager a document is served by. *)
Definition lock_index (locks_num_ hash : Z) : Z := u32 hash mod locks_num_.
Definition manager_index (manager_num_ document_id : Z) : Z := u32 (document_id mod manager_num_).

Definition pick (n : Z) : option SegmenterManager :=
  managers_ !! Z.to_nat (manager_index (Z.of_nat (length managers_)) n).

(** What is done with a token. *)
Definition add_term (lower : bool) (term : bytes) (terms : list bytes) : option (list bytes) :=
  term ← (if lower then ToLowerCase term else Some term); Some (os_insert bytes_cmp term terms).

(** [seq_] is the counter at the time of the call. *)
Definition BuildTerms (buffer : bytes) (terms : list bytes) (no_covert_to_lower_case : bool) :
    option (bool * list bytes) :=
  manager ← managers_ !! Z.to_nat (seq_ mod Z.of_nat (length managers_));
  seg ← SegmenterManager.getSegmenter manager;
  terms ← Segmenter.segment log_ seg (add_term (negb no_covert_to_lower_case)) buffer terms; Some (true, terms).

Definition value_term (field : IndexField) : option bytes :=
  if field_type_ field =? kStringIndexField then ToLowerCase (string_value_ field)
  else if field_type_ field =? kUint32IndexField then Some (AppendFixed32 [] (u32 (numeric_value_ field)))
  else if field_type_ field =? kUint64IndexField then Some (AppendFixed64 [] (numeric_value_ field))
  else Some [].

(** No segmenter is a null pointer. *)
Definition do_field (seg : option Segmenter) (field : IndexField) : option IndexField :=
  if negb (InvertIndex (field_flag_ field)) then Some field
  else if use_outer_segment_terms_ field then Some field
  else if (field_type_ field =? kStringIndexField) && Tokenize (field_flag_ field) then
    seg ← seg;
    terms ← Segmenter.segment log_ seg (add_term true) (string_value_ field) (terms_ field);
    Some (set_terms field terms)
  else
    term ← value_term field;
    Some (TokenizerSpaceImpl.insert_term term field).

Definition Do (document : Document) : option (bool * Document) :=
  manager ← pick (document_id_ document);
  fields ← each_field (do_field (SegmenterManager.getSegmenter manager)) (fields_ document);
  Some (true, mkDocument fields (document_id_ document) (match_field_id_ document)).

Definition tokenizer : Tokenizer := {| Tokenizer.Do := Do; Tokenizer.BuildTerms := BuildTerms |}.
End MMSEG.
End TokenizerMMSEG.

(** ** Field by field *)
Lemma each_field_spec (P : IndexField -> Prop) step l :
  Forall P l ->
  (forall f, P f -> exists t, step f = Some (set_terms f t) /\ terms_ok t) ->
  exists ts, each_field step l = Some (zip_with set_terms l ts) /\ length ts = length l /\ Forall terms_ok ts.
Proof.
  intros Hl Hstep. induction Hl as [|f l Hf Hl IH]; [exists []; by repeat split|].
  destruct (Hstep f Hf) as (t & Ht & Hok), IH as (ts & Hts & Hlen & Hoks).
  exists (t :: ts). cbn [each_field]. rewrite Ht, Hts. cbn. rewrite Hlen. by split_and!; [..|constructor].
Qed.

Lemma set_terms_id f : set_terms f (terms_ f) = f.
Proof. by destruct f. Qed.

Lemma os_insert_ok t l : wf_bytes t -> terms_ok l -> terms_ok (os_insert bytes_cmp t l).
Proof.
  intros Ht [Hs Hl]. split; [by apply (os_insert_sorted bytes_cmp)|].
  apply Forall_forall. intros k [->|Hk]%(elem_of_os_insert bytes_cmp); [done|].
  rewrite Forall_forall in Hl. by apply Hl.
Qed.

Lemma insert_term_ok t f :
  wf_bytes t -> field_ok f ->
  exists ts, TokenizerSpaceImpl.insert_term t f = set_terms f ts /\ terms_ok ts.
Proof.
  intros Ht (Hts & _). destruct t as [|b t].
  - exists (terms_ f). by rewrite set_terms_id.
  - exists (os_insert bytes_cmp (b :: t) (terms_ f)). split; [done|]. by apply os_insert_ok.
Qed.

Lemma numeric_term_bytes f : field_ok f -> wf_bytes (TokenizerSpaceImpl.value_term f).
Proof.
  intros (_ & Hs & Hn). unfold TokenizerSpaceImpl.value_term.
  destruct (_ =? kStringIndexField); [done|].
  destruct (_ =? kUint32IndexField); [rewrite AppendFixed32_spec; apply wf_be_bytes|].
  destruct (_ =? kUint64IndexField); [rewrite AppendFixed64_spec by done; apply wf_be_bytes|constructor].
Qed.

(** ** Cutting at blanks *)
Section Space.
Import TokenizerSpaceImpl.

(** The reference: cut at every blank, drop the empty pieces. *)
Fixpoint split_blank (s : bytes) : list bytes :=
  match s with
  | [] => [[]]
  | c :: s' =>
      if IsSkipChar c then [] :: split_blank s'
      else match split_blank s' with w :: ws => (c :: w) :: ws | [] => [[c]] end
  end.

Definition words (s : bytes) : list bytes :=
  List.filter (fun w => match w with [] => false | _ => true end) (split_blank s).

Lemma skip_spec s :
  exists a, s = a ++ skip s /\ Forall (fun c => IsSkipChar c = true) a /\
            (skip s = [] \/ exists c r, skip s = c :: r /\ IsSkipChar c = false).
Proof.
  induction s as [|c s (a & E & Ha & Hr)]; cbn [skip]; [exists []; by split_and!; [..|left]|].
  destruct (IsSkipChar c) eqn:Ec.
  - exists (c :: a). cbn [app]. rewrite <- E. by split_and!; [|constructor|].
  - exists []. split_and!; [done|done|]. right. by exists c, s.
Qed.

Lemma scan_spec s w r :
  scan s = (w, r) ->
  s = w ++ r /\ Forall (fun c => IsSkipChar c = false) w /\
  (r = [] \/ exists c r', r = c :: r' /\ IsSkipChar c = true).
Proof.
  revert w r. induction s as [|c s IH]; intros w r; cbn [scan].
  { intros [= <- <-]. by split_and!; [..|left]. }
  destruct (IsSkipChar c) eqn:Ec.
  - intros [= <- <-]. split_and!; [done|done|]. right. by exists c, s.
  - destruct (scan s) as [w' r'] eqn:E. intros [= <- <-]. destruct (IH _ _ eq_refl) as (-> & Hw & Hr).
    by split_and!; [|constructor|].
Qed.

Lemma words_skip a s : Forall (fun c => IsSkipChar c = true) a -> words (a ++ s) = words s.
Proof. induction 1 as [|c a Hc _ IH]; [done|]. unfold words in *. cbn [app split_blank]. rewrite Hc. exact IH. Qed.

Lemma split_blank_app w r :
  Forall (fun c => IsSkipChar c = false) w ->
  split_blank (w ++ r) = match split_blank r with x :: xs => (w ++ x) :: xs | [] => [w] end.
Proof.
  induction 1 as [|c w Hc _ IH]; cbn [app split_blank].
  - destruct r as [|c r]; [done|]. cbn [split_blank]. destruct (IsSkipChar c); [done|]. by destruct (split_blank r).
  - rewrite Hc, IH. by destruct (split_blank r).
Qed.

Lemma words_scan w r :
  w <> [] -> Forall (fun c => IsSkipChar c = false) w ->
  (r = [] \/ exists c r', r = c :: r' /\ IsSkipChar c = true) -> words (w ++ r) = w :: words r.
Proof.
  intros Hne Hw Hr. unfold words. rewrite split_blank_app by done. destruct w as [|b w]; [done|].
  destruct Hr as [->|(c & r' & -> & Hc)]; cbn [split_blank]; [|rewrite Hc]; cbn; by rewrite app_nil_r.
Qed.

Lemma build_loop_spec fuel s terms :
  (length s <= fuel)%nat -> build_loop fuel s terms = Some (os_inserts bytes_cmp (words s) terms).
Proof.
  revert s terms. induction fuel as [|fuel IH]; intros s terms Hf;
    destruct (skip_spec s) as (a & E & Ha & Hr); cbn [build_loop];
    (destruct Hr as [Hr|(c & r & Hr & Hc)]; rewrite Hr in *;
     [rewrite E, words_skip by done; done|]).
  - apply (f_equal length) in E. rewrite length_app in E. simpl in E. lia.
  - destruct (scan (c :: r)) as [w curr] eqn:Es. pose proof Es as Hs. apply scan_spec in Hs as (Ew & Hw & Hcurr).
    assert (w <> []) as Hne by (intros ->; cbn in Es; rewrite Hc in Es; by destruct (scan r)).
    rewrite IH.
    + rewrite E, words_skip, Ew, words_scan by done. done.
    + rewrite E, Ew, !length_app in Hf. destruct w; [done|]. simpl in Hf. lia.
Qed.

Lemma words_bytes s : wf_bytes s -> Forall wf_bytes (words s).
Proof.
  intros Hs. unfold words. apply (Forall_sublist _ (split_blank s)); [apply sublist_list_filter|].
  induction Hs as [|c s Hc Hs IH]; cbn [split_blank]; [repeat constructor|].
  destruct (IsSkipChar c); [by constructor|]. destruct (split_blank s) as [|w ws].
  - constructor; [by constructor|constructor].
  - apply Forall_cons in IH as [H1 H2]. constructor; [by constructor|done].
Qed.

Lemma os_inserts_ok l s : Forall wf_bytes l -> terms_ok s -> terms_ok (os_inserts bytes_cmp l s).
Proof.
  intros Hl [Hs Hf]. split; [by apply (os_inserts_sorted bytes_cmp)|].
  apply Forall_forall. intros k [Hk|Hk]%(elem_of_os_inserts bytes_cmp); [rewrite Forall_forall in Hl; by apply Hl|].
  rewrite Forall_forall in Hf. by apply Hf.
Qed.

Lemma space_Do d :
  Forall (fun f => field_ok f /\ True) (fields_ d) ->
  exists ok d', Do d = Some (ok, d') /\
    (ok = true -> exists ts, length ts = length (fields_ d) /\ Forall terms_ok ts /\
       d' = mkDocument (zip_with set_terms (fields_ d) ts) (document_id_ d) (match_field_id_ d)).
Proof.
  intros Hd. unfold Do. destruct (each_field_spec _ do_field (fields_ d) Hd) as (ts & E & Hlen & Hok).
  - intros f [Hf _]. unfold do_field, BuildTerms.
    destruct (InvertIndex _); [|exists (terms_ f); rewrite set_terms_id; split; [done|apply Hf]].
    destruct (_ && _).
    + rewrite build_loop_spec by done. eexists. split; [done|]. apply os_inserts_ok; [apply words_bytes, Hf|apply Hf].
    + destruct (insert_term_ok _ f (numeric_term_bytes f Hf) Hf) as (t & -> & Ht). by exists t.
  - rewrite E. eexists _, _. split; [done|]. intros _. by exists ts.
Qed.
#[export] Instance space_laws : TokenizerLaws := {| accepted := fun _ => True; Do_law := space_Do |}.
End Space.

(** ** The segmenter *)
Lemma lower_loop_total fuel it :
  wf_bytes it -> (length it <= fuel)%nat -> it <> [] -> exists r, lower_loop fuel it = Some r /\ wf_bytes r.
Proof.
  revert it. induction fuel as [|fuel IH]; intros it Hwf Hf Hne; [destruct it; [done|simpl in Hf; lia]|].
  cbn [lower_loop]. destruct (utf8.next it) as [e|[cp s]] eqn:E; [by eexists|].
  destruct (next_shorter _ _ _ Hwf E) as [Hlt Hwf'].
  set (consumed := match take (length it - length s) it with [b] => _ | _ => _ end).
  assert (wf_bytes consumed) as Hc.
  { assert (wf_bytes (take (length it - length s) it)) as Ht by by apply Forall_take.
    unfold consumed. destruct (take (length it - length s) it) as [|b [|]]; [done| |done].
    destruct (Z.leb_spec 65 b), (Z.leb_spec b 90); try done. repeat constructor; lia. }
  destruct s as [|b s]; [by eexists|].
  destruct (IH (b :: s)) as (r & -> & Hr); [done|lia|done|]. eexists. split; [done|]. by apply Forall_app.
Qed.

Lemma ToLowerCase_total s : wf_bytes s -> exists r, ToLowerCase s = Some r /\ wf_bytes r.
Proof.
  intros Hs. destruct s as [|b s]; [by exists []|]. by apply lower_loop_total.
Qed.

Section Segmenting.
Import TokenizerMMSEG.
Context {log_ : spec_float -> spec_float} {Hlog : LogLaws log_}.

Lemma give_ok lower toks terms :
  Forall wf_bytes toks -> terms_ok terms -> exists t, give (add_term lower) toks terms = Some t /\ terms_ok t.
Proof.
  intros Ht. revert terms. induction Ht as [|tok toks Htok _ IH]; intros terms Hok; [by exists terms|].
  cbn [give]. destruct (starts_line tok); [by apply IH|].
  assert (exists r, (if lower then ToLowerCase tok else Some tok) = Some r /\ wf_bytes r) as (r & Er & Hr)
    by (destruct lower; [by apply ToLowerCase_total|by exists tok]).
  assert (add_term lower tok terms = Some (os_insert bytes_cmp r terms)) as -> by (unfold add_term; by rewrite Er).
  cbn [mbind option_bind]. apply IH. by apply os_insert_ok.
Qed.

Lemma segment_ok m seg lower s terms :
  accepts m seg s -> wf_bytes s -> terms_ok terms ->
  exists t, Segmenter.segment log_ seg (add_term lower) s terms = Some t /\ terms_ok t.
Proof.
  intros Ha Hs Ht. destruct (segment_spec (log_ := log_) m seg s Hs Ha) as (toks & rest & E & _ & _ & Hrun).
  rewrite Hrun. apply give_ok; [|done]. pose proof (c_string_bytes s Hs) as H.
  rewrite E in H. apply Forall_app in H as [H _]. clear -H. induction toks as [|tok toks IH]; [constructor|].
  cbn [concat] in H. apply Forall_app in H as [H1 H2]. constructor; [done|by apply IH].
Qed.

Lemma value_term_ok f : field_ok f -> exists t, value_term f = Some t /\ wf_bytes t.
Proof.
  intros Hf. pose proof (numeric_term_bytes f Hf) as Hn. unfold value_term. unfold TokenizerSpaceImpl.value_term in Hn.
  destruct (_ =? kStringIndexField); [by apply ToLowerCase_total|].
  destruct (_ =? kUint32IndexField); [by eexists|]. destruct (_ =? kUint64IndexField); by eexists.
Qed.

Context (managers_ : list SegmenterManager) (Hmanagers : managers_ <> []) (seq_ : Z).

(** The fields the segmenters accept. *)
Definition segmentable (f : IndexField) : Prop :=
  Forall (fun m => exists seg, accepts m seg (string_value_ f)) managers_.

Lemma pick_some n : exists m, pick managers_ n = Some m /\ m ∈ managers_.
Proof.
  unfold pick, manager_index. assert (Hl : 0 < Z.of_nat (length managers_)) by (destruct managers_; [done|cbn; lia]).
  pose proof (Z.mod_pos_bound n _ Hl) as Hm. pose proof (Z.mod_le (n mod Z.of_nat (length managers_)) (2 ^ 32) ltac:(lia) ltac:(lia)).
  pose proof (Z.mod_pos_bound (n mod Z.of_nat (length managers_)) (2 ^ 32) ltac:(lia)).
  destruct (lookup_lt_is_Some_2 managers_ (Z.to_nat (u32 (n mod Z.of_nat (length managers_))))) as [m Hm'].
  { unfold u32. lia. }
  exists m. split; [done|]. by eapply list_elem_of_lookup_2.
Qed.

Lemma mmseg_Do d :
  Forall (fun f => field_ok f /\ segmentable f) (fields_ d) ->
  exists ok d', Do log_ managers_ d = Some (ok, d') /\
    (ok = true -> exists ts, length ts = length (fields_ d) /\ Forall terms_ok ts /\
       d' = mkDocument (zip_with set_terms (fields_ d) ts) (document_id_ d) (match_field_id_ d)).
Proof.
  intros Hd. unfold Do. destruct (pick_some (document_id_ d)) as (m & -> & Hm). cbn [mbind option_bind].
  destruct (each_field_spec _ (do_field log_ (SegmenterManager.getSegmenter m)) (fields_ d) Hd) as (ts & E & Hlen & Hok).
  - intros f [Hf Hseg]. unfold segmentable in Hseg. rewrite Forall_forall in Hseg. destruct (Hseg m Hm) as (seg & Hacc).
    assert (exists t, Some f = Some (set_terms f t) /\ terms_ok t) as Hid
      by (exists (terms_ f); rewrite set_terms_id; split; [done|apply Hf]).
    unfold do_field. destruct (negb _); [done|]. destruct (use_outer_segment_terms_ f); [done|]. destruct (_ && _).
    + assert (SegmenterManager.getSegmenter m = Some seg) as -> by apply Hacc. cbn [mbind option_bind].
      destruct (segment_ok m seg true (string_value_ f) (terms_ f) Hacc) as (t & -> & Ht); [apply Hf|apply Hf|]. by exists t.
    + destruct (value_term_ok f Hf) as (t & -> & Ht). cbn [mbind option_bind].
      destruct (insert_term_ok t f Ht Hf) as (ts & -> & Hts). by exists ts.
  - rewrite E. eexists _, _. split; [done|]. intros _. by exists ts.
Qed.

(** The dictionary tokenizer obeys the interface. *)
Definition mmseg_laws : @TokenizerLaws (tokenizer log_ managers_ seq_) :=
  @Build_TokenizerLaws (tokenizer log_ managers_ seq_) segmentable mmseg_Do.
End Segmenting.

(** ** Theorems *)

(** The blank tokenizer always answers, and it adds to the set exactly the
    maximal runs without a blank: what is left of the text when it is cut at
    every space, tab and carriage return and the empty pieces are dropped. *)
Theorem BuildTerms_words s terms lower :
  TokenizerSpaceImpl.BuildTerms s terms lower = Some (true, os_inserts bytes_cmp (words s) terms).
Proof. unfold TokenizerSpaceImpl.BuildTerms. by rewrite build_loop_spec. Qed.

Lemma text_head cp w :
  utf8_facts.scalar cp -> cp <> 0 ->
  exists b r, utf8_facts.text (cp :: w) = b :: r /\ b <> 0 /\
              ((b =? 13) || (b =? 10) = (cp =? 13) || (cp =? 10)).
Proof.
  intros [Hr _]%utf8_facts.scalar_range H0. unfold utf8_facts.text. cbn [flat_map]. unfold utf8_facts.octets.
  destruct (Z.ltb_spec cp 0x80); [by eexists _, _|].
  assert (forall b, 128 <= b -> b <> 0 /\ ((b =? 13) || (b =? 10) = (cp =? 13) || (cp =? 10))) as Hb
    by (intros b Hb; split; [lia|];
        destruct (Z.eqb_spec b 13), (Z.eqb_spec b 10), (Z.eqb_spec cp 13), (Z.eqb_spec cp 10); lia || done).
  destruct (Z.ltb_spec cp 0x800); [|destruct (Z.ltb_spec cp 0x10000)];
    (eexists _, _; split; [reflexivity|]; apply Hb; zlia).
Qed.

(** Tokens the loop drops. *)
Definition line_break (w : list Z) : bool :=
  match w with cp :: _ => (cp =? 13) || (cp =? 10) | [] => false end.

Lemma starts_line_text w : w <> [] -> Forall clean w -> starts_line (utf8_facts.text w) = line_break w.
Proof.
  destruct w as [|cp w]; [done|]. intros _ [(Hs & H0 & _) _]%Forall_cons. destruct (text_head cp w Hs H0) as (b & r & -> & _ & Hb).
  exact Hb.
Qed.

Lemma give_text ws terms :
  Forall (fun w => w <> [] /\ Forall clean w) ws ->
  give (TokenizerMMSEG.add_term true) (map utf8_facts.text ws) terms =
    Some (os_inserts bytes_cmp
            (map (fun w => utf8_facts.text (map lower_cp w)) (List.filter (fun w => negb (line_break w)) ws)) terms).
Proof.
  intros Hw. revert terms. induction Hw as [|w ws [Hne Hc] _ IH]; intros terms; [done|].
  cbn [map give List.filter]. rewrite (starts_line_text w Hne Hc). destruct (line_break w); cbn [negb]; [apply IH|].
  assert (TokenizerMMSEG.add_term true (utf8_facts.text w) terms =
            Some (os_insert bytes_cmp (utf8_facts.text (map lower_cp w)) terms)) as ->
    by (unfold TokenizerMMSEG.add_term; by rewrite ToLowerCase_text by (eapply Forall_impl; [exact Hc|by intros ? [? _]])).
  cbn [mbind option_bind]. by rewrite IH.
Qed.

(** The dictionary tokenizer indexes a tokenized field of well-formed text
    under the lower-cased words the segmenter cuts it into, line breaks left
    out: together the words are the whole text, none is empty and none ends
    within a character.  Terms the caller segmented himself are kept. *)
Lemma mmseg_field_terms {log_} `{Hlog : LogLaws log_} m seg f cps :
  InvertIndex (field_flag_ f) = true -> field_type_ f = kStringIndexField -> Tokenize (field_flag_ f) = true ->
  string_value_ f = utf8_facts.text cps -> Forall clean cps -> accepts m seg (string_value_ f) ->
  exists ws,
    concat ws = cps /\ Forall (fun w => w <> []) ws /\
    TokenizerMMSEG.do_field log_ (SegmenterManager.getSegmenter m) f =
      Some (if use_outer_segment_terms_ f then f
            else set_terms f (os_inserts bytes_cmp
                   (map (fun w => utf8_facts.text (map lower_cp w))
                      (List.filter (fun w => negb (line_break w)) ws)) (terms_ f))).
Proof.
  intros Hi Ht Htok Es Hc Hacc. rewrite Es in Hacc.
  destruct (segment_text (log_ := log_) m seg cps Hc Hacc) as (ws & Ews & Hws & Hrun).
  exists ws. split; [done|]. split; [by eapply Forall_impl; [exact Hws|intros w []]|].
  unfold TokenizerMMSEG.do_field. rewrite Hi, Ht, Htok, Es. cbn [negb andb Z.eqb].
  destruct (use_outer_segment_terms_ f); [done|]. assert (SegmenterManager.getSegmenter m = Some seg) as -> by apply Hacc.
  cbn [mbind option_bind]. by rewrite Hrun, give_text.
Qed.

Definition sample_field : IndexField :=
  mkField 1 (SetInvertIndex (SetTokenize 0)) kStringIndexField 0 (utf8_facts.text sample_text) false [] 0 [].

Lemma mmseg_sample_terms :
  exists ws,
    concat ws = sample_text /\ Forall (fun w => w <> []) ws /\
    TokenizerMMSEG.do_field rough_log (SegmenterManager.getSegmenter Sample.manager) sample_field =
      Some (set_terms sample_field (os_inserts bytes_cmp
              (map (fun w => utf8_facts.text (map lower_cp w)) (List.filter (fun w => negb (line_break w)) ws)) [])).
Proof.
  apply (mmseg_field_terms (Hlog := rough_log_laws) Sample.manager Sample.segmenter sample_field sample_text);
    [reflexivity..|apply sample_clean|apply sample_accepts].
Qed.
