(* ===== verification/CorpusText.v ===== *)
(** A dictionary made of a corpus of text serves every text: the words found at
    any place are words of the corpus, of whole characters, and their
    frequencies do not vanish in the 16 bits the segmenter keeps of them.  So
    the segmenters of a directory with such a dictionary accept every
    well-formed text of less than 2^16 - 4 octets, and the tokenizer over them
    answers for every document of such text. *)
From S2P Require Import Prelude Double IniParser Darts DartsBuild Corpus Storage Coding Document Utf8 Tagger MMThunk Segmenter SegmentCorrect Tokenizer.
Import utf8_facts.

(** ** What is asked of a corpus *)

(** The frequencies of a word and of the words it starts with. *)
Definition family_freq (es : list (bytes * Z)) (w : bytes) : Z :=
  foldr (fun n s => default 0 (assoc (take n w) es) + s) 0 (seq 0 (S (length w))).

(** A word of characters the scan of a chunk passes, that fits a token. *)
Definition word_ok (w : bytes) : Prop :=
  (length w <= 15)%nat /\ exists cps, cps <> [] /\ Forall plain cps /\ w = text cps.

Definition word_check (w : bytes) : bool :=
  (0 <? size w) && (size w <=? 15) && plain_check 15 w [] (size w).

Definition freq_ok (f : Z) : bool := negb (u16 f =? 0) && negb (u16 (f + 1) =? 0).

Definition text_corpus (es : list (bytes * Z)) : bool :=
  corpus_ok es && forallb (fun e => word_check e.1 && freq_ok (family_freq es e.1)) es.

(** The array holds the words of the corpus and walks nothing else. *)
Record holds_corpus (es : list (bytes * Z)) (a : list unit_t) : Prop := {
  hc_array : array_ok a = true;
  hc_value key : wf_bytes key -> value_of a key = assoc key es;
  hc_walk key b : wf_bytes key -> walk a key = Some b -> exists t, key ++ t ∈ map fst es
}.

Lemma word_check_ok w : word_check w = true -> word_ok w.
Proof.
  unfold word_check. rewrite !andb_true_iff, Z.ltb_lt, Z.leb_le. intros [[H0 H15] H]. unfold size in *. split; [lia|].
  destruct (plain_check_ok _ _ _ _ H ltac:(lia)) as (cps & Hp & E & [s Es]). exists cps. unfold size in E.
  assert (s = []) as ->; [|rewrite app_nil_r in Es; split; [|by split]; intros ->; cbn in E; lia].
  apply (f_equal length) in Es. rewrite length_app in Es. destruct s; [done|]. cbn [length] in Es. lia.
Qed.

Lemma assoc_in key es v : assoc key es = Some v -> (key, v) ∈ es.
Proof.
  induction es as [|[k w] es IH]; cbn [assoc]; [done|]. destruct (decide (k = key)) as [->|]; [intros [= ->]; left|].
  intros H. right. by apply IH.
Qed.

(** ** The words found at a place *)
Section Hits.
Context (es : list (bytes * Z)) (Hes : text_corpus es = true) (a : list unit_t) (Ha : holds_corpus es a).

Lemma corpus_entry k v : (k, v) ∈ es -> word_ok k /\ freq_ok (family_freq es k) = true.
Proof.
  intros Hin%list_elem_of_In. unfold text_corpus in Hes. rewrite andb_true_iff, forallb_forall in Hes. destruct Hes as [_ H].
  specialize (H _ Hin). apply andb_true_iff in H as [H1 H2]. split; [by apply word_check_ok|done].
Qed.

Lemma hit_at_value key : wf_bytes key ->
  match assoc key es with
  | Some v => exists p, hit_at a key = [mkPair v (Z.of_nat (length key)) p]
  | None => hit_at a key = []
  end.
Proof.
  intros Hk. rewrite <- (hc_value _ _ Ha key Hk). unfold value_of, hit_at. destruct (walk a key) as [b|]; [|done].
  cbn [mbind option_bind]. destruct (leaf a b) as [[n [|]]|]; cbn [mbind option_bind fst snd]; [by eexists|done|done].
Qed.

(** No word is longer than a token, so nothing is found that is no word. *)
Lemma partial_at_15 key : wf_bytes key -> length key = 15%nat -> partial_at a key = [].
Proof.
  intros Hk Hl. pose proof (hc_value _ _ Ha key Hk) as Hv. unfold partial_at. unfold value_of in Hv.
  destruct (walk a key) as [b|] eqn:Ew; [|done]. cbn [mbind option_bind] in Hv.
  destruct (hc_walk _ _ Ha key b Hk Ew) as (t & ([k v] & E & Hin)%list_elem_of_fmap). cbn [fst] in E.
  destruct (corpus_entry k v Hin) as [[Hlen _] _].
  assert (t = []) as ->. { rewrite <- E, length_app in Hlen. destruct t; [done|]. cbn [length] in Hlen. lia. }
  rewrite app_nil_r in E. subst k. destruct (leaf a b) as [[n [|]]|]; cbn [mbind option_bind fst snd] in *; [done| |done].
  exfalso. assert (Hnone : assoc key es = None) by congruence.
  apply list_elem_of_In in Hin. clear -Hnone Hin. induction es as [|[k w] l IH]; [done|]. cbn [assoc] in Hnone.
  destruct (decide (k = key)); [done|]. destruct Hin as [[= -> ->]|Hin]; [done|]. by apply IH.
Qed.

(** The hits of at most [m] octets. *)
Definition hits_to (r : bytes) (m : nat) : list result_pair_type := flat_map (fun n => hit_at a (take n r)) (seq 0 (S m)).

Lemma hits_to_S r m : hits_to r (S m) = hits_to r m ++ hit_at a (take (S m) r).
Proof. unfold hits_to. rewrite (seq_S (S m) 0), flat_map_app. cbn [flat_map Nat.add]. by rewrite app_nil_r. Qed.

Lemma prefix_hits_words r : wf_bytes r -> prefix_hits a [] r 15 = hits_to r (Nat.min 15 (length r)).
Proof.
  intros Hr. unfold prefix_hits. cbn [app]. destruct (Nat.leb_spec 15 (length r)); [|by rewrite app_nil_r].
  rewrite partial_at_15; [by rewrite app_nil_r|by apply Forall_take|]. rewrite length_take. lia.
Qed.

Definition total_value (rs : list result_pair_type) : Z := foldr (fun x s => value x + s) 0 rs.

Lemma total_value_app x y : total_value (x ++ y) = total_value x + total_value y.
Proof. induction x as [|p x IH]; cbn [app total_value foldr]; [done|]. fold total_value. unfold total_value in *. lia. Qed.

Definition family_sum (r : bytes) (m : nat) : Z := foldr (fun n s => default 0 (assoc (take n r) es) + s) 0 (seq 0 (S m)).

Lemma family_sum_S r m : family_sum r (S m) = family_sum r m + default 0 (assoc (take (S m) r) es).
Proof.
  unfold family_sum. rewrite (seq_S (S m) 0), foldr_app. cbn [foldr Nat.add]. rewrite Z.add_0_r.
  generalize (default 0 (assoc (take (S m) r) es)) as x. intros x. generalize (seq 0 (S m)) as l. intros l.
  induction l as [|n l IH]; cbn [foldr]; lia.
Qed.

Lemma family_sum_take r m n : (m <= n)%nat -> family_sum (take n r) m = family_sum r m.
Proof.
  intros Hmn. induction m as [|m IH]; [unfold family_sum; cbn; by rewrite !take_0|].
  rewrite !family_sum_S, IH by lia. by rewrite take_take, Nat.min_l by lia.
Qed.

(** What is found up to a length: nothing, or the family of the longest word. *)
Lemma hits_to_ok r m : wf_bytes r -> (m <= length r)%nat ->
  (length (hits_to r m) <= S m)%nat /\
  StronglySorted Z.lt (map length_ (hits_to r m)) /\ Forall (fun l => l <= Z.of_nat m) (map length_ (hits_to r m)) /\
  Forall (fun x => exists k v, (k, v) ∈ es /\ k `prefix_of` r /\ length_ x = Z.of_nat (length k) /\ value x = v) (hits_to r m) /\
  total_value (hits_to r m) = family_sum r m /\
  (hits_to r m = [] \/ exists k v, (k, v) ∈ es /\ family_freq es k = family_sum r m).
Proof.
  intros Hr. assert (Hempty : assoc [] es = None).
  { destruct (assoc [] es) as [v|] eqn:E; [|done]. apply assoc_in, corpus_entry in E as [[_ (cps & Hne & _ & E)] _].
    destruct cps as [|c cps]; [done|]. rewrite text_cons in E. pose proof (octets_length c). apply (f_equal length) in E. rewrite length_app in E. cbn [length] in E. lia. }
  induction m as [|m IH]; intros Hm.
  - unfold hits_to, family_sum. cbn [seq flat_map foldr]. rewrite take_0, app_nil_r.
    pose proof (hit_at_value [] ltac:(constructor)) as H. rewrite Hempty in *. rewrite H. cbn.
    split; [lia|]. do 3 (split; [constructor|]). split; [done|by left].
  - destruct IH as (Hlen & Hs & Hle & Hw & Hsum & Hfam); [lia|]. rewrite hits_to_S, family_sum_S.
    assert (Hk : wf_bytes (take (S m) r)) by by apply Forall_take.
    assert (Hl : length (take (S m) r) = S m) by (rewrite length_take; lia).
    pose proof (hit_at_value _ Hk) as Hhit. destruct (assoc (take (S m) r) es) as [v|] eqn:E; cbn [default from_option id].
    + destruct Hhit as (p & ->). rewrite Hl. pose proof (assoc_in _ _ _ E) as Hin. rewrite map_app. cbn [map length_]. split; [rewrite length_app; cbn [length]; lia|].
      split; [|split; [|split; [|split]]].
      * clear -Hs Hle. induction Hs as [|x l _ IH Hx]; cbn [app]; [repeat constructor|]. apply Forall_cons in Hle as [Hx' Hle].
        constructor; [by apply IH|]. apply Forall_app. split; [done|]. apply Forall_singleton. lia.
      * apply Forall_app. split; [eapply Forall_impl; [exact Hle|]; cbn; lia|]. apply Forall_singleton. lia.
      * apply Forall_app. split; [done|]. apply Forall_singleton. exists (take (S m) r), v. split; [done|].
        split; [apply prefix_take|]. by rewrite Hl.
      * rewrite total_value_app, Hsum. cbn. lia.
      * right. exists (take (S m) r), v. split; [done|]. unfold family_freq. rewrite Hl.
        change (family_sum (take (S m) r) (S m) = family_sum r m + v). rewrite family_sum_take, family_sum_S by done.
        by rewrite E.
    + rewrite Hhit, app_nil_r, Z.add_0_r. split; [lia|]. split; [done|].
      split; [eapply Forall_impl; [exact Hle|]; cbn; lia|]. by split.
Qed.

Lemma item_freq_total acc rs : u16 (fold_left (fun f x => u32 (f + u32 (value x))) rs acc) = u16 (acc + total_value rs).
Proof.
  revert acc. induction rs as [|x rs IH]; intros acc; cbn [fold_left total_value foldr]; [by rewrite Z.add_0_r|].
  rewrite IH. fold (total_value rs). unfold u16, u32. set (y := value x + total_value rs).
  assert (E : forall z, (z mod 2 ^ 32) mod 2 ^ 16 = z mod 2 ^ 16) by (intros z; apply (Z.mod_mod_divide z (2 ^ 32) (2 ^ 16)); by exists (2 ^ 16)).
  rewrite (Z.add_mod ((acc + value x mod 2 ^ 32) mod 2 ^ 32)), E, <- Z.add_mod by done.
  rewrite (Z.add_mod (acc + value x mod 2 ^ 32)), (Z.add_mod acc), E, <- (Z.add_mod acc), <- Z.add_mod by done.
  f_equal. unfold y. lia.
Qed.

(** The dictionary is as the segmenter needs it, at any place of any text. *)
Lemma corpus_hits r rest : wf_bytes r ->
  exists rs, UnigramDict.findHits (Some a) (r ++ 0 :: rest) 1023 15 = Some (rs, Z.of_nat (length rs)) /\ hits_ok r rs.
Proof.
  intros Hr. unfold UnigramDict.findHits. rewrite (commonPrefixSearch_spec a (hc_array _ _ Ha) r rest 1023 15) by lia.
  rewrite prefix_hits_words by done. assert (Hm : (Nat.min 15 (length r) <= 15 /\ Nat.min 15 (length r) <= length r)%nat) by lia.
  generalize dependent (Nat.min 15 (length r)). intros m [Hm15 Hm].
  destruct (hits_to_ok r m Hr Hm) as (Hlen & Hs & Hle & Hw & Hsum & Hfam).
  rewrite take_ge by lia. eexists. split; [done|]. constructor; [lia|done|..].
  - apply Forall_forall. intros x Hx. rewrite Forall_map, Forall_forall in Hle. specialize (Hle x Hx). cbn in Hle. split; [lia|].
    rewrite Forall_forall in Hw. destruct (Hw x Hx) as (k & v & Hin & Hpre & E & _). destruct (corpus_entry k v Hin) as [[_ (cps & H1 & H2 & ->)] _].
    exists cps. by rewrite E.
  - intros len its num E. unfold Segmenter.char_items in E. destruct Hfam as [H0|(k & v & Hin & Ef)].
    + rewrite H0 in E. cbn in E. by injection E as <- _.
    + destruct (corpus_entry k v Hin) as [_ Hf]. unfold freq_ok in Hf. rewrite Ef, andb_true_iff, !negb_true_iff, !Z.eqb_neq in Hf.
      destruct Hf as [Hf0 Hf1]. destruct (hits_to r m) as [|x rs] eqn:Ers; [by injection E as <- _|]. cbn [length] in E.
      destruct (Z.eqb_spec (Z.of_nat (S (length rs))) 0); [lia|]. cbn [mbind option_bind lookup list_lookup] in E.
      destruct (length_ x =? len); injection E as <- _; unfold item_freq.
      * rewrite item_freq_total, Hsum, Z.add_0_l. done.
      * rewrite item_freq_total. change (total_value (mkPair 1 len 0 :: x :: rs)) with (1 + total_value (x :: rs)).
        rewrite Hsum, Z.add_0_l, Z.add_comm. done.
Qed.
End Hits.

(** ** The directory of a segmenter *)

(** [file] is what [save] writes of the dictionary imported from a corpus. *)
Definition file_of_corpus (text : bytes) (file : option bytes) : Prop :=
  exists ur st, UnigramCorpusReader.open [] (Some text) None = Some (ur, 0) /\ UnigramDict_import ur = Some (st, 0) /\
    file = (UnigramDict_save st).2.

(** A dictionary of text, maybe one of keywords, no synonyms, and a
    configuration that can be read or none. *)
Record well_made (path : SegmenterManager.directory) (text : bytes) (g : Segmenter_ConfigObj) : Prop := {
  wm_uni : file_of_corpus text (path SegmenterManager.g_ngram_unigram_dict_name);
  wm_corpus : text_corpus (entries (getlines text)) = true;
  wm_kw : path SegmenterManager.g_kword_unigram_dict_name = None \/
    exists kwords, corpus_ok (entries (getlines kwords)) = true /\
      file_of_corpus kwords (path SegmenterManager.g_kword_unigram_dict_name);
  wm_sym : path SegmenterManager.g_synonyms_dict_name = None;
  wm_config : SegmenterManager.loadconfig default_config (path SegmenterManager.g_config_name) = Some g
}.

Lemma corpus_file_loads text file :
  corpus_ok (entries (getlines text)) = true -> file_of_corpus text file ->
  exists a, UnigramDict.load file = (0, Some a) /\ holds_corpus (entries (getlines text)) a.
Proof.
  intros Hok (ur & st & E1 & E2 & ->). destruct (dictionary_made text Hok) as (ur' & st' & a & E1' & E2' & E3 & E4 & E5).
  rewrite E1 in E1'. injection E1' as <-. rewrite E2 in E2'. injection E2' as <-.
  exists a. split; [done|]. split; [done|..].
  - intros key Hk. by apply E5.
  - intros key b Hk. by apply E5.
Qed.

Lemma text_corpus_ok es : text_corpus es = true -> corpus_ok es = true.
Proof. unfold text_corpus. by intros [? _]%andb_true_iff. Qed.

(** Whatever the array, few hits are reported. *)
Lemma few_hits a key len : (length (prefix_hits a [] key len) <= len + 2)%nat.
Proof.
  unfold prefix_hits. rewrite length_app.
  assert (H1 : forall l, (length (flat_map (fun n => hit_at a ([] ++ take n key)) l) <= length l)%nat).
  { induction l as [|n l IH]; cbn [flat_map length]; [done|]. rewrite length_app.
    assert (length (hit_at a ([] ++ take n key)) <= 1)%nat; [|lia].
    unfold hit_at. destruct (walk a _); [|cbn; lia]. by destruct (leaf a _) as [[? [|]]|]; cbn; try lia. }
  specialize (H1 (seq 0 (S (Nat.min len (length key))))). rewrite length_seq in H1.
  assert (length (if (len <=? length key)%nat then partial_at a ([] ++ take len key) else []) <= 1)%nat; [|lia].
  destruct (_ <=? _)%nat; [|cbn; lia]. unfold partial_at. destruct (walk a _); [|cbn; lia].
  destruct (leaf a _) as [[? [|]]|]; cbn; lia.
Qed.

Section Manager.
Context (path : SegmenterManager.directory) (text : bytes) (g : Segmenter_ConfigObj) (Hwm : well_made path text g).

(** The manager comes up and accepts every text without joint characters and
    every well-formed text. *)
Lemma init_well_made :
  exists m, SegmenterManager.init SegmenterManager.create path SegmenterManager.SEG_METHOD_NGRAM = Some (m, 0) /\ config m = g /\
    forall buffer, wf_bytes buffer -> size buffer < 2 ^ 16 - 4 -> valid (c_string buffer) \/ no_joint (Some g) ->
      exists seg, accepts m seg buffer.
Proof.
  destruct Hwm as [Huni Hcorpus Hkw Hsym Hcfg].
  destruct (corpus_file_loads _ _ (text_corpus_ok _ Hcorpus) Huni) as (a & Ea & Ha).
  assert (Hk : exists k, UnigramDict.load (path SegmenterManager.g_kword_unigram_dict_name) = (if k is Some _ then 0 else -1, k) /\
            (forall ka, k = Some ka -> array_ok ka = true)).
  { destruct Hkw as [->|(kwords & Hok & Hf)]; [by exists None|].
    destruct (corpus_file_loads _ _ Hok Hf) as (ka & E & Hka). exists (Some ka). split; [done|]. intros ? [= <-]. apply Hka. }
  destruct Hk as (k & Ek & Hk).
  assert (Hw : exists w r, UnigramDict.load (path SegmenterManager.g_wordweight_unigram_dict_name) = (r, w) /\ SegmenterManager.optional r = true).
  { unfold UnigramDict.load, open. destruct (path SegmenterManager.g_wordweight_unigram_dict_name); by eexists _, _. }
  destruct Hw as (w & r & Ew & Hr).
  exists (mkManager (Some a) k w None g SegmenterManager.SEG_METHOD_NGRAM true). split; [|split; [done|]].
  - unfold SegmenterManager.init. rewrite Ea, Ek, Ew. cbn [fst snd negb Z.eqb SegmenterManager.create m_inited m_uni m_kw m_weight m_sym config Pos.eqb SegmenterManager.SEG_METHOD_NGRAM].
    assert (SegmenterManager.optional (if k is Some _ then 0 else -1) = true) as -> by by destruct k.
    rewrite Hr. cbn [negb]. rewrite Hsym. cbn [SynonymsDict.load mbind option_bind snd]. by rewrite Hcfg.
  - intros buffer Hb Hsz Hsafe. eexists. split; [reflexivity|]. split; [done|]. split; [done|]. split; [|exact Hsafe].
    intros used r' code len l Ep _ _. cbn [m_unidict m_kwdict m_uni m_kw].
    assert (Hr' : wf_bytes r').
    { assert (Hc : wf_bytes (c_string buffer)) by by apply c_string_bytes. rewrite Ep in Hc. by apply Forall_app in Hc as [_ ?]. }
    split; [by apply (corpus_hits (entries (getlines text)) Hcorpus a Ha)|]. destruct k as [ka|]; [|by exists []; split; [|cbn; lia]].
    unfold UnigramDict.findHits. rewrite (commonPrefixSearch_spec ka (Hk ka eq_refl)) by lia. pose proof (few_hits ka r' 15).
    rewrite take_ge by lia. eexists. split; [done|]. lia.
Qed.

(** So do all managers of the tokenizer. *)
Lemma new_managers_well_made n :
  exists ms, TokenizerMMSEG.new_managers path n = Some ms /\ length ms = n /\
    Forall (fun m => config m = g /\ forall buffer, wf_bytes buffer -> size buffer < 2 ^ 16 - 4 ->
      valid (c_string buffer) \/ no_joint (Some g) -> exists seg, accepts m seg buffer) ms.
Proof.
  destruct init_well_made as (m & E & Hm). induction n as [|n IH]; cbn [TokenizerMMSEG.new_managers]; [by exists []|].
  destruct IH as (ms & Ems & Hl & Hf). rewrite E. cbn [mbind option_bind Z.eqb negb]. rewrite Ems. cbn [mbind option_bind].
  exists (m :: ms). split; [done|]. split; [cbn; lia|]. by constructor.
Qed.
End Manager.

(** ** Fields of text *)

(** A field whose string is well-formed text that fits the 16 bits of a length. *)
Definition text_field (f : IndexField) : Prop :=
  exists cps, Forall clean cps /\ string_value_ f = utf8_facts.text cps /\ size (string_value_ f) < 2 ^ 16 - 4.

(** What the tokenizer makes of such a field. *)
Definition tokenized_field (f f' : IndexField) : Prop :=
  exists cps, string_value_ f = utf8_facts.text cps /\ Forall clean cps /\
    if negb (InvertIndex (field_flag_ f)) || use_outer_segment_terms_ f then f' = f
    else if (field_type_ f =? kStringIndexField) && Tokenize (field_flag_ f) then
      exists ws, concat ws = cps /\ Forall (fun w => w <> []) ws /\
        f' = set_terms f (os_inserts bytes_cmp
               (map (fun w => utf8_facts.text (map lower_cp w)) (List.filter (fun w => negb (line_break w)) ws)) (terms_ f))
    else
      f' = TokenizerSpaceImpl.insert_term
             (if field_type_ f =? kStringIndexField then utf8_facts.text (map lower_cp cps) else TokenizerSpaceImpl.value_term f) f.

Lemma each_field_Forall2 step l l' :
  Forall2 (fun f f' => step f = Some f') l l' -> each_field step l = Some l'.
Proof. induction 1 as [|f f' l l' E _ IH]; cbn [each_field]; [done|]. by rewrite E, IH. Qed.

Section Fields.
Context {log_ : spec_float -> spec_float} {Hlog : LogLaws log_}.
Context (path : SegmenterManager.directory) (text : bytes) (g : Segmenter_ConfigObj) (Hwm : well_made path text g).

Lemma text_accepts m f :
  (forall buffer, wf_bytes buffer -> size buffer < 2 ^ 16 - 4 -> valid (c_string buffer) \/ no_joint (Some g) -> exists seg, accepts m seg buffer) ->
  text_field f -> exists seg, accepts m seg (string_value_ f).
Proof.
  intros Hm (cps & Hc & Es & Hsz). apply Hm; rewrite ?Es in *; [by apply text_bytes|done|]. left. rewrite c_string_text by done. by exists cps.
Qed.

Lemma well_made_segmentable n f ms :
  TokenizerMMSEG.new_managers path n = Some ms -> text_field f -> segmentable ms f.
Proof.
  intros E Hf. destruct (new_managers_well_made path text g Hwm n) as (ms' & E' & _ & Hms). rewrite E in E'. injection E' as <-.
  eapply Forall_impl; [exact Hms|]. intros m [_ Hm]. by apply text_accepts.
Qed.

Lemma do_field_text m seg f :
  accepts m seg (string_value_ f) -> text_field f ->
  exists f', TokenizerMMSEG.do_field log_ (SegmenterManager.getSegmenter m) f = Some f' /\ tokenized_field f f'.
Proof.
  intros Hacc (cps & Hc & Es & Hsz). unfold tokenized_field.
  destruct (InvertIndex (field_flag_ f)) eqn:Ei.
  2: { exists f. unfold TokenizerMMSEG.do_field. rewrite Ei. cbn [negb orb]. split; [done|]. by exists cps. }
  destruct (use_outer_segment_terms_ f) eqn:Eo.
  { exists f. unfold TokenizerMMSEG.do_field. rewrite Ei, Eo. cbn [negb orb]. split; [done|]. by exists cps. }
  destruct ((field_type_ f =? kStringIndexField) && Tokenize (field_flag_ f)) eqn:Et.
  - apply andb_true_iff in Et as [Et Etok].
    destruct (mmseg_field_terms m seg f cps Ei (proj1 (Z.eqb_eq _ _) Et) Etok Es Hc Hacc) as (ws & H1 & H2 & Hdo).
    rewrite Eo in Hdo. eexists. split; [exact Hdo|]. exists cps. split; [done|]. split; [done|]. cbn [negb orb]. exists ws.
    by split_and!.
  - unfold TokenizerMMSEG.do_field. rewrite Ei, Eo, Et. cbn [negb]. unfold TokenizerMMSEG.value_term, TokenizerSpaceImpl.value_term.
    eexists. split; [|exists cps; split; [done|]; split; [done|]; cbn [negb orb]; reflexivity].
    destruct (field_type_ f =? kStringIndexField).
    + rewrite Es, ToLowerCase_text by (eapply Forall_impl; [exact Hc|by intros ? [? _]]). done.
    + destruct (field_type_ f =? kUint32IndexField); [done|]. by destruct (field_type_ f =? kUint64IndexField).
Qed.

(** C23: the tokenizer over a directory with a dictionary made of a corpus, and
    without synonyms ([well_made]), comes up and answers for every document
    whose strings are well-formed text, without zeros and byte order marks, of
    less than 65532 octets each; a longer run of numbers or letters may never
    end.  A field that is not
    indexed, or whose terms are given, stays; a tokenized one gets the
    lower-cased words that its whole text is cut into, line breaks left out;
    any other its lower-cased text or the octets of its number. *)
Theorem corpus_tokenizer n d :
  (0 < n)%nat -> Forall text_field (fields_ d) ->
  exists ms fields, TokenizerMMSEG.new_TokenizerMMSEG path n = Some ms /\ length ms = n /\
    TokenizerMMSEG.Do log_ ms d = Some (true, mkDocument fields (document_id_ d) (match_field_id_ d)) /\
    Forall2 tokenized_field (fields_ d) fields.
Proof.
  intros Hn Hd. destruct (new_managers_well_made path text g Hwm n) as (ms & E & Hl & Hms).
  assert (Hne : ms <> []) by (intros ->; cbn in Hl; lia). destruct (pick_some ms Hne (document_id_ d)) as (m & Em & Hin).
  rewrite Forall_forall in Hms. destruct (Hms m Hin) as [_ Hm].
  assert (H : exists fields, Forall2 (fun f f' => TokenizerMMSEG.do_field log_ (SegmenterManager.getSegmenter m) f = Some f') (fields_ d) fields /\
            Forall2 tokenized_field (fields_ d) fields).
  { induction Hd as [|f l Hf _ (fields & IH1 & IH2)]; [by exists []|]. destruct (text_accepts m f Hm Hf) as (seg & Hacc).
    destruct (do_field_text m seg f Hacc Hf) as (f' & E1 & E2). exists (f' :: fields). split; by constructor. }
  destruct H as (fields & H1 & H2). exists ms, fields. unfold TokenizerMMSEG.new_TokenizerMMSEG.
  destruct (Nat.eqb_spec n 0); [lia|]. split; [done|]. split; [done|]. split; [|done].
  unfold TokenizerMMSEG.Do. rewrite Em. cbn [mbind option_bind]. by rewrite (each_field_Forall2 _ _ _ H1).
Qed.
End Fields.

(** ** A sample *)

(** A corpus of 164 characters and two words of them, with their frequencies. *)
Definition sample_words : list (list Z) := [[0x4E2D; 0x56FD]; [0x4E2D; 0x56FD; 0x4EBA]] ++ map (fun n => [0x4E00 + Z.of_nat n]) (seq 0 162).

Definition sample_corpus : bytes :=
  flat_map (fun w => utf8_facts.text w ++ [9; 51; 48; 10; 120; 10]) sample_words.

Lemma sample_text_corpus : text_corpus (entries (getlines sample_corpus)) = true.
Proof. vm_compute. reflexivity. Qed.

(** A directory with this dictionary and nothing else. *)
Definition only_dictionary (file : option bytes) : SegmenterManager.directory :=
  fun name => if decide (name = SegmenterManager.g_ngram_unigram_dict_name) then file else None.

Lemma only_well_made text :
  text_corpus (entries (getlines text)) = true -> exists file, well_made (only_dictionary file) text default_config.
Proof.
  intros H. destruct (dictionary_made text (text_corpus_ok _ H)) as (ur & st & a & E1 & E2 & _).
  exists (UnigramDict_save st).2. constructor; [|exact H|by left|done|done]. unfold only_dictionary. rewrite decide_True by done.
  exists ur, st. split; [exact E1|]. split; [exact E2|done].
Qed.

(** A tokenized field and a number. *)
Definition sample_fields : list IndexField :=
  [mkField 1 (SetInvertIndex (SetTokenize 0)) kStringIndexField 0 (utf8_facts.text SegmentCorrect.sample_text) false [] 0 [];
   mkField 2 (SetInvertIndex 0) kUint32IndexField 77 [] false [] 0 []].

Lemma sample_text_fields : Forall text_field sample_fields.
Proof.
  repeat apply Forall_cons_2; [| |apply Forall_nil_2].
  - exists SegmentCorrect.sample_text. split; [apply sample_clean|]. split; [done|]. by vm_compute.
  - exists []. split; [constructor|]. by split.
Qed.

Lemma corpus_tokenizer_witness :
  exists path ms fields, TokenizerMMSEG.new_TokenizerMMSEG path 2 = Some ms /\ length ms = 2%nat /\
    TokenizerMMSEG.Do rough_log ms (mkDocument sample_fields 7 (-1)) = Some (true, mkDocument fields 7 (-1)) /\
    Forall2 tokenized_field sample_fields fields.
Proof.
  destruct (only_well_made sample_corpus sample_text_corpus) as (file & H). exists (only_dictionary file).
  apply (corpus_tokenizer (Hlog := rough_log_laws) (only_dictionary file) sample_corpus default_config H 2 (mkDocument sample_fields 7 (-1)));
    [lia|apply sample_text_fields].
Defined.
