(* ===== verification/DocumentWriter.v ===== *)
(** The document writer ([document_writer.cpp]): turns a batch of updaters into
    operations of one write buffer, and allocates sequences.

    The database and its write buffer are any instance of [WriteDB]; the
    tokenizer is any [Tokenizer].  A [std::string* store_buffer] is an option:
    [None] is the null pointer (the batch is flushed), [Some] holds the bytes
    the batch is added to.  [None] as a result is a failed [assert].  The
    tracer only counts and is not modelled. *)
From Stdlib Require String.
From S2P Require Import Prelude Storage Coding Codec DocList VirtualDB WriteDB Document Utf8 Tokenizer.

(** [for (auto du : documents)] with a state and a status: a status that is
    not OK leaves the loop. *)
Fixpoint for_docs {S} (step : SearchStatus -> S -> DocumentUpdater -> option (SearchStatus * S * DocumentUpdater))
    (status : SearchStatus) (s : S) (documents : list DocumentUpdater) :
    option (SearchStatus * S * list DocumentUpdater) :=
  match documents with
  | [] => Some (status, s, [])
  | du :: rest =>
      '(status, s, du) ← step status s du;
      if OK status then
        '(status, s, rest) ← for_docs step status s rest; Some (status, s, du :: rest)
      else Some (status, s, du :: rest)
  end.

(** ** Term differences *)

(** [std::map<FieldID, std::map<std::string, unsigned char>>]. *)
Abbreviation FieldTerms := (list (Z * list (bytes * Z))).

(** [operator[]] of the outer map. *)
Definition touch (m : FieldTerms) (field_id : Z) : FieldTerms := om_emplace Z.compare field_id [] m.

(** [term_match[term] |= bit]. *)
Definition mark (bit field_id : Z) (m : FieldTerms) (term : bytes) : FieldTerms :=
  let term_match := default [] (om_find Z.compare field_id m) in
  let flag := default 0 (om_find bytes_cmp term term_match) in
  om_insert Z.compare field_id (om_insert bytes_cmp term (u8 (Z.lor flag bit)) term_match) m.

(** ** Sequences *)
Record AllocSequence := mkSequence { user_id : bytes; sequence : Z; seq_status : SearchStatus }.

Definition set_sequence (item : AllocSequence) (n : Z) : AllocSequence :=
  mkSequence (user_id item) n (seq_status item).
Definition set_seq_status (item : AllocSequence) (s : SearchStatus) : AllocSequence :=
  mkSequence (user_id item) (sequence item) s.

Section DocumentWriter.
Context {DB B : Type} `{VirtualDB DB} `{WriteBuffer B} `{!WriteDB DB B} `{StoreProto} `{Tokenizer}.
Context (codec : DocListCompressionType) (config : IndexConfig).

(** ** Before writing *)

(** A document the tokenizer refuses ends the batch. *)
Definition tokenize_one (status : SearchStatus) (_ : unit) (du : DocumentUpdater) :
    option (SearchStatus * unit * DocumentUpdater) :=
  if updater_Delete du then Some (status, tt, du)
  else if OK (status_ du) then
    '(ret, document) ← Do (new_document_ du);
    let du := set_new du document in
    if (ret : bool) then Some (status, tt, du)
    else
      let du := set_status du (SetStatus kTokenizerErrorStatus "tokenizer error") in
      Some (status_ du, tt, du)
  else Some (status, tt, du).

Definition RunTokenizer (documents : list DocumentUpdater) : option (SearchStatus * list DocumentUpdater) :=
  '(status, _, documents) ← for_docs tokenize_one status_ok tt documents;
  Some (status, documents).

(** The old fields the new document does not have are copied to it. *)
Definition merge_fields (new_document old_document : Document) : Document :=
  fold_left (fun d field =>
    match FindField d (field_id_ field) with
    | None => AddField d (CopyFrom new_field field)
    | Some _ => d
    end) (fields_ old_document) new_document.

Definition MergeOldField (documents : list DocumentUpdater) : SearchStatus * list DocumentUpdater :=
  (status_ok,
   map (fun du =>
     if bool_decide (update_type_ du = kDocumentDeleteType) || bool_decide (update_type_ du = kDocumentReplaceType)
     then du else set_new du (merge_fields (new_document_ du) (old_document_ du))) documents).

(** ** Stored fields *)
Definition stored_one (table : TableID) (status : SearchStatus) (b : B) (du : DocumentUpdater) :
    option (SearchStatus * B * DocumentUpdater) :=
  if OK (status_ du) then
    let document_key := EncodeStoredFieldKey table (document_id_ (new_document_ du)) [] in
    '(b, du) ←
      (if negb (updater_Delete du) then
         match fst (SerializeToBytes (new_document_ du) 0) with
         | Some value =>
             let '(s, b) := Put b kStoredFieldColumn document_key value in
             match ParseDocument value with
             | Some _ => Some (b, set_status du s)
             | None => None
             end
         | None => Some (b, set_status du (SetStatus kSerializeErrorStatus "Serialize kStoredFieldColumn error"))
         end
       else let '(s, b) := Delete b kStoredFieldColumn document_key in Some (b, set_status du s));
    Some (if negb (OK (status_ du)) then status_ du else status, b, du)
  else Some (status, b, du).

Definition WriteStoredField (table : TableID) (documents : list DocumentUpdater) (b : B) :
    option (SearchStatus * B * list DocumentUpdater) :=
  for_docs (stored_one table) status_ok b documents.

(** ** Doc values *)

(** The old doc-value fields whose id is not among the new ones. *)
Definition MergeDocvalue (old_docvalue_document new_docvalue_document : Document) : Document :=
  let new_docvalue_field_list := map field_id_ (fields_ new_docvalue_document) in
  fold_left (fun d old_field =>
    if bool_decide (field_id_ old_field ∈ new_docvalue_field_list) then d
    else AddField d (CopyFrom new_field old_field)) (fields_ old_docvalue_document) new_docvalue_document.

Definition docvalue_one (table : TableID) (status : SearchStatus) (b : B) (du : DocumentUpdater) :
    option (SearchStatus * B * DocumentUpdater) :=
  if OK (status_ du) then
    let document_key := EncodeStoredFieldKey table (document_id_ (new_document_ du)) [] in
    let new_docvalue := BuildDocValue (new_docvalue_document_ du) (new_document_ du) in
    let new_docvalue :=
      if NeedMergeDocValue du then MergeDocvalue (old_docvalue_document_ du) new_docvalue else new_docvalue in
    let du := set_new_docvalue du new_docvalue in
    let need_delete_old := existsb (fun f => DocValue (field_flag_ f)) (fields_ (old_document_ du)) in
    let '(b, du) :=
      if negb (updater_Delete du) then
        match SerializeToBytes new_docvalue 1 with
        | (Some value, have_field) =>
            if (have_field : bool) then
              let '(s, b) := Put b kDocValueColumn document_key value in (b, set_status du s)
            else if need_delete_old then
              let '(s, b) := Delete b kDocValueColumn document_key in (b, set_status du s)
            else (b, du)
        | (None, _) => (b, set_status du (SetStatus kSerializeErrorStatus "Serialize kDocValueColumn error"))
        end
      else if need_delete_old then
        let '(s, b) := Delete b kDocValueColumn document_key in (b, set_status du s)
      else (b, du) in
    Some (if negb (OK (status_ du)) then status_ du else status, b, du)
  else Some (status, b, du).

Definition WriteDocValue (table : TableID) (documents : list DocumentUpdater) (b : B) :
    option (SearchStatus * B * list DocumentUpdater) :=
  for_docs (docvalue_one table) status_ok b documents.

(** ** Inverted index *)

(** The keys one term is indexed under: its suffixes for a short string term
    of a suffix field, itself otherwise. *)
Definition term_keys (field : IndexField) (term : bytes) : option (list bytes) :=
  match term with
  | [] => Some []
  | _ =>
      if SuffixBuild (field_flag_ field) && (field_type_ field =? kStringIndexField) &&
         (Z.of_nat (length term) <=? max_suffix_term_size_ config)
      then
        let suffix_len := if negb (suffix_len_ field =? 0) then suffix_len_ field else 5 in
        UTF8SuffixBuilder.suffixes term suffix_len
      else Some [term]
  end.

Fixpoint index_terms (field : IndexField) (terms : list bytes) : option (list bytes) :=
  match terms with
  | [] => Some []
  | term :: terms' => l ← term_keys field term; l' ← index_terms field terms'; Some (l ++ l')
  end.

(** Bit 1 for the terms of the new document, bit 2 for those of the old. *)
Fixpoint mark_fields (bit : Z) (fields : list IndexField) (m : FieldTerms) : option FieldTerms :=
  match fields with
  | [] => Some m
  | field :: fields' =>
      terms ← index_terms field (terms_ field);
      mark_fields bit fields' (fold_left (mark bit (field_id_ field)) terms (touch m (field_id_ field)))
  end.

(** The terms whose flag is 1 are added, those whose flag is 2 deleted. *)
Fixpoint write_terms (table : TableID) (document_id : Z) (l : list (Z * bytes * Z)) (status : SearchStatus) (b : B) :
    option (SearchStatus * B) :=
  match l with
  | [] => Some (status, b)
  | (field_id, term, flag) :: l' =>
      if (flag =? 1) || (flag =? 2) then
        let key := EncodeInvertedKey table field_id term [] in
        let s := if flag =? 1 then kDocumentStateOK else kDocumentStateDelete in
        value ← write_doclist codec [(document_id, s)];
        '(status, b) ← Merge b kInvertedIndexColumn key value;
        if OK status then write_terms table document_id l' status b else Some (status, b)
      else write_terms table document_id l' status b
  end.

Definition field_term_list (m : FieldTerms) : list (Z * bytes * Z) :=
  concat (map (fun field : Z * list (bytes * Z) => map (fun term => (field.1, term.1, term.2)) field.2) m).

Definition inverted_one (table : TableID) (status : SearchStatus) (b : B) (du : DocumentUpdater) :
    option (SearchStatus * B * DocumentUpdater) :=
  if OK (status_ du) then
    m ← (if negb (updater_Delete du) then mark_fields 1 (fields_ (new_document_ du)) [] else Some []);
    m ← mark_fields 2 (fields_ (old_document_ du)) m;
    '(status, b) ← write_terms table (document_id_ (new_document_ du)) (field_term_list m) status b;
    Some (status, b, du)
  else Some (status, b, du).

Definition WriteInvertedIndex (table : TableID) (documents : list DocumentUpdater) (b : B) :
    option (SearchStatus * B * list DocumentUpdater) :=
  for_docs (inverted_one table) status_ok b documents.

(** [WriteTableMeta], [WriteDictionaryMeta]: nothing is written. *)
Definition WriteTableMeta (table : TableID) (documents : list DocumentUpdater) (b : B) : SearchStatus * B :=
  (status_ok, b).
Definition WriteDictionaryMeta (table : TableID) (documents : list DocumentUpdater) (b : B) : SearchStatus * B :=
  (status_ok, b).

(** ** The batch *)

(** [vdb->NewWriteBuffer]: on the bytes of the store buffer if it has any. *)
Definition open_buffer (store_buffer : option bytes) : B :=
  match store_buffer with
  | Some (x :: l) => NewWriteBuffer (DB := DB) (Some (x :: l))
  | _ => NewWriteBuffer (DB := DB) None
  end.

(** The writers one after the other, each only if the status is still OK. *)
Definition write_all (table : TableID) (documents : list DocumentUpdater) (b : B) :
    option (SearchStatus * B * list DocumentUpdater) :=
  '(status, documents) ← RunTokenizer documents;
  if negb (OK status) then Some (status, b, documents) else
  let '(status, documents) := MergeOldField documents in
  if negb (OK status) then Some (status, b, documents) else
  '(status, b, documents) ← WriteStoredField table documents b;
  if negb (OK status) then Some (status, b, documents) else
  '(status, b, documents) ← WriteInvertedIndex table documents b;
  if negb (OK status) then Some (status, b, documents) else
  '(status, b, documents) ← WriteDocValue table documents b;
  if negb (OK status) then Some (status, b, documents) else
  let '(status, b) := WriteTableMeta table documents b in
  if negb (OK status) then Some (status, b, documents) else
  let '(status, b) := WriteDictionaryMeta table documents b in
  Some (status, b, documents).

Definition UpdateDocuments (db : DB) (table : TableID) (documents : list DocumentUpdater)
    (store_buffer : option bytes) : option (SearchStatus * DB * list DocumentUpdater * option bytes) :=
  '(status, write_buffer, documents) ← write_all table documents (open_buffer store_buffer);
  let status :=
    if OK status then
      if max_write_batch_size_ config <? DataSize write_buffer
      then SetStatus kDocumentTooLargeStatus "Document Too Large for write batch" else status
    else status in
  if OK status then
    '(status, db, store_buffer) ←
      match store_buffer with
      | None => '(status, db, _) ← FlushBuffer db write_buffer; Some (status, db, None)
      | Some _ => let '(data, _) := Data write_buffer in Some (status, db, Some data)
      end;
    let documents :=
      if negb (OK status) then
        map (fun du => if negb (OK (status_ du)) then set_status du status else du) documents
      else documents in
    Some (status, db, documents, store_buffer)
  else
    let documents :=
      map (fun du => if OK (status_ du)
                     then set_status du (SetStatus kOtherDocumentErrorStatus (GetState status)) else du) documents in
    Some (status, db, documents, store_buffer).

(** ** Ingesting an index *)
Fixpoint ingest_items (table : TableID) (indices : list InvertIndexItem) (status : SearchStatus) (b : B) :
    option (SearchStatus * B) :=
  match indices with
  | [] => Some (status, b)
  | item :: rest =>
      let key := EncodeInvertedKey table (item_field_id_ item) (term_ item) [] in
      doc_list ← add_all (NewOrderDocListWriterCodec codec)
                   (map (fun doc_id => (doc_id, kDocumentStateOK)) (doc_list_ item));
      match DocList.SerializeToBytes doc_list with
      | None => Some (SetStatus kSerializeErrorStatus "Serialize to bytes error for invert doc list", b)
      | Some value =>
          '(status, b) ← Merge b kInvertedIndexColumn key value;
          if OK status then ingest_items table rest status b else Some (status, b)
      end
  end.

(** Flushing or handing over the buffer of the smaller operations. *)
Definition finish_buffer (db : DB) (status : SearchStatus) (write_buffer : B) (store_buffer : option bytes) :
    option (SearchStatus * DB * option bytes) :=
  if OK status then
    match store_buffer with
    | None => '(status, db, _) ← FlushBuffer db write_buffer; Some (status, db, None)
    | Some _ => let '(data, _) := Data write_buffer in Some (status, db, Some data)
    end
  else Some (status, db, store_buffer).

Definition IngestInvertIndex (db : DB) (table : TableID) (indices : list InvertIndexItem)
    (store_buffer : option bytes) : option (SearchStatus * DB * option bytes) :=
  '(status, write_buffer) ← ingest_items table indices status_ok (open_buffer store_buffer);
  finish_buffer db status write_buffer store_buffer.

(** ** Dropping a table *)
Definition WriteStoreFieldForDropTable (table : TableID) (b : B) : SearchStatus * B :=
  let begin_key := EncodeStoredFieldKey table 0 [] in
  let end_key := EncodeStoredFieldKey table UINT64_MAX [] in
  DeleteRange b kStoredFieldColumn begin_key end_key.

Definition max_term : bytes := repeat 255 256.

Definition WriteInvertedIndexForDropTable (table : TableID) (b : B) : SearchStatus * B :=
  let begin_key := EncodeInvertedKey table 0 [] [] in
  let end_key := EncodeInvertedKey table UINT8_MAX max_term [] in
  DeleteRange b kInvertedIndexColumn begin_key end_key.

Definition WriteDocvalueForDropTable (table : TableID) (b : B) : SearchStatus * B :=
  let begin_key := EncodeStoredFieldKey table 0 [] in
  let end_key := EncodeStoredFieldKey table UINT64_MAX [] in
  DeleteRange b kDocValueColumn begin_key end_key.

Definition WriteTableMetaForDropTable (table : TableID) (b : B) : SearchStatus * B :=
  Delete b kMetaColumn (EncodeMetaKey table []).

Definition WriteDictionaryMetaForDropTable (table : TableID) (b : B) : SearchStatus * B := (status_ok, b).

(** The drop writers in sequence, stopping at the first error. *)
Fixpoint drop_steps (steps : list (B -> SearchStatus * B)) (status : SearchStatus) (b : B) : SearchStatus * B :=
  match steps with
  | [] => (status, b)
  | f :: steps' => if OK status then let '(status, b) := f b in drop_steps steps' status b else (status, b)
  end.

Definition DropTable (db : DB) (table : TableID) (store_buffer : option bytes) :
    option (SearchStatus * DB * option bytes) :=
  let '(status, write_buffer) :=
    drop_steps [WriteStoreFieldForDropTable table; WriteInvertedIndexForDropTable table;
                WriteDocvalueForDropTable table; WriteTableMetaForDropTable table;
                WriteDictionaryMetaForDropTable table] status_ok (open_buffer store_buffer) in
  finish_buffer db status write_buffer store_buffer.

(** ** Sequence allocation *)
Fixpoint read_sequences (l : list AllocSequence) (status : list SearchStatus) (values : list bytes) :
    SearchStatus * list AllocSequence :=
  match l, status, values with
  | item :: l', s :: status', v :: values' =>
      if OK s then
        if negb (Nat.eqb (length v) 8) then (SetStatus kDataErrorStatus "sequence item's meta key size not match", l)
        else
          let '(r, l'') := read_sequences l' status' values' in (r, set_sequence item (le_val v) :: l'')
      else
        let '(r, l'') := read_sequences l' status' values' in (r, set_seq_status item s :: l'')
  | _, _, _ => (status_ok, l)
  end.

(** The status, the current maximum (if it was assigned) and the items. *)
Definition AcquireCurrentSequence (db : DB) (table : TableID) (sequence_list : list AllocSequence) :
    option (SearchStatus * option Z * list AllocSequence) :=
  let ids := EncodeSequenceMetaKey table [] ::
             map (fun item => EncodeSequenceMappingKey table (user_id item) []) sequence_list in
  let columns := map (fun _ => kMetaColumn) ids in
  let '(multi_status, values) := MultiGet db columns ids in
  match List.find (fun s => negb (OK s) && negb (GetCode s =? kDocumentNotExistStatus)) multi_status with
  | Some s => Some (s, None, sequence_list)
  | None =>
      match multi_status, values with
      | s0 :: statuses, v0 :: vs =>
          if GetCode s0 =? kDocumentNotExistStatus then
            let '(s, l) := read_sequences sequence_list statuses vs in Some (s, Some 0, l)
          else if negb (Nat.eqb (length v0) 8) then
            Some (SetStatus kDataErrorStatus "sequence's meta key size not match", None, sequence_list)
          else
            let '(s, l) := read_sequences sequence_list statuses vs in Some (s, Some (le_val v0), l)
      | _, _ => None
      end
  end.

(** Every user without a mapping gets the next number. *)
Fixpoint alloc_sequences (table : TableID) (l : list AllocSequence) (next_sequence : Z) (b : B) :
    SearchStatus * list AllocSequence * Z * B :=
  match l with
  | [] => (status_ok, [], next_sequence, b)
  | item :: l' =>
      if GetCode (seq_status item) =? kDocumentNotExistStatus then
        let item := mkSequence (user_id item) (u64 (next_sequence + 1)) (SetStatus 0 String.EmptyString) in
        let next_sequence := u64 (next_sequence + 1) in
        let key := EncodeSequenceMappingKey table (user_id item) [] in
        let value := le_bytes 8 (sequence item) in
        let '(put_status, b) := Put b kMetaColumn key value in
        if negb (OK put_status) then (put_status, item :: l', next_sequence, b)
        else let '(s, l'', n, b) := alloc_sequences table l' next_sequence b in (s, item :: l'', n, b)
      else let '(s, l'', n, b) := alloc_sequences table l' next_sequence b in (s, item :: l'', n, b)
  end.

Definition AcquireNewSequence (db : DB) (table : TableID) (sequence_list : list AllocSequence)
    (store_buffer : option bytes) : option (SearchStatus * DB * list AllocSequence * option bytes) :=
  '(status, current_max, sequence_list) ← AcquireCurrentSequence db table sequence_list;
  if negb (OK status) then Some (status, db, sequence_list, store_buffer)
  else
    current_max ← current_max;
    let '(status, sequence_list, next_sequence, b) :=
      alloc_sequences table sequence_list current_max (open_buffer store_buffer) in
    if negb (OK status) then Some (status, db, sequence_list, store_buffer)
    else if negb (next_sequence =? current_max) then
      let '(put_status, b) := Put b kMetaColumn (EncodeSequenceMetaKey table []) (le_bytes 8 next_sequence) in
      if negb (OK put_status) then Some (put_status, db, sequence_list, store_buffer)
      else
        match store_buffer with
        | Some _ => let '(data, _) := Data b in Some (status, db, sequence_list, Some data)
        | None => '(status, db, _) ← FlushBuffer db b; Some (status, db, sequence_list, None)
        end
    else Some (status, db, sequence_list, match store_buffer with Some _ => Some [] | None => None end).
End DocumentWriter.
