(* ===== verification/IndexWriter.v ===== *)
(** The index writer ([index_writer.cpp]): the interface a user calls.  It
    reads the stored documents of a batch, decides per document whether the
    operation applies, hands the batch to the document writer and gives every
    document a status.  The batch is all or nothing: [false] is returned when
    any document failed. *)
From Stdlib Require String.
From S2P Require Import Prelude Storage Coding Codec DocList VirtualDB WriteDB Document Utf8 Tokenizer DocumentWriter.

Section IndexWriter.
Context {DB B : Type} `{VirtualDB DB} `{WriteBuffer B} `{!WriteDB DB B} `{StoreProto} `{Tokenizer}.
Context (codec : DocListCompressionType) (config : IndexConfig).

(** ** The status of a document before the operation *)

(** Decoding into the old document of the updater; [None] leaves it alone. *)
Definition decode_old (du : DocumentUpdater) (value : bytes) (msg : string) (ok : bool) : bool * DocumentUpdater :=
  match DeSerializeFromByte (old_document_ du) value with
  | Some d => (ok, set_old du d)
  | None => (false, set_status du (SetStatus kSerializeErrorStatus msg))
  end.

(** [if (ok && multi_docvalue_status[i].DocumentExist())]. *)
Definition decode_old_docvalue (du : DocumentUpdater) (docvalue : SearchStatus * bytes) (ok : bool) :
    bool * DocumentUpdater :=
  if ok && DocumentExist docvalue.1 then
    match DeSerializeFromByte (old_docvalue_document_ du) docvalue.2 with
    | Some d => (ok, set_old_docvalue du d)
    | None => (false, set_status du (SetStatus kSerializeErrorStatus "decode document error"))
    end
  else (ok, du).

(** One round of [UpdateDocumetStatus]. *)
Definition update_status_one (mode : kDocumentUpdaterType) (ok : bool) (du : DocumentUpdater)
    (value : SearchStatus * bytes) (docvalue : SearchStatus * bytes) : bool * DocumentUpdater :=
  let '(status, document_value) := value in
  match mode with
  | kDocumentAddType =>
      if negb (DocumentNotExist status) then
        if OK status then (false, set_status du (SetStatus kDocumentExistStatus "Document exist before add"))
        else (false, set_status du status)
      else (ok, du)
  | kDocumentUpdateType =>
      if negb (OK status) then (false, set_status du status)
      else
        let '(ok, du) := decode_old du document_value "decode document error" ok in
        decode_old_docvalue du docvalue ok
  | kDocumentAddOrUpdateType =>
      if GetCode status =? kDocumentNotExistStatus then (ok, du)
      else if negb (OK status) then (false, set_status du status)
      else
        let '(ok, du) := decode_old du document_value "decode old document error" ok in
        decode_old_docvalue du docvalue ok
  | kDocumentDeleteType =>
      if GetCode status =? kDocumentNotExistStatus then (ok, set_status du status)
      else if negb (OK status) then (false, set_status du status)
      else decode_old du document_value "decode old document error" ok
  | kDocumentReplaceType =>
      if negb (OK status) && negb (GetCode status =? kDocumentNotExistStatus) then (false, set_status du status)
      else if OK status then decode_old du document_value "decode old document error" ok
      else (ok, du)
  | kDocumentAddWithoutReadType => (ok, du)
  end.

(** The loop runs over the statuses that were read. *)
Fixpoint UpdateDocumetStatus (mode : kDocumentUpdaterType) (ok : bool) (documents : list DocumentUpdater)
    (values docvalues : list (SearchStatus * bytes)) : bool * list DocumentUpdater :=
  match documents, values with
  | du :: documents', value :: values' =>
      let docvalue := match docvalues with v :: _ => v | [] => (status_ok, []) end in
      let '(ok, du) := update_status_one mode ok du value docvalue in
      let '(ok, documents') := UpdateDocumetStatus mode ok documents' values' (tl docvalues) in
      (ok, du :: documents')
  | _, _ => (ok, documents)
  end.

(** ** The batch *)

(** The update type is set; a document without an id is refused. *)
Definition prepare (mode : kDocumentUpdaterType) (du : DocumentUpdater) : DocumentUpdater :=
  let du := SetUpdateType du mode in
  if document_id_ (new_document_ du) =? 0
  then set_status du (SetStatus kDocumentIDCanNotZero "document id can not be zero.") else du.

Definition not_finished : SearchStatus :=
  SetStatus kOtherDocumentErrorStatus
    "Operation not finish,Some other document meet error in batch documents,Please check other document".

Definition read_column (db : DB) (column : StorageColumnType) (keys : list bytes) : list (SearchStatus * bytes) :=
  let '(status, values) := MultiGet db (map (fun _ => column) keys) keys in zip status values.

Definition InnerWriteDocuments (db : DB) (table : TableID) (documents : list DocumentUpdater)
    (store_buffer : option bytes) (mode : kDocumentUpdaterType) :
    option (bool * DB * list DocumentUpdater * option bytes) :=
  let ok := negb (existsb (fun du => document_id_ (new_document_ du) =? 0) documents) in
  let documents := map (prepare mode) documents in
  let document_keys := map (fun du => EncodeStoredFieldKey table (document_id_ (new_document_ du)) []) documents in
  let values :=
    if bool_decide (mode = kDocumentAddWithoutReadType) then [] else read_column db kStoredFieldColumn document_keys in
  let docvalues :=
    if bool_decide (mode = kDocumentUpdateType) || bool_decide (mode = kDocumentAddOrUpdateType)
    then read_column db kDocValueColumn document_keys else [] in
  let '(ok, documents) := UpdateDocumetStatus mode ok documents values docvalues in
  '(ok, db, documents, store_buffer) ←
    (if (ok : bool) then
       '(status, db, documents, store_buffer) ← UpdateDocuments codec config db table documents store_buffer;
       Some (OK status, db, documents, store_buffer)
     else Some (false, db, documents, store_buffer));
  let documents :=
    if negb (ok : bool) then map (fun du => if OK (status_ du) then set_status du not_finished else du) documents
    else documents in
  Some (ok, db, documents, store_buffer).

Definition AddDocuments db table documents store_buffer :=
  InnerWriteDocuments db table documents store_buffer kDocumentAddType.
Definition IndexWriter_UpdateDocuments db table documents store_buffer :=
  InnerWriteDocuments db table documents store_buffer kDocumentUpdateType.
Definition AddOrUpdateDocuments db table documents store_buffer :=
  InnerWriteDocuments db table documents store_buffer kDocumentAddOrUpdateType.
Definition ReplaceDocuments db table documents store_buffer :=
  InnerWriteDocuments db table documents store_buffer kDocumentReplaceType.
Definition DeleteDocuments db table documents store_buffer :=
  InnerWriteDocuments db table documents store_buffer kDocumentDeleteType.
Definition AddDocumentsWithoutRead db table documents store_buffer :=
  InnerWriteDocuments db table documents store_buffer kDocumentAddWithoutReadType.

(** ** The other operations, reduced to a boolean *)
Definition IndexWriter_IngestInvertIndex (db : DB) table indices store_buffer :
    option (bool * DB * option bytes) :=
  '(status, db, store_buffer) ← IngestInvertIndex codec db table indices store_buffer;
  Some (OK status, db, store_buffer).

Definition IndexWriter_AcquireCurrentSequence (db : DB) table sequence_list :
    option (bool * option Z * list AllocSequence) :=
  '(status, current_max, sequence_list) ← AcquireCurrentSequence db table sequence_list;
  Some (OK status, current_max, sequence_list).

Definition IndexWriter_AcquireNewSequence (db : DB) table sequence_list store_buffer :
    option (bool * DB * list AllocSequence * option bytes) :=
  '(status, db, sequence_list, store_buffer) ← AcquireNewSequence db table sequence_list store_buffer;
  Some (OK status, db, sequence_list, store_buffer).

Definition IndexWriter_DropTable (db : DB) table store_buffer : option (bool * DB * option bytes) :=
  '(status, db, store_buffer) ← DropTable db table store_buffer;
  Some (OK status, db, store_buffer).

(** ** Deleting the data of a table piecewise *)
Fixpoint delete_loop (entries : list (bytes * bytes)) (max_len : nat) (prefix : bytes) (column : StorageColumnType)
    (status : SearchStatus) (b : B) (last_key : bytes) : SearchStatus * B * bytes :=
  match max_len, entries with
  | S max_len', (key, _) :: entries' =>
      if bool_decide (length key < length prefix)%nat then
        (SetStatus kRocksDBErrorStatus "Key size too small", b, last_key)
      else if negb (starts_with prefix key) then (status, b, last_key)
      else
        let '(status, b) := Delete b column key in
        if OK status then delete_loop entries' max_len' prefix column status b key else (status, b, key)
  | _, _ => (status, b, last_key)
  end.

(** The status, the database and the key to go on from. *)
Definition DeleteTableData (db : DB) (table : TableID) (column : StorageColumnType) (start_key : bytes)
    (max_len : nat) : option (SearchStatus * DB * bytes) :=
  if bool_decide (max_len <= 1)%nat then Some (SetStatus kRocksDBErrorStatus "max_len must > 1", db, start_key)
  else
    let prefix := EncodeMetaKey table [] in
    let iterator := Seek db column (match start_key with [] => prefix | _ => start_key end) in
    let '(status, write_buffer, last_key) :=
      delete_loop iterator max_len prefix column status_ok (NewWriteBuffer (DB := DB) None) [] in
    if OK status then
      '(status, db, _) ← FlushBuffer db write_buffer;
      Some (status, db, if OK status then last_key else start_key)
    else Some (status, db, start_key).
End IndexWriter.
