(* ===== verification/Sequences.v ===== *)
(** The sequences of a table ([DocumentWriter::AcquireCurrentSequence],
    [AcquireNewSequence]): numbers handed out to user ids.

    The meta column holds the highest number given and the number of every
    known user.  The invariant, [sequences_ok], says that the numbers lie
    between 1 and the highest one and belong to one user each; an allocation
    keeps it on any store with the laws of [WriteDB]. *)
From Stdlib Require String.
From S2P Require Import Prelude Storage Coding Codec DocList MergeOperator VirtualDB WriteDB VirtualDBMock.
From S2P Require Import Document Tokenizer DocumentWriter.

Section Sequences.
Context {DB B : Type} `{WriteLaws DB B}.
Context (table : TableID) (Htable : wf_table table).

Notation find db c k := (om_find bytes_cmp k (content db c)).
Notation meta_key := (EncodeSequenceMetaKey table []).
Notation user_key u := (EncodeSequenceMappingKey table u []).

(** ** The invariant *)
Record sequences_ok (db : DB) (n : Z) : Prop := {
  seq_range : is_u64 n;
  seq_max : find db kMetaColumn meta_key = Some (le_bytes 8 n) \/ (find db kMetaColumn meta_key = None /\ n = 0);
  seq_users u v : find db kMetaColumn (user_key u) = Some v -> exists s, v = le_bytes 8 s /\ 1 <= s <= n;
  seq_distinct u u' v : find db kMetaColumn (user_key u) = Some v -> find db kMetaColumn (user_key u') = Some v -> u = u'
}.

Lemma user_key_inj u u' : user_key u = user_key u' -> u = u'.
Proof. autorewrite with wws_keys. intros [_ E]%prefix_app_inj; try done. by injection E. Qed.

Lemma user_key_meta u : user_key u <> meta_key.
Proof. autorewrite with wws_keys. by intros [_ E]%prefix_app_inj. Qed.

Lemma le_bytes8_inj x y : is_u64 x -> is_u64 y -> le_bytes 8 x = le_bytes 8 y -> x = y.
Proof.
  unfold is_u64. intros Hx Hy E. apply (f_equal le_val) in E.
  by rewrite !le_val_le_bytes_small in E by (change (256 ^ Z.of_nat 8) with (2 ^ 64); lia).
Qed.

Lemma le_val8 x : is_u64 x -> le_val (le_bytes 8 x) = x.
Proof. unfold is_u64. intros. by rewrite le_val_le_bytes_small by (change (256 ^ Z.of_nat 8) with (2 ^ 64); lia). Qed.

(** ** Reading *)
Definition not_exist : SearchStatus := SetStatus kDocumentNotExistStatus String.EmptyString.

(** An item after its user was looked up. *)
Definition looked_up (db : DB) (item : AllocSequence) : AllocSequence :=
  match find db kMetaColumn (user_key (user_id item)) with
  | Some v => set_sequence item (le_val v)
  | None => set_seq_status item not_exist
  end.

Lemma read_sequences_spec db n l :
  db_wf db -> sequences_ok db n ->
  let r := map (fun item => Get db kMetaColumn (user_key (user_id item))) l in
  read_sequences l (map fst r) (map snd r) = (status_ok, map (looked_up db) l).
Proof.
  intros Hdb Hok. induction l as [|item l IH]; [done|]. cbn [map read_sequences] in *. rewrite IH.
  generalize (map (looked_up db) l). intros rest. unfold looked_up. rewrite Get_content by done.
  destruct (om_find bytes_cmp _ _) as [v|] eqn:E; cbn [fst snd]; [|done].
  destruct (seq_users db n Hok _ v E) as (s & -> & _). rewrite length_le_bytes. done.
Qed.

Lemma zip_with_map {A} (db : DB) (f : A -> bytes) (l : list A) :
  zip_with (fun c k => Get db c k) (map (fun _ => kMetaColumn) (map f l)) (map f l) =
  map (fun x => Get db kMetaColumn (f x)) l.
Proof. induction l as [|x l IH]; [done|]. cbn. by rewrite IH. Qed.

Lemma AcquireCurrentSequence_spec db n l :
  db_wf db -> sequences_ok db n ->
  AcquireCurrentSequence db table l = Some (status_ok, Some n, map (looked_up db) l).
Proof.
  intros Hdb Hok. unfold AcquireCurrentSequence, MultiGet. cbv zeta. cbn [map zip_with].
  rewrite zip_with_map. set (r := map (fun item => Get db kMetaColumn (user_key (user_id item))) l).
  assert (Hfind : List.find (fun s => negb (OK s) && negb (GetCode s =? kDocumentNotExistStatus))
                    ((Get db kMetaColumn meta_key).1 :: map fst r) = None).
  { destruct (List.find _ _) as [s|] eqn:E; [|done]. apply List.find_some in E as [Hin E]. exfalso. revert E.
    assert (exists k, s = (Get db kMetaColumn k).1) as [k ->].
    { destruct Hin as [<-|Hin]; [by eexists|]. apply in_map_iff in Hin as (x & <- & Hin). unfold r in Hin.
      apply in_map_iff in Hin as (i & <- & _). by eexists. }
    rewrite Get_content by done. by destruct (om_find _ _ _). }
  cbn [map] in Hfind |- *. rewrite Hfind. pose proof (read_sequences_spec db n l Hdb Hok) as Hrs. cbv zeta in Hrs. fold r in Hrs.
  rewrite Hrs. rewrite Get_content by done.
  destruct (seq_max db n Hok) as [-> |[-> ->]]; cbn [fst snd].
  - change (GetCode status_ok =? kDocumentNotExistStatus) with false. rewrite length_le_bytes. cbn [Nat.eqb negb].
    rewrite le_val8; [done|apply (seq_range db n Hok)].
  - done.
Qed.

(** ** Allocating *)
Definition is_new (item : AllocSequence) : bool := GetCode (seq_status item) =? kDocumentNotExistStatus.
Definition new_users (l : list AllocSequence) : list bytes := map user_id (List.filter is_new l).

(** What an item becomes when the new users get the numbers after [n]. *)
Definition allocated (us : list bytes) (n : Z) (item item' : AllocSequence) : Prop :=
  user_id item' = user_id item /\
  if is_new item then OK (seq_status item') = true /\
    exists j : nat, us !! j = Some (user_id item) /\ sequence item' = n + 1 + Z.of_nat j
  else item' = item.

Lemma allocated_shift u us n item item' :
  allocated us (n + 1) item item' -> allocated (u :: us) n item item'.
Proof.
  unfold allocated. destruct (is_new item); [|done]. intros (Hu & Hs & j & Hj & Hn). split; [done|]. split; [done|].
  exists (S j). split; [done|]. lia.
Qed.

Lemma alloc_sequences_spec l n b :
  wb_ok b -> NoDup (new_users l) -> 0 <= n -> n + Z.of_nat (length l) < 2 ^ 64 ->
  exists s l' n' b', alloc_sequences table l n b = (s, l', n', b') /\ wb_ok b' /\
    (OK s = true ->
     n' = n + Z.of_nat (length (new_users l)) /\ Forall2 (allocated (new_users l) n) l l' /\
     (forall j u, new_users l !! j = Some u ->
        pend b' kMetaColumn (user_key u) = PPut (le_bytes 8 (n + 1 + Z.of_nat j))) /\
     (forall c k, (c = kMetaColumn -> forall u, u ∈ new_users l -> k <> user_key u) -> pend b' c k = pend b c k)).
Proof.
  revert n b. induction l as [|item l IH]; intros n b Hb Hnd Hn Hlt.
  { exists status_ok, [], n, b. split; [done|]. split; [done|]. intros _. split; [cbn; lia|]. by split; [constructor|]. }
  cbn [alloc_sequences]. unfold new_users in *. cbn [List.filter length] in *. fold (is_new item).
  destruct (is_new item) eqn:En; cbn [map] in *.
  - assert (Eu : u64 (n + 1) = n + 1) by (apply u64_id; unfold is_u64; lia). rewrite Eu.
    apply NoDup_cons in Hnd as [Hni Hnd].
    destruct (Put_law b kMetaColumn (user_key (user_id item)) (le_bytes 8 (n + 1)) Hb) as [Hb1 Hp].
    destruct (Put b kMetaColumn (user_key (user_id item)) (le_bytes 8 (n + 1))) as [s1 b1] eqn:EP.
    cbn [fst snd user_id sequence] in *. rewrite EP.
    destruct (OK s1) eqn:Es; cbn [negb]; [|eexists s1, _, _, b1; split; [done|]; split; [done|]; congruence].
    specialize (Hp eq_refl).
    destruct (IH (n + 1) b1 Hb1 Hnd) as (s & l' & n' & b' & -> & Hb' & Hr); [lia|lia|].
    eexists s, _, n', b'. split; [done|]. split; [done|]. intros Hs. destruct (Hr Hs) as (-> & HF & Hnew & Hsame).
    split; [cbn [length]; lia|]. split.
    + constructor.
      * unfold allocated. rewrite En. split; [done|]. split; [done|]. exists 0%nat. split; [done|]. cbn [sequence]. lia.
      * eapply Forall2_impl; [exact HF|]. intros. by apply allocated_shift.
    + split.
      * intros [|j] u Hj; cbn in Hj.
        -- injection Hj as <-. rewrite Hsame, Hp, decide_True by
             (done || (intros _ u Hu E; apply user_key_inj in E as <-; by apply Hni)). do 2 f_equal. lia.
        -- rewrite (Hnew j u Hj). do 2 f_equal. lia.
      * intros c k Hk. rewrite Hsame by (intros Hc u Hu; apply Hk; [done|by right]). rewrite Hp, decide_False; [done|].
        intros [-> ->]. by apply (Hk eq_refl (user_id item)); [left|].
  - destruct (IH n b Hb Hnd) as (s & l' & n' & b' & -> & Hb' & Hr); [lia|lia|].
    eexists s, _, n', b'. split; [done|]. split; [done|]. intros Hs. destruct (Hr Hs) as (-> & HF & Hnew & Hsame).
    split; [done|]. split; [|done]. constructor; [|done]. unfold allocated. by rewrite En.
Qed.

(** What an allocation promises for an item: the number of a known user, or a
    number above all given before, and the store remembers it. *)
Definition acquired (db db' : DB) (n : Z) (item item' : AllocSequence) : Prop :=
  let k := user_key (user_id item) in
  user_id item' = user_id item /\ OK (seq_status item') = true /\
  find db' kMetaColumn k = Some (le_bytes 8 (sequence item')) /\
  match find db kMetaColumn k with Some v => v = le_bytes 8 (sequence item') | None => n < sequence item' end.

(** Everything but the meta column, and every key there but the ones written. *)
Definition untouched (db db' : DB) (l : list AllocSequence) : Prop :=
  forall c k, (c = kMetaColumn -> k <> meta_key /\ forall item, item ∈ l -> k <> user_key (user_id item)) ->
    find db' c k = find db c k.

Lemma new_users_missing db l :
  Forall (fun item => OK (seq_status item) = true) l ->
  Forall (fun item => is_new (looked_up db item) = bool_decide (find db kMetaColumn (user_key (user_id item)) = None)) l.
Proof.
  intros Hst. eapply Forall_impl; [exact Hst|]. intros item Hs. unfold looked_up, is_new.
  destruct (om_find _ _ _); [|done]. cbn. unfold OK, GetCode in *. apply Z.eqb_eq in Hs. by rewrite Hs.
Qed.

Lemma user_id_looked_up db item : user_id (looked_up db item) = user_id item.
Proof. unfold looked_up. by destruct (om_find _ _ _). Qed.

Lemma elem_new_users db l u :
  u ∈ new_users (map (looked_up db) l) -> exists item, item ∈ l /\ user_id item = u /\ is_new (looked_up db item) = true.
Proof.
  unfold new_users. intros (x & -> & Hx)%list_elem_of_fmap. apply list_elem_of_In, filter_In in Hx as [Hx Hn].
  apply in_map_iff in Hx as (item & <- & Hin). exists item. split; [by apply list_elem_of_In|].
  by rewrite user_id_looked_up.
Qed.

Lemma NoDup_new_users db l : NoDup (map user_id l) -> NoDup (new_users (map (looked_up db) l)).
Proof.
  unfold new_users. induction l as [|item l IH]; cbn [map List.filter]; [done|].
  intros [Hni Hnd]%NoDup_cons. destruct (is_new _); [|by apply IH]. cbn [map]. apply NoDup_cons. split; [|by apply IH].
  rewrite user_id_looked_up. intros (it & Hin & E & _)%elem_new_users. apply Hni. rewrite <- E.
  by apply (list_elem_of_fmap_2 user_id).
Qed.

Section Flushed.
Context (db db' : DB) (n : Z) (l l' : list AllocSequence).
Notation us := (new_users (map (looked_up db) l)).
Context (Hok : sequences_ok db n) (Hst : Forall (fun item => OK (seq_status item) = true) l).
Context (Hnd : NoDup (map user_id l)) (Hlt : n + Z.of_nat (length l) < 2 ^ 64).
Context (HF : Forall2 (allocated us n) (map (looked_up db) l) l').
Context (Hnew : forall j u, us !! j = Some u -> find db' kMetaColumn (user_key u) = Some (le_bytes 8 (n + 1 + Z.of_nat j))).
Context (Hmeta : find db' kMetaColumn meta_key = Some (le_bytes 8 (n + Z.of_nat (length us))) \/
  (us = [] /\ find db' kMetaColumn meta_key = find db kMetaColumn meta_key)).
Context (Hsame : forall c k, (c = kMetaColumn -> k <> meta_key /\ forall u, u ∈ us -> k <> user_key u) ->
  find db' c k = find db c k).

Lemma us_length : (length us <= length l)%nat.
Proof.
  unfold new_users. rewrite length_map. etransitivity; [apply List.filter_length_le|]. by rewrite length_map.
Qed.

Lemma us_missing u : u ∈ us -> find db kMetaColumn (user_key u) = None.
Proof.
  intros (item & Hin & <- & Hn)%elem_new_users. pose proof (new_users_missing db l Hst) as Hm.
  rewrite Forall_forall in Hm. rewrite (Hm item Hin) in Hn. by apply bool_decide_eq_true in Hn.
Qed.

(** A user of the new store is an old one or one of the allocated. *)
Lemma user_cases u v : find db' kMetaColumn (user_key u) = Some v ->
  (find db kMetaColumn (user_key u) = Some v /\ u ∉ us) \/
  exists j, us !! j = Some u /\ v = le_bytes 8 (n + 1 + Z.of_nat j).
Proof.
  intros Hv. destruct (decide (u ∈ us)) as [Hu|Hu].
  - right. apply list_elem_of_lookup in Hu as [j Hj]. exists j. split; [done|]. rewrite (Hnew j u Hj) in Hv. congruence.
  - left. split; [|done]. rewrite <- Hsame; [done|]. intros _. split; [apply user_key_meta|].
    intros u' Hu' E. apply user_key_inj in E as ->. done.
Qed.

Lemma flushed_ok : sequences_ok db' (n + Z.of_nat (length us)).
Proof.
  destruct Hok as [Hr Hm Hu Hd]. pose proof us_length as Hlen. unfold is_u64 in *. split.
  - unfold is_u64. lia.
  - destruct Hmeta as [->|[E ->]]; [by left|]. rewrite E. cbn. rewrite Z.add_0_r. exact Hm.
  - intros u v [[Hv _]|(j & Hj & ->)]%user_cases.
    + destruct (Hu u v Hv) as (s & -> & Hs). exists s. split; [done|]. lia.
    + apply lookup_lt_Some in Hj. eexists. split; [done|]. lia.
  - intros u u' v Hv Hv'. apply user_cases in Hv as [[Hv _]|(j & Hj & Ev)].
    + apply user_cases in Hv' as [[Hv' _]|(j & Hj & Ev)]; [by eapply Hd|]. exfalso.
      destruct (Hu u v Hv) as (s & -> & Hs). apply lookup_lt_Some in Hj.
      apply le_bytes8_inj in Ev; unfold is_u64; lia.
    + pose proof (lookup_lt_Some _ _ _ Hj) as Hjl. apply user_cases in Hv' as [[Hv' _]|(j' & Hj' & Ev')].
      * destruct (Hu u' v Hv') as (s & Ev' & Hs). exfalso. rewrite Ev in Ev'. apply le_bytes8_inj in Ev'; unfold is_u64; lia.
      * pose proof (lookup_lt_Some _ _ _ Hj') as Hjl'. rewrite Ev in Ev'. apply le_bytes8_inj in Ev'; [|unfold is_u64; lia..].
        assert (j = j') as -> by lia. congruence.
Qed.

Lemma flushed_items : Forall2 (acquired db db' n) l l'.
Proof.
  assert (Hall : Forall2 (fun item item' => item ∈ l /\ allocated us n (looked_up db item) item') l l').
  { revert HF. generalize us. intros vs. clear. revert l'. induction l as [|x k IH]; intros l' HF.
    - inversion HF. constructor.
    - cbn [map] in HF. apply Forall2_cons_inv_l in HF as (y & k' & Hy & HF & ->).
      constructor; [split; [by left|done]|]. eapply Forall2_impl; [by apply IH|]. intros a b' [? ?]. split; [by right|done]. }
  eapply Forall2_impl; [exact Hall|]. intros item item' [Hin Ha]. unfold allocated in Ha.
  rewrite user_id_looked_up in Ha. destruct Ha as [Hid Ha]. unfold acquired. split; [done|].
  pose proof (new_users_missing db l Hst) as Hm. rewrite Forall_forall in Hm. rewrite (Hm item Hin) in Ha.
  destruct (bool_decide (find db kMetaColumn (user_key (user_id item)) = None)) eqn:Eb.
  - apply bool_decide_eq_true in Eb. destruct Ha as (Hs & j & Hj & Hq). split; [done|].
    rewrite Eb, Hq. split; [by apply Hnew|]. lia.
  - apply bool_decide_eq_false in Eb. subst item'. unfold looked_up.
    destruct (find db kMetaColumn (user_key (user_id item))) as [v|] eqn:Ev; [|done].
    pose proof Hst as Hst'. rewrite Forall_forall in Hst'. split; [by apply (Hst' item Hin)|].
    destruct (seq_users db n Hok _ v Ev) as (s & -> & Hs). cbn [sequence set_sequence].
    pose proof (seq_range db n Hok) as Hr. rewrite le_val8 by (unfold is_u64 in *; lia). split; [|done]. rewrite <- Ev.
    apply Hsame. intros _. split; [apply user_key_meta|]. intros u Hu E. apply user_key_inj in E as <-.
    by rewrite us_missing in Ev.
Qed.

Lemma flushed_untouched : untouched db db' l.
Proof.
  intros c k Hk. apply Hsame. intros Hc. destruct (Hk Hc) as [Hm Hi]. split; [done|].
  intros u (item & Hin & <- & _)%elem_new_users. by apply Hi.
Qed.
End Flushed.

Lemma acquire_spec db n l :
  db_wf db -> sequences_ok db n -> NoDup (map user_id l) ->
  Forall (fun item => OK (seq_status item) = true) l -> n + Z.of_nat (length l) < 2 ^ 64 ->
  exists s db' l', AcquireNewSequence db table l None = Some (s, db', l', None) /\ db_wf db' /\
    if OK s then Forall2 (acquired db db' n) l l' /\ untouched db db' l /\
      exists n', sequences_ok db' n' /\ n <= n' <= n + Z.of_nat (length l)
    else forall c, content db' c = content db c.
Proof.
  intros Hdb Hok Hnd Hst Hlt. unfold AcquireNewSequence. rewrite (AcquireCurrentSequence_spec db n l Hdb Hok).
  cbn [mbind option_bind]. change (OK status_ok) with true. cbn [negb].
  destruct new_buffer_ok as [Hb0 Hp0]. pose proof (seq_range db n Hok) as Hr. unfold is_u64 in Hr.
  set (us := new_users (map (looked_up db) l)).
  assert (Hus : (length us <= length l)%nat) by apply us_length.
  destruct (alloc_sequences_spec (map (looked_up db) l) n (NewWriteBuffer (DB := DB) None))
    as (s & l' & n' & b & Ea & Hb & Hres); [done|by apply NoDup_new_users|lia|by rewrite length_map|].
  cbn [open_buffer]. rewrite Ea. destruct (OK s) eqn:Es; cbn [negb];
    [|eexists s, db, _; split; [done|]; split; [done|]; by rewrite Es].
  destruct (Hres eq_refl) as (-> & HF & Hnew & Hsame). fold us in HF, Hnew, Hsame |- *.
  destruct (Z.eqb_spec (n + Z.of_nat (length us)) n) as [E|E]; cbn [negb].
  { eexists s, db, _. split; [done|]. split; [done|]. rewrite Es.
    assert (Hnil : us = []) by (destruct us; [done|cbn in E; lia]).
    assert (Hno : forall j u, us !! j = Some u -> find db kMetaColumn (user_key u) = Some (le_bytes 8 (n + 1 + Z.of_nat j)))
      by (rewrite Hnil; done).
    split; [by apply (flushed_items db db n l l')|]. split; [by intros c k|]. exists n. split; [done|]. lia. }
  destruct (Put_law b kMetaColumn meta_key (le_bytes 8 (n + Z.of_nat (length us))) Hb) as [Hb2 Hp2].
  destruct (Put b kMetaColumn meta_key _) as [s2 b2]. cbn [fst snd] in *. destruct (OK s2) eqn:Es2; cbn [negb];
    [|eexists s2, db, _; split; [done|]; split; [done|]; by rewrite Es2].
  specialize (Hp2 eq_refl).
  assert (Hpend : forall c k, pend b2 c k =
    if decide (c = kMetaColumn /\ k = meta_key) then PPut (le_bytes 8 (n + Z.of_nat (length us))) else pend b c k) by done.
  destruct (Flush_law db b2 Hdb Hb2) as (s3 & db' & b3 & -> & Hdb' & Hf).
  { intros k lst Hk. rewrite Hpend, decide_False in Hk by (by intros []).
    rewrite Hsame, Hp0 in Hk by done. done. }
  cbn [mbind option_bind]. eexists s3, db', _. split; [done|]. split; [done|]. destruct (OK s3); [|done].
  assert (Hnew' : forall j u, us !! j = Some u -> find db' kMetaColumn (user_key u) = Some (le_bytes 8 (n + 1 + Z.of_nat j))).
  { intros j u Hj. specialize (Hf kMetaColumn (user_key u)). rewrite Hpend, decide_False in Hf by
      (intros [_ ?]; by apply (user_key_meta u)). by rewrite (Hnew j u Hj) in Hf. }
  assert (Hmeta' : find db' kMetaColumn meta_key = Some (le_bytes 8 (n + Z.of_nat (length us)))).
  { specialize (Hf kMetaColumn meta_key). by rewrite Hpend, decide_True in Hf by done. }
  assert (Hsame' : forall c k, (c = kMetaColumn -> k <> meta_key /\ forall u, u ∈ us -> k <> user_key u) ->
    find db' c k = find db c k).
  { intros c k Hk. specialize (Hf c k). rewrite Hpend, decide_False in Hf by (intros [-> ->]; by apply (Hk eq_refl)).
    rewrite Hsame, Hp0 in Hf by (intros -> u Hu; by apply (Hk eq_refl)). done. }
  split; [by apply (flushed_items db db' n l l')|]. split; [by apply (flushed_untouched db db' l)|].
  exists (n + Z.of_nat (length us)). split; [|lia]. apply (flushed_ok db db' n l); try done. by left.
Qed.
End Sequences.

(** ** Theorems *)

(** C31: allocating sequences is safe.  Every request with distinct users and
    room below 2^64 is answered.  When it succeeds, a known user gets its old
    number, a new one a number above all given before, the store remembers all
    of them, nothing else changes, and the numbers of the table stay distinct
    and bounded by the stored maximum; when it fails, the store is as it
    was. *)
Theorem AcquireNewSequence_safe {DB B} `{WriteLaws DB B} table db n l :
  wf_table table -> db_wf db -> sequences_ok table db n -> NoDup (map user_id l) ->
  Forall (fun item => OK (seq_status item) = true) l -> n + Z.of_nat (length l) < 2 ^ 64 ->
  exists s db' l', AcquireNewSequence db table l None = Some (s, db', l', None) /\ db_wf db' /\
    if OK s then Forall2 (acquired table db db' n) l l' /\ untouched table db db' l /\
      exists n', sequences_ok table db' n' /\ n <= n' <= n + Z.of_nat (length l)
    else forall c, content db' c = content db c.
Proof. intros Htable. by apply acquire_spec. Qed.

(** A store on which one user, "u", has the number 7. *)
Definition sequence_table : TableID := mkTable 1 2.

Definition sequence_db : MockDB :=
  [(column_num kMetaColumn,
    [(EncodeSequenceMetaKey sequence_table [], le_bytes 8 7);
     (EncodeSequenceMappingKey sequence_table [117] [], le_bytes 8 7)])].

Definition sequence_request : list AllocSequence :=
  map (fun u => mkSequence u 0 status_ok) [[117]; [118]; [119; 119]].

#[local] Existing Instances number_proto number_proto_laws.
#[local] Instance sequence_write_buffer : WriteBuffer WriteBufferMock := mock_write_buffer DocListCompressionFixType.
#[local] Instance sequence_write_db : WriteDB MockDB WriteBufferMock := mock_write_db DocListCompressionFixType.

Lemma sequence_proto_total l : @SerializeToString number_proto l <> None.
Proof. discriminate. Qed.

#[local] Instance sequence_write_laws : WriteLaws MockDB WriteBufferMock :=
  mock_write_laws DocListCompressionFixType sequence_proto_total.

Lemma sequence_table_wf : wf_table sequence_table.
Proof. split; [cbv; split; congruence|]. unfold is_u64. cbv. split; congruence. Qed.

Lemma sequence_db_users u v :
  om_find bytes_cmp (EncodeSequenceMappingKey sequence_table u []) (content sequence_db kMetaColumn) = Some v ->
  u = [117] /\ v = le_bytes 8 7.
Proof.
  intros E. apply (om_find_in bytes_cmp) in E.
  change (content sequence_db kMetaColumn) with
    [(EncodeSequenceMetaKey sequence_table [], le_bytes 8 7);
     (EncodeSequenceMappingKey sequence_table [117] [], le_bytes 8 7)] in E.
  apply elem_of_cons in E as [E|E]; [|apply list_elem_of_singleton in E].
  - exfalso. apply (user_key_meta sequence_table sequence_table_wf u). exact (f_equal fst E).
  - split; [|exact (f_equal snd E)]. apply (user_key_inj sequence_table sequence_table_wf). exact (f_equal fst E).
Qed.

Lemma AcquireNewSequence_safe_witness :
  exists s db' l', AcquireNewSequence sequence_db sequence_table sequence_request None = Some (s, db', l', None) /\
    db_wf db'.
Proof.
  destruct (AcquireNewSequence_safe (B := WriteBufferMock) sequence_table sequence_db 7 sequence_request)
    as (s & db' & l' & E & Hwf & _).
  - exact sequence_table_wf.
  - split; [repeat constructor|]. apply Forall_cons; split; [|constructor]. vm_compute. repeat constructor.
  - split.
    + unfold is_u64. lia.
    + left. reflexivity.
    + intros u v [-> ->]%sequence_db_users. exists 7. split; [done|lia].
    + intros u u' v [-> _]%sequence_db_users [-> _]%sequence_db_users. done.
  - apply (bool_decide_unpack _). vm_compute. done.
  - repeat constructor.
  - simpl. lia.
  - exists s, db', l'. split; [exact E|exact Hwf].
Defined.
