(* ===== verification/Maintenance.v ===== *)
(** Removing the data of a table: [DocumentWriter::DropTable] by key ranges and
    [IndexWriter::DeleteTableData] in steps.

    What a drop asks of the store is read off a buffer that records its
    operations ([recording]); which keys that covers is then a question about
    the key order.  The stepwise deletion is followed on any store with the
    laws of [WriteDB]. *)
From Stdlib Require String.
From S2P Require Import Prelude Storage Coding Codec DocList MergeOperator VirtualDB WriteDB VirtualDBMock.
From S2P Require Import Document Tokenizer DocumentWriter IndexWriter.

(** ** A buffer that records what is removed *)
Record recording := mkRecording {
  rec_keys : list (StorageColumnType * bytes);
  rec_ranges : list (StorageColumnType * bytes * bytes) }.

#[local] Instance recording_db : VirtualDB recording := {
  Get _ _ _ := (SetStatus kDocumentNotExistStatus String.EmptyString, []);
  Seek _ _ _ := [] }.

#[local] Instance recording_buffer : WriteBuffer recording := {
  Put b _ _ _ := (status_ok, b);
  Delete b c k := (status_ok, mkRecording (rec_keys b ++ [(c, k)]) (rec_ranges b));
  DeleteRange b c k k' := (status_ok, mkRecording (rec_keys b) (rec_ranges b ++ [(c, k, k')]));
  Merge b _ _ _ := Some (status_ok, b);
  Data b := ([], b);
  DataSize _ := 0 }.

#[local] Instance recording_write : WriteDB recording recording := {
  NewWriteBuffer _ := mkRecording [] [];
  FlushBuffer _ b := Some (status_ok, b, b) }.

(** What [DropTable] asks of an empty store. *)
Definition dropped (table : TableID) : option (SearchStatus * recording * option bytes) :=
  DropTable (mkRecording [] []) table None.

(** A key is removed by itself or lies in a removed range, the end excluded. *)
Definition removed (r : recording) (c : StorageColumnType) (k : bytes) : Prop :=
  (c, k) ∈ rec_keys r \/ exists b e, (c, b, e) ∈ rec_ranges r /\ in_range b e k = true.

(** ** Ranges of keys *)
Lemma in_range_spec b e k : in_range b e k = true <-> bytes_cmp k b <> Lt /\ bytes_cmp k e = Lt.
Proof. unfold in_range. destruct (bytes_cmp k b), (bytes_cmp k e); naive_solver. Qed.

Lemma in_range_table t t' b e r :
  wf_table t -> wf_table t' ->
  in_range (table_prefix t ++ b) (table_prefix t ++ e) (table_prefix t' ++ r) = true <->
  t' = t /\ in_range b e r = true.
Proof.
  intros Ht Ht'. rewrite !in_range_spec, !bytes_cmp_app by done.
  destruct (bytes_cmp (table_prefix t') (table_prefix t)) eqn:E.
  - apply bytes_cmp_eq in E. apply table_prefix_inj in E; [|done..]. naive_solver.
  - split; [by intros [? _]|]. intros [-> _]. by rewrite bytes_cmp_refl in E.
  - split; [by intros [_ ?]|]. intros [-> _]. by rewrite bytes_cmp_refl in E.
Qed.

Lemma in_range_ids d : is_u64 d ->
  in_range (be_bytes 8 0) (be_bytes 8 UINT64_MAX) (be_bytes 8 d) = true <-> d <> UINT64_MAX.
Proof.
  unfold is_u64, UINT64_MAX. intros Hd. rewrite in_range_spec, !bytes_cmp_be
    by (change (256 ^ Z.of_nat 8) with (2 ^ 64); lia).
  destruct (Z.compare_spec d 0), (Z.compare_spec d (2 ^ 64 - 1)); naive_solver lia.
Qed.

Lemma in_range_terms f term : is_byte f ->
  in_range [0] (UINT8_MAX :: max_term) (f :: term) = true <->
  f < UINT8_MAX \/ (f = UINT8_MAX /\ bytes_cmp term max_term = Lt).
Proof.
  unfold is_byte. change UINT8_MAX with 255. intros Hf. rewrite in_range_spec. cbn [bytes_cmp].
  assert (Hge : (match Z.compare f 0 with Eq => bytes_cmp term [] | r => r end) <> Lt)
    by (destruct (Z.compare_spec f 0); [by destruct term|lia|done]).
  destruct (Z.compare_spec f 255) as [->|?|?]; [|split; [intros _; by left|intros _; split; [exact Hge|done]]|lia].
  split; [intros [_ ?]; by right|]. intros [?|[_ ?]]; [lia|done].
Qed.

(** A term of fewer than 256 bytes lies below [max_term]. *)
Lemma short_term_below n term :
  wf_bytes term -> (length term < n)%nat -> bytes_cmp term (repeat 255 n) = Lt.
Proof.
  intros Hw. revert n. induction Hw as [|x l Hx _ IH]; intros [|n] Hn; simpl in *; try lia; [done|].
  unfold is_byte in Hx. destruct (Z.compare_spec x 255); [apply IH; lia|done|lia].
Qed.

Lemma dropped_eq table : wf_table table ->
  dropped table = Some (status_ok, mkRecording [(kMetaColumn, table_prefix table)]
    [(kStoredFieldColumn, table_prefix table ++ be_bytes 8 0, table_prefix table ++ be_bytes 8 UINT64_MAX);
     (kInvertedIndexColumn, table_prefix table ++ [0], table_prefix table ++ UINT8_MAX :: max_term);
     (kDocValueColumn, table_prefix table ++ be_bytes 8 0, table_prefix table ++ be_bytes 8 UINT64_MAX)], None).
Proof.
  intros Ht. unfold dropped, DropTable. cbn [drop_steps].
  unfold WriteStoreFieldForDropTable, WriteInvertedIndexForDropTable, WriteDocvalueForDropTable,
    WriteTableMetaForDropTable, WriteDictionaryMetaForDropTable.
  rewrite !EncodeStoredFieldKey_spec, !EncodeInvertedKey_spec, EncodeMetaKey_spec
    by (done || (unfold is_u64, is_byte, UINT64_MAX, UINT8_MAX; lia)).
  reflexivity.
Qed.

Lemma dropped_id table c id r s o :
  c = kStoredFieldColumn \/ c = kDocValueColumn -> wf_table table -> is_u64 id ->
  dropped table = Some (s, r, o) -> forall table', wf_table table' ->
  removed r c (EncodeStoredFieldKey table' id []) <-> table' = table /\ id <> UINT64_MAX.
Proof.
  intros Hc Ht Hid E table' Ht'. rewrite dropped_eq in E by done. injection E as _ <- _.
  rewrite EncodeStoredFieldKey_spec by done.
  rewrite <- (in_range_ids id Hid), <- in_range_table by done. unfold removed. cbn [rec_keys rec_ranges]. split.
  - intros [Hin|(b & e & Hin & Hr)].
    + apply list_elem_of_singleton in Hin. apply (f_equal fst) in Hin. cbn in Hin. subst c. by destruct Hc.
    + assert (Hbe : c <> kInvertedIndexColumn) by (by destruct Hc as [-> | ->]).
      apply elem_of_cons in Hin as [Hin|Hin]; [|apply elem_of_cons in Hin as [Hin|Hin]];
        [| |apply list_elem_of_singleton in Hin].
      2: by apply (f_equal (fun x => x.1.1)) in Hin.
      all: pose proof (f_equal (fun x => x.1.2) Hin) as Eb; pose proof (f_equal snd Hin) as Ee; cbn in Eb, Ee; by subst.
  - intros Hr. right. do 2 eexists. split; [|exact Hr]. destruct Hc as [-> | ->]; [by left|by right; right; left].
Qed.

(** ** Deleting in steps *)
Section DeleteTableData.
Context {DB B : Type} `{WriteLaws DB B}.
Context (table : TableID) (column : StorageColumnType).

Notation find db c k := (om_find bytes_cmp k (content db c)).
Notation prefix := (EncodeMetaKey table []).

(** The entries a call removes: the first [max_len] of the table from the
    start key on. *)
Definition victims (db : DB) (start_key : bytes) (max_len : nat) : list (bytes * bytes) :=
  take max_len (with_prefix prefix
    (om_lower_bound bytes_cmp (match start_key with [] => prefix | _ => start_key end) (content db column))).

Lemma delete_loop_spec entries max_len st b last_key :
  wb_ok b -> OK st = true -> Forall (fun e => (length prefix <= length e.1)%nat) entries ->
  exists s b' k, delete_loop entries max_len prefix column st b last_key = (s, b', k) /\ wb_ok b' /\
    (OK s = true ->
     k = default last_key (last (map fst (take max_len (take_prefix prefix entries)))) /\
     forall c' k', pend b' c' k' =
       if decide (c' = column /\ k' ∈ map fst (take max_len (take_prefix prefix entries))) then PDelete else pend b c' k').
Proof.
  revert max_len st b last_key. induction entries as [|[k v] entries IH]; intros [|max_len] st b last_key Hb Hst Hlen;
    cbn [delete_loop take_prefix take map fst].
  1-3: (exists st, b, last_key; split; [done|]; split; [done|]; intros _; split; [by rewrite ?take_nil|];
        intros c' k'; rewrite ?take_nil; cbn [map]; rewrite decide_False by (intros [_ Hk]; by apply elem_of_nil in Hk); done).
  apply Forall_cons in Hlen as [Hk Hlen]. cbn [fst] in Hk. rewrite bool_decide_false by lia.
  destruct (starts_with prefix k) eqn:Ep; cbn [negb].
  2:{ exists st, b, last_key. split; [done|]. split; [done|]. intros _. cbn [map]. split; [done|]. intros c' k'.
      rewrite decide_False by (intros [_ Hin]; by apply elem_of_nil in Hin). done. }
  destruct (Delete_law b column k Hb) as [Hb1 Hp]. destruct (Delete b column k) as [s1 b1]. cbn [fst snd] in *.
  destruct (OK s1) eqn:Es; [|exists s1, b1, k; split; [done|]; split; [done|]; congruence].
  specialize (Hp eq_refl).
  destruct (IH max_len s1 b1 k Hb1 Es Hlen) as (s & b' & k2 & -> & Hb' & Hr).
  exists s, b', k2. split; [done|]. split; [done|]. intros E. destruct (Hr E) as [-> Hpend]. cbn [take map fst].
  set (l := map fst (take max_len (take_prefix prefix entries))) in *. split.
  - rewrite last_cons. by destruct (last l).
  - intros c' k'. rewrite Hpend, Hp. destruct (decide (c' = column /\ k' ∈ l)) as [[-> Hin]|Hn].
    + by rewrite decide_True by (split; [done|by right]).
    + destruct (decide (c' = column /\ k' = k)) as [[-> ->]|Hn2].
      * by rewrite decide_True by (split; [done|by left]).
      * rewrite decide_False; [done|]. intros [-> [->|Hin]%elem_of_cons]; [by apply Hn2|by apply Hn].
Qed.

Lemma DeleteTableData_spec db start_key max_len :
  db_wf db -> (1 < max_len)%nat ->
  Forall (fun e => (length prefix <= length e.1)%nat) (content db column) ->
  (start_key = [] \/ starts_with prefix start_key = true) ->
  exists s db' k, DeleteTableData db table column start_key max_len = Some (s, db', k) /\ db_wf db' /\
    if OK s then k = default [] (last (map fst (victims db start_key max_len))) /\
      forall c' k', find db' c' k' =
        if decide (c' = column /\ k' ∈ map fst (victims db start_key max_len)) then None else find db c' k'
    else k = start_key /\ forall c', content db' c' = content db c'.
Proof.
  intros Hdb Hmax Hlen Hstart. unfold DeleteTableData. rewrite bool_decide_false by lia. cbv zeta.
  rewrite Seek_content by done. set (from := match start_key with [] => prefix | _ => start_key end).
  set (entries := om_lower_bound bytes_cmp from (content db column)).
  pose proof (content_sorted db column Hdb) as Hs.
  assert (Hfrom : starts_with prefix from = true).
  { unfold from. destruct Hstart as [->|Hst]; [|by destruct start_key].
    apply starts_with_spec. exists []. by rewrite app_nil_r. }
  assert (Htp : take_prefix prefix entries = with_prefix prefix entries)
    by (by apply take_prefix_from).
  destruct new_buffer_ok as [Hb0 Hp0].
  destruct (delete_loop_spec entries max_len status_ok (NewWriteBuffer (DB := DB) None) []) as (s & b & k & -> & Hb & Hr).
  { done. } { done. }
  { apply Forall_forall. intros [k v] Hin. apply (om_lower_bound_spec bytes_cmp) in Hin as [Hin _]; [|done].
    rewrite Forall_forall in Hlen. by apply (Hlen (k, v)). }
  change (OK status_ok) with true in *. destruct (OK s) eqn:Es.
  2:{ exists s, db, start_key. split; [done|]. split; [done|]. by rewrite Es. }
  destruct (Hr eq_refl) as [-> Hpend]. rewrite Htp in Hpend |- *. fold (victims db start_key max_len) in Hpend |- *.
  destruct (Flush_law db b Hdb Hb) as (s2 & db' & b2 & -> & Hdb' & Hf).
  { intros k lst Hk. rewrite Hpend, Hp0 in Hk. by destruct (decide _). }
  cbn [mbind option_bind]. eexists s2, db', _. split; [done|]. split; [done|].
  destruct (OK s2); [|done]. split; [done|]. intros c' k'. specialize (Hf c' k'). rewrite Hpend, Hp0 in Hf.
  by destruct (decide _).
Qed.
End DeleteTableData.

(** ** Theorems *)

(** C32: dropping a table removes, in each column, the keys of that table and no
    key of another one: every stored document and doc value except those of
    the id 2^64-1, every posting list except those of field 255 under a term
    that starts with 256 bytes 255, so those of all terms shorter than 256
    bytes; of the meta column only the key of the table, the sequences
    stay. *)
Theorem DropTable_covers table table' id f term :
  wf_table table -> wf_table table' -> is_u64 id -> is_byte f ->
  exists r, dropped table = Some (status_ok, r, None) /\
    (forall c, c = kStoredFieldColumn \/ c = kDocValueColumn ->
       removed r c (EncodeStoredFieldKey table' id []) <-> table' = table /\ id <> UINT64_MAX) /\
    (removed r kInvertedIndexColumn (EncodeInvertedKey table' f term []) <->
       table' = table /\ (f < UINT8_MAX \/ bytes_cmp term max_term = Lt)) /\
    (wf_bytes term -> (length term < 256)%nat -> removed r kInvertedIndexColumn (EncodeInvertedKey table f term [])) /\
    (forall k, removed r kMetaColumn k <-> k = EncodeMetaKey table []).
Proof.
  intros Ht Ht' Hid Hf. pose proof (dropped_eq table Ht) as E. eexists. split; [exact E|].
  assert (Hinv : forall t', wf_table t' ->
    removed (mkRecording [(kMetaColumn, table_prefix table)]
      [(kStoredFieldColumn, table_prefix table ++ be_bytes 8 0, table_prefix table ++ be_bytes 8 UINT64_MAX);
       (kInvertedIndexColumn, table_prefix table ++ [0], table_prefix table ++ UINT8_MAX :: max_term);
       (kDocValueColumn, table_prefix table ++ be_bytes 8 0, table_prefix table ++ be_bytes 8 UINT64_MAX)])
      kInvertedIndexColumn (EncodeInvertedKey t' f term []) <->
    t' = table /\ (f < UINT8_MAX \/ bytes_cmp term max_term = Lt)).
  { intros t' Hwt. rewrite EncodeInvertedKey_spec by done.
    assert (Hor : (f < UINT8_MAX \/ bytes_cmp term max_term = Lt) <->
      (f < UINT8_MAX \/ f = UINT8_MAX /\ bytes_cmp term max_term = Lt))
      by (unfold is_byte in Hf; change UINT8_MAX with 255; split; intros [?|?]; try tauto;
          destruct (decide (f = 255)); [by right|left; lia]).
    rewrite Hor, <- (in_range_terms f term Hf), <- in_range_table by done. unfold removed. cbn [rec_keys rec_ranges]. split.
    - intros [Hin|(b & e & Hin & Hr)].
      + apply list_elem_of_singleton in Hin. by apply (f_equal fst) in Hin.
      + apply elem_of_cons in Hin as [Hin|Hin]; [|apply elem_of_cons in Hin as [Hin|Hin]];
          [| |apply list_elem_of_singleton in Hin].
        1, 3: by apply (f_equal (fun x => x.1.1)) in Hin.
        pose proof (f_equal (fun x => x.1.2) Hin) as Eb. pose proof (f_equal snd Hin) as Ee. cbn [fst snd] in Eb, Ee.
        by subst.
    - intros Hr. right. do 2 eexists. split; [by right; left|exact Hr]. }
  split; [intros c Hc; by apply (dropped_id table c id _ _ _ Hc Ht Hid E)|]. split; [by apply Hinv|]. split.
  - intros Hw Hlen. apply Hinv; [done|]. split; [done|]. right. by apply (short_term_below 256).
  - intros k. rewrite EncodeMetaKey_spec by done. unfold removed. cbn [rec_keys rec_ranges]. split.
    + intros [Hin|(b & e & Hin & _)].
      * apply list_elem_of_singleton in Hin. exact (f_equal snd Hin).
      * exfalso. repeat (apply elem_of_cons in Hin as [Hin|Hin]; [by apply (f_equal (fun x => x.1.1)) in Hin|]).
        by apply elem_of_nil in Hin.
    + intros ->. left. by left.
Qed.

Lemma DropTable_covers_witness :
  exists r, dropped (mkTable 1 2) = Some (status_ok, r, None) /\
    removed r kInvertedIndexColumn (EncodeInvertedKey (mkTable 1 2) 3 [104; 105] []) /\
    ~ removed r kStoredFieldColumn (EncodeStoredFieldKey (mkTable 1 3) 7 []).
Proof.
  destruct (DropTable_covers (mkTable 1 2) (mkTable 1 3) 7 3 [104; 105]) as (r & E & Hid & _ & Hterm & _).
  - split; [cbv; split; congruence|]. unfold is_u64. cbv. split; congruence.
  - split; [cbv; split; congruence|]. unfold is_u64. cbv. split; congruence.
  - unfold is_u64. lia.
  - unfold is_byte. lia.
  - exists r. split; [exact E|]. split.
    + apply Hterm; [|simpl; lia]. repeat (apply Forall_cons_2; [split; lia|]). apply Forall_nil_2.
    + intros Hr. apply Hid in Hr as [Hr _]; [|by left]. discriminate Hr.
Defined.

(** Deleting the data of a table in steps.  A call with the empty start key
    or one of the table is answered; when it succeeds, exactly the first
    [max_len] keys of the table at or behind the start key are gone from the
    column, and the start key moves to the last of them (to the empty key when
    there was none, so that nothing of the table is left behind the start
    key); when it fails, the database and the start key are as they were. *)
Theorem DeleteTableData_correct {DB B} `{WriteLaws DB B} table column (db : DB) start_key max_len :
  db_wf db -> (1 < max_len)%nat ->
  Forall (fun e => (length (EncodeMetaKey table []) <= length e.1)%nat) (content db column) ->
  (start_key = [] \/ starts_with (EncodeMetaKey table []) start_key = true) ->
  exists s db' k, DeleteTableData db table column start_key max_len = Some (s, db', k) /\ db_wf db' /\
    if OK s then k = default [] (last (map fst (victims table column db start_key max_len))) /\
      forall c' k', om_find bytes_cmp k' (content db' c') =
        if decide (c' = column /\ k' ∈ map fst (victims table column db start_key max_len)) then None
        else om_find bytes_cmp k' (content db c')
    else k = start_key /\ forall c', content db' c' = content db c'.
Proof. apply DeleteTableData_spec. Qed.

Definition stored_sample : MockDB :=
  [(0, map (fun d => (EncodeStoredFieldKey (mkTable 1 2) d [], [d])) [3; 5; 8] ++
       [(EncodeStoredFieldKey (mkTable 1 3) 1 [], [1])])].

#[local] Existing Instances number_proto number_proto_laws.
#[local] Instance delete_write_buffer : WriteBuffer WriteBufferMock := mock_write_buffer DocListCompressionFixType.
#[local] Instance delete_write_db : WriteDB MockDB WriteBufferMock := mock_write_db DocListCompressionFixType.

Lemma delete_proto_total l : @SerializeToString number_proto l <> None.
Proof. discriminate. Qed.

#[local] Instance delete_write_laws : WriteLaws MockDB WriteBufferMock :=
  mock_write_laws DocListCompressionFixType delete_proto_total.

Lemma DeleteTableData_correct_witness :
  exists s db' k, DeleteTableData stored_sample (mkTable 1 2) kStoredFieldColumn [] 2 = Some (s, db', k) /\ db_wf db'.
Proof.
  destruct (DeleteTableData_correct (B := WriteBufferMock) (mkTable 1 2) kStoredFieldColumn stored_sample [] 2)
    as (s & db' & k & E & Hwf & _).
  - split; [repeat constructor|]. apply Forall_cons; split; [|constructor]. vm_compute. repeat constructor.
  - lia.
  - repeat (apply Forall_cons_2; [vm_compute; lia|]). apply Forall_nil_2.
  - by left.
  - exists s, db', k. split; [exact E|exact Hwf].
Defined.
