(* ===== verification/Scan.v ===== *)
(** Scanning a column in pages ([Searcher::ScanTableData] and
    [Searcher::ScanBusinessType], [searcher.cpp]).

    A page is a prefix of the entries behind the start key; the call moves the
    start key to the last key it delivered.  Stores whose iterator cannot be
    created are outside the interface ([VirtualDB]). *)
From Stdlib Require String DecimalString.
From S2P Require Import Prelude Storage Coding Codec VirtualDB DocList WriteDB VirtualDBMock.

(** ** [TableID::PrintToStr], through a buffer of 20 characters *)
Definition print_decimal (n : Z) : String.string := DecimalString.NilZero.string_of_uint (N.to_uint (Z.to_N n)).

Definition PrintToStr (table : TableID) : String.string :=
  String.substring 0 19 (String.append (print_decimal (business_type table))
    (String.append ":" (print_decimal (partition_set table)))).

Section Scan.
Context {DB B : Type} `{VirtualDB DB} `{WriteBuffer B} `{!WriteDB DB B}.

(** ** A table *)

(** Where the iterator stands before the loop: behind the start key. *)
Definition scan_from (db : DB) (column : StorageColumnType) (prefix start_key : bytes) : list (bytes * bytes) :=
  match start_key with
  | [] => Seek db column prefix
  | _ =>
      match Seek db column start_key with
      | (k, v) :: iterator => if bool_decide (k = start_key) then iterator else (k, v) :: iterator
      | [] => []
      end
  end.

(** The status, the buffer, the last key delivered and whether a key of the
    table was seen. *)
Fixpoint scan_loop (iterator : list (bytes * bytes)) (max_len : nat) (table : TableID) (prefix : bytes)
    (column : StorageColumnType) (max_buffer_size : Z) (b : B) (last_key : bytes) (have_more_data : bool) :
    SearchStatus * B * bytes * bool :=
  match max_len, iterator with
  | S max_len', (key, value) :: iterator' =>
      if bool_decide (length key < length prefix)%nat then
        scan_loop iterator' max_len table prefix column max_buffer_size b last_key have_more_data
      else if negb (starts_with prefix key) then (status_ok, b, last_key, have_more_data)
      else
        let approximate_size := u64 (Z.of_nat (length key) + Z.of_nat (length value)) in
        let '(data, b) := Data b in
        if max_buffer_size <? u64 (Z.of_nat (length data) + approximate_size) then
          (if max_buffer_size <? approximate_size
           then SetStatus kRocksDBErrorStatus (String.append "keyvalue size too big,table:" (PrintToStr table))
           else status_ok, b, last_key, true)
        else
          let '(status, b) := Put b column key value in
          if OK status then scan_loop iterator' max_len' table prefix column max_buffer_size b key true
          else (SetStatus kRocksDBErrorStatus "WriteBuffer put error", b, key, true)
  | _, _ => (status_ok, b, last_key, have_more_data)
  end.

(** The status, the start key of the next page and the write batch. *)
Definition ScanTableData (db : DB) (table : TableID) (column : StorageColumnType) (start_key : bytes) (max_len : nat)
    (write_batch : bytes) (max_buffer_size : Z) : SearchStatus * bytes * bytes :=
  if bool_decide (max_len <= 1)%nat then (SetStatus kRocksDBErrorStatus "max_len must > 1", start_key, write_batch)
  else
    let prefix := EncodeMetaKey table [] in
    let write_buffer := NewWriteBuffer (DB := DB) None in
    let '(status, write_buffer, last_key, have_more_data) :=
      scan_loop (scan_from db column prefix start_key) max_len table prefix column max_buffer_size write_buffer [] false in
    let write_batch := (Data write_buffer).1 in
    if OK status then
      (if have_more_data && match last_key with [] => true | _ => false end
       then SetStatus kDataErrorStatus "We have more data,but last key is set to empty." else status,
       last_key, write_batch)
    else (status, start_key, write_batch).

(** ** The partition sets of a business type *)
Fixpoint sets_loop (iterator : list (bytes * bytes)) (max_len : nat) (prefix : bytes) (sets : list Z)
    (last_parition_set : Z) : option (list Z * Z) :=
  match max_len, iterator with
  | S max_len', (key, _) :: iterator' =>
      if bool_decide (length key < length prefix)%nat then sets_loop iterator' max_len prefix sets last_parition_set
      else if negb (starts_with prefix key) then Some (sets, last_parition_set)
      else
        '(_, key) ← RemoveFixed8 key;
        '(last_parition_set, _) ← RemoveFixed64 key;
        sets_loop iterator' max_len' prefix (sets ++ [last_parition_set]) last_parition_set
  | _, _ => Some (sets, last_parition_set)
  end.

(** The status, the start of the next page and the sets found; [None] is a key
    too short to be decoded. *)
Definition ScanBusinessType (db : DB) (business_type start_partition_set : Z) (max_len : nat) (sets : list Z) :
    option (SearchStatus * Z * list Z) :=
  if bool_decide (max_len <= 1)%nat then
    Some (SetStatus kRocksDBErrorStatus "max_len must > 1", start_partition_set, sets)
  else
    let prefix := AppendFixed8 [] business_type in
    let start_key := AppendFixed64 prefix start_partition_set in
    '(sets, last_parition_set) ← sets_loop (Seek db kPaxosLogMetaColumn start_key) max_len prefix sets 0;
    Some (status_ok, if last_parition_set =? start_partition_set then 0 else last_parition_set, sets).
End Scan.

(** ** What a page is *)

(** The entries behind a key. *)
Definition behind (start_key : bytes) (m : list (bytes * bytes)) : list (bytes * bytes) :=
  List.filter (fun e => bool_decide (bytes_cmp start_key e.1 = Lt)) m.

Lemma behind_all k m : Forall (fun e : bytes * bytes => bytes_cmp k e.1 = Lt) m -> behind k m = m.
Proof. intros Hf. induction Hf as [|e m He _ IH]; [done|]. cbn [behind List.filter]. rewrite bool_decide_true by done. by f_equal. Qed.

Lemma behind_none k m : Forall (fun e : bytes * bytes => bytes_cmp k e.1 <> Lt) m -> behind k m = [].
Proof. intros Hf. induction Hf as [|e m He _ IH]; [done|]. cbn [behind List.filter]. by rewrite bool_decide_false. Qed.

Lemma sorted_head_lt k v m :
  om_sorted bytes_cmp ((k, v) :: m) -> Forall (fun e : bytes * bytes => bytes_cmp k e.1 = Lt) m.
Proof.
  intros [_ Hlt]%(om_sorted_cons_inv bytes_cmp). apply Forall_forall. intros [k' v'] Hin. by apply (Hlt k' v').
Qed.

Lemma sorted_filter {A} (R : A -> A -> Prop) f l : StronglySorted R l -> StronglySorted R (List.filter f l).
Proof.
  induction 1 as [|x l Hl IH Hx]; [constructor|]. cbn [List.filter]. destruct (f x); [|done]. constructor; [done|].
  apply Forall_forall. intros y Hy. apply list_elem_of_In, filter_In in Hy as [Hy _]. rewrite Forall_forall in Hx.
  apply Hx. by apply list_elem_of_In.
Qed.

(** Skipping the start key if it is there. *)
Lemma skip_start k m :
  om_sorted bytes_cmp m ->
  match om_lower_bound bytes_cmp k m with
  | (k', v) :: it => if bool_decide (k' = k) then it else (k', v) :: it
  | [] => []
  end = behind k m.
Proof.
  induction m as [|[k' v] m IH]; intros Hs; [done|]. pose proof (sorted_head_lt _ _ _ Hs) as Hlt.
  destruct (om_sorted_cons_inv bytes_cmp _ _ _ Hs) as [Hs' _]. cbn [om_lower_bound behind List.filter fst].
  destruct (bytes_cmp k k') eqn:E.
  - apply bytes_cmp_eq in E as ->. rewrite bool_decide_true by done. rewrite bool_decide_false by done.
    symmetry. by apply behind_all.
  - rewrite bool_decide_false by (intros ->; by rewrite (cmp_refl bytes_cmp) in E). rewrite bool_decide_true by done. f_equal.
    symmetry. apply behind_all. eapply Forall_impl; [exact Hlt|]. intros e He. by eapply bytes_cmp_lt_trans.
  - rewrite bool_decide_false by done. by apply IH.
Qed.

(** Filtering by prefix and by position commute, and positions compose. *)
Lemma with_prefix_behind p k m : with_prefix p (behind k m) = behind k (with_prefix p m).
Proof.
  unfold with_prefix, behind. induction m as [|e m IH]; [done|]. cbn [List.filter].
  destruct (bool_decide _) eqn:E1, (starts_with p e.1) eqn:E2; cbn [List.filter]; rewrite ?E1, ?E2, IH; done.
Qed.

Lemma behind_behind k k' m : bytes_cmp k k' = Lt -> behind k' (behind k m) = behind k' m.
Proof.
  intros Hlt. unfold behind. induction m as [|e m IH]; [done|]. cbn [List.filter].
  destruct (bool_decide_reflect (bytes_cmp k e.1 = Lt)) as [H1|H1]; cbn [List.filter]; rewrite IH; [done|].
  rewrite bool_decide_false; [done|]. intros H2. apply H1. by eapply bytes_cmp_lt_trans.
Qed.

Lemma behind_last page more k v :
  om_sorted bytes_cmp (page ++ more) -> last page = Some (k, v) -> behind k (page ++ more) = more.
Proof.
  intros Hs (l & ->)%last_Some. rewrite <- app_assoc in *. cbn [app] in *. unfold behind. rewrite List.filter_app. cbn [List.filter fst].
  rewrite (bool_decide_false (bytes_cmp k k = Lt)) by (by rewrite (cmp_refl bytes_cmp)).
  assert (Hmore : behind k more = more).
  { apply behind_all, (sorted_head_lt k v). clear -Hs. induction l as [|e l IH]; [done|].
    cbn [app] in Hs. apply IH. destruct e. by apply (om_sorted_cons_inv bytes_cmp) in Hs as [? _]. }
  unfold behind in Hmore. rewrite Hmore. rewrite (list_filter_none _ l); [done|].
  apply Forall_forall. intros [k' v'] Hin. apply bool_decide_eq_false. cbn [fst].
  assert (Hlt : bytes_cmp k' k = Lt).
  { clear -Hs Hin. induction l as [|e l IH]; [by apply elem_of_nil in Hin|]. cbn [app] in Hs. destruct e as [k1 v1].
    destruct (om_sorted_cons_inv bytes_cmp _ _ _ Hs) as [Hs' Hlt]. apply elem_of_cons in Hin as [[= -> ->]|Hin]; [|by apply IH].
    apply (Hlt k v). apply elem_of_app. right. by left. }
  intros E. by rewrite (bytes_cmp_opp k k'), E in Hlt.
Qed.

(** What putting a page into a buffer leaves pending. *)
Definition puts (column : StorageColumnType) (page : list (bytes * bytes)) (old : StorageColumnType -> bytes -> pending)
    (c : StorageColumnType) (k : bytes) : pending :=
  if decide (c = column) then match om_find bytes_cmp k page with Some v => PPut v | None => old c k end else old c k.

Lemma puts_nil column old c k : puts column [] old c k = old c k.
Proof. unfold puts. by destruct (decide _). Qed.

Section ScanSpec.
Context {DB B : Type} `{WriteLaws DB B}.
Context (table : TableID) (column : StorageColumnType) (max_buffer_size : Z).

Notation loop it n := (scan_loop it n table).

Lemma scan_loop_spec it n p b last_key had :
  wb_ok b -> om_sorted bytes_cmp it -> (forall k v, (k, v) ∈ it -> bytes_cmp k p <> Lt) ->
  exists s b' k h page more,
    loop it n p column max_buffer_size b last_key had = (s, b', k, h) /\
    with_prefix p it = page ++ more /\ (length page <= n)%nat /\
    if OK s then
      wb_ok b' /\ k = default last_key (last (map fst page)) /\
      (forall c k', pend b' c k' = puts column page (pend b) c k') /\
      (page = [] -> more = [] -> h = had) /\ (page = [] -> more <> [] -> (0 < n)%nat -> h = true)
    else more <> [].
Proof.
  intros Hb Hs Hge. revert n b last_key had Hb. induction it as [|[key value] it IH]; intros n b last_key had Hb.
  { exists status_ok, b, last_key, had, [], []. destruct n; cbn [scan_loop]; (split; [done|]; split; [done|]; split; [simpl; lia|]);
      cbn; (split; [done|]; split; [done|]; split; [|done]); intros c k'; by rewrite puts_nil. }
  destruct n as [|n].
  { exists status_ok, b, last_key, had, [], (with_prefix p ((key, value) :: it)). cbn [scan_loop].
    split; [done|]. split; [done|]. split; [simpl; lia|]. cbn. split; [done|]. split; [done|]. split.
    - intros c k'. by rewrite puts_nil.
    - split; [done|]. intros _ _ Hn. lia. }
  cbn [scan_loop]. destruct (om_sorted_cons_inv bytes_cmp _ _ _ Hs) as [Hs' _].
  assert (Hge' : forall k v, (k, v) ∈ it -> bytes_cmp k p <> Lt) by (intros k v Hin; apply (Hge k v); by right).
  destruct (starts_with p key) eqn:Ep.
  2:{ assert (Hnone : with_prefix p ((key, value) :: it) = []).
      { rewrite <- take_prefix_filter by done. cbn [take_prefix fst]. by rewrite Ep. }
      assert (Hit : with_prefix p it = []).
      { unfold with_prefix in Hnone |- *. cbn [List.filter fst] in Hnone. by rewrite Ep in Hnone. }
      destruct (bool_decide _).
      - rewrite Hnone. destruct (IH Hs' Hge' (S n) b last_key had Hb) as (s & b' & k & h & page & more & E & Hpm & Hrest).
        rewrite Hit in Hpm. by exists s, b', k, h, page, more.
      - exists status_ok, b, last_key, had, [], []. cbn [negb]. split; [done|]. split; [done|]. split; [simpl; lia|].
        cbn. split; [done|]. split; [done|]. split; [|done]. intros c k'. by rewrite puts_nil. }
  rewrite bool_decide_false.
  2:{ apply starts_with_spec in Ep as [t ->]. rewrite length_app. lia. }
  assert (Hwp : with_prefix p ((key, value) :: it) = (key, value) :: with_prefix p it)
    by (unfold with_prefix; cbn [List.filter fst]; by rewrite Ep).
  cbn [negb]. destruct (Data_law b Hb) as [Hb1 Hp1]. destruct (Data b) as [data b1]. cbn [fst snd] in Hb1, Hp1. cbv zeta.
  destruct (max_buffer_size <? _).
  { destruct (max_buffer_size <? _).
    - eexists _, b1, last_key, true, [], _. split; [done|]. split; [exact Hwp|]. split; [simpl; lia|]. done.
    - exists status_ok, b1, last_key, true, [], (with_prefix p ((key, value) :: it)). split; [done|]. split; [done|].
      split; [simpl; lia|]. change (OK status_ok) with true. cbv iota. split; [done|]. split; [done|]. split; [|split; [intros _ Em; by rewrite Hwp in Em|done]].
      intros c k'. by rewrite puts_nil, Hp1. }
  destruct (Put_law b1 column key value Hb1) as [Hb2 Hp2]. destruct (Put b1 column key value) as [s2 b2]. cbn [fst snd] in Hb2, Hp2.
  destruct (OK s2) eqn:Es.
  2:{ eexists _, b2, key, true, [], _. split; [done|]. split; [exact Hwp|]. split; [simpl; lia|]. done. }
  specialize (Hp2 eq_refl).
  destruct (IH Hs' Hge' n b2 key true Hb2) as (s & b' & k & h & page & more & E & Hpm & Hlen & Hr).
  exists s, b', k, h, ((key, value) :: page), more. split; [done|]. split; [by rewrite Hwp, Hpm|]. split; [simpl; lia|].
  destruct (OK s); [|done]. destruct Hr as (Hb' & -> & Hpend & _ & _). split; [done|]. split.
  - cbn [map fst]. rewrite last_cons. by destruct (last (map fst page)).
  - split; [|done]. intros c k'. rewrite Hpend. unfold puts. destruct (decide (c = column)) as [->|Hc].
    + assert (Hnone : bytes_cmp k' key <> Gt -> om_find bytes_cmp k' page = None).
      { intros Hle. destruct (om_find bytes_cmp k' page) as [w|] eqn:Ew; [|done]. exfalso.
        apply (om_find_in bytes_cmp) in Ew. assert (Hin : (k', w) ∈ it).
        { assert (Hin : (k', w) ∈ with_prefix p it) by (rewrite Hpm; apply elem_of_app; by left).
          apply list_elem_of_In, filter_In in Hin as [Hin _]. by apply list_elem_of_In. }
        pose proof (sorted_head_lt _ _ _ Hs) as Hlt. rewrite Forall_forall in Hlt. specialize (Hlt _ Hin). cbn [fst] in Hlt.
        apply Hle. by rewrite bytes_cmp_opp, Hlt. }
      cbn [om_find]. rewrite Hp2, Hp1. destruct (bytes_cmp k' key) eqn:Ec.
      * apply bytes_cmp_eq in Ec as ->. rewrite Hnone by done. by rewrite decide_True.
      * rewrite Hnone by done. rewrite decide_False; [done|]. intros [_ ->]. by rewrite bytes_cmp_refl in Ec.
      * destruct (om_find bytes_cmp k' page); [done|]. rewrite decide_False; [done|]. intros [_ ->]. by rewrite bytes_cmp_refl in Ec.
    + rewrite Hp2, decide_False by (by intros [? _]). apply Hp1.
Qed.

(** The entries of the table behind a key. *)
Definition left_of_table (db : DB) (start_key : bytes) : list (bytes * bytes) :=
  behind start_key (with_prefix (EncodeMetaKey table []) (content db column)).

Lemma prefix_behind_nil p (m : list (bytes * bytes)) : p <> [] -> behind [] (with_prefix p m) = with_prefix p m.
Proof.
  intros Hp. apply behind_all, Forall_forall. intros [k v] Hin. apply list_elem_of_In, filter_In in Hin as [_ Hk].
  cbn [fst] in *. destruct p as [|x p]; [done|]. by destruct k.
Qed.

Lemma scan_from_spec db p start_key :
  db_wf db -> p <> [] -> start_key = [] \/ starts_with p start_key = true ->
  let it := scan_from db column p start_key in
  om_sorted bytes_cmp it /\ (forall k v, (k, v) ∈ it -> bytes_cmp k p <> Lt) /\
  with_prefix p it = behind start_key (with_prefix p (content db column)).
Proof.
  intros Hdb Hp Hstart. pose proof (content_sorted db column Hdb) as Hs. cbv zeta. unfold scan_from. rewrite !Seek_content by done.
  destruct start_key as [|x start_key].
  - split; [by apply (om_lower_bound_sorted bytes_cmp)|]. split.
    + intros k v Hin. by apply (om_lower_bound_spec bytes_cmp) in Hin as [_ Hin].
    + rewrite <- take_prefix_from, take_prefix_seek; [by rewrite prefix_behind_nil|done|done|].
      apply starts_with_spec. exists []. by rewrite app_nil_r.
  - destruct Hstart as [?|Hst]; [done|]. set (start := x :: start_key) in *. clearbody start. rewrite skip_start by done.
    split; [|split].
    + by apply sorted_filter.
    + intros k v Hin Hlt. apply list_elem_of_In, filter_In in Hin as [_ Hk%bool_decide_eq_true]. cbn [fst] in Hk.
      apply starts_with_ge in Hst. apply Hst. by eapply bytes_cmp_lt_trans.
    + apply with_prefix_behind.
Qed.

(** A call delivers the next entries and moves the start key behind them. *)
Definition next_page (db : DB) (start_key : bytes) (max_len : nat) (r : SearchStatus * bytes * bytes) : Prop :=
  let '(status, next, batch) := r in
  exists page more, left_of_table db start_key = page ++ more /\ (length page <= max_len)%nat /\
    if OK status then
      (exists b, wb_ok b /\ batch = (Data b).1 /\ forall c k, pend b c k = puts column page (fun _ _ => PNone) c k) /\
      match next with [] => page = [] /\ more = [] | _ => page <> [] /\ left_of_table db next = more end
    else more <> [].

Lemma ScanTableData_spec db start_key max_len wb :
  db_wf db -> wf_table table -> (1 < max_len)%nat ->
  start_key = [] \/ starts_with (EncodeMetaKey table []) start_key = true ->
  next_page db start_key max_len (ScanTableData (B := B) db table column start_key max_len wb max_buffer_size).
Proof.
  intros Hdb Htable Hmax Hstart. unfold ScanTableData. rewrite bool_decide_false by lia. cbv zeta.
  set (p := EncodeMetaKey table []) in *.
  assert (Hp : p <> []) by (unfold p; rewrite EncodeMetaKey_spec by done; done).
  destruct (scan_from_spec db p start_key Hdb Hp Hstart) as (Hs & Hge & Hwp).
  destruct new_buffer_ok as [Hb0 Hp0].
  destruct (scan_loop_spec _ max_len p (NewWriteBuffer (DB := DB) None) [] false Hb0 Hs Hge)
    as (s & b & k & h & page & more & -> & Hpm & Hlen & Hr).
  rewrite Hwp in Hpm. unfold next_page. destruct (OK s) eqn:Es.
  2:{ rewrite Es. by exists page, more. }
  destruct Hr as (Hb & -> & Hpend & Hh1 & Hh2).
  assert (Hput : exists b0, wb_ok b0 /\ (Data b).1 = (Data b0).1 /\
    forall c k, pend b0 c k = puts column page (fun _ _ => PNone) c k).
  { exists b. split; [done|]. split; [done|]. intros c k. rewrite Hpend. unfold puts.
    rewrite Hp0. done. }
  destruct (last page) as [[k v]|] eqn:El.
  - assert (Elm : last (map fst page) = Some k) by (change (map fst page) with (fst <$> page); by rewrite fmap_last, El).
    rewrite Elm. cbn [default from_option id].
    assert (Hk : starts_with p k = true /\ bytes_cmp start_key k = Lt).
    { assert (Hin : (k, v) ∈ page ++ more) by (apply elem_of_app; left; by apply last_Some_elem_of in El).
      rewrite <- Hpm in Hin. apply list_elem_of_In, filter_In in Hin as [Hin Hlt%bool_decide_eq_true].
      apply filter_In in Hin as [_ Hin]. done. }
    destruct k as [|x k]; [destruct Hk as [Hk _]; by destruct p|]. rewrite andb_false_r, Es. exists page, more.
    split; [done|]. split; [done|]. split; [done|]. split; [by intros ->|].
    unfold left_of_table. fold p. rewrite <- (behind_behind start_key) by apply Hk. rewrite Hpm.
    eapply behind_last; [|exact El]. rewrite <- Hpm. by apply sorted_filter, sorted_filter, content_sorted.
  - apply last_None in El as ->. cbn [map last default from_option id]. destruct more as [|e more].
    + exists [], []. split; [done|]. split; [done|]. rewrite (Hh1 eq_refl eq_refl). cbn [andb]. by rewrite Es.
    + rewrite Hh2 by (done || lia). cbn [andb]. by exists [], (e :: more).
Qed.
End ScanSpec.

(** ** The partition sets *)
Lemma lower_bound_filter k (m : list (bytes * bytes)) :
  om_sorted bytes_cmp m ->
  om_lower_bound bytes_cmp k m = List.filter (fun e => bool_decide (bytes_cmp e.1 k <> Lt)) m.
Proof.
  induction m as [|[k' v] m IH]; intros Hs; [done|]. pose proof (sorted_head_lt _ _ _ Hs) as Hlt.
  destruct (om_sorted_cons_inv bytes_cmp _ _ _ Hs) as [Hs' _]. cbn [om_lower_bound List.filter fst].
  rewrite (bytes_cmp_opp k k').
  assert (Hall : bytes_cmp k k' <> Gt -> List.filter (fun e : bytes * bytes => bool_decide (bytes_cmp e.1 k <> Lt)) m = m).
  { intros Hle. clear IH Hs Hs'. induction Hlt as [|e m He _ IH]; [done|]. cbn [List.filter]. rewrite IH.
    rewrite bool_decide_true; [done|]. intros E. destruct (bytes_cmp k k') eqn:Ek; [| |done].
    - apply bytes_cmp_eq in Ek as ->. by rewrite bytes_cmp_opp, He in E.
    - assert (Hk : bytes_cmp k e.1 = Lt) by (by eapply bytes_cmp_lt_trans). by rewrite bytes_cmp_opp, Hk in E. }
  destruct (bytes_cmp k k') eqn:E; cbn [CompOpp].
  - rewrite bool_decide_true by done. by rewrite Hall.
  - rewrite bool_decide_true by done. by rewrite Hall.
  - rewrite bool_decide_false by (intros Hn; by apply Hn). by apply IH.
Qed.

(** The key of a partition set. *)
Definition set_key (business_type s : Z) : bytes := business_type :: be_bytes 8 s.

Lemma sets_loop_spec it n t S acc lastp :
  is_byte t -> Forall is_u64 S -> map fst (take_prefix [t] it) = map (set_key t) S ->
  Forall (fun e => e.1 <> []) it ->
  sets_loop it n [t] acc lastp = Some (acc ++ take n S, default lastp (last (take n S))).
Proof.
  intros Ht HS Heq Hne. revert n S acc lastp HS Heq. induction Hne as [|[k v] it Hk _ IH]; intros n S acc lastp HS Heq.
  { destruct S; [|done]. rewrite take_nil. cbn. rewrite app_nil_r. by destruct n. }
  destruct n as [|n]; [cbn; by rewrite app_nil_r|]. cbn [fst] in Hk. cbn [sets_loop]. rewrite bool_decide_false by (destruct k; simpl; [done|lia]).
  cbn [take_prefix fst] in Heq. destruct (starts_with [t] k) eqn:Ep; cbn [negb].
  2:{ destruct S; [|done]. cbn. by rewrite app_nil_r. }
  destruct S as [|s S]; [done|]. cbn [map fst] in Heq. injection Heq as -> Heq. apply Forall_cons in HS as [Hs HS].
  unfold set_key. rewrite RemoveFixed8_cons. cbn [mbind option_bind].
  pose proof (RemoveFixed64_be s [] Hs) as Er. rewrite app_nil_r in Er. rewrite Er. cbn [mbind option_bind].
  rewrite (IH n S) by done. cbn [take]. rewrite <- app_assoc. cbn [app]. do 2 f_equal. rewrite last_cons.
  by destruct (last (take n S)).
Qed.

Section SetsSpec.
Context {DB : Type} `{VirtualDBLaws DB}.
Context (db : DB) (business_type : Z) (S : list Z).
Context (Hdb : db_wf db) (Ht : is_byte business_type) (HS : Forall is_u64 S).
Context (Hkeys : map fst (with_prefix [business_type] (content db kPaxosLogMetaColumn)) = map (set_key business_type) S).

Notation set_cmp := (fun a b => bytes_cmp (set_key business_type a) (set_key business_type b)).

Lemma set_key_order a b : is_u64 a -> is_u64 b -> bytes_cmp (set_key business_type a) (set_key business_type b) = Z.compare a b.
Proof. intros Ha Hb. unfold set_key. cbn [bytes_cmp]. rewrite Z.compare_refl. by apply bytes_cmp_be. Qed.

Lemma sets_increasing : StronglySorted Z.lt S.
Proof.
  pose proof (sorted_filter _ (fun e : bytes * bytes => starts_with [business_type] e.1) _
    (content_sorted db kPaxosLogMetaColumn Hdb)) as Hs.
  change (List.filter _ _) with (with_prefix [business_type] (content db kPaxosLogMetaColumn)) in Hs.
  revert Hkeys HS Hs. generalize (with_prefix [business_type] (content db kPaxosLogMetaColumn)) as m.
  intros m. revert m. induction S as [|s l IH]; intros [|[k v] m] Heq HSl Hs; try done; [constructor|].
  cbn [map fst] in Heq. injection Heq as Ek Heq. apply Forall_cons in HSl as [Hs0 HSl].
  pose proof (sorted_head_lt _ _ _ Hs) as Hlt. apply StronglySorted_inv in Hs as [Hs _]. constructor; [by apply (IH m)|].
  apply Forall_forall. intros s' Hs'. rewrite Forall_forall in HSl. rewrite Forall_forall in Hlt.
  assert (Hin : set_key business_type s' ∈ map fst m) by (rewrite Heq; by apply (list_elem_of_fmap_2 (set_key business_type))).
  apply list_elem_of_fmap in Hin as (e & Ee & Hin). specialize (Hlt e Hin). rewrite <- Ee, Ek in Hlt.
  pose proof (set_key_order s s' Hs0 (HSl s' Hs')) as Ho. rewrite Hlt in Ho. by apply Z.compare_lt_iff.
Qed.

(** The sets at or behind the start. *)
Definition sets_from (start : Z) : list Z := List.filter (fun s => start <=? s) S.

Lemma seek_sets start :
  is_u64 start ->
  map fst (take_prefix [business_type] (om_lower_bound bytes_cmp (set_key business_type start) (content db kPaxosLogMetaColumn))) =
  map (set_key business_type) (sets_from start).
Proof.
  intros Hstart. pose proof (content_sorted db kPaxosLogMetaColumn Hdb) as Hs.
  rewrite take_prefix_from by (done || (apply starts_with_spec; by exists (be_bytes 8 start))).
  rewrite lower_bound_filter by done. unfold with_prefix in *.
  revert Hkeys HS. unfold sets_from. generalize (content db kPaxosLogMetaColumn) as m.
  intros m. revert S. induction m as [|[k v] m IH]; intros l Heq Hl; cbn [List.filter fst] in *.
  { destruct l; [done|]. discriminate Heq. }
  destruct (starts_with [business_type] k) eqn:Ep.
  - destruct l as [|s l]; [done|]. cbn [map fst] in Heq. injection Heq as -> Heq. apply Forall_cons in Hl as [Hs0 Hl].
    cbn [List.filter]. rewrite (bool_decide_ext _ (start <= s)).
    2:{ rewrite set_key_order by done. rewrite Z.compare_lt_iff. lia. }
    destruct (Z.leb_spec start s).
    + rewrite bool_decide_true by done. cbn [List.filter fst]. rewrite Ep. cbn [map fst]. f_equal. by apply IH.
    + rewrite bool_decide_false by lia. by apply IH.
  - destruct (bool_decide _); cbn [List.filter fst]; rewrite ?Ep; by apply IH.
Qed.

Lemma ScanBusinessType_spec start max_len sets :
  is_u64 start -> (1 < max_len)%nat ->
  exists next, ScanBusinessType db business_type start max_len sets =
      Some (status_ok, next, sets ++ take max_len (sets_from start)) /\
    ((next = 0 /\ Forall (eq start) (take max_len (sets_from start)) /\ (length (sets_from start) <= 1)%nat) \/
     (start < next /\ last (take max_len (sets_from start)) = Some next)).
Proof.
  intros Hstart Hmax. unfold ScanBusinessType. rewrite bool_decide_false by lia. cbv zeta. rewrite Seek_content by done.
  assert (AppendFixed8 [] business_type = [business_type]) as -> by (by rewrite AppendFixed8_spec).
  rewrite AppendFixed64_spec by done. cbn [app]. change (business_type :: be_bytes 8 start) with (set_key business_type start).
  rewrite (sets_loop_spec _ _ _ (sets_from start)); [|exact Ht| |by apply seek_sets|].
  2:{ apply Forall_forall. intros s Hin. apply list_elem_of_In, filter_In in Hin as [Hin _]. rewrite Forall_forall in HS.
      apply HS. by apply list_elem_of_In. }
  2:{ apply Forall_forall. intros [k v] Hin. apply (om_lower_bound_spec bytes_cmp) in Hin as [_ Hge]; [|by apply content_sorted].
      cbn [fst]. intros ->. by apply Hge. }
  cbn [mbind option_bind]. eexists. split; [done|]. pose proof sets_increasing as Hinc.
  assert (Hfs : StronglySorted Z.lt (sets_from start)) by (by apply sorted_filter).
  assert (Hge : Forall (fun s => start <= s) (sets_from start)).
  { apply Forall_forall. intros s Hin. apply list_elem_of_In, filter_In in Hin as [_ Hle]. lia. }
  destruct (sets_from start) as [|a l]; [|].
  { rewrite take_nil. left. split; [by destruct (default 0 (last []) =? start)|]. split; [constructor|simpl; lia]. }
  destruct max_len as [|[|max_len]]; [lia|lia|]. apply Forall_cons in Hge as [Ha Hge].
  destruct l as [|b l]; cbn [take].
  - cbn. destruct (Z.eqb_spec a start) as [->|Hne].
    + left. split; [done|]. split; [by repeat constructor|]. lia.
    + right. split; [lia|done].
  - right. change (last (a :: b :: take max_len l)) with (last (b :: take max_len l)).
    destruct (last (b :: take max_len l)) as [z|] eqn:El; [|by apply last_None in El].
    cbn [default from_option id]. assert (Hz : start < z).
    { apply last_Some_elem_of in El. apply StronglySorted_inv in Hfs as [_ Hab]. rewrite Forall_forall in Hab.
      assert (z ∈ b :: l); [|specialize (Hab z ltac:(done)); lia].
      apply elem_of_cons in El as [->|El]; [by left|]. right. eapply elem_of_take in El as (i & Ei & _).
      by eapply list_elem_of_lookup_2. }
    destruct (Z.eqb_spec z start); [lia|]. by split.
Qed.
End SetsSpec.

(** ** Theorems *)

(** C30: scanning a table in pages.  From the empty key or a key of the table a
    successful call delivers, as the writes pending in its batch, the first
    entries of the table behind the start key, at most [max_len] of them, and
    moves the start key so that exactly the entries it did not deliver remain
    behind it; the empty key is returned only when none remain.  So calls
    repeated until then deliver every entry of the column once.  A call fails
    only with entries left. *)
Theorem ScanTableData_correct {DB B} `{WriteLaws DB B} table column max_buffer_size (db : DB) start_key max_len wb :
  db_wf db -> wf_table table -> (1 < max_len)%nat ->
  start_key = [] \/ starts_with (EncodeMetaKey table []) start_key = true ->
  next_page table column db start_key max_len
    (ScanTableData (B := B) db table column start_key max_len wb max_buffer_size).
Proof. apply ScanTableData_spec. Qed.

(** Scanning the partition sets of a business type.  When the keys of the
    type are those of the sets [S], a call appends the first [max_len] sets at
    or behind the start, and moves the start to the last of them, strictly
    forward, or to 0 when nothing but the start itself was found: so calls
    repeated until 0 find every set. *)
Theorem ScanBusinessType_correct {DB} `{VirtualDBLaws DB} (db : DB) business_type S start max_len sets :
  db_wf db -> is_byte business_type -> Forall is_u64 S ->
  map fst (with_prefix [business_type] (content db kPaxosLogMetaColumn)) = map (set_key business_type) S ->
  is_u64 start -> (1 < max_len)%nat ->
  exists next, ScanBusinessType db business_type start max_len sets =
      Some (status_ok, next, sets ++ take max_len (sets_from S start)) /\
    ((next = 0 /\ Forall (eq start) (take max_len (sets_from S start)) /\ (length (sets_from S start) <= 1)%nat) \/
     (start < next /\ last (take max_len (sets_from S start)) = Some next)).
Proof. intros. by apply ScanBusinessType_spec. Qed.

#[local] Existing Instances number_proto number_proto_laws.
#[local] Instance scan_write_buffer : WriteBuffer WriteBufferMock := mock_write_buffer DocListCompressionFixType.
#[local] Instance scan_write_db : WriteDB MockDB WriteBufferMock := mock_write_db DocListCompressionFixType.

Lemma scan_proto_total l : @SerializeToString number_proto l <> None.
Proof. discriminate. Qed.

#[local] Instance scan_write_laws : WriteLaws MockDB WriteBufferMock :=
  mock_write_laws DocListCompressionFixType scan_proto_total.

Definition scan_sample : MockDB :=
  [(0, map (fun d => (EncodeStoredFieldKey (mkTable 1 2) d [], [d])) [3; 5; 8] ++
       [(EncodeStoredFieldKey (mkTable 1 3) 1 [], [1])]);
   (7, map (fun s => (set_key 1 s, [])) [0; 4; 9])].

Lemma scan_sample_wf : db_wf scan_sample.
Proof.
  split; [repeat constructor|]. repeat (apply Forall_cons; split); [..|constructor]; vm_compute; repeat constructor.
Qed.

Lemma ScanTableData_correct_witness :
  left_of_table (mkTable 1 2) kStoredFieldColumn scan_sample (EncodeStoredFieldKey (mkTable 1 2) 3 []) =
    [(EncodeStoredFieldKey (mkTable 1 2) 5 [], [5]); (EncodeStoredFieldKey (mkTable 1 2) 8 [], [8])] /\
  next_page (mkTable 1 2) kStoredFieldColumn scan_sample (EncodeStoredFieldKey (mkTable 1 2) 3 []) 2
    (ScanTableData (B := WriteBufferMock) scan_sample (mkTable 1 2) kStoredFieldColumn
      (EncodeStoredFieldKey (mkTable 1 2) 3 []) 2 [] 1000000).
Proof.
  split; [vm_compute; reflexivity|].
  apply (ScanTableData_correct (mkTable 1 2) kStoredFieldColumn 1000000 scan_sample).
  - exact scan_sample_wf.
  - split; [cbv; split; congruence|]. unfold is_u64. cbv. split; congruence.
  - lia.
  - right. vm_compute. reflexivity.
Defined.

Lemma ScanBusinessType_correct_witness :
  exists next, ScanBusinessType scan_sample 1 4 2 [] = Some (status_ok, next, [4; 9]) /\ next = 9.
Proof.
  destruct (ScanBusinessType_correct scan_sample 1 [0; 4; 9] 4 2 []) as (next & E & Hn).
  - exact scan_sample_wf.
  - unfold is_byte. lia.
  - repeat (apply Forall_cons_2; [unfold is_u64; lia|]). apply Forall_nil_2.
  - vm_compute. reflexivity.
  - unfold is_u64. lia.
  - lia.
  - exists next. split; [exact E|]. destruct Hn as [(_ & _ & Hl)|[_ Hl]]; [exfalso; vm_compute in Hl; lia|].
    vm_compute in Hl. congruence.
Defined.
