(* ===== verification/TermDiff.v ===== *)
(** The term difference of one updater: which keys of the inverted column the
    document writer touches, and with which state.

    The flags of [WriteInvertedIndex] are compared with the plain sets of
    index keys of the old and the new document: a key is added when only the
    new document has it, deleted when only the old one has it, and left alone
    otherwise. *)
From S2P Require Import Prelude Storage Coding Codec DocList MergeOperator VirtualDB WriteDB Document.
From S2P Require Import Utf8 Tokenizer DocumentWriter.

Section TermDiff.
Context (config : IndexConfig).

(** ** The index keys of a list of fields *)
Fixpoint index_keys (fields : list IndexField) : option (list (Z * bytes)) :=
  match fields with
  | [] => Some []
  | f :: fields' =>
      terms ← index_terms config f (terms_ f);
      rest ← index_keys fields';
      Some (map (fun t => (field_id_ f, t)) terms ++ rest)
  end.

Lemma suffixes_some term m : wf_bytes term -> exists l, UTF8SuffixBuilder.suffixes term m = Some l.
Proof. intros Hwf. apply loop_total; [done|done|simpl; lia]. Qed.

Lemma index_terms_total f terms : Forall wf_bytes terms -> exists l, index_terms config f terms = Some l.
Proof.
  induction 1 as [|t terms Ht _ [l IH]]; [by eexists|]. cbn [index_terms]. rewrite IH.
  assert (exists k, term_keys config f t = Some k) as [k ->]; [|by eexists].
  unfold term_keys. destruct t; [by eexists|]. destruct (_ && _); [|by eexists]. by apply suffixes_some.
Qed.

Lemma index_keys_total fields : Forall (fun f => terms_ok (terms_ f)) fields -> exists l, index_keys fields = Some l.
Proof.
  induction 1 as [|f fields [_ Hf] _ [l IH]]; [by eexists|]. cbn [index_keys]. rewrite IH.
  destruct (index_terms_total f (terms_ f) Hf) as [t ->]. by eexists.
Qed.

(** ** Flags *)
Definition flag_or (bit : Z) (o : option Z) : Z := u8 (Z.lor (default 0 o) bit).

Lemma cf_find_mark bit f m t f' t' :
  cf_wf m -> cf_wf (mark bit f m t) /\
  cf_find (mark bit f m t) f' t' =
    if decide (f' = f /\ t' = t) then Some (flag_or bit (cf_find m f t)) else cf_find m f' t'.
Proof.
  intros Hwf. pose proof (cf_get_sorted m f Hwf) as Hs.
  change (mark bit f m t) with (cf_set m f (om_insert bytes_cmp t (flag_or bit (cf_find m f t)) (cf_get m f))).
  split; [by apply cf_set_wf; [|apply (om_insert_sorted bytes_cmp)]|].
  rewrite cf_find_set by done. destruct (decide (f' = f)) as [->|]; [|by rewrite decide_False by naive_solver].
  destruct (decide (t' = t)) as [->|].
  - by rewrite (om_find_insert_eq bytes_cmp), decide_True by done.
  - rewrite (om_find_insert_ne bytes_cmp), decide_False by naive_solver. done.
Qed.

Lemma cf_find_touch m f f' t' :
  cf_wf m -> cf_wf (touch m f) /\ cf_find (touch m f) f' t' = cf_find m f' t'.
Proof.
  intros Hwf. unfold touch, om_emplace. destruct (om_find Z.compare f m) eqn:E; [done|].
  change (om_insert Z.compare f [] m) with (cf_set m f []). split; [apply cf_set_wf; [done|constructor]|].
  rewrite cf_find_set by done. destruct (decide (f' = f)) as [->|]; [|done].
  unfold cf_find, cf_get. by rewrite E.
Qed.

Lemma flag_or_idem bit o : flag_or bit (Some (flag_or bit o)) = flag_or bit o.
Proof.
  unfold flag_or; cbn [default from_option id]. unfold u8. rewrite <- !Z.land_ones by lia.
  rewrite !Z.land_lor_distr_l, <- !Z.land_assoc, Z.land_diag. by rewrite <- Z.lor_assoc, Z.lor_diag.
Qed.

Lemma cf_find_marks bit f terms m f' t' :
  cf_wf m -> cf_wf (fold_left (mark bit f) terms m) /\
  cf_find (fold_left (mark bit f) terms m) f' t' =
    if decide (f' = f /\ t' ∈ terms) then Some (flag_or bit (cf_find m f' t')) else cf_find m f' t'.
Proof.
  revert m. induction terms as [|t terms IH]; intros m Hwf; cbn [fold_left].
  { split; [done|]. rewrite decide_False; [done|]. by intros [_ ?%elem_of_nil]. }
  destruct (cf_find_mark bit f m t f' t' Hwf) as [Hwf1 E1], (IH _ Hwf1) as [Hwf2 E2].
  split; [done|]. rewrite E2, E1.
  destruct (decide (f' = f)) as [->|Hf]; [|by rewrite !decide_False by naive_solver].
  destruct (decide (t' = t)) as [->|Ht].
  - rewrite (decide_True (P := f = f /\ t = t)), (decide_True (P := f = f /\ t ∈ t :: terms))
      by (done || by split; [|left]).
    destruct (decide _); [by rewrite flag_or_idem|done].
  - rewrite (decide_False (P := f = f /\ t' = t)) by naive_solver.
    destruct (decide (t' ∈ terms)).
    + rewrite !decide_True by (split; [done|by first [done|right]]). done.
    + rewrite !decide_False by (intros [_ Hin]; by try apply elem_of_cons in Hin as [?|?]). done.
Qed.

Lemma mark_fields_spec bit fields m l :
  cf_wf m -> index_keys fields = Some l ->
  exists m', mark_fields config bit fields m = Some m' /\ cf_wf m' /\
    forall f t, cf_find m' f t =
      if decide ((f, t) ∈ l) then Some (flag_or bit (cf_find m f t)) else cf_find m f t.
Proof.
  revert m l. induction fields as [|x fields IH]; intros m l Hwf; cbn [index_keys mark_fields].
  { intros [= <-]. exists m. split; [done|]. split; [done|]. intros f t. by rewrite decide_False by apply not_elem_of_nil. }
  destruct (index_terms config x (terms_ x)) as [terms|]; [|done]. cbn [mbind option_bind].
  destruct (index_keys fields) as [rest|]; [|done]. cbn [mbind option_bind]. intros [= <-].
  assert (Hwf1 : cf_wf (touch m (field_id_ x))) by (by apply (cf_find_touch m (field_id_ x) 0 [])).
  assert (Hwf2 : cf_wf (fold_left (mark bit (field_id_ x)) terms (touch m (field_id_ x))))
    by (by apply (cf_find_marks bit (field_id_ x) terms _ 0 [])).
  destruct (IH _ rest Hwf2 eq_refl) as (m' & E & Hwf' & Hf). exists m'. split; [done|]. split; [done|].
  intros f t. rewrite Hf, (proj2 (cf_find_marks bit (field_id_ x) terms _ f t Hwf1)),
    (proj2 (cf_find_touch m (field_id_ x) f t Hwf)).
  assert (Hin : (f, t) ∈ map (fun t => (field_id_ x, t)) terms ++ rest <->
                (f = field_id_ x /\ t ∈ terms) \/ (f, t) ∈ rest).
  { rewrite elem_of_app. split; intros [Hl|Hr]; [left|by right|left|by right].
    - apply list_elem_of_fmap in Hl as (t' & [= -> ->] & Ht). done.
    - destruct Hl as [-> Ht]. by apply (list_elem_of_fmap_2 (fun t => (field_id_ x, t))). }
  destruct (decide ((f, t) ∈ rest)), (decide (f = field_id_ x /\ t ∈ terms)).
  - by rewrite flag_or_idem, decide_True by (apply Hin; by right).
  - by rewrite decide_True by (apply Hin; by right).
  - by rewrite decide_True by (apply Hin; by left).
  - by rewrite decide_False by (rewrite Hin; tauto).
Qed.

(** ** The operations of one updater *)

(** Keys with the state that is written, [new] and [old] being index keys. *)
Definition diff_state (new old : list (Z * bytes)) (k : Z * bytes) : option Z :=
  if decide (k ∈ new) then if decide (k ∈ old) then None else Some kDocumentStateOK
  else if decide (k ∈ old) then Some kDocumentStateDelete else None.

Lemma field_term_list_spec m :
  cf_wf m -> NoDup (map fst (field_term_list m)) /\
  forall f t flag, (f, t, flag) ∈ field_term_list m <-> cf_find m f t = Some flag.
Proof.
  intros Hwf.
  assert (Hin : forall f t flag, (f, t, flag) ∈ field_term_list m <->
    exists kvs, (f, kvs) ∈ m /\ (t, flag) ∈ kvs).
  { intros f t flag. unfold field_term_list. rewrite list_elem_of_In, in_concat. split.
    - intros (x & Hx & Hd). apply in_map_iff in Hx as ([f' kvs] & <- & Hm). apply in_map_iff in Hd as ([t' fl'] & E & He).
      cbn in E. injection E as -> -> ->. apply list_elem_of_In in Hm, He. by exists kvs.
    - intros (kvs & Hm%list_elem_of_In & He%list_elem_of_In).
      exists (map (fun term => (f, term.1, term.2)) kvs). split; apply in_map_iff; [by exists (f, kvs)|by exists (t, flag)]. }
  split; [|intros f t flag; by rewrite Hin, <- cf_find_elem].
  clear Hin. destruct Hwf as [Hs Hf]. unfold field_term_list.
  induction m as [|[f kvs] m IH]; [constructor|].
  destruct (om_sorted_cons_inv Z.compare _ _ _ Hs) as [Hs' Hlt]. apply Forall_cons in Hf as [Hk Hf].
  cbn [map concat fst snd]. rewrite map_app. apply NoDup_app. split; [|split; [|by apply IH]].
  - rewrite map_map. cbn [fst]. rewrite <- (map_map fst (fun t => (f, t)) kvs).
    apply (NoDup_fmap_2 (fun t => (f, t))). by apply (om_sorted_NoDup bytes_cmp).
  - intros [f' t'] H1 H2. rewrite map_map in H1. apply list_elem_of_fmap in H1 as (e & [= -> ->] & _).
    apply list_elem_of_fmap in H2 as ([[f2 t2] fl2] & [= <- <-] & Hd).
    rewrite list_elem_of_In, in_concat in Hd. destruct Hd as (x & Hx & Hd).
    apply in_map_iff in Hx as ([f3 kvs'] & <- & Hm). apply in_map_iff in Hd as (e' & [= <- _ _] & _).
    rewrite <- list_elem_of_In in Hm. specialize (Hlt _ _ Hm). by rewrite Z.compare_refl in Hlt.
Qed.

Lemma diff_flags new old lnew lold :
  index_keys new = Some lnew -> index_keys old = Some lold ->
  exists m1 m2, mark_fields config 1 new [] = Some m1 /\ mark_fields config 2 old m1 = Some m2 /\ cf_wf m2 /\
    forall f t, match cf_find m2 f t with
                | Some flag => (flag = 1 /\ diff_state lnew lold (f, t) = Some kDocumentStateOK) \/
                               (flag = 2 /\ diff_state lnew lold (f, t) = Some kDocumentStateDelete) \/
                               (flag = 3 /\ diff_state lnew lold (f, t) = None)
                | None => diff_state lnew lold (f, t) = None
                end.
Proof.
  intros Hn Ho.
  destruct (mark_fields_spec 1 new [] lnew cf_wf_nil Hn) as (m1 & E1 & Hwf1 & Hf1).
  destruct (mark_fields_spec 2 old m1 lold Hwf1 Ho) as (m2 & E2 & Hwf2 & Hf2).
  exists m1, m2. split; [done|]. split; [done|]. split; [done|]. intros f t. rewrite Hf2, Hf1.
  change (cf_find [] f t) with (@None Z). unfold diff_state.
  destruct (decide ((f, t) ∈ lnew)), (decide ((f, t) ∈ lold)); cbn; [by right; right|by left|by right; left|done].
Qed.
End TermDiff.
