(* ===== verification/IndexConsistency.v ===== *)
(** Writing keeps the inverted index consistent with the stored documents.

    The batch is followed through the writers of [DocumentWriter] on any
    database that obeys the laws of [WriteDB] and any tokenizer that obeys
    those of [Tokenizer]: first what each writer leaves pending in the buffer,
    then what flushing makes of it.  The invariant, [consistent], says that a
    posting list of a table holds exactly the ids of the stored documents that
    are indexed under its key. *)
From Stdlib Require String.
From S2P Require Import Prelude Storage Coding Codec DocList MergeOperator VirtualDB Query WriteDB.
From S2P Require Import Document Utf8 Tokenizer DocumentWriter IndexWriter TermDiff.

(** ** Loops over the batch *)
Section ForDocs.
Context {S : Type} (step : SearchStatus -> S -> DocumentUpdater -> option (SearchStatus * S * DocumentUpdater)).
Context (ok : S -> Prop) (I : list DocumentUpdater -> S -> Prop) (Q : DocumentUpdater -> DocumentUpdater -> Prop).

(** A step that keeps [ok], and extends the invariant [I] of the processed
    documents when it succeeds, carries both over the loop. *)
Lemma for_docs_spec docs pre st s :
  (forall pre' du rest st s, pre ++ docs = pre' ++ du :: rest -> OK st = true -> ok s -> I pre' s ->
     exists st' s' du', step st s du = Some (st', s', du') /\ ok s' /\
       (OK st' = true -> I (pre' ++ [du]) s' /\ Q du du')) ->
  OK st = true -> ok s -> I pre s ->
  exists st' s' docs', for_docs step st s docs = Some (st', s', docs') /\ ok s' /\
    (OK st' = true -> I (pre ++ docs) s' /\ Forall2 Q docs docs').
Proof.
  revert pre st s. induction docs as [|du docs IH]; intros pre st s Hstep Hst Hok HI; cbn [for_docs].
  { exists st, s, []. split; [done|]. split; [done|]. intros _. rewrite app_nil_r. split; [exact HI|apply Forall2_nil_2]. }
  destruct (Hstep pre du docs st s eq_refl Hst Hok HI) as (st1 & s1 & du1 & -> & Hok1 & H1).
  cbn [mbind option_bind]. destruct (OK st1) eqn:E; [|exists st1, s1, (du1 :: docs); split; [done|]; split; [done|]; congruence].
  destruct (H1 eq_refl) as [HI1 HQ1].
  destruct (IH (pre ++ [du]) st1 s1) as (st2 & s2 & docs2 & -> & Hok2 & H2); [|done|done|done|].
  { intros pre' du' rest st' s' Heq. apply (Hstep pre' du' rest). by rewrite <- Heq, <- app_assoc. }
  exists st2, s2, (du1 :: docs2). split; [done|]. split; [done|]. intros E2.
  destruct (H2 E2) as [HI2 HQ2]. rewrite <- app_assoc in HI2. by split; [|constructor].
Qed.
End ForDocs.

Section Consistency.
Context {DB B : Type} `{WriteLaws DB B} `{StoreProtoLaws} `{TokenizerLaws}.
Context (codec : DocListCompressionType) (config : IndexConfig) (table : TableID) (Htable : wf_table table).

Notation find db c k := (om_find bytes_cmp k (content db c)).
Notation ikey f t := (EncodeInvertedKey table f t []).
Notation skey id := (EncodeStoredFieldKey table id []).

(** ** The inverted column in the buffer *)

(** The lists pending in the buffer, [n] bounding their length. *)
Definition plist (l : list (Z * Z)) : pending := match l with [] => PNone | _ => PMerge l end.

Lemma plist_lists l : lists_of (plist l) l.
Proof. destruct l; [by right|by left]. Qed.

Lemma plist_insert d s l : plist (om_insert Zcmp_desc d s l) = PMerge (om_insert Zcmp_desc d s l).
Proof. destruct l as [|[d' s'] l]; [done|]. cbn [om_insert]. by destruct (Zcmp_desc d d'). Qed.

Definition lists_ok (b : B) (L : bytes -> list (Z * Z)) (n : nat) : Prop :=
  forall k, pend b kInvertedIndexColumn k = plist (L k) /\ wf_docs (L k) /\ (length (L k) <= n)%nat.

Definition term_ops (l : list (Z * bytes * Z)) : list (bytes * Z) :=
  omap (fun e => let '(f, t, flag) := e in
    if (flag =? 1) || (flag =? 2)
    then Some (ikey f t, if flag =? 1 then kDocumentStateOK else kDocumentStateDelete) else None) l.

Lemma write_list_one m d s : write_list m [(d, s)] = om_insert Zcmp_desc d s m.
Proof. done. Qed.

Lemma om_insert_docs d s m :
  wf_docs m -> is_u64 d -> d <> NO_MORE_DOCS -> (s = 0 \/ s = 1) -> wf_docs (om_insert Zcmp_desc d s m).
Proof.
  rewrite !wf_docs_alt. intros [Hs Hm] Hd Hn Hst. split; [by apply (om_insert_sorted Zcmp_desc)|].
  apply Forall_forall. intros [d' s'] [[= -> ->]|Hin]%(om_insert_in Zcmp_desc); [split; [split; [exact Hd|exact Hst]|exact Hn]|].
  rewrite Forall_forall in Hm. by apply (Hm (d', s')).
Qed.

Lemma single_docs d s : is_u64 d -> d <> NO_MORE_DOCS -> (s = 0 \/ s = 1) -> wf_docs [(d, s)].
Proof. intros. apply (om_insert_docs d s []); [apply wf_docs_nil|done..]. Qed.

Lemma write_terms_spec id l st b L n :
  is_u64 id -> id <> NO_MORE_DOCS -> Z.of_nat n + 1 < 2 ^ 32 ->
  NoDup (map fst (term_ops l)) -> OK st = true -> wb_ok b -> lists_ok b L (S n) ->
  (forall k, k ∈ map fst (term_ops l) -> (length (L k) <= n)%nat) ->
  exists s' b', write_terms codec table id l st b = Some (s', b') /\ wb_ok b' /\
    (OK s' = true -> (forall c k, c <> kInvertedIndexColumn -> pend b' c k = pend b c k) /\
     exists L', lists_ok b' L' (S n) /\
       (forall k, k ∉ map fst (term_ops l) -> L' k = L k) /\
       (forall k s, (k, s) ∈ term_ops l -> L' k = om_insert Zcmp_desc id s (L k))).
Proof.
  intros Hid Hn0 Hn. revert st b L. induction l as [|[[f t] flag] l IH]; intros st b L Hnd Hst Hb HL Hlen;
    cbn [write_terms].
  { exists st, b. split; [done|]. split; [done|]. intros _. split; [done|]. exists L.
    split; [done|]. split; [done|]. by intros k s ?%elem_of_nil. }
  cbn [term_ops omap list_omap] in Hnd, Hlen |- *. fold (term_ops l) in *.
  destruct ((flag =? 1) || (flag =? 2)); [|by apply IH].
  set (s := if flag =? 1 then kDocumentStateOK else kDocumentStateDelete) in *.
  assert (Hs : s = 0 \/ s = 1) by (unfold s; destruct (flag =? 1); [by left|by right]).
  cbn [map fst] in Hnd, Hlen. apply NoDup_cons in Hnd as [Hni Hnd].
  destruct (is_doclist_write codec [(id, s)] (single_docs id s Hid Hn0 Hs)) as (v & Hv & Hdv); [simpl; lia|].
  rewrite Hv. cbn [mbind option_bind].
  destruct (HL (ikey f t)) as (Hp & Hwf & _). pose proof (Hlen (ikey f t) ltac:(left)) as Hl.
  destruct (Merge_law b (ikey f t) v (L (ikey f t)) [(id, s)]) as (s1 & b1 & Hm & Hb1 & Hp1); [done|rewrite Hp; apply plist_lists|done|simpl; lia|].
  rewrite Hm. cbn [mbind option_bind]. destruct (OK s1) eqn:E1; [|exists s1, b1; split; [done|]; split; [done|]; congruence].
  specialize (Hp1 eq_refl). rewrite write_list_one in Hp1.
  set (L1 := fun k => if decide (k = ikey f t) then om_insert Zcmp_desc id s (L k) else L k).
  destruct (IH s1 b1 L1) as (s2 & b2 & Hw & Hb2 & Hr2); [done|done|done| | |].
  { intros k. unfold L1. rewrite Hp1. destruct (decide (k = ikey f t)) as [->|Hne].
    - rewrite decide_True by done. split; [by rewrite plist_insert|]. split; [by apply om_insert_docs|].
      pose proof (length_om_insert id s (L (ikey f t))). lia.
    - rewrite decide_False by naive_solver. apply HL. }
  { intros k Hk. unfold L1. rewrite decide_False by (intros ->; done). apply Hlen. by right. }
  exists s2, b2. split; [done|]. split; [done|]. intros E2. destruct (Hr2 E2) as (Hc & L2 & HL2 & Ho2 & Hi2).
  split; [intros c k Hne; rewrite Hc, Hp1, decide_False by naive_solver; done|].
  exists L2. split; [done|]. split.
  - intros k [Hk1 Hk2]%not_elem_of_cons. rewrite Ho2 by done. unfold L1. by rewrite decide_False.
  - intros k s' [[= -> ->]|Hk]%elem_of_cons.
    + rewrite Ho2 by done. unfold L1. by rewrite decide_True.
    + rewrite (Hi2 k s' Hk). unfold L1. rewrite decide_False; [done|].
      intros ->. apply Hni. by apply (list_elem_of_fmap_2 fst _ (ikey f t, s')).
Qed.

(** ** One updater *)
Lemma assoc_find (l : list (bytes * Z)) :
  NoDup (map fst l) -> exists op, forall k s, op k = Some s <-> (k, s) ∈ l.
Proof.
  induction l as [|[k0 s0] l IH]; intros Hnd.
  { exists (fun _ => None). intros k s. split; [done|by intros ?%elem_of_nil]. }
  cbn [map fst] in Hnd. apply NoDup_cons in Hnd as [Hni Hnd]. destruct (IH Hnd) as [op Hop].
  exists (fun k => if decide (k = k0) then Some s0 else op k). intros k s.
  rewrite elem_of_cons, <- Hop. destruct (decide (k = k0)) as [->|Hne]; [|naive_solver].
  split; [intros [= <-]; by left|]. intros [[= ->]|Hin]; [done|]. apply Hop in Hin. exfalso. apply Hni.
  by apply (list_elem_of_fmap_2 fst l (k0, s)).
Qed.

Definition ifield_ok (f : IndexField) : Prop :=
  is_byte (field_id_ f) /\ is_byte (field_flag_ f) /\ NotStoreInvertTerm (field_flag_ f) = false /\
  terms_ok (terms_ f).

Definition du_ok (du : DocumentUpdater) : Prop :=
  is_u64 (document_id_ (new_document_ du)) /\ document_id_ (new_document_ du) <> NO_MORE_DOCS /\
  Forall ifield_ok (fields_ (new_document_ du)) /\ Forall ifield_ok (fields_ (old_document_ du)).

(** The fields the updater leaves behind. *)
Definition kept_fields (du : DocumentUpdater) : list IndexField :=
  if updater_Delete du then [] else fields_ (new_document_ du).

(** The updater writes state [s] under the key [k]. *)
Definition du_op (du : DocumentUpdater) (k : bytes) (s : Z) : Prop :=
  exists ln lo f t, index_keys config (kept_fields du) = Some ln /\
    index_keys config (fields_ (old_document_ du)) = Some lo /\
    k = ikey f t /\ diff_state ln lo (f, t) = Some s.

Lemma ifields_keys fields : Forall ifield_ok fields ->
  exists l, index_keys config fields = Some l /\ forall f t, (f, t) ∈ l -> is_byte f.
Proof.
  intros Hf. destruct (index_keys_total config fields) as [l Hl];
    [by eapply Forall_impl; [exact Hf|intros f (_ & _ & _ & ? & ?)]|].
  exists l. split; [done|]. revert l Hl. induction Hf as [|x fields Hx _ IH]; intros l; cbn [index_keys].
  { intros [= <-] f t ?%elem_of_nil. done. }
  destruct (index_terms config x (terms_ x)); [|done]. destruct (index_keys config fields) as [rest|]; [|done].
  cbn [mbind option_bind]. intros [= <-] f t [Hin|Hin]%elem_of_app; [|by eapply IH].
  apply list_elem_of_fmap in Hin as (t' & [= -> _] & _). apply Hx.
Qed.

Lemma kept_ok du : du_ok du -> Forall ifield_ok (kept_fields du).
Proof. intros (_ & _ & Hn & _). unfold kept_fields. by destruct (updater_Delete du). Qed.

Lemma diff_state_in ln lo k s : diff_state ln lo k = Some s -> (k ∈ ln \/ k ∈ lo) /\ (s = 0 \/ s = 1).
Proof.
  unfold diff_state. destruct (decide (k ∈ ln)), (decide (k ∈ lo)); try done; intros [= <-];
    (split; first [by left|by right]).
Qed.

Lemma ikey_inj f t f' t' : is_byte f -> is_byte f' -> ikey f t = ikey f' t' -> f = f' /\ t = t'.
Proof.
  intros Hf Hf' E. destruct (EncodeInvertedKey_inj table table f f' t t' Htable Htable Hf Hf' E) as (_ & ? & ?). done.
Qed.

Lemma inverted_one_spec du st b L n :
  du_ok du -> OK (status_ du) = true -> Z.of_nat n + 1 < 2 ^ 32 ->
  OK st = true -> wb_ok b -> lists_ok b L n ->
  exists s' b', inverted_one codec config table st b du = Some (s', b', du) /\ wb_ok b' /\
    (OK s' = true -> (forall c k, c <> kInvertedIndexColumn -> pend b' c k = pend b c k) /\
     exists L', lists_ok b' L' (S n) /\
       exists op, (forall k s, op k = Some s <-> du_op du k s) /\
         forall k, L' k = match op k with
                          | Some s => om_insert Zcmp_desc (document_id_ (new_document_ du)) s (L k)
                          | None => L k
                          end).
Proof.
  intros Hdu Hst Hn Hs Hb HL. pose proof Hdu as (Hid & Hid0 & _ & Hof). unfold inverted_one. rewrite Hst.
  destruct (ifields_keys _ (kept_ok du Hdu)) as (ln & Eln & Hbn), (ifields_keys _ Hof) as (lo & Elo & Hbo).
  destruct (diff_flags config _ _ _ _ Eln Elo) as (m1 & m2 & E1 & E2 & Hwf & Hfl).
  assert (E1' : (if negb (updater_Delete du) then mark_fields config 1 (fields_ (new_document_ du)) [] else Some [])
                = Some m1).
  { unfold kept_fields in E1. by destruct (updater_Delete du). }
  rewrite E1'. cbn [mbind option_bind]. rewrite E2. cbn [mbind option_bind].
  destruct (field_term_list_spec m2 Hwf) as [Hnd Hin].
  set (l := field_term_list m2) in *.
  assert (Hops : forall k s, (k, s) ∈ term_ops l <-> du_op du k s).
  { intros k s. unfold term_ops. rewrite list_elem_of_omap. split.
    - intros ([[f t] flag] & Hf & Heq). apply Hin in Hf. specialize (Hfl f t). rewrite Hf in Hfl.
      exists ln, lo, f, t. split; [done|]. split; [done|].
      destruct Hfl as [[-> Hd]|[[-> Hd]|[-> Hd]]]; cbn in Heq; [|  |done]; injection Heq as <- <-; by split.
    - intros (ln' & lo' & f & t & Hn' & Ho' & -> & Hd). rewrite Eln in Hn'. rewrite Elo in Ho'.
      injection Hn' as <-. injection Ho' as <-. specialize (Hfl f t).
      destruct (cf_find m2 f t) as [flag|] eqn:Ef; [|congruence].
      exists (f, t, flag). split; [by apply Hin|]. destruct Hfl as [[-> Hd']|[[-> Hd']|[-> Hd']]]; cbn; congruence. }
  assert (Hbyte : forall f t flag, (f, t, flag) ∈ l -> flag = 1 \/ flag = 2 -> is_byte f).
  { intros f t flag Hf Hfl12. apply Hin in Hf. specialize (Hfl f t). rewrite Hf in Hfl.
    assert (exists s, diff_state ln lo (f, t) = Some s) as [s Hd]
      by (destruct Hfl as [[_ ?]|[[_ ?]|[-> _]]]; [by eexists|by eexists|lia]).
    apply diff_state_in in Hd as [[?|?] _]; [by eapply Hbn|by eapply Hbo]. }
  assert (Hnd' : NoDup (map fst (term_ops l))).
  { clear -Hnd Hbyte Htable. unfold term_ops. induction l as [|[[f t] flag] l IH]; [constructor|].
    cbn [map fst] in Hnd. apply NoDup_cons in Hnd as [Hni Hnd].
    assert (IH' := IH Hnd (fun f t flag Hf => Hbyte f t flag ltac:(by right))). clear IH.
    cbn [omap list_omap]. destruct ((flag =? 1) || (flag =? 2)) eqn:Efl; [|done]. cbn [map fst].
    constructor; [|done]. intros Hk. apply list_elem_of_fmap in Hk as ([k s] & Ek & Hk). cbn in Ek. subst k.
    apply list_elem_of_omap in Hk as ([[f' t'] flag'] & Hf' & Heq).
    destruct ((flag' =? 1) || (flag' =? 2)) eqn:Efl'; [|done].
    pose proof (f_equal (fun o => match o with Some x => fst x | None => [] end) Heq) as Ek. cbn [fst] in Ek.
    assert (is_byte f') by (eapply Hbyte; [by right|]; bool_simp; lia).
    assert (is_byte f) by (eapply Hbyte; [by left|]; bool_simp; lia).
    apply ikey_inj in Ek as [-> ->]; [|done|done]. apply Hni. by apply (list_elem_of_fmap_2 fst l (f, t, flag')). }
  destruct (write_terms_spec (document_id_ (new_document_ du)) l st b L n) as (s' & b' & Hw & Hb' & Hr);
    [done|done|done|done|done|done| | |].
  { intros k. destruct (HL k) as (? & ? & ?). by split_and!; [| |lia]. }
  { intros k _. by destruct (HL k) as (? & ? & ?). }
  rewrite Hw. cbn [mbind option_bind]. exists s', b'. split; [done|]. split; [done|]. intros E.
  destruct (Hr E) as (Hc & L' & HL' & Ho & Hi). split; [done|]. exists L'. split; [done|].
  destruct (assoc_find (term_ops l) Hnd') as [op Hop]. exists op. split; [intros k s; by rewrite Hop|]. intros k.
  destruct (op k) as [s|] eqn:Eop; [by apply Hi, Hop|]. apply Ho. intros Hk.
  apply list_elem_of_fmap in Hk as ([k' s] & -> & Hk). apply Hop in Hk. cbn in Eop. congruence.
Qed.

(** ** The batch *)
Definition ids (documents : list DocumentUpdater) : list Z :=
  map (fun du => document_id_ (new_document_ du)) documents.

Definition batch_op (documents : list DocumentUpdater) (k : bytes) (d s : Z) : Prop :=
  exists du, du ∈ documents /\ OK (status_ du) = true /\ document_id_ (new_document_ du) = d /\ du_op du k s.

Definition batch_ok (documents : list DocumentUpdater) : Prop :=
  NoDup (ids documents) /\ Z.of_nat (length documents) < 2 ^ 32 /\
  Forall (fun du => OK (status_ du) = true -> du_ok du) documents.

Lemma batch_op_snoc docs du k d s :
  batch_op (docs ++ [du]) k d s <->
  batch_op docs k d s \/ (OK (status_ du) = true /\ document_id_ (new_document_ du) = d /\ du_op du k s).
Proof.
  unfold batch_op. split.
  - intros (x & [Hx|Hx%list_elem_of_singleton]%elem_of_app & Hr); [left; by exists x|subst x; by right].
  - intros [(x & Hx & Hr)|Hr]; [exists x|exists du]; rewrite elem_of_app, list_elem_of_singleton; split; auto.
Qed.

Lemma batch_op_id docs k d s : batch_op docs k d s -> d ∈ ids docs.
Proof.
  intros (du & Hin & _ & <- & _). by apply (list_elem_of_fmap_2 (fun du => document_id_ (new_document_ du))).
Qed.

Lemma lists_ok_mono b L n m : lists_ok b L n -> (n <= m)%nat -> lists_ok b L m.
Proof. intros HL Hle k. destruct (HL k) as (? & ? & ?). by split_and!; [| |lia]. Qed.

Lemma WriteInvertedIndex_spec docs b :
  batch_ok docs -> wb_ok b -> (forall k, pend b kInvertedIndexColumn k = PNone) ->
  exists s b' docs', WriteInvertedIndex codec config table docs b = Some (s, b', docs') /\ wb_ok b' /\
    (OK s = true -> docs' = docs /\ (forall c k, c <> kInvertedIndexColumn -> pend b' c k = pend b c k) /\
     exists L, lists_ok b' L (length docs) /\
       forall k d s, om_find Zcmp_desc d (L k) = Some s <-> batch_op docs k d s).
Proof.
  intros (Hnd & Hlen & Hok) Hb Hnone.
  destruct (for_docs_spec (inverted_one codec config table) wb_ok
    (fun pre b' => (forall c k, c <> kInvertedIndexColumn -> pend b' c k = pend b c k) /\
       exists L, lists_ok b' L (length pre) /\
         forall k d s, om_find Zcmp_desc d (L k) = Some s <-> batch_op pre k d s)
    (fun du du' => du' = du) docs [] status_ok b) as (s & b' & docs' & Hw & Hb' & Hr); [|done|done| |].
  - cbn [app]. intros pre du rest st b1 Heq Hst Hb1 (Hc & L & HL & HLf).
    assert (Hdu : OK (status_ du) = true -> du_ok du).
    { rewrite Forall_forall in Hok. apply Hok. rewrite Heq. apply elem_of_app. right. by left. }
    assert (Hfresh : document_id_ (new_document_ du) ∉ ids pre).
    { unfold ids in Hnd. rewrite Heq, map_app in Hnd. apply NoDup_app in Hnd as (_ & Hd & _).
      intros Hin. apply (Hd _ Hin). by left. }
    assert (Hl : (S (length pre) <= length docs)%nat) by (rewrite Heq, length_app; simpl; lia).
    rewrite length_app. cbn [length]. rewrite Nat.add_1_r.
    destruct (OK (status_ du)) eqn:Es.
    + destruct (inverted_one_spec du st b1 L (length pre)) as (s' & b' & Hs' & Hb' & Hr); [auto|done|lia|done..|].
      exists s', b', du. split; [done|]. split; [done|]. intros E. split; [|done].
      destruct (Hr E) as (Hc' & L' & HL' & op & Hop & HLe).
      split; [intros c k Hne; by rewrite Hc', Hc|]. exists L'. split; [done|]. intros k d s.
      rewrite batch_op_snoc, <- HLf, HLe. destruct (HL k) as (_ & Hwf & _). apply wf_docs_alt in Hwf as [Hs _].
      destruct (op k) as [s0|] eqn:Eop.
      * rewrite (om_find_insert Zcmp_desc) by done. destruct (Zcmp_desc d (document_id_ (new_document_ du))) eqn:Ec.
        -- apply (cmp_eq Zcmp_desc) in Ec as ->. split.
           ++ intros [= <-]. right. split; [done|]. split; [done|]. by apply Hop.
           ++ intros [Hf|(_ & _ & Hd)]; [|apply Hop in Hd; congruence].
              apply HLf, batch_op_id in Hf. done.
        -- split; [by left|]. intros [?|(_ & <- & _)]; [done|]. by rewrite (cmp_refl Zcmp_desc) in Ec.
        -- split; [by left|]. intros [?|(_ & <- & _)]; [done|]. by rewrite (cmp_refl Zcmp_desc) in Ec.
      * split; [by left|]. intros [?|(_ & _ & Hd)]; [done|]. apply Hop in Hd. congruence.
    + unfold inverted_one. rewrite Es. exists st, b1, du. split; [done|]. split; [done|]. intros _. split; [|done].
      split; [done|]. exists L. split; [apply (lists_ok_mono _ _ _ _ HL); lia|]. intros k d s.
      rewrite HLf, batch_op_snoc. split; [by left|]. intros [?|(? & _)]; [done|congruence].
  - split; [done|]. exists (fun _ => []). split.
    + intros k. rewrite Hnone. split; [done|]. split; [apply wf_docs_nil|done].
    + intros k d s. split; [done|]. intros (du & Hin%elem_of_nil & _). done.
  - exists s, b', docs'. split; [done|]. split; [done|]. intros E. destruct (Hr E) as [(Hc & L & HL & HLf) HQ].
    split; [|split; [done|by exists L]]. clear -HQ. by induction HQ as [|?? ?? -> _ ->].
Qed.

(** ** Stored fields and doc values in the buffer *)
Definition restatus (du du' : DocumentUpdater) : Prop :=
  exists s, OK s = OK (status_ du) /\ du' = set_status du s.

(** The updater leaves [p] pending for its key in the stored column. *)
Definition stored_op (du : DocumentUpdater) (k : bytes) (p : pending) : Prop :=
  OK (status_ du) = true /\ k = skey (document_id_ (new_document_ du)) /\
  if updater_Delete du then p = PDelete
  else exists v, fst (SerializeToBytes (new_document_ du) 0) = Some v /\ p = PPut v.

Definition stored_pend (b0 : B) (documents : list DocumentUpdater) (b : B) : Prop :=
  (forall c k, c <> kStoredFieldColumn -> pend b c k = pend b0 c k) /\
  (forall du k p, du ∈ documents -> stored_op du k p -> pend b kStoredFieldColumn k = p) /\
  (forall k, (forall du, du ∈ documents -> OK (status_ du) = true -> k <> skey (document_id_ (new_document_ du))) ->
     pend b kStoredFieldColumn k = pend b0 kStoredFieldColumn k) /\
  (forall du, du ∈ documents -> OK (status_ du) = true ->
     exists p, stored_op du (skey (document_id_ (new_document_ du))) p).

Lemma restatus_refl du : restatus du du.
Proof. exists (status_ du). by destruct du. Qed.

(** A step that writes the stored key of [du]. *)
Lemma stored_pend_snoc b0 docs du b b' p :
  NoDup (ids (docs ++ [du])) ->
  Forall (fun du => OK (status_ du) = true -> du_ok du) (docs ++ [du]) ->
  OK (status_ du) = true -> stored_pend b0 docs b ->
  (forall c k, pend b' c k =
     if decide (c = kStoredFieldColumn /\ k = skey (document_id_ (new_document_ du))) then p else pend b c k) ->
  stored_op du (skey (document_id_ (new_document_ du))) p ->
  stored_pend b0 (docs ++ [du]) b'.
Proof.
  intros Hnd Hok Hst (Hc & Ho & Hn & He) Hp Hq0.
  assert (Hq : forall q, stored_op du (skey (document_id_ (new_document_ du))) q -> q = p).
  { intros q (_ & _ & Hq). destruct Hq0 as (_ & _ & Hq0). destruct (updater_Delete du); [congruence|].
    destruct Hq as (v & Hv & ->), Hq0 as (v' & Hv' & ->). congruence. } apply Forall_app in Hok as [Hokd Hok]. apply Forall_cons in Hok as [Hdu _].
  destruct (Hdu Hst) as (Hid & _). split; [|split; [|split]].
  4:{ intros du1 [Hin| ->%list_elem_of_singleton]%elem_of_app Hst1; [by apply He|by exists p]. }
  - intros c k Hne. rewrite Hp, decide_False by naive_solver. by apply Hc.
  - intros du1 k q [Hin| ->%list_elem_of_singleton]%elem_of_app Hop; rewrite Hp.
    + rewrite decide_False; [by apply (Ho du1)|]. destruct Hop as (Hst1 & -> & _). intros [_ E].
      rewrite Forall_forall in Hokd. destruct (Hokd _ Hin Hst1) as (Hid1 & _).
      apply EncodeStoredFieldKey_inj in E as [_ E]; [|done..].
      unfold ids in Hnd. rewrite map_app in Hnd. apply NoDup_app in Hnd as (_ & Hd & _).
      apply (Hd (document_id_ (new_document_ du1))); [by apply (list_elem_of_fmap_2 (fun du => document_id_ (new_document_ du)))|].
      rewrite E. by left.
    + pose proof Hop as (_ & Ek & _). rewrite Ek, decide_True by done. subst k. symmetry. by apply Hq.
  - intros k Hk. rewrite Hp, decide_False.
    + apply Hn. intros du1 Hin. apply Hk. apply elem_of_app. by left.
    + intros [_ ->]. apply (Hk du); [apply elem_of_app; right; by left|done|done].
Qed.

Lemma WriteStoredField_spec docs b :
  batch_ok docs -> wb_ok b ->
  exists s b' docs', WriteStoredField table docs b = Some (s, b', docs') /\ wb_ok b' /\
    (OK s = true -> Forall2 restatus docs docs' /\ stored_pend b docs b').
Proof.
  intros (Hnd & _ & Hok) Hb.
  destruct (for_docs_spec (stored_one table) wb_ok (stored_pend b) restatus docs [] status_ok b)
    as (s & b' & docs' & Hw & Hb' & Hr); [|done|done| |].
  - cbn [app]. intros pre du rest st b1 Heq Hst Hb1 HI.
    assert (Hnd' : NoDup (ids (pre ++ [du]))).
    { unfold ids in *. rewrite Heq, map_app in Hnd. rewrite map_app. apply NoDup_app in Hnd as (H1' & H2' & H3').
      apply NoDup_app. split; [done|]. split; [|by apply NoDup_singleton].
      intros x Hx Hx'. apply (H2' x Hx). apply list_elem_of_singleton in Hx' as ->. by left. }
    assert (Hok' : Forall (fun du => OK (status_ du) = true -> du_ok du) (pre ++ [du])).
    { rewrite Heq in Hok. apply Forall_app in Hok as [? Hok]. apply Forall_cons in Hok as [? _].
      apply Forall_app. split; [done|]. by apply Forall_singleton. }
    unfold stored_one. destruct (OK (status_ du)) eqn:Es.
    + destruct (updater_Delete du) eqn:Ed; cbn [negb].
      * destruct (Delete_law b1 kStoredFieldColumn (skey (document_id_ (new_document_ du))) Hb1) as [Hb2 Hp2].
        destruct (Delete b1 _ _) as [s2 b2]. cbn [fst snd mbind option_bind] in *.
        eexists _, b2, (set_status du s2). split; [done|]. split; [done|]. cbn [status_ set_status].
        destruct (OK s2) eqn:E2; cbn [negb]; [|congruence]. intros _. split; [|by exists s2; rewrite Es].
        eapply stored_pend_snoc; [done|done|done|done|by apply Hp2|].
        split; [done|]. split; [done|]. by rewrite Ed.
      * destruct (fst (SerializeToBytes (new_document_ du) 0)) as [v|] eqn:Ev.
        -- destruct (Put_law b1 kStoredFieldColumn (skey (document_id_ (new_document_ du))) v Hb1) as [Hb2 Hp2].
           destruct (Put b1 _ _ _) as [s2 b2]. cbn [fst snd] in *.
           unfold SerializeToBytes in Ev. cbn [fst] in Ev. rewrite (ParseDocument_Serialize _ _ Ev).
           cbn [mbind option_bind]. eexists _, b2, (set_status du s2). split; [done|]. split; [done|].
           cbn [status_ set_status]. destruct (OK s2) eqn:E2; cbn [negb]; [|congruence]. intros _.
           split; [|by exists s2; rewrite Es]. eapply stored_pend_snoc; [done|done|done|done|by apply Hp2|].
           split; [done|]. split; [done|]. rewrite Ed. by exists v.
        -- cbn [mbind option_bind]. eexists _, b1, _. split; [done|]. split; [done|]. done.
    + exists st, b1, du. split; [done|]. split; [done|]. intros _. split; [|apply restatus_refl].
      destruct HI as (Hc & Ho & Hn & He). split; [done|]. split; [|split].
      3:{ intros du1 [Hin| ->%list_elem_of_singleton]%elem_of_app Hst1; [by apply He|congruence]. }
      * intros du1 k p [Hin| ->%list_elem_of_singleton]%elem_of_app Hop; [by apply (Ho du1)|].
        destruct Hop as [? _]. congruence.
      * intros k Hk. apply Hn. intros du1 Hin. apply Hk. apply elem_of_app. by left.
  - split; [done|]. split; [by intros du k p ?%elem_of_nil|]. split; [done|by intros du ?%elem_of_nil].
  - exists s, b', docs'. split; [done|]. split; [done|]. intros E. destruct (Hr E) as [HI HQ]. done.
Qed.

Lemma WriteDocValue_spec docs b :
  wb_ok b ->
  exists s b' docs', WriteDocValue table docs b = Some (s, b', docs') /\ wb_ok b' /\
    (OK s = true -> forall c k, c <> kDocValueColumn -> pend b' c k = pend b c k).
Proof.
  intros Hb.
  destruct (for_docs_spec (docvalue_one table) wb_ok
    (fun _ b' => forall c k, c <> kDocValueColumn -> pend b' c k = pend b c k) (fun _ _ => True) docs [] status_ok b)
    as (s & b' & docs' & Hw & Hb' & Hr); [|done|done|done|].
  - intros pre du rest st b1 _ Hst Hb1 HI. unfold docvalue_one.
    destruct (OK (status_ du)) eqn:Es; [|exists st, b1, du; by split_and!].
    set (k := skey _).
    assert (HD : forall u, let r := Delete b1 kDocValueColumn k in
      exists st' s' du', Some (if negb (OK (status_ (set_status u r.1))) then status_ (set_status u r.1) else st, r.2,
                               set_status u r.1) = Some (st', s', du') /\ wb_ok s' /\
        (OK st' = true -> (forall c k, c <> kDocValueColumn -> pend s' c k = pend b c k) /\ True)).
    { intros u r. destruct (Delete_law b1 kDocValueColumn k Hb1) as [Hb2 Hp2]. eexists _, _, _. split; [done|].
      split; [done|]. cbn [status_ set_status]. fold r in Hp2 |- *. destruct (OK r.1) eqn:E; cbn [negb]; [|congruence].
      intros _. split; [|done]. intros c k' Hne. rewrite (Hp2 eq_refl), decide_False by naive_solver. by apply HI. }
    assert (HN : forall u, OK (status_ u) = true ->
      exists st' s' du', Some (if negb (OK (status_ u)) then status_ u else st, b1, u) = Some (st', s', du') /\
        wb_ok s' /\ (OK st' = true -> (forall c k, c <> kDocValueColumn -> pend s' c k = pend b c k) /\ True)).
    { intros u E. rewrite E. eexists _, _, _. split; [done|]. split; [done|]. intros _. by split. }
    cbv zeta. set (dv := if NeedMergeDocValue du then _ else _). set (du2 := set_new_docvalue du dv).
    specialize (HD du2). cbv zeta in HD. pose proof (HN du2 Es) as HN2. clearbody du2. clear HN Es.
    destruct (updater_Delete du2); cbn [negb].
    + destruct (existsb _ _); [|exact HN2]. destruct (Delete b1 kDocValueColumn k) as [s2 b2]. exact HD.
    + destruct (SerializeToBytes dv 1) as [[v|] have]; [destruct have|].
      * destruct (Put_law b1 kDocValueColumn k v Hb1) as [Hb2 Hp2]. destruct (Put b1 kDocValueColumn k v) as [s2 b2].
        cbn [fst snd] in *. eexists _, _, _. split; [done|]. split; [done|]. cbn [status_ set_status].
        destruct (OK s2) eqn:E; cbn [negb]; [|congruence]. intros _. split; [|done].
        intros c k' Hne. rewrite (Hp2 eq_refl), decide_False by naive_solver. by apply HI.
      * destruct (existsb _ _); [|exact HN2]. destruct (Delete b1 kDocValueColumn k) as [s2 b2]. exact HD.
      * eexists _, _, _. split; [done|]. split; [done|]. done.
  - exists s, b', docs'. split; [done|]. split; [done|]. intros E. by apply Hr.
Qed.

(** ** Before writing *)

(** What a caller hands in: fields with byte ids and flags whose terms are
    kept in the stored column, and which the tokenizer accepts. *)
Definition ifield_in (f : IndexField) : Prop :=
  is_byte (field_id_ f) /\ is_byte (field_flag_ f) /\ NotStoreInvertTerm (field_flag_ f) = false /\ field_ok f /\
  accepted f.

Definition input_ok (du : DocumentUpdater) : Prop :=
  is_u64 (document_id_ (new_document_ du)) /\ document_id_ (new_document_ du) <> NO_MORE_DOCS /\
  Forall ifield_in (fields_ (new_document_ du)) /\ Forall ifield_ok (fields_ (old_document_ du)).

Definition tokenized (du : DocumentUpdater) (d : Document) : Prop :=
  if updater_Delete du || negb (OK (status_ du)) then d = new_document_ du
  else Do (new_document_ du) = Some (true, d).

Definition keeps_old (du : DocumentUpdater) : bool :=
  bool_decide (update_type_ du = kDocumentDeleteType) || bool_decide (update_type_ du = kDocumentReplaceType).

(** The updater as the writers see it. *)
Definition prewrite (du du2 : DocumentUpdater) : Prop :=
  exists d, tokenized du d /\
    du2 = set_new du (if keeps_old du then d else merge_fields d (old_document_ du)).

Lemma ifield_in_ok f : ifield_in f -> ifield_ok f.
Proof. intros (? & ? & ? & [? _] & _). by split_and!. Qed.

Lemma set_new_id du : set_new du (new_document_ du) = du.
Proof. by destruct du. Qed.

Lemma RunTokenizer_spec docs :
  Forall (fun du => OK (status_ du) = true -> input_ok du) docs ->
  exists s docs', RunTokenizer docs = Some (s, docs') /\
    (OK s = true -> Forall2 (fun du du' => exists d, tokenized du d /\ du' = set_new du d) docs docs').
Proof.
  intros Hin. unfold RunTokenizer.
  destruct (for_docs_spec tokenize_one (fun _ => True) (fun _ _ => True)
    (fun du du' => exists d, tokenized du d /\ du' = set_new du d) docs [] status_ok tt)
    as (s & b' & docs' & Hw & _ & Hr); [|done|done|done|].
  - cbn [app]. intros pre du rest st [] Heq Hst _ _. unfold tokenize_one, tokenized.
    destruct (updater_Delete du) eqn:Ed.
    { exists st, tt, du. split; [done|]. split; [done|]. intros _. split; [done|]. exists (new_document_ du).
      by rewrite set_new_id. }
    destruct (OK (status_ du)) eqn:Es; cbn [orb negb].
    + assert (input_ok du) as (_ & _ & Hf & _)
        by (rewrite Forall_forall in Hin; apply Hin; [rewrite Heq; apply elem_of_app; right; by left|done]).
      destruct (Do_law (new_document_ du)) as (ok & d & HD & _);
        [by eapply Forall_impl; [exact Hf|intros f (_ & _ & _ & ? & ?)]|].
      rewrite HD. cbn [mbind option_bind]. destruct ok.
      * eexists _, _, _. split; [done|]. split; [done|]. intros _. split; [done|]. by exists d.
      * eexists _, _, _. split; [done|]. split; [done|]. done.
    + exists st, tt, du. split; [done|]. split; [done|]. intros _. split; [done|]. exists (new_document_ du).
      by rewrite set_new_id.
  - rewrite Hw. cbn [mbind option_bind]. exists s, docs'. split; [done|]. intros E. by apply Hr.
Qed.

Lemma merge_fields_ok d o :
  Forall ifield_ok (fields_ d) -> Forall ifield_ok (fields_ o) ->
  Forall ifield_ok (fields_ (merge_fields d o)) /\ document_id_ (merge_fields d o) = document_id_ d.
Proof.
  unfold merge_fields. intros Hd Ho. revert d Hd.
  induction Ho as [|f l Hf _ IH]; intros d Hd; cbn [fold_left]; [done|].
  destruct (FindField d (field_id_ f)); [by apply IH|].
  destruct (IH (AddField d (CopyFrom new_field f))) as [H1' H2']; [|by split].
  cbn [fields_ AddField]. apply Forall_app. split; [done|]. apply Forall_singleton. by destruct f.
Qed.

Lemma tokenized_ok du d :
  (OK (status_ du) = true -> input_ok du) -> tokenized du d ->
  document_id_ d = document_id_ (new_document_ du) /\ (OK (status_ du) = true -> Forall ifield_ok (fields_ d)).
Proof.
  intros Hin. unfold tokenized. destruct (updater_Delete du); cbn [orb].
  { intros ->. split; [done|]. intros E. destruct (Hin E) as (_ & _ & Hf & _).
    eapply Forall_impl; [exact Hf|apply ifield_in_ok]. }
  destruct (OK (status_ du)) eqn:E; cbn [negb]; [|by intros ->].
  intros HD. destruct (Hin eq_refl) as (_ & _ & Hf & _).
  destruct (Do_law (new_document_ du)) as (ok & d' & HD' & Hr);
    [by eapply Forall_impl; [exact Hf|intros f (_ & _ & _ & ? & ?)]|].
  rewrite HD in HD'. injection HD' as <- <-. destruct (Hr eq_refl) as (ts & Hlen & Hts & ->).
  split; [done|]. intros _. cbn [fields_]. clear -Hf Hts. revert ts Hts.
  induction Hf as [|f l Hf _ IH]; intros [|t ts] Hts; [constructor..|].
  apply Forall_cons in Hts as [Ht Hts]. cbn [zip_with]. constructor; [|by apply IH].
  destruct Hf as (? & ? & ? & _). by split_and!.
Qed.

Lemma prewrite_ok du du2 :
  (OK (status_ du) = true -> input_ok du) -> prewrite du du2 ->
  status_ du2 = status_ du /\ update_type_ du2 = update_type_ du /\ old_document_ du2 = old_document_ du /\
  document_id_ (new_document_ du2) = document_id_ (new_document_ du) /\ (OK (status_ du) = true -> du_ok du2).
Proof.
  intros Hin (d & Ht & ->). destruct (tokenized_ok du d Hin Ht) as [Hid Hf]. cbn [set_new status_ update_type_
    old_document_ new_document_].
  assert (Hn : document_id_ (if keeps_old du then d else merge_fields d (old_document_ du)) =
               document_id_ (new_document_ du) /\
             (OK (status_ du) = true ->
              Forall ifield_ok (fields_ (if keeps_old du then d else merge_fields d (old_document_ du))))).
  { destruct (keeps_old du); [done|]. split.
    - rewrite <- Hid. unfold merge_fields. clear. generalize (fields_ (old_document_ du)) as l. intros l. revert d.
      induction l as [|f l IH]; intros d; [done|]. cbn [fold_left]. destruct (FindField d (field_id_ f)); [apply IH|].
      by rewrite IH.
    - intros E. apply merge_fields_ok; [by apply Hf|]. by destruct (Hin E) as (_ & _ & _ & ?). }
  destruct Hn as [Hn1 Hn2]. do 3 (split; [done|]). split; [done|]. intros E.
  destruct (Hin E) as (Hid' & Hid0 & _ & Ho). unfold du_ok. cbn [set_new old_document_ new_document_].
  rewrite Hn1. split_and!; [done|done|by apply Hn2|done].
Qed.

(** ** The batch as a whole *)
Definition batch_in (documents : list DocumentUpdater) : Prop :=
  NoDup (ids documents) /\ Z.of_nat (length documents) < 2 ^ 32 /\
  Forall (fun du => OK (status_ du) = true -> input_ok du) documents.

Lemma Forall2_ids (R : DocumentUpdater -> DocumentUpdater -> Prop) docs docs' :
  Forall2 R docs docs' ->
  (forall du du', du ∈ docs -> R du du' -> document_id_ (new_document_ du') = document_id_ (new_document_ du)) ->
  ids docs' = ids docs.
Proof.
  induction 1 as [|du du' l l' Hr _ IH]; intros He; [done|]. cbn. f_equal; [apply He; [by left|done]|].
  apply IH. intros x x' Hx. apply He. by right.
Qed.

Lemma prewrite_batch docs D : batch_in docs -> Forall2 prewrite docs D -> batch_ok D.
Proof.
  intros (Hnd & Hlen & Hin) HD. rewrite Forall_forall in Hin. split; [|split].
  - rewrite (Forall2_ids _ _ _ HD); [done|]. intros du du' Hdu Hp. by apply (prewrite_ok du du' (Hin du Hdu) Hp).
  - by rewrite <- (Forall2_length _ _ _ HD).
  - apply Forall_forall. intros du2 Hdu2. apply list_elem_of_lookup in Hdu2 as [i Hi].
    destruct (Forall2_lookup_r _ _ _ _ _ HD Hi) as (du & Hdu & Hp).
    apply list_elem_of_lookup_2 in Hdu. destruct (prewrite_ok du du2 (Hin du Hdu) Hp) as (E & _ & _ & _ & Hok).
    rewrite E. exact Hok.
Qed.

Lemma restatus_batch D D' : Forall2 restatus D D' ->
  (batch_ok D -> batch_ok D') /\ (forall k d s, batch_op D' k d s <-> batch_op D k d s).
Proof.
  intros HR. split.
  - intros (Hnd & Hlen & Hok). split; [|split].
    + rewrite (Forall2_ids _ _ _ HR); [done|]. by intros du du' _ (s & _ & ->).
    + by rewrite <- (Forall2_length _ _ _ HR).
    + apply Forall_forall. intros du2 [i Hi]%list_elem_of_lookup.
      destruct (Forall2_lookup_r _ _ _ _ _ HR Hi) as (du & Hdu & s & Es & ->).
      apply list_elem_of_lookup_2 in Hdu. rewrite Forall_forall in Hok. cbn [status_ set_status]. rewrite Es.
      exact (Hok du Hdu).
  - intros k d s. unfold batch_op. split.
    + intros (du2 & [i Hi]%list_elem_of_lookup & Hst & Hid & Hop).
      destruct (Forall2_lookup_r _ _ _ _ _ HR Hi) as (du & Hdu & s' & Es & ->).
      apply list_elem_of_lookup_2 in Hdu. exists du. rewrite <- Es. by split_and!.
    + intros (du & [i Hi]%list_elem_of_lookup & Hst & Hid & Hop).
      destruct (Forall2_lookup_l _ _ _ _ _ HR Hi) as (du2 & Hdu & s' & Es & ->).
      apply list_elem_of_lookup_2 in Hdu. exists (set_status du s'). cbn [status_ set_status]. rewrite Es.
      by split_and!.
Qed.

(** What the buffer holds after all writers of the batch [D] succeeded. *)
Definition batch_pend (D : list DocumentUpdater) (b : B) : Prop :=
  (forall c k, c <> kStoredFieldColumn -> c <> kInvertedIndexColumn -> c <> kDocValueColumn -> pend b c k = PNone) /\
  (forall du k p, du ∈ D -> stored_op du k p -> pend b kStoredFieldColumn k = p) /\
  (forall k, (forall du, du ∈ D -> OK (status_ du) = true -> k <> skey (document_id_ (new_document_ du))) ->
     pend b kStoredFieldColumn k = PNone) /\
  (forall du, du ∈ D -> OK (status_ du) = true -> exists p, stored_op du (skey (document_id_ (new_document_ du))) p) /\
  exists L, lists_ok b L (length D) /\ forall k d s, om_find Zcmp_desc d (L k) = Some s <-> batch_op D k d s.

Lemma write_all_spec docs b :
  batch_in docs -> wb_ok b -> (forall c k, pend b c k = PNone) ->
  exists s b' docs', write_all codec config table docs b = Some (s, b', docs') /\ wb_ok b' /\
    (OK s = true -> exists D, Forall2 prewrite docs D /\ batch_pend D b').
Proof.
  intros Hin Hb Hnone. unfold write_all.
  destruct (RunTokenizer_spec docs) as (s1 & docs1 & -> & H1'); [apply Hin|]. cbn [mbind option_bind].
  destruct (OK s1) eqn:E1; cbn [negb]; [|exists s1, b, docs1; split; [done|]; split; [done|]; congruence].
  specialize (H1' eq_refl). unfold MergeOldField. change (OK status_ok) with true. cbn [negb].
  set (D := map _ docs1).
  assert (HD : Forall2 prewrite docs D).
  { unfold D. clear -H1'. induction H1' as [|du du' l l' (d & Ht & ->) _ IH]; [constructor|].
    cbn [map]. constructor; [|done]. exists d. split; [done|]. unfold keeps_old.
    cbn [set_new update_type_ new_document_ old_document_]. by destruct (_ || _). }
  clearbody D. pose proof (prewrite_batch docs D Hin HD) as HbD.
  destruct (WriteStoredField_spec D b HbD Hb) as (s2 & b2 & D2 & -> & Hb2 & H2'). cbn [mbind option_bind].
  destruct (OK s2) eqn:E2; cbn [negb]; [|exists s2, b2, D2; split; [done|]; split; [done|]; congruence].
  destruct (H2' eq_refl) as [HR (Hc2 & Ho2 & Hn2 & He2)]. destruct (restatus_batch D D2 HR) as [HbD2 Hop2].
  destruct (WriteInvertedIndex_spec D2 b2) as (s3 & b3 & D3 & -> & Hb3 & H3'); [by apply HbD2|done| |].
  { intros k. by rewrite Hc2, Hnone. }
  cbn [mbind option_bind].
  destruct (OK s3) eqn:E3; cbn [negb]; [|exists s3, b3, D3; split; [done|]; split; [done|]; congruence].
  destruct (H3' eq_refl) as (-> & Hc3 & L & HL & HLf).
  destruct (WriteDocValue_spec D2 b3 Hb3) as (s4 & b4 & D4 & -> & Hb4 & H4'). cbn [mbind option_bind].
  destruct (OK s4) eqn:E4; cbn [negb]; [|exists s4, b4, D4; split; [done|]; split; [done|]; congruence].
  specialize (H4' eq_refl). unfold WriteTableMeta, WriteDictionaryMeta. change (OK status_ok) with true. cbn [negb].
  exists status_ok, b4, D4. split; [done|]. split; [done|]. intros _. exists D. split; [done|]. split_and!.
  - intros c k N1 N2 N3. by rewrite H4', Hc3, Hc2, Hnone.
  - intros du k p Hdu Hop. rewrite H4', Hc3 by done. by apply (Ho2 du).
  - intros k Hk. rewrite H4', Hc3, Hn2 by done. apply Hnone.
  - exact He2.
  - exists L. split; [|intros k d s; by rewrite HLf, Hop2].
    intros k. rewrite H4' by done. rewrite (Forall2_length _ _ _ HR). apply HL.
Qed.

(** Every list, stored or yet to come, leaves room for [n] more entries. *)
Definition capacity (db : DB) (n : nat) : Prop :=
  forall k, exists lo, old_list (find db kInvertedIndexColumn k) lo /\ Z.of_nat (length lo + n) < doc_limit.

(** What the batch [D] makes of the database. *)
Definition batch_effect (D : list DocumentUpdater) (db db' : DB) : Prop :=
  (forall c k, c <> kStoredFieldColumn -> c <> kInvertedIndexColumn -> c <> kDocValueColumn ->
     find db' c k = find db c k) /\
  (forall du k p, du ∈ D -> stored_op du k p -> effect (find db kStoredFieldColumn k) p (find db' kStoredFieldColumn k)) /\
  (forall k, (forall du, du ∈ D -> OK (status_ du) = true -> k <> skey (document_id_ (new_document_ du))) ->
     find db' kStoredFieldColumn k = find db kStoredFieldColumn k) /\
  (forall du, du ∈ D -> OK (status_ du) = true -> exists p, stored_op du (skey (document_id_ (new_document_ du))) p) /\
  exists L, (forall k, wf_docs (L k) /\
     effect (find db kInvertedIndexColumn k) (plist (L k)) (find db' kInvertedIndexColumn k)) /\
     forall k d s, om_find Zcmp_desc d (L k) = Some s <-> batch_op D k d s.

Lemma UpdateDocuments_spec db docs :
  batch_in docs -> db_wf db -> capacity db (length docs) ->
  exists s db' docs', UpdateDocuments codec config db table docs None = Some (s, db', docs', None) /\ db_wf db' /\
    if OK s then exists D, Forall2 prewrite docs D /\ batch_effect D db db'
    else forall c, content db' c = content db c.
Proof.
  intros Hin Hdb Hcap. unfold UpdateDocuments. cbn [open_buffer].
  destruct new_buffer_ok as [Hb0 Hp0].
  destruct (write_all_spec docs _ Hin Hb0 Hp0) as (s & b & docs' & -> & Hb & Hr). cbn [mbind option_bind].
  destruct (OK s) eqn:E.
  2:{ rewrite E. eexists s, db, _. split; [done|]. split; [done|]. by rewrite E. }
  destruct (max_write_batch_size_ config <? DataSize b).
  { cbn. eexists _, db, _. split; [done|]. done. }
  rewrite E. destruct (Hr eq_refl) as (D & HD & Hc & Hs & Hn & He & L & HL & HLf).
  destruct (Flush_law db b Hdb Hb) as (s' & db' & b' & -> & Hdb' & Hf).
  { intros k l Hl. destruct (HL k) as (Hp & _ & Hlen). rewrite Hl in Hp. unfold plist in Hp.
    destruct (Hcap k) as (lo & Hlo & Hlt). exists lo. split; [done|].
    rewrite <- (Forall2_length _ _ _ HD) in Hlen. destruct (L k); [done|]. injection Hp as ->. lia. }
  cbn [mbind option_bind]. eexists s', db', _. split; [done|]. split; [done|].
  destruct (OK s'); [|done]. exists D. split; [done|]. split_and!.
  - intros c k N1 N2 N3. specialize (Hf c k). by rewrite Hc in Hf.
  - intros du k p Hdu Hop. specialize (Hf kStoredFieldColumn k). by rewrite (Hs du k p Hdu Hop) in Hf.
  - intros k Hk. specialize (Hf kStoredFieldColumn k). by rewrite (Hn k Hk) in Hf.
  - exact He.
  - exists L. split; [|done]. intros k. destruct (HL k) as (Hp & Hwf & _). split; [done|].
    specialize (Hf kInvertedIndexColumn k). by rewrite Hp in Hf.
Qed.

(** ** Postings *)
Definition posting_of (o : option bytes) : list Z := match o with Some v => posting v | None => [] end.

Definition live_list (v : bytes) : Prop := exists l, is_doclist v l /\ forall e, e ∈ l -> live e = true.

Lemma posting_live v l d :
  is_doclist v l -> (forall e, e ∈ l -> live e = true) -> d ∈ posting v <-> is_Some (live_find d l).
Proof.
  intros Hl Hlive. unfold posting. rewrite (is_doclist_read _ _ Hl). cbn [default from_option id].
  destruct Hl as (Hwf & _). apply wf_docs_alt in Hwf as [Hs _]. split.
  - intros ([d' s] & -> & Hin)%list_elem_of_fmap. cbn [fst]. unfold live_find.
    pose proof (Hlive _ Hin) as Hv. apply (om_in_find Zcmp_desc) in Hin; [|done]. rewrite Hin.
    unfold live in Hv. cbn [snd] in Hv. apply negb_true_iff in Hv. by rewrite Hv.
  - unfold live_find. destruct (om_find Zcmp_desc d l) as [s|] eqn:E; [|by intros []].
    intros _. apply (om_find_in Zcmp_desc) in E. by apply (list_elem_of_fmap_2 fst l (d, s)).
Qed.

Lemma effect_posting old l new d :
  (forall v, old = Some v -> live_list v) -> (forall v, new = Some v -> live_list v) ->
  effect old (plist l) new ->
  d ∈ posting_of new <->
  match om_find Zcmp_desc d l with Some s => (s =? kDocumentStateDelete) = false | None => d ∈ posting_of old end.
Proof.
  intros Hold Hnew. destruct l as [|e l]; [by intros ->|]. cbn [plist effect].
  intros (lo & v & lf & Ho & -> & Hlf & Hf & _). destruct (Hnew v eq_refl) as (lf' & Hlf' & Hlive).
  assert (lf' = lf) as -> by (apply is_doclist_read in Hlf, Hlf'; congruence).
  cbn [posting_of]. rewrite (posting_live v lf d Hlf Hlive), Hf.
  destruct (om_find Zcmp_desc d (e :: l)) as [s|].
  - destruct (s =? kDocumentStateDelete); [split; [by intros []|done]|split; [done|by eexists]].
  - destruct Ho as [[-> ->]|(o & -> & Hlo)].
    + cbn. split; [by intros []|by intros ?%elem_of_nil].
    + destruct (Hold o eq_refl) as (lo' & Hlo' & Hlv). cbn [posting_of].
      assert (lo' = lo) as -> by (apply is_doclist_read in Hlo, Hlo'; congruence).
      by rewrite (posting_live o lo d Hlo Hlv).
Qed.

(** ** The invariant *)
Definition stored_doc (db : DB) (d : Z) (doc : Document) : Prop :=
  exists v, find db kStoredFieldColumn (skey d) = Some v /\ DeSerializeFromByte new_document v = Some doc.

Definition indexed (doc : Document) (f : Z) (t : bytes) : Prop :=
  exists l, index_keys config (fields_ doc) = Some l /\ (f, t) ∈ l.

Record consistent (db : DB) : Prop := {
  index_lists k v : find db kInvertedIndexColumn k = Some v -> live_list v;
  stored_docs d v : is_u64 d -> find db kStoredFieldColumn (skey d) = Some v ->
    exists doc, DeSerializeFromByte new_document v = Some doc /\ d <> NO_MORE_DOCS /\ Forall ifield_ok (fields_ doc);
  index_stored f t d : is_byte f -> is_u64 d ->
    d ∈ posting_of (find db kInvertedIndexColumn (ikey f t)) <->
    exists doc, stored_doc db d doc /\ indexed doc f t
}.

(** The old document of an updater is the stored one. *)
Definition old_matches (db : DB) (du : DocumentUpdater) : Prop :=
  (find db kStoredFieldColumn (skey (document_id_ (new_document_ du))) = None /\ fields_ (old_document_ du) = []) \/
  exists doc, stored_doc db (document_id_ (new_document_ du)) doc /\ fields_ (old_document_ du) = fields_ doc.

(** A stored document comes back with the same index keys. *)
Lemma ifield_roundtrip f :
  ifield_ok f ->
  let g := DecodeFromStoreField new_field (EncodeToStoreField f 0) in
  ifield_ok g /\ field_id_ g = field_id_ f /\ index_terms config g (terms_ g) = index_terms config f (terms_ f).
Proof.
  intros (Hid & Hfl & Hnot & Hts & Htw) g.
  assert (Eid : field_id_ g = field_id_ f) by (by unfold g; cbn; rewrite u8_byte).
  assert (Efl : field_flag_ g = field_flag_ f) by (by unfold g; cbn; rewrite u8_byte).
  assert (Ety : field_type_ g = field_type_ f) by done.
  assert (Ets : terms_ g = terms_ f).
  { unfold g, DecodeFromStoreField, EncodeToStoreField. cbn [terms_ pb_terms new_field]. rewrite Hnot.
    cbn [Z.eqb andb negb]. by rewrite (os_inserts_id bytes_cmp). }
  split; [by unfold ifield_ok, terms_ok; rewrite Eid, Efl, Ets|]. split; [done|].
  rewrite Ets. clear Ets Hts Htw. induction (terms_ f) as [|t l IH]; [done|]. cbn [index_terms].
  assert (term_keys config g t = term_keys config f t) as ->.
  2:{ by rewrite IH. }
  unfold term_keys. rewrite Efl, Ety. destruct t; [done|].
  destruct (SuffixBuild (field_flag_ f)) eqn:Esf; [|done]. cbn [andb].
  assert ((if negb (suffix_len_ g =? 0) then suffix_len_ g else 5) =
          (if negb (suffix_len_ f =? 0) then suffix_len_ f else 5)) as ->; [|done].
  unfold g. cbn. rewrite u8_byte, Esf by done.
  destruct (Z.eqb_spec (suffix_len_ f) 0) as [E|E]; [by cbn|].
  destruct (Z.eqb_spec (suffix_len_ f) 0); [done|]. by destruct (Z.eqb_spec (suffix_len_ f) 0).
Qed.

Lemma document_keys_roundtrip d v :
  Forall ifield_ok (fields_ d) -> fst (SerializeToBytes d 0) = Some v ->
  exists d', DeSerializeFromByte new_document v = Some d' /\ Forall ifield_ok (fields_ d') /\
    index_keys config (fields_ d') = index_keys config (fields_ d).
Proof.
  intros Hf Hs. unfold SerializeToBytes in Hs. cbn [fst] in Hs. unfold DeSerializeFromByte.
  rewrite (ParseDocument_Serialize _ _ Hs). cbn [mbind option_bind]. rewrite fold_AddField. eexists. split; [done|].
  cbn [fields_ SetID new_document app pb_fields]. unfold store_fields. cbn [Z.eqb]. rewrite map_map. clear Hs.
  induction Hf as [|f l Hf _ [IH1 IH2]]; [done|]. destruct (ifield_roundtrip f Hf) as (H1' & H2' & H3').
  cbn [map]. split; [by constructor|]. cbn [index_keys]. by rewrite H2', H3', IH2.
Qed.

(** ** Flushing a batch keeps the invariant *)
Section Batch.
Context (db db' : DB) (D : list DocumentUpdater).
Context (Hcon : consistent db) (HD : batch_ok D) (Heff : batch_effect D db db').
Context (Hold : Forall (fun du => OK (status_ du) = true -> old_matches db du) D).

Lemma batch_unique du du' :
  du ∈ D -> du' ∈ D -> document_id_ (new_document_ du) = document_id_ (new_document_ du') -> du = du'.
Proof.
  destruct HD as (Hnd & _). intros [i Hi]%list_elem_of_lookup [j Hj]%list_elem_of_lookup E.
  assert (i = j) as ->; [|congruence]. unfold ids in Hnd. rewrite NoDup_alt in Hnd.
  apply (Hnd i j (document_id_ (new_document_ du))).
  - change (map ?f D) with (f <$> D). by rewrite list_lookup_fmap, Hi.
  - change (map ?f D) with (f <$> D). by rewrite list_lookup_fmap, Hj, E.
Qed.

Lemma member_ok du : du ∈ D -> OK (status_ du) = true -> du_ok du /\ old_matches db du.
Proof.
  destruct HD as (_ & _ & Hok). rewrite Forall_forall in Hok, Hold. intros Hdu Hst. split; auto.
Qed.

(** Either a live updater has the id, or none has. *)
Lemma owner_cases d :
  (exists du, du ∈ D /\ OK (status_ du) = true /\ document_id_ (new_document_ du) = d) \/
  (forall du, du ∈ D -> OK (status_ du) = true -> document_id_ (new_document_ du) <> d).
Proof.
  clear. induction D as [|du l IH]; [right; by intros du ?%elem_of_nil|].
  destruct IH as [(x & Hx & Hr)|IH]; [left; exists x; split; [by right|done]|].
  destruct (decide (OK (status_ du) = true /\ document_id_ (new_document_ du) = d)) as [[H1' H2']|Hne].
  - left. exists du. split; [by left|done].
  - right. intros x [->|Hx]%elem_of_cons Hst E; [by apply Hne|by apply (IH x)].
Qed.

(** What the owner of an id left in the stored column. *)
Lemma owner_stored du :
  du ∈ D -> OK (status_ du) = true ->
  exists ln, index_keys config (kept_fields du) = Some ln /\
    match find db' kStoredFieldColumn (skey (document_id_ (new_document_ du))) with
    | None => ln = []
    | Some v => exists doc, DeSerializeFromByte new_document v = Some doc /\ Forall ifield_ok (fields_ doc) /\
                  index_keys config (fields_ doc) = Some ln
    end.
Proof.
  intros Hdu Hst. destruct (member_ok du Hdu Hst) as [Hok _]. destruct Heff as (_ & Hs & _ & He & _).
  destruct (ifields_keys _ (kept_ok du Hok)) as (ln & Eln & _). exists ln. split; [done|].
  destruct (He du Hdu Hst) as [p Hp]. specialize (Hs du _ p Hdu Hp). destruct Hp as (_ & _ & Hp).
  unfold kept_fields in Eln. destruct (updater_Delete du).
  - subst p. cbn [effect] in Hs. rewrite Hs. cbn in Eln. congruence.
  - destruct Hp as (v & Hv & ->). cbn [effect] in Hs. rewrite Hs. destruct Hok as (_ & _ & Hn & _).
    destruct (document_keys_roundtrip _ v Hn Hv) as (doc & Hd & Hf & Hk). exists doc. by rewrite Hk.
Qed.

(** The old index keys of the owner say what the old index holds. *)
Lemma owner_old du lo f t :
  du ∈ D -> OK (status_ du) = true -> index_keys config (fields_ (old_document_ du)) = Some lo -> is_byte f ->
  (f, t) ∈ lo <->
  document_id_ (new_document_ du) ∈ posting_of (find db kInvertedIndexColumn (ikey f t)).
Proof.
  intros Hdu Hst Hlo Hf. destruct (member_ok du Hdu Hst) as [(Hid & _) Hm].
  rewrite (index_stored db Hcon f t _ Hf Hid). destruct Hm as [[Hnone Eo]|(doc & Hdoc & Eo)]; rewrite Eo in Hlo.
  - injection Hlo as <-. split; [by intros ?%elem_of_nil|]. intros (doc & (v & Hv & _) & _). congruence.
  - split; [intros Hin; exists doc; split; [done|by exists lo]|].
    intros (doc' & (v' & Hv' & Hd') & l & Hl & Hin). destruct Hdoc as (v & Hv & Hd).
    assert (doc' = doc) by congruence. subst doc'. congruence.
Qed.

Lemma du_op_diff du ln lo f t s :
  du_ok du -> is_byte f -> index_keys config (kept_fields du) = Some ln ->
  index_keys config (fields_ (old_document_ du)) = Some lo ->
  du_op du (ikey f t) s <-> diff_state ln lo (f, t) = Some s.
Proof.
  intros Hok Hf Hln Hlo. split; [|intros Hd; exists ln, lo, f, t; by split_and!].
  intros (ln' & lo' & f' & t' & Hln' & Hlo' & Ek & Hd). rewrite Hln in Hln'. rewrite Hlo in Hlo'.
  injection Hln' as <-. injection Hlo' as <-.
  assert (is_byte f') as Hf'.
  { destruct (ifields_keys _ (kept_ok du Hok)) as (l1 & E1 & Hb1). destruct Hok as (_ & _ & _ & Hof).
    destruct (ifields_keys _ Hof) as (l2 & E2 & Hb2).
    apply diff_state_in in Hd as [[?|?] _]; [apply (Hb1 f' t')|apply (Hb2 f' t')]; congruence. }
  apply ikey_inj in Ek as [-> ->]; done.
Qed.

Lemma batch_lists k v : find db' kInvertedIndexColumn k = Some v -> live_list v.
Proof.
  intros Hv. destruct Heff as (_ & _ & _ & _ & L & HL & HLf). destruct (HL k) as [Hwf He].
  destruct (L k) as [|e l] eqn:EL.
  { cbn in He. rewrite He in Hv. by apply (index_lists db Hcon k). }
  cbn [plist effect] in He. destruct He as (lo & v' & lf & Ho & Hv' & Hlf & _ & Hin).
  rewrite Hv in Hv'. injection Hv' as <-. exists lf. split; [done|]. intros [d s] Hds.
  destruct (Hin _ Hds) as [?|[Hnone Hmem]]; [done|].
  rewrite <- EL in Hmem, Hwf. apply wf_docs_alt in Hwf as [Hs _].
  apply (om_in_find Zcmp_desc) in Hmem; [|done]. apply HLf in Hmem as (du & Hdu & Hst & Hid & Hop).
  destruct (member_ok du Hdu Hst) as [Hok _]. pose proof Hok as (_ & _ & _ & Hof).
  destruct (ifields_keys _ (kept_ok du Hok)) as (ln & Eln & Hbn), (ifields_keys _ Hof) as (lo' & Elo & Hbo).
  destruct Hop as (ln' & lo2 & f & t & E1 & E2 & -> & Hd). rewrite Eln in E1. rewrite Elo in E2.
  injection E1 as <-. injection E2 as <-. unfold diff_state in Hd. unfold live. cbn [snd].
  destruct (decide ((f, t) ∈ ln)); [destruct (decide ((f, t) ∈ lo')); [done|by injection Hd as <-]|].
  destruct (decide ((f, t) ∈ lo')) as [Hlo|]; [|done]. exfalso.
  apply (owner_old du lo' f t Hdu Hst Elo (Hbo f t Hlo)) in Hlo. rewrite Hnone in Hlo. by apply elem_of_nil in Hlo.
Qed.

Lemma skey_ne d du : is_u64 d -> du_ok du -> document_id_ (new_document_ du) <> d ->
  skey d <> skey (document_id_ (new_document_ du)).
Proof. intros Hd (Hid & _) Hne E. apply EncodeStoredFieldKey_inj in E as [_ E]; [congruence|done..]. Qed.

Lemma batch_other d :
  is_u64 d -> (forall du, du ∈ D -> OK (status_ du) = true -> document_id_ (new_document_ du) <> d) ->
  find db' kStoredFieldColumn (skey d) = find db kStoredFieldColumn (skey d).
Proof.
  intros Hd Hne. destruct Heff as (_ & _ & Hn & _). apply Hn. intros du Hdu Hst.
  apply skey_ne; [done|by apply member_ok|by apply Hne].
Qed.

Lemma batch_consistent : consistent db'.
Proof.
  split; [apply batch_lists| |].
  - intros d v Hd Hv. destruct (owner_cases d) as [(du & Hdu & Hst & <-)|Hne].
    + destruct (owner_stored du Hdu Hst) as (ln & _ & Ho). rewrite Hv in Ho.
      destruct Ho as (doc & Hdoc & Hf & _). exists doc. split; [done|]. split; [|done].
      by apply (member_ok du Hdu Hst).
    + rewrite batch_other in Hv by done. by apply (stored_docs db Hcon).
  - intros f t d Hf Hd. destruct Heff as (_ & _ & _ & _ & L & HL & HLf).
    destruct (HL (ikey f t)) as [Hwf He].
    rewrite (effect_posting _ _ _ d (index_lists db Hcon (ikey f t)) (batch_lists (ikey f t)) He).
    destruct (owner_cases d) as [(du & Hdu & Hst & <-)|Hne].
    + destruct (member_ok du Hdu Hst) as [Hok _]. pose proof Hok as (_ & _ & _ & Hof).
      destruct (ifields_keys _ Hof) as (lo & Elo & _). destruct (owner_stored du Hdu Hst) as (ln & Eln & Ho).
      assert (HLs : forall s, om_find Zcmp_desc (document_id_ (new_document_ du)) (L (ikey f t)) = Some s <->
                    diff_state ln lo (f, t) = Some s).
      { intros s. rewrite HLf, <- (du_op_diff du ln lo f t s Hok Hf Eln Elo). split.
        - intros (du' & Hdu' & _ & E & Hop). by rewrite (batch_unique du du') by done.
        - intros Hop. by exists du. }
      assert (Hnew : (exists doc, stored_doc db' (document_id_ (new_document_ du)) doc /\ indexed doc f t) <->
                     (f, t) ∈ ln).
      { revert Ho. unfold stored_doc.
        destruct (find db' kStoredFieldColumn (skey (document_id_ (new_document_ du)))) as [v|]; intros Ho.
        - destruct Ho as (doc & Hdoc & _ & Hk). split.
          + intros (doc' & (v' & [= <-] & Hd') & l & Hl & Hin). congruence.
          + intros Hin. exists doc. split; [by exists v|by exists ln].
        - subst ln. split; [intros (doc' & (v' & Hv' & _) & _); done|by intros ?%elem_of_nil]. }
      rewrite Hnew. pose proof (owner_old du lo f t Hdu Hst Elo Hf) as Holdp.
      destruct (om_find Zcmp_desc _ (L (ikey f t))) as [s|].
      * pose proof (proj1 (HLs s) eq_refl) as E. unfold diff_state in E.
        destruct (decide ((f, t) ∈ ln)), (decide ((f, t) ∈ lo)); try done; injection E as <-; by split.
      * assert (diff_state ln lo (f, t) = None) as Ed.
        { destruct (diff_state ln lo (f, t)) as [s|]; [|done]. by specialize (proj2 (HLs s) eq_refl). }
        rewrite <- Holdp. unfold diff_state in Ed.
        destruct (decide ((f, t) ∈ ln)), (decide ((f, t) ∈ lo)); done.
    + assert (om_find Zcmp_desc d (L (ikey f t)) = None) as ->.
      { destruct (om_find Zcmp_desc d (L (ikey f t))) as [s|] eqn:E; [|done].
        apply HLf in E as (du & Hdu & Hst & Hid & _). by destruct (Hne du Hdu Hst). }
      rewrite (index_stored db Hcon f t d Hf Hd). unfold stored_doc. by rewrite batch_other by done.
Qed.
End Batch.

(** ** The index writer *)

(** What a caller hands in: a fresh updater with a 64-bit id and well-formed
    fields. *)
Definition user_ok (du : DocumentUpdater) : Prop :=
  OK (status_ du) = true /\ fields_ (old_document_ du) = [] /\ is_u64 (document_id_ (new_document_ du)) /\
  Forall ifield_in (fields_ (new_document_ du)).

Lemma read_column_map (db : DB) c keys : read_column db c keys = map (Get db c) keys.
Proof.
  unfold read_column, MultiGet. induction keys as [|k keys IH]; [done|]. cbn [map zip_with zip] in *.
  destruct (Get db c k). cbn [fst snd]. f_equal. exact IH.
Qed.

(** What reading the stored document does to an updater. *)
Definition read_into (db : DB) (du du2 : DocumentUpdater) : Prop :=
  new_document_ du2 = new_document_ du /\ update_type_ du2 = update_type_ du /\ old_matches db du2 /\
  (find db kStoredFieldColumn (skey (document_id_ (new_document_ du))) <> None -> OK (status_ du2) = true) /\
  (update_type_ du <> kDocumentDeleteType -> OK (status_ du2) = true) /\
  (update_type_ du = kDocumentAddType ->
     find db kStoredFieldColumn (skey (document_id_ (new_document_ du))) = None) /\
  (update_type_ du = kDocumentUpdateType ->
     find db kStoredFieldColumn (skey (document_id_ (new_document_ du))) <> None).

Lemma decode_old_spec db du v msg ok ok' du' :
  update_type_ du <> kDocumentAddType -> is_u64 (document_id_ (new_document_ du)) -> OK (status_ du) = true -> fields_ (old_document_ du) = [] ->
  find db kStoredFieldColumn (skey (document_id_ (new_document_ du))) = Some v ->
  decode_old du v msg ok = (ok', du') -> ok' = true -> ok = true /\ read_into db du du'.
Proof.
  intros Hty Hid Hst Ho Hv. unfold decode_old, DeSerializeFromByte.
  destruct (ParseDocument v) as [pd|] eqn:Ep; cbn [mbind option_bind]; [|by intros [= <- <-]].
  intros [= <- <-] ->. split; [done|]. split; [done|]. split; [done|]. split; [|split_and!; [done|done|done|congruence]].
  right. exists (fold_left (fun d f => AddField d (DecodeFromStoreField new_field f)) (pb_fields pd)
    (SetID new_document (pb_document_id pd))). split.
  - exists v. split; [done|]. unfold DeSerializeFromByte. by rewrite Ep.
  - cbn [set_old old_document_]. rewrite !fold_AddField. cbn. by rewrite Ho.
Qed.

Lemma decode_old_docvalue_spec db du du1 dv ok ok' du' :
  decode_old_docvalue du1 dv ok = (ok', du') -> ok' = true -> read_into db du du1 -> ok = true /\ read_into db du du'.
Proof.
  unfold decode_old_docvalue. destruct ok; cbn [andb]; [|by intros [= <- <-]].
  destruct (DocumentExist dv.1); [|by intros [= <- <-]].
  destruct (DeSerializeFromByte _ _); [|by intros [= <- <-]]. intros [= <- <-] _ Hr. done.
Qed.

Lemma update_status_one_spec db mode ok du dv ok' du' :
  db_wf db ->
  mode <> kDocumentAddWithoutReadType -> update_type_ du = mode ->
  is_u64 (document_id_ (new_document_ du)) -> OK (status_ du) = true -> fields_ (old_document_ du) = [] ->
  update_status_one mode ok du (Get db kStoredFieldColumn (skey (document_id_ (new_document_ du)))) dv = (ok', du') ->
  ok' = true -> ok = true /\ read_into db du du'.
Proof.
  intros Hdb Hm Hty Hid Hst Ho. rewrite Get_content by done.
  assert (Hnone : find db kStoredFieldColumn (skey (document_id_ (new_document_ du))) = None ->
    update_type_ du <> kDocumentUpdateType -> read_into db du du)
    by (intros; split; [done|]; split; [done|]; split; [by left|]; by split_and!).
  assert (Hdec : update_type_ du <> kDocumentAddType -> forall v msg ok1 du1, find db kStoredFieldColumn (skey (document_id_ (new_document_ du))) = Some v ->
    decode_old du v msg ok = (ok1, du1) -> ok1 = true -> ok = true /\ read_into db du du1)
    by (intros; by eapply decode_old_spec).
  destruct (om_find bytes_cmp _ (content db kStoredFieldColumn)) as [v|] eqn:Ef; unfold update_status_one;
    destruct mode; cbn; try done; try (intros [= <- <-] ?; done); try (by destruct Hm).
  - destruct (decode_old du v _ ok) as [ok1 du1] eqn:E1. intros E2 ->.
    destruct ok1; [|by unfold decode_old_docvalue in E2; cbn in E2].
    destruct (Hdec ltac:(by rewrite Hty) v _ true du1 eq_refl E1 eq_refl) as [-> Hr]. split; [done|].
    by destruct (decode_old_docvalue_spec db du du1 dv true true du' E2 eq_refl Hr).
  - destruct (decode_old du v _ ok) as [ok1 du1] eqn:E1. intros E2 ->.
    destruct ok1; [|by unfold decode_old_docvalue in E2; cbn in E2].
    destruct (Hdec ltac:(by rewrite Hty) v _ true du1 eq_refl E1 eq_refl) as [-> Hr]. split; [done|].
    by destruct (decode_old_docvalue_spec db du du1 dv true true du' E2 eq_refl Hr).
  - intros E ->. by apply (Hdec ltac:(by rewrite Hty) v _ true du' eq_refl E).
  - intros E ->. by apply (Hdec ltac:(by rewrite Hty) v _ true du' eq_refl E).
  - intros [= <- <-] ->. split; [done|]. apply Hnone; [done|by rewrite Hty].
  - intros [= <- <-] ->. split; [done|]. apply Hnone; [done|by rewrite Hty].
  - intros [= <- <-] ->. split; [done|]. split; [done|]. split; [done|]. split; [by left|].
    rewrite Hty. by split_and!.
  - intros [= <- <-] ->. split; [done|]. apply Hnone; [done|by rewrite Hty].
Qed.

Lemma UpdateDocumetStatus_spec db mode ok docs dvs ok' docs' :
  db_wf db ->
  mode <> kDocumentAddWithoutReadType ->
  Forall (fun du => update_type_ du = mode /\ is_u64 (document_id_ (new_document_ du)) /\ OK (status_ du) = true /\
                    fields_ (old_document_ du) = []) docs ->
  UpdateDocumetStatus mode ok docs
    (map (fun du => Get db kStoredFieldColumn (skey (document_id_ (new_document_ du)))) docs) dvs = (ok', docs') ->
  ok' = true -> ok = true /\ Forall2 (read_into db) docs docs'.
Proof.
  intros Hdb Hm Hd. revert ok dvs ok' docs'. induction Hd as [|du docs (Hty & Hid & Hst & Ho) _ IH];
    intros ok dvs ok' docs'; cbn [map UpdateDocumetStatus]; [intros [= <- <-] ->; split; [done|constructor]|].
  destruct (update_status_one _ _ _ _ _) as [ok1 du1] eqn:E1.
  destruct (UpdateDocumetStatus mode ok1 docs _ _) as [ok2 docs2] eqn:E2. intros [= <- <-] ->.
  destruct (IH _ _ _ _ E2 eq_refl) as [-> HR].
  destruct (update_status_one_spec db mode ok du _ true du1 Hdb Hm Hty Hid Hst Ho E1 eq_refl) as [-> Hr].
  split; [done|]. by constructor.
Qed.

(** The premises of an index write. *)
Record write_input (db : DB) (docs : list DocumentUpdater) (mode : kDocumentUpdaterType) : Prop := {
  wi_ids : NoDup (ids docs);
  wi_length : Z.of_nat (length docs) < 2 ^ 32;
  wi_user : Forall user_ok docs;
  wi_capacity : capacity db (length docs);
  (* the caller of the unchecked addition vouches for the ids *)
  wi_unread : mode = kDocumentAddWithoutReadType ->
    Forall (fun du => find db kStoredFieldColumn (skey (document_id_ (new_document_ du))) = None) docs
}.

Definition typed (mode : kDocumentUpdaterType) (docs : list DocumentUpdater) : list DocumentUpdater :=
  map (fun du => SetUpdateType du mode) docs.

Lemma prepare_typed mode docs :
  existsb (fun du => document_id_ (new_document_ du) =? 0) docs = false ->
  map (prepare mode) docs = typed mode docs /\
  Forall (fun du => document_id_ (new_document_ du) <> NO_MORE_DOCS) docs.
Proof.
  induction docs as [|du docs IH]; [by split|]. cbn [existsb map typed].
  intros [E1 E2]%orb_false_iff. destruct (IH E2) as [-> IH2]. split.
  - unfold prepare at 1. cbn [SetUpdateType new_document_]. by rewrite E1.
  - constructor; [|done]. by apply Z.eqb_neq.
Qed.

Lemma read_batch db docs docs2 mode :
  consistent db -> write_input db docs mode ->
  Forall (fun du => document_id_ (new_document_ du) <> NO_MORE_DOCS) docs ->
  Forall2 (read_into db) (typed mode docs) docs2 ->
  batch_in docs2 /\ Forall (fun du => old_matches db du) docs2 /\ length docs2 = length docs.
Proof.
  intros Hcon [Hnd Hlen Huser _ _] Hid0 HR.
  assert (Hl : length docs2 = length docs)
    by (rewrite <- (Forall2_length _ _ _ HR); unfold typed; apply length_map).
  assert (Hall : forall i du2, docs2 !! i = Some du2 -> exists du, docs !! i = Some du /\
    new_document_ du2 = new_document_ du /\ old_matches db du2).
  { intros i du2 Hi. destruct (Forall2_lookup_r _ _ _ _ _ HR Hi) as (x & Hx & Hr).
    unfold typed in Hx. change (map ?f docs) with (f <$> docs) in Hx. rewrite list_lookup_fmap in Hx.
    destruct (docs !! i) as [du|]; [|done]. injection Hx as <-. destruct Hr as (Hn & _ & Ho & _).
    exists du. by split_and!. }
  split; [|split; [|done]].
  - split; [|split; [by rewrite Hl|]].
    + assert (ids docs2 = ids docs) as ->; [|done]. rewrite (Forall2_ids _ _ _ HR).
      * unfold ids, typed. by rewrite map_map.
      * intros du du' _ (E & _). by rewrite E.
    + apply Forall_forall. intros du2 [i Hi]%list_elem_of_lookup _. destruct (Hall i du2 Hi) as (du & Hdu & En & Ho).
      apply list_elem_of_lookup_2 in Hdu. rewrite Forall_forall in Huser, Hid0.
      destruct (Huser du Hdu) as (_ & _ & Hid & Hf). rewrite <- En in Hid, Hf.
      split; [done|]. split; [rewrite En; by apply Hid0|]. split; [done|].
      destruct Ho as [[_ ->]|(doc & (v & Hv & Hd) & ->)]; [constructor|].
      destruct (stored_docs db Hcon _ v Hid Hv) as (doc' & Hd' & _ & Hf'). congruence.
  - apply Forall_forall. intros du2 [i Hi]%list_elem_of_lookup. by destruct (Hall i du2 Hi) as (_ & _ & _ & ?).
Qed.

(** What an index write does: nothing at all, or the whole batch. *)
Definition write_done (db db' : DB) (docs : list DocumentUpdater) (mode : kDocumentUpdaterType) : Prop :=
  exists docs2 D, Forall2 (read_into db) (typed mode docs) docs2 /\ batch_in docs2 /\ Forall2 prewrite docs2 D /\
    batch_ok D /\ Forall (fun du => OK (status_ du) = true -> old_matches db du) D /\ batch_effect D db db'.

Definition write_failed (db db' : DB) (docs' : list DocumentUpdater) : Prop :=
  (forall c, content db' c = content db c) /\ Forall (fun du => OK (status_ du) = false) docs'.

Lemma not_finished_all docs :
  Forall (fun du => OK (status_ du) = false)
    (map (fun du => if OK (status_ du) then set_status du not_finished else du) docs).
Proof. induction docs as [|du docs IH]; [constructor|]. cbn [map]. constructor; [|done]. by destruct (OK (status_ du)) eqn:E. Qed.

Lemma decode_old_false du v msg : fst (decode_old du v msg false) = false.
Proof. unfold decode_old. by destruct (DeSerializeFromByte _ _). Qed.

(** A failed document is never forgotten. *)
Lemma update_status_one_false mode du value dv : fst (update_status_one mode false du value dv) = false.
Proof.
  destruct value as [st v].
  assert (Hd : forall msg, fst (let '(ok, du) := decode_old du v msg false in decode_old_docvalue du dv ok) = false).
  { intros msg. pose proof (decode_old_false du v msg) as E. destruct (decode_old du v msg false) as [ok du1].
    cbn in E. by subst ok. }
  unfold update_status_one. destruct mode; try done;
    repeat match goal with |- context [if ?b then _ else _] => destruct b; try done end;
    first [apply Hd|apply decode_old_false].
Qed.

Lemma read_stage db docs mode ok docs2 dvs :
  db_wf db -> consistent db -> write_input db docs mode ->
  UpdateDocumetStatus mode (negb (existsb (fun du => document_id_ (new_document_ du) =? 0) docs)) (map (prepare mode) docs)
    (if bool_decide (mode = kDocumentAddWithoutReadType) then []
     else map (fun du => Get db kStoredFieldColumn (skey (document_id_ (new_document_ du)))) (map (prepare mode) docs))
    dvs = (ok, docs2) -> ok = true ->
  Forall2 (read_into db) (typed mode docs) docs2 /\ Forall (fun du => document_id_ (new_document_ du) <> NO_MORE_DOCS) docs.
Proof.
  intros Hdb Hcon Hwi. destruct (existsb _ docs) eqn:E; cbn [negb].
  { intros Hu ->. exfalso. clear -Hu. revert Hu.
    generalize (if bool_decide (mode = kDocumentAddWithoutReadType) then []
      else map (fun du => Get db kStoredFieldColumn (skey (document_id_ (new_document_ du)))) (map (prepare mode) docs)).
    generalize (map (prepare mode) docs) as l. intros l vs. revert vs dvs docs2.
    induction l as [|du l IH]; intros vs dvs docs2; [by destruct vs|]. destruct vs as [|[st v] vs]; [done|].
    cbn [UpdateDocumetStatus]. destruct (update_status_one mode false du (st, v) _) as [ok1 du1] eqn:E1.
    assert (ok1 = false) as ->.
    { pose proof (update_status_one_false mode du (st, v) (match dvs with v :: _ => v | [] => (status_ok, []) end)) as E.
      rewrite E1 in E. exact E. }
    destruct (UpdateDocumetStatus mode false l vs _) as [ok2 l2] eqn:E2. intros [= -> _]. by eapply IH. }
  destruct (prepare_typed mode docs E) as [-> Hid0]. intros Hu ->. split; [|done].
  destruct (decide (mode = kDocumentAddWithoutReadType)) as [Hm|Hm].
  - rewrite bool_decide_true in Hu by done. assert (docs2 = typed mode docs) as ->.
    { destruct (typed mode docs); cbn in Hu; congruence. }
    pose proof (wi_unread _ _ _ Hwi Hm) as Hn. pose proof (wi_user _ _ _ Hwi) as Hus. clear -Hn Hus Hm.
    induction docs as [|du docs IH]; [constructor|]. apply Forall_cons in Hn as [Hn Hns], Hus as [(Hst & Ho & _) Huss].
    cbn [typed map]. constructor; [|by apply IH]. split; [done|]. split; [done|].
    split; [by left|]. split; [done|]. split; [done|]. subst mode. split; done.
  - rewrite bool_decide_false in Hu by done.
    destruct (UpdateDocumetStatus_spec db mode true (typed mode docs) dvs true docs2 Hdb Hm) as [_ HR]; [|exact Hu|done|done].
    pose proof (wi_user _ _ _ Hwi) as Hus. clear -Hus. unfold typed. apply Forall_fmap.
    eapply Forall_impl; [exact Hus|]. intros du (? & ? & ? & ?). by split_and!.
Qed.

Lemma InnerWriteDocuments_spec db docs mode :
  db_wf db -> consistent db -> write_input db docs mode ->
  exists ok db' docs', InnerWriteDocuments codec config db table docs None mode = Some (ok, db', docs', None) /\
    db_wf db' /\ if (ok : bool) then write_done db db' docs mode else write_failed db db' docs'.
Proof.
  intros Hdb Hcon Hwi. unfold InnerWriteDocuments. cbv zeta.
  assert (Ev : read_column db kStoredFieldColumn (map (fun du => skey (document_id_ (new_document_ du))) (map (prepare mode) docs)) =
    map (fun du => Get db kStoredFieldColumn (skey (document_id_ (new_document_ du)))) (map (prepare mode) docs))
    by (rewrite read_column_map; apply map_map).
  rewrite Ev. match goal with |- context [UpdateDocumetStatus mode _ _ _ ?x] => set (dvs := x) end.
  destruct (UpdateDocumetStatus _ _ _ _ _) as [ok docs2] eqn:Eu.
  destruct ok; cbn [mbind option_bind negb].
  2:{ eexists _, _, _. split; [done|]. split; [done|]. split; [done|apply not_finished_all]. }
  destruct (read_stage db docs mode true docs2 dvs Hdb Hcon Hwi Eu eq_refl) as [HR Hid0].
  destruct (read_batch db docs docs2 mode Hcon Hwi Hid0 HR) as (Hin & Hold & Hl).
  destruct (UpdateDocuments_spec db docs2 Hin Hdb) as (s & db' & docs' & -> & Hdb' & Hr);
    [rewrite Hl; apply (wi_capacity _ _ _ Hwi)|].
  cbn [mbind option_bind]. destruct (OK s) eqn:Es; cbn [negb].
  - eexists true, db', _. split; [done|]. split; [done|]. destruct Hr as (D & HD & Heff). exists docs2, D.
    split; [done|]. split; [done|]. split; [done|]. split; [by eapply prewrite_batch|]. split; [|done].
    apply Forall_forall. intros du2 [i Hi]%list_elem_of_lookup _.
    destruct (Forall2_lookup_r _ _ _ _ _ HD Hi) as (du & Hdu & Hp). apply list_elem_of_lookup_2 in Hdu.
    destruct Hin as (_ & _ & Hin). rewrite Forall_forall in Hin, Hold.
    destruct (prewrite_ok du du2 (Hin du Hdu) Hp) as (_ & _ & Eo & Ei & _).
    specialize (Hold du Hdu). unfold old_matches. rewrite Eo, Ei. exact Hold.
  - eexists false, db', _. split; [done|]. split; [done|]. split; [done|apply not_finished_all].
Qed.
End Consistency.
