(* ===== verification/IndexCorrect.v ===== *)
(** End to end: what the users of the index writer and of the searcher see.

    A write keeps the inverted index consistent with the stored documents and
    changes exactly the documents of its batch; a search over a consistent
    index returns exactly the stored documents that match the query; hence a
    written document is found by the queries it matches and by no other.  The
    theorems hold for every store, serialization and tokenizer with the laws
    of [WriteDB], [Document] and [Tokenizer]; the witnesses run on the mock
    store with the blank tokenizer. *)
From Stdlib Require String.
From S2P Require Import Prelude Storage Coding Codec DocList Heap MergeOperator Iterators VirtualDB.
From S2P Require Import WriteDB VirtualDBMock Query Document Utf8 Tokenizer DocumentWriter IndexWriter TermDiff.
From S2P Require Import IndexConsistency.

Section Outcome.
Context {DB B : Type} `{WriteLaws DB B} `{StoreProtoLaws} `{TokenizerLaws}.
Context (codec : DocListCompressionType) (config : IndexConfig) (table : TableID) (Htable : wf_table table).

Notation find db c k := (om_find bytes_cmp k (content db c)).
Notation skey id := (EncodeStoredFieldKey table id []).

(** The stored document of an id, an empty one when there is none. *)
Definition old_of (db : DB) (id : Z) (old : Document) : Prop :=
  stored_doc table db id old \/ (find db kStoredFieldColumn (skey id) = None /\ fields_ old = []).

(** [d] is what a mode other than [kDocumentDeleteType] stores for [new]: the
    tokenized document, completed with the fields of the old one unless the
    document is replaced. *)
Definition written (db : DB) (mode : kDocumentUpdaterType) (new d : Document) : Prop :=
  exists t old, Do new = Some (true, t) /\ old_of db (document_id_ new) old /\
    d = if bool_decide (mode = kDocumentReplaceType) then t else merge_fields t old.

(** A database with the same content is as consistent. *)
Lemma consistent_content db db' :
  (forall c, content db' c = content db c) -> consistent config table db -> consistent config table db'.
Proof.
  intros Hc [H1' H2' H3']. split.
  - intros k v. rewrite Hc. apply H1'.
  - intros d v. rewrite Hc. apply H2'.
  - intros f t d. unfold stored_doc. rewrite !Hc. apply H3'.
Qed.

(** What becomes of the updater's document. *)
Definition outcome (db db' : DB) (mode : kDocumentUpdaterType) (du : DocumentUpdater) : Prop :=
  let id := document_id_ (new_document_ du) in
  (mode = kDocumentAddType -> find db kStoredFieldColumn (skey id) = None) /\
  (mode = kDocumentUpdateType -> find db kStoredFieldColumn (skey id) <> None) /\
  if bool_decide (mode = kDocumentDeleteType) then find db' kStoredFieldColumn (skey id) = None
  else exists d v, written db mode (new_document_ du) d /\ fst (SerializeToBytes d 0) = Some v /\
         Forall ifield_ok (fields_ d) /\ find db' kStoredFieldColumn (skey id) = Some v.

Lemma merge_fields_old t old old' : fields_ old = fields_ old' -> merge_fields t old = merge_fields t old'.
Proof. unfold merge_fields. by intros ->. Qed.

Section Done.
Context (db db' : DB) (docs : list DocumentUpdater) (mode : kDocumentUpdaterType).
Context (docs2 D : list DocumentUpdater).
Context (Hwi : write_input table db docs mode).
Context (HR : Forall2 (read_into table db) (typed mode docs) docs2) (Hin : batch_in docs2).
Context (HD : Forall2 prewrite docs2 D) (HbD : batch_ok D).
Context (Heff : batch_effect config table D db db').
Context (Hold : Forall (fun du => OK (status_ du) = true -> old_matches table db du) D).

(** The three stages of an updater: as given, as read, as written. *)
Lemma stages du2 : du2 ∈ D -> exists du du1, du ∈ docs /\ read_into table db (SetUpdateType du mode) du1 /\
  prewrite du1 du2 /\ (OK (status_ du1) = true -> input_ok du1).
Proof.
  intros [i Hi]%list_elem_of_lookup. destruct (Forall2_lookup_r _ _ _ _ _ HD Hi) as (du1 & Hdu1 & Hp).
  destruct (Forall2_lookup_r _ _ _ _ _ HR Hdu1) as (x & Hx & Hr).
  unfold typed in Hx. change (map ?f docs) with (f <$> docs) in Hx. rewrite list_lookup_fmap in Hx.
  destruct (docs !! i) as [du|] eqn:Hdu; [|done]. injection Hx as <-. exists du, du1.
  split; [by eapply list_elem_of_lookup_2|]. split; [done|]. split; [done|].
  destruct Hin as (_ & _ & Hf). rewrite Forall_forall in Hf. apply Hf. by eapply list_elem_of_lookup_2.
Qed.

Lemma stages_of du : du ∈ docs -> exists du1 du2, du2 ∈ D /\ read_into table db (SetUpdateType du mode) du1 /\
  prewrite du1 du2 /\ (OK (status_ du1) = true -> input_ok du1).
Proof.
  intros [i Hi]%list_elem_of_lookup.
  assert (Hx : typed mode docs !! i = Some (SetUpdateType du mode)).
  { unfold typed. change (map ?f docs) with (f <$> docs). by rewrite list_lookup_fmap, Hi. }
  destruct (Forall2_lookup_l _ _ _ _ _ HR Hx) as (du1 & Hdu1 & Hr).
  destruct (Forall2_lookup_l _ _ _ _ _ HD Hdu1) as (du2 & Hdu2 & Hp). exists du1, du2.
  split; [by eapply list_elem_of_lookup_2|]. split; [done|]. split; [done|].
  destruct Hin as (_ & _ & Hf). rewrite Forall_forall in Hf. apply Hf. by eapply list_elem_of_lookup_2.
Qed.

Lemma done_other d : is_u64 d -> d ∉ ids docs ->
  find db' kStoredFieldColumn (skey d) = find db kStoredFieldColumn (skey d).
Proof.
  intros Hd Hnin. apply (batch_other config table Htable db db' D HbD Heff Hold); [done|].
  intros du2 Hdu2 Hst E. destruct (stages du2 Hdu2) as (du & du1 & Hdu & (En & _) & Hp & Hok).
  destruct (prewrite_ok du1 du2 Hok Hp) as (_ & _ & _ & Ei & _). apply Hnin.
  rewrite <- E, Ei, En. exact (list_elem_of_fmap_2 (fun du => document_id_ (new_document_ du)) docs du Hdu).
Qed.

Lemma done_outcome du : du ∈ docs -> outcome db db' mode du.
Proof.
  intros Hdu. destruct (stages_of du Hdu) as (du1 & du2 & Hdu2 & Hr & Hp & Hok).
  destruct Hr as (En & Et & Ho & Hst & Hdel & Hadd & Hupd).
  cbn [SetUpdateType new_document_ update_type_] in *.
  destruct (prewrite_ok du1 du2 Hok Hp) as (E1 & E2 & E3 & Ei & Hd2).
  unfold outcome. split; [done|]. split; [done|].
  destruct Heff as (_ & Hs & Hn & He & _).
  destruct (decide (OK (status_ du1) = true)) as [Es|Es].
  - destruct (He du2 Hdu2) as [p Hop]; [congruence|].
    pose proof (Hs du2 _ p Hdu2 Hop) as Hf. destruct Hop as (_ & _ & Hop). unfold updater_Delete in Hop.
    rewrite E2, Et in Hop. rewrite Ei, En in Hf. destruct (bool_decide (mode = kDocumentDeleteType)) eqn:Em.
    { subst p. exact Hf. }
    destruct Hop as (v & Hv & ->). cbn [effect] in Hf. exists (new_document_ du2), v. split; [|split; [done|split; [|done]]].
    + destruct Hp as (t & Ht & Hdu2'). unfold tokenized, updater_Delete in Ht. rewrite Et, Em, Es in Ht. cbn in Ht.
      rewrite En in Ht. rewrite Hdu2'. cbn [set_new new_document_]. unfold keeps_old. rewrite Et, Em. cbn [orb].
      destruct Ho as [[Hnone Hf0]|(old & Hdoc & Hf0)].
      * exists t, (old_document_ du1). rewrite En in Hnone. split; [done|]. split; [by right|done].
      * exists t, old. rewrite En in Hdoc. split; [done|]. split; [by left|].
        by rewrite (merge_fields_old t _ old Hf0).
    + destruct (Hd2 Es) as (_ & _ & Hf' & _). exact Hf'.
  - assert (mode = kDocumentDeleteType) as Em by (destruct (decide (mode = kDocumentDeleteType)) as [?|Hm]; [done|destruct Es; by apply Hdel]).
    rewrite bool_decide_true by done. rewrite Hn.
    + destruct (find db kStoredFieldColumn _) as [v|]; [|done]. destruct Es. by apply Hst.
    + intros x Hx Hxs Ek. apply Es. rewrite <- E1.
      destruct (stages x Hx) as (y & y1 & Hy & (Hyn & _) & Hyp & Hyok).
      destruct (prewrite_ok y1 x Hyok Hyp) as (Ex & _ & _ & Exi & Hxd). rewrite Ex in Hxs.
      assert (document_id_ (new_document_ x) = document_id_ (new_document_ du2)) as Eid.
      { rewrite Ei, En. apply EncodeStoredFieldKey_inj in Ek as [_ Ek]; [done|done|done| |by apply (Hxd Hxs)].
        pose proof (wi_user _ _ _ _ Hwi) as Hu. rewrite Forall_forall in Hu. by apply (Hu du Hdu). }
      rewrite <- (batch_unique D HbD x du2 Hx Hdu2 Eid). congruence.
Qed.
End Done.
End Outcome.

(** ** Queries against documents *)

(** The term a boolean query looks up. *)
Definition query_term (q : BooleanQuery) : bytes :=
  if value_type_ q =? kStringIndexField then match_term_ q
  else if value_type_ q =? kUint32IndexField then AppendFixed32 [] (match_numeric_ q)
  else AppendFixed64 [] (match_numeric_ q).

(** Whether a document with the index keys [l] matches. *)
Fixpoint keys_match (l : list (Z * bytes)) (q : Query) : bool :=
  match q with
  | QBoolean q => bool_decide ((bq_field_id_ q, query_term q) ∈ l)
  | QPrefix q => existsb (fun k => (k.1 =? pq_field_id_ q) && starts_with (pmatch_term_ q) k.2) l
  | QAnd qs => match qs with [] => false | _ => forallb (keys_match l) qs end
  | QOr qs => existsb (keys_match l) qs
  end.

Definition doc_matches (config : IndexConfig) (doc : Document) (q : Query) : bool :=
  match index_keys config (fields_ doc) with Some l => keys_match l q | None => false end.

(** Every field of the query fits its byte. *)
Fixpoint query_bytes (q : Query) : bool :=
  match q with
  | QBoolean q => (0 <=? bq_field_id_ q) && (bq_field_id_ q <? 256)
  | QPrefix q => (0 <=? pq_field_id_ q) && (pq_field_id_ q <? 256)
  | QAnd qs | QOr qs => forallb query_bytes qs
  end.

Section Search.
Context {DB : Type} `{VirtualDBLaws DB} `{StoreProto}.
Context (config : IndexConfig) (table : TableID) (Htable : wf_table table).
Context (db : DB) (Hdb : db_wf db) (Hcon : consistent config table db).

Notation m := (content db kInvertedIndexColumn).
Notation ikey f t := (EncodeInvertedKey table f t []).

Lemma consistent_index_ok : index_ok m.
Proof.
  apply Forall_forall. intros [k v] Hin. apply (om_in_find bytes_cmp) in Hin; [|by apply content_sorted].
  destruct (index_lists config table db Hcon k v Hin) as (l & (Hwf & Hlen & c & Hw) & _). by exists c, l.
Qed.

Lemma posting_u64 k d : d ∈ posting_of (om_find bytes_cmp k m) -> is_u64 d.
Proof.
  destruct (om_find bytes_cmp k m) as [v|] eqn:E; cbn [posting_of]; [|by intros ?%elem_of_nil].
  destruct (index_lists config table db Hcon k v E) as (l & Hl & _). unfold posting.
  rewrite (is_doclist_read _ _ Hl). cbn [default from_option id]. intros (e & -> & He)%list_elem_of_fmap.
  destruct Hl as (Hwf & _). apply wf_docs_alt in Hwf as [_ Hf]. rewrite Forall_forall in Hf. by apply (Hf e He).
Qed.

Lemma stored_doc_inj d doc doc' : stored_doc table db d doc -> stored_doc table db d doc' -> doc = doc'.
Proof. intros (v & Hv & Hd) (v' & Hv' & Hd'). congruence. Qed.

(** A stored document matches the query. *)
Definition hit (d : Z) (q : Query) : Prop :=
  is_u64 d /\ exists doc, stored_doc table db d doc /\ doc_matches config doc q = true.

Lemma eval_boolean q d :
  query_bytes (QBoolean q) = true -> query_ok m table (QBoolean q) = true ->
  d ∈ eval m table (QBoolean q) <-> hit d (QBoolean q).
Proof.
  cbn [query_bytes query_ok eval]. intros [H1'%Z.leb_le H2'%Z.ltb_lt]%andb_true_iff [H3'%Z.leb_le H4'%Z.leb_le]%andb_true_iff.
  assert (BooleanQuery_key table q = Some (ikey (bq_field_id_ q) (query_term q))) as ->.
  { unfold BooleanQuery_key, query_term, kUint32IndexField, kUint64IndexField, kStringIndexField in *.
    by assert (value_type_ q = 1 \/ value_type_ q = 2 \/ value_type_ q = 3) as [-> |[-> | ->]] by lia. }
  assert (Hf : is_byte (bq_field_id_ q)) by (unfold is_byte; lia).
  change (match om_find bytes_cmp ?k m with Some v => posting v | None => [] end)
    with (posting_of (om_find bytes_cmp k m)).
  split.
  - intros Hd. pose proof (posting_u64 _ _ Hd) as Hu. split; [done|].
    apply (index_stored config table db Hcon _ _ d Hf Hu) in Hd as (doc & Hs & l & Hl & Hin). exists doc.
    split; [done|]. unfold doc_matches. rewrite Hl. cbn [keys_match]. by apply bool_decide_eq_true.
  - intros (Hu & doc & Hs & Hm). apply (index_stored config table db Hcon _ _ d Hf Hu). exists doc. split; [done|].
    unfold doc_matches in Hm. destruct (index_keys config (fields_ doc)) as [l|] eqn:El; [|done]. exists l.
    split; [done|]. cbn [keys_match] in Hm. by apply bool_decide_eq_true in Hm.
Qed.

Lemma eval_prefix q d :
  query_bytes (QPrefix q) = true -> d ∈ eval m table (QPrefix q) <-> hit d (QPrefix q).
Proof.
  cbn [query_bytes eval]. intros [H1'%Z.leb_le H2'%Z.ltb_lt]%andb_true_iff.
  assert (Hf : is_byte (pq_field_id_ q)) by (unfold is_byte; lia). rewrite elem_of_union_ids. split.
  - intros (l & (e & -> & He)%list_elem_of_fmap & Hd).
    apply list_elem_of_In, filter_In in He as [He Hp]. apply list_elem_of_In in He. destruct e as [k v]. cbn [fst snd] in *.
    apply (om_in_find bytes_cmp) in He; [|by apply content_sorted].
    apply starts_with_spec in Hp as [s Hk].
    assert (Ek : k = ikey (pq_field_id_ q) (pmatch_term_ q ++ s))
      by (by rewrite Hk, !EncodeInvertedKey_spec, <- app_assoc by done).
    rewrite Ek in He.
    assert (Hd' : d ∈ posting_of (om_find bytes_cmp (ikey (pq_field_id_ q) (pmatch_term_ q ++ s)) m)) by (by rewrite He).
    pose proof (posting_u64 _ _ Hd') as Hu. split; [done|].
    apply (index_stored config table db Hcon _ _ d Hf Hu) in Hd' as (doc & Hs & ks & Hks & Hin). exists doc. split; [done|].
    unfold doc_matches. rewrite Hks. cbn [keys_match]. apply existsb_exists. eexists.
    split; [by apply list_elem_of_In|]. cbn [fst snd]. rewrite Z.eqb_refl. apply starts_with_spec. by exists s.
  - intros (Hu & doc & Hs & Hm). unfold doc_matches in Hm.
    destruct (index_keys config (fields_ doc)) as [ks|] eqn:El; [|done]. cbn [keys_match] in Hm.
    apply existsb_exists in Hm as ([f t] & Hin & [Ef%Z.eqb_eq Ht]%andb_true_iff). cbn [fst snd] in *. subst f.
    assert (Hd : d ∈ posting_of (om_find bytes_cmp (ikey (pq_field_id_ q) t) m)).
    { apply (index_stored config table db Hcon _ _ d Hf Hu). exists doc. split; [done|]. exists ks. split; [done|].
      by apply list_elem_of_In. }
    destruct (om_find bytes_cmp (ikey (pq_field_id_ q) t) m) as [v|] eqn:E; [|by apply elem_of_nil in Hd].
    exists (posting v). split; [|done]. apply list_elem_of_fmap. exists (ikey (pq_field_id_ q) t, v). split; [done|].
    apply list_elem_of_In, filter_In. split; [apply list_elem_of_In; by apply (om_find_in bytes_cmp) in E|].
    cbn [fst]. by apply EncodeInvertedKey_prefix.
Qed.

Lemma hit_and d qs : qs <> [] -> Forall (hit d) qs <-> hit d (QAnd qs).
Proof.
  intros Hne. split.
  - intros Hall. destruct qs as [|q qs]; [done|]. pose proof Hall as Hall'.
    apply Forall_cons in Hall' as [(Hu & doc & Hs & _) _]. split; [done|]. exists doc. split; [done|].
    assert (Hm : Forall (fun q => doc_matches config doc q = true) (q :: qs)).
    { eapply Forall_impl; [exact Hall|]. intros q' (_ & doc' & Hs' & Hm). by rewrite (stored_doc_inj d doc doc'). }
    unfold doc_matches in *. destruct (index_keys config (fields_ doc)) as [l|]; [|by apply Forall_cons in Hm as [? _]].
    cbn [keys_match]. apply forallb_forall. intros q' Hin. rewrite Forall_forall in Hm. apply Hm. by apply list_elem_of_In.
  - intros (Hu & doc & Hs & Hm). apply Forall_forall. intros q Hin. split; [done|]. exists doc. split; [done|].
    unfold doc_matches in *. destruct (index_keys config (fields_ doc)) as [l|]; [|done]. cbn [keys_match] in Hm.
    destruct qs as [|q' qs]; [done|]. rewrite forallb_forall in Hm. apply Hm. by apply list_elem_of_In.
Qed.

Lemma hit_or d qs : Exists (hit d) qs <-> hit d (QOr qs).
Proof.
  split.
  - intros (q & Hin & Hu & doc & Hs & Hm)%Exists_exists. split; [done|]. exists doc. split; [done|].
    unfold doc_matches in *. destruct (index_keys config (fields_ doc)) as [l|]; [|done]. cbn [keys_match].
    apply existsb_exists. exists q. split; [by apply list_elem_of_In|done].
  - intros (Hu & doc & Hs & Hm). unfold doc_matches in Hm.
    destruct (index_keys config (fields_ doc)) as [l|] eqn:El; [|done]. cbn [keys_match] in Hm.
    apply existsb_exists in Hm as (q & Hin & Hm). apply Exists_exists. exists q. split; [by apply list_elem_of_In|].
    split; [done|]. exists doc. split; [done|]. unfold doc_matches. by rewrite El.
Qed.

(** The meaning of a query on the index is its meaning on the documents. *)
Lemma eval_hit n q d :
  (query_depth q <= n)%nat -> query_bytes q = true -> query_ok m table q = true ->
  d ∈ eval m table q <-> hit d q.
Proof.
  revert q. induction n as [|n IH]; intros q Hn Hb Hq;
    (destruct q as [q|q|qs|qs]; [by apply eval_boolean|by apply eval_prefix| |]); cbn [query_depth] in Hn; try lia.
  all: assert (Hsub : Forall (fun q => d ∈ eval m table q <-> hit d q) qs)
    by (cbn [query_bytes query_ok] in Hb, Hq; rewrite forallb_forall in Hb, Hq;
        pose proof (max_list_with_le query_depth qs n ltac:(lia)) as Hd; rewrite Forall_forall in Hd;
        apply Forall_forall; intros q Hin; apply IH;
          [by apply Hd|apply Hb; by apply list_elem_of_In|apply Hq; by apply list_elem_of_In]).
  all: cbn [eval].
  - destruct (decide (qs = [])) as [-> |Hne].
    + split; [by intros ?%elem_of_nil|]. intros (_ & doc & _ & Hm). unfold doc_matches in Hm.
      by destruct (index_keys config (fields_ doc)).
    + rewrite elem_of_inter by (by destruct qs). rewrite <- hit_and by done. rewrite Forall_map.
      rewrite !Forall_forall in *. split; intros Hall x Hx; apply Hsub; auto.
  - rewrite elem_of_union_ids, <- hit_or, Exists_exists. rewrite Forall_forall in Hsub. split.
    + intros (l & (q & -> & Hq')%list_elem_of_fmap & Hd). exists q. split; [done|]. by apply Hsub.
    + intros (q & Hin & Hh). exists (eval m table q). split; [|by apply Hsub].
      by apply (list_elem_of_fmap_2 (eval m table)).
Qed.

Lemma search_spec q :
  query_bytes q = true -> query_ok m table q = true ->
  exists out, run_query db table q = Some (status_ok, Some out) /\ wf_ids (map fst out) /\
    forall d, d ∈ map fst out <-> hit d q.
Proof.
  intros Hb Hq.
  destruct (GetScorer_spec db table Hdb consistent_index_ok (query_depth q) q status_ok (le_n _) Hq) as (s & Hs & it & Hit & Hr).
  unfold run_query. rewrite Hs. cbn [mbind option_bind]. rewrite Hit. cbn [mbind option_bind].
  edestruct (collect_repr (remaining it) it) as (out & Hc & Hm); [exact Hr|exact (repr_remaining it _ _ Hr)|].
  rewrite Hc. exists out. split; [done|]. rewrite Hm. split; [apply (repr_wf it _ _ Hr)|]. intros d.
  by apply (eval_hit (query_depth q)).
Qed.
End Search.

(** ** Theorems *)
Section Theorems.
Context {DB B : Type} `{WriteLaws DB B} `{StoreProtoLaws} `{TokenizerLaws}.

(** C2: a batch as [write_input] asks for is answered by the index writer, and
    leaves the inverted index consistent with the stored documents: a posting
    list holds exactly the ids of the documents that are stored and indexed
    under its key, whatever the mode, the old documents and the outcome.  When
    the answer is [false] nothing was written and no document is left with an OK
    status.

    [write_input] asks that no id occurs twice in the batch, that no field has
    the flag [kNotStoreInvertTermFieldFlag], that ids, field ids and flags fit
    their widths, that the tokenizer accepts the fields, that the posting lists
    have room for the batch below the limit of the store, and of an addition
    without reading that its ids are new.  The laws of the serialization hold
    of messages that it parses back.  Without the first two the index does
    become inconsistent: [twice_in_a_batch], [unstored_terms_stay]. *)
Theorem write_keeps_index_consistent codec config table db documents mode :
  wf_table table -> db_wf db -> consistent config table db -> write_input table db documents mode ->
  exists ok db' documents',
    InnerWriteDocuments codec config db table documents None mode = Some (ok, db', documents', None) /\
    db_wf db' /\ consistent config table db' /\ (ok = false -> write_failed db db' documents').
Proof.
  intros Htable Hdb Hcon Hwi.
  destruct (InnerWriteDocuments_spec codec config table Htable db documents mode Hdb Hcon Hwi)
    as (ok & db' & documents' & Hw & Hdb' & Hr).
  exists ok, db', documents'. split; [done|]. split; [done|]. destruct ok.
  - destruct Hr as (docs2 & D & _ & _ & _ & HbD & Hold & Heff). split; [|done].
    by apply (batch_consistent config table Htable db db' D).
  - split; [|done]. apply (consistent_content config table db db' (proj1 Hr) Hcon).
Qed.


(** C5: over a consistent index a query returns exactly the stored documents
    that match it, each once, in decreasing order of their ids. *)
Theorem search_finds_stored config table db q :
  wf_table table -> db_wf db -> consistent config table db ->
  query_bytes q = true -> query_ok (content db kInvertedIndexColumn) table q = true ->
  exists out, run_query db table q = Some (status_ok, Some out) /\ wf_ids (map fst out) /\
    forall d, d ∈ map fst out <->
      is_u64 d /\ exists doc, stored_doc table db d doc /\ doc_matches config doc q = true.
Proof. intros Htable Hdb Hcon. by apply (search_spec config table Htable db). Qed.

(** C3: a search sees a write.  After a batch as [write_input] asks for was
    accepted, a query finds a document of the batch if and only if the document
    that was written (the tokenized and, where the mode says so, merged one)
    matches it, and never one the batch deleted. *)
Theorem search_after_write codec config table db documents mode db' documents' q :
  wf_table table -> db_wf db -> consistent config table db -> write_input table db documents mode ->
  InnerWriteDocuments codec config db table documents None mode = Some (true, db', documents', None) ->
  query_bytes q = true -> query_ok (content db' kInvertedIndexColumn) table q = true ->
  exists out, run_query db' table q = Some (status_ok, Some out) /\
    forall du, du ∈ documents ->
      if bool_decide (mode = kDocumentDeleteType) then document_id_ (new_document_ du) ∉ map fst out
      else exists d, written table db mode (new_document_ du) d /\
        (document_id_ (new_document_ du) ∈ map fst out <-> doc_matches config d q = true).
Proof.
  intros Htable Hdb Hcon Hwi Hw Hb Hq.
  destruct (InnerWriteDocuments_spec codec config table Htable db documents mode Hdb Hcon Hwi)
    as (ok & db2 & docs3 & Hw2 & Hdb' & Hr). rewrite Hw in Hw2. injection Hw2 as <- <- <-.
  destruct Hr as (docs2 & D & HR & Hin & HD & HbD & Hold & Heff).
  pose proof (batch_consistent config table Htable db db' D Hcon HbD Heff Hold) as Hcon'.
  destruct (search_spec config table Htable db' Hdb' Hcon' q Hb Hq) as (out & Hrun & _ & Hout).
  exists out. split; [done|]. intros du Hdu.
  assert (Ho : outcome table db db' mode du) by by eapply done_outcome.
  assert (Hid : is_u64 (document_id_ (new_document_ du))).
  { pose proof (wi_user _ _ _ _ Hwi) as Hu. rewrite Forall_forall in Hu. by apply (Hu du Hdu). }
  destruct Ho as (_ & _ & Ho). destruct (bool_decide (mode = kDocumentDeleteType)).
  - rewrite Hout. intros (_ & doc & (v & Hv & _) & _). congruence.
  - destruct Ho as (d & v & Hwr & Hv & Hf & Hs). exists d. split; [done|]. rewrite Hout.
    destruct (document_keys_roundtrip config d v Hf Hv) as (d' & Hd' & _ & Ek). split.
    + intros (_ & doc & (v' & Hv' & Hd2) & Hm). assert (doc = d') as -> by congruence.
      unfold doc_matches in *. by rewrite <- Ek.
    + intros Hm. split; [done|]. exists d'. split; [by exists v|]. unfold doc_matches in *. by rewrite Ek.
Qed.
End Theorems.

(** ** On the mock store, with the blank tokenizer *)
#[local] Existing Instances number_proto number_proto_laws number_store_proto number_store_proto_laws
  TokenizerSpaceImpl.tokenizer space_laws.
Lemma number_proto_total l : @SerializeToString number_proto l <> None.
Proof. discriminate. Qed.

#[local] Instance sample_write_buffer : WriteBuffer WriteBufferMock := mock_write_buffer DocListCompressionFixType.
#[local] Instance sample_write_db : WriteDB MockDB WriteBufferMock := mock_write_db DocListCompressionFixType.
#[local] Instance sample_write_laws : WriteLaws MockDB WriteBufferMock :=
  mock_write_laws DocListCompressionFixType number_proto_total.

(** A document with the text "hi you" and the number 77. *)
Definition sample_doc (id : Z) : Document :=
  mkDocument
    [mkField 1 (SetInvertIndex (SetTokenize (SetStoredField 0))) kStringIndexField 0
       [104; 105; 32; 121; 111; 117] false [] 0 [];
     mkField 2 (SetInvertIndex (SetStoredField 0)) kUint32IndexField 77 [] false [] 0 []] id (-1).

Definition sample_batch : list DocumentUpdater :=
  map (fun id => mkUpdater status_ok new_document (sample_doc id) new_document new_document kDocumentAddType) [42; 7].

Definition empty_db : MockDB := [].

Definition sample_run : option (bool * MockDB * list DocumentUpdater * option bytes) :=
  InnerWriteDocuments DocListCompressionFixType default_config empty_db sample_table
  sample_batch None kDocumentAddType.
Definition run_db (run : option (bool * MockDB * list DocumentUpdater * option bytes)) : MockDB :=
  match run with Some (_, db, _, _) => db | None => [] end.
Definition sample_db : MockDB := run_db sample_run.

Lemma sample_table_wf : wf_table sample_table.
Proof. split; [cbv; split; congruence|]. unfold is_u64. cbv. split; congruence. Qed.

Lemma empty_wf : db_wf empty_db.
Proof. apply cf_wf_nil. Qed.

Lemma empty_consistent : consistent default_config sample_table empty_db.
Proof.
  split; [done|done|]. intros f t d Hf Hd. split; [by intros ?%elem_of_nil|].
  by intros (doc & (v & Hv & _) & _).
Qed.

Lemma sample_input : write_input sample_table empty_db sample_batch kDocumentAddType.
Proof.
  split; [by apply (bool_decide_unpack _); vm_compute|done| |intros k; exists []; split; [by left|done]|done].
  repeat apply Forall_cons_2; [..|constructor]; (split; [done|]; split; [done|]; split; [unfold is_u64; cbv; by split|]).
  all: repeat apply Forall_cons_2; [..|constructor]; (split; [cbv; by split|]; split; [cbv; by split|]; split; [done|]).
  all: (split; [split; [split; constructor|]; split; [|cbv; by split]|exact I]).
  all: cbn [string_value_]; repeat (apply Forall_cons_2; [split; lia|]); apply Forall_nil_2.
Qed.

#[local] Opaque InnerWriteDocuments.

Lemma write_keeps_index_consistent_witness :
  sample_run <> None /\ db_wf sample_db /\ consistent default_config sample_table sample_db.
Proof.
  destruct (write_keeps_index_consistent DocListCompressionFixType default_config sample_table empty_db sample_batch
    kDocumentAddType sample_table_wf empty_wf empty_consistent sample_input) as (ok & db' & docs' & E & Hwf & Hc & _).
  unfold sample_db. change (sample_run = Some (ok, db', docs', None)) in E. rewrite E.
  split; [done|]. by split.
Defined.

Definition run_documents (run : option (bool * MockDB * list DocumentUpdater * option bytes)) : list DocumentUpdater :=
  match run with Some (_, _, documents, _) => documents | None => [] end.

Definition accepted (run : option (bool * MockDB * list DocumentUpdater * option bytes)) : bool :=
  match run with Some (ok, _, _, None) => ok | _ => false end.

Lemma accepted_run run : accepted run = true -> run = Some (true, run_db run, run_documents run, None).
Proof. destruct run as [[[[ok db] docs] [b|]]|]; try done. cbn. by intros ->. Qed.

Lemma sample_accepted : sample_run = Some (true, sample_db, run_documents sample_run, None).
Proof. apply accepted_run. vm_compute. reflexivity. Qed.


Lemma run_inv (a b : bool) (x y : MockDB) (u v : list DocumentUpdater) :
  Some (a, x, u, None : option bytes) = Some (b, y, v, None) -> a = b /\ x = y.
Proof. by intros [= -> -> ->]. Qed.

(** "hi" and the number 77, and a document whose terms start with "yo". *)
Definition written_query : Query :=
  QAnd [QBoolean (BooleanQuery_term 1 [104; 105]); QBoolean (BooleanQuery_uint32 2 77);
        QPrefix (mkPrefixQuery 1 [121; 111] 1000000)].

Lemma sample_db_ok : db_wf sample_db /\ consistent default_config sample_table sample_db.
Proof.
  destruct (InnerWriteDocuments_spec DocListCompressionFixType default_config sample_table sample_table_wf empty_db
    sample_batch kDocumentAddType empty_wf empty_consistent sample_input) as (ok & db' & docs' & E & Hwf & Hr).
  destruct (run_inv _ _ _ _ _ _ (eq_trans (eq_sym sample_accepted) E)) as [<- <-].
  split; [exact Hwf|]. destruct Hr as (docs2 & D & _ & _ & _ & HbD & Hold & Heff).
  exact (batch_consistent default_config sample_table sample_table_wf empty_db sample_db D empty_consistent HbD Heff Hold).
Qed.

Lemma search_finds_stored_witness :
  exists out, run_query sample_db sample_table written_query = Some (status_ok, Some out) /\ wf_ids (map fst out).
Proof.
  destruct (search_finds_stored default_config sample_table sample_db written_query sample_table_wf
    (proj1 sample_db_ok) (proj2 sample_db_ok)) as (out & Ho & Hwf & _).
  - reflexivity.
  - vm_compute. reflexivity.
  - exists out. by split.
Defined.

Lemma search_after_write_witness :
  exists out, run_query sample_db sample_table written_query = Some (status_ok, Some out) /\ length out = 2%nat.
Proof.
  destruct (search_after_write DocListCompressionFixType default_config sample_table empty_db sample_batch
    kDocumentAddType sample_db (run_documents sample_run) written_query sample_table_wf empty_wf empty_consistent
    sample_input sample_accepted) as (out & Ho & _).
  - reflexivity.
  - vm_compute. reflexivity.
  - exists out. split; [exact Ho|].
    assert (E : option_map (fun r => option_map (@length (Z * Z)) r.2) (run_query sample_db sample_table written_query)
                = Some (Some 2%nat)) by (vm_compute; reflexivity).
    rewrite Ho in E. by injection E.
Defined.

(** ** What [write_input] excludes *)

(** The ids found after some batches. *)
Fixpoint write_batches (db : MockDB) (l : list (list DocumentUpdater * kDocumentUpdaterType)) : option MockDB :=
  match l with
  | [] => Some db
  | (documents, mode) :: l =>
      '(_, db, _, _) ← InnerWriteDocuments DocListCompressionFixType default_config db sample_table documents None mode;
      write_batches db l
  end.

Definition found_after (l : list (list DocumentUpdater * kDocumentUpdaterType)) (q : Query) : option (list Z) :=
  db ← write_batches empty_db l;
  '(_, out) ← run_query db sample_table q;
  map fst <$> out.

Definition text_updater (flag : Z) (text : bytes) (mode : kDocumentUpdaterType) : DocumentUpdater :=
  mkUpdater status_ok new_document (mkDocument [mkField 1 flag kStringIndexField 0 text false [] 0 []] 7 (-1))
    new_document new_document mode.

Definition text_flag : Z := SetInvertIndex (SetTokenize (SetStoredField 0)).
Definition hi_query : Query := QBoolean (BooleanQuery_term 1 [104; 105]).

(** A document whose field does not store its terms is still found after it was
    deleted; without the flag it is not. *)
Example unstored_terms_stay :
  map (fun flag => found_after [([text_updater flag [104; 105] kDocumentAddType], kDocumentAddType);
                                ([text_updater flag [104; 105] kDocumentDeleteType], kDocumentDeleteType)] hi_query)
    [SetNotStoreInvertTerm text_flag; text_flag] = [Some [7]; Some []].
Proof. vm_compute. reflexivity. Qed.

(** Of two documents with one id in a batch the second is stored, but the terms
    of both are indexed. *)
Example twice_in_a_batch :
  found_after [([text_updater text_flag [104; 105] kDocumentReplaceType; text_updater text_flag [121; 111] kDocumentReplaceType],
                kDocumentReplaceType)] hi_query = Some [7] /\
  found_after [([text_updater text_flag [121; 111] kDocumentReplaceType], kDocumentReplaceType)] hi_query = Some [].
Proof. vm_compute. done. Qed.
