(* ===== verification/Library.v ===== *)
(** The engine as its users see it: a library of documents.

    The abstract specification keeps one document per id.  A batch that is
    accepted stores, merges, replaces or removes its documents, a batch that is
    refused does nothing, a search answers with the ids of the documents that
    match, and a compaction is not seen.  The index writer over any store with
    the laws of [VirtualDB] and [WriteDB], read by the scorers of [Query], refines
    this library, request by request. *)
From Stdlib Require String.
From S2P Require Import Prelude Storage Coding Codec DocList MergeOperator Iterators VirtualDB Query WriteDB.
From S2P Require Import Document Tokenizer DocumentWriter IndexWriter TermDiff IndexConsistency IndexCorrect.

(** ** Requests *)
Inductive request :=
| RWrite (documents : list DocumentUpdater) (mode : kDocumentUpdaterType)
| RSearch (q : Query)
| RCompact (column : StorageColumnType) (begin_key end_key : bytes).

Inductive response :=
| Answered (ok : bool)
| Found (ids : list Z)
| Compacted (status : SearchStatus).

(** ** The specification *)
Definition library : Type := Z -> option Document.

Definition empty_library : library := fun _ => None.

(** The stored form of a document: scores and what a field keeps for its own
    indexing only are not stored. *)
Definition image (d : Document) : Document :=
  mkDocument (map (fun f => DecodeFromStoreField new_field (EncodeToStoreField f 0)) (fields_ d)) (document_id_ d) (-1).

Section Spec.
Context `{Tokenizer} (config : IndexConfig).

(** What becomes of an id when [new] is handed in. *)
Definition shelve (mode : kDocumentUpdaterType) (old : option Document) (new : Document) : option Document :=
  if bool_decide (mode = kDocumentDeleteType) then None
  else
    r ← Do new;
    Some (image (if bool_decide (mode = kDocumentReplaceType) then r.2 else merge_fields r.2 (default new_document old))).

Definition updater_of (documents : list DocumentUpdater) (id : Z) : option DocumentUpdater :=
  List.find (fun du => document_id_ (new_document_ du) =? id) documents.

Definition apply_batch (σ : library) (documents : list DocumentUpdater) (mode : kDocumentUpdaterType) : library :=
  fun id => match updater_of documents id with Some du => shelve mode (σ id) (new_document_ du) | None => σ id end.

(** An addition is of new documents, an update of stored ones. *)
Definition may_apply (σ : library) (documents : list DocumentUpdater) (mode : kDocumentUpdaterType) : Prop :=
  Forall (fun du => let old := σ (document_id_ (new_document_ du)) in
            (mode = kDocumentAddType -> old = None) /\ (mode = kDocumentUpdateType -> old <> None)) documents.

(** Two libraries with the same documents. *)
Definition same_library (σ σ' : library) : Prop := forall id, is_u64 id -> σ' id = σ id.

Inductive spec_step (σ : library) : request -> response -> library -> Prop :=
| spec_accept documents mode σ' :
    may_apply σ documents mode -> same_library (apply_batch σ documents mode) σ' ->
    spec_step σ (RWrite documents mode) (Answered true) σ'
| spec_refuse documents mode σ' : same_library σ σ' -> spec_step σ (RWrite documents mode) (Answered false) σ'
| spec_search q ids σ' :
    same_library σ σ' -> wf_ids ids ->
    (forall id, id ∈ ids <-> is_u64 id /\ exists doc, σ id = Some doc /\ doc_matches config doc q = true) ->
    spec_step σ (RSearch q) (Found ids) σ'
| spec_compact column begin_key end_key status σ' :
    same_library σ σ' -> spec_step σ (RCompact column begin_key end_key) (Compacted status) σ'.

Inductive spec_run : library -> list request -> list response -> library -> Prop :=
| spec_run_nil σ σ' : same_library σ σ' -> spec_run σ [] [] σ'
| spec_run_cons σ σ1 σ2 r a rs bs : spec_step σ r a σ1 -> spec_run σ1 rs bs σ2 -> spec_run σ (r :: rs) (a :: bs) σ2.
End Spec.

(** ** The engine *)

(** Compactions, as the storage interface offers them. *)
Class Compaction (DB : Type) := {
  Compact : DB -> StorageColumnType -> bytes -> bytes -> option (SearchStatus * DB)
}.

Class CompactionLaws (DB : Type) `{VirtualDBLaws DB, !Compaction DB} : Prop := {
  Compact_law db column x y : db_wf db ->
    exists s db', Compact db column x y = Some (s, db') /\ db_wf db' /\ forall c, content db' c = content db c
}.

Section Engine.
Context {DB B : Type} `{VirtualDB DB, WriteBuffer B, !WriteDB DB B, !Compaction DB, StoreProto, Tokenizer}.
Context (codec : DocListCompressionType) (config : IndexConfig) (table : TableID).

Definition handle (db : DB) (r : request) : option (DB * response) :=
  match r with
  | RWrite documents mode =>
      '(ok, db, _, _) ← InnerWriteDocuments codec config db table documents None mode;
      Some (db, Answered ok)
  | RSearch q =>
      '(_, out) ← run_query db table q;
      out ← out;
      Some (db, Found (map fst out))
  | RCompact column begin_key end_key =>
      '(status, db) ← Compact db column begin_key end_key;
      Some (db, Compacted status)
  end.

Fixpoint serve (db : DB) (rs : list request) : option (DB * list response) :=
  match rs with
  | [] => Some (db, [])
  | r :: rs =>
      '(db, a) ← handle db r;
      '(db, l) ← serve db rs;
      Some (db, a :: l)
  end.
End Engine.

(** ** What a write hands to the store *)
Section Flushed.
Context {DB B : Type} `{VirtualDB DB, WriteBuffer B, !WriteDB DB B, StoreProto, Tokenizer}.

(** A store that only notes the last buffer it was to flush. *)
#[local] Instance noting_db : VirtualDB (DB * option B) := {|
  Get db := Get db.1;
  Seek db := Seek db.1
|}.
#[local] Instance noting_write_db : WriteDB (DB * option B) B := {|
  NewWriteBuffer := NewWriteBuffer (DB := DB);
  FlushBuffer db b := Some (status_ok, (db.1, Some b), b)
|}.

(** The buffer a batch of documents is flushed with, when it comes that far. *)
Definition flushed (codec : DocListCompressionType) (config : IndexConfig) (table : TableID) (db : DB)
    (documents : list DocumentUpdater) (mode : kDocumentUpdaterType) : option B :=
  '(_, db, _, _) ← InnerWriteDocuments codec config (db, None) table documents None mode;
  (db.2 : option B).

#[local] Ltac to_write_all docs start :=
  unfold flushed, InnerWriteDocuments, UpdateDocuments; cbv zeta;
  match goal with |- context [@read_column _ noting_db (?db, None)] => change (read_column (db, None)) with (read_column db) end;
  match goal with |- context [UpdateDocumetStatus ?m ?ok ?ds ?vs ?dvs] =>
    destruct (UpdateDocumetStatus m ok ds vs dvs) as [[] docs]; [|done] end;
  cbn [open_buffer FlushBuffer NewWriteBuffer noting_write_db];
  change (@open_buffer (DB * option B) B noting_write_db) with (@open_buffer DB B _);
  match goal with |- context [write_all _ _ _ docs ?b] => set (start := b) end.

(** What the flush does to that buffer decides the outcome, and nothing else
    about flushing. *)
Lemma flushed_run (F : DB -> B -> option (SearchStatus * DB * B)) codec config table db documents mode :
  match flushed codec config table db documents mode with
  | None => True
  | Some b => FlushBuffer db b = F db b
  end ->
  InnerWriteDocuments codec config db table documents None mode =
  @InnerWriteDocuments _ _ _ _ {| NewWriteBuffer := NewWriteBuffer (DB := DB); FlushBuffer := F |} _ _ codec config db table documents None mode.
Proof.
  to_write_all docs start.
  change (@open_buffer DB B {| NewWriteBuffer := NewWriteBuffer (DB := DB); FlushBuffer := F |} None) with start.
  destruct (write_all codec config table docs start) as [[[st b] docs']|]; cbn [mbind option_bind]; [|done].
  set (st' := if OK st then _ else st). destruct (OK st'); cbn [mbind option_bind]; [|done].
  cbn [snd FlushBuffer]. by intros ->.
Qed.

Lemma flushed_stops codec config table db documents mode b :
  flushed codec config table db documents mode = Some b -> FlushBuffer db b = None ->
  InnerWriteDocuments codec config db table documents None mode = None.
Proof.
  to_write_all docs start.
  destruct (write_all codec config table docs start) as [[[st b'] docs']|]; cbn [mbind option_bind]; [|done].
  set (st' := if OK st then _ else st). destruct (OK st'); cbn [mbind option_bind]; [|done].
  intros [= ->] ->. done.
Qed.
End Flushed.

(** ** The engine refines the library *)
Section Refinement.
Context {DB B : Type} `{WriteLaws DB B, !Compaction DB, !CompactionLaws DB, StoreProtoLaws, TokenizerLaws}.
Context (codec : DocListCompressionType) (config : IndexConfig) (table : TableID) (Htable : wf_table table).

(** The documents in the store. *)
Definition shelf (db : DB) : library := fun id =>
  v ← om_find bytes_cmp (EncodeStoredFieldKey table id []) (content db kStoredFieldColumn);
  DeSerializeFromByte new_document v.

(** What a request has to be: a batch as [write_input] says, a query of supported
    kinds within the limits. *)
Definition admissible (db : DB) (r : request) : Prop :=
  match r with
  | RWrite documents mode => write_input table db documents mode
  | RSearch q => query_bytes q = true /\ query_ok (content db kInvertedIndexColumn) table q = true
  | RCompact _ _ _ => True
  end.

Fixpoint all_admissible (db : DB) (rs : list request) : Prop :=
  match rs with
  | [] => True
  | r :: rs => admissible db r /\ forall db' a, handle codec config table db r = Some (db', a) -> all_admissible db' rs
  end.

Lemma shelf_stored db id doc : shelf db id = Some doc <-> stored_doc table db id doc.
Proof.
  unfold shelf, stored_doc. destruct (om_find _ _ _) as [v|]; cbn [mbind option_bind].
  - split; [intros E; by exists v|by intros (v' & [= <-] & E)].
  - split; [done|by intros (v' & ? & _)].
Qed.

Lemma shelf_content db db' : (forall c, content db' c = content db c) -> shelf db' = shelf db.
Proof. intros E. unfold shelf. by rewrite E. Qed.

(** Over a consistent index an id without a document has no stored value. *)
Lemma shelf_none db id : consistent config table db -> is_u64 id ->
  shelf db id = None <-> om_find bytes_cmp (EncodeStoredFieldKey table id []) (content db kStoredFieldColumn) = None.
Proof.
  intros Hcon Hid. unfold shelf. destruct (om_find _ _ _) as [v|] eqn:E; cbn [mbind option_bind]; [|done].
  destruct (stored_docs _ _ _ Hcon id v Hid E) as (doc & -> & _). done.
Qed.

Lemma image_stored d v : fst (SerializeToBytes d 0) = Some v -> DeSerializeFromByte new_document v = Some (image d).
Proof.
  unfold SerializeToBytes. cbn [fst]. intros Hs. unfold DeSerializeFromByte. rewrite (ParseDocument_Serialize _ _ Hs).
  cbn [mbind option_bind]. rewrite fold_AddField. cbn [fields_ SetID new_document app pb_fields pb_document_id document_id_ match_field_id_].
  unfold image, store_fields. cbn [Z.eqb]. by rewrite map_map.
Qed.

(** The old document of a write is the one on the shelf, or none. *)
Lemma old_shelf db id t old : consistent config table db -> is_u64 id -> old_of table db id old ->
  merge_fields t old = merge_fields t (default new_document (shelf db id)).
Proof.
  intros Hcon Hid [Hs|[Hn Hf]].
  - by rewrite (proj2 (shelf_stored db id old) Hs).
  - rewrite (proj2 (shelf_none db id Hcon Hid) Hn). cbn [default]. by apply merge_fields_old.
Qed.

Lemma updater_of_in documents du :
  NoDup (ids documents) -> du ∈ documents -> updater_of documents (document_id_ (new_document_ du)) = Some du.
Proof.
  unfold updater_of. induction documents as [|x l IH]; intros Hnd Hin; [by apply elem_of_nil in Hin|].
  unfold ids in *. cbn [map List.find] in *. apply NoDup_cons in Hnd as [Hx Hnd]. apply elem_of_cons in Hin as [->|Hin]; [by rewrite Z.eqb_refl|].
  destruct (Z.eqb_spec (document_id_ (new_document_ x)) (document_id_ (new_document_ du))) as [E|]; [|by apply IH].
  destruct Hx. rewrite E. exact (list_elem_of_fmap_2 (fun du => document_id_ (new_document_ du)) l du Hin).
Qed.

Lemma updater_of_none documents id : id ∉ ids documents -> updater_of documents id = None.
Proof.
  unfold updater_of, ids. induction documents as [|x l IH]; cbn [map List.find]; [done|]. intros [Hne Hni]%not_elem_of_cons.
  destruct (Z.eqb_spec (document_id_ (new_document_ x)) id); [congruence|by apply IH].
Qed.

(** An accepted batch on the shelf. *)
Lemma accepted_shelf db db' documents mode :
  consistent config table db -> write_input table db documents mode ->
  (forall id, is_u64 id -> id ∉ ids documents ->
     om_find bytes_cmp (EncodeStoredFieldKey table id []) (content db' kStoredFieldColumn) =
     om_find bytes_cmp (EncodeStoredFieldKey table id []) (content db kStoredFieldColumn)) ->
  (forall du, du ∈ documents -> outcome table db db' mode du) ->
  may_apply (shelf db) documents mode /\ same_library (apply_batch (shelf db) documents mode) (shelf db').
Proof.
  intros Hcon Hwi Hother Hout. pose proof (wi_user _ _ _ _ Hwi) as Hu. rewrite Forall_forall in Hu. split.
  - apply Forall_forall. intros du Hdu. destruct (Hu du Hdu) as (_ & _ & Hid & _). destruct (Hout du Hdu) as (Hadd & Hupd & _).
    cbv zeta. rewrite (shelf_none db _ Hcon Hid). by split.
  - intros id Hid. unfold apply_batch. destruct (decide (id ∈ ids documents)) as [Hin|Hni].
    + unfold ids in Hin. apply list_elem_of_fmap in Hin as (du & -> & Hdu).
      rewrite (updater_of_in documents du (wi_ids _ _ _ _ Hwi) Hdu). destruct (Hout du Hdu) as (_ & _ & Ho).
      unfold shelve. destruct (bool_decide (mode = kDocumentDeleteType)); [unfold shelf; by rewrite Ho|].
      destruct Ho as (d & v & (t & old & Hdo & Hold & ->) & Hv & _ & Hs). unfold shelf at 1. rewrite Hs. cbn [mbind option_bind].
      rewrite (image_stored _ _ Hv), Hdo. cbn [mbind option_bind snd].
      destruct (bool_decide (mode = kDocumentReplaceType)); [done|]. by rewrite (old_shelf db _ t old Hcon Hid Hold).
    + rewrite (updater_of_none documents id Hni). unfold shelf. by rewrite Hother.
Qed.

(** Every admissible request is answered as the specification says. *)
Lemma handle_refines db r :
  db_wf db -> consistent config table db -> admissible db r ->
  exists db' a, handle codec config table db r = Some (db', a) /\ db_wf db' /\ consistent config table db' /\
    spec_step config (shelf db) r a (shelf db').
Proof.
  intros Hdb Hcon Hadm. destruct r as [documents mode|q|column x y]; cbn [admissible handle] in *.
  - destruct (InnerWriteDocuments_spec codec config table Htable db documents mode Hdb Hcon Hadm)
      as (ok & db' & documents' & -> & Hdb' & Hr). cbn [mbind option_bind]. exists db', (Answered ok). split; [done|]. split; [done|].
    destruct ok.
    + destruct Hr as (docs2 & D & HR & Hin & HD & HbD & Hold & Heff).
      split; [by apply (batch_consistent config table Htable db db' D)|].
      destruct (accepted_shelf db db' documents mode Hcon Hadm) as [H1' H2'];
        [intros d; by eapply done_other|intros du; by eapply done_outcome|]. by constructor.
    + destruct Hr as [Hc _]. split; [by apply (consistent_content config table db db')|]. constructor. intros id _.
      by rewrite (shelf_content db db').
  - destruct Hadm as [Hb Hq]. destruct (search_spec config table Htable db Hdb Hcon q Hb Hq) as (out & -> & Hwf & Hout).
    cbn [mbind option_bind]. exists db, (Found (map fst out)). split; [done|]. split; [done|]. split; [done|].
    constructor; [done|done|]. intros id. rewrite Hout. unfold hit. by setoid_rewrite shelf_stored.
  - destruct (Compact_law db column x y Hdb) as (s & db' & -> & Hdb' & Hc). cbn [mbind option_bind].
    exists db', (Compacted s). split; [done|]. split; [done|]. split; [by apply (consistent_content config table db db')|].
    constructor. intros id _. by rewrite (shelf_content db db').
Qed.

Lemma serve_refines db rs :
  db_wf db -> consistent config table db -> all_admissible db rs ->
  exists db' l, serve codec config table db rs = Some (db', l) /\ db_wf db' /\ consistent config table db' /\
    spec_run config (shelf db) rs l (shelf db').
Proof.
  revert db. induction rs as [|r rs IH]; intros db Hdb Hcon Hadm; cbn [serve].
  { exists db, []. split; [done|]. split; [done|]. split; [done|]. by constructor. }
  destruct Hadm as [Hr Hrs]. destruct (handle_refines db r Hdb Hcon Hr) as (db1 & a & E & Hdb1 & Hcon1 & Hstep).
  rewrite E. cbn [mbind option_bind]. destruct (IH db1 Hdb1 Hcon1 (Hrs _ _ E)) as (db2 & l & -> & Hdb2 & Hcon2 & Hrun).
  cbn [mbind option_bind]. exists db2, (a :: l). split; [done|]. split; [done|]. split; [done|]. by econstructor.
Qed.

(** A store without entries is consistent and has an empty shelf. *)
Lemma empty_start db : (forall c, content db c = []) -> consistent config table db /\ shelf db = empty_library.
Proof.
  intros E. split.
  - split; [by intros k v; rewrite E|by intros d v _; rewrite E|]. intros f t d Hf Hd. rewrite E. split; [by intros ?%elem_of_nil|].
    intros (doc & (v & Hv & _) & _). by rewrite E in Hv.
  - unfold shelf, empty_library. by rewrite E.
Qed.
End Refinement.
