(* ===== verification/Filter.v ===== *)
(** Filters on doc values ([filter.h]) and how a collector combines them
    ([TopNCollector::MatchFilter], [collector_top.cpp]).

    A filter holds a field with the value to compare with.  [None] as the
    result of [Match] is the failed assertion that the document's field is the
    one the filter names.  The printed descriptions are not modelled. *)
From S2P Require Import Prelude Storage Document.

(** ** Filters *)
Inductive Filter :=
| EqualFilter (field_ : IndexField)
| NotEqualFilter (field_ : IndexField)
| RangeFilter (field_ : IndexField) (begin_ end_ : Z)
| InFilter (field_ : IndexField)
| NotInFilter (field_ : IndexField)
| InNumericListFilter (field_ : IndexField)
| NotInNumericListFilter (field_ : IndexField)
| MatchStringListFilter (field_ : IndexField) (string_value_list_ : list bytes) (revert_ : bool)
    (min_should_match_filter_values_num_ : Z).

Definition GetField (f : Filter) : IndexField :=
  match f with
  | EqualFilter field_ | NotEqualFilter field_ | RangeFilter field_ _ _ | InFilter field_ | NotInFilter field_
  | InNumericListFilter field_ | NotInNumericListFilter field_ | MatchStringListFilter field_ _ _ _ => field_
  end.

Definition GetFieldID (f : Filter) : Z := field_id_ (GetField f).

Definition CheckFieldTypeNumeric (field : IndexField) : bool :=
  (field_type_ field =? kUint32IndexField) || (field_type_ field =? kUint64IndexField).
Definition CheckFieldTypeString (field : IndexField) : bool := field_type_ field =? kStringIndexField.

(** The constructor of [MatchStringListFilter] bounds the number of required
    values by the number of values. *)
Definition new_MatchStringListFilter (field : IndexField) (string_list : list bytes) (revert : bool) (min : Z) : Filter :=
  MatchStringListFilter field string_list revert
    (if Z.of_nat (length string_list) <? min then Z.of_nat (length string_list) else min).

(** [std::find(...) != end]. *)
Definition in_list (v : Z) (l : list Z) : bool := existsb (Z.eqb v) l.

Fixpoint match_count (s : bytes) (l : list bytes) (count : Z) : Z :=
  match l with
  | [] => count
  | v :: l' => match_count s l' (if str_contains v s then u32 (count + 1) else count)
  end.

Definition InnerMatch (field : IndexField) (string_value_list_ : list bytes) (min : Z) : bool :=
  min <=? match_count (string_value_ field) string_value_list_ 0.

(** The test every filter starts with: no field is no match, and the field is
    the one of the filter. *)
Definition guarded (field_ : IndexField) (field : option IndexField) (body : IndexField -> bool) : option bool :=
  match field with
  | None => Some false
  | Some field => if negb (field_id_ field =? field_id_ field_) then None else Some (body field)
  end.

Definition EqualFilter_Match (field_ : IndexField) (field : option IndexField) : option bool :=
  guarded field_ field (fun field =>
    if CheckFieldTypeNumeric field && CheckFieldTypeNumeric field_ then
      numeric_value_ field_ =? numeric_value_ field
    else if CheckFieldTypeString field && CheckFieldTypeString field_ then
      bool_decide (string_value_ field_ = string_value_ field)
    else false).

Definition NotEqualFilter_Match (field_ : IndexField) (field : option IndexField) : option bool :=
  guarded field_ field (fun field =>
    if CheckFieldTypeNumeric field && CheckFieldTypeNumeric field_ then
      negb (numeric_value_ field_ =? numeric_value_ field)
    else if CheckFieldTypeString field && CheckFieldTypeString field_ then
      negb (bool_decide (string_value_ field_ = string_value_ field))
    else false).

Definition RangeFilter_Match (field_ : IndexField) (begin_ end_ : Z) (field : option IndexField) : option bool :=
  guarded field_ field (fun field =>
    if negb (CheckFieldTypeNumeric field) then false
    else (begin_ <=? numeric_value_ field) && (numeric_value_ field <=? end_)).

Definition InFilter_Match (field_ : IndexField) (field : option IndexField) : option bool :=
  guarded field_ field (fun field =>
    if (field_type_ field_ =? kStringIndexField) && (field_type_ field =? kStringIndexField)
    then str_contains (string_value_ field_) (string_value_ field) else false).

Definition NotInFilter_Match (field_ : IndexField) (field : option IndexField) : option bool :=
  guarded field_ field (fun field =>
    if (field_type_ field_ =? kStringIndexField) && (field_type_ field =? kStringIndexField)
    then negb (str_contains (string_value_ field_) (string_value_ field)) else false).

Definition InNumericListFilter_Match (field_ : IndexField) (field : option IndexField) : option bool :=
  guarded field_ field (fun field =>
    if negb (CheckFieldTypeNumeric field) || negb (CheckFieldTypeNumeric field_) then false
    else in_list (numeric_value_ field) (numeric_list_ field_)).

Definition NotInNumericListFilter_Match (field_ : IndexField) (field : option IndexField) : option bool :=
  guarded field_ field (fun field =>
    if negb (CheckFieldTypeNumeric field) || negb (CheckFieldTypeNumeric field_) then false
    else negb (in_list (numeric_value_ field) (numeric_list_ field_))).

Definition MatchStringListFilter_Match (field_ : IndexField) (l : list bytes) (revert_ : bool) (min : Z)
    (field : option IndexField) : option bool :=
  guarded field_ field (fun field =>
    if negb (field_type_ field =? kStringIndexField) then false
    else
      let match_ := InnerMatch field l min in
      if revert_ then negb match_ else match_).

(** The virtual call. *)
Definition Match (f : Filter) : option IndexField -> option bool :=
  match f with
  | EqualFilter field_ => EqualFilter_Match field_
  | NotEqualFilter field_ => NotEqualFilter_Match field_
  | RangeFilter field_ begin_ end_ => RangeFilter_Match field_ begin_ end_
  | InFilter field_ => InFilter_Match field_
  | NotInFilter field_ => NotInFilter_Match field_
  | InNumericListFilter field_ => InNumericListFilter_Match field_
  | NotInNumericListFilter field_ => NotInNumericListFilter_Match field_
  | MatchStringListFilter field_ l revert_ min => MatchStringListFilter_Match field_ l revert_ min
  end.

(** ** Several filters *)
Fixpoint count_matches (filter_ : list Filter) (document : Document) (match_count : Z) : option Z :=
  match filter_ with
  | [] => Some match_count
  | rule :: filter_' =>
      m ← Match rule (FindField document (GetFieldID rule));
      count_matches filter_' document (if (m : bool) then u32 (match_count + 1) else match_count)
  end.

Definition MatchFilter (filter_ : option (list Filter)) (min_match_filter_num_ : Z) (document : Document) : option bool :=
  match filter_ with
  | None => Some true
  | Some l => n ← count_matches l document 0; Some (min_match_filter_num_ <=? n)
  end.

(** The number of filters that must match, as the constructor of the collector
    sets it: all of them if none or too many were asked for. *)
Definition effective_min (filter : option (list Filter)) (min_match_filter_num : Z) : Z :=
  match filter with
  | Some l =>
      if (min_match_filter_num =? 0) || (Z.of_nat (length l) <? min_match_filter_num)
      then u32 (Z.of_nat (length l)) else min_match_filter_num
  | None => min_match_filter_num
  end.

(** ** What the filters mean *)
Definition is_numeric (f : IndexField) : Prop :=
  field_type_ f = kUint32IndexField \/ field_type_ f = kUint64IndexField.
Definition is_string (f : IndexField) : Prop := field_type_ f = kStringIndexField.

(** [v] occurs in [s]. *)
Definition occurs (v s : bytes) : Prop := exists a b, s = a ++ v ++ b.

Definition selects (f : Filter) (g : IndexField) : Prop :=
  match f with
  | EqualFilter h => (is_numeric g /\ is_numeric h /\ numeric_value_ g = numeric_value_ h) \/
                     (is_string g /\ is_string h /\ string_value_ g = string_value_ h)
  | NotEqualFilter h => (is_numeric g /\ is_numeric h /\ numeric_value_ g <> numeric_value_ h) \/
                        (is_string g /\ is_string h /\ string_value_ g <> string_value_ h)
  | RangeFilter _ b e => is_numeric g /\ b <= numeric_value_ g <= e
  | InFilter h => is_string g /\ is_string h /\ occurs (string_value_ h) (string_value_ g)
  | NotInFilter h => is_string g /\ is_string h /\ ~ occurs (string_value_ h) (string_value_ g)
  | InNumericListFilter h => is_numeric g /\ is_numeric h /\ numeric_value_ g ∈ numeric_list_ h
  | NotInNumericListFilter h => is_numeric g /\ is_numeric h /\ numeric_value_ g ∉ numeric_list_ h
  | MatchStringListFilter _ l revert n =>
      is_string g /\
      let enough := n <= Z.of_nat (length (List.filter (fun v => str_contains v (string_value_ g)) l)) in
      if revert then ~ enough else enough
  end.

(** The values of one filter fit its counter. *)
Definition filter_ok (f : Filter) : Prop :=
  match f with MatchStringListFilter _ l _ _ => Z.of_nat (length l) < 2 ^ 32 | _ => True end.

Lemma CheckFieldTypeNumeric_spec f : CheckFieldTypeNumeric f = true <-> is_numeric f.
Proof. unfold CheckFieldTypeNumeric, is_numeric. by rewrite orb_true_iff, !Z.eqb_eq. Qed.

Lemma CheckFieldTypeString_spec f : CheckFieldTypeString f = true <-> is_string f.
Proof. apply Z.eqb_eq. Qed.

Lemma numeric_reflect f : reflect (is_numeric f) (CheckFieldTypeNumeric f).
Proof. apply iff_reflect. symmetry. apply CheckFieldTypeNumeric_spec. Qed.

Lemma string_reflect f : reflect (is_string f) (CheckFieldTypeString f).
Proof. apply iff_reflect. symmetry. apply CheckFieldTypeString_spec. Qed.

Lemma numeric_not_string f : is_numeric f -> ~ is_string f.
Proof. unfold is_numeric, is_string. by intros [-> | ->]. Qed.

Lemma in_list_spec v l : in_list v l = true <-> v ∈ l.
Proof.
  unfold in_list. rewrite existsb_exists, list_elem_of_In. split.
  - by intros (x & Hx & ->%Z.eqb_eq).
  - intros Hv. exists v. split; [done|apply Z.eqb_refl].
Qed.

Lemma match_count_spec s l n :
  0 <= n -> n + Z.of_nat (length l) < 2 ^ 32 ->
  match_count s l n = n + Z.of_nat (length (List.filter (fun v => str_contains v s) l)).
Proof.
  revert n. induction l as [|v l IH]; intros n Hn Hl; cbn [match_count List.filter length] in *; [lia|].
  destruct (str_contains v s); cbn [length].
  - rewrite u32_id by (unfold is_u32; lia). rewrite IH by lia. lia.
  - apply IH; lia.
Qed.

Lemma occurs_spec v s : str_contains v s = true <-> occurs v s.
Proof. apply str_contains_spec. Qed.

Lemma Match_spec f g :
  filter_ok f -> field_id_ g = GetFieldID f -> exists b, Match f (Some g) = Some b /\ (b = true <-> selects f g).
Proof.
  intros Hok Hid. assert (Eg : forall body, guarded (GetField f) (Some g) body = Some (body g))
    by (intros body; cbn [guarded]; unfold GetFieldID in Hid; by rewrite Hid, Z.eqb_refl).
  pose proof (numeric_reflect g) as Hg. pose proof (string_reflect g) as Hgs.
  pose proof (numeric_not_string g) as Hex. unfold CheckFieldTypeString in Hgs |- *.
  destruct f as [h|h|h b e|h|h|h|h|h l r n]; cbn [selects GetField] in *; (eexists; split; [apply Eg|]);
    cbv beta; unfold CheckFieldTypeString;
    try (pose proof (numeric_reflect h) as Hh; pose proof (string_reflect h) as Hhs; unfold CheckFieldTypeString in Hhs).
  - destruct Hg, Hgs, Hh, Hhs; cbn [andb]; rewrite ?Z.eqb_eq, ?bool_decide_eq_true; naive_solver.
  - destruct Hg, Hgs, Hh, Hhs; cbn [andb]; rewrite ?negb_true_iff, ?Z.eqb_neq, ?bool_decide_eq_false; naive_solver.
  - destruct Hg; cbn [negb]; rewrite ?andb_true_iff, ?Z.leb_le; naive_solver.
  - destruct Hhs, Hgs; cbn [andb]; rewrite ?occurs_spec; naive_solver.
  - rewrite <- occurs_spec. destruct Hhs, Hgs; cbn [andb]; [|naive_solver..].
    destruct (str_contains (string_value_ h) (string_value_ g)); naive_solver.
  - destruct Hg, Hh; cbn [negb orb]; rewrite ?in_list_spec; naive_solver.
  - rewrite <- in_list_spec. destruct Hg, Hh; cbn [negb orb]; [|naive_solver..].
    destruct (in_list (numeric_value_ g) (numeric_list_ h)); naive_solver.
  - destruct Hgs; cbn [negb]; [|naive_solver].
    cbn in Hok. unfold InnerMatch. rewrite match_count_spec by lia. rewrite Z.add_0_l.
    set (k := Z.of_nat _). destruct (Z.leb_spec n k), r; cbn [negb]; naive_solver lia.
Qed.

(** The filters a document passes. *)
Definition passes (document : Document) (f : Filter) : Prop :=
  exists g, FindField document (GetFieldID f) = Some g /\ selects f g.

Lemma FindField_id d i g : FindField d i = Some g -> field_id_ g = i.
Proof. unfold FindField. intros E. apply List.find_some in E as [_ E]. by apply Z.eqb_eq in E. Qed.

Lemma Match_passes f d : filter_ok f ->
  exists b, Match f (FindField d (GetFieldID f)) = Some b /\ (b = true <-> passes d f).
Proof.
  intros Hok. unfold passes. destruct (FindField d (GetFieldID f)) as [g|] eqn:E.
  - destruct (Match_spec f g Hok (FindField_id _ _ _ E)) as (b & -> & Hb). exists b. split; [done|].
    rewrite Hb. naive_solver.
  - exists false. split; [by destruct f|]. naive_solver.
Qed.

(** [n] of the filters are passed. *)
Inductive passed (d : Document) : list Filter -> nat -> Prop :=
| passed_nil : passed d [] 0
| passed_yes f l n : passes d f -> passed d l n -> passed d (f :: l) (S n)
| passed_no f l n : ~ passes d f -> passed d l n -> passed d (f :: l) n.

Lemma passed_le d l n : passed d l n -> (n <= length l)%nat.
Proof. induction 1; simpl; lia. Qed.

Lemma count_matches_spec l d n :
  Forall filter_ok l -> 0 <= n -> n + Z.of_nat (length l) < 2 ^ 32 ->
  exists k, passed d l k /\ count_matches l d n = Some (n + Z.of_nat k).
Proof.
  intros Hok. revert n. induction Hok as [|f l Hf _ IH]; intros n Hn Hl; cbn [count_matches length] in *.
  { exists 0%nat. split; [constructor|f_equal; lia]. }
  destruct (Match_passes f d Hf) as (b & -> & Hb). cbn [mbind option_bind]. destruct b.
  - rewrite u32_id by (unfold is_u32; lia). destruct (IH (n + 1)) as (k & Hk & ->); [lia|lia|].
    exists (S k). split; [constructor; [by apply Hb|done]|]. f_equal. lia.
  - destruct (IH n) as (k & Hk & ->); [lia|lia|]. exists k. split; [|done]. constructor; [|done].
    intros Hp. by apply Hb in Hp.
Qed.

(** ** Theorem *)

(** A document passes a list of filters if and only if at least the asked
    number of them select its field, all of them if none or too many were
    asked for; no assertion fails.  A filter selects a field that is present,
    has the type the filter works on and satisfies its comparison, so a
    missing or mistyped field passes neither a filter nor its negation. *)
Theorem MatchFilter_correct l min d :
  Forall filter_ok l -> Z.of_nat (length l) < 2 ^ 32 -> 0 <= min ->
  exists b k, MatchFilter (Some l) (effective_min (Some l) min) d = Some b /\ passed d l k /\
    (b = true <-> if (min =? 0) || (Z.of_nat (length l) <? min) then k = length l else min <= Z.of_nat k).
Proof.
  intros Hok Hlen Hmin. destruct (count_matches_spec l d 0 Hok) as (k & Hk & E); [lia|lia|].
  unfold MatchFilter, effective_min. rewrite E. cbn [mbind option_bind]. eexists _, k. split; [done|]. split; [done|].
  pose proof (passed_le d l k Hk). rewrite Z.leb_le, Z.add_0_l.
  destruct ((min =? 0) || (Z.of_nat (length l) <? min)); [|done].
  rewrite u32_id by (unfold is_u32; lia). lia.
Qed.

Definition sample_filters : list Filter :=
  [RangeFilter (mkField 3 0 kUint32IndexField 0 [] false [] 0 []) 10 20;
   NotEqualFilter (mkField 4 0 kStringIndexField 0 [97] false [] 0 []);
   new_MatchStringListFilter (mkField 4 0 kStringIndexField 0 [] false [] 0 []) [[98]; [99]; [100]] false 2].

Definition filtered_document : Document :=
  mkDocument [mkField 3 0 kUint32IndexField 20 [] false [] 0 []; mkField 4 0 kStringIndexField 0 [99; 98] false [] 0 []] 9 (-1).

Lemma MatchFilter_correct_witness :
  MatchFilter (Some sample_filters) (effective_min (Some sample_filters) 0) filtered_document = Some true.
Proof.
  destruct (MatchFilter_correct sample_filters 0 filtered_document) as (b & k & E & _).
  - repeat (apply Forall_cons_2; [done|]). apply Forall_nil_2.
  - simpl. lia.
  - lia.
  - assert (b = true) as ->; [|exact E]. vm_compute in E. by injection E.
Defined.
