(* ===== verification/Sorter.v ===== *)
(** Sort conditions and the sorter ([sorter.h]).

    [Sorter_less lhs rhs] is [Sorter::operator()]: whether [lhs] comes before
    [rhs] in a result.  The priority queue of the collector asks for a strict
    weak order; the theorems say that the sorter is one, whatever the
    conditions, and which order it is. *)
From S2P Require Import Prelude Storage Document.

(** ** Conditions *)
Inductive kSortConditionType := kSortConditionDesc | kSortConditionAsc.

Inductive SortCondition :=
| NumericSortCondition (field_id_ : Z) (sort_type_ : kSortConditionType)
| StringSortCondition (field_id_ : Z) (sort_type_ : kSortConditionType).

Definition SortCondition_GetID (sc : SortCondition) : Z :=
  match sc with NumericSortCondition i _ | StringSortCondition i _ => i end.
Definition sort_type (sc : SortCondition) : kSortConditionType :=
  match sc with NumericSortCondition _ t | StringSortCondition _ t => t end.

(** [f1 != nullptr && f1->FieldType() == ...]: the field if it has the type of
    the condition. *)
Definition numeric_field (f : option IndexField) : option IndexField :=
  match f with
  | Some f => if (field_type_ f =? kUint32IndexField) || (field_type_ f =? kUint64IndexField) then Some f else None
  | None => None
  end.
Definition string_field (f : option IndexField) : option IndexField :=
  match f with
  | Some f => if field_type_ f =? kStringIndexField then Some f else None
  | None => None
  end.

(** [memcmp] on the common length. *)
Definition memcmp_prefix (a b : bytes) : comparison :=
  let min_len := (if bool_decide (length a < length b) then length a else length b)%nat in
  bytes_cmp (take min_len a) (take min_len b).

Definition InnerGreater (sc : SortCondition) (d1 : Z) (f1 : option IndexField) (d2 : Z) (f2 : option IndexField) : bool :=
  match sc with
  | NumericSortCondition _ _ =>
      match numeric_field f1, numeric_field f2 with
      | None, None => d2 <? d1
      | None, Some _ => false
      | Some _, None => true
      | Some nf1, Some nf2 => numeric_value_ nf2 <? numeric_value_ nf1
      end
  | StringSortCondition _ _ =>
      match string_field f1, string_field f2 with
      | None, None => d2 <? d1
      | None, Some _ => false
      | Some _, None => true
      | Some nf1, Some nf2 =>
          match memcmp_prefix (string_value_ nf1) (string_value_ nf2) with
          | Eq => bool_decide (length (string_value_ nf2) < length (string_value_ nf1))%nat
          | Gt => true
          | Lt => false
          end
      end
  end.

Definition Greater (sc : SortCondition) (d1 : Z) (f1 : option IndexField) (d2 : Z) (f2 : option IndexField) : bool :=
  let ret := InnerGreater sc d1 f1 d2 f2 in
  match sort_type sc with kSortConditionDesc => ret | kSortConditionAsc => negb ret end.

(** ** The sorter *)
Fixpoint sort_loop (l : list SortCondition) (lhs rhs : Document) : bool :=
  match l with
  | [] => document_id_ rhs <? document_id_ lhs
  | sc :: l' =>
      let lhs_field := FindField lhs (SortCondition_GetID sc) in
      let rhs_field := FindField rhs (SortCondition_GetID sc) in
      let c1 := Greater sc (document_id_ lhs) lhs_field (document_id_ rhs) rhs_field in
      let c2 := Greater sc (document_id_ rhs) rhs_field (document_id_ lhs) lhs_field in
      if c1 && c2 then sort_loop l' lhs rhs else if c1 then true else false
  end.

Definition Sorter_less (sort_condictions_ : option (list SortCondition)) (lhs rhs : Document) : bool :=
  match sort_condictions_ with
  | None => document_id_ rhs <? document_id_ lhs
  | Some l => sort_loop l lhs rhs
  end.

(** ** Strict weak orders *)
Class StrictWeak {A} (less : A -> A -> bool) : Prop := {
  less_asym a b : less a b = true -> less b a = false;
  less_cotrans a b c : less a c = true -> less a b = true \/ less b c = true
}.

(** One order, ties broken by another. *)
Definition then_less {A} (r1 r2 : A -> A -> bool) (a b : A) : bool :=
  if r1 a b then true else if r1 b a then false else r2 a b.

#[export] Instance then_less_weak {A} (r1 r2 : A -> A -> bool) :
  StrictWeak r1 -> StrictWeak r2 -> StrictWeak (then_less r1 r2).
Proof.
  intros [A1 C1] [A2 C2]. unfold then_less. split.
  - intros a b. pose proof (A1 a b). pose proof (A2 a b). destruct (r1 a b), (r1 b a); naive_solver.
  - intros a b c. pose proof (C1 a b c). pose proof (C1 b c a). pose proof (C1 c a b). pose proof (C2 a b c).
    pose proof (C1 c b a). pose proof (C1 a c b). pose proof (C1 b a c).
    destruct (r1 a b) eqn:?, (r1 b a) eqn:?, (r1 b c) eqn:?, (r1 c b) eqn:?, (r1 a c) eqn:?, (r1 c a) eqn:?; naive_solver.
Qed.

#[export] Instance flip_weak {A} (r : A -> A -> bool) : StrictWeak r -> StrictWeak (fun a b => r b a).
Proof. intros [A1 C1]. split; [intros a b; apply A1|]. intros a b c Hr. destruct (C1 c b a Hr); auto. Qed.

(** Documents with a key first, by key in descending order; the others by id. *)
Definition by_key {K} (lt : K -> K -> bool) (key : Document -> option K) (a b : Document) : bool :=
  match key a, key b with
  | None, None => document_id_ b <? document_id_ a
  | None, Some _ => false
  | Some _, None => true
  | Some x, Some y => lt y x
  end.

Lemma by_key_weak {K} (lt : K -> K -> bool) key : StrictWeak lt -> StrictWeak (by_key lt key).
Proof.
  intros [A1 C1]. unfold by_key. split.
  - intros a b. destruct (key a), (key b); try done; [apply A1|]. intros ?%Z.ltb_lt. apply Z.ltb_ge. lia.
  - intros a b c. destruct (key a) as [x|], (key b) as [y|], (key c) as [z|]; intros Hr;
      try done; try (by left); try (by right).
    + destruct (C1 _ y _ Hr); auto.
    + apply Z.ltb_lt in Hr. rewrite !Z.ltb_lt. lia.
Qed.

#[export] Instance Zltb_weak : StrictWeak Z.ltb.
Proof. split; [intros a b ?%Z.ltb_lt; apply Z.ltb_ge; lia|]. intros a b c ?%Z.ltb_lt. rewrite !Z.ltb_lt. lia. Qed.

Definition bytes_ltb (a b : bytes) : bool := bool_decide (bytes_cmp a b = Lt).

#[export] Instance bytes_ltb_weak : StrictWeak bytes_ltb.
Proof.
  unfold bytes_ltb. split.
  - intros a b Hab%bool_decide_eq_true. apply bool_decide_eq_false. rewrite bytes_cmp_opp, Hab. done.
  - intros a b c Hac%bool_decide_eq_true. rewrite !bool_decide_eq_true.
    destruct (bytes_cmp a b) eqn:E; [|by left|].
    + apply bytes_cmp_eq in E as ->. by right.
    + right. apply (cmp_gt_lt bytes_cmp) in E. by eapply bytes_cmp_lt_trans.
Qed.

(** ** The order of a condition *)

(** [memcmp] and then the lengths is the order of byte strings. *)
Lemma memcmp_prefix_spec a b :
  bytes_cmp a b = match memcmp_prefix a b with Eq => Nat.compare (length a) (length b) | r => r end.
Proof.
  unfold memcmp_prefix. revert b. induction a as [|x a IH]; intros [|y b]; try done.
  cbn [length]. specialize (IH b).
  destruct (bool_decide_reflect (length a < length b)%nat); destruct (bool_decide_reflect (S (length a) < S (length b))%nat);
    try lia; cbn [take bytes_cmp]; destruct (x ?= y); exact IH || done.
Qed.

Definition sort_key_numeric (i : Z) (d : Document) : option Z := numeric_value_ <$> numeric_field (FindField d i).
Definition sort_key_string (i : Z) (d : Document) : option bytes := string_value_ <$> string_field (FindField d i).

(** Descending order by the field of the condition. *)
Definition descending (sc : SortCondition) : Document -> Document -> bool :=
  match sc with
  | NumericSortCondition i _ => by_key Z.ltb (sort_key_numeric i)
  | StringSortCondition i _ => by_key bytes_ltb (sort_key_string i)
  end.

#[export] Instance descending_weak sc : StrictWeak (descending sc).
Proof. destruct sc; apply by_key_weak; typeclasses eauto. Qed.

Lemma InnerGreater_descending sc a b :
  InnerGreater sc (document_id_ a) (FindField a (SortCondition_GetID sc))
    (document_id_ b) (FindField b (SortCondition_GetID sc)) = descending sc a b.
Proof.
  destruct sc as [i t|i t]; cbn [InnerGreater descending SortCondition_GetID].
  - unfold by_key, sort_key_numeric. by destruct (numeric_field (FindField a i)), (numeric_field (FindField b i)).
  - unfold by_key, sort_key_string. destruct (string_field (FindField a i)) as [f|], (string_field (FindField b i)) as [g|]; try done.
    cbn [fmap option_fmap option_map]. unfold bytes_ltb.
    rewrite (bool_decide_ext (bytes_cmp (string_value_ g) (string_value_ f) = Lt)
      (bytes_cmp (string_value_ f) (string_value_ g) = Gt)).
    2:{ rewrite (bytes_cmp_opp (string_value_ f)). by destruct (bytes_cmp (string_value_ f) (string_value_ g)). }
    rewrite memcmp_prefix_spec. destruct (memcmp_prefix _ _); try done.
    apply bool_decide_ext. rewrite Nat.compare_gt_iff. lia.
Qed.

(** ** The order of a list of conditions *)

(** Ascending conditions break ties by the next condition, at last by the
    descending id; a descending condition decides alone. *)
Fixpoint sort_order (l : list SortCondition) : Document -> Document -> bool :=
  match l with
  | [] => fun a b => document_id_ b <? document_id_ a
  | sc :: l' =>
      match sort_type sc with
      | kSortConditionDesc => descending sc
      | kSortConditionAsc => then_less (fun a b => descending sc b a) (sort_order l')
      end
  end.

Lemma by_id_weak : StrictWeak (fun a b : Document => document_id_ b <? document_id_ a).
Proof. split; [intros a b ?%Z.ltb_lt; apply Z.ltb_ge; lia|]. intros a b c ?%Z.ltb_lt. rewrite !Z.ltb_lt. lia. Qed.

#[export] Instance sort_order_weak l : StrictWeak (sort_order l).
Proof.
  induction l as [|sc l IH]; [apply by_id_weak|]. cbn [sort_order].
  destruct (sort_type sc); [apply descending_weak|]. apply then_less_weak; [|done].
  exact (flip_weak _ (descending_weak sc)).
Qed.

Lemma sort_loop_order l a b : sort_loop l a b = sort_order l a b.
Proof.
  induction l as [|sc l IH]; [done|]. cbn [sort_loop sort_order]. cbv zeta. unfold Greater.
  rewrite !InnerGreater_descending, IH. pose proof (less_asym (less := descending sc) a b) as Ha.
  destruct (sort_type sc); unfold then_less.
  - destruct (descending sc a b) eqn:E; [by rewrite Ha|]. by destruct (descending sc b a).
  - destruct (descending sc a b) eqn:E; [by rewrite Ha|]. by destruct (descending sc b a).
Qed.

#[export] Instance Sorter_weak s : StrictWeak (Sorter_less s).
Proof.
  destruct s as [l|]; [|apply by_id_weak]. destruct (sort_order_weak l) as [H1 H2].
  split; intros *; cbn [Sorter_less]; rewrite !sort_loop_order; eauto.
Qed.

Definition has_key (sc : SortCondition) (d : Document) : Prop :=
  match sc with
  | NumericSortCondition i _ => sort_key_numeric i d <> None
  | StringSortCondition i _ => sort_key_string i d <> None
  end.

Lemma descending_missing sc a b : has_key sc a -> ~ has_key sc b -> descending sc a b = true /\ descending sc b a = false.
Proof.
  destruct sc as [i t|i t]; cbn [has_key descending]; unfold by_key.
  - intros Ha Hb. destruct (sort_key_numeric i b); [by destruct Hb|]. by destruct (sort_key_numeric i a).
  - intros Ha Hb. destruct (sort_key_string i b); [by destruct Hb|]. by destruct (sort_key_string i a).
Qed.

(** ** Theorem *)

(** C33: the sorter is a strict weak order for every list of conditions, as a
    priority queue requires, and it is this order: an ascending condition
    compares by the field, ties by the rest of the list and at last by the
    descending id; a descending condition compares by the field and leaves
    ties open, so that the conditions behind it have no effect.  Documents
    without the field come last in descending and first in ascending order. *)
Theorem Sorter_order :
  (forall s, StrictWeak (Sorter_less s)) /\
  (forall l a b, Sorter_less (Some l) a b = sort_order l a b) /\
  (forall sc l a b, sort_type sc = kSortConditionDesc ->
     Sorter_less (Some (sc :: l)) a b = Sorter_less (Some [sc]) a b) /\
  (forall sc l a b, has_key sc a -> ~ has_key sc b ->
     match sort_type sc with
     | kSortConditionDesc => Sorter_less (Some (sc :: l)) a b = true
     | kSortConditionAsc => Sorter_less (Some (sc :: l)) b a = true
     end).
Proof.
  split; [apply Sorter_weak|]. split; [intros l a b; apply sort_loop_order|]. split.
  - intros sc l a b Hsc. cbn [Sorter_less]. rewrite !sort_loop_order. cbn [sort_order]. by rewrite Hsc.
  - intros sc l a b Ha Hb. destruct (descending_missing sc a b Ha Hb) as [H1 H2].
    cbn [Sorter_less]. rewrite !sort_loop_order. cbn [sort_order].
    destruct (sort_type sc); [done|]. unfold then_less. by rewrite H1.
Qed.
