(* ===== verification/Collector.v ===== *)
(** The top-N collector ([collector_top.cpp], [collector_top.h],
    [post_scorer.cpp]) and the retrieval of document fields it uses
    ([Searcher::InnerGetFields]).

    The collector buffers the ids a query yields; a full buffer is purged: the
    doc values are read, the filters applied, and the hits go to a bounded
    priority queue ordered by the sorter (or, with score strategies, to a
    queue ordered by score).  [std::priority_queue] is the array heap of
    [Heap].  Documents are values; a pointer set to null in the buffer is one
    that was handed on.  Scores are IEEE doubles ([Double]).  [None] as a
    result is a failed assertion or a null dereference.  The tracer is not
    modelled. *)
From Stdlib Require String.
From S2P Require Import Prelude Double Storage Coding Codec VirtualDB Document Heap Filter Sorter.

(** ** [std::priority_queue] *)
Section PriorityQueue.
Context {A : Type} (comp : A -> A -> bool).

Definition pq_push (q : list A) (x : A) : option (list A) := push_heap (fun a b => comp b a) (q ++ [x]).
Definition pq_top (q : list A) : option A := head q.
Definition pq_pop (q : list A) : option (list A) := l ← pop_heap (fun a b => comp b a) q; Some (removelast l).
End PriorityQueue.

(** ** Scores *)
Definition DocumentScore : Type := double.

Record StringScoreStrategy := mkScoreStrategy { pattern_ : bytes; terms_size_ : Z; target_field_id_ : Z; weight_ : Z }.

Definition NewScoreStrategy (pattern : bytes) (terms_size target_field_id : Z) : StringScoreStrategy :=
  mkScoreStrategy pattern terms_size target_field_id 10.

Definition Score (s : StringScoreStrategy) (document : Document) (match_field_id : Z) : option DocumentScore :=
  let score := double_of_Z 0 in
  if negb (target_field_id_ s =? u8 match_field_id) then Some score
  else
    index_field ← FindField document (u8 match_field_id);
    if negb (field_type_ index_field =? kStringIndexField) then Some score
    else
      let score :=
        if str_contains (pattern_ s) (string_value_ index_field) then double_add score (double_of_Z (weight_ s)) else score in
      let n := Z.of_nat (length (terms_ index_field)) in
      if 0 <? n then
        let terms_score := double_div (double_mul (double_of_Z (terms_size_ s)) (double_of_Z 1)) (double_of_Z n) in
        Some (double_add score (double_mul (double_of_Z (weight_ s)) terms_score))
      else Some score.

(** A document with its score. *)
Abbreviation Scored := (Document * DocumentScore)%type.

Definition PostScorer (lhs rhs : Scored) : bool := if SFltb rhs.2 lhs.2 then false else true.

(** The sum over the strategies, from the initial 0. *)
Fixpoint AddScores (l : list StringScoreStrategy) (document : Document) (score : DocumentScore) : option DocumentScore :=
  match l with
  | [] => Some score
  | s :: l' => x ← Score s document (match_field_id_ document); AddScores l' document (double_add score x)
  end.

(** ** Retrieval of fields *)
Section Fields.
Context {DB : Type} `{VirtualDB DB} `{StoreProto}.

Definition parse_fields (doc : Document) (status : SearchStatus) (value : bytes) : SearchStatus * Document :=
  if OK status then
    match DeSerializeFromByte doc value with
    | Some doc => (status, doc)
    | None => (SetStatus kSerializeErrorStatus "Deserizlize bytes error", doc)
    end
  else (status, doc).

(** [mode] 0 reads the stored fields, 1 the doc values.  The function itself
    always returns OK; each document has its status. *)
Definition InnerGetFields (db : DB) (mode : Z) (table : TableID) (docs : list Document) : list (SearchStatus * Document) :=
  let columns := map (fun _ => if mode =? 0 then kStoredFieldColumn else kDocValueColumn) docs in
  let keys := map (fun d => EncodeStoredFieldKey table (document_id_ d) []) docs in
  let '(status, values) := MultiGet db columns keys in
  zip_with (fun d sv => parse_fields d sv.1 sv.2) docs (zip status values).

Definition GetStoredFields (db : DB) (table : TableID) (docs : list Document) := InnerGetFields db 0 table docs.
Definition GetDocValue (db : DB) (table : TableID) (docs : list Document) := InnerGetFields db 1 table docs.
End Fields.

(** ** The collector *)
Record TopNCollector := mkCollector {
  topN_docs_ : list Document;
  score_priority_queue_ : list Scored;
  score_doc_count_ : Z;
  buffer_docs_ : list Document;
  top_n_ : Z;
  offset_ : Z;
  inner_purge_total_docs_count_ : Z;
  collector_status_ : SearchStatus;
  get_match_total_cnt_ : option Z }.

Definition set_topN (c : TopNCollector) (q : list Document) : TopNCollector :=
  mkCollector q (score_priority_queue_ c) (score_doc_count_ c) (buffer_docs_ c) (top_n_ c) (offset_ c)
    (inner_purge_total_docs_count_ c) (collector_status_ c) (get_match_total_cnt_ c).
Definition set_queue (c : TopNCollector) (q : list Scored) : TopNCollector :=
  mkCollector (topN_docs_ c) q (score_doc_count_ c) (buffer_docs_ c) (top_n_ c) (offset_ c)
    (inner_purge_total_docs_count_ c) (collector_status_ c) (get_match_total_cnt_ c).
Definition set_score_count (c : TopNCollector) (n : Z) : TopNCollector :=
  mkCollector (topN_docs_ c) (score_priority_queue_ c) n (buffer_docs_ c) (top_n_ c) (offset_ c)
    (inner_purge_total_docs_count_ c) (collector_status_ c) (get_match_total_cnt_ c).
Definition set_buffer (c : TopNCollector) (l : list Document) : TopNCollector :=
  mkCollector (topN_docs_ c) (score_priority_queue_ c) (score_doc_count_ c) l (top_n_ c) (offset_ c)
    (inner_purge_total_docs_count_ c) (collector_status_ c) (get_match_total_cnt_ c).
Definition set_counts (c : TopNCollector) (n offset : Z) : TopNCollector :=
  mkCollector (topN_docs_ c) (score_priority_queue_ c) (score_doc_count_ c) (buffer_docs_ c) n offset
    (inner_purge_total_docs_count_ c) (collector_status_ c) (get_match_total_cnt_ c).
Definition set_total (c : TopNCollector) (n : Z) : TopNCollector :=
  mkCollector (topN_docs_ c) (score_priority_queue_ c) (score_doc_count_ c) (buffer_docs_ c) (top_n_ c) (offset_ c)
    n (collector_status_ c) (get_match_total_cnt_ c).
Definition set_collector_status (c : TopNCollector) (s : SearchStatus) : TopNCollector :=
  mkCollector (topN_docs_ c) (score_priority_queue_ c) (score_doc_count_ c) (buffer_docs_ c) (top_n_ c) (offset_ c)
    (inner_purge_total_docs_count_ c) s (get_match_total_cnt_ c).
Definition set_match_total (c : TopNCollector) (n : option Z) : TopNCollector :=
  mkCollector (topN_docs_ c) (score_priority_queue_ c) (score_doc_count_ c) (buffer_docs_ c) (top_n_ c) (offset_ c)
    (inner_purge_total_docs_count_ c) (collector_status_ c) n.

Section Collector.
Context {DB : Type} `{VirtualDB DB} `{StoreProto}.
Context (db : DB) (config : IndexConfig) (table : TableID).
(** The arguments of the constructor. *)
Context (offset limit : Z) (filter : option (list Filter)) (sorter : option (list SortCondition)).
Context (score_strategy_list : option (list StringScoreStrategy)) (max_score_doc_num min_match_filter_num : Z).

Definition size {A} (l : list A) : Z := Z.of_nat (length l).

Definition use_score_strategy_ : bool :=
  match score_strategy_list with Some (_ :: _) => true | _ => false end.
Definition max_score_doc_num_ : Z := Z.max (u64 (offset + limit)) max_score_doc_num.
Definition min_match_filter_num_ : Z := effective_min filter min_match_filter_num.
Definition quick_top_n : bool := match sorter with None => true | Some _ => false end.

(** [None] is the failed assertion of the constructor. *)
Definition new_collector (get_match_total_cnt : option Z) : option TopNCollector :=
  let top_n := u64 (offset + limit) in
  if use_score_strategy_ && (max_score_doc_num_ <? top_n) then None
  else Some (mkCollector [] [] 0 [] top_n offset 0 status_ok get_match_total_cnt).

(** [topN_docs_.size() < top_n_] etc. on one document. *)
Definition push_topN (q : list Document) (document : Document) : option (list Document) :=
  pq_push (Sorter_less sorter) q document.
Definition pop_topN (q : list Document) : option (list Document) := pq_pop (Sorter_less sorter) q.

(** The loop of the optimised purge. *)
Fixpoint push_plain (docs q : list Document) (top_n : Z) : option (list Document) :=
  match docs with
  | [] => Some q
  | d :: docs' =>
      q ← (if size q <? top_n then push_topN q d else Some q);
      push_plain docs' q top_n
  end.

(** The hits of the buffer, and the status of a document that could not be
    read, which ends the loop. *)
Fixpoint filter_hits (l : list (SearchStatus * Document)) : option (list Document * option SearchStatus) :=
  match l with
  | [] => Some ([], None)
  | (s, document) :: l' =>
      if OK s || DocumentNotExist s then
        b ← MatchFilter filter min_match_filter_num_ document;
        '(hits, err) ← filter_hits l';
        Some (if (b : bool) then document :: hits else hits, err)
      else Some ([], Some s)
  end.

(** Every hit is pushed; the queue is cut back to its bound. *)
Fixpoint push_hits (hits q : list Document) (top_n : Z) : option (list Document) :=
  match hits with
  | [] => Some q
  | d :: hits' =>
      q ← push_topN q d;
      q ← (if top_n <? size q then pop_topN q else Some q);
      push_hits hits' q top_n
  end.

(** Scoring the hits: the documents that could be read enter the queue. *)
Fixpoint score_hits (strategies : list StringScoreStrategy) (l : list (SearchStatus * Document)) (q : list Scored) :
    option (list Scored) :=
  match l with
  | [] => Some q
  | (s, document) :: l' =>
      if OK s || DocumentNotExist s then
        score ← AddScores strategies document (double_of_Z 0);
        q ← pq_push PostScorer q (document, score);
        score_hits strategies l' q
      else score_hits strategies l' q
  end.

(** The loop of [HandleScorePriorityQueue]: the documents behind the offset, at
    most [limit_] of them, move to the result queue. *)
Fixpoint drain_scores (fuel : nat) (queue : list Scored) (q : list Document) (offset_ : Z) : option (list Document * Z) :=
  match queue with
  | [] => Some (q, offset_)
  | (document, _) :: _ =>
      match fuel with
      | O => None
      | S fuel' =>
          '(q, offset_) ←
            (if (size q <? limit) && (offset_ =? 0) then q ← push_topN q document; Some (q, offset_)
             else if 0 <? offset_ then Some (q, offset_ - 1)
             else Some (q, offset_));
          queue ← pq_pop PostScorer queue;
          drain_scores fuel' queue q offset_
      end
  end.

Definition HandleScorePriorityQueue (c : TopNCollector) : option TopNCollector :=
  match score_priority_queue_ c with
  | _ :: _ =>
      if use_score_strategy_ then
        match topN_docs_ c with
        | [] =>
            '(q, offset_) ← drain_scores (length (score_priority_queue_ c)) (score_priority_queue_ c) [] (offset_ c);
            Some (set_queue (set_counts (set_topN c q) (top_n_ c) offset_) [])
        | _ => None
        end
      else Some c
  | [] => Some c
  end.

(** [hit_documents.size() > 0]. *)
Definition handle_hits (c : TopNCollector) (hits : list Document) : option TopNCollector :=
  match hits with
  | [] => Some c
  | _ =>
      match score_strategy_list with
      | Some ((_ :: _) as strategies) =>
          if score_doc_count_ c <? max_score_doc_num_ then
            let c := set_score_count c (u64 (score_doc_count_ c + size hits)) in
            let l := GetStoredFields db table (map ClearField hits) in
            q ← score_hits strategies l (score_priority_queue_ c);
            Some (set_queue c q)
          else HandleScorePriorityQueue c
      | _ => q ← push_hits hits (topN_docs_ c) (top_n_ c); Some (set_topN c q)
      end
  end.

Definition add_total (c : TopNCollector) (n : Z) : TopNCollector :=
  set_match_total c ((fun t => u32 (t + n)) <$> get_match_total_cnt_ c).

Definition InnerPurge (c : TopNCollector) : option TopNCollector :=
  match buffer_docs_ c with
  | [] => Some c
  | docs =>
      match sorter, filter, use_score_strategy_ with
      | None, None, false =>
          q ← push_plain docs (topN_docs_ c) (top_n_ c);
          Some (set_buffer (add_total (set_topN c q) (size docs)) [])
      | _, _, _ =>
          '(hits, err) ← filter_hits (GetDocValue db table docs);
          let c := add_total c (size hits) in
          let c := match err with Some s => set_collector_status c s | None => c end in
          c ← handle_hits c hits;
          Some (set_buffer c [])
      end
  end.

Definition Collect (c : TopNCollector) (doc_id field_id : Z) : option TopNCollector :=
  if max_inner_purge_docs_total_limit_ config <? inner_purge_total_docs_count_ c then
    match buffer_docs_ c with [] => Some c | _ => InnerPurge c end
  else
    let document := SetMatchFieldID (SetID new_document doc_id) field_id in
    let c := set_buffer c (buffer_docs_ c ++ [document]) in
    let c := set_total c (u32 (inner_purge_total_docs_count_ c + 1)) in
    if max_inner_purge_batch_docs_count_ config <=? size (buffer_docs_ c) then InnerPurge c else Some c.

Definition Enough (c : TopNCollector) : bool :=
  if negb (OK (collector_status_ c)) then true
  else if negb quick_top_n then false
  else (top_n_ c <=? size (topN_docs_ c)) && match get_match_total_cnt_ c with None => true | Some _ => false end.

Definition Finish (c : TopNCollector) : option TopNCollector := c ← InnerPurge c; HandleScorePriorityQueue c.

(** The first loop of [GetAndClearMatchDocs]. *)
Fixpoint pop_docs (fuel : nat) (q : list Document) (top_n : Z) (docs : list Z) : option (list Z) :=
  match q with
  | top :: _ =>
      if 0 <? top_n then
        match fuel with
        | O => None
        | S fuel' => q ← pop_topN q; pop_docs fuel' q (top_n - 1) (document_id_ top :: docs)
        end
      else Some docs
  | [] => Some docs
  end.

(** [docs.remove(docs.front())] removes every entry equal to the front. *)
Fixpoint drop_offset (fuel : nat) (offset_ : Z) (docs : list Z) : list Z :=
  match fuel, docs with
  | S fuel', d :: _ =>
      if 0 <? offset_ then drop_offset fuel' (offset_ - 1) (List.filter (fun x => negb (x =? d)) docs) else docs
  | _, _ => docs
  end.

Definition GetAndClearMatchDocs (c : TopNCollector) : option (list Z) :=
  docs ← pop_docs (length (topN_docs_ c)) (topN_docs_ c) (top_n_ c) [];
  Some (drop_offset (length docs) (offset_ c) docs).
End Collector.
