(* ===== verification/TopN.v ===== *)
(** What the collector keeps: the best documents of those it was given.

    [top_of less n seen q] says that the queue [q] holds [n] of the documents
    [seen] (all, if there are fewer) and that none it lacks is better than one
    it holds.  Pushing keeps this, popping yields the queue in order.  The
    proofs need of the order only that it is a strict weak one ([Sorter]). *)
From S2P Require Import Prelude Storage Document Heap Filter Sorter VirtualDB Collector.

Section TopN.
Context {A : Type} (less : A -> A -> bool) `{!StrictWeak less}.

Notation greater := (fun a b : A => less b a).

Lemma greater_trans a b c : greater a b = false -> greater b c = false -> greater a c = false.
Proof. intros H1 H2. destruct (less c a) eqn:E; [|done]. destruct (less_cotrans c b a E); congruence. Qed.

Lemma greater_total a b : greater a b = true -> greater b a = false.
Proof. apply less_asym. Qed.

Definition is_heap (q : list A) : Prop := heap_ok greater (length q) q.

(** No document of [rest] comes before one of [q]. *)
Definition none_better (q rest : list A) : Prop := forall x y, x ∈ q -> y ∈ rest -> less y x = false.

Definition top_of (n : Z) (seen q : list A) : Prop :=
  exists rest, seen ≡ₚ q ++ rest /\ none_better q rest /\ Z.of_nat (length q) <= n /\
    (rest = [] \/ Z.of_nat (length q) = n).

Lemma top_of_nil n : 0 <= n -> top_of n [] [].
Proof. intros Hn. exists []. split; [done|]. split; [by intros x y ?%elem_of_nil|]. split; [simpl; lia|by left]. Qed.

Lemma is_heap_nil : is_heap [].
Proof. intros i a b. simpl. lia. Qed.

Lemma top_of_perm n seen seen' q : seen ≡ₚ seen' -> top_of n seen q -> top_of n seen' q.
Proof. intros HP (rest & H1 & H2). exists rest. by rewrite <- HP. Qed.

Lemma pq_push_spec q x : is_heap q -> exists q', pq_push less q x = Some q' /\ q' ≡ₚ x :: q /\ is_heap q'.
Proof. intros Hq. destruct (push_heap_spec greater greater_trans greater_total q x Hq) as (q' & E & HP & Hh). by exists q'. Qed.

Lemma pq_pop_spec top q :
  is_heap (top :: q) ->
  exists q', pq_pop less (top :: q) = Some q' /\ q' ≡ₚ q /\ is_heap q' /\ forall x, x ∈ q -> less top x = false.
Proof.
  intros Hq. destruct (pop_heap_spec greater greater_trans greater_total top q Hq) as (q' & E & HP & Hh).
  exists q'. unfold pq_pop. rewrite E. cbn [mbind option_bind]. rewrite removelast_last. split; [done|]. split; [done|].
  split; [done|]. intros x [i Hi]%list_elem_of_lookup.
  apply (heap_root greater greater_trans greater_total (length (top :: q)) (top :: q) top x (S i)); [done| |done|done|done].
  apply lookup_lt_Some in Hi. simpl. lia.
Qed.

Lemma not_better_refl x : less x x = false.
Proof. destruct (less x x) eqn:E; [|done]. by rewrite (less_asym x x E) in E. Qed.

(** One hit: pushed, and the worst document dropped if there are too many. *)
Lemma top_of_push n seen q d :
  0 <= n -> is_heap q -> top_of n seen q ->
  exists q', (q1 ← pq_push less q d; if n <? Z.of_nat (length q1) then pq_pop less q1 else Some q1) = Some q' /\
    is_heap q' /\ top_of n (d :: seen) q'.
Proof.
  intros Hn Hq (rest & HP & Hb & Hle & Hfull). destruct (pq_push_spec q d Hq) as (q1 & -> & HP1 & Hq1).
  cbn [mbind option_bind]. pose proof (Permutation_length HP1) as Hl1. simpl in Hl1.
  destruct (Z.ltb_spec n (Z.of_nat (length q1))) as [Hlt|Hge].
  - destruct q1 as [|r q1]; [simpl in Hlt; lia|].
    destruct (pq_pop_spec r q1 Hq1) as (q' & -> & HP' & Hq' & Hr). exists q'. split; [done|]. split; [done|].
    simpl in Hl1, Hlt. pose proof (Permutation_length HP') as Hl'.
    exists (r :: rest). split.
    { rewrite HP. change (d :: q ++ rest) with ((d :: q) ++ rest). rewrite <- HP1, HP'. by rewrite <- Permutation_middle. }
    split; [|split; [lia|right; lia]].
    intros x y Hx Hy. rewrite HP' in Hx. apply elem_of_cons in Hy as [->|Hy]; [by apply Hr|].
    assert (Hmem : forall z, z ∈ r :: q1 <-> z = d \/ z ∈ q) by (intros z; by rewrite HP1, elem_of_cons).
    destruct (proj1 (Hmem x) ltac:(by right)) as [->|Hxq]; [|by apply Hb].
    destruct (proj1 (Hmem r) ltac:(by left)) as [->|Hrq].
    + (* the worst is as good as [d] itself *)
      destruct (less y d) eqn:E; [|done]. exfalso.
      assert (Heq : q ≡ₚ q1) by (apply (Permutation_cons_inv (a := d)); by rewrite <- HP1).
      assert (Hin : d ∈ q) by (by rewrite Heq). by rewrite (Hb d y) in E.
    + destruct (less y d) eqn:E; [|done]. destruct (less_cotrans y r d E) as [E1|E1].
      * by rewrite (Hb r y) in E1.
      * by rewrite (Hr d Hx) in E1.
  - exists q1. split; [done|]. split; [done|]. exists rest. split; [by rewrite HP, HP1|]. split; [|split; [lia|]].
    + intros x y Hx Hy. destruct Hfull as [->|Hf]; [by apply elem_of_nil in Hy|lia].
    + destruct Hfull as [->|Hf]; [by left|lia].
Qed.

(** A document that is not better than any seen is kept only if there is room. *)
Lemma top_of_append n seen q d :
  is_heap q -> top_of n seen q -> (forall x, x ∈ seen -> less d x = false) ->
  exists q', (if Z.of_nat (length q) <? n then pq_push less q d else Some q) = Some q' /\
    is_heap q' /\ top_of n (d :: seen) q'.
Proof.
  intros Hq (rest & HP & Hb & Hle & Hfull) Hd. destruct (Z.ltb_spec (Z.of_nat (length q)) n) as [Hlt|Hge].
  - destruct (pq_push_spec q d Hq) as (q1 & -> & HP1 & Hq1). exists q1. split; [done|]. split; [done|].
    destruct Hfull as [->|Hf]; [|lia]. exists []. rewrite app_nil_r in *. split; [by rewrite HP, HP1|].
    split; [by intros x y _ ?%elem_of_nil|]. rewrite (Permutation_length HP1). simpl. split; [lia|by left].
  - exists q. split; [done|]. split; [done|]. exists (d :: rest). split; [by rewrite HP, Permutation_middle|].
    split; [|split; [done|right; lia]]. intros x y Hx [->|Hy]%elem_of_cons; [|by apply Hb].
    apply Hd. rewrite HP. apply elem_of_app. by left.
Qed.

(** Documents no better than those of a full queue change nothing. *)
Lemma top_of_ignore n seen q more :
  Z.of_nat (length q) = n -> top_of n seen q -> (forall x y, x ∈ seen -> y ∈ more -> less y x = false) ->
  top_of n (more ++ seen) q.
Proof.
  intros Hn (rest & HP & Hb & Hle & _) Hm. exists (more ++ rest). split; [by rewrite HP, Permutation_app_swap_app|].
  split; [|by split; [|right]]. intros x y Hx [Hy|Hy]%elem_of_app; [|by apply Hb].
  apply Hm; [|done]. rewrite HP. apply elem_of_app. by left.
Qed.

(** In order: no document comes before an earlier one. *)
Definition ranked (l : list A) : Prop := StronglySorted (fun x y => less y x = false) l.

Lemma ranked_snoc l r : ranked l -> (forall x, x ∈ l -> less r x = false) -> ranked (l ++ [r]).
Proof.
  induction 1 as [|x l Hl IH Hx]; intros Hr; cbn [app]; [repeat constructor|]. constructor.
  - apply IH. intros y Hy. apply Hr. by right.
  - apply Forall_app. split; [done|]. constructor; [|done]. apply Hr. by left.
Qed.

End TopN.

(** ** The loops of the collector *)
Section Loops.
Context (sorter : option (list SortCondition)).
Notation less := (Sorter_less sorter).

Lemma push_hits_spec hits n seen q :
  0 <= n -> is_heap less q -> top_of less n seen q ->
  exists q', push_hits sorter hits q n = Some q' /\ is_heap less q' /\ top_of less n (hits ++ seen) q'.
Proof.
  revert seen q. induction hits as [|d hits IH]; intros seen q Hn Hq Ht; cbn [push_hits]; [by exists q|].
  destruct (top_of_push less n seen q d Hn Hq Ht) as (q' & E & Hq' & Ht').
  unfold push_topN, pop_topN, size. destruct (pq_push less q d) as [q1|] eqn:E1; cbn [mbind option_bind] in E |- *; [|done].
  rewrite E. cbn [mbind option_bind]. destruct (IH _ q' Hn Hq' Ht') as (q2 & E2 & Hq2 & Ht2). exists q2.
  split; [done|]. split; [done|]. eapply top_of_perm; [|exact Ht2]. by rewrite <- Permutation_middle.
Qed.

Lemma push_plain_spec docs n seen q :
  is_heap less q -> top_of less n seen q ->
  (forall pre d post, docs = pre ++ d :: post -> forall x, x ∈ pre ++ seen -> less d x = false) ->
  exists q', push_plain sorter docs q n = Some q' /\ is_heap less q' /\ top_of less n (docs ++ seen) q'.
Proof.
  revert seen q. induction docs as [|d docs IH]; intros seen q Hq Ht Hd; cbn [push_plain]; [by exists q|].
  destruct (top_of_append less n seen q d Hq Ht) as (q' & E & Hq' & Ht').
  { intros x Hx. by apply (Hd [] d docs eq_refl). }
  unfold push_topN, size. rewrite E. cbn [mbind option_bind].
  destruct (IH (d :: seen) q' Hq' Ht') as (q2 & E2 & Hq2 & Ht2).
  { intros pre d' post -> x Hx. apply (Hd (d :: pre) d' post eq_refl).
    apply elem_of_app in Hx as [Hx|[->|Hx]%elem_of_cons]; [|by left|].
    - right. apply elem_of_app. by left.
    - right. apply elem_of_app. by right. }
  exists q2. split; [done|]. split; [done|]. eapply top_of_perm; [|exact Ht2]. by rewrite <- Permutation_middle.
Qed.

Lemma pop_docs_spec fuel q n docs :
  is_heap less q -> (length q <= fuel)%nat -> Z.of_nat (length q) <= n ->
  exists S, S ≡ₚ q /\ ranked less S /\ pop_docs sorter fuel q n docs = Some (map document_id_ S ++ docs).
Proof.
  revert q n docs. induction fuel as [|fuel IH]; intros q n docs Hq Hf Hn.
  { destruct q; [|simpl in Hf; lia]. exists []. split; [done|]. split; [constructor|done]. }
  destruct q as [|top q]; [exists []; split; [done|]; split; [constructor|done]|].
  cbn [pop_docs]. simpl in Hn, Hf. destruct (Z.ltb_spec 0 n); [|lia].
  destruct (pq_pop_spec less top q Hq) as (q' & E & HP & Hq' & Hr). unfold pop_topN. rewrite E. cbn [mbind option_bind].
  pose proof (Permutation_length HP) as Hl.
  destruct (IH q' (n - 1) (document_id_ top :: docs) Hq') as (S & HS & Hs & ->); [lia|lia|].
  exists (S ++ [top]). split; [rewrite HS, HP; symmetry; apply Permutation_cons_append|]. split.
  - apply ranked_snoc; [done|]. intros x Hx. apply Hr. by rewrite <- HP, <- HS.
  - by rewrite map_app, <- app_assoc.
Qed.

Lemma drop_offset_spec fuel n l :
  NoDup l -> (length l <= fuel)%nat -> drop_offset fuel n l = drop (Z.to_nat n) l.
Proof.
  revert n l. induction fuel as [|fuel IH]; intros n l Hnd Hf.
  { destruct l; [|simpl in Hf; lia]. by rewrite drop_nil. }
  destruct l as [|d l]; [by rewrite drop_nil|]. cbn [drop_offset].
  destruct (Z.ltb_spec 0 n).
  - apply NoDup_cons in Hnd as [Hd Hnd]. cbn [List.filter]. rewrite Z.eqb_refl. cbn [negb].
    assert (Efl : List.filter (fun x => negb (x =? d)) l = l).
    { clear -Hd. induction l as [|x l IHl]; [done|]. cbn [List.filter]. apply not_elem_of_cons in Hd as [Hne Hd].
      destruct (Z.eqb_spec x d); [by subst|]. cbn [negb]. f_equal. by apply IHl. }
    rewrite Efl, IH by (done || simpl in Hf; lia). replace (Z.to_nat n) with (S (Z.to_nat (n - 1))) by lia. done.
  - by replace (Z.to_nat n) with 0%nat by lia.
Qed.
End Loops.
