(* ===== verification/Searcher.v ===== *)
(** The searcher ([searcher.cpp]): the query loop and the scans of a table.

    [DoQuery] builds the scorer of the query ([Query]), walks its iterator,
    hands every id to the collector ([Collector]) until it has enough, and
    returns the ranked ids.  The snapshot is the database value itself.  The
    tracer is not modelled. *)
From Stdlib Require String.
From S2P Require Import Prelude Storage Coding Codec DocList Heap Iterators VirtualDB WriteDB.
From S2P Require Import Query Document Filter Sorter Collector TopN.

(** ** Queries *)
Section DoQuery.
Context {DB : Type} `{VirtualDB DB} `{StoreProto}.
Context (db : DB) (config : IndexConfig) (table : TableID).
Context (offset limit : Z) (filter : option (list Filter)) (sorter : option (list SortCondition)).
Context (score_strategy_list : option (list StringScoreStrategy)) (max_score_doc_num min_match_filter_num : Z).

Notation Collect := (Collect db config table offset limit filter sorter score_strategy_list max_score_doc_num min_match_filter_num).
Notation Finish := (Finish db table offset limit filter sorter score_strategy_list max_score_doc_num min_match_filter_num).

Fixpoint query_loop {I} `{DocIdSetIterator I} (fuel : nat) (doc_lists : I) (collector : TopNCollector) :
    option TopNCollector :=
  if (DocID doc_lists =? NO_MORE_DOCS) || Enough sorter collector then Some collector
  else
    match fuel with
    | O => None
    | S fuel' =>
        collector ← Collect collector (DocID doc_lists) (FieldId doc_lists);
        doc_lists ← NextDoc doc_lists;
        query_loop fuel' doc_lists collector
    end.

(** The status, the ranked ids and the number of matches, if it was asked
    for. *)
Definition DoQuery (query : Query) (get_match_total_cnt : option Z) : option (SearchStatus * list Z * option Z) :=
  '(status, scorer) ← GetScorer db table (query_depth query) query status_ok;
  match scorer with
  | None =>
      let status := if OK status then SetStatus kScorerErrorStatus "can not get scorer" else status in
      Some (status, [], get_match_total_cnt)
  | Some scorer =>
      collector ← new_collector offset limit score_strategy_list max_score_doc_num get_match_total_cnt;
      doc_lists ← Scorer_Iterator scorer;
      collector ← query_loop (remaining doc_lists) doc_lists collector;
      collector ← Finish collector;
      if negb (OK (collector_status_ collector)) then
        Some (collector_status_ collector, [], get_match_total_cnt_ collector)
      else
        docs ← GetAndClearMatchDocs sorter collector;
        Some (if negb (OK status) then status else status_ok, docs, get_match_total_cnt_ collector)
  end.

(** The loop over the pairs an iterator yields. *)
Fixpoint feed (out : list (Z * Z)) (collector : TopNCollector) : option TopNCollector :=
  match out with
  | [] => Some collector
  | (d, f) :: out' => if Enough sorter collector then Some collector else c ← Collect collector d f; feed out' c
  end.

Lemma query_loop_feed {I} `{DocIdSetIterator I} fuel (it : I) c out :
  collect fuel it = Some out -> query_loop fuel it c = feed out c.
Proof.
  revert it c out. induction fuel as [|fuel IH]; intros it c out; cbn [collect query_loop].
  - destruct (DocID it =? NO_MORE_DOCS); [|done]. by intros [= <-].
  - destruct (DocID it =? NO_MORE_DOCS); [by intros [= <-]|]. cbn [orb].
    destruct (NextDoc it) as [it'|] eqn:En; cbn [mbind option_bind]; [|done].
    destruct (collect fuel it') as [rest|] eqn:Ec; cbn [mbind option_bind]; [|done]. intros [= <-]. cbn [feed].
    destruct (Enough sorter c); [done|]. destruct (Collect c _ _) as [c'|]; cbn [mbind option_bind]; [|done].
    by apply IH.
Qed.

(** ** What the collector has seen *)
Definition collected (p : Z * Z) : Document := SetMatchFieldID (SetID new_document p.1) p.2.

(** A document with its doc values. *)
Definition fetch (d : Document) : SearchStatus * Document :=
  let '(s, v) := Get db kDocValueColumn (EncodeStoredFieldKey table (document_id_ d) []) in parse_fields d s v.

(** The document the sorter and the filters look at: the collector does not
    read doc values if there is nothing to filter or sort by. *)
Definition view (d : Document) : Document :=
  match sorter, filter with None, None => d | _, _ => (fetch d).2 end.

Notation min_match := (min_match_filter_num_ filter min_match_filter_num).

Definition accepts (d : Document) : bool := default false (MatchFilter filter min_match d).

(** The documents of the result, before it is cut. *)
Definition matches (docs : list Document) : list Document := List.filter accepts (map view docs).

(** The doc values of a document can be read and are those of its id. *)
Definition readable (d : Document) : Prop :=
  OK (fetch d).1 || DocumentNotExist (fetch d).1 = true /\ document_id_ (fetch d).2 = document_id_ d.

Definition filters_ok : Prop :=
  match filter with Some l => Forall filter_ok l /\ Z.of_nat (length l) < 2 ^ 32 | None => True end.

Definition descending_ids (docs : list Document) : Prop :=
  StronglySorted (fun a b => document_id_ b < document_id_ a) docs.

Lemma InnerGetFields_fetch docs : GetDocValue db table docs = map fetch docs.
Proof.
  unfold GetDocValue, InnerGetFields, MultiGet. cbn [Z.eqb]. induction docs as [|d docs IH]; [done|].
  cbn [map zip_with zip]. unfold fetch at 1. destruct (Get db kDocValueColumn _) as [s v]. cbn [fst snd]. f_equal. exact IH.
Qed.

Lemma MatchFilter_total d : filters_ok -> MatchFilter filter min_match d = Some (accepts d).
Proof.
  unfold filters_ok, accepts, MatchFilter. destruct filter as [l|]; [|done]. intros [Hok Hl].
  destruct (count_matches_spec l d 0 Hok) as (k & _ & ->); [lia|lia|done].
Qed.

Lemma matches_app a b : matches (a ++ b) = matches a ++ matches b.
Proof. unfold matches. rewrite map_app. apply List.filter_app. Qed.

Lemma matches_in docs m : m ∈ matches docs -> exists d, d ∈ docs /\ m = view d.
Proof.
  unfold matches. rewrite list_elem_of_In, filter_In, in_map_iff. intros [(d & <- & Hd) _]. exists d.
  split; [by apply list_elem_of_In|done].
Qed.

Lemma view_id d : readable d -> document_id_ (view d) = document_id_ d.
Proof. intros [_ Hid]. unfold view. by destruct sorter, filter. Qed.

Lemma filter_hits_spec docs :
  filters_ok -> Forall readable docs -> (sorter <> None \/ filter <> None) ->
  filter_hits filter min_match_filter_num (map fetch docs) = Some (matches docs, None).
Proof.
  intros Hf Hr Hmode. induction Hr as [|d docs [Hs _] _ IH]; [done|]. cbn [map filter_hits].
  destruct (fetch d) as [s doc] eqn:Ed. cbn [fst snd] in Hs. rewrite Hs, (MatchFilter_total doc Hf).
  cbn [mbind option_bind]. rewrite IH. cbn [mbind option_bind]. unfold matches. cbn [map List.filter].
  assert (view d = doc) as ->.
  { unfold view. rewrite Ed. destruct sorter, filter; try done. by destruct Hmode. }
  by destruct (accepts doc).
Qed.

(** ** The invariant of the collector *)
Notation less := (Sorter_less sorter).
Notation n := (u64 (offset + limit)).

Record collecting (total : option Z) (c : TopNCollector) (purged pending : list Document) : Prop := {
  col_buffer : buffer_docs_ c = pending;
  col_heap : is_heap less (topN_docs_ c);
  col_top : top_of less n (matches purged) (topN_docs_ c);
  col_counts : top_n_ c = n /\ offset_ c = offset;
  col_status : OK (collector_status_ c) = true;
  col_seen : inner_purge_total_docs_count_ c = Z.of_nat (length (purged ++ pending));
  col_total : get_match_total_cnt_ c = (fun t => u32 (t + Z.of_nat (length (matches purged)))) <$> total;
  col_queue : score_priority_queue_ c = []
}.

Context (Hscore : use_score_strategy_ score_strategy_list = false) (Hfilters : filters_ok).
Context (total : option Z) (Htotal : forall t, total = Some t -> is_u32 t).

Lemma u32_add t a b : u32 (u32 (t + a) + b) = u32 (t + (a + b)).
Proof. unfold u32. rewrite Zplus_mod_idemp_l. f_equal. lia. Qed.

Lemma total_purge purged pending :
  (fun t => u32 (t + Z.of_nat (length (matches pending)))) <$>
    ((fun t => u32 (t + Z.of_nat (length (matches purged)))) <$> total) =
  (fun t => u32 (t + Z.of_nat (length (matches (purged ++ pending))))) <$> total.
Proof.
  destruct total as [t|]; [|done]. cbn [fmap option_fmap option_map]. f_equal.
  rewrite u32_add, matches_app, length_app. f_equal. lia.
Qed.

(** Later ids are no better when the order is that of the ids. *)
Lemma later_not_better docs a b c d :
  sorter = None -> descending_ids docs -> Forall readable docs -> docs = a ++ b ++ [d] ++ c ->
  forall x, x ∈ matches (a ++ b) -> less (view d) x = false.
Proof.
  intros -> Hd Hr -> x (y & Hy & ->)%matches_in. cbn [Sorter_less].
  rewrite app_assoc in Hd, Hr. apply Forall_app in Hr as [Hr1 Hr2]. apply Forall_cons in Hr2 as [Hrd _].
  rewrite Forall_forall in Hr1. rewrite (view_id y), (view_id d) by auto.
  assert (document_id_ d < document_id_ y); [|apply Z.ltb_ge; lia].
  clear -Hd Hy. induction (a ++ b) as [|z l IH]; [by apply elem_of_nil in Hy|].
  cbn [app] in Hd. apply StronglySorted_inv in Hd as [Hd Hz]. apply elem_of_cons in Hy as [->|Hy]; [|by apply IH].
  apply Forall_app in Hz as [_ Hz]. by apply Forall_cons in Hz as [? _].
Qed.

Lemma matches_plain docs : sorter = None -> filter = None -> matches docs = docs.
Proof.
  intros Es Ef. unfold matches, accepts, view, MatchFilter. rewrite Es, Ef. cbn [default from_option id].
  induction docs as [|d docs IH]; [done|]. cbn [map List.filter]. by rewrite IH.
Qed.

Lemma InnerPurge_spec c purged pending :
  collecting total c purged pending -> Forall readable (purged ++ pending) -> descending_ids (purged ++ pending) ->
  exists c', InnerPurge db table offset limit filter sorter score_strategy_list max_score_doc_num min_match_filter_num c =
    Some c' /\ collecting total c' (purged ++ pending) [].
Proof.
  intros [Hb Hh Ht [Hn Ho] Hs Hseen Htot Hq] Hr Hd. unfold InnerPurge. rewrite Hb, Hscore.
  destruct pending as [|p0 pending'].
  { exists c. split; [done|]. rewrite (app_nil_r purged) in Hseen |- *.
    constructor; rewrite ?app_nil_r; [exact Hb|exact Hh|exact Ht|exact (conj Hn Ho)|exact Hs|exact Hseen|exact Htot|exact Hq]. }
  set (pending := p0 :: pending') in *. clearbody pending. clear p0 pending'.
  assert (Hn0 : 0 <= n) by (unfold u64; apply Z.mod_pos_bound; lia).
  destruct (decide (sorter = None /\ filter = None)) as [[Es Ef]|Hmode].
  - rewrite Es, Ef. destruct (push_plain_spec sorter pending n (matches purged) (topN_docs_ c) Hh Ht) as (q & E & Hhq & Htq).
    { intros pre d post Hp x Hx. replace d with (view d) by (unfold view; by rewrite Es, Ef).
      apply (later_not_better (purged ++ pending) purged pre post d Es Hd Hr).
      - by rewrite Hp.
      - rewrite matches_app. rewrite (matches_plain pre Es Ef). apply elem_of_app.
        apply elem_of_app in Hx as [?|?]; [by right|by left]. }
    rewrite Hn. rewrite <- Es. rewrite E. cbn [mbind option_bind]. eexists. split; [done|].
    split; cbn; try done.
    + eapply top_of_perm; [|exact Htq]. rewrite matches_app, (matches_plain pending Es Ef). apply Permutation_app_comm.
    + by rewrite app_nil_r.
    + rewrite Htot, <- total_purge. unfold size. by rewrite (matches_plain pending Es Ef).
  - assert (Hmode' : sorter <> None \/ filter <> None) by (destruct sorter, filter; naive_solver).
    assert (Hred : forall X Y : option TopNCollector,
      match sorter, filter, false with None, None, false => X | _, _, _ => Y end = Y)
      by (intros; destruct sorter, filter; naive_solver).
    rewrite Hred. clear Hred. rewrite InnerGetFields_fetch.
    apply Forall_app in Hr as [_ Hr]. rewrite (filter_hits_spec pending Hfilters Hr Hmode'). cbn [mbind option_bind].
    destruct (push_hits_spec sorter (matches pending) n (matches purged) (topN_docs_ c) Hn0 Hh Ht) as (q & E & Hhq & Htq).
    assert (Hhand : handle_hits db table offset limit sorter score_strategy_list max_score_doc_num
      (add_total c (size (matches pending))) (matches pending) =
      Some (set_topN (add_total c (size (matches pending))) q)).
    { unfold handle_hits. destruct (matches pending) as [|h0 hits0] eqn:Em.
      - cbn in E. injection E as <-. by destruct c.
      - rewrite <- Em in *. unfold use_score_strategy_ in Hscore. cbn [topN_docs_ top_n_ add_total set_match_total].
        destruct score_strategy_list as [[|]|]; try done; by rewrite Hn, E. }
    rewrite Hhand. cbn [mbind option_bind]. eexists. split; [done|]. split; cbn; try done.
    + eapply top_of_perm; [|exact Htq]. rewrite matches_app. apply Permutation_app_comm.
    + by rewrite app_nil_r.
    + rewrite Htot. apply total_purge.
Qed.

Lemma Collect_spec c purged pending d f :
  collecting total c purged pending ->
  Forall readable (purged ++ pending ++ [collected (d, f)]) -> descending_ids (purged ++ pending ++ [collected (d, f)]) ->
  Z.of_nat (length (purged ++ pending)) <= max_inner_purge_docs_total_limit_ config ->
  Z.of_nat (S (length (purged ++ pending))) < 2 ^ 32 ->
  exists c' purged' pending', Collect c d f = Some c' /\ collecting total c' purged' pending' /\
    purged' ++ pending' = purged ++ pending ++ [collected (d, f)].
Proof.
  intros Hc Hr Hd Hlim H32. unfold Collector.Collect. destruct Hc as [Hb Hh Ht Hno Hs Hseen Htot Hq].
  rewrite Hseen. destruct (Z.ltb_spec (max_inner_purge_docs_total_limit_ config) (Z.of_nat (length (purged ++ pending)))); [lia|].
  cbv zeta. set (c1 := set_total _ _).
  assert (Hc1 : collecting total c1 purged (pending ++ [collected (d, f)])).
  { split; cbn; try done; [by rewrite Hb|]. rewrite u32_id by (unfold is_u32; lia).
    rewrite !length_app in *. simpl. lia. }
  destruct (max_inner_purge_batch_docs_count_ config <=? size (buffer_docs_ c1)).
  - destruct (InnerPurge_spec c1 purged (pending ++ [collected (d, f)]) Hc1 Hr Hd) as (c' & E & Hc').
    exists c', (purged ++ pending ++ [collected (d, f)]), []. split; [done|]. split; [done|]. by rewrite app_nil_r.
  - exists c1, purged, (pending ++ [collected (d, f)]). by split.
Qed.
Lemma top_of_full seen q : top_of less n seen q -> n <= Z.of_nat (length seen) -> Z.of_nat (length q) = n.
Proof.
  intros (rest & HP & _ & Hle & [-> |]) Hlen; [|done]. rewrite app_nil_r in HP. apply Permutation_length in HP. lia.
Qed.

Lemma top_of_length seen q : top_of less n seen q -> (length q <= length seen)%nat.
Proof. intros (rest & HP & _). apply Permutation_length in HP. rewrite length_app in HP. lia. Qed.

(** The loop stops early only when every later document is no better than
    those of the full queue. *)
Definition skippable (c : TopNCollector) (skipped : list Document) : Prop :=
  skipped = [] \/ (sorter = None /\ total = None /\ Z.of_nat (length (topN_docs_ c)) = n).

Lemma Enough_skippable c purged pending skipped :
  collecting total c purged pending -> Enough sorter c = true -> skippable c skipped.
Proof.
  intros Hc He. right. unfold Enough in He. rewrite (col_status _ _ _ _ Hc) in He. cbn [negb] in He.
  destruct (col_counts _ _ _ _ Hc) as [Hn _]. pose proof (col_total _ _ _ _ Hc) as Ht.
  destruct (col_top _ _ _ _ Hc) as (_ & _ & _ & Hle & _). unfold quick_top_n in He.
  destruct sorter; [done|]. cbn [negb] in He. apply andb_true_iff in He as [He1%Z.leb_le He2].
  unfold size in He1. rewrite Hn in He1. split; [done|]. split; [|lia].
  rewrite Ht in He2. by destruct total.
Qed.

Lemma feed_spec out c purged pending :
  collecting total c purged pending ->
  let docs := purged ++ pending ++ map collected out in
  Forall readable docs -> descending_ids docs ->
  Z.of_nat (length docs) <= max_inner_purge_docs_total_limit_ config + 1 -> Z.of_nat (length docs) < 2 ^ 32 ->
  exists c' purged' pending' skipped, feed out c = Some c' /\ collecting total c' purged' pending' /\
    purged' ++ pending' ++ skipped = docs /\ skippable c' skipped.
Proof.
  revert c purged pending. induction out as [|[d f] out IH]; intros c purged pending Hc docs Hr Hd Hl H32; cbn [feed].
  - exists c, purged, pending, []. split; [done|]. split; [exact Hc|]. split; [done|by left].
  - destruct (Enough sorter c) eqn:He.
    + exists c, purged, pending, (map collected ((d, f) :: out)). split; [done|]. split; [done|]. split; [done|].
      by eapply Enough_skippable.
    + assert (E : docs = (purged ++ pending ++ [collected (d, f)]) ++ map collected out)
        by (unfold docs; by rewrite <- !app_assoc).
      rewrite E in Hr, Hd, Hl, H32. rewrite length_app in Hl, H32.
      destruct (Collect_spec c purged pending d f Hc) as (c' & pu & pe & Ec & Hc' & Es).
      * by apply Forall_app in Hr as [? _].
      * exact (StronglySorted_app_1_l _ _ _ Hd).
      * rewrite !length_app in *. simpl in Hl. lia.
      * rewrite !length_app in *. simpl in H32. lia.
      * rewrite Ec. cbn [mbind option_bind]. rewrite <- Es, <- ?app_assoc in Hr, Hd. rewrite <- length_app, <- Es, <- app_assoc in Hl, H32.
        destruct (IH c' pu pe Hc' Hr Hd Hl H32) as (c2 & pu2 & pe2 & sk & Ef & Hc2 & Es2 & Hsk).
        exists c2, pu2, pe2, sk. split; [done|]. split; [done|]. split; [|done]. rewrite Es2, E, <- Es. by rewrite <- app_assoc.
Qed.
(** ** The result *)

(** The ids of a page: the documents [ms], best first, those before the offset
    dropped and at most [limit] kept. *)
Definition result_page (ms : list Document) (page : list Z) : Prop :=
  exists best rest, ms ≡ₚ best ++ rest /\ ranked less best /\ none_better less best rest /\
    Z.of_nat (length best) <= offset + limit /\ (rest = [] \/ Z.of_nat (length best) = offset + limit) /\
    page = drop (Z.to_nat offset) (map document_id_ best).

Context (Hoffset : 0 <= offset) (Hlimit : 0 <= limit) (Hsum : offset + limit < 2 ^ 64).

Lemma top_n_sum : n = offset + limit.
Proof. unfold u64. apply Z.mod_small. lia. Qed.

Lemma matches_nodup docs : Forall readable docs -> descending_ids docs -> NoDup (map document_id_ (matches docs)).
Proof.
  intros Hr Hd. assert (Hnd : NoDup (map document_id_ (map view docs))).
  { rewrite map_map. rewrite (map_ext_in _ document_id_).
    - clear Hr. induction Hd as [|d docs Hd IH Hx]; [constructor|]. cbn [map]. constructor; [|done].
      intros (x & E & Hin)%list_elem_of_fmap. rewrite Forall_forall in Hx. specialize (Hx x Hin). lia.
    - intros d Hin. rewrite Forall_forall in Hr. apply view_id, Hr. by apply list_elem_of_In. }
  unfold matches. revert Hnd. induction (map view docs) as [|d l IH]; [done|]. cbn [map List.filter].
  intros [Hd' Hnd]%NoDup_cons. destruct (accepts d); [|by apply IH]. cbn [map]. apply NoDup_cons. split; [|by apply IH].
  intros (x & E & Hin)%list_elem_of_fmap. apply list_elem_of_In, filter_In in Hin as [Hin _]. apply Hd'.
  rewrite E. apply list_elem_of_fmap. exists x. split; [done|]. by apply list_elem_of_In.
Qed.

Lemma GetAndClearMatchDocs_spec c docs :
  is_heap less (topN_docs_ c) -> top_of less n (matches docs) (topN_docs_ c) -> top_n_ c = n -> offset_ c = offset ->
  Forall readable docs -> descending_ids docs ->
  exists page, GetAndClearMatchDocs sorter c = Some page /\ result_page (matches docs) page.
Proof.
  intros Hh (rest & HP & Hb & Hle & Hfull) Hn Ho Hr Hd. unfold GetAndClearMatchDocs.
  destruct (pop_docs_spec sorter (length (topN_docs_ c)) (topN_docs_ c) (top_n_ c) [] Hh) as (S & HS & Hs & ->);
    [done|by rewrite Hn|].
  cbn [mbind option_bind]. rewrite app_nil_r, Ho. eexists. split; [done|].
  exists S, rest. rewrite (Permutation_length HS), <- top_n_sum.
  split; [by rewrite HS|]. split; [done|]. split; [|split; [done|split; [done|]]].
  - intros x y Hx Hy. rewrite HS in Hx. by apply Hb.
  - apply drop_offset_spec; [|done]. pose proof (matches_nodup docs Hr Hd) as Hnd. rewrite HP, map_app in Hnd.
    apply NoDup_app in Hnd as [Hnd _]. by rewrite HS.
Qed.

Lemma Finish_spec c purged pending skipped :
  collecting total c purged pending -> skippable c skipped ->
  let docs := purged ++ pending ++ skipped in
  Forall readable docs -> descending_ids docs ->
  exists c' page, Finish c = Some c' /\ OK (collector_status_ c') = true /\
    GetAndClearMatchDocs sorter c' = Some page /\ result_page (matches docs) page /\
    get_match_total_cnt_ c' = (fun t => u32 (t + Z.of_nat (length (matches docs)))) <$> total.
Proof.
  intros Hc Hsk docs Hr Hd. unfold docs in Hr, Hd. pose proof Hr as Hr1. pose proof Hd as Hd1.
  rewrite app_assoc in Hr1, Hd1. apply Forall_app in Hr1 as [Hr1 _]. apply StronglySorted_app_1_l in Hd1.
  destruct (InnerPurge_spec c purged pending Hc Hr1 Hd1) as (c' & Ep & Hc'). unfold Collector.Finish. rewrite Ep.
  cbn [mbind option_bind]. unfold HandleScorePriorityQueue. destruct Hc' as [_ Hh Ht [Hn Ho] Hs _ Htot Hq]. rewrite Hq.
  assert (Hall : top_of less n (matches docs) (topN_docs_ c')).
  { unfold docs. rewrite app_assoc. destruct Hsk as [-> |(Es & _ & Hlen)]; [by rewrite app_nil_r|].
    eapply top_of_perm; [|apply (top_of_ignore less n (matches (purged ++ pending)) _ (matches skipped)); [|exact Ht|]].
    - rewrite (matches_app (purged ++ pending)). apply Permutation_app_comm.
    - apply (top_of_full _ _ Ht). rewrite matches_app, length_app. pose proof (top_of_length _ _ (col_top _ _ _ _ Hc)) as Hl. lia.
    - intros x y Hx (d & Hin & ->)%matches_in. apply list_elem_of_split in Hin as (pre & post & ->).
      apply (later_not_better _ (purged ++ pending) pre post d Es Hd Hr); [by rewrite <- app_assoc|].
      rewrite matches_app. apply elem_of_app. by left. }
  destruct (GetAndClearMatchDocs_spec c' docs Hh Hall Hn Ho Hr Hd) as (page & Eg & Hp).
  exists c', page. split; [done|]. split; [done|]. split; [done|]. split; [done|].
  rewrite Htot. destruct Hsk as [-> |(_ & -> & _)]; [|done]. unfold docs. by rewrite app_nil_r.
Qed.

Lemma DoQuery_spec query out :
  run_query db table query = Some (status_ok, Some out) -> wf_ids (map fst out) ->
  Forall readable (map collected out) ->
  Z.of_nat (length out) <= max_inner_purge_docs_total_limit_ config + 1 -> Z.of_nat (length out) < 2 ^ 32 ->
  exists page, DoQuery query total =
      Some (status_ok, page, (fun t => u32 (t + Z.of_nat (length (matches (map collected out))))) <$> total) /\
    result_page (matches (map collected out)) page.
Proof.
  intros Hrun Hids Hr Hl H32. unfold run_query in Hrun. unfold DoQuery.
  destruct (GetScorer db table _ query status_ok) as [[status scorer]|]; cbn [mbind option_bind] in Hrun |- *; [|done].
  destruct scorer as [scorer|]; [|done].
  unfold new_collector. rewrite Hscore. cbn [andb mbind option_bind].
  destruct (Scorer_Iterator scorer) as [it|]; cbn [mbind option_bind] in Hrun |- *; [|done].
  destruct (collect (remaining it) it) as [out'|] eqn:Ec; cbn [mbind option_bind] in Hrun; [|done].
  injection Hrun as -> ->. rewrite (query_loop_feed _ _ _ _ Ec).
  set (c0 := mkCollector _ _ _ _ _ _ _ _ _).
  assert (Hc0 : collecting total c0 [] []).
  { constructor; [done|apply is_heap_nil|apply top_of_nil; unfold u64; apply Z.mod_pos_bound; lia|done|done|done| |done].
    cbn. destruct total as [t|]; [|done]. cbn. rewrite Z.add_0_r, u32_id; [done|]. by apply Htotal. }
  assert (Hd : descending_ids (map collected out)).
  { destruct Hids as [Hs _]. unfold descending_ids. clear -Hs. induction out as [|e out IH]; [constructor|].
    cbn [map] in *. apply StronglySorted_inv in Hs as [Hs Hx]. constructor; [by apply IH|].
    apply Forall_forall. intros x (y & -> & Hy)%list_elem_of_fmap. rewrite Forall_forall in Hx.
    specialize (Hx y.1 (list_elem_of_fmap_2 fst _ _ Hy)). unfold os_lt, Zcmp_desc in Hx. by apply Z.compare_lt_iff in Hx. }
  destruct (feed_spec out c0 [] [] Hc0) as (c & pu & pe & sk & Ef & Hc & Es & Hsk);
    [exact Hr|exact Hd|cbn [app]; by rewrite length_map|cbn [app]; by rewrite length_map|].
  cbn [app] in Es. rewrite Ef. cbn [mbind option_bind].
  destruct (Finish_spec c pu pe sk Hc Hsk) as (c' & page & -> & Hok & Hg & Hp & Ht);
    [by rewrite Es|by rewrite Es|]. rewrite Es in Hp, Ht.
  cbn [mbind option_bind]. rewrite Hok. cbn [negb]. rewrite Hg. cbn [mbind option_bind]. exists page. by rewrite Ht.
Qed.
End DoQuery.
