(* ===== verification/SearchCorrect.v ===== *)
(** A query from the index to the page of results: what [Searcher::DoQuery]
    promises its caller, on a store whose index is consistent
    ([IndexConsistency]). *)
From Stdlib Require String.
From S2P Require Import Prelude Storage Coding Codec DocList MergeOperator Iterators VirtualDB Query WriteDB VirtualDBMock.
From S2P Require Import Document Tokenizer DocumentWriter IndexWriter TermDiff IndexConsistency IndexCorrect.
From S2P Require Import Filter Sorter Collector TopN Searcher.

Section Theorems.
Context {DB B : Type} `{WriteLaws DB B} `{StoreProtoLaws} `{TokenizerLaws}.

(** C4: a query over a consistent index returns the right page.  Whatever the
    batch size of the collector and whether or not the loop stops early, the
    result holds, of the stored documents that match the query and pass the
    filters, the best [limit] ones behind the first [offset] in the order of
    the sorter, best first; and the total, if asked for, counts them all.
    Required are doc values that can be read, filters over fields of their
    type, and no more hits than the collector accepts. *)
Theorem DoQuery_correct config table (db : DB) offset limit filter sorter strategies max_score min_match total query out :
  wf_table table -> db_wf db -> consistent config table db -> query_bytes query = true ->
  query_ok (content db kInvertedIndexColumn) table query = true ->
  run_query db table query = Some (status_ok, Some out) ->
  use_score_strategy_ strategies = false -> filters_ok filter -> (forall t, total = Some t -> is_u32 t) ->
  0 <= offset -> 0 <= limit -> offset + limit < 2 ^ 64 ->
  Forall (readable db table) (map collected out) ->
  Z.of_nat (length out) <= max_inner_purge_docs_total_limit_ config + 1 -> Z.of_nat (length out) < 2 ^ 32 ->
  let hits := matches db table filter sorter min_match (map collected out) in
  (forall d, d ∈ map fst out <->
     is_u64 d /\ exists doc, stored_doc table db d doc /\ doc_matches config doc query = true) /\
  exists page,
    DoQuery db config table offset limit filter sorter strategies max_score min_match query total =
      Some (status_ok, page, (fun t => u32 (t + Z.of_nat (length hits))) <$> total) /\
    result_page offset limit sorter hits page.
Proof.
  intros Htable Hdb Hcon Hb Hq Hrun Hst Hf Ht Ho Hl Hs Hr Hlen H32.
  destruct (search_spec config table Htable db Hdb Hcon query Hb Hq) as (out' & Hrun' & Hids & Hhit).
  assert (out' = out) as -> by congruence. split; [exact Hhit|]. by apply DoQuery_spec.
Qed.
End Theorems.

(** ** On the mock store *)
#[local] Existing Instances number_proto number_proto_laws number_store_proto number_store_proto_laws
  TokenizerSpaceImpl.tokenizer space_laws sample_write_buffer sample_write_db sample_write_laws.

(** A document with the text "hi" and a number that can be sorted by. *)
Definition sorted_doc (e : Z * Z) : Document :=
  mkDocument
    [mkField 1 (SetInvertIndex (SetTokenize (SetStoredField 0))) kStringIndexField 0 [104; 105] false [] 0 [];
     mkField 2 (SetDocValue (SetInvertIndex (SetStoredField 0))) kUint32IndexField e.2 [] false [] 0 []] e.1 (-1).

Definition sorted_batch : list DocumentUpdater :=
  map (fun e => mkUpdater status_ok new_document (sorted_doc e) new_document new_document kDocumentAddType)
    [(42, 30); (7, 10); (9, 20); (8, 90)].

Definition sorted_run : option (bool * MockDB * list DocumentUpdater * option bytes) :=
  InnerWriteDocuments DocListCompressionFixType default_config empty_db sample_table sorted_batch None kDocumentAddType.
Definition sorted_db : MockDB := run_db sorted_run.

Lemma sorted_input : write_input sample_table empty_db sorted_batch kDocumentAddType.
Proof.
  split; [by apply (bool_decide_unpack _); vm_compute|done| |intros k; exists []; split; [by left|done]|done].
  repeat apply Forall_cons_2; [..|constructor]; (split; [done|]; split; [done|]; split; [unfold is_u64; cbv; by split|]).
  all: repeat apply Forall_cons_2; [..|constructor]; (split; [cbv; by split|]; split; [cbv; by split|]; split; [done|]).
  all: (split; [split; [split; constructor|]; split; [|cbv; by split]|exact I]).
  all: cbn [string_value_]; repeat (apply Forall_cons_2; [split; lia|]); apply Forall_nil_2.
Qed.

#[local] Opaque InnerWriteDocuments.

Lemma sorted_accepted : sorted_run = Some (true, sorted_db, run_documents sorted_run, None).
Proof. apply accepted_run. vm_compute. reflexivity. Qed.

Lemma sorted_db_ok : db_wf sorted_db /\ consistent default_config sample_table sorted_db.
Proof.
  destruct (InnerWriteDocuments_spec DocListCompressionFixType default_config sample_table sample_table_wf empty_db
    sorted_batch kDocumentAddType empty_wf empty_consistent sorted_input) as (ok & db' & docs' & E & Hwf & Hr).
  destruct (run_inv _ _ _ _ _ _ (eq_trans (eq_sym sorted_accepted) E)) as [<- <-].
  split; [exact Hwf|]. destruct Hr as (docs2 & D & _ & _ & _ & HbD & Hold & Heff).
  exact (batch_consistent default_config sample_table sample_table_wf empty_db sorted_db D empty_consistent HbD Heff Hold).
Qed.

Definition hi_query : Query := QBoolean (BooleanQuery_term 1 [104; 105]).
Definition below_50 : list Filter := [RangeFilter (mkField 2 0 kUint32IndexField 0 [] false [] 0 []) 0 50].
Definition by_number : list SortCondition := [NumericSortCondition 2 kSortConditionAsc].

(** Of the numbers below 50, in ascending order, the second. *)
Lemma DoQuery_correct_witness :
  DoQuery sorted_db default_config sample_table 1 1 (Some below_50) (Some by_number) None 0 0 hi_query (Some 0) =
    Some (status_ok, [9], Some 3).
Proof.
  assert (Hrun : run_query sorted_db sample_table hi_query = Some (status_ok, Some [(42, 1); (9, 1); (8, 1); (7, 1)]))
    by (vm_compute; reflexivity).
  destruct (DoQuery_correct default_config sample_table sorted_db 1 1 (Some below_50) (Some by_number) None 0 0 (Some 0)
    hi_query [(42, 1); (9, 1); (8, 1); (7, 1)] sample_table_wf (proj1 sorted_db_ok) (proj2 sorted_db_ok)) with (3 := Hrun) as (_ & page & E & _).
  - reflexivity.
  - vm_compute. reflexivity.
  - reflexivity.
  - split; [repeat constructor|]. simpl. lia.
  - intros t [= <-]. unfold is_u32. lia.
  - lia.
  - lia.
  - lia.
  - cbn [map]. repeat (apply Forall_cons_2; [split; vm_compute; reflexivity|]). apply Forall_nil_2.
  - vm_compute. discriminate.
  - vm_compute. reflexivity.
  - assert (page = [9]) as -> by (vm_compute in E; by injection E). exact E.
Defined.
