(* ===== verification/RocksDB.v ===== *)
(** The RocksDB binding ([virtual_db_rocks.h/.cpp], [write_buffer_rocks.h/.cpp]):
    the store the engine runs on in production.

    RocksDB is a library; its write batches and databases are the parameters of
    the class [RocksDB], and [RocksLaws] says what its documentation promises:
    a batch is the list of its operations, a write appends them to the history
    of every key or does nothing, compactions merge histories as they like
    ([MergeSchedule]), and reads agree with what a history merges to.

    Nothing promises that a write or a compaction that fails comes with a
    message, and without one the binding reads a null pointer; nor is there a
    bound on the operands of a key, which the merge operator counts in 32 bits.
    [silent] and [crowded] are these two cases.  Apart from them the binding is
    shown to obey the laws of [VirtualDB] and [WriteDB], so that the theorems on
    writing and searching hold on it.

    [None] as a result is a failed assertion, a null dereference, or a message
    that is a null pointer.  Tuning options, the block cache and the statistics
    do not change what is stored and are not modelled. *)
From Stdlib Require String.
From stdpp Require Import relations countable.
From S2P Require Import Prelude Storage Coding Codec DocList MergeOperator VirtualDB WriteDB MergeSchedule.

(** ** The library *)

(** [rocksdb::Status]; a status built from a sub code alone has no message. *)
Record Status := mkRocksStatus { code_ : Z; state_ : option string }.
Definition ok (s : Status) : bool := code_ s =? 0.
Definition IsNotFound (s : Status) : bool := code_ s =? 1.

(** A failure whose [getState] is a null pointer. *)
Definition silent (s : Status) : bool := negb (ok s) && match state_ s with None => true | Some _ => false end.

(** [rocksdb::ColumnFamilyOptions], as far as the binding sets them. *)
Record ColumnFamilyOptions (F : Type) := mkFamilyOptions { merge_operator : option MergeOp; compaction_filter : option F }.
Arguments mkFamilyOptions {F}.
Arguments merge_operator {F}.
Arguments compaction_filter {F}.

(** [DB]: databases; [Batch]: write batches; [CF]: column family handles;
    [F]: compaction filters; [Snapshot]. *)
Class RocksDB (DB Batch CF F Snapshot : Type) := {
  WriteBatch : option bytes -> Batch;
  Batch_Put : Batch -> CF -> bytes -> bytes -> Status * Batch;
  Batch_Delete : Batch -> CF -> bytes -> Status * Batch;
  Batch_DeleteRange : Batch -> CF -> bytes -> bytes -> Status * Batch;
  Batch_Merge : Batch -> CF -> bytes -> bytes -> Status * Batch;
  Batch_Append : Batch -> Batch -> Status * Batch;
  Batch_Data : Batch -> bytes;
  Batch_GetDataSize : Batch -> Z;
  Batch_Count : Batch -> Z;
  DB_Open : string -> list (string * ColumnFamilyOptions F) -> Status * list CF * option DB;
  DestroyDB : string -> Status;
  DB_Write : DB -> Batch -> Status * DB;
  DB_GetSnapshot : DB -> Snapshot;
  DB_Get : DB -> option Snapshot -> CF -> bytes -> Status * bytes;
  DB_MultiGet : DB -> option Snapshot -> list CF -> list bytes -> list Status * list bytes;
  DB_Seek : DB -> option Snapshot -> CF -> bytes -> list (bytes * bytes);
  DB_CompactRange : DB -> CF -> bytes -> bytes -> Status * DB
}.

(** ** The binding *)

(** [status.SetStatus(code, s.getState())]. *)
Definition SetStatusState (code : Z) (s : Status) : option SearchStatus :=
  msg ← state_ s; Some (SetStatus code msg).

(** What most operations answer with. *)
Definition checked (s : Status) : option SearchStatus :=
  if ok s then Some status_ok else SetStatusState kRocksDBErrorStatus s.

(** What a read answers with. *)
Definition read_status (s : Status) : option SearchStatus :=
  if ok s then Some (SetStatus kOK "")
  else if IsNotFound s then Some (SetStatus kDocumentNotExistStatus "")
  else SetStatusState kRocksDBErrorStatus s.

Definition kMaxColumn : nat := 8.

(** The enumerators in the order of their numbers. *)
Definition columns : list StorageColumnType :=
  [kStoredFieldColumn; kInvertedIndexColumn; kDocValueColumn; kMetaColumn; kDictionaryColumn; kPaxosLogColumn;
   kPaxosDataMetaColumn; kPaxosLogMetaColumn].

Definition column_family_mapping (c : StorageColumnType) : string :=
  match c with
  | kStoredFieldColumn => "default"
  | kInvertedIndexColumn => "kInvertedIndexColumn"
  | kDocValueColumn => "kDocValueColumn"
  | kMetaColumn => "kMetaColumn"
  | kDictionaryColumn => "kDictionaryColumn"
  | kPaxosLogColumn => "kPaxosLogColumn"
  | kPaxosDataMetaColumn => "kPaxosDataMetaColumn"
  | kPaxosLogMetaColumn => "kPaxosLogMetaColumn"
  end.

Section Binding.
Context {DB Batch CF F Snapshot : Type} `{!RocksDB DB Batch CF F Snapshot}.

(** [WriteBufferRocksImpl]. *)
Record WriteBufferRocksImpl := mkRocksBuffer { write_batch_ : Batch; column_family_ : list CF }.

Definition new_WriteBufferRocksImpl (column_family : list CF) (write_buffer : option bytes) : option WriteBufferRocksImpl :=
  let write_batch := match write_buffer with
                     | Some (_ :: _) => WriteBatch write_buffer
                     | _ => WriteBatch None
                     end in
  if (length column_family =? kMaxColumn)%nat then Some (mkRocksBuffer write_batch column_family) else None.

(** An operation of the batch on the family of a column. *)
Definition on_batch (b : WriteBufferRocksImpl) (column : StorageColumnType) (f : CF -> Status * Batch) :
    option (SearchStatus * WriteBufferRocksImpl) :=
  cf ← column_family_ b !! Z.to_nat (column_num column);
  let '(s, batch) := f cf in
  status ← checked s;
  Some (status, mkRocksBuffer batch (column_family_ b)).

Definition RocksBuffer_Put (b : WriteBufferRocksImpl) (column : StorageColumnType) (key value : bytes) :=
  on_batch b column (fun cf => Batch_Put (write_batch_ b) cf key value).
Definition RocksBuffer_Delete (b : WriteBufferRocksImpl) (column : StorageColumnType) (key : bytes) :=
  on_batch b column (fun cf => Batch_Delete (write_batch_ b) cf key).
Definition RocksBuffer_DeleteRange (b : WriteBufferRocksImpl) (column : StorageColumnType) (begin_key end_key : bytes) :=
  on_batch b column (fun cf => Batch_DeleteRange (write_batch_ b) cf begin_key end_key).
Definition RocksBuffer_Merge (b : WriteBufferRocksImpl) (column : StorageColumnType) (key value : bytes) :=
  on_batch b column (fun cf => Batch_Merge (write_batch_ b) cf key value).

Definition RocksBuffer_Append (b prepare_append_write_buffer : WriteBufferRocksImpl) :
    option (SearchStatus * WriteBufferRocksImpl) :=
  let '(s, batch) := Batch_Append (write_batch_ b) (write_batch_ prepare_append_write_buffer) in
  status ← checked s;
  Some (status, mkRocksBuffer batch (column_family_ b)).

Definition RocksBuffer_Data (b : WriteBufferRocksImpl) : bytes := Batch_Data (write_batch_ b).
Definition RocksBuffer_DataSize (b : WriteBufferRocksImpl) : Z := Batch_GetDataSize (write_batch_ b).
Definition RocksBuffer_KvCount (b : WriteBufferRocksImpl) : Z := Batch_Count (write_batch_ b).

(** [VDBParams], as far as the binding reads it. *)
Record VDBParams := mkParams {
  path : string;
  codec_ : DocListCompressionType;
  max_doc_list_num_ : Z;
  columns_compactionfilter : StorageColumnType -> option F
}.

(** [VirtualDBRocksImpl].  The interface of the write queue has no
    implementation in the sources. *)
Record VirtualDBRocksImpl := mkRocks {
  params_ : VDBParams;
  db_ : option DB;
  merger_ : option MergeOp;
  column_famil_handles_ : list CF;
  column_families_ : list (string * ColumnFamilyOptions F);
  write_queue_ : option (DB -> WriteBufferRocksImpl -> SearchStatus * DB);
  msg_if_error : string
}.

Definition set_db (d : VirtualDBRocksImpl) (db : option DB) : VirtualDBRocksImpl :=
  mkRocks (params_ d) db (merger_ d) (column_famil_handles_ d) (column_families_ d) (write_queue_ d) (msg_if_error d).
Definition set_handles (d : VirtualDBRocksImpl) (handles : list CF) : VirtualDBRocksImpl :=
  mkRocks (params_ d) (db_ d) (merger_ d) handles (column_families_ d) (write_queue_ d) (msg_if_error d).
Definition set_merger (d : VirtualDBRocksImpl) (m : MergeOp) : VirtualDBRocksImpl :=
  mkRocks (params_ d) (db_ d) (Some m) (column_famil_handles_ d) (column_families_ d) (write_queue_ d) (msg_if_error d).
Definition set_families (d : VirtualDBRocksImpl) (l : list (string * ColumnFamilyOptions F)) : VirtualDBRocksImpl :=
  mkRocks (params_ d) (db_ d) (merger_ d) (column_famil_handles_ d) l (write_queue_ d) (msg_if_error d).
Definition SetState (d : VirtualDBRocksImpl) (msg : string) : VirtualDBRocksImpl :=
  mkRocks (params_ d) (db_ d) (merger_ d) (column_famil_handles_ d) (column_families_ d) (write_queue_ d) msg.

Definition new_VirtualDBRocksImpl (params : VDBParams)
    (write_queue : option (DB -> WriteBufferRocksImpl -> SearchStatus * DB)) : VirtualDBRocksImpl :=
  mkRocks params None None [] [] write_queue "".

(** [DocListMergeOperator::NewInstance]; the merger asserts a positive maximum. *)
Definition NewInstance (params : VDBParams) : option MergeOp :=
  if 0 <? max_doc_list_num_ params
  then Some (DocListMergeOperator (max_doc_list_num_ params) (codec_ params)) else None.

Definition NewColumnFamilyOptions (d : VirtualDBRocksImpl) (column : StorageColumnType) :
    option (ColumnFamilyOptions F * VirtualDBRocksImpl) :=
  '(merge_operator, d) ←
    match column with
    | kInvertedIndexColumn =>
        match merger_ d with
        | None => merger ← NewInstance (params_ d); Some (Some merger, set_merger d merger)
        | Some _ => None
        end
    | _ => Some (None, d)
    end;
  Some (mkFamilyOptions merge_operator (columns_compactionfilter (params_ d) column), d).

Fixpoint push_families (l : list StorageColumnType) (d : VirtualDBRocksImpl) : option VirtualDBRocksImpl :=
  match l with
  | [] => Some d
  | column :: l' =>
      '(cf_options, d) ← NewColumnFamilyOptions d column;
      push_families l' (set_families d (column_families_ d ++ [(column_family_mapping column, cf_options)]))
  end.

Definition Open (d : VirtualDBRocksImpl) : option (bool * VirtualDBRocksImpl) :=
  match db_ d with
  | Some _ => Some (false, SetState d "DB had opened!")
  | None =>
      d ← push_families columns (set_families d []);
      let '(s, handles, db) := DB_Open (path (params_ d)) (column_families_ d) in
      let d := set_db (set_handles d handles) db in
      if negb (ok s) then msg ← state_ s; Some (false, SetState d msg) else Some (true, d)
  end.

(** The handles and the database are deleted; the merger stays. *)
Definition Clear (d : VirtualDBRocksImpl) : VirtualDBRocksImpl := set_db (set_handles d []) None.

Definition DropDB (d : VirtualDBRocksImpl) : SearchStatus * VirtualDBRocksImpl :=
  let d := Clear d in
  (SetStatus (code_ (DestroyDB (path (params_ d)))) "", d).

Definition NewSnapshot (d : VirtualDBRocksImpl) : option Snapshot := db ← db_ d; Some (DB_GetSnapshot db).

Definition NewRocksBuffer (d : VirtualDBRocksImpl) (write_buffer : option bytes) : option WriteBufferRocksImpl :=
  new_WriteBufferRocksImpl (column_famil_handles_ d) write_buffer.

Definition Rocks_FlushBuffer (d : VirtualDBRocksImpl) (buffer : WriteBufferRocksImpl) :
    option (SearchStatus * VirtualDBRocksImpl) :=
  db ← db_ d;
  match write_queue_ d with
  | None =>
      let '(s, db) := DB_Write db (write_batch_ buffer) in
      status ← checked s;
      Some (status, set_db d (Some db))
  | Some Write => let '(status, db) := Write db buffer in Some (status, set_db d (Some db))
  end.

Definition Rocks_Get (d : VirtualDBRocksImpl) (column : StorageColumnType) (key : bytes) (snapshot : option Snapshot) :
    option (SearchStatus * bytes) :=
  db ← db_ d;
  cf ← column_famil_handles_ d !! Z.to_nat (column_num column);
  let '(ss, value) := DB_Get db snapshot cf key in
  status ← read_status ss;
  Some (status, value).

Definition Rocks_MultiGet (d : VirtualDBRocksImpl) (columns : list StorageColumnType) (keys : list bytes)
    (snapshot : option Snapshot) : option (list SearchStatus * list bytes) :=
  if negb (length keys =? length columns)%nat then None
  else
    db ← db_ d;
    handles ← mapM (fun column => column_famil_handles_ d !! Z.to_nat (column_num column)) columns;
    let '(ss, values) := DB_MultiGet db snapshot handles keys in
    if negb (length ss =? length keys)%nat then None
    else
      status ← mapM read_status ss;
      Some (status, values).

(** The entries an iterator yields from [target] on; [None] for the outer
    option is a null dereference, for the inner one that there is no iterator. *)
Definition Rocks_NewIterator (d : VirtualDBRocksImpl) (column : StorageColumnType) (snapshot : option Snapshot) :
    option (option (bytes -> list (bytes * bytes))) :=
  match column_famil_handles_ d !! Z.to_nat (column_num column) with
  | None => Some None
  | Some cf => db ← db_ d; Some (Some (DB_Seek db snapshot cf))
  end.

Definition CompactRange (d : VirtualDBRocksImpl) (column : StorageColumnType) (begin_key end_key : bytes) :
    option (SearchStatus * VirtualDBRocksImpl) :=
  cf ← column_famil_handles_ d !! Z.to_nat (column_num column);
  db ← db_ d;
  let '(s, db) := DB_CompactRange db cf begin_key end_key in
  status ← checked s;
  Some (status, set_db d (Some db)).
End Binding.

Arguments WriteBufferRocksImpl Batch CF : clear implicits.
Arguments VirtualDBRocksImpl DB Batch CF F : clear implicits.
Arguments VDBParams F : clear implicits.

(** ** What the library promises *)
Inductive batch_op (CF : Type) :=
| BPut (cf : CF) (key value : bytes)
| BDelete (cf : CF) (key : bytes)
| BDeleteRange (cf : CF) (begin_key end_key : bytes)
| BMerge (cf : CF) (key value : bytes).
Arguments BPut {CF}.
Arguments BDelete {CF}.
Arguments BDeleteRange {CF}.
Arguments BMerge {CF}.

Section History.
Context {CF : Type} `{!EqDecision CF}.

(** One operation on the history of a key. *)
Definition apply_op (cf : CF) (k : bytes) (h : history) (o : batch_op CF) : history :=
  match o with
  | BPut cf' k' v => if decide (cf' = cf /\ k' = k) then (Some v, []) else h
  | BDelete cf' k' => if decide (cf' = cf /\ k' = k) then (None, []) else h
  | BDeleteRange cf' b e =>
      if bool_decide (cf' = cf) && in_range b e k then (None, []) else h
  | BMerge cf' k' v => if decide (cf' = cf /\ k' = k) then (h.1, h.2 ++ [v]) else h
  end.

Definition apply_ops (cf : CF) (k : bytes) (ops : list (batch_op CF)) (h : history) : history :=
  fold_left (apply_op cf k) ops h.

Lemma apply_ops_snoc cf k ops o h : apply_ops cf k (ops ++ [o]) h = apply_op cf k (apply_ops cf k ops h) o.
Proof. unfold apply_ops. by rewrite fold_left_app. Qed.
End History.

(** What compactions make of a history, what a read makes of it, and that the
    operator of the family copes with it. *)
Definition evolves (op : option MergeOp) (chosen : list bytes -> Prop) (h h' : history) : Prop :=
  match op with Some op => rtc (collapse op chosen) h h' | None => h' = h end.
Definition reads_as (op : option MergeOp) (chosen : list bytes -> Prop) (h : history) (v : option bytes) : Prop :=
  match op with Some op => reads op chosen h v | None => h = (v, []) end.
Definition workable (op : option MergeOp) (chosen : list bytes -> Prop) (h : history) : Prop :=
  match op with Some op => answers op chosen h | None => h.2 = [] end.

(** A batch operation appends itself, or fails with a message and does nothing:
    a batch without a limit on its bytes refuses nothing but keys and values
    that are too large ([write_batch.cc]), which it says. *)
Definition appends {CF Batch : Type} (batch_ops : Batch -> list (batch_op CF)) (b : Batch) (r : Status * Batch)
    (ops : list (batch_op CF)) : Prop :=
  if ok r.1 then batch_ops r.2 = batch_ops b ++ ops else state_ r.1 <> None /\ batch_ops r.2 = batch_ops b.

Class RocksLaws (DB Batch CF F Snapshot : Type) `{!EqDecision CF, !RocksDB DB Batch CF F Snapshot} := {
  batch_ops : Batch -> list (batch_op CF);
  new_batch : batch_ops (WriteBatch None) = [];
  (* a batch can be rebuilt from its bytes, which start with a header *)
  Batch_Data_header b : Batch_Data b <> [];
  saved_batch b : batch_ops (WriteBatch (Some (Batch_Data b))) = batch_ops b;
  Batch_Put_law b cf k v : appends batch_ops b (Batch_Put b cf k v) [BPut cf k v];
  Batch_Delete_law b cf k : appends batch_ops b (Batch_Delete b cf k) [BDelete cf k];
  Batch_DeleteRange_law b cf x y : appends batch_ops b (Batch_DeleteRange b cf x y) [BDeleteRange cf x y];
  Batch_Merge_law b cf k v : appends batch_ops b (Batch_Merge b cf k v) [BMerge cf k v];
  Batch_Append_law b b' : appends batch_ops b (Batch_Append b b') (batch_ops b');
  (* a database in working order, with the operator of every family, the runs
     its compactions merge partially, the history of every key, and the entries
     an iterator walks *)
  healthy : DB -> Prop;
  operator : DB -> CF -> option MergeOp;
  chosen : list bytes -> Prop;
  hist : DB -> CF -> bytes -> history;
  entries : DB -> CF -> list (bytes * bytes);
  entries_sorted db cf : healthy db -> om_sorted bytes_cmp (entries db cf);
  entries_read db cf k : healthy db -> (forall k, workable (operator db cf) chosen (hist db cf k)) ->
    reads_as (operator db cf) chosen (hist db cf k) (om_find bytes_cmp k (entries db cf));
  DB_Get_law db cf k : healthy db -> (forall k, workable (operator db cf) chosen (hist db cf k)) ->
    match om_find bytes_cmp k (entries db cf) with
    | Some v => ok (DB_Get db None cf k).1 = true /\ (DB_Get db None cf k).2 = v
    | None => ok (DB_Get db None cf k).1 = false /\ IsNotFound (DB_Get db None cf k).1 = true /\
              (DB_Get db None cf k).2 = []
    end;
  DB_MultiGet_law db sn cfs ks : length cfs = length ks ->
    DB_MultiGet db sn cfs ks =
    let r := zip_with (fun cf k => DB_Get db sn cf k) cfs ks in (map fst r, map snd r);
  DB_Seek_law db cf k : healthy db -> (forall k, workable (operator db cf) chosen (hist db cf k)) ->
    DB_Seek db None cf k = om_lower_bound bytes_cmp k (entries db cf);
  (* a write is all or nothing *)
  DB_Write_law db b : healthy db ->
    let h' := fun cf k => if ok (DB_Write db b).1 then apply_ops cf k (batch_ops b) (hist db cf k) else hist db cf k in
    (forall cf k, workable (operator db cf) chosen (h' cf k)) ->
    healthy (DB_Write db b).2 /\
    forall cf, operator (DB_Write db b).2 cf = operator db cf /\
      forall k, evolves (operator db cf) chosen (h' cf k) (hist (DB_Write db b).2 cf k);
  (* compacting on demand is compacting *)
  DB_CompactRange_law db cf x y : healthy db -> (forall cf k, workable (operator db cf) chosen (hist db cf k)) ->
    healthy (DB_CompactRange db cf x y).2 /\
    forall cf', operator (DB_CompactRange db cf x y).2 cf' = operator db cf' /\
      forall k, evolves (operator db cf') chosen (hist db cf' k) (hist (DB_CompactRange db cf x y).2 cf' k)
}.

(** ** The binding as a store *)
Section Interface.
Context {DB Batch CF F Snapshot : Type} `{!EqDecision CF, !RocksDB DB Batch CF F Snapshot}.

(** The handles of an opened database, one per column. *)
Context (handle : StorageColumnType -> CF).
Definition handles : list CF := map handle columns.

(** A call that does not return has no place in the interface; the laws say
    that there is none. *)
Definition no_answer : SearchStatus := SetStatus kRocksDBErrorStatus "".

Definition rocks_db : VirtualDB (VirtualDBRocksImpl DB Batch CF F) := {|
  Get d column key := default (no_answer, []) (Rocks_Get d column key None);
  Seek d column target :=
    match Rocks_NewIterator d column None with Some (Some seek) => seek target | _ => [] end
|}.

Definition rocks_write_buffer : WriteBuffer (WriteBufferRocksImpl Batch CF) := {|
  Put b column key value := default (no_answer, b) (RocksBuffer_Put b column key value);
  Delete b column key := default (no_answer, b) (RocksBuffer_Delete b column key);
  DeleteRange b column x y := default (no_answer, b) (RocksBuffer_DeleteRange b column x y);
  Merge := RocksBuffer_Merge;
  Data b := (RocksBuffer_Data b, b);
  DataSize := RocksBuffer_DataSize
|}.

Definition rocks_write_db : WriteDB (VirtualDBRocksImpl DB Batch CF F) (WriteBufferRocksImpl Batch CF) := {|
  NewWriteBuffer data := default (mkRocksBuffer (WriteBatch None) handles) (new_WriteBufferRocksImpl handles data);
  FlushBuffer d b := '(s, d) ← Rocks_FlushBuffer d b; Some (s, d, b)
|}.
End Interface.

(** ** The laws of the store *)
Section Laws.
Context {DB Batch CF F Snapshot : Type} `{!EqDecision CF, !RocksDB DB Batch CF F Snapshot,
  !RocksLaws DB Batch CF F Snapshot}.
Context (handle : StorageColumnType -> CF) `{!Inj (=) (=) handle}.
Context (max : Z) (c : DocListCompressionType) (Hmax : 0 < max <= 100000000) (Hchosen : moderate chosen).

#[local] Existing Instances rocks_db rocks_write_buffer.
#[local] Instance my_write_db : WriteDB (VirtualDBRocksImpl DB Batch CF F) (WriteBufferRocksImpl Batch CF) :=
  rocks_write_db handle.

Notation Impl := (VirtualDBRocksImpl DB Batch CF F).
Notation Buffer := (WriteBufferRocksImpl Batch CF).
Let inverted := handle kInvertedIndexColumn.
Let op := DocListMergeOperator max c.

(** The inverted column merges document lists, no other column merges. *)
Definition sound_at (cf : CF) (h : history) : Prop := if decide (cf = inverted) then sound max h else h.2 = [].

Record db_ready (r : DB) : Prop := {
  ready_healthy : healthy r;
  ready_operator cf : operator r cf = if decide (cf = inverted) then Some op else None;
  ready_sound cf k : sound_at cf (hist r cf k)
}.

Definition rocks_wf (d : Impl) : Prop :=
  write_queue_ d = None /\ column_famil_handles_ d = handles handle /\ exists r, db_ d = Some r /\ db_ready r.

Definition rocks_content (d : Impl) (column : StorageColumnType) : list (bytes * bytes) :=
  match db_ d with Some r => entries r (handle column) | None => [] end.

Lemma handle_lookup column : handles handle !! Z.to_nat (column_num column) = Some (handle column).
Proof. by destruct column. Qed.

Lemma sound_workable r cf h : db_ready r -> sound_at cf h -> workable (operator r cf) chosen h.
Proof.
  intros Hr Hs. rewrite (ready_operator r Hr). unfold sound_at in Hs. destruct (decide (cf = inverted)); [|done].
  by apply (sound_answers max c).
Qed.

Lemma ready_workable r cf k : db_ready r -> workable (operator r cf) chosen (hist r cf k).
Proof. intros Hr. apply sound_workable; [done|]. by apply ready_sound. Qed.

#[local] Hint Resolve ready_workable ready_healthy : core.

Lemma sound_evolves r cf h h' :
  db_ready r -> sound_at cf h -> evolves (operator r cf) chosen h h' -> sound_at cf h'.
Proof.
  intros Hr. rewrite (ready_operator r Hr). unfold sound_at. destruct (decide (cf = inverted)); [|by intros ? ->].
  by apply (sound_collapses max c).
Qed.

(** What is read does not change under compactions. *)
Lemma reads_evolves r cf h h' v v' :
  db_ready r -> sound_at cf h -> evolves (operator r cf) chosen h h' ->
  reads_as (operator r cf) chosen h v -> reads_as (operator r cf) chosen h' v' -> v' = v.
Proof.
  intros Hr. rewrite (ready_operator r Hr). unfold sound_at. destruct (decide (cf = inverted)).
  - intros Hs He H1 H2. eapply (sound_reads max c chosen Hmax Hchosen h); [done| |exact H1].
    unfold reads in H2 |- *. by transitivity h'.
  - cbn. intros _ -> -> [= ->]. done.
Qed.

Lemma ready_read r cf k :
  db_ready r -> reads_as (operator r cf) chosen (hist r cf k) (om_find bytes_cmp k (entries r cf)).
Proof. intros Hr. apply entries_read; eauto. Qed.

Lemma rocks_Get_spec d column k :
  rocks_wf d -> Rocks_Get d column k None =
  Some (match om_find bytes_cmp k (rocks_content d column) with
        | Some v => (status_ok, v)
        | None => (SetStatus kDocumentNotExistStatus "", [])
        end).
Proof.
  intros (_ & Hh & r & Hd & Hr). unfold Rocks_Get, rocks_content. rewrite Hd, Hh, handle_lookup. cbn [mbind option_bind].
  pose proof (DB_Get_law r (handle column) k (ready_healthy r Hr) (fun k => ready_workable r _ k Hr)) as Hg.
  destruct (DB_Get r None (handle column) k) as [ss value]. cbn [fst snd] in Hg. unfold read_status.
  destruct (om_find bytes_cmp k _) as [v|].
  - by destruct Hg as [-> ->].
  - by destruct Hg as (-> & -> & ->).
Qed.

Lemma rocks_Seek_spec d column target :
  rocks_wf d -> Seek d column target = om_lower_bound bytes_cmp target (rocks_content d column).
Proof.
  intros (_ & Hh & r & Hd & Hr). cbn [Seek rocks_db]. unfold Rocks_NewIterator, rocks_content.
  rewrite Hd, Hh, handle_lookup. cbn [mbind option_bind]. apply DB_Seek_law; eauto.
Qed.

(** The read side of the interface. *)
Program Definition rocks_db_laws : VirtualDBLaws Impl := {| content := rocks_content; db_wf := rocks_wf |}.
Next Obligation. intros d column (_ & _ & r & Hd & Hr). unfold rocks_content. rewrite Hd. by apply entries_sorted, ready_healthy. Qed.
Next Obligation. intros d column k Hd. cbn [Get rocks_db]. by rewrite (rocks_Get_spec d column k Hd). Qed.
Next Obligation. intros d column k. apply rocks_Seek_spec. Qed.
#[local] Existing Instance rocks_db_laws.

(** [MultiGet] reads every key like [Get]. *)
Lemma rocks_MultiGet_spec d cs ks :
  rocks_wf d -> length ks = length cs -> Rocks_MultiGet d cs ks None = Some (MultiGet d cs ks).
Proof.
  intros Hd Hlen. unfold Rocks_MultiGet. rewrite Hlen, Nat.eqb_refl. cbn [negb].
  pose proof Hd as (_ & Hh & r & Hdb & Hr). rewrite Hdb, Hh. cbn [mbind option_bind].
  assert (Hm : mapM (fun column => handles handle !! Z.to_nat (column_num column)) cs = Some (map handle cs)).
  { apply mapM_Some. clear. induction cs as [|x cs IH]; constructor; [apply handle_lookup|done]. }
  rewrite Hm. cbn [mbind option_bind]. rewrite DB_MultiGet_law by (by rewrite length_map).
  cbv zeta beta iota. rewrite length_map, length_zip_with, length_map, Hlen, Nat.min_id, Nat.eqb_refl. cbn [negb]. unfold MultiGet.
  assert (Hs : Forall2 (fun x y => read_status x.1 = Some y.1 /\ x.2 = y.2)
    (zip_with (fun cf k => DB_Get r None cf k) (map handle cs) ks) (zip_with (fun column k => Get d column k) cs ks)).
  { clear Hlen Hm. revert ks. induction cs as [|column cs IH]; intros [|k ks]; try constructor; [|apply IH].
    pose proof (rocks_Get_spec d column k Hd) as Hg. cbn [Get rocks_db]. rewrite Hg. cbn [default from_option id].
    unfold Rocks_Get in Hg. rewrite Hdb, Hh, handle_lookup in Hg. cbn [mbind option_bind] in Hg.
    destruct (DB_Get r None (handle column) k) as [ss value]. cbn [fst snd]. destruct (read_status ss); [|done].
    cbn in Hg. injection Hg as Hg. by rewrite <- Hg. }
  assert (Hms : mapM read_status (map fst (zip_with (fun cf k => DB_Get r None cf k) (map handle cs) ks)) =
    Some (map fst (zip_with (fun column k => Get d column k) cs ks))).
  { apply mapM_Some. apply Forall2_fmap. eapply Forall2_impl; [exact Hs|]. by intros ? ? [? _]. }
  rewrite Hms. cbn [mbind option_bind]. do 2 f_equal. clear -Hs. induction Hs as [|x y l l' [_ E] _ IH]; [done|]. cbn. by rewrite E, IH.
Qed.

(** ** The write side *)

(** The pending operation of a key, and what it does to a history. *)
Definition pend_step (cf : CF) (k : bytes) (p : pending) (o : batch_op CF) : pending :=
  match o with
  | BPut cf' k' v => if decide (cf' = cf /\ k' = k) then PPut v else p
  | BDelete cf' k' => if decide (cf' = cf /\ k' = k) then PDelete else p
  | BDeleteRange cf' b e =>
      if bool_decide (cf' = cf) && in_range b e k then PDelete else p
  | BMerge cf' k' v =>
      if decide (cf' = cf /\ k' = k)
      then PMerge (write_list (match p with PMerge l => l | _ => [] end) (default [] (read_doclist v))) else p
  end.

Definition rocks_pend (b : Buffer) (column : StorageColumnType) (k : bytes) : pending :=
  fold_left (pend_step (handle column) k) (batch_ops (write_batch_ b)) PNone.

Definition shape (ops : list (batch_op CF)) (cf : CF) (k : bytes) (p : pending) : Prop :=
  match p with
  | PNone => forall h, apply_ops cf k ops h = h
  | PPut v => forall h, apply_ops cf k ops h = (Some v, [])
  | PDelete => forall h, apply_ops cf k ops h = (None, [])
  | PMerge l => cf = inverted /\ exists datas ls, datas <> [] /\ Forall2 is_doclist datas ls /\ l = overlay ls /\
      forall h, apply_ops cf k ops h = (h.1, h.2 ++ datas)
  end.

(** The buffer touches the families of the columns only, each key in one of the
    ways a pending operation describes. *)
Definition rocks_ok (b : Buffer) : Prop :=
  column_family_ b = handles handle /\
  (forall column k, shape (batch_ops (write_batch_ b)) (handle column) k (rocks_pend b column k)) /\
  (forall cf k h, cf ∉ handles handle -> apply_ops cf k (batch_ops (write_batch_ b)) h = h).

Lemma on_batch_spec b column f o :
  column_family_ b = handles handle -> appends batch_ops (write_batch_ b) (f (handle column)) [o] ->
  exists s b', on_batch b column f = Some (s, b') /\ column_family_ b' = handles handle /\
    batch_ops (write_batch_ b') = batch_ops (write_batch_ b) ++ (if OK s then [o] else []).
Proof.
  intros Hb Ha. unfold on_batch. rewrite Hb, handle_lookup. cbn [mbind option_bind]. unfold appends in Ha.
  destruct (f (handle column)) as [s batch]. cbn [fst snd] in Ha. unfold checked, SetStatusState.
  destruct (ok s).
  - cbn [mbind option_bind]. eexists status_ok, _. split; [done|]. by split.
  - destruct Ha as [Hm Ha]. destruct (state_ s) as [msg|]; [|done]. cbn [mbind option_bind].
    eexists _, _. split; [done|]. split; [done|]. cbn [write_batch_]. by rewrite Ha, app_nil_r.
Qed.

(** A failed operation leaves the buffer as it was. *)
Lemma rocks_ok_same b b' :
  rocks_ok b -> column_family_ b' = handles handle -> batch_ops (write_batch_ b') = batch_ops (write_batch_ b) ++ [] ->
  rocks_ok b'.
Proof.
  rewrite app_nil_r. intros (_ & Hs & Hf) Hh E. split; [done|]. rewrite E. split; [|done].
  intros column k. unfold rocks_pend. rewrite E. apply Hs.
Qed.

Lemma handle_in column : handle column ∈ handles handle.
Proof. apply list_elem_of_fmap_2. destruct column; unfold columns; set_solver. Qed.

(** An operation on one key. *)
Lemma rocks_ok_op b b' column k o p :
  rocks_ok b -> column_family_ b' = handles handle -> batch_ops (write_batch_ b') = batch_ops (write_batch_ b) ++ [o] ->
  (forall cf' k' h, apply_op cf' k' h o = if decide (handle column = cf' /\ k = k') then apply_op (handle column) k h o else h) ->
  (forall cf' k' q, pend_step cf' k' q o = if decide (handle column = cf' /\ k = k') then pend_step (handle column) k q o else q) ->
  pend_step (handle column) k (rocks_pend b column k) o = p ->
  shape (batch_ops (write_batch_ b) ++ [o]) (handle column) k p ->
  rocks_ok b' /\ forall c' k', rocks_pend b' c' k' = if decide (c' = column /\ k' = k) then p else rocks_pend b c' k'.
Proof.
  intros (_ & Hs & Hf) Hh E Ha Hp <- Hsh.
  assert (Hpend : forall c' k', rocks_pend b' c' k' =
    if decide (c' = column /\ k' = k) then pend_step (handle column) k (rocks_pend b column k) o else rocks_pend b c' k').
  { intros c' k'. unfold rocks_pend. rewrite E, fold_left_app. cbn [fold_left]. rewrite Hp.
    destruct (decide (c' = column /\ k' = k)) as [[-> ->]|N]; [by rewrite decide_True|].
    rewrite decide_False; [done|]. intros [->%(inj handle) ->]. by apply N. }
  split; [|exact Hpend]. split; [done|]. rewrite E. split.
  2:{ intros cf' k' h Hn. rewrite apply_ops_snoc, Ha, decide_False by (intros [<- _]; by apply Hn, handle_in). by apply Hf. }
  intros c' k'. rewrite Hpend.
  destruct (decide (c' = column /\ k' = k)) as [[-> ->]|N]; [exact Hsh|].
  assert (Hsame : forall h, apply_ops (handle c') k' (batch_ops (write_batch_ b) ++ [o]) h = apply_ops (handle c') k' (batch_ops (write_batch_ b)) h).
  { intros h. rewrite apply_ops_snoc, Ha, decide_False; [done|]. intros [->%(inj handle) ->]. by apply N. }
  specialize (Hs c' k'). unfold shape in *. destruct (rocks_pend b c' k'); try (intros h; rewrite Hsame; apply Hs).
  destruct Hs as (Hi & datas & ls & H1 & H2 & H3 & H4). split; [done|]. exists datas, ls. split_and!; [done..|].
  intros h. rewrite Hsame. apply H4.
Qed.

Ltac on_key :=
  let cf := fresh "cf" in let k := fresh "k" in
  intros cf k ?; cbn;
  match goal with |- context [decide ?P] => destruct (decide P) end; rewrite ?decide_True by done; done.

Lemma rocks_Put_spec b column k v :
  rocks_ok b -> exists s b', RocksBuffer_Put b column k v = Some (s, b') /\ rocks_ok b' /\
    (OK s = true -> forall c' k', rocks_pend b' c' k' = if decide (c' = column /\ k' = k) then PPut v else rocks_pend b c' k').
Proof.
  intros Hb. destruct (on_batch_spec b column (fun cf => Batch_Put (write_batch_ b) cf k v) (BPut (handle column) k v))
    as (s & b' & Hf & Hh & E); [apply Hb|apply Batch_Put_law|]. exists s, b'. split; [done|].
  destruct (OK s); [|split; [by eapply rocks_ok_same|done]].
  destruct (rocks_ok_op b b' column k (BPut (handle column) k v) (PPut v) Hb Hh E) as [H1 H2].
  - on_key.
  - on_key.
  - cbn. by rewrite decide_True.
  - intros h. rewrite apply_ops_snoc. cbn. by rewrite decide_True.
  - by split.
Qed.

Lemma rocks_Delete_spec b column k :
  rocks_ok b -> exists s b', RocksBuffer_Delete b column k = Some (s, b') /\ rocks_ok b' /\
    (OK s = true -> forall c' k', rocks_pend b' c' k' = if decide (c' = column /\ k' = k) then PDelete else rocks_pend b c' k').
Proof.
  intros Hb. destruct (on_batch_spec b column (fun cf => Batch_Delete (write_batch_ b) cf k) (BDelete (handle column) k))
    as (s & b' & Hf & Hh & E); [apply Hb|apply Batch_Delete_law|]. exists s, b'. split; [done|].
  destruct (OK s); [|split; [by eapply rocks_ok_same|done]].
  destruct (rocks_ok_op b b' column k (BDelete (handle column) k) PDelete Hb Hh E) as [H1 H2].
  - on_key.
  - on_key.
  - cbn. by rewrite decide_True.
  - intros h. rewrite apply_ops_snoc. cbn. by rewrite decide_True.
  - by split.
Qed.

Lemma rocks_Merge_spec b k v l1 l2 :
  rocks_ok b -> lists_of (rocks_pend b kInvertedIndexColumn k) l1 -> is_doclist v l2 ->
  exists s b', RocksBuffer_Merge b kInvertedIndexColumn k v = Some (s, b') /\ rocks_ok b' /\
    (OK s = true -> forall c' k', rocks_pend b' c' k' =
       if decide (c' = kInvertedIndexColumn /\ k' = k) then PMerge (write_list l1 l2) else rocks_pend b c' k').
Proof.
  intros Hb Hl Hv.
  destruct (on_batch_spec b kInvertedIndexColumn (fun cf => Batch_Merge (write_batch_ b) cf k v) (BMerge inverted k v))
    as (s & b' & Hf & Hh & E); [apply Hb|apply Batch_Merge_law|]. exists s, b'. split; [done|].
  destruct (OK s); [|split; [by eapply rocks_ok_same|done]].
  destruct (rocks_ok_op b b' kInvertedIndexColumn k (BMerge inverted k v) (PMerge (write_list l1 l2)) Hb Hh E) as [H1 H2].
  - unfold inverted; on_key.
  - unfold inverted; on_key.
  - cbn. rewrite decide_True by done. rewrite (is_doclist_read _ _ Hv). cbn [default from_option id].
    by destruct Hl as [-> |[-> ->]].
  - split; [done|]. destruct Hb as (_ & Hs & _). specialize (Hs kInvertedIndexColumn k). destruct Hl as [Hp|[Hp ->]]; rewrite Hp in Hs.
    + destruct Hs as (_ & datas & ls & Hne & Hd & -> & Ha). exists (datas ++ [v]), (ls ++ [l2]).
      split; [by intros [_ ?]%app_nil|]. split; [apply Forall2_app; [done|by constructor]|]. split; [by rewrite overlay_snoc|].
      intros h. rewrite apply_ops_snoc, Ha. cbn. rewrite decide_True by done. by rewrite <- app_assoc.
    + exists [v], [l2]. split; [done|]. split; [by constructor|]. split; [done|].
      intros h. rewrite apply_ops_snoc, Hs. cbn. by rewrite decide_True.
  - by split.
Qed.

(** ** Flushing *)

Lemma reads_back o h h' v : evolves o chosen h h' -> reads_as o chosen h' v -> reads_as o chosen h v.
Proof. destruct o; cbn; [|by intros ->]. unfold reads. intros H1 H2. by transitivity h'. Qed.

Lemma reads_as_base o v v' : reads_as o chosen (v, []) v' -> v' = v.
Proof. destruct o; cbn; [by intros ?%reads_base|]. by intros [= ->]. Qed.

Lemma reads_as_unique r cf h v v' :
  db_ready r -> sound_at cf h -> reads_as (operator r cf) chosen h v -> reads_as (operator r cf) chosen h v' -> v' = v.
Proof. intros Hr Hs. apply reads_evolves; [done..|]. destruct (operator r cf); [apply rtc_refl|done]. Qed.

(** The keys a batch merges into, and those it leaves with more operands than
    the merge operator counts. *)
Definition merge_key (o : batch_op CF) : option bytes :=
  match o with BMerge cf k _ => if decide (cf = inverted) then Some k else None | _ => None end.

Definition too_many (r : DB) (ops : list (batch_op CF)) (k : bytes) : bool :=
  2 ^ 32 - 1 <=? Z.of_nat (length (apply_ops inverted k ops (hist r inverted k)).2).

(** The write of the buffer is done and leaves such a key. *)
Definition crowded (d : Impl) (b : Buffer) : bool :=
  match db_ d with
  | Some r =>
      let ops := batch_ops (write_batch_ b) in
      ok (DB_Write r (write_batch_ b)).1 && existsb (too_many r ops) (omap merge_key ops)
  | None => false
  end.

Lemma pend_merge_key b k l : rocks_pend b kInvertedIndexColumn k = PMerge l -> k ∈ omap merge_key (batch_ops (write_batch_ b)).
Proof.
  unfold rocks_pend. generalize (batch_ops (write_batch_ b)) as ops. intros ops. revert l.
  induction ops as [|o ops IH] using rev_ind; intros l; [done|]. rewrite fold_left_app, omap_app. cbn [fold_left omap list_omap].
  rewrite elem_of_app. destruct o as [cf k' v|cf k'|cf x y|cf k' v]; cbn [pend_step merge_key].
  - destruct (decide _); [done|]. intros E. left. by eapply IH.
  - destruct (decide _); [done|]. intros E. left. by eapply IH.
  - destruct (_ && _); [done|]. intros E. left. by eapply IH.
  - destruct (decide (cf = handle kInvertedIndexColumn /\ k' = k)) as [[-> ->]|_]; [|intros E; left; by eapply IH].
    intros _. right. unfold inverted. rewrite decide_True by done. by left.
Qed.

(** Room for the merges of a buffer. *)
Definition room (d : Impl) (b : Buffer) : Prop :=
  forall k l, rocks_pend b kInvertedIndexColumn k = PMerge l ->
    exists lo, old_list (om_find bytes_cmp k (rocks_content d kInvertedIndexColumn)) lo /\
      Z.of_nat (length lo + length l) < max + 1.

Section Write.
Context (d : Impl) (b : Buffer) (r : DB).
Context (Hd : db_ d = Some r) (Hr : db_ready r) (Hb : rocks_ok b) (Hroom : room d b).
Let ops := batch_ops (write_batch_ b).
Let written cf k : history := apply_ops cf k ops (hist r cf k).
Context (Hok : ok (DB_Write r (write_batch_ b)).1 = true) (Hnc : crowded d b = false).

(** The inverted column before and after. *)
Lemma written_merge k l :
  rocks_pend b kInvertedIndexColumn k = PMerge l ->
  sound max (written inverted k) /\
  forall v', reads op chosen (written inverted k) v' -> merged (om_find bytes_cmp k (entries r inverted)) l v'.
Proof.
  intros Hp. destruct (Hroom k l Hp) as (lo & Ho & Hlen). destruct Hb as (_ & Hs & _).
  specialize (Hs kInvertedIndexColumn k). rewrite Hp in Hs. destruct Hs as (_ & datas & ls & Hne & Hdl & -> & Ha).
  fold inverted in Ha. fold ops in Ha. unfold rocks_content in Ho. rewrite Hd in Ho. fold inverted in Ho.
  pose proof (ready_sound r Hr inverted k) as Hsound. unfold sound_at in Hsound. rewrite decide_True in Hsound by done.
  pose proof (ready_read r inverted k Hr) as Hread. rewrite (ready_operator r Hr), decide_True in Hread by done. cbn [reads_as] in Hread.
  assert (Hfew : Z.of_nat (length (apply_ops inverted k ops (hist r inverted k)).2) < 2 ^ 32 - 1).
  { unfold crowded in Hnc. rewrite Hd, Hok in Hnc. cbn [andb] in Hnc. apply Z.leb_gt. fold (too_many r ops k).
    destruct (too_many r ops k) eqn:E; [|done]. rewrite <- Hnc. symmetry. apply existsb_exists. exists k.
    split; [|done]. by eapply list_elem_of_In, pend_merge_key, Hp. }
  unfold written. rewrite Ha in Hfew |- *. cbn [snd] in Hfew. rewrite length_app in Hfew. split.
  - right. destruct (append_operands max c chosen Hmax Hchosen _ _ lo datas ls Hsound Hread Ho Hdl) as (lists & Hh & _); [lia|lia|].
    by exists lists.
  - intros v' Hv'. eapply (append_merged max c chosen Hmax Hchosen); [exact Hsound|exact Hread|exact Ho|exact Hdl|done|lia|lia|exact Hv'].
Qed.

Lemma written_sound cf k : sound_at cf (written cf k).
Proof.
  pose proof (ready_sound r Hr cf k) as Hs. unfold written.
  destruct (decide (cf ∈ handles handle)) as [Hin|Hn]; [|by rewrite (proj2 (proj2 Hb))].
  apply list_elem_of_fmap in Hin as (column & -> & _). pose proof (proj1 (proj2 Hb) column k) as Hsh. fold ops in Hsh.
  assert (Hbase : forall v, sound_at (handle column) (v, [])) by (intros v; unfold sound_at; destruct (decide _); [by left|done]).
  destruct (rocks_pend b column k) as [|v| |l] eqn:Hp; unfold shape in Hsh; try (rewrite Hsh; done).
  destruct Hsh as (Hi & _). unfold sound_at. rewrite Hi. rewrite decide_True by done.
  apply (inj handle) in Hi as ->. by apply (written_merge k l).
Qed.

Lemma written_effect column k v' :
  reads_as (operator r (handle column)) chosen (written (handle column) k) v' ->
  effect (om_find bytes_cmp k (entries r (handle column))) (rocks_pend b column k) v'.
Proof.
  intros Hv. pose proof (proj1 (proj2 Hb) column k) as Hsh. fold ops in Hsh.
  destruct (rocks_pend b column k) as [|v| |l] eqn:Hp; unfold shape in Hsh; cbn [effect].
  - unfold written in Hv. rewrite Hsh in Hv. eapply reads_as_unique; [done|by apply ready_sound|by apply ready_read|exact Hv].
  - unfold written in Hv. rewrite Hsh in Hv. by apply reads_as_base in Hv.
  - unfold written in Hv. rewrite Hsh in Hv. by apply reads_as_base in Hv.
  - destruct Hsh as (Hi & _). apply (inj handle) in Hi as ->. rewrite (ready_operator r Hr), decide_True in Hv by done.
    by apply (written_merge k l).
Qed.
End Write.

(** A database after writing nothing: compactions. *)
Lemma compacted r r' :
  db_ready r -> healthy r' ->
  (forall cf, operator r' cf = operator r cf /\ forall k, evolves (operator r cf) chosen (hist r cf k) (hist r' cf k)) ->
  db_ready r' /\ forall cf, entries r' cf = entries r cf.
Proof.
  intros Hr Hhealthy Hev. assert (Hr' : db_ready r').
  { split; [done| |].
    - intros cf. destruct (Hev cf) as [-> _]. by apply ready_operator.
    - intros cf k. destruct (Hev cf) as [_ Hk]. exact (sound_evolves r cf _ _ Hr (ready_sound r Hr cf k) (Hk k)). }
  split; [done|]. intros cf. apply (om_ext bytes_cmp); [by apply entries_sorted|by apply entries_sorted, ready_healthy|].
  intros k. destruct (Hev cf) as [Ho Hk].
  apply (reads_as_unique r cf (hist r cf k)); [done|by apply ready_sound|by apply ready_read|].
  apply (reads_back _ _ _ _ (Hk k)). rewrite <- Ho. by apply ready_read.
Qed.

Lemma silent_checked s : if silent s then checked s = None else exists st, checked s = Some st /\ OK st = ok s.
Proof.
  unfold silent, checked, SetStatusState. destruct (ok s); cbn [negb andb]; [by exists status_ok|].
  destruct (state_ s) as [msg|]; [by eexists|done].
Qed.

Lemma rocks_CompactRange_spec d column x y :
  rocks_wf d ->
  exists r, db_ d = Some r /\
    if silent (DB_CompactRange r (handle column) x y).1 then CompactRange d column x y = None
    else exists s d', CompactRange d column x y = Some (s, d') /\ rocks_wf d' /\
      forall column', rocks_content d' column' = rocks_content d column'.
Proof.
  intros (Hq & Hh & r & Hd & Hr). exists r. split; [done|]. unfold CompactRange. rewrite Hd, Hh, handle_lookup. cbn [mbind option_bind].
  destruct (DB_CompactRange_law r (handle column) x y (ready_healthy r Hr)) as (Hhealthy & Hev); [eauto|].
  destruct (DB_CompactRange r (handle column) x y) as [s r']. cbn [fst snd] in *.
  pose proof (silent_checked s) as Hs. destruct (silent s); [by rewrite Hs|]. destruct Hs as (st & -> & _). cbn [mbind option_bind].
  destruct (compacted r r' Hr Hhealthy Hev) as [Hr' He]. exists st, (set_db d (Some r')). split; [done|].
  split; [split; [done|]; split; [done|]; by exists r'|]. intros column'. unfold rocks_content. rewrite Hd. cbn [db_ set_db]. apply He.
Qed.

Lemma rocks_Flush_spec d b :
  rocks_wf d -> rocks_ok b -> room d b -> crowded d b = false ->
  exists r, db_ d = Some r /\
    if silent (DB_Write r (write_batch_ b)).1 then Rocks_FlushBuffer d b = None
    else exists s d', Rocks_FlushBuffer d b = Some (s, d') /\ rocks_wf d' /\ OK s = ok (DB_Write r (write_batch_ b)).1 /\
      if OK s
      then forall column k, effect (om_find bytes_cmp k (rocks_content d column)) (rocks_pend b column k)
             (om_find bytes_cmp k (rocks_content d' column))
      else forall column, rocks_content d' column = rocks_content d column.
Proof.
  intros (Hq & Hh & r & Hd & Hr) Hb Hroom Hnc. exists r. split; [done|]. unfold Rocks_FlushBuffer. rewrite Hd, Hq. cbn [mbind option_bind].
  pose proof (DB_Write_law r (write_batch_ b) (ready_healthy r Hr)) as Hw.
  pose proof (fun H => written_sound d b r Hd Hr Hb Hroom H Hnc) as Hs.
  pose proof (fun H => written_effect d b r Hd Hr Hb Hroom H Hnc) as He. cbv zeta in Hw.
  destruct (DB_Write r (write_batch_ b)) as [s r']. cbn [fst snd] in *.
  pose proof (silent_checked s) as Hst. destruct (silent s); [by rewrite Hst|].
  destruct Hst as (st & -> & Est). cbn [mbind option_bind].
  set (h' := fun cf k => if ok s then apply_ops cf k (batch_ops (write_batch_ b)) (hist r cf k) else hist r cf k) in *.
  assert (Hs' : forall cf k, sound_at cf (h' cf k)).
  { intros cf k. unfold h'. destruct (ok s); [by apply Hs|by apply ready_sound]. }
  destruct Hw as [Hhealthy Hev]; [intros cf k; apply sound_workable; [done|exact (Hs' cf k)]|].
  assert (Hr' : db_ready r').
  { split; [done| |].
    - intros cf. destruct (Hev cf) as [-> _]. by apply ready_operator.
    - intros cf k. destruct (Hev cf) as [_ Hk]. exact (sound_evolves r cf _ _ Hr (Hs' cf k) (Hk k)). }
  assert (Hback : forall cf k, reads_as (operator r cf) chosen (h' cf k) (om_find bytes_cmp k (entries r' cf))).
  { intros cf k. destruct (Hev cf) as [Ho Hk]. apply (reads_back _ _ _ _ (Hk k)). rewrite <- Ho. by apply ready_read. }
  exists st, (set_db d (Some r')). split; [done|]. split; [split; [done|]; split; [done|]; by exists r'|]. split; [done|].
  unfold rocks_content. rewrite Hd. cbn [db_ set_db]. rewrite Est. clear Hs' Hev. unfold h' in Hback. clear h'. destruct (ok s).
  - intros column k. apply He; [done|]. apply Hback.
  - intros column. apply (om_ext bytes_cmp); [by apply entries_sorted|by apply entries_sorted, ready_healthy|].
    intros k. apply (reads_as_unique r (handle column) (hist r (handle column) k)); [done|by apply ready_sound|by apply ready_read|apply Hback].
Qed.

(** ** The binding without the calls that stop *)

(** The same store, but a flush that would stop the process, or that would
    crowd a key, reports a failure and does nothing.  It has the laws of the
    write side; what the binding itself does is the same up to the first such
    call. *)
Definition calm_write_db : WriteDB Impl Buffer := {|
  NewWriteBuffer := @NewWriteBuffer _ _ my_write_db;
  FlushBuffer d b :=
    if crowded d b then Some (no_answer, d, b)
    else match Rocks_FlushBuffer d b with Some (s, d') => Some (s, d', b) | None => Some (no_answer, d, b) end
|}.

Lemma calm_FlushBuffer d b r :
  rocks_wf d -> db_ d = Some r -> silent (DB_Write r (write_batch_ b)).1 = false -> crowded d b = false ->
  @FlushBuffer _ _ calm_write_db d b = @FlushBuffer _ _ my_write_db d b.
Proof.
  intros (Hq & _) Hd Hs Hc. cbn [FlushBuffer calm_write_db my_write_db rocks_write_db]. rewrite Hc.
  unfold Rocks_FlushBuffer. rewrite Hd, Hq. cbn [mbind option_bind]. destruct (DB_Write r (write_batch_ b)) as [s r']. cbn [fst] in Hs.
  pose proof (silent_checked s) as Hst. rewrite Hs in Hst. by destruct Hst as (st & -> & _).
Qed.

Lemma silent_FlushBuffer d b r :
  rocks_wf d -> db_ d = Some r -> silent (DB_Write r (write_batch_ b)).1 = true -> Rocks_FlushBuffer d b = None.
Proof.
  intros (Hq & _) Hd Hs. unfold Rocks_FlushBuffer. rewrite Hd, Hq. cbn [mbind option_bind].
  destruct (DB_Write r (write_batch_ b)) as [s r']. cbn [fst] in Hs. pose proof (silent_checked s) as Hst. rewrite Hs in Hst. by rewrite Hst.
Qed.

(** The binding is a store: the laws of the write side. *)
Program Definition rocks_write_laws : @WriteLaws Impl Buffer rocks_db rocks_db_laws rocks_write_buffer calm_write_db := {|
  wb_ok := rocks_ok; doc_limit := max + 1; pend := rocks_pend |}.
Next Obligation. lia. Qed.
Next Obligation.
  cbn. unfold rocks_ok, rocks_pend. cbn [write_batch_ column_family_]. rewrite new_batch. done.
Qed.
Next Obligation.
  intros b column k v Hb. cbn [Put rocks_write_buffer]. by destruct (rocks_Put_spec b column k v Hb) as (s & b' & -> & ? & ?).
Qed.
Next Obligation.
  intros b column k Hb. cbn [Delete rocks_write_buffer]. by destruct (rocks_Delete_spec b column k Hb) as (s & b' & -> & ? & ?).
Qed.
Next Obligation. intros b k v l1 l2 Hb Hl Hv _. by apply rocks_Merge_spec. Qed.
Next Obligation. done. Qed.
Next Obligation.
  intros d b Hd Hb Hm. cbn [FlushBuffer calm_write_db]. destruct (crowded d b) eqn:Hc; [by exists no_answer, d, b|].
  destruct (rocks_Flush_spec d b Hd Hb Hm Hc) as (r & _ & Hf). destruct (silent _); [rewrite Hf; by exists no_answer, d, b|].
  destruct Hf as (s & d' & -> & Hd' & _ & He). by exists s, d', b.
Qed.
End Laws.

(** ** Opening *)
Section Opening.
Context {DB Batch CF F Snapshot : Type} `{!RocksDB DB Batch CF F Snapshot}.
Notation Impl := (VirtualDBRocksImpl DB Batch CF F).

(** The families a database is opened with: all columns, the operator on the
    inverted one. *)
Definition families (params : VDBParams F) (merger : MergeOp) : list (string * ColumnFamilyOptions F) :=
  map (fun column => (column_family_mapping column,
    mkFamilyOptions (match column with kInvertedIndexColumn => Some merger | _ => None end)
      (columns_compactionfilter params column))) columns.

Lemma Open_spec (d : Impl) :
  db_ d = None -> merger_ d = None -> 0 < max_doc_list_num_ (params_ d) ->
  let merger := DocListMergeOperator (max_doc_list_num_ (params_ d)) (codec_ (params_ d)) in
  let '(s, handles, db) := DB_Open (path (params_ d)) (families (params_ d) merger) in
  (ok s = true \/ state_ s <> None) ->
  exists d', Open d = Some (ok s, d') /\ db_ d' = db /\ column_famil_handles_ d' = handles /\
    merger_ d' = Some merger /\ params_ d' = params_ d /\ write_queue_ d' = write_queue_ d.
Proof.
  intros Hdb Hm Hmax merger. destruct d as [p db m hs fs wq msg]. cbn [db_ merger_ params_] in *. subst db m.
  assert (Hni : NewInstance p = Some merger) by (unfold NewInstance; by rewrite (proj2 (Z.ltb_lt _ _) Hmax)).
  unfold Open. cbn [db_]. change (set_families ?d []) with (mkRocks (Batch := Batch) p None None hs [] wq msg).
  assert (Hf : push_families columns (mkRocks (DB := DB) (Batch := Batch) (CF := CF) p None None hs [] wq msg) =
    Some (mkRocks p None (Some merger) hs (families p merger) wq msg)).
  { cbn. rewrite Hni. reflexivity. }
  rewrite Hf. cbn [mbind option_bind path params_ column_families_].
  destruct (DB_Open _ _) as [[s handles] db]. intros Hs. destruct (ok s) eqn:E; cbn [negb].
  - eexists. split; [done|]. done.
  - destruct (state_ s) as [msg'|]; [|by destruct Hs]. cbn [mbind option_bind]. eexists. split; [done|]. done.
Qed.

(** A database is opened once: after [Clear], and so after [DropDB], and after
    an attempt that failed, the assertion that there is no merger fails. *)
Lemma Open_again (d : Impl) : db_ d = None -> merger_ d <> None -> Open d = None.
Proof.
  intros Hdb Hm. unfold Open. rewrite Hdb. unfold push_families, columns, NewColumnFamilyOptions.
  cbn [mbind option_bind set_families merger_]. by destruct (merger_ d).
Qed.
End Opening.

(** ** A small library that keeps the promises *)
Module Model.

Record ModelDB := mkModel { operators : list (option MergeOp); data : list (Z * list (bytes * bytes)) }.

Definition operator_of (db : ModelDB) (cf : Z) : option MergeOp := mjoin (operators db !! Z.to_nat cf).

(** Every merge is a full merge on the spot. *)
Definition run_op (db : ModelDB) (o : batch_op Z) : option ModelDB :=
  match o with
  | BPut cf k v => Some (mkModel (operators db) (cf_set (data db) cf (om_insert bytes_cmp k v (cf_get (data db) cf))))
  | BDelete cf k => Some (mkModel (operators db) (cf_set (data db) cf (om_erase bytes_cmp k (cf_get (data db) cf))))
  | BDeleteRange cf b e =>
      Some (mkModel (operators db) (cf_set (data db) cf (List.filter (fun x => negb (in_range b e x.1)) (cf_get (data db) cf))))
  | BMerge cf k v =>
      op ← operator_of db cf;
      x ← full_merge op (cf_find (data db) cf k) [v];
      Some (mkModel (operators db) (cf_set (data db) cf (om_insert bytes_cmp k x (cf_get (data db) cf))))
  end.

Fixpoint run_ops (db : ModelDB) (ops : list (batch_op Z)) : option ModelDB :=
  match ops with
  | [] => Some db
  | o :: ops' => db ← run_op db o; run_ops db ops'
  end.

Definition status_ok : Status := mkRocksStatus 0 None.
Definition not_found : Status := mkRocksStatus 1 None.
Definition failed : Status := mkRocksStatus 2 (Some "write failed"%string).

Definition Model_Write (db : ModelDB) (b : list (batch_op Z)) : Status * ModelDB :=
  if Z.of_nat (length b) <? 2 ^ 32 - 1 then
    match run_ops db b with Some db' => (status_ok, db') | None => (failed, db) end
  else (failed, db).

Definition Model_Get (db : ModelDB) (sn : option ModelDB) (cf : Z) (k : bytes) : Status * bytes :=
  match cf_find (data (default db sn)) cf k with Some v => (status_ok, v) | None => (not_found, []) end.

Definition op_tuple (o : batch_op Z) : nat * Z * bytes * bytes :=
  match o with
  | BPut cf k v => (0%nat, cf, k, v)
  | BDelete cf k => (1%nat, cf, k, [])
  | BDeleteRange cf b e => (2%nat, cf, b, e)
  | BMerge cf k v => (3%nat, cf, k, v)
  end.
Definition op_of (t : nat * Z * bytes * bytes) : batch_op Z :=
  match t with
  | (0%nat, cf, k, v) => BPut cf k v
  | (1%nat, cf, k, _) => BDelete cf k
  | (2%nat, cf, b, e) => BDeleteRange cf b e
  | (_, cf, k, v) => BMerge cf k v
  end.

#[export] Instance model_rocks : RocksDB ModelDB (list (batch_op Z)) Z unit ModelDB := {|
  WriteBatch rep :=
    match rep with
    | Some [Z.pos p] => map op_of (default [] (decode (A := list (nat * Z * bytes * bytes)) p))
    | _ => []
    end;
  Batch_Put b cf k v := (status_ok, b ++ [BPut cf k v]);
  Batch_Delete b cf k := (status_ok, b ++ [BDelete cf k]);
  Batch_DeleteRange b cf x y := (status_ok, b ++ [BDeleteRange cf x y]);
  Batch_Merge b cf k v := (status_ok, b ++ [BMerge cf k v]);
  Batch_Append b b' := (status_ok, b ++ b');
  Batch_Data b := [Z.pos (encode (map op_tuple b))];
  Batch_GetDataSize b := Z.of_nat (length b);
  Batch_Count b := Z.of_nat (length b);
  DB_Open path families :=
    (status_ok, map Z.of_nat (seq 0 (length families)), Some (mkModel (map (fun f => merge_operator f.2) families) []));
  DestroyDB path := status_ok;
  DB_Write := Model_Write;
  DB_GetSnapshot db := db;
  DB_Get := Model_Get;
  DB_MultiGet db sn cfs ks := let r := zip_with (fun cf k => Model_Get db sn cf k) cfs ks in (map fst r, map snd r);
  DB_Seek db sn cf k := om_lower_bound bytes_cmp k (cf_get (data (default db sn)) cf);
  DB_CompactRange db cf x y := (status_ok, db)
|}.

Definition nothing_chosen : list bytes -> Prop := fun _ => False.

Lemma find_insert (m : list (Z * list (bytes * bytes))) cf' k' v cf k :
  cf_wf m -> cf_find (cf_set m cf' (om_insert bytes_cmp k' v (cf_get m cf'))) cf k =
  if decide (cf' = cf /\ k' = k) then Some v else cf_find m cf k.
Proof.
  intros Hm. rewrite cf_find_set by done. pose proof (cf_get_sorted m cf' Hm) as Hs.
  destruct (decide (cf = cf')) as [->|Hne]; [|by rewrite (decide_False (P := cf' = cf /\ k' = k)) by (by intros [-> _])].
  destruct (decide (k' = k)) as [->|Hk].
  - rewrite decide_True by done. by apply om_find_insert_eq; [typeclasses eauto|].
  - rewrite decide_False by (by intros [_ ?]). by apply om_find_insert_ne; [typeclasses eauto|..].
Qed.

Lemma find_erase (m : list (Z * list (bytes * bytes))) cf' k' cf k :
  cf_wf m -> cf_find (cf_set m cf' (om_erase bytes_cmp k' (cf_get m cf'))) cf k =
  if decide (cf' = cf /\ k' = k) then None else cf_find m cf k.
Proof.
  intros Hm. rewrite cf_find_set by done. pose proof (cf_get_sorted m cf' Hm) as Hs.
  destruct (decide (cf = cf')) as [->|Hne]; [|by rewrite (decide_False (P := cf' = cf /\ k' = k)) by (by intros [-> _])].
  rewrite (om_find_erase bytes_cmp) by done. destruct (bytes_cmp k k') eqn:E.
  1: apply (cmp_eq bytes_cmp) in E as ->; by rewrite decide_True.
  all: rewrite decide_False; [done|]; intros [_ ->]; by rewrite bytes_cmp_refl in E.
Qed.

Lemma find_filter (f : bytes -> bool) (m : list (bytes * bytes)) k :
  om_sorted bytes_cmp m ->
  om_find bytes_cmp k (List.filter (fun x => f x.1) m) = if f k then om_find bytes_cmp k m else None.
Proof.
  intros Hs. apply option_eq. intros v.
  rewrite (om_find_spec bytes_cmp) by (eapply StronglySorted_sublist; [apply sublist_list_filter|done]).
  rewrite list_elem_of_In, filter_In, <- list_elem_of_In, <- (om_find_spec bytes_cmp) by done. cbn [fst].
  destruct (f k); intuition congruence.
Qed.

(** What an operation does to a value is what it does to its history. *)
Lemma run_op_find db o db' :
  cf_wf (data db) -> run_op db o = Some db' ->
  cf_wf (data db') /\ operators db' = operators db /\
  forall cf k h, evolves (operator_of db cf) nothing_chosen h (cf_find (data db) cf k, []) ->
    evolves (operator_of db cf) nothing_chosen (apply_op cf k h o) (cf_find (data db') cf k, []).
Proof.
  intros Hwf. pose proof (fun cf => cf_get_sorted (data db) cf Hwf) as Hsort.
  assert (Hrefl : forall op h, evolves op nothing_chosen h h) by (intros [op|] h; [apply rtc_refl|done]).
  destruct o as [cf' k' v|cf' k'|cf' b e|cf' k' v]; cbn [run_op].
  - intros [= <-]. cbn [data operators]. split; [by apply cf_set_wf, (om_insert_sorted bytes_cmp)|]. split; [done|].
    intros cf k h He. cbn [apply_op]. rewrite find_insert by done. by destruct (decide _).
  - intros [= <-]. cbn [data operators]. split; [by apply cf_set_wf, (om_erase_sorted bytes_cmp)|]. split; [done|].
    intros cf k h He. cbn [apply_op]. rewrite find_erase by done. by destruct (decide _).
  - intros [= <-]. cbn [data operators]. split.
    { apply cf_set_wf; [done|]. eapply StronglySorted_sublist; [apply sublist_list_filter|apply Hsort]. }
    split; [done|]. intros cf k h He. cbn [apply_op]. rewrite cf_find_set by done.
    destruct (decide (cf = cf')) as [->|Hne]; [|by rewrite bool_decide_false].
    rewrite bool_decide_true by done. rewrite (find_filter (fun k => negb (in_range b e k))) by done. cbn [andb].
    by destruct (in_range b e k).
  - destruct (operator_of db cf') as [op|] eqn:Eop; cbn [mbind option_bind]; [|done].
    destruct (full_merge op _ _) as [x|] eqn:Ex; cbn [mbind option_bind]; [|done].
    intros [= <-]. cbn [data operators]. split; [by apply cf_set_wf, (om_insert_sorted bytes_cmp)|]. split; [done|].
    intros cf k h He. cbn [apply_op]. rewrite find_insert by done. destruct (decide _) as [[-> ->]|]; [|done].
    rewrite Eop in He |- *. cbn [evolves] in *. eapply rtc_r; [exact (collapses_app _ _ _ _ [v] He)|]. cbn [fst snd app].
    by apply (collapse_full op nothing_chosen _ [v] [] x).
Qed.

Lemma run_ops_find ops db db' :
  cf_wf (data db) -> run_ops db ops = Some db' ->
  cf_wf (data db') /\ operators db' = operators db /\
  forall cf k h, evolves (operator_of db cf) nothing_chosen h (cf_find (data db) cf k, []) ->
    evolves (operator_of db cf) nothing_chosen (apply_ops cf k ops h) (cf_find (data db') cf k, []).
Proof.
  revert db. induction ops as [|o ops IH]; intros db Hwf; cbn [run_ops]; [by intros [= <-]|].
  destruct (run_op db o) as [db1|] eqn:E; cbn [mbind option_bind]; [|done]. intros Hr.
  destruct (run_op_find db o db1 Hwf E) as (Hwf1 & Ho1 & H1). destruct (IH db1 Hwf1 Hr) as (Hwf' & Ho' & H').
  split; [done|]. split; [congruence|]. intros cf k h He.
  assert (Eo : operator_of db cf = operator_of db1 cf) by (unfold operator_of; by rewrite Ho1).
  rewrite Eo. apply H'. rewrite <- Eo. by apply H1.
Qed.

Lemma length_apply_ops (cf : Z) k ops (h : history) :
  (length (apply_ops cf k ops h).2 <= length h.2 + length ops)%nat.
Proof.
  revert h. induction ops as [|o ops IH]; intros h; [cbn; lia|]. cbn [apply_ops fold_left length].
  specialize (IH (apply_op cf k h o)). unfold apply_ops in IH.
  assert (length (apply_op cf k h o).2 <= S (length h.2))%nat; [|lia].
  destruct o; cbn [apply_op]; try (destruct (decide _); cbn; rewrite ?length_app; cbn; lia).
  destruct (_ && _); cbn; lia.
Qed.

Lemma op_of_tuple o : op_of (op_tuple o) = o.
Proof. by destruct o. Qed.

#[export] Program Instance model_laws : RocksLaws ModelDB (list (batch_op Z)) Z unit ModelDB := {|
  batch_ops b := b;
  healthy db := cf_wf (data db);
  operator := operator_of;
  chosen := nothing_chosen;
  hist db cf k := (cf_find (data db) cf k, []);
  entries db cf := cf_get (data db) cf
|}.
Next Obligation. done. Qed.
Next Obligation. done. Qed.
Next Obligation.
  intros b. cbn [WriteBatch Batch_Data model_rocks]. rewrite decode_encode. cbn [default from_option id].
  rewrite map_map. rewrite (map_ext _ (fun o => o)) by apply op_of_tuple. apply map_id.
Qed.
Next Obligation. done. Qed.
Next Obligation. done. Qed.
Next Obligation. done. Qed.
Next Obligation. done. Qed.
Next Obligation. done. Qed.
Next Obligation. intros db cf Hwf. by apply cf_get_sorted. Qed.
Next Obligation. intros db cf k _ _. destruct (operator_of db cf); cbn; [apply rtc_refl|done]. Qed.
Next Obligation. intros db cf k _ _. cbn. unfold Model_Get, cf_find. cbn. by destruct (om_find _ _ _). Qed.
Next Obligation. done. Qed.
Next Obligation. done. Qed.
Next Obligation.
  intros db b Hwf. cbv zeta. intros _.
  assert (Hrefl : forall op h, evolves op nothing_chosen h h) by (intros [op|] h; [apply rtc_refl|done]).
  cbn [DB_Write model_rocks]. unfold Model_Write. destruct (_ <? _); [|by split_and!].
  destruct (run_ops db b) as [db'|] eqn:E; [|by split_and!]. cbn [fst snd].
  destruct (run_ops_find b db db' Hwf E) as (Hwf' & Ho & Hf). split; [done|]. intros cf. split.
  - unfold operator_of. by rewrite Ho.
  - intros k. apply Hf, Hrefl.
Qed.
Next Obligation.
  intros db cf x y Hwf _. split; [done|]. intros cf'. split; [done|].
  intros k. cbn. destruct (operator_of db cf'); [apply rtc_refl|done].
Qed.
(** It gives every failure a message, and takes no batch that could crowd a key. *)
Lemma model_not_silent db b : silent (DB_Write (RocksDB := model_rocks) db b).1 = false.
Proof. cbn [DB_Write model_rocks]. unfold Model_Write. destruct (_ <? _); [|done]. by destruct (run_ops db b). Qed.

Lemma model_not_crowded handle (d : VirtualDBRocksImpl ModelDB (list (batch_op Z)) Z unit) b : crowded handle d b = false.
Proof.
  unfold crowded. destruct (db_ d) as [r|]; [|done]. cbn [DB_Write model_rocks batch_ops model_laws]. unfold Model_Write.
  destruct (Z.ltb_spec (Z.of_nat (length (write_batch_ b))) (2 ^ 32 - 1)) as [Hl|]; [|done].
  destruct (run_ops r (write_batch_ b)); [|done]. cbn [fst ok status_ok code_ Z.eqb andb].
  destruct (existsb _ _) eqn:E; [|done]. apply existsb_exists in E as (k & _ & Hk). unfold too_many in Hk.
  apply Z.leb_le in Hk. cbn [hist batch_ops model_laws] in Hk.
  pose proof (length_apply_ops (handle kInvertedIndexColumn) k (write_batch_ b) (cf_find (data r) (handle kInvertedIndexColumn) k, [])) as Hle.
  cbn [snd length] in Hle. lia.
Qed.
End Model.

(** ** Theorems *)

(** What [Get] answers for a value, and for a missing one. *)
Definition answer (v : option bytes) : SearchStatus * bytes :=
  match v with Some v => (status_ok, v) | None => (SetStatus kDocumentNotExistStatus "", []) end.

(** C11: flushing a buffer to RocksDB does to every key what the buffer says.  On
    an opened database whose inverted column merges document lists, with a
    buffer built by [Put], [Delete] and [Merge] that leaves no key with as many
    operands as 32 bits count: when RocksDB refuses the write with a status
    without a message the process stops, and in every other case [FlushBuffer]
    returns, with an OK status just when RocksDB did the write; every [Get]
    before and after it answers; and the answer after it is the old one changed
    by the pending operation of the key (put, delete, or the merge of document
    lists) if the status is OK, and the old one if it is not.  The database may
    compact before, during and after the write as it likes. *)
Theorem rocks_FlushBuffer_correct {DB Batch CF F Snapshot} `{RocksLaws DB Batch CF F Snapshot} handle `{!Inj (=) (=) handle}
    max c (d : VirtualDBRocksImpl DB Batch CF F) b :
  0 < max <= 100000000 -> moderate chosen -> rocks_wf handle max c d -> rocks_ok handle b -> room handle max d b ->
  crowded handle d b = false ->
  exists r, db_ d = Some r /\
    if silent (DB_Write r (write_batch_ b)).1 then Rocks_FlushBuffer d b = None
    else exists s d', Rocks_FlushBuffer d b = Some (s, d') /\ rocks_wf handle max c d' /\
      OK s = ok (DB_Write r (write_batch_ b)).1 /\
      forall column k, exists old new,
        Rocks_Get d column k None = Some (answer old) /\ Rocks_Get d' column k None = Some (answer new) /\
        if OK s then effect old (rocks_pend handle b column k) new else new = old.
Proof.
  intros Hmax Hch Hd Hb Hroom Hc.
  destruct (rocks_Flush_spec handle max c Hmax Hch d b Hd Hb Hroom Hc) as (r & Hr & Hf). exists r. split; [done|].
  destruct (silent _); [done|]. destruct Hf as (s & d' & Hf & Hd' & Hs & He). exists s, d'.
  split; [done|]. split; [done|]. split; [done|]. intros column k.
  exists (om_find bytes_cmp k (rocks_content handle d column)), (om_find bytes_cmp k (rocks_content handle d' column)).
  split; [by apply (rocks_Get_spec handle max c)|]. split; [by apply (rocks_Get_spec handle max c)|].
  destruct (OK s); [apply He|by rewrite He].
Qed.

(** Compacting a range changes no answer: whatever the database merges, every
    [Get] returns what it returned before.  Only when the compaction fails
    without a message, the process stops. *)
Theorem rocks_CompactRange_correct {DB Batch CF F Snapshot} `{RocksLaws DB Batch CF F Snapshot} handle `{!Inj (=) (=) handle}
    max c (d : VirtualDBRocksImpl DB Batch CF F) column x y :
  0 < max <= 100000000 -> moderate chosen -> rocks_wf handle max c d ->
  exists r, db_ d = Some r /\
    if silent (DB_CompactRange r (handle column) x y).1 then CompactRange d column x y = None
    else exists s d', CompactRange d column x y = Some (s, d') /\ rocks_wf handle max c d' /\
      forall column' k, Rocks_Get d' column' k None = Rocks_Get d column' k None /\ is_Some (Rocks_Get d column' k None).
Proof.
  intros Hmax Hch Hd. destruct (rocks_CompactRange_spec handle max c Hmax Hch d column x y Hd) as (r & Hr & Hf).
  exists r. split; [done|]. destruct (silent _); [done|]. destruct Hf as (s & d' & Hf & Hd' & He).
  exists s, d'. split; [done|]. split; [done|]. intros column' k.
  rewrite !(rocks_Get_spec handle max c Hmax Hch) by done. by rewrite He.
Qed.

(** A prepared buffer survives as bytes.  The bytes of a buffer make a new
    buffer with the same pending operation of every key, fit to be flushed. *)
Theorem saved_buffer_roundtrip {DB Batch CF F Snapshot} `{RocksLaws DB Batch CF F Snapshot} handle
    max c (d : VirtualDBRocksImpl DB Batch CF F) b :
  rocks_wf handle max c d -> rocks_ok handle b ->
  exists b', NewRocksBuffer d (Some (RocksBuffer_Data b)) = Some b' /\ rocks_ok handle b' /\
    forall column k, rocks_pend handle b' column k = rocks_pend handle b column k.
Proof.
  intros (_ & Hh & _) (_ & Hs & Hf). unfold NewRocksBuffer, new_WriteBufferRocksImpl, RocksBuffer_Data. rewrite Hh.
  pose proof (Batch_Data_header (write_batch_ b)) as Hne. pose proof (saved_batch (write_batch_ b)) as Hsave.
  destruct (Batch_Data (write_batch_ b)) as [|x rep]; [done|].
  eexists. split; [done|]. unfold rocks_ok, rocks_pend. cbn [write_batch_ column_family_]. by rewrite Hsave.
Qed.

(** *** A database of the small library *)
#[local] Existing Instances Model.model_rocks Model.model_laws.

Definition sample_params : VDBParams unit := mkParams "db" DocListCompressionVarLenBlockType 1000 (fun _ => None).

Definition opened : VirtualDBRocksImpl Model.ModelDB (list (batch_op Z)) Z unit :=
  match Open (Snapshot := Model.ModelDB) (new_VirtualDBRocksImpl sample_params None) with Some (_, d) => d | None => new_VirtualDBRocksImpl sample_params None end.

#[export] Instance column_num_inj' : Inj (=) (=) column_num.
Proof. intros x y. apply column_num_inj. Qed.

(** What the small library made of it. *)
Definition opened_db : Model.ModelDB :=
  Model.mkModel [None; Some (DocListMergeOperator 1000 DocListCompressionVarLenBlockType); None; None; None; None; None; None] [].

Lemma opened_db_eq : db_ opened = Some opened_db.
Proof. reflexivity. Qed.

Lemma opened_operator cf :
  Model.operator_of opened_db cf =
  if decide (cf = 1) then Some (DocListMergeOperator 1000 DocListCompressionVarLenBlockType) else None.
Proof.
  unfold Model.operator_of. destruct (decide (cf = 1)) as [->|Hne]; [done|]. cbn [Model.operators opened_db].
  generalize (DocListMergeOperator 1000 DocListCompressionVarLenBlockType). intros op.
  destruct (Z.to_nat cf) as [|[|n]] eqn:E; [done|lia|]. by do 6 (destruct n as [|n]; [done|]).
Qed.

Lemma opened_wf : rocks_wf column_num 1000 DocListCompressionVarLenBlockType opened.
Proof.
  split; [done|]. split; [done|]. exists opened_db. split; [exact opened_db_eq|]. split; [apply cf_wf_nil|exact opened_operator|].
  intros cf k. unfold sound_at. destruct (decide _); [by left|]; done.
Qed.

Definition sample_key : bytes := [1; 2; 3].
Definition list_a : bytes := default [] (write_doclist DocListCompressionFixType [(9, 0); (7, 0)]).
Definition list_b : bytes := default [] (write_doclist DocListCompressionFixType [(9, 1); (5, 0)]).

(** A document list and a correction of it, and a stored field. *)
Definition sample_ops (b : WriteBufferRocksImpl (list (batch_op Z)) Z) : option (SearchStatus * WriteBufferRocksImpl (list (batch_op Z)) Z) :=
  '(_, b) ← RocksBuffer_Merge (Snapshot := Model.ModelDB) b kInvertedIndexColumn sample_key list_a;
  '(_, b) ← RocksBuffer_Merge (Snapshot := Model.ModelDB) b kInvertedIndexColumn sample_key list_b;
  RocksBuffer_Put (Snapshot := Model.ModelDB) b kStoredFieldColumn sample_key [42].

Definition sample_buffer : WriteBufferRocksImpl (list (batch_op Z)) Z :=
  match sample_ops (mkRocksBuffer [] (map column_num columns)) with
  | Some (_, b) => b
  | None => mkRocksBuffer [] (map column_num columns)
  end.

Lemma empty_ok : rocks_ok column_num (mkRocksBuffer ([] : list (batch_op Z)) (map column_num columns)).
Proof. done. Qed.

Lemma small_doclist l :
  wf_docs l -> Z.of_nat (length l) < 2 ^ 32 -> is_doclist (default [] (write_doclist DocListCompressionFixType l)) l.
Proof.
  intros Hwf Hlen. destruct (is_doclist_write DocListCompressionFixType l Hwf Hlen) as (v & -> & Hv). exact Hv.
Qed.

Ltac small_list := apply small_doclist; [|cbn; lia]; unfold wf_docs, wf_entries, entry_gt, NO_MORE_DOCS;
  repeat split; repeat constructor; cbn; try lia; unfold is_u64; cbn; lia.

Lemma sample_max : 0 < 1000 <= 100000000.
Proof. lia. Qed.

Lemma sample_chosen : moderate (chosen (RocksLaws := Model.model_laws)).
Proof. intros run lists []. Qed.

Lemma sample_buffer_ok :
  rocks_ok column_num sample_buffer /\ rocks_pend column_num sample_buffer kInvertedIndexColumn sample_key = PMerge [(9, 1); (7, 0); (5, 0)] /\
  forall k l, rocks_pend column_num sample_buffer kInvertedIndexColumn k = PMerge l -> Z.of_nat (length l) <= 3.
Proof.
  set (b0 := mkRocksBuffer ([] : list (batch_op Z)) (map column_num columns)).
  destruct (rocks_Merge_spec column_num 1000 sample_max sample_chosen b0 sample_key list_a [] [(9, 0); (7, 0)]) as (s1 & b1 & E1 & H1 & P1);
    [apply empty_ok|by right|small_list|].
  assert (Hp1 : OK s1 = true) by (cbn in E1; by injection E1 as <- _). specialize (P1 Hp1).
  destruct (rocks_Merge_spec column_num 1000 sample_max sample_chosen b1 sample_key list_b [(9, 0); (7, 0)] [(9, 1); (5, 0)]) as (s2 & b2 & E2 & H2 & P2);
    [done|left; by rewrite P1|small_list|].
  assert (Hp2 : OK s2 = true) by (cbn in E1; injection E1 as ? <-; cbn in E2; by injection E2 as <- _). specialize (P2 Hp2).
  destruct (rocks_Put_spec column_num 1000 sample_max sample_chosen b2 kStoredFieldColumn sample_key [42] H2) as (s3 & b3 & E3 & H3 & P3).
  assert (sample_buffer = b3 /\ OK s3 = true) as [-> Hs3].
  { unfold sample_buffer, sample_ops. fold b0. rewrite E1. cbn [mbind option_bind]. rewrite E2. cbn [mbind option_bind]. rewrite E3.
    split; [done|]. cbn in E1. injection E1 as ? <-. cbn in E2. injection E2 as ? <-. cbn in E3. by injection E3 as <- _. }
  specialize (P3 Hs3). split; [done|]. split; [by rewrite P3, P2|].
  intros k l. rewrite P3, P2, P1. destruct (decide _) as [[? _]|_]; [done|].
  destruct (decide _) as [_|N]; [by intros [= <-]|]. done.
Qed.

Lemma sample_room : room column_num 1000 opened sample_buffer.
Proof.
  intros k l Hp. exists []. split; [left; split; [vm_compute; reflexivity|done]|].
  pose proof (proj2 (proj2 sample_buffer_ok) k l Hp). cbn [length]. lia.
Qed.

Lemma opened_empty : Rocks_Get opened kInvertedIndexColumn sample_key None = Some (answer None).
Proof. vm_compute. reflexivity. Qed.

(** The status of a flush, and the list read back. *)
Definition outcome (r : option (SearchStatus * VirtualDBRocksImpl Model.ModelDB (list (batch_op Z)) Z unit)) :
    option (bool * option (option (list (Z * Z)))) :=
  '(s, d') ← r;
  Some (OK s, option_map (fun r => read_doclist r.2) (Rocks_Get d' kInvertedIndexColumn sample_key None)).

Lemma sample_outcome : outcome (Rocks_FlushBuffer opened sample_buffer) = Some (true, Some (Some [(7, 0); (5, 0)])).
Proof. vm_compute. reflexivity. Qed.

Lemma outcome_inv s d' x y : outcome (Some (s, d')) = Some (x, y) ->
  OK s = x /\ option_map (fun r => read_doclist r.2) (Rocks_Get d' kInvertedIndexColumn sample_key None) = y.
Proof. intros E. by injection E. Qed.

Lemma rocks_FlushBuffer_correct_witness :
  exists s d', Rocks_FlushBuffer opened sample_buffer = Some (s, d') /\ OK s = true /\
    exists v, Rocks_Get d' kInvertedIndexColumn sample_key None = Some (status_ok, v) /\
      merged None [(9, 1); (7, 0); (5, 0)] (Some v) /\ read_doclist v = Some [(7, 0); (5, 0)].
Proof.
  destruct (rocks_FlushBuffer_correct column_num 1000 DocListCompressionVarLenBlockType opened sample_buffer)
    as (r & Hr & Hf); [exact sample_max|exact sample_chosen|exact opened_wf|apply sample_buffer_ok|exact sample_room|apply Model.model_not_crowded|].
  rewrite Model.model_not_silent in Hf. destruct Hf as (s & d' & Hf & Hd' & _ & Hk).
  pose proof sample_outcome as Hrun. rewrite Hf in Hrun. apply outcome_inv in Hrun as [Hs Hread].
  destruct (Hk kInvertedIndexColumn sample_key) as (old & new & Ho & Hn & He). rewrite Hs in He.
  rewrite (proj1 (proj2 sample_buffer_ok)) in He.
  assert (old = None) as ->.
  { rewrite opened_empty in Ho. by destruct old. }
  exists s, d'. split; [exact Hf|]. split; [exact Hs|]. rewrite Hn in Hread. destruct new as [v|].
  - exists v. cbn in Hread. split; [exact Hn|]. split; [exact He|]. by injection Hread.
  - destruct He as (lo & v & lf & _ & Hv & _). discriminate Hv.
Defined.

Lemma rocks_CompactRange_correct_witness :
  exists s d', CompactRange opened kInvertedIndexColumn [] [1] = Some (s, d') /\
    Rocks_Get d' kInvertedIndexColumn sample_key None = Some (answer None).
Proof.
  destruct (rocks_CompactRange_correct column_num 1000 DocListCompressionVarLenBlockType opened kInvertedIndexColumn [] [1]
    sample_max sample_chosen opened_wf) as (r & _ & s & d' & Hf & _ & Hk).
  exists s, d'. split; [exact Hf|]. rewrite (proj1 (Hk kInvertedIndexColumn sample_key)). exact opened_empty.
Defined.

Lemma saved_buffer_roundtrip_witness :
  exists b', NewRocksBuffer opened (Some (RocksBuffer_Data sample_buffer)) = Some b' /\
    rocks_pend column_num b' kInvertedIndexColumn sample_key = PMerge [(9, 1); (7, 0); (5, 0)].
Proof.
  destruct (saved_buffer_roundtrip column_num 1000 DocListCompressionVarLenBlockType opened sample_buffer opened_wf (proj1 sample_buffer_ok))
    as (b' & Hb & _ & Hp).
  exists b'. split; [exact Hb|]. rewrite Hp. apply sample_buffer_ok.
Defined.
