(* ===== verification/RocksCorrect.v ===== *)
(** The engine on RocksDB: writing, compacting and searching together.

    The binding is a store ([RocksDB]), so everything proved for stores holds on
    it; here the theorems meet the one thing stores do not have in general,
    compactions on demand. *)
From Stdlib Require String.
From S2P Require Import Prelude Storage Coding Codec DocList MergeOperator Iterators VirtualDB Query WriteDB MergeSchedule VirtualDBMock.
From S2P Require Import Document Tokenizer DocumentWriter IndexWriter TermDiff IndexConsistency IndexCorrect RocksDB Library.

(** Consistency is a matter of the stored entries. *)
Lemma consistent_same_content {DB1 DB2} `{VirtualDBLaws DB1} `{VirtualDBLaws DB2} `{StoreProto} config table (db1 : DB1) (db2 : DB2) :
  (forall c, content db2 c = content db1 c) -> consistent config table db1 -> consistent config table db2.
Proof.
  intros E [H1' H2' H3']. split.
  - intros k v. rewrite E. apply H1'.
  - intros d v. rewrite E. apply H2'.
  - intros f t d Hf Hd. rewrite E. rewrite H3' by done. unfold stored_doc. by setoid_rewrite E.
Qed.

Section Engine.
Context {DB Batch CF F Snapshot : Type} `{RocksLaws DB Batch CF F Snapshot, StoreProtoLaws, TokenizerLaws}.
Context (handle : StorageColumnType -> CF) `{!Inj (=) (=) handle}.
Context (max : Z) (c : DocListCompressionType) (Hmax : 0 < max <= 100000000) (Hchosen : moderate chosen).

#[local] Existing Instances rocks_db rocks_write_buffer.
#[local] Instance engine_write_db : WriteDB (VirtualDBRocksImpl DB Batch CF F) (WriteBufferRocksImpl Batch CF) := rocks_write_db handle.
#[local] Instance engine_db_laws : VirtualDBLaws (VirtualDBRocksImpl DB Batch CF F) := rocks_db_laws handle max c Hmax Hchosen.
#[local] Instance engine_write_laws : @WriteLaws (VirtualDBRocksImpl DB Batch CF F) (WriteBufferRocksImpl Batch CF) _ _ _ (calm_write_db handle) :=
  rocks_write_laws handle max c Hmax Hchosen.

Lemma engine_wf (d : VirtualDBRocksImpl DB Batch CF F) : db_wf d = rocks_wf handle max c d.
Proof. unfold db_wf, engine_db_laws, rocks_db_laws. reflexivity. Qed.

Lemma engine_content (d : VirtualDBRocksImpl DB Batch CF F) column : content d column = rocks_content handle d column.
Proof. unfold content, engine_db_laws, rocks_db_laws. reflexivity. Qed.

(** A write that is answered, and that crowds no key, is one of the store on
    which no call stops. *)
Lemma answered_calm codec config table (d : VirtualDBRocksImpl DB Batch CF F) documents mode res :
  rocks_wf handle max c d ->
  (forall b, flushed codec config table d documents mode = Some b -> crowded handle d b = false) ->
  InnerWriteDocuments codec config d table documents None mode = Some res ->
  @InnerWriteDocuments _ _ _ _ (calm_write_db handle) _ _ codec config d table documents None mode = Some res.
Proof.
  intros Hd Hc Hw. pose proof Hd as (_ & _ & r & Hr & _).
  pose proof (flushed_run (@FlushBuffer _ _ (calm_write_db handle)) codec config table d documents mode) as Hrun.
  rewrite Hw in Hrun. symmetry. apply Hrun. destruct (flushed codec config table d documents mode) as [b|] eqn:Eb; [|done].
  symmetry. apply (calm_FlushBuffer handle max c d b r Hd Hr); [|by apply Hc].
  destruct (silent _) eqn:Es; [|done]. exfalso. pose proof (silent_FlushBuffer handle max c d b r Hd Hr Es) as Hn.
  rewrite (flushed_stops codec config table d documents mode b Eb) in Hw; [done|]. cbn [FlushBuffer engine_write_db rocks_write_db]. by rewrite Hn.
Qed.

(** Compactions are invisible to the engine.  On RocksDB, from a database
    whose index is consistent, after an accepted batch of documents that crowds
    no key and a compaction of any range that returns, the index is consistent
    and a query returns exactly the ids of the documents stored by then that
    match it; whatever RocksDB merged in the background on the way. *)
Theorem write_compact_search codec config table (d : VirtualDBRocksImpl DB Batch CF F) documents mode d' documents' column x y s d'' q :
  wf_table table -> rocks_wf handle max c d -> consistent config table d ->
  @write_input _ _ _ _ _ _ engine_write_laws _ _ table d documents mode ->
  (forall b, flushed codec config table d documents mode = Some b -> crowded handle d b = false) ->
  InnerWriteDocuments codec config d table documents None mode = Some (true, d', documents', None) ->
  CompactRange d' column x y = Some (s, d'') ->
  query_bytes q = true -> query_ok (rocks_content handle d' kInvertedIndexColumn) table q = true ->
  exists out, rocks_wf handle max c d'' /\ consistent config table d'' /\
    run_query d'' table q = Some (status_ok, Some out) /\
    forall id, id ∈ map fst out <-> is_u64 id /\ exists doc, stored_doc table d' id doc /\ doc_matches config doc q = true.
Proof.
  intros Htable Hd Hcon Hwi Hnc Hw Hcomp Hb Hq. pose proof (answered_calm _ _ _ _ _ _ _ Hd Hnc Hw) as Hwc. rewrite <- engine_wf in Hd.
  destruct (@InnerWriteDocuments_spec _ _ _ _ _ _ engine_write_laws _ _ _ _ codec config table Htable d documents mode Hd Hcon Hwi)
    as (ok & d2 & docs2 & Hw2 & Hd' & Hr). rewrite Hwc in Hw2. injection Hw2 as <- <- <-.
  destruct Hr as (docs2 & D & _ & _ & _ & HbD & Hold & Heff).
  pose proof (batch_consistent config table Htable d d' D Hcon HbD Heff Hold) as Hcon'. rewrite engine_wf in Hd'.
  destruct (rocks_CompactRange_spec handle max c Hmax Hchosen d' column x y Hd') as (r & _ & Hc). rewrite Hcomp in Hc.
  destruct (silent _); [done|]. destruct Hc as (s' & d2 & [= <- <-] & Hd'' & Ec).
  assert (E : forall column, content d'' column = content d' column) by (intros k; rewrite !engine_content; apply Ec).
  assert (Hcon'' : consistent config table d'') by exact (consistent_same_content config table d' d'' E Hcon').
  rewrite <- engine_wf in Hd''. destruct (search_spec config table Htable d'' Hd'' Hcon'' q Hb) as (out & Hrun & _ & Hout).
  { by rewrite E, engine_content. }
  rewrite engine_wf in Hd''. exists out. split; [done|]. split; [done|]. split; [done|].
  intros id. rewrite Hout. unfold hit, stored_doc. by rewrite E.
Qed.
End Engine.

(** ** On the small library *)
#[local] Existing Instances Model.model_rocks Model.model_laws number_store_proto number_store_proto_laws
  TokenizerSpaceImpl.tokenizer space_laws.
#[local] Instance model_write_buffer : WriteBuffer (WriteBufferRocksImpl (list (batch_op Z)) Z) :=
  rocks_write_buffer (Snapshot := Model.ModelDB).
#[local] Instance model_db : VirtualDB (VirtualDBRocksImpl Model.ModelDB (list (batch_op Z)) Z unit) :=
  rocks_db (Snapshot := Model.ModelDB).
#[local] Instance model_write_db :
    WriteDB (VirtualDBRocksImpl Model.ModelDB (list (batch_op Z)) Z unit) (WriteBufferRocksImpl (list (batch_op Z)) Z) :=
  engine_write_db column_num.

Definition model_run : option (bool * VirtualDBRocksImpl Model.ModelDB (list (batch_op Z)) Z unit * list DocumentUpdater * option bytes) :=
  InnerWriteDocuments DocListCompressionVarLenBlockType default_config opened sample_table sample_batch None kDocumentAddType.

Definition written_db : VirtualDBRocksImpl Model.ModelDB (list (batch_op Z)) Z unit :=
  match model_run with Some (_, d, _, _) => d | None => opened end.

(** The ids found after the batch was written and everything compacted. *)
Definition found (q : Query) : option (list Z) :=
  '(_, d) ← CompactRange (Snapshot := Model.ModelDB) written_db kInvertedIndexColumn [] [255];
  '(_, out) ← run_query d sample_table q;
  map fst <$> out.

Definition you_query : Query := QAnd [QBoolean (BooleanQuery_term 1 [104; 105]); QBoolean (BooleanQuery_uint32 2 77)].

Example found_sample : found you_query = Some [42; 7].
Proof. vm_compute. reflexivity. Qed.

Definition model_documents : list DocumentUpdater := match model_run with Some (_, _, l, _) => l | None => [] end.

Lemma model_accepted : model_run = Some (true, written_db, model_documents, None).
Proof.
  assert (E : match model_run with Some (ok, _, _, None) => ok | _ => false end = true) by (vm_compute; reflexivity).
  unfold written_db, model_documents. destruct model_run as [[[[ok d] l] [b|]]|]; try done. by rewrite E.
Qed.

#[local] Instance model_db_laws : VirtualDBLaws (VirtualDBRocksImpl Model.ModelDB (list (batch_op Z)) Z unit) :=
  engine_db_laws column_num 1000 DocListCompressionVarLenBlockType sample_max sample_chosen.
#[local] Instance model_write_laws :
    @WriteLaws (VirtualDBRocksImpl Model.ModelDB (list (batch_op Z)) Z unit) (WriteBufferRocksImpl (list (batch_op Z)) Z)
      _ _ _ (calm_write_db column_num) :=
  engine_write_laws column_num 1000 DocListCompressionVarLenBlockType sample_max sample_chosen.

Lemma opened_content column : content opened column = [].
Proof. by destruct column. Qed.

Lemma opened_consistent : consistent default_config sample_table opened.
Proof. apply (consistent_same_content default_config sample_table empty_db opened); [apply opened_content|exact empty_consistent]. Qed.

Lemma opened_input : @write_input _ _ _ _ _ _ model_write_laws _ _ sample_table opened sample_batch kDocumentAddType.
Proof.
  destruct sample_input as [H1 H2 H3 _ _]. split; [exact H1|exact H2|exact H3| |done].
  intros k. exists []. split; [left; split; [by rewrite opened_content|done]|vm_compute; reflexivity].
Qed.

Lemma written_query_ok :
  query_ok (rocks_content (Snapshot := Model.ModelDB) column_num written_db kInvertedIndexColumn) sample_table you_query = true.
Proof. vm_compute. reflexivity. Qed.

Definition compact_all (d : VirtualDBRocksImpl Model.ModelDB (list (batch_op Z)) Z unit) :=
  CompactRange (Snapshot := Model.ModelDB) d kInvertedIndexColumn [] [255].

Definition compacted_db : VirtualDBRocksImpl Model.ModelDB (list (batch_op Z)) Z unit :=
  match compact_all written_db with Some (_, d) => d | None => opened end.

Lemma model_compacted : exists s, compact_all written_db = Some (s, compacted_db).
Proof.
  assert (E : match compact_all written_db with Some _ => true | None => false end = true) by (vm_compute; reflexivity).
  unfold compacted_db. destruct (compact_all written_db) as [[s d]|]; [by exists s|done].
Qed.

#[local] Opaque InnerWriteDocuments run_query CompactRange written_db compacted_db opened.

Lemma write_compact_search_witness :
  exists out, run_query compacted_db sample_table you_query = Some (status_ok, Some out) /\
    forall id, id ∈ map fst out <-> is_u64 id /\
      exists doc, stored_doc sample_table written_db id doc /\ doc_matches default_config doc you_query = true.
Proof.
  destruct model_compacted as (s & Hs).
  destruct (write_compact_search column_num 1000 DocListCompressionVarLenBlockType sample_max sample_chosen
    DocListCompressionVarLenBlockType default_config sample_table opened sample_batch kDocumentAddType written_db model_documents
    kInvertedIndexColumn [] [255] s compacted_db you_query sample_table_wf opened_wf opened_consistent opened_input
    (fun b _ => Model.model_not_crowded column_num opened b) model_accepted Hs eq_refl written_query_ok)
    as (out & _ & _ & H2 & H3).
  exists out. split; [exact H2|exact H3].
Defined.
