(* ===== verification/IndexWrapper.v ===== *)
(** The engine put together: [index_wrapper.h/.cpp], with the configuration
    ([index_config.h/.cpp]) and the opening of the index writer.

    The wrapper picks the store, the codec and the tokenizer.  Stores are objects
    that the wrapper and its configuration point to, so they live in a list of
    objects and a pointer is a position.  The file system is a function from paths to
    contents.  What is opened serves requests as [Library] specifies, from the
    dictionary made of a corpus to the answers of a query, on the mock store and
    on RocksDB.  [None] is a failed assertion, a null dereference or an access
    out of bounds; logging and the destructor are left out. *)
From Stdlib Require Ascii String.
Import String.StringSyntax.
From S2P Require Import Prelude Double IniParser Darts Corpus Storage Coding Codec DocList MergeOperator Iterators VirtualDB WriteDB MergeSchedule VirtualDBMock.
From S2P Require Import Query Document Utf8 Tagger MMThunk Segmenter SegmentCorrect Tokenizer CorpusText DocumentWriter IndexWriter TermDiff IndexConsistency IndexCorrect RocksDB Library.

(** ** Objects behind interfaces *)
Inductive AnyTokenizer :=
| ATokenizerSpaceImpl
| ATokenizerMMSEG (managers_ : list SegmenterManager).

Definition tokenizer_of (log_ : spec_float -> spec_float) (seq_ : Z) (t : AnyTokenizer) : Tokenizer :=
  match t with
  | ATokenizerSpaceImpl => TokenizerSpaceImpl.tokenizer
  | ATokenizerMMSEG managers_ => TokenizerMMSEG.tokenizer log_ managers_ seq_
  end.

(** A store on RocksDB has a pointer to its parameters: [own] tells that they are
    the wrapper's. *)
Inductive AnyVirtualDB (DB Batch CF F : Type) :=
| AVirtualDBMock (codec_ : DocListCompressionType) (db : MockDB)
| AVirtualDBRocksImpl (own : bool) (d : VirtualDBRocksImpl DB Batch CF F).
Arguments AVirtualDBMock {DB Batch CF F}.
Arguments AVirtualDBRocksImpl {DB Batch CF F}.

Definition pointer : Type := nat.

(** ** [IndexConfig] *)
Module Config.
Record t := mkT {
  codec_ : option DocListCompressionType;
  vdb_ : option pointer;
  tokenizer_ : option AnyTokenizer;
  limits : IndexConfig;
  log_level_ : Z
}.

Definition kSearchLogLevelError : Z := 1.

Definition create : t := mkT None None None Storage.default_config kSearchLogLevelError.

(** A codec and a store are set once, and a tokenizer is not unset. *)
Definition SetCodec (c : t) (codec : option DocListCompressionType) : bool * t :=
  match codec_ c with
  | Some _ => (false, c)
  | None => (true, mkT codec (vdb_ c) (tokenizer_ c) (limits c) (log_level_ c))
  end.

Definition SetVirtualDB (c : t) (vdb : option pointer) : bool * t :=
  match vdb_ c with
  | Some _ => (false, c)
  | None => (true, mkT (codec_ c) vdb (tokenizer_ c) (limits c) (log_level_ c))
  end.

Definition SetTokenizer (c : t) (tokenizer : option AnyTokenizer) : bool * t :=
  match tokenizer with
  | None => (false, c)
  | Some _ => (true, mkT (codec_ c) (vdb_ c) tokenizer (limits c) (log_level_ c))
  end.

Definition SetLogLevel (c : t) (log_level : Z) : bool * t := (true, mkT (codec_ c) (vdb_ c) (tokenizer_ c) (limits c) log_level).

Definition set_limits (c : t) (l : IndexConfig) : t := mkT (codec_ c) (vdb_ c) (tokenizer_ c) l (log_level_ c).

(** The setters of the limits have a result, but return none. *)
Definition SetMinSuffixBuildLen (c : t) (min_len : Z) : t :=
  let l := limits c in
  set_limits c (Storage.mkConfig min_len (max_suffix_term_size_ l) (max_write_batch_size_ l) (max_inner_purge_batch_docs_count_ l)
    (max_inner_purge_docs_total_limit_ l)).
Definition SetMaxSuffixTermSize (c : t) (max_suffix_term_size : Z) : t :=
  let l := limits c in
  set_limits c (Storage.mkConfig (min_suffix_build_len_ l) max_suffix_term_size (max_write_batch_size_ l) (max_inner_purge_batch_docs_count_ l)
    (max_inner_purge_docs_total_limit_ l)).
Definition SetMaxWriteBatchSize (c : t) (max_write_batch_size : Z) : t :=
  let l := limits c in
  set_limits c (Storage.mkConfig (min_suffix_build_len_ l) (max_suffix_term_size_ l) max_write_batch_size (max_inner_purge_batch_docs_count_ l)
    (max_inner_purge_docs_total_limit_ l)).
Definition SetMaxInnerPurgeBatchDocsCount (c : t) (max_inner_purge_batch_docs_count : Z) : t :=
  let l := limits c in
  set_limits c (Storage.mkConfig (min_suffix_build_len_ l) (max_suffix_term_size_ l) (max_write_batch_size_ l) max_inner_purge_batch_docs_count
    (max_inner_purge_docs_total_limit_ l)).
Definition SetMaxInnerPurgeDocsTotalLimit (c : t) (max_inner_purge_docs_total_limit : Z) : t :=
  let l := limits c in
  set_limits c (Storage.mkConfig (min_suffix_build_len_ l) (max_suffix_term_size_ l) (max_write_batch_size_ l)
    (max_inner_purge_batch_docs_count_ l) max_inner_purge_docs_total_limit).
End Config.

(** [IndexWriter::Open]: the writer keeps the first configuration it is given. *)
Definition IndexWriter_Open {P : Type} (config_ config : option P) : bool * option P :=
  match config, config_ with
  | Some _, None => (true, config)
  | _, _ => (false, config_)
  end.

(** ** The dictionary directory *)
Definition file_system : Type := bytes -> option bytes.

Definition slash : Z := 47.
Definition nLen_limit : nat := 1024.

(** The path in the buffer of [SegmenterManager::init]: it ends in a slash and
    leaves room for the longest name with its end. *)
Definition dict_directory (fs : file_system) (path : bytes) : option SegmenterManager.directory :=
  lst ← last path;
  let buf := if lst =? slash then path else path ++ [slash] in
  if (nLen_limit <=? length buf + length SegmenterManager.g_ngram_unigram_dict_name)%nat then None
  else Some (fun name => fs (buf ++ name)).

Definition default_dict_dir : bytes := [46; 47].
Definition default_instances : Z := 10.

Section Wrapper.
Context {DB Batch CF F Snapshot : Type} `{!RocksDB DB Batch CF F Snapshot}.
Notation AnyDB := (AnyVirtualDB DB Batch CF F).

(** ** [DefaultIndexWrapper] *)

(** [VDBParams], as far as the wrapper and the binding read it. *)
Record DBParams := mkDBParams {
  dp_path : string;
  dp_mmseg_dict_dir_ : bytes;
  dp_mmseg_instance_num_ : Z;
  dp_columns_compactionfilter : StorageColumnType -> option F;
  dp_codec_ : option DocListCompressionType;
  dp_max_doc_list_num_ : Z
}.

Record DefaultIndexWrapper := mkWrapper {
  params_ : DBParams;
  codec_ : option DocListCompressionType;
  vdb_ : option pointer;
  tokenizer_ : option AnyTokenizer;
  config_ : Config.t;
  index_writer_ : option (option unit);
  objects : list AnyDB
}.

Definition create (params : DBParams) : DefaultIndexWrapper := mkWrapper params None None None Config.create None [].

Definition SetVdb (w : DefaultIndexWrapper) (vdb : option pointer) : DefaultIndexWrapper :=
  mkWrapper (params_ w) (codec_ w) vdb (tokenizer_ w) (config_ w) (index_writer_ w) (objects w).

(** What a store on RocksDB reads of the parameters. *)
Definition rocks_params (p : DBParams) (codec : DocListCompressionType) : VDBParams F :=
  mkParams (dp_path p) codec (dp_max_doc_list_num_ p) (dp_columns_compactionfilter p).

Definition set_params (d : VirtualDBRocksImpl DB Batch CF F) (p : VDBParams F) : VirtualDBRocksImpl DB Batch CF F :=
  mkRocks p (db_ d) (merger_ d) (column_famil_handles_ d) (column_families_ d) (write_queue_ d) (msg_if_error d).

(** The codec is made, and the parameters point to it. *)
Definition set_codec (w : DefaultIndexWrapper) (codec : DocListCompressionType) : DefaultIndexWrapper :=
  let p := params_ w in
  mkWrapper (mkDBParams (dp_path p) (dp_mmseg_dict_dir_ p) (dp_mmseg_instance_num_ p) (dp_columns_compactionfilter p) (Some codec)
    (dp_max_doc_list_num_ p)) (Some codec) (vdb_ w) (tokenizer_ w) (config_ w) (index_writer_ w) (objects w).

(** A store is made when there is none. *)
Definition make_vdb (w : DefaultIndexWrapper) (use_rocksdb : bool) (codec : DocListCompressionType) : DefaultIndexWrapper :=
  match vdb_ w with
  | Some _ => w
  | None =>
      let vdb := if use_rocksdb then AVirtualDBRocksImpl true (new_VirtualDBRocksImpl (rocks_params (params_ w) codec) None)
                 else AVirtualDBMock codec [] in
      mkWrapper (params_ w) (codec_ w) (Some (length (objects w))) (tokenizer_ w) (config_ w) (index_writer_ w) (objects w ++ [vdb])
  end.

(** [vdb_->Open()], and the state on failure. *)
Definition open_vdb (p : DBParams) (codec : DocListCompressionType) (vdb : AnyDB) : option (bool * string * AnyDB) :=
  match vdb with
  | AVirtualDBMock _ _ => Some (true, ""%string, vdb)
  | AVirtualDBRocksImpl own d =>
      let d := if own : bool then set_params d (rocks_params p codec) else d in
      '(ok, d) ← RocksDB.Open d;
      Some (ok, msg_if_error d, AVirtualDBRocksImpl own d)
  end.

(** The tokenizer: the segmenter when its dictionary is there, else blanks. *)
Definition make_tokenizer (fs : file_system) (p : DBParams) : option AnyTokenizer :=
  let dict_dir := match dp_mmseg_dict_dir_ p with [] => default_dict_dir | d => d end in
  match fs (dict_dir ++ [slash] ++ SegmenterManager.g_ngram_unigram_dict_name) with
  | Some _ =>
      dir ← dict_directory fs dict_dir;
      let n := if dp_mmseg_instance_num_ p =? 0 then default_instances else dp_mmseg_instance_num_ p in
      managers ← TokenizerMMSEG.new_TokenizerMMSEG dir (Z.to_nat n);
      Some (ATokenizerMMSEG managers)
  | None => Some ATokenizerSpaceImpl
  end.

Definition kVirtualDBOpenErrorStatus : Z := -18535.
Definition kIndexWriterOpenErrorStatus : Z := -18534.

Definition Open (fs : file_system) (w : DefaultIndexWrapper) (use_rocksdb use_compression : bool) :
    option (SearchStatus * DefaultIndexWrapper) :=
  let codec := if use_compression then DocListCompressionVarLenBlockType else DocListCompressionFixType in
  let w := make_vdb (set_codec w codec) use_rocksdb codec in
  p ← vdb_ w;
  vdb ← objects w !! p;
  '(ok, msg, vdb) ← open_vdb (params_ w) codec vdb;
  let w := mkWrapper (params_ w) (codec_ w) (vdb_ w) (tokenizer_ w) (config_ w) (index_writer_ w) (<[p := vdb]> (objects w)) in
  if negb ok then Some (SetStatus kVirtualDBOpenErrorStatus msg, w)
  else
    tokenizer ← make_tokenizer fs (params_ w);
    let config := (Config.SetCodec (config_ w) (dp_codec_ (params_ w))).2 in
    let config := (Config.SetVirtualDB config (vdb_ w)).2 in
    let config := (Config.SetTokenizer config (Some tokenizer)).2 in
    let '(ok, writer) := IndexWriter_Open None (Some tt) in
    let w := mkWrapper (params_ w) (codec_ w) (vdb_ w) (Some tokenizer) config (Some writer) (objects w) in
    if negb ok then Some (SetStatus kIndexWriterOpenErrorStatus "open index writer fail", w) else Some (status_ok, w).

(** ** Serving requests *)

(** The handles of a store by their columns. *)
Definition handle_of (hs : list CF) (h0 : CF) (column : StorageColumnType) : CF := default h0 (hs !! Z.to_nat (column_num column)).

#[local] Instance mock_compaction : Compaction MockDB := {| Compact db column x y := Some (VirtualDBMock.CompactRange db column x y) |}.
#[local] Instance rocks_compaction : Compaction (VirtualDBRocksImpl DB Batch CF F) := {| Compact := RocksDB.CompactRange |}.

Context `{!MockProto, !StoreProto} (log_ : spec_float -> spec_float) (seq_ : Z).

Definition set_object (w : DefaultIndexWrapper) (p : pointer) (vdb : AnyDB) : DefaultIndexWrapper :=
  mkWrapper (params_ w) (codec_ w) (vdb_ w) (tokenizer_ w) (config_ w) (index_writer_ w) (<[p := vdb]> (objects w)).

(** The writer and a searcher over the configuration use the store, the codec and
    the tokenizer it points to. *)
Definition serve_wrapper (w : DefaultIndexWrapper) (table : TableID) (rs : list request) :
    option (DefaultIndexWrapper * list response) :=
  let config := config_ w in
  writer ← index_writer_ w;
  _ ← (writer : option unit);
  codec ← Config.codec_ config;
  p ← Config.vdb_ config;
  vdb ← objects w !! p;
  tokenizer ← Config.tokenizer_ config;
  match vdb with
  | AVirtualDBMock c db =>
      '(db, l) ← @serve MockDB WriteBufferMock mock_db (mock_write_buffer c) (mock_write_db c) mock_compaction _
                   (tokenizer_of log_ seq_ tokenizer) codec (Config.limits config) table db rs;
      Some (set_object w p (AVirtualDBMock c db), l)
  | AVirtualDBRocksImpl own d =>
      h0 ← head (column_famil_handles_ d);
      '(d, l) ← @serve _ _ rocks_db rocks_write_buffer (rocks_write_db (handle_of (column_famil_handles_ d) h0)) rocks_compaction _
                  (tokenizer_of log_ seq_ tokenizer) codec (Config.limits config) table d rs;
      Some (set_object w p (AVirtualDBRocksImpl own d), l)
  end.
End Wrapper.

(** ** What is opened serves as specified *)

(** The limits are set through the configuration, before or after opening. *)
Definition configure {DB Batch CF F : Type} (w : @DefaultIndexWrapper DB Batch CF F) (l : IndexConfig) : DefaultIndexWrapper :=
  mkWrapper (params_ w) (codec_ w) (vdb_ w) (tokenizer_ w) (Config.set_limits (config_ w) l) (index_writer_ w) (objects w).

(** No dictionary, or one made of a corpus. *)
Definition dictionary_ok {F : Type} (fs : file_system) (p : @DBParams F) : Prop :=
  let dict_dir := match dp_mmseg_dict_dir_ p with [] => default_dict_dir | d => d end in
  fs (dict_dir ++ [slash] ++ SegmenterManager.g_ngram_unigram_dict_name) = None \/
  0 <= dp_mmseg_instance_num_ p /\
  exists dir text g, dict_directory fs dict_dir = Some dir /\ well_made dir text g.

Definition codec_for (use_compression : bool) : DocListCompressionType :=
  if use_compression then DocListCompressionVarLenBlockType else DocListCompressionFixType.

Section Tokenizers.
Context {log_ : spec_float -> spec_float} {Hlog : LogLaws log_} (seq_ : Z).

(** The tokenizer comes up and accepts well-formed text. *)
Lemma make_tokenizer_ok {F : Type} fs (p : @DBParams F) :
  dictionary_ok fs p ->
  exists tok (L : @TokenizerLaws (tokenizer_of log_ seq_ tok)),
    make_tokenizer fs p = Some tok /\ forall f, text_field f -> @Tokenizer.accepted _ L f.
Proof.
  unfold dictionary_ok, make_tokenizer. set (dict_dir := match dp_mmseg_dict_dir_ p with [] => _ | d => d end).
  set (fp := fs (dict_dir ++ _)). intros H. destruct fp as [file|].
  2: { exists ATokenizerSpaceImpl, space_laws. split; [done|]. by intros f _. }
  destruct H as [|(Hn & dir & text & g & -> & Hwm)]; [done|]. cbn [mbind option_bind].
  set (n := if dp_mmseg_instance_num_ p =? 0 then default_instances else dp_mmseg_instance_num_ p).
  assert (H0 : 0 < n) by (unfold n, default_instances; destruct (Z.eqb_spec (dp_mmseg_instance_num_ p) 0); lia).
  destruct (new_managers_well_made dir text g Hwm (Z.to_nat n)) as (ms & E & Hl & _).
  unfold TokenizerMMSEG.new_TokenizerMMSEG. destruct (Nat.eqb_spec (Z.to_nat n) 0); [lia|]. rewrite E. cbn [mbind option_bind].
  assert (Hne : ms <> []) by (intros ->; cbn in Hl; lia).
  exists (ATokenizerMMSEG ms), (mmseg_laws (log_ := log_) ms Hne seq_). split; [done|].
  intros f Hf. exact (well_made_segmentable dir text g Hwm (Z.to_nat n) f ms E Hf).
Qed.
End Tokenizers.

Section Serving.
Context {DB Batch CF F Snapshot : Type} `{!RocksDB DB Batch CF F Snapshot} `{StoreProtoLaws}.
Context {log_ : spec_float -> spec_float} {Hlog : LogLaws log_} (seq_ : Z).
Context (fs : file_system) (p : @DBParams F) (limits : IndexConfig) (use_compression : bool).
Notation codec := (codec_for use_compression).
Notation created := (configure (create p) limits : @DefaultIndexWrapper DB Batch CF F).

(** What a wrapper looks like behind a successful [Open]. *)
Lemma Open_ok (use_rocksdb : bool) (vdb : AnyVirtualDB DB Batch CF F) (tok : AnyTokenizer) (msg : string) :
  open_vdb p codec (if use_rocksdb then AVirtualDBRocksImpl true (new_VirtualDBRocksImpl (rocks_params p codec) None)
                    else AVirtualDBMock codec []) = Some (true, msg, vdb) ->
  make_tokenizer fs p = Some tok ->
  exists w, Open fs created use_rocksdb use_compression = Some (status_ok, w) /\ index_writer_ w = Some (Some tt) /\
    objects w = [vdb] /\ config_ w = Config.mkT (Some codec) (Some O) (Some tok) limits Config.kSearchLogLevelError.
Proof.
  intros Hv Ht. unfold Open. fold codec. cbn [make_vdb set_codec configure create vdb_ objects params_ length app mbind option_bind lookup list_lookup].
  assert (Hv' : open_vdb (params_ (set_codec created codec)) codec
            (if use_rocksdb then AVirtualDBRocksImpl true (new_VirtualDBRocksImpl (rocks_params (params_ (set_codec created codec)) codec) None)
             else AVirtualDBMock codec []) = Some (true, msg, vdb)) by exact Hv.
  assert (Ht' : make_tokenizer fs (params_ (set_codec created codec)) = Some tok) by exact Ht.
  cbn [set_codec params_ configure create] in Hv', Ht'. rewrite Hv'. cbn [mbind option_bind negb params_]. rewrite Ht'. cbn [mbind option_bind].
  eexists. split; [reflexivity|]. split; [done|]. split; [done|]. done.
Qed.
End Serving.

Section Mock.
Context {DB Batch CF F Snapshot : Type} `{!RocksDB DB Batch CF F Snapshot} `{MockProtoLaws, StoreProtoLaws}.
Context (Htotal : forall l, VirtualDBMock.SerializeToString l <> None).
Context {log_ : spec_float -> spec_float} {Hlog : LogLaws log_} (seq_ : Z).

#[local] Existing Instance mock_compaction.
#[local] Instance mock_compaction_laws : CompactionLaws MockDB.
Proof. split. intros db column x y Hdb. by exists status_ok, db. Qed.

(** The requests that are admissible one after the other on a new mock store. *)
Definition mock_admissible (t : Tokenizer) (L : @TokenizerLaws t) (codec : DocListCompressionType) (limits : IndexConfig)
    (table : TableID) (rs : list request) : Prop :=
  @all_admissible MockDB WriteBufferMock mock_db mock_db_laws (mock_write_buffer codec) (mock_write_db codec)
    (mock_write_laws codec Htotal) mock_compaction _ t L codec limits table ([] : MockDB) rs.

(** C1: the engine is a library of documents.  The wrapper opens without RocksDB,
    with either codec, any limits and the tokenizer its dictionary directory
    calls for, which accepts all well-formed text; from then on every sequence of
    batches, searches and compactions whose requests are admissible is answered,
    request by request, as the library of documents specifies that starts
    empty. *)
Theorem engine_refines_library fs (p : @DBParams F) limits use_compression :
  dictionary_ok fs p ->
  exists (w : @DefaultIndexWrapper DB Batch CF F) tok (L : @TokenizerLaws (tokenizer_of log_ seq_ tok)),
    Open fs (configure (create p) limits) false use_compression = Some (status_ok, w) /\
    make_tokenizer fs p = Some tok /\ (forall f, text_field f -> @Tokenizer.accepted _ L f) /\
    forall table rs, wf_table table -> mock_admissible _ L (codec_for use_compression) limits table rs ->
      exists w' l σ, serve_wrapper log_ seq_ w table rs = Some (w', l) /\
        @spec_run (tokenizer_of log_ seq_ tok) limits empty_library rs l σ.
Proof.
  intros Hd. destruct (make_tokenizer_ok (log_ := log_) seq_ fs p Hd) as (tok & L & Ht & Hacc).
  destruct (Open_ok (DB := DB) (Batch := Batch) (CF := CF) fs p limits use_compression false _ tok _ eq_refl Ht) as (w & Ho & Hwr & Hob & Hcfg).
  exists w, tok, L. split; [done|]. split; [done|]. split; [done|]. intros table rs Htable Hadm.
  set (codec := codec_for use_compression) in *.
  pose proof (@empty_start MockDB mock_db mock_db_laws _ limits table ([] : MockDB) (fun c => eq_refl)) as [Hcon Hshelf].
  destruct (@serve_refines MockDB WriteBufferMock mock_db mock_db_laws (mock_write_buffer codec) (mock_write_db codec)
    (mock_write_laws codec Htotal) mock_compaction mock_compaction_laws _ _ _ L codec limits table Htable ([] : MockDB) rs)
    as (db' & l & Hserve & _ & _ & Hrun); [apply cf_wf_nil|exact Hcon|exact Hadm|].
  eexists _, l, _. split; [|rewrite <- Hshelf; exact Hrun].
  unfold serve_wrapper. rewrite Hwr, Hcfg, Hob. cbn [mbind option_bind Config.codec_ Config.vdb_ Config.tokenizer_ Config.limits lookup list_lookup].
  rewrite Hserve. reflexivity.
Qed.
End Mock.

Section Rocks.
Context {DB Batch CF F Snapshot : Type} `{RocksLaws DB Batch CF F Snapshot, !MockProto, StoreProtoLaws}.
Context {log_ : spec_float -> spec_float} {Hlog : LogLaws log_} (seq_ : Z) (Hchosen : moderate chosen).
Notation Impl := (VirtualDBRocksImpl DB Batch CF F).

(** RocksDB makes a new database when there is none: it has a handle per column,
    the operator on the inverted one, and no entries. *)
Record opens_new (params : VDBParams F) (hs : list CF) (h0 : CF) (r : DB) : Prop := {
  on_open : exists s, ok s = true /\
    DB_Open (path params) (families params (DocListMergeOperator (max_doc_list_num_ params) (RocksDB.codec_ params))) = (s, hs, Some r);
  on_handles : length hs = kMaxColumn /\ NoDup hs /\ head hs = Some h0;
  on_ready : db_ready (handle_of hs h0) (max_doc_list_num_ params) (RocksDB.codec_ params) r;
  on_empty cf : entries r cf = []
}.

Section Handles.
Context (hs : list CF) (h0 : CF) (Hlen : length hs = kMaxColumn) (Hnd : NoDup hs).

Lemma handle_of_lookup column : hs !! Z.to_nat (column_num column) = Some (handle_of hs h0 column).
Proof.
  unfold handle_of. destruct (lookup_lt_is_Some_2 hs (Z.to_nat (column_num column))) as [h ->]; [|done].
  rewrite Hlen. unfold kMaxColumn. destruct column; cbn; lia.
Qed.

#[local] Instance handle_of_inj : Inj (=) (=) (handle_of hs h0).
Proof.
  intros c c' E. pose proof (handle_of_lookup c) as H1'. pose proof (handle_of_lookup c') as H2'. rewrite E in H1'.
  pose proof (NoDup_lookup _ _ _ _ Hnd H1' H2') as En. apply column_num_inj. destruct c, c'; cbn in *; lia.
Qed.

Lemma handles_of : handles (handle_of hs h0) = hs.
Proof.
  unfold kMaxColumn in Hlen. unfold handles, columns. cbn [map]. unfold handle_of.
  destruct hs as [|a0 [|a1 [|a2 [|a3 [|a4 [|a5 [|a6 [|a7 [|]]]]]]]]]; try done.
Qed.
End Handles.

#[local] Existing Instance rocks_compaction.
#[local] Existing Instances rocks_db rocks_write_buffer.

Section Store.
Context (hs : list CF) (h0 : CF) (Hlen : length hs = kMaxColumn) (Hnd : NoDup hs).
Context (max : Z) (Hmax : 0 < max <= 100000000) (codec : DocListCompressionType).
Notation hd := (handle_of hs h0).

(** The laws of the store with these handles, as far as no call stops. *)
#[local] Instance store_laws : VirtualDBLaws Impl := rocks_db_laws hd max codec Hmax Hchosen.
Definition store_db : WriteDB Impl (WriteBufferRocksImpl Batch CF) := rocks_write_db hd.
Definition calm_db : WriteDB Impl (WriteBufferRocksImpl Batch CF) := calm_write_db hd.
Definition store_write_laws : @WriteLaws Impl _ rocks_db store_laws rocks_write_buffer calm_db :=
  @rocks_write_laws _ _ _ _ _ _ _ _ hd (handle_of_inj hs h0 Hlen Hnd) max codec Hmax Hchosen.

Definition calm_compaction : Compaction Impl :=
  {| Compact d column x y := match RocksDB.CompactRange d column x y with Some r => Some r | None => Some (no_answer, d) end |}.

Lemma calm_compaction_laws : @CompactionLaws Impl rocks_db store_laws calm_compaction.
Proof.
  split. intros d column x y Hd. cbn [Compact calm_compaction].
  destruct (rocks_CompactRange_spec hd max codec Hmax Hchosen d column x y Hd) as (r & _ & Hc).
  destruct (silent _); [rewrite Hc; by exists no_answer, d|]. destruct Hc as (s & d' & -> & Hd' & Hc). by exists s, d'.
Qed.

Section Requests.
Context (t : Tokenizer) (L : @TokenizerLaws t) (limits : IndexConfig) (table : TableID).

Definition rocks_handle (d : Impl) (rq : request) : option (Impl * response) :=
  @handle _ _ rocks_db rocks_write_buffer store_db rocks_compaction _ t codec limits table d rq.
Definition rocks_serve (d : Impl) (rs : list request) : option (Impl * list response) :=
  @serve _ _ rocks_db rocks_write_buffer store_db rocks_compaction _ t codec limits table d rs.

(** Every request is admissible where it is served. *)
Fixpoint rocks_admissible (d : Impl) (rs : list request) : Prop :=
  match rs with
  | [] => True
  | rq :: rs =>
      @admissible _ _ rocks_db store_laws rocks_write_buffer calm_db store_write_laws t L table d rq /\
      forall d' a, rocks_handle d rq = Some (d', a) -> rocks_admissible d' rs
  end.

(** The buffer of a batch. *)
Definition rocks_flushed (d : Impl) (documents : list DocumentUpdater) (mode : kDocumentUpdaterType) :=
  @flushed _ _ rocks_db rocks_write_buffer store_db _ t codec limits table d documents mode.

(** RocksDB refuses the write or the compaction of the request without a
    message. *)
Definition refused (d : Impl) (rq : request) : Prop :=
  match rq with
  | RWrite documents mode =>
      exists b r, rocks_flushed d documents mode = Some b /\ db_ d = Some r /\ silent (DB_Write r (write_batch_ b)).1 = true
  | RSearch _ => False
  | RCompact column x y => exists r, db_ d = Some r /\ silent (DB_CompactRange r (hd column) x y).1 = true
  end.

(** The write of the request leaves a key with as many operands as 32 bits
    count. *)
Definition crowds (d : Impl) (rq : request) : Prop :=
  match rq with
  | RWrite documents mode => exists b, rocks_flushed d documents mode = Some b /\ crowded hd d b = true
  | _ => False
  end.

Lemma rocks_handle_cases d rq :
  rocks_wf hd max codec d ->
  (refused d rq /\ rocks_handle d rq = None) \/ crowds d rq \/
  rocks_handle d rq = @handle _ _ rocks_db rocks_write_buffer calm_db calm_compaction _ t codec limits table d rq.
Proof.
  intros Hd. pose proof Hd as (_ & _ & r & Hr & _). destruct rq as [documents mode|q|column x y].
  - pose proof (@flushed_run _ _ rocks_db rocks_write_buffer store_db _ t (@FlushBuffer _ _ calm_db) codec limits table d documents mode) as Hrun.
    unfold refused, crowds. fold (rocks_flushed d documents mode) in Hrun. destruct (rocks_flushed d documents mode) as [b|] eqn:Eb.
    2: { do 2 right. unfold rocks_handle, handle. rewrite (Hrun I). reflexivity. }
    destruct (crowded hd d b) eqn:Ec; [right; left; by exists b|].
    destruct (silent (DB_Write r (write_batch_ b)).1) eqn:Es.
    + left. split; [by exists b, r|]. unfold rocks_handle, handle.
      rewrite (@flushed_stops _ _ rocks_db rocks_write_buffer store_db _ t codec limits table d documents mode b Eb); [done|].
      cbn [FlushBuffer store_db rocks_write_db]. by rewrite (silent_FlushBuffer hd max codec d b r Hd Hr Es).
    + do 2 right. unfold rocks_handle, handle. rewrite Hrun; [reflexivity|].
      symmetry. exact (calm_FlushBuffer hd max codec d b r Hd Hr Es Ec).
  - do 2 right. reflexivity.
  - destruct (rocks_CompactRange_spec hd max codec Hmax Hchosen d column x y Hd) as (r' & Hr' & Hc).
    destruct (silent _) eqn:Es.
    + left. split; [by exists r'|]. unfold rocks_handle, handle. cbn [Compact rocks_compaction]. by rewrite Hc.
    + do 2 right. unfold rocks_handle, handle. cbn [Compact rocks_compaction calm_compaction].
      by destruct Hc as (s & d' & -> & _).
Qed.

(** All requests are answered as specified, or those in front of the first one
    that is refused or crowds a key. *)
Lemma store_serves d rs :
  wf_table table -> rocks_wf hd max codec d -> consistent limits table d -> rocks_admissible d rs ->
  (exists d' l, rocks_serve d rs = Some (d', l) /\ spec_run limits (shelf table d) rs l (shelf table d')) \/
  (exists rs1 rq rs2 d1 l1, rs = rs1 ++ rq :: rs2 /\ rocks_serve d rs1 = Some (d1, l1) /\
     spec_run limits (shelf table d) rs1 l1 (shelf table d1) /\
     (refused d1 rq /\ rocks_serve d rs = None \/ crowds d1 rq)).
Proof.
  intros Htable. revert d. induction rs as [|rq rs IH]; intros d Hd Hcon Hadm.
  { left. exists d, []. split; [done|]. by constructor. }
  destruct Hadm as [Hrq Hrs]. destruct (rocks_handle_cases d rq Hd) as [[Href Hn]|[Hcr|Heq]].
  - right. exists [], rq, rs, d, []. split; [done|]. split; [done|]. split; [by constructor|]. left. split; [done|].
    unfold rocks_serve. cbn [serve]. fold (rocks_handle d rq). by rewrite Hn.
  - right. exists [], rq, rs, d, []. split; [done|]. split; [done|]. split; [by constructor|]. by right.
  - destruct (@handle_refines _ _ rocks_db store_laws rocks_write_buffer calm_db store_write_laws calm_compaction calm_compaction_laws
      _ _ t L codec limits table Htable d rq Hd Hcon Hrq) as (d1 & a & E & Hd1 & Hcon1 & Hstep).
    rewrite E in Heq. specialize (Hrs _ _ Heq).
    assert (Hcons : forall rs, rocks_serve d (rq :: rs) = ('(d', l) ← rocks_serve d1 rs; Some (d', a :: l))).
    { intros rs'. unfold rocks_serve. cbn [serve]. fold (rocks_handle d rq). by rewrite Heq. }
    destruct (IH d1 Hd1 Hcon1 Hrs) as [(d' & l & El & Hrun)|(rs1 & rq' & rs2 & d2 & l1 & -> & El & Hrun & Hbad)].
    + left. exists d', (a :: l). rewrite Hcons, El. split; [done|]. by econstructor.
    + right. exists (rq :: rs1), rq', rs2, d2, (a :: l1). split; [done|]. rewrite !Hcons, El. split; [done|].
      split; [by econstructor|]. destruct Hbad as [[? ->]|?]; [by left|by right].
Qed.
End Requests.
End Store.

(** C12: the same on RocksDB.  Where the parameters allow document lists of a
    positive length and RocksDB makes a new database, the wrapper opens it; from
    then on every sequence of admissible batches, searches and compactions is
    answered as the library of documents specifies, whatever RocksDB merges in
    between, with two exceptions: the process stops at the first write or
    compaction that RocksDB refuses with a status without a message, and nothing
    is said from a write on that leaves a key with as many operands as 32 bits
    count.  The requests in front of it are answered as specified. *)
Theorem rocks_engine_refines_library fs (p : @DBParams F) limits use_compression hs h0 r :
  dictionary_ok fs p -> forall Hmax : 0 < dp_max_doc_list_num_ p <= 100000000,
  opens_new (rocks_params p (codec_for use_compression)) hs h0 r ->
  exists (w : @DefaultIndexWrapper DB Batch CF F) d tok (L : @TokenizerLaws (tokenizer_of log_ seq_ tok)) Hlen Hnd,
    Open fs (configure (create p) limits) true use_compression = Some (status_ok, w) /\
    objects w = [AVirtualDBRocksImpl true d] /\ db_ d = Some r /\
    make_tokenizer fs p = Some tok /\ (forall f, text_field f -> @Tokenizer.accepted _ L f) /\
    forall table rs, wf_table table ->
      let codec := codec_for use_compression in
      rocks_admissible hs h0 Hlen Hnd (dp_max_doc_list_num_ p) Hmax codec _ L limits table d rs ->
      (exists w' l σ, serve_wrapper log_ seq_ w table rs = Some (w', l) /\
         @spec_run (tokenizer_of log_ seq_ tok) limits empty_library rs l σ) \/
      (exists rs1 rq rs2 w1 d1 l1 σ1, rs = rs1 ++ rq :: rs2 /\
         serve_wrapper log_ seq_ w table rs1 = Some (w1, l1) /\ objects w1 = [AVirtualDBRocksImpl true d1] /\
         @spec_run (tokenizer_of log_ seq_ tok) limits empty_library rs1 l1 σ1 /\
         (refused hs h0 codec (tokenizer_of log_ seq_ tok) limits table d1 rq /\ serve_wrapper log_ seq_ w table rs = None \/
          crowds hs h0 codec (tokenizer_of log_ seq_ tok) limits table d1 rq)).
Proof.
  intros Hdict Hmax [(s & Hs & Hop) (Hlen & Hnd & Hhd) Hready Hempty].
  destruct (make_tokenizer_ok (log_ := log_) seq_ fs p Hdict) as (tok & L & Ht & Hacc).
  set (codec := codec_for use_compression) in *.
  pose proof (Open_spec (new_VirtualDBRocksImpl (rocks_params p codec) None : Impl) eq_refl eq_refl (proj1 Hmax)) as Hspec. cbv zeta in Hspec.
  cbn [params_ new_VirtualDBRocksImpl rocks_params max_doc_list_num_ RocksDB.codec_ path RocksDB.params_] in Hspec, Hop.
  rewrite Hop in Hspec. destruct Hspec as (d & Eo & Edb & Ehs & _ & _ & Ewq); [by left|]. rewrite Hs in Eo.
  assert (Ev : open_vdb p codec (AVirtualDBRocksImpl true (new_VirtualDBRocksImpl (rocks_params p codec) None : Impl)) = Some (true, msg_if_error d, AVirtualDBRocksImpl true d)).
  { cbn [open_vdb]. change (set_params (new_VirtualDBRocksImpl (rocks_params p codec) None : Impl) (rocks_params p codec)) with (new_VirtualDBRocksImpl (rocks_params p codec) None : Impl). by rewrite Eo. }
  destruct (Open_ok (DB := DB) (Batch := Batch) (CF := CF) fs p limits use_compression true _ tok _ Ev Ht) as (w & Ho & Hwr & Hob & Hcfg).
  exists w, d, tok, L, Hlen, Hnd. do 5 (split; [done|]). intros table rs Htable codec' Hadm. subst codec'. fold codec in Hadm.
  assert (Hw : forall rs, serve_wrapper log_ seq_ w table rs =
            ('(d, l) ← rocks_serve hs h0 codec (tokenizer_of log_ seq_ tok) limits table d rs; Some (set_object w O (AVirtualDBRocksImpl true d), l))).
  { intros rs'. unfold serve_wrapper. rewrite Hwr, Hcfg, Hob.
    cbn [mbind option_bind Config.codec_ Config.vdb_ Config.tokenizer_ Config.limits lookup list_lookup]. rewrite Ehs, Hhd. reflexivity. }
  assert (Hd : rocks_wf (handle_of hs h0) (dp_max_doc_list_num_ p) codec d).
  { split; [exact Ewq|]. split; [by rewrite handles_of|]. by exists r. }
  assert (Hc0 : forall c, rocks_content (handle_of hs h0) d c = []) by (intros c; unfold rocks_content; by rewrite Edb).
  destruct (@empty_start _ rocks_db (store_laws hs h0 (dp_max_doc_list_num_ p) Hmax codec) _ limits table d Hc0) as [Hcon Hshelf].
  destruct (store_serves hs h0 Hlen Hnd (dp_max_doc_list_num_ p) Hmax codec _ L limits table d rs Htable Hd Hcon Hadm)
    as [(d' & l & Hserve & Hrun)|(rs1 & rq & rs2 & d1 & l1 & -> & Hserve & Hrun & Hbad)]; rewrite Hshelf in Hrun.
  - left. rewrite Hw, Hserve. by eexists _, l, _.
  - right. exists rs1, rq, rs2. rewrite (Hw rs1), Hserve. eexists _, d1, l1, _. split; [done|]. split; [done|].
    split; [cbn [set_object objects]; by rewrite Hob|]. split; [exact Hrun|]. destruct Hbad as [[? Hn]|?]; [left|by right].
    split; [done|]. by rewrite Hw, Hn.
Qed.
End Rocks.

(** ** Samples *)
#[local] Existing Instances Model.model_rocks Model.model_laws number_proto number_proto_laws number_store_proto number_store_proto_laws
  rough_log_laws.

Definition sample_dict_dir : bytes := [100].

Definition sample_wrapper_params : @DBParams unit := mkDBParams "db" sample_dict_dir 2 (fun _ => None) None 1000.

Definition deletion : list DocumentUpdater :=
  [mkUpdater status_ok new_document (sample_doc 7) new_document new_document kDocumentDeleteType].

Definition two_terms : Query := QAnd [QBoolean (BooleanQuery_term 1 [104; 105]); QBoolean (BooleanQuery_uint32 2 77)].

(** Two documents, a refused second addition of them, and a deletion. *)
Definition sample_requests : list request :=
  [RWrite sample_batch kDocumentAddType; RSearch two_terms; RWrite sample_batch kDocumentAddType; RWrite deletion kDocumentDeleteType;
   RCompact kInvertedIndexColumn [] [255]; RSearch two_terms].

Definition sample_session (use_rocksdb : bool) : option (list response) :=
  '(_, w) ← Open (DB := Model.ModelDB) (fun _ => None) (create sample_wrapper_params) use_rocksdb true;
  '(_, l) ← serve_wrapper rough_log 0 w sample_table sample_requests;
  Some l.

(** Without a dictionary the text is cut at blanks; both stores answer alike. *)
Example sample_answers :
  map sample_session [false; true] =
  replicate 2 (Some [Answered true; Found [42; 7]; Answered false; Answered true; Compacted status_ok; Found [42]]).
Proof. vm_compute. reflexivity. Qed.

(** A file system with the dictionary of a corpus in the directory and nothing
    else. *)
Definition sample_fs (file : option bytes) : file_system :=
  fun path => if decide (path = (sample_dict_dir ++ [slash]) ++ SegmenterManager.g_ngram_unigram_dict_name) then file else None.

Lemma well_made_ext path path' text g : (forall name, path' name = path name) -> well_made path text g -> well_made path' text g.
Proof. intros E [H1 H2 H3 H4 H5]. constructor; rewrite ?E; done. Qed.

Lemma sample_dictionary : exists file, dictionary_ok (sample_fs file) sample_wrapper_params.
Proof.
  destruct (only_well_made sample_corpus sample_text_corpus) as (file & Hwm). exists file. right. split; [done|].
  exists (fun name => sample_fs file ((sample_dict_dir ++ [slash]) ++ name)), sample_corpus, Segmenter.default_config. split; [done|].
  eapply well_made_ext; [|exact Hwm]. intros name. unfold sample_fs, only_dictionary.
  destruct (decide (name = SegmenterManager.g_ngram_unigram_dict_name)) as [->|Hne]; [by rewrite decide_True|].
  rewrite decide_False; [done|]. intros E%app_inv_head. done.
Qed.

Definition first_requests : list request :=
  [RWrite sample_batch kDocumentAddType; RCompact kInvertedIndexColumn [] [255]; RSearch two_terms].

(** They are admissible on every empty store that takes lists of two documents,
    with every tokenizer that accepts text. *)
Section Sample.
Context {DB B : Type} `{WriteLaws DB B, !Compaction DB, StoreProto} {t : Tokenizer} (L : @TokenizerLaws t).
Context (Hacc : forall f, text_field f -> @Tokenizer.accepted _ L f) (db : DB) (Hempty : forall c, content db c = []) (Hlim : 2 < doc_limit).

Lemma sample_accepted_text (id : Z) : Forall (fun f => @Tokenizer.accepted _ L f) (fields_ (sample_doc id)).
Proof.
  repeat apply Forall_cons_2; [apply Hacc..|apply Forall_nil_2].
  - exists [104; 105; 32; 121; 111; 117]. split; [repeat constructor; lia|]. by split.
  - exists []. split; [constructor|]. by split.
Qed.

Lemma sample_doc_user id : is_u64 id ->
  user_ok (mkUpdater status_ok new_document (sample_doc id) new_document new_document kDocumentAddType).
Proof.
  intros Hid. split; [done|]. split; [done|]. split; [done|]. pose proof (sample_accepted_text id) as Ha.
  apply Forall_cons in Ha as [H1' [H2' _]%Forall_cons].
  repeat apply Forall_cons_2; [| |apply Forall_nil_2]; (split; [cbv; by split|]; split; [cbv; by split|]; split; [done|]).
  all: split; [split; [split; constructor|]; split; [|cbv; by split]|done].
  all: cbn [string_value_]; repeat (apply Forall_cons_2; [split; lia|]); apply Forall_nil_2.
Qed.

Lemma sample_write_input : write_input sample_table db sample_batch kDocumentAddType.
Proof.
  split; [by apply (bool_decide_unpack _); vm_compute|done| |intros k; exists []; rewrite Hempty; split; [by left|cbn; lia]|done].
  repeat apply Forall_cons_2; [..|apply Forall_nil_2]; apply sample_doc_user; unfold is_u64; lia.
Qed.

Lemma first_admissible codec limits : all_admissible codec limits sample_table db first_requests.
Proof.
  cbn [all_admissible first_requests admissible]. split; [apply sample_write_input|]. intros db1 a1 _. split; [done|].
  intros db2 a2 _. split; [by split|]. done.
Qed.
End Sample.

Lemma engine_refines_library_witness :
  exists fs (w : @DefaultIndexWrapper Model.ModelDB (list (batch_op Z)) Z unit) tok,
    Open fs (configure (create sample_wrapper_params) Storage.default_config) false true = Some (status_ok, w) /\
    make_tokenizer fs sample_wrapper_params = Some tok /\
    exists w' l σ, serve_wrapper rough_log 0 w sample_table first_requests = Some (w', l) /\
      @spec_run (tokenizer_of rough_log 0 tok) Storage.default_config empty_library first_requests l σ.
Proof.
  destruct sample_dictionary as (file & Hd).
  destruct (engine_refines_library (DB := Model.ModelDB) (Batch := list (batch_op Z)) (CF := Z) number_proto_total (Hlog := rough_log_laws) 0
    (sample_fs file) sample_wrapper_params Storage.default_config true Hd) as (w & tok & L & Ho & Ht & Hacc & Hserve).
  exists (sample_fs file), w, tok. split; [exact Ho|]. split; [exact Ht|]. apply Hserve; [apply sample_table_wf|].
  apply (@first_admissible _ _ _ _ _ _ (mock_write_laws _ number_proto_total) mock_compaction number_store_proto _ L Hacc); [done|].
  cbn. lia.
Defined.

Lemma sample_opens_new : opens_new (rocks_params sample_wrapper_params DocListCompressionVarLenBlockType) [0; 1; 2; 3; 4; 5; 6; 7] 0 opened_db.
Proof.
  constructor.
  - eexists. split; [|reflexivity]. reflexivity.
  - split; [done|]. split; [by apply (bool_decide_unpack _)|done].
  - split; [apply cf_wf_nil|exact opened_operator|]. intros cf k. unfold sound_at. destruct (decide _); [by left|]; done.
  - done.
Qed.

Lemma rocks_engine_refines_library_witness :
  exists fs (w : @DefaultIndexWrapper Model.ModelDB (list (batch_op Z)) Z unit) tok,
    Open fs (configure (create sample_wrapper_params) Storage.default_config) true true = Some (status_ok, w) /\
    make_tokenizer fs sample_wrapper_params = Some tok /\
    exists w' l σ, serve_wrapper rough_log 0 w sample_table first_requests = Some (w', l) /\
      @spec_run (tokenizer_of rough_log 0 tok) Storage.default_config empty_library first_requests l σ.
Proof.
  destruct sample_dictionary as (file & Hd).
  destruct (rocks_engine_refines_library (Hlog := rough_log_laws) 0 sample_chosen (sample_fs file) sample_wrapper_params
    Storage.default_config true [0; 1; 2; 3; 4; 5; 6; 7] 0 opened_db Hd sample_max sample_opens_new)
    as (w & d & tok & L & Hlen & Hnd & Ho & _ & Ed & Ht & Hacc & Hserve).
  exists (sample_fs file), w, tok. split; [exact Ho|]. split; [exact Ht|].
  destruct (Hserve sample_table first_requests sample_table_wf) as [Hdone|(rs1 & rq & rs2 & w1 & d1 & l1 & σ1 & _ & _ & _ & _ & Hbad)].
  - assert (Hc : forall c, rocks_content (handle_of [0; 1; 2; 3; 4; 5; 6; 7] 0) d c = []) by (intros c; unfold rocks_content; by rewrite Ed).
    cbn [rocks_admissible first_requests admissible]. split; [|by split; [|split]].
    apply (@sample_write_input _ _ _ _ _ _ (store_write_laws sample_chosen _ 0 Hlen Hnd 1000 sample_max _) _ L Hacc); [exact Hc|].
    cbn. lia.
  - exact Hdone.
  - exfalso. destruct Hbad as [[Hr _]|Hc].
    + destruct rq as [documents mode|q|column x y]; [|exact Hr|].
      * destruct Hr as (b & r & _ & _ & Hs). by rewrite Model.model_not_silent in Hs.
      * by destruct Hr as (r & _ & Hs).
    + destruct rq as [documents mode|q|column x y]; [|exact Hc..]. destruct Hc as (b & _ & Hc).
      by rewrite Model.model_not_crowded in Hc.
Defined.
