(* ===== verification/BoundedQueue.v ===== *)
(** The bounded lock-free queue ([FixLenLockFreeQueue], [lockfree_queue.h]).

    Any number of threads run [TryEmplace] and [Pop].  A step of a thread is
    one access to shared memory: the atomic loads, stores and exchanges of the
    code, and the accesses to the storage of a slot; a system step lets one
    thread take one step.  Memory is sequentially consistent.  [None] as the
    result of a step is undefined behaviour: a value constructed over another,
    or moved out of storage that holds none.  A step that decides the order of
    the operations says so by an event. *)
From S2P Require Import Prelude.

Section FixLenLockFreeQueue.
Context {T : Type}.

(** ** State *)
Record Slot := mkSlot { occupy : Z; storage : option T }.

Record FixLenLockFreeQueue := mkQueue {
  head_ : Z;
  tail_ : Z;
  count_ : Z;
  capacity_ : Z;
  slots_ : list Slot }.

Definition new_queue (capacity : Z) : FixLenLockFreeQueue :=
  mkQueue 0 0 0 capacity (replicate (Z.to_nat capacity) (mkSlot 0 None)).

Definition idx (q : FixLenLockFreeQueue) (i : Z) : Z := i mod capacity_ q.
Definition turn (q : FixLenLockFreeQueue) (i : Z) : Z := i / capacity_ q.

Definition slot (q : FixLenLockFreeQueue) (i : Z) : option Slot := slots_ q !! Z.to_nat (idx q i).

Definition set_head (q : FixLenLockFreeQueue) (h : Z) : FixLenLockFreeQueue :=
  mkQueue h (tail_ q) (count_ q) (capacity_ q) (slots_ q).
Definition set_tail (q : FixLenLockFreeQueue) (t : Z) : FixLenLockFreeQueue :=
  mkQueue (head_ q) t (count_ q) (capacity_ q) (slots_ q).
Definition set_slot (q : FixLenLockFreeQueue) (i : Z) (s : Slot) : FixLenLockFreeQueue :=
  mkQueue (head_ q) (tail_ q) (count_ q) (capacity_ q) (<[Z.to_nat (idx q i) := s]> (slots_ q)).

(** ** Threads *)

(** Where a thread is in [TryEmplace] or [Pop], with its local variables. *)
Inductive pc :=
| Idle
| EmplaceTest (v : T) (head : Z)
| EmplaceCas (v : T) (head : Z)
| EmplaceReload (v : T) (prev_head : Z)
| EmplaceConstruct (v : T) (head : Z)
| EmplaceStore (head : Z)
| EmplaceDone (r : bool)
| PopTest (tail : Z)
| PopCas (tail : Z)
| PopReload (prev_tail : Z)
| PopMove (tail : Z)
| PopStore (data : T) (tail : Z)
| PopDone (data : option T).

(** The order of the operations: a value gets the next ticket; the value of a
    ticket is taken out. *)
Inductive event := Pushed (v : T) | Popped (ticket : Z) (v : T).

(** The first load of an operation. *)
Definition TryEmplace (q : FixLenLockFreeQueue) (v : T) : pc := EmplaceTest v (head_ q).
Definition Pop (q : FixLenLockFreeQueue) : pc := PopTest (tail_ q).

Definition emplace_step (q : FixLenLockFreeQueue) (p : pc) : option (FixLenLockFreeQueue * pc * list event) :=
  match p with
  | EmplaceTest v head =>
      s ← slot q head;
      Some (q, if u64 (turn q head * 2) =? occupy s then EmplaceCas v head else EmplaceReload v head, [])
  | EmplaceCas v head =>
      if head_ q =? head then Some (set_head q (u64 (head + 1)), EmplaceConstruct v head, [Pushed v])
      else Some (q, EmplaceTest v (head_ q), [])
  | EmplaceReload v prev_head =>
      let head := head_ q in
      Some (q, if head =? prev_head then EmplaceDone false else EmplaceTest v head, [])
  | EmplaceConstruct v head =>
      s ← slot q head;
      match storage s with
      | None => Some (set_slot q head (mkSlot (occupy s) (Some v)), EmplaceStore head, [])
      | Some _ => None
      end
  | EmplaceStore head =>
      s ← slot q head;
      Some (set_slot q head (mkSlot (u64 (turn q head * 2 + 1)) (storage s)), EmplaceDone true, [])
  | _ => None
  end.

Definition pop_step (q : FixLenLockFreeQueue) (p : pc) : option (FixLenLockFreeQueue * pc * list event) :=
  match p with
  | PopTest tail =>
      s ← slot q tail;
      Some (q, if u64 (turn q tail * 2 + 1) =? occupy s then PopCas tail else PopReload tail, [])
  | PopCas tail =>
      if tail_ q =? tail then Some (set_tail q (u64 (tail + 1)), PopMove tail, [])
      else Some (q, PopTest (tail_ q), [])
  | PopReload prev_tail =>
      let tail := tail_ q in
      Some (q, if tail =? prev_tail then PopDone None else PopTest tail, [])
  | PopMove tail =>
      s ← slot q tail;
      match storage s with
      | Some v => Some (set_slot q tail (mkSlot (occupy s) None), PopStore v tail, [Popped tail v])
      | None => None
      end
  | PopStore v tail =>
      s ← slot q tail;
      Some (set_slot q tail (mkSlot (u64 (turn q tail * 2 + 2)) (storage s)), PopDone (Some v), [])
  | _ => None
  end.

Definition finished (p : pc) : bool :=
  match p with Idle | EmplaceDone _ | PopDone _ => true | _ => false end.

Definition thread_step (q : FixLenLockFreeQueue) (p : pc) : option (FixLenLockFreeQueue * pc * list event) :=
  match p with
  | EmplaceTest _ _ | EmplaceCas _ _ | EmplaceReload _ _ | EmplaceConstruct _ _ | EmplaceStore _ => emplace_step q p
  | _ => pop_step q p
  end.

Definition Empty (q : FixLenLockFreeQueue) : bool := count_ q =? 0.
Definition Count (q : FixLenLockFreeQueue) : Z := count_ q.

(** ** The system *)
Definition sys : Type := FixLenLockFreeQueue * list pc.

Inductive step : sys -> list event -> sys -> Prop :=
| step_emplace q ths i p v :
    ths !! i = Some p -> finished p = true -> step (q, ths) [] (q, <[i := TryEmplace q v]> ths)
| step_pop q ths i p :
    ths !! i = Some p -> finished p = true -> step (q, ths) [] (q, <[i := Pop q]> ths)
| step_run q ths i p q' p' evs :
    ths !! i = Some p -> finished p = false -> thread_step q p = Some (q', p', evs) ->
    step (q, ths) evs (q', <[i := p']> ths).

Inductive run : sys -> list event -> sys -> Prop :=
| run_nil s : run s [] s
| run_snoc s tr s1 evs s2 : run s tr s1 -> step s1 evs s2 -> run s (tr ++ evs) s2.

Definition initial (capacity : Z) (threads : nat) : sys := (new_queue capacity, replicate threads Idle).

(** The values pushed, by ticket, and the tickets taken out. *)
Fixpoint pushes (tr : list event) : list T :=
  match tr with [] => [] | Pushed v :: tr' => v :: pushes tr' | _ :: tr' => pushes tr' end.
Fixpoint pops (tr : list event) : list (Z * T) :=
  match tr with [] => [] | Popped t v :: tr' => (t, v) :: pops tr' | _ :: tr' => pops tr' end.

(** ** The invariant *)

(** The ticket a thread owns, as a producer or as a consumer. *)
Definition ticket_of (p : pc) : option (bool * Z) :=
  match p with
  | EmplaceConstruct _ h | EmplaceStore h => Some (true, h)
  | PopMove t | PopStore _ t => Some (false, t)
  | _ => None
  end.

Definition held (ths : list pc) (x : bool * Z) : Prop := exists j p, ths !! j = Some p /\ ticket_of p = Some x.

(** The counter of a slot while its ticket is written, and while it is read. *)
Definition mark (q : FixLenLockFreeQueue) (x : bool * Z) : Z := 2 * turn q x.2 + (if x.1 then 0 else 1).

(** A slot between the release of one ticket and the release of the next. *)
Definition stage (q : FixLenLockFreeQueue) (ths : list pc) (P : list T) (p : Z) (s : Slot) : Prop :=
  (occupy s = mark q (true, p) /\ tail_ q <= p /\
     ((head_ q <= p /\ storage s = None) \/ (p < head_ q /\ held ths (true, p)))) \/
  (occupy s = mark q (false, p) /\ p < head_ q /\
     ((tail_ q <= p /\ storage s = P !! Z.to_nat p) \/ (p < tail_ q /\ held ths (false, p)))).

Definition owns (q : FixLenLockFreeQueue) (x : bool * Z) (st : option T) : Prop :=
  0 <= x.2 < head_ q /\ (if x.1 then tail_ q <= x.2 else x.2 < tail_ q) /\ slot q x.2 = Some (mkSlot (mark q x) st).

Definition marked (q : FixLenLockFreeQueue) (x : bool * Z) : Prop := exists st, slot q x.2 = Some (mkSlot (mark q x) st).

Definition pc_ok (q : FixLenLockFreeQueue) (P : list T) (R : list Z) (p : pc) : Prop :=
  match p with
  | Idle | EmplaceDone _ | PopDone _ => True
  | EmplaceTest _ h | EmplaceReload _ h => 0 <= h <= head_ q
  | EmplaceCas _ h => 0 <= h <= head_ q /\ (h = head_ q -> marked q (true, h))
  | EmplaceConstruct v h => owns q (true, h) None /\ P !! Z.to_nat h = Some v
  | EmplaceStore h => owns q (true, h) (P !! Z.to_nat h)
  | PopTest t | PopReload t => 0 <= t <= tail_ q
  | PopCas t => 0 <= t <= tail_ q /\ (t = tail_ q -> marked q (false, t))
  | PopMove t => owns q (false, t) (P !! Z.to_nat t) /\ t ∉ R
  | PopStore _ t => owns q (false, t) None
  end.

Record inv (s : sys) (P : list T) (R : list (Z * T)) : Prop := {
  i_cap : 0 < capacity_ s.1;
  i_len : length (slots_ s.1) = Z.to_nat (capacity_ s.1);
  i_head : head_ s.1 = Z.of_nat (length P);
  i_tail : 0 <= tail_ s.1 <= head_ s.1;
  i_room : head_ s.1 <= tail_ s.1 + capacity_ s.1;
  i_count : count_ s.1 = 0;
  i_slots i sl : slots_ s.1 !! i = Some sl ->
    exists p, 0 <= p /\ i = Z.to_nat (idx s.1 p) /\ p - capacity_ s.1 < tail_ s.1 /\ head_ s.1 <= p + capacity_ s.1 /\ stage s.1 s.2 P p sl;
  i_pcs j p : s.2 !! j = Some p -> pc_ok s.1 P (map fst R) p;
  i_uniq j1 j2 p1 p2 x : s.2 !! j1 = Some p1 -> s.2 !! j2 = Some p2 ->
    ticket_of p1 = Some x -> ticket_of p2 = Some x -> j1 = j2;
  i_pops t v : (t, v) ∈ R -> 0 <= t < tail_ s.1 /\ P !! Z.to_nat t = Some v;
  i_nodup : NoDup (map fst R);
  i_taken t : 0 <= t < tail_ s.1 -> t ∈ map fst R \/ exists j, s.2 !! j = Some (PopMove t)
}.

(** ** Tickets and slots *)
Lemma idx_bound q i : 0 < capacity_ q -> 0 <= idx q i < capacity_ q.
Proof. intros H. by apply Z.mod_pos_bound. Qed.

Lemma ticket_eq q i j : 0 < capacity_ q -> idx q i = idx q j -> turn q i = turn q j -> i = j.
Proof.
  unfold idx, turn. intros H H1 H2. rewrite (Z.div_mod i (capacity_ q)), (Z.div_mod j (capacity_ q)) by lia. by rewrite H1, H2.
Qed.

Lemma turn_bound q i : 0 < capacity_ q -> 0 <= i -> 0 <= turn q i <= i.
Proof. intros H Hi. unfold turn. split; [by apply Z.div_pos; lia|]. apply Z.div_le_upper_bound; nia. Qed.

Lemma mark_inj q x y :
  0 < capacity_ q -> idx q x.2 = idx q y.2 -> mark q x = mark q y -> x = y.
Proof.
  destruct x as [b i], y as [c j]. unfold mark. cbn [fst snd]. intros Hc Hi Hm.
  assert (Ht : turn q i = turn q j) by (destruct b, c; lia). rewrite (ticket_eq q i j) in * by done. f_equal.
  destruct b, c; (done || lia).
Qed.

Lemma slot_index q i j : 0 < capacity_ q -> Z.to_nat (idx q i) = Z.to_nat (idx q j) -> idx q i = idx q j.
Proof. intros H. pose proof (idx_bound q i H). pose proof (idx_bound q j H). lia. Qed.

Lemma slot_some q i : 0 < capacity_ q -> length (slots_ q) = Z.to_nat (capacity_ q) -> exists s, slot q i = Some s.
Proof.
  intros H Hl. apply lookup_lt_is_Some. pose proof (idx_bound q i H). lia.
Qed.

Lemma slot_set_same q i s s' : slot q i = Some s' -> slot (set_slot q i s) i = Some s.
Proof. intros Hs. apply list_lookup_insert_eq. by eapply lookup_lt_Some. Qed.

Lemma slot_set_other q i j s : 0 < capacity_ q -> idx q i <> idx q j -> slot (set_slot q i s) j = slot q j.
Proof. intros Hc Hne. apply list_lookup_insert_ne. intros E. apply Hne. by apply slot_index. Qed.

(** Two threads that rely on the counter of the same slot have the same ticket
    on the same side. *)
Lemma distinct_slots q x y sx sy :
  0 < capacity_ q -> slot q x.2 = Some (mkSlot (mark q x) sx) -> slot q y.2 = Some (mkSlot (mark q y) sy) ->
  x <> y -> idx q x.2 <> idx q y.2.
Proof.
  intros Hc Hx Hy Hne Hi. apply Hne, (mark_inj q); [done|done|].
  unfold slot in *. rewrite Hi in Hx. congruence.
Qed.

Lemma held_update ths i p p' y :
  ths !! i = Some p -> ticket_of p <> Some y -> held ths y -> held (<[i := p']> ths) y.
Proof.
  intros Hi Hp (j & pj & Hj & Hy). exists j, pj. split; [|done]. rewrite list_lookup_insert_ne; [done|].
  intros ->. congruence.
Qed.

Lemma held_new ths i p p' x : ths !! i = Some p -> ticket_of p' = Some x -> held (<[i := p']> ths) x.
Proof. intros Hi Hp'. exists i, p'. split; [|done]. apply list_lookup_insert_eq. by eapply lookup_lt_Some. Qed.

(** The slot of a ticket and what its counter says. *)
Lemma inv_slot q ths P R h sl :
  inv (q, ths) P R -> 0 <= h -> slot q h = Some sl ->
  exists p, 0 <= p /\ idx q p = idx q h /\ p - capacity_ q < tail_ q /\ head_ q <= p + capacity_ q /\ stage q ths P p sl.
Proof.
  intros Hinv Hh Hs. destruct (i_slots _ _ _ Hinv _ _ Hs) as (p & Hp & Hi & Hw & Hw2 & Hst). cbn [fst snd] in *.
  exists p. split; [done|]. split; [|done]. symmetry. apply slot_index; [apply (i_cap _ _ _ Hinv)|done].
Qed.

Lemma inv_marked q ths P R b h st :
  inv (q, ths) P R -> 0 <= h -> slot q h = Some (mkSlot (mark q (b, h)) st) ->
  h - capacity_ q < tail_ q /\ head_ q <= h + capacity_ q /\
  (if b : bool then tail_ q <= h /\ ((head_ q <= h /\ st = None) \/ (h < head_ q /\ held ths (true, h)))
   else h < head_ q /\ ((tail_ q <= h /\ st = P !! Z.to_nat h) \/ (h < tail_ q /\ held ths (false, h)))).
Proof.
  intros Hinv Hh Hs. destruct (inv_slot _ _ _ _ _ _ Hinv Hh Hs) as (p & Hp & Hi & Hw & Hw2 & Hst).
  pose proof (i_cap _ _ _ Hinv) as Hc. unfold stage in Hst. cbn [occupy storage fst] in *.
  destruct Hst as [(Hm & Ht & Hst)|(Hm & Ht & Hst)];
    apply (mark_inj q) in Hm; cbn [snd] in *; try done; injection Hm as -> ->; (split; [done|split; done]).
Qed.

(** ** Steps that leave the queue alone *)
Lemma inv_quiet q ths P R i p p' :
  inv (q, ths) P R -> ths !! i = Some p -> ticket_of p = None -> ticket_of p' = None -> pc_ok q P (map fst R) p' ->
  inv (q, <[i := p']> ths) P R.
Proof.
  intros [Hc Hl Hh Ht Hr Hcnt Hs Hp Hu Ho Hn Hk] Hi Hp1 Hp2 Hok. cbn [fst snd] in *.
  assert (Hlt : (i < length ths)%nat) by (by eapply lookup_lt_Some).
  assert (Hheld : forall y, held ths y -> held (<[i:=p']> ths) y) by (intros y; apply (held_update ths i p); congruence).
  constructor; cbn [fst snd]; try done.
  - intros j sl Hj. destruct (Hs j sl Hj) as (t & Ht0 & Ht1 & Ht2 & Ht3 & Hst). exists t.
    split; [done|]. split; [done|]. split; [done|]. split; [done|].
    unfold stage in *. destruct Hst as [(? & ? & [?|[? ?]])|(? & ? & [?|[? ?]])]; [left..|right|right]; (split; [done|]; split; [done|]);
      [by left|right; by auto|by left|right; by auto].
  - intros j pj Hj. apply list_lookup_insert_Some in Hj as [(<- & <- & _)|[_ Hj]]; [done|by apply Hp in Hj].
  - intros j1 j2 p1 p2 x H1 H2 E1 E2.
    apply list_lookup_insert_Some in H1 as [(<- & <- & _)|[_ H1]]; [congruence|].
    apply list_lookup_insert_Some in H2 as [(<- & <- & _)|[_ H2]]; [congruence|]. by eapply Hu.
  - intros t Hlt'. destruct (Hk t Hlt') as [?|[j Hj]]; [by left|right]. exists j. rewrite list_lookup_insert_ne; [done|].
    intros ->. rewrite Hi in Hj. injection Hj as ->. discriminate Hp1.
Qed.

(** ** Steps of an owner on its slot *)

(** What the other threads rely on is in other slots. *)
Lemma pc_ok_set_slot q ths P R R' i j p pj x st s' :
  inv (q, ths) P R -> ths !! i = Some p -> ticket_of p = Some x -> owns q x st -> ths !! j = Some pj -> i <> j ->
  (forall t, t ∈ R' -> t ∈ map fst R \/ (false, t) = x) ->
  pc_ok (set_slot q x.2 s') P R' pj.
Proof.
  intros Hinv Hi Hx (Hb & Hside & Hsl) Hj Hij HR. pose proof (i_cap _ _ _ Hinv) as Hc. cbn [fst] in Hc.
  pose proof (i_pcs _ _ _ Hinv j pj Hj) as Hok. cbn [fst snd] in Hok.
  assert (Hkeep : forall y sy, y <> x -> slot q y.2 = Some (mkSlot (mark q y) sy) ->
    slot (set_slot q x.2 s') y.2 = Some (mkSlot (mark q y) sy)).
  { intros y sy Hne Hy. rewrite slot_set_other; [done|done|]. by apply (distinct_slots q x y st sy). }
  assert (Hown : forall y sy, ticket_of pj = Some y -> owns q y sy -> owns (set_slot q x.2 s') y sy).
  { intros y sy Hy (H1 & H2 & H3). split; [done|]. split; [done|]. apply Hkeep; [|done]. intros ->.
    apply Hij. by apply (i_uniq _ _ _ Hinv i j p pj x). }
  destruct pj as [|v h|v h|v h|v h|h|r|t|t|t|t|v t|r]; cbn [pc_ok] in *; try done.
  - destruct Hok as [H1 H2]. split; [done|]. intros E. destruct (H2 E) as [sy Hy]. exists sy.
    apply (Hkeep (true, h)); [|done]. intros <-. cbn in *. lia.
  - destruct Hok as [H1 H2]. split; [by apply Hown|done].
  - by apply Hown.
  - destruct Hok as [H1 H2]. split; [done|]. intros E. destruct (H2 E) as [sy Hy]. exists sy.
    apply (Hkeep (false, t)); [|done]. intros <-. cbn in *. lia.
  - destruct Hok as [H1 H2]. split; [by apply Hown|]. intros Hin. destruct (HR t Hin) as [?| <-]; [done|].
    apply Hij. by apply (i_uniq _ _ _ Hinv i j p (PopMove t) (false, t)).
  - by apply Hown.
Qed.

Lemma inv_owner q ths P R R' i p p' x st s' p2 :
  inv (q, ths) P R -> ths !! i = Some p -> ticket_of p = Some x -> owns q x st ->
  ticket_of p' = Some x \/ ticket_of p' = None ->
  pc_ok (set_slot q x.2 s') P (map fst R') p' ->
  0 <= p2 -> idx q p2 = idx q x.2 -> p2 - capacity_ q < tail_ q -> head_ q <= p2 + capacity_ q ->
  stage (set_slot q x.2 s') (<[i := p']> ths) P p2 s' ->
  (R' = R /\ (forall t, p <> PopMove t)) \/ (exists v, R' = R ++ [(x.2, v)] /\ p = PopMove x.2 /\ P !! Z.to_nat x.2 = Some v) ->
  inv (set_slot q x.2 s', <[i := p']> ths) P R'.
Proof.
  intros Hinv Hi Hx Hown Hp' Hok Hp20 Hp2i Hp2w Hp2h Hst2 HR.
  assert (HRin : forall t, t ∈ map fst R' -> t ∈ map fst R \/ (false, t) = x).
  { intros t Hin. destruct HR as [[-> _]|(v & -> & -> & _)]; [by left|]. rewrite map_app in Hin.
    apply elem_of_app in Hin as [?|Hin%list_elem_of_singleton]; [by left|right]. cbn in Hin, Hx. destruct x. cbn in *. congruence. }
  assert (Hother : forall j pj, ths !! j = Some pj -> i <> j -> pc_ok (set_slot q x.2 s') P (map fst R') pj)
    by (intros j pj Hj Hij; exact (pc_ok_set_slot q ths P R _ i j p pj x st s' Hinv Hi Hx Hown Hj Hij HRin)).
  destruct Hinv as [Hc Hl Hh Ht Hr Hcnt Hs Hp Hu Ho Hn Hk] eqn:Einv. cbn [fst snd] in *. clear Einv.
  destruct Hown as (Hxb & Hside & Hsl).
  constructor; cbn [fst snd head_ tail_ count_ capacity_ set_slot]; try done.
  - rewrite <- Hl. apply length_insert.
  - intros k sl Hk'. change (idx (set_slot q x.2 s')) with (idx q). destruct (decide (k = Z.to_nat (idx q x.2))) as [->|Hne].
    + pose proof (slot_set_same q x.2 s' _ Hsl) as E. unfold slot in E. cbn [slots_ set_slot] in *.
      change (idx (set_slot q x.2 s') x.2) with (idx q x.2) in E. cbn [slots_ set_slot] in E. rewrite E in Hk'. injection Hk' as <-.
      exists p2. split; [done|]. split; [by rewrite Hp2i|]. split; [done|]. by split.
    + cbn [slots_ set_slot] in Hk'. rewrite list_lookup_insert_ne in Hk' by done.
      destruct (Hs k sl Hk') as (t & Ht0 & -> & Ht2 & Ht3 & Hst). exists t.
      split; [done|]. split; [done|]. split; [done|]. split; [done|].
      assert (Hheld : forall b, held ths (b, t) -> held (<[i:=p']> ths) (b, t)).
      { intros b. apply (held_update ths i p); [done|]. intros E. apply Hne. rewrite E in Hx. injection Hx as <-. done. }
      unfold stage in *. cbn [head_ tail_ set_slot] in *.
      destruct Hst as [(? & ? & [?|[? ?]])|(? & ? & [?|[? ?]])]; [left..|right|right]; (split; [done|]; split; [done|]);
        [by left|right; by auto|by left|right; by auto].
  - intros j pj Hj. apply list_lookup_insert_Some in Hj as [(<- & <- & _)|[Hij Hj]]; [done|by apply (Hother j)].
  - intros j1 j2 p1 p2' y H1 H2 E1 E2.
    apply list_lookup_insert_Some in H1 as [(<- & <- & _)|[Hn1 H1]];
      apply list_lookup_insert_Some in H2 as [(<- & <- & _)|[Hn2 H2]]; [done| | |by eapply Hu].
    + destruct Hp' as [Hp'|Hp']; [|congruence]. apply (Hu i j2 p p2' y); congruence.
    + destruct Hp' as [Hp'|Hp']; [|congruence]. apply (Hu j1 i p1 p y); congruence.
  - intros t v Hin. destruct HR as [[-> _]|(w & -> & -> & Hw)]; [by apply Ho|].
    apply elem_of_app in Hin as [Hin|Hin%list_elem_of_singleton]; [by apply Ho|]. injection Hin as -> ->. split; [|done].
    destruct x as [b t]. cbn in Hx, Hside, Hxb |- *. injection Hx as <-. lia.
  - destruct HR as [[-> _]|(w & -> & -> & Hw)]; [done|]. rewrite map_app. apply NoDup_app. split; [done|]. split.
    + intros t Hin Ht'%list_elem_of_singleton. subst t. pose proof (Hp i _ Hi) as [_ Hnin]. by apply Hnin.
    + apply NoDup_singleton.
  - intros t Hlt. destruct (Hk t Hlt) as [Hin|[j Hj]].
    + left. destruct HR as [[-> _]|(w & -> & _)]; [done|]. rewrite map_app. apply elem_of_app. by left.
    + destruct (decide (i = j)) as [->|Hij].
      * rewrite Hi in Hj. injection Hj as ->. destruct HR as [[_ Hne]|(w & -> & E & _)]; [by destruct (Hne t)|].
        left. injection E as ->. rewrite map_app. apply elem_of_app. right. by left.
      * right. exists j. by rewrite list_lookup_insert_ne.
Qed.

(** The next slot state is the one of the ticket one turn later. *)
Lemma turn_next q i : 0 < capacity_ q -> turn q (i + capacity_ q) = turn q i + 1 /\ idx q (i + capacity_ q) = idx q i.
Proof.
  intros Hc. unfold turn, idx. replace (i + capacity_ q) with (i + 1 * capacity_ q) by lia.
  rewrite Z.div_add, Z.mod_add by lia. done.
Qed.

(** ** Taking a ticket *)
Lemma ticket_owns q P R pj x : pc_ok q P R pj -> ticket_of pj = Some x -> exists st, owns q x st.
Proof. destruct pj; cbn [pc_ok ticket_of]; try done; intros H [= <-]; [destruct H as [H _]| |destruct H as [H _]|]; by eexists. Qed.

Lemma lookup_snoc_old (P : list T) v t : 0 <= t < Z.of_nat (length P) -> (P ++ [v]) !! Z.to_nat t = P !! Z.to_nat t.
Proof. intros H. apply lookup_app_l. lia. Qed.

Lemma lookup_snoc_new (P : list T) v : (P ++ [v]) !! Z.to_nat (Z.of_nat (length P)) = Some v.
Proof. rewrite Nat2Z.id. by apply list_lookup_middle. Qed.

Lemma inv_claim q ths P R i v h :
  inv (q, ths) P R -> ths !! i = Some (EmplaceCas v h) -> head_ q = h ->
  inv (set_head q (h + 1), <[i := EmplaceConstruct v h]> ths) (P ++ [v]) R.
Proof.
  intros Hinv Hi Hh. pose proof (i_pcs _ _ _ Hinv i _ Hi) as [Hb Hm]. cbn [fst snd] in *.
  destruct (Hm (eq_sym Hh)) as [st Hsl]. destruct (inv_marked q ths P R true h st Hinv ltac:(lia) Hsl) as (Hw & _ & Ht0 & Hst).
  assert (st = None) as -> by (destruct Hst as [[_ ?]|[? _]]; [done|lia]).
  destruct Hinv as [Hc Hl Hhd Ht Hr Hcnt Hs Hp Hu Ho Hn Hk]. cbn [fst snd] in *.
  assert (Hown : forall y, ticket_of (EmplaceCas v h) <> Some y) by done.
  assert (Hnext : forall k sl p, slots_ q !! k = Some sl -> k = Z.to_nat (idx q p) -> head_ q <= p + capacity_ q ->
    stage q ths P p sl -> h + 1 <= p + capacity_ q).
  { intros k sl p Hk' -> Hph Hstage. destruct (Z.eq_dec (p + capacity_ q) h) as [E|]; [exfalso|lia].
    destruct (turn_next q p Hc) as [_ Ein]. rewrite E in Ein. change (slot q p = Some sl) in Hk'.
    assert (Hm2 : occupy sl = mark q (true, h)) by (unfold slot in Hsl, Hk'; cbn [snd] in Hsl; rewrite Ein, Hk' in Hsl; by injection Hsl as ->).
    unfold stage in Hstage. destruct Hstage as [(Hmk & _)|(Hmk & _)]; rewrite Hm2 in Hmk;
      apply (mark_inj q) in Hmk; cbn [snd] in *; try done; injection Hmk as ->; lia. }
  constructor; cbn [fst snd head_ tail_ count_ capacity_ slots_ set_head]; try done; try lia.
  - rewrite length_app. simpl. lia.
  - intros k sl Hk'. destruct (Hs k sl Hk') as (p & Hp0 & Hpi & Hpw & Hph & Hstage). exists p.
    split; [done|]. split; [done|]. split; [done|]. split; [by apply (Hnext k sl)|]. unfold stage in *. cbn [head_ tail_ set_head].
    change (mark (set_head q (h + 1))) with (mark q).
    destruct Hstage as [(Hmk & Htp & [[Hge ?]|[? ?]])|(Hmk & Hlt & [[? Est]|[? ?]])].
    + left. split; [done|]. split; [done|]. destruct (decide (p = h)) as [->|Hne]; [right|left; split; [lia|done]].
      split; [lia|]. by apply (held_new ths i (EmplaceCas v h)).
    + left. split; [done|]. split; [done|]. right. split; [lia|]. by apply (held_update ths i (EmplaceCas v h)).
    + right. split; [done|]. split; [lia|]. left. split; [done|]. rewrite lookup_snoc_old by lia. done.
    + right. split; [done|]. split; [lia|]. right. split; [done|]. by apply (held_update ths i (EmplaceCas v h)).
  - intros j pj Hj. apply list_lookup_insert_Some in Hj as [(<- & <- & _)|[Hij Hj]].
    + cbn. split; [|rewrite <- Hh, Hhd; apply lookup_snoc_new]. split; [cbn; lia|]. split; [done|done].
    + pose proof (Hp j pj Hj) as Hok.
      assert (Hmono : forall x so, owns q x so -> owns (set_head q (h + 1)) x so).
      { intros [b g] so (? & ? & ?). cbn in *. split; [cbn; lia|]. by split. }
      destruct pj as [|w g|w g|w g|w g|g|r|t|t|t|t|w t|r]; cbn in Hok |- *; try done; try lia.
      * destruct Hok as [Ho1 ?]. rewrite lookup_snoc_old by (destruct Ho1; cbn in *; lia). split; [by apply Hmono|done].
      * rewrite lookup_snoc_old by (destruct Hok; cbn in *; lia). by apply Hmono.
      * destruct Hok as [Ho1 ?]. rewrite lookup_snoc_old by (destruct Ho1; cbn in *; lia). split; [by apply Hmono|done].
      * by apply Hmono.
  - intros j1 j2 p1 p2 y H1 H2 E1 E2.
    assert (Hfresh : forall j pj, ths !! j = Some pj -> ticket_of pj <> Some (true, h)).
    { intros j pj Hj Hy. destruct (ticket_owns _ _ _ _ _ (Hp j pj Hj) Hy) as (? & Hb' & _). cbn in Hb'. lia. }
    apply list_lookup_insert_Some in H1 as [(<- & <- & _)|[Hn1 H1]];
      apply list_lookup_insert_Some in H2 as [(<- & <- & _)|[Hn2 H2]]; [done| | |by eapply Hu].
    + cbn in E1. injection E1 as <-. by destruct (Hfresh j2 p2 H2).
    + cbn in E2. injection E2 as <-. by destruct (Hfresh j1 p1 H1).
  - intros t w Hin. destruct (Ho t w Hin) as [? ?]. split; [done|]. by rewrite lookup_snoc_old by lia.
  - intros t Ht'. destruct (Hk t Ht') as [?|[j Hj]]; [by left|right]. exists j. rewrite list_lookup_insert_ne; [done|].
    intros ->. congruence.
Qed.

Lemma inv_take q ths P R i t :
  inv (q, ths) P R -> ths !! i = Some (PopCas t) -> tail_ q = t ->
  inv (set_tail q (t + 1), <[i := PopMove t]> ths) P R.
Proof.
  intros Hinv Hi Ht1. pose proof (i_pcs _ _ _ Hinv i _ Hi) as [Hb Hm]. cbn [fst snd] in *.
  destruct (Hm (eq_sym Ht1)) as [st Hsl]. destruct (inv_marked q ths P R false t st Hinv ltac:(lia) Hsl) as (Hw & _ & Hth & Hst).
  assert (st = P !! Z.to_nat t) as -> by (destruct Hst as [[_ ?]|[? _]]; [done|lia]).
  destruct Hinv as [Hc Hl Hhd Ht Hr Hcnt Hs Hp Hu Ho Hn Hk]. cbn [fst snd] in *.
  assert (Hne : forall p sl, slot q p = Some sl -> occupy sl = mark q (true, p) -> p <> t).
  { intros p sl Hsp Hmk ->. rewrite Hsl in Hsp. injection Hsp as <-. unfold mark in Hmk. cbn in Hmk. lia. }
  constructor; cbn [fst snd head_ tail_ count_ capacity_ slots_ set_tail]; try done; try lia.
  - intros k sl Hk'. destruct (Hs k sl Hk') as (p & Hp0 & Hpi & Hpw & Hph & Hstage). exists p.
    split; [done|]. split; [done|]. split; [|split; [done|]]; [change (capacity_ (set_tail q (t + 1))) with (capacity_ q); lia|].
    rewrite Hpi in Hk'. change (slots_ q !! Z.to_nat (idx q p)) with (slot q p) in Hk'.
    unfold stage in *. cbn [head_ tail_ set_tail]. change (mark (set_tail q (t + 1))) with (mark q).
    destruct Hstage as [(Hmk & Htp & Hx)|(Hmk & Hlt & [[? Est]|[? ?]])].
    + left. pose proof (Hne p sl Hk' Hmk). split; [done|]. split; [lia|]. destruct Hx as [?|[? ?]]; [by left|right].
      split; [done|]. by apply (held_update ths i (PopCas t)).
    + right. split; [done|]. split; [done|]. destruct (decide (p = t)) as [->|Hnp]; [right|left; split; [lia|done]].
      split; [lia|]. by apply (held_new ths i (PopCas t)).
    + right. split; [done|]. split; [done|]. right. split; [lia|]. by apply (held_update ths i (PopCas t)).
  - intros j pj Hj. apply list_lookup_insert_Some in Hj as [(<- & <- & _)|[Hij Hj]].
    + cbn. split; [split; [cbn; lia|split; [cbn; lia|done]]|]. intros ([t' w] & E & Hin)%list_elem_of_fmap.
      destruct (Ho _ _ Hin). cbn in *. lia.
    + pose proof (Hp j pj Hj) as Hok.
      assert (Hprod : forall g so, owns q (true, g) so -> owns (set_tail q (t + 1)) (true, g) so).
      { intros g so (? & ? & Hg). pose proof (Hne g _ Hg eq_refl). cbn in *. split; [done|]. split; [cbn; lia|done]. }
      assert (Hcons : forall g so, owns q (false, g) so -> owns (set_tail q (t + 1)) (false, g) so).
      { intros g so (? & ? & Hg). cbn in *. split; [done|]. split; [cbn; lia|done]. }
      destruct pj as [|w g|w g|w g|w g|g|r|g|g|g|g|w g|r]; cbn in Hok |- *; try done; try lia.
      * destruct Hok. split; [by apply Hprod|done].
      * by apply Hprod.
      * destruct Hok. split; [by apply Hcons|done].
      * by apply Hcons.
  - intros j1 j2 p1 p2 y H1 H2 E1 E2.
    assert (Hfresh : forall j pj, ths !! j = Some pj -> ticket_of pj <> Some (false, t)).
    { intros j pj Hj Hy. destruct (ticket_owns _ _ _ _ _ (Hp j pj Hj) Hy) as (? & _ & Hb' & _). cbn in Hb'. lia. }
    apply list_lookup_insert_Some in H1 as [(<- & <- & _)|[Hn1 H1]];
      apply list_lookup_insert_Some in H2 as [(<- & <- & _)|[Hn2 H2]]; [done| | |by eapply Hu].
    + cbn in E1. injection E1 as <-. by destruct (Hfresh j2 p2 H2).
    + cbn in E2. injection E2 as <-. by destruct (Hfresh j1 p1 H1).
  - intros g w Hin. destruct (Ho g w Hin) as [? ?]. split; [lia|done].
  - intros g Hg. destruct (decide (g = t)) as [->|Hng].
    + right. exists i. apply list_lookup_insert_eq. by eapply lookup_lt_Some.
    + destruct (Hk g ltac:(lia)) as [?|[j Hj]]; [by left|right]. exists j. rewrite list_lookup_insert_ne; [done|].
      intros ->. congruence.
Qed.

(** ** Every run *)
Lemma inv_initial capacity threads : 0 < capacity -> inv (initial capacity threads) [] [].
Proof.
  intros Hc. assert (Hidle : forall j p, replicate threads Idle !! j = Some p -> p = Idle)
    by (intros j p Hj; by apply lookup_replicate in Hj as [-> _]).
  constructor; cbn [fst snd initial new_queue capacity_ slots_ head_ tail_ count_]; try done; try lia.
  - apply length_replicate.
  - intros i sl Hi. apply lookup_replicate in Hi as [-> Hi]. exists (Z.of_nat i).
    assert (Hmod : Z.of_nat i mod capacity = Z.of_nat i) by (apply Z.mod_small; lia).
    split; [lia|]. unfold idx. cbn [capacity_ fst new_queue head_]. rewrite Hmod. split; [lia|]. split; [lia|]. split; [lia|]. left. unfold mark, turn.
    cbn. rewrite Z.div_small by lia. split; [lia|]. split; [lia|]. left. split; [lia|done].
  - intros j p Hj%Hidle. by subst.
  - intros j1 j2 p1 p2 x H1%Hidle H2 E. by subst.
  - intros t v Hin. by apply elem_of_nil in Hin.
  - constructor.
Qed.

Lemma mark_u64 q x c :
  0 < capacity_ q -> 0 <= x < 2 ^ 62 -> 0 <= c <= 2 -> u64 (turn q x * 2 + c) = turn q x * 2 + c.
Proof. intros Hc Hx Hr. apply Z.mod_small. pose proof (turn_bound q x Hc ltac:(lia)). lia. Qed.

Lemma emplace_step_inv q ths P R i p :
  inv (q, ths) P R -> ths !! i = Some p -> Z.of_nat (length P) < 2 ^ 62 - 1 ->
  match p with EmplaceTest _ _ | EmplaceCas _ _ | EmplaceReload _ _ | EmplaceConstruct _ _ | EmplaceStore _ => True | _ => False end ->
  exists q' p' evs, emplace_step q p = Some (q', p', evs) /\ inv (q', <[i := p']> ths) (P ++ pushes evs) (R ++ pops evs).
Proof.
  intros Hinv Hi HP Hp. pose proof (i_pcs _ _ _ Hinv i p Hi) as Hok. cbn [fst snd] in Hok.
  pose proof (i_cap _ _ _ Hinv) as Hc. pose proof (i_head _ _ _ Hinv) as Hh. pose proof (i_tail _ _ _ Hinv) as Ht.
  pose proof (i_len _ _ _ Hinv) as Hl. cbn [fst snd] in *.
  destruct p as [|v h|v h|v h|v h|h|r|t|t|t|t|v t|r]; try done; cbn [emplace_step pc_ok] in *.
  - destruct (slot_some q h Hc Hl) as [sl Hsl]. rewrite Hsl. cbn [mbind option_bind].
    do 3 eexists. split; [done|]. cbn [pushes pops]. rewrite !app_nil_r.
    apply (inv_quiet q ths P R i _ _ Hinv Hi); [done|by case_match|].
    pose proof (mark_u64 q h 0 Hc) as Hm. rewrite Z.add_0_r in Hm. rewrite Hm by lia.
    destruct (Z.eqb_spec (turn q h * 2) (occupy sl)) as [E|]; [|done]. cbn. split; [done|]. intros _.
    exists (storage sl). cbn [snd]. rewrite Hsl. destruct sl. cbn in *. do 2 f_equal. unfold mark. cbn. lia.
  - destruct (Z.eqb_spec (head_ q) h) as [E|].
    + do 3 eexists. split; [done|]. cbn [pushes pops]. rewrite app_nil_r. rewrite u64_id by (unfold is_u64; lia).
      by apply inv_claim.
    + do 3 eexists. split; [done|]. cbn [pushes pops]. rewrite !app_nil_r.
      apply (inv_quiet q ths P R i _ _ Hinv Hi); [done|done|]. cbn. lia.
  - do 3 eexists. split; [done|]. cbn [pushes pops]. rewrite !app_nil_r.
    apply (inv_quiet q ths P R i _ _ Hinv Hi); [done|by case_match|]. case_match; cbn; [done|lia].
  - destruct Hok as [Hown Hv]. pose proof Hown as (Hb & Hs & Hsl). cbn [snd] in Hsl. rewrite Hsl. cbn [mbind option_bind storage].
    do 3 eexists. split; [done|]. cbn [pushes pops]. rewrite !app_nil_r.
    destruct (inv_marked q ths P R true h None Hinv ltac:(cbn in *; lia) Hsl) as (Hw & Hw2 & _).
    apply (inv_owner q ths P R R i _ (EmplaceStore h) (true, h) None _ h Hinv Hi); try done; [by left| |cbn in *; lia| |by left].
    + cbn [pc_ok]. split; [done|]. split; [done|]. cbn [snd]. rewrite (slot_set_same q h _ _ Hsl), Hv. done.
    + left. split; [done|]. split; [done|]. right. split; [cbn in *; lia|]. by eapply held_new.
  - pose proof Hok as (Hb & Hs & Hsl). cbn [snd] in Hsl. rewrite Hsl. cbn [mbind option_bind storage].
    do 3 eexists. split; [done|]. cbn [pushes pops]. rewrite !app_nil_r.
    destruct (inv_marked q ths P R true h _ Hinv ltac:(cbn in *; lia) Hsl) as (Hw & Hw2 & _).
    pose proof (mark_u64 q h 1 Hc) as Hm. rewrite Hm by (cbn in *; lia).
    apply (inv_owner q ths P R R i _ (EmplaceDone true) (true, h) _ _ h Hinv Hi eq_refl Hok); try done; [by right|cbn in *; lia| |by left].
    right. cbn in Hb, Hs |- *. split; [unfold mark; cbn; change (turn (set_slot q h _) h) with (turn q h); lia|]. split; [lia|].
    left. split; [lia|done].
Qed.

Lemma pop_step_inv q ths P R i p :
  inv (q, ths) P R -> ths !! i = Some p -> Z.of_nat (length P) < 2 ^ 62 ->
  match p with PopTest _ | PopCas _ | PopReload _ | PopMove _ | PopStore _ _ => True | _ => False end ->
  exists q' p' evs, pop_step q p = Some (q', p', evs) /\ inv (q', <[i := p']> ths) (P ++ pushes evs) (R ++ pops evs).
Proof.
  intros Hinv Hi HP Hp. pose proof (i_pcs _ _ _ Hinv i p Hi) as Hok. cbn [fst snd] in Hok.
  pose proof (i_cap _ _ _ Hinv) as Hc. pose proof (i_head _ _ _ Hinv) as Hh. pose proof (i_tail _ _ _ Hinv) as Ht.
  pose proof (i_len _ _ _ Hinv) as Hl. cbn [fst snd] in *.
  destruct p as [|v h|v h|v h|v h|h|r|t|t|t|t|v t|r]; try done; cbn [pop_step pc_ok] in *.
  - destruct (slot_some q t Hc Hl) as [sl Hsl]. rewrite Hsl. cbn [mbind option_bind].
    do 3 eexists. split; [done|]. cbn [pushes pops]. rewrite !app_nil_r.
    apply (inv_quiet q ths P R i _ _ Hinv Hi); [done|by case_match|].
    rewrite (mark_u64 q t 1 Hc) by lia.
    destruct (Z.eqb_spec (turn q t * 2 + 1) (occupy sl)) as [E|]; [|done]. cbn. split; [done|]. intros _.
    exists (storage sl). cbn [snd]. rewrite Hsl. destruct sl. cbn in *. do 2 f_equal. unfold mark. cbn. lia.
  - destruct (Z.eqb_spec (tail_ q) t) as [E|].
    + do 3 eexists. split; [done|]. cbn [pushes pops]. rewrite !app_nil_r. rewrite u64_id by (unfold is_u64; lia).
      by apply inv_take.
    + do 3 eexists. split; [done|]. cbn [pushes pops]. rewrite !app_nil_r.
      apply (inv_quiet q ths P R i _ _ Hinv Hi); [done|done|]. cbn. lia.
  - do 3 eexists. split; [done|]. cbn [pushes pops]. rewrite !app_nil_r.
    apply (inv_quiet q ths P R i _ _ Hinv Hi); [done|by case_match|]. case_match; cbn; [done|lia].
  - destruct Hok as [Hown Hnin]. pose proof Hown as (Hb & Hs & Hsl). cbn [snd] in Hsl. rewrite Hsl. cbn [mbind option_bind storage].
    destruct (lookup_lt_is_Some_2 P (Z.to_nat t)) as [v Hv]; [cbn in *; lia|]. rewrite Hv in *.
    do 3 eexists. split; [done|]. cbn [pushes pops]. rewrite app_nil_r.
    destruct (inv_marked q ths P R false t _ Hinv ltac:(cbn in *; lia) Hsl) as (Hw & Hw2 & _).
    apply (inv_owner q ths P R _ i _ (PopStore v t) (false, t) _ _ t Hinv Hi eq_refl Hown);
      try done; [by left| |cbn in *; lia| |by right; exists v].
    + cbn [pc_ok]. split; [done|]. split; [done|]. cbn [snd]. by rewrite (slot_set_same q t _ _ Hsl).
    + right. split; [done|]. split; [cbn in *; lia|]. right. split; [cbn in *; lia|]. by eapply held_new.
  - pose proof Hok as (Hb & Hs & Hsl). cbn [snd] in Hsl. rewrite Hsl. cbn [mbind option_bind storage].
    do 3 eexists. split; [done|]. cbn [pushes pops]. rewrite !app_nil_r.
    destruct (inv_marked q ths P R false t _ Hinv ltac:(cbn in *; lia) Hsl) as (Hw & Hw2 & _).
    rewrite (mark_u64 q t 2 Hc) by (cbn in *; lia). destruct (turn_next q t Hc) as [Etn Ein].
    pose proof (i_room _ _ _ Hinv) as Hroom. cbn [fst] in Hroom.
    apply (inv_owner q ths P R R i _ (PopDone (Some v)) (false, t) _ _ (t + capacity_ q) Hinv Hi eq_refl Hok);
      try done; [by right|cbn in *; lia|cbn in *; lia|cbn in *; lia| |by left].
    cbn in Hb, Hs. left. cbn [occupy]. split; [unfold mark; cbn [fst snd]; change (turn (set_slot q t _)) with (turn q); lia|].
    split; [cbn; lia|]. left. split; [done|done].
Qed.

Lemma thread_step_inv q ths P R i p :
  inv (q, ths) P R -> ths !! i = Some p -> Z.of_nat (length P) < 2 ^ 62 - 1 -> finished p = false ->
  exists q' p' evs, thread_step q p = Some (q', p', evs) /\ inv (q', <[i := p']> ths) (P ++ pushes evs) (R ++ pops evs).
Proof.
  intros Hinv Hi HP Hf. unfold thread_step.
  destruct p; try done; ((by apply emplace_step_inv) || (apply pop_step_inv; [done|done|lia|done])).
Qed.

Lemma pushes_app tr1 tr2 : pushes (tr1 ++ tr2) = pushes tr1 ++ pushes tr2.
Proof. induction tr1 as [|[v|t v] tr1 IH]; cbn [pushes app]; by rewrite ?IH. Qed.
Lemma pops_app tr1 tr2 : pops (tr1 ++ tr2) = pops tr1 ++ pops tr2.
Proof. induction tr1 as [|[v|t v] tr1 IH]; cbn [pops app]; by rewrite ?IH. Qed.

Lemma step_inv s P R evs s' :
  inv s P R -> Z.of_nat (length P) < 2 ^ 62 - 1 -> step s evs s' -> inv s' (P ++ pushes evs) (R ++ pops evs).
Proof.
  intros Hinv HP Hstep. destruct Hstep as [q ths i p v Hi Hf|q ths i p Hi Hf|q ths i p q' p' evs Hi Hf Hst].
  - cbn [pushes pops]. rewrite !app_nil_r. apply (inv_quiet q ths P R i p); [done|done|by destruct p|done|].
    pose proof (i_tail _ _ _ Hinv). cbn in *. lia.
  - cbn [pushes pops]. rewrite !app_nil_r. apply (inv_quiet q ths P R i p); [done|done|by destruct p|done|].
    pose proof (i_tail _ _ _ Hinv). cbn in *. lia.
  - destruct (thread_step_inv q ths P R i p Hinv Hi HP Hf) as (q2 & p2 & evs2 & E & Hinv2).
    rewrite Hst in E. injection E as <- <- <-. done.
Qed.

Lemma queue_run_inv capacity threads tr s :
  0 < capacity -> run (initial capacity threads) tr s -> Z.of_nat (length (pushes tr)) < 2 ^ 62 - 1 ->
  inv s (pushes tr) (pops tr).
Proof.
  intros Hc Hrun. remember (initial capacity threads) as s0. induction Hrun as [|s0 tr s1 evs s2 Hrun IH Hstep]; intros HP.
  - subst. by apply inv_initial.
  - rewrite pushes_app, pops_app in *. rewrite length_app in HP. apply (step_inv s1); [|lia|done]. apply IH; [done|lia].
Qed.

Lemma run_capacity s tr s' : run s tr s' -> capacity_ s'.1 = capacity_ s.1.
Proof.
  induction 1 as [|s tr s1 evs s2 _ IH Hstep]; [done|]. rewrite <- IH. clear -Hstep.
  destruct Hstep as [| |q ths i p q' p' evs _ _ Hst]; [done|done|]. cbn [fst].
  destruct p; cbn [thread_step emplace_step pop_step] in Hst;
    repeat (case_match; cbn [mbind option_bind] in Hst); simplify_eq; try done;
    destruct (slot q _) as [sl|]; cbn [mbind option_bind] in Hst; try done; repeat case_match; by simplify_eq.
Qed.

(** ** Rest and progress *)

(** Two tickets of one slot in a window of the capacity are the same. *)
Lemma window_eq q a b : 0 < capacity_ q -> idx q a = idx q b -> - capacity_ q < a - b < capacity_ q -> a = b.
Proof.
  unfold idx. intros Hc Hi Hw. pose proof (Z.div_mod a (capacity_ q) ltac:(lia)). pose proof (Z.div_mod b (capacity_ q) ltac:(lia)).
  rewrite Hi in *. assert (a / capacity_ q = b / capacity_ q) by nia. nia.
Qed.

Lemma at_rest q ths P R t :
  inv (q, ths) P R -> Forall (fun p => finished p = true) ths -> tail_ q <= t < head_ q ->
  slot q t = Some (mkSlot (mark q (false, t)) (P !! Z.to_nat t)).
Proof.
  intros Hinv Hf Ht. pose proof (i_cap _ _ _ Hinv) as Hc. pose proof (i_len _ _ _ Hinv) as Hl.
  pose proof (i_room _ _ _ Hinv) as Hr. pose proof (i_tail _ _ _ Hinv) as Htl. cbn [fst snd] in *.
  destruct (slot_some q t Hc Hl) as [sl Hsl]. rewrite Hsl. f_equal.
  destruct (inv_slot q ths P R t sl Hinv ltac:(lia) Hsl) as (p & Hp & Hi & Hw & Hw2 & Hst).
  assert (Hno : forall x, ~ held ths x).
  { intros x (j & pj & Hj & Hx). rewrite Forall_lookup in Hf. specialize (Hf j pj Hj). by destruct pj. }
  unfold stage in Hst. destruct sl as [o st]. cbn [occupy storage] in Hst.
  destruct Hst as [(-> & Hle & [[Hge _]|[_ Hh]])|(-> & Hlt & [[Hle ->]|[_ Hh]])]; try (by apply Hno in Hh).
  - assert (p = t) by (apply (window_eq q); [done|done|lia]). lia.
  - by assert (p = t) as -> by (apply (window_eq q); [done|done|lia]).
Qed.

(** Running one thread alone. *)
Fixpoint solo (fuel : nat) (q : FixLenLockFreeQueue) (p : pc) : option (FixLenLockFreeQueue * pc) :=
  if finished p then Some (q, p)
  else match fuel with
       | O => None
       | S fuel' => '(q, p, _) ← thread_step q p; solo fuel' q p
       end.

(** The steps a thread needs at most if no other runs. *)
Definition rank (q : FixLenLockFreeQueue) (p : pc) : nat :=
  match p with
  | Idle | EmplaceDone _ | PopDone _ => 0
  | EmplaceTest _ h => if h =? head_ q then 4 else 6
  | EmplaceCas _ h => if h =? head_ q then 3 else 5
  | EmplaceReload _ h => if h =? head_ q then 1 else 5
  | PopTest t => if t =? tail_ q then 4 else 6
  | PopCas t => if t =? tail_ q then 3 else 5
  | PopReload t => if t =? tail_ q then 1 else 5
  | EmplaceConstruct _ _ | PopMove _ => 2
  | EmplaceStore _ | PopStore _ _ => 1
  end.

Lemma rank_step q p q' p' evs :
  finished p = false -> thread_step q p = Some (q', p', evs) -> (rank q' p' + length (pushes evs) <= rank q p)%nat /\ (rank q' p' < rank q p)%nat.
Proof.
  intros Hf Hst. destruct p as [|v h|v h|v h|v h|h|r|t|t|t|t|v t|r]; try done; cbn [thread_step emplace_step pop_step] in Hst.
  - destruct (slot q h) as [sl|]; [|done]. cbn [mbind option_bind] in Hst. injection Hst as <- <- <-. cbn.
    destruct (_ =? occupy sl); cbn; destruct (h =? head_ q); lia.
  - cbn. destruct (Z.eqb_spec (head_ q) h) as [E|E]; injection Hst as <- <- <-; cbn.
    + rewrite (proj2 (Z.eqb_eq h (head_ q))) by done. lia.
    + rewrite Z.eqb_refl, (proj2 (Z.eqb_neq h (head_ q))) by congruence. lia.
  - injection Hst as <- <- <-. cbn. destruct (Z.eqb_spec (head_ q) h) as [E|E]; cbn.
    + rewrite (proj2 (Z.eqb_eq h (head_ q))) by done. lia.
    + rewrite Z.eqb_refl, (proj2 (Z.eqb_neq h (head_ q))) by congruence. lia.
  - destruct (slot q h) as [sl|]; [|done]. cbn [mbind option_bind] in Hst. destruct (storage sl); [done|].
    injection Hst as <- <- <-. cbn. lia.
  - destruct (slot q h) as [sl|]; [|done]. cbn [mbind option_bind] in Hst. injection Hst as <- <- <-. cbn. lia.
  - destruct (slot q t) as [sl|]; [|done]. cbn [mbind option_bind] in Hst. injection Hst as <- <- <-. cbn.
    destruct (_ =? occupy sl); cbn; destruct (t =? tail_ q); lia.
  - cbn. destruct (Z.eqb_spec (tail_ q) t) as [E|E]; injection Hst as <- <- <-; cbn.
    + rewrite (proj2 (Z.eqb_eq t (tail_ q))) by done. lia.
    + rewrite Z.eqb_refl, (proj2 (Z.eqb_neq t (tail_ q))) by congruence. lia.
  - injection Hst as <- <- <-. cbn. destruct (Z.eqb_spec (tail_ q) t) as [E|E]; cbn.
    + rewrite (proj2 (Z.eqb_eq t (tail_ q))) by done. lia.
    + rewrite Z.eqb_refl, (proj2 (Z.eqb_neq t (tail_ q))) by congruence. lia.
  - destruct (slot q t) as [sl|]; [|done]. cbn [mbind option_bind] in Hst. destruct (storage sl); [|done].
    injection Hst as <- <- <-. cbn. lia.
  - destruct (slot q t) as [sl|]; [|done]. cbn [mbind option_bind] in Hst. injection Hst as <- <- <-. cbn. lia.
Qed.

Lemma solo_finishes fuel q ths P R i p :
  inv (q, ths) P R -> ths !! i = Some p -> (rank q p <= fuel)%nat -> Z.of_nat (length P + rank q p) < 2 ^ 62 - 1 ->
  exists q' p', solo fuel q p = Some (q', p') /\ finished p' = true.
Proof.
  revert q ths P R p. induction fuel as [|fuel IH]; intros q ths P R p Hinv Hi Hr HP; cbn [solo].
  { destruct (finished p) eqn:E; [by exists q, p|]. destruct p; try done; cbn in Hr; try (case_match; lia); lia. }
  destruct (finished p) eqn:E; [by exists q, p|].
  destruct (thread_step_inv q ths P R i p Hinv Hi ltac:(lia) E) as (q' & p' & evs & Est & Hinv'). rewrite Est.
  cbn [mbind option_bind]. destruct (rank_step q p q' p' evs E Est) as [H1 H2].
  apply (IH q' _ _ _ p' Hinv'); [|lia|rewrite length_app; lia].
  apply list_lookup_insert_eq. by eapply lookup_lt_Some.
Qed.

Lemma slot_set_tail q t i : slot (set_tail q t) i = slot q i.
Proof. done. Qed.
Lemma slot_set_head q h i : slot (set_head q h) i = slot q i.
Proof. done. Qed.

(** The slot of the next ticket at rest: free if there is room, else the one of
    the oldest value. *)
Lemma rest_head q ths P R :
  inv (q, ths) P R -> Forall (fun p => finished p = true) ths ->
  if head_ q - tail_ q <? capacity_ q then slot q (head_ q) = Some (mkSlot (mark q (true, head_ q)) None)
  else exists st, slot q (head_ q) = Some (mkSlot (mark q (false, tail_ q)) st) /\ idx q (head_ q) = idx q (tail_ q).
Proof.
  intros Hinv Hf. pose proof (i_cap _ _ _ Hinv) as Hc. pose proof (i_len _ _ _ Hinv) as Hl.
  pose proof (i_room _ _ _ Hinv) as Hr. pose proof (i_tail _ _ _ Hinv) as Htl. cbn [fst snd] in *.
  destruct (Z.ltb_spec (head_ q - tail_ q) (capacity_ q)).
  - destruct (slot_some q (head_ q) Hc Hl) as [sl Hsl]. rewrite Hsl. f_equal.
    destruct (inv_slot q ths P R (head_ q) sl Hinv ltac:(lia) Hsl) as (p & Hp & Hi & Hw & Hw2 & Hst).
    assert (Hno : forall x, ~ held ths x).
    { intros x (j & pj & Hj & Hx). rewrite Forall_lookup in Hf. specialize (Hf j pj Hj). by destruct pj. }
    unfold stage in Hst. destruct sl as [o st]. cbn [occupy storage] in Hst.
    destruct Hst as [(-> & Hle & [[Hge ->]|[_ Hh]])|(-> & Hlt & [[Hle ->]|[_ Hh]])]; try (by apply Hno in Hh).
    + by assert (p = head_ q) as -> by (apply (window_eq q); [done|done|lia]).
    + assert (p = head_ q) by (apply (window_eq q); [done|done|lia]). lia.
  - assert (E : head_ q = tail_ q + capacity_ q) by lia. destruct (turn_next q (tail_ q) Hc) as [_ Ein]. rewrite <- E in Ein.
    eexists. split; [|exact Ein]. unfold slot. rewrite Ein. apply (at_rest q ths P R); [done|done|lia].
Qed.

Lemma emplace_at_rest q ths P R v :
  inv (q, ths) P R -> Forall (fun p => finished p = true) ths -> Z.of_nat (length P) < 2 ^ 61 ->
  exists q', solo 6 q (TryEmplace q v) = Some (q', EmplaceDone (head_ q - tail_ q <? capacity_ q)).
Proof.
  intros Hinv Hf HP. pose proof (rest_head q ths P R Hinv Hf) as Hs. pose proof (i_cap _ _ _ Hinv) as Hc.
  pose proof (i_head _ _ _ Hinv) as Hh. cbn [fst snd] in *. unfold TryEmplace. cbn [solo finished thread_step emplace_step].
  pose proof (mark_u64 q (head_ q) 0 Hc) as Hm. rewrite Z.add_0_r in Hm.
  destruct (head_ q - tail_ q <? capacity_ q).
  - rewrite Hs. cbn [mbind option_bind occupy mark fst snd]. rewrite Hm by lia.
    rewrite (proj2 (Z.eqb_eq (turn q (head_ q) * 2) _)) by (unfold mark; cbn; lia). cbn [solo finished thread_step emplace_step].
    rewrite Z.eqb_refl. cbn [mbind option_bind solo finished thread_step emplace_step]. rewrite slot_set_head, Hs.
    cbn [mbind option_bind storage occupy solo finished thread_step emplace_step].
    rewrite (slot_set_same (set_head q _) (head_ q) _ _ Hs). cbn [mbind option_bind solo finished]. by eexists.
  - destruct Hs as (st & -> & Ein). cbn [mbind option_bind occupy]. rewrite Hm by lia.
    rewrite (proj2 (Z.eqb_neq (turn q (head_ q) * 2) _)) by (unfold mark; cbn; lia). cbn [solo finished thread_step emplace_step mbind option_bind].
    rewrite Z.eqb_refl. cbn [solo finished]. by eexists.
Qed.

Lemma pop_at_rest q ths P R :
  inv (q, ths) P R -> Forall (fun p => finished p = true) ths -> Z.of_nat (length P) < 2 ^ 61 ->
  exists q', solo 6 q (Pop q) = Some (q', PopDone (P !! Z.to_nat (tail_ q))).
Proof.
  intros Hinv Hf HP. pose proof (i_cap _ _ _ Hinv) as Hc. pose proof (i_head _ _ _ Hinv) as Hh.
  pose proof (i_tail _ _ _ Hinv) as Ht. cbn [fst snd] in *. unfold Pop. cbn [solo finished thread_step pop_step].
  rewrite (mark_u64 q (tail_ q) 1 Hc) by lia.
  destruct (Z_lt_le_dec (tail_ q) (head_ q)) as [Hlt|Hge].
  - pose proof (at_rest q ths P R (tail_ q) Hinv Hf ltac:(lia)) as Hs.
    destruct (lookup_lt_is_Some_2 P (Z.to_nat (tail_ q))) as [v Hv]; [lia|]. rewrite Hv in *.
    rewrite Hs. cbn [mbind option_bind occupy mark fst snd].
    rewrite (proj2 (Z.eqb_eq _ _)) by (unfold mark; cbn; lia). cbn [solo finished thread_step pop_step].
    rewrite Z.eqb_refl. cbn [mbind option_bind solo finished thread_step pop_step]. rewrite slot_set_tail, Hs.
    cbn [mbind option_bind storage occupy solo finished thread_step pop_step].
    rewrite (slot_set_same (set_tail q _) (tail_ q) _ _ Hs). cbn [mbind option_bind solo finished]. by eexists.
  - pose proof (rest_head q ths P R Hinv Hf) as Hs. rewrite (proj2 (Z.ltb_lt _ _)) in Hs by lia.
    assert (E : tail_ q = head_ q) by lia. rewrite (lookup_ge_None_2 P) by lia. rewrite E, Hs. cbn [mbind option_bind occupy].
    rewrite (proj2 (Z.eqb_neq _ _)) by (unfold mark; cbn; lia). cbn [solo finished thread_step pop_step mbind option_bind].
    rewrite (proj2 (Z.eqb_eq _ _)) by lia. cbn [solo finished]. by eexists.
Qed.

(** ** Schedules *)
Inductive choice := Emplace (i : nat) (v : T) | Take (i : nat) | Run (i : nat).

Definition exec_one (c : choice) (s : sys) : option (sys * list event) :=
  let '(q, ths) := s in
  match c with
  | Emplace i v => p ← ths !! i; if finished p then Some ((q, <[i := TryEmplace q v]> ths), []) else None
  | Take i => p ← ths !! i; if finished p then Some ((q, <[i := Pop q]> ths), []) else None
  | Run i =>
      p ← ths !! i;
      if finished p then None else '(q, p, evs) ← thread_step q p; Some ((q, <[i := p]> ths), evs)
  end.

Fixpoint exec (l : list choice) (s : sys) (tr : list event) : option (sys * list event) :=
  match l with
  | [] => Some (s, tr)
  | c :: l' => '(s, evs) ← exec_one c s; exec l' s (tr ++ evs)
  end.

Lemma exec_one_step c s s' evs : exec_one c s = Some (s', evs) -> step s evs s'.
Proof.
  destruct s as [q ths], c as [i v|i|i]; cbn [exec_one]; destruct (ths !! i) as [p|] eqn:Hi; cbn [mbind option_bind]; try done;
    destruct (finished p) eqn:Hf; try done.
  - intros [= <- <-]. by apply (step_emplace q ths i p).
  - intros [= <- <-]. by apply (step_pop q ths i p).
  - destruct (thread_step q p) as [[[q' p'] evs']|] eqn:E; cbn [mbind option_bind]; [|done]. intros [= <- <-].
    by apply (step_run q ths i p).
Qed.

Lemma exec_run l s0 tr0 s s' tr : run s0 tr0 s -> exec l s tr0 = Some (s', tr) -> run s0 tr s'.
Proof.
  revert tr0 s. induction l as [|c l IH]; intros tr0 s Hrun; cbn [exec]; [by intros [= <- <-]|].
  destruct (exec_one c s) as [[s1 evs]|] eqn:E; cbn [mbind option_bind]; [|done].
  apply IH. eapply run_snoc; [exact Hrun|]. by apply (exec_one_step c).
Qed.

(** ** Theorems *)

(** C13: the bounded queue is a first-in first-out queue for any number of
    threads.  In every run from the empty queue no thread ever constructs over
    a value or moves out of an empty slot; the value a consumer takes with its
    ticket is the one pushed with that ticket, so values leave in the order
    they entered; no ticket is taken out twice, every ticket handed to a
    consumer was taken out or is about to be; there are never more than
    [capacity] tickets between tail and head; and when all threads rest, the
    slots of these hold exactly the values not yet popped.  (Fewer than 2^62-1
    pushes, so that no counter wraps.) *)
Theorem queue_fifo capacity threads tr q ths :
  0 < capacity -> run (initial capacity threads) tr (q, ths) -> Z.of_nat (length (pushes tr)) < 2 ^ 62 - 1 ->
  (forall i p, ths !! i = Some p -> finished p = false -> thread_step q p <> None) /\
  (head_ q = Z.of_nat (length (pushes tr)) /\ 0 <= tail_ q <= head_ q /\ head_ q <= tail_ q + capacity) /\
  (forall t v, (t, v) ∈ pops tr -> pushes tr !! Z.to_nat t = Some v) /\
  NoDup (map fst (pops tr)) /\
  (forall t, 0 <= t < tail_ q -> t ∈ map fst (pops tr) \/ exists i, ths !! i = Some (PopMove t)) /\
  (Forall (fun p => finished p = true) ths -> forall t, tail_ q <= t < head_ q ->
     option_map storage (slot q t) = Some (pushes tr !! Z.to_nat t)).
Proof.
  intros Hc Hrun HP. pose proof (queue_run_inv _ _ _ _ Hc Hrun HP) as Hinv. pose proof (run_capacity _ _ _ Hrun) as Hcap. cbn in Hcap.
  split; [|split; [|split; [|split; [|split]]]].
  - intros i p Hi Hf. destruct (thread_step_inv q ths _ _ i p Hinv Hi HP Hf) as (q' & p' & evs & -> & _). done.
  - split; [apply (i_head _ _ _ Hinv)|]. split; [apply (i_tail _ _ _ Hinv)|].
    pose proof (i_room _ _ _ Hinv) as Hr. cbn [fst] in Hr. lia.
  - intros t v Hin. by apply (i_pops _ _ _ Hinv).
  - apply (i_nodup _ _ _ Hinv).
  - apply (i_taken _ _ _ Hinv).
  - intros Hf t Ht. by rewrite (at_rest q ths _ _ t Hinv Hf Ht).
Qed.

(** C14: progress.  From every reachable state a thread that runs alone finishes
    its operation within six steps, whatever the others were doing: no thread
    can block another for good.  When the others rest, [TryEmplace] succeeds
    exactly if there is room, and [Pop] returns the oldest value, or nothing
    from an empty queue. *)
Theorem queue_progress capacity threads tr q ths :
  0 < capacity -> run (initial capacity threads) tr (q, ths) -> Z.of_nat (length (pushes tr)) < 2 ^ 61 ->
  (forall i p, ths !! i = Some p -> exists q' p', solo 6 q p = Some (q', p') /\ finished p' = true) /\
  (Forall (fun p => finished p = true) ths ->
     (forall v, exists q', solo 6 q (TryEmplace q v) = Some (q', EmplaceDone (head_ q - tail_ q <? capacity))) /\
     exists q', solo 6 q (Pop q) = Some (q', PopDone (pushes tr !! Z.to_nat (tail_ q)))).
Proof.
  intros Hc Hrun HP. pose proof (queue_run_inv _ _ _ _ Hc Hrun ltac:(lia)) as Hinv.
  pose proof (run_capacity _ _ _ Hrun) as Hcap. cbn in Hcap. split.
  - assert (Hrank : forall p, (rank q p <= 6)%nat) by (intros p; destruct p; cbn; try lia; case_match; lia).
    intros i p Hi. specialize (Hrank p). apply (solo_finishes 6 q ths (pushes tr) (pops tr) i); [done|done|done|lia].
  - intros Hf. split; [|by apply (pop_at_rest q ths (pushes tr) (pops tr))].
    intros v. rewrite <- Hcap. by apply (emplace_at_rest q ths (pushes tr) (pops tr)).
Qed.

(** The element counter is never changed. *)
Lemma Empty_always_true capacity threads tr q ths :
  0 < capacity -> run (initial capacity threads) tr (q, ths) -> Z.of_nat (length (pushes tr)) < 2 ^ 62 - 1 ->
  Empty q = true /\ Count q = 0.
Proof.
  intros Hc Hrun HP. pose proof (i_count _ _ _ (queue_run_inv _ _ _ _ Hc Hrun HP)) as E. cbn in E.
  unfold Empty, Count. by rewrite E.
Qed.
End FixLenLockFreeQueue.

(** Two producers that race for the first ticket, and a consumer that waits for
    the slower one to publish. *)
Definition sample_schedule : list choice :=
  [Emplace 0 5; Emplace 1 7; Run 0; Run 1; Run 1; Run 0; Run 1; Run 0; Run 1; Run 0; Run 0; Run 0;
   Take 2; Run 2; Run 2; Run 2; Run 2].

Definition sample_system : option (sys * list event) := exec sample_schedule (initial 2 3) [].
Definition sample_state : sys := match sample_system with Some (s, _) => s | None => initial 2 3 end.
Definition sample_trace : list event := match sample_system with Some (_, tr) => tr | None => [] end.

Lemma sample_run : run (initial 2 3) sample_trace (sample_state.1, sample_state.2).
Proof. apply (exec_run sample_schedule _ [] (initial 2 3)); [constructor|]. vm_compute. reflexivity. Qed.

Lemma queue_fifo_witness :
  sample_trace = [Pushed 7; Pushed 5; Popped 0 7] /\ (pushes sample_trace) !! 0%nat = Some 7.
Proof.
  split; [vm_compute; reflexivity|].
  destruct (queue_fifo 2 3 sample_trace sample_state.1 sample_state.2) as (_ & _ & Hv & _).
  - lia.
  - exact sample_run.
  - vm_compute. reflexivity.
  - apply (Hv 0 7). vm_compute. by left.
Defined.

Lemma queue_progress_witness :
  exists q', solo 6 sample_state.1 (Pop sample_state.1) = Some (q', PopDone (Some 5)).
Proof.
  destruct (queue_progress 2 3 sample_trace sample_state.1 sample_state.2) as (_ & Hrest).
  - lia.
  - exact sample_run.
  - vm_compute. reflexivity.
  - destruct Hrest as [_ (q' & E)].
    + vm_compute. repeat (apply Forall_cons_2; [reflexivity|]). apply Forall_nil_2.
    + exists q'. rewrite E. vm_compute. reflexivity.
Defined.
