(* ===== verification/LockFreeQueue.v ===== *)
(** The unbounded lock-free queue ([LockFreeQueue], [lockfree_queue.h]).

    Any number of threads run [Push] and [Pop]; as in [BoundedQueue] a step of
    a thread is one access to shared memory and memory is sequentially
    consistent.  Nodes live in a memory that only grows, as the code never
    deletes them; a node that was moved out of has no data.  A weak exchange
    may fail although the head is as expected ([spurious]).  [None] as the
    result of a step is undefined behaviour: an access outside of the nodes, or
    a node moved out of twice.

    [Empty] and [Count] are one load each and so are functions of the state. *)
From S2P Require Import Prelude.

Section LockFreeQueue.
Context {T : Type}.

(** ** State *)
Record node := mkNode { data : option T; next : option nat }.

Record LockFreeQueue := mkLockFree { head_ : option nat; count_ : Z; times_ : Z; nodes : list node }.

Definition new_lockfree : LockFreeQueue := mkLockFree None 0 0 [].

Definition set_head (q : LockFreeQueue) (h : option nat) : LockFreeQueue :=
  mkLockFree h (count_ q) (times_ q) (nodes q).
Definition set_count (q : LockFreeQueue) (c : Z) : LockFreeQueue := mkLockFree (head_ q) c (times_ q) (nodes q).
Definition set_node (q : LockFreeQueue) (n : nat) (nd : node) : LockFreeQueue :=
  mkLockFree (head_ q) (count_ q) (times_ q) (<[n := nd]> (nodes q)).

(** ** Threads *)

(** Where a thread is in [Push] or [Pop], with its local variables: [n] is
    [new_node], [r] is [result]. *)
Inductive pc :=
| Idle
| PushLoad (n : nat)
| PushCas (n : nat)
| PushCount
| PushDone
| PopLoad
| PopNext (r : nat)
| PopCas (r : nat) (nx : option nat)
| PopMove (r : nat)
| PopCount (v : T)
| PopDone (v : option T).

Inductive op := OpPush (v : T) | OpPop.

(** What happens, by thread: an operation is called, a value is put on top,
    the top is taken, or nothing is found. *)
Inductive event := Invoke (o : op) | Pushed (v : T) | Popped (v : T) | FoundEmpty.
Abbreviation trace := (list (nat * event)).

(** The calls: [Push] allocates its node. *)
Definition Push (q : LockFreeQueue) (v : T) : LockFreeQueue * pc :=
  (mkLockFree (head_ q) (count_ q) (times_ q) (nodes q ++ [mkNode (Some v) None]), PushLoad (length (nodes q))).

Definition Pop (q : LockFreeQueue) : LockFreeQueue * pc := (q, PopLoad).

(** A failed exchange stores the head it saw in [new_node->next]. *)
Definition push_step (spurious : bool) (q : LockFreeQueue) (p : pc) : option (LockFreeQueue * pc * list event) :=
  match p with
  | PushLoad n =>
      nd ← nodes q !! n;
      Some (set_node q n (mkNode (data nd) (head_ q)), PushCas n, [])
  | PushCas n =>
      nd ← nodes q !! n;
      if bool_decide (head_ q = next nd) && negb spurious then
        v ← data nd;
        Some (set_head q (Some n), PushCount, [Pushed v])
      else Some (set_node q n (mkNode (data nd) (head_ q)), PushLoad n, [])
  | PushCount => Some (set_count q (u64 (count_ q + 1)), PushDone, [])
  | _ => None
  end.

Definition pop_step (spurious : bool) (q : LockFreeQueue) (p : pc) : option (LockFreeQueue * pc * list event) :=
  match p with
  | PopLoad =>
      match head_ q with
      | None => Some (q, PopDone None, [FoundEmpty])
      | Some r => Some (q, PopNext r, [])
      end
  | PopNext r => nd ← nodes q !! r; Some (q, PopCas r (next nd), [])
  | PopCas r nx =>
      nd ← nodes q !! r;
      if bool_decide (head_ q = Some r) && negb spurious then
        v ← data nd;
        Some (set_head q nx, PopMove r, [Popped v])
      else Some (q, PopLoad, [])
  | PopMove r =>
      nd ← nodes q !! r;
      v ← data nd;
      Some (set_node q r (mkNode None (next nd)), PopCount v, [])
  | PopCount v => Some (set_count q (u64 (count_ q - 1)), PopDone (Some v), [])
  | _ => None
  end.

Definition finished (p : pc) : bool :=
  match p with Idle | PushDone | PopDone _ => true | _ => false end.

Definition thread_step (spurious : bool) (q : LockFreeQueue) (p : pc) : option (LockFreeQueue * pc * list event) :=
  match p with
  | PushLoad _ | PushCas _ | PushCount => push_step spurious q p
  | _ => pop_step spurious q p
  end.

Definition Empty (q : LockFreeQueue) : bool := match head_ q with None => true | Some _ => false end.
Definition Count (q : LockFreeQueue) : Z := count_ q.

(** A thread that runs alone; an exchange that fails for no reason is tried
    again by the code and is left out here. *)
Fixpoint solo (fuel : nat) (q : LockFreeQueue) (p : pc) : option (LockFreeQueue * pc) :=
  if finished p then Some (q, p)
  else match fuel with
       | O => None
       | S fuel => '(q, p, _) ← thread_step false q p; solo fuel q p
       end.

(** The destructor: pop until there is nothing; it returns what it dropped. *)
Fixpoint destroy (fuel : nat) (q : LockFreeQueue) : option (LockFreeQueue * list T) :=
  match fuel with
  | O => None
  | S fuel =>
      '(q, p) ← solo 7 (Pop q).1 (Pop q).2;
      match p with
      | PopDone (Some v) => '(q, vs) ← destroy fuel q; Some (q, v :: vs)
      | _ => Some (q, [])
      end
  end.

(** ** The system *)
Definition sys : Type := LockFreeQueue * list pc.

Definition invoke (o : op) (q : LockFreeQueue) : LockFreeQueue * pc :=
  match o with OpPush v => Push q v | OpPop => Pop q end.

Inductive step : sys -> trace -> sys -> Prop :=
| step_invoke q ths i p o :
    ths !! i = Some p -> finished p = true ->
    step (q, ths) [(i, Invoke o)] ((invoke o q).1, <[i := (invoke o q).2]> ths)
| step_run q ths i p spurious q' p' evs :
    ths !! i = Some p -> finished p = false -> thread_step spurious q p = Some (q', p', evs) ->
    step (q, ths) (map (pair i) evs) (q', <[i := p']> ths).

Inductive run : sys -> trace -> sys -> Prop :=
| run_nil s : run s [] s
| run_snoc s tr s1 evs s2 : run s tr s1 -> step s1 evs s2 -> run s (tr ++ evs) s2.

Definition initial (threads : nat) : sys := (new_lockfree, replicate threads Idle).

(** ** The specification: a stack *)
Inductive stack_step : list T -> event -> list T -> Prop :=
| stack_invoke s o : stack_step s (Invoke o) s
| stack_push s v : stack_step s (Pushed v) (v :: s)
| stack_pop s v : stack_step (v :: s) (Popped v) s
| stack_empty : stack_step [] FoundEmpty [].

Fixpoint stack_run (s : list T) (tr : trace) (s' : list T) : Prop :=
  match tr with
  | [] => s = s'
  | (_, e) :: tr => exists s1, stack_step s e s1 /\ stack_run s1 tr s'
  end.

(** The operation a thread runs or ran last, and its effects so far. *)
Definition track (i : nat) (st : option (op * list event)) (x : nat * event) : option (op * list event) :=
  if decide (x.1 = i) then
    match x.2, st with
    | Invoke o, _ => Some (o, [])
    | e, Some (o, es) => Some (o, es ++ [e])
    | _, None => None
    end
  else st.

Definition pending (i : nat) (tr : trace) : option (op * list event) := fold_left (track i) tr None.

(** What a thread that is done returned, and the one effect it had. *)
Definition answered (p : pc) (st : option (op * list event)) : Prop :=
  match p with
  | Idle => st = None
  | PushDone => exists v, st = Some (OpPush v, [Pushed v])
  | PopDone (Some v) => st = Some (OpPop, [Popped v])
  | PopDone None => st = Some (OpPop, [FoundEmpty])
  | _ => False
  end.

(** ** The invariant *)

(** The nodes linked from [h], with their values, top first. *)
Fixpoint linked (ns : list node) (h : option nat) (K : list (nat * T)) : Prop :=
  match K with
  | [] => h = None
  | (n, v) :: K => h = Some n /\ exists nx, ns !! n = Some (mkNode (Some v) nx) /\ linked ns nx K
  end.

(** The node only this thread may touch. *)
Definition own (p : pc) : option nat :=
  match p with PushLoad n | PushCas n | PopMove n => Some n | _ => None end.

(** What a thread relies on; [L] are the nodes that were ever linked. *)
Definition pc_ok (ns : list node) (L : list nat) (st : option (op * list event)) (p : pc) : Prop :=
  match p with
  | PushLoad n | PushCas n => n ∉ L /\ exists v nx, ns !! n = Some (mkNode (Some v) nx) /\ st = Some (OpPush v, [])
  | PushCount => exists v, st = Some (OpPush v, [Pushed v])
  | PopLoad => st = Some (OpPop, [])
  | PopNext r => r ∈ L /\ st = Some (OpPop, [])
  | PopCas r nx => r ∈ L /\ (exists d, ns !! r = Some (mkNode d nx)) /\ st = Some (OpPop, [])
  | PopMove r => r ∈ L /\ exists v nx, ns !! r = Some (mkNode (Some v) nx) /\ st = Some (OpPop, [Popped v])
  | PopCount v => st = Some (OpPop, [Popped v])
  | _ => answered p st
  end.

(** By how much a thread still has to change the count. *)
Definition debt (p : pc) : Z :=
  match p with PushCount => 1 | PopMove _ | PopCount _ => - 1 | _ => 0 end.

Definition debts (ths : list pc) : Z := foldr (fun p z => debt p + z) 0 ths.

Record inv (s : sys) (tr : trace) (K : list (nat * T)) (L : list nat) : Prop := {
  i_linked : linked (nodes s.1) (head_ s.1) K;
  i_nodup : NoDup (map fst K);
  i_published n : n ∈ map fst K -> n ∈ L;
  i_memory n : n ∈ L -> (n < length (nodes s.1))%nat;
  i_pcs i p : s.2 !! i = Some p -> pc_ok (nodes s.1) L (pending i tr) p;
  i_owned i p n : s.2 !! i = Some p -> own p = Some n -> n ∉ map fst K;
  i_uniq i j pi pj n : s.2 !! i = Some pi -> s.2 !! j = Some pj -> own pi = Some n -> own pj = Some n -> i = j;
  i_run : stack_run [] tr (map snd K);
  i_count : count_ s.1 = u64 (Z.of_nat (length K) - debts s.2)
}.

(** ** Lemmas on the parts *)
Lemma linked_set ns h K n nd : n ∉ map fst K -> linked ns h K -> linked (<[n := nd]> ns) h K.
Proof.
  revert h. induction K as [|[m v] K IH]; intros h Hn; cbn [linked map fst] in *; [done|].
  apply not_elem_of_cons in Hn as [Hne Hn]. intros (-> & nx & Hm & Hl). split; [done|]. exists nx.
  rewrite list_lookup_insert_ne by done. auto.
Qed.

Lemma linked_grow ns h K nd : linked ns h K -> linked (ns ++ [nd]) h K.
Proof.
  revert h. induction K as [|[m v] K IH]; intros h; cbn [linked]; [done|]. intros (-> & nx & Hm & Hl).
  split; [done|]. exists nx. split; [by apply lookup_app_l_Some|auto].
Qed.

Lemma linked_head ns h K : linked ns h K -> h = fst <$> head K.
Proof. destruct K as [|[n v] K]; cbn [linked]; [done|]. by intros [-> _]. Qed.

Lemma debts_update ths i p p' : ths !! i = Some p -> debts (<[i := p']> ths) = debts ths - debt p + debt p'.
Proof.
  revert i. induction ths as [|x ths IH]; intros i; [done|]. destruct i as [|i].
  - intros [= ->]. change (debt p' + debts ths = debt p + debts ths - debt p + debt p'). lia.
  - intros Hi. change (debt x + debts (<[i := p']> ths) = debt x + debts ths - debt p + debt p'). rewrite (IH i Hi). lia.
Qed.

Lemma stack_run_app s tr1 s1 tr2 s2 : stack_run s tr1 s1 -> stack_run s1 tr2 s2 -> stack_run s (tr1 ++ tr2) s2.
Proof.
  revert s. induction tr1 as [|[i e] tr1 IH]; intros s; cbn [stack_run app]; [by intros ->|].
  intros (s' & Hs & Hr) H2. eauto.
Qed.

Lemma stack_run_one s i e s' : stack_step s e s' -> stack_run s [(i, e)] s'.
Proof. intros H. exists s'. done. Qed.

Lemma pending_app i tr tr' : pending i (tr ++ tr') = fold_left (track i) tr' (pending i tr).
Proof. apply fold_left_app. Qed.

Lemma pending_other i j tr evs : i <> j -> pending i (tr ++ map (pair j) evs) = pending i tr.
Proof.
  intros Hne. rewrite pending_app. generalize (pending i tr). induction evs as [|e evs IH]; intros st; cbn [map fold_left]; [done|].
  unfold track at 2. cbn [fst]. rewrite decide_False by done. apply IH.
Qed.

Lemma pending_effect i tr e o es :
  (forall o, e <> Invoke o) -> pending i tr = Some (o, es) -> pending i (tr ++ [(i, e)]) = Some (o, es ++ [e]).
Proof.
  intros He E. rewrite pending_app, E. cbn [fold_left]. unfold track. cbn [fst snd]. rewrite decide_True by done.
  destruct e; [by edestruct He|done..].
Qed.

Lemma pending_invoke i tr o : pending i (tr ++ [(i, Invoke o)]) = Some (o, []).
Proof. rewrite pending_app. cbn [fold_left]. unfold track. cbn [fst snd]. by rewrite decide_True. Qed.

Lemma own_bound ns L st p n : pc_ok ns L st p -> own p = Some n -> (n < length ns)%nat.
Proof.
  destruct p; cbn [own pc_ok]; try done; intros Hok [= ->]; destruct Hok as [_ (v & nx & Hn & _)]; by eapply lookup_lt_Some.
Qed.

(** What the other threads rely on survives a change of a node they do not own
    ... *)
Lemma pc_ok_set ns L st n nd p :
  (forall m, own p = Some m -> m <> n) ->
  (n ∈ L -> exists d, ns !! n = Some (mkNode d (next nd))) ->
  pc_ok ns L st p -> pc_ok (<[n := nd]> ns) L st p.
Proof.
  intros Hown Hn.
  assert (Hkeep : forall m v nx, own p = Some m -> ns !! m = Some (mkNode (Some v) nx) ->
    <[n := nd]> ns !! m = Some (mkNode (Some v) nx)).
  { intros m v nx Hm Hv. rewrite list_lookup_insert_ne by (intros E; by apply (Hown m Hm)). done. }
  destruct p; cbn [pc_ok own] in *; try done.
  - intros (Hl & v & nx & Hv & Hst). split; [done|]. exists v, nx. split; [by apply Hkeep|done].
  - intros (Hl & v & nx & Hv & Hst). split; [done|]. exists v, nx. split; [by apply Hkeep|done].
  - intros (Hl & (d & Hd) & Hst). split; [done|]. split; [|done]. destruct (decide (r = n)) as [->|Hne].
    + destruct (Hn Hl) as [d' Hd']. exists (data nd). rewrite list_lookup_insert_eq by (by eapply lookup_lt_Some).
      rewrite Hd in Hd'. injection Hd' as _ ->. by destruct nd.
    + exists d. by rewrite list_lookup_insert_ne by done.
  - intros (Hl & v & nx & Hv & Hst). split; [done|]. exists v, nx. split; [by apply Hkeep|done].
Qed.

(** ... a new node ... *)
Lemma pc_ok_grow ns L st nd p : pc_ok ns L st p -> pc_ok (ns ++ [nd]) L st p.
Proof.
  assert (Hk : forall m x, ns !! m = Some x -> (ns ++ [nd]) !! m = Some x) by (intros m x; apply lookup_app_l_Some).
  destruct p; cbn [pc_ok]; naive_solver.
Qed.

(** ... and the publication of a node they do not own. *)
Lemma pc_ok_publish ns L st n p :
  (forall m, own p = Some m -> m <> n) -> pc_ok ns L st p -> pc_ok ns (n :: L) st p.
Proof.
  intros Hown. assert (Hout : forall m, own p = Some m -> m ∉ L -> m ∉ n :: L).
  { intros m Hm Hl. apply not_elem_of_cons. split; [by apply Hown|done]. }
  assert (Hin : forall m, m ∈ L -> m ∈ n :: L) by (by right).
  destruct p; cbn [pc_ok own] in *; naive_solver.
Qed.

(** A step of one thread, whatever it changes. *)
Lemma inv_update q ths tr K L i p q' p' evs K' L' :
  inv (q, ths) tr K L -> ths !! i = Some p ->
  linked (nodes q') (head_ q') K' -> NoDup (map fst K') ->
  (forall n, n ∈ map fst K' -> n ∈ L') -> (forall n, n ∈ L' -> (n < length (nodes q'))%nat) ->
  stack_run (map snd K) (map (pair i) evs) (map snd K') ->
  (forall c, count_ q = u64 c -> count_ q' = u64 (c + (Z.of_nat (length K') - Z.of_nat (length K)) + debt p - debt p')) ->
  pc_ok (nodes q') L' (pending i (tr ++ map (pair i) evs)) p' ->
  (forall n, own p' = Some n -> n ∉ map fst K') ->
  (forall n, n ∈ map fst K' -> n ∈ map fst K \/ own p = Some n) ->
  (forall n, own p' = Some n -> own p = Some n \/ n ∈ map fst K \/ (length (nodes q) <= n)%nat) ->
  (forall st pj, (forall m n, own pj = Some m -> own p = Some n -> m <> n) -> pc_ok (nodes q) L st pj -> pc_ok (nodes q') L' st pj) ->
  inv (q', <[i := p']> ths) (tr ++ map (pair i) evs) K' L'.
Proof.
  intros [Hl Hn Hpub Hm Hpcs Howned Hu Hr Hc] Hi Hl' Hn' Hpub' Hm' Hr' Hc' Hok Hown' HK Hnew Hothers. cbn [fst snd] in *.
  assert (Hsep : forall j pj, i <> j -> ths !! j = Some pj -> forall n, own pj = Some n -> own p' = Some n -> False).
  { intros j pj Hij Hj n E E'. destruct (Hnew n E') as [Ep|[Hin|Hge]].
    - by apply Hij, (Hu i j p pj n).
    - by apply (Howned j pj n).
    - pose proof (own_bound _ _ _ _ _ (Hpcs j pj Hj) E). lia. }
  constructor; cbn [fst snd]; try done.
  - intros j pj Hj. apply list_lookup_insert_Some in Hj as [(<- & <- & _)|[Hij Hj]]; [done|].
    rewrite pending_other by done. apply Hothers; [|by apply Hpcs].
    intros m n Em En ->. apply Hij. by apply (Hu i j p pj n).
  - intros j pj n Hj E. apply list_lookup_insert_Some in Hj as [(<- & <- & _)|[Hij Hj]]; [by apply Hown'|].
    intros Hin. destruct (HK n Hin) as [?|Ep]; [by apply (Howned j pj n)|]. by apply Hij, (Hu i j p pj n).
  - intros j1 j2 p1 p2 n H1 H2 E1 E2.
    apply list_lookup_insert_Some in H1 as [(<- & <- & _)|[N1 H1]];
      apply list_lookup_insert_Some in H2 as [(<- & <- & _)|[N2 H2]]; [done| | |by apply (Hu j1 j2 p1 p2 n)].
    + destruct (Hsep j2 p2 N2 H2 n E2 E1).
    + destruct (Hsep j1 p1 N1 H1 n E1 E2).
  - by apply (stack_run_app _ _ (map snd K)).
  - rewrite (debts_update ths i p) by done. rewrite (Hc' _ Hc). f_equal. lia.
Qed.

(** A step that changes at most the count. *)
Lemma inv_stay q ths tr K L i p c p' evs :
  inv (q, ths) tr K L -> ths !! i = Some p ->
  (forall z, count_ q = u64 z -> c = u64 (z + debt p - debt p')) ->
  (own p' = None) -> stack_run (map snd K) (map (pair i) evs) (map snd K) ->
  pc_ok (nodes q) L (pending i (tr ++ map (pair i) evs)) p' ->
  inv (set_count q c, <[i := p']> ths) (tr ++ map (pair i) evs) K L.
Proof.
  intros Hinv Hi Hc Ho Hr Hok. pose proof Hinv as [Hl Hn Hpub Hm _ _ _ _ _]. cbn [fst snd] in *.
  apply (inv_update q ths tr K L i p); cbn [set_count nodes head_ count_ fst]; try done.
  - intros z Hz. rewrite (Hc z Hz). f_equal. lia.
  - intros n E. by rewrite Ho in E.
  - auto.
  - intros n E. by rewrite Ho in E.
Qed.

(** A step that writes the node the thread owns. *)
Lemma inv_write q ths tr K L i p p' n nd :
  inv (q, ths) tr K L -> ths !! i = Some p -> own p = Some n -> (own p' = Some n \/ own p' = None) -> debt p = debt p' ->
  (n ∈ L -> exists d, nodes q !! n = Some (mkNode d (next nd))) ->
  pc_ok (<[n := nd]> (nodes q)) L (pending i tr) p' ->
  inv (set_node q n nd, <[i := p']> ths) (tr ++ map (pair i) []) K L.
Proof.
  intros Hinv Hi Hp Hp' Hd Hnx Hok. pose proof Hinv as [Hl Hn Hpub Hm _ Ho _ _ _]. cbn [fst snd] in *.
  assert (Hout : n ∉ map fst K) by (by apply (Ho i p)).
  apply (inv_update q ths tr K L i p); cbn [set_node nodes head_ count_ fst map]; try done.
  - by apply linked_set.
  - intros m Hin. rewrite length_insert. by apply Hm.
  - intros z ->. f_equal. lia.
  - by rewrite app_nil_r.
  - intros m E. destruct Hp' as [E'|E']; rewrite E' in E; [|done]. by injection E as <-.
  - auto.
  - intros m E. destruct Hp' as [E'|E']; rewrite E' in E; [|done]. left. congruence.
  - intros st pj Hsep Hpj. apply pc_ok_set; [|done|done]. intros m E. by apply Hsep.
Qed.

Lemma set_count_same q : set_count q (count_ q) = q.
Proof. by destruct q. Qed.

(** A step that only reads. *)
Lemma inv_read q ths tr K L i p p' evs :
  inv (q, ths) tr K L -> ths !! i = Some p -> debt p = debt p' -> own p' = None ->
  stack_run (map snd K) (map (pair i) evs) (map snd K) ->
  pc_ok (nodes q) L (pending i (tr ++ map (pair i) evs)) p' ->
  inv (q, <[i := p']> ths) (tr ++ map (pair i) evs) K L.
Proof.
  intros Hinv Hi Hd Ho Hr Hok. rewrite <- (set_count_same q) at 1. apply (inv_stay q ths tr K L i p); try done.
  intros z ->. f_equal. lia.
Qed.

(** ** The steps *)
Lemma push_cas_inv q ths tr K L i n v :
  inv (q, ths) tr K L -> ths !! i = Some (PushCas n) -> nodes q !! n = Some (mkNode (Some v) (head_ q)) ->
  pending i tr = Some (OpPush v, []) -> n ∉ L ->
  inv (set_head q (Some n), <[i := PushCount]> ths) (tr ++ map (pair i) [Pushed v]) ((n, v) :: K) (n :: L).
Proof.
  intros Hinv Hi Hn Hst HL. pose proof Hinv as [Hl Hnd Hpub Hm _ Ho _ _ _]. cbn [fst snd] in *.
  assert (Hout : n ∉ map fst K) by (by eapply Ho).
  apply (inv_update q ths tr K L i (PushCas n)); cbn [set_head nodes head_ count_ fst map]; try done.
  - split; [done|]. exists (head_ q). done.
  - constructor; done.
  - intros m [->|Hin]%elem_of_cons; [by left|right; auto].
  - intros m [->|Hin]%elem_of_cons; [by eapply lookup_lt_Some|auto].
  - apply stack_run_one. constructor.
  - intros z ->. f_equal. cbn [length debt]. lia.
  - exists v. by apply (pending_effect i tr (Pushed v) (OpPush v) []).
  - intros m [->|Hin]%elem_of_cons; [by right|by left].
  - intros st pj Hsep Hpj. apply pc_ok_publish; [|done]. intros m E. by apply Hsep.
Qed.

Lemma pop_cas_inv q ths tr K L i r nx :
  inv (q, ths) tr K L -> ths !! i = Some (PopCas r nx) -> head_ q = Some r ->
  exists v K', K = (r, v) :: K' /\ nodes q !! r = Some (mkNode (Some v) nx) /\
    inv (set_head q nx, <[i := PopMove r]> ths) (tr ++ map (pair i) [Popped v]) K' L.
Proof.
  intros Hinv Hi Hh. pose proof Hinv as [Hl Hnd Hpub Hm Hpcs Ho _ _ _]. cbn [fst snd] in *.
  destruct (Hpcs i _ Hi) as (HL & (d & Hd) & Hst).
  destruct K as [|[n v] K]; cbn [linked] in Hl; [congruence|]. destruct Hl as (E & nx' & Hn & Hl).
  rewrite Hh in E. injection E as <-. rewrite Hd in Hn. injection Hn as -> <-. exists v, K. split; [done|]. split; [done|].
  cbn [map fst] in Hnd, Hpub, Ho. apply NoDup_cons in Hnd as [Hout Hnd].
  apply (inv_update q ths tr ((r, v) :: K) L i (PopCas r nx)); cbn [set_head nodes head_ count_ fst map]; try done.
  - intros m Hin. apply Hpub. by right.
  - apply stack_run_one. constructor.
  - intros z ->. f_equal. cbn [length debt]. lia.
  - split; [done|]. exists v, nx. split; [done|]. by apply (pending_effect i tr (Popped v) OpPop []).
  - by intros m [= <-].
  - intros m Hin. left. by right.
  - intros m [= <-]. right. left. by left.
Qed.

(** A step of a thread is defined and keeps the invariant. *)
Lemma push_step_inv sp q ths tr K L i p :
  inv (q, ths) tr K L -> ths !! i = Some p ->
  match p with PushLoad _ | PushCas _ | PushCount => True | _ => False end ->
  exists q' p' evs K' L', push_step sp q p = Some (q', p', evs) /\ inv (q', <[i := p']> ths) (tr ++ map (pair i) evs) K' L'.
Proof.
  intros Hinv Hi Hp. pose proof (i_pcs _ _ _ _ Hinv i p Hi) as Hok. cbn [fst snd] in Hok.
  destruct p; try done; cbn [pc_ok] in Hok; cbn [push_step].
  - destruct Hok as (HL & v & nx & Hn & Hst). rewrite Hn. cbn [mbind option_bind data].
    eexists _, _, _, K, L. split; [done|]. apply (inv_write q ths tr K L i (PushLoad n)); try done; [by left|].
    split; [done|]. exists v, (head_ q). rewrite list_lookup_insert_eq by (by eapply lookup_lt_Some). done.
  - destruct Hok as (HL & v & nx & Hn & Hst). rewrite Hn. cbn [mbind option_bind data next].
    destruct (bool_decide (head_ q = nx) && negb sp) eqn:Ec.
    + apply andb_true_iff in Ec as [Ec _]. apply bool_decide_eq_true in Ec. subst nx.
      eexists _, _, _, _, _. split; [done|]. by apply push_cas_inv.
    + eexists _, _, _, K, L. split; [done|]. apply (inv_write q ths tr K L i (PushCas n)); try done; [by left|].
      split; [done|]. exists v, (head_ q). rewrite list_lookup_insert_eq by (by eapply lookup_lt_Some). done.
  - destruct Hok as (v & Hst). eexists _, _, _, K, L. split; [done|]. apply (inv_stay q ths tr K L i PushCount); try done.
    + intros z ->. cbn [debt]. unfold u64. rewrite Zplus_mod_idemp_l. f_equal. lia.
    + cbn [map]. rewrite app_nil_r. by exists v.
Qed.

Lemma lf_pop_step_inv sp q ths tr K L i p :
  inv (q, ths) tr K L -> ths !! i = Some p ->
  match p with PopLoad | PopNext _ | PopCas _ _ | PopMove _ | PopCount _ => True | _ => False end ->
  exists q' p' evs K' L', pop_step sp q p = Some (q', p', evs) /\ inv (q', <[i := p']> ths) (tr ++ map (pair i) evs) K' L'.
Proof.
  intros Hinv Hi Hp. pose proof Hinv as [Hl Hnd Hpub Hm Hpcs _ _ _ _]. cbn [fst snd] in *. specialize (Hpcs i p Hi).
  destruct p; try done; cbn [pc_ok] in Hpcs; cbn [pop_step].
  - destruct K as [|[n v] K]; cbn [linked] in Hl.
    + rewrite Hl. eexists _, _, _, [], L. split; [done|]. apply (inv_read q ths tr [] L i PopLoad); try done.
      * apply stack_run_one. constructor.
      * by apply (pending_effect i tr FoundEmpty OpPop []).
    + destruct Hl as [-> _]. eexists _, _, _, _, L. split; [done|]. apply (inv_read q ths tr _ L i PopLoad); try done.
      cbn [map]. rewrite app_nil_r. split; [|done]. apply Hpub. by left.
  - destruct Hpcs as [HL Hst]. destruct (lookup_lt_is_Some_2 (nodes q) r (Hm r HL)) as [[d nx] Hd]. rewrite Hd.
    cbn [mbind option_bind next]. eexists _, _, _, K, L. split; [done|]. apply (inv_read q ths tr K L i (PopNext r)); try done.
    cbn [map]. rewrite app_nil_r. split; [done|]. split; [by exists d|done].
  - destruct Hpcs as (HL & (d & Hd) & Hst). rewrite Hd. cbn [mbind option_bind data].
    destruct (bool_decide (head_ q = Some r) && negb sp) eqn:Ec.
    + apply andb_true_iff in Ec as [Ec _]. apply bool_decide_eq_true in Ec.
      destruct (pop_cas_inv _ _ _ _ _ _ _ _ Hinv Hi Ec) as (v & K' & _ & Hv & Hinv').
      rewrite Hd in Hv. injection Hv as ->. cbn [mbind option_bind]. by eexists _, _, _, _, _.
    + eexists _, _, _, K, L. split; [done|]. apply (inv_read q ths tr K L i (PopCas r nx)); try done.
      cbn [map pc_ok]. by rewrite app_nil_r.
  - destruct Hpcs as (HL & v & nx & Hn & Hst). rewrite Hn. cbn [mbind option_bind data next].
    eexists _, _, _, K, L. split; [done|]. apply (inv_write q ths tr K L i (PopMove r)); try done; [by right|].
    intros _. by exists (Some v).
  - eexists _, _, _, K, L. split; [done|]. apply (inv_stay q ths tr K L i (PopCount v)); try done.
    + intros z ->. cbn [debt]. unfold u64. rewrite Zminus_mod_idemp_l. f_equal. lia.
    + cbn [map pc_ok answered]. by rewrite app_nil_r.
Qed.

Lemma lf_thread_step_inv sp q ths tr K L i p :
  inv (q, ths) tr K L -> ths !! i = Some p -> finished p = false ->
  exists q' p' evs K' L', thread_step sp q p = Some (q', p', evs) /\ inv (q', <[i := p']> ths) (tr ++ map (pair i) evs) K' L'.
Proof.
  intros Hinv Hi Hf. destruct p; try done; unfold thread_step; (by apply (push_step_inv _ _ _ _ K L)) || by apply (lf_pop_step_inv _ _ _ _ K L).
Qed.

Lemma invoke_inv q ths tr K L i p o :
  inv (q, ths) tr K L -> ths !! i = Some p -> finished p = true ->
  inv ((invoke o q).1, <[i := (invoke o q).2]> ths) (tr ++ [(i, Invoke o)]) K L.
Proof.
  intros Hinv Hi Hf. pose proof Hinv as [Hl Hnd Hpub Hm _ _ _ _ _]. cbn [fst snd] in *.
  assert (Hd : debt p = 0 /\ own p = None) by (by destruct p). destruct Hd as [Hd Hown].
  change [(i, Invoke o)] with (map (pair i) [@Invoke o]). destruct o as [v|]; cbn [invoke Push Pop fst snd].
  - apply (inv_update q ths tr K L i p); cbn [nodes head_ count_ fst map]; try done.
    + by apply linked_grow.
    + intros n Hin. rewrite length_app. specialize (Hm n Hin). lia.
    + apply stack_run_one. constructor.
    + intros z ->. f_equal. cbn [debt]. lia.
    + split; [intros Hin; specialize (Hm _ Hin); lia|]. exists v, None. split; [|apply pending_invoke].
      by rewrite lookup_app_r, Nat.sub_diag by lia.
    + intros n [= <-] Hin%Hpub%Hm. lia.
    + auto.
    + intros n [= <-]. right. right. lia.
    + intros st pj _. apply pc_ok_grow.
  - apply (inv_read q ths tr K L i p); try done.
    + apply stack_run_one. constructor.
    + apply pending_invoke.
Qed.

(** ** Runs *)
Lemma debts_rest ths : Forall (fun p => finished p = true) ths -> debts ths = 0.
Proof. induction 1 as [|p ths Hp _ IH]; [done|]. change (debt p + debts ths = 0). rewrite IH. by destruct p. Qed.

Lemma lf_inv_initial threads : inv (initial threads) [] [] [].
Proof.
  assert (Hid : forall i p, replicate threads (@Idle) !! i = Some p -> p = Idle) by (by intros i p [-> _]%lookup_replicate).
  constructor; cbn [initial new_lockfree nodes head_ count_ fst snd map]; try done; try (by intros n ?%elem_of_nil).
  - constructor.
  - by intros i p ->%Hid.
  - by intros i p n ->%Hid.
  - by intros i j pi pj n ->%Hid.
  - rewrite debts_rest; [done|]. by apply Forall_replicate.
Qed.

Lemma lf_run_inv threads tr s : run (initial threads) tr s -> exists K L, inv s tr K L.
Proof.
  remember (initial threads) as s0 eqn:E0. induction 1 as [s|s tr s1 evs s2 Hrun IH Hstep]; subst.
  - exists [], []. apply lf_inv_initial.
  - destruct (IH eq_refl) as (K & L & Hinv). destruct Hstep as [q ths i p o Hi Hf|q ths i p sp q' p' evs Hi Hf Hs].
    + exists K, L. by apply (invoke_inv q ths tr K L i p).
    + destruct (lf_thread_step_inv sp q ths tr K L i p Hinv Hi Hf) as (q1 & p1 & evs1 & K' & L' & Hs' & Hinv').
      rewrite Hs in Hs'. injection Hs' as <- <- <-. by exists K', L'.
Qed.

Lemma finished_answered ns L st p : finished p = true -> pc_ok ns L st p -> answered p st.
Proof. by destruct p. Qed.

(** ** Progress *)
Definition rank (q : LockFreeQueue) (p : pc) : nat :=
  match p with
  | Idle | PushDone | PopDone _ => 0
  | PushLoad _ => 3
  | PushCas n => if decide (next <$> nodes q !! n = Some (head_ q)) then 2 else 4
  | PushCount | PopCount _ => 1
  | PopLoad => 5
  | PopNext r => if decide (head_ q = Some r) then 4 else 7
  | PopCas r _ => if decide (head_ q = Some r) then 3 else 6
  | PopMove _ => 2
  end.

Lemma lf_rank_step q p q' p' evs : thread_step false q p = Some (q', p', evs) -> (rank q' p' < rank q p)%nat.
Proof.
  destruct p; cbn [thread_step push_step pop_step rank]; try done.
  - destruct (nodes q !! n) as [nd|] eqn:Hn; cbn [mbind option_bind]; [|done]. intros [= <- <- <-]. cbn [rank set_node nodes head_].
    rewrite list_lookup_insert_eq by (by eapply lookup_lt_Some). rewrite decide_True by done. lia.
  - destruct (nodes q !! n) as [nd|] eqn:Hn; cbn [mbind option_bind fmap option_fmap option_map]; [|done].
    destruct (bool_decide_reflect (head_ q = next nd)) as [E|E]; cbn [andb negb].
    + destruct (data nd); cbn [mbind option_bind]; [|done]. intros [= <- <- <-]. rewrite E, decide_True by done. cbn. lia.
    + intros [= <- <- <-]. rewrite decide_False by congruence. cbn. lia.
  - intros [= <- <- <-]. cbn. lia.
  - destruct (head_ q) as [r|] eqn:Hh; intros [= <- <- <-]; cbn [rank]; [|lia]. rewrite decide_True by done. lia.
  - destruct (nodes q !! r) as [nd|]; cbn [mbind option_bind]; [|done]. intros [= <- <- <-]. cbn [rank]. case_decide; lia.
  - destruct (nodes q !! r) as [nd|]; cbn [mbind option_bind]; [|done].
    destruct (bool_decide_reflect (head_ q = Some r)) as [E|E]; cbn [andb negb].
    + destruct (data nd); cbn [mbind option_bind]; [|done]. intros [= <- <- <-]. rewrite decide_True by done. cbn. lia.
    + intros [= <- <- <-]. rewrite decide_False by done. cbn. lia.
  - destruct (nodes q !! r) as [nd|]; cbn [mbind option_bind]; [|done]. destruct (data nd); cbn [mbind option_bind]; [|done].
    intros [= <- <- <-]. cbn. lia.
  - intros [= <- <- <-]. cbn. lia.
Qed.

Lemma lf_solo_finishes fuel q ths tr K L i p :
  inv (q, ths) tr K L -> ths !! i = Some p -> (rank q p <= fuel)%nat ->
  exists q' p', solo fuel q p = Some (q', p') /\ finished p' = true.
Proof.
  revert q ths tr K L p. induction fuel as [|fuel IH]; intros q ths tr K L p Hinv Hi Hr; cbn [solo];
    (destruct (finished p) eqn:Hf; [by exists q, p|]).
  - exfalso. destruct (lf_thread_step_inv false q ths tr K L i p Hinv Hi Hf) as (q' & p' & evs & K' & L' & Hs & _).
    pose proof (lf_rank_step _ _ _ _ _ Hs). lia.
  - destruct (lf_thread_step_inv false q ths tr K L i p Hinv Hi Hf) as (q' & p' & evs & K' & L' & Hs & Hinv').
    rewrite Hs. cbn [mbind option_bind]. pose proof (lf_rank_step _ _ _ _ _ Hs).
    apply (IH q' _ _ K' L' p' Hinv'); [|lia]. apply list_lookup_insert_eq. by eapply lookup_lt_Some.
Qed.

(** ** Popping alone *)
Lemma pop_alone q K :
  linked (nodes q) (head_ q) K -> NoDup (map fst K) ->
  exists q', solo 7 (Pop q).1 (Pop q).2 = Some (q', PopDone (snd <$> head K)) /\ linked (nodes q') (head_ q') (tail K).
Proof.
  intros Hl Hn. unfold Pop. cbn [fst snd]. destruct K as [|[n v] K]; cbn [linked] in Hl.
  - exists q. cbn [solo finished thread_step pop_step]. by rewrite Hl.
  - destruct Hl as (Hh & nx & Hv & Hl). cbn [map fst] in Hn. apply NoDup_cons in Hn as [Hout _].
    assert (Hlt : (n < length (nodes q))%nat) by (by eapply lookup_lt_Some).
    eexists. split.
    + cbn [solo finished thread_step pop_step]. rewrite Hh. cbn [mbind option_bind solo finished thread_step pop_step].
      rewrite Hv. cbn [mbind option_bind solo finished thread_step pop_step next]. rewrite Hv. cbn [mbind option_bind data].
      rewrite Hh, bool_decide_eq_true_2 by done. cbn [andb negb mbind option_bind solo finished thread_step pop_step set_head nodes].
      rewrite Hv. cbn [mbind option_bind data next solo finished thread_step pop_step]. reflexivity.
    + cbn [set_count set_node set_head nodes head_ tail]. by apply linked_set.
Qed.

Lemma destroy_S fuel q :
  destroy (S fuel) q =
    ('(q, p) ← solo 7 (Pop q).1 (Pop q).2;
     match p with
     | PopDone (Some v) => '(q, vs) ← destroy fuel q; Some (q, v :: vs)
     | _ => Some (q, [])
     end).
Proof. reflexivity. Qed.

Lemma destroy_all q K :
  linked (nodes q) (head_ q) K -> NoDup (map fst K) ->
  exists q', destroy (S (length K)) q = Some (q', map snd K) /\ head_ q' = None.
Proof.
  revert q. induction K as [|[n v] K IH]; intros q Hl Hn; destruct (pop_alone q _ Hl Hn) as (q1 & E & Hl1);
    rewrite destroy_S, E; cbn [mbind option_bind head fmap option_fmap option_map snd].
  - by exists q1.
  - apply NoDup_cons in Hn as [_ Hn]. destruct (IH q1 Hl1 Hn) as (q2 & E2 & Hh). cbn [length]. rewrite E2. by exists q2.
Qed.

(** ** Schedules *)
Inductive choice := Call (i : nat) (o : op) | Run (i : nat) | Spurious (i : nat).

Definition exec_one (c : choice) (s : sys) : option (sys * trace) :=
  let '(q, ths) := s in
  match c with
  | Call i o =>
      p ← ths !! i;
      if finished p then Some (((invoke o q).1, <[i := (invoke o q).2]> ths), [(i, Invoke o)]) else None
  | Run i | Spurious i =>
      p ← ths !! i;
      if finished p then None
      else '(q, p, evs) ← thread_step (match c with Spurious _ => true | _ => false end) q p;
           Some ((q, <[i := p]> ths), map (pair i) evs)
  end.

Fixpoint exec (l : list choice) (s : sys) (tr : trace) : option (sys * trace) :=
  match l with
  | [] => Some (s, tr)
  | c :: l => '(s, evs) ← exec_one c s; exec l s (tr ++ evs)
  end.

Lemma lf_exec_one_step c s s' evs : exec_one c s = Some (s', evs) -> step s evs s'.
Proof.
  destruct s as [q ths], c as [i o|i|i]; cbn [exec_one]; destruct (ths !! i) as [p|] eqn:Hi; cbn [mbind option_bind]; try done;
    destruct (finished p) eqn:Hf; try done.
  - intros [= <- <-]. by apply (step_invoke q ths i p).
  - destruct (thread_step _ q p) as [[[q' p'] evs']|] eqn:E; cbn [mbind option_bind]; [|done]. intros [= <- <-].
    by apply (step_run q ths i p false).
  - destruct (thread_step _ q p) as [[[q' p'] evs']|] eqn:E; cbn [mbind option_bind]; [|done]. intros [= <- <-].
    by apply (step_run q ths i p true).
Qed.

Lemma lf_exec_run l s0 tr0 s s' tr : run s0 tr0 s -> exec l s tr0 = Some (s', tr) -> run s0 tr s'.
Proof.
  revert tr0 s. induction l as [|c l IH]; intros tr0 s Hrun; cbn [exec]; [by intros [= <- <-]|].
  destruct (exec_one c s) as [[s1 evs]|] eqn:E; cbn [mbind option_bind]; [|done].
  apply IH. eapply run_snoc; [exact Hrun|]. by apply (lf_exec_one_step c).
Qed.

(** ** Theorems *)

(** C15: the unbounded queue is a linearizable stack for any number of threads.
    In every run no thread touches a node that does not exist or moves a value
    out twice; the effects of the operations, in the order they happen, are a
    run of a stack; an operation that has returned had exactly one effect since
    its call, and returned what that effect says; [Empty] answers whether the
    stack is empty, and when all threads rest [Count] is its size modulo 2^64. *)
Theorem lockfree_stack threads tr q ths :
  run (initial threads) tr (q, ths) ->
  (forall i p spurious, ths !! i = Some p -> finished p = false -> thread_step spurious q p <> None) /\
  (exists s, stack_run [] tr s /\ Empty q = bool_decide (s = []) /\
     (Forall (fun p => finished p = true) ths -> Count q = u64 (Z.of_nat (length s)))) /\
  (forall i p, ths !! i = Some p -> finished p = true -> answered p (pending i tr)).
Proof.
  intros Hrun. destruct (lf_run_inv _ _ _ Hrun) as (K & L & Hinv). split; [|split].
  - intros i p sp Hi Hf. destruct (lf_thread_step_inv sp _ _ _ _ _ _ _ Hinv Hi Hf) as (q' & p' & evs & K' & L' & -> & _). done.
  - exists (map snd K). split; [apply (i_run _ _ _ _ Hinv)|]. split.
    + unfold Empty. pose proof (i_linked _ _ _ _ Hinv) as Hl. cbn [fst] in Hl. rewrite (linked_head _ _ _ Hl). by destruct K.
    + intros Hf. unfold Count. pose proof (i_count _ _ _ _ Hinv) as E. cbn [fst snd] in E. rewrite E, debts_rest, length_map by done.
      f_equal. lia.
  - intros i p Hi Hf. eapply finished_answered; [done|]. apply (i_pcs _ _ _ _ Hinv i p Hi).
Qed.

(** C16: progress of the unbounded queue.  From every reachable state a thread
    that runs alone finishes within seven steps, whatever the others were
    doing; a [Pop] that runs alone returns the top of the stack that the
    effects so far leave, and the destructor ends and drops all of it, last in
    first out. *)
Theorem lockfree_progress threads tr q ths :
  run (initial threads) tr (q, ths) ->
  (forall i p, ths !! i = Some p -> exists q' p', solo 7 q p = Some (q', p') /\ finished p' = true) /\
  (exists s, stack_run [] tr s /\
     (exists q', solo 7 (Pop q).1 (Pop q).2 = Some (q', PopDone (head s))) /\
     (exists q', destroy (S (length s)) q = Some (q', s) /\ Empty q' = true)).
Proof.
  intros Hrun. destruct (lf_run_inv _ _ _ Hrun) as (K & L & Hinv). split.
  - intros i p Hi. apply (lf_solo_finishes 7 q ths tr K L i p Hinv Hi). destruct p; cbn [rank]; try case_decide; lia.
  - pose proof (i_linked _ _ _ _ Hinv) as Hl. pose proof (i_nodup _ _ _ _ Hinv) as Hn. cbn [fst] in Hl.
    exists (map snd K). split; [apply (i_run _ _ _ _ Hinv)|]. split.
    + destruct (pop_alone q K Hl Hn) as (q' & E & _). exists q'. rewrite E. by destruct K.
    + rewrite length_map. destruct (destroy_all q K Hl Hn) as (q' & E & Hh). exists q'. split; [done|]. unfold Empty. by rewrite Hh.
Qed.
End LockFreeQueue.

(** Two producers race, one exchange fails for no reason and one because the
    other was first; a consumer takes the value before it was counted. *)
Definition sample_schedule : list choice :=
  [Call 0 (OpPush 5); Call 1 (OpPush 7); Run 0; Run 1; Spurious 0; Run 1; Run 0; Run 0;
   Call 2 OpPop; Run 2; Run 2; Run 2; Run 2; Run 2; Run 0].

Definition sample_system : option (sys * list (nat * event)) := exec sample_schedule (initial 3) [].
Definition sample_state : sys := match sample_system with Some (s, _) => s | None => initial 3 end.
Definition sample_trace : list (nat * event) := match sample_system with Some (_, tr) => tr | None => [] end.

Lemma lf_sample_run : run (initial 3) sample_trace (sample_state.1, sample_state.2).
Proof. apply (lf_exec_run sample_schedule _ [] (initial 3)); [constructor|]. vm_compute. reflexivity. Qed.

Lemma lockfree_stack_witness :
  sample_trace = [(0%nat, Invoke (OpPush 5)); (1%nat, Invoke (OpPush 7)); (1%nat, Pushed 7); (0%nat, Pushed 5);
                  (2%nat, Invoke OpPop); (2%nat, Popped 5)] /\
  answered (PopDone (Some 5)) (pending 2 sample_trace).
Proof.
  split; [vm_compute; reflexivity|].
  destruct (lockfree_stack 3 sample_trace sample_state.1 sample_state.2 lf_sample_run) as (_ & _ & Ha).
  apply (Ha 2%nat); vm_compute; reflexivity.
Defined.

Lemma lockfree_progress_witness : exists q', destroy 2 sample_state.1 = Some (q', [7]) /\ Empty q' = true.
Proof.
  destruct (lockfree_progress 3 sample_trace sample_state.1 sample_state.2 lf_sample_run) as (_ & s & Hs & _ & q' & E & He).
  assert (Es : s = [7]).
  { vm_compute in Hs. repeat match goal with
      | H : exists _, _ |- _ => destruct H
      | H : _ /\ _ |- _ => destruct H
      | H : stack_step _ _ _ |- _ => inversion H; subst; clear H end. reflexivity. }
  subst s. exists q'. split; [exact E|exact He].
Defined.

(** The count is changed after the list: a value that is taken before it is
    counted lets the count wrap. *)
Definition early_pop : list choice :=
  [Call 0 (OpPush 5); Run 0; Run 0; Call 1 OpPop; Run 1; Run 1; Run 1; Run 1; Run 1].

Lemma Count_transient :
  exists tr (q : @LockFreeQueue Z) ths, run (initial 2) tr (q, ths) /\ Count q = UINT64_MAX /\ Empty q = true.
Proof.
  destruct (exec early_pop (initial 2) []) as [[[q ths] tr]|] eqn:E; [|vm_compute in E; discriminate E].
  exists tr, q, ths. split; [apply (lf_exec_run early_pop _ [] (initial 2)); [constructor|exact E]|].
  vm_compute in E. injection E as <- <- <-. split; reflexivity.
Qed.
