(* ===== verification/MergingIterator.v ===== *)
(** Iterators that move both ways ([search_iterator.h]) and the iterator that
    merges several of them ([iterator_wrapper_rocks.h],
    [merger_iterator_rocks.cpp]).

    An iterator is seen through its interface; its laws say that it is a cursor
    on a sorted list of entries, which is what RocksDB documents of its
    iterators.  The theorem is that the merging iterator obeys the same laws,
    on the union of its children.  [None] is a failed assertion. *)
From S2P Require Import Prelude Storage.

(** ** The interface *)
Class Iterator (I : Type) := {
  Valid : I -> bool;
  SeekToFirst : I -> option I;
  SeekToLast : I -> option I;
  Seek : I -> bytes -> option I;
  SeekForPrev : I -> bytes -> option I;
  Next : I -> option I;
  Prev : I -> option I;
  key : I -> option bytes;
  value : I -> option bytes;
  status : I -> SearchStatus
}.

#[export] Hint Mode Iterator ! : typeclass_instances.

(** The number of entries a test accepts. *)
Definition cnt {V} (P : bytes -> bool) (m : list (bytes * V)) : Z := Z.of_nat (length (List.filter (fun e => P e.1) m)).

(** The entry at a position, which may be before the first or after the last. *)
Definition at_pos {A} (m : list A) (p : Z) : option A := if 0 <=? p then m !! Z.to_nat p else None.

(** A cursor of [m] at [p]: -1 before the first entry, the length behind the
    last. *)
Class IteratorLaws (I : Type) `{Iterator I} (cmp : bytes -> bytes -> comparison) := {
  at_entry : I -> list (bytes * bytes) -> Z -> Prop;
  at_sorted it m p : at_entry it m p -> om_sorted cmp m;
  Valid_law it m p : at_entry it m p -> Valid it = bool_decide (is_Some (at_pos m p));
  key_law it m p k v : at_entry it m p -> at_pos m p = Some (k, v) -> key it = Some k /\ value it = Some v;
  SeekToFirst_law it m p : at_entry it m p -> exists it', SeekToFirst it = Some it' /\ at_entry it' m 0;
  SeekToLast_law it m p : at_entry it m p ->
    exists it', SeekToLast it = Some it' /\ at_entry it' m (Z.of_nat (length m) - 1);
  Seek_law it m p k : at_entry it m p ->
    exists it', Seek it k = Some it' /\ at_entry it' m (cnt (fun x => bool_decide (cmp x k = Lt)) m);
  SeekForPrev_law it m p k : at_entry it m p ->
    exists it', SeekForPrev it k = Some it' /\ at_entry it' m (cnt (fun x => bool_decide (cmp x k <> Gt)) m - 1);
  Next_law it m p : at_entry it m p -> is_Some (at_pos m p) -> exists it', Next it = Some it' /\ at_entry it' m (p + 1);
  Prev_law it m p : at_entry it m p -> is_Some (at_pos m p) -> exists it', Prev it = Some it' /\ at_entry it' m (p - 1)
}.

(** ** The wrapper, which caches validity and key *)
Record IteratorWrapper (I : Type) := mkWrapper { iter_ : I; valid_ : bool; key_ : bytes }.
Arguments mkWrapper {I}. Arguments iter_ {I}. Arguments valid_ {I}. Arguments key_ {I}.

Section Wrapper.
Context {I : Type} `{Iterator I}.

(** [Update] keeps the old key of an invalid iterator. *)
Definition Update (it : I) (old : bytes) : option (IteratorWrapper I) :=
  if Valid it then k ← key it; Some (mkWrapper it true k) else Some (mkWrapper it false old).

Definition new_wrapper (it : I) : option (IteratorWrapper I) := Update it [].

Definition move (f : I -> option I) (w : IteratorWrapper I) : option (IteratorWrapper I) :=
  it ← f (iter_ w); Update it (key_ w).

#[export] Instance wrapper_iterator : Iterator (IteratorWrapper I) := {
  Valid := valid_;
  SeekToFirst := move SeekToFirst;
  SeekToLast := move SeekToLast;
  Seek w k := move (fun it => Seek it k) w;
  SeekForPrev w k := move (fun it => SeekForPrev it k) w;
  Next := move Next;
  Prev := move Prev;
  key w := if valid_ w then Some (key_ w) else None;
  value w := if valid_ w then value (iter_ w) else None;
  status w := status (iter_ w) }.
End Wrapper.

(** ** The merging iterator *)
Inductive Direction := kForward | kReverse.

Record MergingIterator (I : Type) := mkMerging {
  children_ : list (IteratorWrapper I);
  current_ : option nat;
  direction_ : Direction }.
Arguments mkMerging {I}. Arguments children_ {I}. Arguments current_ {I}. Arguments direction_ {I}.

Section Merging.
Context {I : Type} `{Iterator I} (cmp : bytes -> bytes -> comparison).
Notation W := (IteratorWrapper I).

Definition new_merging (children : list I) : option (MergingIterator I) :=
  ws ← mapM new_wrapper children; Some (mkMerging ws None kForward).

(** The loop of [FindSmallest] from child [i] on; a child is kept with its
    index. *)
Fixpoint find_smallest (i : nat) (children : list W) (smallest : option (nat * W)) : option (option (nat * W)) :=
  match children with
  | [] => Some smallest
  | child :: children' =>
      smallest ←
        (if Valid child then
           match smallest with
           | None => Some (Some (i, child))
           | Some (j, s) => k ← key child; ks ← key s; Some (match cmp k ks with Lt => Some (i, child) | _ => smallest end)
           end
         else Some smallest);
      find_smallest (S i) children' smallest
  end.

Definition FindSmallest (m : MergingIterator I) : option (MergingIterator I) :=
  smallest ← find_smallest 0 (children_ m) None;
  Some (mkMerging (children_ m) (fst <$> smallest) (direction_ m)).

(** [FindLargest] visits the children from the last to the first. *)
Fixpoint find_largest (i : nat) (children : list W) : option (option (nat * W)) :=
  match children with
  | [] => Some None
  | child :: children' =>
      largest ← find_largest (S i) children';
      if Valid child then
        match largest with
        | None => Some (Some (i, child))
        | Some (j, l) => k ← key child; kl ← key l; Some (match cmp k kl with Gt => Some (i, child) | _ => largest end)
        end
      else Some largest
  end.

Definition FindLargest (m : MergingIterator I) : option (MergingIterator I) :=
  largest ← find_largest 0 (children_ m);
  Some (mkMerging (children_ m) (fst <$> largest) (direction_ m)).

Definition set_children (m : MergingIterator I) (l : list W) : MergingIterator I := mkMerging l (current_ m) (direction_ m).
Definition set_direction (m : MergingIterator I) (d : Direction) : MergingIterator I := mkMerging (children_ m) (current_ m) d.

(** Every child moved, then the next current child chosen. *)
Definition seek_all (f : W -> option W) (find : MergingIterator I -> option (MergingIterator I)) (d : Direction)
    (m : MergingIterator I) : option (MergingIterator I) :=
  l ← mapM f (children_ m);
  m ← find (set_children m l);
  Some (set_direction m d).

Definition current_child (m : MergingIterator I) : option W := i ← current_ m; children_ m !! i.
Definition m_key (m : MergingIterator I) : option bytes := w ← current_child m; key w.
Definition m_value (m : MergingIterator I) : option bytes := w ← current_child m; value w.

(** The loop of a change of direction: all children but the current one. *)
Fixpoint reposition (f : W -> option W) (c : nat) (i : nat) (children : list W) : option (list W) :=
  match children with
  | [] => Some []
  | child :: children' =>
      child ← (if Nat.eqb i c then Some child else f child);
      rest ← reposition f c (S i) children';
      Some (child :: rest)
  end.

Definition step_forward (k : bytes) (child : W) : option W :=
  child ← Seek child k;
  if Valid child then
    k' ← key child;
    match cmp k k' with Eq => Next child | _ => Some child end
  else Some child.

Definition step_back (k : bytes) (child : W) : option W :=
  child ← Seek child k;
  if Valid child then Prev child else SeekToLast child.

Definition m_Next (m : MergingIterator I) : option (MergingIterator I) :=
  c ← current_ m;
  m ← match direction_ m with
      | kForward => Some m
      | kReverse =>
          k ← m_key m;
          l ← reposition (step_forward k) c 0 (children_ m);
          Some (set_direction (set_children m l) kForward)
      end;
  w ← children_ m !! c;
  w ← Next w;
  FindSmallest (set_children m (<[c := w]> (children_ m))).

Definition m_Prev (m : MergingIterator I) : option (MergingIterator I) :=
  c ← current_ m;
  m ← match direction_ m with
      | kReverse => Some m
      | kForward =>
          k ← m_key m;
          l ← reposition (step_back k) c 0 (children_ m);
          Some (set_direction (set_children m l) kReverse)
      end;
  w ← children_ m !! c;
  w ← Prev w;
  FindLargest (set_children m (<[c := w]> (children_ m))).

(** The first status that is not OK. *)
Fixpoint status_loop (l : list W) (s : SearchStatus) : SearchStatus :=
  match l with
  | [] => s
  | w :: l' => let s := status w in if negb (OK s) then s else status_loop l' s
  end.

#[export] Instance merging_iterator : Iterator (MergingIterator I) := {
  Valid m := match current_ m with Some _ => true | None => false end;
  SeekToFirst := seek_all SeekToFirst FindSmallest kForward;
  SeekToLast := seek_all SeekToLast FindLargest kReverse;
  Seek m target := seek_all (fun w => Seek w target) FindSmallest kForward m;
  SeekForPrev m target := seek_all (fun w => SeekForPrev w target) FindLargest kReverse m;
  Next := m_Next;
  Prev := m_Prev;
  key := m_key;
  value := m_value;
  status m := status_loop (children_ m) status_ok }.
End Merging.

(** ** The empty iterator and the choice of an implementation *)
Record EmptyIterator := mkEmpty { status_ : SearchStatus }.

#[export] Instance empty_iterator : Iterator EmptyIterator := {
  Valid _ := false;
  SeekToFirst it := Some it;
  SeekToLast it := Some it;
  Seek it _ := Some it;
  SeekForPrev it _ := Some it;
  Next _ := None;
  Prev _ := None;
  key _ := None;
  value _ := None;
  status := status_ }.

Inductive AnyIterator (I : Type) := AnEmpty (it : EmptyIterator) | AChild (it : I) | AMerging (it : MergingIterator I).
Arguments AnEmpty {I}. Arguments AChild {I}. Arguments AMerging {I}.

Definition NewEmptyIterator {I} : AnyIterator I := AnEmpty (mkEmpty status_ok).

Definition NewMergingIterator {I} `{Iterator I} (list : list I) : option (AnyIterator I) :=
  match list with
  | [] => Some NewEmptyIterator
  | [it] => Some (AChild it)
  | _ => m ← new_merging list; Some (AMerging m)
  end.

(** ** Counting and positions in sorted lists *)
Section Positions.
Context (cmp : bytes -> bytes -> comparison) `{!TotalCmp cmp}.
Implicit Types (m : list (bytes * bytes)) (P : bytes -> bool).

(** A test that holds up to some key. *)
Definition downward P : Prop := forall a b, P b = true -> cmp a b <> Gt -> P a = true.

Definition lt_key (k x : bytes) : bool := bool_decide (cmp x k = Lt).
Definition le_key (k x : bytes) : bool := bool_decide (cmp x k <> Gt).

Lemma cmp_le_trans a b c : cmp a b <> Gt -> cmp b c <> Gt -> cmp a c <> Gt.
Proof.
  intros H1 H2. destruct (cmp a b) eqn:E1; [apply (cmp_eq cmp) in E1 as ->; done| |done].
  destruct (cmp b c) eqn:E2; [apply (cmp_eq cmp) in E2 as ->; by rewrite E1| |done].
  by rewrite (cmp_lt_trans cmp a b c).
Qed.

Lemma cmp_le_lt_trans a b c : cmp a b <> Gt -> cmp b c = Lt -> cmp a c = Lt.
Proof.
  intros H1 H2. destruct (cmp a b) eqn:E1; [by apply (cmp_eq cmp) in E1 as ->| |done]. by apply (cmp_lt_trans cmp a b c).
Qed.

Lemma cmp_not_gt a b : cmp a b <> Gt <-> cmp b a <> Lt.
Proof. rewrite (cmp_opp cmp a b). by destruct (cmp a b). Qed.

Lemma downward_lt k : downward (lt_key k).
Proof. intros a b Hb%bool_decide_eq_true Hab. apply bool_decide_eq_true. by apply (cmp_le_lt_trans a b). Qed.

Lemma downward_le k : downward (le_key k).
Proof. intros a b Hb%bool_decide_eq_true Hab. apply bool_decide_eq_true. by apply (cmp_le_trans a b). Qed.

Lemma cnt_cons P k (v : bytes) m : cnt P ((k, v) :: m) = (if P k then 1 else 0) + cnt P m.
Proof. unfold cnt. cbn [List.filter fst]. destruct (P k); cbn [length]; lia. Qed.

Lemma cnt_bound P m : 0 <= cnt P m <= Z.of_nat (length m).
Proof. unfold cnt. pose proof (List.filter_length_le (fun e : bytes * bytes => P e.1) m). lia. Qed.

Lemma cnt_none P m : Forall (fun e : bytes * bytes => P e.1 = false) m -> cnt P m = 0.
Proof. intros Hf. unfold cnt. by rewrite (list_filter_none (fun e : bytes * bytes => P e.1) m). Qed.

Lemma cnt_ext P Q m : (forall k v, (k, v) ∈ m -> P k = Q k) -> cnt P m = cnt Q m.
Proof.
  induction m as [|[k v] m IH]; intros Heq; [done|]. rewrite !cnt_cons, (Heq k v) by (by left). f_equal. apply IH.
  intros k' v' Hin. apply (Heq k' v'). by right.
Qed.

Lemma cnt_all m : cnt (fun _ => true) m = Z.of_nat (length m).
Proof. induction m as [|[k v] m IH]; [done|]. rewrite cnt_cons, IH. simpl. lia. Qed.

Lemma at_pos_cons {A} (x : A) l p : 0 < p -> at_pos (x :: l) p = at_pos l (p - 1).
Proof.
  intros Hp. unfold at_pos. rewrite !(proj2 (Z.leb_le _ _)) by lia. replace (Z.to_nat p) with (S (Z.to_nat (p - 1))) by lia. done.
Qed.

Lemma at_pos_in {A} (l : list A) p e : at_pos l p = Some e -> e ∈ l.
Proof. unfold at_pos. case_match; [|done]. apply list_elem_of_lookup_2. Qed.

Lemma sorted_tail_lt k v m : om_sorted cmp ((k, v) :: m) -> forall k' v', (k', v') ∈ m -> cmp k k' = Lt.
Proof. intros [_ Hlt]%(om_sorted_cons_inv cmp). exact Hlt. Qed.

(** The entry at the count of a downward test is the first the test refuses. *)
Definition least P m (e : bytes * bytes) : Prop :=
  e ∈ m /\ P e.1 = false /\ forall e', e' ∈ m -> P e'.1 = false -> cmp e.1 e'.1 <> Gt.

Lemma at_cnt P m :
  om_sorted cmp m -> downward P ->
  match at_pos m (cnt P m) with Some e => least P m e | None => forall e, e ∈ m -> P e.1 = true end.
Proof.
  intros Hs HP. induction m as [|[k v] m IH]; [by intros e ?%elem_of_nil|].
  pose proof (sorted_tail_lt _ _ _ Hs) as Hlt. destruct (om_sorted_cons_inv cmp _ _ _ Hs) as [Hs' _]. specialize (IH Hs').
  rewrite cnt_cons. destruct (P k) eqn:Ek.
  - pose proof (cnt_bound P m). rewrite at_pos_cons by lia. replace (1 + cnt P m - 1) with (cnt P m) by lia.
    destruct (at_pos m (cnt P m)) as [e|].
    + destruct IH as (Hin & He & Hmin). split; [by right|]. split; [done|]. intros e' [->|Hin']%elem_of_cons Hf; [cbn in Hf; congruence|].
      by apply Hmin.
    + intros e [->|Hin]%elem_of_cons; [done|]. by apply IH.
  - rewrite cnt_none.
    2:{ apply Forall_forall. intros [k' v'] Hin. cbn. destruct (P k') eqn:E'; [|done]. rewrite (HP k k' E') in Ek; [done|].
        by rewrite (Hlt k' v' Hin). }
    cbn. split; [by left|]. split; [done|]. intros [k' v'] [[= -> ->]|Hin]%elem_of_cons _; cbn; [by rewrite (cmp_refl cmp)|].
    by rewrite (Hlt k' v' Hin).
Qed.

(** The entry before it is the last the test accepts. *)
Definition greatest P m (e : bytes * bytes) : Prop :=
  e ∈ m /\ P e.1 = true /\ forall e', e' ∈ m -> P e'.1 = true -> cmp e'.1 e.1 <> Gt.

Lemma at_cnt_pred P m :
  om_sorted cmp m -> downward P ->
  match at_pos m (cnt P m - 1) with Some e => greatest P m e | None => forall e, e ∈ m -> P e.1 = false end.
Proof.
  intros Hs HP. induction m as [|[k v] m IH]; [by intros e ?%elem_of_nil|].
  pose proof (sorted_tail_lt _ _ _ Hs) as Hlt. destruct (om_sorted_cons_inv cmp _ _ _ Hs) as [Hs' _]. specialize (IH Hs').
  rewrite cnt_cons. pose proof (cnt_bound P m). destruct (P k) eqn:Ek.
  - replace (1 + cnt P m - 1) with (cnt P m) by lia. destruct (Z.eq_dec (cnt P m) 0) as [E0|].
    + rewrite E0 in *. cbn in IH |- *. split; [by left|]. split; [done|].
      intros e [->|Hin]%elem_of_cons Hf; [cbn; by rewrite (cmp_refl cmp)|]. rewrite (IH e Hin) in Hf. done.
    + rewrite at_pos_cons by lia. destruct (at_pos m (cnt P m - 1)) as [e|] eqn:Ee.
      * destruct IH as (Hin & He & Hmax). split; [by right|]. split; [done|]. intros e' [->|Hin']%elem_of_cons Hf; [|by apply Hmax].
        destruct e as [k' v']. cbn. by rewrite (Hlt k' v' Hin).
      * exfalso. unfold at_pos in Ee. rewrite (proj2 (Z.leb_le _ _)) in Ee by lia. apply lookup_ge_None in Ee. lia.
  - assert (Hall : Forall (fun e : bytes * bytes => P e.1 = false) m).
    { apply Forall_forall. intros [k' v'] Hin. cbn. destruct (P k') eqn:E'; [|done]. rewrite (HP k k' E') in Ek; [done|].
      by rewrite (Hlt k' v' Hin). }
    rewrite cnt_none by done. cbn. rewrite Forall_forall in Hall. intros e [->|Hin]%elem_of_cons; [done|by apply Hall].
Qed.

Lemma pos_cnt m p k v :
  om_sorted cmp m -> at_pos m p = Some (k, v) -> cnt (lt_key k) m = p /\ cnt (le_key k) m = p + 1.
Proof.
  revert p. induction m as [|[k' v'] m IH]; intros p Hs Hp; [unfold at_pos in Hp; by case_match|].
  pose proof (sorted_tail_lt _ _ _ Hs) as Hlt. destruct (om_sorted_cons_inv cmp _ _ _ Hs) as [Hs' _]. rewrite !cnt_cons.
  destruct (Z.eq_dec p 0) as [->|Hne].
  - cbn in Hp. injection Hp as -> ->. unfold lt_key at 1, le_key at 1. rewrite (cmp_refl cmp).
    rewrite bool_decide_false, bool_decide_true by done.
    assert (Hall : forall k' v', (k', v') ∈ m -> lt_key k k' = false /\ le_key k k' = false).
    { intros k' v' Hin. pose proof (Hlt k' v' Hin) as H1. unfold lt_key, le_key.
      rewrite (cmp_opp cmp k k'), H1. cbn. split; [done|]. by apply bool_decide_eq_false; intros []. }
    rewrite !cnt_none; [lia| |]; apply Forall_forall; intros [k' v'] Hin; by apply (Hall k' v').
  - assert (0 < p) by (unfold at_pos in Hp; destruct (Z.leb_spec 0 p); [lia|done]).
    rewrite at_pos_cons in Hp by done. destruct (IH (p - 1) Hs' Hp) as [-> ->].
    pose proof (Hlt k v (at_pos_in _ _ _ Hp)) as H1. unfold lt_key, le_key. rewrite H1.
    rewrite !bool_decide_true by done. lia.
Qed.

Lemma cnt_lt_le k v m : om_sorted cmp m -> (k, v) ∈ m -> cnt (le_key k) m = cnt (lt_key k) m + 1.
Proof.
  intros Hs Hin. apply list_elem_of_lookup in Hin as [i Hi].
  destruct (pos_cnt m (Z.of_nat i) k v Hs) as [-> ->]; [|done]. unfold at_pos. rewrite (proj2 (Z.leb_le _ _)) by lia. by rewrite Nat2Z.id.
Qed.

Lemma cnt_lt_le_none k m : (forall v, (k, v) ∉ m) -> cnt (le_key k) m = cnt (lt_key k) m.
Proof.
  intros Hno. apply cnt_ext. intros k' v Hin. unfold le_key, lt_key. destruct (cmp k' k) eqn:E; [|done|done].
  apply (cmp_eq cmp) in E as ->. by destruct (Hno v).
Qed.

(** Sorted entries with equal keys are equal. *)
Lemma sorted_key_eq m e e' : om_sorted cmp m -> e ∈ m -> e' ∈ m -> cmp e.1 e'.1 <> Gt -> cmp e'.1 e.1 <> Gt -> e = e'.
Proof.
  destruct e as [k v], e' as [k' v']. cbn. intros Hs H1 H2 H3 H4. rewrite (cmp_opp cmp k k') in H4.
  destruct (cmp k k') eqn:E; [|by destruct H4|done]. apply (cmp_eq cmp) in E as ->.
  apply (om_in_find cmp) in H1; [|done]. apply (om_in_find cmp) in H2; [|done]. congruence.
Qed.

(** ** A union of sorted lists *)
Definition union_of m (Ms : list (list (bytes * bytes))) : Prop :=
  om_sorted cmp m /\ m ≡ₚ concat Ms /\ Forall (om_sorted cmp) Ms.

Lemma union_in m Ms i l e : union_of m Ms -> Ms !! i = Some l -> e ∈ l -> e ∈ m.
Proof.
  intros (_ & HP & _) Hi He. rewrite HP. apply list_elem_of_In, in_concat. exists l. split; apply list_elem_of_In; [|done].
  by eapply list_elem_of_lookup_2.
Qed.

Lemma union_disjoint m Ms i j l1 l2 k v1 v2 :
  union_of m Ms -> Ms !! i = Some l1 -> Ms !! j = Some l2 -> (k, v1) ∈ l1 -> (k, v2) ∈ l2 -> i = j.
Proof.
  intros (Hs & HP & _) Hi Hj H1 H2. pose proof (om_sorted_NoDup cmp m Hs) as Hnd. rewrite HP in Hnd. clear HP Hs m.
  revert i j Hi Hj. induction Ms as [|l Ms IH]; intros [|i] [|j] Hi Hj; try done; cbn [concat] in Hnd;
    rewrite fmap_app in Hnd; apply NoDup_app in Hnd as (_ & Hd & Hnd); cbn [lookup list_lookup] in Hi, Hj.
  - injection Hi as ->. exfalso. apply (Hd k); [by apply (list_elem_of_fmap_2 fst _ _ H1)|].
    apply (list_elem_of_fmap_2 fst _ (k, v2)). apply list_elem_of_In, in_concat. exists l2. split; apply list_elem_of_In; [|done].
    by eapply list_elem_of_lookup_2.
  - injection Hj as ->. exfalso. apply (Hd k); [by apply (list_elem_of_fmap_2 fst _ _ H2)|].
    apply (list_elem_of_fmap_2 fst _ (k, v1)). apply list_elem_of_In, in_concat. exists l1. split; apply list_elem_of_In; [|done].
    by eapply list_elem_of_lookup_2.
  - f_equal. by apply IH.
Qed.
End Positions.

(** ** The wrapper is an iterator *)
Section WrapperLaws.
Context {I : Type} `{IteratorLaws I cmp}.

Definition wrapped (w : IteratorWrapper I) (m : list (bytes * bytes)) (p : Z) : Prop :=
  at_entry (iter_ w) m p /\ valid_ w = Valid (iter_ w) /\ (valid_ w = true -> key (iter_ w) = Some (key_ w)).

Lemma Update_ok it m p old : at_entry it m p -> exists w, Update it old = Some w /\ wrapped w m p.
Proof.
  intros Hit. unfold Update. pose proof (Valid_law it m p Hit) as Hv. destruct (Valid it) eqn:E.
  - symmetry in Hv. apply bool_decide_eq_true in Hv as [[k v] He]. destruct (key_law it m p k v Hit He) as [Hk _].
    rewrite Hk. cbn [mbind option_bind]. eexists. split; [done|]. by split.
  - eexists. split; [done|]. by split.
Qed.

Lemma move_ok (f : I -> option I) w m p q :
  wrapped w m p -> (exists it', f (iter_ w) = Some it' /\ at_entry it' m q) -> exists w', move f w = Some w' /\ wrapped w' m q.
Proof.
  intros _ (it' & Hf & Hit). unfold move. rewrite Hf. cbn [mbind option_bind]. by apply Update_ok.
Qed.

#[export] Program Instance wrapper_laws : IteratorLaws (IteratorWrapper I) cmp := {| at_entry := wrapped |}.
Next Obligation. intros w m p (Hw & _). by apply (at_sorted (iter_ w) m p). Qed.
Next Obligation. intros w m p (Hw & Hv & _). cbn. rewrite Hv. by apply Valid_law. Qed.
Next Obligation.
  intros w m p k v (Hw & Hv & Hk) He. destruct (key_law (iter_ w) m p k v Hw He) as [E1 E2]. cbn.
  assert (E : valid_ w = true) by (rewrite Hv, (Valid_law _ _ _ Hw), He; by apply bool_decide_eq_true).
  rewrite E. rewrite (Hk E) in E1. by split.
Qed.
Next Obligation. intros w m p Hw. apply (move_ok _ w m p); [done|]. by apply (SeekToFirst_law _ m p), Hw. Qed.
Next Obligation. intros w m p Hw. apply (move_ok _ w m p); [done|]. by apply (SeekToLast_law _ m p), Hw. Qed.
Next Obligation. intros w m p k Hw. apply (move_ok _ w m p); [done|]. by apply (Seek_law _ m p), Hw. Qed.
Next Obligation. intros w m p k Hw. apply (move_ok _ w m p); [done|]. by apply (SeekForPrev_law _ m p), Hw. Qed.
Next Obligation. intros w m p Hw Hv. apply (move_ok _ w m p); [done|]. apply Next_law; [apply Hw|done]. Qed.
Next Obligation. intros w m p Hw Hv. apply (move_ok _ w m p); [done|]. apply Prev_law; [apply Hw|done]. Qed.
End WrapperLaws.

(** ** The merging iterator is an iterator *)
Section MergingLaws.
Context {I : Type} `{IteratorLaws I cmp} `{!TotalCmp cmp}.
Notation W := (IteratorWrapper I).

(** Every child stands where the cut [P] of its entries is. *)
Definition placed (f : list (bytes * bytes) -> Z) (ws : list W) (Ms : list (list (bytes * bytes))) : Prop :=
  Forall2 (fun w m => at_entry w m (f m)) ws Ms.

(** What the search for the smallest key found among the entries [L]. *)
Definition found_least (all : list W) (allM : list (list (bytes * bytes))) (P : bytes -> bool) (L : list (bytes * bytes)) (r : option (nat * W)) : Prop :=
  match r with
  | None => forall e, e ∈ L -> P e.1 = true
  | Some (j, s) => all !! j = Some s /\ exists m e, allM !! j = Some m /\ at_pos m (cnt P m) = Some e /\ at_entry s m (cnt P m) /\ least cmp P L e
  end.

Lemma find_smallest_spec all allM P (HP : downward cmp P) ws Ms pre preM r L :
  all = pre ++ ws -> allM = preM ++ Ms -> length pre = length preM -> placed (cnt P) ws Ms -> found_least all allM P L r ->
  exists r', find_smallest cmp (length pre) ws r = Some r' /\ found_least all allM P (L ++ concat Ms) r'.
Proof.
  intros Hall HallM Hlen Hw. revert pre preM r L Hall HallM Hlen.
  induction Hw as [|w m ws Ms Hw _ IH]; intros pre preM r L Hall HallM Hlen Hr; cbn [find_smallest concat].
  { exists r. by rewrite app_nil_r. }
  assert (Hstep : exists r1,
    (if Valid w then
       match r with
       | None => Some (Some (length pre, w))
       | Some (j, s) => k ← key w; ks ← key s; Some (match cmp k ks with Lt => Some (length pre, w) | _ => r end)
       end
     else Some r) = Some r1 /\ found_least all allM P (L ++ m) r1).
  { pose proof (at_cnt cmp P m (at_sorted w m _ Hw) HP) as Hcut. rewrite (Valid_law w m _ Hw).
    assert (Hself : all !! length pre = Some w) by (rewrite Hall; by apply list_lookup_middle).
    assert (HselfM : allM !! length pre = Some m) by (rewrite HallM, Hlen; by apply list_lookup_middle).
    destruct (at_pos m (cnt P m)) as [e|] eqn:He.
    - rewrite bool_decide_true by done. destruct Hcut as (Hin & Hf & Hmin). destruct e as [k v].
      destruct (key_law w m _ k v Hw He) as [Hk _]. destruct r as [[j s]|].
      + destruct Hr as (Hj & ms & [ks vs] & Hjm & Hes & Hs & (Hins & Hfs & Hmins)). destruct (key_law s ms _ ks vs Hs Hes) as [Hks _].
        rewrite Hk, Hks. cbn [mbind option_bind]. cbn [fst] in *. eexists. split; [done|].
        destruct (cmp k ks) eqn:Ec.
        2:{ split; [done|]. exists m, (k, v). split; [done|]. split; [done|]. split; [done|]. split; [apply elem_of_app; by right|]. split; [done|].
            intros e' [Hin'|Hin']%elem_of_app Hf'; [|by apply Hmin]. cbn. apply (cmp_le_trans cmp _ ks); [by rewrite Ec|by apply Hmins]. }
        all: split; [done|]; exists ms, (ks, vs); split; [done|]; split; [done|]; split; [done|]; (split; [apply elem_of_app; by left|]); split; [done|];
          intros e' [Hin'|Hin']%elem_of_app Hf'; [by apply Hmins|]; cbn; apply (cmp_le_trans cmp _ k); [|by apply Hmin];
          rewrite (cmp_opp cmp k ks), Ec; done.
      + eexists. split; [done|]. split; [done|]. exists m, (k, v). split; [done|]. split; [done|]. split; [done|].
        split; [apply elem_of_app; by right|]. split; [done|]. intros e' [Hin'|Hin']%elem_of_app Hf'; [|by apply Hmin].
        rewrite (Hr e' Hin') in Hf'. done.
    - rewrite bool_decide_false by (by intros [? ?]). exists r. split; [done|]. destruct r as [[j s]|].
      + destruct Hr as (Hj & ms & e & Hjm & Hes & Hs & (Hins & Hfs & Hmins)).
        split; [done|]. exists ms, e. split; [done|]. split; [done|]. split; [done|].
        split; [apply elem_of_app; by left|]. split; [done|]. intros e' [Hin'|Hin']%elem_of_app Hf'; [by apply Hmins|].
        rewrite (Hcut e' Hin') in Hf'. done.
      + intros e [Hin|Hin]%elem_of_app; [by apply Hr|by apply Hcut]. }
  destruct Hstep as (r1 & E & Hr1). rewrite E. cbn [mbind option_bind].
  destruct (IH (pre ++ [w]) (preM ++ [m]) r1 (L ++ m)) as (r' & Er & Hr');
    [by rewrite Hall, <- app_assoc|by rewrite HallM, <- app_assoc|rewrite !length_app; simpl; lia|done|].
  exists r'. rewrite length_app in Er. cbn [length] in Er. rewrite Nat.add_1_r in Er. split; [done|]. by rewrite app_assoc.
Qed.

Definition found_greatest (all : list W) (allM : list (list (bytes * bytes))) (P : bytes -> bool) (L : list (bytes * bytes)) (r : option (nat * W)) : Prop :=
  match r with
  | None => forall e, e ∈ L -> P e.1 = false
  | Some (j, s) => all !! j = Some s /\ exists m e, allM !! j = Some m /\ at_pos m (cnt P m - 1) = Some e /\
      at_entry s m (cnt P m - 1) /\ greatest cmp P L e
  end.

Lemma find_largest_spec all allM P (HP : downward cmp P) ws Ms pre preM :
  all = pre ++ ws -> allM = preM ++ Ms -> length pre = length preM -> placed (fun m => cnt P m - 1) ws Ms ->
  exists r, find_largest cmp (length pre) ws = Some r /\ found_greatest all allM P (concat Ms) r.
Proof.
  intros Hall HallM Hlen Hw. revert pre preM Hall HallM Hlen.
  induction Hw as [|w m ws Ms Hw _ IH]; intros pre preM Hall HallM Hlen; cbn [find_largest concat].
  { exists None. split; [done|]. by intros e ?%elem_of_nil. }
  destruct (IH (pre ++ [w]) (preM ++ [m])) as (r & Er & Hr);
    [by rewrite Hall, <- app_assoc|by rewrite HallM, <- app_assoc|rewrite !length_app; simpl; lia|].
  rewrite length_app in Er. cbn [length] in Er. rewrite Nat.add_1_r in Er. rewrite Er. cbn [mbind option_bind].
  pose proof (at_cnt_pred cmp P m (at_sorted w m _ Hw) HP) as Hcut. rewrite (Valid_law w m _ Hw).
  assert (Hself : all !! length pre = Some w) by (rewrite Hall; by apply list_lookup_middle).
  assert (HselfM : allM !! length pre = Some m) by (rewrite HallM, Hlen; by apply list_lookup_middle).
  destruct (at_pos m (cnt P m - 1)) as [e|] eqn:He.
  - rewrite bool_decide_true by done. destruct Hcut as (Hin & Hf & Hmax). destruct e as [k v].
    destruct (key_law w m _ k v Hw He) as [Hk _]. destruct r as [[j s]|].
    + destruct Hr as (Hj & ms & [ks vs] & Hjm & Hes & Hs & (Hins & Hfs & Hmaxs)). destruct (key_law s ms _ ks vs Hs Hes) as [Hks _].
      rewrite Hk, Hks. cbn [mbind option_bind]. cbn [fst] in *. eexists. split; [done|].
      destruct (cmp k ks) eqn:Ec.
      3:{ split; [done|]. exists m, (k, v). split; [done|]. split; [done|]. split; [done|]. split; [apply elem_of_app; by left|]. split; [done|].
          intros e' [Hin'|Hin']%elem_of_app Hf'; [by apply Hmax|]. cbn. apply (cmp_le_trans cmp _ ks); [by apply Hmaxs|].
          by rewrite (cmp_opp cmp k ks), Ec. }
      all: split; [done|]; exists ms, (ks, vs); split; [done|]; split; [done|]; split; [done|]; (split; [apply elem_of_app; by right|]); split; [done|];
        intros e' [Hin'|Hin']%elem_of_app Hf'; [|by apply Hmaxs]; cbn; apply (cmp_le_trans cmp _ k); [by apply Hmax|]; by rewrite Ec.
    + eexists. split; [done|]. split; [done|]. exists m, (k, v). split; [done|]. split; [done|]. split; [done|].
      split; [apply elem_of_app; by left|]. split; [done|]. intros e' [Hin'|Hin']%elem_of_app Hf'; [by apply Hmax|].
      rewrite (Hr e' Hin') in Hf'. done.
  - rewrite bool_decide_false by (by intros [? ?]). exists r. split; [done|]. destruct r as [[j s]|].
    + destruct Hr as (Hj & ms & e & Hjm & Hes & Hs & (Hins & Hfs & Hmaxs)).
      split; [done|]. exists ms, e. split; [done|]. split; [done|]. split; [done|].
      split; [apply elem_of_app; by right|]. split; [done|]. intros e' [Hin'|Hin']%elem_of_app Hf'; [|by apply Hmaxs].
      rewrite (Hcut e' Hin') in Hf'. done.
    + intros e [Hin|Hin]%elem_of_app; [by apply Hcut|by apply Hr].
Qed.

(** The merging iterator at position [p] of the union [m]. *)
Definition facing (d : Direction) (k : bytes) (m : list (bytes * bytes)) : Z :=
  match d with kForward => cnt (lt_key cmp k) m | kReverse => cnt (le_key cmp k) m - 1 end.

Definition merged (mi : MergingIterator I) (m : list (bytes * bytes)) (p : Z) : Prop :=
  exists Ms, union_of cmp m Ms /\ Forall2 (fun w l => exists q, at_entry w l q) (children_ mi) Ms /\
    match current_ mi with
    | None => at_pos m p = None
    | Some c => exists k v w l q, at_pos m p = Some (k, v) /\ children_ mi !! c = Some w /\ Ms !! c = Some l /\
        at_entry w l q /\ at_pos l q = Some (k, v) /\ placed (facing (direction_ mi) k) (children_ mi) Ms
    end.

Lemma placed_some f ws Ms : placed f ws Ms -> Forall2 (fun w l => exists q, at_entry w l q) ws Ms.
Proof. intros Hp. eapply Forall2_impl; [exact Hp|]. intros w l Hw. by exists (f l). Qed.

(** Where the cut by a test and the cut by the entry it found agree. *)
Lemma least_cut P m Ms k v l :
  downward cmp P -> union_of cmp m Ms -> least cmp P m (k, v) -> l ∈ Ms -> cnt P l = cnt (lt_key cmp k) l.
Proof.
  intros HP Hu (_ & Hk & Hmin) Hl. apply cnt_ext. intros k' v' Hin. apply list_elem_of_lookup in Hl as [i Hi].
  pose proof (union_in cmp m Ms i l _ Hu Hi Hin) as Hm. unfold lt_key. cbn in *. destruct (P k') eqn:E; symmetry.
  - apply bool_decide_eq_true. destruct (cmp k' k) eqn:Ec; [apply (cmp_eq cmp) in Ec as ->; congruence|done|].
    exfalso. rewrite (HP k k') in Hk; [done|done|]. by rewrite (cmp_opp cmp k' k), Ec.
  - apply bool_decide_eq_false. apply (cmp_not_gt cmp). by apply (Hmin (k', v')).
Qed.

Lemma greatest_cut P m Ms k v l :
  downward cmp P -> union_of cmp m Ms -> greatest cmp P m (k, v) -> l ∈ Ms -> cnt P l = cnt (le_key cmp k) l.
Proof.
  intros HP Hu (_ & Hk & Hmax) Hl. apply cnt_ext. intros k' v' Hin. apply list_elem_of_lookup in Hl as [i Hi].
  pose proof (union_in cmp m Ms i l _ Hu Hi Hin) as Hm. unfold le_key. cbn in *. destruct (P k') eqn:E; symmetry.
  - apply bool_decide_eq_true. by apply (Hmax (k', v')).
  - apply bool_decide_eq_false. intros Hle. rewrite (HP k' k) in E; [done|done|done].
Qed.

Lemma placed_ext f g ws Ms : (forall l, l ∈ Ms -> f l = g l) -> placed f ws Ms -> placed g ws Ms.
Proof.
  intros Heq Hp. unfold placed in *. induction Hp as [|w l ws Ms Hw _ IH]; [constructor|]. constructor.
  - rewrite <- Heq by (by left). done.
  - apply IH. intros l' Hl'. apply Heq. by right.
Qed.

Lemma FindSmallest_ok P m Ms ws c d :
  downward cmp P -> union_of cmp m Ms -> placed (cnt P) ws Ms ->
  exists mi, FindSmallest cmp (mkMerging ws c d) = Some mi /\ merged (set_direction mi kForward) m (cnt P m) /\ direction_ mi = d.
Proof.
  intros HP Hu Hw. destruct Hu as (Hs & Hperm & HMs) eqn:Eu. clear Eu.
  destruct (find_smallest_spec ws Ms P HP ws Ms [] [] None [] eq_refl eq_refl eq_refl Hw) as (r & Er & Hr); [by intros e ?%elem_of_nil|].
  unfold FindSmallest. cbn [children_ direction_]. cbn [length] in Er. rewrite Er. cbn [mbind option_bind].
  eexists. split; [done|]. split; [|done]. exists Ms. split; [done|]. cbn [set_direction children_ current_ direction_].
  split; [by apply (placed_some (cnt P))|]. pose proof (at_cnt cmp P m Hs HP) as Hcut. cbn [app] in Hr.
  destruct r as [[c' w]|]; cbn [fmap option_fmap option_map fst].
  - destruct Hr as (Hc & l & [k v] & Hlc & Hel & Hl & (Hin & Hf & Hmin)). rewrite <- Hperm in Hin.
    destruct (at_pos m (cnt P m)) as [e|] eqn:Em; [|rewrite (Hcut _ Hin) in Hf; done].
    destruct Hcut as (Hin' & Hf' & Hmin').
    assert (e = (k, v)) as ->.
    { apply (sorted_key_eq cmp m); [done|done|done|by apply Hmin'|]. apply Hmin; [by rewrite <- Hperm|done]. }
    exists k, v, w, l, (cnt P l). split; [done|]. split; [done|]. split; [done|]. split; [done|]. split; [done|].
    apply (placed_ext (cnt P)); [|done]. intros l0 Hl0. by apply (least_cut P m Ms k v l0).
  - destruct (at_pos m (cnt P m)) as [e|] eqn:Em; [|done]. destruct Hcut as (Hin & Hf & _). rewrite Hperm in Hin.
    rewrite (Hr e Hin) in Hf. done.
Qed.

Lemma FindLargest_ok P m Ms ws c d :
  downward cmp P -> union_of cmp m Ms -> placed (fun l => cnt P l - 1) ws Ms ->
  exists mi, FindLargest cmp (mkMerging ws c d) = Some mi /\ merged (set_direction mi kReverse) m (cnt P m - 1) /\ direction_ mi = d.
Proof.
  intros HP Hu Hw. destruct Hu as (Hs & Hperm & HMs) eqn:Eu. clear Eu.
  destruct (find_largest_spec ws Ms P HP ws Ms [] [] eq_refl eq_refl eq_refl Hw) as (r & Er & Hr).
  unfold FindLargest. cbn [children_ direction_]. cbn [length] in Er. rewrite Er. cbn [mbind option_bind].
  eexists. split; [done|]. split; [|done]. exists Ms. split; [done|]. cbn [set_direction children_ current_ direction_].
  split; [by apply (placed_some (fun l => cnt P l - 1))|]. pose proof (at_cnt_pred cmp P m Hs HP) as Hcut.
  destruct r as [[c' w]|]; cbn [fmap option_fmap option_map fst].
  - destruct Hr as (Hc & l & [k v] & Hlc & Hel & Hl & (Hin & Hf & Hmax)). rewrite <- Hperm in Hin.
    destruct (at_pos m (cnt P m - 1)) as [e|] eqn:Em; [|rewrite (Hcut _ Hin) in Hf; done].
    destruct Hcut as (Hin' & Hf' & Hmax').
    assert (e = (k, v)) as ->.
    { apply (sorted_key_eq cmp m); [done|done|done| |by apply Hmax']. apply Hmax; [by rewrite <- Hperm|done]. }
    exists k, v, w, l, (cnt P l - 1). split; [done|]. split; [done|]. split; [done|]. split; [done|]. split; [done|].
    apply (placed_ext (fun l => cnt P l - 1)); [|done]. intros l0 Hl0. cbn [facing]. f_equal. by apply (greatest_cut P m Ms k v l0).
  - destruct (at_pos m (cnt P m - 1)) as [e|] eqn:Em; [|done]. destruct Hcut as (Hin & Hf & _). rewrite Hperm in Hin.
    rewrite (Hr e Hin) in Hf. done.
Qed.

Lemma mapM_placed (f : W -> option W) (g : list (bytes * bytes) -> Z) ws Ms :
  (forall w l q, at_entry w l q -> exists w', f w = Some w' /\ at_entry w' l (g l)) ->
  Forall2 (fun w l => exists q, at_entry w l q) ws Ms -> exists ws', mapM f ws = Some ws' /\ placed g ws' Ms.
Proof.
  intros Hf Hw. induction Hw as [|w l ws Ms [q Hw] _ (ws' & IH & Hp)]; [by exists []; split; [|constructor]|].
  destruct (Hf w l q Hw) as (w' & E & Hw'). exists (w' :: ws'). cbn [mapM]. rewrite E. cbn [mbind option_bind]. rewrite IH.
  split; [done|]. by constructor.
Qed.

(** A search that moves every child to the same cut. *)
Lemma seek_smallest_ok f P mi m p :
  downward cmp P -> merged mi m p ->
  (forall w l q, at_entry w l q -> exists w', f w = Some w' /\ at_entry w' l (cnt P l)) ->
  exists mi', seek_all f (FindSmallest cmp) kForward mi = Some mi' /\ merged mi' m (cnt P m).
Proof.
  intros HP (Ms & Hu & Hw & _) Hf. destruct (mapM_placed f (cnt P) _ _ Hf Hw) as (ws' & E & Hp). unfold seek_all. rewrite E.
  cbn [mbind option_bind]. destruct (FindSmallest_ok P m Ms ws' (current_ mi) (direction_ mi) HP Hu Hp) as (mi' & E' & Hm & _).
  unfold set_children. rewrite E'. cbn [mbind option_bind]. eexists. split; [done|exact Hm].
Qed.

Lemma seek_largest_ok f P mi m p :
  downward cmp P -> merged mi m p ->
  (forall w l q, at_entry w l q -> exists w', f w = Some w' /\ at_entry w' l (cnt P l - 1)) ->
  exists mi', seek_all f (FindLargest cmp) kReverse mi = Some mi' /\ merged mi' m (cnt P m - 1).
Proof.
  intros HP (Ms & Hu & Hw & _) Hf. destruct (mapM_placed f (fun l => cnt P l - 1) _ _ Hf Hw) as (ws' & E & Hp). unfold seek_all. rewrite E.
  cbn [mbind option_bind]. destruct (FindLargest_ok P m Ms ws' (current_ mi) (direction_ mi) HP Hu Hp) as (mi' & E' & Hm & _).
  unfold set_children. rewrite E'. cbn [mbind option_bind]. eexists. split; [done|exact Hm].
Qed.

(** ** Moving one entry *)

(** All children but [c] where [f] puts them, [c] where it was. *)
Definition but_one (f g : list (bytes * bytes) -> Z) (c : nat) (i : nat) (l : list (bytes * bytes)) : Z :=
  if Nat.eqb i c then g l else f l.

Lemma reposition_ok (f : W -> option W) (g h : list (bytes * bytes) -> Z) c i ws Ms :
  (forall w l q, at_entry w l q -> exists w', f w = Some w' /\ at_entry w' l (g l)) -> placed h ws Ms ->
  exists ws', reposition f c i ws = Some ws' /\
    (forall j w' l, ws' !! j = Some w' -> Ms !! j = Some l -> at_entry w' l (but_one g h c (i + j) l)) /\ length ws' = length Ms.
Proof.
  intros Hf Hw. revert i. induction Hw as [|w l ws Ms Hw _ IH]; intros i; cbn [reposition].
  { exists []. split; [done|]. by split. }
  destruct (IH (S i)) as (ws' & E & Hws & Hlen).
  assert (Hone : exists w', (if Nat.eqb i c then Some w else f w) = Some w' /\ at_entry w' l (but_one g h c i l)).
  { unfold but_one. destruct (Nat.eqb i c); [by exists w|]. by apply (Hf w l (h l)). }
  destruct Hone as (w' & Ew & Hw'). rewrite Ew. cbn [mbind option_bind]. rewrite E. cbn [mbind option_bind].
  exists (w' :: ws'). split; [done|]. split; [|simpl; lia].
  intros [|j] w0 l0 H1 H2; cbn [lookup list_lookup] in H1, H2.
  - injection H1 as <-. injection H2 as <-. by rewrite Nat.add_0_r.
  - rewrite Nat.add_succ_r. change (S (i + j)) with (S i + j)%nat. by apply Hws.
Qed.

Lemma placed_lookup f ws Ms :
  length ws = length Ms -> (forall j w l, ws !! j = Some w -> Ms !! j = Some l -> at_entry w l (f l)) -> placed f ws Ms.
Proof. intros Hl Hw. apply Forall2_same_length_lookup. split; [done|]. intros j w l. apply Hw. Qed.

(** Moving [c] by one after the others were repositioned. *)
Lemma step_placed (F : W -> option W) (g h : list (bytes * bytes) -> Z) (ws : list W) Ms c l :
  (forall j w l, ws !! j = Some w -> Ms !! j = Some l -> at_entry w l (but_one g h c j l)) -> length ws = length Ms ->
  Ms !! c = Some l -> (forall w, at_entry w l (h l) -> exists w', F w = Some w' /\ at_entry w' l (g l)) ->
  exists w w', ws !! c = Some w /\ F w = Some w' /\ placed g (<[c := w']> ws) Ms.
Proof.
  intros Hws Hlen Hl HF. destruct (lookup_lt_is_Some_2 ws c) as [w Hw]; [rewrite Hlen; by eapply lookup_lt_Some|].
  pose proof (Hws c w l Hw Hl) as Hat. unfold but_one in Hat. rewrite Nat.eqb_refl in Hat. destruct (HF w Hat) as (w' & E & Hw').
  exists w, w'. split; [done|]. split; [done|]. apply placed_lookup; [by rewrite length_insert|].
  intros j w0 l0 H1 H2. apply list_lookup_insert_Some in H1 as [(<- & <- & _)|[Hne H1]].
  - rewrite Hl in H2. by injection H2 as <-.
  - specialize (Hws j w0 l0 H1 H2). unfold but_one in Hws. by rewrite (proj2 (Nat.eqb_neq j c)) in Hws.
Qed.

Lemma step_forward_ok k (w : W) l q :
  at_entry w l q -> exists w', step_forward cmp k w = Some w' /\ at_entry w' l (cnt (le_key cmp k) l).
Proof.
  intros Hw. pose proof (at_sorted w l q Hw) as Hs. unfold step_forward. destruct (Seek_law w l q k Hw) as (w1 & -> & Hw1).
  change (fun x => bool_decide (cmp x k = Lt)) with (lt_key cmp k) in Hw1. cbn [mbind option_bind]. rewrite (Valid_law w1 l _ Hw1).
  pose proof (at_cnt cmp (lt_key cmp k) l Hs (downward_lt cmp k)) as Hcut.
  assert (Hkk : lt_key cmp k k = false) by (apply bool_decide_eq_false; by rewrite (cmp_refl cmp)).
  destruct (at_pos l (cnt (lt_key cmp k) l)) as [[k' v']|] eqn:Ep.
  - rewrite bool_decide_true by done. destruct (key_law w1 l _ k' v' Hw1 Ep) as [-> _]. cbn [mbind option_bind].
    destruct Hcut as (Hin & Hge & Hmin). cbn in Hge. destruct (cmp k k') eqn:Ec.
    + apply (cmp_eq cmp) in Ec as <-. destruct (Next_law w1 l _ Hw1) as (w2 & -> & Hw2); [by rewrite Ep|].
      exists w2. split; [done|]. by rewrite (cnt_lt_le cmp k v' l Hs Hin).
    + exists w1. split; [done|]. rewrite (cnt_lt_le_none cmp); [done|]. intros v Hk. pose proof (Hmin (k, v) Hk Hkk) as Hle. cbn in Hle.
      by rewrite (cmp_opp cmp k k'), Ec in Hle.
    + apply bool_decide_eq_false in Hge. by rewrite (cmp_opp cmp k k'), Ec in Hge.
  - rewrite bool_decide_false by (by intros [? ?]). exists w1. split; [done|]. rewrite (cnt_lt_le_none cmp); [done|]. intros v Hk.
    specialize (Hcut (k, v) Hk). cbn in Hcut. congruence.
Qed.

Lemma step_back_ok k (w : W) l q :
  at_entry w l q -> exists w', step_back k w = Some w' /\ at_entry w' l (cnt (lt_key cmp k) l - 1).
Proof.
  intros Hw. pose proof (at_sorted w l q Hw) as Hs. unfold step_back. destruct (Seek_law w l q k Hw) as (w1 & -> & Hw1).
  change (fun x => bool_decide (cmp x k = Lt)) with (lt_key cmp k) in Hw1. cbn [mbind option_bind]. rewrite (Valid_law w1 l _ Hw1).
  pose proof (at_cnt cmp (lt_key cmp k) l Hs (downward_lt cmp k)) as Hcut.
  destruct (at_pos l (cnt (lt_key cmp k) l)) as [e|] eqn:Ep.
  - rewrite bool_decide_true by done. apply (Prev_law w1 l _ Hw1). by rewrite Ep.
  - rewrite bool_decide_false by (by intros [? ?]). destruct (SeekToLast_law w1 l _ Hw1) as (w2 & E2 & Hw2). exists w2. split; [done|].
    rewrite (cnt_ext (lt_key cmp k) (fun _ => true)); [by rewrite cnt_all|]. intros k' v' Hin. by apply (Hcut (k', v')).
Qed.

(** The current child stands at the current key, which no other child has. *)
Lemma current_facts mi m p :
  merged mi m p -> is_Some (at_pos m p) ->
  exists Ms c k v w l, union_of cmp m Ms /\ current_ mi = Some c /\ at_pos m p = Some (k, v) /\ children_ mi !! c = Some w /\
    Ms !! c = Some l /\ key w = Some k /\ value w = Some v /\ at_pos l (cnt (lt_key cmp k) l) = Some (k, v) /\
    placed (facing (direction_ mi) k) (children_ mi) Ms /\
    cnt (le_key cmp k) l = cnt (lt_key cmp k) l + 1 /\
    (forall j l', Ms !! j = Some l' -> j <> c -> cnt (le_key cmp k) l' = cnt (lt_key cmp k) l').
Proof.
  intros (Ms & Hu & _ & Hcur) Hp. destruct (current_ mi) as [c|]; [|rewrite Hcur in Hp; by destruct Hp].
  destruct Hcur as (k & v & w & l & q & Hpos & Hw & Hl & Hat & Hq & Hpl).
  pose proof (at_sorted w l q Hat) as Hs. destruct (pos_cnt cmp l q k v Hs Hq) as [E1 E2]. destruct (key_law w l q k v Hat Hq) as [Hk Hv].
  exists Ms, c, k, v, w, l. rewrite E1, E2. repeat (split; [done|]). intros j l' Hl' Hne. apply (cnt_lt_le_none cmp).
  intros v' Hin. apply Hne. symmetry. by apply (union_disjoint cmp m Ms c j l l' k v v' Hu Hl Hl' (at_pos_in _ _ _ Hq)).
Qed.

Lemma placed_but_one (f g h : list (bytes * bytes) -> Z) (ws : list W) Ms c l :
  placed f ws Ms -> Ms !! c = Some l -> f l = h l -> (forall j l', Ms !! j = Some l' -> j <> c -> f l' = g l') ->
  (forall j w l, ws !! j = Some w -> Ms !! j = Some l -> at_entry w l (but_one g h c j l)) /\ length ws = length Ms.
Proof.
  intros Hp Hc Hh Hg. split; [|by eapply Forall2_length]. intros j w l' Hw Hl'.
  pose proof (Forall2_lookup_lr _ _ _ _ _ _ Hp Hw Hl') as Hat. cbn in Hat. unfold but_one.
  destruct (Nat.eqb_spec j c) as [->|Hne]; [|by rewrite <- (Hg j l')].
  rewrite Hc in Hl'. injection Hl' as <-. by rewrite <- Hh.
Qed.

Lemma m_key_current (mi : MergingIterator I) c w : current_ mi = Some c -> children_ mi !! c = Some w ->
  m_key mi = key w /\ m_value mi = value w.
Proof. intros Hc Hw. unfold m_key, m_value, current_child. rewrite Hc. cbn [mbind option_bind]. by rewrite Hw. Qed.

Lemma but_one_eq g (h h' : list (bytes * bytes) -> Z) (ws : list W) (Ms : list (list (bytes * bytes))) c l :
  Ms !! c = Some l -> h l = h' l ->
  (forall j w l, ws !! j = Some w -> Ms !! j = Some l -> at_entry w l (but_one g h c j l)) ->
  forall j w l, ws !! j = Some w -> Ms !! j = Some l -> at_entry w l (but_one g h' c j l).
Proof.
  intros Hl Hh Hws j w l' H1 H2. specialize (Hws j w l' H1 H2). unfold but_one in *. destruct (Nat.eqb_spec j c) as [->|]; [|done].
  rewrite Hl in H2. injection H2 as <-. by rewrite <- Hh.
Qed.

Lemma set_direction_same (mi : MergingIterator I) d : direction_ mi = d -> set_direction mi d = mi.
Proof. destruct mi. cbn. by intros ->. Qed.

Lemma m_Next_ok mi m p : merged mi m p -> is_Some (at_pos m p) -> exists mi', m_Next cmp mi = Some mi' /\ merged mi' m (p + 1).
Proof.
  intros Hm Hp. destruct (current_facts mi m p Hm Hp) as (Ms & c & k & v & w & l & Hu & Hc & Hpos & Hw & Hl & Hk & _ & Hat & Hpl & Ele & Eno).
  unfold m_Next. rewrite Hc. cbn [mbind option_bind].
  assert (Hready : exists ws, (match direction_ mi with
      | kForward => Some mi
      | kReverse => k ← m_key mi; l ← reposition (step_forward cmp k) c 0 (children_ mi); Some (set_direction (set_children mi l) kForward)
      end) = Some (mkMerging ws (Some c) kForward) /\
    (forall j w l, ws !! j = Some w -> Ms !! j = Some l -> at_entry w l (but_one (cnt (le_key cmp k)) (cnt (lt_key cmp k)) c j l)) /\
    length ws = length Ms).
  { destruct (direction_ mi) eqn:Ed; cbn [facing] in Hpl.
    - exists (children_ mi). split; [destruct mi; cbn in *; by subst|]. apply (placed_but_one (cnt (lt_key cmp k)) _ _ _ _ _ l); try done.
      intros j l' H1 H2. symmetry. by apply (Eno j).
    - rewrite (proj1 (m_key_current mi c w Hc Hw)), Hk. cbn [mbind option_bind].
      destruct (reposition_ok (step_forward cmp k) (cnt (le_key cmp k)) (fun l => cnt (le_key cmp k) l - 1) c 0 (children_ mi) Ms
        (step_forward_ok k) Hpl) as (ws & -> & Hws & Hlen).
      exists ws. cbn [mbind option_bind]. split; [unfold set_direction, set_children; cbn; by rewrite Hc|]. split; [|done].
      apply (but_one_eq _ (fun l => cnt (le_key cmp k) l - 1) _ ws Ms c l); [done|lia|exact Hws]. }
  destruct Hready as (ws & -> & Hws & Hlen). cbn [mbind option_bind children_].
  destruct (step_placed Next (cnt (le_key cmp k)) (cnt (lt_key cmp k)) ws Ms c l Hws Hlen Hl) as (w1 & w2 & -> & E2 & Hpl2).
  { intros w0 Hw0. rewrite Ele. apply (Next_law w0 l _ Hw0). by rewrite Hat. }
  cbn [mbind option_bind]. rewrite E2. cbn [mbind option_bind]. unfold set_children. cbn [current_ direction_].
  destruct (FindSmallest_ok (le_key cmp k) m Ms _ (Some c) kForward (downward_le cmp k) Hu Hpl2) as (mi' & E & Hm' & Ed').
  exists mi'. split; [done|]. rewrite (set_direction_same mi' kForward Ed') in Hm'.
  destruct (pos_cnt cmp m p k v (proj1 Hu) Hpos) as [_ Ecnt]. by rewrite Ecnt in Hm'.
Qed.

Lemma m_Prev_ok mi m p : merged mi m p -> is_Some (at_pos m p) -> exists mi', m_Prev cmp mi = Some mi' /\ merged mi' m (p - 1).
Proof.
  intros Hm Hp. destruct (current_facts mi m p Hm Hp) as (Ms & c & k & v & w & l & Hu & Hc & Hpos & Hw & Hl & Hk & _ & Hat & Hpl & Ele & Eno).
  unfold m_Prev. rewrite Hc. cbn [mbind option_bind].
  assert (Hready : exists ws, (match direction_ mi with
      | kReverse => Some mi
      | kForward => k ← m_key mi; l ← reposition (step_back k) c 0 (children_ mi); Some (set_direction (set_children mi l) kReverse)
      end) = Some (mkMerging ws (Some c) kReverse) /\
    (forall j w l, ws !! j = Some w -> Ms !! j = Some l ->
       at_entry w l (but_one (fun l => cnt (lt_key cmp k) l - 1) (cnt (lt_key cmp k)) c j l)) /\
    length ws = length Ms).
  { destruct (direction_ mi) eqn:Ed; cbn [facing] in Hpl.
    - rewrite (proj1 (m_key_current mi c w Hc Hw)), Hk. cbn [mbind option_bind].
      destruct (reposition_ok (step_back k) (fun l => cnt (lt_key cmp k) l - 1) (cnt (lt_key cmp k)) c 0 (children_ mi) Ms
        (step_back_ok k) Hpl) as (ws & -> & Hws & Hlen).
      exists ws. cbn [mbind option_bind]. split; [unfold set_direction, set_children; cbn; by rewrite Hc|]. by split.
    - exists (children_ mi). split; [destruct mi; cbn in *; by subst|].
      apply (placed_but_one (fun l => cnt (le_key cmp k) l - 1) _ _ _ _ _ l); [done|done|lia|].
      intros j l' H1 H2. by rewrite (Eno j l'). }
  destruct Hready as (ws & -> & Hws & Hlen). cbn [mbind option_bind children_].
  destruct (step_placed Prev (fun l => cnt (lt_key cmp k) l - 1) (cnt (lt_key cmp k)) ws Ms c l Hws Hlen Hl) as (w1 & w2 & -> & E2 & Hpl2).
  { intros w0 Hw0. apply (Prev_law w0 l _ Hw0). by rewrite Hat. }
  cbn [mbind option_bind]. rewrite E2. cbn [mbind option_bind]. unfold set_children. cbn [current_ direction_].
  destruct (FindLargest_ok (lt_key cmp k) m Ms _ (Some c) kReverse (downward_lt cmp k) Hu Hpl2) as (mi' & E & Hm' & Ed').
  exists mi'. split; [done|]. rewrite (set_direction_same mi' kReverse Ed') in Hm'.
  destruct (pos_cnt cmp m p k v (proj1 Hu) Hpos) as [Ecnt _]. by rewrite Ecnt in Hm'.
Qed.

#[export] Program Instance merging_laws : IteratorLaws (MergingIterator I) cmp (H := merging_iterator cmp) := {| at_entry := merged |}.
Next Obligation. intros mi m p (Ms & Hu & _). apply Hu. Qed.
Next Obligation.
  intros mi m p Hm. cbn. destruct (at_pos m p) as [e|] eqn:E.
  - rewrite bool_decide_true by done. destruct (current_facts mi m p Hm) as (_ & c & _ & _ & _ & _ & _ & -> & _); [by rewrite E|done].
  - rewrite bool_decide_false by (by intros [? ?]). destruct Hm as (Ms & _ & _ & Hc). destruct (current_ mi); [|done].
    destruct Hc as (k & v & _ & _ & _ & Hpos & _). congruence.
Qed.
Next Obligation.
  intros mi m p k v Hm He. destruct (current_facts mi m p Hm) as (Ms & c & k' & v' & w & l & _ & Hc & Hpos & Hw & _ & Hk & Hv & _);
    [by rewrite He|]. rewrite He in Hpos. injection Hpos as <- <-. cbn. destruct (m_key_current mi c w Hc Hw) as [-> ->]. by split.
Qed.
Next Obligation.
  intros mi m p Hm. destruct (seek_smallest_ok SeekToFirst (fun _ => false) mi m p) as (mi' & E & Hm'); [done|done| |].
  - intros w l q Hw. rewrite cnt_none by (by apply Forall_forall). by apply (SeekToFirst_law w l q).
  - exists mi'. rewrite cnt_none in Hm' by (by apply Forall_forall). by split.
Qed.
Next Obligation.
  intros mi m p Hm. destruct (seek_largest_ok SeekToLast (fun _ => true) mi m p) as (mi' & E & Hm'); [done|done| |].
  - intros w l q Hw. rewrite cnt_all. by apply (SeekToLast_law w l q).
  - exists mi'. rewrite cnt_all in Hm'. by split.
Qed.
Next Obligation.
  intros mi m p k Hm. apply (seek_smallest_ok (fun w => Seek w k) (lt_key cmp k) mi m p); [apply (downward_lt cmp)|done|].
  intros w l q Hw. by apply (Seek_law w l q).
Qed.
Next Obligation.
  intros mi m p k Hm. apply (seek_largest_ok (fun w => SeekForPrev w k) (le_key cmp k) mi m p); [apply (downward_le cmp)|done|].
  intros w l q Hw. by apply (SeekForPrev_law w l q).
Qed.
Next Obligation. intros mi m p Hm Hp. by apply (m_Next_ok mi m p). Qed.
Next Obligation. intros mi m p Hm Hp. by apply (m_Prev_ok mi m p). Qed.

#[export] Program Instance empty_laws : IteratorLaws EmptyIterator cmp := {| at_entry _ m _ := m = [] |}.
Next Obligation. intros it m p ->. constructor. Qed.
Next Obligation. intros it m p ->. cbn. rewrite bool_decide_false; [done|]. intros [e He]. by apply at_pos_in, elem_of_nil in He. Qed.
Next Obligation. intros it m p k v -> He. by apply at_pos_in, elem_of_nil in He. Qed.
Next Obligation. intros it m p Hm. by exists it. Qed.
Next Obligation. intros it m p Hm. by exists it. Qed.
Next Obligation. intros it m p k Hm. by exists it. Qed.
Next Obligation. intros it m p k Hm. by exists it. Qed.
Next Obligation. intros it m p -> [e He]. by apply at_pos_in, elem_of_nil in He. Qed.
Next Obligation. intros it m p -> [e He]. by apply at_pos_in, elem_of_nil in He. Qed.
End MergingLaws.

(** ** Whatever [NewMergingIterator] returns *)
Section AnyIterator.
Context {I : Type} `{Iterator I} (cmp : bytes -> bytes -> comparison).

(** The virtual call. *)
Definition dispatch (f : forall J, Iterator J -> J -> option J) (a : AnyIterator I) : option (AnyIterator I) :=
  match a with
  | AnEmpty it => AnEmpty <$> f EmptyIterator empty_iterator it
  | AChild it => AChild <$> f I _ it
  | AMerging it => AMerging <$> f (MergingIterator I) (merging_iterator cmp) it
  end.

Definition observe {A} (f : forall J, Iterator J -> J -> A) (a : AnyIterator I) : A :=
  match a with
  | AnEmpty it => f EmptyIterator empty_iterator it
  | AChild it => f I _ it
  | AMerging it => f (MergingIterator I) (merging_iterator cmp) it
  end.

#[export] Instance any_iterator : Iterator (AnyIterator I) := {
  Valid := observe (fun J _ => Valid);
  SeekToFirst := dispatch (fun J _ => SeekToFirst);
  SeekToLast := dispatch (fun J _ => SeekToLast);
  Seek a k := dispatch (fun J _ it => Seek it k) a;
  SeekForPrev a k := dispatch (fun J _ it => SeekForPrev it k) a;
  Next := dispatch (fun J _ => Next);
  Prev := dispatch (fun J _ => Prev);
  key := observe (fun J _ => key);
  value := observe (fun J _ => value);
  status := observe (fun J _ => status) }.

Context `{!IteratorLaws I cmp} `{!TotalCmp cmp}.

Definition any_at (a : AnyIterator I) (m : list (bytes * bytes)) (p : Z) : Prop :=
  match a with
  | AnEmpty it => at_entry (cmp := cmp) it m p
  | AChild it => at_entry (cmp := cmp) it m p
  | AMerging it => merged (cmp := cmp) it m p
  end.

Lemma fmap_at {J} (inj : J -> AnyIterator I) (r : option J) (Q : J -> Prop) (Q' : AnyIterator I -> Prop) :
  (exists it, r = Some it /\ Q it) -> (forall it, Q it -> Q' (inj it)) -> exists a, inj <$> r = Some a /\ Q' a.
Proof. intros (it & -> & Hq) HQ. exists (inj it). split; [done|by apply HQ]. Qed.

#[export] Program Instance any_laws : IteratorLaws (AnyIterator I) cmp := {| at_entry := any_at |}.
Next Obligation. intros [it|it|it] m p Ha; by apply (at_sorted (cmp := cmp) it m p). Qed.
Next Obligation. intros [it|it|it] m p Ha; by apply (Valid_law (cmp := cmp) it m p). Qed.
Next Obligation. intros [it|it|it] m p k v Ha He; by apply (key_law (cmp := cmp) it m p k v). Qed.
Next Obligation. intros [it|it|it] m p Ha; (eapply fmap_at; [by apply (SeekToFirst_law (cmp := cmp) it m p)|done]). Qed.
Next Obligation. intros [it|it|it] m p Ha; (eapply fmap_at; [by apply (SeekToLast_law (cmp := cmp) it m p)|done]). Qed.
Next Obligation. intros [it|it|it] m p k Ha; (eapply fmap_at; [by apply (Seek_law (cmp := cmp) it m p k)|done]). Qed.
Next Obligation. intros [it|it|it] m p k Ha; (eapply fmap_at; [by apply (SeekForPrev_law (cmp := cmp) it m p k)|done]). Qed.
Next Obligation. intros [it|it|it] m p Ha Hp; (eapply fmap_at; [by apply (Next_law (cmp := cmp) it m p)|done]). Qed.
Next Obligation. intros [it|it|it] m p Ha Hp; (eapply fmap_at; [by apply (Prev_law (cmp := cmp) it m p)|done]). Qed.
End AnyIterator.

(** ** Scripts of moves *)
Inductive movement := MFirst | MLast | MSeek (k : bytes) | MSeekForPrev (k : bytes) | MNext | MPrev.

Definition do_move {I} `{Iterator I} (it : I) (mv : movement) : option I :=
  match mv with
  | MFirst => SeekToFirst it
  | MLast => SeekToLast it
  | MSeek k => Seek it k
  | MSeekForPrev k => SeekForPrev it k
  | MNext => Next it
  | MPrev => Prev it
  end.

Fixpoint do_moves {I} `{Iterator I} (it : I) (l : list movement) : option I :=
  match l with [] => Some it | mv :: l' => it ← do_move it mv; do_moves it l' end.

(** The same on a position, [None] while there is none; [Next] and [Prev] need
    an entry. *)
Definition move_pos (cmp : bytes -> bytes -> comparison) (m : list (bytes * bytes)) (p : option Z) (mv : movement) : option Z :=
  match mv with
  | MFirst => Some 0
  | MLast => Some (Z.of_nat (length m) - 1)
  | MSeek k => Some (cnt (lt_key cmp k) m)
  | MSeekForPrev k => Some (cnt (le_key cmp k) m - 1)
  | MNext => p ← p; _ ← at_pos m p; Some (p + 1)
  | MPrev => p ← p; _ ← at_pos m p; Some (p - 1)
  end.

Fixpoint moves_pos (cmp : bytes -> bytes -> comparison) (m : list (bytes * bytes)) (p : option Z) (l : list movement) : option Z :=
  match l with [] => p | mv :: l' => p ← move_pos cmp m p mv; moves_pos cmp m (Some p) l' end.

Section Scripts.
Context {I : Type} `{IteratorLaws I cmp}.

Lemma do_move_ok it m p p0 mv p' :
  at_entry it m p -> p0 = None \/ p0 = Some p -> move_pos cmp m p0 mv = Some p' ->
  exists it', do_move it mv = Some it' /\ at_entry it' m p'.
Proof.
  intros Hit Hp0 Hmv. destruct mv as [| |k|k| |]; cbn [move_pos do_move] in *.
  - injection Hmv as <-. by apply (SeekToFirst_law it m p).
  - injection Hmv as <-. by apply (SeekToLast_law it m p).
  - injection Hmv as <-. by apply (Seek_law it m p).
  - injection Hmv as <-. by apply (SeekForPrev_law it m p).
  - destruct Hp0 as [->| ->]; [done|]. cbn [mbind option_bind] in Hmv. destruct (at_pos m p) as [e|] eqn:E; [|done].
    injection Hmv as <-. apply (Next_law it m p Hit). by rewrite E.
  - destruct Hp0 as [->| ->]; [done|]. cbn [mbind option_bind] in Hmv. destruct (at_pos m p) as [e|] eqn:E; [|done].
    injection Hmv as <-. apply (Prev_law it m p Hit). by rewrite E.
Qed.

Lemma do_moves_ok l it m p p0 p' :
  at_entry it m p -> p0 = None \/ p0 = Some p -> moves_pos cmp m p0 l = Some p' ->
  exists it', do_moves it l = Some it' /\ at_entry it' m p'.
Proof.
  revert it p p0. induction l as [|mv l IH]; intros it p p0 Hit Hp0 Hl; cbn [moves_pos do_moves] in *.
  - exists it. split; [done|]. destruct Hp0 as [->| ->]; [done|]. by injection Hl as <-.
  - destruct (move_pos cmp m p0 mv) as [p1|] eqn:E; [|done]. cbn [mbind option_bind] in Hl.
    destruct (do_move_ok it m p p0 mv p1 Hit Hp0 E) as (it1 & -> & Hit1). cbn [mbind option_bind]. apply (IH it1 p1 (Some p1)); auto.
Qed.
End Scripts.

(** ** Theorem *)
Section Union.
Context {I : Type} `{IteratorLaws I cmp} `{!TotalCmp cmp}.

Lemma sorted_perm_eq (m l : list (bytes * bytes)) : om_sorted cmp m -> om_sorted cmp l -> m ≡ₚ l -> m = l.
Proof.
  intros Hm Hl HP. apply (om_ext cmp); [done|done|]. intros k. destruct (om_find cmp k l) as [v|] eqn:E.
  - apply (om_in_find cmp); [done|]. rewrite HP. by apply (om_find_in cmp).
  - destruct (om_find cmp k m) as [v|] eqn:E'; [|done]. apply (om_find_in cmp) in E'. rewrite HP in E'.
    apply (om_in_find cmp) in E'; [|done]. congruence.
Qed.

Lemma new_merging_ok its Ms m :
  Forall2 (fun it l => exists q, at_entry it l q) its Ms -> union_of cmp m Ms ->
  exists mi, new_merging its = Some mi /\ merged mi m (-1).
Proof.
  intros Hits Hu. unfold new_merging.
  assert (Hws : exists ws, mapM new_wrapper its = Some ws /\ Forall2 (fun (w : IteratorWrapper I) l => exists q, at_entry w l q) ws Ms).
  { clear Hu. induction Hits as [|it l its Ms [q Hit] _ (ws & IH & Hws)]; [by exists []|].
    destruct (Update_ok it l q [] Hit) as (w & E & Hw). exists (w :: ws). change (Update it []) with (new_wrapper it) in E.
    cbn [mapM]. rewrite E. cbn [mbind option_bind]. rewrite IH. split; [done|]. constructor; [by exists q|done]. }
  destruct Hws as (ws & -> & Hws). cbn [mbind option_bind]. eexists. split; [done|]. by exists Ms.
Qed.

Lemma NewMergingIterator_ok its Ms m :
  Forall2 (fun it l => exists q, at_entry it l q) its Ms -> union_of cmp m Ms ->
  exists a p, NewMergingIterator its = Some a /\ any_at cmp a m p.
Proof.
  intros Hits Hu. destruct Hits as [|it l its Ms [q Hit] Hits].
  - exists NewEmptyIterator, 0. split; [done|]. destruct Hu as (_ & HP & _). cbn. by apply Permutation_nil_r.
  - destruct Hits as [|it2 l2 its Ms Hit2 Hits].
    + exists (AChild it), q. split; [done|]. destruct Hu as (Hs & HP & Hl). cbn [concat] in HP. rewrite app_nil_r in HP.
      rewrite (sorted_perm_eq m l); [done|done|by apply Forall_cons in Hl as [? _]|done].
    + destruct (new_merging_ok (it :: it2 :: its) (l :: l2 :: Ms) m) as (mi & E & Hm); [by repeat constructor; [exists q|..]|done|].
      exists (AMerging mi), (-1). cbn [NewMergingIterator]. by rewrite E.
Qed.

(** C17: the merging iterator is a cursor on the union of its children.  Let
    the children be iterators that obey the laws over lists with different
    keys, [m] the sorted union of the lists, and take any script of moves in
    both directions that steps only from an entry: the script runs without a
    failed assertion, changes of direction included, and at its end the
    iterator is valid exactly when the same moves of a plain cursor on [m] end
    on an entry, whose key and value it then shows. *)
Theorem NewMergingIterator_correct its Ms m script p :
  Forall2 (fun it l => exists q, at_entry it l q) its Ms -> union_of cmp m Ms ->
  moves_pos cmp m None script = Some p ->
  exists a it, NewMergingIterator its = Some a /\ do_moves (H := any_iterator cmp) a script = Some it /\
    Valid (Iterator := any_iterator cmp) it = bool_decide (is_Some (at_pos m p)) /\
    forall k v, at_pos m p = Some (k, v) ->
      key (Iterator := any_iterator cmp) it = Some k /\ value (Iterator := any_iterator cmp) it = Some v.
Proof.
  intros Hits Hu Hscript. destruct (NewMergingIterator_ok its Ms m Hits Hu) as (a & p0 & Ea & Ha).
  destruct (do_moves_ok (H := any_iterator cmp) (H0 := any_laws cmp) script a m p0 None p Ha) as (it & Em & Hit); [by left|done|].
  exists a, it. split; [done|]. split; [done|]. split; [by apply (Valid_law (IteratorLaws := any_laws cmp) it m p)|].
  intros k v. by apply (key_law (IteratorLaws := any_laws cmp) it m p k v).
Qed.
End Union.

(** ** The iterator of the mock store *)

(** An iterator of the ordered map is the number of entries before it.
    [SeekToLast] goes behind the last entry and [Prev] throws its result away;
    [SeekForPrev] is a failed assertion. *)
Record MockIterator := mkMockIterator { kv_list_ : list (bytes * bytes); mock_iter_ : nat }.

Definition new_mock_iterator (kv_list : list (bytes * bytes)) : MockIterator := mkMockIterator kv_list (length kv_list).

#[export] Instance mock_iterator : Iterator MockIterator := {
  Valid it := bool_decide (mock_iter_ it <> length (kv_list_ it));
  SeekToFirst it := Some (mkMockIterator (kv_list_ it) 0);
  SeekToLast it := Some (mkMockIterator (kv_list_ it) (length (kv_list_ it)));
  Seek it target :=
    Some (mkMockIterator (kv_list_ it) (length (kv_list_ it) - length (om_lower_bound bytes_cmp target (kv_list_ it)))%nat);
  SeekForPrev _ _ := None;
  Next it :=
    if bool_decide (mock_iter_ it < length (kv_list_ it))%nat then Some (mkMockIterator (kv_list_ it) (S (mock_iter_ it))) else None;
  Prev it := Some it;
  key it := fst <$> (kv_list_ it !! mock_iter_ it);
  value it := snd <$> (kv_list_ it !! mock_iter_ it);
  status _ := status_ok }.

(** The mock cannot be read from its end. *)
Lemma mock_SeekToLast_invalid (it : MockIterator) : Valid <$> SeekToLast it = Some false.
Proof. cbn. f_equal. by apply bool_decide_eq_false; intros []. Qed.

(** ** A cursor *)

(** What RocksDB documents of its iterators, as a program. *)
Record Cursor := mkCursor { c_entries : list (bytes * bytes); c_pos : Z }.

Definition cursor_to (it : Cursor) (p : Z) : option Cursor := Some (mkCursor (c_entries it) p).

#[export] Instance cursor_iterator : Iterator Cursor := {
  Valid it := match at_pos (c_entries it) (c_pos it) with Some _ => true | None => false end;
  SeekToFirst it := cursor_to it 0;
  SeekToLast it := cursor_to it (Z.of_nat (length (c_entries it)) - 1);
  Seek it k := cursor_to it (cnt (lt_key bytes_cmp k) (c_entries it));
  SeekForPrev it k := cursor_to it (cnt (le_key bytes_cmp k) (c_entries it) - 1);
  Next it := _ ← at_pos (c_entries it) (c_pos it); cursor_to it (c_pos it + 1);
  Prev it := _ ← at_pos (c_entries it) (c_pos it); cursor_to it (c_pos it - 1);
  key it := fst <$> at_pos (c_entries it) (c_pos it);
  value it := snd <$> at_pos (c_entries it) (c_pos it);
  status _ := status_ok }.

#[export] Program Instance cursor_laws : IteratorLaws Cursor bytes_cmp :=
  {| at_entry it m p := it = mkCursor m p /\ om_sorted bytes_cmp m |}.
Next Obligation. by intros it m p [_ Hs]. Qed.
Next Obligation.
  intros it m p [-> _]. cbn. destruct (at_pos m p) as [e|]; symmetry; [by apply bool_decide_eq_true|].
  apply bool_decide_eq_false. by intros [? ?].
Qed.
Next Obligation. intros it m p k v [-> _] He. cbn. by rewrite He. Qed.
Next Obligation. intros it m p [-> Hs]. by eexists. Qed.
Next Obligation. intros it m p [-> Hs]. by eexists. Qed.
Next Obligation. intros it m p k [-> Hs]. by eexists. Qed.
Next Obligation. intros it m p k [-> Hs]. by eexists. Qed.
Next Obligation. intros it m p [-> Hs] [e He]. cbn. rewrite He. by eexists. Qed.
Next Obligation. intros it m p [-> Hs] [e He]. cbn. rewrite He. by eexists. Qed.

Definition odd_keys : list (bytes * bytes) := [([1], [10]); ([3], [30])].
Definition even_keys : list (bytes * bytes) := [([2], [20]); ([4], [40])].
Definition all_keys : list (bytes * bytes) := [([1], [10]); ([2], [20]); ([3], [30]); ([4], [40])].

(** Forward to 3, back to 2 and 1, forward again. *)
Definition zigzag : list movement := [MSeek [2]; MNext; MPrev; MPrev; MNext].

Lemma NewMergingIterator_correct_witness :
  exists a it, NewMergingIterator [mkCursor odd_keys 0; mkCursor even_keys 7] = Some a /\
    do_moves (H := any_iterator bytes_cmp) a zigzag = Some it /\ key (Iterator := any_iterator bytes_cmp) it = Some [2].
Proof.
  destruct (NewMergingIterator_correct [mkCursor odd_keys 0; mkCursor even_keys 7] [odd_keys; even_keys] all_keys zigzag 1)
    as (a & it & Ea & Em & _ & Hk).
  - repeat (apply Forall2_cons_2; [eexists; split; [reflexivity|repeat constructor]|]). apply Forall2_nil_2.
  - split; [repeat constructor|]. split; [|repeat constructor].
    apply (bool_decide_unpack (all_keys ≡ₚ concat [odd_keys; even_keys])). vm_compute. exact I.
  - vm_compute. reflexivity.
  - exists a, it. split; [exact Ea|]. split; [exact Em|]. apply (Hk [2] [20]). vm_compute. reflexivity.
Defined.
